(* ===== verification/_CoqProject ===== *)
-Q . S2P
Prelude.v
GoStrings.v
GoNumbers.v
Regex.v
HumanDuration.v
Namespace.v
Permissions.v
PermissionValidator.v
Labels.v
LabelSelector.v
RateRules.v
Redis.v
Limiters.v
TokenBucket.v
Enforcer.v
Reactive.v
SetupFlow.v
Connection.v
SetupWalk.v
ConnectionFrames.v
SetupSafety.v
ProbeHealth.v
Paging.v
Actors.v
ActorList.v
AuthService.v
AuthSafety.v
AuthSessions.v
AuthExamples.v
NamespaceStore.v
LabelPropagation.v
KeyMaterial.v
Encryption.v
EncryptService.v
EncryptTargets.v
EncryptionSafety.v
EncryptExamples.v
OAuth2Config.v
CredentialStore.v
OAuth2.v
OAuth2Safety.v
OAuth2Examples.v
Connectors.v
ConnectorService.v
ConnectorMigration.v
ConnectorExamples.v
HttpFactory.v
HttpHeaders.v
ApiKey.v
OAuth2Refresh.v
Proxy.v
Authenticators.v
ProxyExamples.v
