(* ===== verification/Prelude.v ===== *)
(** * AuthProxy: a verification library

    AuthProxy is a multi-tenant service that keeps connections to third-party
    systems and proxies authenticated requests through them.  Every resource
    lives in a namespace of a tree; actors hold permissions on namespaces;
    resources carry labels, part of which the system manages; requests through
    a connection pass rate limits selected by labels.

    This library translates the parts of the Go program that decide what a
    request may do and what is stored, definition by definition, and proves
    what makes them correct.

    ** Files

    - Prelude (this file): results and panics of Go calls, 64-bit integers,
      sorting, tactics and shared lemmas.
    - GoStrings: Go strings as byte strings, the functions of package
      [strings] the program calls, and a lemma library about slicing,
      splitting, joining, trimming and the byte order.
    - GoNumbers: decimal printing and parsing of [strconv], durations in
      nanoseconds, Go's division.
    - Regex: regular expressions with a derivative matcher proved equal to
      their language; the program's patterns are values of this type.
    - Namespace: package [schema/resources/namespace] (namespace.go).
    - Permissions: [schema/auth/permission.go] and package [apauth/core].
    - PermissionValidator: [apauth/service] permission_validator.go, gin.go,
      auth_conditions.go, and the namespace restriction of [database]
      queries.
    - Labels: [database/labels.go] and the label operations of
      [database/namespace.go].
    - LabelSelector: [database/label_selector.go].
    - HumanDuration: [schema/common/human_duration.go].
    - RateRules: rate-limit definitions ([schema/resources/rate_limit]) with
      their validation, rule matching and bucket keys ([ratelimit/matcher.go],
      bucket_key.go).
    - Redis: the commands the program issues as an interface
      ([RedisServer]), with an implementation over finite maps; scripts as
      programs over it; Lua numbers as an interface ([LuaNum]).
    - Limiters: [ratelimit/limiter*.go], the fixed-window, sliding-window and
      token-bucket limiters with their Lua scripts.
    - TokenBucket: how many requests the token bucket lets through.
    - Enforcer: [ratelimit/enforcer.go], cache.go, refresher.go and the dry
      run of [core/service_rate_limit.go].
    - Reactive: [ratelimit/roundtripper.go], retry_after.go, store.go and
      [schema/resources/connectors/rate_limiting.go], which block a
      connection after an upstream 429.
    - SetupFlow: [schema/resources/connectors] setup_flow.go and probe.go, the
      steps a connector asks for and their validation.
    - Connection: the connection row, the manifest of setup steps, the
      dispatcher and the operations of [core] on a connection, setup tokens
      ([core/setup_token]) and the public endpoints that redeem them.
    - SetupWalk: the walk a manifest presents, that it ends and completes.
    - ConnectionFrames: which parts of the world each operation leaves alone.
    - SetupSafety: what holds over every sequence of operations.
    - ProbeHealth: [core/connection_probe_health.go], task_probe.go and
      task_probe_outcome_cleanup.go with the outcome log of
      [database/connection_probe_outcome.go].
    - Paging: walking a listing page by page, shared by every table.
    - Actors: the table of actors ([database/actor.go], annotations.go): rows,
      validation, creation, upsert, renaming, deletion, labels, annotations.
    - ActorList: listing actors with filters, order, pages and cursors, and
      the synchronisation of configured actors
      ([apauth/tasks/sync_actors.go]).
    - AuthService: authentication of a request ([apauth/service]
      auth_methods.go, session.go, actor_cache.go, middleware.go, [apauth/jwt]
      auth_proxy_claims.go, [database/used_nonce.go]): keys, tokens, nonces,
      sessions, cookies and XSRF values.
    - AuthSafety: what an authenticated request has shown; nonces.
    - AuthSessions: that an established session serves requests.
    - AuthExamples: an instance of what authentication calls, and executions.
    - NamespaceStore: the table of namespaces ([database/namespace.go]) and
      the operations of [core/service_namespace.go]: creation with its
      ancestors, keys, deletion, labels, listing.
    - LabelPropagation: labels carried from a namespace to what it holds
      ([database/labels_propagate.go]).
    - KeyMaterial: how a data encryption key is made, wrapped by a provider
      and unwrapped ([schema/resources/key], [encrypt/service.go]), and the
      string form of an encrypted field ([encfield]).
    - Encryption: the tables of keys and data encryption keys, the registry of
      encrypted columns, the encryption targets of namespaces
      ([database/key.go], data_encryption_key.go, reencrypt_registry.go).
    - EncryptService: [encrypt/service.go] and the tasks of [encrypt]: caches,
      encryption and decryption, generation, synchronisation, re-encryption,
      and the key operations of [core/service_key.go].
    - EncryptTargets: which key each namespace should use.
    - EncryptionSafety: what holds over every sequence of operations.
    - EncryptExamples: a cipher, and executions.
    - OAuth2Config: the OAuth2 section of a connector and its validation
      ([schema/resources/connectors]), scopes, PKCE verifiers, and [net/url]
      values as an interface ([UrlLib]).
    - CredentialStore: the tables of OAuth2 tokens and API keys
      ([database/oauth2_token.go], api_key_credential.go) as one table of
      credentials that refines a map from connections to credentials.
    - OAuth2: [auth_methods/oauth2] and [util/retry/retry.go]: states in Redis,
      authorization URLs, callbacks, exchange, refresh, revocation, the
      background tasks and [routes/public_oauth2.go].
    - OAuth2Safety: that a flow is completed once, by whoever started it.
    - OAuth2Examples: a provider, and executions.
    - Connectors: the tables of connectors and their versions
      ([database/connector.go], connector_definition_version.go,
      connector_with_definition.go) and what every sequence of writes keeps.
    - ConnectorService: the operations of [core] on drafts and states and the
      migration of configured connectors ([core/service_migration.go]).
    - ConnectorMigration: that migration settles and keeps the tables.
    - ConnectorExamples: configurations, and executions.
    - HttpFactory: the client factory of [httpf] and the labels and identity a
      request is rate-limited by.
    - HttpHeaders: canonical headers and which of them cross the proxy.
    - ApiKey: [auth_methods/api_key] and its placement.
    - OAuth2Refresh: what a refresh does and which token a request carries.
    - Proxy: [proxy/proxy.go], requests that are wrapped and requests that are
      streamed, over an interface of auth methods ([Authenticator]).
    - Authenticators: the auth methods as instances of that interface.
    - ProxyExamples: an upstream, and executions.

    ** How the parts interact

    A request is authenticated (AuthService) as an actor of the database
    (Actors) by a token or by a session in Redis; its permissions are checked
    by the route middleware (PermissionValidator, on top of Permissions and Namespace), and
    lists are restricted to the namespaces it may see.  Resources carry Labels,
    which propagate from parent to child and are queried by LabelSelector.
    A proxied request passes the Enforcer, which takes the rules of its cache,
    keeps those whose selector matches the request and its labels (RateRules),
    and asks the limiter of each for a decision (Limiters, on Redis); then the
    Reactive limiter, which keeps its state in Redis too.

    Namespaces form a tree (NamespaceStore); creating one creates its
    ancestors, and its labels are carried down to the resources it holds
    (LabelPropagation), now or by a background refresh.  Each namespace has an
    encryption key, its own or the nearest ancestor's (EncryptTargets); a key
    wraps the data-encryption keys that seal the credentials and sessions of
    the other components, and is itself sealed under the key of the level
    above (Encryption).  Every process keeps the unwrapped keys in a cache that
    a background task synchronises (EncryptService).

    Before it can proxy, a connection is set up: its connector's SetupFlow and
    its auth method give a manifest of steps, which the operations of
    Connection walk through, storing answers and credentials, running probes
    and handing out setup tokens on the way.  The connector is a version of
    what the configuration file or the API stored (Connectors,
    ConnectorService).  With OAuth2 the credential step is a flow through the
    provider (OAuth2), with an API key a form (ApiKey); both end in a row of
    CredentialStore that is sealed by EncryptService.  The Proxy asks the auth
    method of a connection for headers, sends the caller's request with them
    through the HttpFactory and its round trippers, and after a 401 asks for
    new ones once.

    ** How the code is translated

    A Go function becomes a function of the same name.  A call that may panic
    returns [outcome]; a call that returns an error returns [option] of an
    error (only an error) or [result].  Pointers that may be nil are options;
    interfaces that a value may not implement are optional accessors.
    Strings are lists of bytes, so lengths and slices are those of Go; integers
    are [Z] and conversions to [uint64] and [int] are written out where a
    computation could wrap.  Maps are [gmap]; where the result of ranging over
    a map could depend on the iteration order, the order is an argument.
    Mutable objects (the resource validator, table rows) are states passed
    through the operations.

    Code outside the repository is a parameter: the mustache renderer, the SQL
    [LIKE] operator, the JSON functions of the databases, Redis, Lua and
    floating-point numbers, date parsing, glob and regular-expression matching
    of rule paths, random numbers, and for setups JSON, JSON Schema and
    JavaScript predicates ([External]), the actor of the request ([Caller]) and
    the state of an auth method; for actor lists the database's order and JSON
    and the sealed cursors ([Dialect]); for authentication the JWT library,
    JSON, base64 and encryption ([AuthExternal]); for keys the authenticated
    cipher and base64 ([Cipher]), the key configurations and their providers
    ([KeyConfig]), the random source and the clock; for auth methods URLs
    ([UrlLib]), JSON and SHA-256 ([OAuthExternal], [ApiKeyExternal]) and the
    providers' answers; for the proxy the HTTP client and the upstream
    ([HttpLib]); for connectors JSON and SHA-1 ([ConnectorJson]).  What is
    assumed of them is a named
    definition or class ([like_prefix_complete], [json_functions_ok],
    [RedisServer], [LuaNumLaws], [ttl_rounds], [AuthStepsFresh], [dialect_ok],
    [AuthExternalLaws], [CipherLaws], [key_data_ok], [OAuthExternalLaws],
    [ApiKeyExternalLaws], [HttpLibLaws]) stating documented behaviour, and the theorems that use it come with an instance for which it holds.

    Redis keeps state between requests, so its users are state transformers
    over any [RedisServer].  A script is one atomic step at an instant of the
    server's clock; a connection may lose the request or the reply ([link]),
    so theorems cover failures at every call.  Sequences of calls by many
    requests are runs: lists of calls or a step relation, ordered by the clock.

    An operation on a connection is a function of a world: the row, the copy
    it loaded, the auth method's state, tokens and queued work, and a schedule
    of failing calls.  What it wrote before a failure stays.  Operations of one
    connection are taken one after the other.

    ** What is proved

    Namespace: the validators accept exactly the dotted paths under [root] and
    those followed by [.**]; [Matches] decides membership in the set of
    namespaces a matcher denotes (one path, or a subtree of paths as lists of
    segments); parents, names, depths and prefixes of a path fit together;
    [SplitPathsToPrefixes] lists ancestors once, parents first, whatever the
    map order; [ConstrainMatcher] is the intersection outside
    [constrain_defect], and is shown not to be inside it.

    Permissions: [Allows] grants exactly what some permission and, if there are
    any, some restriction grant; restrictions only narrow; the matchers of
    [GetNamespacesAllowed] cover exactly the namespaces where [Allows] says
    yes, as long as no pair of matchers is in [constrain_defect].

    PermissionValidator: the route middleware lets only authenticated,
    permitted requests reach a handler and completes only when the handler
    validated something; restricting a list query to the effective namespaces
    and filtering the rows returns exactly the accessible objects; the
    effective matchers with a query filter are the intersection.

    Labels: key validation accepts exactly the two documented grammars; user
    operations never touch reserved labels and keep stored labels valid; split,
    merge and upsert resolve every key as documented; carried labels are exact
    and independent of the iteration order when no keys collide, and shown
    order-dependent when they do.

    LabelSelector: parsing inverts printing; the SQL predicates agree with the
    in-memory matcher; a selector built from a map matches exactly its
    supersets.

    HumanDuration: which durations survive being stored as JSON and read back,
    and which do not.

    RateRules: validation accepts exactly the well-formed definitions; a rule
    matches exactly the requests its clauses select; two requests share a
    bucket exactly when every dimension has the same value.

    Limiters: the fixed window accepts at most its limit per window and the
    sliding log at most its limit in every trailing window, over any run of
    calls with connection failures; [Peek] predicts [Decide] for every
    algorithm and changes nothing; buckets do not influence each other; every
    error allows the request.

    TokenBucket: over any run of calls a bucket that fills within the idle hour
    lets through at most its capacity and what the rate adds in the time that
    passed, up to rounding.

    Enforcer: where the rules of the cache are in scope, a request is rejected
    exactly when a matching enforced rule rejects it, with the longest wait; the dry run predicts this; the cache
    keeps the last good snapshot; rules of unrelated namespaces apply.

    Reactive: after an upstream 429 the connection is blocked for the time
    requested, within its bounds, and then released; the count of consecutive
    429s is exact over an hour; three overflows and expiries shorten the wait.

    Setups: for a validated connector whose auth method adds steps under ids
    of their own the manifest is one walk through credential steps, verification and configure steps, presented step by step
    (SetupWalk); it never goes back, and a user who answers every step ends
    with a configured connection.  Over every sequence of operations and
    failing calls a connection with probes is configured only after a
    verification passed, as long as the OAuth2 callback arrives at a step of
    the connector; setup tokens are used once, by whom they were issued to; and
    executions show where the code does less (SetupSafety).

    ProbeHealth: over any sequence of runs of always-enabled probes and log
    cleanups, at increasing times and without failing calls, a connection is
    healthy exactly when counting every outcome says so.

    Actors: every sequence of operations keeps rows well formed and unique;
    what an upsert wrote is read back, and upserting it again changes nothing.
    ActorList: following the cursors of a listing returns every selected actor
    once, in order, and ends; synchronisation makes the table agree with the
    configuration.  Executions show where the code does less.

    Authentication: an authenticated request has a token signed with the key
    the store asks for, or the cookie of a session that has not expired with an
    XSRF value where one is needed (AuthSafety); a token with a nonce is
    accepted once, over any sequence of requests, cleanups and failing calls,
    and once more for each commit that fails unnoticed;
    an established session serves its owner until its last two seconds and
    nobody after it ended (AuthSessions); and executions show where
    restrictions are lost (AuthExamples).

    NamespaceStore: ensuring a path succeeds exactly when no namespace on the
    way is deleted or being destroyed, and then creates exactly the missing
    ones; over every sequence of operations rows are stored under their valid
    paths, keep the labels that identify them and refer to keys of their own
    branch.  LabelPropagation: after a change is propagated, and after the
    daily pass over any store, every row carries what its parents give it;
    where it does not is shown by executions.

    Encryption: over every sequence of operations by any number of processes, in
    which the root keeps the global key, no key is deleted and none gets a new
    configuration, a process that starts anew loads every key and decrypts every field to what
    was last written there (EncryptionSafety); each key has at most one current
    data encryption key; the walk over keys visits every key that is reachable
    from the global key once, by levels, and ends; reconciling targets gives
    every namespace the current data encryption key of the nearest key above
    it (EncryptTargets); executions show what the tasks miss
    (EncryptExamples).

    Credentials: over every sequence of operations, with inserts whose commit
    is lost, the tables return what an abstract store of the credentials in use
    says: at most one of a kind, the last that was committed (CredentialStore).
    Over
    every interleaving of starts, redirects, callbacks and cancellations of any
    actors, a state that a callback has used is never used again and belongs to
    the actor and connection of the flow (OAuth2Safety).  A refresh sends at
    most three equal requests, succeeds with the token then in use, and leaves
    the stored token alone when it fails for a transient reason; requests carry
    a token that has not expired or was just issued (OAuth2Refresh).  A key that
    was submitted is what later requests carry, where its placement says
    (ApiKey).

    Proxy: for every auth method that keeps the laws of [Authenticator], and
    the three of the program do, at most two requests are sent, the second
    after a 401 and a renewal and never with a body that was consumed; each has
    the credentials that were resolved for it, the second from what the renewal
    left, over whatever the caller sent; streamed answers
    reach the caller complete and in order; rate limits see the true identity
    of a request (HttpFactory); exactly the headers that are neither
    authorization, envelope nor hop-by-hop cross the proxy (HttpHeaders).

    Connectors: over every sequence of writes a connector has at most one
    primary version, numbers without gaps and a unique name, and what was
    published keeps its definition; after a migration that succeeded the next
    one passes the precheck and writes nothing for the configured connectors,
    except that entries with a name and a version and no id are refused
    (ConnectorMigration); executions show where migration goes wrong
    (ConnectorExamples).

    ** Bounds

    Fuel is used in [TrimSpace], which removes at least one byte per step and
    gets the length of the string, and in the duration reader, which consumes
    at least one byte per unit and gets the length too.  Walking the pages of a
    list gets one more than the number of rows, and every page but the last has
    at least one row.  The walk over keys gets one level per key and the walk
    up the namespaces one step per segment of the path.  A PKCE verifier is
    drawn in at most a thousand rounds of random bytes, the theorem about it
    says when that is enough; retries end after three attempts by themselves.
    The removal of orphaned connectors gets one page more than there are
    connectors, and more room is shown to change nothing.  Hypotheses on sizes (a
    path depth below [2^63], limits and windows up to [2^53], a maximum wait
    up to [2^62] nanoseconds) are those under which Go's conversions do not
    wrap and Lua's doubles are exact.  The limiter theorems assume that the
    clocks of the process and of Redis agree where the code relies on it.

    ** Transactions

    [transaction] (internal/database/util.go) assigns the error of a commit to
    a variable whose value was already returned, so that a commit that fails is
    reported as success.  The sequences of AuthSafety (nonces) and of
    CredentialStore have events for such commits; everywhere else the database
    is taken to commit what it accepted.

    ** Not modelled

    HTTP routing and JSON rendering, SQL text and schema migrations, OpenAPI
    documents, telemetry, metrics and request events, and the command-line
    tools are outside the library: they hold no state of their own that a
    theorem could be about, or are generated.  The workflow engine, its
    retries and timers, and with it the lifecycle workflows of connectors and
    the migration of connections between versions, run code that is not under
    src/.  Of the modelled components, the listing and labels of keys, the key
    providers' network calls, the scheduling of probes, notifications and the
    remaining queries of the connection store are left out; purging soft-deleted
    rows is modelled for namespaces only, and the redirects an HTTP client
    follows are part of one exchange. *)
From Stdlib Require Export Ascii ZArith Lia.
From stdpp Require Export base gmap sets list strings option.
From stdpp Require Export sorting.
From stdpp Require Export list.

Declare Scope go_scope.
Delimit Scope go_scope with go.
Open Scope go_scope.

(** ** Results of Go calls *)

(** A Go call that either returns or panics.  [GoPanic] stands for a run-time
    panic (a slice bound out of range, an explicit [panic]). *)
Inductive outcome (A : Type) : Type :=
  | GoPanic
  | GoRet (a : A).
Arguments GoPanic {A}.
Arguments GoRet {A} a.

#[export] Instance outcome_ret : MRet outcome := @GoRet.
#[export] Instance outcome_bind : MBind outcome := λ A B f m,
  match m with GoPanic => GoPanic | GoRet a => f a end.

#[export] Instance outcome_eq_dec `{EqDecision A} : EqDecision (outcome A).
Proof. solve_decision. Defined.

(** A Go call that returns a value or a non-nil [error]. *)
Inductive result (E A : Type) : Type :=
  | Err (e : E)
  | Ok (a : A).
Arguments Err {E A} e.
Arguments Ok {E A} a.

#[export] Instance result_ret {E} : MRet (result E) := @Ok E.
#[export] Instance result_bind {E} : MBind (result E) := λ A B f m,
  match m with Err e => Err e | Ok a => f a end.

Definition is_ok {E A} (r : result E A) : bool :=
  match r with Ok _ => true | Err _ => false end.

#[export] Instance result_eq_dec `{EqDecision E, EqDecision A} :
  EqDecision (result E A).
Proof. solve_decision. Defined.

(** ** Machine integers *)

(** Go's [int] and [int64] are 64-bit two's complement, [uint64] is modulo
    [2^64]; conversions between them keep the bit pattern. *)
Definition wrap64 (z : Z) : Z := z `mod` 2 ^ 64.

Definition int64_of (z : Z) : Z :=
  let u := wrap64 z in if bool_decide (u < 2 ^ 63)%Z then u else (u - 2 ^ 64)%Z.

Definition int64_range (z : Z) : Prop := (- 2 ^ 63 ≤ z < 2 ^ 63)%Z.

Lemma int64_of_id z : int64_range z → int64_of z = z.
Proof.
  unfold int64_range, int64_of, wrap64. intros [Hl Hu].
  destruct (decide (0 ≤ z)%Z) as [Hz|Hz].
  - rewrite Z.mod_small by lia. rewrite bool_decide_true; lia.
  - replace (z `mod` 2 ^ 64)%Z with (z + 2 ^ 64)%Z.
    + rewrite bool_decide_false; lia.
    + apply (Z.mod_unique _ _ (-1)); lia.
Qed.

Lemma int64_of_wrap64 z : int64_of (wrap64 z) = int64_of z.
Proof. unfold int64_of. by replace (wrap64 (wrap64 z)) with (wrap64 z) by (symmetry; apply Z.mod_mod; lia). Qed.

Lemma int64_of_range z : int64_range (int64_of z).
Proof.
  unfold int64_range, int64_of, wrap64.
  pose proof (Z.mod_pos_bound z (2 ^ 64) ltac:(lia)).
  case_bool_decide; lia.
Qed.

(** ** Tactics and hint databases *)

Create HintDb authproxy discriminated.

(** Split boolean connectives of hypotheses and goal into propositions. *)
Ltac bool_simpl :=
  repeat match goal with
  | H : _ && _ = true |- _ => apply andb_true_iff in H; destruct H
  | H : _ || _ = false |- _ => apply orb_false_iff in H; destruct H
  | H : negb _ = true |- _ => apply negb_true_iff in H
  | H : negb _ = false |- _ => apply negb_false_iff in H
  | H : bool_decide _ = true |- _ => apply bool_decide_eq_true in H
  | H : bool_decide _ = false |- _ => apply bool_decide_eq_false in H
  end.

(** Case analysis on the head [match]/[if]/[decide] of the goal, closing the
    trivial cases. *)
Ltac go_case :=
  repeat (case_match || case_bool_decide || case_decide); simplify_eq/=;
  try done.

(** ** Booleans, options and lists *)

Lemma existsb_list_elem_of {A} (f : A → bool) (l : list A) :
  existsb f l = true ↔ ∃ x, x ∈ l ∧ f x = true.
Proof. rewrite existsb_exists. by setoid_rewrite list_elem_of_In. Qed.

Lemma forallb_list_elem_of {A} (f : A → bool) (l : list A) :
  forallb f l = true ↔ ∀ x, x ∈ l → f x = true.
Proof. rewrite forallb_forall. by setoid_rewrite list_elem_of_In. Qed.

Lemma elem_of_List_filter {A} (f : A → bool) (l : list A) x : x ∈ List.filter f l ↔ f x = true ∧ x ∈ l.
Proof. rewrite !list_elem_of_In, filter_In. tauto. Qed.

Lemma existsb_map {A B} (g : A → B) (f : B → bool) (l : list A) :
  existsb f (map g l) = existsb (λ x, f (g x)) l.
Proof. induction l as [|x l IH]; simpl; [done|]. by rewrite IH. Qed.

Lemma filter_all {A} (P : A → Prop) `{∀ x, Decision (P x)} (l : list A) : Forall P l → filter P l = l.
Proof. induction 1 as [|x l Hx _ IH]; [done|]. by rewrite filter_cons_True, IH. Qed.

(** [slices.Contains]. *)
Definition slices_contains `{EqDecision A} (l : list A) (x : A) : bool :=
  bool_decide (x ∈ l).

Lemma slices_contains_spec `{EqDecision A} (l : list A) (x : A) :
  slices_contains l x = true ↔ x ∈ l.
Proof. apply bool_decide_eq_true. Qed.

(** ** Sorting

    [slices.SortFunc], [slices.SortStableFunc] and [sort.Slice] with a
    three-way comparison.  The comparisons of the program are total orders on
    the slices they sort (proved where they are used), for which the sorted
    permutation is unique, so the algorithm does not matter; insertion is
    stable. *)
Section sort.
Context {A : Type} (cmp : A → A → Z).

Fixpoint sort_insert (x : A) (l : list A) : list A :=
  match l with
  | [] => [x]
  | y :: l' => if bool_decide (cmp x y ≤ 0)%Z then x :: l else y :: sort_insert x l'
  end.

Definition SortFunc (l : list A) : list A := foldr sort_insert [] l.

Definition cmp_le (x y : A) : Prop := (cmp x y ≤ 0)%Z.

Lemma sort_insert_perm x l : sort_insert x l ≡ₚ x :: l.
Proof.
  induction l as [|y l IH]; simpl; [done|]. case_bool_decide; [done|].
  rewrite IH. apply Permutation_swap.
Qed.

Lemma SortFunc_perm l : SortFunc l ≡ₚ l.
Proof. induction l as [|x l IH]; simpl; [done|]. by rewrite sort_insert_perm, IH. Qed.

Lemma SortFunc_sorted_id l : StronglySorted cmp_le l → SortFunc l = l.
Proof.
  unfold SortFunc. induction 1 as [|x l Hs IH Hx]; cbn; [done|]. rewrite IH. destruct Hx as [|y l Hy _]; cbn; [done|].
  by rewrite bool_decide_true.
Qed.

Context (P : A → Prop).
Hypothesis cmp_total : ∀ x y, P x → P y → cmp_le x y ∨ cmp_le y x.
Hypothesis cmp_trans : ∀ x y z, P x → P y → P z → cmp_le x y → cmp_le y z → cmp_le x z.

Lemma sort_insert_sorted x l :
  P x → Forall P l → StronglySorted cmp_le l → StronglySorted cmp_le (sort_insert x l).
Proof.
  intros Hx Hl Hs. induction Hs as [|y l Hs IH Hy]; simpl.
  { by repeat constructor. }
  inversion Hl as [|?? HPy Hl']; subst. case_bool_decide as Hc.
  - constructor; [by constructor|]. constructor; [done|].
    rewrite Forall_forall in Hl', Hy |- *. intros z Hz. apply (cmp_trans x y z); auto.
  - constructor; [by apply IH|]. rewrite sort_insert_perm.
    constructor; [|done]. by destruct (cmp_total x y Hx HPy).
Qed.

Lemma SortFunc_sorted l : Forall P l → StronglySorted cmp_le (SortFunc l).
Proof.
  intros Hl. induction Hl as [|x l Hx Hl IH]; simpl; [constructor|].
  apply sort_insert_sorted; [done| |done]. by rewrite SortFunc_perm.
Qed.

Hypothesis cmp_antisym : ∀ x y, P x → P y → cmp_le x y → cmp_le y x → x = y.

Lemma SortFunc_unique l l' :
  Forall P l → l ≡ₚ l' → StronglySorted cmp_le l' → SortFunc l = l'.
Proof.
  intros Hl Hp Hs. eapply (StronglySorted_unique_strong cmp_le).
  - intros x y Hx Hy. rewrite SortFunc_perm in Hx. rewrite <-Hp in Hy.
    rewrite Forall_forall in Hl. auto.
  - by apply SortFunc_sorted.
  - done.
  - by rewrite SortFunc_perm.
Qed.
End sort.
