(* ===== verification/GoStrings.v ===== *)
(** * Go strings

    A Go string is an immutable sequence of bytes; it is modelled as Stdlib's
    [string], whose characters are the 256 byte values, and [len] is
    [String.length].  The functions below are the ones of package [strings]
    the program calls, with Go's argument order, and the lemmas the components
    share about slicing, splitting and joining at a separator byte. *)

From S2P Require Import Prelude.

(** ** Slices, prefixes and suffixes *)

(** [s[:n]] and [s[n:]] for an index in range. *)
Fixpoint str_take (n : nat) (s : string) : string :=
  match n, s with
  | S n, String a s => String a (str_take n s)
  | _, _ => ""
  end.

Fixpoint str_drop (n : nat) (s : string) : string :=
  match n, s with
  | S n, String _ s => str_drop n s
  | O, s => s
  | _, "" => ""
  end.

(** The slice expression [s[:n]] on an [int] bound: a bound below zero or
    above [len(s)] panics. *)
Definition slice_to (s : string) (n : Z) : outcome string :=
  if bool_decide (0 ≤ n ≤ Z.of_nat (String.length s))%Z
  then GoRet (str_take (Z.to_nat n) s) else GoPanic.

(** [strings.HasPrefix(s, p)]. *)
Fixpoint HasPrefix (s p : string) : bool :=
  match p, s with
  | "", _ => true
  | String b p, String a s => bool_decide (a = b) && HasPrefix s p
  | String _ _, "" => false
  end.

(** [strings.HasSuffix(s, p)]: [len(s) >= len(p) && s[len(s)-len(p):] == p]. *)
Definition HasSuffix (s p : string) : bool :=
  bool_decide (String.length p ≤ String.length s)%nat &&
  bool_decide (str_drop (String.length s - String.length p) s = p).

(** [strings.TrimPrefix] and [strings.TrimSuffix]. *)
Definition TrimPrefix (s p : string) : string :=
  if HasPrefix s p then str_drop (String.length p) s else s.

Definition TrimSuffix (s p : string) : string :=
  if HasSuffix s p then str_take (String.length s - String.length p) s else s.

(** ** Searching and splitting *)

Fixpoint str_forall (f : ascii → bool) (s : string) : bool :=
  match s with "" => true | String a s => f a && str_forall f s end.

(** [c] does not occur in [s]. *)
Definition no_char (c : ascii) (s : string) : bool :=
  str_forall (λ a, bool_decide (a ≠ c)) s.

(** [strings.Index] and [strings.LastIndex] for a one-byte needle; [None]
    stands for Go's [-1]. *)
Fixpoint Index (s : string) (c : ascii) : option nat :=
  match s with
  | "" => None
  | String a s => if decide (a = c) then Some O else S <$> Index s c
  end.

Fixpoint LastIndex (s : string) (c : ascii) : option nat :=
  match s with
  | "" => None
  | String a s =>
      match LastIndex s c with
      | Some i => Some (S i)
      | None => if decide (a = c) then Some O else None
      end
  end.

(** The first occurrence of a needle of any length: the text before and
    after it ([strings.SplitN(s, sep, 2)] when [sep] occurs). *)
Fixpoint cut (s sep : string) : option (string * string) :=
  if HasPrefix s sep then Some ("", str_drop (String.length sep) s)
  else match s with
       | "" => None
       | String a s =>
           match cut s sep with
           | Some (l, r) => Some (String a l, r)
           | None => None
           end
       end.

(** [strings.Contains]. *)
Definition Contains (s sep : string) : bool :=
  match cut s sep with Some _ => true | None => false end.

(** [strings.Split(s, sep)] for a one-byte separator. *)
Fixpoint Split (s : string) (c : ascii) : list string :=
  match s with
  | "" => [""]
  | String a s =>
      if decide (a = c) then "" :: Split s c
      else match Split s c with
           | [] => [String a ""]
           | w :: ws => String a w :: ws
           end
  end.

(** [strings.Join(elems, sep)] for a one-byte separator. *)
Fixpoint Join (l : list string) (c : ascii) : string :=
  match l with
  | [] => ""
  | [w] => w
  | w :: l => w +:+ String c (Join l c)
  end.

(** ** Trimming white space

    [strings.TrimSpace] removes the leading and trailing runes for which
    [unicode.IsSpace] holds.  Their UTF-8 encodings are listed here; since no
    encoding is a proper suffix of another rune's encoding, removing the rune
    is removing those bytes. *)
Definition byte (n : nat) : ascii := ascii_of_nat n.

Definition space_encodings : list string :=
  [ String (byte 9) ""; String (byte 10) ""; String (byte 11) "";
    String (byte 12) ""; String (byte 13) ""; " ";
    String (byte 194) (String (byte 133) "");
    String (byte 194) (String (byte 160) "");
    String (byte 225) (String (byte 154) (String (byte 128) ""));
    String (byte 226) (String (byte 128) (String (byte 168) ""));
    String (byte 226) (String (byte 128) (String (byte 169) ""));
    String (byte 226) (String (byte 128) (String (byte 175) ""));
    String (byte 226) (String (byte 129) (String (byte 159) ""));
    String (byte 227) (String (byte 128) (String (byte 128) "")) ] ++
  map (λ n, String (byte 226) (String (byte 128) (String (byte n) "")))
      (seq 128 11).

(** The number of bytes of the space rune at the start (at the end) of [s]. *)
Definition leading_space (s : string) : option nat :=
  String.length <$> List.find (HasPrefix s) space_encodings.

Definition trailing_space (s : string) : option nat :=
  String.length <$> List.find (HasSuffix s) space_encodings.

Fixpoint trim_left_fuel (fuel : nat) (s : string) : string :=
  match fuel, leading_space s with
  | S fuel, Some n => trim_left_fuel fuel (str_drop n s)
  | _, _ => s
  end.

Fixpoint trim_right_fuel (fuel : nat) (s : string) : string :=
  match fuel, trailing_space s with
  | S fuel, Some n => trim_right_fuel fuel (str_take (String.length s - n) s)
  | _, _ => s
  end.

(** Each step removes at least one byte, so [len(s)] steps are enough. *)
Definition TrimSpace (s : string) : string :=
  let l := trim_left_fuel (String.length s) s in
  trim_right_fuel (String.length l) l.

(** [strings.TrimRight] with a cutset of ASCII characters. *)
Fixpoint TrimRight (s cutset : string) : string :=
  match s with
  | "" => ""
  | String a s =>
      match TrimRight s cutset with
      | "" => if no_char a cutset then String a "" else ""
      | r => String a r
      end
  end.

(** [strings.ReplaceAll] for a non-empty [old]: occurrences from the left,
    without overlap; [skip] bytes belong to an occurrence already replaced. *)
Fixpoint replace_from (skip : nat) (s old new : string) : string :=
  match s with
  | "" => ""
  | String a s' =>
      match skip with
      | S skip => replace_from skip s' old new
      | O => if HasPrefix s old then new +:+ replace_from (String.length old - 1) s' old new
             else String a (replace_from O s' old new)
      end
  end.

Definition ReplaceAll (s old new : string) : string := replace_from 0 s old new.

(** ** Lemmas: concatenation, length, take and drop *)

Lemma str_app_nil_r (s : string) : s +:+ "" = s.
Proof. induction s as [|a s IH]; [done|]. by rewrite <-IH at 2. Qed.

Lemma str_app_assoc (a b c : string) : (a +:+ b) +:+ c = a +:+ (b +:+ c).
Proof.
  induction a as [|x a IH]; [done|].
  change (String x ((a +:+ b) +:+ c) = String x (a +:+ (b +:+ c))). by rewrite IH.
Qed.

Lemma str_cons_app x (a b : string) : String x a +:+ b = String x (a +:+ b).
Proof. done. Qed.

Lemma str_nil_app (b : string) : "" +:+ b = b.
Proof. done. Qed.

Lemma str_length_app (a b : string) :
  String.length (a +:+ b) = (String.length a + String.length b)%nat.
Proof. induction a as [|x a IH]; [done|]. rewrite str_cons_app. simpl. by rewrite IH. Qed.

Lemma str_app_nil_inv (a b : string) : a +:+ b = "" → a = "" ∧ b = "".
Proof. destruct a; [by destruct b|done]. Qed.

Lemma str_app_inj_r (a b c : string) : a +:+ c = b +:+ c → a = b.
Proof.
  revert b. induction a as [|x a IH]; intros [|y b] H.
  - done.
  - apply (f_equal String.length) in H.
    rewrite str_nil_app, str_cons_app in H. simpl in H. rewrite str_length_app in H. lia.
  - apply (f_equal String.length) in H.
    rewrite str_nil_app, str_cons_app in H. simpl in H. rewrite str_length_app in H. lia.
  - rewrite !str_cons_app in H. injection H as -> H. f_equal. by apply IH.
Qed.

Lemma str_take_drop n (s : string) : str_take n s +:+ str_drop n s = s.
Proof.
  revert s. induction n as [|n IH]; intros [|a s]; try done.
  simpl. by rewrite str_cons_app, IH.
Qed.

Lemma str_take_app (a b : string) : str_take (String.length a) (a +:+ b) = a.
Proof. induction a as [|x a IH]; [by destruct b|]. rewrite str_cons_app. simpl. by rewrite IH. Qed.

Lemma str_drop_app (a b : string) : str_drop (String.length a) (a +:+ b) = b.
Proof. induction a as [|x a IH]; [by destruct b|]. rewrite str_cons_app. done. Qed.

Lemma str_length_drop n (s : string) :
  String.length (str_drop n s) = (String.length s - n)%nat.
Proof. revert s. induction n; intros [|a s]; simpl; auto. Qed.

Lemma str_length_take n (s : string) :
  (n ≤ String.length s)%nat → String.length (str_take n s) = n.
Proof. revert s. induction n; intros [|a s]; simpl; intros; try lia. rewrite IHn; lia. Qed.

(** ** Lemmas: prefixes and suffixes *)

Lemma HasPrefix_spec (s p : string) : HasPrefix s p = true ↔ ∃ r, s = p +:+ r.
Proof.
  revert s. induction p as [|b p IH]; intros s.
  { split; [by exists s|by destruct s]. }
  destruct s as [|a s]; cbn [HasPrefix].
  - split; [done|]. by intros [r Hr].
  - rewrite andb_true_iff, bool_decide_eq_true, IH. split.
    + intros [-> [r ->]]. by exists r.
    + intros [r Hr]. rewrite str_cons_app in Hr. injection Hr as -> ->. eauto.
Qed.

Lemma HasSuffix_spec (s p : string) : HasSuffix s p = true ↔ ∃ r, s = r +:+ p.
Proof.
  unfold HasSuffix. rewrite andb_true_iff, !bool_decide_eq_true. split.
  - intros [Hle Hd]. exists (str_take (String.length s - String.length p) s).
    by rewrite <-Hd at 2; rewrite str_take_drop.
  - intros [r ->]. rewrite str_length_app.
    replace (String.length r + String.length p - String.length p)%nat
      with (String.length r) by lia.
    split; [lia|apply str_drop_app].
Qed.

Lemma HasPrefix_app (p r : string) : HasPrefix (p +:+ r) p = true.
Proof. apply HasPrefix_spec. eauto. Qed.

Lemma HasSuffix_app (r p : string) : HasSuffix (r +:+ p) p = true.
Proof. apply HasSuffix_spec. eauto. Qed.

Lemma TrimPrefix_app (p r : string) : TrimPrefix (p +:+ r) p = r.
Proof. unfold TrimPrefix. by rewrite HasPrefix_app, str_drop_app. Qed.

(** Dropping a suffix of known length: [m[:len(m)-len(p)]]. *)
Lemma str_take_suffix (r p : string) :
  str_take (String.length (r +:+ p) - String.length p) (r +:+ p) = r.
Proof.
  rewrite str_length_app.
  replace (String.length r + String.length p - String.length p)%nat
    with (String.length r) by lia. apply str_take_app.
Qed.

Lemma TrimSuffix_app (r p : string) : TrimSuffix (r +:+ p) p = r.
Proof. unfold TrimSuffix. by rewrite HasSuffix_app, str_take_suffix. Qed.

Lemma slice_to_app (r p : string) n :
  n = Z.of_nat (String.length r) → slice_to (r +:+ p) n = GoRet r.
Proof.
  intros ->. unfold slice_to. rewrite bool_decide_true.
  - by rewrite Nat2Z.id, str_take_app.
  - rewrite str_length_app. lia.
Qed.

(** ** Lemmas: characters *)

Lemma str_forall_app f (a b : string) :
  str_forall f (a +:+ b) = str_forall f a && str_forall f b.
Proof. induction a as [|x a IH]; [done|]. rewrite str_cons_app. simpl. by rewrite IH, andb_assoc. Qed.

Lemma str_forall_impl (f g : ascii → bool) (s : string) :
  (∀ a, f a = true → g a = true) → str_forall f s = true → str_forall g s = true.
Proof. intros Hfg. induction s; simpl; [done|]. intros H; bool_simpl. rewrite Hfg; auto. Qed.

Lemma no_char_app c (a b : string) : no_char c (a +:+ b) = no_char c a && no_char c b.
Proof. apply str_forall_app. Qed.

Lemma no_char_cons_eq c (s : string) : no_char c (String c s) = false.
Proof. unfold no_char. simpl. by rewrite bool_decide_false by auto. Qed.

Lemma no_char_class (f : ascii → bool) c (s : string) :
  f c = false → str_forall f s = true → no_char c s = true.
Proof.
  intros Hc. apply str_forall_impl. intros a Ha. apply bool_decide_eq_true. congruence.
Qed.

(** ** Lemmas: splitting and joining *)

Lemma Split_nonempty (s : string) c : Split s c ≠ [].
Proof. destruct s as [|a s]; simpl; [done|]. case_decide; [done|]. by destruct (Split s c). Qed.

Lemma Split_no_char (s : string) c : no_char c s = true → Split s c = [s].
Proof.
  induction s as [|a s IH]; [done|]. unfold no_char. simpl. intros H; bool_simpl.
  rewrite decide_False by done. by rewrite IH.
Qed.

Lemma Split_app (a b : string) c : Split (a +:+ String c b) c = Split a c ++ Split b c.
Proof.
  induction a as [|x a IH].
  - rewrite str_nil_app. simpl. by rewrite decide_True.
  - rewrite str_cons_app. simpl. rewrite IH.
    case_decide; [done|]. destruct (Split a c) eqn:E; [by destruct (Split_nonempty a c)|done].
Qed.

Lemma Join_cons w l c : l ≠ [] → Join (w :: l) c = w +:+ String c (Join l c).
Proof. by destruct l. Qed.

Lemma Join_app l1 l2 c :
  l1 ≠ [] → l2 ≠ [] → Join (l1 ++ l2) c = Join l1 c +:+ String c (Join l2 c).
Proof.
  intros H1 H2. induction l1 as [|w l1 IH]; [done|].
  destruct l1 as [|w' l1]; [by apply Join_cons|].
  change ((w :: w' :: l1) ++ l2) with (w :: ((w' :: l1) ++ l2)).
  rewrite !Join_cons by (by destruct l2). rewrite IH by done.
  by rewrite str_app_assoc, str_cons_app.
Qed.

Lemma Join_Split (s : string) c : Join (Split s c) c = s.
Proof.
  induction s as [|a s IH]; [done|]. simpl.
  pose proof (Split_nonempty s c). case_decide; subst.
  - rewrite Join_cons by done. by rewrite IH.
  - destruct (Split s c) as [|w ws] eqn:E; [done|].
    destruct ws; simpl in *; by rewrite <-IH.
Qed.

Lemma Split_Join l c :
  l ≠ [] → Forall (λ w, no_char c w = true) l → Split (Join l c) c = l.
Proof.
  intros Hne Hl. induction Hl as [|w l Hw Hl IH]; [done|].
  destruct l as [|w' l]; [by apply Split_no_char|].
  rewrite Join_cons, Split_app, Split_no_char, IH by done. done.
Qed.

Lemma Join_inj l1 l2 c :
  l1 ≠ [] → l2 ≠ [] →
  Forall (λ w, no_char c w = true) l1 → Forall (λ w, no_char c w = true) l2 →
  Join l1 c = Join l2 c → l1 = l2.
Proof. intros ???? H. rewrite <-(Split_Join l1 c), <-(Split_Join l2 c) by done. by rewrite H. Qed.

(** The last separator splits a string in one way, and so does the first. *)
Lemma last_sep_inj (a b x y : string) c :
  no_char c x = true → no_char c y = true →
  a +:+ String c x = b +:+ String c y → a = b ∧ x = y.
Proof.
  intros Hx Hy H. apply (f_equal (λ s, Split s c)) in H.
  rewrite !Split_app, (Split_no_char x), (Split_no_char y) in H by done.
  apply app_inj_tail in H as [H ->]. split; [|done].
  rewrite <-(Join_Split a c), <-(Join_Split b c). by rewrite H.
Qed.

Lemma first_sep_inj (a b x y : string) c :
  no_char c a = true → no_char c b = true →
  a +:+ String c x = b +:+ String c y → a = b ∧ x = y.
Proof.
  revert b. induction a as [|u a IH]; intros [|v b] Ha Hb H.
  - rewrite !str_nil_app in H. by injection H.
  - rewrite str_nil_app, str_cons_app in H. injection H as <- _. by rewrite no_char_cons_eq in Hb.
  - rewrite str_nil_app, str_cons_app in H. injection H as -> _. by rewrite no_char_cons_eq in Ha.
  - rewrite !str_cons_app in H. injection H as -> H. unfold no_char in Ha, Hb. cbn [str_forall] in Ha, Hb.
    bool_simpl. destruct (IH b) as [-> ->]; try done.
Qed.

(** The indices found delimit the first (last) occurrence. *)
Lemma LastIndex_None (s : string) c : LastIndex s c = None ↔ no_char c s = true.
Proof.
  induction s as [|a s IH]; [done|]. unfold no_char in *. simpl.
  destruct (LastIndex s c) as [i|].
  - split; [done|]. intros H; bool_simpl. destruct IH as [_ IH]. discriminate IH; done.
  - case_decide; subst.
    + by rewrite bool_decide_false by auto.
    + rewrite bool_decide_true by done. simpl. naive_solver.
Qed.

Lemma LastIndex_Some (s : string) c i :
  LastIndex s c = Some i →
  s = str_take i s +:+ String c (str_drop (S i) s) ∧ no_char c (str_drop (S i) s) = true.
Proof.
  revert i. induction s as [|a s IH]; intros i; [done|]. simpl.
  destruct (LastIndex s c) as [j|] eqn:E.
  - intros [= <-]. destruct (IH j eq_refl) as [Hs Hn]. simpl. split; [|done].
    rewrite str_cons_app. by rewrite Hs at 1.
  - case_decide as Hac; [|done]. intros [= <-]. subst.
    apply LastIndex_None in E. destruct s; simpl; auto.
Qed.

Lemma LastIndex_app (a b : string) c :
  no_char c b = true → LastIndex (a +:+ String c b) c = Some (String.length a).
Proof.
  intros Hb. induction a as [|x a IH].
  - rewrite str_nil_app. simpl. apply LastIndex_None in Hb. rewrite Hb. by rewrite decide_True.
  - rewrite str_cons_app. simpl. by rewrite IH.
Qed.

Lemma Index_None (s : string) c : Index s c = None ↔ no_char c s = true.
Proof.
  induction s as [|a s IH]; [done|]. unfold no_char in *. simpl.
  case_decide; subst.
  - by rewrite bool_decide_false by auto.
  - rewrite bool_decide_true by done. simpl. rewrite <-IH. by destruct (Index s c).
Qed.

Lemma Index_app (a b : string) c :
  no_char c a = true → Index (a +:+ String c b) c = Some (String.length a).
Proof.
  induction a as [|x a IH]; intros H.
  - rewrite str_nil_app. simpl. by rewrite decide_True.
  - rewrite str_cons_app. unfold no_char in *. simpl in *. bool_simpl.
    rewrite decide_False by done. by rewrite IH.
Qed.

Lemma Index_Some (s : string) c i :
  Index s c = Some i → ∃ a b : string, s = a +:+ String c b ∧ i = String.length a ∧ no_char c a = true.
Proof.
  revert i. induction s as [|x s IH]; intros i; simpl; [done|]. case_decide as Hx.
  - intros [= <-]. subst. by exists "", s.
  - destruct (Index s c) as [j|]; [|done]. intros [= <-]. destruct (IH j eq_refl) as (a & b & -> & -> & Ha). exists (String x a), b.
    split_and!; [by rewrite str_cons_app|done|]. unfold no_char in *. simpl. rewrite Ha, bool_decide_true by done. done.
Qed.

Lemma str_drop_after (a b : string) c : str_drop (String.length a + 1) (a +:+ String c b) = b.
Proof. induction a as [|x a IH]; [by rewrite str_nil_app; destruct b|]. by rewrite str_cons_app. Qed.

Create Rewrite HintDb go_str.
#[export] Hint Rewrite str_app_nil_r str_app_assoc str_cons_app str_nil_app
  str_length_app : go_str.

(** ** The byte-wise order of strings ([<] on Go strings) *)

Definition str_lt (a b : string) : Prop := String.ltb a b = true.

Lemma ascii_compare_lt_trans a b c :
  Ascii.compare a b = Lt → Ascii.compare b c = Lt → Ascii.compare a c = Lt.
Proof. unfold Ascii.compare. rewrite !N.compare_lt_iff. lia. Qed.

Lemma str_compare_lt_trans a b c :
  String.compare a b = Lt → String.compare b c = Lt → String.compare a c = Lt.
Proof.
  revert b c. induction a as [|x a IH]; intros [|y b] [|z c]; simpl; try done.
  destruct (Ascii.compare x y) eqn:Hxy; [|intros _|done].
  - apply Ascii.compare_eq_iff in Hxy as ->.
    destruct (Ascii.compare y z); [by apply IH|done..].
  - destruct (Ascii.compare y z) eqn:Hyz; [|intros _|done].
    + apply Ascii.compare_eq_iff in Hyz as ->. by rewrite Hxy.
    + by rewrite (ascii_compare_lt_trans x y z).
Qed.

Lemma str_lt_compare a b : str_lt a b ↔ String.compare a b = Lt.
Proof. unfold str_lt, String.ltb. by destruct (String.compare a b). Qed.

Lemma str_compare_refl a : String.compare a a = Eq.
Proof.
  pose proof (String.compare_antisym a a) as H. by destruct (String.compare a a).
Qed.

#[export] Instance str_lt_strict : StrictOrder str_lt.
Proof.
  split.
  - intros a. unfold complement. rewrite str_lt_compare. by rewrite str_compare_refl.
  - intros a b c. rewrite !str_lt_compare. apply str_compare_lt_trans.
Qed.

Lemma str_lt_total a b : str_lt a b ∨ a = b ∨ str_lt b a.
Proof.
  rewrite !str_lt_compare, (String.compare_antisym b a).
  destruct (String.compare a b) eqn:E; [|by left|by right; right].
  right; left. by apply String.compare_eq_iff.
Qed.

(** [slices.Sort] on strings and [slices.Compact]. *)
Definition str_cmp (a b : string) : Z :=
  if String.ltb a b then (-1)%Z else if String.ltb b a then 1%Z else 0%Z.

Definition sort_strings (l : list string) : list string := SortFunc str_cmp l.

Fixpoint slices_Compact `{EqDecision A} (l : list A) : list A :=
  match l with
  | x :: ((y :: _) as l') => if decide (x = y) then slices_Compact l' else x :: slices_Compact l'
  | _ => l
  end.

Lemma slices_Compact_cons `{EqDecision A} (x y : A) l :
  slices_Compact (x :: y :: l) =
    if decide (x = y) then slices_Compact (y :: l) else x :: slices_Compact (y :: l).
Proof. reflexivity. Qed.

Lemma str_cmp_le a b : cmp_le str_cmp a b ↔ a = b ∨ str_lt a b.
Proof.
  unfold cmp_le, str_cmp. pose proof (irreflexivity str_lt) as Hirr. unfold complement in Hirr.
  destruct (str_lt_total a b) as [H|[->|H]].
  - unfold str_lt in H. rewrite H. naive_solver lia.
  - unfold str_lt in Hirr. destruct (String.ltb b b) eqn:E; [by apply Hirr in E|]. naive_solver lia.
  - destruct (String.ltb a b) eqn:E.
    + exfalso. apply (Hirr a). by transitivity b.
    + pose proof H as H'. unfold str_lt in H'. rewrite H'. split; [lia|].
      intros [->|Hlt]; [by apply Hirr in H|]. unfold str_lt in Hlt. congruence.
Qed.

Lemma str_cmp_total a b : cmp_le str_cmp a b ∨ cmp_le str_cmp b a.
Proof. rewrite !str_cmp_le. destruct (str_lt_total a b) as [?|[?|?]]; auto. Qed.

Lemma str_cmp_trans a b c : cmp_le str_cmp a b → cmp_le str_cmp b c → cmp_le str_cmp a c.
Proof.
  rewrite !str_cmp_le. intros [->|?] [->|?]; auto. right. by transitivity b.
Qed.

Lemma sort_strings_perm l : sort_strings l ≡ₚ l.
Proof. apply SortFunc_perm. Qed.

Lemma sort_strings_sorted l : StronglySorted (cmp_le str_cmp) (sort_strings l).
Proof.
  apply (SortFunc_sorted _ (λ _, True)); [eauto using str_cmp_total|eauto using str_cmp_trans|].
  by apply Forall_true.
Qed.

Lemma slices_Compact_elem `{EqDecision A} (l : list A) x : x ∈ slices_Compact l ↔ x ∈ l.
Proof.
  induction l as [|y l IH]; [done|]. destruct l as [|z l]; [done|].
  rewrite slices_Compact_cons.
  case_decide as Hyz; [|rewrite !elem_of_cons, IH; rewrite elem_of_cons; tauto].
  rewrite IH. rewrite !elem_of_cons. subst. tauto.
Qed.

(** Sorting and compacting lists each element once, in strictly increasing
    order. *)
Lemma slices_Compact_sorted (l : list string) :
  StronglySorted (cmp_le str_cmp) l → StronglySorted str_lt (slices_Compact l).
Proof.
  induction 1 as [|y l Hs IH Hy]; [constructor|]. destruct l as [|z l]; [by repeat constructor|].
  rewrite slices_Compact_cons.
  case_decide as Hyz; [done|]. constructor; [done|].
  apply Forall_forall. intros x Hx. rewrite slices_Compact_elem in Hx.
  inversion Hy as [|?? Hyz' _]; subst. inversion Hs as [|?? _ Hz]; subst.
  apply str_cmp_le in Hyz' as [?|Hyz']; [done|].
  apply elem_of_cons in Hx as [->|Hx]; [done|].
  rewrite Forall_forall in Hz. apply Hz, str_cmp_le in Hx as [->|?]; [done|]. by transitivity z.
Qed.

(** ** Trimming and cutting strings without special characters *)

Section clean.
Variable ok : ascii → bool.
Hypothesis ok_no_space : forallb (λ enc, negb (str_forall ok enc)) space_encodings = true.

Lemma clean_no_space (s enc l r : string) :
  enc ∈ space_encodings → s = l +:+ enc +:+ r → str_forall ok s = true → False.
Proof.
  intros Henc -> Hs. rewrite !str_forall_app in Hs. bool_simpl.
  rewrite forallb_list_elem_of in ok_no_space. apply ok_no_space in Henc. bool_simpl. congruence.
Qed.

Lemma TrimSpace_clean (s : string) : str_forall ok s = true → TrimSpace s = s.
Proof.
  intros Hs.
  assert (leading_space s = None) as Hl.
  { unfold leading_space. destruct (List.find (HasPrefix s) space_encodings) as [enc|] eqn:Hf; [|done].
    apply find_some in Hf as [Hin [r Hr]%HasPrefix_spec]. exfalso.
    apply (clean_no_space s enc "" r); [by apply list_elem_of_In|done|done]. }
  assert (trailing_space s = None) as Ht.
  { unfold trailing_space. destruct (List.find (HasSuffix s) space_encodings) as [enc|] eqn:Hf; [|done].
    apply find_some in Hf as [Hin [r Hr]%HasSuffix_spec]. exfalso.
    apply (clean_no_space s enc r ""); [by apply list_elem_of_In|by rewrite str_app_nil_r|done]. }
  assert (∀ n, trim_left_fuel n s = s) as H1 by (intros [|n]; simpl; [done|by rewrite Hl]).
  assert (∀ n, trim_right_fuel n s = s) as H2 by (intros [|n]; simpl; [done|by rewrite Ht]).
  unfold TrimSpace. by rewrite H1, H2.
Qed.
End clean.

Lemma cut_none_char (s sep : string) c : no_char c s = true → cut s (String c sep) = None.
Proof.
  induction s as [|a s IH]; [done|]. unfold no_char. cbn [str_forall]. intros H. bool_simpl.
  cbn [cut HasPrefix]. rewrite bool_decide_false by done. cbn [andb]. by rewrite IH.
Qed.

(** The cut is at the first occurrence. *)
Lemma cut_app (a b sep : string) c :
  no_char c a = true → cut (a +:+ String c (sep +:+ b)) (String c sep) = Some (a, b).
Proof.
  induction a as [|x a IH]; intros Ha.
  - rewrite str_nil_app, <-str_cons_app.
    assert (HasPrefix (String c sep +:+ b) (String c sep) = true) as Hp by apply HasPrefix_app.
    pose proof (str_drop_app (String c sep) b) as Hd.
    rewrite str_cons_app in *. cbn [cut]. rewrite Hp. by rewrite Hd.
  - unfold no_char in Ha. cbn [str_forall] in Ha. bool_simpl. rewrite str_cons_app.
    cbn [cut HasPrefix]. rewrite bool_decide_false by done. cbn [andb]. by rewrite IH.
Qed.

(** A doubled separator does not occur in a string with a single one. *)
Lemma cut_none_double (a b : string) c :
  no_char c a = true → no_char c b = true → cut (a +:+ String c b) (String c (String c "")) = None.
Proof.
  intros Ha Hb. induction a as [|x a IH].
  - rewrite str_nil_app. cbn [cut HasPrefix]. rewrite bool_decide_true by done. cbn [andb].
    rewrite cut_none_char by done. destruct b as [|y b]; [done|]. unfold no_char in Hb.
    cbn [str_forall] in Hb. bool_simpl. cbn [HasPrefix]. by rewrite bool_decide_false.
  - unfold no_char in Ha. cbn [str_forall] in Ha. bool_simpl. rewrite str_cons_app.
    cbn [cut HasPrefix]. rewrite bool_decide_false by done. cbn [andb]. by rewrite IH.
Qed.

(** ** Binary digits, to write numbers and codes in concrete runs *)

Fixpoint pos_digits (p : positive) : string :=
  match p with xH => "" | xO p => String "0" (pos_digits p) | xI p => String "1" (pos_digits p) end.
Fixpoint digits_pos (s : string) : positive :=
  match s with "" => xH | String a s => if decide (a = "0"%char) then xO (digits_pos s) else xI (digits_pos s) end.

Lemma digits_pos_digits p : digits_pos (pos_digits p) = p.
Proof.
  induction p as [p IH|p IH|]; cbn [pos_digits digits_pos]; [rewrite decide_False by done|rewrite decide_True by done|]; congruence.
Qed.
