(* ===== verification/GoNumbers.v ===== *)
(** * Decimal numbers and durations

    The parts of [strconv] and [time] the program uses: printing and parsing
    decimal integers, durations in nanoseconds, and Go's truncated division. *)

From stdpp Require Export pretty.
From S2P Require Import Prelude GoStrings.

(** ** strconv *)

(** [strconv.FormatInt(z, 10)], [strconv.FormatUint(z, 10)], [strconv.Itoa]
    and the verb [%d]. *)
Definition FormatInt (z : Z) : string := pretty z.

Definition digit_value (a : ascii) : option Z :=
  let n := Z.of_nat (nat_of_ascii a) in
  if bool_decide (48 ≤ n ≤ 57)%Z then Some (n - 48)%Z else None.

(** The value of a string of decimal digits that follow the digits of [acc]. *)
Fixpoint digits_value (acc : Z) (s : string) : option Z :=
  match s with
  | "" => Some acc
  | String a s => d ← digit_value a; digits_value (10 * acc + d)%Z s
  end.

(** [strconv.ParseUint(s, 10, 64)] before the range check: a non-empty string
    of digits. *)
Definition parse_digits (s : string) : option Z :=
  match s with "" => None | _ => digits_value 0 s end.

Definition in_int64 (z : Z) : option Z :=
  if bool_decide (- 2 ^ 63 ≤ z < 2 ^ 63)%Z then Some z else None.

(** [strconv.ParseInt(s, 10, 64)] and [strconv.Atoi]; [None] stands for the
    error (bad syntax or out of range). *)
Definition ParseInt (s : string) : option Z :=
  match s with
  | String "-" s => z ← parse_digits s; in_int64 (- z)
  | String "+" s => z ← parse_digits s; in_int64 z
  | s => z ← parse_digits s; in_int64 z
  end.

(** ** time.Duration *)

(** Nanoseconds per unit. *)
Definition Millisecond : Z := 1000000.
Definition Second : Z := 1000 * Millisecond.
Definition Minute : Z := 60 * Second.
Definition Hour : Z := 60 * Minute.

(** [d.Milliseconds()]: truncated division. *)
Definition Milliseconds (d : Z) : Z := Z.quot d Millisecond.

(** [time.Duration(n) * unit] on 64 bits. *)
Definition duration_mul (n unit : Z) : Z := int64_of (n * unit).

(** Integer division and remainder of Go: truncated, a panic on zero. *)
Definition go_div (a b : Z) : outcome Z :=
  if decide (b = 0%Z) then GoPanic else GoRet (Z.quot a b).

Definition go_rem (a b : Z) : outcome Z :=
  if decide (b = 0%Z) then GoPanic else GoRet (Z.rem a b).

(** ** Lemmas *)

Lemma digit_value_char n : (n < 10)%N → digit_value (pretty_N_char n) = Some (Z.of_N n).
Proof.
  intros Hn.
  assert (n = 0 ∨ n = 1 ∨ n = 2 ∨ n = 3 ∨ n = 4 ∨ n = 5 ∨ n = 6 ∨ n = 7 ∨ n = 8 ∨ n = 9)%N as H by lia.
  by repeat (destruct H as [->|H]; [done|]); subst.
Qed.

(** Printing appends to the digits that follow: reading them back scales. *)
Lemma digits_value_pretty n s :
  digits_value 0 (pretty_N_go n s) = digits_value (Z.of_N n) s.
Proof.
  revert s. induction (N.lt_wf_0 n) as [n _ IH]; intros s.
  assert (n = 0 ∨ 0 < n)%N as [->|Hn] by lia; [done|].
  rewrite pretty_N_go_step by done. rewrite IH by (by apply N.div_lt).
  cbn [digits_value]. rewrite digit_value_char by (by apply N.mod_lt). cbn.
  f_equal. pose proof (N.div_mod n 10 ltac:(done)). lia.
Qed.

Lemma pretty_N_nonempty n : pretty_N n ≠ "".
Proof.
  unfold pretty_N. case_decide as Hn; [done|].
  assert (∀ n s, s ≠ "" → pretty_N_go n s ≠ "") as Hgo.
  { clear. intros n. induction (N.lt_wf_0 n) as [n _ IH]; intros s Hs.
    assert (n = 0 ∨ 0 < n)%N as [->|Hn] by lia; [done|].
    rewrite pretty_N_go_step by done. apply IH; [by apply N.div_lt|done]. }
  rewrite pretty_N_go_step by lia. by apply Hgo.
Qed.

Lemma parse_digits_pretty n : parse_digits (pretty_N n) = Some (Z.of_N n).
Proof.
  pose proof (pretty_N_nonempty n) as Hne.
  assert (digits_value 0 (pretty_N n) = Some (Z.of_N n)) as H.
  { unfold pretty_N. case_decide; [by subst|]. apply digits_value_pretty. }
  unfold parse_digits. by destruct (pretty_N n).
Qed.

Lemma pretty_N_head n a s : pretty_N n = String a s → is_Some (digit_value a).
Proof.
  intros H. pose proof (parse_digits_pretty n) as Hp. rewrite H in Hp.
  cbn in Hp. destruct (digit_value a); [by eexists|done].
Qed.

(** A printed integer reads back. *)
Lemma ParseInt_FormatInt z : int64_range z → ParseInt (FormatInt z) = Some z.
Proof.
  unfold int64_range, FormatInt. intros Hz.
  destruct z as [|p|p]; [done| |].
  - change (pretty (Z.pos p)) with (pretty_N (N.pos p)).
    pose proof (parse_digits_pretty (N.pos p)) as Hp.
    unfold ParseInt. destruct (pretty_N (N.pos p)) as [|a s] eqn:Hs; [done|].
    destruct (pretty_N_head _ _ _ Hs) as [d Hd].
    assert (a ≠ "-"%char ∧ a ≠ "+"%char) as [Hm Hpl] by (split; intros ->; done).
    repeat case_match; simplify_eq/=; try done;
      rewrite Hp; cbn; unfold in_int64; rewrite bool_decide_true; done.
  - change (pretty (Z.neg p)) with ("-" +:+ pretty_N (N.pos p)).
    change (ParseInt ("-" +:+ pretty_N (N.pos p)))
      with (z ← parse_digits (pretty_N (N.pos p)); in_int64 (- z)).
    rewrite parse_digits_pretty. cbn. unfold in_int64. by rewrite bool_decide_true.
Qed.

(** A printed integer consists of digits, after a sign if negative. *)
Definition is_digit (a : ascii) : bool := bool_decide (is_Some (digit_value a)).

Lemma digits_value_forall acc s z : digits_value acc s = Some z → str_forall is_digit s = true.
Proof.
  revert acc. induction s as [|a s IH]; [done|]. intros acc. cbn [digits_value str_forall].
  intros (d & Hd & Hs)%bind_Some. apply andb_true_intro. split; [|by eapply IH].
  apply bool_decide_eq_true. by eexists.
Qed.

Lemma parse_digits_value s z : parse_digits s = Some z → digits_value 0 s = Some z.
Proof. by destruct s. Qed.

Lemma FormatInt_no_char z c : is_digit c = false → c ≠ "-"%char → no_char c (FormatInt z) = true.
Proof.
  intros Hc Hm. unfold FormatInt.
  assert (∀ n, no_char c (pretty_N n) = true) as H.
  { intros n. pose proof (parse_digits_pretty n) as Hp. apply (no_char_class is_digit); [done|].
    unfold parse_digits in Hp. destruct (pretty_N n) as [|a s]; [done|]. by eapply (digits_value_forall 0). }
  destruct z as [|p|p].
  - apply (H 0%N).
  - apply (H (N.pos p)).
  - change (pretty (Z.neg p)) with ("-" +:+ pretty_N (N.pos p)). rewrite no_char_app, H.
    rewrite andb_true_r. unfold no_char. cbn [str_forall]. rewrite andb_true_r.
    apply bool_decide_eq_true. congruence.
Qed.

Lemma FormatInt_inj a b : FormatInt a = FormatInt b → a = b.
Proof. apply (inj pretty). Qed.

Lemma in_int64_range y z : in_int64 y = Some z → int64_range z.
Proof. unfold in_int64. by case_bool_decide; intros; simplify_eq. Qed.

Lemma ParseInt_range s z : ParseInt s = Some z → int64_range z.
Proof.
  unfold ParseInt. intros H.
  repeat case_match; apply bind_Some in H as (y & _ & H); by eapply in_int64_range.
Qed.

Lemma duration_mul_exact n unit : int64_range (n * unit) → duration_mul n unit = (n * unit)%Z.
Proof. apply int64_of_id. Qed.

Lemma Milliseconds_nonneg d : (0 ≤ d)%Z → (0 ≤ Milliseconds d)%Z.
Proof. intros. unfold Milliseconds, Millisecond. apply Z.quot_pos; lia. Qed.

Lemma Milliseconds_le d : (0 ≤ d)%Z → (Milliseconds d * Millisecond ≤ d)%Z.
Proof.
  intros. unfold Milliseconds, Millisecond.
  rewrite Z.quot_div_nonneg by lia. pose proof (Z.mul_div_le d 1000000). lia.
Qed.
