(* ===== verification/Regex.v ===== *)
(** * Regular expressions

    Package [regexp] of the Go standard library, as far as the program uses
    it: patterns anchored with [^...$] over ASCII character classes, matched
    with [MatchString].  A pattern is a term of [regex], written as the
    pattern in the source is; [re_match] decides membership by derivatives
    and [re_lang] is the language the pattern denotes. *)

From S2P Require Import Prelude GoStrings.

Inductive regex : Type :=
  | RVoid
  | REps
  | RChr (f : ascii → bool)
  | RSeq (r1 r2 : regex)
  | RAlt (r1 r2 : regex)
  | RStar (r : regex).

(** [r?], [r+] and [r{0,n}]. *)
Definition ROpt (r : regex) : regex := RAlt REps r.
Definition RPlus (r : regex) : regex := RSeq r (RStar r).
Fixpoint RUpto (n : nat) (r : regex) : regex :=
  match n with O => REps | S n => ROpt (RSeq r (RUpto n r)) end.

(** A literal. *)
Fixpoint RLit (s : string) : regex :=
  match s with
  | "" => REps
  | String a s => RSeq (RChr (λ b, bool_decide (a = b))) (RLit s)
  end.

(** ** The language of a pattern *)

Inductive re_lang : regex → string → Prop :=
  | L_eps : re_lang REps ""
  | L_chr f a : f a = true → re_lang (RChr f) (String a "")
  | L_seq r1 r2 s1 s2 : re_lang r1 s1 → re_lang r2 s2 → re_lang (RSeq r1 r2) (s1 +:+ s2)
  | L_alt_l r1 r2 s : re_lang r1 s → re_lang (RAlt r1 r2) s
  | L_alt_r r1 r2 s : re_lang r2 s → re_lang (RAlt r1 r2) s
  | L_star_nil r : re_lang (RStar r) ""
  | L_star_cons r s1 s2 :
      re_lang r s1 → re_lang (RStar r) s2 → re_lang (RStar r) (s1 +:+ s2).

(** ** Matching by derivatives *)

Fixpoint nullable (r : regex) : bool :=
  match r with
  | RVoid | RChr _ => false
  | REps | RStar _ => true
  | RSeq r1 r2 => nullable r1 && nullable r2
  | RAlt r1 r2 => nullable r1 || nullable r2
  end.

(** Constructors that drop the empty language, to keep derivatives small. *)
Definition mk_seq (r1 r2 : regex) : regex :=
  match r1, r2 with
  | RVoid, _ | _, RVoid => RVoid
  | REps, r2 => r2
  | r1, r2 => RSeq r1 r2
  end.

Definition mk_alt (r1 r2 : regex) : regex :=
  match r1, r2 with
  | RVoid, r2 => r2
  | r1, RVoid => r1
  | r1, r2 => RAlt r1 r2
  end.

Fixpoint deriv (a : ascii) (r : regex) : regex :=
  match r with
  | RVoid | REps => RVoid
  | RChr f => if f a then REps else RVoid
  | RSeq r1 r2 =>
      let d := mk_seq (deriv a r1) r2 in
      if nullable r1 then mk_alt d (deriv a r2) else d
  | RAlt r1 r2 => mk_alt (deriv a r1) (deriv a r2)
  | RStar r => mk_seq (deriv a r) (RStar r)
  end.

(** [regexp.MustCompile("^r$").MatchString(s)]. *)
Fixpoint re_match (r : regex) (s : string) : bool :=
  match s with
  | "" => nullable r
  | String a s => re_match (deriv a r) s
  end.

(** ** The matcher decides the language *)

Create HintDb regex.
#[export] Hint Constructors re_lang : regex.

Lemma L_seq_nil r1 r2 s : re_lang r1 "" → re_lang r2 s → re_lang (RSeq r1 r2) s.
Proof. intros. by apply (L_seq r1 r2 "" s). Qed.

Lemma re_lang_void s : ¬ re_lang RVoid s.
Proof. by inversion 1. Qed.

Lemma re_lang_eps s : re_lang REps s ↔ s = "".
Proof. split; [by inversion 1|intros ->; constructor]. Qed.

Lemma re_lang_chr f s : re_lang (RChr f) s ↔ ∃ a, s = String a "" ∧ f a = true.
Proof. split; [inversion 1; eauto|intros (a & -> & ?); by constructor]. Qed.

Lemma re_lang_seq r1 r2 s :
  re_lang (RSeq r1 r2) s ↔ ∃ s1 s2, s = s1 +:+ s2 ∧ re_lang r1 s1 ∧ re_lang r2 s2.
Proof. split; [inversion 1; eauto 10|intros (?&?&->&?&?); by constructor]. Qed.

Lemma re_lang_alt r1 r2 s : re_lang (RAlt r1 r2) s ↔ re_lang r1 s ∨ re_lang r2 s.
Proof. split; [inversion 1; auto|intros [?|?]; auto with regex]. Qed.

Lemma nullable_spec r : nullable r = true ↔ re_lang r "".
Proof.
  induction r as [| |f|r1 IH1 r2 IH2|r1 IH1 r2 IH2|r IH]; simpl.
  - split; [done|by intros ?%re_lang_void].
  - split; auto with regex.
  - split; [done|by intros (a & ? & ?)%re_lang_chr].
  - rewrite andb_true_iff, IH1, IH2, re_lang_seq. split.
    + intros [??]. by exists "", "".
    + intros (s1 & s2 & Hs & ? & ?). symmetry in Hs.
      by apply str_app_nil_inv in Hs as [-> ->].
  - by rewrite orb_true_iff, IH1, IH2, re_lang_alt.
  - split; auto with regex.
Qed.

Lemma mk_seq_lang r1 r2 s : re_lang (mk_seq r1 r2) s ↔ re_lang (RSeq r1 r2) s.
Proof.
  assert (re_lang (RSeq REps r2) s ↔ re_lang r2 s) as Heps.
  { rewrite re_lang_seq. setoid_rewrite re_lang_eps. split.
    - by intros (?&?&->&->&?).
    - intros. by exists "", s. }
  assert (¬ re_lang (RSeq RVoid r2) s) as Hvoid.
  { rewrite re_lang_seq. by intros (?&?&?&?%re_lang_void&?). }
  assert (∀ r, ¬ re_lang (RSeq r RVoid) s) as Hvoid2.
  { intros r. rewrite re_lang_seq. by intros (?&?&?&?&?%re_lang_void). }
  pose proof (re_lang_void s).
  destruct r1, r2; simpl; naive_solver.
Qed.

Lemma mk_alt_lang r1 r2 s : re_lang (mk_alt r1 r2) s ↔ re_lang (RAlt r1 r2) s.
Proof.
  pose proof (re_lang_void s). rewrite re_lang_alt.
  destruct r1, r2; simpl; try rewrite re_lang_alt; naive_solver.
Qed.

(** A string starting with [a] in the language of a star splits off a
    non-empty first factor. *)
Lemma re_lang_star_cons r a s :
  re_lang (RStar r) (String a s) ↔
  ∃ s1 s2, s = s1 +:+ s2 ∧ re_lang r (String a s1) ∧ re_lang (RStar r) s2.
Proof.
  split.
  - intros H. remember (RStar r) as q eqn:Hq. remember (String a s) as t eqn:Ht.
    induction H as [| | | | | |r' s1 s2 H1 _ H2 IH2]; simplify_eq.
    destruct s1 as [|b s1].
    + rewrite str_nil_app in Ht. auto.
    + rewrite str_cons_app in Ht. injection Ht as -> <-. eauto 10.
  - intros (s1 & s2 & -> & H1 & H2).
    rewrite <-str_cons_app. by apply L_star_cons.
Qed.

Lemma deriv_spec a r s : re_lang (deriv a r) s ↔ re_lang r (String a s).
Proof.
  revert s. induction r as [| |f|r1 IH1 r2 IH2|r1 IH1 r2 IH2|r IH]; intros s; simpl.
  - by split; intros ?%re_lang_void.
  - split; [by intros ?%re_lang_void|by intros ?%re_lang_eps].
  - destruct (f a) eqn:Hf.
    + rewrite re_lang_eps, re_lang_chr. split; [intros ->; eauto|by intros (?&[=]&?)].
    + split; [by intros ?%re_lang_void|]. intros (b & [= <- ->] & Hb)%re_lang_chr. congruence.
  - assert (re_lang (mk_seq (deriv a r1) r2) s ↔
        ∃ s1 s2, s = s1 +:+ s2 ∧ re_lang r1 (String a s1) ∧ re_lang r2 s2) as Hd.
    { rewrite mk_seq_lang, re_lang_seq. by setoid_rewrite IH1. }
    rewrite re_lang_seq. destruct (nullable r1) eqn:Hn.
    + rewrite mk_alt_lang, re_lang_alt, Hd, IH2. apply nullable_spec in Hn. split.
      * intros [(s1 & s2 & -> & ? & ?)|?]; [by exists (String a s1), s2|by exists "", (String a s)].
      * intros ([|b s1] & s2 & Hs & ? & ?); [right; by rewrite Hs|].
        rewrite str_cons_app in Hs. injection Hs as <- ->. eauto 10.
    + rewrite Hd. split.
      * intros (s1 & s2 & -> & ? & ?). by exists (String a s1), s2.
      * intros ([|b s1] & s2 & Hs & H1 & ?).
        { apply nullable_spec in H1. congruence. }
        rewrite str_cons_app in Hs. injection Hs as <- ->. eauto 10.
  - by rewrite mk_alt_lang, !re_lang_alt, IH1, IH2.
  - rewrite mk_seq_lang, re_lang_seq, re_lang_star_cons. by setoid_rewrite IH.
Qed.

Lemma re_match_spec r s : re_match r s = true ↔ re_lang r s.
Proof.
  revert r. induction s as [|a s IH]; intros r; simpl.
  - apply nullable_spec.
  - by rewrite IH, deriv_spec.
Qed.

(** ** Languages of the common shapes *)

Lemma re_lang_lit p s : re_lang (RLit p) s ↔ s = p.
Proof.
  revert s. induction p as [|a p IH]; intros s; simpl; [apply re_lang_eps|].
  rewrite re_lang_seq. setoid_rewrite re_lang_chr. setoid_rewrite IH. split.
  - by intros (? & ? & -> & (b & -> & <-%bool_decide_eq_true) & ->).
  - intros ->. exists (String a ""), p. split_and!; [done|eexists; split; [done|]|done].
    by apply bool_decide_eq_true.
Qed.

Lemma re_lang_lit_seq p r s : re_lang (RSeq (RLit p) r) s ↔ ∃ t, s = p +:+ t ∧ re_lang r t.
Proof. rewrite re_lang_seq. setoid_rewrite re_lang_lit. naive_solver. Qed.

(** [[class]*] is every string of characters of the class. *)
Lemma re_lang_star_chr f s : re_lang (RStar (RChr f)) s ↔ str_forall f s = true.
Proof.
  induction s as [|a s IH]; simpl; [split; auto with regex|].
  rewrite re_lang_star_cons, andb_true_iff, <-IH. setoid_rewrite re_lang_chr. split.
  - by intros (? & ? & -> & (b & [= <- ->] & ?) & ?).
  - intros [??]. exists "", s. naive_solver.
Qed.

(** [[class]{0,n}]. *)
Lemma re_lang_upto_chr n f s :
  re_lang (RUpto n (RChr f)) s ↔ str_forall f s = true ∧ (String.length s ≤ n)%nat.
Proof.
  revert s. induction n as [|n IH]; intros s; cbn [RUpto].
  - rewrite re_lang_eps. destruct s; simpl; naive_solver lia.
  - unfold ROpt. rewrite re_lang_alt, re_lang_eps, re_lang_seq.
    setoid_rewrite re_lang_chr. setoid_rewrite IH. split.
    + intros [->|(? & s2 & -> & (a & -> & Ha) & Hs & Hl)]; [simpl; split; [done|lia]|].
      rewrite str_cons_app, str_nil_app. simpl. rewrite Ha. simpl. split; [done|lia].
    + destruct s as [|a s]; [auto|]. simpl. intros [H Hl]. bool_simpl. right.
      exists (String a ""), s. naive_solver lia.
Qed.

(** [[first]([class]{0,n}[last])?]: the Kubernetes-style token.  A string of
    one to [n + 2] characters that starts with [first], ends with [first],
    and has [class] in between. *)
Definition token_regex (first mid : ascii → bool) (n : nat) : regex :=
  RSeq (RChr first) (ROpt (RSeq (RUpto n (RChr mid)) (RChr first))).

Lemma re_lang_token first mid n s :
  re_lang (token_regex first mid n) s ↔
  (∃ a, s = String a "" ∧ first a = true) ∨
  (∃ a m b, s = String a (m +:+ String b "") ∧ first a = true ∧ first b = true ∧
            str_forall mid m = true ∧ (String.length m ≤ n)%nat).
Proof.
  unfold token_regex, ROpt. rewrite re_lang_seq. setoid_rewrite re_lang_alt.
  setoid_rewrite re_lang_eps. setoid_rewrite re_lang_seq. setoid_rewrite re_lang_chr.
  setoid_rewrite re_lang_upto_chr. split.
  - intros (? & ? & -> & (a & -> & Ha) & [->|(m & ? & -> & [??] & b & -> & ?)]).
    + left. by exists a.
    + right. by exists a, m, b.
  - intros [(a & -> & ?)|(a & m & b & -> & ? & ? & ? & ?)].
    + exists (String a ""), "". naive_solver.
    + exists (String a ""), (m +:+ String b ""). split_and!; [done|eauto|].
      right. exists m, (String b ""). naive_solver.
Qed.

(** ** Character classes *)

Definition in_range (lo hi a : ascii) : bool :=
  bool_decide (nat_of_ascii lo ≤ nat_of_ascii a ≤ nat_of_ascii hi)%nat.

(** [[a-zA-Z0-9]] *)
Definition is_alnum (a : ascii) : bool :=
  in_range "a" "z" a || in_range "A" "Z" a || in_range "0" "9" a.

Definition is_one_of (l : list ascii) (a : ascii) : bool := bool_decide (a ∈ l).
