(* ===== verification/HumanDuration.v ===== *)
(** * Human-readable durations

    [schema/common/human_duration.go]: durations are written to JSON with
    [time.Duration.String] and read back with a parser for a pattern of days,
    hours, minutes, seconds and milliseconds.  Windows of rate limits and the
    retry times of connectors are stored this way.

    Of package [time], [Duration.String] is modelled in full and
    [ParseDuration] for unsigned numbers without a fraction, which are the
    only ones the pattern lets through. *)

From S2P Require Import Prelude GoNumbers GoStrings Regex.
Open Scope string_scope.
Open Scope list_scope.

(** ** The patterns *)

Definition digits_re : regex := RPlus (RChr is_digit).
Definition amount_re (unit : string) : regex := ROpt (RSeq digits_re (RLit unit)).

Definition HumanDurationRegex : regex :=
  RSeq (amount_re "d") (RSeq (amount_re "h") (RSeq (amount_re "m") (RSeq (amount_re "s") (amount_re "ms")))).

Definition onlyDayRegex : regex := RPlus (RSeq digits_re (RLit "d")).

(** The longest prefix of bytes that satisfy [f], and the rest. *)
Fixpoint span (f : ascii → bool) (s : string) : string * string :=
  match s with
  | "" => ("", "")
  | String a s' => if f a then let '(x, y) := span f s' in (String a x, y) else ("", s)
  end.

(** [FindStringSubmatch] of [^(\d+d)(.+)]: the digits of the first group and
    the second group (the pattern has no line breaks). *)
Definition startsWithDay (s : string) : option (string * string) :=
  match span is_digit s with
  | (String a ds, String "d" ((String _ _) as rest)) => Some (String a ds, rest)
  | _ => None
  end.

(** ** time.ParseDuration *)

Definition unitMap (u : string) : option Z :=
  if decide (u = "ns") then Some 1%Z
  else if decide (u = "us") then Some 1000%Z
  else if decide (u = "ms") then Some Millisecond
  else if decide (u = "s") then Some Second
  else if decide (u = "m") then Some Minute
  else if decide (u = "h") then Some Hour
  else None.

Definition leadingInt (ds : string) : option Z :=
  v ← parse_digits ds; if decide (v ≤ 2 ^ 63)%Z then Some v else None.

Definition unit_byte (a : ascii) : bool := negb (is_digit a) && bool_decide (a ≠ "."%char).

(** The loop of [ParseDuration]; every round consumes at least one byte. *)
Fixpoint parse_units (fuel : nat) (d : Z) (s : string) : option Z :=
  match fuel, s with
  | _, "" => if decide (d ≤ 2 ^ 63 - 1)%Z then Some d else None
  | O, _ => None
  | S fuel, s =>
      let '(ds, s) := span is_digit s in
      v ← leadingInt ds;
      let '(u, s) := span unit_byte s in
      unit ← unitMap u;
      if decide (2 ^ 63 `div` unit < v)%Z then None
      else let d := (d + v * unit)%Z in
           if decide (2 ^ 63 < d)%Z then None else parse_units fuel d s
  end.

Definition ParseDuration (s : string) : option Z :=
  if decide (s = "0") then Some 0%Z
  else if decide (s = "") then None
  else parse_units (String.length s) 0 s.

(** ** Reading *)

Inductive duration_error : Type := BadPattern | BadDays | BadDuration | NotQuoted.

Definition parseHumanDuration (s : string) : result duration_error Z :=
  if negb (re_match HumanDurationRegex s) then Err BadPattern
  else if re_match onlyDayRegex s then
    match ParseInt (str_take (String.length s - 1) s) with
    | None => Err BadDays
    | Some days => Ok (duration_mul (duration_mul days 24) Hour)
    end
  else match startsWithDay s with
       | Some (ds, rest) =>
           match ParseInt ds with
           | None => Err BadDays
           | Some days =>
               match ParseDuration rest with
               | None => Err BadDuration
               | Some parsed => Ok (int64_of (parsed + duration_mul (duration_mul days 24) Hour))
               end
           end
       | None =>
           match ParseDuration s with
           | None => Err BadDuration
           | Some parsed => Ok parsed
           end
       end.

Definition quote : ascii := ascii_of_nat 34.

Definition UnmarshalJSON (data : string) : result duration_error Z :=
  match data with
  | String a s =>
      if decide (a = quote) then
        if HasSuffix s (String quote "") then parseHumanDuration (TrimSuffix s (String quote "")) else Err NotQuoted
      else Err NotQuoted
  | "" => Err NotQuoted
  end.

(** ** Printing: time.Duration.String *)

Definition digit_char (d : Z) : ascii := pretty_N_char (Z.to_N d).

(** [fmtFrac]: the fraction of [v] with [prec] digits before [buf], without
    trailing zeros, and the integer part. *)
Fixpoint fmtFrac (prec : nat) (v : Z) (buf : string) (print : bool) : string * Z :=
  match prec with
  | O => (if print then String "." buf else buf, v)
  | S prec =>
      let digit := (v `mod` 10)%Z in
      let print := print || negb (bool_decide (digit = 0%Z)) in
      fmtFrac prec (v `div` 10) (if print then String (digit_char digit) buf else buf) print
  end.

Definition sub_second (u : Z) : string :=
  if decide (u = 0%Z) then "0s"
  else
    let '(prec, unit) :=
      if decide (u < 1000)%Z then (0, "ns")
      else if decide (u < Millisecond)%Z then (3, String (byte 194) (String (byte 181) "s"))
      else (6, "ms") in
    let '(buf, v) := fmtFrac prec u unit false in FormatInt v +:+ buf.

(** From the seconds on: minutes and hours only when there are any. *)
Definition with_minutes (v : Z) (buf : string) : string :=
  let buf := FormatInt (v `mod` 60) +:+ buf in
  let v := (v `div` 60)%Z in
  if decide (0 < v)%Z then
    let buf := FormatInt (v `mod` 60) +:+ String "m" buf in
    let v := (v `div` 60)%Z in
    if decide (0 < v)%Z then FormatInt v +:+ String "h" buf else buf
  else buf.

Definition Duration_String (d : Z) : string :=
  let u := Z.abs d in
  let body := if decide (u < Second)%Z then sub_second u
              else let '(buf, v) := fmtFrac 9 u "s" false in with_minutes v buf in
  if decide (d < 0)%Z then String "-" body else body.

Definition MarshalJSON (d : Z) : string := String quote (Duration_String d +:+ String quote "").

(** ** Lemmas: spans and numbers *)

Definition starts_not (f : ascii → bool) (s : string) : Prop :=
  match s with "" => True | String a _ => f a = false end.

Lemma span_app f a b : str_forall f a = true → starts_not f b → span f (a +:+ b) = (a, b).
Proof.
  intros Ha Hb. induction a as [|x a IH].
  - rewrite str_nil_app. destruct b as [|y b]; [done|]. cbn [span starts_not] in *. by rewrite Hb.
  - cbn [str_forall] in Ha. bool_simpl. rewrite str_cons_app. cbn [span]. by rewrite H, IH.
Qed.

Lemma FormatInt_digits v : (0 ≤ v)%Z →
  str_forall is_digit (FormatInt v) = true ∧ parse_digits (FormatInt v) = Some v.
Proof.
  intros Hv. assert (FormatInt v = pretty_N (Z.to_N v)) as ->.
  { destruct v as [|p|p]; [done|done|lia]. }
  pose proof (parse_digits_pretty (Z.to_N v)) as Hp. rewrite Z2N.id in Hp by done. split; [|done].
  unfold parse_digits in Hp. destruct (pretty_N (Z.to_N v)); [done|]. by eapply digits_value_forall.
Qed.

Lemma FormatInt_nonempty v : (0 ≤ v)%Z → FormatInt v ≠ "".
Proof. intros Hv He. destruct (FormatInt_digits v Hv) as [_ H]. by rewrite He in H. Qed.

(** One amount of a duration is read and added. *)
Lemma parse_units_amount fuel d v u unit rest :
  (0 ≤ v)%Z → (0 ≤ d)%Z → (0 < unit)%Z → str_forall unit_byte u = true → u ≠ "" →
  unitMap u = Some unit → starts_not unit_byte rest → (d + v * unit < 2 ^ 63)%Z →
  parse_units (S fuel) d (FormatInt v +:+ u +:+ rest) = parse_units fuel (d + v * unit) rest.
Proof.
  intros Hv Hd Hunit Hu Hne Hmap Hrest Hb. destruct (FormatInt_digits v Hv) as [Hdig Hparse].
  pose proof (FormatInt_nonempty v Hv) as Hfne.
  destruct (FormatInt v +:+ u +:+ rest) as [|a s] eqn:Hs.
  { by apply str_app_nil_inv in Hs as [? _]. }
  cbn [parse_units]. rewrite <-Hs, span_app; [|done|].
  2: { destruct u as [|b u']; [done|]. rewrite str_cons_app. cbn in Hu |- *.
       unfold unit_byte in Hu. by bool_simpl. }
  unfold leadingInt. rewrite Hparse. cbn [mbind option_bind].
  assert (v ≤ 2 ^ 63)%Z by nia. rewrite decide_True by done. cbn [mbind option_bind].
  rewrite span_app by done. rewrite Hmap. cbn [mbind option_bind].
  rewrite decide_False; [by rewrite decide_False by lia|].
  assert (v ≤ 2 ^ 63 `div` unit)%Z; [|lia]. apply Z.div_le_lower_bound; nia.
Qed.

(** ** Amounts *)

(** A printed duration is a list of amounts with their units. *)
Definition render (l : list (Z * string)) : string :=
  foldr (λ x acc, FormatInt x.1 +:+ x.2 +:+ acc) "" l.

Definition unit_ns (u : string) : Z := default 0%Z (unitMap u).

Definition total (l : list (Z * string)) : Z := foldr (λ x acc, x.1 * unit_ns x.2 + acc)%Z 0%Z l.

Definition amount_ok (x : Z * string) : Prop := (0 ≤ x.1)%Z ∧ x.2 ∈ ["h"; "m"; "s"; "ms"].

Definition duration_byte (a : ascii) : bool :=
  is_digit a || bool_decide (a ∈ ["d"%char; "h"%char; "m"%char; "s"%char]).

Lemma unit_cases (P : string → Prop) u :
  u ∈ ["h"; "m"; "s"; "ms"] → P "h" → P "m" → P "s" → P "ms" → P u.
Proof.
  intros Hu ????. repeat (apply elem_of_cons in Hu as [->|Hu]; [done|]). by apply elem_of_nil in Hu.
Qed.

Lemma amount_unit x : amount_ok x →
  (0 < unit_ns x.2)%Z ∧ str_forall unit_byte x.2 = true ∧ x.2 ≠ "" ∧ unitMap x.2 = Some (unit_ns x.2).
Proof.
  intros [_ Hu]. revert Hu. generalize x.2. intros u Hu. pattern u. by apply (unit_cases _ u Hu).
Qed.

Lemma total_nonneg l : Forall amount_ok l → (0 ≤ total l)%Z.
Proof.
  induction 1 as [|x l Hx Hl IH]; [done|]. change (0 ≤ x.1 * unit_ns x.2 + total l)%Z.
  destruct (amount_unit x Hx) as (? & _). destruct Hx. nia.
Qed.

Lemma render_starts l : Forall amount_ok l → starts_not unit_byte (render l).
Proof.
  intros Hl. destruct l as [|[v u] l]; [done|]. inversion Hl as [|?? Hx _]; subst.
  destruct Hx as [Hv _]. cbn in Hv. destruct (FormatInt_digits v Hv) as [Hd _].
  pose proof (FormatInt_nonempty v Hv) as Hne. cbn [render foldr fst snd].
  destruct (FormatInt v) as [|a s]; [done|]. rewrite str_cons_app. cbn [starts_not].
  cbn [str_forall] in Hd. bool_simpl. unfold unit_byte. by replace (is_digit a) with true.
Qed.

Lemma parse_render l d :
  Forall amount_ok l → (0 ≤ d)%Z → (d + total l < 2 ^ 63)%Z →
  parse_units (length l) d (render l) = Some (d + total l)%Z.
Proof.
  intros Hl. revert d. induction Hl as [|x l Hx Hl IH]; intros d Hd Hb; cbn [length render foldr total].
  - cbn in Hb |- *. rewrite decide_True by lia. f_equal. lia.
  - destruct (amount_unit x Hx) as (Hu & Hbytes & Hne & Hmap). pose proof (total_nonneg l Hl) as Ht.
    cbn [total foldr] in Hb. fold (total l) in Hb |- *. fold (render l).
    destruct Hx as [Hv _].
    rewrite (parse_units_amount (length l) d x.1 x.2 (unit_ns x.2)); try done;
      [|by apply render_starts|lia].
    rewrite IH by nia. f_equal. lia.
Qed.

(** More fuel does not change a result. *)
Lemma parse_units_mono fuel fuel' d s r :
  parse_units fuel d s = Some r → (fuel ≤ fuel')%nat → parse_units fuel' d s = Some r.
Proof.
  revert fuel' d s. induction fuel as [|fuel IH]; intros fuel' d s H Hle.
  - destruct s; [|done]. by destruct fuel'.
  - destruct fuel' as [|fuel']; [lia|]. cbn [parse_units] in *. destruct s as [|a s]; [done|].
    destruct (span is_digit (String a s)) as [ds s1]. destruct (leadingInt ds) as [v|]; [|done].
    cbn [mbind option_bind] in *. destruct (span unit_byte s1) as [u s2].
    destruct (unitMap u) as [unit|]; [|done]. cbn [mbind option_bind] in *.
    repeat case_decide; try done. apply IH; [done|lia].
Qed.

Lemma amounts_length l : Forall amount_ok l → (length l ≤ String.length (render l))%nat.
Proof.
  induction 1 as [|x l Hx Hl IH]; cbn [length render foldr]; [done|]. fold (render l).
  destruct (amount_unit x Hx) as (_ & _ & Hne & _). rewrite !str_length_app.
  destruct x.2; [done|]. cbn [String.length]. lia.
Qed.

Lemma ParseDuration_render l :
  l ≠ [] → Forall amount_ok l → (total l < 2 ^ 63)%Z → ParseDuration (render l) = Some (total l).
Proof.
  intros Hne Hl Hb. unfold ParseDuration.
  assert (2 ≤ String.length (render l))%nat as Hlen.
  { destruct l as [|x l]; [done|]. inversion Hl as [|?? Hx _]; subst. cbn [render foldr]. rewrite !str_length_app.
    destruct (amount_unit x Hx) as (_ & _ & Hu & _), Hx as [Hv _].
    pose proof (FormatInt_nonempty x.1 Hv). destruct (FormatInt x.1), x.2; try done. cbn [String.length]. lia. }
  rewrite !decide_False by (intros He; rewrite He in Hlen; cbn in Hlen; lia).
  eapply parse_units_mono; [|by apply amounts_length]. by rewrite parse_render.
Qed.

(** ** The pattern *)

Lemma digits_re_lang s : str_forall is_digit s = true → s ≠ "" → re_lang digits_re s.
Proof.
  intros Hs Hne. destruct s as [|a s]; [done|]. cbn in Hs. bool_simpl.
  change (String a s) with (String a "" +:+ s). constructor; [by constructor|]. by apply re_lang_star_chr.
Qed.

Lemma amount_re_lang v u : (0 ≤ v)%Z → re_lang (amount_re u) (FormatInt v +:+ u).
Proof.
  intros Hv. destruct (FormatInt_digits v Hv) as [Hd _]. apply L_alt_r. constructor.
  - apply digits_re_lang; [done|]. by apply FormatInt_nonempty.
  - by apply re_lang_lit.
Qed.

Lemma amount_re_nil u : re_lang (amount_re u) "".
Proof. apply L_alt_l. constructor. Qed.

Lemma amount_re_bytes u s :
  str_forall duration_byte u = true → re_lang (amount_re u) s → str_forall duration_byte s = true.
Proof.
  intros Hu [->%re_lang_eps|H]%re_lang_alt; [done|].
  apply re_lang_seq in H as (s1 & s2 & -> & H1 & H2). apply re_lang_lit in H2 as ->.
  apply re_lang_seq in H1 as (s3 & s4 & -> & H3 & H4).
  apply re_lang_chr in H3 as (a & -> & Ha). apply re_lang_star_chr in H4.
  rewrite !str_forall_app, Hu, andb_true_r. cbn [str_forall]. unfold duration_byte at 1. rewrite Ha. cbn.
  eapply str_forall_impl; [|exact H4]. intros b Hb. unfold duration_byte. by rewrite Hb.
Qed.

Lemma pattern_bytes s : re_match HumanDurationRegex s = true → str_forall duration_byte s = true.
Proof.
  intros H%re_match_spec. unfold HumanDurationRegex in H.
  repeat (apply re_lang_seq in H as (? & ? & -> & ?%amount_re_bytes & H); [|done]).
  apply amount_re_bytes in H; [|done]. rewrite !str_forall_app. by repeat (apply andb_true_intro; split).
Qed.

Lemma render_pattern l :
  Forall (λ x, (0 ≤ x.1)%Z) l → l.*2 ∈ [["h"; "m"; "s"]; ["m"; "s"]; ["s"]; ["ms"]] →
  re_match HumanDurationRegex (render l) = true.
Proof.
  intros Hl Hu. apply re_match_spec. unfold HumanDurationRegex.
  assert (∀ u r s, re_lang r s → re_lang (RSeq (amount_re u) r) s) as Hskip.
  { intros u r s Hr. apply (L_seq_nil (amount_re u) r s); [apply amount_re_nil|done]. }
  assert (∀ v u r s, (0 ≤ v)%Z → re_lang r s → re_lang (RSeq (amount_re u) r) (FormatInt v +:+ u +:+ s)) as Htake.
  { intros v u r s Hv Hr. rewrite <-str_app_assoc. constructor; [by apply amount_re_lang|done]. }
  assert (∀ v u, (0 ≤ v)%Z → re_lang (amount_re u) (FormatInt v +:+ u +:+ "")) as Hlast.
  { intros v u Hv. rewrite str_app_nil_r. by apply amount_re_lang. }
  assert (∀ v, (0 ≤ v)%Z → re_lang (RSeq (amount_re "s") (amount_re "ms")) (FormatInt v +:+ "s" +:+ "")) as Hs.
  { intros v Hv. apply Htake; [done|]. apply amount_re_nil. }
  repeat (apply elem_of_cons in Hu as [Hu|Hu]); [..|by apply elem_of_nil in Hu];
    repeat (destruct l as [|[? ?] l]; simplify_eq/=);
    repeat match goal with H : Forall _ (_ :: _) |- _ => inversion H; clear H; subst end;
    cbn in *; eauto 10.
Qed.

Lemma onlyDay_has_d s : re_match onlyDayRegex s = true → no_char "d" s = false.
Proof.
  intros H%re_match_spec. unfold onlyDayRegex, RPlus in H.
  apply re_lang_seq in H as (s1 & s2 & -> & H1 & _).
  apply re_lang_seq in H1 as (s3 & s4 & -> & _ & ->%re_lang_lit).
  by rewrite !no_char_app, andb_false_r.
Qed.

Lemma render_no_d l : Forall amount_ok l → no_char "d" (render l) = true.
Proof.
  induction 1 as [|x l [Hv Hu] Hl IH]; [done|]. cbn [render foldr]. fold (render l).
  rewrite !no_char_app, IH, andb_true_r, FormatInt_no_char by done. cbn [andb].
  pattern (x.2). by apply (unit_cases _ x.2 Hu).
Qed.

Definition duration_shape (l : list (Z * string)) : Prop :=
  Forall (λ x, (0 ≤ x.1)%Z) l ∧ l.*2 ∈ [["h"; "m"; "s"]; ["m"; "s"]; ["s"]; ["ms"]].

Lemma shape_ok l : duration_shape l → l ≠ [] ∧ Forall amount_ok l.
Proof.
  intros [Hv Hu]. split.
  { intros ->. cbn in Hu. repeat (apply elem_of_cons in Hu as [Hu|Hu]; [done|]). by apply elem_of_nil in Hu. }
  assert (Forall (λ u, u ∈ ["h"; "m"; "s"; "ms"]) l.*2) as H.
  { repeat (apply elem_of_cons in Hu as [->|Hu]); [..|by apply elem_of_nil in Hu];
      repeat (constructor; [set_solver|]); constructor. }
  clear Hu. induction Hv as [|x l Hx Hv IH]; [constructor|]. inversion H; subst. constructor; [done|auto].
Qed.

Lemma parseHumanDuration_render l :
  duration_shape l → (total l < 2 ^ 63)%Z → parseHumanDuration (render l) = Ok (total l).
Proof.
  intros Hs Hb. destruct (shape_ok l Hs) as [Hne Hok]. destruct Hs as [Hv Hu].
  pose proof (render_no_d l Hok) as Hd. unfold parseHumanDuration. rewrite render_pattern by done. cbn [negb].
  destruct (re_match onlyDayRegex (render l)) eqn:Hday.
  { apply onlyDay_has_d in Hday. congruence. }
  assert (startsWithDay (render l) = None) as ->.
  { unfold startsWithDay. destruct l as [|x l]; [done|]. inversion Hok as [|?? Hx _]; subst.
    cbn [render foldr]. fold (render l). destruct (amount_unit x Hx) as (_ & Hbytes & Hune & _).
    destruct Hx as [Hxv Hxu], (FormatInt_digits x.1 Hxv) as [Hdig _].
    cbn [render foldr] in Hd. rewrite no_char_app in Hd. bool_simpl.
    rewrite span_app; [|done|destruct x.2 as [|a u']; [done|]; rewrite str_cons_app; cbn in Hbytes |- *;
      unfold unit_byte in Hbytes; by bool_simpl].
    destruct (FormatInt x.1); [done|]. destruct x.2 as [|b u']; [done|]. rewrite str_cons_app in *.
    destruct (decide (b = "d"%char)) as [->|Hb']; [by rewrite no_char_cons_eq in H0|].
    destruct b as [[] [] [] [] [] [] [] []]; try done; by destruct (_ +:+ _). }
  by rewrite ParseDuration_render.
Qed.

(** ** Printing *)

Lemma fmtFrac_whole p k buf : (0 ≤ k)%Z → fmtFrac p (k * 10 ^ Z.of_nat p) buf false = (buf, k).
Proof.
  intros Hk. induction p as [|p IH]; cbn [fmtFrac]; [f_equal; lia|].
  replace (k * 10 ^ Z.of_nat (S p))%Z with (k * 10 ^ Z.of_nat p * 10)%Z
    by (rewrite Nat2Z.inj_succ, Z.pow_succ_r by lia; lia).
  rewrite Z.mod_mul, Z.div_mul by lia. rewrite bool_decide_true by done. cbn [negb orb]. exact IH.
Qed.

Lemma fmtFrac_printing p v buf : no_char "." (fmtFrac p v buf true).1 = false.
Proof. revert v buf. induction p as [|p IH]; intros v buf; cbn [fmtFrac orb]; [done|apply IH]. Qed.

Lemma fmtFrac_fraction p v buf :
  (0 ≤ v)%Z → (v `mod` 10 ^ Z.of_nat p)%Z ≠ 0%Z → no_char "." (fmtFrac p v buf false).1 = false.
Proof.
  revert v buf. induction p as [|p IH]; intros v buf Hv Hm; cbn [fmtFrac orb].
  { cbn in Hm. by rewrite Z.mod_1_r in Hm. }
  destruct (decide (v `mod` 10 = 0)%Z) as [Hz|Hz].
  - rewrite bool_decide_true by done. cbn [negb]. apply IH; [by apply Z.div_pos|].
    intros Hd. apply Hm. pose proof (Z.div_mod v 10 ltac:(lia)) as Hv10. rewrite Hz in Hv10.
    replace v with (10 * (v `div` 10))%Z by lia.
    rewrite Nat2Z.inj_succ, Z.pow_succ_r by lia.
    rewrite Zmult_mod_distr_l, Hd. lia.
  - rewrite bool_decide_false by done. cbn [negb]. apply fmtFrac_printing.
Qed.

(** The amounts that a number of whole seconds is printed as. *)
Definition hms (v : Z) : list (Z * string) :=
  if decide (v < 60)%Z then [(v, "s")]
  else if decide (v < 3600)%Z then [((v `div` 60)%Z, "m"); ((v `mod` 60)%Z, "s")]
  else [(((v `div` 60) `div` 60)%Z, "h"); (((v `div` 60) `mod` 60)%Z, "m"); ((v `mod` 60)%Z, "s")].

Lemma hms_shape v : (0 ≤ v)%Z → duration_shape (hms v) ∧ total (hms v) = (v * Second)%Z.
Proof.
  intros Hv. unfold hms, duration_shape.
  pose proof (Z.div_mod v 60 ltac:(lia)). pose proof (Z.mod_pos_bound v 60 ltac:(lia)).
  pose proof (Z.div_mod (v `div` 60) 60 ltac:(lia)). pose proof (Z.mod_pos_bound (v `div` 60) 60 ltac:(lia)).
  assert (unit_ns "s" = Second ∧ unit_ns "m" = (60 * Second)%Z ∧ unit_ns "h" = (3600 * Second)%Z)
    as (Es & Em & Eh) by done.
  repeat case_decide; cbn [total foldr fst snd fmap list_fmap]; rewrite ?Es, ?Em, ?Eh;
    (split; [split; [repeat (constructor; [cbn; lia|]); constructor|set_solver]|lia]).
Qed.

Lemma with_minutes_hms v : (0 ≤ v)%Z → with_minutes v "s" = render (hms v).
Proof.
  intros Hv. unfold with_minutes, hms.
  pose proof (Z.div_mod v 60 ltac:(lia)). pose proof (Z.mod_pos_bound v 60 ltac:(lia)).
  pose proof (Z.div_mod (v `div` 60) 60 ltac:(lia)). pose proof (Z.mod_pos_bound (v `div` 60) 60 ltac:(lia)).
  repeat case_decide; try lia; cbn [render foldr fst snd].
  - done.
  - by replace ((v `div` 60) `mod` 60)%Z with (v `div` 60)%Z by lia.
  - replace (v `mod` 60)%Z with v; [done|lia].
Qed.

(** Durations that survive: whole seconds, and whole milliseconds below one
    second. *)
Definition representable (d : Z) : Prop :=
  (d `mod` Second = 0)%Z ∨ (d < Second ∧ d `mod` Millisecond = 0)%Z.

Lemma unreadable s : no_char "." s = false ∨ no_char "n" s = false ∨ no_char (byte 194) s = false →
  parseHumanDuration s = Err BadPattern.
Proof.
  intros H. unfold parseHumanDuration.
  destruct (re_match HumanDurationRegex s) eqn:Hm; [|done]. apply pattern_bytes in Hm.
  assert (∀ c, duration_byte c = false → no_char c s = true) as Hc.
  { intros c Hc. by eapply no_char_class. }
  destruct H as [H|[H|H]]; by rewrite Hc in H.
Qed.

Lemma with_minutes_no_char v buf c : no_char c buf = false → no_char c (with_minutes v buf) = false.
Proof.
  intros H. unfold with_minutes.
  assert (∀ x y, no_char c y = false → no_char c (x +:+ y) = false) as Happ.
  { intros x y Hy. by rewrite no_char_app, Hy, andb_false_r. }
  assert (∀ a y, no_char c y = false → no_char c (String a y) = false) as Hcons.
  { intros a y Hy. by apply (Happ (String a "")). }
  repeat case_decide; repeat first [apply Happ|apply Hcons|done].
Qed.

Lemma sub_second_spec u : (0 ≤ u < Second)%Z →
  (u `mod` Millisecond = 0 → ∃ l, sub_second u = render l ∧ duration_shape l ∧ total l = u)%Z ∧
  (u `mod` Millisecond ≠ 0 → parseHumanDuration (sub_second u) = Err BadPattern)%Z.
Proof.
  intros Hu. change Second with 1000000000%Z in Hu. unfold sub_second. change Millisecond with 1000000%Z.
  assert (∀ x y c, no_char c y = false → no_char c (x +:+ y) = false) as Happ.
  { intros x y c Hy. by rewrite no_char_app, Hy, andb_false_r. }
  case_decide as H0; [subst; split; [|done]|].
  { intros _. exists [(0, "s")]%Z. split; [done|]. split; [|done]. split; [by repeat constructor|set_solver]. }
  case_decide as H1; [|case_decide as H2].
  - split; [rewrite Z.mod_small by lia; lia|]. intros _. cbn [fmtFrac]. apply unreadable. right; left. by apply Happ.
  - split; [rewrite Z.mod_small by lia; lia|]. intros _.
    destruct (fmtFrac 3 u _ false) as [buf v] eqn:He.
    apply unreadable. right; right. apply Happ.
    assert (∀ p v buf print, no_char (byte 194) buf = false → no_char (byte 194) (fmtFrac p v buf print).1 = false) as Hf.
    { clear. induction p as [|p IH]; intros v buf print Hb; cbn [fmtFrac].
      - destruct print; cbn [fst]; [|done]. change (String "." buf) with ("." +:+ buf). by rewrite no_char_app, Hb, andb_false_r.
      - apply IH. case_match; [|done]. change (String ?a buf) with (String a "" +:+ buf).
        by rewrite no_char_app, Hb, andb_false_r. }
    pose proof (Hf 3 u (String (byte 194) (String (byte 181) "s")) false eq_refl) as Hb. by rewrite He in Hb.
  - split; intros Hm.
    + pose proof (Z.div_mod u 1000000 ltac:(lia)) as Hd. rewrite Hm in Hd.
      pose proof (fmtFrac_whole 6 (u `div` 1000000) "ms" ltac:(apply Z.div_pos; lia)) as Hf.
      change (10 ^ Z.of_nat 6)%Z with 1000000%Z in Hf.
      replace (u `div` 1000000 * 1000000)%Z with u in Hf by lia. rewrite Hf.
      exists [((u `div` 1000000)%Z, "ms")]. split; [cbn [render foldr fst snd]; by rewrite str_app_nil_r|].
      split; [split; [constructor; [cbn; apply Z.div_pos; lia|constructor]|set_solver]|].
      cbn [total foldr fst snd]. change (unit_ns "ms") with 1000000%Z. lia.
    + destruct (fmtFrac 6 u "ms" false) as [buf v] eqn:He.
      apply unreadable. left. apply Happ.
      pose proof (fmtFrac_fraction 6 u "ms" ltac:(lia) Hm) as Hb. by rewrite He in Hb.
Qed.

Lemma Duration_roundtrip d : (0 ≤ d < 2 ^ 63)%Z →
  (representable d → parseHumanDuration (Duration_String d) = Ok d) ∧
  (¬ representable d → parseHumanDuration (Duration_String d) = Err BadPattern).
Proof.
  intros Hd. unfold Duration_String, representable. rewrite Z.abs_eq by lia.
  rewrite (decide_False (P := (d < 0)%Z)) by lia. case_decide as Hs.
  - destruct (sub_second_spec d ltac:(lia)) as [Hok Herr]. split.
    + intros Hr. assert (d `mod` Millisecond = 0)%Z as Hm.
      { destruct Hr as [Hr|[_ Hr]]; [|done]. rewrite Z.mod_small in Hr by lia. by subst. }
      destruct (Hok Hm) as (l & -> & Hl & Ht). rewrite parseHumanDuration_render by (done || lia). by rewrite Ht.
    + intros Hr. apply Herr. tauto.
  - assert (d `mod` Second = d `mod` 10 ^ Z.of_nat 9)%Z as Hmod by done. split.
    + intros [Hr|[? _]]; [|lia]. pose proof (Z.div_mod d Second ltac:(done)) as Hdm. rewrite Hr in Hdm.
      assert (0 ≤ d `div` Second)%Z as Hq by (apply Z.div_pos; [lia|done]).
      pose proof (fmtFrac_whole 9 (d `div` Second) "s" Hq) as Hf.
      change (10 ^ Z.of_nat 9)%Z with Second in Hf.
      replace (d `div` Second * Second)%Z with d in Hf by lia. rewrite Hf, with_minutes_hms by done.
      destruct (hms_shape _ Hq) as [Hl Ht]. rewrite parseHumanDuration_render; [f_equal; lia|done|lia].
    + intros Hr. destruct (fmtFrac 9 d "s" false) as [buf v] eqn:He.
      apply unreadable. left. apply with_minutes_no_char.
      pose proof (fmtFrac_fraction 9 d "s" ltac:(lia)) as Hb. rewrite He in Hb. apply Hb.
      rewrite <-Hmod. tauto.
Qed.

(** the duration written to JSON reads back as itself exactly when it is a
    whole number of seconds, or less than a second and a whole number of
    milliseconds; every other non-negative duration is written in a form the
    reader refuses. *)
Theorem HumanDuration_json_roundtrip d : (0 ≤ d < 2 ^ 63)%Z →
  (UnmarshalJSON (MarshalJSON d) = Ok d ↔ representable d) ∧
  (¬ representable d → UnmarshalJSON (MarshalJSON d) = Err BadPattern).
Proof.
  intros Hd. destruct (Duration_roundtrip d Hd) as [Hok Herr].
  assert (UnmarshalJSON (MarshalJSON d) = parseHumanDuration (Duration_String d)) as ->.
  { unfold UnmarshalJSON, MarshalJSON. rewrite decide_True by done.
    by rewrite HasSuffix_app, TrimSuffix_app. }
  split; [|done]. split; [|done]. intros H.
  destruct (decide (d `mod` Second = 0)%Z) as [|H1]; [by left|].
  destruct (decide (d < Second ∧ d `mod` Millisecond = 0)%Z) as [|H2]; [by right|].
  rewrite Herr in H; [done|]. by intros [|].
Qed.

Lemma HumanDuration_json_roundtrip_witness :
  UnmarshalJSON (MarshalJSON (90 * Minute)) = Ok (90 * Minute)%Z ∧
  UnmarshalJSON (MarshalJSON 1500000000) = Err BadPattern.
Proof.
  split.
  - apply (HumanDuration_json_roundtrip (90 * Minute)); [done|]. by left.
  - apply (HumanDuration_json_roundtrip 1500000000); [done|]. by intros [|[]].
Defined.

(** durations the reader accepts can break what is built on them.  The
    text of one and a half seconds is accepted but its stored form is not; and
    a number of days can wrap around to a positive duration below one
    millisecond. *)
Theorem HumanDuration_defects :
  parseHumanDuration "1s500ms" = Ok 1500000000%Z ∧
  Duration_String 1500000000 = "1.5s" ∧ parseHumanDuration "1.5s" = Err BadPattern ∧
  parseHumanDuration "202163959358895d" = Ok 65536%Z ∧ Milliseconds 65536 = 0%Z.
Proof. by vm_compute. Qed.
