(* ===== verification/Namespace.v ===== *)
(** * Namespace paths and matchers

    Package [internal/schema/resources/namespace] (file [namespace.go]) and
    the helpers of [internal/util] it uses.  A namespace is a dotted path
    under [root]; a matcher is a path, or a path followed by the recursive
    suffix [.**].  The operations are translated one by one on Go strings;
    the abstract view is a list of segments and, for matchers, the constructor
    [Exact] or [Subtree], against which the operations are proved. *)

From S2P Require Import Prelude GoStrings Regex.

Abbreviation error := string (only parsing).

(** ** Constants *)

Definition Root : string := "root".
Definition PathSeparator : ascii := ".".
Definition Wildcard : string := "**".
Definition WildcardSuffix : string := String PathSeparator Wildcard.
Definition SkipPermissionChecks : string := "<SKIP_NAMESPACE_PERMISSION_CHECK>".
Definition NoMatchSentinel : string := "<NO_MATCH>".

(** ** Patterns *)

(** [[a-zA-Z0-9_]] and [[a-zA-Z0-9_\-]]. *)
Definition is_word (a : ascii) : bool := is_alnum a || is_one_of ["_"%char] a.
Definition is_word_dash (a : ascii) : bool := is_word a || is_one_of ["-"%char] a.

Definition segment_regex : regex :=
  RSeq (RPlus (RChr is_word)) (RStar (RChr is_word_dash)).

Definition validPathRegex : regex :=
  RSeq (RLit Root) (RStar (RSeq (RLit (String PathSeparator "")) segment_regex)).

Definition validNameRegex : regex := segment_regex.

(** ** Operations *)

Definition NameFromPath (path : string) : string :=
  match LastIndex path PathSeparator with
  | Some i => str_drop (i + 1) path
  | None => path
  end.

Definition ValidateName (name : string) : option error :=
  if decide (name = "") then Some "name is required"
  else if negb (re_match validNameRegex name)
  then Some "name must be a valid namespace path segment"
  else None.

Definition ValidatePath (path : string) : option error :=
  if decide (path = "") then Some "path is required"
  else if decide (path = SkipPermissionChecks) then Some "disallowed sentinel value"
  else if negb (bool_decide (path = Root)) &&
          negb (HasPrefix path (Root +:+ String PathSeparator ""))
  then Some "path must be a child of root"
  else if negb (re_match validPathRegex path)
  then Some "path can only contain lowercase letters a-z"
  else None.

Definition ValidateMatcher (matcher : string) : option error :=
  if decide (matcher = "") then Some "namespace matcher is required"
  else if negb (bool_decide (matcher = Root)) &&
          negb (HasPrefix matcher (Root +:+ String PathSeparator ""))
  then Some "matcher must start with root"
  else if HasSuffix matcher ".**"
  then ValidatePath (str_take (String.length matcher - 3) matcher)
  else ValidatePath matcher.

(** [util.Filter] and [util.MaxInt] (which indexes [vals[0]]). *)
Definition util_Filter {T} (s : list T) (keep : T → bool) : list T :=
  foldl (λ result v, if keep v then result ++ [v] else result) [] s.

Definition util_MaxInt (v0 : Z) (vals : list Z) : Z :=
  foldl (λ max i, if bool_decide (max < i)%Z then i else max) v0 (v0 :: vals).

Definition DepthOfPath (path : string) : Z :=
  wrap64 (util_MaxInt
    (Z.of_nat (length (util_Filter (Split path PathSeparator)
                                   (λ s, negb (bool_decide (s = ""))))) - 1)
    [0%Z]).

Definition SplitPathToPrefixes (path : string) : list string :=
  if decide (path = "") then []
  else let parts := Split path PathSeparator in
       map (λ i, Join (take (i + 1) parts) PathSeparator) (seq 0 (length parts)).

(** The set [prefixSet] collected by the two loops. *)
Definition prefixSet (paths : list string) : gset string :=
  foldl (λ acc path, foldl (λ acc prefix, {[prefix]} ∪ acc) acc (SplitPathToPrefixes path))
        ∅ paths.

(** The comparison function passed to [slices.SortFunc]; [int(iDepth - jDepth)]
    is an unsigned difference reinterpreted as a signed integer. *)
Definition comparePrefixes (i j : string) : Z :=
  let iDepth := DepthOfPath i in
  let jDepth := DepthOfPath j in
  if negb (bool_decide (iDepth = jDepth)) then int64_of (wrap64 (iDepth - jDepth))
  else if String.ltb i j then (-1)%Z
  else if String.ltb j i then 1%Z
  else 0%Z.

(** [keys] is the slice [util.GetKeys] returns: the keys of [prefixSet] in
    the map's iteration order. *)
Definition SplitPathsToPrefixes (paths keys : list string) : list string :=
  match paths with
  | [] => []
  | _ => SortFunc comparePrefixes keys
  end.

Definition PathFromRoot (parts : list string) : string :=
  Join ([Root] ++ parts) PathSeparator.

Definition ParentPath (path : string) : string :=
  match LastIndex path PathSeparator with
  | None => Root
  | Some i => str_take i path
  end.

Definition IsChild (parentPath childPath : string) : bool :=
  HasPrefix childPath (parentPath +:+ String PathSeparator "").

Definition IsSameOrChild (parentPath childPath : string) : bool :=
  bool_decide (parentPath = childPath) || IsChild parentPath childPath.

Definition ConstrainMatcher (ns1 ns2 : string) : outcome (string * bool) :=
  if bool_decide (ns1 = "") || bool_decide (ns2 = "") then GoRet ("", false)
  else if bool_decide (ns1 = ns2) then GoRet (ns1, true)
  else
    let '(shorter, longer) :=
      if bool_decide (String.length ns2 < String.length ns1)%nat
      then (ns2, ns1) else (ns1, ns2) in
    head ← slice_to longer
             (Z.of_nat (String.length longer) - Z.of_nat (String.length WildcardSuffix));
    if bool_decide (shorter = head) then GoRet (shorter, true)
    else
      let shorterHasWildcard := HasSuffix shorter WildcardSuffix in
      if negb shorterHasWildcard then GoRet ("", false)
      else
        stem ← slice_to shorter
                 (Z.of_nat (String.length shorter) - Z.of_nat (String.length Wildcard));
        if HasPrefix longer stem then GoRet (longer, true) else GoRet ("", false).

Definition Matches (matcher namespace : string) : bool :=
  if bool_decide (matcher = "") || bool_decide (namespace = "") then false
  else if HasSuffix matcher WildcardSuffix then
    let baseNamespace :=
      str_take (String.length matcher - String.length WildcardSuffix) matcher in
    bool_decide (namespace = baseNamespace) || IsChild baseNamespace namespace
  else bool_decide (matcher = namespace).

(** ** The abstract view *)

(** A path segment: the language of [segment_regex]. *)
Definition valid_segment (s : string) : bool :=
  match s with
  | "" => false
  | String a s => is_word a && str_forall is_word_dash s
  end.

(** The string of a path given by the segments below [root]. *)
Definition render (segs : list string) : string := Join (Root :: segs) PathSeparator.

Definition valid_segs (segs : list string) : Prop := Forall (λ s, valid_segment s = true) segs.

Inductive matcher : Type :=
  | Exact (segs : list string)
  | Subtree (segs : list string).

Definition render_matcher (m : matcher) : string :=
  match m with
  | Exact segs => render segs
  | Subtree segs => render segs +:+ WildcardSuffix
  end.

Definition matcher_segs (m : matcher) : list string :=
  match m with Exact segs | Subtree segs => segs end.

Definition valid_matcher (m : matcher) : Prop := valid_segs (matcher_segs m).

(** What a matcher denotes: one namespace, or a namespace and everything
    below it. *)
Definition denotes (m : matcher) (ns : list string) : Prop :=
  match m with
  | Exact segs => ns = segs
  | Subtree segs => segs `prefix_of` ns
  end.

#[export] Instance matcher_eq_dec : EqDecision matcher.
Proof. solve_decision. Defined.
#[export] Instance denotes_dec m ns : Decision (denotes m ns).
Proof. destruct m; simpl; apply _. Defined.

(** ** Segments and rendered paths *)

Lemma valid_segment_chars s :
  valid_segment s = true → s ≠ "" ∧ str_forall is_word_dash s = true.
Proof.
  destruct s as [|a s]; simpl; [done|]. intros H; bool_simpl. split; [done|].
  unfold is_word_dash at 1. by rewrite H.
Qed.

Lemma valid_segment_no_char c s :
  is_word_dash c = false → valid_segment s = true → no_char c s = true.
Proof. intros Hc [_ Hs]%valid_segment_chars. by apply no_char_class with is_word_dash. Qed.

Lemma segment_regex_spec s : re_lang segment_regex s ↔ valid_segment s = true.
Proof.
  unfold segment_regex, RPlus. rewrite re_lang_seq. setoid_rewrite re_lang_seq.
  setoid_rewrite re_lang_chr. setoid_rewrite re_lang_star_chr. split.
  - intros (? & t & -> & (? & u & -> & (a & -> & Ha) & Hu) & Ht).
    rewrite !str_cons_app, str_nil_app. simpl. rewrite Ha, str_forall_app, Ht, andb_true_r. simpl.
    eapply str_forall_impl; [|exact Hu]. unfold is_word_dash. by intros b ->.
  - destruct s as [|a s]; simpl; [done|]. intros H; bool_simpl.
    exists (String a ""), s. split_and!; [done|exists (String a ""), ""|done]. naive_solver.
Qed.

Lemma valid_segs_app p q : valid_segs (p ++ q) ↔ valid_segs p ∧ valid_segs q.
Proof. apply Forall_app. Qed.

Lemma valid_segs_no_char c segs :
  is_word_dash c = false → valid_segs segs → Forall (λ w, no_char c w = true) (Root :: segs).
Proof.
  intros Hc Hs. constructor.
  - by apply (valid_segment_no_char c Root).
  - eapply Forall_impl; [exact Hs|]. intros w. by apply valid_segment_no_char.
Qed.

Lemma render_nonempty segs : render segs ≠ "".
Proof. destruct segs; [done|]. unfold render. by rewrite Join_cons. Qed.

Lemma render_app p q : q ≠ [] → render (p ++ q) = render p +:+ String PathSeparator (Join q PathSeparator).
Proof. intros Hq. unfold render. rewrite app_comm_cons, Join_app by done. done. Qed.

Lemma render_snoc p x : render (p ++ [x]) = render p +:+ String PathSeparator x.
Proof. by rewrite render_app. Qed.

Lemma Split_render segs : valid_segs segs → Split (render segs) PathSeparator = Root :: segs.
Proof. intros. apply Split_Join; [done|]. by apply valid_segs_no_char. Qed.

Lemma render_inj p q : valid_segs p → valid_segs q → render p = render q → p = q.
Proof. intros Hp Hq H. apply (f_equal (λ s, Split s PathSeparator)) in H. rewrite !Split_render in H by done. by injection H. Qed.

Lemma no_char_Join c l :
  c ≠ PathSeparator → Forall (λ w, no_char c w = true) l → no_char c (Join l PathSeparator) = true.
Proof.
  intros Hc Hl. induction Hl as [|w l Hw Hl IH]; [done|].
  destruct l as [|w' l]; [done|]. rewrite Join_cons, no_char_app, Hw by done.
  unfold no_char in *. simpl in *. by rewrite IH, bool_decide_true by done.
Qed.

Lemma render_no_star segs : valid_segs segs → no_char "*" (render segs) = true.
Proof. intros. apply no_char_Join; [done|]. by apply valid_segs_no_char. Qed.

Lemma render_root_prefix segs :
  segs = [] ∧ render segs = Root ∨ HasPrefix (render segs) (Root +:+ String PathSeparator "") = true.
Proof.
  destruct segs as [|x segs]; [by left|right]. unfold render. rewrite Join_cons by done.
  apply HasPrefix_spec. exists (Join (x :: segs) PathSeparator). by rewrite str_app_assoc.
Qed.

(** A valid path is no sentinel and has at least the four bytes of [root]. *)
Lemma render_length segs : (4 ≤ String.length (render segs))%nat.
Proof.
  destruct segs as [|x segs]; [done|]. unfold render. rewrite Join_cons, str_length_app by done.
  simpl. lia.
Qed.

Lemma render_not_wild segs : valid_segs segs → HasSuffix (render segs) WildcardSuffix = false.
Proof.
  intros Hs. apply not_true_iff_false. rewrite HasSuffix_spec. intros [r Hr].
  pose proof (render_no_star segs Hs) as Hn. by rewrite Hr, no_char_app, andb_false_r in Hn.
Qed.

(** ** Validation accepts exactly the rendered paths *)

Lemma dot_segment_lang x :
  valid_segment x = true →
  re_lang (RSeq (RLit (String PathSeparator "")) segment_regex) (String PathSeparator x).
Proof. intros. apply re_lang_lit_seq. exists x. split; [done|]. by apply segment_regex_spec. Qed.

Lemma validPathRegex_spec s :
  re_match validPathRegex s = true ↔ ∃ segs, valid_segs segs ∧ s = render segs.
Proof.
  unfold validPathRegex. rewrite re_match_spec, re_lang_lit_seq. split.
  - intros (t & -> & Ht).
    assert (∃ segs, valid_segs segs ∧ Root +:+ t = render segs) as (segs & ? & ->); [|by eauto].
    cut (∀ p, valid_segs p → ∃ segs, valid_segs segs ∧ render p +:+ t = render segs).
    { intros H. apply (H []). constructor. }
    remember (RStar _) as q eqn:Hq. induction Ht as [| | | | |r|r s1 s2 H1 _ _ IH]; simplify_eq.
    + intros p Hp. exists p. by rewrite str_app_nil_r.
    + intros p Hp. apply (re_lang_lit_seq (String PathSeparator "")) in H1 as (x & -> & Hx%segment_regex_spec).
      destruct (IH eq_refl (p ++ [x])) as (segs & Hs & Heq).
      { apply valid_segs_app. split; [done|]. by repeat constructor. }
      exists segs. split; [done|]. rewrite <-Heq, render_snoc, !str_app_assoc. done.
  - intros (segs & Hs & ->). destruct segs as [|x segs].
    { exists "". split; [done|constructor]. }
    exists (String PathSeparator (Join (x :: segs) PathSeparator)).
    split; [unfold render; by rewrite Join_cons|].
    revert x Hs. induction segs as [|y segs IH]; intros x Hs; inversion Hs; subst.
    + simpl. rewrite <-(str_app_nil_r (String _ x)). 
      constructor; [by apply dot_segment_lang|constructor].
    + rewrite Join_cons, <-str_cons_app by done. 
      constructor; [by apply dot_segment_lang|by apply IH].
Qed.

Lemma render_not_sentinel segs : valid_segs segs → render segs ≠ SkipPermissionChecks.
Proof.
  intros Hs Heq. pose proof (Split_render segs Hs) as H. rewrite Heq in H. discriminate H.
Qed.

Lemma ValidatePath_render segs : valid_segs segs → ValidatePath (render segs) = None.
Proof.
  intros Hs. unfold ValidatePath. rewrite decide_False by apply render_nonempty.
  rewrite decide_False by (by apply render_not_sentinel).
  rewrite (proj2 (validPathRegex_spec _)) by eauto.
  destruct (render_root_prefix segs) as [[-> ->]| ->]; [done|]. by rewrite andb_false_r.
Qed.

Lemma ValidatePath_None p : ValidatePath p = None → ∃ segs, valid_segs segs ∧ p = render segs.
Proof.
  unfold ValidatePath. intros H. apply validPathRegex_spec.
  destruct (re_match validPathRegex p); [done|]. by repeat case_match.
Qed.

Lemma ValidateMatcher_render m : valid_matcher m → ValidateMatcher (render_matcher m) = None.
Proof.
  intros Hm. unfold ValidateMatcher. destruct m as [segs|segs]; simpl in *.
  - rewrite decide_False by apply render_nonempty.
    change (HasSuffix (render segs) ".**") with (HasSuffix (render segs) WildcardSuffix).
    rewrite render_not_wild, ValidatePath_render by done.
    destruct (render_root_prefix segs) as [[-> ->]| ->]; [done|]. by rewrite andb_false_r.
  - rewrite decide_False.
    2:{ intros [Hr _]%str_app_nil_inv. by apply render_nonempty in Hr. }
    rewrite HasSuffix_app.
    change 3%nat with (String.length WildcardSuffix).
    rewrite str_take_suffix, ValidatePath_render by done.
    assert (HasPrefix (render segs +:+ WildcardSuffix) (Root +:+ String PathSeparator "") = true) as ->.
    { destruct (render_root_prefix segs) as [[_ ->]|[r Hr]%HasPrefix_spec]; [done|].
      apply HasPrefix_spec. exists (r +:+ WildcardSuffix). by rewrite Hr, str_app_assoc. }
    by rewrite andb_false_r.
Qed.

Lemma ValidateMatcher_None s :
  ValidateMatcher s = None → ∃ m, valid_matcher m ∧ s = render_matcher m.
Proof.
  unfold ValidateMatcher. case_decide; [done|]. case_match; [done|].
  destruct (HasSuffix s ".**") eqn:Hw.
  - intros (segs & Hs & Heq)%ValidatePath_None. exists (Subtree segs). split; [done|]. simpl.
    rewrite <-Heq. apply HasSuffix_spec in Hw as [r ->].
    change 3%nat with (String.length ".**"). by rewrite str_take_suffix.
  - intros (segs & Hs & ->)%ValidatePath_None. by exists (Exact segs).
Qed.

(** ** Children and matching *)

Lemma IsChild_render p q :
  valid_segs p → valid_segs q →
  IsChild (render p) (render q) = true ↔ ∃ r, r ≠ [] ∧ q = p ++ r.
Proof.
  intros Hp Hq. unfold IsChild. rewrite HasPrefix_spec. split.
  - intros [t Ht]. rewrite str_app_assoc, str_cons_app, str_nil_app in Ht.
    apply (f_equal (λ s, Split s PathSeparator)) in Ht.
    rewrite Split_app, !Split_render in Ht by done. injection Ht as ->.
    exists (Split t PathSeparator). split; [apply Split_nonempty|done].
  - intros (r & Hr & ->). exists (Join r PathSeparator).
    by rewrite render_app, str_app_assoc, str_cons_app by done.
Qed.

Lemma IsSameOrChild_render p q :
  valid_segs p → valid_segs q → IsSameOrChild (render p) (render q) = true ↔ p `prefix_of` q.
Proof.
  intros Hp Hq. unfold IsSameOrChild.
  rewrite orb_true_iff, bool_decide_eq_true, IsChild_render by done. split.
  - intros [->%render_inj|(r & _ & ->)]; [done..|by apply prefix_app_r].
  - intros [r ->]. destruct r as [|x r]; [left; by rewrite app_nil_r|right; by exists (x :: r)].
Qed.

Lemma render_matcher_nonempty m : render_matcher m ≠ "".
Proof.
  destruct m; simpl; [apply render_nonempty|].
  intros [Hr _]%str_app_nil_inv. by apply render_nonempty in Hr.
Qed.

Lemma Matches_render m ns :
  valid_matcher m → valid_segs ns → Matches (render_matcher m) (render ns) = true ↔ denotes m ns.
Proof.
  intros Hm Hns. unfold Matches.
  rewrite (bool_decide_false (render_matcher m = "")) by apply render_matcher_nonempty.
  rewrite (bool_decide_false (render ns = "")) by apply render_nonempty. simpl.
  destruct m as [segs|segs]; simpl in *.
  - rewrite render_not_wild by done. rewrite bool_decide_eq_true. split.
    + by intros ->%render_inj.
    + by intros ->.
  - rewrite HasSuffix_app.
    change 3%nat with (String.length WildcardSuffix). rewrite str_take_suffix.
    rewrite <-IsSameOrChild_render by done. unfold IsSameOrChild.
    by rewrite (bool_decide_ext (render ns = render segs) (render segs = render ns)).
Qed.

Lemma render_matcher_inj m1 m2 :
  valid_matcher m1 → valid_matcher m2 → render_matcher m1 = render_matcher m2 → m1 = m2.
Proof.
  intros H1 H2 Heq. destruct m1 as [p|p], m2 as [q|q]; simpl in *.
  - by apply render_inj in Heq as ->.
  - pose proof (render_not_wild p H1) as Hw. by rewrite Heq, HasSuffix_app in Hw.
  - pose proof (render_not_wild q H2) as Hw. by rewrite <-Heq, HasSuffix_app in Hw.
  - apply str_app_inj_r in Heq. by apply render_inj in Heq as ->.
Qed.

(** The stem [p.] of a subtree matcher is a prefix of a matcher string exactly
    when the matcher lies in the subtree. *)
Lemma stem_prefix p m :
  valid_segs p → valid_matcher m →
  HasPrefix (render_matcher m) (render p +:+ String PathSeparator "") = true ↔
  match m with
  | Exact q => ∃ r, r ≠ [] ∧ q = p ++ r
  | Subtree q => p `prefix_of` q
  end.
Proof.
  intros Hp Hm. destruct m as [q|q]; simpl in *; [by apply IsChild_render|].
  rewrite HasPrefix_spec. split.
  - intros [t Ht]. rewrite str_app_assoc, str_cons_app, str_nil_app in Ht.
    apply (f_equal (λ s, Split s PathSeparator)) in Ht. unfold WildcardSuffix in Ht.
    rewrite !Split_app, !Split_render in Ht by done.
    change (Split Wildcard PathSeparator) with ["**"] in Ht. injection Ht as Ht.
    destruct (decide (Split t PathSeparator = [])) as [Hn|Hn].
    { by apply Split_nonempty in Hn. }
    destruct (exists_last Hn) as (r & y & Hr). rewrite Hr, app_assoc in Ht.
    apply app_inj_tail in Ht as [-> _]. by apply prefix_app_r.
  - intros [r ->]. destruct r as [|x r].
    + rewrite app_nil_r. exists Wildcard. by rewrite str_app_assoc.
    + rewrite render_app by done. exists (Join (x :: r) PathSeparator +:+ WildcardSuffix).
      by rewrite !str_app_assoc, !str_cons_app.
Qed.

(** ** Intersection of matchers *)

(** The inputs on which [ConstrainMatcher] does not compute the intersection:
    a subtree and a direct child of its base whose segment is too short for
    the child's string to be the longer one, and two exact paths the longer of
    which extends the shorter by exactly three bytes. *)
Definition constrain_defect (m1 m2 : matcher) : Prop :=
  match m1, m2 with
  | Subtree _, Subtree _ => False
  | Exact p, Subtree q => ∃ x, p = q ++ [x] ∧ (String.length x ≤ 2)%nat
  | Subtree q, Exact p => ∃ x, p = q ++ [x] ∧ (String.length x ≤ 1)%nat
  | Exact p, Exact q =>
      ∃ t, String.length t = 3%nat ∧ (render q = render p +:+ t ∨ render p = render q +:+ t)
  end.

(** The result [(r, ok)] denotes the intersection of [m1] and [m2]. *)
Definition is_intersection (m1 m2 : matcher) (r : string) (ok : bool) : Prop :=
  ∀ ns, valid_segs ns →
    (ok = true ∧ Matches r (render ns) = true) ↔ (denotes m1 ns ∧ denotes m2 ns).

Lemma render_matcher_length m : (4 ≤ String.length (render_matcher m))%nat.
Proof.
  destruct m; simpl; [apply render_length|]. rewrite str_length_app.
  pose proof (render_length segs). lia.
Qed.

Lemma render_length_snoc q x :
  String.length (render (q ++ [x])) = (String.length (render q) + 1 + String.length x)%nat.
Proof. rewrite render_snoc, str_length_app. simpl. lia. Qed.

Lemma render_length_app q r :
  valid_segs (q ++ r) → r ≠ [] →
  (String.length (render q) + 2 ≤ String.length (render (q ++ r)))%nat ∧
  (length r ≠ 1%nat → String.length (render q) + 4 ≤ String.length (render (q ++ r)))%nat.
Proof.
  intros [_ Hr]%valid_segs_app Hne. rewrite render_app, str_length_app by done.
  destruct r as [|x r]; [done|]. inversion Hr as [|?? Hx Hr']; subst.
  apply valid_segment_chars in Hx as [Hx _].
  assert (1 ≤ String.length x)%nat by (destruct x; simpl; [done|lia]).
  destruct r as [|y r]; [simpl; split; [lia|done]|].
  inversion Hr' as [|?? Hy _]; subst. apply valid_segment_chars in Hy as [Hy _].
  rewrite Join_cons by done. simpl. rewrite str_length_app. simpl.
  assert (1 ≤ String.length (Join (y :: r) PathSeparator))%nat.
  { destruct r; [destruct y; simpl; [done|lia]|].
    rewrite Join_cons, str_length_app by done. simpl. lia. }
  simpl in *. lia.
Qed.

(** The part of [ConstrainMatcher] after the two strings are ordered. *)
Definition constrain_body (shorter longer : string) : outcome (string * bool) :=
  head ← slice_to longer
           (Z.of_nat (String.length longer) - Z.of_nat (String.length WildcardSuffix));
  if bool_decide (shorter = head) then GoRet (shorter, true)
  else if negb (HasSuffix shorter WildcardSuffix) then GoRet ("", false)
  else
    stem ← slice_to shorter
             (Z.of_nat (String.length shorter) - Z.of_nat (String.length Wildcard));
    if HasPrefix longer stem then GoRet (longer, true) else GoRet ("", false).

Lemma slice_head_subtree q :
  slice_to (render q +:+ WildcardSuffix)
    (Z.of_nat (String.length (render q +:+ WildcardSuffix)) -
     Z.of_nat (String.length WildcardSuffix)) = GoRet (render q).
Proof. apply slice_to_app. rewrite str_length_app. lia. Qed.

Lemma slice_stem p :
  slice_to (render p +:+ WildcardSuffix)
    (Z.of_nat (String.length (render p +:+ WildcardSuffix)) -
     Z.of_nat (String.length Wildcard)) = GoRet (render p +:+ String PathSeparator "").
Proof.
  assert (render p +:+ WildcardSuffix = (render p +:+ String PathSeparator "") +:+ Wildcard) as Heq
    by (by rewrite str_app_assoc).
  rewrite Heq. apply slice_to_app. rewrite str_length_app. lia.
Qed.

Lemma slice_head_exact s :
  (3 ≤ String.length s)%nat →
  ∃ h t, s = h +:+ t ∧ String.length t = 3%nat ∧
    slice_to s (Z.of_nat (String.length s) - Z.of_nat (String.length WildcardSuffix)) = GoRet h.
Proof.
  intros Hs. exists (str_take (String.length s - 3) s), (str_drop (String.length s - 3) s).
  split_and!; [by rewrite str_take_drop|rewrite str_length_drop; lia|].
  unfold slice_to. rewrite bool_decide_true by (simpl; lia).
  do 2 f_equal. simpl. lia.
Qed.

(** The body on a shorter subtree matcher. *)
Lemma constrain_body_subtree p m :
  valid_segs p → valid_matcher m →
  (String.length (render p +:+ WildcardSuffix) ≤ String.length (render_matcher m))%nat →
  constrain_body (render p +:+ WildcardSuffix) (render_matcher m) =
    if HasPrefix (render_matcher m) (render p +:+ String PathSeparator "")
    then GoRet (render_matcher m, true) else GoRet ("", false).
Proof.
  intros Hp Hm Hlen. unfold constrain_body.
  assert (∀ r, no_char "*" r = true → render p +:+ WildcardSuffix ≠ r) as Hstar.
  { intros r Hr Heq. by rewrite <-Heq, no_char_app, andb_false_r in Hr. }
  destruct m as [q|q]; cbn [render_matcher] in *.
  - destruct (slice_head_exact (render q)) as (h & t & Hq & Ht & ->).
    { pose proof (render_length q). lia. }
    cbn [mbind outcome_bind]. rewrite bool_decide_false.
    2:{ apply Hstar. pose proof (render_no_star q Hm) as Hn. rewrite Hq, no_char_app in Hn.
        by bool_simpl. }
    by rewrite HasSuffix_app, slice_stem.
  - rewrite slice_head_subtree. cbn [mbind outcome_bind]. rewrite bool_decide_false.
    2:{ apply Hstar. by apply render_no_star. }
    by rewrite HasSuffix_app, slice_stem.
Qed.

Lemma is_intersection_none m1 m2 :
  (∀ ns, denotes m1 ns → ¬ denotes m2 ns) → is_intersection m1 m2 "" false.
Proof. intros H ns _. split; [by intros [? _]|]. intros [??]. by destruct (H ns). Qed.

Lemma is_intersection_some m1 m2 m :
  valid_matcher m → (∀ ns, denotes m ns ↔ denotes m1 ns ∧ denotes m2 ns) →
  is_intersection m1 m2 (render_matcher m) true.
Proof. intros Hm H ns Hns. rewrite Matches_render, H by done. naive_solver. Qed.

Lemma constrain_body_exact_from_subtree p m :
  valid_segs p → valid_matcher m →
  (String.length (render p +:+ WildcardSuffix) ≤ String.length (render_matcher m))%nat →
  ∃ r ok, constrain_body (render p +:+ WildcardSuffix) (render_matcher m) = GoRet (r, ok) ∧
          is_intersection (Subtree p) m r ok.
Proof.
  intros Hp Hm Hlen. rewrite constrain_body_subtree by done.
  pose proof (stem_prefix p m Hp Hm) as Hstem.
  destruct (HasPrefix _ _).
  - eexists _, _. split; [done|]. apply is_intersection_some; [done|].
    destruct Hstem as [Hstem _]. specialize (Hstem eq_refl).
    intros ns. destruct m as [q|q]; simpl.
    + destruct Hstem as (r & _ & ->). split; [intros ->|by intros [_ ->]].
      split; [by apply prefix_app_r|done].
    + split; [|by intros [_ ?]]. intros ?. split; [by etrans|done].
  - eexists _, _. split; [done|]. apply is_intersection_none. intros ns Hpre Hq.
    destruct Hstem as [_ Hstem]. discriminate Hstem.
    destruct m as [q|q]; simpl in *; rewrite str_length_app in Hlen; simpl in Hlen.
    + subst ns. destruct Hpre as [r ->]. exists r. split; [|done].
      intros ->. rewrite app_nil_r in Hlen. lia.
    + rewrite str_length_app in Hlen. simpl in Hlen.
      destruct (prefix_weak_total p q ns Hpre Hq) as [?|[r ->]]; [done|].
      destruct r as [|x r]; [by rewrite app_nil_r|].
      pose proof (proj1 (render_length_app q (x :: r) Hp ltac:(done))). lia.
Qed.

(** The body on a shorter exact matcher. *)
Lemma constrain_body_exact_from_path p m :
  valid_segs p → valid_matcher m → Exact p ≠ m →
  (String.length (render p) ≤ String.length (render_matcher m))%nat →
  (match m with
   | Exact q => ¬ ∃ t, String.length t = 3%nat ∧ render q = render p +:+ t
   | Subtree q => ¬ ∃ x, p = q ++ [x]
   end) →
  ∃ r ok, constrain_body (render p) (render_matcher m) = GoRet (r, ok) ∧
          is_intersection (Exact p) m r ok.
Proof.
  intros Hp Hm Hne Hlen Hnd. unfold constrain_body. rewrite render_not_wild by done.
  destruct m as [q|q]; cbn [render_matcher negb] in *.
  - destruct (slice_head_exact (render q)) as (h & t & Hq & Ht & ->).
    { pose proof (render_length q). lia. }
    simpl. rewrite bool_decide_false.
    2:{ intros Hh. apply Hnd. exists t. by rewrite Hh. }
    eexists _, _. split; [done|]. apply is_intersection_none. naive_solver.
  - rewrite slice_head_subtree. cbn. case_bool_decide as Hpq.
    + apply render_inj in Hpq as ->; [|done..]. eexists _, _. split; [done|].
      apply (is_intersection_some _ _ (Exact q)); [done|]. naive_solver.
    + eexists _, _. split; [done|]. apply is_intersection_none. simpl.
      intros ns -> [r ->]. destruct r as [|x [|y r]].
      * by rewrite app_nil_r in Hpq.
      * apply Hnd. eauto.
      * rewrite str_length_app in Hlen. simpl in Hlen.
        pose proof (proj2 (render_length_app q (x :: y :: r) Hp ltac:(done)) ltac:(done)). lia.
Qed.

Lemma is_intersection_sym m1 m2 r ok : is_intersection m1 m2 r ok → is_intersection m2 m1 r ok.
Proof. intros H ns Hns. rewrite (H ns Hns). naive_solver. Qed.

Lemma ConstrainMatcher_unfold ns1 ns2 :
  ns1 ≠ "" → ns2 ≠ "" → ns1 ≠ ns2 →
  ConstrainMatcher ns1 ns2 =
    if bool_decide (String.length ns2 < String.length ns1)%nat
    then constrain_body ns2 ns1 else constrain_body ns1 ns2.
Proof.
  intros H1 H2 H3. unfold ConstrainMatcher. rewrite !bool_decide_false by done. simpl.
  by case_bool_decide.
Qed.

Lemma ConstrainMatcher_intersection m1 m2 :
  valid_matcher m1 → valid_matcher m2 → ¬ constrain_defect m1 m2 →
  ∃ r ok, ConstrainMatcher (render_matcher m1) (render_matcher m2) = GoRet (r, ok) ∧
          is_intersection m1 m2 r ok.
Proof.
  intros H1 H2 Hnd. destruct (decide (m1 = m2)) as [->|Hne].
  { unfold ConstrainMatcher. rewrite !bool_decide_false by apply render_matcher_nonempty.
    simpl. rewrite bool_decide_true by done. eexists _, _. split; [done|].
    apply is_intersection_some; [done|]. naive_solver. }
  rewrite ConstrainMatcher_unfold;
    [|apply render_matcher_nonempty..|intros ?%render_matcher_inj; done].
  case_bool_decide as Hlen.
  - destruct m2 as [p|p].
    + destruct (constrain_body_exact_from_path p m1) as (r & ok & ? & ?%is_intersection_sym);
        [done..|cbn [render_matcher] in *; lia| |by eauto].
      destruct m1 as [q|q]; simpl in *; [naive_solver|].
      intros [x ->]. apply Hnd. exists x. split; [done|].
      rewrite render_length_snoc, str_length_app in Hlen. simpl in Hlen. lia.
    + destruct (constrain_body_exact_from_subtree p m1) as (r & ok & ? & ?%is_intersection_sym);
        [done..|simpl in *; lia|by eauto].
  - destruct m1 as [p|p].
    + apply constrain_body_exact_from_path; [done..|cbn [render_matcher] in *; lia|].
      destruct m2 as [q|q]; simpl in *; [naive_solver|].
      intros [x ->]. apply Hnd. exists x. split; [done|].
      rewrite render_length_snoc, str_length_app in Hlen. simpl in Hlen. lia.
    + apply constrain_body_exact_from_subtree; [done..|simpl in *; lia].
Qed.

(** ** The hierarchy of a path *)

Lemma util_Filter_filter {T} (s : list T) (keep : T → bool) :
  util_Filter s keep = List.filter keep s.
Proof.
  unfold util_Filter.
  assert (∀ acc, foldl (λ result v, if keep v then result ++ [v] else result) acc s =
                 acc ++ List.filter keep s) as H; [|apply H].
  induction s as [|v s IH]; intros acc; simpl.
  - by rewrite app_nil_r.
  - rewrite IH. destruct (keep v); [by rewrite <-app_assoc|done].
Qed.

Lemma List_filter_all {T} (f : T → bool) l : Forall (λ x, f x = true) l → List.filter f l = l.
Proof. induction 1 as [|x l Hx _ IH]; simpl; [done|]. by rewrite Hx, IH. Qed.

Lemma DepthOfPath_render segs :
  valid_segs segs → (Z.of_nat (length segs) < 2 ^ 64)%Z →
  DepthOfPath (render segs) = Z.of_nat (length segs).
Proof.
  intros Hs Hlen. unfold DepthOfPath. rewrite util_Filter_filter, Split_render by done.
  rewrite List_filter_all.
  - unfold util_MaxInt. simpl foldl. unfold wrap64.
    repeat case_bool_decide; simpl length in *; try lia; rewrite Z.mod_small; lia.
  - constructor; [done|]. eapply Forall_impl; [exact Hs|].
    intros w [Hw _]%valid_segment_chars. by rewrite bool_decide_false.
Qed.

Lemma SplitPathToPrefixes_render segs :
  valid_segs segs →
  SplitPathToPrefixes (render segs) = map (λ i, render (take i segs)) (seq 0 (S (length segs))).
Proof.
  intros Hs. unfold SplitPathToPrefixes. rewrite decide_False by apply render_nonempty.
  rewrite Split_render by done. simpl length. apply map_ext. intros i.
  by rewrite Nat.add_1_r.
Qed.

Lemma elem_of_SplitPathToPrefixes segs x :
  valid_segs segs →
  x ∈ SplitPathToPrefixes (render segs) ↔ ∃ q, q `prefix_of` segs ∧ x = render q.
Proof.
  intros Hs. rewrite SplitPathToPrefixes_render by done. rewrite list_elem_of_fmap. split.
  - intros (i & -> & _). exists (take i segs). split; [apply prefix_take|done].
  - intros (q & [r ->] & ->). exists (length q). rewrite take_app_length. split; [done|].
    apply elem_of_seq. rewrite length_app. lia.
Qed.

Lemma ParentPath_snoc p x : valid_segment x = true → ParentPath (render (p ++ [x])) = render p.
Proof.
  intros Hx. unfold ParentPath. rewrite render_snoc, LastIndex_app, str_take_app; [done|].
  by apply valid_segment_no_char.
Qed.

Lemma NameFromPath_snoc p x : valid_segment x = true → NameFromPath (render (p ++ [x])) = x.
Proof.
  intros Hx. unfold NameFromPath. rewrite render_snoc, LastIndex_app.
  - change (String.length (render p) + 1)%nat with (String.length (render p) + String.length (String PathSeparator ""))%nat.
    rewrite <-str_length_app. rewrite <-(str_nil_app x), <-(str_cons_app PathSeparator "" x) at 1.
    rewrite <-str_app_assoc. apply str_drop_app.
  - by apply valid_segment_no_char.
Qed.

Lemma foldl_union_elem (f : list string) (acc : gset string) x :
  x ∈ foldl (λ acc prefix, {[prefix]} ∪ acc) acc f ↔ x ∈ f ∨ x ∈ acc.
Proof.
  revert acc. induction f as [|y f IH]; intros acc; simpl; [set_solver|].
  rewrite IH. set_solver.
Qed.

Lemma elem_of_prefixSet paths x :
  x ∈ prefixSet paths ↔ ∃ p, p ∈ paths ∧ x ∈ SplitPathToPrefixes p.
Proof.
  unfold prefixSet.
  assert (∀ acc : gset string, x ∈ foldl (λ acc path, foldl (λ acc prefix, {[prefix]} ∪ acc) acc
      (SplitPathToPrefixes path)) acc paths ↔ x ∈ acc ∨ ∃ p, p ∈ paths ∧ x ∈ SplitPathToPrefixes p) as H.
  { induction paths as [|p paths IH]; intros acc; simpl; [set_solver|].
    rewrite IH, foldl_union_elem. set_solver. }
  rewrite H. set_solver.
Qed.

(** ** The order of [SplitPathsToPrefixes] *)

(** The order the comparison function stands for: by depth, then by bytes. *)
Definition shallower (i j : string) : Prop :=
  (DepthOfPath i < DepthOfPath j)%Z ∨ DepthOfPath i = DepthOfPath j ∧ str_lt i j.

(** A depth that fits in an [int]. *)
Definition small_depth (x : string) : Prop := (0 ≤ DepthOfPath x < 2 ^ 63)%Z.

Lemma comparePrefixes_spec i j :
  small_depth i → small_depth j → cmp_le comparePrefixes i j ↔ i = j ∨ shallower i j.
Proof.
  unfold small_depth, cmp_le, comparePrefixes, shallower. intros Hi Hj.
  case_bool_decide as Hd; simpl.
  - rewrite Hd. pose proof (irreflexivity str_lt) as Hirr. unfold complement in Hirr.
    destruct (str_lt_total i j) as [H|[->|H]].
    + unfold str_lt in H. rewrite H. naive_solver lia.
    + unfold str_lt in Hirr. destruct (String.ltb j j) eqn:E; [by apply Hirr in E|]. naive_solver lia.
    + destruct (String.ltb i j) eqn:E; [naive_solver lia|]. pose proof H as H'.
      unfold str_lt in H'. rewrite H'. split; [lia|].
      intros [->|[?|[_ Hlt]]]; [by apply Hirr in H|lia|]. unfold str_lt in Hlt. congruence.
  - replace (int64_of (wrap64 (DepthOfPath i - DepthOfPath j)))
      with (DepthOfPath i - DepthOfPath j)%Z; [naive_solver lia|].
    rewrite int64_of_wrap64, int64_of_id; [done|]. unfold int64_range. lia.
Qed.

#[export] Instance shallower_strict : StrictOrder shallower.
Proof.
  pose proof str_lt_strict as [Hirr Htr]. split.
  - intros x [?|[_ Hx]]; [lia|]. by apply Hirr in Hx.
  - intros x y z [?|[H1 ?]] [?|[H2 ?]]; [left; lia..|]. right. split; [lia|]. by apply (Htr x y z).
Qed.

Lemma comparePrefixes_total i j :
  small_depth i → small_depth j → cmp_le comparePrefixes i j ∨ cmp_le comparePrefixes j i.
Proof.
  intros. rewrite !comparePrefixes_spec by done. unfold shallower.
  destruct (str_lt_total i j) as [?|[?|?]], (Z.lt_total (DepthOfPath i) (DepthOfPath j)) as [?|[?|?]];
    naive_solver.
Qed.

Lemma comparePrefixes_trans i j k :
  small_depth i → small_depth j → small_depth k →
  cmp_le comparePrefixes i j → cmp_le comparePrefixes j k → cmp_le comparePrefixes i k.
Proof.
  intros ??? H2 H3. rewrite !comparePrefixes_spec in * by done.
  destruct shallower_strict as [_ Htr]. unfold Transitive in Htr.
  destruct H2 as [->|?], H3 as [->|?]; eauto.
Qed.

Lemma comparePrefixes_antisym i j :
  small_depth i → small_depth j →
  cmp_le comparePrefixes i j → cmp_le comparePrefixes j i → i = j.
Proof.
  intros Hi Hj. rewrite !comparePrefixes_spec by done. intros [?|H1] [?|H2]; [done..|].
  destruct shallower_strict as [Hirr Htr]. exfalso. by apply (Hirr i), (Htr i j i).
Qed.

Lemma StronglySorted_strict {A} (R S : relation A) l :
  NoDup l → (∀ x y, x ∈ l → y ∈ l → R x y → x = y ∨ S x y) →
  StronglySorted R l → StronglySorted S l.
Proof.
  intros Hnd HRS Hs. induction Hs as [|x l Hs IH Hx]; [constructor|].
  inversion Hnd; subst. constructor; [apply IH; eauto using list_elem_of_further|].
  rewrite Forall_forall in Hx |- *. intros y Hy.
  destruct (HRS x y) as [->|?]; [apply list_elem_of_here|by apply list_elem_of_further|by auto|done|done].
Qed.

Lemma prefix_small_depth segs q :
  valid_segs segs → (Z.of_nat (length segs) < 2 ^ 63)%Z → q `prefix_of` segs → small_depth (render q).
Proof.
  intros Hs Hlen [r ->]. rewrite length_app in Hlen. apply valid_segs_app in Hs as [Hq _].
  unfold small_depth. rewrite DepthOfPath_render by (done || lia). lia.
Qed.

Section split_paths.
Context (segss : list (list string)) (keys : list string).
Hypothesis segss_valid : Forall valid_segs segss.
Hypothesis segss_small : Forall (λ segs, Z.of_nat (length segs) < 2 ^ 63)%Z segss.
Hypothesis keys_set : keys ≡ₚ elements (prefixSet (map render segss)).

Lemma keys_elem x : x ∈ keys ↔ ∃ p q, p ∈ segss ∧ q `prefix_of` p ∧ x = render q.
Proof.
  rewrite keys_set, elem_of_elements, elem_of_prefixSet. setoid_rewrite list_elem_of_fmap.
  rewrite Forall_forall in segss_valid. split.
  - intros (? & (p & -> & Hp) & (q & Hq & ->)%elem_of_SplitPathToPrefixes); [|by auto].
    by exists p, q.
  - intros (p & q & Hp & Hq & ->). exists (render p). split; [by exists p|].
    apply elem_of_SplitPathToPrefixes; [by auto|]. by exists q.
Qed.

Lemma keys_small : Forall small_depth keys.
Proof.
  apply Forall_forall. intros x (p & q & Hp & Hq & ->)%keys_elem.
  rewrite Forall_forall in segss_valid, segss_small.
  by apply (prefix_small_depth p); auto.
Qed.

Lemma sorted_keys_strict : StronglySorted shallower (SortFunc comparePrefixes keys).
Proof.
  pose proof keys_small as Hsm.
  eapply StronglySorted_strict, SortFunc_sorted with (P := small_depth);
    eauto using comparePrefixes_total, comparePrefixes_trans.
  - rewrite SortFunc_perm, keys_set. apply NoDup_elements.
  - intros x y Hx Hy. rewrite SortFunc_perm in Hx, Hy. rewrite Forall_forall in Hsm.
    apply comparePrefixes_spec; auto.
Qed.
End split_paths.

(** ** Where [ConstrainMatcher] is not the intersection *)

Lemma constrain_body_child_of_subtree q x :
  valid_segs (q ++ [x]) → x ≠ "" →
  constrain_body (render (q ++ [x])) (render q +:+ WildcardSuffix) = GoRet ("", false).
Proof.
  intros Hv Hx. unfold constrain_body. rewrite slice_head_subtree. cbn [mbind outcome_bind].
  rewrite bool_decide_false, render_not_wild; [done|done|].
  intros Heq. apply (f_equal String.length) in Heq. rewrite render_length_snoc in Heq.
  destruct x; simpl in Heq; [done|lia].
Qed.

Lemma constrain_body_subtree_child q x :
  valid_segs (q ++ [x]) → (2 ≤ String.length x)%nat →
  constrain_body (render q +:+ WildcardSuffix) (render (q ++ [x])) = GoRet (render (q ++ [x]), true).
Proof.
  intros Hv Hx. pose proof Hv as [Hq _]%valid_segs_app.
  change (render (q ++ [x])) with (render_matcher (Exact (q ++ [x]))).
  rewrite constrain_body_subtree; [|done..|].
  - rewrite (proj2 (stem_prefix q (Exact (q ++ [x])) Hq Hv)); [done|]. by exists [x].
  - cbn [render_matcher]. rewrite render_length_snoc, str_length_app. simpl. lia.
Qed.

Lemma constrain_body_widens s t :
  String.length t = 3%nat → constrain_body s (s +:+ t) = GoRet (s, true).
Proof.
  intros Ht. unfold constrain_body. rewrite (slice_to_app s t).
  - cbn [mbind outcome_bind]. by rewrite bool_decide_true.
  - rewrite str_length_app, Ht. simpl. lia.
Qed.

Lemma constrain_short_child q x :
  valid_segs (q ++ [x]) → String.length x = 1%nat →
  ConstrainMatcher (render q +:+ WildcardSuffix) (render (q ++ [x])) = GoRet ("", false) ∧
  ConstrainMatcher (render (q ++ [x])) (render q +:+ WildcardSuffix) = GoRet ("", false).
Proof.
  intros Hv Hx. pose proof (render_length_snoc q x) as Hlen.
  pose proof (str_length_app (render q) WildcardSuffix) as Hwild. simpl in Hwild.
  assert (x ≠ "") by (by intros ->).
  assert (render (q ++ [x]) ≠ render q +:+ WildcardSuffix) as Hdiff.
  { intros Heq. rewrite Heq in Hlen. lia. }
  assert (render q +:+ WildcardSuffix ≠ "") by apply (render_matcher_nonempty (Subtree q)).
  pose proof (render_nonempty (q ++ [x])).
  split; rewrite ConstrainMatcher_unfold by done;
    [rewrite bool_decide_true by lia|rewrite bool_decide_false by lia];
    by apply constrain_body_child_of_subtree.
Qed.

Lemma constrain_two_byte_child q x :
  valid_segs (q ++ [x]) → String.length x = 2%nat →
  ConstrainMatcher (render q +:+ WildcardSuffix) (render (q ++ [x])) =
    GoRet (render (q ++ [x]), true) ∧
  ConstrainMatcher (render (q ++ [x])) (render q +:+ WildcardSuffix) = GoRet ("", false).
Proof.
  intros Hv Hx. pose proof (render_length_snoc q x) as Hlen.
  pose proof (str_length_app (render q) WildcardSuffix) as Hwild. simpl in Hwild.
  assert (x ≠ "") by (by intros ->).
  assert (render (q ++ [x]) ≠ render q +:+ WildcardSuffix) as Hdiff.
  { intros Heq. pose proof (render_not_wild _ Hv) as Hw. by rewrite Heq, HasSuffix_app in Hw. }
  assert (render q +:+ WildcardSuffix ≠ "") by apply (render_matcher_nonempty (Subtree q)).
  pose proof (render_nonempty (q ++ [x])).
  split; rewrite ConstrainMatcher_unfold by done; rewrite bool_decide_false by lia.
  - apply constrain_body_subtree_child; [done|lia].
  - by apply constrain_body_child_of_subtree.
Qed.

(** ** Properties *)

(** [ValidatePath] accepts exactly the dotted paths under [root] whose
    segments match the segment pattern, and [ValidateMatcher] exactly those
    paths and those paths followed by [.**]. *)
Theorem validation_exact :
  (∀ p, ValidatePath p = None ↔ ∃ segs, valid_segs segs ∧ p = render segs) ∧
  (∀ s, ValidateMatcher s = None ↔ ∃ m, valid_matcher m ∧ s = render_matcher m).
Proof.
  split; intros s; split.
  - apply ValidatePath_None.
  - intros (segs & ? & ->). by apply ValidatePath_render.
  - apply ValidateMatcher_None.
  - intros (m & ? & ->). by apply ValidateMatcher_render.
Qed.

(** On every valid matcher string and every valid path, [Matches] decides
    whether the path lies in the set the matcher denotes: the path itself, or
    the path and all its descendants (never a sibling that shares a string
    prefix). *)
Theorem Matches_refines_denotation (m p : string) :
  ValidateMatcher m = None → ValidatePath p = None →
  ∃ mm segs, m = render_matcher mm ∧ p = render segs ∧
             Matches m p = bool_decide (denotes mm segs).
Proof.
  intros (mm & Hm & ->)%ValidateMatcher_None (segs & Hs & ->)%ValidatePath_None.
  exists mm, segs. split_and!; [done..|]. apply eq_bool_prop_intro.
  rewrite !Is_true_true, bool_decide_eq_true. by apply Matches_render.
Qed.

Lemma Matches_refines_denotation_witness :
  ∃ mm segs, "root.a.**" = render_matcher mm ∧ "root.a.b" = render segs ∧
             Matches "root.a.**" "root.a.b" = bool_decide (denotes mm segs).
Proof. apply (Matches_refines_denotation "root.a.**" "root.a.b"); vm_compute; reflexivity. Defined.

(** [ConstrainMatcher] never panics on valid matchers and, outside the
    inputs of [constrain_defect], returns a matcher for exactly the namespaces
    both arguments match (and [false] when there is none). *)
Theorem ConstrainMatcher_is_intersection m1 m2 :
  valid_matcher m1 → valid_matcher m2 → ¬ constrain_defect m1 m2 →
  ∃ r ok, ConstrainMatcher (render_matcher m1) (render_matcher m2) = GoRet (r, ok) ∧
          is_intersection m1 m2 r ok.
Proof. apply ConstrainMatcher_intersection. Qed.

Lemma ConstrainMatcher_is_intersection_witness :
  ∃ r ok, ConstrainMatcher (render_matcher (Subtree ["a"])) (render_matcher (Exact ["a"; "bcd"]))
            = GoRet (r, ok) ∧
          is_intersection (Subtree ["a"]) (Exact ["a"; "bcd"]) r ok.
Proof.
  apply (ConstrainMatcher_is_intersection (Subtree ["a"]) (Exact ["a"; "bcd"])).
  - by repeat constructor.
  - by repeat constructor.
  - intros (x & Hx & Hlen). injection Hx as <-. simpl in Hlen. lia.
Defined.

(** The exceptions are real.  For a namespace [q] and its direct child
    [q.x]: constraining the exact matchers [q] and [q.x] with a two-byte [x]
    returns [q] although no namespace matches both (an access is widened from
    nothing to [q]); constraining [q.**] and [q.x] with a one-byte [x] returns
    no matcher although both match [q.x]; and with a two-byte [x] the answer
    depends on the order of the arguments. *)
Theorem ConstrainMatcher_defects q x :
  valid_segs (q ++ [x]) →
  (String.length x = 2%nat →
     ConstrainMatcher (render q) (render (q ++ [x])) = GoRet (render q, true) ∧
     Matches (render (q ++ [x])) (render q) = false) ∧
  (String.length x = 1%nat →
     ConstrainMatcher (render q +:+ WildcardSuffix) (render (q ++ [x])) = GoRet ("", false) ∧
     ConstrainMatcher (render (q ++ [x])) (render q +:+ WildcardSuffix) = GoRet ("", false)) ∧
  (String.length x = 2%nat →
     ConstrainMatcher (render q +:+ WildcardSuffix) (render (q ++ [x])) =
       GoRet (render (q ++ [x]), true) ∧
     ConstrainMatcher (render (q ++ [x])) (render q +:+ WildcardSuffix) = GoRet ("", false)) ∧
  Matches (render q +:+ WildcardSuffix) (render (q ++ [x])) = true ∧
  Matches (render (q ++ [x])) (render (q ++ [x])) = true.
Proof.
  intros Hv. pose proof Hv as [Hq Hx]%valid_segs_app.
  pose proof (render_length_snoc q x) as Hlen.
  split_and!.
  - intros H2. split.
    + rewrite ConstrainMatcher_unfold; [|apply render_nonempty..|].
      * rewrite bool_decide_false by lia. rewrite render_snoc. apply constrain_body_widens.
        simpl. by rewrite H2.
      * intros Heq. rewrite <-Heq in Hlen. lia.
    + apply not_true_iff_false. rewrite (Matches_render (Exact (q ++ [x])) q) by done.
      simpl. intros Heq. apply (f_equal length) in Heq. rewrite length_app in Heq. simpl in Heq. lia.
  - intros H1. by apply constrain_short_child.
  - intros H2. by apply constrain_two_byte_child.
  - apply (Matches_render (Subtree q) (q ++ [x])); [done..|]. by apply prefix_app_r.
  - by apply (Matches_render (Exact (q ++ [x])) (q ++ [x])).
Qed.

Lemma ConstrainMatcher_defects_witness :
  ConstrainMatcher "root.prod" "root.prod.eu" = GoRet ("root.prod", true) ∧
  Matches "root.prod.eu" "root.prod" = false.
Proof.
  apply (ConstrainMatcher_defects ["prod"] "eu"); [by repeat constructor|reflexivity].
Defined.

(** The prefixes of a valid path are the paths of its ancestors from
    [root] down to itself; the parent and the name of a path with a last
    segment are the two parts it was built from, and rejoining them gives the
    path back; the depth counts the segments below [root]. *)
Theorem path_hierarchy segs x :
  valid_segs (segs ++ [x]) → (Z.of_nat (length segs) + 1 < 2 ^ 64)%Z →
  let path := render (segs ++ [x]) in
  path = PathFromRoot (segs ++ [x]) ∧
  ParentPath path = render segs ∧ NameFromPath path = x ∧
  ParentPath path +:+ String PathSeparator (NameFromPath path) = path ∧
  DepthOfPath path = (DepthOfPath (ParentPath path) + 1)%Z ∧
  DepthOfPath path = Z.of_nat (length segs + 1) ∧
  SplitPathToPrefixes path = SplitPathToPrefixes (ParentPath path) ++ [path] ∧
  IsChild (ParentPath path) path = true.
Proof.
  intros Hv Hlen path. subst path. pose proof Hv as [Hs Hx]%valid_segs_app.
  inversion Hx as [|?? Hx' _]; subst.
  rewrite ParentPath_snoc, NameFromPath_snoc by done.
  rewrite !DepthOfPath_render, length_app by (rewrite ?length_app; simpl; (done || lia)).
  split_and!; [done..|by rewrite render_snoc|simpl; lia|simpl; lia| |].
  - rewrite !SplitPathToPrefixes_render by done. rewrite length_app, Nat.add_1_r.
    rewrite (seq_S (S (length segs))), map_app. f_equal.
    + apply map_ext_in. intros i [_ Hi]%in_seq. by rewrite take_app_le by lia.
    + simpl. by rewrite take_ge by (rewrite length_app; simpl; lia).
  - apply IsChild_render; [done..|]. by exists [x].
Qed.

Lemma path_hierarchy_witness :
  ParentPath (render (["a"] ++ ["b"])) = render ["a"] ∧
  NameFromPath (render (["a"] ++ ["b"])) = "b".
Proof.
  destruct (path_hierarchy ["a"] "b") as (_ & ? & ? & _); [by repeat constructor|simpl; lia|done].
Defined.

(** [SplitPathsToPrefixes] returns every ancestor path of the given paths
    exactly once, parents strictly before their children (by depth, ties by
    bytes), whatever the iteration order of the set it collects them in. *)
Theorem SplitPathsToPrefixes_sorted segss keys :
  segss ≠ [] → Forall valid_segs segss →
  Forall (λ segs, Z.of_nat (length segs) < 2 ^ 63)%Z segss →
  keys ≡ₚ elements (prefixSet (map render segss)) →
  let res := SplitPathsToPrefixes (map render segss) keys in
  StronglySorted shallower res ∧
  (∀ x, x ∈ res ↔ ∃ p q, p ∈ segss ∧ q `prefix_of` p ∧ x = render q) ∧
  (∀ keys', keys' ≡ₚ keys → SplitPathsToPrefixes (map render segss) keys' = res).
Proof.
  intros Hne Hv Hsm Hk res.
  assert (∀ k, SplitPathsToPrefixes (map render segss) k = SortFunc comparePrefixes k) as Heq
    by (by destruct segss).
  subst res. rewrite !Heq. split_and!.
  - by eapply sorted_keys_strict.
  - intros x. rewrite SortFunc_perm. by eapply keys_elem.
  - intros keys' Hk'. rewrite Heq.
    assert (Forall small_depth keys) as Hks by (by eapply keys_small).
    eapply (SortFunc_unique _ small_depth);
      eauto using comparePrefixes_total, comparePrefixes_trans, comparePrefixes_antisym.
    + by rewrite Hk'.
    + by rewrite SortFunc_perm.
    + eapply SortFunc_sorted; eauto using comparePrefixes_total, comparePrefixes_trans.
Qed.

Lemma SplitPathsToPrefixes_sorted_witness :
  StronglySorted shallower
    (SplitPathsToPrefixes (map render [["a"; "b"]; ["c"]])
       (elements (prefixSet (map render [["a"; "b"]; ["c"]])))).
Proof.
  apply (SplitPathsToPrefixes_sorted [["a"; "b"]; ["c"]]
           (elements (prefixSet (map render [["a"; "b"]; ["c"]]))));
    [done|by repeat constructor| |done].
  repeat constructor.
Defined.
