(* ===== verification/Permissions.v ===== *)
(** * Permissions and request authorization

    Packages [internal/schema/auth] (permission.go), [internal/apauth/core]
    (permissions.go, actor.go, request_auth.go) and [internal/aptmpl]
    (mustache.go).  A permission grants verbs on resources in the namespaces
    of a matcher, which may be a mustache template filled from the actor's
    data.  A request carries an actor and, optionally, restrictions: an action
    is allowed when some permission of the actor and (if there are any) some
    restriction allow it.  A nil [*RequestAuth] and a nil [*Actor] are [None].

    The rendering of a template ([mustache.Render] of github.com/cbroglie/mustache)
    is a parameter of the definitions that use it. *)

From S2P Require Import Prelude GoStrings Regex Namespace.

(** ** Permissions *)

Definition PermissionWildcard : string := "*".

Record Permission := mkPermission {
  perm_Namespace : string;
  perm_Resources : list string;
  perm_ResourceIds : list string;
  perm_Verbs : list string;
}.

#[export] Instance Permission_eq_dec : EqDecision Permission.
Proof. solve_decision. Defined.

Definition Permission_Equal (p other : Permission) : bool :=
  bool_decide (perm_Namespace p = perm_Namespace other) &&
  bool_decide (perm_Resources p = perm_Resources other) &&
  bool_decide (perm_ResourceIds p = perm_ResourceIds other) &&
  bool_decide (perm_Verbs p = perm_Verbs other).

(** The list of accumulated errors; [nil] error is the empty list. *)
Definition Permission_Validate (p : Permission) : list error :=
  (if decide (perm_Namespace p = "") then ["permission namespace is required"] else []) ++
  (r ← perm_ResourceIds p;
   if decide (r = "") then ["permission resource id is required"] else []) ++
  (if decide (length (perm_Resources p) = 0%nat)
   then ["at least one permission resource is required"] else []) ++
  (r ← perm_Resources p;
   if decide (r = "") then ["permission resource is required"] else []) ++
  (if decide (length (perm_Verbs p) = 0%nat)
   then ["at least one permissions verb is required"] else []) ++
  (v ← perm_Verbs p;
   if decide (v = "") then ["permission verb is required"] else []).

Definition NoPermissions : list Permission := [].

Definition AllPermissions : list Permission := [mkPermission "root.**" ["*"] [] ["*"]].

Definition PermissionsSingle (namespace resource verb : string) : list Permission :=
  [mkPermission namespace [resource] [] [verb]].

Definition PermissionsSingleWithResourceIds (namespace resource verb : string)
    (resourceIds : list string) : list Permission :=
  [mkPermission namespace [resource] resourceIds [verb]].

(** ** Actors *)

(** [apid.ID] is a string; [Nil] is the empty one. *)
Record Actor := mkActor {
  act_Id : string;
  act_Name : string;
  act_ExternalId : string;
  act_Namespace : string;
  act_Labels : gmap string string;
  act_Annotations : gmap string string;
  act_Permissions : list Permission;
}.

Definition Actor_GetName (a : Actor) : string :=
  if bool_decide (act_Name a = "") && negb (bool_decide (act_Id a = ""))
  then act_Id a else act_Name a.

Definition isValidValueForNamespaceTemplating (val : string) : bool :=
  negb (bool_decide (val = "")) && negb (bool_decide (val = Wildcard)).

Definition filterLabelOrAnnotationForPermission (vals : gmap string string) : gmap string string :=
  filter (λ kv, isValidValueForNamespaceTemplating kv.2 = true) vals.

(** The [map[string]any] handed to the template: keys [labels],
    [annotations] and, when set, [external_id]. *)
Record TemplateData := mkTemplateData {
  td_labels : gmap string string;
  td_annotations : gmap string string;
  td_external_id : option string;
}.

Definition GetPermissionTemplateData (a : Actor) : TemplateData :=
  mkTemplateData
    (filterLabelOrAnnotationForPermission (act_Labels a))
    (filterLabelOrAnnotationForPermission (act_Annotations a))
    (if isValidValueForNamespaceTemplating (act_ExternalId a)
     then Some (act_ExternalId a) else None).

(** [CreateActor] returns its argument when it is an [*Actor] already, and
    otherwise copies the fields through the accessors of [IActorData]. *)
Record IActorData := mkIActorData {
  iad_GetId : string;
  iad_GetName : string;
  iad_GetExternalId : string;
  iad_GetPermissions : list Permission;
  iad_GetNamespace : string;
  iad_GetLabels : gmap string string;
  iad_GetAnnotations : gmap string string;
}.

Definition CreateActor (data : Actor + IActorData) : Actor :=
  match data with
  | inl a => a
  | inr d =>
      {| act_Id := iad_GetId d;
         act_Name := iad_GetName d;
         act_ExternalId := iad_GetExternalId d;
         act_Namespace := iad_GetNamespace d;
         act_Labels := iad_GetLabels d;
         act_Annotations := iad_GetAnnotations d;
         act_Permissions := iad_GetPermissions d |}
  end.

(** The loop over [i < len(s)-1]. *)
Fixpoint ContainsMustache (s : string) : bool :=
  match s with
  | String a ((String b _) as s') =>
      (bool_decide (a = "{"%char) && bool_decide (b = "{"%char)) || ContainsMustache s'
  | _ => false
  end.

(** ** Matching a permission *)

(** [matchesResource] and [matchesVerb] loop over a list of the permission. *)
Definition matches_entry (entries : list string) (target : string) : bool :=
  if decide (target = "") then false
  else existsb (λ r, bool_decide (r = PermissionWildcard) || bool_decide (r = target)) entries.

Definition matchesResource (p : Permission) (targetResource : string) : bool :=
  matches_entry (perm_Resources p) targetResource.

Definition matchesVerb (p : Permission) (targetVerb : string) : bool :=
  matches_entry (perm_Verbs p) targetVerb.

Definition matchesResourceId (p : Permission) (targetResourceId : string) : bool :=
  if decide (length (perm_ResourceIds p) = 0%nat) then true
  else if decide (targetResourceId = "") then true
  else slices_contains (perm_ResourceIds p) targetResourceId.

(** ** Request authorization *)

Record RequestAuth := mkRequestAuth {
  ra_sessionId : option string;
  ra_actor : option Actor;
  ra_permissions : list Permission;
}.

Definition IsAuthenticated (ra : RequestAuth) : bool := bool_decide (is_Some (ra_actor ra)).

Definition IsSession (ra : RequestAuth) : bool :=
  IsAuthenticated ra && bool_decide (is_Some (ra_sessionId ra)).

Definition MustGetActor (ra : RequestAuth) : outcome Actor :=
  match ra_actor ra with None => GoPanic | Some a => GoRet a end.

Definition SetSessionId (ra : RequestAuth) (sessionId : option string) : RequestAuth :=
  mkRequestAuth sessionId (ra_actor ra) (ra_permissions ra).

Definition SetPermissions (ra : RequestAuth) (permissions : list Permission) : RequestAuth :=
  mkRequestAuth (ra_sessionId ra) (ra_actor ra) permissions.

Definition NewUnauthenticatedRequestAuth : RequestAuth := mkRequestAuth None None [].

Definition NewAuthenticatedRequestAuth (a : Actor + IActorData) : RequestAuth :=
  mkRequestAuth None (Some (CreateActor a)) [].

Definition NewAuthenticatedRequestAuthWithSession (a : Actor + IActorData) (sess : option string) :
    RequestAuth := mkRequestAuth sess (Some (CreateActor a)) [].

Definition NewAuthenticatedRequestAuthWithPermissions (a : Actor + IActorData)
    (permissions : list Permission) : RequestAuth :=
  mkRequestAuth None (Some (CreateActor a)) permissions.

Definition NewAuthenticatedRequestAuthWithSessionAndPermissions (a : Actor + IActorData)
    (sess : option string) (permissions : list Permission) : RequestAuth :=
  mkRequestAuth sess (Some (CreateActor a)) permissions.

(** The value stored under [authContextKey], if it is a [*RequestAuth]. *)
Definition GetAuthFromContext (ctx : option RequestAuth) : RequestAuth :=
  match ctx with Some a => a | None => NewUnauthenticatedRequestAuth end.

Definition ActorFromContext (ctx : option RequestAuth) : option Actor :=
  let auth := GetAuthFromContext ctx in
  if negb (IsAuthenticated auth) then None else ra_actor auth.

Section rendering.
(** [mustache.Render(template, data)]; [None] is an error. *)
Variable RenderMustache : string → TemplateData → option string.

Definition renderPermissionNamespace (actor : option Actor) (namespace : string) : option string :=
  if negb (ContainsMustache namespace) then Some namespace
  else match actor with
       | None => None
       | Some a => RenderMustache namespace (GetPermissionTemplateData a)
       end.

Definition renderValidPermissionNamespace (actor : option Actor) (ns : string) : option string :=
  match renderPermissionNamespace actor ns with
  | None => None
  | Some rendered =>
      match ValidateMatcher rendered with
      | Some _ => None
      | None => Some rendered
      end
  end.

Definition matchesNamespace (actor : option Actor) (p : Permission) (targetNamespace : string) : bool :=
  if bool_decide (perm_Namespace p = "") || bool_decide (targetNamespace = "") then false
  else if decide (targetNamespace = SkipPermissionChecks) then true
  else match renderValidPermissionNamespace actor (perm_Namespace p) with
       | None => false
       | Some matcher => Matches matcher targetNamespace
       end.

Definition allowsForActor (actor : option Actor) (p : Permission)
    (namespace resource verb resourceId : string) : bool :=
  if negb (matchesNamespace actor p namespace) then false
  else if negb (matchesResource p resource) then false
  else if negb (matchesVerb p verb) then false
  else if negb (matchesResourceId p resourceId) then false
  else true.

Definition permissionsAllowForActor (actor : option Actor) (permissions : list Permission)
    (namespace resource verb resourceId : string) : bool :=
  existsb (λ p, allowsForActor actor p namespace resource verb resourceId) permissions.

Definition permissionsAllowWithRestrictionsForActor (actor : option Actor)
    (actorPermissions restrictions : list Permission)
    (namespace resource verb resourceId : string) : bool :=
  if negb (permissionsAllowForActor actor actorPermissions namespace resource verb resourceId)
  then false
  else if decide (length restrictions = 0%nat) then true
  else permissionsAllowForActor actor restrictions namespace resource verb resourceId.

(** The guard both loops of [GetNamespacesAllowed] share. *)
Definition appliesTo (permission : Permission) (resource verb : string) : bool :=
  (slices_contains (perm_Resources permission) resource ||
   slices_contains (perm_Resources permission) PermissionWildcard) &&
  (slices_contains (perm_Verbs permission) verb ||
   slices_contains (perm_Verbs permission) PermissionWildcard).

(** The namespaces a list of permissions contributes: the rendered matcher of
    every permission that applies, in order. *)
Definition candidateNamespaces (actor : Actor) (permissions : list Permission)
    (resource verb : string) : list string :=
  permission ← permissions;
  if appliesTo permission resource verb then
    match renderValidPermissionNamespace (Some actor) (perm_Namespace permission) with
    | Some ns => [ns]
    | None => []
    end
  else [].

(** The loop that keeps the constrained matchers for which there is one. *)
Fixpoint collectConstrained (constrain : string → outcome (string * bool)) (l : list string) :
    outcome (list string) :=
  match l with
  | [] => GoRet []
  | c :: cs =>
      '(constrained, ok) ← constrain c;
      rest ← collectConstrained constrain cs;
      GoRet (if (ok : bool) then constrained :: rest else rest)
  end.

(** The inner loop: one restriction against all candidates. *)
Definition constrainAll (restrictionNamespace : string) (candidates : list string) :
    outcome (list string) :=
  collectConstrained (ConstrainMatcher restrictionNamespace) candidates.

(** The outer loop over the restrictions. *)
Fixpoint restrictCandidates (restrictionNamespaces candidates : list string) :
    outcome (list string) :=
  match restrictionNamespaces with
  | [] => GoRet []
  | r :: rs =>
      first ← constrainAll r candidates;
      rest ← restrictCandidates rs candidates;
      GoRet (first ++ rest)
  end.

Definition GetNamespacesAllowed (ra : option RequestAuth) (resource verb : string) :
    outcome (list string) :=
  match ra with
  | None => GoRet []
  | Some ra =>
      match ra_actor ra with
      | None => GoRet []
      | Some actor =>
          let candidates := candidateNamespaces actor (act_Permissions actor) resource verb in
          finalNamespaces ←
            (if bool_decide (0 < length (ra_permissions ra))%nat
             then restrictCandidates
                    (candidateNamespaces actor (ra_permissions ra) resource verb) candidates
             else GoRet candidates);
          GoRet (slices_Compact (sort_strings finalNamespaces))
      end
  end.

Definition Allows (ra : option RequestAuth) (namespace resource verb resourceId : string) : bool :=
  match ra with
  | None => false
  | Some ra =>
      match ra_actor ra with
      | None => false
      | Some actor =>
          permissionsAllowWithRestrictionsForActor (Some actor) (act_Permissions actor)
            (ra_permissions ra) namespace resource verb resourceId
      end
  end.

Definition AllowsReason (ra : option RequestAuth) (namespace resource verb resourceId : string) :
    bool * string :=
  match ra with
  | None => (false, "request auth is nil")
  | Some r =>
      match ra_actor r with
      | None => (false, "actor not authenticated")
      | Some actor =>
          if negb (permissionsAllowForActor (Some actor) (act_Permissions actor)
                     namespace resource verb resourceId)
          then (false, "actor permissions do not allow this action")
          else if bool_decide (0 < length (ra_permissions r))%nat &&
                  negb (permissionsAllowForActor (Some actor) (ra_permissions r)
                          namespace resource verb resourceId)
          then (false, "request permissions do not allow this action")
          else (Allows ra namespace resource verb resourceId, "")
      end
  end.
End rendering.

(** ** What a permission grants *)

Section specification.
Variable RenderMustache : string → TemplateData → option string.

(** The rendered namespace of [p] is a valid matcher that denotes [segs]. *)
Definition perm_covers (actor : Actor) (p : Permission) (segs : list string) : Prop :=
  ∃ m, valid_matcher m ∧
    renderPermissionNamespace RenderMustache (Some actor) (perm_Namespace p) = Some (render_matcher m) ∧
    denotes m segs.

Definition perm_applies (p : Permission) (resource verb : string) : Prop :=
  (resource ∈ perm_Resources p ∨ PermissionWildcard ∈ perm_Resources p) ∧
  (verb ∈ perm_Verbs p ∨ PermissionWildcard ∈ perm_Verbs p).

Definition perm_grants (actor : Actor) (p : Permission) (segs : list string)
    (resource verb resourceId : string) : Prop :=
  perm_covers actor p segs ∧ perm_applies p resource verb ∧
  (perm_ResourceIds p = [] ∨ resourceId = "" ∨ resourceId ∈ perm_ResourceIds p).

Lemma matches_entry_spec entries target :
  target ≠ "" → matches_entry entries target = true ↔ target ∈ entries ∨ PermissionWildcard ∈ entries.
Proof.
  intros Ht. unfold matches_entry. rewrite decide_False by done.
  rewrite existsb_list_elem_of. setoid_rewrite orb_true_iff. setoid_rewrite bool_decide_eq_true.
  naive_solver.
Qed.

Lemma matchesResourceId_spec p id :
  matchesResourceId p id = true ↔
  perm_ResourceIds p = [] ∨ id = "" ∨ id ∈ perm_ResourceIds p.
Proof.
  unfold matchesResourceId, slices_contains. destruct (perm_ResourceIds p) as [|y l]; simpl; [naive_solver|].
  case_decide; rewrite ?bool_decide_eq_true; naive_solver.
Qed.

Lemma renderValid_spec actor ns m :
  renderValidPermissionNamespace RenderMustache actor ns = Some m ↔
  ∃ mm, valid_matcher mm ∧ m = render_matcher mm ∧
        renderPermissionNamespace RenderMustache actor ns = Some m.
Proof.
  unfold renderValidPermissionNamespace. split.
  - destruct (renderPermissionNamespace _ _ _) as [r|]; [|done].
    destruct (ValidateMatcher r) eqn:Hv; [done|]. intros [= <-].
    apply ValidateMatcher_None in Hv as (mm & ? & ->). by exists mm.
  - intros (mm & Hm & -> & ->). by rewrite ValidateMatcher_render.
Qed.

Lemma render_not_skip_empty segs : valid_segs segs → render segs ≠ "" ∧ render segs ≠ SkipPermissionChecks.
Proof. split; [apply render_nonempty|by apply render_not_sentinel]. Qed.

Lemma matchesNamespace_spec actor p segs :
  valid_segs segs →
  matchesNamespace RenderMustache (Some actor) p (render segs) = true ↔ perm_covers actor p segs.
Proof.
  intros Hs. destruct (render_not_skip_empty segs Hs) as [Hne Hsk].
  unfold matchesNamespace, perm_covers. rewrite (bool_decide_false (render segs = "")) by done.
  rewrite orb_false_r. case_bool_decide as Hp.
  - split; [done|]. intros (m & Hm & Heq & _). rewrite Hp in Heq. injection Heq as Heq.
    symmetry in Heq. by apply render_matcher_nonempty in Heq.
  - rewrite decide_False by done.
    destruct (renderValidPermissionNamespace _ _ _) as [r|] eqn:Hr.
    + apply renderValid_spec in Hr as (mm & Hmm & -> & Hr). rewrite Matches_render by done.
      rewrite Hr. split; [by exists mm|].
      intros (m & Hm & [= Heq%render_matcher_inj] & Hd); [|done..]. by subst.
    + split; [done|]. intros (m & Hm & Heq & _). exfalso.
      rewrite (proj2 (renderValid_spec _ _ (render_matcher m))) in Hr; [done|]. by exists m.
Qed.

Lemma allowsForActor_spec actor p segs resource verb id :
  valid_segs segs → resource ≠ "" → verb ≠ "" →
  allowsForActor RenderMustache (Some actor) p (render segs) resource verb id = true ↔
  perm_grants actor p segs resource verb id.
Proof.
  intros Hs Hr Hv. unfold perm_grants, perm_applies.
  rewrite <-matchesNamespace_spec, <-matchesResourceId_spec by done.
  rewrite <-!matches_entry_spec by done.
  change (matches_entry (perm_Resources p) resource) with (matchesResource p resource).
  change (matches_entry (perm_Verbs p) verb) with (matchesVerb p verb).
  unfold allowsForActor. repeat case_match; bool_simpl; naive_solver.
Qed.

Lemma permissionsAllow_spec actor perms segs resource verb id :
  valid_segs segs → resource ≠ "" → verb ≠ "" →
  permissionsAllowForActor RenderMustache (Some actor) perms (render segs) resource verb id = true ↔
  ∃ p, p ∈ perms ∧ perm_grants actor p segs resource verb id.
Proof.
  intros. unfold permissionsAllowForActor. rewrite existsb_list_elem_of.
  by setoid_rewrite allowsForActor_spec.
Qed.

Lemma Allows_unfold sess actor restrictions ns resource verb id :
  Allows RenderMustache (Some (mkRequestAuth sess (Some actor) restrictions)) ns resource verb id =
  permissionsAllowForActor RenderMustache (Some actor) (act_Permissions actor) ns resource verb id &&
  (bool_decide (restrictions = []) ||
   permissionsAllowForActor RenderMustache (Some actor) restrictions ns resource verb id).
Proof.
  unfold Allows, permissionsAllowWithRestrictionsForActor. cbn.
  destruct (permissionsAllowForActor _ _ (act_Permissions actor) _ _ _ _); [|done].
  destruct restrictions; [done|]. by rewrite bool_decide_false.
Qed.

Lemma Allows_grants sess actor restrictions segs resource verb id :
  valid_segs segs → resource ≠ "" → verb ≠ "" →
  Allows RenderMustache (Some (mkRequestAuth sess (Some actor) restrictions))
    (render segs) resource verb id = true ↔
  (∃ p, p ∈ act_Permissions actor ∧ perm_grants actor p segs resource verb id) ∧
  (restrictions = [] ∨ ∃ r, r ∈ restrictions ∧ perm_grants actor r segs resource verb id).
Proof.
  intros. rewrite Allows_unfold, andb_true_iff, orb_true_iff, bool_decide_eq_true.
  by rewrite !permissionsAllow_spec.
Qed.

(** ** The namespaces of [GetNamespacesAllowed] *)

Lemma appliesTo_spec p resource verb : appliesTo p resource verb = true ↔ perm_applies p resource verb.
Proof.
  unfold appliesTo, perm_applies. rewrite andb_true_iff, !orb_true_iff.
  by rewrite !slices_contains_spec.
Qed.

Lemma candidateNamespaces_spec actor perms resource verb x :
  x ∈ candidateNamespaces RenderMustache actor perms resource verb ↔
  ∃ p m, p ∈ perms ∧ perm_applies p resource verb ∧ valid_matcher m ∧ x = render_matcher m ∧
    renderPermissionNamespace RenderMustache (Some actor) (perm_Namespace p) = Some x.
Proof.
  unfold candidateNamespaces. rewrite list_elem_of_bind. split.
  - intros (p & Hx & Hp). destruct (appliesTo p resource verb) eqn:Ha; [|set_solver].
    apply appliesTo_spec in Ha.
    destruct (renderValidPermissionNamespace _ _ _) as [ns|] eqn:Hr; [|set_solver].
    apply list_elem_of_singleton in Hx as ->. apply renderValid_spec in Hr as (m & ? & -> & ?).
    by exists p, m.
  - intros (p & m & Hp & Ha & Hm & Hx & Hr). exists p. split; [|done].
    apply appliesTo_spec in Ha. rewrite Ha.
    rewrite (proj2 (renderValid_spec _ _ x)); [set_solver|]. by exists m.
Qed.

(** Some candidate denotes [segs] exactly when some permission that applies
    covers it. *)
Lemma candidateNamespaces_covers actor perms resource verb segs :
  (∃ m, valid_matcher m ∧ render_matcher m ∈ candidateNamespaces RenderMustache actor perms resource verb
        ∧ denotes m segs) ↔
  ∃ p, p ∈ perms ∧ perm_applies p resource verb ∧ perm_covers actor p segs.
Proof.
  unfold perm_covers. setoid_rewrite candidateNamespaces_spec. split.
  - intros (m & Hm & (p & m' & Hp & Ha & Hm' & _ & Hr) & Hd). exists p. by split_and!; [..|exists m].
  - intros (p & Hp & Ha & m & Hm & Hr & Hd). exists m. split_and!; [done| |done].
    by exists p, m.
Qed.
End specification.

(** ** Constraining candidates *)

Lemma slice_to_ok s n :
  (0 ≤ n ≤ Z.of_nat (String.length s))%Z → slice_to s n = GoRet (str_take (Z.to_nat n) s).
Proof. intros. unfold slice_to. by rewrite bool_decide_true. Qed.

(** One argument of at least three bytes is enough for no slice to panic. *)
Lemma ConstrainMatcher_returns a b :
  (3 ≤ String.length a)%nat ∨ (3 ≤ String.length b)%nat → ∃ x ok, ConstrainMatcher a b = GoRet (x, ok).
Proof.
  intros Hlen. destruct (decide (a = "" ∨ b = "" ∨ a = b)) as [Hd|Hd].
  { unfold ConstrainMatcher. repeat case_bool_decide; simpl; try (by eauto); exfalso; naive_solver. }
  rewrite ConstrainMatcher_unfold by naive_solver.
  assert (∀ s l, 3 ≤ String.length l → ∃ x ok, constrain_body s l = GoRet (x, ok))%nat as H.
  { intros s l Hl. unfold constrain_body. rewrite (slice_to_ok l) by (simpl; lia).
    cbn [mbind outcome_bind]. case_bool_decide; [by eauto|].
    destruct (HasSuffix s WildcardSuffix) eqn:Hs; [|by eauto]. cbn [negb].
    unfold HasSuffix in Hs. bool_simpl. rewrite (slice_to_ok s) by (simpl in *; lia).
    cbn [mbind outcome_bind]. case_match; by eauto. }
  case_bool_decide; apply H; lia.
Qed.

(** A positive answer is one of the two arguments. *)
Lemma ConstrainMatcher_either a b x : ConstrainMatcher a b = GoRet (x, true) → x = a ∨ x = b.
Proof.
  destruct (decide (a = "" ∨ b = "" ∨ a = b)) as [Hd|Hd].
  { unfold ConstrainMatcher. repeat case_bool_decide; simpl; intros [=]; subst; auto; naive_solver. }
  rewrite ConstrainMatcher_unfold by naive_solver.
  assert (∀ s l, constrain_body s l = GoRet (x, true) → x = s ∨ x = l) as H.
  { intros s l. unfold constrain_body. destruct (slice_to l _) as [|h]; cbn [mbind outcome_bind]; [done|].
    case_bool_decide; [intros [= ->]; by left|].
    destruct (HasSuffix s WildcardSuffix); cbn [negb]; [|done].
    destruct (slice_to s _) as [|t]; cbn [mbind outcome_bind]; [done|].
    destruct (HasPrefix l t); [intros [= ->]; by right|done]. }
  case_bool_decide; intros Hx%H; tauto.
Qed.

Lemma collectConstrained_spec constrain l :
  (∀ c, c ∈ l → ∃ x ok, constrain c = GoRet (x, ok)) →
  ∃ res, collectConstrained constrain l = GoRet res ∧
         ∀ x, x ∈ res ↔ ∃ c, c ∈ l ∧ constrain c = GoRet (x, true).
Proof.
  induction l as [|c l IH]; intros Hret; simpl.
  { exists []. split; [done|]. set_solver. }
  destruct IH as (res & Heq & IH); [intros; apply Hret; set_solver|].
  destruct (Hret c) as (y & ok & Hc); [set_solver|].
  rewrite Hc, Heq. exists (if ok then y :: res else res). split; [done|]. intros x.
  assert ((∃ c', c' ∈ c :: l ∧ constrain c' = GoRet (x, true)) ↔
          (y = x ∧ ok = true) ∨ x ∈ res) as ->.
  { rewrite IH. setoid_rewrite elem_of_cons. split.
    - intros (c' & [->|?] & Hc'); [left|right; by exists c'].
      rewrite Hc in Hc'. by injection Hc' as -> ->.
    - intros [[-> ->]|(c' & ? & ?)]; [by eauto|by eauto]. }
  destruct ok; rewrite ?elem_of_cons; [|naive_solver].
  split; [intros [->|?]; auto|intros [[-> _]|?]; auto].
Qed.

Lemma restrictCandidates_spec rs cs :
  Forall (λ r, 3 ≤ String.length r)%nat rs →
  ∃ l, restrictCandidates rs cs = GoRet l ∧
       ∀ x, x ∈ l ↔ ∃ r c, r ∈ rs ∧ c ∈ cs ∧ ConstrainMatcher r c = GoRet (x, true).
Proof.
  induction 1 as [|r rs Hr _ (l2 & Heq2 & IH)]; simpl.
  { exists []. split; [done|]. set_solver. }
  destruct (collectConstrained_spec (ConstrainMatcher r) cs) as (l1 & Heq1 & Hl1).
  { intros c _. apply ConstrainMatcher_returns. by left. }
  unfold constrainAll. rewrite Heq1, Heq2. cbn.
  eexists. split; [done|]. intros x. rewrite elem_of_app, Hl1, IH. setoid_rewrite elem_of_cons.
  naive_solver.
Qed.

Section allowed_namespaces.
Variable RenderMustache : string → TemplateData → option string.
Variables (sess : option string) (actor : Actor) (restrictions : list Permission).
Variables (resource verb : string).

Let ra := mkRequestAuth sess (Some actor) restrictions.
Let granted := candidateNamespaces RenderMustache actor (act_Permissions actor) resource verb.
Let restricting := candidateNamespaces RenderMustache actor restrictions resource verb.

Lemma candidates_valid perms :
  Forall (λ r, ∃ m, valid_matcher m ∧ r = render_matcher m)
    (candidateNamespaces RenderMustache actor perms resource verb).
Proof.
  apply Forall_forall. intros x (p & m & _ & _ & Hm & -> & _)%candidateNamespaces_spec. by exists m.
Qed.

Lemma candidates_long perms :
  Forall (λ r, 3 ≤ String.length r)%nat
    (candidateNamespaces RenderMustache actor perms resource verb).
Proof.
  eapply Forall_impl; [apply candidates_valid|]. intros r (m & _ & ->).
  pose proof (render_matcher_length m). lia.
Qed.

(** Before sorting: the final list and what is in it. *)
Lemma GetNamespacesAllowed_list :
  ∃ l, GetNamespacesAllowed RenderMustache (Some ra) resource verb =
         GoRet (slices_Compact (sort_strings l)) ∧
       ∀ x, x ∈ l ↔
         restrictions = [] ∧ x ∈ granted ∨
         restrictions ≠ [] ∧ ∃ r c, r ∈ restricting ∧ c ∈ granted ∧
                                    ConstrainMatcher r c = GoRet (x, true).
Proof.
  unfold GetNamespacesAllowed. cbn [ra_actor ra_permissions ra]. case_bool_decide as Hlen.
  - destruct (restrictCandidates_spec restricting granted) as (l & Heq & Hl);
      [apply candidates_long|].
    fold restricting granted. rewrite Heq. exists l. split; [done|]. intros x. rewrite Hl.
    destruct restrictions; [simpl in Hlen; lia|]. naive_solver.
  - exists granted. split; [done|]. destruct restrictions; [naive_solver|simpl in Hlen; lia].
Qed.

(** The pairs of a restriction and a granted matcher on which
    [ConstrainMatcher] computes the intersection. *)
Definition no_defect : Prop :=
  ∀ m1 m2, render_matcher m1 ∈ restricting → render_matcher m2 ∈ granted →
           valid_matcher m1 → valid_matcher m2 → ¬ constrain_defect m1 m2.

Lemma constrained_pairs_cover segs :
  no_defect → valid_segs segs →
  (∃ x r c, r ∈ restricting ∧ c ∈ granted ∧ ConstrainMatcher r c = GoRet (x, true) ∧
            Matches x (render segs) = true) ↔
  (∃ m1 m2, valid_matcher m1 ∧ render_matcher m1 ∈ restricting ∧ denotes m1 segs ∧
            valid_matcher m2 ∧ render_matcher m2 ∈ granted ∧ denotes m2 segs).
Proof.
  intros Hnd Hs. split.
  - intros (x & r & c & Hr & Hc & Hcon & Hx).
    pose proof (proj1 (Forall_forall _ _) (candidates_valid restrictions) r Hr) as (m1 & Hm1 & ->).
    pose proof (proj1 (Forall_forall _ _) (candidates_valid (act_Permissions actor)) c Hc)
      as (m2 & Hm2 & ->).
    destruct (ConstrainMatcher_intersection m1 m2) as (y & ok & Heq & Hint); [by auto..|].
    rewrite Hcon in Heq. injection Heq as <- <-. exists m1, m2.
    destruct (proj1 (Hint segs Hs)); naive_solver.
  - intros (m1 & m2 & Hm1 & Hr & Hd1 & Hm2 & Hc & Hd2).
    destruct (ConstrainMatcher_intersection m1 m2) as (y & ok & Heq & Hint); [by auto..|].
    destruct (proj2 (Hint segs Hs)) as [-> Hy]; [done|]. by exists y, (render_matcher m1), (render_matcher m2).
Qed.

Lemma GetNamespacesAllowed_covers segs :
  no_defect → valid_segs segs →
  ∃ l, GetNamespacesAllowed RenderMustache (Some ra) resource verb = GoRet l ∧
       StronglySorted str_lt l ∧
       ((∃ m, m ∈ l ∧ Matches m (render segs) = true) ↔
        (∃ p, p ∈ act_Permissions actor ∧ perm_applies p resource verb ∧
              perm_covers RenderMustache actor p segs) ∧
        (restrictions = [] ∨
         ∃ p, p ∈ restrictions ∧ perm_applies p resource verb ∧
              perm_covers RenderMustache actor p segs)).
Proof.
  intros Hnd Hs. destruct GetNamespacesAllowed_list as (l & Heq & Hl).
  eexists. split; [exact Heq|]. split.
  { apply slices_Compact_sorted, sort_strings_sorted. }
  rewrite <-!candidateNamespaces_covers. fold granted restricting.
  setoid_rewrite slices_Compact_elem. setoid_rewrite sort_strings_perm. setoid_rewrite Hl.
  pose proof (constrained_pairs_cover segs Hnd Hs) as Hpairs.
  assert ((∃ m, m ∈ granted ∧ Matches m (render segs) = true) ↔
          ∃ m, valid_matcher m ∧ render_matcher m ∈ granted ∧ denotes m segs) as Hgr.
  { split.
    - intros (x & Hx & HM).
      pose proof (proj1 (Forall_forall _ _) (candidates_valid (act_Permissions actor)) x Hx)
        as (m & Hm & ->). exists m. by rewrite <-Matches_render.
    - intros (m & Hm & Hx & Hd). exists (render_matcher m). by rewrite Matches_render. }
  destruct (decide (restrictions = [])) as [Hn|Hn].
  - rewrite <-Hgr. split.
    + intros (m & [[_ Hm]|[? _]] & HM); [|done]. split; [by exists m|by left].
    + intros [(m & Hm & HM) _]. exists m. split; [by left|done].
  - split.
    + intros (m & [[? _]|(_ & r & c & Hr & Hc & Hcon)] & HM); [done|].
      destruct (proj1 Hpairs) as (m1 & m2 & ?&?&?&?&?&?); [by exists m, r, c|].
      split; [by exists m2|right; by exists m1].
    + intros [(m2 & ?&?&?) [?|(m1 & ?&?&?)]]; [done|].
      destruct (proj2 Hpairs) as (x & r & c & ?&?&?&?); [by exists m1, m2|].
      exists x. split; [|done]. right. split; [done|]. by exists r, c.
Qed.

Lemma GetNamespacesAllowed_valid :
  ∃ l, GetNamespacesAllowed RenderMustache (Some ra) resource verb = GoRet l ∧
       Forall (λ r, ∃ m, valid_matcher m ∧ r = render_matcher m) l.
Proof.
  destruct GetNamespacesAllowed_list as (l & Heq & Hl). eexists. split; [exact Heq|].
  apply Forall_forall. intros x. rewrite slices_Compact_elem, sort_strings_perm, Hl.
  pose proof (candidates_valid (act_Permissions actor)) as Hg. rewrite Forall_forall in Hg.
  pose proof (candidates_valid restrictions) as Hr. rewrite Forall_forall in Hr.
  intros [[_ ?]|(_ & r & c & ? & ? & [->| ->]%ConstrainMatcher_either)]; auto.
Qed.
End allowed_namespaces.

(** ** Shared lemmas on [Allows] *)

Section allows_lemmas.
Variable RenderMustache : string → TemplateData → option string.

Lemma AllowsReason_fst ra ns resource verb id :
  (AllowsReason RenderMustache ra ns resource verb id).1 = Allows RenderMustache ra ns resource verb id.
Proof.
  unfold AllowsReason. destruct ra as [[sess [actor|] restrictions]|]; [|done..].
  cbn [ra_actor ra_permissions]. rewrite Allows_unfold.
  destruct (permissionsAllowForActor _ _ (act_Permissions actor) _ _ _ _); [|done].
  destruct restrictions as [|r rs]; [done|]. cbn [negb length].
  rewrite bool_decide_true by lia. rewrite bool_decide_false by done.
  by destruct (permissionsAllowForActor _ _ (r :: rs) _ _ _ _).
Qed.

Lemma AllowsReason_snd ra ns resource verb id :
  (AllowsReason RenderMustache ra ns resource verb id).2 = "" ↔
  Allows RenderMustache ra ns resource verb id = true.
Proof.
  unfold AllowsReason. destruct ra as [[sess [actor|] restrictions]|]; [|done..].
  cbn [ra_actor ra_permissions]. rewrite Allows_unfold.
  destruct (permissionsAllowForActor _ _ (act_Permissions actor) _ _ _ _); [|done].
  destruct restrictions as [|r rs]; [done|]. cbn [negb length].
  rewrite bool_decide_true by lia. rewrite bool_decide_false by done.
  by destruct (permissionsAllowForActor _ _ (r :: rs) _ _ _ _).
Qed.

Lemma permissionsAllow_mono actor ps qs ns resource verb id :
  ps ⊆ qs →
  permissionsAllowForActor RenderMustache actor ps ns resource verb id = true →
  permissionsAllowForActor RenderMustache actor qs ns resource verb id = true.
Proof.
  unfold permissionsAllowForActor. rewrite !existsb_list_elem_of. intros Hsub (p & Hp & Ha).
  exists p. split; [by apply Hsub|done].
Qed.

(** A check that skips the namespace is weaker than one in a namespace. *)
Lemma allowsForActor_skip actor p ns resource verb id :
  allowsForActor RenderMustache actor p ns resource verb id = true →
  allowsForActor RenderMustache actor p SkipPermissionChecks resource verb id = true.
Proof.
  unfold allowsForActor. destruct (matchesNamespace _ _ _ ns) eqn:Hns; [|done].
  assert (matchesNamespace RenderMustache actor p SkipPermissionChecks = true) as ->; [|done].
  unfold matchesNamespace in *. by destruct (bool_decide (perm_Namespace p = "")).
Qed.

Lemma Allows_skip ra ns resource verb id :
  Allows RenderMustache ra ns resource verb id = true →
  Allows RenderMustache ra SkipPermissionChecks resource verb id = true.
Proof.
  destruct ra as [[sess [actor|] restrictions]|]; [|done..]. rewrite !Allows_unfold.
  assert (∀ ps, permissionsAllowForActor RenderMustache (Some actor) ps ns resource verb id = true →
    permissionsAllowForActor RenderMustache (Some actor) ps SkipPermissionChecks resource verb id = true) as H.
  { intros ps. unfold permissionsAllowForActor. rewrite !existsb_list_elem_of.
    intros (p & Hp & Ha). exists p. split; [done|]. by eapply allowsForActor_skip. }
  rewrite !andb_true_iff, !orb_true_iff. intros [? [?|?]]; auto.
Qed.
End allows_lemmas.

(** ** Properties *)

(** C1: A request in a valid namespace is allowed exactly when its actor has a
    permission that grants the action and, if the request carries
    restrictions, one of them grants it too.  A permission grants an action
    when its rendered namespace is a valid matcher denoting the namespace, the
    resource and the verb are listed (or [*] is), and its resource ids are
    empty, or contain the id, or no id is asked for. *)
Theorem Allows_exact RenderMustache sess actor restrictions segs resource verb id :
  valid_segs segs → resource ≠ "" → verb ≠ "" →
  Allows RenderMustache (Some (mkRequestAuth sess (Some actor) restrictions))
    (render segs) resource verb id = true ↔
  (∃ p, p ∈ act_Permissions actor ∧ perm_grants RenderMustache actor p segs resource verb id) ∧
  (restrictions = [] ∨
   ∃ r, r ∈ restrictions ∧ perm_grants RenderMustache actor r segs resource verb id).
Proof. apply Allows_grants. Qed.

Definition no_templates : string → TemplateData → option string := λ _ _, None.

Definition sample_actor (perms : list Permission) : Actor :=
  mkActor "act_1" "" "user" "root" ∅ ∅ perms.

Lemma Allows_exact_witness :
  (∃ p, p ∈ AllPermissions ∧
        perm_grants no_templates (sample_actor AllPermissions) p ["a"] "connections" "get" "cxn_1") ∧
  (@nil Permission = [] ∨ ∃ r, r ∈ @nil Permission ∧
        perm_grants no_templates (sample_actor AllPermissions) r ["a"] "connections" "get" "cxn_1").
Proof.
  apply (Allows_exact no_templates None (sample_actor AllPermissions) [] ["a"] "connections" "get" "cxn_1");
    [by repeat constructor|done|done|vm_compute; reflexivity].
Defined.

(** Authorization is monotone where it should be and closed otherwise: an
    unauthenticated or nil request is never allowed, restrictions only narrow
    what the actor alone may do, more restriction entries and more actor
    permissions only widen, and [AllowsReason] answers as [Allows] does, with
    an empty reason exactly when the action is allowed. *)
Theorem Allows_monotone RenderMustache (ra : RequestAuth) ns resource verb id :
  Allows RenderMustache None ns resource verb id = false ∧
  Allows RenderMustache (Some NewUnauthenticatedRequestAuth) ns resource verb id = false ∧
  (∀ rs, Allows RenderMustache (Some (SetPermissions ra rs)) ns resource verb id = true →
         Allows RenderMustache (Some (SetPermissions ra [])) ns resource verb id = true) ∧
  (∀ rs rs', rs ≠ [] → rs ⊆ rs' →
         Allows RenderMustache (Some (SetPermissions ra rs)) ns resource verb id = true →
         Allows RenderMustache (Some (SetPermissions ra rs')) ns resource verb id = true) ∧
  (AllowsReason RenderMustache (Some ra) ns resource verb id).1 =
    Allows RenderMustache (Some ra) ns resource verb id ∧
  ((AllowsReason RenderMustache (Some ra) ns resource verb id).2 = "" ↔
   Allows RenderMustache (Some ra) ns resource verb id = true).
Proof.
  split_and!; [done|done| | |apply AllowsReason_fst|apply AllowsReason_snd];
    destruct ra as [sess [actor|] perms]; try done; unfold SetPermissions; cbn [ra_sessionId ra_actor].
  - intros rs. rewrite !Allows_unfold. intros H; bool_simpl. by rewrite H.
  - intros rs rs' Hne Hsub. rewrite !Allows_unfold, (bool_decide_false (rs = [])) by done.
    intros H; bool_simpl. rewrite H, andb_true_l, orb_true_iff. right. by eapply permissionsAllow_mono.
Qed.

(** C24: [GetNamespacesAllowed] never panics and lists, sorted and without
    duplicates, matchers that together cover exactly the namespaces in which
    [Allows] lets the actor use the verb on the resource, as long as no pair of
    a restriction and a granted matcher is one of [constrain_defect] (in
    particular always when the request has no restrictions). *)
Theorem GetNamespacesAllowed_agrees RenderMustache sess actor restrictions resource verb segs :
  no_defect RenderMustache actor restrictions resource verb →
  valid_segs segs → resource ≠ "" → verb ≠ "" →
  let ra := mkRequestAuth sess (Some actor) restrictions in
  ∃ l, GetNamespacesAllowed RenderMustache (Some ra) resource verb = GoRet l ∧
       StronglySorted str_lt l ∧
       ((∃ m, m ∈ l ∧ Matches m (render segs) = true) ↔
        Allows RenderMustache (Some ra) (render segs) resource verb "" = true).
Proof.
  intros Hnd Hs Hr Hv ra.
  destruct (GetNamespacesAllowed_covers RenderMustache sess actor restrictions resource verb segs Hnd Hs)
    as (l & Heq & Hsort & Hl).
  exists l. split_and!; [done..|]. rewrite Hl. unfold ra. rewrite Allows_grants by done.
  assert (∀ p, perm_grants RenderMustache actor p segs resource verb "" ↔
               perm_applies p resource verb ∧ perm_covers RenderMustache actor p segs) as Hg.
  { intros p. unfold perm_grants. naive_solver. }
  by setoid_rewrite Hg.
Qed.

Definition sample_restrictions : list Permission := PermissionsSingle "root.a.**" "connections" "list".

Lemma sample_no_defect : no_defect no_templates (sample_actor AllPermissions) sample_restrictions "connections" "list".
Proof.
  intros m1 m2 Hm1 Hm2 Hv1 Hv2. vm_compute in Hm1, Hm2. apply list_elem_of_singleton in Hm1, Hm2.
  assert (m1 = Subtree ["a"]) as -> by (apply render_matcher_inj; [done|by repeat constructor|done]).
  assert (m2 = Subtree []) as -> by (apply render_matcher_inj; [done|by repeat constructor|done]). by intros [].
Qed.

(** A request that is restricted to a part of what its actor may see. *)
Lemma GetNamespacesAllowed_agrees_witness :
  GetNamespacesAllowed no_templates
    (Some (mkRequestAuth None (Some (sample_actor AllPermissions)) sample_restrictions)) "connections" "list" = GoRet ["root.a.**"] ∧
  Allows no_templates (Some (mkRequestAuth None (Some (sample_actor AllPermissions)) sample_restrictions))
    (render ["a"; "b"]) "connections" "list" "" = true ∧
  Allows no_templates (Some (mkRequestAuth None (Some (sample_actor AllPermissions)) sample_restrictions))
    (render ["b"]) "connections" "list" "" = false.
Proof.
  assert (GetNamespacesAllowed no_templates
    (Some (mkRequestAuth None (Some (sample_actor AllPermissions)) sample_restrictions)) "connections" "list" = GoRet ["root.a.**"]) as Hl
    by (vm_compute; reflexivity). split; [exact Hl|].
  pose proof (λ segs H, GetNamespacesAllowed_agrees no_templates None (sample_actor AllPermissions) sample_restrictions
    "connections" "list" segs sample_no_defect H ltac:(discriminate) ltac:(discriminate)) as Hag. cbn zeta in Hag. split.
  - destruct (Hag ["a"; "b"] ltac:(by repeat constructor)) as (l & Heq & _ & Hiff). rewrite Hl in Heq. injection Heq as <-.
    apply Hiff. exists "root.a.**". split; [by apply list_elem_of_singleton|vm_compute; reflexivity].
  - destruct (Hag ["b"] ltac:(by repeat constructor)) as (l & Heq & _ & Hiff). rewrite Hl in Heq. injection Heq as <-.
    apply not_true_iff_false. intros Hal. apply Hiff in Hal as (m & ->%list_elem_of_singleton & Hm). vm_compute in Hm. discriminate Hm.
Defined.

(** The condition on [constrain_defect] is needed: an actor granted
    [root.prod] whose request is restricted to [root.prod.eu] is allowed
    nowhere, yet [GetNamespacesAllowed] returns [root.prod]; and an actor
    granted [root.**] restricted to [root.a] is allowed in [root.a], yet
    [GetNamespacesAllowed] returns nothing. *)
Theorem GetNamespacesAllowed_defects RenderMustache :
  let ra granted restriction :=
    Some (mkRequestAuth None (Some (sample_actor (PermissionsSingle granted "connections" "list")))
            (PermissionsSingle restriction "connections" "list")) in
  GetNamespacesAllowed RenderMustache (ra "root.prod" "root.prod.eu") "connections" "list"
    = GoRet ["root.prod"] ∧
  Allows RenderMustache (ra "root.prod" "root.prod.eu") "root.prod" "connections" "list" "" = false ∧
  GetNamespacesAllowed RenderMustache (ra "root.**" "root.a") "connections" "list" = GoRet [] ∧
  Allows RenderMustache (ra "root.**" "root.a") "root.a" "connections" "list" "" = true.
Proof. vm_compute. done. Qed.
