(* ===== verification/PermissionValidator.v ===== *)
(** * Resource permission validation

    Package [internal/apauth/service] (permission_validator.go, gin.go,
    auth_conditions.go) and the namespace restriction of list queries in
    [internal/database] (namespace.go).  A route is built with a resource and
    the verbs that may satisfy it; its middleware authenticates, checks the
    permission at the route level, runs the handler with a
    [ResourcePermissionValidator] in the context, and panics after the handler
    when no resource was validated.  List endpoints push the namespaces of
    [GetEffectiveNamespaceMatchers] into the query and filter the loaded rows
    with the validator.

    The validator is mutable state threaded through the operations.  Loaded
    objects are an abstract type with the two optional interfaces the code
    asserts ([hasNamespace], [hasId]); the SQL [LIKE] operator of the database
    is a parameter. *)

From S2P Require Import Prelude GoStrings Regex Namespace Permissions.

(** ** Route configuration *)

(** The parts of [*gin.Context] that are read. *)
Record GinContext := mkGinContext {
  gin_Param : string → string;
  gin_Query : string → string;
}.

Section validator.
(** The type of loaded objects and the interfaces they implement: [None] is a
    failed type assertion. *)
Context {Obj : Type}.
Variables (as_hasNamespace as_hasId : Obj → option string).
Variable RenderMustache : string → TemplateData → option string.

(** [idExtractor] may be nil. *)
Record PermissionValidatorBuilder := mkPVB {
  pvb_resource : string;
  pvb_verbs : list string;
  pvb_idField : string;
  pvb_namespace : string;
  pvb_namespaceQueryParam : string;
  pvb_namespacePathParam : string;
  pvb_idExtractor : option (Obj → string);
}.

Definition NewRequiredBuilder : PermissionValidatorBuilder := mkPVB "" [] "" "" "" "" None.

Definition ForResource (pb : PermissionValidatorBuilder) resource : PermissionValidatorBuilder :=
  mkPVB resource (pvb_verbs pb) (pvb_idField pb) (pvb_namespace pb)
    (pvb_namespaceQueryParam pb) (pvb_namespacePathParam pb) (pvb_idExtractor pb).

Definition ForVerb (pb : PermissionValidatorBuilder) verb : PermissionValidatorBuilder :=
  mkPVB (pvb_resource pb) [verb] (pvb_idField pb) (pvb_namespace pb)
    (pvb_namespaceQueryParam pb) (pvb_namespacePathParam pb) (pvb_idExtractor pb).

Definition ForVerbs (pb : PermissionValidatorBuilder) verbs : PermissionValidatorBuilder :=
  mkPVB (pvb_resource pb) verbs (pvb_idField pb) (pvb_namespace pb)
    (pvb_namespaceQueryParam pb) (pvb_namespacePathParam pb) (pvb_idExtractor pb).

Definition ForIdField (pb : PermissionValidatorBuilder) idField : PermissionValidatorBuilder :=
  mkPVB (pvb_resource pb) (pvb_verbs pb) idField (pvb_namespace pb)
    (pvb_namespaceQueryParam pb) (pvb_namespacePathParam pb) (pvb_idExtractor pb).

Definition ForIdExtractor (pb : PermissionValidatorBuilder) ex : PermissionValidatorBuilder :=
  mkPVB (pvb_resource pb) (pvb_verbs pb) (pvb_idField pb) (pvb_namespace pb)
    (pvb_namespaceQueryParam pb) (pvb_namespacePathParam pb) ex.

Definition ForNamespace (pb : PermissionValidatorBuilder) ns : PermissionValidatorBuilder :=
  mkPVB (pvb_resource pb) (pvb_verbs pb) (pvb_idField pb) ns
    (pvb_namespaceQueryParam pb) (pvb_namespacePathParam pb) (pvb_idExtractor pb).

Definition ForNamespaceQueryParam (pb : PermissionValidatorBuilder) param : PermissionValidatorBuilder :=
  mkPVB (pvb_resource pb) (pvb_verbs pb) (pvb_idField pb) (pvb_namespace pb)
    param (pvb_namespacePathParam pb) (pvb_idExtractor pb).

Definition ForNamespacePathParam (pb : PermissionValidatorBuilder) param : PermissionValidatorBuilder :=
  mkPVB (pvb_resource pb) (pvb_verbs pb) (pvb_idField pb) (pvb_namespace pb)
    (pvb_namespaceQueryParam pb) param (pvb_idExtractor pb).

Definition getNamespace (pb : PermissionValidatorBuilder) (c : GinContext) : string :=
  if negb (bool_decide (pvb_namespacePathParam pb = "")) &&
     negb (bool_decide (gin_Param c (pvb_namespacePathParam pb) = ""))
  then gin_Param c (pvb_namespacePathParam pb)
  else if negb (bool_decide (pvb_namespaceQueryParam pb = "")) &&
          negb (bool_decide (gin_Query c (pvb_namespaceQueryParam pb) = ""))
  then gin_Query c (pvb_namespaceQueryParam pb)
  else if negb (bool_decide (pvb_namespace pb = "")) then pvb_namespace pb
  else SkipPermissionChecks.

Definition getResourceId (pb : PermissionValidatorBuilder) (c : GinContext) : string :=
  if decide (pvb_idField pb = "") then "" else gin_Param c (pvb_idField pb).

(** ** The validator *)

Record ResourcePermissionValidator := mkRPV {
  rpv_pvb : PermissionValidatorBuilder;
  rpv_ra : option RequestAuth;
  rpv_hasBeenValidated : bool;
  rpv_errorReturn : bool;
}.

Definition MarkValidated (v : ResourcePermissionValidator) : ResourcePermissionValidator :=
  mkRPV (rpv_pvb v) (rpv_ra v) true (rpv_errorReturn v).

Definition MarkErrorReturn (v : ResourcePermissionValidator) : ResourcePermissionValidator :=
  mkRPV (rpv_pvb v) (rpv_ra v) (rpv_hasBeenValidated v) true.

Definition DefaultIdExtractor (obj : Obj) : outcome string :=
  match as_hasId obj with None => GoPanic | Some id => GoRet id end.

(** The loop over the verbs: the first allowed verb wins, otherwise the
    last reason. *)
Fixpoint firstAllowedVerb (ra : option RequestAuth) (ns resource : string) (verbs : list string)
    (resourceId lastReason : string) : bool * string :=
  match verbs with
  | [] => (false, lastReason)
  | verb :: verbs =>
      let '(allowed, reason) := AllowsReason RenderMustache ra ns resource verb resourceId in
      if (allowed : bool) then (true, "")
      else firstAllowedVerb ra ns resource verbs resourceId reason
  end.

Definition ValidateNamespaceResourceId (v : ResourcePermissionValidator) (ns resourceId : string) :
    option error * ResourcePermissionValidator :=
  let v := MarkValidated v in
  let '(allowed, lastReason) :=
    firstAllowedVerb (rpv_ra v) ns (pvb_resource (rpv_pvb v)) (pvb_verbs (rpv_pvb v)) resourceId "" in
  if (allowed : bool) then (None, v) else (Some ("permission denied: " +:+ lastReason), v).

Definition ValidateNamespace (v : ResourcePermissionValidator) (ns : string) :
    option error * ResourcePermissionValidator := ValidateNamespaceResourceId v ns "".

Definition Validate (v : ResourcePermissionValidator) (obj : Obj) :
    outcome (option error * ResourcePermissionValidator) :=
  match as_hasNamespace obj with
  | None => GoPanic
  | Some ns =>
      resourceId ← (match pvb_idExtractor (rpv_pvb v) with
                    | Some ex => GoRet (ex obj)
                    | None => DefaultIdExtractor obj
                    end);
      GoRet (ValidateNamespaceResourceId v ns resourceId)
  end.

(** The status and the public message of the response, or no error. *)
Definition ValidateHttpStatusError (v : ResourcePermissionValidator) (obj : Obj) :
    outcome (option (Z * error) * ResourcePermissionValidator) :=
  '(err, v) ← Validate v obj;
  GoRet (match err with None => None | Some e => Some (403%Z, e) end, v).

Fixpoint filterLoop (v : ResourcePermissionValidator) (objs filtered : list Obj) :
    outcome (list Obj * ResourcePermissionValidator) :=
  match objs with
  | [] => GoRet (filtered, v)
  | obj :: objs =>
      '(err, v) ← Validate v obj;
      filterLoop v objs (match err with None => filtered ++ [obj] | Some _ => filtered end)
  end.

Definition FilterForValidatedResources (v : ResourcePermissionValidator) (objs : list Obj) :
    outcome (list Obj * ResourcePermissionValidator) :=
  filterLoop (MarkValidated v) objs [].

(** ** Namespaces of a list query *)

(** The inner loop: append the namespaces not [seen] yet. *)
Definition addUnseen (acc : list string * gset string) (l : list string) : list string * gset string :=
  foldl (λ '(allowed, seen) ns,
           if decide (ns ∈ seen) then (allowed, seen) else (allowed ++ [ns], {[ns]} ∪ seen)) acc l.

Fixpoint allowedForVerbs (ra : option RequestAuth) (resource : string) (verbs : list string)
    (acc : list string * gset string) : outcome (list string * gset string) :=
  match verbs with
  | [] => GoRet acc
  | verb :: verbs =>
      l ← GetNamespacesAllowed RenderMustache ra resource verb;
      allowedForVerbs ra resource verbs (addUnseen acc l)
  end.

Definition GetEffectiveNamespaceMatchers (v : ResourcePermissionValidator) (queryMatcher : option string) :
    outcome (list string) :=
  match rpv_ra v with
  | None => GoRet [NoMatchSentinel]
  | Some ra =>
      if negb (IsAuthenticated ra) then GoRet [NoMatchSentinel]
      else
        '(allowedNamespaces, _) ←
          allowedForVerbs (Some ra) (pvb_resource (rpv_pvb v)) (pvb_verbs (rpv_pvb v)) ([], ∅);
        if bool_decide (length allowedNamespaces = 0%nat) then GoRet []
        else match queryMatcher with
             | None => GoRet allowedNamespaces
             | Some q =>
                 result ← collectConstrained (λ allowed, ConstrainMatcher allowed q) allowedNamespaces;
                 if bool_decide (length result = 0%nat) then GoRet [NoMatchSentinel] else GoRet result
             end
  end.

(** ** The middleware *)

(** What the middleware answers: a redirect, an error status, or the
    handler's own response. *)
Inductive response (R : Type) : Type :=
  | RespRedirect (url : string)
  | RespUnauthorized
  | RespForbidden (reason : string)
  | RespHandled (r : R).
Arguments RespRedirect {R} url.
Arguments RespUnauthorized {R}.
Arguments RespForbidden {R} reason.
Arguments RespHandled {R} r.

(** The values the request context carries. *)
Record RequestContext := mkRequestContext {
  ctx_auth : option RequestAuth;
  ctx_validator : option ResourcePermissionValidator;
  ctx_secretReplay : bool;
}.

(** [AuthValidator], with the context it may extend. *)
Definition AuthValidator : Type :=
  GinContext → RequestAuth → RequestContext → (bool * string) * RequestContext.

Fixpoint runValidators (validators : list AuthValidator) (g : GinContext) (ra : RequestAuth)
    (ctx : RequestContext) : (bool * string) * RequestContext :=
  match validators with
  | [] => ((true, ""), ctx)
  | v :: vs =>
      let '((valid, reason), ctx) := v g ra ctx in
      if negb valid then ((false, reason), ctx) else runValidators vs g ra ctx
  end.

Definition combineAuthValidators (validators : list (list AuthValidator)) : list AuthValidator :=
  concat validators.

(** [apserde.SecretResource] and [apserde.SecretReplayVerb]. *)
Definition SecretResource : string := "secrets".
Definition SecretReplayVerb : string := "replay".

Definition applyAuthToGinContext (ctx : RequestContext) (ra : RequestAuth) : RequestContext :=
  mkRequestContext (Some ra) (ctx_validator ctx)
    (Allows RenderMustache (Some ra) SkipPermissionChecks SecretResource SecretReplayVerb "").

Definition MustGetValidatorFromContext (ctx : RequestContext) : outcome ResourcePermissionValidator :=
  match ctx_validator ctx with Some v => GoRet v | None => GoPanic end.

(** The validator [Build] creates. *)
Definition permissionValidator (pb : PermissionValidatorBuilder) : AuthValidator := λ g ra ctx,
  if negb (IsAuthenticated ra) then ((false, "not authenticated"), ctx)
  else
    let ctx := mkRequestContext (ctx_auth ctx) (Some (mkRPV pb (Some ra) false false))
                 (ctx_secretReplay ctx) in
    (firstAllowedVerb (Some ra) (getNamespace pb g) (pvb_resource pb) (pvb_verbs pb)
       (getResourceId pb g) "", ctx).

Definition postValidator (ctx : RequestContext) : outcome unit :=
  v ← MustGetValidatorFromContext ctx;
  if negb (rpv_hasBeenValidated v) && negb (rpv_errorReturn v) then GoPanic else GoRet ().

(** The handler [_next] of [requiredWithRedirectAndPostValidation] on the
    auth [a] of the request; [handler] is the rest of the gin chain run by
    [c.Next()], which may mutate the validator in the context. *)
Definition requiredNext {R} (unauthRedirect : option (string → string)) (returnToUrl : string)
    (defaultAuthValidators validators : list AuthValidator)
    (postValidation : option (RequestContext → outcome unit))
    (g : GinContext) (a : RequestAuth) (ctx : RequestContext)
    (handler : RequestContext → outcome (R * RequestContext)) : outcome (response R) :=
  if negb (IsAuthenticated a) then
    match unauthRedirect with
    | Some gen => GoRet (RespRedirect (gen returnToUrl))
    | None => GoRet RespUnauthorized
    end
  else
    let '((valid, reason), ctx) :=
      runValidators (combineAuthValidators [defaultAuthValidators; validators]) g a ctx in
    if negb valid then GoRet (RespForbidden reason)
    else
      '(r, ctx) ← handler (applyAuthToGinContext ctx a);
      match postValidation with
      | Some post => _ ← post ctx; GoRet (RespHandled r)
      | None => GoRet (RespHandled r)
      end.

(** [Build]: panics when the route names no resource or no verb, and is the
    middleware otherwise. *)
Definition Build {R} (pb : PermissionValidatorBuilder) (unauthRedirect : option (string → string))
    (defaultAuthValidators : list AuthValidator) :
    outcome (string → GinContext → RequestAuth → RequestContext →
             (RequestContext → outcome (R * RequestContext)) → outcome (response R)) :=
  if decide (pvb_resource pb = "") then GoPanic
  else if decide (length (pvb_verbs pb) = 0%nat) then GoPanic
  else GoRet (λ returnToUrl g a ctx handler,
         requiredNext unauthRedirect returnToUrl defaultAuthValidators [permissionValidator pb]
           (Some postValidator) g a ctx handler).
End validator.
Arguments PermissionValidatorBuilder : clear implicits.
Arguments ResourcePermissionValidator : clear implicits.
Arguments RequestContext : clear implicits.
Arguments RespRedirect {R} url.
Arguments RespUnauthorized {R}.
Arguments RespForbidden {R} reason.
Arguments RespHandled {R} r.

#[local] Set Warnings "-register-all".

(** ** The namespace restriction of a query

    The conditions [squirrel] renders, as far as they are used: equality of a
    column, [LIKE] on a column, and a disjunction; a [SelectBuilder] is the
    list of its [Where] conditions. *)
Inductive sql_cond : Type :=
  | SqlEq (field value : string)
  | SqlLike (field pattern : string)
  | SqlOr (cs : list sql_cond).

Definition SelectBuilder : Type := list sql_cond.

Definition Where (q : SelectBuilder) (c : sql_cond) : SelectBuilder := q ++ [c].

Definition namespaceMatcherCondition (field matcher : string) : sql_cond :=
  if HasSuffix matcher ".**" then
    let statedNamespace := str_take (String.length matcher - 3) matcher in
    SqlOr [SqlEq field statedNamespace; SqlLike field (statedNamespace +:+ ".%")]
  else SqlEq field matcher.

Definition restrictToNamespaceMatcher (q : SelectBuilder) (field matcher : string) : SelectBuilder :=
  if HasSuffix matcher ".**" then
    let statedNamespace := str_take (String.length matcher - 3) matcher in
    Where q (SqlOr [SqlEq field statedNamespace; SqlLike field (statedNamespace +:+ ".%")])
  else Where q (SqlEq field matcher).

Definition restrictToNamespaceMatchers (q : SelectBuilder) (field : string) (matchers : list string) :
    SelectBuilder :=
  match matchers with
  | [] => q
  | [m] => restrictToNamespaceMatcher q field m
  | _ => Where q (SqlOr (map (namespaceMatcherCondition field) matchers))
  end.

Section sql.
(** [value LIKE pattern] in the database. *)
Variable sql_like : string → string → bool.

(** A row is a valuation of the columns. *)
Fixpoint sql_eval (row : string → string) (c : sql_cond) : bool :=
  match c with
  | SqlEq f v => bool_decide (row f = v)
  | SqlLike f p => sql_like (row f) p
  | SqlOr cs => existsb (sql_eval row) cs
  end.

Definition selects (q : SelectBuilder) (row : string → string) : bool := forallb (sql_eval row) q.

(** Documented behaviour of [LIKE]: a trailing [%] matches any rest, and the
    other characters of a path at least match themselves. *)
Definition like_prefix_complete : Prop :=
  ∀ segs rest, valid_segs segs →
    sql_like (render segs +:+ String PathSeparator rest) (render segs +:+ ".%") = true.

Lemma restrict_one q field m : restrictToNamespaceMatcher q field m = Where q (namespaceMatcherCondition field m).
Proof. unfold restrictToNamespaceMatcher, namespaceMatcherCondition. by destruct (HasSuffix m ".**"). Qed.

(** The query selects a row when some matcher's condition holds of it; no
    matcher, no restriction. *)
Lemma restrict_selects q field ms row :
  selects (restrictToNamespaceMatchers q field ms) row =
  selects q row && (bool_decide (ms = []) || existsb (λ m, sql_eval row (namespaceMatcherCondition field m)) ms).
Proof.
  unfold selects, restrictToNamespaceMatchers. destruct ms as [|m [|m' ms]].
  - by rewrite andb_true_r.
  - rewrite restrict_one. unfold Where. rewrite forallb_app, bool_decide_false by done.
    cbn [forallb existsb]. by rewrite andb_true_r, orb_false_r.
  - unfold Where. rewrite forallb_app, bool_decide_false by done.
    cbn [forallb sql_eval]. rewrite andb_true_r. by rewrite existsb_map.
Qed.

Lemma condition_render field row m :
  valid_matcher m →
  sql_eval row (namespaceMatcherCondition field (render_matcher m)) =
  match m with
  | Exact segs => bool_decide (row field = render segs)
  | Subtree segs => bool_decide (row field = render segs) || sql_like (row field) (render segs +:+ ".%")
  end.
Proof.
  intros Hm. unfold namespaceMatcherCondition. change ".**" with WildcardSuffix.
  destruct m as [segs|segs]; cbn [render_matcher] in *.
  - by rewrite render_not_wild.
  - rewrite HasSuffix_app. change 3%nat with (String.length WildcardSuffix).
    rewrite str_take_suffix. cbn. by rewrite orb_false_r.
Qed.

Lemma condition_complete field row m segs :
  like_prefix_complete → valid_matcher m → valid_segs segs → row field = render segs →
  denotes m segs → sql_eval row (namespaceMatcherCondition field (render_matcher m)) = true.
Proof.
  intros Hl Hm Hs Hr Hd. rewrite condition_render, Hr by done. destruct m as [p|p]; simpl in Hd.
  - subst. by apply bool_decide_eq_true.
  - destruct Hd as [r ->]. destruct r as [|x r].
    + rewrite app_nil_r. by rewrite bool_decide_true.
    + rewrite orb_true_iff. right. rewrite render_app by done. by apply Hl.
Qed.
End sql.

(** [LIKE] as the SQL standard has it: [%] matches any sequence, [_] any one
    character, every other character itself. *)
Fixpoint standard_like (pattern s : string) : bool :=
  match pattern with
  | "" => bool_decide (s = "")
  | String c p =>
      if decide (c = "%"%char) then
        (fix any (s : string) : bool :=
           standard_like p s || match s with "" => false | String _ s' => any s' end) s
      else match s with
           | "" => false
           | String a s' => (bool_decide (c = "_"%char) || bool_decide (c = a)) && standard_like p s'
           end
  end.

Lemma standard_like_prefix p s rest :
  no_char "%" p = true → standard_like rest s = true → standard_like (p +:+ rest) (p +:+ s) = true.
Proof.
  intros Hp Hr. induction p as [|c p IH]; [done|]. rewrite !str_cons_app.
  unfold no_char in Hp. cbn [str_forall] in Hp. bool_simpl. cbn [standard_like].
  rewrite decide_False by done. rewrite (bool_decide_true (c = c)), orb_true_r by done.
  by apply IH.
Qed.

Lemma standard_like_any s : standard_like "%" s = true.
Proof.
  cbn [standard_like]. rewrite decide_True by done.
  induction s as [|a s IH]; [done|]. rewrite IH. by rewrite orb_true_r.
Qed.

Lemma standard_like_prefix_complete : like_prefix_complete (λ s p, standard_like p s).
Proof.
  intros segs rest Hs. apply standard_like_prefix.
  - apply no_char_Join; [done|]. by apply valid_segs_no_char.
  - change (standard_like ("." +:+ "%") ("." +:+ rest) = true).
    apply standard_like_prefix; [done|]. apply standard_like_any.
Qed.

(** ** Lemmas *)

Section validator_lemmas.
Context {Obj : Type}.
Variables (as_hasNamespace as_hasId : Obj → option string).
Variable RenderMustache : string → TemplateData → option string.

Implicit Types v : ResourcePermissionValidator Obj.

Lemma firstAllowedVerb_fst ra ns resource verbs id last :
  (firstAllowedVerb RenderMustache ra ns resource verbs id last).1 =
  existsb (λ verb, Allows RenderMustache ra ns resource verb id) verbs.
Proof.
  revert last. induction verbs as [|verb verbs IH]; intros last; simpl; [done|].
  pose proof (AllowsReason_fst RenderMustache ra ns resource verb id) as H.
  destruct (AllowsReason _ _ _ _ _ _) as [allowed reason]. simpl in H. rewrite <-H.
  destruct allowed; [done|]. apply IH.
Qed.

(** The action of the route is allowed for one of its verbs. *)
Definition route_allows (pb : PermissionValidatorBuilder Obj) (ra : option RequestAuth) (ns id : string) : bool :=
  existsb (λ verb, Allows RenderMustache ra ns (pvb_resource pb) verb id) (pvb_verbs pb).

Lemma ValidateNamespaceResourceId_spec v ns id :
  (ValidateNamespaceResourceId RenderMustache v ns id).1 = None ↔
    route_allows (rpv_pvb v) (rpv_ra v) ns id = true.
Proof.
  unfold ValidateNamespaceResourceId, route_allows. cbn [MarkValidated rpv_ra rpv_pvb].
  rewrite <-(firstAllowedVerb_fst _ _ _ _ _ "").
  destruct (firstAllowedVerb _ _ _ _ _ _ _) as [[] r]; naive_solver.
Qed.

Lemma ValidateNamespaceResourceId_state v ns id :
  (ValidateNamespaceResourceId RenderMustache v ns id).2 = MarkValidated v.
Proof.
  unfold ValidateNamespaceResourceId. by destruct (firstAllowedVerb _ _ _ _ _ _ _) as [[] r].
Qed.

(** The id a route compares with the permission's resource ids. *)
Definition object_id (pb : PermissionValidatorBuilder Obj) (obj : Obj) : option string :=
  match pvb_idExtractor pb with Some ex => Some (ex obj) | None => as_hasId obj end.

Definition object_allowed (v : ResourcePermissionValidator Obj) (obj : Obj) : bool :=
  match as_hasNamespace obj, object_id (rpv_pvb v) obj with
  | Some ns, Some id => route_allows (rpv_pvb v) (rpv_ra v) ns id
  | _, _ => false
  end.

Definition loadable (v : ResourcePermissionValidator Obj) (obj : Obj) : Prop :=
  is_Some (as_hasNamespace obj) ∧ is_Some (object_id (rpv_pvb v) obj).

Lemma Validate_spec v obj :
  loadable v obj →
  ∃ err, Validate as_hasNamespace as_hasId RenderMustache v obj = GoRet (err, MarkValidated v) ∧
         (err = None ↔ object_allowed v obj = true).
Proof.
  intros [[ns Hns] [id Hid]]. unfold Validate, object_allowed. rewrite Hns, Hid.
  unfold object_id in Hid. destruct (pvb_idExtractor (rpv_pvb v)) as [ex|].
  - injection Hid as Hid. cbn [mbind outcome_bind]. rewrite Hid.
    pose proof (ValidateNamespaceResourceId_spec v ns id) as H1.
    pose proof (ValidateNamespaceResourceId_state v ns id) as H2.
    destruct (ValidateNamespaceResourceId _ v ns id) as [e w]. simpl in *. subst w. by exists e.
  - unfold DefaultIdExtractor. rewrite Hid. cbn [mbind outcome_bind].
    pose proof (ValidateNamespaceResourceId_spec v ns id) as H1.
    pose proof (ValidateNamespaceResourceId_state v ns id) as H2.
    destruct (ValidateNamespaceResourceId _ v ns id) as [e w]. simpl in *. subst w. by exists e.
Qed.

Lemma filterLoop_spec v objs acc :
  rpv_hasBeenValidated v = true → Forall (loadable v) objs →
  filterLoop as_hasNamespace as_hasId RenderMustache v objs acc =
    GoRet (acc ++ List.filter (object_allowed v) objs, v).
Proof.
  intros Hv Hl. revert acc. induction Hl as [|obj objs Ho Hl IH]; intros acc; simpl.
  { by rewrite app_nil_r. }
  destruct (Validate_spec v obj Ho) as (err & Heq & Herr). rewrite Heq. cbn [mbind outcome_bind].
  assert (MarkValidated v = v) as Hmv by (destruct v; simpl in *; by subst).
  rewrite !Hmv, IH. destruct err as [e|].
  - destruct (object_allowed v obj); [|done]. naive_solver.
  - rewrite (proj1 Herr) by done. by rewrite <-app_assoc.
Qed.

Lemma object_allowed_mark v obj : object_allowed (MarkValidated v) obj = object_allowed v obj.
Proof. done. Qed.

Lemma Filter_spec v objs :
  Forall (loadable v) objs →
  FilterForValidatedResources as_hasNamespace as_hasId RenderMustache v objs =
    GoRet (List.filter (object_allowed v) objs, MarkValidated v).
Proof. intros Hl. unfold FilterForValidatedResources. by rewrite filterLoop_spec. Qed.

(** ** Effective namespaces *)

Lemma addUnseen_spec l acc x :
  (∀ y, y ∈ acc.2 ↔ y ∈ acc.1) →
  (x ∈ (addUnseen acc l).1 ↔ x ∈ acc.1 ∨ x ∈ l) ∧
  (∀ y, y ∈ (addUnseen acc l).2 ↔ y ∈ (addUnseen acc l).1).
Proof.
  unfold addUnseen. revert acc. induction l as [|n l IH]; intros [allowed seen] Hinv; simpl in *.
  { split; [set_solver|done]. }
  case_decide as Hn.
  - destruct (IH (allowed, seen)) as [IH1 IH2]; [done|]. split; [|done]. rewrite IH1. simpl.
    apply Hinv in Hn. set_solver.
  - destruct (IH (allowed ++ [n], {[n]} ∪ seen)) as [IH1 IH2]; [set_solver|]. split; [|done].
    rewrite IH1. simpl. set_solver.
Qed.

(** The union over the verbs, given the namespaces of each verb. *)
Lemma allowedForVerbs_spec ra resource verbs acc (ns_of : string → list string) :
  (∀ verb, verb ∈ verbs → GetNamespacesAllowed RenderMustache ra resource verb = GoRet (ns_of verb)) →
  (∀ y, y ∈ acc.2 ↔ y ∈ acc.1) →
  ∃ res, allowedForVerbs RenderMustache ra resource verbs acc = GoRet res ∧
         ∀ x, x ∈ res.1 ↔ x ∈ acc.1 ∨ ∃ verb, verb ∈ verbs ∧ x ∈ ns_of verb.
Proof.
  revert acc. induction verbs as [|verb verbs IH]; intros acc Hns Hinv; simpl.
  { exists acc. split; [done|]. set_solver. }
  rewrite Hns by set_solver. cbn [mbind outcome_bind].
  destruct (IH (addUnseen acc (ns_of verb))) as (res & Heq & Hres).
  { intros; apply Hns; set_solver. }
  { by apply (addUnseen_spec _ _ ""). }
  exists res. split; [done|]. intros x. rewrite Hres.
  destruct (addUnseen_spec (ns_of verb) acc x Hinv) as [-> _]. set_solver.
Qed.
End validator_lemmas.

Section effective_matchers.
Context {Obj : Type}.
Variable RenderMustache : string → TemplateData → option string.
Variables (sess : option string) (actor : Actor) (restrictions : list Permission).
Variable pb : PermissionValidatorBuilder Obj.

Let ra := mkRequestAuth sess (Some actor) restrictions.
Let resource := pvb_resource pb.

(** What a route is configured with, and the matchers involved are ones
    [ConstrainMatcher] intersects. *)
Definition route_ok : Prop :=
  resource ≠ "" ∧
  ∀ verb, verb ∈ pvb_verbs pb → verb ≠ "" ∧ no_defect RenderMustache actor restrictions resource verb.

Hypothesis Hroute : route_ok.

Definition namespaces_of (verb : string) : list string :=
  match GetNamespacesAllowed RenderMustache (Some ra) resource verb with
  | GoRet l => l
  | GoPanic => []
  end.

Lemma namespaces_of_eq verb :
  GetNamespacesAllowed RenderMustache (Some ra) resource verb = GoRet (namespaces_of verb) ∧
  Forall (λ r, ∃ m, valid_matcher m ∧ r = render_matcher m) (namespaces_of verb).
Proof.
  unfold namespaces_of.
  destruct (GetNamespacesAllowed_valid RenderMustache sess actor restrictions resource verb)
    as (l & Heq & Hl). fold ra in Heq. by rewrite Heq.
Qed.

Lemma namespaces_of_covers verb segs :
  verb ∈ pvb_verbs pb → valid_segs segs →
  (∃ m, m ∈ namespaces_of verb ∧ Matches m (render segs) = true) ↔
  Allows RenderMustache (Some ra) (render segs) resource verb "" = true.
Proof.
  intros Hv Hs. destruct Hroute as [Hr Hverbs]. destruct (Hverbs verb Hv) as [Hve Hnd].
  destruct (GetNamespacesAllowed_covers RenderMustache sess actor restrictions resource verb segs Hnd Hs)
    as (l & Heq & _ & Hl). unfold namespaces_of. fold ra in Heq. rewrite Heq, Hl.
  unfold ra. rewrite Allows_grants by done.
  assert (∀ p, perm_grants RenderMustache actor p segs resource verb "" ↔
               perm_applies p resource verb ∧ perm_covers RenderMustache actor p segs) as Hg.
  { intros p. unfold perm_grants. naive_solver. }
  by setoid_rewrite Hg.
Qed.

(** The allowed namespaces before a query matcher is applied. *)
Lemma allowed_for_route :
  ∃ res, allowedForVerbs RenderMustache (Some ra) resource (pvb_verbs pb) ([], ∅) = GoRet res ∧
    Forall (λ r, ∃ m, valid_matcher m ∧ r = render_matcher m) res.1 ∧
    (∀ x, x ∈ res.1 ↔ ∃ verb, verb ∈ pvb_verbs pb ∧ x ∈ namespaces_of verb) ∧
    ∀ segs, valid_segs segs →
      (∃ m, m ∈ res.1 ∧ Matches m (render segs) = true) ↔
      route_allows RenderMustache pb (Some ra) (render segs) "" = true.
Proof.
  destruct (allowedForVerbs_spec RenderMustache (Some ra) resource (pvb_verbs pb) ([], ∅) namespaces_of)
    as (res & Heq & Hres).
  { intros verb _. apply namespaces_of_eq. }
  { set_solver. }
  assert (∀ x, x ∈ res.1 ↔ ∃ verb, verb ∈ pvb_verbs pb ∧ x ∈ namespaces_of verb) as Hres'.
  { intros x. rewrite Hres. simpl. set_solver. }
  exists res. split_and!; [done| |done|].
  - apply Forall_forall. intros x (verb & _ & Hx)%Hres'.
    destruct (namespaces_of_eq verb) as [_ Hf]. rewrite Forall_forall in Hf. by apply Hf.
  - intros segs Hs. unfold route_allows. rewrite existsb_list_elem_of. split.
    + intros (m & (verb & Hv & Hm)%Hres' & HM). exists verb. split; [done|].
      apply namespaces_of_covers; [done..|]. by exists m.
    + intros (verb & Hv & (m & Hm & HM)%namespaces_of_covers); [|done..].
      exists m. split; [|done]. apply Hres'. by exists verb.
Qed.

Lemma effective_no_query v :
  rpv_pvb v = pb → rpv_ra v = Some ra →
  ∃ ms, GetEffectiveNamespaceMatchers RenderMustache v None = GoRet ms ∧
    Forall (λ r, ∃ m, valid_matcher m ∧ r = render_matcher m) ms ∧
    ∀ segs, valid_segs segs →
      (∃ m, m ∈ ms ∧ Matches m (render segs) = true) ↔
      route_allows RenderMustache pb (Some ra) (render segs) "" = true.
Proof.
  intros Hpb Hra. destruct allowed_for_route as (res & Heq & Hf & _ & Hc).
  exists res.1. split_and!; [|done..]. unfold GetEffectiveNamespaceMatchers.
  rewrite Hpb, Hra. change (IsAuthenticated ra) with true. cbn [negb].
  fold resource. rewrite Heq. cbn. destruct res as [[|x l] seen]; [done|]. done.
Qed.

(** A query matcher, and the allowed matchers are ones it intersects. *)
Definition query_ok (qm : matcher) : Prop :=
  valid_matcher qm ∧
  ∀ verb m, verb ∈ pvb_verbs pb → valid_matcher m → render_matcher m ∈ namespaces_of verb →
            ¬ constrain_defect m qm.

Lemma query_pairs (qm : matcher) allowed :
  Forall (λ r, ∃ m, valid_matcher m ∧ r = render_matcher m) allowed →
  valid_matcher qm →
  (∀ m, valid_matcher m → render_matcher m ∈ allowed → ¬ constrain_defect m qm) →
  ∃ l, collectConstrained (λ a, ConstrainMatcher a (render_matcher qm)) allowed = GoRet l ∧
    ∀ segs, valid_segs segs →
      (∃ m, m ∈ l ∧ Matches m (render segs) = true) ↔
      (∃ m, m ∈ allowed ∧ Matches m (render segs) = true) ∧ denotes qm segs.
Proof.
  intros Hf Hqm Hnd. rewrite Forall_forall in Hf.
  destruct (collectConstrained_spec (λ a, ConstrainMatcher a (render_matcher qm)) allowed) as (l & Heq & Hl).
  { intros c _. apply ConstrainMatcher_returns. right. pose proof (render_matcher_length qm). lia. }
  exists l. split; [done|]. intros segs Hs. split.
  - intros (x & (a & Ha & Hc)%Hl & Hx). destruct (Hf a Ha) as (m & Hm & ->).
    destruct (ConstrainMatcher_intersection m qm) as (y & ok & Hy & Hint); [by auto..|].
    rewrite Hc in Hy. injection Hy as <- <-.
    destruct (proj1 (Hint segs Hs)) as [Hd Hdq]; [done|]. split; [|done].
    exists (render_matcher m). split; [done|]. by apply Matches_render.
  - intros [(a & Ha & HM) Hdq]. destruct (Hf a Ha) as (m & Hm & ->).
    rewrite Matches_render in HM by done.
    destruct (ConstrainMatcher_intersection m qm) as (y & ok & Hy & Hint); [by auto..|].
    destruct (proj2 (Hint segs Hs)) as [-> HMy]; [done|]. exists y. split; [|done].
    apply Hl. by exists (render_matcher m).
Qed.

Lemma sentinel_matches_nothing segs : valid_segs segs → Matches NoMatchSentinel (render segs) = false.
Proof.
  intros Hs. unfold Matches. rewrite (bool_decide_false (render segs = "")) by apply render_nonempty.
  rewrite (bool_decide_false (NoMatchSentinel = "")) by done.
  change (HasSuffix NoMatchSentinel WildcardSuffix) with false. cbn [orb].
  apply bool_decide_eq_false. intros Heq. pose proof (Split_render segs Hs) as H.
  rewrite <-Heq in H. discriminate H.
Qed.

Lemma effective_query v qm :
  rpv_pvb v = pb → rpv_ra v = Some ra → query_ok qm →
  ∃ ms, GetEffectiveNamespaceMatchers RenderMustache v (Some (render_matcher qm)) = GoRet ms ∧
    ∀ segs, valid_segs segs →
      (∃ m, m ∈ ms ∧ Matches m (render segs) = true) ↔
      route_allows RenderMustache pb (Some ra) (render segs) "" = true ∧ denotes qm segs.
Proof.
  intros Hpb Hra [Hqm Hnd]. destruct allowed_for_route as (res & Heq & Hf & Hin & Hc).
  destruct (query_pairs qm res.1) as (l & Hl & Hcov); [done..| |].
  { intros m Hm (verb & Hv & Hx)%Hin. by eapply Hnd. }
  unfold GetEffectiveNamespaceMatchers. rewrite Hpb, Hra.
  change (IsAuthenticated ra) with true. cbn [negb]. fold resource. rewrite Heq.
  destruct res as [allowed seen]. cbn [mbind outcome_bind fst] in *.
  assert (∀ segs, valid_segs segs → (∃ m, m ∈ l ∧ Matches m (render segs) = true) ↔
    route_allows RenderMustache pb (Some ra) (render segs) "" = true ∧ denotes qm segs) as Hcov'.
  { intros segs Hs. by rewrite Hcov, Hc. }
  clear Hcov. rename Hcov' into Hcov. case_bool_decide as Ha.
  { apply nil_length_inv in Ha as ->. exists []. split; [done|]. intros segs Hs.
    rewrite <-Hc by done. set_solver. }
  rewrite Hl. cbn [mbind outcome_bind]. case_bool_decide as Hn; [|by eauto].
  apply nil_length_inv in Hn as ->. exists [NoMatchSentinel]. split; [done|].
  intros segs Hs. rewrite <-Hcov by done. split; [|set_solver].
  intros (m & ->%list_elem_of_singleton & HM). by rewrite sentinel_matches_nothing in HM.
Qed.
End effective_matchers.

Lemma matchesResourceId_none p : matchesResourceId p "" = true.
Proof. unfold matchesResourceId. by case_decide. Qed.

(** A check with a resource id implies the check without one. *)
Lemma Allows_without_id RenderMustache ra ns resource verb id :
  Allows RenderMustache ra ns resource verb id = true →
  Allows RenderMustache ra ns resource verb "" = true.
Proof.
  destruct ra as [[sess [actor|] restrictions]|]; [|done..]. rewrite !Allows_unfold.
  assert (∀ ps, permissionsAllowForActor RenderMustache (Some actor) ps ns resource verb id = true →
    permissionsAllowForActor RenderMustache (Some actor) ps ns resource verb "" = true) as H.
  { intros ps. unfold permissionsAllowForActor. rewrite !existsb_list_elem_of.
    intros (p & Hp & Ha). exists p. split; [done|]. unfold allowsForActor in *.
    rewrite matchesResourceId_none. by repeat case_match. }
  rewrite !andb_true_iff, !orb_true_iff. intros [? [?|?]]; auto.
Qed.

Lemma List_filter_filter {A} (f g : A → bool) l :
  (∀ x, x ∈ l → f x = true → g x = true) → List.filter f (List.filter g l) = List.filter f l.
Proof.
  induction l as [|x l IH]; intros H; simpl; [done|].
  destruct (g x) eqn:Hg; simpl; rewrite IH by (intros; apply H; set_solver); [done|].
  destruct (f x) eqn:Hf; [|done]. by rewrite (H x) in Hg by set_solver.
Qed.

Lemma runValidators_app {Obj} (vs ws : list (@AuthValidator Obj)) g a ctx :
  runValidators (vs ++ ws) g a ctx =
  let '((valid, reason), ctx') := runValidators vs g a ctx in
  if valid then runValidators ws g a ctx' else ((valid, reason), ctx').
Proof.
  revert ctx. induction vs as [|v vs IH]; intros ctx; simpl; [done|].
  destruct (v g a ctx) as [[[] reason] ctx']; simpl; [apply IH|done].
Qed.

(** ** Properties *)

(** C18: What the middleware of a route does with a request, exactly.  A request
    that is not authenticated is redirected or answered 401, and one that a
    default validator refuses or that is allowed none of the route's verbs in
    the route's namespace is answered 403: the answer is then the same for every
    handler, one that would panic included, so that none was run.  For any other
    request the handler is run, with the request's auth and a fresh validator in
    its context; what it answers is the answer if it validated a resource or
    flagged an error, and the request panics otherwise. *)
Theorem Build_guards_handler {Obj R : Type} RenderMustache (pb : PermissionValidatorBuilder Obj)
    unauthRedirect defaults mw returnTo g a ctx :
  Build (R := R) RenderMustache pb unauthRedirect defaults = GoRet mw →
  let admitted := (runValidators defaults g a ctx).1.1 &&
    route_allows RenderMustache pb (Some a) (getNamespace pb g) (getResourceId pb g) in
  (IsAuthenticated a = false → ∀ handler,
     mw returnTo g a ctx handler =
       GoRet (match unauthRedirect with Some gen => RespRedirect (gen returnTo) | None => RespUnauthorized end)) ∧
  (IsAuthenticated a = true → admitted = false → ∃ reason, ∀ handler, mw returnTo g a ctx handler = GoRet (RespForbidden reason)) ∧
  (IsAuthenticated a = true → admitted = true → ∃ c0,
     ctx_auth c0 = Some a ∧ ctx_validator c0 = Some (mkRPV pb (Some a) false false) ∧
     ∀ handler, mw returnTo g a ctx handler =
       match handler c0 with
       | GoRet (r, c1) =>
           match ctx_validator c1 with
           | Some v => if rpv_hasBeenValidated v || rpv_errorReturn v then GoRet (RespHandled r) else GoPanic
           | None => GoPanic
           end
       | GoPanic => GoPanic
       end).
Proof.
  unfold Build. case_decide; [done|]. case_decide; [done|]. intros [= <-]. cbn zeta. unfold requiredNext. split_and!.
  { intros Ha handler. rewrite Ha. by destruct unauthRedirect. }
  all: intros Ha Had; rewrite Ha; cbn [negb]; unfold combineAuthValidators; cbn [concat]; rewrite app_nil_r, runValidators_app.
  all: destruct (runValidators defaults g a ctx) as [[[] reason] ctx1]; cbn [fst andb] in Had; try done.
  2: by exists reason.
  all: cbn [runValidators]; unfold permissionValidator; rewrite Ha; cbn [negb].
  all: pose proof (firstAllowedVerb_fst RenderMustache (Some a) (getNamespace pb g) (pvb_resource pb) (pvb_verbs pb) (getResourceId pb g) "") as Hfst.
  all: destruct (firstAllowedVerb _ _ _ _ _ _ _) as [[] why]; cbn [negb]; cbn [fst] in Hfst; unfold route_allows in Had; try congruence.
  - by exists why.
  - exists (applyAuthToGinContext RenderMustache (mkRequestContext (ctx_auth ctx1) (Some (mkRPV pb (Some a) false false)) (ctx_secretReplay ctx1)) a).
    split_and!; [reflexivity..|]. intros handler. destruct (handler _) as [|[r c1]]; cbn [mbind outcome_bind]; [done|].
    unfold postValidator, MustGetValidatorFromContext. destruct (ctx_validator c1) as [v|]; cbn [mbind outcome_bind]; [|done].
    by destruct (rpv_hasBeenValidated v), (rpv_errorReturn v).
Qed.

(** A route, a request and a handler that validates, for the witnesses. *)
Definition sample_route : PermissionValidatorBuilder (string * string) :=
  ForVerb (ForResource NewRequiredBuilder "connections") "list".

Definition sample_auth : RequestAuth := mkRequestAuth None (Some (sample_actor AllPermissions)) [].

Definition sample_gin : GinContext := mkGinContext (λ _, "") (λ _, "").

Definition sample_ctx : RequestContext (string * string) := mkRequestContext None None false.

Definition sample_handler (c : RequestContext (string * string)) :
    outcome (nat * RequestContext (string * string)) :=
  GoRet (7%nat, mkRequestContext (ctx_auth c) (MarkValidated <$> ctx_validator c) (ctx_secretReplay c)).

(** The permitted request is handled; one without permissions is not, whatever
    the handler. *)
Lemma Build_guards_handler_witness :
  ∃ mw, Build (R := nat) no_templates sample_route None [] = GoRet mw ∧
        mw "" sample_gin sample_auth sample_ctx sample_handler = GoRet (RespHandled 7%nat) ∧
        ∃ reason, ∀ handler, mw "" sample_gin (mkRequestAuth None (Some (sample_actor NoPermissions)) []) sample_ctx handler = GoRet (RespForbidden reason).
Proof.
  eexists. split; [reflexivity|]. split.
  - pose proof (Build_guards_handler (R := nat) no_templates sample_route None [] _ "" sample_gin sample_auth sample_ctx eq_refl) as (_ & _ & H).
    destruct (H eq_refl ltac:(vm_compute; reflexivity)) as (c0 & Hauth & Hv & Hrun). rewrite Hrun. unfold sample_handler. cbn [ctx_validator].
    rewrite Hv. reflexivity.
  - pose proof (Build_guards_handler (R := nat) no_templates sample_route None [] _ "" sample_gin
      (mkRequestAuth None (Some (sample_actor NoPermissions)) []) sample_ctx eq_refl) as (_ & H & _).
    apply H; vm_compute; reflexivity.
Defined.

(** C4: A list endpoint that is asked without a namespace filter returns exactly
    the objects the request may access, for requests whose permissions and
    restrictions have no pair of matchers that [ConstrainMatcher] gets wrong:
    pushing the namespaces of [GetEffectiveNamespaceMatchers] into the query
    and filtering the selected rows with the validator gives, in order, the
    objects of the table allowed by one of the route's verbs.  The SQL
    restriction loses no allowed row, provided [LIKE] matches a literal prefix;
    the pairs are those of [constrain_defect], for which the code loses or adds
    namespaces. *)
Theorem list_endpoint_exact {Obj : Type} (as_hasNamespace as_hasId : Obj → option string)
    RenderMustache sql_like sess actor restrictions (v : ResourcePermissionValidator Obj)
    (field : string) (row : Obj → string → string) (objs : list Obj) :
  like_prefix_complete sql_like →
  rpv_ra v = Some (mkRequestAuth sess (Some actor) restrictions) →
  route_ok RenderMustache actor restrictions (rpv_pvb v) →
  Forall (λ obj, loadable as_hasNamespace as_hasId v obj ∧
            ∃ segs, valid_segs segs ∧ as_hasNamespace obj = Some (render segs) ∧
                    row obj field = render segs) objs →
  ∃ ms, GetEffectiveNamespaceMatchers RenderMustache v None = GoRet ms ∧
    FilterForValidatedResources as_hasNamespace as_hasId RenderMustache v
      (List.filter (λ obj, selects sql_like (restrictToNamespaceMatchers [] field ms) (row obj)) objs) =
    GoRet (List.filter (object_allowed as_hasNamespace as_hasId RenderMustache v) objs, MarkValidated v).
Proof.
  intros Hlike Hra Hroute Hobjs. rewrite Forall_forall in Hobjs.
  destruct (effective_no_query RenderMustache sess actor restrictions (rpv_pvb v) Hroute v)
    as (ms & Heq & Hval & Hcov); [done..|].
  exists ms. split; [done|]. rewrite Filter_spec, List_filter_filter; [done| |].
  - intros obj Hobj Hal. destruct (Hobjs obj Hobj) as (_ & segs & Hs & Hns & Hrow).
    rewrite restrict_selects. cbn [selects forallb andb]. apply orb_true_iff. right.
    apply existsb_list_elem_of. unfold object_allowed in Hal. rewrite Hns, Hra in Hal.
    destruct (object_id as_hasId (rpv_pvb v) obj) as [id|]; [|done].
    assert (route_allows RenderMustache (rpv_pvb v) (Some (mkRequestAuth sess (Some actor) restrictions))
              (render segs) "" = true) as Hr.
    { unfold route_allows in *. rewrite existsb_list_elem_of in *. destruct Hal as (verb & ? & ?).
      exists verb. split; [done|]. by eapply Allows_without_id. }
    apply Hcov in Hr as (m & Hm & HM); [|done]. exists m. split; [done|]. rewrite Forall_forall in Hval. destruct (Hval m Hm) as (mm & Hmm & ->).
    rewrite Matches_render in HM by done. by apply (condition_complete sql_like field (row obj) mm segs).
  - apply Forall_forall. intros obj Hobj%list_elem_of_In%filter_In.
    apply Hobjs. apply list_elem_of_In. tauto.
Qed.

(** Objects given by their namespace and id. *)
Definition sample_validator : ResourcePermissionValidator (string * string) :=
  mkRPV sample_route (Some sample_auth) false false.

Definition sample_objects : list (string * string) := [("root.a", "cxn_1"); ("root.b.c", "cxn_2")].

Lemma sample_route_ok : route_ok no_templates (sample_actor AllPermissions) [] sample_route.
Proof.
  split; [done|]. intros verb ->%list_elem_of_singleton. split; [done|].
  intros m1 m2 Hm1. apply not_elem_of_nil in Hm1 as [].
Qed.

Lemma sample_objects_ok (v : ResourcePermissionValidator (string * string)) :
  rpv_pvb v = sample_route →
  Forall (λ obj : string * string, loadable (λ o, Some o.1) (λ o, Some o.2) v obj ∧
            ∃ segs, valid_segs segs ∧ Some obj.1 = Some (render segs) ∧ obj.1 = render segs) sample_objects.
Proof.
  intros Hv. repeat constructor; unfold object_id; rewrite ?Hv; try by eexists.
  - exists ["a"]. split_and!; [by repeat constructor|done|done].
  - exists ["b"; "c"]. split_and!; [by repeat constructor|done|done].
Qed.

(** A request that is restricted to the namespaces under [root.b]. *)
Definition restricted_to_b : list Permission := PermissionsSingle "root.b.**" "connections" "list".

Definition restricted_validator : ResourcePermissionValidator (string * string) :=
  mkRPV sample_route (Some (mkRequestAuth None (Some (sample_actor AllPermissions)) restricted_to_b)) false false.

Lemma restricted_route_ok : route_ok no_templates (sample_actor AllPermissions) restricted_to_b sample_route.
Proof.
  split; [done|]. intros verb ->%list_elem_of_singleton. split; [done|].
  intros m1 m2 Hm1 Hm2 Hv1 Hv2. vm_compute in Hm1, Hm2. apply list_elem_of_singleton in Hm1, Hm2.
  assert (m1 = Subtree ["b"]) as -> by (apply render_matcher_inj; [done|by repeat constructor|done]).
  assert (m2 = Subtree []) as -> by (apply render_matcher_inj; [done|by repeat constructor|done]). by intros [].
Qed.

Lemma list_endpoint_exact_witness :
  ∃ ms, GetEffectiveNamespaceMatchers no_templates restricted_validator None = GoRet ms ∧
    FilterForValidatedResources (λ o, Some o.1) (λ o, Some o.2) no_templates restricted_validator
      (List.filter (λ o, selects (λ s p, standard_like p s)
                           (restrictToNamespaceMatchers [] "namespace" ms) (λ _, o.1)) sample_objects) =
    GoRet ([("root.b.c", "cxn_2")], MarkValidated restricted_validator).
Proof.
  destruct (list_endpoint_exact (λ o : string * string, Some o.1) (λ o, Some o.2) no_templates
    (λ s p, standard_like p s) None (sample_actor AllPermissions) restricted_to_b restricted_validator
    "namespace" (λ o _, o.1) sample_objects) as (ms & Hms & Hall).
  - apply standard_like_prefix_complete.
  - reflexivity.
  - apply restricted_route_ok.
  - by apply sample_objects_ok.
  - exists ms. split; [exact Hms|]. rewrite Hall. vm_compute. reflexivity.
Defined.

(** [GetEffectiveNamespaceMatchers] never panics and, with a query matcher,
    returns matchers that cover exactly the namespaces that are both allowed
    for one of the route's verbs and denoted by the query matcher (none of
    them when the sentinel is returned). *)
Theorem effective_matchers_with_query {Obj : Type} RenderMustache sess actor restrictions
    (v : ResourcePermissionValidator Obj) qm segs :
  rpv_ra v = Some (mkRequestAuth sess (Some actor) restrictions) →
  route_ok RenderMustache actor restrictions (rpv_pvb v) →
  query_ok RenderMustache sess actor restrictions (rpv_pvb v) qm →
  valid_segs segs →
  ∃ ms, GetEffectiveNamespaceMatchers RenderMustache v (Some (render_matcher qm)) = GoRet ms ∧
    ((∃ m, m ∈ ms ∧ Matches m (render segs) = true) ↔
     route_allows RenderMustache (rpv_pvb v) (Some (mkRequestAuth sess (Some actor) restrictions))
       (render segs) "" = true ∧ denotes qm segs).
Proof.
  intros Hra Hroute Hq Hs.
  destruct (effective_query RenderMustache sess actor restrictions (rpv_pvb v) Hroute v qm)
    as (ms & Heq & Hcov); [done..|]. exists ms. split; [done|]. by apply Hcov.
Qed.

Lemma effective_matchers_with_query_witness :
  ∃ ms, GetEffectiveNamespaceMatchers no_templates sample_validator
          (Some (render_matcher (Exact ["team"]))) = GoRet ms ∧
    ((∃ m, m ∈ ms ∧ Matches m (render ["team"]) = true) ↔
     route_allows no_templates sample_route (Some sample_auth) (render ["team"]) "" = true ∧
     denotes (Exact ["team"]) ["team"]).
Proof.
  apply (effective_matchers_with_query no_templates None (sample_actor AllPermissions) []
           sample_validator (Exact ["team"]) ["team"]).
  - reflexivity.
  - apply sample_route_ok.
  - split; [by repeat constructor|]. intros verb m ->%list_elem_of_singleton Hm Hin.
    vm_compute in Hin. apply list_elem_of_singleton in Hin.
    assert (m = Subtree []) as ->.
    { apply render_matcher_inj; [done|by repeat constructor|done]. }
    intros (x & [= <-] & Hlen). simpl in Hlen. lia.
  - by repeat constructor.
Defined.

(** The list [GetEffectiveNamespaceMatchers] returns for an actor without
    any permission on the resource is empty, which the query restriction reads
    as no restriction at all, so such a query selects every row until the
    validator filters it; and a recursive matcher whose name contains an
    underscore selects rows of sibling namespaces that the matcher does not
    match, because [_] is a [LIKE] wildcard. *)
Theorem empty_matchers_unrestricted {Obj : Type} RenderMustache
    (pb : PermissionValidatorBuilder Obj) sql_like field row :
  let v := mkRPV pb (Some (mkRequestAuth None (Some (sample_actor NoPermissions)) [])) false false in
  GetEffectiveNamespaceMatchers RenderMustache v None = GoRet [] ∧
  selects sql_like (restrictToNamespaceMatchers [] field []) row = true ∧
  route_allows RenderMustache pb (rpv_ra v) (row field) "" = false ∧
  selects (λ s p, standard_like p s)
    (restrictToNamespaceMatchers [] field ["root.team_a.**"]) (λ _, "root.teamXa.secret") = true ∧
  Matches "root.team_a.**" "root.teamXa.secret" = false.
Proof.
  intros v. split_and!; [|done| |vm_compute; done|vm_compute; done].
  - unfold v, GetEffectiveNamespaceMatchers. cbn [rpv_ra rpv_pvb]. cbn.
    assert (∀ verbs, allowedForVerbs RenderMustache
      (Some (mkRequestAuth None (Some (sample_actor NoPermissions)) [])) (pvb_resource pb) verbs ([], ∅)
      = GoRet ([], ∅)) as H; [|by rewrite H].
    induction verbs as [|verb verbs IH]; [done|]. apply IH.
  - unfold route_allows. apply not_true_iff_false. rewrite existsb_list_elem_of. by intros (verb & _ & ?).
Qed.
