(* ===== verification/Labels.v ===== *)
(** * Labels

    Package [internal/database] (labels.go, and the label operations of
    namespace.go).  Labels are string maps with Kubernetes-style keys.  Keys
    under the reserved prefix [apxy/] are managed by the system: the implicit
    identity labels of a resource and the labels carried forward from its
    parents.  User operations may only touch the rest.

    A Go [Labels] map is a [gmap]; nil and empty maps behave alike in every
    operation modelled here and are both the empty map.  Errors are values of
    [label_error], one constructor per message.  A loop over a Go map visits
    the entries in an unspecified order: where the result could depend on it
    ([BuildCarriedLabels]) the loop takes the list of entries in the order
    visited.  Table rows are a state passed through the [...InTableTx]
    operations; the reads and writes of one transaction do not fail. *)

From S2P Require Import Prelude GoStrings Regex Namespace.

Abbreviation Labels := (gmap string string).

(** ** Constants and patterns *)

Definition LabelKeyNameMaxLength : nat := 63.
Definition LabelKeyPrefixMaxLength : nat := 253.
Definition LabelValueMaxLength : nat := 63.
Definition ApxyLabelValueMaxLength : nat := 253.
Definition ApxyReservedPrefix : string := "apxy/".
Definition ApxyImplicitSegment : string := "-".
Definition NamespaceLabelToken : string := "ns".

Definition slash : ascii := "/".

(** [[a-zA-Z0-9._-]] and [[a-zA-Z0-9-]]. *)
Definition is_name_char (a : ascii) : bool := is_alnum a || is_one_of ["."%char; "_"%char; "-"%char] a.
Definition is_dns_char (a : ascii) : bool := is_alnum a || is_one_of ["-"%char] a.

Definition name_token : regex := token_regex is_alnum is_name_char 61.
Definition dns_token : regex := token_regex is_alnum is_dns_char 61.

Definition labelKeyNameRegex : regex := RAlt name_token (RChr is_alnum).
Definition labelKeyPrefixRegex : regex := RSeq (RStar (RSeq dns_token (RLit "."))) dns_token.
Definition labelValueRegex : regex := RAlt (ROpt name_token) (ROpt (RChr is_alnum)).
Definition apxyPathSegmentRegex : regex := RAlt dns_token (RLit "-").
Definition apxyLabelValueRegex : regex := RUpto 253 (RChr is_name_char).

(** ** Validation *)

Inductive label_error : Type :=
  | LabelKeyEmpty
  | LabelPrefixEmpty
  | LabelPrefixTooLong
  | LabelPrefixInvalid (prefix : string)
  | LabelNameEmpty
  | LabelNameTooLong
  | LabelNameInvalid (name : string)
  | ApxyNoSegment
  | ApxyEmptySegment
  | ApxySegmentInvalid (seg : string)
  | LabelKeyReserved (key : string)
  | LabelValueTooLong
  | LabelValueInvalid (value : string)
  | ApxyValueTooLong
  | ApxyValueInvalid (value : string).

#[export] Instance label_error_eq_dec : EqDecision label_error.
Proof. solve_decision. Defined.

(** The checks of the name portion, shared by both grammars. *)
Definition validateName (name : string) : option label_error :=
  if decide (name = "") then Some LabelNameEmpty
  else if bool_decide (LabelKeyNameMaxLength < String.length name)%nat then Some LabelNameTooLong
  else if negb (re_match labelKeyNameRegex name) then Some (LabelNameInvalid name)
  else None.

(** The loop over the inner segments: the first offending one. *)
Fixpoint validateSegments (segs : list string) : option label_error :=
  match segs with
  | [] => None
  | seg :: segs =>
      if decide (seg = "") then Some ApxyEmptySegment
      else if negb (re_match apxyPathSegmentRegex seg) then Some (ApxySegmentInvalid seg)
      else validateSegments segs
  end.

(** The key starts with [apxy/], so [strings.LastIndex] finds a slash; the
    [None] case is never reached. *)
Definition validateApxyLabelKey (key : string) : option label_error :=
  match LastIndex key slash with
  | None => Some ApxyNoSegment
  | Some idx =>
      let prefix := str_take idx key in
      let name := str_drop (idx + 1) key in
      if bool_decide (LabelKeyPrefixMaxLength < String.length prefix)%nat then Some LabelPrefixTooLong
      else
        let innerPath := TrimPrefix prefix "apxy" in
        if decide (innerPath = "") then Some ApxyNoSegment
        else match validateSegments (Split (str_drop 1 innerPath) slash) with
             | Some e => Some e
             | None => validateName name
             end
  end.

Definition ValidateLabelKey (key : string) : option label_error :=
  if decide (key = "") then Some LabelKeyEmpty
  else if HasPrefix key ApxyReservedPrefix then validateApxyLabelKey key
  else
    match LastIndex key slash with
    | Some idx =>
        let prefix := str_take idx key in
        let name := str_drop (idx + 1) key in
        if decide (prefix = "") then Some LabelPrefixEmpty
        else if bool_decide (LabelKeyPrefixMaxLength < String.length prefix)%nat then Some LabelPrefixTooLong
        else if negb (re_match labelKeyPrefixRegex prefix) then Some (LabelPrefixInvalid prefix)
        else validateName name
    | None => validateName key
    end.

Definition ValidateUserLabelKey (key : string) : option label_error :=
  if HasPrefix key ApxyReservedPrefix then Some (LabelKeyReserved key) else ValidateLabelKey key.

Definition ValidateLabelValue (value : string) : option label_error :=
  if bool_decide (LabelValueMaxLength < String.length value)%nat then Some LabelValueTooLong
  else if negb (bool_decide (value = "")) && negb (re_match labelValueRegex value)
  then Some (LabelValueInvalid value)
  else None.

Definition ValidateApxyLabelValue (value : string) : option label_error :=
  if bool_decide (ApxyLabelValueMaxLength < String.length value)%nat then Some ApxyValueTooLong
  else if negb (bool_decide (value = "")) && negb (re_match apxyLabelValueRegex value)
  then Some (ApxyValueInvalid value)
  else None.

Definition validateValueForKey (key value : string) : option label_error :=
  if HasPrefix key ApxyReservedPrefix then ValidateApxyLabelValue value else ValidateLabelValue value.

(** The errors a loop accumulates, with the key they are about; the nil error
    is the empty list. *)
Definition errors_of {A} (k : string) (e : option A) : list (string * A) :=
  match e with Some e => [(k, e)] | None => [] end.

Definition ValidateLabels (labels : Labels) : list (string * label_error) :=
  kv ← map_to_list labels;
  errors_of kv.1 (ValidateLabelKey kv.1) ++ errors_of kv.1 (validateValueForKey kv.1 kv.2).

Definition ValidateUserLabels (labels : Labels) : list (string * label_error) :=
  kv ← map_to_list labels;
  errors_of kv.1 (ValidateUserLabelKey kv.1) ++ errors_of kv.1 (ValidateLabelValue kv.2).

Definition ValidateUserLabelDeletionKeys (keys : list string) : list (string * label_error) :=
  k ← keys; errors_of k (ValidateUserLabelKey k).

(** ** Splitting and merging *)

Definition is_apxy (k : string) : bool := HasPrefix k ApxyReservedPrefix.

Definition SplitUserAndApxyLabels (labels : Labels) : Labels * Labels :=
  (filter (λ kv, is_apxy kv.1 = false) labels, filter (λ kv, is_apxy kv.1 = true) labels).

(** Copying one map and then writing another over it: [out[k] = v] for the
    entries of the first, then of the second. *)
Definition overlay (below above : Labels) : Labels := above ∪ below.

Definition MergeApxyAndUserLabels (user apxy : Labels) : Labels := overlay user apxy.

Definition MergeUpsertLabels (callerLabels existingLabels : Labels) : Labels :=
  let '(newUser, newApxy) := SplitUserAndApxyLabels callerLabels in
  let '(_, existingApxy) := SplitUserAndApxyLabels existingLabels in
  let mergedApxy := overlay existingApxy newApxy in
  MergeApxyAndUserLabels newUser mergedApxy.

(** ** Implicit labels *)

(** [apid.ID.Prefix] and [ApidPrefixToLabelToken]. *)
Definition ID_Prefix (id : string) : string :=
  match Index id "_" with
  | None => ""
  | Some idx => str_take (idx + 1) id
  end.

Definition ApidPrefixToLabelToken (p : string) : string := TrimSuffix p "_".

Definition implicit_key (rt leaf : string) : string :=
  ApxyReservedPrefix +:+ rt +:+ "/" +:+ ApxyImplicitSegment +:+ "/" +:+ leaf.

Definition BuildImplicitResourceLabelsForToken (rt id name namespacePath : string) : Labels :=
  if bool_decide (rt = "") || bool_decide (id = "") then ∅
  else
    let name := if decide (name = "") then id else name in
    <[implicit_key rt "id" := id]> (<[implicit_key rt "name" := name]>
      (<[implicit_key rt "ns" := namespacePath]> ∅)).

Definition BuildNamespaceImplicitResourceLabels (path : string) : Labels :=
  BuildImplicitResourceLabelsForToken NamespaceLabelToken path (NameFromPath path) path.

Definition BuildImplicitResourceLabels (id name namespacePath : string) : Labels :=
  if decide (id = "") then ∅
  else BuildImplicitResourceLabelsForToken (ApidPrefixToLabelToken (ID_Prefix id)) id name namespacePath.

(** With no implicit labels the result is a copy of [existing]. *)
Definition InjectNamespaceSelfImplicitLabels (path : string) (existing : Labels) : Labels :=
  let implicit := BuildNamespaceImplicitResourceLabels path in
  if decide (size implicit = 0%nat) then existing else overlay existing implicit.

Definition InjectSelfImplicitLabels (id name namespacePath : string) (existing : Labels) : Labels :=
  let implicit := BuildImplicitResourceLabels id name namespacePath in
  if decide (size implicit = 0%nat) then existing else overlay existing implicit.

(** ** Carry-forward *)

(** The key under which a child carries a label of its parent. *)
Definition carried_key (parentRt k : string) : string :=
  if is_apxy k then k else ApxyReservedPrefix +:+ parentRt +:+ "/" +:+ k.

(** The loop over the parent's entries, in the order visited. *)
Definition carryLoop (parentRt : string) (entries : list (string * string)) : Labels :=
  foldl (λ out kv, <[carried_key parentRt kv.1 := kv.2]> out) ∅ entries.

Definition BuildCarriedLabels (parentRt : string) (entries : list (string * string)) : Labels :=
  if bool_decide (parentRt = "") || bool_decide (length entries = 0%nat) then ∅
  else carryLoop parentRt entries.

(** A parent: its token and its stored labels in the order the loop visits
    them. *)
Record ParentCarryForward := mkParent {
  pcf_Rt : string;
  pcf_Labels : list (string * string);
}.

Definition ApplyParentCarryForward (userLabels : Labels) (parents : list ParentCarryForward) : Labels :=
  overlay (foldl (λ out p, overlay out (BuildCarriedLabels (pcf_Rt p) (pcf_Labels p))) ∅ parents) userLabels.

(** ** Label operations on table rows *)

(** The columns of a row the operations use. *)
Record Row := mkRow {
  row_name : string;
  row_namespace : string;
  row_labels : Labels;
  row_updated_at : Z;
}.

(** Setting the [labels] and [updated_at] columns. *)
Definition set_labels (row : Row) (labels : Labels) (now : Z) : Row :=
  mkRow (row_name row) (row_namespace row) labels now.

(** The rows of a table that are not deleted, by primary key. *)
Abbreviation Table := (gmap string Row).

Inductive store_error : Type :=
  | ErrNotFound
  | ErrIdRequired
  | ErrInvalidLabels (es : list (string * label_error)).

(** The result and the table after the transaction. *)
Definition tx (A : Type) : Type := Table → result store_error A * Table.

Definition putLabelsInTableTx (now : Z) (key : string) (newLabels : Labels) : tx Labels := λ t,
  match t !! key with
  | None => (Err ErrNotFound, t)
  | Some row =>
      let labels := overlay (row_labels row) newLabels in
      (Ok labels, <[key := set_labels row labels now]> t)
  end.

Definition deleteLabelsInTableTx (now : Z) (key : string) (keys : list string) : tx Labels := λ t,
  match t !! key with
  | None => (Err ErrNotFound, t)
  | Some row =>
      let labels := foldl (λ m k, delete k m) (row_labels row) keys in
      (Ok labels, <[key := set_labels row labels now]> t)
  end.

Definition replaceUserLabelsInTableTx (now : Z) (key : string) (newUserLabels : Labels) : tx Labels := λ t,
  match t !! key with
  | None => (Err ErrNotFound, t)
  | Some row =>
      let '(_, apxy) := SplitUserAndApxyLabels (row_labels row) in
      let merged := MergeApxyAndUserLabels newUserLabels apxy in
      (Ok merged, <[key := set_labels row merged now]> t)
  end.

Definition updateLabelsInTableTx (now : Z) (key : string) (labels : Labels) : tx unit := λ t,
  match t !! key with
  | None => (Err ErrNotFound, t)
  | Some row => (Ok (), <[key := set_labels row labels now]> t)
  end.

Definition updateResourceNameAndSelfLabels (now : Z) (id name : string) : tx unit := λ t,
  match t !! id with
  | None => (Err ErrNotFound, t)
  | Some row =>
      let labels := InjectSelfImplicitLabels id name (row_namespace row) (row_labels row) in
      (Ok (), <[id := mkRow name (row_namespace row) labels now]> t)
  end.

(** [fetchLabelsForCarryForward]: a missing row yields no labels. *)
Definition fetchLabelsForCarryForward (t : Table) (key : string) : Labels :=
  match t !! key with None => ∅ | Some row => row_labels row end.

(** The user-facing operations of a namespace row. *)
Definition UpdateNamespaceLabels (now : Z) (path : string) (labels : Labels) : tx Labels := λ t,
  if decide (path = "") then (Err ErrIdRequired, t)
  else match ValidateUserLabels labels with
       | [] => replaceUserLabelsInTableTx now path labels t
       | es => (Err (ErrInvalidLabels es), t)
       end.

Definition GetNamespaceLabels (path : string) : tx Labels := λ t,
  match t !! path with None => (Err ErrNotFound, t) | Some row => (Ok (row_labels row), t) end.

Definition PutNamespaceLabels (now : Z) (path : string) (labels : Labels) : tx Labels := λ t,
  if decide (path = "") then (Err ErrIdRequired, t)
  else if decide (size labels = 0%nat) then GetNamespaceLabels path t
  else match ValidateUserLabels labels with
       | [] => putLabelsInTableTx now path labels t
       | es => (Err (ErrInvalidLabels es), t)
       end.

Definition DeleteNamespaceLabels (now : Z) (path : string) (keys : list string) : tx Labels := λ t,
  if decide (path = "") then (Err ErrIdRequired, t)
  else if decide (length keys = 0%nat) then GetNamespaceLabels path t
  else match ValidateUserLabelDeletionKeys keys with
       | [] => deleteLabelsInTableTx now path keys t
       | es => (Err (ErrInvalidLabels es), t)
       end.

(** ** Tokens *)

(** One to 63 characters of a class, the first and the last alphanumeric. *)
Fixpoint last_char (a : ascii) (s : string) : ascii :=
  match s with "" => a | String b s => last_char b s end.

Definition valid_token (mid : ascii → bool) (s : string) : bool :=
  match s with
  | "" => false
  | String a s' =>
      is_alnum a && is_alnum (last_char a s') && str_forall mid s &&
      bool_decide (String.length s ≤ 63)%nat
  end.

Lemma last_char_snoc a m b : last_char a (m +:+ String b "") = b.
Proof. revert a. induction m as [|c m IH]; intros a; [done|]. rewrite str_cons_app. apply IH. Qed.

Lemma str_snoc_inv (s : string) : s = "" ∨ ∃ m b, s = m +:+ String b "".
Proof.
  induction s as [|a s [->|(m & b & ->)]]; [by left|right..].
  - by exists "", a.
  - by exists (String a m), b.
Qed.

Section tokens.
Variable mid : ascii → bool.
Hypothesis alnum_mid : ∀ a, is_alnum a = true → mid a = true.

Lemma token_spec s : re_lang (token_regex is_alnum mid 61) s ↔ valid_token mid s = true.
Proof.
  rewrite re_lang_token. split.
  - intros [(a & -> & Ha)|(a & m & b & -> & Ha & Hb & Hm & Hlen)].
    + unfold valid_token. cbn. by rewrite Ha, alnum_mid.
    + unfold valid_token. rewrite last_char_snoc, Ha, Hb. cbn [str_forall andb].
      rewrite alnum_mid, str_forall_app, Hm by done. cbn [str_forall andb].
      rewrite alnum_mid by done. cbn [andb]. apply bool_decide_eq_true.
      cbn [String.length]. rewrite str_length_app. simpl. lia.
  - destruct s as [|a s]; [done|]. unfold valid_token. intros H. bool_simpl.
    destruct (str_snoc_inv s) as [->|(m & b & ->)]; [left; by exists a|right].
    rewrite last_char_snoc in *. cbn [str_forall] in *. rewrite str_forall_app in *. bool_simpl.
    exists a, m, b. split_and!; [done..|]. cbn [String.length] in *. rewrite str_length_app in *.
    simpl in *. lia.
Qed.

Lemma valid_token_chars s : valid_token mid s = true → s ≠ "" ∧ str_forall mid s = true ∧ (String.length s ≤ 63)%nat.
Proof. destruct s as [|a s]; [done|]. unfold valid_token. intros H; by bool_simpl. Qed.

Lemma valid_token_no_char c s : mid c = false → valid_token mid s = true → no_char c s = true.
Proof. intros Hc (_ & Hs & _)%valid_token_chars. by apply no_char_class with mid. Qed.
End tokens.

Lemma alnum_name_char a : is_alnum a = true → is_name_char a = true.
Proof. unfold is_name_char. by intros ->. Qed.
Lemma alnum_dns_char a : is_alnum a = true → is_dns_char a = true.
Proof. unfold is_dns_char. by intros ->. Qed.

Definition valid_name : string → bool := valid_token is_name_char.
Definition dns_label : string → bool := valid_token is_dns_char.

Lemma single_alnum_token mid a : mid a = true → is_alnum a = true → valid_token mid (String a "") = true.
Proof. intros Hm Ha. unfold valid_token. simpl. by rewrite Ha, Hm. Qed.

Lemma validateName_spec name : validateName name = None ↔ valid_name name = true.
Proof.
  assert (re_match labelKeyNameRegex name = true ↔ valid_name name = true) as Hre.
  { rewrite re_match_spec. unfold labelKeyNameRegex, name_token. rewrite re_lang_alt, token_spec by apply alnum_name_char.
    rewrite re_lang_chr. unfold valid_name. split; [|tauto]. intros [?|(a & -> & Ha)]; [done|].
    by apply single_alnum_token; [apply alnum_name_char|]. }
  unfold validateName. destruct (re_match labelKeyNameRegex name) eqn:Hm.
  - destruct Hre as [Hre _]. rewrite Hre by done. pose proof (Hre eq_refl) as Hv.
    apply valid_token_chars in Hv as (Hne & _ & Hlen).
    rewrite decide_False by done. rewrite bool_decide_false; [done|]. unfold LabelKeyNameMaxLength. lia.
  - destruct (valid_name name); [naive_solver|]. split; [|done].
    by repeat case_match.
Qed.

Definition valid_apxy_segment (s : string) : bool := dns_label s || bool_decide (s = "-").

Lemma apxyPathSegmentRegex_spec s : re_match apxyPathSegmentRegex s = true ↔ valid_apxy_segment s = true.
Proof.
  rewrite re_match_spec. unfold apxyPathSegmentRegex, valid_apxy_segment, dns_token.
  rewrite re_lang_alt, token_spec, re_lang_lit by apply alnum_dns_char.
  by rewrite orb_true_iff, bool_decide_eq_true.
Qed.

Lemma valid_apxy_segment_nonempty s : valid_apxy_segment s = true → s ≠ "".
Proof. by intros H ->. Qed.

Lemma valid_apxy_segment_no_slash s : valid_apxy_segment s = true → no_char slash s = true.
Proof.
  unfold valid_apxy_segment. rewrite orb_true_iff, bool_decide_eq_true.
  intros [H| ->]; [|done]. by apply (valid_token_no_char is_dns_char slash s).
Qed.

Lemma validateSegments_spec segs :
  validateSegments segs = None ↔ Forall (λ s, valid_apxy_segment s = true) segs.
Proof.
  induction segs as [|seg segs IH]; simpl; [by split|].
  rewrite Forall_cons, <-IH, <-apxyPathSegmentRegex_spec. case_decide as Hs.
  - subst. split; [done|]. by intros [H _].
  - destruct (re_match apxyPathSegmentRegex seg); simpl; naive_solver.
Qed.

(** The prefix pattern: DNS labels joined by dots. *)
Lemma labelKeyPrefixRegex_spec s :
  re_match labelKeyPrefixRegex s = true ↔
  ∃ ls, ls ≠ [] ∧ Forall (λ l, dns_label l = true) ls ∧ s = Join ls ".".
Proof.
  rewrite re_match_spec. unfold labelKeyPrefixRegex. rewrite re_lang_seq. split.
  - intros (s1 & s2 & -> & Hstar & Hlast). apply (token_spec is_dns_char alnum_dns_char) in Hlast.
    remember (RStar _) as q eqn:Hq. induction Hstar as [| | | | |r|r t1 t2 H1 _ H2 IH]; simplify_eq.
    + exists [s2]. split_and!; [done|by repeat constructor|by rewrite str_nil_app].
    + apply re_lang_seq in H1 as (d & dot & -> & Hd & Hdot). apply (re_lang_lit ".") in Hdot as ->.
      apply (token_spec is_dns_char alnum_dns_char) in Hd.
      destruct (IH eq_refl) as (ls & Hne & Hls & Heq). exists (d :: ls).
      split_and!; [done|by constructor|]. rewrite Join_cons, <-Heq by done.
      by rewrite !str_app_assoc.
  - intros (ls & Hne & Hls & ->). induction Hls as [|d ls Hd Hls IH]; [done|].
    apply (token_spec is_dns_char alnum_dns_char) in Hd. destruct ls as [|d' ls].
    + exists "", d. split_and!; [done|constructor|done].
    + destruct IH as (s1 & s2 & Heq & H1 & H2); [done|].
      exists ((d +:+ ".") +:+ s1), s2. split_and!; [|constructor; [|done]|done].
      * rewrite Join_cons, Heq by done. by rewrite !str_app_assoc.
      * apply re_lang_seq. exists d, ".". split_and!; [done|done|by apply (re_lang_lit ".")].
Qed.

(** ** The two key grammars *)

Lemma str_drop_S (a b : string) c : str_drop (String.length a + 1) (a +:+ String c b) = b.
Proof.
  replace (String.length a + 1)%nat with (String.length (a +:+ String c ""))
    by (rewrite str_length_app; simpl; lia).
  replace (a +:+ String c b) with ((a +:+ String c "") +:+ b) by (by rewrite str_app_assoc).
  apply str_drop_app.
Qed.

(** The text around the last slash. *)
Lemma LastIndex_split (key : string) c idx :
  LastIndex key c = Some idx →
  ∃ prefix name, key = prefix +:+ String c name ∧ no_char c name = true ∧
    str_take idx key = prefix ∧ str_drop (idx + 1) key = name.
Proof.
  intros H. destruct (LastIndex_Some key c idx H) as [Heq Hn].
  exists (str_take idx key), (str_drop (idx + 1) key). rewrite Nat.add_1_r. by split_and!.
Qed.

Definition plain_key (k : string) : Prop :=
  valid_name k = true ∨
  ∃ ls name, ls ≠ [] ∧ Forall (λ l, dns_label l = true) ls ∧
    (String.length (Join ls ".") ≤ LabelKeyPrefixMaxLength)%nat ∧ valid_name name = true ∧
    k = Join ls "." +:+ String slash name.

Definition apxy_key (k : string) : Prop :=
  ∃ segs name, segs ≠ [] ∧ Forall (λ s, valid_apxy_segment s = true) segs ∧
    (String.length (Join ("apxy" :: segs) slash) ≤ LabelKeyPrefixMaxLength)%nat ∧
    valid_name name = true ∧ k = Join ("apxy" :: segs) slash +:+ String slash name.

Lemma valid_name_no_slash name : valid_name name = true → no_char slash name = true.
Proof. by apply (valid_token_no_char is_name_char slash name). Qed.

Lemma ValidateLabelKey_plain k :
  is_apxy k = false → ValidateLabelKey k = None ↔ plain_key k.
Proof.
  intros Ha. unfold ValidateLabelKey, plain_key. unfold is_apxy in Ha. rewrite Ha.
  case_decide as Hk.
  { subst. split; [done|]. intros [?|(ls & name & _ & _ & _ & _ & Heq)]; [done|].
    symmetry in Heq. by apply str_app_nil_inv in Heq as [_ ?]. }
  destruct (LastIndex k slash) as [idx|] eqn:Hi.
  - destruct (LastIndex_split _ _ _ Hi) as (prefix & name & -> & Hn & -> & ->). split.
    + case_decide as Hp; [done|]. case_bool_decide as Hlen; [done|].
      destruct (re_match labelKeyPrefixRegex prefix) eqn:Hre; cbn [negb]; [|done].
      intros Hv%validateName_spec. right. apply labelKeyPrefixRegex_spec in Hre as (ls & ? & ? & ->).
      exists ls, name. split_and!; [done..| |done|done]. lia.
    + intros [Hv%valid_name_no_slash|(ls & name' & Hne & Hls & Hlen & Hv & Heq)].
      { by rewrite no_char_app, no_char_cons_eq, andb_false_r in Hv. }
      assert (prefix = Join ls "." ∧ name = name') as [-> ->].
      { assert (no_char slash name' = true) as Hn' by (by apply valid_name_no_slash).
        pose proof Hi as Hi'. rewrite Heq, (LastIndex_app _ _ _ Hn') in Hi'.
        rewrite (LastIndex_app _ _ _ Hn) in Hi. injection Hi as <-. injection Hi' as Hl.
        pose proof (str_take_app prefix (String slash name)) as H1.
        pose proof (str_take_app (Join ls ".") (String slash name')) as H2.
        rewrite Heq, <-Hl, H2 in H1. subst prefix. split; [done|].
        pose proof (str_drop_S (Join ls ".") name slash) as H3.
        by rewrite Heq, str_drop_S in H3. }
      assert (re_match labelKeyPrefixRegex (Join ls ".") = true) as Hre
        by (apply labelKeyPrefixRegex_spec; by exists ls).
      rewrite decide_False by (intros Hj; rewrite Hj in Hre; vm_compute in Hre; done).
      rewrite bool_decide_false by lia. rewrite Hre. cbn [negb]. by apply validateName_spec.
  - apply LastIndex_None in Hi. rewrite validateName_spec. split; [by left|].
    intros [?|(ls & name & _ & _ & _ & _ & ->)]; [done|].
    by rewrite no_char_app, no_char_cons_eq, andb_false_r in Hi.
Qed.

(** A reserved key splits into [apxy], inner segments and a name. *)
Lemma apxy_prefix_split r prefix name :
  no_char slash name = true →
  ApxyReservedPrefix +:+ r = prefix +:+ String slash name →
  prefix = "apxy" ∨
  ∃ q, q ≠ [] ∧ prefix = Join ("apxy" :: q) slash ∧ Split (Join q slash) slash = q.
Proof.
  intros Hn Heq. apply (f_equal (λ s, Split s slash)) in Heq.
  change (ApxyReservedPrefix +:+ r) with ("apxy" +:+ String slash r) in Heq.
  rewrite !Split_app, (Split_no_char name) in Heq by done.
  change (Split "apxy" slash) with ["apxy"] in Heq.
  pose proof (Join_Split prefix slash) as Hj.
  destruct (Split prefix slash) as [|x q] eqn:Hsp; [by destruct (Split_nonempty prefix slash)|].
  injection Heq as <- Hr. destruct q as [|y q]; [by left|]. right.
  exists (y :: q). split_and!; [done|done|].
  rewrite Join_cons in Hj by done. rewrite <-Hj, Split_app in Hsp. by injection Hsp.
Qed.

Lemma ValidateLabelKey_apxy k :
  is_apxy k = true → ValidateLabelKey k = None ↔ apxy_key k.
Proof.
  intros Ha. unfold ValidateLabelKey, apxy_key. pose proof Ha as Ha'. unfold is_apxy in Ha'.
  apply HasPrefix_spec in Ha as [r Hr]. rewrite decide_False by (by intros ->). rewrite Ha'.
  unfold validateApxyLabelKey. split.
  - destruct (LastIndex k slash) as [idx|] eqn:Hi; [|done].
    destruct (LastIndex_split _ _ _ Hi) as (prefix & name & Hk & Hn & -> & ->).
    case_bool_decide as Hlen; [done|]. rewrite Hr in Hk.
    destruct (apxy_prefix_split r prefix name Hn Hk) as [->|(q & Hq & -> & Hsp)]; [done|].
    rewrite Join_cons by done. rewrite TrimPrefix_app. rewrite decide_False by done.
    cbn [str_drop]. rewrite Hsp. destruct (validateSegments q) eqn:Hs; [done|].
    intros Hv%validateName_spec. apply validateSegments_spec in Hs. exists q, name.
    split_and!; [done..| |done|]; rewrite Join_cons in * by done; [lia|congruence].
  - intros (segs & name & Hne & Hsegs & Hlen & Hv & ->).
    rewrite LastIndex_app by (by apply valid_name_no_slash).
    rewrite str_take_app, str_drop_S. rewrite bool_decide_false by lia.
    rewrite Join_cons, TrimPrefix_app by done. rewrite decide_False by done. cbn [str_drop].
    rewrite Split_Join; [|done|].
    + rewrite (proj2 (validateSegments_spec segs)) by done. by apply validateName_spec.
    + eapply Forall_impl; [exact Hsegs|]. intros s. apply valid_apxy_segment_no_slash.
Qed.

Lemma ValidateUserLabelKey_spec k : ValidateUserLabelKey k = None ↔ is_apxy k = false ∧ plain_key k.
Proof.
  unfold ValidateUserLabelKey. change (HasPrefix k ApxyReservedPrefix) with (is_apxy k).
  destruct (is_apxy k) eqn:Ha; [naive_solver|]. rewrite ValidateLabelKey_plain by done. tauto.
Qed.

Lemma ValidateUserLabels_spec (labels : Labels) :
  ValidateUserLabels labels = [] ↔
  map_Forall (λ k v, ValidateUserLabelKey k = None ∧ ValidateLabelValue v = None) labels.
Proof.
  unfold ValidateUserLabels. rewrite map_Forall_to_list.
  induction (map_to_list labels) as [|[k v] l IH]; simpl.
  { split; [intros _; constructor|done]. }
  rewrite Forall_cons. cbn [uncurry]. rewrite <-IH.
  destruct (ValidateUserLabelKey k), (ValidateLabelValue v); simpl; naive_solver.
Qed.

Lemma ValidateLabels_spec (labels : Labels) :
  ValidateLabels labels = [] ↔
  map_Forall (λ k v, ValidateLabelKey k = None ∧ validateValueForKey k v = None) labels.
Proof.
  unfold ValidateLabels. rewrite map_Forall_to_list.
  induction (map_to_list labels) as [|[k v] l IH]; simpl.
  { split; [intros _; constructor|done]. }
  rewrite Forall_cons. cbn [uncurry]. rewrite <-IH.
  destruct (ValidateLabelKey k), (validateValueForKey k v); simpl; naive_solver.
Qed.

Lemma ValidateUserLabelDeletionKeys_spec keys :
  ValidateUserLabelDeletionKeys keys = [] ↔ Forall (λ k, ValidateUserLabelKey k = None) keys.
Proof.
  unfold ValidateUserLabelDeletionKeys. induction keys as [|k keys IH]; simpl.
  { split; [intros _; constructor|done]. }
  rewrite Forall_cons, <-IH. destruct (ValidateUserLabelKey k); simpl; naive_solver.
Qed.

(** ** Lookups in split and merged maps *)

Lemma split_user_lookup (l : Labels) k : (SplitUserAndApxyLabels l).1 !! k = if is_apxy k then None else l !! k.
Proof.
  simpl. destruct (is_apxy k) eqn:Hk.
  - apply map_lookup_filter_None. right. intros v _ Hv. simpl in Hv. congruence.
  - destruct (l !! k) as [v|] eqn:Hl.
    + apply map_lookup_filter_Some. by split.
    + apply map_lookup_filter_None. by left.
Qed.

Lemma split_apxy_lookup (l : Labels) k : (SplitUserAndApxyLabels l).2 !! k = if is_apxy k then l !! k else None.
Proof.
  simpl. destruct (is_apxy k) eqn:Hk.
  - destruct (l !! k) as [v|] eqn:Hl.
    + apply map_lookup_filter_Some. by split.
    + apply map_lookup_filter_None. by left.
  - apply map_lookup_filter_None. right. intros v _ Hv. simpl in Hv. congruence.
Qed.

Lemma overlay_lookup below above k :
  overlay below above !! k = match above !! k with Some v => Some v | None => below !! k end.
Proof.
  unfold overlay. destruct (above !! k) as [v|] eqn:Ha; [by apply lookup_union_Some_l|].
  by apply lookup_union_r.
Qed.

Lemma MergeUpsertLabels_lookup caller existing k :
  MergeUpsertLabels caller existing !! k =
  if is_apxy k then match caller !! k with Some v => Some v | None => existing !! k end
  else caller !! k.
Proof.
  unfold MergeUpsertLabels, MergeApxyAndUserLabels.
  pose proof (split_user_lookup caller k) as H1. pose proof (split_apxy_lookup caller k) as H2.
  pose proof (split_apxy_lookup existing k) as H3.
  destruct (SplitUserAndApxyLabels caller) as [u a], (SplitUserAndApxyLabels existing) as [u' a'].
  simpl in *. rewrite !overlay_lookup, H1, H2, H3. destruct (is_apxy k); [|done].
  by destruct (caller !! k), (existing !! k).
Qed.

Lemma Split_Merge l : MergeApxyAndUserLabels (SplitUserAndApxyLabels l).1 (SplitUserAndApxyLabels l).2 = l.
Proof.
  apply map_eq. intros k. unfold MergeApxyAndUserLabels.
  rewrite overlay_lookup, split_user_lookup, split_apxy_lookup.
  destruct (is_apxy k); [|done]. by destruct (l !! k).
Qed.

(** ** User operations and the system labels *)

(** The reserved part of the labels of a row, if the row exists. *)
Definition system_labels (t : Table) (key : string) : option Labels :=
  (λ row, (SplitUserAndApxyLabels (row_labels row)).2) <$> t !! key.

(** Every row's labels pass [Labels.Validate]. *)
Definition table_valid (t : Table) : Prop := map_Forall (λ _ row, ValidateLabels (row_labels row) = []) t.

Inductive user_op : Type :=
  | OpUpdate (now : Z) (path : string) (labels : Labels)
  | OpPut (now : Z) (path : string) (labels : Labels)
  | OpDelete (now : Z) (path : string) (keys : list string).

Definition run_op (op : user_op) : tx Labels :=
  match op with
  | OpUpdate now path labels => UpdateNamespaceLabels now path labels
  | OpPut now path labels => PutNamespaceLabels now path labels
  | OpDelete now path keys => DeleteNamespaceLabels now path keys
  end.

(** The labels a row gets, when the operation writes it. *)
Definition op_write (op : user_op) (old : Labels) : option (string * Labels) :=
  match op with
  | OpUpdate _ path labels =>
      if bool_decide (path = "") then None
      else match ValidateUserLabels labels with
           | [] => Some (path, MergeApxyAndUserLabels labels (SplitUserAndApxyLabels old).2)
           | _ => None
           end
  | OpPut _ path labels =>
      if bool_decide (path = "") || bool_decide (size labels = 0%nat) then None
      else match ValidateUserLabels labels with
           | [] => Some (path, overlay old labels)
           | _ => None
           end
  | OpDelete _ path keys =>
      if bool_decide (path = "") || bool_decide (length keys = 0%nat) then None
      else match ValidateUserLabelDeletionKeys keys with
           | [] => Some (path, foldl (λ m k, delete k m) old keys)
           | _ => None
           end
  end.

Definition op_path (op : user_op) : string :=
  match op with OpUpdate _ path _ | OpPut _ path _ | OpDelete _ path _ => path end.

Definition op_now (op : user_op) : Z :=
  match op with OpUpdate now _ _ | OpPut now _ _ | OpDelete now _ _ => now end.

Lemma run_op_table op t :
  (run_op op t).2 =
  match t !! op_path op with
  | None => t
  | Some row =>
      match op_write op (row_labels row) with
      | None => t
      | Some (_, labels) => <[op_path op := set_labels row labels (op_now op)]> t
      end
  end.
Proof.
  destruct op as [now path labels|now path labels|now path keys]; simpl;
    unfold UpdateNamespaceLabels, PutNamespaceLabels, DeleteNamespaceLabels, GetNamespaceLabels,
      replaceUserLabelsInTableTx, putLabelsInTableTx, deleteLabelsInTableTx;
    (case_decide as Hp;
     [rewrite bool_decide_true by done; by destruct (t !! path)|rewrite bool_decide_false by done]);
    cbn [orb].
  - destruct (ValidateUserLabels labels); by destruct (t !! path).
  - case_decide as Hs; [rewrite bool_decide_true by done; by destruct (t !! path)|].
    rewrite bool_decide_false by done. destruct (ValidateUserLabels labels); by destruct (t !! path).
  - case_decide as Hs; [rewrite bool_decide_true by done; by destruct (t !! path)|].
    rewrite bool_decide_false by done.
    destruct (ValidateUserLabelDeletionKeys keys); by destruct (t !! path).
Qed.

Lemma foldl_delete_lookup keys (m : Labels) k :
  (foldl (λ m k, delete k m) m keys) !! k = if bool_decide (k ∈ keys) then None else m !! k.
Proof.
  revert m. induction keys as [|k' keys IH]; intros m; simpl; [done|]. rewrite IH.
  destruct (decide (k = k')) as [->|Hne].
  - rewrite lookup_delete_eq. rewrite (bool_decide_true (k' ∈ k' :: keys)) by set_solver.
    by case_bool_decide.
  - rewrite lookup_delete_ne by done.
    rewrite (bool_decide_ext (k ∈ k' :: keys) (k ∈ keys)) by set_solver. done.
Qed.

Lemma user_key_not_apxy k : ValidateUserLabelKey k = None → is_apxy k = false.
Proof. by intros [? _]%ValidateUserLabelKey_spec. Qed.

(** A user write keeps every reserved entry, and keeps the labels valid. *)
Lemma op_write_lookup op old path labels k :
  op_write op old = Some (path, labels) → is_apxy k = true → labels !! k = old !! k.
Proof.
  intros Hw Hk. destruct op as [now p ls|now p ls|now p keys]; simpl in Hw;
    repeat (case_bool_decide; simplify_eq/=).
  - destruct (ValidateUserLabels ls) eqn:Hv; simplify_eq. apply ValidateUserLabels_spec in Hv.
    unfold MergeApxyAndUserLabels. rewrite overlay_lookup.
    change (filter _ old) with (SplitUserAndApxyLabels old).2. rewrite split_apxy_lookup, Hk.
    destruct (old !! k); [done|]. destruct (ls !! k) as [v|] eqn:Hl; [|done].
    apply Hv in Hl as [Hu _]. apply user_key_not_apxy in Hu. congruence.
  - destruct (ValidateUserLabels ls) eqn:Hv; simplify_eq. apply ValidateUserLabels_spec in Hv.
    rewrite overlay_lookup. destruct (ls !! k) as [v|] eqn:Hl; [|done].
    apply Hv in Hl as [Hu _]. apply user_key_not_apxy in Hu. congruence.
  - destruct (ValidateUserLabelDeletionKeys keys) eqn:Hv; simplify_eq.
    apply ValidateUserLabelDeletionKeys_spec in Hv. rewrite foldl_delete_lookup.
    case_bool_decide as Hin; [|done]. rewrite Forall_forall in Hv.
    apply Hv, user_key_not_apxy in Hin. congruence.
Qed.

Lemma user_entry_valid k v :
  ValidateUserLabelKey k = None → ValidateLabelValue v = None →
  ValidateLabelKey k = None ∧ validateValueForKey k v = None.
Proof.
  unfold ValidateUserLabelKey, validateValueForKey. by destruct (HasPrefix k ApxyReservedPrefix).
Qed.

Lemma overlay_valid below above :
  ValidateLabels below = [] → ValidateLabels above = [] → ValidateLabels (overlay below above) = [].
Proof.
  rewrite !ValidateLabels_spec. intros Hb Ha k v. rewrite overlay_lookup.
  destruct (above !! k) as [w|] eqn:Hk; [intros [= ->]; by apply Ha|apply Hb].
Qed.

Lemma user_labels_valid labels : ValidateUserLabels labels = [] → ValidateLabels labels = [].
Proof.
  rewrite ValidateUserLabels_spec, ValidateLabels_spec. intros H k v Hk.
  destruct (H k v Hk). by apply user_entry_valid.
Qed.

Lemma op_write_valid op old path labels :
  op_write op old = Some (path, labels) → ValidateLabels old = [] → ValidateLabels labels = [].
Proof.
  intros Hw Hold. destruct op as [now p ls|now p ls|now p keys]; simpl in Hw;
    repeat (case_bool_decide; simplify_eq/=).
  - destruct (ValidateUserLabels ls) eqn:Hv; simplify_eq. apply overlay_valid; [by apply user_labels_valid|].
    rewrite ValidateLabels_spec in *. intros k v Hk.
    change (filter _ old) with (SplitUserAndApxyLabels old).2 in Hk. rewrite split_apxy_lookup in Hk.
    destruct (is_apxy k); [by apply Hold|done].
  - destruct (ValidateUserLabels ls) eqn:Hv; simplify_eq.
    apply overlay_valid; [done|by apply user_labels_valid].
  - destruct (ValidateUserLabelDeletionKeys keys) eqn:Hv; simplify_eq.
    rewrite ValidateLabels_spec in *. intros k v. rewrite foldl_delete_lookup.
    case_bool_decide; [done|apply Hold].
Qed.

Lemma run_op_preserves op t key :
  system_labels (run_op op t).2 key = system_labels t key ∧ (table_valid t → table_valid (run_op op t).2).
Proof.
  rewrite run_op_table. destruct (t !! op_path op) as [row|] eqn:Ht; [|done].
  destruct (op_write op (row_labels row)) as [[p labels]|] eqn:Hw; [|done]. split.
  - unfold system_labels. destruct (decide (key = op_path op)) as [->|Hne].
    + rewrite lookup_insert_eq, Ht. cbn [fmap option_fmap option_map row_labels set_labels]. f_equal.
      apply map_eq. intros k. rewrite !split_apxy_lookup. destruct (is_apxy k) eqn:Hk; [|done].
      by eapply op_write_lookup.
    + by rewrite lookup_insert_ne.
  - intros Hv. apply map_Forall_insert_2; [|done]. simpl. eapply op_write_valid; [done|].
    by apply (Hv (op_path op)).
Qed.

(** The table after a sequence of user operations. *)
Definition run_ops (ops : list user_op) (t : Table) : Table := foldl (λ t op, (run_op op t).2) t ops.

(** ** Carry-forward *)

Lemma carryLoop_lookup_gen rt entries (m : Labels) k v :
  NoDup (map (λ kv, carried_key rt kv.1) entries) →
  (foldl (λ out kv, <[carried_key rt kv.1 := kv.2]> out) m entries) !! k = Some v ↔
  (∃ k0, (k0, v) ∈ entries ∧ carried_key rt k0 = k) ∨
  (¬ (k ∈ map (λ kv : string * string, carried_key rt kv.1) entries) ∧ m !! k = Some v).
Proof.
  revert m. induction entries as [|[k1 v1] entries IH]; intros m Hnd; simpl.
  { split; [intros H; right; split; [set_solver|done]|]. intros [(k0 & H & _)|[_ H]]; [set_solver|done]. }
  inversion Hnd as [|?? Hnin Hnd']; subst. simpl in Hnin. rewrite IH by done.
  setoid_rewrite elem_of_cons. split.
  - intros [(k0 & Hin & Hk)|[Hnk Hm]]; [left; by exists k0; auto|].
    destruct (decide (carried_key rt k1 = k)) as [<-|Hne].
    + rewrite lookup_insert_eq in Hm. injection Hm as ->. left. exists k1. by auto.
    + rewrite lookup_insert_ne in Hm by done. right. split; [|done]. intros [?|?]; [congruence|done].
  - intros [(k0 & [[= -> ->]|Hin] & Hk)|[Hnk Hm]].
    + right. subst k. split; [done|]. by rewrite lookup_insert_eq.
    + left. by exists k0.
    + right. split; [tauto|]. rewrite lookup_insert_ne; [done|]. intros Heq. apply Hnk. by left.
Qed.

(** Two entries of the parent end up under the same key of the child. *)
Definition carry_collision (rt : string) (entries : list (string * string)) : Prop :=
  ¬ NoDup (map (λ kv : string * string, carried_key rt kv.1) entries).

Lemma BuildCarriedLabels_lookup rt entries k v :
  rt ≠ "" → ¬ carry_collision rt entries →
  BuildCarriedLabels rt entries !! k = Some v ↔ ∃ k0, (k0, v) ∈ entries ∧ carried_key rt k0 = k.
Proof.
  intros Hrt Hc. apply dec_stable in Hc. unfold BuildCarriedLabels, carryLoop.
  rewrite bool_decide_false by done. cbn [orb]. case_bool_decide as Hlen.
  - apply nil_length_inv in Hlen as ->. rewrite lookup_empty. split; [done|]. set_solver.
  - rewrite carryLoop_lookup_gen by done. rewrite lookup_empty. naive_solver.
Qed.

Lemma carried_key_apxy rt k : is_apxy (carried_key rt k) = true.
Proof.
  unfold carried_key. destruct (is_apxy k) eqn:Hk; [done|]. apply HasPrefix_app.
Qed.

Lemma carryLoop_apxy rt entries (m : Labels) k :
  map_Forall (λ k _, is_apxy k = true) m →
  is_Some ((foldl (λ out kv, <[carried_key rt kv.1 := kv.2]> out) m entries) !! k) → is_apxy k = true.
Proof.
  revert m. induction entries as [|[k1 v1] entries IH]; intros m Hm; simpl.
  { intros [v Hk]. by apply (Hm k v). }
  apply IH. apply map_Forall_insert_2; [apply carried_key_apxy|done].
Qed.

Lemma BuildCarriedLabels_apxy rt entries k :
  is_Some (BuildCarriedLabels rt entries !! k) → is_apxy k = true.
Proof.
  unfold BuildCarriedLabels, carryLoop. case_match; [rewrite lookup_empty; by intros [??]|].
  apply carryLoop_apxy. apply map_Forall_empty.
Qed.

(** The labels inherited from the parents, the later parent winning. *)
Definition inherited (parents : list ParentCarryForward) : Labels :=
  foldl (λ out p, overlay out (BuildCarriedLabels (pcf_Rt p) (pcf_Labels p))) ∅ parents.

Lemma inherited_snoc parents p :
  inherited (parents ++ [p]) = overlay (inherited parents) (BuildCarriedLabels (pcf_Rt p) (pcf_Labels p)).
Proof. unfold inherited. by rewrite foldl_app. Qed.

Lemma inherited_apxy parents k : is_Some (inherited parents !! k) → is_apxy k = true.
Proof.
  induction parents as [|p parents IH] using rev_ind.
  { unfold inherited. simpl. rewrite lookup_empty. by intros [??]. }
  rewrite inherited_snoc, overlay_lookup.
  destruct (BuildCarriedLabels _ _ !! k) eqn:Hb; [|done]. intros _.
  eapply BuildCarriedLabels_apxy. by rewrite Hb.
Qed.

(** ** Implicit labels *)

Lemma implicit_labels_nonempty rt id name ns :
  rt ≠ "" → id ≠ "" → size (BuildImplicitResourceLabelsForToken rt id name ns) ≠ 0%nat.
Proof.
  intros Hrt Hid. unfold BuildImplicitResourceLabelsForToken. rewrite !bool_decide_false by done. simpl.
  intros H%map_size_empty_inv. apply (f_equal (lookup (implicit_key rt "id"))) in H.
  by rewrite lookup_insert_eq, lookup_empty in H.
Qed.

Lemma implicit_key_inj rt l1 l2 : implicit_key rt l1 = implicit_key rt l2 → l1 = l2.
Proof.
  unfold implicit_key. intros H.
  assert (∀ a b c : string, a +:+ b = a +:+ c → b = c) as Hinj.
  { intros a b c. induction a as [|x a IH]; [done|]. rewrite !str_cons_app. intros [= ?]. auto. }
  by repeat apply Hinj in H.
Qed.

Lemma implicit_labels_lookup rt id name ns :
  rt ≠ "" → id ≠ "" →
  let ls := BuildImplicitResourceLabelsForToken rt id name ns in
  ls !! implicit_key rt "id" = Some id ∧
  ls !! implicit_key rt "name" = Some (if decide (name = "") then id else name) ∧
  ls !! implicit_key rt "ns" = Some ns ∧
  (∀ k, (∀ leaf, k ≠ implicit_key rt leaf) → ls !! k = None).
Proof.
  intros Hrt Hid ls. unfold ls, BuildImplicitResourceLabelsForToken.
  rewrite !bool_decide_false by done. cbn [orb].
  assert (∀ a b, a ≠ b → implicit_key rt a ≠ implicit_key rt b) as Hne.
  { intros a b Hab ?%implicit_key_inj. done. }
  split_and!.
  - by rewrite lookup_insert_eq.
  - rewrite lookup_insert_ne by (by apply Hne). by rewrite lookup_insert_eq.
  - rewrite !lookup_insert_ne by (by apply Hne). by rewrite lookup_insert_eq.
  - intros k Hk. rewrite !lookup_insert_ne by (intros Heq; by apply (Hk _ (eq_sym Heq))). done.
Qed.

Lemma apxy_key_is_apxy k : apxy_key k → is_apxy k = true.
Proof.
  intros (segs & name & Hne & _ & _ & _ & ->). rewrite Join_cons by done.
  apply HasPrefix_spec. exists (Join segs slash +:+ String slash name). by rewrite !str_app_assoc.
Qed.

(** ** Properties *)

(** A label key is accepted exactly when it has one of the two documented
    forms: [name] or [prefix/name] with a DNS-subdomain prefix, or
    [apxy/seg/.../name] with at least one inner segment, where names have 1 to
    63 characters with alphanumeric ends and the part before the last slash at
    most 253; the user-facing check accepts exactly those outside the reserved
    namespace. *)
Theorem label_key_grammar k :
  (ValidateLabelKey k = None ↔ (is_apxy k = false ∧ plain_key k) ∨ apxy_key k) ∧
  (ValidateUserLabelKey k = None ↔ is_apxy k = false ∧ plain_key k).
Proof.
  split; [|apply ValidateUserLabelKey_spec]. destruct (is_apxy k) eqn:Hk.
  - rewrite ValidateLabelKey_apxy by done. split; [by right|]. by intros [[? _]|?].
  - rewrite ValidateLabelKey_plain by done. split; [by left|]. intros [[_ ?]|H%apxy_key_is_apxy]; [done|congruence].
Qed.

(** Splitting labels into their user and reserved parts and merging the
    parts gives the labels back, and an upsert keeps, for every key, the
    caller's user entries only, and for a reserved key the caller's entry if
    there is one and otherwise the stored one. *)
Theorem upsert_merges_labels (l caller existing : Labels) :
  (let '(user, apxy) := SplitUserAndApxyLabels l in MergeApxyAndUserLabels user apxy) = l ∧
  ∀ k, MergeUpsertLabels caller existing !! k =
       if is_apxy k then match caller !! k with Some v => Some v | None => existing !! k end
       else caller !! k.
Proof.
  split; [|apply MergeUpsertLabels_lookup].
  pose proof (Split_Merge l) as H. by destruct (SplitUserAndApxyLabels l).
Qed.

(** No sequence of user label operations changes a reserved label of any
    row, or creates or removes rows, and every operation keeps stored labels
    valid. *)
Theorem user_operations_keep_system_labels ops t key :
  system_labels (run_ops ops t) key = system_labels t key ∧
  (table_valid t → table_valid (run_ops ops t)).
Proof.
  unfold run_ops. revert t. induction ops as [|op ops IH]; intros t; simpl; [done|].
  destruct (IH (run_op op t).2) as [IH1 IH2]. destruct (run_op_preserves op t key) as [H1 H2].
  split; [congruence|auto].
Qed.

Lemma user_operations_keep_system_labels_witness :
  table_valid (run_ops [OpPut 1 "root" {["team" := "a"]}; OpDelete 2 "root" ["team"]]
                 {["root" := mkRow "" "root" {["apxy/ns/-/id" := "root"]} 0]}).
Proof.
  apply (user_operations_keep_system_labels
    [OpPut 1 "root" {["team" := "a"]}; OpDelete 2 "root" ["team"]]
    {["root" := mkRow "" "root" {["apxy/ns/-/id" := "root"]} 0]} "root").
  intros key row Hrow. apply lookup_singleton_Some in Hrow as [_ <-]. vm_compute. reflexivity.
Defined.

(** When no two entries of the parent collide, the labels a child carries
    are exactly the parent's entries, reserved ones under their own key and
    user ones under [apxy/<rt>/<key>], whatever order the entries are visited
    in; the composed labels of a resource hold its own labels, its own
    identity labels over anything inherited, and every other inherited label
    is reserved. *)
Theorem carry_forward_exact rt entries entries' id name ns user parents :
  rt ≠ "" → entries ≡ₚ entries' → ¬ carry_collision rt entries →
  ApidPrefixToLabelToken (ID_Prefix id) ≠ "" →
  map_Forall (λ k _, is_apxy k = false) user →
  BuildCarriedLabels rt entries = BuildCarriedLabels rt entries' ∧
  (∀ k v, BuildCarriedLabels rt entries !! k = Some v ↔
          ∃ k0, (k0, v) ∈ entries ∧ carried_key rt k0 = k) ∧
  let child := InjectSelfImplicitLabels id name ns (ApplyParentCarryForward user parents) in
  child !! implicit_key (ApidPrefixToLabelToken (ID_Prefix id)) "id" = Some id ∧
  child !! implicit_key (ApidPrefixToLabelToken (ID_Prefix id)) "ns" = Some ns ∧
  (∀ k, is_apxy k = false → child !! k = user !! k).
Proof.
  intros Hrt Hperm Hc Htok Huser.
  assert (¬ carry_collision rt entries') as Hc'.
  { unfold carry_collision in *. by rewrite <-Hperm. }
  assert (id ≠ "") as Hne by (intros ->; done).
  set (tok := ApidPrefixToLabelToken (ID_Prefix id)) in *.
  destruct (implicit_labels_lookup tok id name ns Htok Hne) as (H1 & _ & H3 & H4).
  split_and!; [|by intros; apply BuildCarriedLabels_lookup|].
  - apply map_eq. intros k. apply option_eq. intros v.
    rewrite !BuildCarriedLabels_lookup by done. by setoid_rewrite Hperm.
  - unfold InjectSelfImplicitLabels, BuildImplicitResourceLabels.
    rewrite !(decide_False (P := id = "")) by done. fold tok. rewrite decide_False by (by apply implicit_labels_nonempty).
    split_and!; [by rewrite overlay_lookup, H1|by rewrite overlay_lookup, H3|].
    intros k Hk. rewrite overlay_lookup, H4.
    + unfold ApplyParentCarryForward. fold (inherited parents). rewrite overlay_lookup.
      destruct (user !! k); [done|]. destruct (inherited parents !! k) as [v|] eqn:Hi; [|done].
      rewrite (inherited_apxy parents k) in Hk; [done|]. by rewrite Hi.
    + intros leaf ->. unfold implicit_key, is_apxy in Hk. by rewrite HasPrefix_app in Hk.
Qed.

Lemma carry_forward_exact_witness :
  BuildCarriedLabels "ns" [("team", "a"); ("env", "prod")] =
  BuildCarriedLabels "ns" [("env", "prod"); ("team", "a")].
Proof.
  apply (carry_forward_exact "ns" [("team", "a"); ("env", "prod")] [("env", "prod"); ("team", "a")]
           "cxn_1" "" "root" ∅ []).
  - done.
  - apply Permutation_swap.
  - intros Hc. apply Hc. vm_compute. repeat constructor; set_solver.
  - vm_compute. done.
  - apply map_Forall_empty.
Defined.

(** Without that condition the result depends on the iteration order of a
    Go map: a namespace with its own label [team] below one that had the same
    label hands either its own or its parent's value to its children, so the
    deeper value does not always win; and a valid user key with a DNS prefix is
    carried under a key that label validation rejects. *)
Theorem carry_forward_defects :
  let mine := ("team", "deeper") in
  let inherited := ("apxy/ns/team", "shallower") in
  BuildCarriedLabels "ns" [mine; inherited] !! "apxy/ns/team" = Some "shallower" ∧
  BuildCarriedLabels "ns" [inherited; mine] !! "apxy/ns/team" = Some "deeper" ∧
  ValidateUserLabelKey "example.com/team" = None ∧
  ValidateLabelKey (carried_key "ns" "example.com/team") = Some (ApxySegmentInvalid "example.com").
Proof. vm_compute. done. Qed.
