(* ===== verification/LabelSelector.v ===== *)
(** * Label selectors

    Package [internal/database] (label_selector.go).  A selector is a list of
    requirements on labels, written [key=value], [key!=value], [key] or
    [!key] and separated by commas.  It is evaluated in memory ([Matches]) and
    as SQL predicates for three databases; the JSON functions of the databases
    are parameters. *)

From S2P Require Import Prelude GoStrings Regex Namespace Labels.

(** ** Selectors *)

(** [LabelOperator] is a string; the four constants and any other value. *)
Inductive LabelOperator : Type :=
  | LabelOperatorEqual
  | LabelOperatorNotEqual
  | LabelOperatorExists
  | LabelOperatorNotExists
  | LabelOperatorOther (s : string).

Record LabelRequirement := mkRequirement {
  req_Key : string;
  req_Operator : LabelOperator;
  req_Value : string;
}.

#[export] Instance LabelOperator_eq_dec : EqDecision LabelOperator.
Proof. solve_decision. Defined.
#[export] Instance LabelRequirement_eq_dec : EqDecision LabelRequirement.
Proof. solve_decision. Defined.

Abbreviation LabelSelector := (list LabelRequirement).

Inductive selector_error : Type :=
  | SelectorEmptyRequirement
  | SelectorInvalidKey (part : string) (e : label_error)
  | SelectorInvalidValue (part : string) (e : label_error).

#[export] Instance selector_error_eq_dec : EqDecision selector_error.
Proof. solve_decision. Defined.

(** ** Parsing *)

(** The branch of a binary operator: split at the first [sep], trim, validate. *)
Definition parseBinary (part sep : string) (op : LabelOperator) : result selector_error LabelRequirement :=
  match cut part sep with
  | None => Err SelectorEmptyRequirement
  | Some (l, r) =>
      let key := TrimSpace l in
      let val := TrimSpace r in
      match ValidateLabelKey key with
      | Some e => Err (SelectorInvalidKey part e)
      | None =>
          match validateValueForKey key val with
          | Some e => Err (SelectorInvalidValue part e)
          | None => Ok (mkRequirement key op val)
          end
      end
  end.

Definition parseUnary (part key : string) (op : LabelOperator) : result selector_error LabelRequirement :=
  match ValidateLabelKey key with
  | Some e => Err (SelectorInvalidKey part e)
  | None => Ok (mkRequirement key op "")
  end.

(** One part between commas, trimmed; [parseBinary] is called when its
    separator occurs, so its [None] case is not reached. *)
Definition parsePart (part : string) : result selector_error LabelRequirement :=
  let part := TrimSpace part in
  if decide (part = "") then Err SelectorEmptyRequirement
  else if Contains part "!=" then parseBinary part "!=" LabelOperatorNotEqual
  else if Contains part "==" then parseBinary part "==" LabelOperatorEqual
  else if Contains part "=" then parseBinary part "=" LabelOperatorEqual
  else if HasPrefix part "!" then parseUnary part (TrimSpace (str_drop 1 part)) LabelOperatorNotExists
  else parseUnary part (TrimSpace part) LabelOperatorExists.

(** The loop over the parts: the first error ends it. *)
Fixpoint parseParts (parts : list string) : result selector_error LabelSelector :=
  match parts with
  | [] => Ok []
  | part :: parts =>
      r ← parsePart part;
      rs ← parseParts parts;
      Ok (r :: rs)
  end.

Definition ParseLabelSelector (selector : string) : result selector_error LabelSelector :=
  if decide (selector = "") then Ok [] else parseParts (Split selector ",").

(** ** Printing *)

Definition printRequirement (r : LabelRequirement) : list string :=
  match req_Operator r with
  | LabelOperatorEqual => [req_Key r +:+ String "=" (req_Value r)]
  | LabelOperatorNotEqual => [req_Key r +:+ String "!" (String "=" (req_Value r))]
  | LabelOperatorExists => [req_Key r]
  | LabelOperatorNotExists => [String "!" (req_Key r)]
  | LabelOperatorOther _ => []
  end.

Definition LabelSelector_String (s : LabelSelector) : string := Join (r ← s; printRequirement r) ",".

(** [BuildLabelSelectorFromMap]; [keys] is the slice of the map's keys in
    iteration order. *)
Definition BuildLabelSelectorFromMap (labels : Labels) (keys : list string) : string :=
  if decide (size labels = 0%nat) then ""
  else Join (map (λ k, k +:+ String "=" (default "" (labels !! k))) (sort_strings keys)) ",".

(** ** Matching in memory *)

Definition requirement_holds (labels : Labels) (r : LabelRequirement) : bool :=
  match req_Operator r, labels !! req_Key r with
  | LabelOperatorEqual, None => false
  | LabelOperatorEqual, Some v => bool_decide (v = req_Value r)
  | LabelOperatorNotEqual, None => true
  | LabelOperatorNotEqual, Some v => negb (bool_decide (v = req_Value r))
  | LabelOperatorExists, v => bool_decide (is_Some v)
  | LabelOperatorNotExists, v => negb (bool_decide (is_Some v))
  | LabelOperatorOther _, _ => false
  end.

Fixpoint LabelSelector_Matches (s : LabelSelector) (labels : Labels) : bool :=
  match s with
  | [] => true
  | r :: s => if negb (requirement_holds labels r) then false else LabelSelector_Matches s labels
  end.

(** ** Matching in SQL *)

Inductive DatabaseProvider : Type := DatabaseProviderPostgres | DatabaseProviderClickhouse | DatabaseProviderSqlite.

(** The predicates added to the query, with their bound arguments. *)
Inductive label_pred : Type :=
  | PgArrowEq (k v : string)              (* (labels ->> k) = v *)
  | PgAbsentOrNeq (k v : string)          (* NOT jsonb_exists(labels, k) OR (labels ->> k) != v *)
  | PgExists (k : string)                 (* jsonb_exists(labels, k) *)
  | PgNotExists (k : string)              (* NOT jsonb_exists(labels, k) *)
  | ChExtractEq (k v : string)            (* JSONExtractString(labels, k) = v *)
  | ChEmptyOrNeq (k v : string)           (* ... = '' OR ... != v *)
  | ChNonEmpty (k : string)               (* ... != '' *)
  | ChEmpty (k : string)                  (* ... = '' *)
  | LiteExtractEq (k v : string)          (* json_extract(labels, path) = v *)
  | LiteNullOrNeq (k v : string)          (* ... IS NULL OR ... != v *)
  | LiteNotNull (k : string)              (* ... IS NOT NULL *)
  | LiteNull (k : string).                (* ... IS NULL *)

Definition requirement_preds (provider : DatabaseProvider) (r : LabelRequirement) : list label_pred :=
  let k := req_Key r in
  let v := req_Value r in
  match req_Operator r, provider with
  | LabelOperatorEqual, DatabaseProviderPostgres => [PgArrowEq k v]
  | LabelOperatorEqual, DatabaseProviderClickhouse => [ChExtractEq k v]
  | LabelOperatorEqual, DatabaseProviderSqlite => [LiteExtractEq k v]
  | LabelOperatorNotEqual, DatabaseProviderPostgres => [PgAbsentOrNeq k v]
  | LabelOperatorNotEqual, DatabaseProviderClickhouse => [ChEmptyOrNeq k v]
  | LabelOperatorNotEqual, DatabaseProviderSqlite => [LiteNullOrNeq k v]
  | LabelOperatorExists, DatabaseProviderPostgres => [PgExists k]
  | LabelOperatorExists, DatabaseProviderClickhouse => [ChNonEmpty k]
  | LabelOperatorExists, DatabaseProviderSqlite => [LiteNotNull k]
  | LabelOperatorNotExists, DatabaseProviderPostgres => [PgNotExists k]
  | LabelOperatorNotExists, DatabaseProviderClickhouse => [ChEmpty k]
  | LabelOperatorNotExists, DatabaseProviderSqlite => [LiteNull k]
  | LabelOperatorOther _, _ => []
  end.

Definition ApplyToSqlBuilderWithProvider (q : list label_pred) (s : LabelSelector)
    (provider : DatabaseProvider) : list label_pred :=
  foldl (λ q r, q ++ requirement_preds provider r) q s.

(** Three-valued SQL comparisons: [None] is NULL. *)
Definition sql_eq (x : option string) (v : string) : option bool := (λ a, bool_decide (a = v)) <$> x.
Definition sql_neq (x : option string) (v : string) : option bool := negb <$> sql_eq x v.
Definition sql_or (a b : option bool) : option bool :=
  match a, b with
  | Some true, _ | _, Some true => Some true
  | Some false, Some false => Some false
  | _, _ => None
  end.

Section providers.
(** The JSON functions of the databases on a labels column. *)
Variables (pg_arrow : Labels → string → option string) (jsonb_exists : Labels → string → bool).
Variable JSONExtractString : Labels → string → string.
Variable json_extract : Labels → string → option string.

Definition eval_pred (labels : Labels) (p : label_pred) : option bool :=
  match p with
  | PgArrowEq k v => sql_eq (pg_arrow labels k) v
  | PgAbsentOrNeq k v => sql_or (Some (negb (jsonb_exists labels k))) (sql_neq (pg_arrow labels k) v)
  | PgExists k => Some (jsonb_exists labels k)
  | PgNotExists k => Some (negb (jsonb_exists labels k))
  | ChExtractEq k v => Some (bool_decide (JSONExtractString labels k = v))
  | ChEmptyOrNeq k v =>
      Some (bool_decide (JSONExtractString labels k = "") || negb (bool_decide (JSONExtractString labels k = v)))
  | ChNonEmpty k => Some (negb (bool_decide (JSONExtractString labels k = "")))
  | ChEmpty k => Some (bool_decide (JSONExtractString labels k = ""))
  | LiteExtractEq k v => sql_eq (json_extract labels k) v
  | LiteNullOrNeq k v =>
      sql_or (Some (bool_decide (json_extract labels k = None))) (sql_neq (json_extract labels k) v)
  | LiteNotNull k => Some (negb (bool_decide (json_extract labels k = None)))
  | LiteNull k => Some (bool_decide (json_extract labels k = None))
  end.

(** A row is selected when every predicate is true. *)
Definition row_selected (labels : Labels) (q : list label_pred) : bool :=
  forallb (λ p, bool_decide (eval_pred labels p = Some true)) q.

(** Documented behaviour: [->>] gives the value or NULL, [jsonb_exists] tests
    the key, [JSONExtractString] gives the value or the empty string,
    [json_extract] the value or NULL. *)
Definition json_functions_ok : Prop :=
  (∀ m k, pg_arrow m k = m !! k) ∧
  (∀ m k, jsonb_exists m k = bool_decide (is_Some (m !! k))) ∧
  (∀ m k, JSONExtractString m k = default "" (m !! k)) ∧
  (∀ m k, json_extract m k = m !! k).

Lemma apply_app q s provider :
  ApplyToSqlBuilderWithProvider q s provider = q ++ (r ← s; requirement_preds provider r).
Proof.
  unfold ApplyToSqlBuilderWithProvider. revert q. induction s as [|r s IH]; intros q; simpl.
  - by rewrite app_nil_r.
  - by rewrite IH, <-app_assoc.
Qed.

(** No label is empty and no requirement compares with the empty value. *)
Definition no_empty_values (labels : Labels) (s : LabelSelector) : Prop :=
  map_Forall (λ _ v, v ≠ "") labels ∧ Forall (λ r, req_Operator r = LabelOperatorEqual → req_Value r ≠ "") s.

Definition known_operators (s : LabelSelector) : Prop :=
  Forall (λ r, ∀ o, req_Operator r ≠ LabelOperatorOther o) s.

Lemma requirement_preds_agree provider labels r :
  json_functions_ok → (∀ o, req_Operator r ≠ LabelOperatorOther o) →
  (provider = DatabaseProviderClickhouse → no_empty_values labels [r]) →
  row_selected labels (requirement_preds provider r) = requirement_holds labels r.
Proof.
  intros (H1 & H2 & H3 & H4) Hop Hch. unfold row_selected, requirement_holds, requirement_preds.
  destruct (req_Operator r) eqn:Hr, provider; try (by destruct (Hop s));
    cbn [forallb eval_pred]; rewrite ?H1, ?H2, ?H3, ?H4, andb_true_r;
    destruct (labels !! req_Key r) as [v|] eqn:Hl; simpl; try done; try (by repeat case_bool_decide);
    destruct (Hch eq_refl) as [He Hv]; try (apply He in Hl); inversion Hv; subst;
    repeat case_bool_decide; naive_solver.
Qed.

Lemma row_selected_app labels q1 q2 :
  row_selected labels (q1 ++ q2) = row_selected labels q1 && row_selected labels q2.
Proof. apply forallb_app. Qed.

Lemma selector_sql_agrees provider labels s q :
  json_functions_ok → known_operators s →
  (provider = DatabaseProviderClickhouse → no_empty_values labels s) →
  row_selected labels (ApplyToSqlBuilderWithProvider q s provider) =
  row_selected labels q && LabelSelector_Matches s labels.
Proof.
  intros Hj Hk Hch. rewrite apply_app, row_selected_app. f_equal.
  induction Hk as [|r s Hr Hk IH]; [done|].
  rewrite bind_cons, row_selected_app, requirement_preds_agree; [|done..|].
  - cbn [LabelSelector_Matches]. rewrite IH; [by destruct (requirement_holds labels r)|].
    intros Hp. destruct (Hch Hp) as [? Hf]. inversion Hf; subst. by split.
  - intros Hp. destruct (Hch Hp) as [? Hf]. inversion Hf; subst. split; [done|by constructor].
Qed.
End providers.

(** ** Characters of keys and values *)

Definition is_key_char (a : ascii) : bool := is_name_char a || is_one_of [slash] a.
Definition is_selector_char (a : ascii) : bool := is_key_char a || is_one_of ["="%char; "!"%char] a.

Lemma name_key_char a : is_name_char a = true → is_key_char a = true.
Proof. unfold is_key_char. by intros ->. Qed.
Lemma dns_key_char a : is_dns_char a = true → is_key_char a = true.
Proof.
  unfold is_key_char, is_dns_char, is_name_char, is_one_of.
  rewrite !orb_true_iff, !bool_decide_eq_true. set_solver.
Qed.
Lemma key_selector_char a : is_key_char a = true → is_selector_char a = true.
Proof. unfold is_selector_char. by intros ->. Qed.
Lemma name_selector_char a : is_name_char a = true → is_selector_char a = true.
Proof. intros. by apply key_selector_char, name_key_char. Qed.

Lemma str_forall_Join f l c :
  f c = true → Forall (λ w, str_forall f w = true) l → str_forall f (Join l c) = true.
Proof.
  intros Hc Hl. induction Hl as [|w l Hw Hl IH]; [done|].
  destruct l as [|w' l]; [done|]. rewrite Join_cons, str_forall_app, Hw by done.
  cbn [str_forall]. by rewrite Hc, IH.
Qed.

Lemma name_chars name : valid_name name = true → name ≠ "" ∧ str_forall is_key_char name = true.
Proof.
  intros (Hne & Hc & _)%valid_token_chars. split; [done|].
  by apply (str_forall_impl is_name_char); [apply name_key_char|].
Qed.

Lemma dns_chars l : dns_label l = true → str_forall is_key_char l = true.
Proof.
  intros (_ & Hc & _)%valid_token_chars. by apply (str_forall_impl is_dns_char); [apply dns_key_char|].
Qed.

Lemma key_chars k : ValidateLabelKey k = None → k ≠ "" ∧ str_forall is_key_char k = true.
Proof.
  destruct (is_apxy k) eqn:Ha.
  - rewrite ValidateLabelKey_apxy by done. intros (segs & name & Hne & Hs & _ & Hn & ->).
    split; [by intros [_ ?]%str_app_nil_inv|]. rewrite str_forall_app. cbn [str_forall].
    rewrite (proj2 (name_chars name Hn)). rewrite andb_true_r.
    apply str_forall_Join; [done|]. constructor; [done|]. eapply Forall_impl; [exact Hs|].
    intros s. unfold valid_apxy_segment. rewrite orb_true_iff, bool_decide_eq_true.
    intros [?| ->]; [by apply dns_chars|done].
  - rewrite ValidateLabelKey_plain by done. intros [?|(ls & name & _ & Hls & _ & Hn & ->)]; [by apply name_chars|].
    split; [by intros [_ ?]%str_app_nil_inv|]. rewrite str_forall_app. cbn [str_forall].
    rewrite (proj2 (name_chars name Hn)), andb_true_r.
    apply str_forall_Join; [done|]. eapply Forall_impl; [exact Hls|]. apply dns_chars.
Qed.

Lemma labelValueRegex_chars v : re_match labelValueRegex v = true → str_forall is_name_char v = true.
Proof.
  rewrite re_match_spec. unfold labelValueRegex, ROpt, name_token. rewrite !re_lang_alt, !re_lang_eps.
  rewrite token_spec by apply alnum_name_char. rewrite re_lang_chr.
  intros [[->|H%valid_token_chars]|[->|(a & -> & Ha)]]; [done|tauto|done|].
  cbn. by rewrite alnum_name_char.
Qed.

Lemma value_chars k v : validateValueForKey k v = None → str_forall is_name_char v = true.
Proof.
  unfold validateValueForKey, ValidateApxyLabelValue, ValidateLabelValue.
  destruct (HasPrefix k ApxyReservedPrefix).
  - case_bool_decide; [done|]. case_bool_decide as Hv; [by rewrite Hv|]. cbn [negb andb].
    destruct (re_match apxyLabelValueRegex v) eqn:Hm; [|done]. intros _.
    apply re_match_spec, re_lang_upto_chr in Hm. tauto.
  - case_bool_decide; [done|]. case_bool_decide as Hv; [by rewrite Hv|]. cbn [negb andb].
    destruct (re_match labelValueRegex v) eqn:Hm; [|done]. intros _. by apply labelValueRegex_chars.
Qed.

Lemma selector_trim s : str_forall is_selector_char s = true → TrimSpace s = s.
Proof. apply TrimSpace_clean. vm_compute. reflexivity. Qed.

Lemma key_no_char c k :
  is_key_char c = false → str_forall is_key_char k = true → no_char c k = true.
Proof. apply no_char_class. Qed.

(** ** Printing then parsing *)

Definition valid_requirement (r : LabelRequirement) : Prop :=
  ValidateLabelKey (req_Key r) = None ∧
  match req_Operator r with
  | LabelOperatorEqual | LabelOperatorNotEqual => validateValueForKey (req_Key r) (req_Value r) = None
  | LabelOperatorExists | LabelOperatorNotExists => req_Value r = ""
  | LabelOperatorOther _ => False
  end.

Lemma parseBinary_ok part sep op k v :
  cut part sep = Some (k, v) → ValidateLabelKey k = None → validateValueForKey k v = None →
  parseBinary part sep op = Ok (mkRequirement k op v).
Proof.
  intros Hc Hk Hv. destruct (key_chars k Hk) as [_ Hkc]. pose proof (value_chars k v Hv) as Hvc.
  unfold parseBinary. rewrite Hc. rewrite !selector_trim.
  - by rewrite Hk, Hv.
  - by apply (str_forall_impl is_name_char); [apply name_selector_char|].
  - by apply (str_forall_impl is_key_char); [apply key_selector_char|].
Qed.

Lemma Contains_cut s sep : Contains s sep = match cut s sep with Some _ => true | None => false end.
Proof. done. Qed.

Lemma parse_print_requirement r :
  valid_requirement r →
  ∃ part, printRequirement r = [part] ∧ part ≠ "" ∧ no_char "," part = true ∧ parsePart part = Ok r.
Proof.
  destruct r as [k op v]. intros [Hk Hv]. cbn [req_Key req_Operator req_Value] in *.
  destruct (key_chars k Hk) as [Hkne Hkc].
  assert (str_forall is_selector_char k = true) as Hks
    by (by apply (str_forall_impl is_key_char); [apply key_selector_char|]).
  assert (no_char "=" k = true) as Hke by (by apply key_no_char).
  assert (no_char "!" k = true) as Hkb by (by apply key_no_char).
  assert (no_char "," k = true) as Hkcm by (by apply key_no_char).
  unfold printRequirement, parsePart. cbn [req_Operator req_Key req_Value].
  destruct op as [| | | |o]; [| | | |done].
  - pose proof (value_chars k v Hv) as Hvc.
    assert (no_char "=" v = true) as Hve by (by apply (no_char_class is_name_char)).
    assert (no_char "!" v = true) as Hvb by (by apply (no_char_class is_name_char)).
    assert (no_char "," v = true) as Hvcm by (by apply (no_char_class is_name_char)).
    exists (k +:+ String "=" v). split_and!; [done|by intros [_ ?]%str_app_nil_inv| |].
    { by rewrite no_char_app, Hkcm. }
    rewrite selector_trim.
    2:{ rewrite str_forall_app, Hks. cbn. by apply (str_forall_impl is_name_char); [apply name_selector_char|]. }
    rewrite decide_False by (by intros [_ ?]%str_app_nil_inv).
    rewrite !Contains_cut, cut_none_char by (by rewrite no_char_app, Hkb).
    rewrite cut_none_double by done. pose proof (cut_app k v "" "=" Hke) as Hcut.
    rewrite str_nil_app in Hcut. rewrite Hcut. by apply parseBinary_ok.
  - pose proof (value_chars k v Hv) as Hvc.
    assert (no_char "," v = true) as Hvcm by (by apply (no_char_class is_name_char)).
    exists (k +:+ String "!" (String "=" v)). split_and!; [done|by intros [_ ?]%str_app_nil_inv| |].
    { by rewrite no_char_app, Hkcm. }
    rewrite selector_trim.
    2:{ rewrite str_forall_app, Hks. cbn. by apply (str_forall_impl is_name_char); [apply name_selector_char|]. }
    rewrite decide_False by (by intros [_ ?]%str_app_nil_inv).
    pose proof (cut_app k v "=" "!" Hkb) as Hcut. rewrite str_cons_app, str_nil_app in Hcut.
    rewrite Contains_cut, Hcut. by apply parseBinary_ok.
  - subst v. exists k. split_and!; [done..|].
    rewrite selector_trim, decide_False, !Contains_cut, !cut_none_char by done.
    assert (HasPrefix k "!" = false) as ->.
    { apply not_true_iff_false. rewrite HasPrefix_spec. intros [r ->]. by rewrite no_char_app in Hkb. }
    unfold parseUnary. rewrite selector_trim by done. by rewrite Hk.
  - subst v. exists (String "!" k). split_and!; [done|done|by cbn|].
    rewrite selector_trim by (by cbn). rewrite decide_False by done.
    assert (cut (String "!" k) "!=" = None) as Hc1.
    { cbn [cut HasPrefix]. rewrite bool_decide_true by done. cbn [andb].
      assert (HasPrefix k "=" = false) as ->.
      { apply not_true_iff_false. rewrite HasPrefix_spec. intros [r ->]. by rewrite no_char_app in Hke. }
      by rewrite cut_none_char. }
    rewrite !Contains_cut, Hc1, !cut_none_char by done.
    cbn [HasPrefix str_drop]. rewrite bool_decide_true by done. cbn [andb].
    rewrite selector_trim by done. unfold parseUnary. rewrite Hk.
    by destruct k.
Qed.

Lemma printed_parts s :
  Forall valid_requirement s →
  parseParts (r ← s; printRequirement r) = Ok s ∧
  Forall (λ part, part ≠ "" ∧ no_char "," part = true) (r ← s; printRequirement r).
Proof.
  induction 1 as [|r s Hr _ [IH1 IH2]]; [done|]. rewrite bind_cons.
  destruct (parse_print_requirement r Hr) as (part & -> & Hne & Hc & Hp).
  simpl. rewrite Hp, IH1. split; [done|]. by constructor.
Qed.

Lemma print_nonempty s : Forall valid_requirement s → s ≠ [] → LabelSelector_String s ≠ "".
Proof.
  intros Hs Hne. destruct (printed_parts s Hs) as [_ Hf]. unfold LabelSelector_String.
  destruct Hs as [|r s Hr Hs]; [done|]. rewrite bind_cons in *.
  destruct (parse_print_requirement r Hr) as (part & Hp & Hpn & _). rewrite Hp in *. simpl in *.
  destruct (s ≫= printRequirement) as [|w l] eqn:E; rewrite ?E; [done|]. by intros [? _]%str_app_nil_inv.
Qed.

Lemma selector_parse_print s : Forall valid_requirement s → ParseLabelSelector (LabelSelector_String s) = Ok s.
Proof.
  intros Hs. unfold ParseLabelSelector. destruct (decide (s = [])) as [->|Hne]; [done|].
  rewrite decide_False by (by apply print_nonempty).
  destruct (printed_parts s Hs) as [Hp Hf]. unfold LabelSelector_String. rewrite Split_Join; [done| |].
  - destruct Hs as [|r s Hr Hs]; [done|]. rewrite bind_cons.
    by destruct (parse_print_requirement r Hr) as (part & -> & _).
  - eapply Forall_impl; [exact Hf|]. by intros w [_ ?].
Qed.

Lemma parseBinary_valid part sep op r :
  op = LabelOperatorEqual ∨ op = LabelOperatorNotEqual → parseBinary part sep op = Ok r → valid_requirement r.
Proof.
  intros Hop. unfold parseBinary. destruct (cut part sep) as [[a b]|]; [|done].
  destruct (ValidateLabelKey (TrimSpace a)) eqn:Hk; [done|].
  destruct (validateValueForKey (TrimSpace a) (TrimSpace b)) eqn:Hv; [done|].
  intros [= <-]. split; [done|]. by destruct Hop as [-> | ->].
Qed.

Lemma parseUnary_valid part k op r :
  op = LabelOperatorExists ∨ op = LabelOperatorNotExists → parseUnary part k op = Ok r → valid_requirement r.
Proof.
  intros Hop. unfold parseUnary. destruct (ValidateLabelKey k) eqn:Hk; [done|].
  intros [= <-]. split; [done|]. by destruct Hop as [-> | ->].
Qed.

Lemma parsePart_valid part r : parsePart part = Ok r → valid_requirement r.
Proof.
  unfold parsePart. case_decide; [done|].
  repeat case_match; eauto using parseBinary_valid, parseUnary_valid.
Qed.

Lemma parse_valid str s : ParseLabelSelector str = Ok s → Forall valid_requirement s.
Proof.
  unfold ParseLabelSelector. case_decide; [by intros [= <-]|]. generalize (Split str ",") as parts.
  intros parts. revert s. induction parts as [|part parts IH]; intros s; simpl; [by intros [= <-]|].
  destruct (parsePart part) as [|r] eqn:Hp; simpl; [done|].
  destruct (parseParts parts) as [|rs]; simpl; [done|]. intros [= <-].
  constructor; [by eapply parsePart_valid|by apply IH].
Qed.

(** The requirements of a map. *)
Definition selector_of_map (labels : Labels) (keys : list string) : LabelSelector :=
  map (λ k, mkRequirement k LabelOperatorEqual (default "" (labels !! k))) (sort_strings keys).

Lemma selector_of_map_valid labels keys :
  ValidateLabels labels = [] → (∀ k, k ∈ keys → is_Some (labels !! k)) →
  Forall valid_requirement (selector_of_map labels keys).
Proof.
  rewrite ValidateLabels_spec. intros Hl Hk. unfold selector_of_map. apply Forall_fmap.
  apply Forall_forall. intros k. rewrite sort_strings_perm. intros [v Hv]%Hk. unfold valid_requirement.
  simpl. rewrite Hv. simpl. by apply Hl.
Qed.

Lemma selector_of_map_print labels keys :
  (r ← selector_of_map labels keys; printRequirement r) =
  map (λ k, k +:+ String "=" (default "" (labels !! k))) (sort_strings keys).
Proof.
  unfold selector_of_map. induction (sort_strings keys) as [|k l IH]; [done|].
  cbn [map]. rewrite bind_cons, IH. done.
Qed.

Lemma selector_matches_forall s labels :
  LabelSelector_Matches s labels = true ↔ Forall (λ r, requirement_holds labels r = true) s.
Proof.
  induction s as [|r s IH]; simpl; [by split|]. rewrite Forall_cons, <-IH.
  destruct (requirement_holds labels r); naive_solver.
Qed.

(** ** Properties *)

(** Printing a selector of valid requirements and parsing it gives the
    selector back, and every selector the parser accepts is one of those, so
    parsing is idempotent through printing. *)
Theorem selector_roundtrip :
  (∀ s, Forall valid_requirement s → ParseLabelSelector (LabelSelector_String s) = Ok s) ∧
  (∀ str s, ParseLabelSelector str = Ok s →
     Forall valid_requirement s ∧ ParseLabelSelector (LabelSelector_String s) = Ok s).
Proof.
  split; [apply selector_parse_print|]. intros str s Hs%parse_valid.
  split; [done|by apply selector_parse_print].
Qed.

(** The selector string built from a map of valid labels does not depend on
    the iteration order of the map, parses, and matches exactly the label sets
    that contain the map. *)
Theorem selector_from_map labels keys target :
  ValidateLabels labels = [] → keys ≡ₚ elements (dom labels) →
  BuildLabelSelectorFromMap labels keys = BuildLabelSelectorFromMap labels (elements (dom labels)) ∧
  ∃ s, ParseLabelSelector (BuildLabelSelectorFromMap labels keys) = Ok s ∧
       (LabelSelector_Matches s target = true ↔ labels ⊆ target).
Proof.
  intros Hl Hk.
  assert (sort_strings keys = sort_strings (elements (dom labels))) as Hsort.
  { apply (SortFunc_unique _ (λ _, True)); [eauto using str_cmp_total|eauto using str_cmp_trans| | | |].
    - intros a b _ _. rewrite !str_cmp_le. intros [?|?] [?|?]; [done..|].
      exfalso. apply (irreflexivity str_lt a). by transitivity b.
    - by apply Forall_true.
    - by rewrite sort_strings_perm.
    - apply sort_strings_sorted. }
  split; [unfold BuildLabelSelectorFromMap; by rewrite Hsort|].
  assert (∀ k, k ∈ keys ↔ is_Some (labels !! k)) as Hkeys.
  { intros k. by rewrite Hk, elem_of_elements, elem_of_dom. }
  exists (selector_of_map labels keys). split.
  - rewrite <-(selector_parse_print (selector_of_map labels keys)).
    + f_equal. unfold BuildLabelSelectorFromMap, LabelSelector_String. rewrite selector_of_map_print.
      case_decide as Hsz; [|done]. apply map_size_empty_inv in Hsz as ->.
      rewrite dom_empty_L, elements_empty in Hk. apply Permutation_nil_r in Hk as ->. done.
    + apply selector_of_map_valid; [done|]. intros k. apply Hkeys.
  - rewrite selector_matches_forall. unfold selector_of_map. rewrite Forall_fmap, sort_strings_perm.
    rewrite Forall_forall, map_subseteq_spec. unfold requirement_holds. simpl. split.
    + intros H k v Hv. specialize (H k (proj2 (Hkeys k) (ex_intro _ v Hv))). rewrite Hv in H. simpl in H.
      destruct (target !! k) as [w|]; [|done]. apply bool_decide_eq_true in H. by subst.
    + intros H k [v Hv]%Hkeys. rewrite Hv. simpl. rewrite (H k v Hv). by apply bool_decide_eq_true.
Qed.

Lemma selector_from_map_witness :
  ∃ s, ParseLabelSelector (BuildLabelSelectorFromMap {["env" := "prod"]} ["env"]) = Ok s ∧
       (LabelSelector_Matches s {["env" := "prod"]} = true ↔
        ({["env" := "prod"]} : Labels) ⊆ {["env" := "prod"]}).
Proof.
  apply (selector_from_map {["env" := "prod"]} ["env"] {["env" := "prod"]}); vm_compute; reflexivity.
Defined.

(** The SQL predicates select a row exactly when the in-memory matcher
    accepts its labels, on PostgreSQL and SQLite always, and on ClickHouse when
    no label is empty and no requirement asks for an empty value. *)
Theorem selector_sql_equivalent pg_arrow jsonb_exists JSONExtractString json_extract provider labels s q :
  json_functions_ok pg_arrow jsonb_exists JSONExtractString json_extract → known_operators s →
  (provider = DatabaseProviderClickhouse → no_empty_values labels s) →
  row_selected pg_arrow jsonb_exists JSONExtractString json_extract labels
    (ApplyToSqlBuilderWithProvider q s provider) =
  row_selected pg_arrow jsonb_exists JSONExtractString json_extract labels q &&
  LabelSelector_Matches s labels.
Proof. apply selector_sql_agrees. Qed.

Definition model_selected : Labels → list label_pred → bool :=
  row_selected (λ m k, m !! k) (λ m k, bool_decide (is_Some (m !! k)))
    (λ m k, default "" (m !! k)) (λ m k, m !! k).

Lemma selector_sql_equivalent_witness :
  model_selected {["env" := "prod"]}
    (ApplyToSqlBuilderWithProvider [] [mkRequirement "env" LabelOperatorEqual "prod"] DatabaseProviderPostgres)
  = model_selected {["env" := "prod"]} [] &&
    LabelSelector_Matches [mkRequirement "env" LabelOperatorEqual "prod"] {["env" := "prod"]}.
Proof.
  apply (selector_sql_equivalent (λ m k, m !! k) (λ m k, bool_decide (is_Some (m !! k)))
    (λ m k, default "" (m !! k)) (λ m k, m !! k) DatabaseProviderPostgres {["env" := "prod"]}
    [mkRequirement "env" LabelOperatorEqual "prod"] []).
  - by split_and!.
  - by repeat constructor.
  - done.
Defined.

(** On ClickHouse an empty label value counts as absent: a label set with
    [flag] set to the empty string satisfies the requirement [flag] in memory
    but is not selected, and a label set without [flag] is selected by
    [flag=] although it does not match. *)
Theorem selector_clickhouse_empty_values :
  LabelSelector_Matches [mkRequirement "flag" LabelOperatorExists ""] {["flag" := ""]} = true ∧
  model_selected {["flag" := ""]} (ApplyToSqlBuilderWithProvider []
    [mkRequirement "flag" LabelOperatorExists ""] DatabaseProviderClickhouse) = false ∧
  LabelSelector_Matches [mkRequirement "flag" LabelOperatorEqual ""] ∅ = false ∧
  model_selected ∅ (ApplyToSqlBuilderWithProvider []
    [mkRequirement "flag" LabelOperatorEqual ""] DatabaseProviderClickhouse) = true.
Proof. vm_compute. done. Qed.
