(* ===== verification/RateRules.v ===== *)
(** * Rate-limit rules

    The definition of a rate-limit resource and its validation
    ([schema/resources/rate_limit]: algorithm.go, bucket.go, selector.go,
    rate_limit.go; [schema/common/request_type.go]), the matching of a request
    against a rule ([ratelimit/matcher.go]) and the projection of a matched
    request to a counter ([ratelimit/bucket_key.go]).

    The enumerations of the source are Go strings and stay strings here, so
    that the values validation has to refuse exist.  Durations are nanoseconds;
    a [float64] read from JSON is finite and is the rational it denotes.
    [path.Match] and package [regexp] are parameters. *)

From Stdlib Require Import QArith.
From S2P Require Import Prelude GoNumbers GoStrings Regex Labels LabelSelector.
Open Scope string_scope.
Open Scope list_scope.

(** ** Request types *)

Abbreviation RequestType := string.
Definition RequestTypeGlobal : RequestType := "global".
Definition RequestTypeProxy : RequestType := "proxy".
Definition RequestTypeOAuth : RequestType := "oauth".
Definition RequestTypePublic : RequestType := "public".
Definition RequestTypeProbe : RequestType := "probe".

Definition AllRequestTypes : list RequestType :=
  [RequestTypeGlobal; RequestTypeProxy; RequestTypeOAuth; RequestTypePublic; RequestTypeProbe].

Definition IsValidRequestType (t : string) : bool :=
  bool_decide (t = RequestTypeGlobal) || bool_decide (t = RequestTypeProxy)
  || bool_decide (t = RequestTypeOAuth) || bool_decide (t = RequestTypePublic)
  || bool_decide (t = RequestTypeProbe).

(** ** Validation errors

    A [ValidationContext] is the path to the value being validated; an error
    carries the path.  [multierror.Append] flattens, and [ErrorOrNil] is nil
    exactly when nothing was appended, so a validation returns the list. *)

Inductive path_elem : Type := PField (name : string) | PIndex (i : nat).
Abbreviation ValidationContext := (list path_elem).

Definition PushField (vc : ValidationContext) (f : string) : ValidationContext := vc ++ [PField f].
Definition PushIndex (vc : ValidationContext) (i : nat) : ValidationContext := vc ++ [PIndex i].

Inductive rule_error : Type :=
  | MustBePositive
  | InvalidMode (m : string)
  | InvalidSlidingMode (m : string)
  | ExactlyOneVariant
  | EmptyDimension
  | DuplicateDimension (d : string) (prev : nat)
  | UnknownDimension (d : string)
  | MissingLabelKey (d : string)
  | InvalidKind (k : string)
  | EmptyValue
  | InvalidRegex
  | UnknownMethod (m : string)
  | EmptyRequestTypes
  | UnknownRequestType (t : string).

Abbreviation errors := (list (ValidationContext * rule_error)).

Definition NewError (vc : ValidationContext) (e : rule_error) : errors := [(vc, e)].
Definition NewErrorForField (vc : ValidationContext) (f : string) (e : rule_error) : errors :=
  NewError (PushField vc f) e.
Definition fail_if (b : bool) (es : errors) : errors := if b then es else [].

(** [errs_for f vc l]: the loop [for i, x := range l] that appends the errors
    of each element. *)
Fixpoint errs_from {A} (f : nat → A → errors) (i : nat) (l : list A) : errors :=
  match l with [] => [] | x :: l => f i x ++ errs_from f (S i) l end.

(** ** Algorithms *)

Abbreviation SlidingWindowMode := string.
Definition SlidingWindowModeLog : SlidingWindowMode := "log".
Definition SlidingWindowModeCounter : SlidingWindowMode := "counter".

Definition IsValidSlidingWindowMode (m : SlidingWindowMode) : bool :=
  bool_decide (m = SlidingWindowModeLog) || bool_decide (m = SlidingWindowModeCounter).

Record FixedWindow := mkFixedWindow { fw_Window : Z; fw_Limit : Z }.
Record SlidingWindow := mkSlidingWindow { sw_Window : Z; sw_Limit : Z; sw_Mode : SlidingWindowMode }.
Record TokenBucket := mkTokenBucket { tb_Capacity : Z; tb_RefillRate : Q }.

Definition FixedWindow_Validate (vc : ValidationContext) (f : option FixedWindow) : errors :=
  match f with
  | None => []
  | Some f =>
      fail_if (bool_decide (fw_Window f ≤ 0)%Z) (NewErrorForField vc "window" MustBePositive)
      ++ fail_if (bool_decide (fw_Limit f ≤ 0)%Z) (NewErrorForField vc "limit" MustBePositive)
  end.

Definition SlidingWindow_Validate (vc : ValidationContext) (s : option SlidingWindow) : errors :=
  match s with
  | None => []
  | Some s =>
      fail_if (bool_decide (sw_Window s ≤ 0)%Z) (NewErrorForField vc "window" MustBePositive)
      ++ fail_if (bool_decide (sw_Limit s ≤ 0)%Z) (NewErrorForField vc "limit" MustBePositive)
      ++ fail_if (negb (IsValidSlidingWindowMode (sw_Mode s)))
           (NewErrorForField vc "mode" (InvalidSlidingMode (sw_Mode s)))
  end.

Definition TokenBucket_Validate (vc : ValidationContext) (t : option TokenBucket) : errors :=
  match t with
  | None => []
  | Some t =>
      fail_if (bool_decide (tb_Capacity t ≤ 0)%Z) (NewErrorForField vc "capacity" MustBePositive)
      ++ fail_if (Qle_bool (tb_RefillRate t) 0) (NewErrorForField vc "refill_rate" MustBePositive)
  end.

Record Algorithm := mkAlgorithm {
  al_FixedWindow : option FixedWindow;
  al_SlidingWindow : option SlidingWindow;
  al_TokenBucket : option TokenBucket
}.

Definition is_set {A} (o : option A) : nat := match o with Some _ => 1 | None => 0 end.

Definition Algorithm_Validate (vc : ValidationContext) (a : Algorithm) : errors :=
  let count := (is_set (al_FixedWindow a) + is_set (al_SlidingWindow a) + is_set (al_TokenBucket a))%nat in
  match count with
  | 1%nat =>
      FixedWindow_Validate (PushField vc "fixed_window") (al_FixedWindow a)
      ++ SlidingWindow_Validate (PushField vc "sliding_window") (al_SlidingWindow a)
      ++ TokenBucket_Validate (PushField vc "token_bucket") (al_TokenBucket a)
  | _ => NewError vc ExactlyOneVariant
  end.

(** ** Bucket dimensions *)

Definition DimensionActor : string := "actor".
Definition DimensionConnection : string := "connection".
Definition DimensionConnector : string := "connector".
Definition DimensionConnectorVersion : string := "connector_version".
Definition DimensionNamespace : string := "namespace".
Definition DimensionMethod : string := "method".
Definition LabelDimensionPrefix : string := "labels/".

Definition reservedDimensions : list string :=
  [DimensionActor; DimensionConnection; DimensionConnector; DimensionConnectorVersion;
   DimensionNamespace; DimensionMethod].

Definition IsReservedDimension (name : string) : bool := bool_decide (name ∈ reservedDimensions).

Record Bucket := mkBucket { bk_Dimensions : list string }.

(** The part of the loop body of [Bucket.Validate] after the duplicate check. *)
Definition dimension_errors (vc : ValidationContext) (d : string) : errors :=
  if IsReservedDimension d then []
  else if negb (HasPrefix d LabelDimensionPrefix) then NewError vc (UnknownDimension d)
  else fail_if (bool_decide (TrimPrefix d LabelDimensionPrefix = ""))
         (NewError vc (MissingLabelKey d)).

Fixpoint validate_dimensions (vc : ValidationContext) (seen : gmap string nat) (i : nat)
    (dims : list string) : errors :=
  match dims with
  | [] => []
  | d :: dims =>
      let vi := PushIndex (PushField vc "dimensions") i in
      if decide (d = "") then NewError vi EmptyDimension ++ validate_dimensions vc seen (S i) dims
      else match seen !! d with
           | Some prev => NewError vi (DuplicateDimension d prev) ++ validate_dimensions vc seen (S i) dims
           | None => dimension_errors vi d ++ validate_dimensions vc (<[d := i]> seen) (S i) dims
           end
  end.

Definition Bucket_Validate (vc : ValidationContext) (b : Bucket) : errors :=
  validate_dimensions vc ∅ 0 (bk_Dimensions b).

(** ** Selectors *)

Abbreviation PathMatchKind := string.
Definition PathMatchKindPrefix : PathMatchKind := "prefix".
Definition PathMatchKindGlob : PathMatchKind := "glob".
Definition PathMatchKindRegex : PathMatchKind := "regex".

Definition IsValidPathMatchKind (k : PathMatchKind) : bool :=
  bool_decide (k = PathMatchKindPrefix) || bool_decide (k = PathMatchKindGlob)
  || bool_decide (k = PathMatchKindRegex).

Record PathMatch := mkPathMatch { pm_Kind : PathMatchKind; pm_Value : string }.

(** [RequestTypes] distinguishes a nil slice ([None], use the default) from an
    explicit empty one. *)
Record Selector := mkSelector {
  sel_LabelSelector : string;
  sel_Methods : list string;
  sel_PathMatch : option PathMatch;
  sel_RequestTypes : option (list RequestType)
}.

Definition DefaultRequestTypes : list RequestType := [RequestTypeProxy; RequestTypeProbe].

Definition EffectiveRequestTypes (s : option Selector) : list RequestType :=
  match s with
  | None => DefaultRequestTypes
  | Some s => match sel_RequestTypes s with None => DefaultRequestTypes | Some l => l end
  end.

Definition validHTTPMethods : list string :=
  ["GET"; "HEAD"; "POST"; "PUT"; "PATCH"; "DELETE"; "OPTIONS"; "CONNECT"; "TRACE"].

(** ** The rule *)

Abbreviation Mode := string.
Definition ModeEnforce : Mode := "enforce".
Definition ModeObserve : Mode := "observe".
Definition DefaultMode : Mode := ModeEnforce.

Definition IsValidMode (m : Mode) : bool :=
  bool_decide (m = ModeEnforce) || bool_decide (m = ModeObserve).

Record RateLimit := mkRateLimit {
  rl_Mode : Mode;
  rl_Selector : Selector;
  rl_Bucket : Bucket;
  rl_Algorithm : Algorithm
}.

Definition EffectiveMode (r : option RateLimit) : Mode :=
  match r with
  | None => DefaultMode
  | Some r => if decide (rl_Mode r = "") then DefaultMode else rl_Mode r
  end.

(** ** Requests and bucket keys *)

Record RequestContext := mkRequestContext {
  rc_Type : RequestType;
  rc_Method : string;
  rc_UpstreamURL : option string;   (** the path of the URL *)
  rc_Namespace : string;
  rc_ActorID : string;
  rc_ConnectionID : string;
  rc_ConnectorID : string;
  rc_ConnectorVersion : Z;          (** a [uint64] *)
  rc_Labels : Labels
}.

Record BucketKeyComponent := mkComponent { bc_Name : string; bc_Value : string }.
Record BucketKey := mkBucketKey { bk_Components : list BucketKeyComponent }.

#[export] Instance BucketKeyComponent_eq_dec : EqDecision BucketKeyComponent.
Proof. solve_decision. Defined.
#[export] Instance BucketKey_eq_dec : EqDecision BucketKey.
Proof. solve_decision. Defined.

Definition IsGlobal (k : BucketKey) : bool := bool_decide (length (bk_Components k) = 0).

(** [None] is the nil map. *)
Definition AsMap (k : BucketKey) : option (gmap string string) :=
  if IsGlobal k then None
  else Some (foldl (λ out c, <[bc_Name c := bc_Value c]> out) ∅ (bk_Components k)).

(** Ranging over a string decodes UTF-8: [utf8_len2], [utf8_len3] and
    [utf8_len4] are the accepted multi-byte encodings; a byte that starts none
    is read as U+FFFD and written back as its encoding. *)
Definition byte_in (lo hi : nat) (a : ascii) : bool :=
  bool_decide (lo ≤ nat_of_ascii a ≤ hi)%nat.
Definition utf8_cont : ascii → bool := byte_in 128 191.
Definition utf8_len2 (a b : ascii) : bool := byte_in 194 223 a && utf8_cont b.
Definition utf8_len3 (a b c : ascii) : bool :=
  ((byte_in 224 224 a && byte_in 160 191 b) || (byte_in 225 236 a && utf8_cont b)
   || (byte_in 237 237 a && byte_in 128 159 b) || (byte_in 238 239 a && utf8_cont b))
  && utf8_cont c.
Definition utf8_len4 (a b c d : ascii) : bool :=
  ((byte_in 240 240 a && byte_in 144 191 b) || (byte_in 241 243 a && utf8_cont b)
   || (byte_in 244 244 a && byte_in 128 143 b))
  && utf8_cont c && utf8_cont d.

Definition rune_error : string := String (byte 239) (String (byte 191) (String (byte 189) "")).

Definition escape_ascii (a : ascii) : string :=
  if decide (a = "|"%char) then "%7C"
  else if decide (a = "="%char) then "%3D"
  else if decide (a = "%"%char) then "%25"
  else String a "".

(** The runes that [range s] yields, as the bytes they were read from. *)
Inductive rune : Type := RAscii (a : ascii) | RMulti (bytes : string) | RInvalid.

Fixpoint runes_of (s : string) : list rune :=
  match s with
  | "" => []
  | String a s1 =>
      if byte_in 0 127 a then RAscii a :: runes_of s1
      else match s1 with
        | "" => RInvalid :: runes_of s1
        | String b s2 =>
            if utf8_len2 a b then RMulti (String a (String b "")) :: runes_of s2
            else match s2 with
              | "" => RInvalid :: runes_of s1
              | String c s3 =>
                  if utf8_len3 a b c then RMulti (String a (String b (String c ""))) :: runes_of s3
                  else match s3 with
                    | "" => RInvalid :: runes_of s1
                    | String d s4 =>
                        if utf8_len4 a b c d
                        then RMulti (String a (String b (String c (String d "")))) :: runes_of s4
                        else RInvalid :: runes_of s1
                    end
              end
        end
  end.

(** [utf8.ValidString]. *)
Definition valid_utf8 (s : string) : bool :=
  forallb (λ r, match r with RInvalid => false | _ => true end) (runes_of s).

Definition escape_rune (r : rune) : string :=
  match r with RAscii a => escape_ascii a | RMulti p => p | RInvalid => rune_error end.

(** The loop [for _, r := range s] of [escapeBucketField]. *)
Definition escape_runes (s : string) : string :=
  foldr (λ r out, escape_rune r +:+ out) "" (runes_of s).

Definition reserved_byte (a : ascii) : bool :=
  bool_decide (a = "|"%char) || bool_decide (a = "="%char) || bool_decide (a = "%"%char).

Definition escapeBucketField (s : string) : string :=
  if str_forall (λ a, negb (reserved_byte a)) s then s else escape_runes s.

Definition component_string (c : BucketKeyComponent) : string :=
  escapeBucketField (bc_Name c) +:+ String "=" (escapeBucketField (bc_Value c)).

Definition BucketKey_String (k : BucketKey) : string :=
  if IsGlobal k then "*" else Join (map component_string (bk_Components k)) "|".

Definition resolveDimension (name : string) (ctx : option RequestContext) : string :=
  match ctx with
  | None => ""
  | Some ctx =>
      if decide (name = DimensionActor) then rc_ActorID ctx
      else if decide (name = DimensionConnection) then rc_ConnectionID ctx
      else if decide (name = DimensionConnector) then rc_ConnectorID ctx
      else if decide (name = DimensionConnectorVersion) then
        if decide (rc_ConnectorVersion ctx = 0%Z) then "" else FormatInt (rc_ConnectorVersion ctx)
      else if decide (name = DimensionNamespace) then rc_Namespace ctx
      else if decide (name = DimensionMethod) then rc_Method ctx
      else if HasPrefix name LabelDimensionPrefix then
        match rc_Labels ctx !! TrimPrefix name LabelDimensionPrefix with
        | Some v => v
        | None => ""
        end
      else ""
  end.

Definition ResolveBucketKey (rule : RateLimit) (ctx : option RequestContext) : BucketKey :=
  match bk_Dimensions (rl_Bucket rule) with
  | [] => mkBucketKey []
  | dims => mkBucketKey (map (λ d, mkComponent d (resolveDimension d ctx)) dims)
  end.

(** ** Matching

    [regexp_Compile] is [regexp.Compile] with the compiled program's
    [MatchString]; [path_Match] is [path.Match], [None] being [ErrBadPattern]. *)

Inductive match_error : Type :=
  | LabelSelectorError (e : selector_error)
  | BadGlob
  | BadRegex
  | UnknownPathKind (k : string).

Inductive miss_reason : Type :=
  | NoRequestContext
  | RequestTypeMiss (t : string)
  | MethodMiss (m : string)
  | LabelsMiss (sel : string)
  | NoURL (kind : string)
  | PathMiss (path kind value : string).

(** The results of [MatchExplain]: the key is zero unless matched, the reason
    empty unless missed. *)
Inductive match_result : Type :=
  | Matched (key : BucketKey)
  | Missed (reason : miss_reason)
  | MatchFailed (e : match_error).

Definition matchRequestType (allowed : list RequestType) (ctxType : RequestType) : bool :=
  if decide (length allowed = 0) then false else existsb (λ t, bool_decide (t = ctxType)) allowed.

Definition matchMethods (allowed : list string) (ctxMethod : string) : bool :=
  if decide (length allowed = 0) then true else existsb (λ m, bool_decide (m = ctxMethod)) allowed.

Definition matchLabelSelector (selector : string) (labels : Labels) : result selector_error bool :=
  parsed ← ParseLabelSelector selector; Ok (LabelSelector_Matches parsed labels).

Section matching.
Context (regexp_Compile : string → option (string → bool)).
Context (path_Match : string → string → option bool).

Definition PathMatch_Validate (vc : ValidationContext) (p : option PathMatch) : errors :=
  match p with
  | None => []
  | Some p =>
      fail_if (negb (IsValidPathMatchKind (pm_Kind p)))
        (NewErrorForField vc "kind" (InvalidKind (pm_Kind p)))
      ++ (if decide (pm_Value p = "") then NewErrorForField vc "value" EmptyValue
          else if decide (pm_Kind p = PathMatchKindRegex) then
            match regexp_Compile (pm_Value p) with
            | None => NewErrorForField vc "value" InvalidRegex
            | Some _ => []
            end
          else [])
  end.

Definition Selector_Validate (vc : ValidationContext) (s : Selector) : errors :=
  errs_from (λ i m, fail_if (bool_decide (m ∉ validHTTPMethods))
               (NewError (PushIndex (PushField vc "methods") i) (UnknownMethod m)))
    0 (sel_Methods s)
  ++ PathMatch_Validate (PushField vc "path_match") (sel_PathMatch s)
  ++ match sel_RequestTypes s with
     | Some [] => NewErrorForField vc "request_types" EmptyRequestTypes
     | _ => []
     end
  ++ errs_from (λ i t, fail_if (negb (IsValidRequestType t))
                  (NewError (PushIndex (PushField vc "request_types") i) (UnknownRequestType t)))
       0 (default [] (sel_RequestTypes s)).

Definition RateLimit_validate (vc : ValidationContext) (r : RateLimit) : errors :=
  fail_if (bool_decide (rl_Mode r ≠ "") && negb (IsValidMode (rl_Mode r)))
    (NewErrorForField vc "mode" (InvalidMode (rl_Mode r)))
  ++ Selector_Validate (PushField vc "selector") (rl_Selector r)
  ++ Bucket_Validate (PushField vc "bucket") (rl_Bucket r)
  ++ Algorithm_Validate (PushField vc "algorithm") (rl_Algorithm r).

Definition RateLimit_Validate (r : RateLimit) : errors := RateLimit_validate [] r.

Definition matchPath (pm : option PathMatch) (p : string) (urlPresent : bool) :
    result match_error bool :=
  match pm with
  | None => Ok true
  | Some pm =>
      if negb urlPresent then Ok false
      else if decide (pm_Kind pm = PathMatchKindPrefix) then Ok (HasPrefix p (pm_Value pm))
      else if decide (pm_Kind pm = PathMatchKindGlob) then
        match path_Match (pm_Value pm) p with Some ok => Ok ok | None => Err BadGlob end
      else if decide (pm_Kind pm = PathMatchKindRegex) then
        match regexp_Compile (pm_Value pm) with Some re => Ok (re p) | None => Err BadRegex end
      else Err (UnknownPathKind (pm_Kind pm))
  end.

(** The last clause of [MatchExplain] and its result. *)
Definition explain_path (rule : RateLimit) (ctx : RequestContext) : match_result :=
  match sel_PathMatch (rl_Selector rule) with
  | None => Matched (ResolveBucketKey rule (Some ctx))
  | Some pm =>
      let p := default "" (rc_UpstreamURL ctx) in
      match matchPath (Some pm) p (bool_decide (is_Some (rc_UpstreamURL ctx))) with
      | Err e => MatchFailed e
      | Ok false =>
          if bool_decide (is_Some (rc_UpstreamURL ctx))
          then Missed (PathMiss p (pm_Kind pm) (pm_Value pm))
          else Missed (NoURL (pm_Kind pm))
      | Ok true => Matched (ResolveBucketKey rule (Some ctx))
      end
  end.

Definition MatchExplain (rule : RateLimit) (ctx : option RequestContext) : match_result :=
  match ctx with
  | None => Missed NoRequestContext
  | Some ctx =>
      let sel := rl_Selector rule in
      if negb (matchRequestType (EffectiveRequestTypes (Some sel)) (rc_Type ctx))
      then Missed (RequestTypeMiss (rc_Type ctx))
      else if negb (matchMethods (sel_Methods sel) (rc_Method ctx))
      then Missed (MethodMiss (rc_Method ctx))
      else if decide (sel_LabelSelector sel = "") then explain_path rule ctx
      else match matchLabelSelector (sel_LabelSelector sel) (rc_Labels ctx) with
           | Err e => MatchFailed (LabelSelectorError e)
           | Ok false => Missed (LabelsMiss (sel_LabelSelector sel))
           | Ok true => explain_path rule ctx
           end
  end.

(** [Match] returns (matched, key, err) and drops the reason. *)
Definition Match (rule : RateLimit) (ctx : option RequestContext) :
    result match_error (option BucketKey) :=
  match MatchExplain rule ctx with
  | Matched k => Ok (Some k)
  | Missed _ => Ok None
  | MatchFailed e => Err e
  end.

(** ** Specification of matching

    What a rule selects, clause by clause: a list that is absent or empty
    stands for "any" (for request types, absent stands for the default). *)

Definition type_clause (rule : RateLimit) (ctx : RequestContext) : Prop :=
  rc_Type ctx ∈ match sel_RequestTypes (rl_Selector rule) with
                | None => [RequestTypeProxy; RequestTypeProbe]
                | Some l => l
                end.

Definition method_clause (rule : RateLimit) (ctx : RequestContext) : Prop :=
  sel_Methods (rl_Selector rule) = [] ∨ rc_Method ctx ∈ sel_Methods (rl_Selector rule).

Definition label_clause (rule : RateLimit) (ctx : RequestContext) : Prop :=
  sel_LabelSelector (rl_Selector rule) = "" ∨
  ∃ reqs, ParseLabelSelector (sel_LabelSelector (rl_Selector rule)) = Ok reqs ∧
    ∀ r, r ∈ reqs → requirement_holds (rc_Labels ctx) r = true.

Definition path_selects (pm : PathMatch) (p : string) : Prop :=
  (pm_Kind pm = "prefix" ∧ ∃ rest, p = pm_Value pm +:+ rest) ∨
  (pm_Kind pm = "glob" ∧ path_Match (pm_Value pm) p = Some true) ∨
  (pm_Kind pm = "regex" ∧ ∃ re, regexp_Compile (pm_Value pm) = Some re ∧ re p = true).

Definition path_clause (rule : RateLimit) (ctx : RequestContext) : Prop :=
  match sel_PathMatch (rl_Selector rule) with
  | None => True
  | Some pm => ∃ p, rc_UpstreamURL ctx = Some p ∧ path_selects pm p
  end.

Definition rule_selects (rule : RateLimit) (ctx : RequestContext) : Prop :=
  type_clause rule ctx ∧ method_clause rule ctx ∧ label_clause rule ctx ∧ path_clause rule ctx.

Implicit Types (rule : RateLimit) (ctx : RequestContext).

Lemma matchRequestType_spec allowed t : matchRequestType allowed t = true ↔ t ∈ allowed.
Proof.
  unfold matchRequestType. case_decide as Hl.
  - destruct allowed; [|done]. by rewrite elem_of_nil.
  - rewrite existsb_list_elem_of. setoid_rewrite bool_decide_eq_true. naive_solver.
Qed.

Lemma matchMethods_spec allowed m : matchMethods allowed m = true ↔ allowed = [] ∨ m ∈ allowed.
Proof.
  unfold matchMethods. case_decide as Hl.
  - destruct allowed; naive_solver.
  - rewrite existsb_list_elem_of. setoid_rewrite bool_decide_eq_true.
    destruct allowed; naive_solver.
Qed.

Lemma LabelSelector_Matches_spec reqs labels :
  LabelSelector_Matches reqs labels = true ↔ ∀ r, r ∈ reqs → requirement_holds labels r = true.
Proof.
  induction reqs as [|r reqs IH]; simpl.
  - split; [|done]. intros _ r Hr. by apply elem_of_nil in Hr.
  - destruct (requirement_holds labels r) eqn:Hr.
    + rewrite IH. split; [|by auto using list_elem_of_further].
      intros H r' [->|Hr']%elem_of_cons; auto.
    + split; [done|]. intros H. specialize (H r (list_elem_of_here _ _)). congruence.
Qed.

Lemma type_clause_spec rule ctx :
  matchRequestType (EffectiveRequestTypes (Some (rl_Selector rule))) (rc_Type ctx) = true
  ↔ type_clause rule ctx.
Proof. apply matchRequestType_spec. Qed.

Lemma method_clause_spec rule ctx :
  matchMethods (sel_Methods (rl_Selector rule)) (rc_Method ctx) = true ↔ method_clause rule ctx.
Proof. apply matchMethods_spec. Qed.

(** A path clause that evaluates agrees with [path_selects]. *)
Lemma matchPath_spec pm p b :
  matchPath (Some pm) p true = Ok b → (b = true ↔ path_selects pm p).
Proof.
  unfold matchPath, path_selects. cbn [negb].
  change PathMatchKindPrefix with "prefix". change PathMatchKindGlob with "glob".
  change PathMatchKindRegex with "regex".
  destruct (decide (pm_Kind pm = "prefix")) as [Hk|Hk].
  { intros [= <-]. rewrite HasPrefix_spec. split; [by left|].
    intros [[_ ?]|[[? _]|[? _]]]; [done|congruence..]. }
  destruct (decide (pm_Kind pm = "glob")) as [Hk'|Hk'].
  { destruct (path_Match _ _) as [b'|]; intros [= ->]. split; [intros ->; by right; left|].
    intros [[? _]|[[_ [= ?]]|[? _]]]; [congruence|done|congruence]. }
  destruct (decide (pm_Kind pm = "regex")) as [Hk''|Hk'']; [|done].
  destruct (regexp_Compile _) as [re|]; intros [= <-].
  split; [intros ?; right; right; by eauto|].
  intros [[? _]|[[? _]|[_ (re' & [= ->] & ?)]]]; [congruence..|done].
Qed.

(** When the evaluation of the path clause fails, the rule is malformed. *)
Definition malformed_path (pm : PathMatch) (p : string) (e : match_error) : Prop :=
  match e with
  | LabelSelectorError _ => False
  | BadGlob => pm_Kind pm = "glob" ∧ path_Match (pm_Value pm) p = None
  | BadRegex => pm_Kind pm = "regex" ∧ regexp_Compile (pm_Value pm) = None
  | UnknownPathKind k => pm_Kind pm = k ∧ IsValidPathMatchKind k = false
  end.

Lemma matchPath_error pm p e : matchPath (Some pm) p true = Err e → malformed_path pm p e.
Proof.
  unfold matchPath. cbn [negb]. intros H. unfold malformed_path, IsValidPathMatchKind.
  by repeat (case_decide || case_match); simplify_eq.
Qed.

(** What each outcome of [MatchExplain] says of the clauses, in their order. *)
Definition explained rule ctx (r : match_result) : Prop :=
  match r with
  | Matched k => rule_selects rule ctx ∧ k = ResolveBucketKey rule (Some ctx)
  | Missed NoRequestContext => False
  | Missed (RequestTypeMiss t) => t = rc_Type ctx ∧ ¬ type_clause rule ctx
  | Missed (MethodMiss m) => m = rc_Method ctx ∧ type_clause rule ctx ∧ ¬ method_clause rule ctx
  | Missed (LabelsMiss s) => s = sel_LabelSelector (rl_Selector rule) ∧
      type_clause rule ctx ∧ method_clause rule ctx ∧ ¬ label_clause rule ctx
  | Missed (NoURL k) => rc_UpstreamURL ctx = None ∧
      (∃ pm, sel_PathMatch (rl_Selector rule) = Some pm ∧ k = pm_Kind pm) ∧
      type_clause rule ctx ∧ method_clause rule ctx ∧ label_clause rule ctx ∧ ¬ path_clause rule ctx
  | Missed (PathMiss p k v) => rc_UpstreamURL ctx = Some p ∧
      sel_PathMatch (rl_Selector rule) = Some (mkPathMatch k v) ∧
      type_clause rule ctx ∧ method_clause rule ctx ∧ label_clause rule ctx ∧ ¬ path_clause rule ctx
  | MatchFailed (LabelSelectorError e) =>
      ParseLabelSelector (sel_LabelSelector (rl_Selector rule)) = Err e ∧
      type_clause rule ctx ∧ method_clause rule ctx
  | MatchFailed e =>
      (∃ pm p, sel_PathMatch (rl_Selector rule) = Some pm ∧ rc_UpstreamURL ctx = Some p ∧
        malformed_path pm p e) ∧
      type_clause rule ctx ∧ method_clause rule ctx ∧ label_clause rule ctx
  end.

Lemma explain_path_spec rule ctx :
  type_clause rule ctx → method_clause rule ctx → label_clause rule ctx →
  explained rule ctx (explain_path rule ctx).
Proof.
  intros Ht Hm Hl. unfold explain_path.
  destruct (sel_PathMatch (rl_Selector rule)) as [pm|] eqn:Hpm; cycle 1.
  { split; [|done]. repeat split; [done..|]. unfold path_clause. by rewrite Hpm. }
  destruct (rc_UpstreamURL ctx) as [p|] eqn:Hu; cycle 1.
  { rewrite bool_decide_false by apply is_Some_None. cbn [default matchPath negb].
    repeat split; [done|by eauto|done..|].
    unfold path_clause. rewrite Hpm, Hu. by intros (?&?&?). }
  rewrite bool_decide_true by eauto. cbn [default].
  destruct (matchPath (Some pm) (id p) true) as [e|b] eqn:Hmp.
  - apply matchPath_error in Hmp. destruct e; [done|..]; cbn [explained]; eauto 10.
  - apply matchPath_spec in Hmp.
    assert (path_clause rule ctx ↔ b = true) as Hc.
    { unfold path_clause. rewrite Hpm, Hu. rewrite Hmp. split; [|by eauto]. by intros (?&[= <-]&?). }
    destruct b; cbn [explained].
    + split; [|done]. repeat split; try done. by apply Hc.
    + rewrite Hc. destruct pm. repeat split; done.
Qed.

Lemma MatchExplain_spec rule ctx : explained rule ctx (MatchExplain rule (Some ctx)).
Proof.
  unfold MatchExplain. cbv zeta.
  pose proof (type_clause_spec rule ctx) as Ht. pose proof (method_clause_spec rule ctx) as Hm.
  destruct (matchRequestType _ _); cbn [negb]; [|by split; [done|]; rewrite <-Ht].
  destruct (matchMethods _ _); cbn [negb];
    [|by split; [done|]; split; [by apply Ht|]; rewrite <-Hm].
  pose proof (proj1 Ht eq_refl) as Ht'. pose proof (proj1 Hm eq_refl) as Hm'.
  case_decide as Hs; [apply explain_path_spec; try done; by left|].
  unfold matchLabelSelector. destruct (ParseLabelSelector _) as [e|reqs] eqn:Hp; cbn [mbind result_bind].
  { done. }
  pose proof (LabelSelector_Matches_spec reqs (rc_Labels ctx)) as Hr.
  destruct (LabelSelector_Matches _ _).
  - apply explain_path_spec; try done. right. exists reqs. split; [done|]. by apply Hr.
  - repeat split; try done. intros [?|(reqs' & Hp' & H)]; [done|].
    rewrite Hp in Hp'. injection Hp' as <-. apply Hr in H. done.
Qed.

Lemma missed_not_selected rule ctx r : explained rule ctx (Missed r) → ¬ rule_selects rule ctx.
Proof. intros H (Ht & Hm & Hl & Hp). destruct r; cbn [explained] in H; tauto. Qed.

Lemma malformed_not_selected pm p e : malformed_path pm p e → ¬ path_selects pm p.
Proof.
  intros H [[Hk _]|[[Hk Hg]|[Hk (re & Hre & _)]]]; destruct e as [| | |k]; cbn in H; try done;
    destruct H as [Hk' Hmal]; try congruence; subst k; by rewrite Hk in Hmal.
Qed.

Lemma failed_not_selected rule ctx e : explained rule ctx (MatchFailed e) → ¬ rule_selects rule ctx.
Proof.
  intros H (_ & _ & Hl & Hp).
  assert (∀ pm p, sel_PathMatch (rl_Selector rule) = Some pm → rc_UpstreamURL ctx = Some p →
    malformed_path pm p e → False) as Hpath.
  { intros pm p Hpm Hu Hmal. unfold path_clause in Hp. rewrite Hpm, Hu in Hp.
    destruct Hp as (? & [= <-] & Hsel). by eapply malformed_not_selected. }
  destruct e as [e| | |k]; cbn [explained] in H;
    [|destruct H as [(pm & p & Hpm & Hu & Hmal) _]; by eapply Hpath..].
  destruct H as [Hpe _]. destruct Hl as [Hs|(reqs & Hok & _)]; [|congruence].
  rewrite Hs in Hpe. done.
Qed.

Lemma Match_cases rule ctx :
  (∀ k, Match rule (Some ctx) = Ok (Some k) ↔
     rule_selects rule ctx ∧ k = ResolveBucketKey rule (Some ctx)) ∧
  (∀ reason, MatchExplain rule (Some ctx) = Missed reason →
     explained rule ctx (Missed reason) ∧ Match rule (Some ctx) = Ok None) ∧
  (∀ e, Match rule (Some ctx) = Err e → explained rule ctx (MatchFailed e)).
Proof.
  pose proof (MatchExplain_spec rule ctx) as H. unfold Match.
  destruct (MatchExplain rule (Some ctx)) as [k|r|e] eqn:He.
  - split; [|by split]. intros k'. split; [intros [= <-]; exact H|].
    intros [_ ->]. destruct H as [_ ->]. done.
  - split; [|by split; [intros ? [= <-]|]]. intros k'. split; [done|].
    intros [Hsel _]. by apply missed_not_selected in H.
  - split; [|by split; [|intros ? [= <-]]]. intros k'. split; [done|].
    intros [Hsel _]. by apply failed_not_selected in H.
Qed.

(** A rule matches a request exactly when all its clauses select it (the
    request type is in the list, or is proxy or probe when the list is
    omitted; the method list is empty or contains the method; every label
    requirement holds; the path satisfies the prefix, glob or regular
    expression), and then the counter is the projection on the rule's
    dimensions.  A miss names the first clause that fails, in the order type,
    method, labels, path; an error means that the selector string does not
    parse, the glob or the regular expression is malformed, or the kind of
    path match is unknown. *)
Theorem Match_exact rule ctx :
  (∀ k, Match rule (Some ctx) = Ok (Some k) ↔
     rule_selects rule ctx ∧ k = ResolveBucketKey rule (Some ctx)) ∧
  (∀ reason, MatchExplain rule (Some ctx) = Missed reason →
     explained rule ctx (Missed reason) ∧ Match rule (Some ctx) = Ok None) ∧
  (∀ e, Match rule (Some ctx) = Err e → explained rule ctx (MatchFailed e)).
Proof. apply Match_cases. Qed.
End matching.

(** ** What validation accepts *)

Definition well_formed_dimension (d : string) : Prop :=
  d ∈ reservedDimensions ∨ ∃ key, key ≠ "" ∧ d = "labels/" +:+ key.

Definition well_formed_algorithm (a : Algorithm) : Prop :=
  (∃ w l, a = mkAlgorithm (Some (mkFixedWindow w l)) None None ∧ (0 < w)%Z ∧ (0 < l)%Z) ∨
  (∃ w l m, a = mkAlgorithm None (Some (mkSlidingWindow w l m)) None ∧ (0 < w)%Z ∧ (0 < l)%Z ∧
     (m = "log" ∨ m = "counter")) ∨
  (∃ c q, a = mkAlgorithm None None (Some (mkTokenBucket c q)) ∧ (0 < c)%Z ∧ (0 < q)%Q).

Lemma fail_if_nil b vc e : fail_if b (NewError vc e) = [] ↔ b = false.
Proof. by destruct b. Qed.

Lemma fail_if_field_nil b vc f e : fail_if b (NewErrorForField vc f e) = [] ↔ b = false.
Proof. by destruct b. Qed.

Lemma errs_from_nil {A} (f : nat → A → errors) (P : A → Prop) i l :
  (∀ i x, f i x = [] ↔ P x) → errs_from f i l = [] ↔ ∀ x, x ∈ l → P x.
Proof.
  intros Hf. revert i. induction l as [|x l IH]; intros i; cbn [errs_from].
  - split; [|done]. by intros _ x Hx%elem_of_nil.
  - rewrite app_nil, Hf, IH. setoid_rewrite elem_of_cons. naive_solver.
Qed.

Lemma Algorithm_Validate_nil vc a : Algorithm_Validate vc a = [] ↔ well_formed_algorithm a.
Proof.
  unfold Algorithm_Validate, well_formed_algorithm.
  destruct a as [[[w l]|] [[w' l' m]|] [[c q]|]]; cbn;
    try (split; [done|intros [?|[?|?]]; naive_solver]);
    rewrite ?app_nil, ?app_nil_r, ?fail_if_field_nil, ?bool_decide_eq_false, ?negb_false_iff.
  - split; [intros ([? ?] & _); left; exists w, l; split; [done|lia]|].
    intros [(?&?&[= <- <-]&?&?)|[(?&?&?&[=]&_)|(?&?&[=]&_)]]. split; [lia|done].
  - unfold IsValidSlidingWindowMode. rewrite orb_true_iff, !bool_decide_eq_true. split.
    + intros ((? & ? & ?) & _). right; left. exists w', l', m. split; [done|]. split; [lia|]. by split; [lia|].
    + intros [(?&?&[=]&_)|[(?&?&?&[= <- <- <-]&?&?&?)|(?&?&[=]&_)]].
      split; [|done]. split; [lia|]. by split; [lia|].
  - assert (Qle_bool q 0 = false ↔ (0 < q)%Q) as Hq.
    { rewrite <-not_true_iff_false, Qle_bool_iff. split; [apply Qnot_le_lt|apply Qlt_not_le]. }
    rewrite Hq. split.
    + intros [? ?]. right; right. exists c, q. split; [done|]. by split; [lia|].
    + intros [(?&?&[=]&_)|[(?&?&?&[=]&_)|(?&?&[= <- <-]&?&?)]]. by split; [lia|].
Qed.

Lemma dimension_errors_nil vc d : d ≠ "" → dimension_errors vc d = [] ↔ well_formed_dimension d.
Proof.
  intros Hd. unfold dimension_errors, well_formed_dimension, IsReservedDimension.
  case_bool_decide as Hr; [by split; [left|]|].
  change "labels/" with LabelDimensionPrefix.
  destruct (HasPrefix d LabelDimensionPrefix) eqn:Hp; cbn [negb].
  - apply HasPrefix_spec in Hp as [key ->]. rewrite TrimPrefix_app, fail_if_nil, bool_decide_eq_false.
    split; [intros Hk; right; by eauto|]. intros [?|(key' & Hk & He)]; [done|].
    by apply (inj (String.app _)) in He as ->.
  - split; [done|]. intros [?|(key & _ & ->)]; [done|]. by rewrite HasPrefix_app in Hp.
Qed.

Lemma well_formed_dimension_nonempty d : well_formed_dimension d → d ≠ "".
Proof.
  intros [Hd|(key & _ & ->)]; [|done]. intros ->.
  assert (bool_decide ("" ∈ reservedDimensions) = false) as H by done.
  by apply bool_decide_eq_false in H.
Qed.

Lemma validate_dimensions_nil vc seen i dims :
  validate_dimensions vc seen i dims = [] ↔
  NoDup dims ∧ ∀ d, d ∈ dims → seen !! d = None ∧ well_formed_dimension d.
Proof.
  revert seen i. induction dims as [|d dims IH]; intros seen i; cbn [validate_dimensions].
  { split; [|done]. intros _. split; [constructor|]. by intros d Hd%elem_of_nil. }
  rewrite NoDup_cons. setoid_rewrite elem_of_cons. case_decide as Hd.
  { split; [done|]. intros [_ H]. by destruct (well_formed_dimension_nonempty d); [apply H; left|]. }
  destruct (seen !! d) as [prev|] eqn:Hs.
  { split; [done|]. intros [_ H]. destruct (H d (or_introl eq_refl)). congruence. }
  rewrite app_nil, dimension_errors_nil, IH by done. split.
  - intros (Hw & Hnd & H). split; [split; [|done]|].
    + intros Hin. destruct (H d Hin) as [Hl _]. by rewrite lookup_insert_eq in Hl.
    + intros d' [->|Hin]; [done|]. destruct (H d' Hin) as [Hl ?].
      by apply lookup_insert_None in Hl as [? _].
  - intros ([Hnin Hnd] & H). split; [by apply H; left|]. split; [done|].
    intros d' Hin. destruct (H d' (or_intror Hin)). split; [|done].
    apply lookup_insert_None. split; [done|]. by intros ->.
Qed.

Section validation.
Context (regexp_Compile : string → option (string → bool)).

Definition well_formed_path (p : option PathMatch) : Prop :=
  match p with
  | None => True
  | Some p => pm_Kind p ∈ ["prefix"; "glob"; "regex"] ∧ pm_Value p ≠ "" ∧
      (pm_Kind p = "regex" → is_Some (regexp_Compile (pm_Value p)))
  end.

Definition well_formed_selector (s : Selector) : Prop :=
  (∀ m, m ∈ sel_Methods s → m ∈ validHTTPMethods) ∧
  well_formed_path (sel_PathMatch s) ∧
  (∀ l, sel_RequestTypes s = Some l → l ≠ [] ∧ ∀ t, t ∈ l → t ∈ AllRequestTypes).

Definition well_formed_rule (r : RateLimit) : Prop :=
  rl_Mode r ∈ [""; "enforce"; "observe"] ∧
  well_formed_selector (rl_Selector r) ∧
  (NoDup (bk_Dimensions (rl_Bucket r)) ∧
    ∀ d, d ∈ bk_Dimensions (rl_Bucket r) → well_formed_dimension d) ∧
  well_formed_algorithm (rl_Algorithm r).

Lemma PathMatch_Validate_nil vc p :
  PathMatch_Validate regexp_Compile vc p = [] ↔ well_formed_path p.
Proof.
  destruct p as [[k v]|]; [|done]. unfold PathMatch_Validate, well_formed_path. cbn [pm_Kind pm_Value].
  rewrite app_nil, fail_if_field_nil, negb_false_iff.
  assert (IsValidPathMatchKind k = true ↔ k ∈ ["prefix"; "glob"; "regex"]) as ->.
  { unfold IsValidPathMatchKind. rewrite !orb_true_iff, !bool_decide_eq_true, !elem_of_cons, elem_of_nil.
    tauto. }
  apply and_iff_compat_l. case_decide as Hv; [by split; [|intros []]|].
  change PathMatchKindRegex with "regex". case_decide as Hk; [|by split].
  destruct (regexp_Compile v); [by split; [split; [|eauto]|]|].
  split; [done|]. intros [_ H]. by destruct (H Hk).
Qed.

Lemma Selector_Validate_nil vc s :
  Selector_Validate regexp_Compile vc s = [] ↔ well_formed_selector s.
Proof.
  unfold Selector_Validate, well_formed_selector.
  rewrite !app_nil, PathMatch_Validate_nil.
  rewrite (errs_from_nil _ (λ m, m ∈ validHTTPMethods)); cycle 1.
  { intros i m. rewrite fail_if_nil, bool_decide_eq_false. destruct (decide (m ∈ validHTTPMethods)); tauto. }
  rewrite (errs_from_nil _ (λ t, t ∈ AllRequestTypes)); cycle 1.
  { intros i t. rewrite fail_if_nil, negb_false_iff. unfold IsValidRequestType, AllRequestTypes.
    rewrite !orb_true_iff, !bool_decide_eq_true, !elem_of_cons, elem_of_nil. tauto. }
  do 2 apply and_iff_compat_l. destruct (sel_RequestTypes s) as [l|]; cbn [default].
  - split; [intros [Hl H] l' [= <-]; split; [by intros ->|done]|].
    intros H. destruct (H l eq_refl) as [Hl ?]. by split; [destruct l|].
  - split; [done|]. intros _. split; [done|]. by intros t Ht%elem_of_nil.
Qed.

(** validation of a rate-limit definition accepts exactly the well-formed
    ones: a known mode or none, known methods, a path match of a known kind
    with a non-empty value that compiles if it is a regular expression,
    request types omitted or a non-empty list of known ones, distinct
    dimensions each reserved or a label reference, and exactly one algorithm
    whose parameters are positive. *)
Theorem RateLimit_Validate_exact r :
  RateLimit_Validate regexp_Compile r = [] ↔ well_formed_rule r.
Proof.
  unfold RateLimit_Validate, RateLimit_validate, well_formed_rule, Bucket_Validate.
  rewrite !app_nil, fail_if_field_nil, Selector_Validate_nil, Algorithm_Validate_nil,
    validate_dimensions_nil.
  assert (bool_decide (rl_Mode r ≠ "") && negb (IsValidMode (rl_Mode r)) = false
    ↔ rl_Mode r ∈ [""; "enforce"; "observe"]) as ->.
  { unfold IsValidMode. rewrite andb_false_iff, negb_false_iff, orb_true_iff, bool_decide_eq_false,
      !bool_decide_eq_true, !elem_of_cons, elem_of_nil.
    destruct (decide (rl_Mode r = "")); tauto. }
  setoid_rewrite lookup_empty. naive_solver.
Qed.
End validation.

(** ** Bucket keys *)

Definition high_byte (a : ascii) : bool := negb (byte_in 0 127 a).

(** How [runes_of] reads a string. *)
Inductive decodes : string → list rune → Prop :=
  | decodes_nil : decodes "" []
  | decodes_ascii a s l : decodes s l → decodes (String a s) (RAscii a :: l)
  | decodes_multi p s l : str_forall high_byte p = true → decodes s l → decodes (p +:+ s) (RMulti p :: l)
  | decodes_invalid a s l : decodes s l → decodes (String a s) (RInvalid :: l).

Lemma byte_in_high lo hi a : (128 ≤ lo)%nat → byte_in lo hi a = true → high_byte a = true.
Proof.
  unfold high_byte, byte_in. intros Hlo H%bool_decide_eq_true.
  rewrite bool_decide_false; [done|lia].
Qed.

Ltac bytes_high :=
  repeat match goal with
  | H : _ || _ = true |- _ => apply orb_true_iff in H as [H|H]
  | H : _ && _ = true |- _ => apply andb_true_iff in H as [? ?]
  | H : utf8_cont _ = true |- _ => apply byte_in_high in H; [|lia]
  | H : byte_in _ _ _ = true |- _ => apply byte_in_high in H; [|lia]
  end.

Lemma runes_of_decodes s : decodes s (runes_of s).
Proof.
  induction (Nat.lt_wf_0_projected String.length s) as [s _ IH].
  destruct s as [|a s1]; [constructor|]. cbn [runes_of].
  assert (∀ s', (String.length s' < String.length (String a s1))%nat → decodes s' (runes_of s')) as IH'.
  { done. }
  case_match; [constructor; apply IH'; simpl; lia|].
  destruct s1 as [|b s2]; [constructor; apply IH'; simpl; lia|].
  destruct (utf8_len2 a b) eqn:H2.
  { apply (decodes_multi (String a (String b ""))); [|apply IH'; simpl; lia].
    unfold utf8_len2 in H2. bytes_high. simpl. by repeat (apply andb_true_intro; split). }
  destruct s2 as [|c s3]; [constructor; apply IH'; simpl; lia|].
  destruct (utf8_len3 a b c) eqn:H3.
  { apply (decodes_multi (String a (String b (String c "")))); [|apply IH'; simpl; lia].
    unfold utf8_len3 in H3. bytes_high; simpl; by repeat (apply andb_true_intro; split). }
  destruct s3 as [|d s4]; [constructor; apply IH'; simpl; lia|].
  destruct (utf8_len4 a b c d) eqn:H4; [|constructor; apply IH'; simpl; lia].
  apply (decodes_multi (String a (String b (String c (String d ""))))); [|apply IH'; simpl; lia].
  unfold utf8_len4 in H4. bytes_high; simpl; by repeat (apply andb_true_intro; split).
Qed.

(** The escape, byte by byte: what [escapeBucketField] computes on valid
    UTF-8. *)
Fixpoint escape_bytes (s : string) : string :=
  match s with "" => "" | String a s => escape_ascii a +:+ escape_bytes s end.

Lemma high_byte_not_reserved a c : high_byte c = false → high_byte a = true → a ≠ c.
Proof. intros ?? ->. congruence. Qed.

Lemma escape_ascii_high a : high_byte a = true → escape_ascii a = String a "".
Proof.
  intros Ha. unfold escape_ascii.
  by rewrite !decide_False by (by apply high_byte_not_reserved).
Qed.

Lemma escape_ascii_no_char a c : c ∈ ["|"%char; "="%char] → no_char c (escape_ascii a) = true.
Proof.
  intros Hc. assert (c = "|"%char ∨ c = "="%char) as Hc' by set_solver.
  unfold escape_ascii. repeat case_decide; try (by destruct Hc' as [->| ->]).
  unfold no_char; simpl. rewrite bool_decide_true by naive_solver. done.
Qed.

Lemma escape_bytes_app a b : escape_bytes (a +:+ b) = escape_bytes a +:+ escape_bytes b.
Proof.
  induction a as [|x a IH]; [done|]. rewrite str_cons_app. cbn [escape_bytes].
  by rewrite IH, str_app_assoc.
Qed.

Lemma escape_bytes_high p : str_forall high_byte p = true → escape_bytes p = p.
Proof.
  induction p as [|a p IH]; [done|]. cbn [escape_bytes str_forall]. intros H; bool_simpl.
  by rewrite escape_ascii_high, IH.
Qed.

Lemma escape_runes_valid s : valid_utf8 s = true → escape_runes s = escape_bytes s.
Proof.
  unfold valid_utf8, escape_runes.
  induction (runes_of_decodes s) as [|a s l _ IH|p s l Hp _ IH|a s l _ IH]; cbn [forallb foldr escape_rune].
  - done.
  - intros H; bool_simpl. cbn [escape_bytes]. by rewrite IH.
  - intros H; bool_simpl. by rewrite escape_bytes_app, escape_bytes_high, IH.
  - done.
Qed.

Lemma escape_bytes_plain s : str_forall (λ a, negb (reserved_byte a)) s = true → escape_bytes s = s.
Proof.
  induction s as [|a s IH]; [done|]. cbn [escape_bytes str_forall]. intros H; bool_simpl.
  rewrite IH by done. unfold reserved_byte in *. bool_simpl. unfold escape_ascii.
  by rewrite !decide_False.
Qed.

Lemma escapeBucketField_valid s : valid_utf8 s = true → escapeBucketField s = escape_bytes s.
Proof.
  intros H. unfold escapeBucketField. case_match eqn:Hr; [by rewrite escape_bytes_plain|].
  by apply escape_runes_valid.
Qed.

Lemma escape_ascii_inj a b x y :
  escape_ascii a +:+ x = escape_ascii b +:+ y → a = b ∧ x = y.
Proof.
  unfold escape_ascii. intros H.
  repeat case_decide; subst; cbv [String.app] in H; by simplify_eq.
Qed.

Lemma escape_bytes_inj s s' : escape_bytes s = escape_bytes s' → s = s'.
Proof.
  assert (∀ a x, escape_ascii a +:+ x ≠ "") as Hne.
  { intros a x. unfold escape_ascii. by repeat case_decide. }
  revert s'. induction s as [|a s IH]; intros [|b s']; cbn [escape_bytes]; intros H.
  - done.
  - by destruct (Hne b (escape_bytes s')).
  - by destruct (Hne a (escape_bytes s)).
  - apply escape_ascii_inj in H as [-> H]. by rewrite (IH s').
Qed.

Lemma escape_runes_no_char s c : c ∈ ["|"%char; "="%char] → no_char c (escape_runes s) = true.
Proof.
  intros Hc. assert (high_byte c = false) as Hh.
  { assert (c = "|"%char ∨ c = "="%char) as [->| ->] by set_solver; done. }
  unfold escape_runes.
  induction (runes_of_decodes s) as [|a s l _ IH|p s l Hp _ IH|a s l _ IH];
    cbn [foldr escape_rune]; [done| | |]; rewrite no_char_app, IH, andb_true_r.
  - by apply escape_ascii_no_char.
  - by eapply no_char_class.
  - by apply (no_char_class high_byte).
Qed.

Lemma escapeBucketField_no_char s c :
  c ∈ ["|"%char; "="%char] → no_char c (escapeBucketField s) = true.
Proof.
  intros Hc. unfold escapeBucketField. case_match eqn:Hr; [|by apply escape_runes_no_char].
  apply (no_char_class (λ a, negb (reserved_byte a))); [|done].
  assert (c = "|"%char ∨ c = "="%char) as [->| ->] by set_solver; done.
Qed.

Definition component_valid (c : BucketKeyComponent) : Prop :=
  valid_utf8 (bc_Name c) = true ∧ valid_utf8 (bc_Value c) = true.

Lemma component_string_inj c c' :
  component_valid c → component_valid c' → component_string c = component_string c' → c = c'.
Proof.
  destruct c as [n v], c' as [n' v']. unfold component_valid, component_string. cbn [bc_Name bc_Value].
  intros [Hn Hv] [Hn' Hv'] H. apply (f_equal (λ s, Split s "=")) in H.
  rewrite !Split_app, !Split_no_char in H by (apply escapeBucketField_no_char; set_solver).
  injection H as H1 H2. rewrite !escapeBucketField_valid in H1, H2 by done.
  apply escape_bytes_inj in H1 as ->. by apply escape_bytes_inj in H2 as ->.
Qed.

Lemma component_string_no_bar c : no_char "|" (component_string c) = true.
Proof.
  unfold component_string. rewrite no_char_app.
  change (String "=" ?s) with ("=" +:+ s). rewrite no_char_app.
  by rewrite !escapeBucketField_no_char by set_solver.
Qed.

Lemma component_string_has_eq c : no_char "=" (component_string c) = false.
Proof. unfold component_string. by rewrite no_char_app, no_char_cons_eq, andb_false_r. Qed.

(** The string form of a bucket key determines the key. *)
Lemma BucketKey_String_inj k k' :
  Forall component_valid (bk_Components k) → Forall component_valid (bk_Components k') →
  BucketKey_String k = BucketKey_String k' → k = k'.
Proof.
  assert (∀ l, l ≠ [] → Join (map component_string l) "|" ≠ "*") as Hstar.
  { intros [|c l] Hl H; [done|]. assert (no_char "=" "*" = true) as Hn by done.
    rewrite <-H in Hn. pose proof (component_string_has_eq c) as Hc.
    destruct l; cbn [map] in Hn; [cbn [Join] in Hn; congruence|].
    rewrite Join_cons, no_char_app in Hn by done. bool_simpl. congruence. }
  destruct k as [l], k' as [l']. unfold BucketKey_String, IsGlobal. cbn [bk_Components].
  intros Hv Hv' H. f_equal.
  destruct (decide (l = [])) as [->|Hl], (decide (l' = [])) as [->|Hl']; [done|..].
  all: rewrite ?(bool_decide_true (length [] = 0)), ?(bool_decide_false (length l = 0)),
    ?(bool_decide_false (length l' = 0)) in H by (done || by intros ?%nil_length_inv).
  { by destruct (Hstar l' Hl'). }
  { by destruct (Hstar l Hl). }
  apply Join_inj in H; [|by destruct l|by destruct l'|..];
    [|apply Forall_map, Forall_true; intros; apply component_string_no_bar..].
  clear Hl Hl' Hstar. revert l' Hv' H.
  induction Hv as [|c l Hc Hv IH]; intros [|c' l'] Hv' H; try done.
  inversion Hv' as [|?? Hc' Hv'']; subst. injection H as H1 H2.
  apply component_string_inj in H1 as ->; [|done..]. f_equal. by apply IH.
Qed.

Lemma ResolveBucketKey_components rule ctx :
  bk_Components (ResolveBucketKey rule ctx)
  = map (λ d, mkComponent d (resolveDimension d ctx)) (bk_Dimensions (rl_Bucket rule)).
Proof. unfold ResolveBucketKey. by destruct (bk_Dimensions (rl_Bucket rule)). Qed.

(** The dimensions and the values they resolve to are valid UTF-8. *)
Definition dimensions_valid (rule : RateLimit) (ctx : RequestContext) : Prop :=
  ∀ d, d ∈ bk_Dimensions (rl_Bucket rule) →
    valid_utf8 d = true ∧ valid_utf8 (resolveDimension d (Some ctx)) = true.

Lemma dimensions_valid_components rule ctx :
  dimensions_valid rule ctx → Forall component_valid (bk_Components (ResolveBucketKey rule (Some ctx))).
Proof.
  intros H. rewrite ResolveBucketKey_components, Forall_map, Forall_forall. exact H.
Qed.

(** Two requests are counted in the same bucket of a rule exactly when
    every dimension of the rule resolves to the same value for both, whatever
    separators, escapes or spaces the values contain; the rendered key of a
    rule with dimensions is never the one of a rule without. *)
Theorem bucket_keys_separate rule rule' ctx ctx' :
  dimensions_valid rule ctx → dimensions_valid rule' ctx' →
  BucketKey_String (ResolveBucketKey rule (Some ctx)) = BucketKey_String (ResolveBucketKey rule' (Some ctx')) ↔
  bk_Dimensions (rl_Bucket rule) = bk_Dimensions (rl_Bucket rule') ∧
  ∀ d, d ∈ bk_Dimensions (rl_Bucket rule) →
    resolveDimension d (Some ctx) = resolveDimension d (Some ctx').
Proof.
  intros Hv Hv'. split.
  - intros H. apply BucketKey_String_inj in H; [|by apply dimensions_valid_components..].
    apply (f_equal bk_Components) in H. rewrite !ResolveBucketKey_components in H. clear Hv Hv'.
    revert H. generalize (bk_Dimensions (rl_Bucket rule')). generalize (bk_Dimensions (rl_Bucket rule)).
    induction l as [|d l IH]; intros [|d' l'] H; try done.
    { split; [done|]. by intros d Hd%elem_of_nil. }
    injection H as <- Hd H. destruct (IH l' H) as [<- Hl]. split; [done|].
    by intros d' [->|Hin]%elem_of_cons; [|apply Hl].
  - intros [Hd Hval]. f_equal. unfold ResolveBucketKey. rewrite <-Hd.
    destruct (bk_Dimensions (rl_Bucket rule)) as [|d l]; [done|]. f_equal.
    apply map_ext_in. intros d' Hin. f_equal. apply Hval. by apply list_elem_of_In.
Qed.

(** ** Instances *)

Definition sample_context (actor team : string) : RequestContext :=
  mkRequestContext "proxy" "GET" (Some "/v1/items") "root.acme" actor "cxn_1" "cxr_1" 3 {["team" := team]}.

Definition sample_rule (dims : list string) : RateLimit :=
  mkRateLimit "" (mkSelector "team" ["GET"] (Some (mkPathMatch "prefix" "/v1")) None) (mkBucket dims)
    (mkAlgorithm (Some (mkFixedWindow (10 * Second) 2)) None None).

Lemma bucket_keys_separate_witness :
  BucketKey_String (ResolveBucketKey (sample_rule ["actor"; "labels/team"]) (Some (sample_context "a|b" "x=y")))
  ≠ BucketKey_String (ResolveBucketKey (sample_rule ["actor"; "labels/team"]) (Some (sample_context "a" "b|x=y"))).
Proof.
  intros H. apply bucket_keys_separate in H as [_ H].
  - specialize (H "actor" (list_elem_of_here _ _)). by vm_compute in H.
  - intros d Hd. repeat (apply elem_of_cons in Hd as [->|Hd]; [by vm_compute|]). by apply elem_of_nil in Hd.
  - intros d Hd. repeat (apply elem_of_cons in Hd as [->|Hd]; [by vm_compute|]). by apply elem_of_nil in Hd.
Defined.
