(* ===== verification/Redis.v ===== *)
(** * Redis and its scripts

    The Redis server the program talks to, as an interface: the documented
    effect of each command the program issues on the key it names ([exec]),
    and a class of servers that implement those commands, keep other keys
    unchanged and expire keys with time.  The components that use Redis are
    proved against the class; [map_server] shows that it can be implemented.

    Lua numbers are an interface too ([LuaNum]): doubles are exact on integers
    up to [2^53], which is what the scripts rely on. *)

From Stdlib Require Import QArith Qround.
From S2P Require Import Prelude GoNumbers GoStrings.
Open Scope string_scope.
Open Scope list_scope.

(** ** Values and commands *)

(** A string that holds a decimal integer is [VInt] (the values [INCR] works
    on); a sorted set is the list of (score, member) in increasing order. *)
Inductive rvalue : Type :=
  | VInt (z : Z)
  | VText (s : string)
  | VZSet (l : list (Z * string))
  | VHash (h : gmap string string)
  | VList (l : list string).

(** A live key: its value and the absolute time (ms) at which it expires. *)
Record entry := mkEntry { e_value : rvalue; e_expire : option Z }.

Inductive redis_error : Type := WrongType | NotAnInteger | InvalidExpireTime | LuaError.

(** Commands on one key, with the type of their reply. *)
Inductive cmd : Type → Type :=
  | INCR : cmd Z
  | GET : cmd (option string)
  | SET_PX (v : string) (ms : Z) : cmd unit
  | DEL : cmd unit
  | PTTL : cmd Z
  | PEXPIRE (ms : Z) : cmd unit
  | ZREMRANGEBYSCORE (lo hi : Z) : cmd unit
  | ZCARD : cmd Z
  | ZADD (score : Z) (member : string) : cmd unit
  | ZRANGE_first : cmd (option (Z * string))
  | ZCOUNT_above (lo : Z) : cmd Z
  | ZRANGEBYSCORE_first_above (lo : Z) : cmd (option (Z * string))
  | HMGET2 (f1 f2 : string) : cmd (option string * option string)
  | HSET2 (f1 v1 f2 v2 : string) : cmd unit
  | SET (v : string) : cmd unit
  | SET_KEEPTTL (v : string) : cmd unit
  | LPUSH (v : string) : cmd unit
  | LTRIM_0 (stop : Z) : cmd unit
  | LRANGE_all : cmd (list string).

(** ** Sorted sets *)

Definition zentry_ltb (a b : Z * string) : bool :=
  (fst a <? fst b)%Z || ((fst a =? fst b)%Z && String.ltb (snd a) (snd b)).

Fixpoint zset_insert (x : Z * string) (l : list (Z * string)) : list (Z * string) :=
  match l with
  | [] => [x]
  | y :: l' => if zentry_ltb x y then x :: l else y :: zset_insert x l'
  end.

Definition zset_add (score : Z) (member : string) (l : list (Z * string)) : list (Z * string) :=
  zset_insert (score, member) (filter (λ x, snd x ≠ member) l).

Definition zset_above (lo : Z) (l : list (Z * string)) : list (Z * string) :=
  filter (λ x, lo < fst x)%Z l.

(** ** The documented effect of a command on its key *)

Definition zset_entry (l : list (Z * string)) (ex : option Z) : option entry :=
  match l with [] => None | _ => Some (mkEntry (VZSet l) ex) end.

(** Commands that read or write a sorted set: a missing key is the empty set,
    another type is an error. *)
Definition on_zset {R} (o : option entry)
    (f : list (Z * string) → option Z → R * option entry) : result redis_error R * option entry :=
  match o with
  | None => let '(r, o') := f [] None in (Ok r, o')
  | Some (mkEntry (VZSet l) ex) => let '(r, o') := f l ex in (Ok r, o')
  | Some _ => (Err WrongType, o)
  end.

Definition on_hash {R} (o : option entry)
    (f : gmap string string → option Z → R * option entry) : result redis_error R * option entry :=
  match o with
  | None => let '(r, o') := f ∅ None in (Ok r, o')
  | Some (mkEntry (VHash h) ex) => let '(r, o') := f h ex in (Ok r, o')
  | Some _ => (Err WrongType, o)
  end.

Definition on_list {R} (o : option entry)
    (f : list string → option Z → R * option entry) : result redis_error R * option entry :=
  match o with
  | None => let '(r, o') := f [] None in (Ok r, o')
  | Some (mkEntry (VList l) ex) => let '(r, o') := f l ex in (Ok r, o')
  | Some _ => (Err WrongType, o)
  end.

Definition list_entry (l : list string) (ex : option Z) : option entry :=
  match l with [] => None | _ => Some (mkEntry (VList l) ex) end.

(** The elements from the first to index [stop], which counts from the end
    when it is negative. *)
Definition ltrim (stop : Z) (l : list string) : list string :=
  take (Z.to_nat ((if (stop <? 0)%Z then stop + Z.of_nat (length l) else stop) + 1)) l.

(** How a string written by [SET] is seen by later commands. *)
Definition string_value (v : string) : rvalue :=
  match ParseInt v with
  | Some z => if decide (FormatInt z = v) then VInt z else VText v
  | None => VText v
  end.

Definition exec {R} (c : cmd R) (now : Z) (o : option entry) :
    result redis_error R * option entry :=
  match c with
  | INCR =>
      match o with
      | None => (Ok 1%Z, Some (mkEntry (VInt 1) None))
      | Some (mkEntry (VInt n) ex) =>
          if decide (n + 1 < 2 ^ 63)%Z then (Ok (n + 1)%Z, Some (mkEntry (VInt (n + 1)) ex))
          else (Err NotAnInteger, o)
      | Some (mkEntry (VText _) _) => (Err NotAnInteger, o)
      | Some _ => (Err WrongType, o)
      end
  | GET =>
      match o with
      | None => (Ok None, o)
      | Some (mkEntry (VInt n) _) => (Ok (Some (FormatInt n)), o)
      | Some (mkEntry (VText s) _) => (Ok (Some s), o)
      | Some _ => (Err WrongType, o)
      end
  | SET_PX v ms =>
      if decide (ms ≤ 0)%Z then (Err InvalidExpireTime, o)
      else (Ok tt, Some (mkEntry (string_value v) (Some (now + ms)%Z)))
  | DEL => (Ok tt, None)
  | PTTL =>
      (Ok match o with
          | None => (-2)%Z
          | Some e => match e_expire e with None => (-1)%Z | Some x => (x - now)%Z end
          end, o)
  | PEXPIRE ms =>
      (Ok tt, match o with
              | None => None
              | Some e => if decide (ms ≤ 0)%Z then None
                          else Some (mkEntry (e_value e) (Some (now + ms)%Z))
              end)
  | ZREMRANGEBYSCORE lo hi =>
      on_zset o (λ l ex, (tt, zset_entry (filter (λ x, ¬ (lo ≤ fst x ≤ hi)%Z) l) ex))
  | ZCARD => on_zset o (λ l ex, (Z.of_nat (length l), o))
  | ZADD score member => on_zset o (λ l ex, (tt, zset_entry (zset_add score member l) ex))
  | ZRANGE_first => on_zset o (λ l ex, (head l, o))
  | ZCOUNT_above lo => on_zset o (λ l ex, (Z.of_nat (length (zset_above lo l)), o))
  | ZRANGEBYSCORE_first_above lo => on_zset o (λ l ex, (head (zset_above lo l), o))
  | HMGET2 f1 f2 => on_hash o (λ h ex, ((h !! f1, h !! f2), o))
  | HSET2 f1 v1 f2 v2 =>
      on_hash o (λ h ex, (tt, Some (mkEntry (VHash (<[f2 := v2]> (<[f1 := v1]> h))) ex)))
  | SET v => (Ok tt, Some (mkEntry (string_value v) None))
  | SET_KEEPTTL v => (Ok tt, Some (mkEntry (string_value v) (o ≫= e_expire)))
  | LPUSH v => on_list o (λ l ex, (tt, Some (mkEntry (VList (v :: l)) ex)))
  | LTRIM_0 stop => on_list o (λ l ex, (tt, list_entry (ltrim stop l) ex))
  | LRANGE_all => on_list o (λ l ex, (l, o))
  end.

(** ** Servers *)

(** [live t e]: the key has not reached its expiry time. *)
Definition live (t : Z) (e : entry) : Prop :=
  match e_expire e with None => True | Some x => (t < x)%Z end.

#[export] Instance live_dec t e : Decision (live t e).
Proof. unfold live. destruct (e_expire e); apply _. Defined.

(** A Redis server: [lookup s t k] is what key [k] holds at time [t] (ms, the
    server's clock), [None] when it is missing or expired.  At the
    very millisecond it expires a key may be there or not. *)
Class RedisServer (S : Type) := {
  lookup : S → Z → string → option entry;
  call : ∀ {R}, cmd R → string → Z → S → result redis_error R * S;
  call_reply {R} (c : cmd R) k t s : (call c k t s).1 = (exec c t (lookup s t k)).1;
  call_same {R} (c : cmd R) k t s :
    lookup (call c k t s).2 t k = (exec c t (lookup s t k)).2;
  call_other {R} (c : cmd R) k k' t s : k' ≠ k → lookup (call c k t s).2 t k' = lookup s t k';
  lookup_later s t t' k : (t ≤ t')%Z → lookup s t' k = lookup s t k ∨
    (lookup s t' k = None ∧ ∃ e x, lookup s t k = Some e ∧ e_expire e = Some x ∧ (x ≤ t')%Z);
  lookup_expired s t t' k e x : (t ≤ t')%Z → lookup s t k = Some e → e_expire e = Some x →
    (x < t')%Z → lookup s t' k = None
}.

(** *** A server that keeps its keys in a map *)

Definition map_lookup (s : gmap string entry) (t : Z) (k : string) : option entry :=
  e ← s !! k; if decide (live t e) then Some e else None.

Definition map_call {R} (c : cmd R) (k : string) (t : Z) (s : gmap string entry) :
    result redis_error R * gmap string entry :=
  let '(r, o) := exec c t (map_lookup s t k) in
  (r, match o with Some e => <[k := e]> s | None => delete k s end).

Lemma exec_live {R} (c : cmd R) t o e :
  (∀ e, o = Some e → live t e) → (exec c t o).2 = Some e → live t e.
Proof.
  intros Ho. destruct c; cbn [exec]; unfold on_zset, on_hash, on_list, zset_entry, list_entry;
    repeat (case_decide || case_match); simplify_eq/=; intros; simplify_eq/=; try done; eauto.
  all: try (unfold live; cbn; lia).
  all: try (by apply (Ho _ eq_refl)).
  unfold live. cbn. destruct o as [e|]; [|done]. by apply (Ho e).
Qed.

Lemma map_lookup_live s t k e : map_lookup s t k = Some e ↔ s !! k = Some e ∧ live t e.
Proof.
  unfold map_lookup. destruct (s !! k) as [e'|]; cbn; [|by split; [|intros []]].
  case_decide; split; [by intros [= ->]|by intros [[= ->] _]|done|by intros [[= ->] ?]].
Qed.

#[export] Instance map_server : RedisServer (gmap string entry).
Proof.
  refine {| lookup := map_lookup; call := @map_call |}.
  - intros R c k t s. unfold map_call. by destruct (exec _ _ _).
  - intros R c k t s. unfold map_call. destruct (exec c t (map_lookup s t k)) as [r o] eqn:He.
    destruct o as [e|]; cbn [snd].
    + apply map_lookup_live. split; [apply lookup_insert_eq|].
      eapply (exec_live c t (map_lookup s t k)); [|by rewrite He].
      by intros e' [_ ?]%map_lookup_live.
    + unfold map_lookup. by rewrite lookup_delete_eq.
  - intros R c k k' t s Hk. unfold map_call, map_lookup. destruct (exec _ _ _) as [r [e|]]; cbn [snd].
    + by rewrite lookup_insert_ne.
    + by rewrite lookup_delete_ne.
  - intros s t t' k Ht. unfold map_lookup. destruct (s !! k) as [e|]; [|by left]. cbn.
    destruct (decide (live t' e)) as [Hl|Hl].
    + left. rewrite decide_True; [done|]. unfold live in *. destruct (e_expire e); [lia|done].
    + destruct (decide (live t e)); [right|by left]. split; [done|].
      unfold live in *. destruct (e_expire e) as [x|] eqn:Hx; [|done]. exists e, x. split; [done|]. split; [done|lia].
  - intros s t t' k e x _ [Hk _]%map_lookup_live Hx Hlt. unfold map_lookup. rewrite Hk. cbn.
    rewrite decide_False; [done|]. unfold live. rewrite Hx. lia.
Defined.

(** A live key stays, and a missing key stays missing, until a command. *)
Lemma lookup_live {S : Type} `{RedisServer S} (s : S) t t' k e :
  (t ≤ t')%Z → lookup s t k = Some e → live t' e → lookup s t' k = Some e.
Proof.
  intros Ht He Hl. destruct (lookup_later s t t' k Ht) as [->|(_ & e' & x & He' & Hx & Hle)]; [done|].
  rewrite He in He'. injection He' as <-. unfold live in Hl. rewrite Hx in Hl. lia.
Qed.

Lemma lookup_missing {S : Type} `{RedisServer S} (s : S) t t' k :
  (t ≤ t')%Z → lookup s t k = None → lookup s t' k = None.
Proof.
  intros Ht Hn. destruct (lookup_later s t t' k Ht) as [->|(? & _)]; done.
Qed.

(** ** Scripts

    A script runs atomically, at one instant; an error raised by a command
    aborts it and keeps what it wrote before. *)
Definition script (S A : Type) : Type := Z → S → result redis_error A * S.

#[export] Instance script_ret {S} : MRet (script S) := λ A a _ s, (Ok a, s).
#[export] Instance script_bind {S} : MBind (script S) := λ A B f m t s,
  match m t s with (Err e, s') => (Err e, s') | (Ok a, s') => f a t s' end.

Definition redis_call {S} `{RedisServer S} {R} (c : cmd R) (k : string) : script S R := λ t s, call c k t s.

Definition raise {S A} (e : redis_error) : script S A := λ _ s, (Err e, s).

(** [tonumber(redis.call('GET', key) or '0')] used as a number, on keys that
    hold integers; arithmetic on nil raises. *)
Definition get_number {S} `{RedisServer S} (k : string) : script S Z :=
  v ← redis_call GET k;
  match v with
  | None => mret 0%Z
  | Some v => match ParseInt v with Some n => mret n | None => raise LuaError end
  end.

(** What go-redis hands back for a script's reply. *)
Inductive redis_reply : Type :=
  | ReplyInt (z : Z)
  | ReplyString (s : string)
  | ReplyArray (l : list redis_reply)
  | ReplyNil.

Definition reply_pair (a b : Z) : redis_reply := ReplyArray [ReplyInt a; ReplyInt b].

(** Running a script or command over a connection that may fail: before the
    server received the request, or after it executed it. *)
Inductive link : Type := LinkUp | RequestLost | ReplyLost.

#[export] Instance link_eq_dec : EqDecision link.
Proof. solve_decision. Defined.

Inductive client_error : Type := NetworkError | ServerError (e : redis_error).

Definition Run {S A} (l : link) (p : script S A) (t : Z) (s : S) : result client_error A * S :=
  match l with
  | RequestLost => (Err NetworkError, s)
  | ReplyLost => (Err NetworkError, (p t s).2)
  | LinkUp => let '(r, s') := p t s in
              (match r with Ok a => Ok a | Err e => Err (ServerError e) end, s')
  end.

(** *** Durations in go-redis

    [Set] with a duration of nanoseconds: zero or less is no expiry, except
    [KeepTTL] (-1); [Expire] is in seconds.  A positive duration below the
    unit counts as one. *)
Definition formatMs (dur : Z) : Z := if (0 <? dur)%Z && (dur <? 1000000)%Z then 1%Z else (dur ÷ 1000000)%Z.
Definition formatSec (dur : Z) : Z := if (0 <? dur)%Z && (dur <? 1000000000)%Z then 1%Z else (dur ÷ 1000000000)%Z.

Definition client_Set (v : string) (dur : Z) : cmd unit :=
  if (0 <? dur)%Z then SET_PX v (formatMs dur) else if (dur =? -1)%Z then SET_KEEPTTL v else SET v.
Definition client_Expire (dur : Z) : cmd unit := PEXPIRE (1000 * formatSec dur).

(** ** Lua numbers *)

Class LuaNum (F : Type) := {
  n_of_Z : Z → F;
  n_add : F → F → F;
  n_sub : F → F → F;
  n_mul : F → F → F;
  n_div : F → F → F;
  n_min : F → F → F;
  n_ltb : F → F → bool;
  n_floor : F → F;
  n_ceil : F → F;
  n_to_int : F → Z;               (** conversion of a reply: truncation *)
  n_tostring : F → string;
  n_tonumber : string → option F
}.

(** Doubles are exact on integers of at most 53 bits, and [x * (a / b)] with
    [a ≤ b] does not exceed [x], since correctly rounded operations are
    monotone. *)
Definition exact_int (z : Z) : Prop := (Z.abs z ≤ 2 ^ 53)%Z.

Class LuaNumLaws (F : Type) `{LuaNum F} : Prop := {
  n_sub_exact a b : exact_int a → exact_int b → exact_int (a - b) →
    n_sub (n_of_Z a) (n_of_Z b) = n_of_Z (a - b);
  n_ltb_exact a b : exact_int a → exact_int b → n_ltb (n_of_Z a) (n_of_Z b) = (a <? b)%Z;
  n_floor_exact a : exact_int a → n_floor (n_of_Z a) = n_of_Z a;
  n_to_int_exact a : exact_int a → n_to_int (n_of_Z a) = a;
  n_floor_weight p a b : exact_int p → exact_int b → (0 ≤ p)%Z → (0 ≤ a ≤ b)%Z → (0 < b)%Z →
    (0 ≤ n_to_int (n_floor (n_mul (n_of_Z p) (n_div (n_of_Z a) (n_of_Z b)))) ≤ p)%Z
}.

(** Exact rationals satisfy the laws. *)
#[export] Instance Q_num : LuaNum Q := {|
  n_of_Z := inject_Z; n_add := Qplus; n_sub := λ a b, Qred (Qminus a b); n_mul := Qmult; n_div := Qdiv;
  n_min := λ a b, if Qle_bool a b then a else b;
  n_ltb := λ a b, negb (Qle_bool b a);
  n_floor := λ a, inject_Z (Qfloor a); n_ceil := λ a, inject_Z (Qceiling a); n_to_int := Qfloor;
  n_tostring := λ a, FormatInt (Qnum a) +:+ String "/" (FormatInt (Zpos (Qden a)));
  n_tonumber := λ s,
    match Split s "/" with
    | [a] => inject_Z <$> ParseInt a
    | [a; b] => x ← ParseInt a; y ← ParseInt b; Some (x # Z.to_pos y)
    | _ => None
    end
|}.

#[export] Instance Q_num_laws : LuaNumLaws Q.
Proof.
  split.
  - intros a b _ _ _. cbn. unfold Qminus, Qplus, Qopp, inject_Z. cbn [Qnum Qden Pos.mul].
    rewrite !Z.mul_1_r. unfold Qred. change (Z.pos (1 * 1)) with 1%Z.
    pose proof (Z.ggcd_gcd (a + - b) 1) as Hg.
    pose proof (Z.ggcd_correct_divisors (a + - b) 1) as Hd.
    destruct (Z.ggcd (a + - b) 1) as [g [x y]]. cbn in Hg. rewrite Z.gcd_1_r in Hg. subst g.
    destruct Hd as [Hx Hy]. rewrite !Z.mul_1_l in Hx, Hy. subst x y. done.
  - intros a b _ _. cbn. unfold Qle_bool, inject_Z. cbn. rewrite !Z.mul_1_r.
    by rewrite Z.leb_antisym, negb_involutive.
  - intros a _. cbn. by rewrite Z.div_1_r.
  - intros a _. apply Z.div_1_r.
  - intros p a b _ _ Hp Ha Hb.
    change (0 ≤ Qfloor (inject_Z (Qfloor (inject_Z p * (inject_Z a / inject_Z b)))) ≤ p)%Z.
    rewrite Qfloor_Z.
    assert (inject_Z p * (inject_Z a / inject_Z b) == (p * a # Z.to_pos b))%Q as ->.
    { unfold Qdiv, Qinv, inject_Z, Qmult, Qeq. destruct b as [|b|b]; [lia| |lia].
      cbn [Qnum Qden Z.to_pos]. rewrite !Pos.mul_1_l. ring. }
    unfold Qfloor. rewrite Z2Pos.id by done. split.
    + apply Z.div_pos; nia.
    + apply Z.div_le_upper_bound; nia.
Qed.

(** ** Reasoning about scripts *)

Section views.
Context {S : Type} {redis : RedisServer S}.
Implicit Types (s : S).

(** Two states that agree on every key at time [t]. *)
Definition same_view (t : Z) (s s' : S) : Prop := ∀ key, lookup s' t key = lookup s t key.

(** [touches t key o s s']: from [s] to [s'] only [key] changed, to [o]. *)
Definition touches (t : Z) (key : string) (o : option entry) (s s' : S) : Prop :=
  lookup s' t key = o ∧ ∀ key', key' ≠ key → lookup s' t key' = lookup s t key'.

Lemma call_spec {R} (c : cmd R) key t s o :
  lookup s t key = o →
  ∃ s', call c key t s = ((exec c t o).1, s') ∧ touches t key (exec c t o).2 s s'.
Proof.
  intros <-. exists (call c key t s).2. split.
  - rewrite <-call_reply. by destruct (call c key t s).
  - split; [apply call_same|]. intros key' Hk. by apply call_other.
Qed.

Lemma touches_trans t key o o' s s' s'' :
  touches t key o s s' → touches t key o' s' s'' → touches t key o' s s''.
Proof. intros [_ H1] [H2 H3]. split; [done|]. intros key' Hk. by rewrite H3, H1. Qed.

Lemma touches_refl t key s : touches t key (lookup s t key) s s.
Proof. done. Qed.

Lemma touches_same t key s s' : touches t key (lookup s t key) s s' → same_view t s s'.
Proof. intros [H1 H2] key'. destruct (decide (key' = key)) as [->|Hk]; auto. Qed.
End views.

(** Execute the next command of a script on the key whose content is known. *)
Ltac redis_step :=
  match goal with
  | Ht : touches ?t ?key ?o ?s ?s1 |- context [call ?c ?key ?t ?s1] =>
      let s' := fresh "s" in let E := fresh "E" in let T := fresh "T" in
      destruct (call_spec c key t s1 o (proj1 Ht)) as (s' & E & T);
      rewrite E; apply (touches_trans _ _ _ _ _ _ _ Ht) in T; clear E Ht; rename T into Ht;
      cbn in Ht |- *
  end.

Ltac script_unfold := unfold mbind, script_bind, mret, script_ret, redis_call, raise; cbn beta iota.
