(* ===== verification/Limiters.v ===== *)
(** * Limiters

    The algorithms that count requests in Redis: limiter.go,
    limiter_fixed_window.go, limiter_sliding_window.go and
    limiter_token_bucket.go of package [ratelimit], with the Lua scripts they
    run.  A call gets the process's clock, the server's clock, the state of the
    connection to Redis and the random bytes it draws as arguments.

    Numbers of the scripts that are integers below [2^53] are [Z]; the
    arithmetic on fractions goes through [LuaNum]. *)

From Stdlib Require Import QArith.
From S2P Require Import Prelude GoNumbers GoStrings Labels LabelSelector RateRules Redis.
Open Scope string_scope.
Open Scope list_scope.

Record Decision := mkDecision {
  d_Allowed : bool;
  d_RetryAfter : Z;
  d_Remaining : Z;
  d_FailedOpen : bool
}.

Inductive limiter_error : Type :=
  | StoreError (e : client_error)
  | UnexpectedReply
  | RandomError
  | UnknownSlidingMode (m : string).

(** [(Decision, error)]. *)
Abbreviation decided := (Decision * option limiter_error)%type.

(** A row of the rate-limit table; the other columns do not matter here. *)
Record RateLimitRow := mkRow {
  rlr_Id : string;
  rlr_Namespace : string;
  rlr_Name : string;
  rlr_Definition : RateLimit
}.

Record fixedWindowLimiter := mkFixedWindowLimiter {
  fwl_ruleID : string; fwl_limit : Z; fwl_window : Z }.
Record slidingWindowLimiter := mkSlidingWindowLimiter {
  swl_ruleID : string; swl_limit : Z; swl_window : Z; swl_mode : SlidingWindowMode }.
Record tokenBucketLimiter := mkTokenBucketLimiter {
  tbl_ruleID : string; tbl_capacity : Z; tbl_refillRate : Q }.

Inductive Limiter : Type :=
  | LFixed (l : fixedWindowLimiter)
  | LSliding (l : slidingWindowLimiter)
  | LToken (l : tokenBucketLimiter).

Definition newFixedWindowLimiter (ruleID : string) (params : FixedWindow) : fixedWindowLimiter :=
  mkFixedWindowLimiter ruleID (fw_Limit params) (fw_Window params).
Definition newSlidingWindowLimiter (ruleID : string) (params : SlidingWindow) : slidingWindowLimiter :=
  mkSlidingWindowLimiter ruleID (sw_Limit params) (sw_Window params) (sw_Mode params).
Definition newTokenBucketLimiter (ruleID : string) (params : TokenBucket) : tokenBucketLimiter :=
  mkTokenBucketLimiter ruleID (tb_Capacity params) (tb_RefillRate params).

(** [None] is the error (nil row, or no variant set). *)
Definition NewLimiter (rl : option RateLimitRow) : option Limiter :=
  match rl with
  | None => None
  | Some rl =>
      let algo := rl_Algorithm (rlr_Definition rl) in
      match al_FixedWindow algo with
      | Some p => Some (LFixed (newFixedWindowLimiter (rlr_Id rl) p))
      | None =>
          match al_SlidingWindow algo with
          | Some p => Some (LSliding (newSlidingWindowLimiter (rlr_Id rl) p))
          | None =>
              match al_TokenBucket algo with
              | Some p => Some (LToken (newTokenBucketLimiter (rlr_Id rl) p))
              | None => None
              end
          end
      end
  end.

Definition limiterKeyPrefix (ruleID : string) (bucketKey : BucketKey) : string :=
  "ratelimit:rule:" +:+ ruleID +:+ String ":" (BucketKey_String bucketKey).

Definition failOpen (err : limiter_error) : decided := (mkDecision true 0 0 true, Some err).

(** ** Replies *)

Definition toInt (v : redis_reply) : option Z :=
  match v with
  | ReplyInt x => Some x
  | ReplyString x => ParseInt x
  | _ => None
  end.

Definition parseDecisionResult (res : redis_reply) : option (bool * Z) :=
  match res with
  | ReplyArray [a; b] =>
      allowed ← toInt a;
      value ← toInt b;
      Some (bool_decide (allowed = 1%Z), value)
  | _ => None
  end.

(** What every [Decide] and [Peek] does with the reply of its script. *)
Definition decision_of (res : result client_error redis_reply) : decided :=
  match res with
  | Err e => failOpen (StoreError e)
  | Ok res =>
      match parseDecisionResult res with
      | None => failOpen UnexpectedReply
      | Some (true, value) => (mkDecision true 0 value false, None)
      | Some (false, value) => (mkDecision false (duration_mul value Millisecond) 0 false, None)
      end
  end.

(** What a call depends on besides the rule and the bucket: the connection,
    the server's clock and the process's clock in milliseconds, and the bytes
    drawn by [randomHex] ([None] when reading them fails). *)
Record call_env := mkEnv {
  ce_link : link;
  ce_server_ms : Z;
  ce_now_ms : Z;
  ce_random : option string
}.

Section limiters.
Context {S : Type} {redis : RedisServer S} {F : Type} {lua : LuaNum F}.
(** [strconv.FormatFloat(x, 'g', -1, 64)]. *)
Context (FormatFloat : Q → string).
Implicit Types (k : BucketKey) (env : call_env) (s : S).

(** ** Fixed window *)

Definition pttl_or (key : string) (window_ms : Z) : script S Z :=
  pttl ← redis_call PTTL key;
  mret (if (pttl <? 0)%Z then window_ms else pttl).

Definition fixedWindowScript (key : string) (limit window_ms : Z) : script S redis_reply :=
  count ← redis_call INCR key;
  _ ← (if (count =? 1)%Z then redis_call (PEXPIRE window_ms) key else mret tt);
  if (limit <? count)%Z then pttl ← pttl_or key window_ms; mret (reply_pair 0 pttl)
  else mret (reply_pair 1 (limit - count)).

Definition fixedWindowPeekScript (key : string) (limit window_ms : Z) : script S redis_reply :=
  count ← get_number key;
  if (limit <? count + 1)%Z then pttl ← pttl_or key window_ms; mret (reply_pair 0 pttl)
  else mret (reply_pair 1 (limit - count - 1)).

Definition fixedWindowKey (l : fixedWindowLimiter) k (windowID : Z) : string :=
  limiterKeyPrefix (fwl_ruleID l) k +:+ ":fw:" +:+ FormatInt windowID.

Definition fixedWindow_Decide (l : fixedWindowLimiter) k env s : outcome (decided * S) :=
  let windowMs := Milliseconds (fwl_window l) in
  windowID ← go_div (ce_now_ms env) windowMs;
  let key := fixedWindowKey l k windowID in
  let '(res, s') := Run (ce_link env) (fixedWindowScript key (fwl_limit l) windowMs) (ce_server_ms env) s in
  GoRet (decision_of res, s').

Definition fixedWindow_Peek (l : fixedWindowLimiter) k env s : outcome (decided * S) :=
  let windowMs := Milliseconds (fwl_window l) in
  windowID ← go_div (ce_now_ms env) windowMs;
  let key := fixedWindowKey l k windowID in
  let '(res, s') := Run (ce_link env) (fixedWindowPeekScript key (fwl_limit l) windowMs) (ce_server_ms env) s in
  GoRet (decision_of res, s').

(** ** Sliding window, log mode *)

(** The retry time from the oldest entry of the window. *)
Definition retry_from (oldest : option (Z * string)) (window_ms now_ms : Z) : Z :=
  match oldest with
  | Some (score, _) => let retry := (score + window_ms - now_ms)%Z in if (retry <? 1)%Z then 1 else retry
  | None => window_ms
  end.

Definition slidingWindowLogScript (key : string) (limit now_ms window_ms : Z) (member : string) :
    script S redis_reply :=
  _ ← redis_call (ZREMRANGEBYSCORE 0 (now_ms - window_ms)) key;
  count ← redis_call ZCARD key;
  if (limit <=? count)%Z then
    oldest ← redis_call ZRANGE_first key;
    mret (reply_pair 0 (retry_from oldest window_ms now_ms))
  else
    _ ← redis_call (ZADD now_ms member) key;
    _ ← redis_call (PEXPIRE (window_ms + 1000)) key;
    mret (reply_pair 1 (limit - count - 1)).

Definition slidingWindowLogPeekScript (key : string) (limit now_ms window_ms : Z) :
    script S redis_reply :=
  count ← redis_call (ZCOUNT_above (now_ms - window_ms)) key;
  if (limit <=? count)%Z then
    oldest ← redis_call (ZRANGEBYSCORE_first_above (now_ms - window_ms)) key;
    mret (reply_pair 0 (retry_from oldest window_ms now_ms))
  else mret (reply_pair 1 (limit - count - 1)).

Definition slidingLogKey (l : slidingWindowLimiter) k : string :=
  limiterKeyPrefix (swl_ruleID l) k +:+ ":swl".

Definition decideLog (l : slidingWindowLimiter) k env s : decided * S :=
  match ce_random env with
  | None => (failOpen RandomError, s)
  | Some member =>
      let '(res, s') := Run (ce_link env)
        (slidingWindowLogScript (slidingLogKey l k) (swl_limit l) (ce_now_ms env)
           (Milliseconds (swl_window l)) member) (ce_server_ms env) s in
      (decision_of res, s')
  end.

Definition peekLog (l : slidingWindowLimiter) k env s : decided * S :=
  let '(res, s') := Run (ce_link env)
    (slidingWindowLogPeekScript (slidingLogKey l k) (swl_limit l) (ce_now_ms env)
       (Milliseconds (swl_window l))) (ce_server_ms env) s in
  (decision_of res, s').

(** ** Sliding window, counter mode *)

(** [curr_count + math.floor(prev_count * prev_weight)], the weight being
    [(window_ms - elapsed_ms) / window_ms] and at least zero. *)
Definition approx_count (curr prev window_ms elapsed_ms : Z) : Z :=
  let w := n_div (n_of_Z (window_ms - elapsed_ms)) (n_of_Z window_ms) in
  let prev_weight := if n_ltb w (n_of_Z 0) then n_of_Z 0 else w in
  (curr + n_to_int (n_floor (n_mul (n_of_Z prev) prev_weight)))%Z.

Definition at_least (lo x : Z) : Z := if (x <? lo)%Z then lo else x.

Definition slidingWindowCounterScript (key_curr key_prev : string) (limit window_ms elapsed_ms : Z) :
    script S redis_reply :=
  prev_count ← get_number key_prev;
  curr_count ← get_number key_curr;
  let approx := approx_count curr_count prev_count window_ms elapsed_ms in
  if (limit <=? approx)%Z then mret (reply_pair 0 (at_least 1 (window_ms - elapsed_ms)))
  else
    _ ← redis_call INCR key_curr;
    _ ← redis_call (PEXPIRE (2 * window_ms)) key_curr;
    mret (reply_pair 1 (at_least 0 (limit - approx - 1))).

Definition slidingWindowCounterPeekScript (key_curr key_prev : string)
    (limit window_ms elapsed_ms : Z) : script S redis_reply :=
  prev_count ← get_number key_prev;
  curr_count ← get_number key_curr;
  let approx := approx_count curr_count prev_count window_ms elapsed_ms in
  if (limit <=? approx)%Z then mret (reply_pair 0 (at_least 1 (window_ms - elapsed_ms)))
  else mret (reply_pair 1 (at_least 0 (limit - approx - 1))).

Definition slidingCounterKey (l : slidingWindowLimiter) k (windowID : Z) : string :=
  limiterKeyPrefix (swl_ruleID l) k +:+ ":swc:" +:+ FormatInt windowID.

Definition run_counter (scr : string → string → Z → Z → Z → script S redis_reply)
    (l : slidingWindowLimiter) k env s : outcome (decided * S) :=
  let windowMs := Milliseconds (swl_window l) in
  windowID ← go_div (ce_now_ms env) windowMs;
  elapsedMs ← go_rem (ce_now_ms env) windowMs;
  let '(res, s') := Run (ce_link env)
    (scr (slidingCounterKey l k windowID) (slidingCounterKey l k (windowID - 1))
       (swl_limit l) windowMs elapsedMs) (ce_server_ms env) s in
  GoRet (decision_of res, s').

Definition decideCounter := run_counter slidingWindowCounterScript.
Definition peekCounter := run_counter slidingWindowCounterPeekScript.

Definition slidingWindow_Decide (l : slidingWindowLimiter) k env s : outcome (decided * S) :=
  if decide (swl_mode l = SlidingWindowModeLog) then GoRet (decideLog l k env s)
  else if decide (swl_mode l = SlidingWindowModeCounter) then decideCounter l k env s
  else GoRet (failOpen (UnknownSlidingMode (swl_mode l)), s).

Definition slidingWindow_Peek (l : slidingWindowLimiter) k env s : outcome (decided * S) :=
  if decide (swl_mode l = SlidingWindowModeLog) then GoRet (peekLog l k env s)
  else if decide (swl_mode l = SlidingWindowModeCounter) then peekCounter l k env s
  else GoRet (failOpen (UnknownSlidingMode (swl_mode l)), s).

(** ** Token bucket *)

Definition opt_number (v : option string) : option F := v ≫= n_tonumber.

(** Tokens after the refill since [last] (a clock that went back counts as no
    time). *)
Definition refilled (capacity : Z) (rate tokens last : F) (now_ms : Z) : F :=
  let d := n_sub (n_of_Z now_ms) last in
  let elapsed := if n_ltb d (n_of_Z 0) then n_of_Z 0 else d in
  n_min (n_of_Z capacity) (n_add tokens (n_mul (n_div elapsed (n_of_Z 1000)) rate)).

(** Milliseconds until one token has accrued. *)
Definition wait_ms (rate tokens : F) : Z :=
  let w := n_ceil (n_mul (n_div (n_sub (n_of_Z 1) tokens) rate) (n_of_Z 1000)) in
  n_to_int (if n_ltb w (n_of_Z 1) then n_of_Z 1 else w).

(** [refill_per_sec = tonumber(ARGV[2])]: arithmetic on nil raises. *)
Definition with_rate {A} (rateStr : string) (f : F → script S A) : script S A :=
  match n_tonumber rateStr with None => raise LuaError | Some rate => f rate end.

Definition save_bucket (key : string) (tokens : F) (now_ms idle_ttl_ms : Z) : script S unit :=
  _ ← redis_call (HSET2 "tokens" (n_tostring tokens) "last_refill_ms" (n_tostring (n_of_Z now_ms))) key;
  redis_call (PEXPIRE idle_ttl_ms) key.

Definition tokenBucketScript (key : string) (capacity : Z) (rateStr : string)
    (now_ms idle_ttl_ms : Z) : script S redis_reply :=
  data ← redis_call (HMGET2 "tokens" "last_refill_ms") key;
  tokens ←
    match opt_number data.1, opt_number data.2 with
    | Some tokens, Some last =>
        with_rate rateStr (λ rate, mret (refilled capacity rate tokens last now_ms))
    | _, _ => mret (n_of_Z capacity)
    end;
  if n_ltb tokens (n_of_Z 1) then
    with_rate rateStr (λ rate,
      _ ← save_bucket key tokens now_ms idle_ttl_ms;
      mret (reply_pair 0 (wait_ms rate tokens)))
  else
    let tokens := n_sub tokens (n_of_Z 1) in
    _ ← save_bucket key tokens now_ms idle_ttl_ms;
    mret (reply_pair 1 (n_to_int (n_floor tokens))).

Definition tokenBucketPeekScript (key : string) (capacity : Z) (rateStr : string) (now_ms : Z) :
    script S redis_reply :=
  data ← redis_call (HMGET2 "tokens" "last_refill_ms") key;
  match opt_number data.1, opt_number data.2 with
  | Some tokens, Some last =>
      with_rate rateStr (λ rate,
        let projected := refilled capacity rate tokens last now_ms in
        if n_ltb projected (n_of_Z 1) then mret (reply_pair 0 (wait_ms rate projected))
        else mret (reply_pair 1 (n_to_int (n_floor (n_sub projected (n_of_Z 1))))))
  | _, _ => mret (reply_pair 1 (n_to_int (n_sub (n_of_Z capacity) (n_of_Z 1))))
  end.

Definition tokenBucketIdleTTL : Z := Hour.

Definition tokenBucketKey (l : tokenBucketLimiter) k : string :=
  limiterKeyPrefix (tbl_ruleID l) k +:+ ":tb".

Definition tokenBucket_Decide (l : tokenBucketLimiter) k env s : decided * S :=
  let '(res, s') := Run (ce_link env)
    (tokenBucketScript (tokenBucketKey l k) (tbl_capacity l) (FormatFloat (tbl_refillRate l))
       (ce_now_ms env) (Milliseconds tokenBucketIdleTTL)) (ce_server_ms env) s in
  (decision_of res, s').

Definition tokenBucket_Peek (l : tokenBucketLimiter) k env s : decided * S :=
  let '(res, s') := Run (ce_link env)
    (tokenBucketPeekScript (tokenBucketKey l k) (tbl_capacity l) (FormatFloat (tbl_refillRate l))
       (ce_now_ms env)) (ce_server_ms env) s in
  (decision_of res, s').

(** ** The interface *)

Definition Decide (l : Limiter) k env s : outcome (decided * S) :=
  match l with
  | LFixed l => fixedWindow_Decide l k env s
  | LSliding l => slidingWindow_Decide l k env s
  | LToken l => GoRet (tokenBucket_Decide l k env s)
  end.

Definition Peek (l : Limiter) k env s : outcome (decided * S) :=
  match l with
  | LFixed l => fixedWindow_Peek l k env s
  | LSliding l => slidingWindow_Peek l k env s
  | LToken l => GoRet (tokenBucket_Peek l k env s)
  end.

(** ** What the scripts do to their keys *)

(** The keys of counters hold nothing or an integer. *)
Definition counter_value (o : option entry) : option Z :=
  match o with
  | None => Some 0%Z
  | Some (mkEntry (VInt n) _) => Some n
  | _ => None
  end.

Definition pttl_of (t w : Z) (o : option entry) : Z :=
  match o with
  | Some (mkEntry _ (Some x)) => if (x - t <? 0)%Z then w else (x - t)%Z
  | _ => w
  end.

Lemma get_number_spec key t s o n :
  lookup s t key = o → counter_value o = Some n → int64_range n →
  ∃ s', get_number key t s = (Ok n, s') ∧ touches t key o s s'.
Proof.
  intros Ho Hn Hr. unfold get_number. script_unfold.
  pose proof (touches_refl t key s) as T. rewrite Ho in T.
  destruct o as [[v ex]|]; [destruct v|]; simplify_eq/=; redis_step; try by eauto.
  rewrite ParseInt_FormatInt by done. by eauto.
Qed.

Lemma pttl_or_spec key w t s o :
  lookup s t key = o → ∃ s', pttl_or key w t s = (Ok (pttl_of t w o), s') ∧ touches t key o s s'.
Proof.
  intros Ho. unfold pttl_or. script_unfold.
  pose proof (touches_refl t key s) as T. rewrite Ho in T. redis_step.
  eexists. split; [|done]. by destruct o as [[v [x|]]|].
Qed.

(** The fixed-window script counts, sets the lifetime with the first count,
    and answers from the count before. *)
Definition fixed_reply (limit w t : Z) (o : option entry) (n : Z) : redis_reply :=
  if (limit <? n + 1)%Z then reply_pair 0 (pttl_of t w o) else reply_pair 1 (limit - (n + 1)).

Definition expire_of (o : option entry) : option Z := o ≫= e_expire.

Lemma fixedWindowScript_spec key limit w t s o n :
  lookup s t key = o → counter_value o = Some n → (0 ≤ n)%Z → (n + 1 < 2 ^ 63)%Z →
  (0 < w)%Z → (0 < limit)%Z →
  ∃ s', fixedWindowScript key limit w t s = (Ok (fixed_reply limit w t o n), s') ∧
    touches t key
      (Some (mkEntry (VInt (n + 1)) (if (n =? 0)%Z then Some (t + w)%Z else expire_of o))) s s'.
Proof.
  intros Ho Hn Hn0 Hn1 Hw Hlim. unfold fixedWindowScript, fixed_reply. script_unfold.
  pose proof (touches_refl t key s) as T. rewrite Ho in T. redis_step.
  assert ((exec INCR t o) = (Ok (n + 1)%Z, Some (mkEntry (VInt (n + 1)) (expire_of o)))) as He.
  { destruct o as [[v ex]|]; [destruct v|]; simplify_eq/=; [|done]. by rewrite decide_True. }
  cbn in He. rewrite He in *. cbn [fst snd] in *. clear He.
  destruct (decide (n = 0%Z)) as [->|Hnz].
  - change (0 + 1)%Z with 1%Z. cbn. redis_step. rewrite decide_False in T by lia.
    destruct (Z.ltb_spec limit 1); [lia|]. eauto.
  - destruct (Z.eqb_spec (n + 1) 1); [lia|]. destruct (Z.eqb_spec n 0); [lia|].
    destruct (Z.ltb_spec limit (n + 1)); [|by eauto].
    destruct (pttl_or_spec key w t s0 _ (proj1 T)) as (s1 & -> & T1).
    eexists. split; [|by eapply touches_trans].
    destruct o as [[v [x|]]|]; simplify_eq/=; done.
Qed.

Lemma fixedWindowPeekScript_spec key limit w t s o n :
  lookup s t key = o → counter_value o = Some n → (0 ≤ n)%Z → (n + 1 < 2 ^ 63)%Z →
  ∃ s', fixedWindowPeekScript key limit w t s = (Ok (fixed_reply limit w t o n), s') ∧
    touches t key o s s'.
Proof.
  intros Ho Hn Hn0 Hn1. unfold fixedWindowPeekScript, fixed_reply. script_unfold.
  destruct (get_number_spec key t s o n Ho Hn) as (s1 & -> & T); [unfold int64_range; lia|].
  destruct (Z.ltb_spec limit (n + 1)).
  - destruct (pttl_or_spec key w t s1 _ (proj1 T)) as (s2 & -> & T2).
    eexists. split; [done|by eapply touches_trans].
  - eexists. split; [|done]. by replace (limit - n - 1)%Z with (limit - (n + 1))%Z by lia.
Qed.

(** ** Sliding log *)

(** The keys of logs hold nothing or a non-empty sorted set of times. *)
Definition log_entries (o : option entry) : option (list (Z * string)) :=
  match o with
  | None => Some []
  | Some (mkEntry (VZSet l) _) => Some l
  | _ => None
  end.

Definition log_reply (limit now w : Z) (l : list (Z * string)) : redis_reply :=
  if (limit <=? Z.of_nat (length l))%Z then reply_pair 0 (retry_from (head l) w now)
  else reply_pair 1 (limit - Z.of_nat (length l) - 1).

(** What the script leaves: the entries of the window, and the new one if it
    is allowed. *)
Definition log_after (limit now w t : Z) (member : string) (o : option entry)
    (l : list (Z * string)) : option entry :=
  if (limit <=? Z.of_nat (length l))%Z then zset_entry l (expire_of o)
  else Some (mkEntry (VZSet (zset_add now member l)) (Some (t + (w + 1000))%Z)).

Lemma zset_add_nonempty score member l : zset_add score member l ≠ [].
Proof.
  unfold zset_add. generalize (filter (λ x, snd x ≠ member) l). intros l'.
  destruct l' as [|x l']; cbn; [done|]. by case_match.
Qed.

Lemma evict_above lo l :
  Forall (λ x, (0 ≤ fst x)%Z) l → filter (λ x, ¬ (0 ≤ fst x ≤ lo)%Z) l = zset_above lo l.
Proof.
  unfold zset_above. induction 1 as [|x l Hx Hl IH]; [done|].
  rewrite !filter_cons. do 2 case_decide; try lia; by rewrite IH.
Qed.

Lemma slidingWindowLogScript_spec key limit now w member t s o l :
  lookup s t key = o → log_entries o = Some l → Forall (λ x, (0 ≤ fst x)%Z) l →
  (0 ≤ w)%Z → let l' := zset_above (now - w) l in
  ∃ s', slidingWindowLogScript key limit now w member t s = (Ok (log_reply limit now w l'), s') ∧
    touches t key (log_after limit now w t member o l') s s'.
Proof.
  intros Ho Hl Hpos Hw l'. unfold slidingWindowLogScript, log_reply, log_after. script_unfold.
  pose proof (touches_refl t key s) as T. rewrite Ho in T.
  assert (exec (ZREMRANGEBYSCORE 0 (now - w)) t o = (Ok tt, zset_entry l' (expire_of o))) as He.
  { destruct o as [[v ex]|]; [destruct v|]; simplify_eq/=; [|done].
    subst l'. by rewrite <-evict_above. }
  redis_step. cbn in He. rewrite He in *. cbn [fst snd] in *. clear He.
  assert (on_zset (zset_entry l' (expire_of o)) (λ (l0 : list (Z * string)) (_ : option Z),
     (Z.of_nat (length l0), zset_entry l' (expire_of o)))
     = (Ok (Z.of_nat (length l')), zset_entry l' (expire_of o))) as Hc by (by destruct l').
  redis_step. rewrite Hc in *. cbn [fst snd] in *. clear Hc.
  destruct (limit <=? Z.of_nat (length l'))%Z.
  - redis_step. destruct l' as [|x l'']; cbn in *; eauto.
  - assert (on_zset (zset_entry l' (expire_of o)) (λ (l0 : list (Z * string)) (ex : option Z),
       (tt, zset_entry (zset_add now member l0) ex))
       = (Ok tt, Some (mkEntry (VZSet (zset_add now member l')) (match l' with [] => None | _ => expire_of o end)))) as Hc.
    { destruct l' as [|x l'']; cbn [on_zset zset_entry]; [done|].
      pose proof (zset_add_nonempty now member (x :: l'')). by destruct (zset_add _ _ _). }
    redis_step. rewrite Hc in *. cbn [fst snd] in *. clear Hc.
    redis_step. rewrite decide_False in T by lia. eauto.
Qed.

Lemma slidingWindowLogPeekScript_spec key limit now w t s o l :
  lookup s t key = o → log_entries o = Some l →
  ∃ s', slidingWindowLogPeekScript key limit now w t s
        = (Ok (log_reply limit now w (zset_above (now - w) l)), s') ∧ touches t key o s s'.
Proof.
  intros Ho Hl. unfold slidingWindowLogPeekScript, log_reply. script_unfold.
  pose proof (touches_refl t key s) as T. rewrite Ho in T.
  assert (∀ R (f : list (Z * string) → R), on_zset o (λ l _, (f l, o)) = (Ok (f l), o)) as He.
  { intros R f. destruct o as [[v ex]|]; [destruct v|]; by simplify_eq/=. }
  redis_step. rewrite (He _ (λ l, Z.of_nat (length (zset_above (now - w) l)))) in *. cbn [fst snd] in *.
  destruct (limit <=? _)%Z; [|by eauto].
  redis_step. rewrite (He _ (λ l, head (zset_above (now - w) l))) in *. cbn [fst snd] in *. by eauto.
Qed.

(** ** Sliding counter *)

Definition counter_reply (limit w e approx : Z) : redis_reply :=
  if (limit <=? approx)%Z then reply_pair 0 (at_least 1 (w - e))
  else reply_pair 1 (at_least 0 (limit - approx - 1)).

Lemma get_number_view key t s n :
  counter_value (lookup s t key) = Some n → int64_range n →
  ∃ s', get_number key t s = (Ok n, s') ∧ same_view t s s'.
Proof.
  intros Hn Hr. destruct (get_number_spec key t s _ n eq_refl Hn Hr) as (s' & ? & ?).
  exists s'. split; [done|]. by eapply touches_same.
Qed.

Lemma same_view_trans t s s' s'' : same_view t s s' → same_view t s' s'' → same_view t s s''.
Proof. intros H1 H2 key. by rewrite H2, H1. Qed.

Lemma touches_view t key o s s' s'' : same_view t s s' → touches t key o s' s'' → touches t key o s s''.
Proof. intros H1 [H2 H3]. split; [done|]. intros key' Hk. by rewrite H3, H1. Qed.

Lemma slidingWindowCounterPeekScript_spec kc kp limit w e t s c p :
  counter_value (lookup s t kc) = Some c → counter_value (lookup s t kp) = Some p →
  int64_range c → int64_range p →
  ∃ s', slidingWindowCounterPeekScript kc kp limit w e t s
        = (Ok (counter_reply limit w e (approx_count c p w e)), s') ∧ same_view t s s'.
Proof.
  intros Hc Hp Rc Rp. unfold slidingWindowCounterPeekScript, counter_reply. script_unfold.
  destruct (get_number_view kp t s p Hp Rp) as (s1 & -> & V1).
  rewrite <-(V1 kc) in Hc. destruct (get_number_view kc t s1 c Hc Rc) as (s2 & -> & V2).
  exists s2. split; [by destruct (limit <=? _)%Z|by eapply same_view_trans].
Qed.

Lemma slidingWindowCounterScript_spec kc kp limit w e t s c p :
  counter_value (lookup s t kc) = Some c → counter_value (lookup s t kp) = Some p →
  (0 ≤ c)%Z → (c + 1 < 2 ^ 63)%Z → int64_range p → (0 < w)%Z →
  let approx := approx_count c p w e in
  ∃ s', slidingWindowCounterScript kc kp limit w e t s = (Ok (counter_reply limit w e approx), s') ∧
    if (limit <=? approx)%Z then same_view t s s'
    else touches t kc (Some (mkEntry (VInt (c + 1)) (Some (t + 2 * w)%Z))) s s'.
Proof.
  intros Hc Hp Hc0 Hc1 Rp Hw approx. unfold slidingWindowCounterScript, counter_reply. script_unfold.
  destruct (get_number_view kp t s p Hp Rp) as (s1 & -> & V1).
  rewrite <-(V1 kc) in Hc. destruct (get_number_view kc t s1 c Hc) as (s2 & -> & V2);
    [unfold int64_range; lia|].
  pose proof (same_view_trans _ _ _ _ V1 V2) as V. fold approx.
  destruct (limit <=? approx)%Z; [by eauto|].
  pose proof (touches_refl t kc s2) as T. rewrite (V2 kc) in T.
  assert (exec INCR t (lookup s1 t kc)
    = (Ok (c + 1)%Z, Some (mkEntry (VInt (c + 1)) (expire_of (lookup s1 t kc))))) as He.
  { destruct (lookup s1 t kc) as [[v ex]|]; [destruct v|]; simplify_eq/=; [|done]. by rewrite decide_True. }
  cbn in He. redis_step. rewrite He in *. cbn [fst snd] in *. clear He.
  redis_step. rewrite decide_False in T by lia. eexists. split; [done|]. by eapply touches_view.
Qed.

(** ** Token bucket *)

Definition hash_fields (o : option entry) : option (gmap string string) :=
  match o with
  | None => Some ∅
  | Some (mkEntry (VHash h) _) => Some h
  | _ => None
  end.

Lemma hmget_spec key t s o h :
  lookup s t key = o → hash_fields o = Some h →
  ∃ s', call (HMGET2 "tokens" "last_refill_ms") key t s
        = (Ok (h !! "tokens", h !! "last_refill_ms"), s') ∧ touches t key o s s'.
Proof.
  intros Ho Hh. destruct (call_spec (HMGET2 "tokens" "last_refill_ms") key t s o Ho) as (s' & -> & T).
  exists s'. destruct o as [[v ex]|]; [destruct v|]; by simplify_eq/=.
Qed.

Lemma save_bucket_ok key tokens now ttl t s o h :
  lookup s t key = o → hash_fields o = Some h →
  ∃ s', save_bucket key tokens now ttl t s = (Ok tt, s').
Proof.
  intros Ho Hh. unfold save_bucket. script_unfold.
  pose proof (touches_refl t key s) as T. rewrite Ho in T.
  redis_step. destruct o as [[v ex]|]; [destruct v|]; simplify_eq/=; redis_step; by eauto.
Qed.

(** ** Peek predicts Decide *)

(** Parameters that validation lets through, as far as the scripts need. *)
Definition limiter_valid (l : Limiter) : Prop :=
  match l with
  | LFixed l => (0 < fwl_limit l)%Z ∧ (0 < fwl_window l)%Z
  | LSliding l => (0 < swl_limit l)%Z ∧ (0 < swl_window l)%Z
  | LToken l => (0 < tbl_capacity l)%Z ∧ exact_int (tbl_capacity l)
  end.

Definition small_counter (o : option entry) : Prop :=
  ∃ n, counter_value o = Some n ∧ (0 ≤ n < 2 ^ 53)%Z.

(** The limiter's keys hold what the limiter writes. *)
Definition owned (l : Limiter) k (t : Z) s : Prop :=
  match l with
  | LFixed l => ∀ id, small_counter (lookup s t (fixedWindowKey l k id))
  | LSliding l =>
      (∃ es, log_entries (lookup s t (slidingLogKey l k)) = Some es ∧ Forall (λ x, (0 ≤ fst x)%Z) es) ∧
      ∀ id, small_counter (lookup s t (slidingCounterKey l k id))
  | LToken l => is_Some (hash_fields (lookup s t (tokenBucketKey l k)))
  end.

(** [d] predicted by a call that leaves the view of the server unchanged. *)
Definition predicts (t : Z) (s : S) (peek dec : outcome (decided * S)) : Prop :=
  match peek, dec with
  | GoPanic, GoPanic => True
  | GoRet (d, s'), GoRet (d', _) => d = d' ∧ same_view t s s'
  | _, _ => False
  end.

Lemma Run_predicts li (p q : script S redis_reply) t s r s1 s2 :
  p t s = (Ok r, s1) → q t s = (Ok r, s2) → same_view t s s1 →
  let '(a, s') := Run li p t s in let '(b, _) := Run li q t s in
  decision_of a = decision_of b ∧ same_view t s s'.
Proof. intros Hp Hq V. destruct li; cbn; rewrite ?Hp, ?Hq; by split. Qed.

Lemma fixedWindow_predicts l k env s :
  limiter_valid (LFixed l) → owned (LFixed l) k (ce_server_ms env) s →
  predicts (ce_server_ms env) s (fixedWindow_Peek l k env s) (fixedWindow_Decide l k env s).
Proof.
  intros [Hlim Hwin] Hown. unfold fixedWindow_Peek, fixedWindow_Decide, go_div.
  pose proof (Milliseconds_nonneg (fwl_window l) ltac:(lia)) as Hw.
  case_decide as Hz; cbn [mbind outcome_bind]; [done|].
  set (key := fixedWindowKey l k _). destruct (Hown (Z.quot (ce_now_ms env) (Milliseconds (fwl_window l))))
    as (n & Hn & Hr). fold key in Hn.
  edestruct (fixedWindowPeekScript_spec key (fwl_limit l) (Milliseconds (fwl_window l)) (ce_server_ms env) s
    _ n eq_refl Hn) as (s1 & E1 & T1); [lia..|].
  edestruct (fixedWindowScript_spec key (fwl_limit l) (Milliseconds (fwl_window l)) (ce_server_ms env) s
    _ n eq_refl Hn) as (s2 & E2 & T2); [lia..|].
  pose proof (Run_predicts (ce_link env) _ _ _ _ _ _ _ E1 E2 (touches_same _ _ _ _ T1)) as HR.
  by repeat case_match.
Qed.

Lemma peekLog_predicts l k env s m :
  limiter_valid (LSliding l) → owned (LSliding l) k (ce_server_ms env) s → ce_random env = Some m →
  predicts (ce_server_ms env) s (GoRet (peekLog l k env s)) (GoRet (decideLog l k env s)).
Proof.
  intros [Hlim Hwin] [(es & Hes & Hpos) _] Hm. unfold peekLog, decideLog. rewrite Hm.
  pose proof (Milliseconds_nonneg (swl_window l) ltac:(lia)) as Hw.
  edestruct (slidingWindowLogPeekScript_spec (slidingLogKey l k) (swl_limit l) (ce_now_ms env)
    (Milliseconds (swl_window l)) (ce_server_ms env) s _ es eq_refl Hes) as (s1 & E1 & T1).
  edestruct (slidingWindowLogScript_spec (slidingLogKey l k) (swl_limit l) (ce_now_ms env)
    (Milliseconds (swl_window l)) m (ce_server_ms env) s _ es eq_refl Hes Hpos Hw) as (s2 & E2 & T2).
  pose proof (Run_predicts (ce_link env) _ _ _ _ _ _ _ E1 E2 (touches_same _ _ _ _ T1)) as HR.
  by repeat case_match.
Qed.

Lemma peekCounter_predicts l k env s :
  limiter_valid (LSliding l) → owned (LSliding l) k (ce_server_ms env) s →
  predicts (ce_server_ms env) s (peekCounter l k env s) (decideCounter l k env s).
Proof.
  intros [Hlim Hwin] [_ Hown]. unfold peekCounter, decideCounter, run_counter, go_div, go_rem.
  pose proof (Milliseconds_nonneg (swl_window l) ltac:(lia)) as Hw.
  case_decide as Hz; cbn [mbind outcome_bind]; [done|].
  set (id := Z.quot _ _). set (e := Z.rem _ _).
  destruct (Hown id) as (c & Hc & Rc). destruct (Hown (id - 1)%Z) as (p & Hp & Rp).
  edestruct (slidingWindowCounterPeekScript_spec _ _ (swl_limit l) (Milliseconds (swl_window l)) e
    (ce_server_ms env) s c p Hc Hp) as (s1 & E1 & V1); [unfold int64_range; lia..|].
  edestruct (slidingWindowCounterScript_spec _ _ (swl_limit l) (Milliseconds (swl_window l)) e
    (ce_server_ms env) s c p Hc Hp) as (s2 & E2 & _); [unfold int64_range; lia..|].
  pose proof (Run_predicts (ce_link env) _ _ _ _ _ _ _ E1 E2 V1) as HR.
  by repeat case_match.
Qed.

Lemma tokenBucket_predicts `{!LuaNumLaws F} l k env s :
  limiter_valid (LToken l) → owned (LToken l) k (ce_server_ms env) s →
  predicts (ce_server_ms env) s (GoRet (tokenBucket_Peek l k env s)) (GoRet (tokenBucket_Decide l k env s)).
Proof.
  intros [Hcap Hexact] [h Hh]. unfold tokenBucket_Peek, tokenBucket_Decide.
  set (key := tokenBucketKey l k) in *. set (t := ce_server_ms env) in *.
  set (now := ce_now_ms env). set (rs := FormatFloat (tbl_refillRate l)).
  assert (∃ r s1 s2, tokenBucketPeekScript key (tbl_capacity l) rs now t s = (r, s1) ∧
    tokenBucketScript key (tbl_capacity l) rs now (Milliseconds tokenBucketIdleTTL) t s = (r, s2) ∧
    same_view t s s1) as (r & s1 & s2 & E1 & E2 & V).
  { unfold tokenBucketPeekScript, tokenBucketScript, with_rate. script_unfold.
    destruct (hmget_spec key t s _ h eq_refl Hh) as (s1 & -> & T). cbn [fst snd].
    assert (∀ x, ∃ s', save_bucket key x now (Milliseconds tokenBucketIdleTTL) t s1 = (Ok tt, s')) as Hsave.
    { intros x. exact (save_bucket_ok key x now _ t s1 _ h (proj1 T) Hh). }
    apply touches_same in T.
    assert (n_ltb (n_of_Z (tbl_capacity l)) (n_of_Z 1) = false) as Hfull.
    { rewrite n_ltb_exact by (unfold exact_int in *; lia). apply Z.ltb_ge. lia. }
    assert (∃ r s2 s3, (Ok (reply_pair 1 (n_to_int (n_sub (n_of_Z (tbl_capacity l)) (n_of_Z 1)))), s1)
      = (r, s2) ∧ (let (r0, s') := save_bucket key (n_sub (n_of_Z (tbl_capacity l)) (n_of_Z 1)) now
           (Milliseconds tokenBucketIdleTTL) t s1 in
         match r0 with
         | Err e => (Err e, s')
         | Ok _ => (Ok (reply_pair 1 (n_to_int (n_floor (n_sub (n_of_Z (tbl_capacity l)) (n_of_Z 1))))), s')
         end) = (r, s3) ∧ same_view t s s2) as Hnew.
    { edestruct Hsave as [s2 ->]. rewrite n_sub_exact, n_floor_exact by (unfold exact_int in *; lia).
      by eauto 10. }
    destruct (opt_number (h !! "tokens")) as [tokens|], (opt_number (h !! "last_refill_ms")) as [last|];
      cbn; rewrite ?Hfull; [|exact Hnew..].
    destruct (n_tonumber rs) as [rate|]; cbn; [|by eauto 10].
    destruct (n_ltb (refilled _ _ _ _ _) _); edestruct Hsave as [s2 ->]; by eauto 10. }
  destruct (ce_link env); cbn; rewrite ?E1, ?E2; cbn; try (by split).
Qed.

Lemma Peek_Decide `{!LuaNumLaws F} l k env s :
  limiter_valid l → owned l k (ce_server_ms env) s → is_Some (ce_random env) →
  predicts (ce_server_ms env) s (Peek l k env s) (Decide l k env s).
Proof.
  intros Hv Ho [m Hm]. destruct l as [l|l|l]; cbn [Peek Decide].
  - by apply fixedWindow_predicts.
  - unfold slidingWindow_Peek, slidingWindow_Decide.
    case_decide; [by eapply peekLog_predicts|]. case_decide; [by apply peekCounter_predicts|done].
  - by apply tokenBucket_predicts.
Qed.

(** ** Runs

    What happens to one bucket of a limiter over time: decisions, with any
    state of the connection, and anything else that leaves the bucket's keys
    alone.  The server's and the process's clock agree and do not go back.
    [adm] restricts the calls considered. *)
Definition limiter_key (l : Limiter) k (key : string) : Prop :=
  match l with
  | LFixed l => ∃ id, key = fixedWindowKey l k id
  | LSliding l => key = slidingLogKey l k ∨ ∃ id, key = slidingCounterKey l k id
  | LToken l => key = tokenBucketKey l k
  end.

Section runs.
Context (l : Limiter) (k : BucketKey) (adm : call_env → S → Prop).

Inductive run (t0 : Z) (s0 : S) : list (Z * Decision) → Z → S → Prop :=
  | run_start : run t0 s0 [] t0 s0
  | run_decide ds t s env d e s' :
      run t0 s0 ds t s → (t ≤ ce_server_ms env)%Z → ce_now_ms env = ce_server_ms env → adm env s →
      Decide l k env s = GoRet ((d, e), s') →
      run t0 s0 (ds ++ [(ce_server_ms env, d)]) (ce_server_ms env) s'
  | run_other ds t s t' s' :
      run t0 s0 ds t s → (t ≤ t')%Z →
      (∀ key, limiter_key l k key → lookup s' t' key = lookup s t' key) →
      run t0 s0 ds t' s'.
End runs.

(** Requests let through by the limiter itself, not by failing open. *)
Definition accepted (d : Z * Decision) : bool := d_Allowed d.2 && negb (d_FailedOpen d.2).
Definition accepted_count (ds : list (Z * Decision)) : Z := Z.of_nat (length (filter accepted ds)).

Lemma accepted_count_app ds d :
  accepted_count (ds ++ [d]) = (accepted_count ds + (if accepted d then 1 else 0))%Z.
Proof.
  unfold accepted_count. rewrite filter_app, length_app, filter_cons, filter_nil.
  case_decide as Hd; destruct (accepted d); cbn [length]; first [done|lia].
Qed.

(** *** Fixed window *)

(** What one call does to the counter and answers, whatever the connection. *)
Lemma fixedWindow_Decide_spec l k env s n key w :
  limiter_valid (LFixed l) → w = Milliseconds (fwl_window l) → (0 < w)%Z →
  key = fixedWindowKey l k (Z.quot (ce_now_ms env) w) →
  counter_value (lookup s (ce_server_ms env) key) = Some n → (0 ≤ n)%Z → (n + 1 < 2 ^ 63)%Z →
  ∃ d e s', fixedWindow_Decide l k env s = GoRet ((d, e), s') ∧
    ((d_FailedOpen d = true ∧ d_Allowed d = true) ∨
     (d_FailedOpen d = false ∧ (d_Allowed d = true ↔ (n < fwl_limit l)%Z) ∧
      (d_Allowed d = false → d_RetryAfter d
         = duration_mul (pttl_of (ce_server_ms env) w (lookup s (ce_server_ms env) key)) Millisecond))) ∧
    (lookup s' (ce_server_ms env) key = lookup s (ce_server_ms env) key ∧ d_FailedOpen d = true ∨
     lookup s' (ce_server_ms env) key
       = Some (mkEntry (VInt (n + 1)) (if (n =? 0)%Z then Some (ce_server_ms env + w)%Z
                 else expire_of (lookup s (ce_server_ms env) key)))).
Proof.
  intros [Hlim _] -> Hw -> Hn Hn0 Hn1. set (t := ce_server_ms env) in *.
  unfold fixedWindow_Decide, go_div. rewrite decide_False by lia. cbn [mbind outcome_bind].
  set (key := fixedWindowKey l k _) in *.
  destruct (fixedWindowScript_spec key (fwl_limit l) _ t s _ n eq_refl Hn Hn0 Hn1 Hw Hlim)
    as (s' & E & T). fold t.
  destruct (ce_link env); cbn; rewrite ?E; cbn.
  - eexists _, _, s'. rewrite <-surjective_pairing. split; [done|]. split; [right|right; apply T].
    unfold fixed_reply. destruct (Z.ltb_spec (fwl_limit l) (n + 1)); cbn; repeat split; (done || lia).
  - eexists _, _, s. split; [done|]. split; [by left|by left].
  - eexists _, _, s'. split; [done|]. split; [by left|right; apply T].
Qed.

Definition in_window (w id : Z) (env : call_env) (s : S) : Prop := Z.quot (ce_now_ms env) w = id.

(** While the window lasts, its key is missing and nothing was accepted, or it
    counts at least the accepted requests and outlives the window. *)
Definition window_state (stop : Z) (ds : list (Z * Decision)) (o : option entry) : Prop :=
  (o = None ∧ accepted_count ds = 0%Z) ∨
  (∃ n x, o = Some (mkEntry (VInt n) (Some x)) ∧ (stop ≤ x)%Z ∧ (1 ≤ n)%Z ∧
     (accepted_count ds ≤ n ≤ Z.of_nat (length ds))%Z).

Lemma window_state_later stop ds s t t' key :
  (t ≤ t')%Z → (t' < stop)%Z → window_state stop ds (lookup s t key) →
  window_state stop ds (lookup s t' key).
Proof.
  intros Ht Hs [[Hn Ha]|(n & x & Hn & Hx & H)].
  - left. split; [by eapply lookup_missing|done].
  - right. exists n, x. split; [|done]. eapply lookup_live; [done..|]. unfold live; cbn. lia.
Qed.

(** Rejections start after [limit] calls. *)
Definition rejected_late (limit : Z) (ds : list (Z * Decision)) : Prop :=
  ∀ i t d, ds !! i = Some (t, d) → d_Allowed d = false → (limit ≤ Z.of_nat i)%Z.

Definition window_inv (l : fixedWindowLimiter) (key : string) (stop : Z)
    (ds : list (Z * Decision)) (t : Z) (s : S) : Prop :=
  (0 ≤ t)%Z ∧ (accepted_count ds ≤ fwl_limit l)%Z ∧ rejected_late (fwl_limit l) ds ∧
  ((t < stop)%Z → window_state stop ds (lookup s t key)).

Lemma rejected_late_app limit ds t d :
  rejected_late limit ds → (d_Allowed d = false → (limit ≤ Z.of_nat (length ds))%Z) →
  rejected_late limit (ds ++ [(t, d)]).
Proof.
  intros H Hd i t' d' [Hi|[Hi Hl]]%lookup_app_Some Ha; [by eapply H|].
  destruct (i - length ds) as [|j] eqn:Hj; [|done]. injection Hl as -> ->.
  specialize (Hd Ha). lia.
Qed.

(** The key after a call in the window: untouched by a call that failed open,
    or counted. *)
Lemma window_state_after stop ds t t' d n w o o' :
  window_state stop ds o → counter_value o = Some n → (accepted_count ds ≤ n)%Z →
  (0 ≤ n ≤ Z.of_nat (length ds))%Z → (stop ≤ t' + w)%Z →
  (o' = o ∧ d_FailedOpen d = true ∨
   o' = Some (mkEntry (VInt (n + 1)) (if (n =? 0)%Z then Some (t' + w)%Z else expire_of o))) →
  window_state stop (ds ++ [(t, d)]) o'.
Proof.
  intros Hst Hn Han Hnl Hstop [[-> Hf]| ->].
  - destruct Hst as [[-> Ha]|(m & x & -> & Hx & Hm & H)]; [left|right; exists m, x];
      rewrite accepted_count_app, ?length_app; unfold accepted; cbn [snd length]; rewrite Hf, andb_false_r.
    + split; [done|lia].
    + split; [done|]. split; [done|]. lia.
  - right. exists (n + 1)%Z, (if (n =? 0)%Z then (t' + w)%Z else default 0%Z (expire_of o)).
    rewrite accepted_count_app, length_app. cbn [length].
    assert (∀ b : bool, (if b then 1 else 0) ≤ 1)%Z as Hb by (intros []; lia).
    specialize (Hb (accepted (t, d))).
    destruct Hst as [[-> Ha]|(m & x & -> & Hx & Hm & H)]; cbn in Hn |- *; injection Hn as <-.
    + cbn. split; [done|]. split; [done|]. lia.
    + destruct (Z.eqb_spec m 0); [lia|]. split; [done|]. split; [done|]. lia.
Qed.

Lemma window_inv_step l k ds t s env d e s' w id :
  let key := fixedWindowKey l k id in let stop := ((id + 1) * w)%Z in
  limiter_valid (LFixed l) → w = Milliseconds (fwl_window l) → (0 < w)%Z →
  (Z.of_nat (length ds) + 1 < 2 ^ 63)%Z →
  window_inv l key stop ds t s → (t ≤ ce_server_ms env)%Z → ce_now_ms env = ce_server_ms env →
  in_window w id env s → fixedWindow_Decide l k env s = GoRet ((d, e), s') →
  window_inv l key stop (ds ++ [(ce_server_ms env, d)]) (ce_server_ms env) s'.
Proof.
  intros key stop Hv Hwin Hw Hlen (Ht0 & Hacc & Hrej & Hst) Ht Hnow Hid Hdec.
  unfold in_window in Hid. rewrite Hnow in Hid. set (t' := ce_server_ms env) in *.
  assert (id * w ≤ t' < stop)%Z as [Hlo Hhi].
  { rewrite Z.quot_div_nonneg in Hid by lia. pose proof (Z.div_mod t' w).
    pose proof (Z.mod_pos_bound t' w Hw). subst stop. nia. }
  specialize (Hst ltac:(lia)). apply (window_state_later _ _ _ _ t' key Ht Hhi) in Hst.
  assert (∃ n, counter_value (lookup s t' key) = Some n ∧ (accepted_count ds ≤ n)%Z ∧
    (0 ≤ n ≤ Z.of_nat (length ds))%Z) as (n & Hn & Han & Hnl).
  { destruct Hst as [[-> ->]|(n & x & -> & _ & H1 & H2)]; [exists 0%Z|exists n]; cbn; split; done || lia. }
  destruct (fixedWindow_Decide_spec l k env s n key w Hv Hwin Hw) as (d' & e' & s'' & E & Hd & Hs);
    [by rewrite Hnow, Hid|done|lia..|]. rewrite Hdec in E. injection E as <- <- <-. fold t' in Hd, Hs.
  unfold window_inv. rewrite accepted_count_app. unfold accepted; cbn [snd].
  split; [lia|]. split; [|split].
  - destruct Hd as [[-> ->]|(-> & Hd & _)]; cbn; [lia|]. destruct (d_Allowed d); cbn; [|lia].
    assert (n < fwl_limit l)%Z by (by apply Hd). lia.
  - apply rejected_late_app; [done|]. intros Ha. destruct Hd as [[_ Hd]|(_ & Hd & _)]; [congruence|].
    destruct (Z.lt_ge_cases n (fwl_limit l)) as [Hlt|]; [apply Hd in Hlt; congruence|lia].
  - intros _. eapply window_state_after; [exact Hst|exact Hn|done|lia| |exact Hs]. subst stop. lia.
Qed.

(** C17: the fixed-window limiter accepts at most [limit] requests of a bucket
    in each window, and rejects none before [limit] requests were made in it,
    for any interleaving with other traffic and any connection failures:
    requests that were let through because Redis failed are not counted, and
    a request whose reply was lost still uses up its place. *)
Theorem fixed_window_at_most_limit l k w id t0 s0 ds t s :
  limiter_valid (LFixed l) → w = Milliseconds (fwl_window l) → (0 < w)%Z → (0 ≤ t0)%Z →
  lookup s0 t0 (fixedWindowKey l k id) = None →
  run (LFixed l) k (in_window w id) t0 s0 ds t s → (Z.of_nat (length ds) < 2 ^ 53)%Z →
  (accepted_count ds ≤ fwl_limit l)%Z ∧ rejected_late (fwl_limit l) ds.
Proof.
  intros Hv Hwin Hw Ht0 Hmiss Hrun Hlen.
  assert (window_inv l (fixedWindowKey l k id) ((id + 1) * w) ds t s) as (_ & ? & ? & _); [|done].
  induction Hrun as [|ds t s env d e s' Hrun IH Ht Hnow Hadm Hdec|ds t s t' s' Hrun IH Ht Hkeys].
  - destruct Hv as [Hlim _]. split; [done|]. split; [unfold accepted_count; cbn; lia|].
    split; [by intros i ?? Hi|]. intros _. by left.
  - rewrite length_app in Hlen; cbn in Hlen. eapply window_inv_step; try done; [lia|]. apply IH. lia.
  - destruct (IH Hlen) as (Hp & Ha & Hr & Hst). split; [lia|]. split; [done|]. split; [done|].
    intros Hlt. rewrite (Hkeys (fixedWindowKey l k id)) by (by eexists).
    eapply window_state_later; [done..|]. apply Hst. lia.
Qed.

(** *** Sliding log *)

Definition accepted_in (lo hi : Z) (ds : list (Z * Decision)) : Z :=
  Z.of_nat (length (filter (λ d, accepted d = true ∧ lo < d.1 ≤ hi)%Z ds)).

Definition entries_after (lo : Z) (es : list (Z * string)) : Z := Z.of_nat (length (zset_above lo es)).

Definition count_if (P : Prop) {dec : stdpp.base.Decision P} : Z := if decide P then 1 else 0.

Lemma accepted_in_app lo hi ds d :
  accepted_in lo hi (ds ++ [d])
  = (accepted_in lo hi ds + count_if (accepted d = true ∧ lo < d.1 ≤ hi)%Z)%Z.
Proof.
  unfold accepted_in, count_if. rewrite filter_app, length_app, filter_cons, filter_nil.
  case_decide; cbn [length]; lia.
Qed.

Lemma accepted_in_narrow lo lo' hi hi' ds :
  (lo ≤ lo')%Z → (hi' ≤ hi)%Z → (accepted_in lo' hi' ds ≤ accepted_in lo hi ds)%Z.
Proof.
  intros Hlo Hhi. unfold accepted_in. induction ds as [|d ds IH]; [done|].
  rewrite !filter_cons. do 2 case_decide; cbn [length]; try lia. exfalso. naive_solver lia.
Qed.

Lemma accepted_in_0 lo hi ds :
  (∀ d, d ∈ ds → accepted d = true → (d.1 ≤ lo)%Z) → accepted_in lo hi ds = 0%Z.
Proof.
  intros Hds. unfold accepted_in. induction ds as [|d ds IH]; [done|].
  rewrite filter_cons. case_decide as Hd.
  - destruct Hd as [Ha ?]. specialize (Hds d (list_elem_of_here _ _) Ha). lia.
  - apply IH. intros d' Hd'. apply Hds. by apply list_elem_of_further.
Qed.

Lemma zset_insert_perm x es : zset_insert x es ≡ₚ x :: es.
Proof.
  induction es as [|y es IH]; cbn; [done|]. case_match; [done|]. rewrite IH. apply Permutation_swap.
Qed.

Lemma zset_add_fresh score m es : m ∉ es.*2 → zset_add score m es ≡ₚ (score, m) :: es.
Proof.
  intros Hm. unfold zset_add. rewrite zset_insert_perm. f_equiv.
  rewrite filter_all; [done|]. rewrite Forall_forall. intros x Hx <-. apply Hm.
  by apply list_elem_of_fmap_2.
Qed.

Lemma entries_after_add lo score m es : m ∉ es.*2 →
  entries_after lo (zset_add score m es) = (entries_after lo es + count_if (lo < score)%Z)%Z.
Proof.
  intros Hm. unfold entries_after, zset_above, count_if. rewrite (zset_add_fresh score m es Hm).
  rewrite filter_cons. cbn [fst]. case_decide; cbn [length]; lia.
Qed.

Lemma zset_above_above lo lo' es : (lo' ≤ lo)%Z → zset_above lo (zset_above lo' es) = zset_above lo es.
Proof.
  intros Hlo. unfold zset_above. apply list_filter_filter_l. intros x. lia.
Qed.

Lemma entries_after_above lo lo' es :
  (lo' ≤ lo)%Z → entries_after lo (zset_above lo' es) = entries_after lo es.
Proof. intros. unfold entries_after. by rewrite zset_above_above. Qed.

(** What one call does to the log, whatever the connection. *)
Lemma decideLog_spec l k env s es :
  let t := ce_server_ms env in let key := slidingLogKey l k in
  let w := Milliseconds (swl_window l) in
  let es' := zset_above (ce_now_ms env - w) es in
  (0 ≤ w)%Z → log_entries (lookup s t key) = Some es → Forall (λ x, (0 ≤ fst x)%Z) es →
  let d := (decideLog l k env s).1.1 in let s' := (decideLog l k env s).2 in
  (d_FailedOpen d = true ∧ lookup s' t key = lookup s t key) ∨
  (∃ m, ce_random env = Some m ∧
    (d_FailedOpen d = true ∨
     d_FailedOpen d = false ∧ (d_Allowed d = true ↔ (Z.of_nat (length es') < swl_limit l)%Z)) ∧
    lookup s' t key = log_after (swl_limit l) (ce_now_ms env) w t m (lookup s t key) es').
Proof.
  intros t key w es' Hw Hes Hpos. unfold decideLog.
  destruct (ce_random env) as [m|]; [|by left].
  destruct (slidingWindowLogScript_spec key (swl_limit l) (ce_now_ms env) w m t s _ es eq_refl Hes Hpos Hw)
    as (s' & E & T). fold t key w.
  destruct (ce_link env); cbn; rewrite ?E; cbn.
  - right. exists m. split; [done|]. split; [right|apply T]. fold es'. unfold log_reply.
    destruct (Z.leb_spec (swl_limit l) (Z.of_nat (length es'))); cbn; repeat split; (done || lia).
  - by left.
  - right. exists m. split; [done|]. split; [by left|apply T].
Qed.

(** Random members are fresh (64 random bits per request). *)
Definition fresh_member (l : slidingWindowLimiter) k (env : call_env) (s : S) : Prop :=
  ∀ m es, ce_random env = Some m →
    log_entries (lookup s (ce_server_ms env) (slidingLogKey l k)) = Some es → m ∉ es.*2.

(** At time [t] the log has an entry for every accepted request of the
    trailing window, and lives as long as one of them matters. *)
Definition log_state (w : Z) (ds : list (Z * Decision)) (t : Z) (o : option entry) : Prop :=
  ∃ es, log_entries o = Some es ∧ Forall (λ x, (0 ≤ fst x)%Z) es ∧
    (∀ lo hi, (t - w ≤ lo)%Z → (accepted_in lo hi ds ≤ entries_after lo es)%Z) ∧
    (∀ x, expire_of o = Some x → ∀ d, d ∈ ds → accepted d = true → (d.1 + w < x)%Z).

Definition log_inv (l : slidingWindowLimiter) (w : Z) (key : string) (ds : list (Z * Decision))
    (t : Z) (s : S) : Prop :=
  (0 ≤ t)%Z ∧ (∀ d, d ∈ ds → (d.1 ≤ t)%Z) ∧
  (∀ T, accepted_in (T - w) T ds ≤ swl_limit l)%Z ∧ log_state w ds t (lookup s t key).

Lemma log_state_later w ds t t' s key :
  (t ≤ t')%Z → log_state w ds t (lookup s t key) → log_state w ds t' (lookup s t' key).
Proof.
  intros Ht (es & Hes & Hpos & Hacc & Hex).
  destruct (lookup_later s t t' key Ht) as [->|(-> & e & x & He & Hx & Hle)].
  - exists es. repeat split; try done. intros lo hi Hlo. apply Hacc. lia.
  - exists []. repeat split; try done. intros lo hi Hlo. rewrite accepted_in_0; [done|].
    intros d Hd Ha. specialize (Hex x). rewrite He in Hex. specialize (Hex Hx d Hd Ha). lia.
Qed.

Lemma entries_after_le lo lo' es : (lo ≤ lo')%Z → (entries_after lo' es ≤ entries_after lo es)%Z.
Proof.
  intros Hlo. unfold entries_after, zset_above. induction es as [|x es IH]; [done|].
  rewrite !filter_cons. do 2 case_decide; cbn [length]; lia.
Qed.

Lemma zset_above_Forall (P : Z * string → Prop) lo es : Forall P es → Forall P (zset_above lo es).
Proof. rewrite !Forall_forall. intros HP x [_ Hx]%list_elem_of_filter. by apply HP. Qed.

Lemma zset_above_members m lo es : m ∉ es.*2 → m ∉ (zset_above lo es).*2.
Proof.
  intros Hm ([s' m'] & -> & [_ Hx]%list_elem_of_filter)%list_elem_of_fmap. apply Hm.
  by apply (list_elem_of_fmap_2 snd es (s', m')).
Qed.

(** After a call the log state holds for the history with the new decision. *)
Lemma log_after_state limit w ds t d m o es :
  (0 ≤ w)%Z → (0 ≤ t)%Z → (0 < limit)%Z → m ∉ es.*2 → log_entries o = Some es →
  Forall (λ x, (0 ≤ fst x)%Z) es → (∀ d, d ∈ ds → (d.1 ≤ t)%Z) → log_state w ds t o →
  (accepted (t, d) = true → (Z.of_nat (length (zset_above (t - w) es)) < limit)%Z) →
  log_state w (ds ++ [(t, d)]) t (log_after limit t w t m o (zset_above (t - w) es)).
Proof.
  intros Hw Ht Hlim Hm Hes Hpos Hds (es0 & Hes0 & _ & Hacc & Hex) Hd.
  rewrite Hes in Hes0. injection Hes0 as <-. unfold log_after. set (es' := zset_above (t - w) es) in *.
  assert (Forall (λ x, (0 ≤ fst x)%Z) es') as Hpos'.
  { by apply zset_above_Forall. }
  assert (m ∉ es'.*2) as Hm' by (by apply zset_above_members).
  destruct (Z.leb_spec limit (Z.of_nat (length es'))) as [Hfull|Hroom].
  - destruct (accepted (t, d)) eqn:Ha; [specialize (Hd eq_refl); lia|].
    destruct es' as [|x es''] eqn:He; [cbn in Hfull; lia|]. rewrite <-He in *. clear He x es''.
    exists es'. repeat split; [by destruct es'|done| |].
    + intros lo hi Hlo. rewrite accepted_in_app. subst es'. rewrite entries_after_above by lia.
      specialize (Hacc lo hi Hlo). unfold count_if. rewrite decide_False by (rewrite Ha; by intros [? _]). lia.
    + intros x Hx d' [Hin|Hin]%elem_of_app Hd';
        [|apply list_elem_of_singleton in Hin as ->; congruence].
      eapply Hex; [|done..]. by destruct es'.
  - exists (zset_add t m es'). repeat split; [| |].
    + rewrite zset_add_fresh by done. by constructor.
    + intros lo hi Hlo. rewrite accepted_in_app, entries_after_add by done.
      subst es'. rewrite entries_after_above by lia. specialize (Hacc lo hi Hlo).
      unfold count_if. do 2 case_decide; cbn in *; lia.
    + intros x [= <-] d' [Hin|Hin]%elem_of_app _; [specialize (Hds d' Hin); lia|].
      apply list_elem_of_singleton in Hin as ->. cbn. lia.
Qed.

Lemma log_inv_step l k w ds t s env :
  let key := slidingLogKey l k in let r := decideLog l k env s in
  limiter_valid (LSliding l) → w = Milliseconds (swl_window l) →
  log_inv l w key ds t s → (t ≤ ce_server_ms env)%Z → ce_now_ms env = ce_server_ms env →
  fresh_member l k env s →
  log_inv l w key (ds ++ [(ce_server_ms env, r.1.1)]) (ce_server_ms env) r.2.
Proof.
  intros key r [Hlim Hwin] Hw (Ht0 & Hds & Hbound & Hst) Ht Hnow Hfresh.
  assert (0 ≤ w)%Z as Hw0 by (subst w; apply Milliseconds_nonneg; lia).
  set (t' := ce_server_ms env) in *. apply (log_state_later _ _ _ t' _ _ Ht) in Hst.
  pose proof Hst as (es & Hes & Hpos & Hacc & Hex).
  pose proof (decideLog_spec l k env s es) as Hspec. rewrite Hnow, <-Hw in Hspec. fold t' key r in Hspec.
  specialize (Hspec Hw0 Hes Hpos).
  assert (accepted (t', r.1.1) = true → (Z.of_nat (length (zset_above (t' - w) es)) < swl_limit l)%Z) as Ha.
  { unfold accepted; cbn [snd]. intros H%andb_true_iff. destruct H as [Hal Hfo%negb_true_iff].
    destruct Hspec as [[Hf _]|(m & _ & [Hf|[_ Hd]] & _)]; [congruence..|]. by apply Hd. }
  split; [lia|]. split; [|split].
  - intros d [Hd|Hd]%elem_of_app; [specialize (Hds d Hd); lia|].
    by apply list_elem_of_singleton in Hd as ->.
  - intros T. rewrite accepted_in_app. unfold count_if. case_decide as Hc; [|specialize (Hbound T); lia].
    destruct Hc as [Hc HT]. cbn [fst] in HT. specialize (Ha Hc).
    pose proof (Hacc (T - w) T ltac:(lia))%Z as Hle.
    pose proof (entries_after_le (t' - w) (T - w) es ltac:(lia)) as Hle'. unfold entries_after in *. lia.
  - destruct Hspec as [[Hf ->]|(m & Hm & Hd & ->)].
    + exists es. split; [done|]. split; [done|]. split.
      * intros lo hi Hlo. rewrite accepted_in_app. unfold count_if, accepted; cbn [snd].
        rewrite Hf, andb_false_r, decide_False by (by intros [? _]). specialize (Hacc lo hi Hlo). lia.
      * intros x Hx d [Hin|Hin]%elem_of_app Hd; [by eapply Hex|].
        apply list_elem_of_singleton in Hin as ->. unfold accepted in Hd; cbn [snd] in Hd.
        by rewrite Hf, andb_false_r in Hd.
    + apply log_after_state; try done; [lia|by eapply Hfresh|].
      intros d Hin. specialize (Hds d Hin). lia.
Qed.

(** C37: In every trailing window of the sliding log, the limiter accepts at
    most [limit] requests of a bucket: for each time [T] the accepted requests
    with times in [(T - window, T]] number at most [limit], for any
    interleaving with other traffic and any connection failures, as long as
    the random tags are fresh. *)
Theorem sliding_log_at_most_limit l k w t0 s0 ds t s :
  limiter_valid (LSliding l) → swl_mode l = "log" → w = Milliseconds (swl_window l) → (0 ≤ t0)%Z →
  lookup s0 t0 (slidingLogKey l k) = None →
  run (LSliding l) k (fresh_member l k) t0 s0 ds t s →
  ∀ T, (accepted_in (T - w) T ds ≤ swl_limit l)%Z.
Proof.
  intros Hv Hmode Hw Ht0 Hmiss Hrun.
  assert (log_inv l w (slidingLogKey l k) ds t s) as (_ & _ & ? & _); [|done].
  induction Hrun as [|ds t s env d e s' Hrun IH Ht Hnow Hadm Hdec|ds t s t' s' Hrun IH Ht Hkeys].
  - split; [done|]. split; [by intros d Hd%elem_of_nil|].
    split; [intros T; destruct Hv; unfold accepted_in; cbn; lia|].
    rewrite Hmiss. exists []. repeat split; try done.
  - cbn [Decide] in Hdec. unfold slidingWindow_Decide in Hdec.
    rewrite decide_True in Hdec by done. injection Hdec as Hdec.
    pose proof (log_inv_step l k w ds t s env Hv Hw IH Ht Hnow Hadm) as H. by rewrite Hdec in H.
  - destruct IH as (Hp & Hds & Hb & Hst). split; [lia|].
    split; [intros d Hd; specialize (Hds d Hd); lia|]. split; [done|].
    rewrite (Hkeys (slidingLogKey l k)) by (by left). by eapply log_state_later.
Qed.

(** ** Isolation of buckets *)

(** [frames K p]: script [p] changes no key outside [K]. *)
Definition frames {A} (K : string → Prop) (p : script S A) : Prop :=
  ∀ t s key, ¬ K key → lookup (p t s).2 t key = lookup s t key.

Lemma frames_call {R} (K : string → Prop) (c : cmd R) key : K key → frames K (redis_call c key).
Proof. intros HK t s key' Hn. apply call_other. by intros ->. Qed.

Lemma frames_ret {A} K (a : A) : frames K (mret a).
Proof. done. Qed.

Lemma frames_raise {A} K e : frames K (@raise S A e).
Proof. done. Qed.

Lemma frames_bind {A B} K (p : script S A) (f : A → script S B) :
  frames K p → (∀ a, frames K (f a)) → frames K (p ≫= f).
Proof.
  intros Hp Hf t s key Hn. specialize (Hp t s key Hn). unfold mbind, script_bind.
  destruct (p t s) as [[e|a] s1]; cbn in Hp |- *; [done|]. rewrite <-Hp. by apply Hf.
Qed.

Lemma frames_run {A} K li (p : script S A) t s key :
  frames K p → ¬ K key → lookup (Run li p t s).2 t key = lookup s t key.
Proof.
  intros Hp Hn. destruct li; cbn; [|done|by apply Hp].
  specialize (Hp t s key Hn). by destruct (p t s).
Qed.

Ltac solve_frames :=
  repeat match goal with
  | |- frames _ (_ ≫= _) => apply frames_bind; [|intros ?]
  | |- frames _ (mret _) => apply frames_ret
  | |- frames _ (raise _) => apply frames_raise
  | |- frames _ (redis_call _ _) => apply frames_call
  | |- frames _ (if ?b then _ else _) => destruct b
  | |- frames _ (match ?x with _ => _ end) => destruct x
  end; auto.

Lemma get_number_frames (K : string → Prop) key : K key → frames K (get_number key).
Proof. intros. unfold get_number. solve_frames. Qed.

Lemma pttl_or_frames (K : string → Prop) key w : K key → frames K (pttl_or key w).
Proof. intros. unfold pttl_or. solve_frames. Qed.

#[local] Hint Resolve get_number_frames pttl_or_frames : core.

Lemma fixedWindowScript_frames (K : string → Prop) key limit w :
  K key → frames K (fixedWindowScript key limit w).
Proof. intros. unfold fixedWindowScript. solve_frames. Qed.

Lemma slidingWindowLogScript_frames (K : string → Prop) key limit now w m :
  K key → frames K (slidingWindowLogScript key limit now w m).
Proof. intros. unfold slidingWindowLogScript. solve_frames. Qed.

Lemma slidingWindowCounterScript_frames (K : string → Prop) kc kp limit w e :
  K kc → K kp → frames K (slidingWindowCounterScript kc kp limit w e).
Proof. intros. unfold slidingWindowCounterScript. cbv zeta. solve_frames. Qed.

Lemma tokenBucketScript_frames (K : string → Prop) key cap rs now ttl :
  K key → frames K (tokenBucketScript key cap rs now ttl).
Proof. intros. unfold tokenBucketScript, with_rate, save_bucket. cbv zeta. solve_frames. Qed.

Lemma Decide_frames l k env s d s' key :
  Decide l k env s = GoRet (d, s') → ¬ limiter_key l k key →
  lookup s' (ce_server_ms env) key = lookup s (ce_server_ms env) key.
Proof.
  intros Hd Hn. destruct l as [l|l|l]; cbn [Decide] in Hd.
  - unfold fixedWindow_Decide, go_div in Hd. case_decide; cbn [mbind outcome_bind] in Hd; [done|].
    destruct (Run _ _ _ _) as [r s1] eqn:E. injection Hd as _ <-.
    change s1 with (r, s1).2. rewrite <-E. eapply frames_run; [|exact Hn].
    apply fixedWindowScript_frames. by eexists.
  - unfold slidingWindow_Decide in Hd. case_decide; [|case_decide].
    + injection Hd as Hd. unfold decideLog in Hd. destruct (ce_random env); [|by simplify_eq].
      destruct (Run _ _ _ _) as [r s1] eqn:E. injection Hd as _ <-.
      change s1 with (r, s1).2. rewrite <-E. eapply frames_run; [|exact Hn].
      apply slidingWindowLogScript_frames. by left.
    + unfold decideCounter, run_counter, go_div, go_rem in Hd.
      case_decide; cbn [mbind outcome_bind] in Hd; [done|].
      destruct (Run _ _ _ _) as [r s1] eqn:E. injection Hd as _ <-.
      change s1 with (r, s1).2. rewrite <-E. eapply frames_run; [|exact Hn].
      apply slidingWindowCounterScript_frames; right; by eexists.
    + by simplify_eq.
  - injection Hd as Hd. unfold tokenBucket_Decide in Hd.
    destruct (Run _ _ _ _) as [r s1] eqn:E. injection Hd as _ <-.
    change s1 with (r, s1).2. rewrite <-E. eapply frames_run; [|exact Hn].
    by apply tokenBucketScript_frames.
Qed.

Definition limiter_rule (l : Limiter) : string :=
  match l with LFixed l => fwl_ruleID l | LSliding l => swl_ruleID l | LToken l => tbl_ruleID l end.

(** The part of a key after the bucket. *)
Inductive key_suffix : Type := SuffixWord (w : string) | SuffixId (w : string) (id : Z).

Definition suffix_string (x : key_suffix) : string :=
  match x with
  | SuffixWord w => String ":" w
  | SuffixId w id => String ":" w +:+ String ":" (FormatInt id)
  end.

Definition known_suffix (x : key_suffix) : Prop :=
  match x with
  | SuffixWord w => w ∈ ["swl"; "tb"]
  | SuffixId w _ => w ∈ ["fw"; "swc"]
  end.

Lemma limiter_key_shape l k key : limiter_key l k key →
  ∃ x, known_suffix x ∧ key = limiterKeyPrefix (limiter_rule l) k +:+ suffix_string x.
Proof.
  destruct l as [l|l|l]; cbn [limiter_key limiter_rule].
  - intros [id ->]. exists (SuffixId "fw" id). split; [cbn; set_solver|done].
  - intros [->|[id ->]]; [exists (SuffixWord "swl")|exists (SuffixId "swc" id)];
      (split; [cbn; set_solver|done]).
  - intros ->. exists (SuffixWord "tb"). split; [cbn; set_solver|done].
Qed.

Lemma FormatInt_no_colon id : no_char ":" (FormatInt id) = true.
Proof. by apply FormatInt_no_char. Qed.

Lemma known_word w : w ∈ ["swl"; "tb"; "fw"; "swc"] → no_char ":" w = true ∧ ∀ id, FormatInt id ≠ w.
Proof.
  intros Hw. split.
  - repeat (apply elem_of_cons in Hw as [->|Hw]; [done|]). by apply elem_of_nil in Hw.
  - intros id Hid. assert (no_char "w" w && no_char "b" w = true) as H.
    { rewrite <-Hid. by rewrite !FormatInt_no_char. }
    repeat (apply elem_of_cons in Hw as [->|Hw]; [done|]). by apply elem_of_nil in Hw.
Qed.

Lemma suffix_inj b b' x x' :
  known_suffix x → known_suffix x' → b +:+ suffix_string x = b' +:+ suffix_string x' → b = b'.
Proof.
  intros Hx Hx' H. destruct x as [w|w id], x' as [w'|w' id']; cbn [suffix_string known_suffix] in *;
    destruct (known_word w ltac:(set_solver)) as [Hw Hwid], (known_word w' ltac:(set_solver)) as [Hw' Hwid'];
    rewrite <-?str_app_assoc in H; apply last_sep_inj in H as [H Heq];
    try (by apply FormatInt_no_colon); try done.
  - by destruct (Hwid id').
  - by destruct (Hwid' id).
  - by apply last_sep_inj in H as [-> _].
Qed.

Lemma limiter_keys_disjoint l l' k k' key :
  no_char ":" (limiter_rule l) = true → no_char ":" (limiter_rule l') = true →
  Forall component_valid (bk_Components k) → Forall component_valid (bk_Components k') →
  limiter_key l k key → limiter_key l' k' key → limiter_rule l = limiter_rule l' ∧ k = k'.
Proof.
  intros Hr Hr' Hv Hv' (x & Hx & ->)%limiter_key_shape (x' & Hx' & Heq)%limiter_key_shape.
  unfold limiterKeyPrefix in Heq. rewrite !str_app_assoc in Heq.
  apply (inj (String.app _)) in Heq. rewrite !str_cons_app in Heq.
  apply first_sep_inj in Heq as [Hrule Hb]; [|done..]. split; [done|].
  apply suffix_inj in Hb; [|done..]. by apply BucketKey_String_inj.
Qed.

Lemma Decide_other_bucket l l' k k' env s d s' :
  no_char ":" (limiter_rule l) = true → no_char ":" (limiter_rule l') = true →
  Forall component_valid (bk_Components k) → Forall component_valid (bk_Components k') →
  limiter_rule l ≠ limiter_rule l' ∨ k ≠ k' →
  Decide l k env s = GoRet (d, s') →
  ∀ key, limiter_key l' k' key → lookup s' (ce_server_ms env) key = lookup s (ce_server_ms env) key.
Proof.
  intros Hr Hr' Hv Hv' Hne Hd key Hkey. eapply Decide_frames; [done|]. intros Hkey'.
  destruct (limiter_keys_disjoint l l' k k' key Hr Hr' Hv Hv' Hkey' Hkey) as [??]. by destruct Hne.
Qed.

(** ** Failing open *)

(** A window below one millisecond is zero milliseconds. *)
Definition divides_by_zero (l : Limiter) : Prop :=
  match l with
  | LFixed l => Milliseconds (fwl_window l) = 0%Z
  | LSliding l => swl_mode l = "counter" ∧ Milliseconds (swl_window l) = 0%Z
  | LToken _ => False
  end.

(** A pair of results of [Decide]: an error goes with the fail-open decision,
    and its absence with an answer of the script. *)
Definition fail_open_pair (li : link) (r : decided) : Prop :=
  match r.2 with
  | Some _ => r.1 = mkDecision true 0 0 true
  | None => d_FailedOpen r.1 = false ∧ li = LinkUp
  end.

Lemma decision_of_pair li (p : script S redis_reply) t s :
  fail_open_pair li (decision_of (Run li p t s).1).
Proof.
  destruct li; cbn; [|done..]. destruct (p t s) as [[e|r] s']; cbn; [done|].
  unfold decision_of. by destruct (parseDecisionResult r) as [[[] v]|].
Qed.

Lemma Decide_cases l k env s :
  (Decide l k env s = GoPanic ↔ divides_by_zero l) ∧
  ∀ d s', Decide l k env s = GoRet (d, s') → fail_open_pair (ce_link env) d.
Proof.
  destruct l as [l|l|l]; cbn [Decide divides_by_zero].
  - unfold fixedWindow_Decide, go_div. case_decide as Hz; cbn [mbind outcome_bind]; [by split|].
    pose proof (decision_of_pair (ce_link env) (fixedWindowScript
      (fixedWindowKey l k (ce_now_ms env ÷ Milliseconds (fwl_window l))) (fwl_limit l)
      (Milliseconds (fwl_window l))) (ce_server_ms env) s) as Hd.
    destruct (Run _ _ _ _); split; [done|]. by intros ?? [= <- <-].
  - unfold slidingWindow_Decide. change SlidingWindowModeLog with "log".
    change SlidingWindowModeCounter with "counter".
    case_decide as Hm; [|case_decide as Hm'].
    + split; [split; [done|intros []; congruence]|]. unfold decideLog.
      destruct (ce_random env) as [m|]; [|by intros ?? [= <- <-]].
      pose proof (decision_of_pair (ce_link env) (slidingWindowLogScript (slidingLogKey l k) (swl_limit l)
        (ce_now_ms env) (Milliseconds (swl_window l)) m) (ce_server_ms env) s) as Hd.
      destruct (Run _ _ _ _). by intros ?? [= <- <-].
    + unfold decideCounter, run_counter, go_div, go_rem.
      case_decide as Hz; cbn [mbind outcome_bind]; [by split|].
      pose proof (decision_of_pair (ce_link env) (slidingWindowCounterScript
        (slidingCounterKey l k (ce_now_ms env ÷ Milliseconds (swl_window l)))
        (slidingCounterKey l k (ce_now_ms env ÷ Milliseconds (swl_window l) - 1)) (swl_limit l)
        (Milliseconds (swl_window l)) (Z.rem (ce_now_ms env) (Milliseconds (swl_window l))))
        (ce_server_ms env) s) as Hd.
      destruct (Run _ _ _ _); split; [split; [done|by intros []]|]. by intros ?? [= <- <-].
    + split; [split; [done|by intros []]|]. by intros ?? [= <- <-].
  - split; [done|]. unfold tokenBucket_Decide.
    pose proof (decision_of_pair (ce_link env) (tokenBucketScript (tokenBucketKey l k) (tbl_capacity l)
      (FormatFloat (tbl_refillRate l)) (ce_now_ms env) (Milliseconds tokenBucketIdleTTL))
      (ce_server_ms env) s) as Hd.
    destruct (Run _ _ _ _). by intros ?? [= <- <-].
Qed.
Lemma Peek_cases l k env s :
  (Peek l k env s = GoPanic ↔ divides_by_zero l) ∧
  ∀ d s', Peek l k env s = GoRet (d, s') → fail_open_pair (ce_link env) d.
Proof.
  destruct l as [l|l|l]; cbn [Peek divides_by_zero].
  - unfold fixedWindow_Peek, go_div. case_decide as Hz; cbn [mbind outcome_bind]; [by split|].
    pose proof (decision_of_pair (ce_link env) (fixedWindowPeekScript
      (fixedWindowKey l k (ce_now_ms env ÷ Milliseconds (fwl_window l))) (fwl_limit l)
      (Milliseconds (fwl_window l))) (ce_server_ms env) s) as Hd.
    destruct (Run _ _ _ _); split; [done|]. by intros ?? [= <- <-].
  - unfold slidingWindow_Peek. change SlidingWindowModeLog with "log".
    change SlidingWindowModeCounter with "counter".
    case_decide as Hm; [|case_decide as Hm'].
    + split; [split; [done|intros []; congruence]|]. unfold peekLog.
      pose proof (decision_of_pair (ce_link env) (slidingWindowLogPeekScript (slidingLogKey l k) (swl_limit l)
        (ce_now_ms env) (Milliseconds (swl_window l))) (ce_server_ms env) s) as Hd.
      destruct (Run _ _ _ _). by intros ?? [= <- <-].
    + unfold peekCounter, run_counter, go_div, go_rem.
      case_decide as Hz; cbn [mbind outcome_bind]; [by split|].
      pose proof (decision_of_pair (ce_link env) (slidingWindowCounterPeekScript
        (slidingCounterKey l k (ce_now_ms env ÷ Milliseconds (swl_window l)))
        (slidingCounterKey l k (ce_now_ms env ÷ Milliseconds (swl_window l) - 1)) (swl_limit l)
        (Milliseconds (swl_window l)) (Z.rem (ce_now_ms env) (Milliseconds (swl_window l))))
        (ce_server_ms env) s) as Hd.
      destruct (Run _ _ _ _); split; [split; [done|by intros []]|]. by intros ?? [= <- <-].
    + split; [split; [done|by intros []]|]. by intros ?? [= <- <-].
  - split; [done|]. unfold tokenBucket_Peek.
    pose proof (decision_of_pair (ce_link env) (tokenBucketPeekScript (tokenBucketKey l k) (tbl_capacity l)
      (FormatFloat (tbl_refillRate l)) (ce_now_ms env)) (ce_server_ms env) s) as Hd.
    destruct (Run _ _ _ _). by intros ?? [= <- <-].
Qed.

(** C39: A limiter never makes a request fail because of Redis.  Whatever the
    connection, the stored data and the replies are, [Decide] and [Peek]
    return (they panic only when a fixed or counter window is shorter than a millisecond),
    an error always comes with the decision to allow marked as failed open,
    and a decision without error was made by the script over a working
    connection. *)
Theorem limiters_fail_open l k env s :
  (Decide l k env s = GoPanic ↔ divides_by_zero l) ∧ (Peek l k env s = GoPanic ↔ divides_by_zero l) ∧
  (∀ d s', Decide l k env s = GoRet (d, s') → fail_open_pair (ce_link env) d) ∧
  (∀ d s', Peek l k env s = GoRet (d, s') → fail_open_pair (ce_link env) d).
Proof.
  destruct (Decide_cases l k env s) as [??], (Peek_cases l k env s) as [??]. done.
Qed.

(** ** A decision depends on the bucket's own keys *)

Definition agree (K : string → Prop) (t : Z) (s s' : S) : Prop :=
  ∀ key, K key → lookup s' t key = lookup s t key.

(** [respects K p]: the reply of [p] and what it leaves in [K] depend only on
    the keys in [K]. *)
Definition respects {A} (K : string → Prop) (p : script S A) : Prop :=
  ∀ t s s', agree K t s s' → (p t s').1 = (p t s).1 ∧ agree K t (p t s).2 (p t s').2.

Lemma respects_call {R} (K : string → Prop) (c : cmd R) key : K key → respects K (redis_call c key).
Proof.
  intros HK t s s' Ha. unfold redis_call. rewrite !call_reply, (Ha key HK). split; [done|].
  intros key' HK'. destruct (decide (key' = key)) as [->|Hne].
  - by rewrite !call_same, (Ha key HK).
  - rewrite !call_other by done. by apply Ha.
Qed.

Lemma respects_ret {A} K (a : A) : respects K (mret a).
Proof. done. Qed.

Lemma respects_raise {A} K e : respects K (@raise S A e).
Proof. done. Qed.

Lemma respects_bind {A B} K (p : script S A) (f : A → script S B) :
  respects K p → (∀ a, respects K (f a)) → respects K (p ≫= f).
Proof.
  intros Hp Hf t s s' Ha. destruct (Hp t s s' Ha) as [Hr Hs]. unfold mbind, script_bind.
  destruct (p t s) as [r s1], (p t s') as [r' s1']. cbn in Hr, Hs. subst r'.
  destruct r as [e|a]; [done|]. by apply Hf.
Qed.

Lemma respects_run K li (p : script S redis_reply) t s s' :
  respects K p → agree K t s s' → (Run li p t s').1 = (Run li p t s).1.
Proof.
  intros Hp Ha. destruct li; cbn; [|done..]. destruct (Hp t s s' Ha) as [Hr _].
  destruct (p t s) as [r s1], (p t s') as [r' s1']. cbn in Hr. by subst r'.
Qed.

Ltac solve_respects :=
  repeat match goal with
  | |- respects _ (_ ≫= _) => apply respects_bind; [|intros ?]
  | |- respects _ (mret _) => apply respects_ret
  | |- respects _ (raise _) => apply respects_raise
  | |- respects _ (redis_call _ _) => apply respects_call
  | |- respects _ (if ?b then _ else _) => destruct b
  | |- respects _ (match ?x with _ => _ end) => destruct x
  end; auto.

Lemma get_number_respects (K : string → Prop) key : K key → respects K (get_number key).
Proof. intros. unfold get_number. solve_respects. Qed.

Lemma pttl_or_respects (K : string → Prop) key w : K key → respects K (pttl_or key w).
Proof. intros. unfold pttl_or. solve_respects. Qed.

#[local] Hint Resolve get_number_respects pttl_or_respects : core.

(** The decisions of two calls are the same, or both panic. *)
Definition same_decision (a b : outcome (decided * S)) : Prop :=
  match a, b with
  | GoPanic, GoPanic => True
  | GoRet (d, _), GoRet (d', _) => d = d'
  | _, _ => False
  end.

Lemma Run_same_decision K li (p : script S redis_reply) t s s' :
  respects K p → agree K t s s' →
  same_decision (let '(r, x) := Run li p t s in GoRet (decision_of r, x))
                (let '(r, x) := Run li p t s' in GoRet (decision_of r, x)).
Proof.
  intros Hp Ha. pose proof (respects_run K li p t s s' Hp Ha) as Hr.
  destruct (Run li p t s), (Run li p t s'). cbn in *. by subst.
Qed.

Lemma Decide_respects l k env s s' :
  agree (limiter_key l k) (ce_server_ms env) s s' → same_decision (Decide l k env s) (Decide l k env s').
Proof.
  intros Ha. destruct l as [l|l|l]; cbn [Decide].
  - unfold fixedWindow_Decide, go_div. case_decide; cbn [mbind outcome_bind]; [done|].
    eapply Run_same_decision; [|exact Ha]. unfold fixedWindowScript.
    assert (limiter_key (LFixed l) k (fixedWindowKey l k (ce_now_ms env ÷ Milliseconds (fwl_window l))))
      by (by eexists). solve_respects.
  - unfold slidingWindow_Decide. case_decide; [|case_decide]; [| |done].
    + unfold decideLog. destruct (ce_random env) as [m|]; [|done].
      assert (limiter_key (LSliding l) k (slidingLogKey l k)) by (by left).
      pose proof (Run_same_decision (limiter_key (LSliding l) k) (ce_link env)
        (slidingWindowLogScript (slidingLogKey l k) (swl_limit l) (ce_now_ms env)
           (Milliseconds (swl_window l)) m) (ce_server_ms env) s s') as Hr.
      destruct (Run _ _ _ s), (Run _ _ _ s'). apply Hr; [|done].
      unfold slidingWindowLogScript. solve_respects.
    + unfold decideCounter, run_counter, go_div, go_rem.
      case_decide; cbn [mbind outcome_bind]; [done|].
      eapply Run_same_decision; [|exact Ha]. unfold slidingWindowCounterScript. cbv zeta.
      assert (∀ id, limiter_key (LSliding l) k (slidingCounterKey l k id)) by (intros id; right; by eexists).
      solve_respects.
  - unfold tokenBucket_Decide.
    pose proof (Run_same_decision (limiter_key (LToken l) k) (ce_link env)
      (tokenBucketScript (tokenBucketKey l k) (tbl_capacity l) (FormatFloat (tbl_refillRate l))
         (ce_now_ms env) (Milliseconds tokenBucketIdleTTL)) (ce_server_ms env) s s') as Hr.
    destruct (Run _ _ _ s), (Run _ _ _ s'). apply Hr; [|done].
    assert (limiter_key (LToken l) k (tokenBucketKey l k)) by done.
    unfold tokenBucketScript, with_rate, save_bucket. cbv zeta. solve_respects.
Qed.

(** buckets are isolated.  A decision for one rule and bucket leaves every
    key of another rule, or of another bucket of the same rule, as it was, and
    does not influence the decisions made for that other bucket: no request is
    counted against a rule or a bucket it does not belong to. *)
Theorem Decide_isolated l l' k k' env env' s d s' :
  no_char ":" (limiter_rule l) = true → no_char ":" (limiter_rule l') = true →
  Forall component_valid (bk_Components k) → Forall component_valid (bk_Components k') →
  limiter_rule l ≠ limiter_rule l' ∨ k ≠ k' → ce_server_ms env' = ce_server_ms env →
  Decide l k env s = GoRet (d, s') →
  (∀ key, limiter_key l' k' key → lookup s' (ce_server_ms env) key = lookup s (ce_server_ms env) key) ∧
  same_decision (Decide l' k' env' s) (Decide l' k' env' s').
Proof.
  intros Hr Hr' Hv Hv' Hne Ht Hd.
  pose proof (Decide_other_bucket l l' k k' env s d s' Hr Hr' Hv Hv' Hne Hd) as Hkeys.
  split; [done|]. apply Decide_respects. unfold agree. by rewrite Ht.
Qed.

(** The limiter of a rule that validation accepts has valid parameters. *)
Lemma NewLimiter_valid rx row :
  RateLimit_Validate rx (rlr_Definition row) = [] →
  (∀ l, al_TokenBucket (rl_Algorithm (rlr_Definition row)) = Some l → exact_int (tb_Capacity l)) →
  ∃ l, NewLimiter (Some row) = Some l ∧ limiter_valid l ∧ limiter_rule l = rlr_Id row.
Proof.
  intros Hv Hcap. unfold RateLimit_Validate, RateLimit_validate in Hv.
  rewrite !app_nil in Hv. destruct Hv as (_ & _ & _ & Hv). apply Algorithm_Validate_nil in Hv.
  unfold NewLimiter. destruct Hv as [(w & l & Ha & ? & ?)|[(w & l & m & Ha & ? & ? & ?)|(c & q & Ha & ? & ?)]];
    rewrite Ha in *; cbn; eexists; (split; [done|]); (split; [|done]); cbn; (split; [done|]); try done.
  by apply (Hcap _ eq_refl).
Qed.

(** A dry run predicts the real call.  For every rule that validation
    accepts, connection state and stored history, [Peek] returns what [Decide]
    would return at the same instant, decision and error, and changes no key;
    if one panics, so does the other. *)
Theorem Peek_predicts_Decide `{!LuaNumLaws F} rx row k env s :
  RateLimit_Validate rx (rlr_Definition row) = [] →
  (∀ l, al_TokenBucket (rl_Algorithm (rlr_Definition row)) = Some l → exact_int (tb_Capacity l)) →
  is_Some (ce_random env) →
  ∃ l, NewLimiter (Some row) = Some l ∧
    (owned l k (ce_server_ms env) s → predicts (ce_server_ms env) s (Peek l k env s) (Decide l k env s)).
Proof.
  intros Hv Hcap Hrand. destruct (NewLimiter_valid rx row Hv Hcap) as (l & Hl & Hvalid & _).
  exists l. split; [done|]. intros Ho. by apply Peek_Decide.
Qed.
End limiters.

(** ** Replaying calls *)

Definition ret_or {A} (d : A) (o : outcome A) : A := match o with GoRet a => a | GoPanic => d end.

Section replay.
Context {S : Type} {redis : RedisServer S} {F : Type} {lua : LuaNum F}.
Context (FormatFloat : Q → string) (l : Limiter) (k : BucketKey) (adm : call_env → S → Prop).

(** The calls [envs] one after the other, and the decisions they return. *)
Definition replay_step (st : list (Z * Decision) * Z * S) (env : call_env) : list (Z * Decision) * Z * S :=
  let '(ds, _, s) := st in
  let '((d, _), s') := ret_or ((mkDecision true 0 0 true, None), s) (Decide FormatFloat l k env s) in
  (ds ++ [(ce_server_ms env, d)], ce_server_ms env, s').

Definition replay (t : Z) (s : S) (envs : list call_env) : list (Z * Decision) * Z * S :=
  foldl replay_step ([], t, s) envs.

Fixpoint replay_ok (st : list (Z * Decision) * Z * S) (envs : list call_env) : Prop :=
  match envs with
  | [] => True
  | env :: envs =>
      (st.1.2 ≤ ce_server_ms env)%Z ∧ ce_now_ms env = ce_server_ms env ∧ adm env st.2 ∧
      replay_ok (replay_step st env) envs
  end.

Lemma replay_run_from t0 s0 st envs :
  ¬ divides_by_zero l → replay_ok st envs →
  run FormatFloat l k adm t0 s0 st.1.1 st.1.2 st.2 →
  let st' := foldl replay_step st envs in run FormatFloat l k adm t0 s0 st'.1.1 st'.1.2 st'.2.
Proof.
  intros Hz. revert st. induction envs as [|env envs IH]; intros [[ds t] s] Hok Hrun; [done|].
  destruct Hok as (Ht & Hnow & Hadm & Hok). cbn [foldl]. apply IH; [done|].
  destruct (Decide_cases FormatFloat l k env s) as [Hp _]. unfold replay_step.
  destruct (Decide FormatFloat l k env s) as [|[[d e] s']] eqn:Hd; [tauto|].
  cbn. by eapply run_decide.
Qed.

Lemma replay_run t0 s0 envs :
  ¬ divides_by_zero l → replay_ok ([], t0, s0) envs →
  run FormatFloat l k adm t0 s0 (replay t0 s0 envs).1.1 (replay t0 s0 envs).1.2 (replay t0 s0 envs).2.
Proof. intros Hz Hok. apply (replay_run_from t0 s0 ([], t0, s0) envs Hz Hok). constructor. Qed.
End replay.

(** ** Instances *)

Abbreviation server := (gmap string entry).

Definition call_at (li : link) (t : Z) (r : string) : call_env := mkEnv li t t (Some r).

Definition sample_key : BucketKey := mkBucketKey [mkComponent "actor" "act_1"].

Definition sample_fixed : fixedWindowLimiter := mkFixedWindowLimiter "rl_1" 2 (10 * Second).

(** Four requests of one window, the reply to the second one lost. *)
Definition sample_calls : list call_env :=
  [call_at LinkUp 1000 "a"; call_at ReplyLost 2000 "b"; call_at LinkUp 3000 "c"; call_at LinkUp 9999 "d"].

Lemma fixed_window_at_most_limit_witness :
  let ds := (replay (S := server) (F := Q) n_tostring (LFixed sample_fixed) sample_key 0 ∅ sample_calls).1.1 in
  map (λ d, (d_Allowed d.2, d_FailedOpen d.2)) ds = [(true, false); (true, true); (false, false); (false, false)] ∧
  (accepted_count ds ≤ 2)%Z.
Proof.
  split; [by vm_compute|].
  refine (proj1 (fixed_window_at_most_limit (F := Q) n_tostring sample_fixed sample_key 10000 0 0 (∅ : server)
    _ _ _ _ eq_refl _ _ _ (replay_run n_tostring (LFixed sample_fixed) sample_key (in_window 10000 0) 0 ∅
      sample_calls _ _) _)); by vm_compute.
Defined.

Lemma not_elem_of_compute (m : string) (es : list string) : bool_decide (m ∈ es) = false → m ∉ es.
Proof. apply bool_decide_eq_false. Qed.

Definition sample_log : slidingWindowLimiter := mkSlidingWindowLimiter "rl_2" 2 (10 * Second) "log".

Lemma sliding_log_at_most_limit_witness :
  let ds := (replay (S := server) (F := Q) n_tostring (LSliding sample_log) sample_key 0 ∅ sample_calls).1.1 in
  map (λ d, (d_Allowed d.2, d_FailedOpen d.2)) ds = [(true, false); (true, true); (false, false); (false, false)] ∧
  (accepted_in (9999 - 10000) 9999 ds ≤ 2)%Z.
Proof.
  split; [by vm_compute|].
  refine (sliding_log_at_most_limit (F := Q) n_tostring sample_log sample_key 10000 0 (∅ : server)
    _ _ _ _ eq_refl eq_refl _ _ (replay_run n_tostring (LSliding sample_log) sample_key
      (fresh_member sample_log sample_key) 0 ∅ sample_calls _ _) 9999).
  - by vm_compute.
  - done.
  - by vm_compute.
  - by intros [? _].
  - do 4 (split; [by vm_compute|]; split; [reflexivity|]; split;
      [intros m es [= <-] Hes; vm_compute in Hes; injection Hes as <-;
       apply not_elem_of_compute; vm_compute; reflexivity|]).
    exact I.
Defined.

Definition sample_token : Limiter := LToken (mkTokenBucketLimiter "rl_3" 5 (1 # 2)).

Lemma Decide_isolated_witness :
  same_decision (Decide n_tostring sample_token sample_key (call_at LinkUp 5 "a") (∅ : server))
    (Decide n_tostring sample_token sample_key (call_at LinkUp 5 "a")
      (replay (F := Q) n_tostring (LFixed sample_fixed) sample_key 0 ∅ [call_at LinkUp 5 "b"]).2).
Proof.
  refine (proj2 (Decide_isolated (F := Q) n_tostring (LFixed sample_fixed) sample_token sample_key sample_key
    (call_at LinkUp 5 "b") (call_at LinkUp 5 "a") ∅ _ _ _ _ _ _ _ eq_refl
    (eq_refl : Decide n_tostring (LFixed sample_fixed) sample_key (call_at LinkUp 5 "b") ∅ = GoRet (_, _)))).
  - done.
  - done.
  - repeat constructor.
  - repeat constructor.
  - by left.
Defined.

Lemma Peek_predicts_Decide_witness :
  let row := mkRow "rl_1" "root.acme" "limit" (sample_rule ["actor"]) in
  ∃ l, NewLimiter (Some row) = Some l ∧
    predicts 7 (∅ : server) (Peek (F := Q) n_tostring l sample_key (call_at LinkUp 7 "a") ∅)
      (Decide n_tostring l sample_key (call_at LinkUp 7 "a") ∅).
Proof.
  destruct (Peek_predicts_Decide (F := Q) n_tostring (λ _, None) (mkRow "rl_1" "root.acme" "limit" (sample_rule ["actor"]))
    sample_key (call_at LinkUp 7 "a") (∅ : server)) as (l & Hl & H).
  - by vm_compute.
  - done.
  - by eexists.
  - exists l. split; [done|]. apply H. injection Hl as <-. intros id. by exists 0%Z.
Defined.

(** Three ways a limiter's answer differs from what is documented for it.
    The wait of a rejected fixed-window request is the remaining lifetime of
    the counter, a full window from its first request, so it can far exceed
    the rest of the window, after which requests are accepted; a rule whose
    window is below a millisecond passes validation and makes every matching
    request panic; and a request rejected by the sliding counter is told to
    wait until the window ends, when it may still be rejected. *)
Theorem limiter_defects :
  (let l := LFixed (mkFixedWindowLimiter "rl_1" 1 (10 * Second)) in
   let run := replay (S := server) (F := Q) n_tostring l sample_key 0 ∅
     [call_at LinkUp 9000 "a"; call_at LinkUp 9500 "b"; call_at LinkUp 10000 "c"] in
   map (λ d, (d.1, d_Allowed d.2, d_RetryAfter d.2)) run.1.1
   = [(9000, true, 0); (9500, false, 9500 * Millisecond); (10000, true, 0)]%Z) ∧
  (let rule := mkRateLimit "" (mkSelector "" [] None None) (mkBucket [])
     (mkAlgorithm (Some (mkFixedWindow 65536 1)) None None) in
   RateLimit_Validate (λ _, None) rule = [] ∧
   ∃ l, NewLimiter (Some (mkRow "rl_1" "root" "limit" rule)) = Some l ∧
     ∀ k env (s : server), Decide (F := Q) n_tostring l k env s = GoPanic) ∧
  (let l := LSliding (mkSlidingWindowLimiter "rl_1" 2 (10 * Second) "counter") in
   let run := replay (S := server) (F := Q) n_tostring l sample_key 0 ∅
     [call_at LinkUp 9997 "a"; call_at LinkUp 9998 "b"; call_at LinkUp 9999 "c"; call_at LinkUp 10000 "d"] in
   map (λ d, (d.1, d_Allowed d.2, d_RetryAfter d.2)) run.1.1
   = [(9997, true, 0); (9998, true, 0); (9999, false, 1 * Millisecond); (10000, false, 10000 * Millisecond)]%Z).
Proof.
  split; [by vm_compute|]. split; [|by vm_compute].
  split; [by vm_compute|]. eexists. split; [done|]. by intros.
Qed.
