(* ===== verification/TokenBucket.v ===== *)
(** * The token bucket over time

    How many requests a token bucket ([ratelimit/limiter_token_bucket.go],
    modelled in file Limiters) accepts: its capacity and what the rate adds
    since, up to the rounding of Lua's numbers. *)

From Stdlib Require Import QArith Lqa.
From S2P Require Import Prelude GoNumbers GoStrings RateRules Redis Limiters.
Open Scope string_scope.
Open Scope list_scope.

(** The time the scripts count in: 14 decimal digits of milliseconds, what
    Lua's [tostring] prints. *)
Definition time_limit : Z := (10 ^ 14)%Z.

(** Tokens that accrue up to a time. *)
Definition accrued (rate : Q) (t : Z) : Q := (rate * inject_Z t * (1 # 1000))%Q.

Lemma accrued_le rate t t' : (0 <= rate)%Q → (t ≤ t')%Z → (accrued rate t <= accrued rate t')%Q.
Proof. intros Hr Ht. unfold accrued. rewrite Zle_Qle in Ht. nra. Qed.

Section bucket.
Context {S : Type} {redis : RedisServer S} {F : Type} {lua : LuaNum F}.
Context (FormatFloat : Q → string) (q : F → Q) (slack : Q) (l : tokenBucketLimiter) (k : BucketKey).

Abbreviation cap := (inject_Z (tbl_capacity l)).
Abbreviation rate := (tbl_refillRate l).

(** The value of a number that counts tokens of the bucket. *)
Definition in_range (x : F) : Prop := (0 <= q x /\ q x <= cap)%Q.

(** Rounding errs by at most [slack] in each of the two computations of the
    script, from what was stored as strings; comparison with 1 is exact. *)
Record rounds : Prop := {
  ro_capacity : (q (n_of_Z (tbl_capacity l)) == cap)%Q;
  ro_rate : is_Some (n_tonumber (FormatFloat rate));
  ro_refill tokens last now r : n_tonumber (FormatFloat rate) = Some r →
    in_range tokens → (0 ≤ last ≤ now)%Z → (now < time_limit)%Z →
    ∃ tokens' last', n_tonumber (n_tostring tokens) = Some tokens' ∧ n_tonumber (n_tostring (n_of_Z last)) = Some last' ∧
      in_range (refilled (tbl_capacity l) r tokens' last' now) ∧
      (q (refilled (tbl_capacity l) r tokens' last' now) <= q tokens + (accrued rate now - accrued rate last) + slack)%Q;
  ro_take x : in_range x → n_ltb x (n_of_Z 1) = false →
    (1 <= q x)%Q ∧ in_range (n_sub x (n_of_Z 1)) ∧ (q (n_sub x (n_of_Z 1)) <= q x - 1 + slack)%Q
}.

Definition idle_ms : Z := Milliseconds tokenBucketIdleTTL.

(** A bucket as the script stored it at some time. *)
Definition stored (tokens : F) (last : Z) (e : entry) : Prop :=
  ∃ h, e = mkEntry (VHash h) (Some (last + idle_ms)%Z) ∧
    h !! "tokens" = Some (n_tostring tokens) ∧ h !! "last_refill_ms" = Some (n_tostring (n_of_Z last)).

(** A bucket that is missing, or that the limiter wrote before. *)
Definition bucket_ok (t : Z) (o : option entry) : Prop :=
  ∀ e, o = Some e → ∃ tokens last, stored tokens last e ∧ in_range tokens ∧ (0 ≤ last ≤ t)%Z.

(** What may have been accepted by a time, after a number of decisions. *)
Definition budget (t0 t : Z) (n : nat) : Q := (accrued rate t - accrued rate t0 + 2 * slack * inject_Z (Z.of_nat n))%Q.

(** The tokens of the bucket and the accepted requests stay within the budget
    and the capacity. *)
Definition covered (t0 : Z) (ds : list (Z * Decision)) (t : Z) (o : option entry) : Prop :=
  let acc := inject_Z (accepted_count ds) in let n := length ds in
  match o with
  | None => (acc <= budget t0 t n)%Q
  | Some e => ∃ tokens last, stored tokens last e ∧ in_range tokens ∧ (0 ≤ last ≤ t)%Z ∧
      ((acc <= budget t0 t n)%Q ∨ (q tokens - accrued rate last + acc <= cap - accrued rate t0 + 2 * slack * inject_Z (Z.of_nat n))%Q)
  end.

Hypothesis rounding : rounds.
Hypothesis slack_nonneg : (0 <= slack)%Q.
Hypothesis rate_nonneg : (0 <= rate)%Q.
Hypothesis capacity_pos : (0 < tbl_capacity l)%Z.
(** An idle bucket is full when Redis forgets it. *)
Hypothesis full_within_idle : (cap <= rate * 3600)%Q.

Lemma budget_le t0 t t' n : (t ≤ t')%Z → (budget t0 t n <= budget t0 t' n)%Q.
Proof. intros Ht. unfold budget. pose proof (accrued_le rate t t' rate_nonneg Ht). lra. Qed.

Lemma idle_accrues t t' : (t + idle_ms ≤ t')%Z → (cap <= accrued rate t' - accrued rate t)%Q.
Proof.
  intros Ht. unfold accrued. rewrite Zle_Qle, inject_Z_plus in Ht. change (inject_Z idle_ms) with 3600000%Q in Ht. nra.
Qed.

(** Time passes, and the bucket may be forgotten. *)
Lemma covered_later t0 ds t t' s key :
  (t ≤ t')%Z → covered t0 ds t (lookup s t key) → covered t0 ds t' (lookup s t' key).
Proof.
  intros Ht Hc. destruct (lookup_later s t t' key Ht) as [->|(-> & e & x & He & Hx & Hle)].
  - destruct (lookup s t key) as [e|]; cbn in *; pose proof (budget_le t0 t t' (length ds) Ht); [|lra].
    destruct Hc as (tokens & last & Hs & Hr & Hlast & [Hc|Hc]); exists tokens, last; (split_and!; [done|done|lia|lia|]); [left; lra|by right].
  - rewrite He in Hc. cbn in Hc |- *. destruct Hc as (tokens & last & (h & -> & _) & [Hr _] & Hlast & [Hc|Hc]).
    { pose proof (budget_le t0 t t' (length ds) Ht). lra. }
    injection Hx as <-. pose proof (idle_accrues last t' Hle). unfold budget. lra.
Qed.

(** Writing the bucket. *)
Lemma save_bucket_stored key x t s h :
  hash_fields (lookup s t key) = Some h →
  ∃ s' e, save_bucket key x t idle_ms t s = (Ok tt, s') ∧ lookup s' t key = Some e ∧ stored x t e.
Proof.
  intros Hh. unfold save_bucket. script_unfold. pose proof (touches_refl t key s) as T.
  redis_step. destruct (lookup s t key) as [[v ex]|]; [destruct v|]; simplify_eq/=; redis_step;
    (eexists _, _; split; [reflexivity|]; split; [exact (proj1 T)|]; eexists; split; [reflexivity|]; split;
     [rewrite lookup_insert_ne by done|]; by rewrite lookup_insert_eq).
Qed.

(** The tokens the script finds at a time. *)
Definition found (h : gmap string string) (t : Z) : script S F :=
  match opt_number (h !! "tokens"), opt_number (h !! "last_refill_ms") with
  | Some tokens, Some last => with_rate (FormatFloat rate) (λ rate, mret (refilled (tbl_capacity l) rate tokens last t))
  | _, _ => mret (n_of_Z (tbl_capacity l))
  end.

Lemma found_covered t0 ds t o :
  (0 ≤ t < time_limit)%Z → covered t0 ds t o →
  ∃ h y, hash_fields o = Some h ∧ in_range y ∧ (∀ s, found h t t s = (Ok y, s)) ∧
    (q y + inject_Z (accepted_count ds) <= cap + budget t0 t (length ds) + slack)%Q.
Proof.
  intros [Ht Hlim] Hc. destruct (ro_rate rounding) as [r Hr]. pose proof (ro_capacity rounding) as Hcap. destruct o as [e|]; cbn in Hc.
  - destruct Hc as (tokens & last & (h & -> & Htok & Hl) & Hin & Hlast & Hc).
    destruct (ro_refill rounding tokens last t r Hr Hin Hlast Hlim) as (tokens' & last' & Et & El & Hrange & Hle).
    exists h, (refilled (tbl_capacity l) r tokens' last' t). split_and!; [done|done| |].
    + intros s. unfold found, opt_number. rewrite Htok, Hl. cbn. rewrite Et, El. unfold with_rate. by rewrite Hr.
    + destruct Hrange as [_ Hmax]. unfold budget in *. destruct Hc as [Hc|Hc]; lra.
  - exists ∅, (n_of_Z (tbl_capacity l)). split_and!; [done| |done|].
    + unfold in_range. rewrite Hcap. split; [|lra]. change 0%Q with (inject_Z 0). rewrite <- Zle_Qle. lia.
    + rewrite Hcap. lra.
Qed.

(** What the script answers, and stores. *)
Lemma tokenBucketScript_spec t0 ds t s :
  let key := tokenBucketKey l k in
  (0 ≤ t < time_limit)%Z → covered t0 ds t (lookup s t key) →
  ∃ y z v s' e, in_range z ∧
    (q y + inject_Z (accepted_count ds) <= cap + budget t0 t (length ds) + slack)%Q ∧
    (if n_ltb y (n_of_Z 1) then z = y else (1 <= q y)%Q ∧ (q z <= q y - 1 + slack)%Q) ∧
    tokenBucketScript key (tbl_capacity l) (FormatFloat rate) t idle_ms t s
      = (Ok (reply_pair (if n_ltb y (n_of_Z 1) then 0 else 1) v), s') ∧
    lookup s' t key = Some e ∧ stored z t e.
Proof.
  intros key Ht Hc. destruct (found_covered t0 ds t _ Ht Hc) as (h & y & Hh & Hy & Hf & Hq). destruct (ro_rate rounding) as [r Hr].
  destruct (hmget_spec key t s _ h eq_refl Hh) as (s1 & E & T).
  assert (∀ x, ∃ s2 e, save_bucket key x t idle_ms t s1 = (Ok tt, s2) ∧ lookup s2 t key = Some e ∧ stored x t e) as Hsave.
  { intros x. apply (save_bucket_stored key x t s1 h). by rewrite (proj1 T). }
  unfold tokenBucketScript, mbind, script_bind. unfold redis_call at 1. rewrite E. cbn [fst snd]. fold (found h t). rewrite Hf.
  destruct (n_ltb y (n_of_Z 1)) eqn:Hlt.
  - destruct (Hsave y) as (s2 & e & Es & He & Hst). exists y, y, (wait_ms r y), s2, e.
    unfold with_rate. rewrite Hlt, Hr, Es. by split_and!.
  - destruct (ro_take rounding y Hy Hlt) as (H1 & Hz & Hle). destruct (Hsave (n_sub y (n_of_Z 1))) as (s2 & e & Es & He & Hst).
    exists y, (n_sub y (n_of_Z 1)), (n_to_int (n_floor (n_sub y (n_of_Z 1)))), s2, e. rewrite Hlt, Es. by split_and!.
Qed.

Lemma budget_S t0 t n : (budget t0 t (Datatypes.S n) == budget t0 t n + 2 * slack)%Q.
Proof. unfold budget. rewrite Nat2Z.inj_succ. unfold Z.succ. rewrite inject_Z_plus. ring. Qed.

(** A call that changed nothing, and one that stored a bucket. *)
Lemma covered_rejected t0 ds t o d :
  accepted d = false → covered t0 ds t o → covered t0 (ds ++ [d]) t o.
Proof.
  intros Hd Hc. unfold covered in *. rewrite accepted_count_app, Hd, Z.add_0_r, length_app, Nat.add_1_r.
  pose proof (budget_S t0 t (length ds)) as HS. unfold budget in *. destruct o as [e|]; [|lra].
  destruct Hc as (tokens & last & Hst & Hr & Hlast & [Hc|Hc]); exists tokens, last; (split_and!; [done|done|lia|lia|]); [left|right]; lra.
Qed.

Lemma covered_stored t0 ds t z e :
  (0 ≤ t)%Z → stored z t e → in_range z → (q z + inject_Z (accepted_count ds) <= cap + budget t0 t (length ds))%Q →
  covered t0 ds t (Some e).
Proof.
  intros Ht Hst Hz Hle. exists z, t. split_and!; [done|done|lia|lia|]. right. unfold budget in Hle. lra.
Qed.

(** One decision. *)
Lemma decide_covered t0 ds t s env d e s' :
  let key := tokenBucketKey l k in let t' := ce_server_ms env in let ds' := ds ++ [(t', d)] in
  (0 ≤ t' < time_limit)%Z → (t ≤ t')%Z → ce_now_ms env = t' →
  (inject_Z (accepted_count ds) <= cap + budget t0 t (length ds))%Q → covered t0 ds t (lookup s t key) →
  tokenBucket_Decide FormatFloat l k env s = ((d, e), s') →
  (inject_Z (accepted_count ds') <= cap + budget t0 t' (length ds'))%Q ∧ covered t0 ds' t' (lookup s' t' key).
Proof.
  intros key t' ds' Ht Hle Hnow Hacc Hc Hd. apply (covered_later _ _ _ t' _ _ Hle) in Hc. pose proof (budget_le t0 t t' (length ds) Hle) as Hb.
  pose proof (budget_S t0 t' (length ds)) as HS.
  assert (length ds' = Datatypes.S (length ds)) as Hn by (unfold ds'; rewrite length_app; cbn; lia).
  assert (accepted_count ds' = accepted_count ds + if accepted (t', d) then 1 else 0)%Z as Ha by apply accepted_count_app.
  destruct (tokenBucketScript_spec t0 ds t' s Ht Hc) as (y & z & v & s1 & e1 & Hz & Hy & Htake & Escr & Ee & Hst).
  unfold tokenBucket_Decide in Hd. rewrite Hnow in Hd. fold key t' idle_ms in Hd, Escr, Ee.
  destruct (ce_link env); unfold Run in Hd; try (rewrite Escr in Hd); cbn in Hd.
  - destruct (n_ltb y (n_of_Z 1)); cbn in Hd; injection Hd as <- <- <-; cbn in Ha; rewrite Ee.
    + subst z. split; [rewrite Hn, HS, Ha, Z.add_0_r; lra|]. apply (covered_stored t0 ds' t' y e1); [lia|done|done|]. rewrite Hn, HS, Ha, Z.add_0_r. lra.
    + destruct Htake as [H1 Htake]. split; [rewrite Hn, HS, Ha, inject_Z_plus; change (inject_Z 1) with 1%Q; lra|]. apply (covered_stored t0 ds' t' z e1); [lia|done|done|].
      rewrite Hn, HS, Ha, inject_Z_plus. change (inject_Z 1) with 1%Q. lra.
  - injection Hd as <- <- <-. cbn in Ha. split; [rewrite Hn, HS, Ha, Z.add_0_r; lra|]. by apply covered_rejected.
  - injection Hd as <- <- <-. cbn in Ha. rewrite Ee. split; [rewrite Hn, HS, Ha, Z.add_0_r; lra|].
    apply (covered_stored t0 ds' t' z e1); [lia|done|done|]. rewrite Hn, HS, Ha, Z.add_0_r.
    destruct (n_ltb y (n_of_Z 1)); [subst z|destruct Htake]; lra.
Qed.

(** C20: A token bucket accepts at most its capacity and what the rate adds.
    From any time on, starting with a bucket that is missing or that the
    limiter stored, over any run of calls with connection failures and other
    traffic in between, the number of accepted requests is at most the capacity
    plus the rate times the time that passed, plus the rounding of two
    operations for each call.  This needs that an empty bucket fills within the
    hour after which Redis forgets an idle one, and times that Lua prints
    without loss. *)
Theorem token_bucket_bounded t0 s0 ds t s :
  (0 ≤ t0)%Z → bucket_ok t0 (lookup s0 t0 (tokenBucketKey l k)) →
  run FormatFloat (LToken l) k (λ env _, ce_now_ms env < time_limit)%Z t0 s0 ds t s →
  (inject_Z (accepted_count ds) <= cap + rate * inject_Z (t - t0) * (1 # 1000) + 2 * slack * inject_Z (Z.of_nat (length ds)))%Q.
Proof.
  intros Ht0 Hok Hrun.
  assert ((t0 ≤ t)%Z ∧ (inject_Z (accepted_count ds) <= cap + budget t0 t (length ds))%Q ∧ covered t0 ds t (lookup s t (tokenBucketKey l k))) as (_ & Hle & _).
  { induction Hrun as [|ds t s env d e s' Hrun (IHt & IHa & IHc) Ht Hnow Hadm Hd|ds t s t' s' Hrun (IHt & IHa & IHc) Ht Hkey].
    - split; [done|]. assert (0 < cap)%Q by (change 0%Q with (inject_Z 0); rewrite <- Zlt_Qlt; done).
      assert (budget t0 t0 (length (@nil (Z * Decision))) == 0)%Q as Hb by (unfold budget; cbn; ring). change (inject_Z (accepted_count [])) with 0%Q. split; [rewrite Hb; lra|].
      unfold covered. change (inject_Z (accepted_count [])) with 0%Q. destruct (lookup s0 t0 _) as [e|]; [|rewrite Hb; lra].
      destruct (Hok e eq_refl) as (tokens & last & Hst & Hr & Hlast). exists tokens, last. split_and!; [done|done|lia|lia|]. left. rewrite Hb. lra.
    - split; [lia|]. injection Hd as Hd. eapply decide_covered; [|done|done|done|done|exact Hd]. lia.
    - split; [lia|]. pose proof (budget_le t0 t t' (length ds) Ht). split; [lra|]. rewrite (Hkey _ eq_refl). by eapply covered_later. }
  unfold budget, accrued in Hle. unfold Z.sub. rewrite inject_Z_plus, inject_Z_opp. lra.
Qed.
End bucket.

(** ** Exact numbers *)

Definition digits_of (x : Q) : string := pos_digits (encode (Qnum x, Qden x)).
Definition of_digits (s : string) : option Q := '(n, d) ← (decode (digits_pos s) : option (Z * positive)); Some (n # d).

Lemma of_digits_of x : of_digits (digits_of x) = Some x.
Proof. unfold of_digits, digits_of. rewrite digits_pos_digits, decode_encode. by destruct x. Qed.

(** Rationals printed without loss. *)
#[local] Instance exact_num : LuaNum Q := {|
  n_of_Z := inject_Z; n_add := Qplus; n_sub := λ a b, Qred (Qminus a b); n_mul := Qmult; n_div := Qdiv;
  n_min := λ a b, if Qle_bool a b then a else b;
  n_ltb := λ a b, negb (Qle_bool b a);
  n_floor := λ a, inject_Z (Qround.Qfloor a); n_ceil := λ a, inject_Z (Qround.Qceiling a); n_to_int := Qround.Qfloor;
  n_tostring := digits_of; n_tonumber := of_digits
|}.

Lemma exact_refilled (cap : Z) (rate tokens : Q) (last now : Z) :
  (0 <= rate)%Q → (0 <= tokens)%Q → (tokens <= inject_Z cap)%Q → (last ≤ now)%Z →
  let y := refilled (F := Q) cap rate tokens (inject_Z last) now in
  (0 <= y /\ y <= inject_Z cap /\ y <= tokens + (accrued rate now - accrued rate last))%Q.
Proof.
  intros Hr Ht Hcap Hle y. pose proof Hle as Hle'. rewrite Zle_Qle in Hle'. subst y. unfold refilled.
  cbn [n_ltb n_sub n_of_Z n_min n_add n_mul n_div exact_num]. set (d := Qred (inject_Z now - inject_Z last)).
  assert (d == inject_Z now - inject_Z last)%Q as Hd by apply Qred_correct.
  assert (Qle_bool (inject_Z 0) d = true) as ->.
  { apply Qle_bool_iff. rewrite Hd. change (inject_Z 0) with 0%Q. lra. }
  cbn [negb]. assert (d / inject_Z 1000 * rate == accrued rate now - accrued rate last)%Q as Hacc.
  { rewrite Hd. unfold accrued, Qdiv. change (/ inject_Z 1000)%Q with (1 # 1000). ring. }
  pose proof (accrued_le rate last now Hr Hle).
  destruct (Qle_bool (inject_Z cap) (tokens + d / inject_Z 1000 * rate)) eqn:Hm.
  - apply Qle_bool_iff in Hm. rewrite Hacc in Hm. split; [lra|]. split; lra.
  - assert (tokens + d / inject_Z 1000 * rate < inject_Z cap)%Q as Hlt.
    { apply Qnot_le_lt. intros H'%Qle_bool_iff. congruence. }
    rewrite Hacc in *. split; [lra|]. split; lra.
Qed.

Lemma exact_rounds (l : tokenBucketLimiter) : (0 <= tbl_refillRate l)%Q → rounds (F := Q) digits_of id 0 l.
Proof.
  intros Hr. split.
  - reflexivity.
  - cbn. rewrite of_digits_of. by eexists.
  - intros tokens last now r Hrr [H0 Hcap] Hlast _. cbn in Hrr. rewrite of_digits_of in Hrr. injection Hrr as <-.
    exists tokens, (inject_Z last). cbn [n_tonumber n_tostring exact_num n_of_Z]. rewrite !of_digits_of. split_and!; [done|done| |].
    + destruct (exact_refilled (tbl_capacity l) (tbl_refillRate l) tokens last now Hr H0 Hcap) as (? & ? & ?); [lia|]. by split.
    + destruct (exact_refilled (tbl_capacity l) (tbl_refillRate l) tokens last now Hr H0 Hcap) as (? & ? & ?); [lia|]. unfold id. lra.
  - intros x [H0 Hcap]. cbn [n_ltb n_sub n_of_Z exact_num]. rewrite negb_false_iff, Qle_bool_iff. unfold in_range, id in *.
    change (inject_Z 1) with 1%Q. rewrite !Qred_correct. intros H1. repeat split; lra.
Qed.

Definition sample_bucket : tokenBucketLimiter := mkTokenBucketLimiter "rl_3" 2 (1 # 2).
Definition bucket_calls : list call_env :=
  [call_at LinkUp 1000 ""; call_at LinkUp 1000 ""; call_at LinkUp 1500 ""; call_at ReplyLost 3000 ""; call_at LinkUp 5000 ""].

Lemma token_bucket_bounded_witness :
  let ds := (replay (S := server) (F := Q) digits_of (LToken sample_bucket) sample_key 1000 ∅ bucket_calls).1.1 in
  map (λ d, (d_Allowed d.2, d_FailedOpen d.2)) ds = [(true, false); (true, false); (false, false); (true, true); (true, false)] ∧
  (inject_Z (accepted_count ds) <= 4)%Q.
Proof.
  split; [by vm_compute|].
  refine (Qle_trans _ _ _ (token_bucket_bounded (S := server) (F := Q) digits_of id 0 sample_bucket sample_key
    _ _ _ _ _ 1000 ∅ _ _ _ _ _ (replay_run digits_of (LToken sample_bucket) sample_key _ 1000 ∅ bucket_calls _ _)) _).
  - by apply exact_rounds.
  - done.
  - done.
  - done.
  - done.
  - done.
  - intros e [=].
  - by intros [].
  - by vm_compute.
  - by vm_compute.
Defined.

(** A bucket that needs longer than an hour to fill is full after an idle
    hour: Redis has forgotten it. *)
Example slow_bucket_forgotten :
  let l := mkTokenBucketLimiter "rl_3" 2 (1 # 7200) in
  let calls := [call_at LinkUp 0 ""; call_at LinkUp 0 ""; call_at LinkUp 1000 ""; call_at LinkUp 3601000 ""; call_at LinkUp 3601000 ""] in
  map (λ d, d_Allowed d.2) (replay (S := server) (F := Q) digits_of (LToken l) sample_key 0 ∅ calls).1.1 = [true; true; false; true; true].
Proof. vm_compute. reflexivity. Qed.
