(* ===== verification/Enforcer.v ===== *)
(** * The rate-limit enforcer

    The round tripper that evaluates the cached rate-limit rules before a
    request goes upstream ([ratelimit/enforcer.go]), the rule cache and its
    refresher (cache.go, refresher.go), and the dry run of the admin API
    ([core/service_rate_limit.go]).

    The upstream call is not modelled: a round trip either forwards the
    request ([Forwarded]) or answers it itself ([Rejected]).  Each call of a
    limiter reads the clocks and uses the connection at its own moment, given
    by a function from the number of the call to its [call_env]. *)

From Stdlib Require Import QArith.
From S2P Require Import Prelude GoNumbers GoStrings Labels LabelSelector RateRules Redis Limiters.
Open Scope string_scope.
Open Scope list_scope.

(** ** Requests, responses and attribution *)

(** [httpf.RequestInfo], the fields the enforcer reads. *)
Record RequestInfo := mkRequestInfo {
  ri_Namespace : string;
  ri_Type : RequestType;
  ri_ConnectorId : string;
  ri_ConnectorVersion : Z;
  ri_ConnectionId : string;
  ri_Labels : Labels
}.

Record Request := mkRequest { req_Method : string; req_Path : option string }.

Record Response := mkResponse {
  resp_StatusCode : Z;
  resp_RetryAfter : Z;                   (** the header, in seconds *)
  resp_RateLimited : bool;               (** X-Authproxy-Ratelimited *)
  resp_RateLimit : option string         (** X-Authproxy-Ratelimit *)
}.

Inductive rt_result : Type := Forwarded | Rejected (r : Response).

Record RateLimitMatch := mkMatch {
  mt_Id : string; mt_Mode : string; mt_Bucket : option (gmap string string) }.

Record Attribution := mkAttribution {
  at_Source : string;
  at_RateLimitId : string;
  at_RateLimitMode : string;
  at_RateLimitBucket : option (gmap string string);
  at_RateLimitMatched : list RateLimitMatch
}.

Definition ResponseSourceRateLimit : string := "rate_limit".

(** [int(math.Ceil(d.Seconds()))].  Limiters return whole milliseconds, for
    which the rounding of the float division cannot cross an integer. *)
Definition ceil_seconds (d : Z) : Z := (- ((- d) `div` Second))%Z.

Definition syntheticTooManyRequests (ruleID : string) (retryAfter : Z) : Response :=
  let secs := ceil_seconds retryAfter in
  mkResponse 429 (if (secs <? 1)%Z then 1 else secs) true (Some ruleID).

Definition actorIDLabelKey : string := "apxy/act/-/id".

Definition buildRequestContext (ri : RequestInfo) (req : Request) : RequestContext :=
  mkRequestContext (ri_Type ri) (req_Method req) (req_Path req) (ri_Namespace ri)
    (match ri_Labels ri !! actorIDLabelKey with Some v => v | None => "" end)
    (ri_ConnectionId ri) (ri_ConnectorId ri) (ri_ConnectorVersion ri) (ri_Labels ri).

Record matchedRule := mkMatched {
  mr_rule : RateLimitRow;
  mr_effectiveMode : Mode;
  mr_bucket : BucketKey;
  mr_decision : Decision
}.

Definition zero_decision : Decision := mkDecision false 0 0 false.

Definition set_decision (m : matchedRule) (d : Decision) : matchedRule :=
  mkMatched (mr_rule m) (mr_effectiveMode m) (mr_bucket m) d.

Definition match_record (m : matchedRule) : RateLimitMatch :=
  mkMatch (rlr_Id (mr_rule m)) (mr_effectiveMode m) (AsMap (mr_bucket m)).

Section enforcer.
Context (regexp_Compile : string → option (string → bool)).
Context (path_Match : string → string → option bool).
Context {S : Type} {redis : RedisServer S} {F : Type} {lua : LuaNum F}.
Context (FormatFloat : Q → string).
Implicit Types (rules : list (option RateLimitRow)) (rc : RequestContext) (s : S).

Fixpoint findMatches rules rc : list matchedRule :=
  match rules with
  | [] => []
  | None :: rules => findMatches rules rc
  | Some rule :: rules =>
      match Match regexp_Compile path_Match (rlr_Definition rule) (Some rc) with
      | Err _ | Ok None => findMatches rules rc
      | Ok (Some bucket) =>
          mkMatched rule (EffectiveMode (Some (rlr_Definition rule))) bucket zero_decision
          :: findMatches rules rc
      end
  end.

(** An enforce-mode rejection. *)
Definition rejects (m : matchedRule) : bool :=
  negb (d_Allowed (mr_decision m)) && bool_decide (mr_effectiveMode m = ModeEnforce).

(** [firing] after the rule [m] was decided: the longest wait so far, the first
    of them on a tie. *)
Definition update_firing (firing : option matchedRule) (m : matchedRule) : option matchedRule :=
  if rejects m then
    match firing with
    | None => Some m
    | Some f => if (d_RetryAfter (mr_decision f) <? d_RetryAfter (mr_decision m))%Z then Some m else firing
    end
  else firing.

(** The loop over the matched rules; [i] numbers the calls of [Decide]. *)
Fixpoint decide_loop (envs : nat → call_env) (i : nat) (matched : list matchedRule)
    (firing : option matchedRule) (matchedSet : list RateLimitMatch) s :
    outcome (option matchedRule * list RateLimitMatch * S) :=
  match matched with
  | [] => GoRet (firing, matchedSet, s)
  | m :: matched =>
      match NewLimiter (Some (mr_rule m)) with
      | None => decide_loop envs i matched firing matchedSet s
      | Some limiter =>
          '(d, s') ← Decide FormatFloat limiter (mr_bucket m) (envs i) s;
          let m := set_decision m d.1 in
          decide_loop envs (i + 1) matched (update_firing firing m) (matchedSet ++ [match_record m]) s'
      end
  end.

Definition stamp (attr : Attribution) (matched : list matchedRule) (matchedSet : list RateLimitMatch)
    (firing : option matchedRule) : Attribution :=
  match firing with
  | Some f => mkAttribution ResponseSourceRateLimit (rlr_Id (mr_rule f)) ModeEnforce
                (AsMap (mr_bucket f)) matchedSet
  | None =>
      match list_find (λ m, mr_effectiveMode m = ModeObserve) matched with
      | Some (_, m) => mkAttribution (at_Source attr) (rlr_Id (mr_rule m)) ModeObserve
                         (AsMap (mr_bucket m)) matchedSet
      | None => mkAttribution (at_Source attr) (at_RateLimitId attr) (at_RateLimitMode attr)
                  (at_RateLimitBucket attr) matchedSet
      end
  end.

(** [rules] is the snapshot returned by [cache.All()]. *)
Definition RoundTrip rules (ri : RequestInfo) (req : Request) (envs : nat → call_env)
    (attr : option Attribution) s : outcome (rt_result * option Attribution * S) :=
  if decide (length rules = 0) then GoRet (Forwarded, attr, s)
  else
    let matched := findMatches rules (buildRequestContext ri req) in
    if decide (length matched = 0) then GoRet (Forwarded, attr, s)
    else
      '(firing, matchedSet, s') ← decide_loop envs 0 matched None [] s;
      let attr' := (λ a, stamp a matched matchedSet firing) <$> attr in
      GoRet (match firing with
             | Some f => Rejected (syntheticTooManyRequests (rlr_Id (mr_rule f))
                           (d_RetryAfter (mr_decision f)))
             | None => Forwarded
             end, attr', s').

(** ** Specification

    The matched rules whose limiter could be built, decided one after the
    other, each on the state the previous one left. *)
Inductive decided_in_order (envs : nat → call_env) : nat → list matchedRule → S →
    list matchedRule → S → Prop :=
  | dio_nil i s : decided_in_order envs i [] s [] s
  | dio_skip i m ms s out s' :
      NewLimiter (Some (mr_rule m)) = None →
      decided_in_order envs i ms s out s' → decided_in_order envs i (m :: ms) s out s'
  | dio_decide i m ms s limiter d e s1 out s' :
      NewLimiter (Some (mr_rule m)) = Some limiter →
      Decide FormatFloat limiter (mr_bucket m) (envs i) s = GoRet ((d, e), s1) →
      decided_in_order envs (i + 1) ms s1 out s' →
      decided_in_order envs i (m :: ms) s (set_decision m d :: out) s'.

(** Rules the request is selected by, with their counter. *)
Definition selected rc (m : matchedRule) : Prop :=
  rule_selects regexp_Compile path_Match (rlr_Definition (mr_rule m)) rc ∧
  mr_bucket m = ResolveBucketKey (rlr_Definition (mr_rule m)) (Some rc) ∧
  mr_effectiveMode m = EffectiveMode (Some (rlr_Definition (mr_rule m))).

Lemma findMatches_selected rules rc m : m ∈ findMatches rules rc → selected rc m.
Proof.
  induction rules as [|[rule|] rules IH]; cbn [findMatches]; [by intros ?%elem_of_nil| |done].
  destruct (Match_cases regexp_Compile path_Match (rlr_Definition rule) rc) as [Hm _].
  destruct (Match _ _ _ _) as [e|[k|]]; [done| |done].
  intros [->|Hin]%elem_of_cons; [|by apply IH].
  destruct (proj1 (Hm k) eq_refl) as [Hsel ->]. done.
Qed.

(** The rules of [findMatches] are the selected ones, in the order of the
    cache. *)
Lemma findMatches_rules rules rc rule :
  rule ∈ mr_rule <$> findMatches rules rc ↔
  Some rule ∈ rules ∧ rule_selects regexp_Compile path_Match (rlr_Definition rule) rc.
Proof.
  induction rules as [|[rule'|] rules IH]; cbn [findMatches].
  - split; [by intros ?%elem_of_nil|by intros [?%elem_of_nil _]].
  - destruct (Match_cases regexp_Compile path_Match (rlr_Definition rule') rc) as [Hm _].
    rewrite elem_of_cons.
    destruct (Match _ _ _ _) as [e|[k|]].
    + rewrite IH. split; [naive_solver|]. intros [[[= ->]|?] Hsel]; [|done].
      specialize (Hm (ResolveBucketKey (rlr_Definition rule') (Some rc))). naive_solver.
    + cbn. rewrite elem_of_cons, IH. destruct (proj1 (Hm k) eq_refl) as [Hsel _]. naive_solver.
    + rewrite IH. split; [naive_solver|]. intros [[[= ->]|?] Hsel]; [|done].
      specialize (Hm (ResolveBucketKey (rlr_Definition rule') (Some rc))). naive_solver.
  - rewrite elem_of_cons, IH. naive_solver.
Qed.

(** [firing] stands for the longest wait among the rejections seen. *)
Definition longest_wait (firing : option matchedRule) (ms : list matchedRule) : Prop :=
  match firing with
  | None => ∀ m, m ∈ ms → rejects m = false
  | Some f => f ∈ ms ∧ rejects f = true ∧
      ∀ m, m ∈ ms → rejects m = true →
        (d_RetryAfter (mr_decision m) ≤ d_RetryAfter (mr_decision f))%Z
  end.

Lemma update_firing_longest firing ms m :
  longest_wait firing ms → longest_wait (update_firing firing m) (ms ++ [m]).
Proof.
  assert (∀ m', m' ∈ ms ++ [m] ↔ m' ∈ ms ∨ m' = m) as Hin.
  { intros m'. by rewrite elem_of_app, list_elem_of_singleton. }
  unfold update_firing, longest_wait. intros H.
  destruct (rejects m) eqn:Hr, firing as [f|]; try setoid_rewrite Hin.
  - destruct H as (Hf & Hrf & Hle). destruct (Z.ltb_spec (d_RetryAfter (mr_decision f)) (d_RetryAfter (mr_decision m)));
      setoid_rewrite Hin.
    + split; [by right|]. split; [done|]. intros m' [Hm'| ->] Hr'; [|done]. specialize (Hle m' Hm' Hr'). lia.
    + split; [by left|]. split; [done|]. intros m' [Hm'| ->] Hr'; [by apply Hle|done].
  - split; [by right|]. split; [done|]. intros m' [Hm'| ->] Hr'; [|done]. by rewrite H in Hr'.
  - destruct H as (Hf & Hrf & Hle). split; [by left|]. split; [done|].
    intros m' [Hm'| ->] Hr'; [by apply Hle|congruence].
  - intros m' [Hm'| ->]; [by apply H|done].
Qed.

Lemma foldl_firing_longest firing ms out :
  longest_wait firing ms → longest_wait (foldl update_firing firing out) (ms ++ out).
Proof.
  revert firing ms. induction out as [|m out IH]; intros firing ms H; cbn [foldl].
  - by rewrite app_nil_r.
  - apply (update_firing_longest _ _ m) in H. apply IH in H. by rewrite <-app_assoc in H.
Qed.

(** The windows of the matched rules last at least a millisecond. *)
Definition no_zero_window (ms : list matchedRule) : Prop :=
  ∀ m limiter, m ∈ ms → NewLimiter (Some (mr_rule m)) = Some limiter → ¬ divides_by_zero limiter.

Lemma decide_loop_spec envs i ms firing matchedSet s :
  no_zero_window ms →
  ∃ out s', decide_loop envs i ms firing matchedSet s
    = GoRet (foldl update_firing firing out, matchedSet ++ map match_record out, s') ∧
    decided_in_order envs i ms s out s'.
Proof.
  revert i firing matchedSet s. induction ms as [|m ms IH]; intros i firing matchedSet s Hz; cbn [decide_loop].
  { exists [], s. rewrite app_nil_r. split; [done|constructor]. }
  assert (no_zero_window ms) as Hz'.
  { intros m' lim Hin. apply Hz. by apply list_elem_of_further. }
  destruct (NewLimiter (Some (mr_rule m))) as [lim|] eqn:Hlim.
  - pose proof (Hz m lim (list_elem_of_here _ _) Hlim) as Hnz.
    destruct (Decide_cases FormatFloat lim (mr_bucket m) (envs i) s) as [Hp _].
    destruct (Decide FormatFloat lim (mr_bucket m) (envs i) s) as [|[[d e] s1]] eqn:Hd; [tauto|].
    cbn [mbind outcome_bind fst].
    destruct (IH (i + 1) (update_firing firing (set_decision m d))
      (matchedSet ++ [match_record (set_decision m d)]) s1 Hz') as (out & s' & -> & Hout).
    exists (set_decision m d :: out), s'. split; [by rewrite <-app_assoc|]. by econstructor.
  - destruct (IH i firing matchedSet s Hz') as (out & s' & -> & Hout).
    exists out, s'. split; [done|]. by constructor.
Qed.

Lemma ceil_seconds_ge d : (d ≤ ceil_seconds d * Second)%Z ∧ ((ceil_seconds d - 1) * Second < d)%Z.
Proof.
  unfold ceil_seconds. change Second with 1000000000%Z. pose proof (Z.div_mod (- d) 1000000000).
  pose proof (Z.mod_pos_bound (- d) 1000000000). lia.
Qed.

(** The outcome of a round trip, read off the decisions. *)
Definition outcome_ok (out : list matchedRule) (res : rt_result) : Prop :=
  match res with
  | Forwarded => ∀ m, m ∈ out → mr_effectiveMode m = ModeEnforce → d_Allowed (mr_decision m) = true
  | Rejected r => ∃ m, m ∈ out ∧ mr_effectiveMode m = ModeEnforce ∧ d_Allowed (mr_decision m) = false ∧
      resp_StatusCode r = 429%Z ∧ resp_RateLimit r = Some (rlr_Id (mr_rule m)) ∧
      (1 ≤ resp_RetryAfter r)%Z ∧ (d_RetryAfter (mr_decision m) ≤ resp_RetryAfter r * Second)%Z ∧
      ∀ m', m' ∈ out → mr_effectiveMode m' = ModeEnforce → d_Allowed (mr_decision m') = false →
        (d_RetryAfter (mr_decision m') ≤ d_RetryAfter (mr_decision m))%Z
  end.

Lemma rejects_spec m :
  rejects m = true ↔ mr_effectiveMode m = ModeEnforce ∧ d_Allowed (mr_decision m) = false.
Proof. unfold rejects. rewrite andb_true_iff, negb_true_iff, bool_decide_eq_true. tauto. Qed.

Lemma longest_wait_outcome firing out :
  longest_wait firing out →
  outcome_ok out (match firing with
    | Some f => Rejected (syntheticTooManyRequests (rlr_Id (mr_rule f)) (d_RetryAfter (mr_decision f)))
    | None => Forwarded end).
Proof.
  destruct firing as [f|]; cbn [longest_wait outcome_ok].
  - intros (Hin & [Hm Ha]%rejects_spec & Hle). exists f. repeat split; try done.
    + cbn. destruct (Z.ltb_spec (ceil_seconds (d_RetryAfter (mr_decision f))) 1); lia.
    + pose proof (ceil_seconds_ge (d_RetryAfter (mr_decision f))) as [Hc _].
      cbn. unfold Second, Millisecond in *.
      destruct (Z.ltb_spec (ceil_seconds (d_RetryAfter (mr_decision f))) 1); lia.
    + intros m' Hin' Hm' Ha'. apply Hle; [done|]. by apply rejects_spec.
  - intros H m Hin Hm. specialize (H m Hin). unfold rejects in H. rewrite Hm in H.
    rewrite bool_decide_true, andb_true_r in H by done. by apply negb_false_iff in H.
Qed.

Lemma RoundTrip_total rules ri req envs attr s :
  let rc := buildRequestContext ri req in
  no_zero_window (findMatches rules rc) →
  ∃ res attr' out s', RoundTrip rules ri req envs attr s = GoRet (res, attr', s') ∧
    decided_in_order envs 0 (findMatches rules rc) s out s' ∧ outcome_ok out res ∧
    (∀ a, attr = Some a → findMatches rules rc ≠ [] →
       ∃ a', attr' = Some a' ∧ at_RateLimitMatched a' = map match_record out).
Proof.
  intros rc Hz. unfold RoundTrip.
  assert (∀ ms : list matchedRule, ms = [] → decided_in_order envs 0 ms s [] s) as Hnil by (intros ? ->; constructor).
  case_decide as Hr.
  { apply nil_length_inv in Hr as ->. exists Forwarded, attr, [], s. split; [done|].
    split; [by apply Hnil|]. split; [by intros ? ?%elem_of_nil|done]. }
  fold rc. case_decide as Hm.
  { apply nil_length_inv in Hm. exists Forwarded, attr, [], s. split; [done|].
    split; [by apply Hnil|]. split; [by intros ? ?%elem_of_nil|done]. }
  destruct (decide_loop_spec envs 0 (findMatches rules rc) None [] s Hz) as (out & s' & -> & Hout).
  cbn [mbind outcome_bind app].
  eexists _, _, out, s'. split; [done|]. split; [done|]. split.
  - apply longest_wait_outcome. apply (foldl_firing_longest None [] out). by intros ? ?%elem_of_nil.
  - intros a -> _. eexists. split; [done|]. unfold stamp. by repeat case_match.
Qed.

Lemma decided_from envs i ms s out s' m :
  decided_in_order envs i ms s out s' → m ∈ out → ∃ m0 d, m0 ∈ ms ∧ m = set_decision m0 d.
Proof.
  induction 1 as [|i m0 ms s out s' _ _ IH|i m0 ms s lim d e s1 out s' _ _ _ IH].
  - by intros ?%elem_of_nil.
  - intros Hm. destruct (IH Hm) as (m1 & d & ? & ?). exists m1, d. split; [by apply list_elem_of_further|done].
  - intros [->|Hm]%elem_of_cons; [exists m0, d; split; [apply list_elem_of_here|done]|].
    destruct (IH Hm) as (m1 & d' & ? & ?). exists m1, d'. split; [by apply list_elem_of_further|done].
Qed.

Lemma decided_mode envs i rules rc s out s' m :
  decided_in_order envs i (findMatches rules rc) s out s' → m ∈ out →
  mr_effectiveMode m = EffectiveMode (Some (rlr_Definition (mr_rule m))).
Proof.
  intros Hd Hm. destruct (decided_from _ _ _ _ _ _ _ Hd Hm) as (m0 & d & Hin & ->).
  by apply findMatches_selected in Hin as (_ & _ & ?).
Qed.

(** ** Dry run

    [url.Parse] (to the path of the URL), [strings.ToUpper] and the lookup of
    a connection are parameters. *)

Record Connection := mkConnection {
  cn_Namespace : string; cn_Id : string; cn_ConnectorId : string; cn_ConnectorVersion : Z;
  cn_Labels : Labels }.

Record DryRunRateLimitRequest := mkDryRun {
  dr_Method : string;
  dr_URL : string;
  dr_Labels : Labels;
  dr_RequestType : string;
  dr_ConnectionId : option string;
  dr_ActorId : option string;
  dr_Namespace : option string
}.

Inductive dry_run_error : Type :=
  | MethodRequired | URLRequired | RequestTypeRequired | InvalidRequestType (t : string)
  | ConnectionOrNamespaceRequired | InvalidURL | ConnectionNotFound (id : string) | NoNamespace.

Record DryRunRateLimitMatch := mkDryMatch {
  dm_RateLimitId : string; dm_Namespace : string; dm_EffectiveMode : Mode; dm_BucketKey : string;
  dm_WouldAllow : bool; dm_Remaining : Z; dm_RetryAfterMs : Z; dm_PeekFailed : bool }.

Inductive miss_text : Type := MalformedRule (e : match_error) | MissReason (r : miss_reason).

Record DryRunRateLimitNotMatched := mkDryMiss {
  dn_RateLimitId : string; dn_Namespace : string; dn_Reason : miss_text }.

Record DryRunRateLimitResult := mkDryResult {
  dres_Namespace : string;
  dres_RequestLabelSnapshot : Labels;
  dres_Matched : list DryRunRateLimitMatch;
  dres_NotMatched : list DryRunRateLimitNotMatched
}.

Definition in_scope (requestNamespace : string) (rule : option RateLimitRow) : bool :=
  match rule with
  | None => false
  | Some rule => bool_decide (rlr_Namespace rule = requestNamespace) ||
      HasPrefix requestNamespace (rlr_Namespace rule +:+ ".")
  end.

Definition filterRulesInScope rules (requestNamespace : string) : list (option RateLimitRow) :=
  List.filter (in_scope requestNamespace) rules.

Section dry_run.
Context (url_Parse : string → option string) (ToUpper : string → string).
Context (GetConnection : string → option Connection).

(** Request labels override the labels of the connection. *)
Definition hydrateDryRunContext (req : DryRunRateLimitRequest) : result dry_run_error RequestContext :=
  match url_Parse (dr_URL req) with
  | None => Err InvalidURL
  | Some path =>
      let actor := match dr_ActorId req with Some a => a | None => "" end in
      let ctx ns conn connector version (labels : Labels) :=
        mkRequestContext (dr_RequestType req) (ToUpper (dr_Method req)) (Some path) ns actor
          conn connector version (dr_Labels req ∪ labels) in
      match dr_ConnectionId req with
      | Some ((String _ _) as id) =>
          match GetConnection id with
          | None => Err (ConnectionNotFound id)
          | Some c => Ok (ctx (cn_Namespace c) (cn_Id c) (cn_ConnectorId c) (cn_ConnectorVersion c) (cn_Labels c))
          end
      | _ => Ok (ctx (default "" (dr_Namespace req)) "" "" 0%Z ∅)
      end
  end.

Definition dry_match (rule : RateLimitRow) (bucket : BucketKey) (d : Decision) : DryRunRateLimitMatch :=
  mkDryMatch (rlr_Id rule) (rlr_Namespace rule) (EffectiveMode (Some (rlr_Definition rule)))
    (BucketKey_String bucket) (d_Allowed d) (d_Remaining d) (Milliseconds (d_RetryAfter d)) (d_FailedOpen d).

Fixpoint dry_loop (envs : nat → call_env) (i : nat) rules rc s :
    outcome (list DryRunRateLimitMatch * list DryRunRateLimitNotMatched * S) :=
  match rules with
  | [] => GoRet ([], [], s)
  | None :: rules => dry_loop envs i rules rc s
  | Some rule :: rules =>
      let miss why :=
        '(ms, ns, s') ← dry_loop envs i rules rc s;
        GoRet (ms, mkDryMiss (rlr_Id rule) (rlr_Namespace rule) why :: ns, s') in
      match MatchExplain regexp_Compile path_Match (rlr_Definition rule) (Some rc) with
      | MatchFailed e => miss (MalformedRule e)
      | Missed r => miss (MissReason r)
      | Matched bucket =>
          match NewLimiter (Some rule) with
          | None => dry_loop envs i rules rc s
          | Some limiter =>
              '(d, s1) ← Peek FormatFloat limiter bucket (envs i) s;
              '(ms, ns, s') ← dry_loop envs (i + 1) rules rc s1;
              GoRet (dry_match rule bucket d.1 :: ms, ns, s')
          end
      end
  end.

(** [cache] is [None] when no cache is wired. *)
Definition DryRunRateLimit (cache : option (list (option RateLimitRow))) (envs : nat → call_env)
    (req : DryRunRateLimitRequest) s : outcome (result dry_run_error DryRunRateLimitResult * S) :=
  if decide (dr_Method req = "") then GoRet (Err MethodRequired, s)
  else if decide (dr_URL req = "") then GoRet (Err URLRequired, s)
  else if decide (dr_RequestType req = "") then GoRet (Err RequestTypeRequired, s)
  else if negb (IsValidRequestType (dr_RequestType req)) then GoRet (Err (InvalidRequestType (dr_RequestType req)), s)
  else if decide (dr_ConnectionId req = None ∧ dr_Namespace req = None) then
    GoRet (Err ConnectionOrNamespaceRequired, s)
  else match hydrateDryRunContext req with
       | Err e => GoRet (Err e, s)
       | Ok rc =>
           if decide (rc_Namespace rc = "") then GoRet (Err NoNamespace, s)
           else
             let rules := match cache with
                          | None => []
                          | Some all => filterRulesInScope all (rc_Namespace rc)
                          end in
             '(ms, ns, s') ← dry_loop envs 0 rules rc s;
             GoRet (Ok (mkDryResult (rc_Namespace rc) (rc_Labels rc) ms ns), s')
       end.
End dry_run.

(** ** The dry run predicts the enforcer *)

(** What a rule's limiter and its stored counters have to satisfy. *)
Definition rule_ready (t : Z) s (m : matchedRule) : Prop :=
  ∀ lim, NewLimiter (Some (mr_rule m)) = Some lim →
    limiter_valid lim ∧ ¬ divides_by_zero lim ∧ owned lim (mr_bucket m) t s ∧
    no_char ":" (rlr_Id (mr_rule m)) = true ∧ Forall component_valid (bk_Components (mr_bucket m)).

Definition rules_ready (t : Z) s (ms : list matchedRule) : Prop :=
  NoDup (rlr_Id ∘ mr_rule <$> ms) ∧ ∀ m, m ∈ ms → rule_ready t s m.

Lemma NewLimiter_rule rule lim : NewLimiter (Some rule) = Some lim → limiter_rule lim = rlr_Id rule.
Proof. unfold NewLimiter. intros. by repeat case_match; simplify_eq/=. Qed.

Lemma owned_view l k t s s' : same_view t s s' → owned l k t s → owned l k t s'.
Proof.
  intros V Ho. destruct l as [l|l|l]; cbn [owned] in *.
  - intros id. rewrite (V _). apply Ho.
  - destruct Ho as [Ho1 Ho2]. split; [by rewrite (V _)|]. intros id. rewrite (V _). apply Ho2.
  - by rewrite (V _).
Qed.

Lemma rule_ready_view t s s' m : same_view t s s' → rule_ready t s m → rule_ready t s' m.
Proof.
  intros V Hr lim Hlim. destruct (Hr lim Hlim) as (?&?&?&?&?).
  split; [done|]. split; [done|]. split; [by eapply owned_view|done].
Qed.

(** The keys of the rules still to be decided are as in the dry run. *)
Definition untouched (t : Z) (ms : list matchedRule) (s se : S) : Prop :=
  ∀ m lim, m ∈ ms → NewLimiter (Some (mr_rule m)) = Some lim →
    agree (limiter_key lim (mr_bucket m)) t s se.

Lemma untouched_decide env m ms s se lim d se' :
  rules_ready (ce_server_ms env) s (m :: ms) → untouched (ce_server_ms env) (m :: ms) s se →
  NewLimiter (Some (mr_rule m)) = Some lim →
  Decide FormatFloat lim (mr_bucket m) env se = GoRet (d, se') →
  untouched (ce_server_ms env) ms s se'.
Proof.
  intros [Hnd Hready] Hun Hlim Hd m' lim' Hin Hlim' key Hkey.
  destruct (Hready m (list_elem_of_here _ _) lim Hlim) as (_ & _ & _ & Hc & Hv).
  destruct (Hready m' (list_elem_of_further _ _ _ Hin) lim' Hlim') as (_ & _ & _ & Hc' & Hv').
  apply NoDup_cons in Hnd as [Hnin _].
  rewrite (Decide_other_bucket FormatFloat lim lim' (mr_bucket m) (mr_bucket m') env se d se'); try done.
  - apply (Hun m' lim'); [by apply list_elem_of_further|done|done].
  - by rewrite (NewLimiter_rule _ _ Hlim).
  - by rewrite (NewLimiter_rule _ _ Hlim').
  - left. rewrite (NewLimiter_rule _ _ Hlim), (NewLimiter_rule _ _ Hlim'). intros Heq. apply Hnin.
    apply list_elem_of_fmap. by exists m'.
Qed.

(** One rule: the dry run's [Peek] and the enforcer's [Decide] agree. *)
Lemma peek_agrees `{!LuaNumLaws F} env m lim s sd se d se' :
  is_Some (ce_random env) → rule_ready (ce_server_ms env) s m →
  NewLimiter (Some (mr_rule m)) = Some lim → same_view (ce_server_ms env) s sd →
  agree (limiter_key lim (mr_bucket m)) (ce_server_ms env) s se →
  Decide FormatFloat lim (mr_bucket m) env se = GoRet (d, se') →
  ∃ sd', Peek FormatFloat lim (mr_bucket m) env sd = GoRet (d, sd') ∧ same_view (ce_server_ms env) s sd'.
Proof.
  intros Hrand Hready Hlim V Ha Hd. destruct (Hready lim Hlim) as (Hv & _ & Ho & _ & _).
  pose proof (Peek_Decide FormatFloat lim (mr_bucket m) env sd Hv
    (owned_view _ _ _ _ _ V Ho) Hrand) as Hp.
  assert (agree (limiter_key lim (mr_bucket m)) (ce_server_ms env) sd se) as Ha'.
  { intros key Hk. rewrite (Ha key Hk). by rewrite (V key). }
  pose proof (Decide_respects FormatFloat lim (mr_bucket m) env sd se Ha') as Hr. rewrite Hd in Hr.
  destruct (Decide FormatFloat lim (mr_bucket m) env sd) as [|[d1 s1]]; [done|]. cbn in Hr. subst d1.
  destruct (Peek FormatFloat lim (mr_bucket m) env sd) as [|[d2 s2]]; [done|]. destruct Hp as [-> V'].
  exists s2. split; [done|]. by eapply same_view_trans.
Qed.

Definition dry_entry (m : matchedRule) : DryRunRateLimitMatch :=
  dry_match (mr_rule m) (mr_bucket m) (mr_decision m).

Lemma dry_loop_predicts `{!LuaNumLaws F} env rules rc s i j sd se out se' :
  is_Some (ce_random env) → rules_ready (ce_server_ms env) s (findMatches rules rc) →
  same_view (ce_server_ms env) s sd → untouched (ce_server_ms env) (findMatches rules rc) s se →
  decided_in_order (λ _, env) i (findMatches rules rc) se out se' →
  ∃ ns sd', dry_loop (λ _, env) j rules rc sd = GoRet (map dry_entry out, ns, sd').
Proof.
  intros Hrand. revert i j sd se out. induction rules as [|[rule|] rules IH]; intros i j sd se out Hready V Hun Hout.
  { inversion Hout; subst. by eexists [], sd. }
  2: { cbn [dry_loop]. by eapply IH. }
  revert Hready Hun Hout. cbn [findMatches dry_loop]. unfold Match.
  destruct (MatchExplain regexp_Compile path_Match (rlr_Definition rule) (Some rc)) as [bucket|r|e];
    intros Hready Hun Hout.
  2-3: edestruct IH as (ns & sd' & ->); [exact Hready|exact V|exact Hun|exact Hout|]; cbn; by eexists _, _.
  set (m := mkMatched rule _ bucket zero_decision) in *.
  assert (rules_ready (ce_server_ms env) s (findMatches rules rc)) as Hready'.
  { destruct Hready as [[_ ?]%NoDup_cons Hr]. split; [done|]. intros m' Hm'. apply Hr.
    by apply list_elem_of_further. }
  inversion Hout as [|? ? ? ? ? ? Hlim Hrest|? ? ? ? lim d e s1 out' ? Hlim Hd Hrest]; subst.
  - change rule with (mr_rule m). rewrite Hlim. eapply IH; [done|done| |exact Hrest].
    intros m' lim' Hin. apply Hun. by apply list_elem_of_further.
  - change rule with (mr_rule m). rewrite Hlim.
    destruct (peek_agrees env m lim s sd se (d, e) s1) as (sd1 & Hpeek & V1); try done.
    { apply Hready, list_elem_of_here. }
    { by apply (Hun m lim (list_elem_of_here _ _)). }
    cbn [mr_bucket m] in Hpeek. rewrite Hpeek. cbn [mbind outcome_bind].
    edestruct (IH (i + 1) (j + 1) sd1 s1 out') as (ns & sd' & ->); [done|done| |done|by eexists _, _].
    by eapply untouched_decide.
Qed.


(** C19: the dry run predicts the enforcer.  When every cached rule is in the
    scope the dry run looks at, and the request built from the dry-run input
    is the one the enforcer sees, the entries of the dry run are the decisions
    the enforcer makes at that moment, rule by rule and in order, so the
    request is forwarded exactly when the dry run reports no enforce-mode rule
    that would not allow it. *)
Theorem dry_run_predicts_enforcer `{!LuaNumLaws F} url_Parse ToUpper GetConnection
    rules ri req dreq env attr s rc dres s1 res attr' s2 :
  is_Some (ce_random env) → buildRequestContext ri req = rc →
  hydrateDryRunContext url_Parse ToUpper GetConnection dreq = Ok rc →
  (∀ rule, rule ∈ rules → in_scope (rc_Namespace rc) rule = true) →
  rules_ready (ce_server_ms env) s (findMatches rules rc) →
  DryRunRateLimit url_Parse ToUpper GetConnection (Some rules) (λ _, env) dreq s = GoRet (Ok dres, s1) →
  RoundTrip rules ri req (λ _, env) attr s = GoRet (res, attr', s2) →
  (∃ out, decided_in_order (λ _, env) 0 (findMatches rules rc) s out s2 ∧
     dres_Matched dres = map dry_entry out) ∧
  (res = Forwarded ↔
     ∀ e, e ∈ dres_Matched dres → dm_EffectiveMode e = ModeEnforce → dm_WouldAllow e = true).
Proof.
  intros Hrand Hrc Hhyd Hscope Hready Hdry Hrt.
  assert (no_zero_window (findMatches rules rc)) as Hz.
  { intros m lim Hm Hlim. by destruct (proj2 Hready m Hm lim Hlim) as (_ & ? & _). }
  rewrite <-Hrc in Hz.
  destruct (RoundTrip_total rules ri req (λ _, env) attr s Hz) as (res0 & attr0 & out & s0 & E & Hout & Hok & _).
  rewrite Hrt in E. injection E as <- <- <-. rewrite Hrc in Hout.
  destruct (dry_loop_predicts env rules rc s 0 0 s s out s2 Hrand Hready) as (ns & sd' & Hloop); try done.
  assert (filterRulesInScope rules (rc_Namespace rc) = rules) as Hfilter.
  { unfold filterRulesInScope. clear -Hscope. induction rules as [|r rules IH]; [done|]. cbn.
    rewrite Hscope by apply list_elem_of_here. f_equal. apply IH. intros r' Hr. apply Hscope.
    by apply list_elem_of_further. }
  assert (dres_Matched dres = map dry_entry out) as Hm.
  { unfold DryRunRateLimit in Hdry. rewrite Hhyd, Hfilter, Hloop in Hdry.
    destruct (negb _); repeat case_decide; simplify_eq/=; done. }
  split; [by exists out|]. rewrite Hm. setoid_rewrite list_elem_of_In. setoid_rewrite in_map_iff.
  split.
  - intros ->. intros e (m & <- & Hin%list_elem_of_In) Hmode. cbn in Hok |- *. apply Hok; [done|].
    by rewrite (decided_mode _ _ _ _ _ _ _ m Hout Hin).
  - intros H. destruct res as [|r]; [done|]. destruct Hok as (m & Hin & Hmode & Ha & _).
    assert (d_Allowed (mr_decision m) = true); [|congruence].
    apply (H (dry_entry m)); [exists m; split; [done|by apply list_elem_of_In]|].
    rewrite <-Hmode. symmetry. exact (decided_mode _ _ _ _ _ _ _ m Hout Hin).
Qed.
End enforcer.

(** ** Cache and refresher *)

Record cache := mkCache {
  c_rules : list (option RateLimitRow);
  c_at : Z;
  c_version : Z                       (** a [uint64] *)
}.

Definition NewCache : cache := mkCache [] 0 0.
Definition All (c : cache) : list (option RateLimitRow) := c_rules c.
Definition SnapshotTime (c : cache) : Z := c_at c.
Definition SnapshotVersion (c : cache) : Z := c_version c.
Definition Replace (c : cache) (rules : list (option RateLimitRow)) (at_ : Z) : cache :=
  mkCache rules at_ (wrap64 (c_version c + 1)).

(** A page of the listing: rows, or the error that ended it. *)
Definition page : Type := list RateLimitRow + string.

(** [Enumerate] hands the pages to the callback until it stops or an error
    ends the enumeration; [None] as database is the nil database. *)
Fixpoint collect_pages (collected : list (option RateLimitRow)) (pages : list page) :
    result string (list (option RateLimitRow)) :=
  match pages with
  | [] => Ok collected
  | inr e :: _ => Err e
  | inl rows :: pages => collect_pages (collected ++ map Some rows) pages
  end.

Definition fetchAllRateLimits (db : option (list page)) : result string (list (option RateLimitRow)) :=
  match db with
  | None => Err "ratelimit.Refresher: nil database"
  | Some pages => collect_pages [] pages
  end.

Definition Sync (db : option (list page)) (now : Z) (c : cache) : option string * cache :=
  match fetchAllRateLimits db with
  | Err e => (Some e, c)
  | Ok rules => (None, Replace c rules now)
  end.

Definition DefaultRefreshInterval : Z := 5 * Minute.
Definition minRefreshInterval : Z := 5 * Second.
Definition WithInterval (d : Z) : Z := if (d <? minRefreshInterval)%Z then minRefreshInterval else d.

(** The loop of [Run]: one synchronisation before the first tick and one per
    tick; errors are logged and the loop goes on. *)
Definition refresher_run (syncs : list (option (list page) * Z)) (c : cache) : cache :=
  foldl (λ c '(db, now), (Sync db now c).2) c syncs.

(** ** Last known good

    The cache after any sequence of synchronisations is the snapshot of the
    last one that succeeded, or the initial one. *)

Definition last_good (syncs : list (option (list page) * Z)) : option (list (option RateLimitRow) * Z) :=
  foldl (λ acc '(db, now), match fetchAllRateLimits db with Ok rules => Some (rules, now) | Err _ => acc end)
    None syncs.

Definition successes (syncs : list (option (list page) * Z)) : Z :=
  Z.of_nat (length (List.filter (λ '(db, _), is_ok (fetchAllRateLimits db)) syncs)).

Lemma collect_pages_ok collected pages :
  collect_pages collected (map inl pages) = Ok (collected ++ map Some (concat pages)).
Proof.
  revert collected. induction pages as [|rows pages IH]; intros collected; cbn [map collect_pages concat].
  - by rewrite app_nil_r.
  - by rewrite IH, map_app, app_assoc.
Qed.

Lemma collect_pages_error collected pages e rest :
  collect_pages collected (map inl pages ++ inr e :: rest) = Err e.
Proof. revert collected. induction pages as [|rows pages IH]; intros collected; cbn; [done|apply IH]. Qed.

Lemma refresher_run_app syncs db now c :
  refresher_run (syncs ++ [(db, now)]) c = (Sync db now (refresher_run syncs c)).2.
Proof. unfold refresher_run. by rewrite foldl_app. Qed.

(** the rule cache keeps the last known good snapshot: after any sequence
    of refreshes it holds the rules of the last one that succeeded, or the
    snapshot it started with if none did; a failing refresh changes nothing,
    and the version counts the successes.  A refresh succeeds with the rows of
    all pages in order, and fails when any page does. *)
Theorem refresher_keeps_last_good syncs c :
  let c' := refresher_run syncs c in
  (All c', SnapshotTime c') = default (All c, SnapshotTime c) (last_good syncs) ∧
  wrap64 (SnapshotVersion c') = wrap64 (SnapshotVersion c + successes syncs) ∧
  (∀ db now e, fetchAllRateLimits db = Err e → Sync db now c' = (Some e, c')) ∧
  (∀ pages, fetchAllRateLimits (Some (map inl pages)) = Ok (map Some (concat pages))) ∧
  (∀ pages e rest, fetchAllRateLimits (Some (map inl pages ++ inr e :: rest)) = Err e).
Proof.
  intros c'. split; [|split; [|split; [|split]]].
  - subst c'. unfold last_good. induction syncs as [|[db now] syncs IH] using rev_ind; [done|].
    rewrite refresher_run_app, foldl_app. cbn [foldl]. unfold Sync.
    destruct (fetchAllRateLimits db); [exact IH|done].
  - subst c'. unfold successes. induction syncs as [|[db now] syncs IH] using rev_ind; [by rewrite Z.add_0_r|].
    rewrite refresher_run_app, List.filter_app, length_app. unfold Sync. cbn.
    destruct (fetchAllRateLimits db); cbn; [by rewrite Nat.add_0_r|].
    unfold SnapshotVersion, wrap64 in *. cbn.
    rewrite Zmod_mod, <-Zplus_mod_idemp_l, IH, Zplus_mod_idemp_l. f_equal. lia.
  - intros db now e Hf. unfold Sync. by rewrite Hf.
  - intros pages. apply (collect_pages_ok []).
  - intros pages e rest. apply collect_pages_error.
Qed.

(** ** Instances *)

Definition no_regexp : string → option (string → bool) := λ _, None.
Definition no_glob : string → string → option bool := λ _ _, None.

Definition sample_info : RequestInfo :=
  mkRequestInfo "root.acme" "proxy" "cxr_1" 3 "cxn_1" {["team" := "x"]}.
Definition sample_request : Request := mkRequest "GET" (Some "/v1/items").

Definition sample_row (id ns : string) : RateLimitRow := mkRow id ns id (sample_rule ["connection"]).


Definition sample_dry_run : DryRunRateLimitRequest :=
  mkDryRun "GET" "/v1/items" ∅ "proxy" (Some "cxn_1") None None.
Definition sample_connection : string → option Connection :=
  λ _, Some (mkConnection "root.acme" "cxn_1" "cxr_1" 3 {["team" := "x"]}).

Definition sample_round_trip (rows : list RateLimitRow) (t : Z) (s : server) :=
  RoundTrip no_regexp no_glob (F := Q) n_tostring (map Some rows) sample_info sample_request
    (λ _, call_at LinkUp t "a") None s.

Definition sample_dry (rows : list RateLimitRow) (t : Z) (s : server) :=
  DryRunRateLimit no_regexp no_glob (F := Q) n_tostring Some id sample_connection (Some (map Some rows))
    (λ _, call_at LinkUp t "a") sample_dry_run s.

Definition state_of (r : outcome (rt_result * option Attribution * server)) : server :=
  (ret_or (Forwarded, None, ∅) r).2.

Definition result_of (r : outcome (rt_result * option Attribution * server)) : rt_result :=
  (ret_or (Forwarded, None, ∅) r).1.1.

Definition sample_rows : list RateLimitRow := [sample_row "rl_1" "root"; sample_row "rl_2" "root.acme"].

Definition dry_of (r : outcome (result dry_run_error DryRunRateLimitResult * server)) : DryRunRateLimitResult :=
  match r with GoRet (Ok dres, _) => dres | _ => mkDryResult "" ∅ [] [] end.

Lemma dry_run_predicts_enforcer_witness :
  let entries := dres_Matched (dry_of (sample_dry sample_rows 1000 ∅)) in
  length entries = 2 ∧
  (result_of (sample_round_trip sample_rows 1000 ∅) = Forwarded ↔
   ∀ e, e ∈ entries → dm_EffectiveMode e = "enforce" → dm_WouldAllow e = true).
Proof.
  split; [by vm_compute|].
  refine (proj2 (dry_run_predicts_enforcer no_regexp no_glob (F := Q) n_tostring Some id sample_connection
    (map Some sample_rows) sample_info sample_request sample_dry_run (call_at LinkUp 1000 "a") None (∅ : server)
    (buildRequestContext sample_info sample_request) (dry_of (sample_dry sample_rows 1000 ∅)) ∅
    (result_of (sample_round_trip sample_rows 1000 ∅)) None (state_of (sample_round_trip sample_rows 1000 ∅))
    _ eq_refl _ _ _ _ _)).
  - by eexists.
  - vm_compute. reflexivity.
  - intros rule Hr. repeat (apply elem_of_cons in Hr as [->|Hr]; [done|]). by apply elem_of_nil in Hr.
  - split.
    + apply (bool_decide_unpack _). by vm_compute.
    + intros m Hm lim Hlim.
      assert (m ∈ map (λ row, mkMatched row "enforce" (mkBucketKey [mkComponent "connection" "cxn_1"]) zero_decision)
        sample_rows) as Hm' by exact Hm.
      repeat (apply elem_of_cons in Hm' as [->|Hm'];
        [injection Hlim as <-; split; [done|]; split; [done|]; split; [intros id; by exists 0%Z|];
         split; [done|]; by repeat constructor|]).
      by apply elem_of_nil in Hm'.
  - vm_compute. reflexivity.
  - vm_compute. reflexivity.
Defined.

(** a rate limit applies outside its namespace.  A rule of namespace
    [root.other] is documented to apply to that namespace and its
    descendants, and the dry run leaves it out for a request in [root.acme];
    the enforcer counts the requests of [root.acme] against it and rejects
    the third one. *)
Theorem enforcer_ignores_namespace :
  let rows := [sample_row "rl_1" "root.other"] in
  let s1 := state_of (sample_round_trip rows 1000 ∅) in
  let s2 := state_of (sample_round_trip rows 1001 s1) in
  in_scope (ri_Namespace sample_info) (Some (sample_row "rl_1" "root.other")) = false ∧
  (let dres := dry_of (sample_dry rows 1002 s2) in
   dres_Namespace dres = "root.acme" ∧ dres_Matched dres = [] ∧ dres_NotMatched dres = []) ∧
  result_of (sample_round_trip rows 1000 ∅) = Forwarded ∧
  result_of (sample_round_trip rows 1001 s1) = Forwarded ∧
  result_of (sample_round_trip rows 1002 s2)
    = Rejected (mkResponse 429 10 true (Some "rl_1")).
Proof.
  by vm_compute.
Qed.
