(* ===== verification/Reactive.v ===== *)
(** * The reactive limiter

    When an upstream answers 429, the connection is blocked for the time the
    response asks for: [ratelimit/roundtripper.go], retry_after.go and
    store.go, with the configuration of
    [schema/resources/connectors/rate_limiting.go].

    Redis is the interface of file Redis; the server answers [TTL] in seconds,
    with a rounding that is a parameter.  Floating-point numbers are a
    [LuaNum], [math.Pow] and the conversion of a float to [int64] (whose
    result out of range depends on the platform) are parameters; so are
    [http.ParseTime] and [time.Parse], and the upstream's answer. *)

From Stdlib Require Import QArith.
From S2P Require Import Prelude GoNumbers GoStrings Labels LabelSelector RateRules Redis Limiters Enforcer.
Open Scope string_scope.
Open Scope list_scope.

(** ** Configuration *)

Definition DefaultMaxRetryAfter : Z := 15 * Minute.
Definition DefaultDefaultRetryAfter : Z := 60 * Second.
Definition DefaultBackoffInitial : Z := Second.
Definition DefaultBackoffMaxInterval : Z := 5 * Minute.

Inductive config_error : Type := NotPositive | NotAFraction.

Section reactive.
Context {S : Type} {redis : RedisServer S} {F : Type} {lua : LuaNum F}.

Definition DefaultBackoffMultiplier : F := n_of_Z 2.
Definition DefaultBackoffJitterFraction : F := n_div (n_of_Z 1) (n_of_Z 10).

Record ExponentialBackoff := mkBackoff {
  eb_InitialInterval : option Z;
  eb_Multiplier : option F;
  eb_MaxInterval : option Z;
  eb_JitterFraction : option F
}.

Record RateLimiting := mkRateLimiting {
  rl_Disabled : bool;
  rl_RetryAfterHeaders : list string;
  rl_MaxRetryAfter : option Z;
  rl_DefaultRetryAfter : option Z;
  rl_ExponentialBackoff : option ExponentialBackoff
}.

Abbreviation cerrors := (list (ValidationContext * config_error)).

Definition not_positive (vc : ValidationContext) (f : string) (d : option Z) : cerrors :=
  match d with
  | Some d => if (d <=? 0)%Z then [(PushField vc f, NotPositive)] else []
  | None => []
  end.

Definition ExponentialBackoff_Validate (vc : ValidationContext) (eb : option ExponentialBackoff) : cerrors :=
  match eb with
  | None => []
  | Some eb =>
      not_positive vc "initial_interval" (eb_InitialInterval eb)
      ++ match eb_Multiplier eb with
         | Some m => if negb (n_ltb (n_of_Z 0) m) then [(PushField vc "multiplier", NotPositive)] else []
         | None => []
         end
      ++ not_positive vc "max_interval" (eb_MaxInterval eb)
      ++ match eb_JitterFraction eb with
         | Some j => if n_ltb j (n_of_Z 0) || n_ltb (n_of_Z 1) j then [(PushField vc "jitter_fraction", NotAFraction)] else []
         | None => []
         end
  end.

Definition RateLimiting_Validate (vc : ValidationContext) (r : option RateLimiting) : cerrors :=
  match r with
  | None => []
  | Some r =>
      not_positive vc "max_retry_after" (rl_MaxRetryAfter r)
      ++ not_positive vc "default_retry_after" (rl_DefaultRetryAfter r)
      ++ ExponentialBackoff_Validate (PushField vc "exponential_backoff") (rl_ExponentialBackoff r)
  end.

Definition GetRetryAfterHeaders (r : option RateLimiting) : list string :=
  match r with
  | None => ["Retry-After"]
  | Some r => if decide (length (rl_RetryAfterHeaders r) = 0) then ["Retry-After"] else rl_RetryAfterHeaders r
  end.

Definition GetMaxRetryAfter (r : option RateLimiting) : Z :=
  default DefaultMaxRetryAfter (r ≫= rl_MaxRetryAfter).

Definition GetDefaultRetryAfter (r : option RateLimiting) : Z :=
  default DefaultDefaultRetryAfter (r ≫= rl_DefaultRetryAfter).

Definition GetInitialInterval (eb : option ExponentialBackoff) : Z :=
  default DefaultBackoffInitial (eb ≫= eb_InitialInterval).
Definition GetMultiplier (eb : option ExponentialBackoff) : F :=
  default DefaultBackoffMultiplier (eb ≫= eb_Multiplier).
Definition GetMaxInterval (eb : option ExponentialBackoff) : Z :=
  default DefaultBackoffMaxInterval (eb ≫= eb_MaxInterval).
Definition GetJitterFraction (eb : option ExponentialBackoff) : F :=
  default DefaultBackoffJitterFraction (eb ≫= eb_JitterFraction).

(** ** Retry-After *)

(** [t.Sub(now)]: the difference of two times in nanoseconds, saturating. *)
Definition time_sub (t now : Z) : Z := Z.max (- 2 ^ 63) (Z.min (2 ^ 63 - 1) (t - now)).

Definition parseAsSeconds (value : string) : option Z :=
  match ParseInt value with
  | None => None
  | Some seconds => if (seconds <? 0)%Z then None else Some (duration_mul seconds Second)
  end.

Definition iso8601Formats : list string :=
  ["2006-01-02T15:04:05Z07:00"; "2006-01-02T15:04:05Z"; "2006-01-02T15:04:05-07:00"; "2006-01-02T15:04:05"].

Section retry_after.
Context (http_ParseTime : string → option Z) (time_Parse : string → string → option Z).

Definition until (t now : Z) : Z := let d := time_sub t now in if (d <? 0)%Z then 0%Z else d.

Definition parseAsHTTPDate (value : string) (now : Z) : option Z :=
  t ← http_ParseTime value; Some (until t now).

Fixpoint parse_formats (formats : list string) (value : string) (now : Z) : option Z :=
  match formats with
  | [] => None
  | f :: formats =>
      match time_Parse f value with
      | Some t => Some (until t now)
      | None => parse_formats formats value now
      end
  end.

Definition parseAsISO8601 (value : string) (now : Z) : option Z := parse_formats iso8601Formats value now.

Definition parse_value (value : string) (now : Z) : option Z :=
  let value := TrimSpace value in
  match parseAsSeconds value with
  | Some d => Some d
  | None => match parseAsHTTPDate value now with
            | Some d => Some d
            | None => parseAsISO8601 value now
            end
  end.

(** [headers] is [Header.Get]: the empty string when a header is absent. *)
Fixpoint ParseRetryAfter (headers : string → string) (headerNames : list string) (now : Z) : option Z :=
  match headerNames with
  | [] => None
  | name :: headerNames =>
      if decide (headers name = "") then ParseRetryAfter headers headerNames now
      else match parse_value (headers name) now with
           | Some d => Some d
           | None => ParseRetryAfter headers headerNames now
           end
  end.
End retry_after.

(** ** The store *)

Definition blockedKey (connectionID : string) : string := "ratelimit:blocked:" +:+ connectionID.
Definition consecutive429Key (connectionID : string) : string := "ratelimit:429count:" +:+ connectionID.
Definition consecutiveCountTTL : Z := Hour.

(** The connection to Redis and its clock (ms) at one call. *)
Definition at_call : Type := link * Z.

(** A single command over the connection. *)
Definition client {A} (c : cmd A) (key : string) (e : at_call) (s : S) : result client_error A * S :=
  Run e.1 (redis_call c key) e.2 s.

Context (ttl_seconds : Z → Z).

(** [TTL] as go-redis returns it: -2 and -1 as they are, seconds otherwise. *)
Definition TTL_duration (pttl : Z) : Z :=
  if (pttl <? 0)%Z then pttl else duration_mul (ttl_seconds pttl) Second.

Definition IsRateLimited (conn : string) (e : at_call) (s : S) : result client_error (option Z) * S :=
  let '(r, s') := client PTTL (blockedKey conn) e s in
  (match r with
   | Err err => Err err
   | Ok pttl => let ttl := TTL_duration pttl in if (ttl <=? 0)%Z then Ok None else Ok (Some ttl)
   end, s').

Definition SetRateLimited (conn : string) (d : Z) (e : at_call) (s : S) : result client_error unit * S :=
  client (SET_PX "1" (Milliseconds d)) (blockedKey conn) e s.

Definition GetConsecutive429Count (conn : string) (e : at_call) (s : S) : result (option client_error) Z * S :=
  let '(r, s') := client GET (consecutive429Key conn) e s in
  (match r with
   | Err err => Err (Some err)
   | Ok None => Ok 0%Z
   | Ok (Some val) => match ParseInt val with Some n => Ok n | None => Err None end
   end, s').

(** The error of the second command is ignored. *)
Definition IncrementConsecutive429Count (conn : string) (e e' : at_call) (s : S) : result client_error Z * S :=
  let key := consecutive429Key conn in
  match client INCR key e s with
  | (Err err, s') => (Err err, s')
  | (Ok count, s') => (Ok count, (client (PEXPIRE (Milliseconds consecutiveCountTTL)) key e' s').2)
  end.

Definition ClearConsecutive429Count (conn : string) (e : at_call) (s : S) : result client_error unit * S :=
  client DEL (consecutive429Key conn) e s.

(** ** The round tripper *)

Context (http_ParseTime : string → option Z) (time_Parse : string → string → option Z).
Context (Pow : F → F → F) (to_int64 : F → Z).

(** [backoff] of [computeBackoff] before it is converted, with the number
    drawn by [rand.Float64]. *)
Definition backoff_float (eb : option ExponentialBackoff) (count : Z) (rnd : F) : F :=
  let backoff := n_mul (n_of_Z (GetInitialInterval eb)) (Pow (GetMultiplier eb) (n_of_Z count)) in
  let jitter := GetJitterFraction eb in
  if n_ltb (n_of_Z 0) jitter then
    let jitterRange := n_mul backoff jitter in
    n_add (n_sub backoff jitterRange) (n_mul (n_mul rnd (n_of_Z 2)) jitterRange)
  else backoff.

Definition computeBackoff (cfg : option RateLimiting) (conn : string) (e : at_call) (rnd : F) (s : S) : Z * S :=
  match cfg ≫= rl_ExponentialBackoff with
  | None => (GetDefaultRetryAfter cfg, s)
  | Some eb =>
      match GetConsecutive429Count conn e s with
      | (Err _, s') => (GetDefaultRetryAfter cfg, s')
      | (Ok count, s') =>
          let d := to_int64 (backoff_float (Some eb) count rnd) in
          (if (GetMaxInterval (Some eb) <? d)%Z then GetMaxInterval (Some eb) else d, s')
      end
  end.

(** Cap at the maximum, then at least one second. *)
Definition clamp_retry (cfg : option RateLimiting) (retryAfter : Z) : Z :=
  let maxRetryAfter := GetMaxRetryAfter cfg in
  let r := if (maxRetryAfter <? retryAfter)%Z then maxRetryAfter else retryAfter in
  if (r <? Second)%Z then Second else r.

(** The Redis calls of a round trip, in the order of the source: the check,
    the count for the backoff, the increment, its expiry, the block; a
    response other than 429 uses [clear]. *)
Record rt_env := mkRtEnv {
  re_check : at_call; re_count : at_call; re_incr : at_call; re_expire : at_call; re_set : at_call;
  re_clear : at_call; re_now : Z; re_rand : F }.

(** The wait before the cap: from the headers, or else the backoff. *)
Definition choose_retry (cfg : option RateLimiting) (conn : string) (headers : string → string)
    (env : rt_env) (s : S) : Z * S :=
  match ParseRetryAfter http_ParseTime time_Parse headers (GetRetryAfterHeaders cfg) (re_now env) with
  | Some d => (d, s)
  | None => computeBackoff cfg conn (re_count env) (re_rand env) s
  end.

Definition handle429 (cfg : option RateLimiting) (conn : string) (headers : string → string)
    (env : rt_env) (s : S) : S :=
  let '(retryAfter, s) := choose_retry cfg conn headers env s in
  let s := (IncrementConsecutive429Count conn (re_incr env) (re_expire env) s).2 in
  (SetRateLimited conn (clamp_retry cfg retryAfter) (re_set env) s).2.

(** The upstream's answer: an error, or a status and headers. *)
Inductive upstream : Type := UpstreamError | UpstreamResponse (status : Z) (headers : string → string).

Inductive reactive_result : Type :=
  | Blocked (r : Response)
  | FromUpstream (u : upstream).

Definition reactiveTooManyRequests (retryAfter : Z) : Response :=
  mkResponse 429 (ceil_seconds retryAfter) true None.

(** After the check let the request through. *)
Definition forward (cfg : option RateLimiting) (conn : string) (u : upstream) (env : rt_env) (s : S) :
    reactive_result * S :=
  match u with
  | UpstreamError => (FromUpstream u, s)
  | UpstreamResponse status headers =>
      if decide (status = 429%Z) then (FromUpstream u, handle429 cfg conn headers env s)
      else (FromUpstream u, (ClearConsecutive429Count conn (re_clear env) s).2)
  end.

Definition Reactive_RoundTrip (cfg : option RateLimiting) (conn : string) (u : upstream) (env : rt_env) (s : S) :
    reactive_result * S :=
  match IsRateLimited conn (re_check env) s with
  | (Ok (Some remaining), s') => (Blocked (reactiveTooManyRequests remaining), s')
  | (_, s') => forward cfg conn u env s'
  end.

(** The factory: [None] means that the request is not rate limited here. *)
Definition Factory_NewRoundTripper (ri : RequestInfo) (cfg : option RateLimiting) :
    option (string * option RateLimiting) :=
  if decide (ri_ConnectionId ri = "") then None
  else if decide (ri_Type ri ≠ RequestTypeProxy ∧ ri_Type ri ≠ RequestTypeProbe) then None
  else if match cfg with Some c => rl_Disabled c | None => false end then None
  else Some (ri_ConnectionId ri, cfg).

(** ** Keys over time *)

(** What [key] holds at [t] it still holds at [t'], unless it has expired; a
    missing key is still missing. *)
Definition steady (key : string) (t t' : Z) (s s' : S) : Prop :=
  (t ≤ t')%Z ∧ (∀ e, lookup s t key = Some e → live t' e → lookup s' t' key = Some e) ∧
  (lookup s t key = None → lookup s' t' key = None).

Lemma live_earlier t t' e : (t ≤ t')%Z → live t' e → live t e.
Proof. unfold live. destruct (e_expire e); [lia|done]. Qed.

Lemma steady_view key t t' s s' : (t ≤ t')%Z → lookup s' t' key = lookup s t' key → steady key t t' s s'.
Proof.
  intros Ht Hv. split; [done|]. rewrite Hv.
  split; [by intros e He Hl; eapply lookup_live|by apply lookup_missing].
Qed.

Lemma steady_later key t t' s : (t ≤ t')%Z → steady key t t' s s.
Proof. intros Ht. by apply steady_view. Qed.

Lemma steady_trans key t t' t'' s s' s'' :
  steady key t t' s s' → steady key t' t'' s' s'' → steady key t t'' s s''.
Proof.
  intros (Ht & H & Hn) (Ht' & H' & Hn'). split; [lia|]. split; [|auto]. intros e He Hl. apply H'; [|done].
  apply H; [done|]. by eapply live_earlier.
Qed.

Lemma Run_lookup {A} (c : cmd A) k (e : at_call) s key :
  lookup (client c k e s).2 e.2 key = lookup s e.2 key ∨ lookup (client c k e s).2 e.2 key = lookup (call c k e.2 s).2 e.2 key.
Proof.
  unfold client, Run, redis_call. destruct e as [[] t]; cbn; [|by left|by right].
  destruct (call c k t s). by right.
Qed.

(** A request the server received has been executed. *)
Lemma Run_executed {A} (c : cmd A) k (e : at_call) s :
  e.1 ≠ RequestLost → lookup (client c k e s).2 e.2 k = (exec c e.2 (lookup s e.2 k)).2.
Proof.
  intros He. rewrite <- call_same. unfold client, Run, redis_call.
  destruct e as [[] t]; cbn in *; [by destruct (call c k t s)|done|done].
Qed.

Lemma client_steady {A} (c : cmd A) k (e : at_call) s key t :
  key ≠ k → (t ≤ e.2)%Z → steady key t e.2 s (client c k e s).2.
Proof.
  intros Hk Ht. apply steady_view; [done|].
  destruct (Run_lookup c k e s key) as [->| ->]; [done|]. by apply call_other.
Qed.

(** Commands that only read. *)
Definition read_only {A} (c : cmd A) : Prop := ∀ t o, (exec c t o).2 = o.

Lemma PTTL_read_only : read_only PTTL.
Proof. done. Qed.

Lemma GET_read_only : read_only GET.
Proof. intros t [[[] ex]|]; done. Qed.

Lemma read_steady {A} (c : cmd A) k (e : at_call) s key t :
  read_only c → (t ≤ e.2)%Z → steady key t e.2 s (client c k e s).2.
Proof.
  intros Hc Ht. destruct (decide (key = k)) as [->|]; [|by apply client_steady].
  apply steady_view; [done|]. destruct (Run_lookup c k e s k) as [->| ->]; [done|]. by rewrite call_same.
Qed.

Lemma blockedKey_inj c c' : blockedKey c = blockedKey c' → c = c'.
Proof. unfold blockedKey. apply (inj (String.app _)). Qed.

Lemma consecutive429Key_inj c c' : consecutive429Key c = consecutive429Key c' → c = c'.
Proof. unfold consecutive429Key. apply (inj (String.app _)). Qed.

Lemma keys_differ c c' : blockedKey c ≠ consecutive429Key c'.
Proof. unfold blockedKey, consecutive429Key. done. Qed.

(** ** Runs of round trips *)

(** A request through the limiter: its connection and configuration, what the
    upstream would answer, and the calls to Redis. *)
Record trip := mkTrip { tr_cfg : option RateLimiting; tr_conn : string; tr_upstream : upstream; tr_env : rt_env }.

Definition run_trip (tr : trip) (s : S) : reactive_result * S :=
  Reactive_RoundTrip (tr_cfg tr) (tr_conn tr) (tr_upstream tr) (tr_env tr) s.

Fixpoint run_trips (trs : list trip) (s : S) : list reactive_result * S :=
  match trs with
  | [] => ([], s)
  | tr :: trs => let '(r, s) := run_trip tr s in let '(rs, s) := run_trips trs s in (r :: rs, s)
  end.

(** The server's clock over the calls of a round trip, from [t] to [t']. *)
Definition env_times (t : Z) (env : rt_env) (t' : Z) : Prop :=
  (t ≤ (re_check env).2 ≤ (re_count env).2 ∧ (re_count env).2 ≤ (re_incr env).2 ≤ (re_expire env).2 ∧
   (re_expire env).2 ≤ (re_set env).2 ≤ t' ∧ (re_check env).2 ≤ (re_clear env).2 ≤ t')%Z.

Fixpoint in_order (t : Z) (trs : list trip) (t' : Z) : Prop :=
  match trs with
  | [] => (t ≤ t')%Z
  | tr :: trs => ∃ t1, env_times t (tr_env tr) t1 ∧ in_order t1 trs t'
  end.

Lemma in_order_le t trs t' : in_order t trs t' → (t ≤ t')%Z.
Proof.
  revert t. induction trs as [|tr trs IH]; intros t; [done|].
  intros (t1 & Ht & ?%IH). unfold env_times in Ht. lia.
Qed.

Lemma IsRateLimited_state conn e s : (IsRateLimited conn e s).2 = (client PTTL (blockedKey conn) e s).2.
Proof. unfold IsRateLimited. by destruct (client PTTL _ e s). Qed.

Lemma computeBackoff_steady cfg conn e rnd s key t :
  (t ≤ e.2)%Z → steady key t e.2 s (computeBackoff cfg conn e rnd s).2.
Proof.
  intros Ht. unfold computeBackoff, GetConsecutive429Count. destruct (cfg ≫= _); [|by apply steady_later].
  pose proof (read_steady GET (consecutive429Key conn) e s key t GET_read_only Ht) as H.
  destruct (client GET _ e s) as [[err|[v|]] s']; cbn in *; try done. by destruct (ParseInt v).
Qed.

Lemma choose_retry_steady cfg conn headers env s key t :
  (t ≤ (re_count env).2)%Z →
  steady key t (re_count env).2 s (choose_retry cfg conn headers env s).2.
Proof.
  intros. unfold choose_retry. destruct (ParseRetryAfter _ _ _ _ _); [by apply steady_later|].
  by apply computeBackoff_steady.
Qed.

Lemma Increment_steady conn e e' s key t :
  key ≠ consecutive429Key conn → (t ≤ e.2 ≤ e'.2)%Z →
  steady key t e'.2 s (IncrementConsecutive429Count conn e e' s).2.
Proof.
  intros Hk Ht. unfold IncrementConsecutive429Count.
  pose proof (client_steady INCR (consecutive429Key conn) e s key t Hk ltac:(lia)) as H.
  destruct (client INCR _ e s) as [[err|n] s']; cbn in *; cycle 1.
  - eapply steady_trans; [done|]. apply client_steady; [done|lia].
  - eapply steady_trans; [done|]. apply steady_later. lia.
Qed.

(** The state before the block is written. *)
Definition counted (cfg : option RateLimiting) (conn : string) (headers : string → string) (env : rt_env) (s : S) : S :=
  (IncrementConsecutive429Count conn (re_incr env) (re_expire env) (choose_retry cfg conn headers env s).2).2.

Definition retry_time (cfg : option RateLimiting) (conn : string) (headers : string → string) (env : rt_env) (s : S) : Z :=
  clamp_retry cfg (choose_retry cfg conn headers env s).1.

Lemma handle429_eq cfg conn headers env s :
  handle429 cfg conn headers env s =
  (SetRateLimited conn (retry_time cfg conn headers env s) (re_set env) (counted cfg conn headers env s)).2.
Proof. unfold handle429, retry_time, counted. by destruct (choose_retry cfg conn headers env s). Qed.

(** A round trip of another connection leaves the keys of this one alone. *)
Lemma RoundTrip_other cfg conn u env s key t t' :
  key ≠ blockedKey conn → key ≠ consecutive429Key conn → env_times t env t' →
  steady key t t' s (Reactive_RoundTrip cfg conn u env s).2.
Proof.
  intros Hb Hc Ht. unfold env_times in Ht. unfold Reactive_RoundTrip.
  assert (steady key t (re_check env).2 s (IsRateLimited conn (re_check env) s).2) as Hs.
  { rewrite IsRateLimited_state. apply read_steady; [done|lia]. }
  destruct (IsRateLimited conn (re_check env) s) as [r s1]. cbn [snd] in Hs.
  assert (steady key t t' s (forward cfg conn u env s1).2) as Hf.
  { eapply steady_trans; [exact Hs|]. destruct u as [|status headers]; cbn; [apply steady_later; lia|].
    case_decide; cbn.
    - rewrite handle429_eq. eapply (steady_trans _ _ (re_set env).2); [|apply steady_later; lia].
      eapply (steady_trans _ _ (re_expire env).2); [|apply client_steady; [done|lia]].
      eapply (steady_trans _ _ (re_count env).2); [apply choose_retry_steady; lia|].
      apply Increment_steady; [done|lia].
    - eapply (steady_trans _ _ (re_clear env).2); [|apply steady_later; lia]. apply client_steady; [done|lia]. }
  destruct r as [err|[d|]]; [done| |done]. eapply steady_trans; [exact Hs|apply steady_later; lia].
Qed.

(** ** The block *)

(** The server rounds the remaining time to a neighbouring second. *)
Definition ttl_rounds : Prop := ∀ p, (0 ≤ p)%Z → (p - 1000 < ttl_seconds p * 1000 < p + 1000)%Z.

(** The entry that blocks a connection until [stop]. *)
Definition block (stop : Z) : entry := mkEntry (VInt 1) (Some stop).

Lemma clamp_retry_bounds cfg d : (Second ≤ clamp_retry cfg d ≤ Z.max Second (GetMaxRetryAfter cfg))%Z.
Proof.
  unfold clamp_retry. destruct (Z.ltb_spec (GetMaxRetryAfter cfg) d);
    [destruct (Z.ltb_spec (GetMaxRetryAfter cfg) Second)|destruct (Z.ltb_spec d Second)]; lia.
Qed.

Lemma clamp_retry_ms cfg d :
  (GetMaxRetryAfter cfg ≤ 2 ^ 62)%Z → (0 ≤ Milliseconds (clamp_retry cfg d) < 2 ^ 43)%Z.
Proof.
  intros Hmax. pose proof (clamp_retry_bounds cfg d) as H. revert H. generalize (clamp_retry cfg d) as r.
  intros r. change Second with 1000000000%Z. intros Hr.
  unfold Milliseconds. change Millisecond with 1000000%Z. rewrite Z.quot_div_nonneg by lia.
  split; [apply Z.div_pos; lia|apply Z.div_lt_upper_bound; lia].
Qed.

(** A header that holds a number of seconds is followed, up to the maximum. *)
Lemma retry_time_seconds cfg conn h hs headers n env s :
  GetRetryAfterHeaders cfg = h :: hs → headers h = FormatInt n →
  (0 ≤ n)%Z → int64_range (n * Second) →
  retry_time cfg conn headers env s = Z.max Second (Z.min (GetMaxRetryAfter cfg) (n * Second)).
Proof.
  intros Hh Hv Hn Hr. unfold retry_time, choose_retry. rewrite Hh. cbn [ParseRetryAfter]. rewrite Hv.
  assert (int64_range n) as Hi by (unfold int64_range in *; change Second with 1000000000%Z in *; lia).
  assert (ParseInt (TrimSpace (FormatInt n)) = Some n) as Hp.
  { rewrite (TrimSpace_clean is_digit); [by apply ParseInt_FormatInt|by vm_compute|].
    destruct n as [|p|p]; [done|by eapply (digits_value_forall 0), parse_digits_value, parse_digits_pretty|lia]. }
  rewrite decide_False by (intros H; rewrite H in Hp; done).
  unfold parse_value, parseAsSeconds. rewrite Hp, (proj2 (Z.ltb_ge _ _)) by lia. cbn [fst].
  rewrite duration_mul_exact by done. unfold clamp_retry.
  destruct (Z.ltb_spec (GetMaxRetryAfter cfg) (n * Second));
    [destruct (Z.ltb_spec (GetMaxRetryAfter cfg) Second)|destruct (Z.ltb_spec (n * Second) Second)]; lia.
Qed.

Lemma SetRateLimited_blocks conn d e s :
  e.1 ≠ RequestLost → (Second ≤ d)%Z →
  lookup (SetRateLimited conn d e s).2 e.2 (blockedKey conn) = Some (block (e.2 + Milliseconds d)).
Proof.
  intros He Hd. unfold SetRateLimited.
  assert (0 < Milliseconds d)%Z.
  { unfold Milliseconds. change Second with (1000 * Millisecond)%Z in Hd. unfold Millisecond in *.
    apply Z.quot_str_pos. lia. }
  rewrite Run_executed by done. cbn [exec]. by rewrite decide_False by lia.
Qed.

Lemma handle429_blocks cfg conn headers env s :
  (re_set env).1 ≠ RequestLost →
  lookup (handle429 cfg conn headers env s) (re_set env).2 (blockedKey conn) =
  Some (block ((re_set env).2 + Milliseconds (retry_time cfg conn headers env s))).
Proof. intros H. rewrite handle429_eq. apply SetRateLimited_blocks; [done|]. apply clamp_retry_bounds. Qed.

Lemma IsRateLimited_up conn t s :
  (IsRateLimited conn (LinkUp, t) s).1 =
  let ttl := TTL_duration (match lookup s t (blockedKey conn) with
                           | None => (-2)%Z
                           | Some e => match e_expire e with None => (-1)%Z | Some x => (x - t)%Z end
                           end) in
  if (ttl <=? 0)%Z then Ok None else Ok (Some ttl).
Proof.
  unfold IsRateLimited, client, Run, redis_call. cbn [fst snd].
  pose proof (call_reply PTTL (blockedKey conn) t s) as Hr.
  destruct (call PTTL (blockedKey conn) t s) as [r s']. cbn in Hr |- *. by subst r.
Qed.

(** A blocked connection: the request is answered here. *)
Lemma blocked_trip cfg conn u env s stop :
  ttl_rounds → (re_check env).1 = LinkUp →
  lookup s (re_check env).2 (blockedKey conn) = Some (block stop) →
  (1000 ≤ stop - (re_check env).2 < 2 ^ 43)%Z →
  ∃ n, Reactive_RoundTrip cfg conn u env s =
         (Blocked (mkResponse 429 n true None), (IsRateLimited conn (re_check env) s).2) ∧
       (Z.abs (n * 1000 - (stop - (re_check env).2)) < 1000)%Z.
Proof.
  intros Hr Hup Hl Hp. unfold Reactive_RoundTrip. destruct (re_check env) as [li t]; cbn in *; subst li.
  pose proof (IsRateLimited_up conn t s) as Hi. rewrite Hl in Hi. cbn [e_expire block] in Hi.
  specialize (Hr (stop - t)%Z ltac:(lia)). exists (ttl_seconds (stop - t)).
  assert (TTL_duration (stop - t) = (ttl_seconds (stop - t) * Second)%Z) as Ht.
  { unfold TTL_duration. rewrite (proj2 (Z.ltb_ge _ _)) by lia. apply duration_mul_exact.
    unfold int64_range. change Second with 1000000000%Z. lia. }
  rewrite Ht in Hi. change Second with 1000000000%Z in Hi. cbv zeta in Hi.
  rewrite (proj2 (Z.leb_gt _ _)) in Hi by lia.
  destruct (IsRateLimited conn (LinkUp, t) s) as [r s']; cbn in *; subst r. split; [|lia].
  unfold reactiveTooManyRequests, ceil_seconds. change Second with 1000000000%Z.
  rewrite <- Z.mul_opp_l, Z.div_mul, Z.opp_involutive by done. done.
Qed.

(** Answered by the limiter, with the rest of the block as the wait. *)
Definition answered_here (conn : string) (stop : Z) (tr : trip) (r : reactive_result) : Prop :=
  tr_conn tr = conn → ∃ n, r = Blocked (mkResponse 429 n true None) ∧
    (Z.abs (n * 1000 - (stop - (re_check (tr_env tr)).2)) < 1000)%Z.

Definition checks_reach (conn : string) (trs : list trip) : Prop :=
  Forall (λ tr, tr_conn tr = conn → (re_check (tr_env tr)).1 = LinkUp) trs.

(** A round trip while the connection is blocked. *)
Lemma trip_keeps_block conn stop tr s t t' :
  ttl_rounds → env_times t (tr_env tr) t' → (tr_conn tr = conn → (re_check (tr_env tr)).1 = LinkUp) →
  lookup s t (blockedKey conn) = Some (block stop) → (t' ≤ stop - 1000)%Z → (stop - t < 2 ^ 43)%Z →
  answered_here conn stop tr (run_trip tr s).1 ∧ lookup (run_trip tr s).2 t' (blockedKey conn) = Some (block stop).
Proof.
  intros Hr Ht Hup Hl Hstop Hmax. unfold answered_here, run_trip. destruct (decide (tr_conn tr = conn)) as [<-|Hne].
  - specialize (Hup eq_refl). unfold env_times in Ht.
    assert (lookup s (re_check (tr_env tr)).2 (blockedKey (tr_conn tr)) = Some (block stop)) as Hc.
    { eapply lookup_live; [|done|unfold live; cbn]; lia. }
    destruct (blocked_trip (tr_cfg tr) (tr_conn tr) (tr_upstream tr) _ _ _ Hr Hup Hc ltac:(lia)) as (n & -> & Hn).
    split; [intros _; by exists n|]. cbn [snd]. rewrite IsRateLimited_state.
    destruct (read_steady PTTL (blockedKey (tr_conn tr)) (re_check (tr_env tr)) s (blockedKey (tr_conn tr)) t
      PTTL_read_only ltac:(lia)) as (_ & Hk & _).
    eapply (lookup_live _ (re_check (tr_env tr)).2); [lia|apply Hk; [done|]|]; unfold live; cbn; lia.
  - split; [done|]. pose proof (RoundTrip_other (tr_cfg tr) (tr_conn tr) (tr_upstream tr) (tr_env tr) s
      (blockedKey conn) t t' ltac:(by intros ?%blockedKey_inj) (keys_differ _ _) Ht) as (_ & H & _).
    apply H; [done|]. unfold live. cbn. lia.
Qed.

Lemma trips_blocked conn stop trs s t t' :
  ttl_rounds → in_order t trs t' → checks_reach conn trs →
  lookup s t (blockedKey conn) = Some (block stop) → (t' ≤ stop - 1000)%Z → (stop - t < 2 ^ 43)%Z →
  Forall2 (answered_here conn stop) trs (run_trips trs s).1 ∧
  lookup (run_trips trs s).2 t' (blockedKey conn) = Some (block stop).
Proof.
  intros Hr. revert s t. induction trs as [|tr trs IH]; intros s t Ho Hup Hl Hstop Hmax.
  - cbn in *. split; [constructor|]. eapply lookup_live; [done..|]. unfold live. cbn. lia.
  - destruct Ho as (t1 & Ht & Ho). apply Forall_cons in Hup as [Hup Hups].
    pose proof (in_order_le _ _ _ Ho). cbn [run_trips].
    destruct (trip_keeps_block conn stop tr s t t1 Hr Ht Hup Hl) as [Ha Hl1]; [lia..|].
    destruct (run_trip tr s) as [r s1]; cbn in Ha, Hl1.
    assert (t ≤ t1)%Z by (unfold env_times in Ht; lia).
    destruct (IH s1 t1 Ho Hups Hl1) as [Hf Hl2]; [lia..|].
    destruct (run_trips trs s1) as [rs s2]; cbn in *. split; [by constructor|done].
Qed.

(** A check that fails, or finds no block, lets the request through. *)
Lemma forward_result cfg conn u env s : (forward cfg conn u env s).1 = FromUpstream u.
Proof. destruct u; cbn; [done|]. by case_decide. Qed.

Lemma failed_check cfg conn u env s :
  (re_check env).1 ≠ LinkUp → (Reactive_RoundTrip cfg conn u env s).1 = FromUpstream u.
Proof.
  intros Hup. unfold Reactive_RoundTrip, IsRateLimited, client, Run.
  destruct (re_check env) as [[] t]; cbn in *; [done|apply forward_result..].
Qed.

Lemma unblocked_trip cfg conn u env s :
  lookup s (re_check env).2 (blockedKey conn) = None → (Reactive_RoundTrip cfg conn u env s).1 = FromUpstream u.
Proof.
  intros Hl. destruct (decide ((re_check env).1 = LinkUp)) as [Hup|]; [|by apply failed_check].
  unfold Reactive_RoundTrip. destruct (re_check env) as [li t]; cbn in *; subst li.
  pose proof (IsRateLimited_up conn t s) as Hi. rewrite Hl in Hi. cbn in Hi.
  destruct (IsRateLimited conn (LinkUp, t) s) as [r s']; cbn in *; subst r. apply forward_result.
Qed.

(** C23: When the upstream answers 429, the connection is blocked for the time
    the response asks for, kept between one second and the configured maximum:
    whatever round trips follow on this and other connections up to a second
    before the end, every one of this connection whose check reaches Redis is
    answered here with status 429 and the remaining time as [Retry-After], to
    the second, and does not reach the upstream; after the end requests are
    forwarded again.  When the check itself fails, the request is forwarded. *)
Theorem reactive_blocks_connection cfg conn headers env s t0 t1 trs t2 :
  ttl_rounds → (GetMaxRetryAfter cfg ≤ 2 ^ 62)%Z →
  env_times t0 env t1 → (re_set env).1 ≠ RequestLost →
  (Reactive_RoundTrip cfg conn (UpstreamResponse 429 headers) env s).1 = FromUpstream (UpstreamResponse 429 headers) →
  in_order t1 trs t2 → checks_reach conn trs →
  let s0 := (IsRateLimited conn (re_check env) s).2 in
  let s1 := (Reactive_RoundTrip cfg conn (UpstreamResponse 429 headers) env s).2 in
  let r := retry_time cfg conn headers env s0 in
  let stop := ((re_set env).2 + Milliseconds r)%Z in
  (t2 ≤ stop - 1000)%Z →
  (Second ≤ r ≤ Z.max Second (GetMaxRetryAfter cfg))%Z ∧
  (∀ h hs n, GetRetryAfterHeaders cfg = h :: hs → headers h = FormatInt n → (0 ≤ n)%Z → int64_range (n * Second) →
     r = Z.max Second (Z.min (GetMaxRetryAfter cfg) (n * Second))) ∧
  Forall2 (answered_here conn stop) trs (run_trips trs s1).1 ∧
  (∀ cfg' u env', (stop < (re_check env').2)%Z →
     (Reactive_RoundTrip cfg' conn u env' (run_trips trs s1).2).1 = FromUpstream u) ∧
  (∀ cfg' u env' s', (re_check env').1 ≠ LinkUp → (Reactive_RoundTrip cfg' conn u env' s').1 = FromUpstream u).
Proof.
  intros Hr Hmax Ht Hset Hpass Ho Hup s0 s1 r stop Hstop.
  assert (Second ≤ r ≤ Z.max Second (GetMaxRetryAfter cfg))%Z as Hb by apply clamp_retry_bounds.
  assert (s1 = handle429 cfg conn headers env s0) as Hs1.
  { unfold s1, s0. unfold Reactive_RoundTrip in *. destruct (IsRateLimited conn (re_check env) s) as [[e|[d|]] s']; done. }
  pose proof (clamp_retry_ms cfg (choose_retry cfg conn headers env s0).1 Hmax) as Hms.
  change (0 ≤ Milliseconds r < 2 ^ 43)%Z in Hms.
  pose proof (in_order_le _ _ _ Ho). unfold env_times in Ht.
  assert (lookup s1 t1 (blockedKey conn) = Some (block stop)) as Hl.
  { rewrite Hs1. eapply (lookup_live _ (re_set env).2); [lia|by apply handle429_blocks|].
    unfold live. cbn. fold r stop. lia. }
  destruct (trips_blocked conn stop trs s1 t1 t2 Hr Ho Hup Hl) as [Hf Hl2]; [lia..|].
  split; [done|]. split; [by intros; eapply retry_time_seconds|].
  split; [done|]. split; [|by intros; apply failed_check].
  intros cfg' u env' Hlate. apply unblocked_trip.
  eapply (lookup_expired _ t2 _ _ (block stop) stop); [lia|done|done|lia].
Qed.

(** ** The count of consecutive 429s *)

(** The count a run leaves: 429s increment it, other responses reset it,
    requests that were blocked or failed do not change it. *)
Definition streak_after (conn : string) (n : Z) (tr : trip) (r : reactive_result) : Z :=
  if decide (tr_conn tr = conn) then
    match r with
    | FromUpstream (UpstreamResponse status _) => if decide (status = 429%Z) then (n + 1)%Z else 0%Z
    | _ => n
    end
  else n.

Fixpoint streak (conn : string) (n : Z) (trs : list trip) (rs : list reactive_result) : Z :=
  match trs, rs with
  | tr :: trs, r :: rs => streak conn (streak_after conn n tr r) trs rs
  | _, _ => n
  end.

(** The key holds the count [n] and does not expire up to [stop]. *)
Definition count_state (stop n : Z) (o : option entry) : Prop :=
  match o with
  | None => n = 0%Z
  | Some e => e_value e = VInt n ∧ (0 < n)%Z ∧ ∀ x, e_expire e = Some x → (stop < x)%Z
  end.

Lemma count_steady key stop n t t' s s' :
  steady key t t' s s' → (t' ≤ stop)%Z → count_state stop n (lookup s t key) → count_state stop n (lookup s' t' key).
Proof.
  intros (Ht & H & Hn) Hstop Hc. destruct (lookup s t key) as [e|] eqn:He; [|by rewrite Hn].
  rewrite (H e eq_refl); [done|]. destruct Hc as (_ & _ & Hx). unfold live.
  destruct (e_expire e) as [x|]; [|done]. specialize (Hx x eq_refl). lia.
Qed.

Lemma count_Increment conn e e' s stop n t :
  e.1 ≠ RequestLost → (t ≤ e.2 ≤ e'.2)%Z → (e'.2 ≤ stop < t + 3600000)%Z → (0 ≤ n)%Z → (n + 1 < 2 ^ 63)%Z →
  count_state stop n (lookup s t (consecutive429Key conn)) →
  count_state stop (n + 1)
    (lookup (IncrementConsecutive429Count conn e e' s).2 e'.2 (consecutive429Key conn)).
Proof.
  intros He Ht Hstop Hn Hmax Hc. unfold IncrementConsecutive429Count. set (key := consecutive429Key conn) in *.
  change (Milliseconds consecutiveCountTTL) with 3600000%Z.
  apply (count_steady key stop n t e.2 s s) in Hc; [|apply steady_later; lia|lia].
  pose proof (Run_executed INCR key e s He) as Hi.
  assert (count_state stop (n + 1) (lookup (client INCR key e s).2 e.2 key)) as Hc1.
  { rewrite Hi. destruct (lookup s e.2 key) as [[v ex]|]; cbn in *; [|by subst n].
    destruct Hc as (-> & ? & ?). rewrite decide_True by lia. split_and!; [done|lia|done]. }
  destruct (client INCR key e s) as [r s']; cbn in Hc1.
  apply (count_steady key stop _ e.2 e'.2 s' s') in Hc1; [|apply steady_later; lia|lia].
  destruct r as [err|count]; [done|]. cbn [snd].
  destruct (decide (e'.1 = RequestLost)) as [Hl|Hl].
  - unfold client, Run. by rewrite Hl.
  - rewrite Run_executed by done. destruct (lookup s' e'.2 key) as [[v ex]|]; cbn in *; [|done].
    destruct Hc1 as (-> & ? & _). split_and!; [done|lia|]. intros x [= <-]. lia.
Qed.

Lemma count_trip conn tr s t t' stop n :
  env_times t (tr_env tr) t' → (t' ≤ stop < t + 3600000)%Z → (0 ≤ n)%Z → (n + 1 < 2 ^ 63)%Z →
  (tr_conn tr = conn → (re_incr (tr_env tr)).1 ≠ RequestLost ∧ (re_clear (tr_env tr)).1 ≠ RequestLost) →
  count_state stop n (lookup s t (consecutive429Key conn)) →
  count_state stop (streak_after conn n tr (run_trip tr s).1) (lookup (run_trip tr s).2 t' (consecutive429Key conn)).
Proof.
  intros Ht Hstop Hn Hmax Hl Hc. unfold streak_after, run_trip.
  destruct (decide (tr_conn tr = conn)) as [<-|Hne]; cycle 1.
  { eapply count_steady; [apply RoundTrip_other|lia|done]; [..|done].
    - intros H. by apply (keys_differ (tr_conn tr) conn).
    - by intros ?%consecutive429Key_inj. }
  destruct (Hl eq_refl) as [Hincr Hclear]. destruct tr as [cfg conn u env]; cbn in *. unfold env_times in Ht.
  pose proof (read_steady PTTL (blockedKey conn) (re_check env) s (consecutive429Key conn) t PTTL_read_only ltac:(lia)) as Hs.
  rewrite <- IsRateLimited_state in Hs. unfold Reactive_RoundTrip.
  apply (count_steady (consecutive429Key conn) stop n _ _ _ _ Hs) in Hc; [|lia]. clear Hs.
  destruct (IsRateLimited conn (re_check env) s) as [r s1]; cbn [snd] in Hc.
  assert (count_state stop (match u with UpstreamResponse status _ => if decide (status = 429%Z) then (n + 1)%Z else 0%Z | _ => n end)
    (lookup (forward cfg conn u env s1).2 t' (consecutive429Key conn))) as Hf.
  { destruct u as [|status headers]; cbn; [eapply (count_steady _ _ _ (re_check env).2); [apply steady_later; lia|lia|done]|].
    case_decide; cbn [snd].
    - rewrite handle429_eq. eapply (count_steady _ _ _ (re_expire env).2); [|lia|].
      + eapply (steady_trans _ (re_expire env).2 (re_set env).2); [|apply steady_later; lia].
        apply client_steady; [|lia]. intros H'. by apply (keys_differ conn conn).
      + eapply (count_Increment _ _ _ _ _ _ (re_count env).2); [done|lia..|].
        eapply (count_steady _ _ _ (re_check env).2); [apply choose_retry_steady; lia|lia|done].
    - eapply (count_steady _ _ _ (re_clear env).2); [apply steady_later; lia|lia|]. unfold ClearConsecutive429Count.
      by rewrite Run_executed. }
  pose proof (forward_result cfg conn u env s1) as Hres.
  destruct r as [err|[d|]]; cbn [fst snd]; [by rewrite Hres| |by rewrite Hres].
  eapply (count_steady _ _ _ (re_check env).2); [apply steady_later; lia|lia|done].
Qed.

Definition counts_reach (conn : string) (trs : list trip) : Prop :=
  Forall (λ tr, tr_conn tr = conn →
    (re_incr (tr_env tr)).1 ≠ RequestLost ∧ (re_clear (tr_env tr)).1 ≠ RequestLost) trs.

Lemma streak_after_bounds conn n tr r : (0 ≤ n)%Z → (0 ≤ streak_after conn n tr r ≤ n + 1)%Z.
Proof. intros. unfold streak_after. repeat case_match; lia. Qed.

Lemma count_trips conn trs s t stop n :
  in_order t trs stop → (stop < t + 3600000)%Z → (0 ≤ n)%Z → (n + Z.of_nat (length trs) < 2 ^ 63)%Z →
  counts_reach conn trs → count_state stop n (lookup s t (consecutive429Key conn)) →
  (0 ≤ streak conn n trs (run_trips trs s).1 < 2 ^ 63)%Z ∧
  count_state stop (streak conn n trs (run_trips trs s).1) (lookup (run_trips trs s).2 stop (consecutive429Key conn)).
Proof.
  revert s t n. induction trs as [|tr trs IH]; intros s t n Ho Hstop Hn Hmax Hl Hc.
  - cbn in *. split; [lia|]. eapply (count_steady _ _ _ t); [by apply steady_later|lia|done].
  - destruct Ho as (t1 & Ht & Ho). apply Forall_cons in Hl as [Hl Hls]. cbn [length] in Hmax.
    pose proof (in_order_le _ _ _ Ho). assert (t ≤ t1)%Z by (unfold env_times in Ht; lia).
    pose proof (count_trip conn tr s t t1 stop n Ht ltac:(lia) Hn ltac:(lia) Hl Hc) as Hc1.
    cbn [run_trips]. destruct (run_trip tr s) as [r s1]; cbn in Hc1.
    pose proof (streak_after_bounds conn n tr r Hn).
    specialize (IH s1 t1 (streak_after conn n tr r) Ho ltac:(lia) ltac:(lia) ltac:(lia) Hls Hc1).
    by destruct (run_trips trs s1).
Qed.

(** Over any run of less than an hour whose increments and resets reach
    Redis, the stored count is the number of 429 responses the connection
    received since its last other response, whatever happens on other
    connections and whichever of the other calls fail; blocked and failed
    requests do not change it. *)
Theorem consecutive_429s_counted conn trs s t t' n :
  in_order t trs t' → (t' < t + 3600000)%Z → (0 ≤ n)%Z → (n + Z.of_nat (length trs) < 2 ^ 63)%Z →
  counts_reach conn trs → count_state t' n (lookup s t (consecutive429Key conn)) →
  (GetConsecutive429Count conn (LinkUp, t') (run_trips trs s).2).1 = Ok (streak conn n trs (run_trips trs s).1).
Proof.
  intros Ho Hstop Hn Hmax Hl Hc. destruct (count_trips _ _ _ _ _ _ Ho Hstop Hn Hmax Hl Hc) as [Hb Hc1].
  destruct (run_trips trs s) as [rs s']; cbn [fst snd] in *.
  unfold GetConsecutive429Count, client, Run, redis_call. cbn [fst snd].
  pose proof (call_reply GET (consecutive429Key conn) t' s') as Hr.
  destruct (call GET (consecutive429Key conn) t' s') as [r s'']. cbn [fst] in Hr |- *. subst r.
  destruct (lookup s' t' (consecutive429Key conn)) as [[v ex]|];
    cbn [exec count_state e_value fst snd] in *; [|by rewrite Hc1].
  destruct Hc1 as (-> & _ & _). cbn [fst]. rewrite ParseInt_FormatInt by (unfold int64_range; lia). done.
Qed.
End reactive.

Arguments ExponentialBackoff F : clear implicits.
Arguments RateLimiting F : clear implicits.

(** ** Concrete executions

    Exact rationals for floating-point numbers, the server's rounding of
    [TTL], and the conversion of a float to [int64] as amd64 does it: a value
    out of range gives the smallest integer. *)

Definition redis_ttl (pttl : Z) : Z := (pttl + 500) `div` 1000.
Definition Q_pow (a b : Q) : Q := Qpower a (Qround.Qfloor b).
Definition amd64_int64 (q : Q) : Z :=
  let z := Z.quot (Qnum q) (Zpos (Qden q)) in
  if bool_decide (- 2 ^ 63 ≤ z < 2 ^ 63)%Z then z else (- 2 ^ 63)%Z.

Definition no_time (value : string) : option Z := None.
Definition no_layout (layout value : string) : option Z := None.

(** All calls of a round trip at one instant (ms), over a working connection. *)
Definition env_at (t : Z) : rt_env (F := Q) :=
  mkRtEnv (LinkUp, t) (LinkUp, t) (LinkUp, t) (LinkUp, t) (LinkUp, t) (LinkUp, t) (t * Millisecond) (1 # 2).

Definition trip_at (cfg : option (RateLimiting Q)) (conn : string) (t : Z) (u : upstream) : trip (F := Q) :=
  mkTrip cfg conn u (env_at t).

Abbreviation run_map := (run_trips (S := gmap string entry) (F := Q) redis_ttl no_time no_layout Q_pow amd64_int64).

Definition too_many (retry : string) : upstream :=
  UpstreamResponse 429 (λ h, if decide (h = "Retry-After") then retry else "").

Lemma redis_ttl_rounds : ttl_rounds redis_ttl.
Proof. intros p Hp. unfold redis_ttl. pose proof (Z.div_mod (p + 500) 1000). pose proof (Z.mod_pos_bound (p + 500) 1000). lia. Qed.

Lemma reactive_blocks_connection_witness :
  let trs := [trip_at None "cxn_1" 1000 (too_many ""); trip_at None "cxn_2" 2000 (too_many "5");
              trip_at None "cxn_1" 118000 (too_many "")] in
  Forall2 (answered_here "cxn_1" 120000) trs
    (run_map trs (run_map [trip_at None "cxn_1" 0 (too_many "120")] ∅).2).1.
Proof.
  intros trs.
  refine (proj1 (proj2 (proj2 (reactive_blocks_connection redis_ttl no_time no_layout Q_pow amd64_int64
    None "cxn_1" (λ h, if decide (h = "Retry-After") then "120" else "") (env_at 0) (∅ : gmap string entry) 0 0 trs 118000
    redis_ttl_rounds _ _ _ _ _ _ _)))).
  - vm_compute. done.
  - vm_compute. split_and!; done.
  - done.
  - vm_compute. reflexivity.
  - exists 1000%Z. split; [vm_compute; split_and!; done|]. exists 2000%Z. split; [vm_compute; split_and!; done|].
    exists 118000%Z. split; [vm_compute; split_and!; done|done].
  - repeat constructor.
  - vm_compute. done.
Defined.

Lemma consecutive_429s_counted_witness :
  let trs := [trip_at None "cxn_1" 1000 (too_many "1"); trip_at None "cxn_2" 2000 (UpstreamResponse 200 (λ _, ""));
              trip_at None "cxn_1" 9000 (too_many "1")] in
  (GetConsecutive429Count "cxn_1" (LinkUp, 9000%Z) (run_map trs ∅).2).1 = Ok (streak "cxn_1" 0 trs (run_map trs ∅).1) ∧
  streak "cxn_1" 0 trs (run_map trs ∅).1 = 2%Z.
Proof.
  intros trs. split; [|vm_compute; reflexivity].
  refine (consecutive_429s_counted redis_ttl no_time no_layout Q_pow amd64_int64 "cxn_1" trs
    (∅ : gmap string entry) 0 9000 0 _ _ _ _ _ _); [|done|done|done| |done].
  - exists 1000%Z. split; [vm_compute; split_and!; done|]. exists 2000%Z. split; [vm_compute; split_and!; done|].
    exists 9000%Z. split; [vm_compute; split_and!; done|done].
  - repeat constructor; done.
Defined.

(** ** Defects *)

(** How long a connection is blocked after a 429 at time [t] (ms), with [n]
    consecutive ones before it. *)
Definition with_count (n : Z) : gmap string entry :=
  {[ consecutive429Key "cxn_1" := mkEntry (VInt n) None ]}.

Abbreviation wait_map := (λ (cfg : option (RateLimiting Q)) (retry : string) (t : Z) (s : gmap string entry),
  retry_time (F := Q) no_time no_layout Q_pow amd64_int64 cfg "cxn_1"
    (λ h, if decide (h = "Retry-After") then retry else "") (env_at t) s).

Definition backoff_defaults : option (RateLimiting Q) :=
  Some (mkRateLimiting false [] None None (Some (mkBackoff None None None None))).

Definition slow_backoff : option (RateLimiting Q) :=
  Some (mkRateLimiting false [] (Some (5 * Hour)%Z) None
    (Some (mkBackoff (Some (61 * Minute)%Z) None (Some (5 * Hour)%Z) None))).

(** Three ways in which a longer wait comes out shorter.  A [Retry-After]
    whose seconds do not fit a duration wraps: ten billion seconds block for
    one second, while one billion are capped at the maximum.  Exponential
    backoff with the default settings and the middle of the jitter waits five
    minutes after 33 consecutive 429s and one second after 34, since the
    conversion of the float overflows on amd64.  The count expires after an
    hour, so a backoff that waits longer never grows: the second 429 waits as
    long as the first. *)
Theorem reactive_defects :
  RateLimiting_Validate [] backoff_defaults = [] ∧ RateLimiting_Validate [] slow_backoff = [] ∧
  wait_map None "1000000000" 0%Z ∅ = (15 * Minute)%Z ∧ wait_map None "10000000000" 0%Z ∅ = Second ∧
  wait_map backoff_defaults "" 0%Z (with_count 33) = (5 * Minute)%Z ∧
  wait_map backoff_defaults "" 0%Z (with_count 34) = Second ∧
  wait_map slow_backoff "" 3661000%Z (run_map [trip_at slow_backoff "cxn_1" 0 (too_many "")] ∅).2 = (61 * Minute)%Z ∧
  wait_map slow_backoff "" 0%Z (with_count 1) = (122 * Minute)%Z.
Proof. split_and!; vm_compute; reflexivity. Qed.
