(* ===== verification/SetupFlow.v ===== *)
(** * Setup flows

    The user-authored part of a connector's setup flow and its validation
    ([schema/resources/connectors/setup_flow.go]), probes
    ([schema/resources/connectors/probe.go]), and the merging of submitted
    form data into a connection's configuration.

    JSON values, JSON Schema validation, JavaScript predicates and the mustache
    renderer are an interface ([External]); so is the state an auth method
    keeps. *)

From S2P Require Import Prelude GoNumbers GoStrings RateRules.
Open Scope string_scope.
Open Scope list_scope.

(** ** Code outside the library *)

Class External := {
  json : Type;                       (** a decoded JSON value *)
  raw : Type;                        (** [json.RawMessage] *)
  auth_state : Type;                 (** what an auth method has stored for the connection *)
  (** [json.Unmarshal] into a map; [None] is an error. *)
  unmarshal_object : raw → option (gmap string json);
  json_Valid : raw → bool;
  (** The data is accepted by the compiled JSON Schema (schema, data). *)
  schema_accepts : raw → raw → bool;
  (** The names under the schema's top-level [properties]. *)
  schema_properties : raw → option (list string);
  (** [EvaluateBoolean] with [cfg], [labels] and [annotations] in scope. *)
  js_boolean : string → gmap string json → gmap string string → gmap string string → option bool;
  (** [EvaluateBoolean] in the context used when a connector is validated. *)
  js_validates : string → bool;
  mustache_Render : string → option (gmap string json) → gmap string string → gmap string string → option string;
  (** The n-th id [apid.New] returns for setup tokens. *)
  new_setup_token : nat → string
}.

(** ** Steps *)

Definition ApxyStepPrefix : string := "apxy:".
Definition SetupStepVerify : string := ApxyStepPrefix +:+ "verify".
Definition SetupStepVerifyFailed : string := ApxyStepPrefix +:+ "verify_failed".
Definition SetupStepAuthFailed : string := ApxyStepPrefix +:+ "auth_failed".

Definition IsTerminalFailure (s : string) : bool :=
  bool_decide (s = SetupStepVerifyFailed) || bool_decide (s = SetupStepAuthFailed).

Abbreviation SetupFlowStepType := string.
Definition SetupFlowStepTypeForm : SetupFlowStepType := "form".
Definition SetupFlowStepTypeRedirect : SetupFlowStepType := "redirect".

Definition SetupFlowStepType_IsValid (t : SetupFlowStepType) : bool :=
  bool_decide (t = "") || bool_decide (t = SetupFlowStepTypeForm) || bool_decide (t = SetupFlowStepTypeRedirect).

Definition Normalized (t : SetupFlowStepType) : SetupFlowStepType :=
  if decide (t = "") then SetupFlowStepTypeForm else t.

Record DataSourceProxyRequest := mkProxyRequest { dsp_Method : string; dsp_Url : string }.

Record DataSourceDef := mkDataSource {
  ds_ProxyRequest : option DataSourceProxyRequest;
  ds_Transform : string
}.

Inductive flow_error : Type :=
  | StepIdRequired | ReservedStepId | DuplicateStepId | BadStepType
  | JavascriptRequired | JavascriptNotBoolean
  | RedirectNotAllowed | RedirectRequired | RedirectUrlRequired
  | SchemaRequired | SchemaNotJson | SchemaNotAllowed
  | UiSchemaNotJson | UiSchemaNotAllowed
  | DataSourcesNotAllowed | ProxyRequestRequired | TransformRequired | MethodRequired | UrlRequired
  | NoSteps | ThresholdTooSmall.

Abbreviation ferrors := (list (ValidationContext * flow_error)).

Section setup_flow.
Context {ext : External}.

(** The data sources of a step in the order they are ranged over. *)
Record SetupFlowStep := mkStep {
  st_Id : string;
  st_Type : SetupFlowStepType;
  st_Title : string;
  st_Description : string;
  st_JsonSchema : option raw;
  st_UiSchema : option raw;
  st_DataSources : list (string * DataSourceDef);
  st_If : option string;
  st_Redirect : option string
}.

Abbreviation SetupFlowPhase := (list SetupFlowStep).

Record SetupFlow := mkFlow { sf_Preconnect : option SetupFlowPhase; sf_Configure : option SetupFlowPhase }.

(** [sf.HasPreconnect()] and [sf.HasConfigure()] with the steps. *)
Definition phase_steps (p : option SetupFlowPhase) : list SetupFlowStep := default [] p.

Definition HasPreconnect (sf : option SetupFlow) : bool :=
  match sf ≫= sf_Preconnect with Some (_ :: _) => true | _ => false end.

Definition HasConfigure (sf : option SetupFlow) : bool :=
  match sf ≫= sf_Configure with Some (_ :: _) => true | _ => false end.

Definition FindStepById (sf : option SetupFlow) (id : string) : option SetupFlowStep :=
  match sf with
  | None => None
  | Some sf =>
      if decide (id = "") then None
      else match List.find (λ st, bool_decide (st_Id st = id)) (phase_steps (sf_Preconnect sf)) with
           | Some st => Some st
           | None => List.find (λ st, bool_decide (st_Id st = id)) (phase_steps (sf_Configure sf))
           end
  end.

(** ** Validation *)

Definition Predicate_Validate (vc : ValidationContext) (p : option string) : ferrors :=
  match p with
  | None => []
  | Some js =>
      if decide (TrimSpace js = "") then [(PushField vc "javascript", JavascriptRequired)]
      else if js_validates js then [] else [(PushField vc "javascript", JavascriptNotBoolean)]
  end.

Definition ProxyRequest_Validate (vc : ValidationContext) (r : DataSourceProxyRequest) : ferrors :=
  (if decide (dsp_Method r = "") then [(PushField vc "method", MethodRequired)] else [])
  ++ (if decide (dsp_Url r = "") then [(PushField vc "url", UrlRequired)] else []).

Definition DataSource_Validate (vc : ValidationContext) (d : DataSourceDef) : ferrors :=
  match ds_ProxyRequest d with
  | None => [(PushField vc "proxy_request", ProxyRequestRequired)]
  | Some r => ProxyRequest_Validate (PushField vc "proxy_request") r
  end
  ++ (if decide (ds_Transform d = "") then [(PushField vc "transform", TransformRequired)] else []).

Definition validate_step_id (vc : ValidationContext) (id : string) (seenIds : gset string) : ferrors * gset string :=
  if decide (id = "") then ([(PushField vc "id", StepIdRequired)], seenIds)
  else if HasPrefix id ApxyStepPrefix then ([(PushField vc "id", ReservedStepId)], seenIds)
  else if decide (id ∈ seenIds) then ([(PushField vc "id", DuplicateStepId)], seenIds)
  else ([], {[ id ]} ∪ seenIds).

Definition form_errors (vc : ValidationContext) (s : SetupFlowStep) (allowDataSources : bool) : ferrors :=
  (match st_Redirect s with Some _ => [(PushField vc "redirect", RedirectNotAllowed)] | None => [] end)
  ++ (match st_JsonSchema s with
      | None => [(PushField vc "json_schema", SchemaRequired)]
      | Some j => if json_Valid j then [] else [(PushField vc "json_schema", SchemaNotJson)]
      end)
  ++ (match st_UiSchema s with
      | Some u => if json_Valid u then [] else [(PushField vc "ui_schema", UiSchemaNotJson)]
      | None => []
      end)
  ++ (if negb allowDataSources && bool_decide (st_DataSources s ≠ []) then [(PushField vc "data_sources", DataSourcesNotAllowed)] else [])
  ++ concat (map (λ nd : string * DataSourceDef, DataSource_Validate (PushField (PushField vc "data_sources") nd.1) nd.2) (st_DataSources s)).

Definition redirect_errors (vc : ValidationContext) (s : SetupFlowStep) : ferrors :=
  (match st_JsonSchema s with Some _ => [(PushField vc "json_schema", SchemaNotAllowed)] | None => [] end)
  ++ (match st_UiSchema s with Some _ => [(PushField vc "ui_schema", UiSchemaNotAllowed)] | None => [] end)
  ++ (if decide (st_DataSources s = []) then [] else [(PushField vc "data_sources", DataSourcesNotAllowed)])
  ++ (match st_Redirect s with
      | None => [(PushField vc "redirect", RedirectRequired)]
      | Some url => if decide (url = "") then [(PushField (PushField vc "redirect") "url", RedirectUrlRequired)] else []
      end).

Definition SetupFlowStep_validate (vc : ValidationContext) (s : SetupFlowStep) (seenIds : gset string)
    (allowDataSources : bool) : ferrors * gset string :=
  let '(e, seenIds) := validate_step_id vc (st_Id s) seenIds in
  (e
   ++ (if SetupFlowStepType_IsValid (st_Type s) then [] else [(PushField vc "type", BadStepType)])
   ++ Predicate_Validate (PushField vc "if") (st_If s)
   ++ (if decide (Normalized (st_Type s) = SetupFlowStepTypeForm) then form_errors vc s allowDataSources
       else if decide (Normalized (st_Type s) = SetupFlowStepTypeRedirect) then redirect_errors vc s else []),
   seenIds).

Fixpoint validate_steps (vc : ValidationContext) (i : nat) (steps : list SetupFlowStep) (seenIds : gset string)
    (allowDataSources : bool) : ferrors * gset string :=
  match steps with
  | [] => ([], seenIds)
  | s :: steps =>
      let '(e, seenIds) := SetupFlowStep_validate (PushIndex (PushField vc "steps") i) s seenIds allowDataSources in
      let '(e', seenIds) := validate_steps vc (S i) steps seenIds allowDataSources in
      (e ++ e', seenIds)
  end.

Definition SetupFlowPhase_validate (vc : ValidationContext) (p : option SetupFlowPhase) (seenIds : gset string)
    (allowDataSources : bool) : ferrors * gset string :=
  match p with
  | None => ([], seenIds)
  | Some steps =>
      let '(e, seenIds) := validate_steps vc 0 steps seenIds allowDataSources in
      ((if decide (length steps = 0) then [(vc, NoSteps)] else []) ++ e, seenIds)
  end.

Definition SetupFlow_Validate (vc : ValidationContext) (sf : option SetupFlow) : ferrors :=
  match sf with
  | None => []
  | Some sf =>
      let '(e1, seenIds) := SetupFlowPhase_validate (PushField vc "preconnect") (sf_Preconnect sf) ∅ false in
      let '(e2, _) := SetupFlowPhase_validate (PushField vc "configure") (sf_Configure sf) seenIds true in
      e1 ++ e2
  end.

(** ** Submitted data *)

(** Fields the schema names are merged, others are dropped; the map that is
    passed is updated in place, the result is the map afterwards. *)
Definition merge_allowed (allowed : list string) (submitted config : gmap string json) : gmap string json :=
  filter (λ kv : string * json, kv.1 ∈ allowed) submitted ∪ config.

(** [None] stands for each of the errors. *)
Definition ValidateAndMergeData (s : SetupFlowStep) (stepId : string) (data : raw) (config : option (gmap string json)) :
    option (gmap string json) :=
  if decide (stepId = "") then None
  else if decide (stepId ≠ st_Id s) then None
  else
    submitted ← unmarshal_object data;
    schema ← st_JsonSchema s;
    if schema_accepts schema data then
      allowed ← schema_properties schema;
      Some (merge_allowed allowed submitted (default ∅ config))
    else None.

(** ** Probes *)

Record Probe := mkProbe {
  pr_Id : string;
  pr_If : option string;
  pr_FailureThreshold : option Z;
  pr_RecoveryThreshold : option Z
}.

Definition DefaultProbeFailureThreshold : Z := 3.
Definition DefaultProbeRecoveryThreshold : Z := 1.

Definition EffectiveFailureThreshold (p : Probe) : Z := default DefaultProbeFailureThreshold (pr_FailureThreshold p).
Definition EffectiveRecoveryThreshold (p : Probe) : Z := default DefaultProbeRecoveryThreshold (pr_RecoveryThreshold p).

Definition threshold_errors (vc : ValidationContext) (p : Probe) : ferrors :=
  (match pr_FailureThreshold p with
   | Some n => if (n <? 1)%Z then [(PushField vc "failure_threshold", ThresholdTooSmall)] else []
   | None => []
   end)
  ++ (match pr_RecoveryThreshold p with
      | Some n => if (n <? 1)%Z then [(PushField vc "recovery_threshold", ThresholdTooSmall)] else []
      | None => []
      end).

(** ** What validation guarantees *)

Definition flow_steps (sf : option SetupFlow) : list SetupFlowStep :=
  match sf with
  | None => []
  | Some sf => phase_steps (sf_Preconnect sf) ++ phase_steps (sf_Configure sf)
  end.

(** User-authored ids: present, not reserved and not repeated. *)
Definition user_ids (steps : list SetupFlowStep) : Prop :=
  NoDup (map st_Id steps) ∧ Forall (λ s, st_Id s ≠ "" ∧ HasPrefix (st_Id s) ApxyStepPrefix = false) steps.

(** Ids validated after the ids [seen], which they avoid. *)
Definition fresh_ids (steps : list SetupFlowStep) (seen seen' : gset string) : Prop :=
  user_ids steps ∧ Forall (λ s, st_Id s ∉ seen) steps ∧ seen' = (list_to_set (map st_Id steps) ∪ seen).

Lemma fresh_ids_app l l' seen seen' seen'' :
  fresh_ids l seen seen' → fresh_ids l' seen' seen'' → user_ids (l ++ l').
Proof.
  intros ((Hn & Hf) & Hs & ->) ((Hn' & Hf') & Hs' & ->). split; [|by apply Forall_app].
  rewrite map_app. apply NoDup_app. split; [done|]. split; [|done].
  intros x Hx (s & -> & Hin)%list_elem_of_fmap. rewrite Forall_forall in Hs'.
  specialize (Hs' s Hin). set_solver.
Qed.

Lemma step_validated vc s seen ads seen' :
  SetupFlowStep_validate vc s seen ads = ([], seen') →
  st_Id s ≠ "" ∧ HasPrefix (st_Id s) ApxyStepPrefix = false ∧ st_Id s ∉ seen ∧ seen' = ({[ st_Id s ]} ∪ seen).
Proof.
  unfold SetupFlowStep_validate, validate_step_id. intros H.
  repeat case_decide; try (destruct (HasPrefix _ _)); simplify_eq/=; try done; by destruct H.
Qed.

Lemma validate_steps_fresh vc i steps seen ads seen' :
  validate_steps vc i steps seen ads = ([], seen') → fresh_ids steps seen seen'.
Proof.
  revert i seen. induction steps as [|s steps IH]; intros i seen; cbn [validate_steps].
  - intros [= <-]. unfold fresh_ids, user_ids. cbn. repeat split; try constructor. set_solver.
  - destruct (SetupFlowStep_validate _ s seen ads) as [e seen1] eqn:Hs.
    destruct (validate_steps vc (S i) steps seen1 ads) as [e' seen2] eqn:Hr.
    intros [= [-> ->]%app_nil <-]. apply step_validated in Hs as (? & ? & Hnew & ->).
    destruct (IH _ _ Hr) as ((Hn & Hf) & Hfresh & ->).
    split; [split|split]; [..|cbn; set_solver].
    + cbn. constructor; [|done]. intros (s' & Heq & Hin)%list_elem_of_fmap.
      rewrite Forall_forall in Hfresh. specialize (Hfresh s' Hin). set_solver.
    + by constructor.
    + constructor; [done|]. eapply Forall_impl; [done|]. intros s' ?. set_solver.
Qed.

Lemma validated_ids vc sf : SetupFlow_Validate vc sf = [] → user_ids (flow_steps sf).
Proof.
  destruct sf as [[pre conf]|]; cbn; [|by intros _; repeat constructor].
  assert (∀ vc p seen ads seen', SetupFlowPhase_validate vc p seen ads = ([], seen') →
    fresh_ids (phase_steps p) seen seen') as Hphase.
  { clear. intros vc [steps|] seen ads seen'; cbn.
    - destruct (validate_steps vc 0 steps seen ads) as [e s'] eqn:Hv.
      case_decide; [done|]. intros [= -> ->]. by eapply validate_steps_fresh.
    - intros [= <-]. unfold fresh_ids, user_ids. cbn. repeat split; try constructor. set_solver. }
  destruct (SetupFlowPhase_validate _ pre ∅ false) as [e1 s1] eqn:H1.
  destruct (SetupFlowPhase_validate _ conf s1 true) as [e2 s2] eqn:H2.
  intros [-> ->]%app_nil. eapply fresh_ids_app; eapply Hphase; [exact H1|exact H2].
Qed.

(** Merging changes exactly the fields the schema names. *)
Lemma merge_allowed_spec allowed submitted config k :
  merge_allowed allowed submitted config !! k =
  match submitted !! k with
  | Some v => if decide (k ∈ allowed) then Some v else config !! k
  | None => config !! k
  end.
Proof.
  unfold merge_allowed. rewrite lookup_union, map_lookup_filter.
  destruct (submitted !! k) as [v|]; cbn; [|by destruct (config !! k)].
  unfold guard. repeat case_decide; cbn; by destruct (config !! k).
Qed.
End setup_flow.
