(* ===== verification/Connection.v ===== *)
(** * Connections and their setup

    The lifecycle of a connection: the manifest of setup steps
    ([core/connection_setup_flow.go], [core/iface/manifest_setup_step.go]),
    the dispatcher that moves a connection through it
    ([core/connection_setup_dispatch.go]) and the operations built on it:
    starting, submitting, resuming, retrying, re-authenticating,
    reconfiguring, cancelling and aborting a setup, the transitions after
    authentication and after verification, and disconnecting.

    An operation is a function of the world: the row in the database, the
    copy of it the operation loaded, the auth method's state, the verify tasks
    that were enqueued, the notifications that were resolved, the setup tokens
    in Redis, and a schedule that says which of the calls to the database, the
    queue or the key service fail.  It returns a value or an error and the
    world after it; what was written before an error stays written. *)

From S2P Require Import Prelude GoNumbers GoStrings RateRules SetupFlow.
Open Scope string_scope.
Open Scope list_scope.

(** ** Rows *)

Inductive ConnectionState : Type :=
  | ConnectionStateSetup | ConnectionStateConfigured | ConnectionStateDisabled
  | ConnectionStateDisconnecting | ConnectionStateDisconnected.

#[export] Instance ConnectionState_eq_dec : EqDecision ConnectionState.
Proof. solve_decision. Defined.

Abbreviation HealthState := string.
Definition ConnectionHealthStateHealthy : HealthState := "healthy".
Definition ConnectionHealthStateUnhealthy : HealthState := "unhealthy".
Definition IsValidConnectionHealthState (s : HealthState) : bool :=
  bool_decide (s = ConnectionHealthStateHealthy) || bool_decide (s = ConnectionHealthStateUnhealthy).

(** Setup tokens ([core/setup_token]). *)
Inductive Intent : Type := IntentAdvance | IntentAbort.

#[export] Instance Intent_eq_dec : EqDecision Intent.
Proof. solve_decision. Defined.

Record Claims := mkClaims {
  cl_ConnectionId : string; cl_StepId : string; cl_ActorId : string; cl_Intent : Intent; cl_ReturnToUrl : string; cl_Jti : string }.

(** An event of the probe-outcome log; ids count up. *)
Record ConnectionProbeOutcome := mkOutcome {
  po_Id : nat; po_ProbeId : string; po_Outcome : string; po_ErrorMessage : option string; po_OccurredAt : Z }.

Inductive op_error : Type :=
  | BadRequest | InternalServerError | NotFound | Forbidden
  | Failed              (** an error of a call, passed on as it is *)
  | SkipRetry.

Inductive ManifestStepType : Type := ManifestStepTypeForm | ManifestStepTypeRedirect | ManifestStepTypeVerify.

#[export] Instance ManifestStepType_eq_dec : EqDecision ManifestStepType.
Proof. solve_decision. Defined.

(** The actor of the request and the public base URL of the service. *)
Class Caller := { actor : string; publicBase : string }.

Section connection.
Context {ext : External}.

Record Connection := mkConnection {
  c_Id : string;
  c_State : ConnectionState;
  c_HealthState : HealthState;
  c_SetupStep : option string;
  c_SetupError : option string;
  c_Configuration : option (gmap string json);
  c_Labels : gmap string string;
  c_Annotations : gmap string string
}.

Definition set_State x c := mkConnection (c_Id c) x (c_HealthState c) (c_SetupStep c) (c_SetupError c) (c_Configuration c) (c_Labels c) (c_Annotations c).
Definition set_HealthState x c := mkConnection (c_Id c) (c_State c) x (c_SetupStep c) (c_SetupError c) (c_Configuration c) (c_Labels c) (c_Annotations c).
Definition set_SetupStep x c := mkConnection (c_Id c) (c_State c) (c_HealthState c) x (c_SetupError c) (c_Configuration c) (c_Labels c) (c_Annotations c).
Definition set_SetupError x c := mkConnection (c_Id c) (c_State c) (c_HealthState c) (c_SetupStep c) x (c_Configuration c) (c_Labels c) (c_Annotations c).
Definition set_Configuration x c := mkConnection (c_Id c) (c_State c) (c_HealthState c) (c_SetupStep c) (c_SetupError c) x (c_Labels c) (c_Annotations c).

(** ** The world *)

Record world := mkWorld {
  w_db : option Connection;              (** the row; [None] when it is deleted *)
  w_mem : Connection;                    (** the copy the operation works on *)
  w_auth : auth_state;
  w_verify_tasks : nat;                  (** enqueued so far *)
  w_disconnects : nat;                   (** disconnect workflows started so far *)
  w_outcomes : list ConnectionProbeOutcome;   (** the probe outcomes, latest insert first *)
  w_resolved : list string;              (** notification keys that were resolved *)
  w_tokens : gmap string (Claims * Z);   (** setup tokens and when they expire (ms) *)
  w_minted : nat;                        (** how many ids were generated *)
  w_now : Z;
  w_faults : list bool                   (** whether the next calls fail *)
}.

Definition with_db x w := mkWorld x (w_mem w) (w_auth w) (w_verify_tasks w) (w_disconnects w) (w_outcomes w) (w_resolved w) (w_tokens w) (w_minted w) (w_now w) (w_faults w).
Definition with_mem x w := mkWorld (w_db w) x (w_auth w) (w_verify_tasks w) (w_disconnects w) (w_outcomes w) (w_resolved w) (w_tokens w) (w_minted w) (w_now w) (w_faults w).
Definition with_auth x w := mkWorld (w_db w) (w_mem w) x (w_verify_tasks w) (w_disconnects w) (w_outcomes w) (w_resolved w) (w_tokens w) (w_minted w) (w_now w) (w_faults w).
Definition with_verify_tasks x w := mkWorld (w_db w) (w_mem w) (w_auth w) x (w_disconnects w) (w_outcomes w) (w_resolved w) (w_tokens w) (w_minted w) (w_now w) (w_faults w).
Definition with_disconnects x w := mkWorld (w_db w) (w_mem w) (w_auth w) (w_verify_tasks w) x (w_outcomes w) (w_resolved w) (w_tokens w) (w_minted w) (w_now w) (w_faults w).
Definition with_outcomes x w := mkWorld (w_db w) (w_mem w) (w_auth w) (w_verify_tasks w) (w_disconnects w) x (w_resolved w) (w_tokens w) (w_minted w) (w_now w) (w_faults w).
Definition with_resolved x w := mkWorld (w_db w) (w_mem w) (w_auth w) (w_verify_tasks w) (w_disconnects w) (w_outcomes w) x (w_tokens w) (w_minted w) (w_now w) (w_faults w).
Definition with_tokens x w := mkWorld (w_db w) (w_mem w) (w_auth w) (w_verify_tasks w) (w_disconnects w) (w_outcomes w) (w_resolved w) x (w_minted w) (w_now w) (w_faults w).
Definition with_minted x w := mkWorld (w_db w) (w_mem w) (w_auth w) (w_verify_tasks w) (w_disconnects w) (w_outcomes w) (w_resolved w) (w_tokens w) x (w_now w) (w_faults w).
Definition with_now x w := mkWorld (w_db w) (w_mem w) (w_auth w) (w_verify_tasks w) (w_disconnects w) (w_outcomes w) (w_resolved w) (w_tokens w) (w_minted w) x (w_faults w).
Definition with_faults x w := mkWorld (w_db w) (w_mem w) (w_auth w) (w_verify_tasks w) (w_disconnects w) (w_outcomes w) (w_resolved w) (w_tokens w) (w_minted w) (w_now w) x.

Definition op (A : Type) : Type := world → result op_error A * world.

#[global] Instance op_ret : MRet op := λ A a w, (Ok a, w).
#[global] Instance op_bind : MBind op := λ A B f m w,
  match m w with (Err e, w') => (Err e, w') | (Ok a, w') => f a w' end.

(** A computation given by its effect on the world. *)
Definition primitive {A} (f : world → result op_error A * world) : op A := f.

Definition throw {A} (e : op_error) : op A := λ w, (Err e, w).

(** [if err != nil { return ..., e }]: every error becomes [e]. *)
Definition or_else {A} (e : op_error) (m : op A) : op A := λ w,
  match m w with (Err _, w') => (Err e, w') | r => r end.

(** The error, if any, is dropped (logged). *)
Definition ignore {A} (m : op A) : op unit := λ w, (Ok tt, (m w).2).

Definition mem : op Connection := λ w, (Ok (w_mem w), w).

(** A call that fails when the schedule says so. *)
Definition call_out : op unit := λ w,
  match w_faults w with
  | [] => (Ok tt, w)
  | b :: fs => (if b then Err Failed else Ok tt, with_faults fs w)
  end.

(** ** The row

    [UPDATE connections SET ... WHERE id = ... AND deleted_at IS NULL]: not
    found when no live row has the id. *)
Definition db_update (f : Connection → Connection) : op unit :=
  _ ← call_out;
  primitive (λ w, match w_db w with
       | None => (Err NotFound, w)
       | Some c => (Ok tt, with_db (Some (f c)) w)
       end).

(** The setters of the database.  The id of a connection is not empty, and the
    states the code passes are the ones of the type. *)
Definition SetConnectionState (s : ConnectionState) : op unit := db_update (set_State s).
Definition SetConnectionHealthState (s : HealthState) : op unit :=
  if IsValidConnectionHealthState s then db_update (set_HealthState s) else throw Failed.
Definition SetConnectionSetupStep (s : option string) : op unit := db_update (set_SetupStep s).
Definition SetConnectionSetupError (e : option string) : op unit := db_update (set_SetupError e).
Definition SetConnectionEncryptedConfiguration (cfg : option (gmap string json)) : op unit := db_update (set_Configuration cfg).

(** The setters of [connection] write the row and then the copy. *)
Definition in_memory (f : Connection → Connection) : op unit := primitive (λ w, (Ok tt, with_mem (f (w_mem w)) w)).
Definition update (f : Connection → Connection) : op unit := _ ← db_update f; in_memory f.

Definition SetState (s : ConnectionState) : op unit := _ ← SetConnectionState s; in_memory (set_State s).
Definition SetSetupStep (s : option string) : op unit := _ ← SetConnectionSetupStep s; in_memory (set_SetupStep s).
Definition SetSetupError (e : option string) : op unit := _ ← SetConnectionSetupError e; in_memory (set_SetupError e).
(** Marshalling and encrypting may fail before the write. *)
Definition SetConfiguration (cfg : gmap string json) : op unit :=
  _ ← call_out; _ ← SetConnectionEncryptedConfiguration (Some cfg); in_memory (set_Configuration (Some cfg)).

(** The decrypted configuration; the copy kept after the first read is not
    modelled, so that a read may fail each time. *)
Definition GetConfiguration : op (option (gmap string json)) :=
  c ← mem;
  match c_Configuration c with
  | None => mret None
  | Some cfg => _ ← call_out; mret (Some cfg)
  end.

Definition GetHealthState (c : Connection) : HealthState :=
  if decide (c_HealthState c = "") then ConnectionHealthStateHealthy else c_HealthState c.

Definition MarkHealthState (s : HealthState) : op unit :=
  if IsValidConnectionHealthState s then
    c ← mem;
    if decide (GetHealthState c = s) then mret tt
    else or_else Failed (_ ← SetConnectionHealthState s; in_memory (set_HealthState s))
  else throw Failed.

(** [getConnection]: the row, then its connector version. *)
Definition getConnection : op unit :=
  _ ← call_out;
  primitive (λ w, match w_db w with
       | None => (Err NotFound, w)
       | Some c => (_ ← call_out; mret tt) (with_mem c w)
       end).

(** The soft delete does not look at [deleted_at]: it succeeds again on a
    deleted row. *)
Definition DeleteConnection : op unit := _ ← call_out; primitive (λ w, (Ok tt, with_db None w)).

Definition EnqueueVerifyConnection : op unit :=
  _ ← call_out; primitive (λ w, (Ok tt, with_verify_tasks (S (w_verify_tasks w)) w)).

Definition NotificationKeySetupRequired : string := "setup_required".
Definition NotificationKeyAuthRequired : string := "auth_required".

Definition resolveRequiredActionNotifications (key : string) : op unit :=
  _ ← call_out; primitive (λ w, (Ok tt, with_resolved (w_resolved w ++ [key]) w)).

(** ** Setup tokens *)

Definition setupTokenTTL : Z := 15 * 60 * 1000.

(** [setup_token.Mint]; the claims are stored encrypted, which is not
    modelled. *)
Definition Mint (connectionId stepId actorId : string) (intent : Intent) (returnToUrl : string) : op string :=
  if decide (connectionId = "" ∨ stepId = "" ∨ actorId = "") then throw Failed
  else
    _ ← call_out;
    primitive (λ w,
         let jti := new_setup_token (w_minted w) in
         (Ok jti, with_minted (S (w_minted w)) (with_tokens (<[jti := (mkClaims connectionId stepId actorId intent returnToUrl jti, (w_now w + setupTokenTTL)%Z)]> (w_tokens w)) w))).

(** [GETDEL] on the token's key. *)
Definition VerifyAndConsume (token : string) : op Claims :=
  if decide (token = "") then throw NotFound
  else
    _ ← call_out;
    primitive (λ w, match w_tokens w !! token with
         | Some (claims, expires) =>
             let w' := with_tokens (delete token (w_tokens w)) w in
             if (w_now w <? expires)%Z then (Ok claims, w') else (Err NotFound, w')
         | None => (Err NotFound, w)
         end).

(** ** Manifest steps *)

(** [ra.MustGetActor().GetId()] is an argument of the operations that render
    a redirect. *)
Record ManifestSetupStep := mkManifestStep {
  ms_Id : string;
  ms_Title : string;
  ms_Description : string;
  ms_Type : ManifestStepType;
  ms_JsonSchema : option raw;
  ms_UiSchema : option raw;
  ms_OnSubmit : raw → op unit;
  ms_RenderRedirect : string → op string;      (** the argument is [ReturnToUrl] *)
  ms_IsEligible : op bool
}.

Definition NewFormStep (id title description : string) (jsonSchema uiSchema : option raw)
    (onSubmit : raw → op unit) (isEligible : option (op bool)) : ManifestSetupStep :=
  mkManifestStep id title description ManifestStepTypeForm jsonSchema uiSchema onSubmit (λ _, throw Failed)
    (default (mret true) isEligible).

Definition NewRedirectStep (id title description : string) (render : string → op string)
    (isEligible : option (op bool)) : ManifestSetupStep :=
  mkManifestStep id title description ManifestStepTypeRedirect None None (λ _, throw Failed) render
    (default (mret true) isEligible).

Definition NewVerifyStep : ManifestSetupStep :=
  mkManifestStep SetupStepVerify "Verifying connection" "" ManifestStepTypeVerify None None
    (λ _, throw Failed) (λ _, throw Failed) (mret true).

(** ** Connectors *)

(** What an auth method contributes: credential steps, and the revocation of
    credentials if it supports it.  Submitting or rendering works on the auth
    method's own state. *)
Inductive auth_step : Type :=
  | AuthForm (id title description : string) (schema ui : option raw) (submit : raw → auth_state → result op_error unit * auth_state)
  | AuthRedirect (id title description : string) (render : string → auth_state → option string * auth_state).

Record AuthMethod := mkAuthMethod {
  am_steps : list auth_step;
  am_revoke : option (auth_state → bool * auth_state)   (** [Revoke], when [SupportsRevoke] *)
}.

(** [cn_Auth]: [None] when the connector has no auth block, [Some None] when
    no factory is registered for its type. *)
Record Connector := mkConnector {
  cn_SetupFlow : option SetupFlow;
  cn_Auth : option (option AuthMethod);
  cn_Probes : list Probe
}.

Definition HasProbes (c : Connector) : bool := bool_decide (0 < length (cn_Probes c))%nat.

Definition getAuthMethodFactory (c : Connector) : option AuthMethod := c.(cn_Auth) ≫= id.

(** Running a computation of the auth method. *)
Definition in_auth {A} (f : auth_state → result op_error A * auth_state) : op A := λ w,
  let '(r, a) := f (w_auth w) in (r, with_auth a w).

Definition ManifestSetupSteps (m : AuthMethod) : list ManifestSetupStep :=
  map (λ st, match st with
             | AuthForm id t d j u submit => NewFormStep id t d j u (λ data, in_auth (submit data)) None
             | AuthRedirect id t d render =>
                 NewRedirectStep id t d
                   (λ rt, in_auth (λ a, let '(o, a') := render rt a in
                                        (match o with Some url => Ok url | None => Err Failed end, a'))) None
             end) (am_steps m).

(** *** The auth methods *)

Definition SynthesizedApiKeyCredentialsStepId : string := "_authproxy_api_key_credentials".
Definition OAuth2AuthorizeStepId : string := "apxy:auth:oauth2_authorize".
Definition OAuth2ClientCredentialsStepId : string := "apxy:auth:oauth2_client_credentials".

(** A synthesized credential form: the data is validated against its schema
    and handed to the auth method. *)
Definition credential_form (spec : SetupFlowStep) (persist : gmap string json → auth_state → result op_error unit * auth_state) :
    auth_step :=
  AuthForm (st_Id spec) (st_Title spec) (st_Description spec) (st_JsonSchema spec) (st_UiSchema spec)
    (λ data a, match ValidateAndMergeData spec (st_Id spec) data None with
               | None => (Err BadRequest, a)
               | Some credData => persist credData a
               end).

(** The schemas are synthesized from the placement, [None] when it is missing. *)
Definition api_key_ManifestSetupSteps (schemas : option (raw * raw))
    (PersistCredentials : gmap string json → auth_state → result op_error unit * auth_state) : list auth_step :=
  match schemas with
  | None => []
  | Some (js, ui) =>
      [credential_form (mkStep SynthesizedApiKeyCredentialsStepId "" "Enter your API key"
         "Provide the API key used to authenticate with this service." (Some js) (Some ui) [] None None) PersistCredentials]
  end.

(** [client_credentials] collects a form and exchanges it for a token;
    [authorization_code] redirects, which needs a return URL. *)
Definition oauth2_client_credentials_steps (js ui : raw)
    (PersistClientCredentials : gmap string json → auth_state → result op_error unit * auth_state)
    (ExchangeClientCredentials : auth_state → result op_error unit * auth_state) : list auth_step :=
  [credential_form (mkStep OAuth2ClientCredentialsStepId "" "Enter OAuth client credentials"
     "Provide the client credentials used to authenticate with this service." (Some js) (Some ui) [] None None)
     (λ credData a, match PersistClientCredentials credData a with
                    | (Ok _, a') => ExchangeClientCredentials a'
                    | r => r
                    end)].

Definition oauth2_authorization_code_steps
    (SetStateAndGeneratePublicUrl : string → auth_state → option string * auth_state) : list auth_step :=
  [AuthRedirect OAuth2AuthorizeStepId "Authorize" "Sign in to authorize this connection."
     (λ returnToUrl a, if decide (returnToUrl = "") then (None, a) else SetStateAndGeneratePublicUrl returnToUrl a)].

Definition no_auth_ManifestSetupSteps : list auth_step := [].

(** ** Predicates over the connection *)

(** [GetJavascriptContext] and [Predicate.GetValue]. *)
Definition eval_predicate (js : string) : op bool :=
  cfg ← GetConfiguration;
  c ← mem;
  match js_boolean js (default ∅ cfg) (c_Labels c) (c_Annotations c) with
  | Some b => mret b
  | None => throw Failed
  end.

Definition newSchemaStepEligibility (spec : SetupFlowStep) : option (op bool) :=
  eval_predicate <$> st_If spec.

Definition isProbeEnabled (p : Probe) : op bool :=
  match pr_If p with None => mret true | Some js => eval_predicate js end.

Fixpoint enabled_probes (ps : list Probe) : op (list Probe) :=
  match ps with
  | [] => mret []
  | p :: ps =>
      enabled ← isProbeEnabled p;
      rest ← enabled_probes ps;
      mret (if enabled : bool then p :: rest else rest)
  end.

Definition GetEnabledProbes (c : Connector) : op (list Probe) := enabled_probes (cn_Probes c).

Definition cHasEnabledProbes (c : Connector) : op bool :=
  probes ← GetEnabledProbes c; mret (bool_decide (0 < length probes)%nat).

(** ** Schema steps *)

Definition newSchemaFormStep (spec : SetupFlowStep) : ManifestSetupStep :=
  NewFormStep (st_Id spec) (st_Title spec) (st_Description spec) (st_JsonSchema spec) (st_UiSchema spec)
    (λ data,
      existing ← or_else InternalServerError GetConfiguration;
      match ValidateAndMergeData spec (st_Id spec) data existing with
      | None => throw BadRequest
      | Some merged => or_else InternalServerError (SetConfiguration merged)
      end)
    (newSchemaStepEligibility spec).

Section caller.
Context {caller : Caller}.

Definition return_url (connectionId : string) (intent : Intent) (tok : string) : string :=
  TrimRight publicBase "/" +:+ "/setup/connections/" +:+ connectionId +:+ "/"
  +:+ (match intent with IntentAdvance => "advance" | IntentAbort => "abort" end) +:+ "?token=" +:+ tok.

Definition mintReturnURL (connectionId stepId returnToUrl : string) (intent : Intent) : op string :=
  tok ← Mint connectionId stepId actor intent returnToUrl;
  mret (return_url connectionId intent tok).

Definition newSchemaRedirectStep (spec : SetupFlowStep) : ManifestSetupStep :=
  NewRedirectStep (st_Id spec) (st_Title spec) (st_Description spec)
    (λ returnToUrl,
      match st_Redirect spec with
      | None => throw Failed
      | Some url =>
          if decide (url = "") then throw Failed
          else
            cfg ← GetConfiguration;
            c ← mem;
            match mustache_Render url cfg (c_Labels c) (c_Annotations c) with
            | None => throw Failed
            | Some rendered =>
                advanceURL ← mintReturnURL (c_Id c) (st_Id spec) returnToUrl IntentAdvance;
                abortURL ← mintReturnURL (c_Id c) (st_Id spec) returnToUrl IntentAbort;
                mret (ReplaceAll (ReplaceAll rendered "{{RETURN_ADVANCE}}" advanceURL) "{{RETURN_ABORT}}" abortURL)
            end
      end)
    (newSchemaStepEligibility spec).

Definition newSchemaStep (spec : SetupFlowStep) : ManifestSetupStep :=
  if decide (Normalized (st_Type spec) = SetupFlowStepTypeRedirect) then newSchemaRedirectStep spec
  else newSchemaFormStep spec.

(** ** The manifest *)

Record manifestFlow := mkManifestFlow {
  mf_steps : list ManifestSetupStep;
  mf_hasProbes : bool;
  mf_hasEnabledProbes : op bool;
  mf_authBoundary : Z
}.

Definition phase_manifest (p : option (list SetupFlowStep)) : list ManifestSetupStep :=
  map newSchemaStep (phase_steps p).

Definition preconnect_steps (c : Connector) : list ManifestSetupStep :=
  if HasPreconnect (cn_SetupFlow c) then phase_manifest (cn_SetupFlow c ≫= sf_Preconnect) else [].

Definition auth_manifest (c : Connector) : list ManifestSetupStep :=
  match getAuthMethodFactory c with Some m => ManifestSetupSteps m | None => [] end.

Definition configure_steps (c : Connector) : list ManifestSetupStep :=
  if HasConfigure (cn_SetupFlow c) then phase_manifest (cn_SetupFlow c ≫= sf_Configure) else [].

(** [None]: the connection has no connector or no definition; the flow is
    empty and [hasEnabledProbes] nil. *)
Definition buildManifestSetupFlow (connector : option Connector) : manifestFlow :=
  match connector with
  | None => mkManifestFlow [] false (mret true) 0
  | Some c =>
      let credential := preconnect_steps c ++ auth_manifest c in
      mkManifestFlow (credential ++ configure_steps c) (HasProbes c) (cHasEnabledProbes c)
        (Z.of_nat (length credential) - 1)
  end.

Definition isStepEligible (f : manifestFlow) (idx : Z) : op bool :=
  if decide (idx < 0 ∨ Z.of_nat (length (mf_steps f)) ≤ idx)%Z then mret false
  else match mf_steps f !! Z.to_nat idx with Some st => ms_IsEligible st | None => mret false end.

(** The loop over [start .. end] of [nextEligibleStep], at position [i] with
    the steps that are left. *)
Fixpoint first_eligible (steps : list ManifestSetupStep) : op (option ManifestSetupStep) :=
  match steps with
  | [] => mret None
  | st :: steps => eligible ← ms_IsEligible st; if eligible : bool then mret (Some st) else first_eligible steps
  end.

Definition nextEligibleStep (f : manifestFlow) (start stop : Z) : op (option ManifestSetupStep) :=
  let len := Z.of_nat (length (mf_steps f)) in
  let start := if (start <? 0)%Z then 0%Z else start in
  let stop := if (len <=? stop)%Z then (len - 1)%Z else stop in
  if (stop <? start)%Z then mret None
  else first_eligible (take (Z.to_nat (stop - start + 1)) (drop (Z.to_nat start) (mf_steps f))).

Definition verifyEnabled (f : manifestFlow) : op bool :=
  if mf_hasProbes f then mf_hasEnabledProbes f else mret false.

Fixpoint eligible_steps (steps : list ManifestSetupStep) : op (list ManifestSetupStep) :=
  match steps with
  | [] => mret []
  | st :: steps =>
      eligible ← ms_IsEligible st;
      rest ← eligible_steps steps;
      mret (if eligible : bool then st :: rest else rest)
  end.

Definition Steps (f : manifestFlow) : op (list ManifestSetupStep) := eligible_steps (mf_steps f).

(** The position of the first step with the id. *)
Fixpoint step_index (steps : list ManifestSetupStep) (id : string) : option nat :=
  match steps with
  | [] => None
  | st :: steps => if decide (ms_Id st = id) then Some 0%nat else S <$> step_index steps id
  end.

(** The step and whether it is eligible; [None] when the id is unknown or the
    verify step is disabled. *)
Definition StepById (f : manifestFlow) (id : string) : op (option ManifestSetupStep) :=
  if decide (id = "") then mret None
  else if bool_decide (id = SetupStepVerify) && mf_hasProbes f then
    ok ← verifyEnabled f;
    mret (if ok : bool then Some NewVerifyStep else None)
  else
    match step_index (mf_steps f) id with
    | None => mret None
    | Some i =>
        eligible ← isStepEligible f (Z.of_nat i);
        mret (if eligible : bool then mf_steps f !! i else None)
    end.

Definition ContainsStep (f : manifestFlow) (id : string) : bool :=
  if decide (id = "") then false
  else if bool_decide (id = SetupStepVerify) && mf_hasProbes f then true
  else bool_decide (is_Some (step_index (mf_steps f) id)).

Definition last_index (f : manifestFlow) : Z := (Z.of_nat (length (mf_steps f)) - 1)%Z.

Definition FirstStep (f : manifestFlow) : op (option ManifestSetupStep) :=
  if mf_hasProbes f && bool_decide (0 ≤ mf_authBoundary f)%Z then
    step ← nextEligibleStep f 0 (mf_authBoundary f);
    match step with
    | Some st => mret (Some st)
    | None =>
        verify ← verifyEnabled f;
        if verify : bool then mret (Some NewVerifyStep) else nextEligibleStep f 0 (last_index f)
    end
  else nextEligibleStep f 0 (last_index f).

Definition NextStep (f : manifestFlow) (currentId : string) : op (option ManifestSetupStep) :=
  if decide (currentId = SetupStepVerify) then nextEligibleStep f (mf_authBoundary f + 1) (last_index f)
  else
    match step_index (mf_steps f) currentId with
    | None => mret None
    | Some i =>
        if mf_hasProbes f && bool_decide (Z.of_nat i ≤ mf_authBoundary f)%Z then
          next ← nextEligibleStep f (Z.of_nat i + 1) (mf_authBoundary f);
          match next with
          | Some st => mret (Some st)
          | None =>
              verify ← verifyEnabled f;
              if verify : bool then mret (Some NewVerifyStep)
              else nextEligibleStep f (mf_authBoundary f + 1) (last_index f)
          end
        else nextEligibleStep f (Z.of_nat i + 1) (last_index f)
    end.

(** ** The dispatcher *)

Inductive ConnectionSetupResponse : Type :=
  | ConnectionSetupForm (stepId title description : string) (jsonSchema uiSchema : option raw)
  | ConnectionSetupRedirect (url : string)
  | ConnectionSetupVerifying
  | ConnectionSetupComplete
  | ConnectionSetupError (error : string).

Definition completeFlow : op ConnectionSetupResponse :=
  c ← mem;
  _ ← (match c_SetupStep c with
       | Some _ => or_else InternalServerError (SetSetupStep None)
       | None => mret tt
       end);
  _ ← (if decide (c_State c = ConnectionStateConfigured) then mret tt
       else or_else InternalServerError (SetState ConnectionStateConfigured));
  _ ← or_else InternalServerError (resolveRequiredActionNotifications NotificationKeySetupRequired);
  mret ConnectionSetupComplete.

Definition renderStepResponse (step : ManifestSetupStep) (returnToUrl : string) : op ConnectionSetupResponse :=
  match ms_Type step with
  | ManifestStepTypeForm =>
      mret (ConnectionSetupForm (ms_Id step) (ms_Title step) (ms_Description step) (ms_JsonSchema step) (ms_UiSchema step))
  | ManifestStepTypeRedirect =>
      if decide (returnToUrl = "") then mret (ConnectionSetupRedirect "")
      else url ← or_else InternalServerError (ms_RenderRedirect step returnToUrl); mret (ConnectionSetupRedirect url)
  | ManifestStepTypeVerify => mret ConnectionSetupVerifying
  end.

(** [next] is not nil; the nil case is [completeFlow].  [MustNewSetupStep]
    panics on an empty id, which validation excludes. *)
Definition advanceToStep (next : option ManifestSetupStep) (returnToUrl : string) : op ConnectionSetupResponse :=
  match next with
  | None => completeFlow
  | Some next =>
      url ← (if decide (ms_Type next = ManifestStepTypeRedirect) then or_else BadRequest (ms_RenderRedirect next returnToUrl)
             else mret "");
      _ ← or_else InternalServerError (SetSetupStep (Some (ms_Id next)));
      _ ← (if decide (ms_Type next = ManifestStepTypeVerify) then or_else InternalServerError EnqueueVerifyConnection
           else mret tt);
      if decide (ms_Type next = ManifestStepTypeRedirect) then mret (ConnectionSetupRedirect url)
      else renderStepResponse next returnToUrl
  end.

Definition renderResumeResponse (flow : manifestFlow) (setupStep returnToUrl : string) : op ConnectionSetupResponse :=
  if IsTerminalFailure setupStep then
    c ← mem; mret (ConnectionSetupError (default "" (c_SetupError c)))
  else
    step ← or_else InternalServerError (StepById flow setupStep);
    match step with
    | Some step => renderStepResponse step returnToUrl
    | None =>
        if ContainsStep flow setupStep then
          next ← or_else InternalServerError (NextStep flow setupStep);
          advanceToStep next returnToUrl
        else throw InternalServerError
    end.

Definition ensureStepMatches (setupStep : option string) (reqStepId : string) : op unit :=
  match setupStep with
  | None => throw BadRequest
  | Some s => if decide (reqStepId = "") then throw BadRequest
              else if decide (reqStepId ≠ s) then throw BadRequest else mret tt
  end.

Definition isAuthMethodSetupStep (connector : option Connector) (stepID : string) : bool :=
  match connector ≫= cn_SetupFlow with
  | None => true
  | Some sf => match FindStepById (Some sf) stepID with Some _ => false | None => true end
  end.

Definition resolveAuthRequiredIfCredentialsEstablished (connector : option Connector)
    (current : ManifestSetupStep) (next : option ManifestSetupStep) : op unit :=
  if negb (isAuthMethodSetupStep connector (ms_Id current)) then mret tt
  else match next with
       | Some next =>
           if decide (ms_Type next = ManifestStepTypeVerify) then mret tt
           else or_else InternalServerError (resolveRequiredActionNotifications NotificationKeyAuthRequired)
       | None => or_else InternalServerError (resolveRequiredActionNotifications NotificationKeyAuthRequired)
       end.

(** ** Operations *)

Section operations.
Context (connector : option Connector).

Definition flow : manifestFlow := buildManifestSetupFlow connector.

(** [CreateConnection] and the part of [InitiateConnection] after it; the
    namespace and permission checks before it are those of the files Namespace
    and PermissionValidator.  The row gets the health state and the labels the
    database materializes, the copy the setup goes on with has neither. *)
Definition CreateConnection (id : string) (labels : gmap string string) : op unit :=
  _ ← or_else InternalServerError call_out;
  primitive (λ w, (Ok tt, with_mem (mkConnection id ConnectionStateSetup "" None None None ∅ ∅)
    (with_db (Some (mkConnection id ConnectionStateSetup ConnectionHealthStateHealthy None None None labels ∅)) w))).

Definition startSetup (id returnToUrl : string) (labels : gmap string string) : op ConnectionSetupResponse :=
  _ ← CreateConnection id labels;
  first ← or_else InternalServerError (FirstStep flow);
  advanceToStep first returnToUrl.

(** Methods of [connection] run after [getConnection]. *)
Definition on_connection {A} (m : op A) : op A := _ ← getConnection; m.

Definition SubmitForm (stepId : string) (data : raw) (returnToUrl : string) : op ConnectionSetupResponse :=
  c ← mem;
  _ ← ensureStepMatches (c_SetupStep c) stepId;
  current ← or_else InternalServerError (StepById flow (default "" (c_SetupStep c)));
  match current with
  | None => throw InternalServerError
  | Some current =>
      if decide (ms_Type current ≠ ManifestStepTypeForm) then throw BadRequest
      else
        _ ← ms_OnSubmit current data;
        next ← or_else InternalServerError (NextStep flow (ms_Id current));
        match next with
        | None =>
            resp ← completeFlow;
            _ ← resolveAuthRequiredIfCredentialsEstablished connector current None;
            mret resp
        | Some next =>
            _ ← resolveAuthRequiredIfCredentialsEstablished connector current (Some next);
            advanceToStep (Some next) returnToUrl
        end
  end.

Definition GetCurrentSetupStepResponse (returnToUrl : string) : op ConnectionSetupResponse :=
  c ← mem;
  match c_SetupStep c with
  | None => mret ConnectionSetupComplete
  | Some setupStep => renderResumeResponse flow setupStep returnToUrl
  end.

Definition RetryConnectionSetup (returnToUrl : string) : op ConnectionSetupResponse :=
  _ ← getConnection;
  c ← mem;
  match c_SetupStep c with
  | Some s =>
      if IsTerminalFailure s then
        _ ← or_else InternalServerError (SetSetupError None);
        first ← or_else InternalServerError (FirstStep flow);
        match first with
        | None => throw BadRequest
        | Some _ => advanceToStep first returnToUrl
        end
      else throw BadRequest
  | None => throw BadRequest
  end.

Definition ReauthConnection (returnToUrl : string) : op ConnectionSetupResponse :=
  _ ← getConnection;
  c ← mem;
  if decide (c_State c ≠ ConnectionStateConfigured) then throw BadRequest
  else match connector ≫= cn_Auth with
       | None => throw InternalServerError
       | Some factory =>
           match factory with
           | Some m =>
               if decide (length (ManifestSetupSteps m) = 0) then throw BadRequest
               else
                 _ ← or_else InternalServerError (SetSetupError None);
                 first ← or_else InternalServerError (FirstStep flow);
                 match first with
                 | None => throw BadRequest
                 | Some _ => advanceToStep first returnToUrl
                 end
           | None => throw BadRequest
           end
       end.

(** The first configure step that is eligible. *)
Fixpoint first_configure (ids : list string) : op (option ManifestSetupStep) :=
  match ids with
  | [] => mret None
  | id :: ids =>
      candidate ← or_else InternalServerError (StepById flow id);
      match candidate with Some st => mret (Some st) | None => first_configure ids end
  end.

Definition configure_ids : list string :=
  match connector ≫= cn_SetupFlow with
  | Some sf => map st_Id (phase_steps (sf_Configure sf))
  | None => []
  end.

Definition Reconfigure : op ConnectionSetupResponse :=
  c ← mem;
  if decide (c_State c ≠ ConnectionStateConfigured) then throw BadRequest
  else if negb (HasConfigure (connector ≫= cn_SetupFlow)) then throw BadRequest
  else
    step ← first_configure configure_ids;
    advanceToStep step "".

Definition CancelSetup : op unit :=
  c ← mem;
  if decide (c_State c ≠ ConnectionStateConfigured) then throw BadRequest
  else
    _ ← (match c_SetupStep c with
         | Some _ => or_else InternalServerError (SetSetupStep None)
         | None => mret tt
         end);
    match c_SetupError c with
    | Some _ => or_else InternalServerError (SetSetupError None)
    | None => mret tt
    end.

(** [getRevokeCredentialsOperations]: at most the auth method's [Revoke]. *)
Definition revoke_credentials : op unit :=
  match (connector ≫= getAuthMethodFactory) ≫= am_revoke with
  | None => mret tt
  | Some revoke => in_auth (λ a, let '(ok, a') := revoke a in (if ok : bool then Ok tt else Err Failed, a'))
  end.

Definition AbortConnection : op unit :=
  _ ← getConnection;
  c ← mem;
  match c_SetupStep c with
  | None => throw BadRequest
  | Some _ =>
      _ ← ignore revoke_credentials;
      _ ← or_else Failed (SetState ConnectionStateDisconnected);
      or_else Failed DeleteConnection
  end.

(** The result says whether setup is still pending. *)
Definition HandleCredentialsEstablished : op bool :=
  c ← mem;
  match c_SetupStep c with
  | None => throw Failed
  | Some current =>
      _ ← or_else Failed (MarkHealthState ConnectionHealthStateHealthy);
      next ← or_else Failed (NextStep flow current);
      match next with
      | None =>
          _ ← completeFlow;
          _ ← or_else Failed (resolveRequiredActionNotifications NotificationKeyAuthRequired);
          mret false
      | Some next =>
          _ ← or_else Failed (SetSetupStep (Some (ms_Id next)));
          _ ← (if decide (ms_Type next = ManifestStepTypeVerify) then or_else Failed EnqueueVerifyConnection
               else or_else Failed (resolveRequiredActionNotifications NotificationKeyAuthRequired));
          mret true
      end
  end.

Definition HandleAuthFailed (msg : string) : op unit :=
  _ ← or_else Failed (SetSetupError (Some msg));
  or_else Failed (SetSetupStep (Some SetupStepAuthFailed)).

(** The OAuth2 callback after the state was read: [exchange] is the token
    exchange, which stores the tokens or fails. *)
Definition CallbackFrom3rdParty (exchange : auth_state → result string unit * auth_state) : op bool :=
  r ← primitive (λ w, let '(r, a) := exchange (w_auth w) in (Ok r, with_auth a w));
  match r with
  | Err msg => _ ← HandleAuthFailed msg; mret true
  | Ok _ =>
      primitive (λ w, match HandleCredentialsEstablished w with
                      | (Ok pending, w') => (Ok pending, w')
                      | (Err _, w') => (_ ← HandleAuthFailed "failed to handle post-auth state transition"; mret true) w'
                      end)
  end.

(** ** Verification *)

Definition onVerifyPassed : op unit :=
  _ ← or_else Failed (MarkHealthState ConnectionHealthStateHealthy);
  _ ← or_else Failed (resolveRequiredActionNotifications NotificationKeyAuthRequired);
  next ← or_else Failed (NextStep flow SetupStepVerify);
  match next with
  | None => _ ← completeFlow; mret tt
  | Some next => or_else Failed (SetSetupStep (Some (ms_Id next)))
  end.

(** The verb [%q] on an id without characters that need escaping. *)
Definition quoted (s : string) : string := String (byte 34) (s +:+ String (byte 34) "").

Definition onVerifyFailed (probeId invokeErr : string) : op unit :=
  _ ← ignore revoke_credentials;
  _ ← SetSetupError (Some ("probe " +:+ quoted probeId +:+ " failed: " +:+ invokeErr));
  SetSetupStep (Some SetupStepVerifyFailed).

(** [invoke] is the outcome of each probe: an error message, or success.
    The first probe that fails ends the loop. *)
Fixpoint run_probes (invoke : string → option string) (probes : list Probe) : op unit :=
  match probes with
  | [] => onVerifyPassed
  | p :: probes =>
      match invoke (pr_Id p) with
      | None => run_probes invoke probes
      | Some err => _ ← or_else Failed (onVerifyFailed (pr_Id p) err); throw SkipRetry
      end
  end.

Definition runVerifyConnection (invoke : string → option string) : op unit :=
  _ ← primitive (λ w, match getConnection w with
                      | (Err NotFound, w') => (Err SkipRetry, w')
                      | (Err _, w') => (Err Failed, w')
                      | r => r
                      end);
  c ← mem;
  if decide (c_SetupStep c = Some SetupStepVerify) then
    match connector with
    | None => throw Failed
    | Some cn => probes ← or_else Failed (GetEnabledProbes cn); run_probes invoke probes
    end
  else mret tt.

(** ** Disconnecting *)

Definition startDisconnectConnectionWorkflow : op unit :=
  _ ← call_out; primitive (λ w, (Ok tt, with_disconnects (S (w_disconnects w)) w)).

Definition DisconnectConnection : op unit :=
  _ ← SetConnectionState ConnectionStateDisconnecting; startDisconnectConnectionWorkflow.

(** The activities of the disconnect workflow. *)
Definition finalizeDisconnectConnectionV1 : op unit :=
  _ ← or_else Failed getConnection;
  _ ← SetState ConnectionStateDisconnected;
  DeleteConnection.

Definition forceDisconnectConnectionV1 : op unit :=
  _ ← primitive (λ w, match SetConnectionState ConnectionStateDisconnected w with
                      | (Err NotFound, w') => (Ok tt, w')
                      | r => r
                      end);
  DeleteConnection.

(** ** Setup tokens at the public endpoints *)

Definition doAdvance (claims : Claims) : op bool :=
  _ ← or_else Failed getConnection;
  c ← mem;
  if decide (c_SetupStep c = Some (cl_StepId claims)) then or_else Failed HandleCredentialsEstablished
  else throw Failed.

Definition doAbort (claims : Claims) : op bool := _ ← or_else Failed AbortConnection; mret false.

Definition handle (endpointIntent : Intent) (connectionId sessionActor token : string) : op bool :=
  if decide (connectionId = "") then throw Failed
  else if decide (token = "") then throw Failed
  else
    claims ← VerifyAndConsume token;
    if decide (cl_Intent claims ≠ endpointIntent) then throw Failed
    else if decide (cl_ConnectionId claims ≠ connectionId) then throw Failed
    else if decide (cl_ActorId claims ≠ sessionActor) then throw Failed
    else match endpointIntent with IntentAdvance => doAdvance claims | IntentAbort => doAbort claims end.
End operations.

End caller.
End connection.
