(* ===== verification/SetupWalk.v ===== *)
(** * Walking a setup flow

    What the manifest of setup steps presents to a user: one walk through the
    credential steps, verification and the configure steps.  Every transition
    of the manifest moves forward, whatever the configuration does to the
    eligibility of steps in between, so a setup ends; and a user who answers
    every step gets a configured connection. *)

From S2P Require Import Prelude GoNumbers GoStrings RateRules SetupFlow Connection.
Open Scope string_scope.
Open Scope list_scope.

Section setup_walk.
Context {ext : External} {caller : Caller}.

(** ** Walking the manifest *)

Lemma step_index_lookup steps id i :
  step_index steps id = Some i → ∃ st, steps !! i = Some st ∧ ms_Id st = id.
Proof.
  revert i. induction steps as [|st steps IH]; intros i; cbn; [done|].
  case_decide as Hd; [intros [= <-]; by exists st|].
  intros (j & Hj & ->)%fmap_Some. by apply IH.
Qed.

Lemma step_index_nodup steps i st :
  NoDup (map ms_Id steps) → steps !! i = Some st → step_index steps (ms_Id st) = Some i.
Proof.
  revert i. induction steps as [|st' steps IH]; intros i; cbn; [done|].
  intros [Hn Hnd]%NoDup_cons. destruct i as [|i]; cbn; [intros [= ->]; by rewrite decide_True|].
  intros Hi. rewrite decide_False; [by rewrite (IH i)|].
  intros Heq. apply Hn. rewrite Heq. apply (list_elem_of_fmap_2 ms_Id). by eapply list_elem_of_lookup_2.
Qed.

Lemma step_index_app steps steps' id :
  step_index (steps ++ steps') id =
  match step_index steps id with
  | Some i => Some i
  | None => (λ i, length steps + i)%nat <$> step_index steps' id
  end.
Proof.
  induction steps as [|st steps IH]; cbn; [by destruct (step_index steps' id)|].
  case_decide; [done|]. rewrite IH. destruct (step_index steps id); [done|]. cbn. by destruct (step_index steps' id).
Qed.

(** The steps from [start] to [stop], as [nextEligibleStep] visits them. *)
Definition between (f : manifestFlow) (start stop : Z) : list ManifestSetupStep :=
  take (Z.to_nat (stop - start + 1)) (drop (Z.to_nat start) (mf_steps f)).

Lemma nextEligibleStep_between f start stop w :
  (0 ≤ start)%Z → (stop < Z.of_nat (length (mf_steps f)))%Z →
  nextEligibleStep f start stop w = first_eligible (between f start stop) w.
Proof.
  intros Hs He. unfold nextEligibleStep, between.
  rewrite (proj2 (Z.ltb_ge start 0)) by lia. rewrite (proj2 (Z.leb_gt _ _)) by lia.
  destruct (Z.ltb_spec stop start); [|done].
  by replace (Z.to_nat (stop - start + 1)) with 0%nat by lia.
Qed.

(** A flow whose boundary is a position of its list of steps, or before it. *)
Definition flow_ok (f : manifestFlow) : Prop :=
  NoDup (map ms_Id (mf_steps f)) ∧ (SetupStepVerify ∉ map ms_Id (mf_steps f)) ∧
  Forall (λ st, ms_Id st ≠ "") (mf_steps f) ∧ (-1 ≤ mf_authBoundary f < Z.of_nat (length (mf_steps f)))%Z.

Definition credential_steps (f : manifestFlow) : list ManifestSetupStep := take (Z.to_nat (mf_authBoundary f + 1)) (mf_steps f).
Definition later_steps (f : manifestFlow) : list ManifestSetupStep := drop (Z.to_nat (mf_authBoundary f + 1)) (mf_steps f).

Section walk.
Context (f : manifestFlow) (w : world) (elig : ManifestSetupStep → bool) (probing : bool).
Hypothesis Hok : flow_ok f.
Hypothesis Helig : Forall (λ st, ms_IsEligible st w = (Ok (elig st), w)) (mf_steps f).
Hypothesis Hprobing : mf_hasEnabledProbes f w = (Ok probing, w).

(** Verification is visited when the connector has probes, one of them is
    enabled, and there is a credential step. *)
Definition verify_visit : list ManifestSetupStep :=
  if mf_hasProbes f && bool_decide (0 ≤ mf_authBoundary f)%Z && probing then [NewVerifyStep] else [].

(** The steps a user walks through, in order. *)
Definition setup_walk : list ManifestSetupStep :=
  List.filter elig (credential_steps f) ++ verify_visit ++ List.filter elig (later_steps f).

Lemma first_eligible_filter l : incl l (mf_steps f) → first_eligible l w = (Ok (head (List.filter elig l)), w).
Proof.
  induction l as [|st l IH]; [done|]. intros Hi. cbn [first_eligible List.filter]. unfold mbind, op_bind.
  rewrite Forall_forall in Helig. rewrite Helig by (apply list_elem_of_In, Hi; by left).
  destruct (elig st); [done|]. apply IH. intros x Hx. apply Hi. by right.
Qed.

Lemma incl_drop_steps n : incl (drop n (mf_steps f)) (mf_steps f).
Proof. intros x Hx. rewrite <- (take_drop n (mf_steps f)). apply in_app_iff. by right. Qed.

Lemma steps_split : mf_steps f = credential_steps f ++ later_steps f.
Proof. symmetry. apply take_drop. Qed.

Lemma length_credential : Z.of_nat (length (credential_steps f)) = (mf_authBoundary f + 1)%Z.
Proof. destruct Hok as (_ & _ & _ & Hb). unfold credential_steps. rewrite length_take. lia. Qed.

(** The rest of the walk after position [i] of the steps. *)
Definition walk_after (i : nat) : list ManifestSetupStep :=
  if decide (i < length (credential_steps f))%nat then
    List.filter elig (drop (S i) (credential_steps f)) ++ verify_visit ++ List.filter elig (later_steps f)
  else List.filter elig (drop (S i) (mf_steps f)).

Lemma next_credential (i : nat) : (i ≤ length (credential_steps f))%nat →
  nextEligibleStep f (Z.of_nat i) (mf_authBoundary f) w = (Ok (head (List.filter elig (drop i (credential_steps f)))), w).
Proof.
  intros Hi. destruct Hok as (_ & _ & _ & Hb). pose proof length_credential as Hl.
  rewrite nextEligibleStep_between by lia.
  assert (between f (Z.of_nat i) (mf_authBoundary f) = drop i (credential_steps f)) as ->.
  { unfold between, credential_steps. rewrite Nat2Z.id, take_drop_commute. do 2 f_equal. lia. }
  apply first_eligible_filter. intros x Hx. rewrite steps_split. apply in_app_iff. left.
  rewrite <- (take_drop i (credential_steps f)). apply in_app_iff. by right.
Qed.

Lemma next_any (i : nat) :
  nextEligibleStep f (Z.of_nat i) (last_index f) w = (Ok (head (List.filter elig (drop i (mf_steps f)))), w).
Proof.
  unfold last_index. rewrite nextEligibleStep_between by lia.
  assert (between f (Z.of_nat i) (Z.of_nat (length (mf_steps f)) - 1) = drop i (mf_steps f)) as ->.
  { unfold between. rewrite Nat2Z.id. apply take_ge. rewrite length_drop. lia. }
  apply first_eligible_filter, incl_drop_steps.
Qed.

Lemma next_later :
  nextEligibleStep f (mf_authBoundary f + 1) (last_index f) w = (Ok (head (List.filter elig (later_steps f))), w).
Proof.
  destruct Hok as (_ & _ & _ & Hb). rewrite <- (Z2Nat.id (mf_authBoundary f + 1)) by lia. apply next_any.
Qed.

Lemma verifyEnabled_walk : verifyEnabled f w = (Ok (mf_hasProbes f && probing), w).
Proof. unfold verifyEnabled. destruct (mf_hasProbes f); [by rewrite Hprobing|done]. Qed.

Lemma head_app_else {A} (l l' : list A) : head (l ++ l') = match head l with Some x => Some x | None => head l' end.
Proof. by destruct l. Qed.

Lemma FirstStep_walk : FirstStep f w = (Ok (head setup_walk), w).
Proof.
  unfold FirstStep, setup_walk, verify_visit. rewrite !head_app_else.
  pose proof (next_any 0) as Hany. rewrite drop_0 in Hany. change (Z.of_nat 0) with 0%Z in Hany.
  rewrite steps_split, List.filter_app, head_app_else in Hany.
  destruct (mf_hasProbes f && bool_decide (0 ≤ mf_authBoundary f)%Z) eqn:Hp; cbn [andb].
  - unfold mbind, op_bind. pose proof (next_credential 0 ltac:(lia)) as Hc. rewrite drop_0 in Hc. change (Z.of_nat 0) with 0%Z in Hc.
    rewrite Hc. destruct (head (List.filter elig (credential_steps f))) as [st|] eqn:Hh; [done|].
    rewrite verifyEnabled_walk. apply andb_prop in Hp as [-> _]. cbn [andb].
    destruct probing; [done|]. by rewrite Hany.
  - rewrite Hany. by destruct (head (List.filter elig (credential_steps f))).
Qed.

Lemma NextStep_verify : NextStep f SetupStepVerify w = (Ok (head (List.filter elig (later_steps f))), w).
Proof. unfold NextStep. rewrite decide_True by done. apply next_later. Qed.

Lemma NextStep_index i id :
  step_index (mf_steps f) id = Some i → NextStep f id w = (Ok (head (walk_after i)), w).
Proof.
  intros Hi. destruct Hok as (_ & Hv & _ & Hb). unfold NextStep.
  rewrite decide_False.
  2:{ intros ->. apply step_index_lookup in Hi as (st & Hst & Heq). apply Hv. rewrite <- Heq.
      apply (list_elem_of_fmap_2 ms_Id). by eapply list_elem_of_lookup_2. }
  rewrite Hi. unfold walk_after, verify_visit. pose proof length_credential as Hl.
  replace (Z.of_nat i + 1)%Z with (Z.of_nat (S i)) by lia.
  destruct (mf_hasProbes f) eqn:Hp; cbn [andb].
  - destruct (decide (i < length (credential_steps f))%nat) as [Hlt|Hge].
    + rewrite !bool_decide_true by lia. cbn [andb]. unfold mbind, op_bind. rewrite next_credential by lia.
      rewrite !head_app_else. destruct (head (List.filter elig (drop (S i) (credential_steps f)))); [done|].
      rewrite verifyEnabled_walk, Hp. cbn [andb]. destruct probing; [done|]. by rewrite next_later.
    + rewrite bool_decide_false by lia. apply next_any.
  - rewrite next_any. case_decide as Hlt; [|done]. f_equal. f_equal. cbn [app].
    rewrite <- List.filter_app. f_equal. f_equal. rewrite steps_split at 1. rewrite drop_app_le by lia. done.
Qed.

Lemma filter_position (l : list ManifestSetupStep) k st :
  List.filter elig l !! k = Some st →
  elig st = true ∧ ∃ i, l !! i = Some st ∧ List.filter elig (drop (S i) l) = drop (S k) (List.filter elig l).
Proof.
  revert k. induction l as [|x l IH]; intros k; cbn [List.filter]; [done|].
  destruct (elig x) eqn:Hx.
  - destruct k as [|k]; cbn; [intros [= <-]; split; [done|by exists 0%nat]|].
    intros (? & i & Hi & Hd)%IH. split; [done|]. by exists (S i).
  - intros (? & i & Hi & Hd)%IH. split; [done|]. by exists (S i).
Qed.

Lemma head_drop {A} (l : list A) n : head (drop n l) = l !! n.
Proof. revert n. induction l as [|x l IH]; intros [|n]; cbn; done || apply IH. Qed.

Lemma step_addressable i st :
  mf_steps f !! i = Some st → elig st = true → StepById f (ms_Id st) w = (Ok (Some st), w).
Proof.
  intros Hi He. destruct Hok as (Hnd & Hv & Hne & _). rewrite Forall_forall in Hne.
  pose proof (list_elem_of_lookup_2 _ _ _ Hi) as Hin.
  unfold StepById. rewrite decide_False by (by apply Hne).
  rewrite bool_decide_false by (intros Heq; apply Hv; rewrite <- Heq; by apply (list_elem_of_fmap_2 ms_Id)).
  cbn [andb]. rewrite (step_index_nodup _ _ _ Hnd Hi). unfold mbind, op_bind, isStepEligible.
  apply lookup_lt_Some in Hi as Hlen. rewrite decide_False by lia. rewrite Nat2Z.id, Hi.
  rewrite Forall_forall in Helig. rewrite Helig, He by done. done.
Qed.

(** The manifest presents the walk step by step. *)
Lemma walk_presented k st :
  setup_walk !! k = Some st →
  NextStep f (ms_Id st) w = (Ok (setup_walk !! S k), w) ∧ StepById f (ms_Id st) w = (Ok (Some st), w).
Proof.
  intros Hk. pose proof Hok as (Hnd & _ & _ & _). unfold setup_walk in Hk.
  apply lookup_app_Some in Hk as [Hk|[Hge Hk]].
  { pose proof Hk as Hlt%lookup_lt_Some. apply filter_position in Hk as (He & i & Hi & Hd).
    assert (mf_steps f !! i = Some st) as Hs by (rewrite steps_split; by apply lookup_app_l_Some).
    split; [|by eapply step_addressable]. rewrite (NextStep_index i) by (by apply step_index_nodup).
    do 2 f_equal. unfold walk_after, setup_walk. apply lookup_lt_Some in Hi. rewrite decide_True by done.
    rewrite Hd, <- drop_app_le by lia. apply head_drop. }
  apply lookup_app_Some in Hk as [Hk|[Hge' Hk]].
  { unfold verify_visit in Hk. destruct (mf_hasProbes f && _ && probing) eqn:Hv; [|done].
    apply list_lookup_singleton_Some in Hk as [Hk <-]. apply andb_prop in Hv as [[Hp Hb]%andb_prop Hpr].
    split.
    - change (ms_Id NewVerifyStep) with SetupStepVerify. rewrite NextStep_verify. do 2 f_equal.
      unfold setup_walk, verify_visit. rewrite Hp, Hb, Hpr. cbn [andb].
      rewrite lookup_app_r by lia. replace (S k - _)%nat with 1%nat by lia. by destruct (List.filter elig (later_steps f)).
    - unfold StepById. rewrite decide_False by done. rewrite bool_decide_true, Hp by done. cbn [andb].
      unfold mbind, op_bind. rewrite verifyEnabled_walk, Hp, Hpr. done. }
  apply filter_position in Hk as (He & i & Hi & Hd).
  assert (mf_steps f !! (length (credential_steps f) + i)%nat = Some st) as Hs.
  { rewrite steps_split, lookup_app_r by lia. by replace (_ + i - _)%nat with i by lia. }
  split; [|by eapply step_addressable]. rewrite (NextStep_index (length (credential_steps f) + i)) by (by apply step_index_nodup).
  do 2 f_equal. unfold walk_after, setup_walk. rewrite decide_False by lia.
  rewrite steps_split at 1. rewrite drop_app_ge by lia. replace (S _ - _)%nat with (S i) by lia.
  rewrite Hd, head_drop, !lookup_app_r by lia. f_equal. lia.
Qed.
End walk.

(** ** Connectors that present a walk *)

Definition user_step_ids (c : Connector) : list string := map st_Id (flow_steps (cn_SetupFlow c)).

(** What an auth method promises to the flow: ids that are present, distinct
    and used by nothing else. *)
Class AuthStepsFresh (c : Connector) : Prop := {
  auth_ids_nodup : NoDup (map ms_Id (auth_manifest c));
  auth_ids_fresh : Forall (λ st, ms_Id st ≠ "" ∧ ms_Id st ≠ SetupStepVerify ∧ ms_Id st ∉ user_step_ids c) (auth_manifest c)
}.

Lemma newSchemaStep_id spec : ms_Id (newSchemaStep spec) = st_Id spec.
Proof. unfold newSchemaStep. by case_decide. Qed.

Lemma phase_manifest_ids p : map ms_Id (phase_manifest p) = map st_Id (phase_steps p).
Proof. unfold phase_manifest. rewrite map_map. apply map_ext, newSchemaStep_id. Qed.

Lemma preconnect_ids c : map ms_Id (preconnect_steps c) = map st_Id (phase_steps (cn_SetupFlow c ≫= sf_Preconnect)).
Proof.
  unfold preconnect_steps, HasPreconnect. rewrite <- phase_manifest_ids.
  by destruct (cn_SetupFlow c ≫= sf_Preconnect) as [[|]|].
Qed.

Lemma configure_ids_eq c : map ms_Id (configure_steps c) = map st_Id (phase_steps (cn_SetupFlow c ≫= sf_Configure)).
Proof.
  unfold configure_steps, HasConfigure. rewrite <- phase_manifest_ids.
  by destruct (cn_SetupFlow c ≫= sf_Configure) as [[|]|].
Qed.

Lemma user_step_ids_eq c : user_step_ids c = map ms_Id (preconnect_steps c) ++ map ms_Id (configure_steps c).
Proof.
  rewrite preconnect_ids, configure_ids_eq. unfold user_step_ids. destruct (cn_SetupFlow c); cbn; [|done]. by rewrite map_app.
Qed.

Lemma not_reserved id : HasPrefix id ApxyStepPrefix = false → id ≠ SetupStepVerify.
Proof. by intros H ->. Qed.

Lemma flow_ok_build c vc :
  SetupFlow_Validate vc (cn_SetupFlow c) = [] → AuthStepsFresh c → flow_ok (buildManifestSetupFlow (Some c)).
Proof.
  intros Hv [Hand Haf]. apply validated_ids in Hv as [Hnd Hu].
  assert (NoDup (user_step_ids c)) as Hun by exact Hnd.
  assert (∀ id, id ∈ user_step_ids c → id ≠ "" ∧ id ≠ SetupStepVerify) as Huser.
  { intros id (s & -> & Hs)%list_elem_of_fmap. rewrite Forall_forall in Hu. destruct (Hu s Hs) as [? ?%not_reserved]. done. }
  rewrite user_step_ids_eq in Hun, Huser. rewrite Forall_forall in Haf.
  assert (∀ st, st ∈ auth_manifest c → ms_Id st ≠ "" ∧ ms_Id st ≠ SetupStepVerify ∧
    (ms_Id st ∉ map ms_Id (preconnect_steps c)) ∧ (ms_Id st ∉ map ms_Id (configure_steps c))) as Hauth.
  { intros st Hst. destruct (Haf st Hst) as (? & ? & Hn). rewrite user_step_ids_eq in Hn. set_solver. }
  apply NoDup_app in Hun as (Hpre & Hdis & Hconf). unfold flow_ok. cbn [buildManifestSetupFlow mf_steps mf_authBoundary].
  rewrite !map_app. split_and!.
  - rewrite <- app_assoc. apply NoDup_app. split_and!; [done| |apply NoDup_app; split_and!; [done| |done]].
    + intros id Hid [(st & -> & Hst)%list_elem_of_fmap|?]%elem_of_app; [|set_solver].
      by apply Hauth in Hst as (_ & _ & ? & _).
    + intros id (st & -> & Hst)%list_elem_of_fmap. by apply Hauth in Hst as (_ & _ & _ & ?).
  - intros [[Hin|(st & Heq & Hst)%list_elem_of_fmap]%elem_of_app|Hin]%elem_of_app.
    + by destruct (Huser SetupStepVerify); [set_solver|].
    + apply Hauth in Hst as (_ & Hne & _). by rewrite Heq in Hne.
    + by destruct (Huser SetupStepVerify); [set_solver|].
  - assert (∀ l, incl (map ms_Id l) (map ms_Id (preconnect_steps c) ++ map ms_Id (configure_steps c)) →
      Forall (λ st, ms_Id st ≠ "") l) as Hl.
    { intros l Hl. apply Forall_forall. intros st Hst. apply Huser, list_elem_of_In, Hl, list_elem_of_In.
      by apply (list_elem_of_fmap_2 ms_Id). }
    rewrite !Forall_app. split_and!; [apply Hl, incl_appl, incl_refl|apply Forall_forall; intros st Hst; by apply Hauth in Hst as [? _]|apply Hl, incl_appr, incl_refl].
  - rewrite !length_app. lia.
  - rewrite !length_app. lia.
Qed.

Lemma credential_steps_build c :
  credential_steps (buildManifestSetupFlow (Some c)) = preconnect_steps c ++ auth_manifest c.
Proof.
  unfold credential_steps. cbn [buildManifestSetupFlow mf_steps mf_authBoundary].
  replace (Z.to_nat _) with (length (preconnect_steps c ++ auth_manifest c)) by lia. by rewrite take_app_length.
Qed.

Lemma later_steps_build c : later_steps (buildManifestSetupFlow (Some c)) = configure_steps c.
Proof.
  unfold later_steps. cbn [buildManifestSetupFlow mf_steps mf_authBoundary].
  replace (Z.to_nat _) with (length (preconnect_steps c ++ auth_manifest c)) by lia. by rewrite drop_app_length.
Qed.

(** C21: For a validated connector with a preconnect or auth-method step, whose
    auth method adds steps under ids of their own ([AuthStepsFresh], which
    validation does not ensure), the manifest presents one walk: the eligible
    preconnect and auth-method steps, then verification if a probe is enabled,
    then the eligible configure steps.  [FirstStep] is its head, [NextStep] of a step on the walk is the step
    after it and nothing at the end, and [StepById] finds each step. *)
Theorem manifest_presents_walk c vc w elig probing :
  let f := buildManifestSetupFlow (Some c) in
  let walk := setup_walk f elig probing in
  SetupFlow_Validate vc (cn_SetupFlow c) = [] → AuthStepsFresh c → preconnect_steps c ++ auth_manifest c ≠ [] →
  Forall (λ st, ms_IsEligible st w = (Ok (elig st), w)) (mf_steps f) →
  cHasEnabledProbes c w = (Ok probing, w) →
  walk = List.filter elig (preconnect_steps c ++ auth_manifest c)
         ++ (if HasProbes c && probing then [NewVerifyStep] else [])
         ++ List.filter elig (configure_steps c) ∧
  FirstStep f w = (Ok (head walk), w) ∧
  ∀ k st, walk !! k = Some st →
    NextStep f (ms_Id st) w = (Ok (walk !! S k), w) ∧ StepById f (ms_Id st) w = (Ok (Some st), w).
Proof.
  intros f walk Hv Ha Hne Helig Hp. pose proof (flow_ok_build c vc Hv Ha) as Hok. split_and!.
  - unfold walk, f, setup_walk, verify_visit. rewrite credential_steps_build, later_steps_build.
    do 3 f_equal. cbn [buildManifestSetupFlow mf_hasProbes mf_authBoundary].
    destruct (preconnect_steps c ++ auth_manifest c) as [|x l]; [done|]. cbn [length]. rewrite bool_decide_true by lia. by rewrite andb_true_r.
  - by apply FirstStep_walk.
  - intros k st. by apply walk_presented.
Qed.

(** ** Transitions move forward *)

Lemma first_eligible_in l w st w' : first_eligible l w = (Ok (Some st), w') → st ∈ l.
Proof.
  revert w. induction l as [|x l IH]; intros w; cbn [first_eligible]; [done|].
  unfold mbind, op_bind. destruct (ms_IsEligible x w) as [[e|b] w1]; [done|].
  destruct b; [intros [= <- _]; by left|]. intros ?%IH. by right.
Qed.

Lemma nextEligibleStep_range f start stop w st w' :
  (-1 ≤ stop)%Z → nextEligibleStep f start stop w = (Ok (Some st), w') →
  ∃ i, mf_steps f !! i = Some st ∧ (start ≤ Z.of_nat i ≤ stop)%Z.
Proof.
  unfold nextEligibleStep. intros Hstop. set (len := Z.of_nat (length (mf_steps f))).
  destruct (Z.ltb_spec start 0); destruct (Z.leb_spec len stop);
    (match goal with |- context [(?a <? ?b)%Z] => destruct (Z.ltb_spec a b) end; [done|]);
    intros (i & Hi)%first_eligible_in%list_elem_of_lookup_1;
    apply lookup_take_Some in Hi as [Hi Hlt]; rewrite lookup_drop in Hi;
    (eexists; split; [exact Hi|]; lia).
Qed.

(** Steps count odd numbers, verification is between the two phases. *)
Definition rank (f : manifestFlow) (id : string) : option nat :=
  if decide (id = SetupStepVerify) then Some (2 * length (credential_steps f))%nat
  else (λ i, 2 * i + 1)%nat <$> step_index (mf_steps f) id.

Lemma rank_step f i st :
  flow_ok f → mf_steps f !! i = Some st → rank f (ms_Id st) = Some (2 * i + 1)%nat.
Proof.
  intros (Hnd & Hv & _) Hi. unfold rank. rewrite decide_False.
  - by rewrite (step_index_nodup _ _ _ Hnd Hi).
  - intros Heq. apply Hv. rewrite <- Heq. apply (list_elem_of_fmap_2 ms_Id). by eapply list_elem_of_lookup_2.
Qed.

Lemma NextStep_forward f id w st w' :
  flow_ok f → NextStep f id w = (Ok (Some st), w') →
  ∃ n n', rank f id = Some n ∧ rank f (ms_Id st) = Some n' ∧ (n < n')%nat.
Proof.
  intros Hok. pose proof Hok as (_ & _ & _ & Hb). pose proof (length_credential f Hok) as Hl.
  assert (∀ start stop w n, nextEligibleStep f start stop w = (Ok (Some st), w') → (-1 ≤ stop)%Z →
    (Z.of_nat n < 2 * start + 1)%Z → ∃ n', rank f (ms_Id st) = Some n' ∧ (n < n')%nat) as Hgo.
  { intros start stop w0 n Hnext Hs Hn. apply nextEligibleStep_range in Hnext as (i & Hi & Hr); [|done].
    exists (2 * i + 1)%nat. split; [by apply rank_step|lia]. }
  unfold NextStep, rank at 1. case_decide as Hid.
  { intros H. destruct (Hgo _ _ _ (2 * length (credential_steps f))%nat H) as (n' & ? & ?); [unfold last_index; lia..|].
    by exists (2 * length (credential_steps f))%nat, n'. }
  destruct (step_index (mf_steps f) id) as [i|] eqn:Hi; [|done]. intros H. exists (2 * i + 1)%nat. cbn.
  destruct (mf_hasProbes f && bool_decide (Z.of_nat i ≤ mf_authBoundary f)%Z) eqn:Hp.
  - apply andb_prop in Hp as [_ Hle%bool_decide_eq_true]. unfold mbind, op_bind in H.
    destruct (nextEligibleStep f (Z.of_nat i + 1) (mf_authBoundary f) w) as [[e|[st1|]] w1] eqn:H1; [done| |].
    + injection H as -> ->. destruct (Hgo _ _ _ (2 * i + 1)%nat H1) as (n' & ? & ?); [lia..|]. by exists n'.
    + destruct (verifyEnabled f w1) as [[e|v] w2]; [done|]. destruct v.
      * injection H as <- _. exists (2 * length (credential_steps f))%nat. split_and!; [done|done|lia].
      * destruct (Hgo _ _ _ (2 * i + 1)%nat H) as (n' & ? & ?); [unfold last_index; lia..|]. by exists n'.
  - destruct (Hgo _ _ _ (2 * i + 1)%nat H) as (n' & ? & ?); [unfold last_index; lia..|]. by exists n'.
Qed.

(** [id'] can be the step after [id], in some state of the connection and of
    the services it calls. *)
Definition follows (f : manifestFlow) (id id' : string) : Prop :=
  ∃ w w' st, NextStep f id w = (Ok (Some st), w') ∧ ms_Id st = id'.

(** C26: A setup ends.  Whatever happens to the configuration, the labels or the
    probes between two transitions, the manifest of a validated connector whose
    auth method adds steps under ids of their own ([AuthStepsFresh]) never
    returns to a step it has left: a sequence of steps in which each may follow
    the one before has no repetition, and at most one more step than the
    connector defines. *)
Theorem setup_terminates c vc ids :
  let f := buildManifestSetupFlow (Some c) in
  SetupFlow_Validate vc (cn_SetupFlow c) = [] → AuthStepsFresh c →
  Sorted (follows f) ids → NoDup ids ∧ (length ids ≤ S (length (mf_steps f)))%nat.
Proof.
  intros f Hv Ha Hs. pose proof (flow_ok_build c vc Hv Ha) as Hok. fold f in Hok.
  set (R := λ a b, ∃ n n', rank f a = Some n ∧ rank f b = Some n' ∧ (n < n')%nat).
  assert (Transitive R) as HT.
  { intros a b d (n & n1 & ? & Hb & ?) (n2 & n3 & Hb' & ? & ?). exists n, n3. simplify_eq. split_and!; [done|done|lia]. }
  assert (StronglySorted R ids) as Hss.
  { apply Sorted_StronglySorted; [done|]. eapply Sorted_ind with (P := Sorted R); [..|exact Hs]; [constructor|].
    intros a l _ IH Hd. constructor; [done|]. destruct Hd as [|b l (w & w' & st & Hn & <-)]; constructor.
    by eapply NextStep_forward. }
  assert (NoDup ids) as Hnd.
  { clear Hs. induction Hss as [|a l Hl IH Hf]; constructor; [|done]. intros Hin.
    rewrite Forall_forall in Hf. destruct (Hf a Hin) as (n & n' & ? & ? & ?). simplify_eq. lia. }
  split; [done|]. destruct ids as [|a [|b l]]; cbn [length]; [lia..|].
  assert (∀ x, x ∈ a :: b :: l → is_Some (rank f x)) as Hr.
  { apply StronglySorted_inv in Hss as [Hss Hf]. rewrite Forall_forall in Hf. intros x [->|Hx]%elem_of_cons.
    - destruct (Hf b ltac:(by left)) as (n & ? & ? & _). by exists n.
    - destruct (Hf x Hx) as (? & n & _ & ? & _). by exists n. }
  change (length (a :: b :: l) ≤ S (length (mf_steps f)))%nat. rewrite <- (length_map ms_Id).
  change (S (length (map ms_Id (mf_steps f)))) with (length (SetupStepVerify :: map ms_Id (mf_steps f))).
  apply NoDup_incl_length; [by apply NoDup_ListNoDup|]. intros x Hx%list_elem_of_In%Hr. apply list_elem_of_In.
  unfold rank in Hx. case_decide as Hd; [subst; by left|]. right. destruct Hx as [n (i & Hi & _)%fmap_Some].
  apply step_index_lookup in Hi as (st & Hst & <-). apply (list_elem_of_fmap_2 ms_Id). by eapply list_elem_of_lookup_2.
Qed.

(** ** A cooperative user *)

(** The row of a copy: they may differ in what the database adds when the
    connection is created. *)
Definition relabel (h : HealthState) (l a : gmap string string) (c : Connection) : Connection :=
  mkConnection (c_Id c) (c_State c) h (c_SetupStep c) (c_SetupError c) (c_Configuration c) l a.

(** No call fails, and the operation's copy is the row. *)
Definition good (w : world) : Prop := w_faults w = [] ∧ ∃ h l a, w_db w = Some (relabel h l a (w_mem w)).

(** What answers change of what predicates over a connection can see. *)
Definition same_inputs (c c' : Connection) : Prop := c_Id c = c_Id c' ∧ c_Configuration c = c_Configuration c'.

(** [m] succeeds from [w], keeps the world good, and leaves [P] of the copy. *)
Definition succeeds {A} (m : op A) (w : world) (P : Connection → Prop) : Prop :=
  ∃ a w', m w = (Ok a, w') ∧ good w' ∧ P (w_mem w').

Lemma call_out_good w : good w → call_out w = (Ok tt, w).
Proof. intros [Hf _]. unfold call_out. by rewrite Hf. Qed.

(** Setters act on the row as on the copy. *)
Definition uniform (g : Connection → Connection) : Prop :=
  ∀ h l a c, ∃ h' l' a', g (relabel h l a c) = relabel h' l' a' (g c).

Lemma update_good g w : uniform g → good w → ∃ w', update g w = (Ok tt, w') ∧ good w' ∧ w_mem w' = g (w_mem w).
Proof.
  intros Hu Hg. unfold update, db_update, in_memory, mbind, op_bind, primitive. rewrite call_out_good by done.
  destruct Hg as (Hf & h & l & a & Hd). rewrite Hd. eexists. split; [done|]. split; [|done]. split; [done|].
  destruct (Hu h l a (w_mem w)) as (h' & l' & a' & Heq). exists h', l', a'. cbn. by rewrite Heq.
Qed.

Lemma bind_ok {A B} (m : op A) (k : A → op B) w a w' : m w = (Ok a, w') → (m ≫= k) w = k a w'.
Proof. intros H. unfold mbind, op_bind. by rewrite H. Qed.

Lemma or_else_ok {A} e (m : op A) w a w' : m w = (Ok a, w') → or_else e m w = (Ok a, w').
Proof. intros H. unfold or_else. by rewrite H. Qed.

Lemma succeeds_weaken {A} (m : op A) w (P Q : Connection → Prop) : succeeds m w P → (∀ c, P c → Q c) → succeeds m w Q.
Proof. intros (a & w' & ? & ? & ?) HPQ. exists a, w'. eauto. Qed.

Lemma succeeds_bind {A B} (m : op A) (k : A → op B) w P Q :
  succeeds m w P → (∀ a w', good w' → P (w_mem w') → succeeds (k a) w' Q) → succeeds (m ≫= k) w Q.
Proof.
  intros (a & w' & Hm & Hg & HP) Hk. destruct (Hk a w' Hg HP) as (b & w'' & Hb & ? & ?).
  exists b, w''. by rewrite (bind_ok _ _ _ _ _ Hm).
Qed.

Lemma succeeds_step {A B} (m : op A) (k : A → op B) w a w' Q :
  m w = (Ok a, w') → succeeds (k a) w' Q → succeeds (m ≫= k) w Q.
Proof. intros Hm Hk. unfold succeeds. by rewrite (bind_ok _ _ _ _ _ Hm). Qed.

Lemma succeeds_mem {B} (k : Connection → op B) w Q : succeeds (k (w_mem w)) w Q → succeeds (mem ≫= k) w Q.
Proof. done. Qed.

Lemma succeeds_or_else {A} e (m : op A) w P : succeeds m w P → succeeds (or_else e m) w P.
Proof. intros (a & w' & Hm & ? & ?). exists a, w'. by rewrite (or_else_ok _ _ _ _ _ Hm). Qed.

Lemma succeeds_ret {A} (a : A) w (P : Connection → Prop) : good w → P (w_mem w) → succeeds (mret a) w P.
Proof. intros. by exists a, w. Qed.

Lemma succeeds_update g w (P : Connection → Prop) : uniform g → good w → P (g (w_mem w)) → succeeds (update g) w P.
Proof. intros Hu Hg HP. destruct (update_good g w Hu Hg) as (w' & H & ? & Hm). exists tt, w'. by rewrite Hm. Qed.

Lemma succeeds_SetState st w (P : Connection → Prop) : good w → P (set_State st (w_mem w)) → succeeds (SetState st) w P.
Proof. apply (succeeds_update (set_State st)). intros h l a c. by exists h, l, a. Qed.

Lemma succeeds_SetSetupStep o w (P : Connection → Prop) : good w → P (set_SetupStep o (w_mem w)) → succeeds (SetSetupStep o) w P.
Proof. apply (succeeds_update (set_SetupStep o)). intros h l a c. by exists h, l, a. Qed.

Lemma succeeds_resolve key w (P : Connection → Prop) : good w → P (w_mem w) → succeeds (resolveRequiredActionNotifications key) w P.
Proof.
  intros Hg HP. unfold resolveRequiredActionNotifications. eexists tt, _.
  rewrite (bind_ok _ _ _ _ _ (call_out_good w Hg)). cbn. split; [done|]. destruct Hg. by split.
Qed.

Lemma succeeds_enqueue w (P : Connection → Prop) : good w → P (w_mem w) → succeeds EnqueueVerifyConnection w P.
Proof.
  intros Hg HP. unfold EnqueueVerifyConnection. eexists tt, _.
  rewrite (bind_ok _ _ _ _ _ (call_out_good w Hg)). cbn. split; [done|]. destruct Hg. by split.
Qed.

Lemma succeeds_mark_healthy w (P : Connection → Prop) :
  good w → (∀ h, P (set_HealthState h (w_mem w))) → P (w_mem w) → succeeds (MarkHealthState ConnectionHealthStateHealthy) w P.
Proof.
  intros Hg HP HP'. unfold MarkHealthState. change (IsValidConnectionHealthState ConnectionHealthStateHealthy) with true. cbn iota.
  apply succeeds_mem. case_decide; [by apply succeeds_ret|]. apply succeeds_or_else.
  change (SetConnectionHealthState _) with (db_update (set_HealthState ConnectionHealthStateHealthy)).
  apply (succeeds_update (set_HealthState _)); [|done|done]. intros h l a c. by exists ConnectionHealthStateHealthy, l, a.
Qed.

Definition finished (c : Connection) : Prop := c_State c = ConnectionStateConfigured ∧ c_SetupStep c = None.

Lemma succeeds_complete w : good w → succeeds completeFlow w finished.
Proof.
  intros Hg. unfold completeFlow. apply succeeds_mem.
  eapply (succeeds_bind _ _ _ (λ c, c_SetupStep c = None ∧ c_State c = c_State (w_mem w))).
  { destruct (c_SetupStep (w_mem w)) eqn:Hs; [|by apply succeeds_ret].
    apply succeeds_or_else. by apply succeeds_SetSetupStep. }
  intros _ w1 Hg1 [Hs1 Hst1]. eapply (succeeds_bind _ _ _ finished).
  { case_decide as Hd; [apply succeeds_ret; [done|]; unfold finished; by rewrite Hst1|].
    apply succeeds_or_else. apply succeeds_SetState; [done|]. by split. }
  intros _ w2 Hg2 Hfin. eapply (succeeds_bind _ _ _ finished); [by apply succeeds_or_else, succeeds_resolve|].
  intros _ w3 Hg3 Hfin3. by apply succeeds_ret.
Qed.

(** A step that can be answered: its eligibility is defined and depends on
    what predicates can see, a form accepts the answer, a redirect can be
    rendered. *)
Record answerable (answers : string → raw) (returnToUrl : string) (st : ManifestSetupStep) : Prop := {
  an_type : ms_Type st ≠ ManifestStepTypeVerify;
  an_eligible : ∃ e, (∀ w, good w → ms_IsEligible st w = (Ok (e (w_mem w)), w)) ∧ (∀ c c', same_inputs c c' → e c = e c');
  an_submit w : ms_Type st = ManifestStepTypeForm → good w →
    succeeds (ms_OnSubmit st (answers (ms_Id st))) w
      (λ c, c_Id c = c_Id (w_mem w) ∧ c_SetupStep c = c_SetupStep (w_mem w) ∧ c_State c = c_State (w_mem w));
  an_render w : ms_Type st = ManifestStepTypeRedirect → good w → c_Id (w_mem w) ≠ "" →
    succeeds (ms_RenderRedirect st returnToUrl) w (λ c, c = w_mem w)
}.

Section completion.
Context (c : Connector) (vc : ValidationContext) (answers : string → raw) (returnToUrl : string).
Let f := buildManifestSetupFlow (Some c).
Hypothesis Hvalid : SetupFlow_Validate vc (cn_SetupFlow c) = [].
Hypothesis Hfresh : AuthStepsFresh c.
Hypothesis Hanswer : Forall (answerable answers returnToUrl) (mf_steps f).
Hypothesis Hprobes : ∃ pe, ∀ w, good w → GetEnabledProbes c w = (Ok (pe (w_mem w)), w).

(** What the user, the third party or the worker does at the current step. *)
Definition respond : op unit :=
  _ ← getConnection;
  conn ← mem;
  match c_SetupStep conn with
  | None => mret tt
  | Some id =>
      if decide (id = SetupStepVerify) then runVerifyConnection (Some c) (λ _, None)
      else
        step ← StepById f id;
        match step with
        | None => mret tt
        | Some st =>
            match ms_Type st with
            | ManifestStepTypeForm => _ ← SubmitForm (Some c) id (answers id) returnToUrl; mret tt
            | ManifestStepTypeRedirect => _ ← HandleCredentialsEstablished (Some c); mret tt
            | ManifestStepTypeVerify => mret tt
            end
        end
  end.

(** At a step of the walk: verification, or a step that is eligible now. *)
Definition at_step (n : nat) (conn : Connection) : Prop :=
  ∃ id r, c_Id conn ≠ "" ∧ c_SetupStep conn = Some id ∧ rank f id = Some r ∧ (n ≤ r)%nat ∧
  (id = SetupStepVerify ∨
   ∃ i st, mf_steps f !! i = Some st ∧ ms_Id st = id ∧ ∀ w, good w → same_inputs (w_mem w) conn → ms_IsEligible st w = (Ok true, w)).

Definition progressed (n : nat) (conn : Connection) : Prop := finished conn ∨ at_step n conn.

Let Hok : flow_ok f := flow_ok_build c vc Hvalid Hfresh.

Definition elig_at (w : world) (st : ManifestSetupStep) : bool :=
  match (ms_IsEligible st w).1 with Ok b => b | Err _ => false end.

Lemma eligible_now w : good w → Forall (λ st, ms_IsEligible st w = (Ok (elig_at w st), w)) (mf_steps f).
Proof.
  intros Hg. eapply Forall_impl; [exact Hanswer|]. intros st [_ (e & He & _) _ _].
  unfold elig_at. by rewrite (He w Hg).
Qed.

Lemma probing_now w : good w → ∃ b, cHasEnabledProbes c w = (Ok b, w).
Proof.
  intros Hg. destruct Hprobes as (pe & Hpe). unfold cHasEnabledProbes, mbind, op_bind. rewrite (Hpe w Hg). by eexists.
Qed.

(** A step a transition may lead to, from rank [n] on. *)
Definition landing (n : nat) (conn : Connection) (st : ManifestSetupStep) : Prop :=
  (∃ r, rank f (ms_Id st) = Some r ∧ (n ≤ r)%nat) ∧
  (st = NewVerifyStep ∨
   ∃ i, mf_steps f !! i = Some st ∧ ∀ w, good w → same_inputs (w_mem w) conn → ms_IsEligible st w = (Ok true, w)).

Lemma landing_walk w st : good w → st ∈ setup_walk f (elig_at w) true ∨ (∃ i, st ∈ walk_after f (elig_at w) true i) →
  st = NewVerifyStep ∨
  ∃ i, mf_steps f !! i = Some st ∧ ∀ w', good w' → same_inputs (w_mem w') (w_mem w) → ms_IsEligible st w' = (Ok true, w').
Proof.
  intros Hg Hin.
  assert (st = NewVerifyStep ∨ (st ∈ mf_steps f ∧ elig_at w st = true)) as [->|[Hs He]]; [|by left|].
  { assert (∀ l, st ∈ List.filter (elig_at w) l → st ∈ l ∧ elig_at w st = true) as Hfilter.
    { intros l Hl. apply list_elem_of_In, filter_In in Hl as [Hl ?]. split; [by apply list_elem_of_In|done]. }
    assert (st ∈ verify_visit f true → st = NewVerifyStep) as Hver.
    { unfold verify_visit. case_match; [by intros ?%list_elem_of_singleton|by intros ?%elem_of_nil]. }
    rewrite (steps_split f). unfold setup_walk, walk_after in Hin.
    assert (∀ n (l : list ManifestSetupStep), st ∈ drop n l → st ∈ l) as Hdrop.
    { intros n l Hl. rewrite <- (take_drop n l). apply elem_of_app. by right. }
    destruct Hin as [Hin|(i & Hin)]; [|case_decide].
    1,2: apply elem_of_app in Hin as [[? ?]%Hfilter|[?%Hver|[? ?]%Hfilter]%elem_of_app]; [..|by left|];
      right; (split; [|done]); apply elem_of_app; eauto.
    right. apply Hfilter in Hin as [Hin ?]. split; [|done]. rewrite <- steps_split. by eapply Hdrop. }
  right. apply list_elem_of_lookup in Hs as (i & Hi). exists i. split; [done|].
  rewrite Forall_forall in Hanswer. destruct (Hanswer st (list_elem_of_lookup_2 _ _ _ Hi)) as [_ (e & He1 & He2) _ _].
  intros w' Hg' Hsame. rewrite (He1 w' Hg'). unfold elig_at in He. rewrite (He1 w Hg) in He. cbn in He.
  by rewrite (He2 _ _ Hsame), He.
Qed.

(** The verify step is left out when no probe is enabled. *)
Lemma visit_weaken b l l' : (∀ st : ManifestSetupStep, st ∈ l ++ verify_visit f b ++ l' → st ∈ l ++ verify_visit f true ++ l').
Proof.
  intros st. rewrite !elem_of_app. intros [?|[H|?]]; [by left| |by right; right].
  right. left. unfold verify_visit in *. destruct b; [done|]. rewrite andb_false_r in H. by apply elem_of_nil in H.
Qed.

Lemma head_elem {A} (l : list A) x : head l = Some x → x ∈ l.
Proof. destruct l; [done|]. intros [= ->]. by left. Qed.

Lemma NextStep_good w id r : good w → rank f id = Some r →
  ∃ o, NextStep f id w = (Ok o, w) ∧ ∀ st, o = Some st → landing (S r) (w_mem w) st.
Proof.
  intros Hg Hr. destruct (probing_now w Hg) as (b & Hb). pose proof (eligible_now w Hg) as Hel.
  assert (∃ l, NextStep f id w = (Ok (head l), w) ∧
    (∀ st, st ∈ l → st ∈ setup_walk f (elig_at w) true ∨ (∃ i, st ∈ walk_after f (elig_at w) true i))) as (l & Hn & Hl).
  { unfold rank in Hr. case_decide as Hid.
    - subst id. exists (List.filter (elig_at w) (later_steps f)). split; [by apply NextStep_verify|].
      intros st Hst. left. unfold setup_walk. rewrite !elem_of_app. by right; right.
    - destruct (step_index (mf_steps f) id) as [i|] eqn:Hi; [|done].
      exists (walk_after f (elig_at w) b i). split; [by apply NextStep_index|]. intros st Hst. right. exists i.
      unfold walk_after in *. case_decide; [by apply visit_weaken in Hst|done]. }
  exists (head l). split; [done|]. intros st Hst. split.
  - rewrite Hst in Hn. apply NextStep_forward in Hn as (n & n' & Hn & ? & ?); [|exact Hok]. exists n'. simplify_eq. split; [done|lia].
  - apply landing_walk; [done|]. by apply Hl, head_elem.
Qed.

Lemma landing_rank w st : good w → st ∈ setup_walk f (elig_at w) true → ∃ r, rank f (ms_Id st) = Some r.
Proof.
  intros Hg Hin. destruct (landing_walk w st Hg (or_introl Hin)) as [->|(i & Hi & _)].
  - eexists. unfold rank. by rewrite decide_True.
  - eexists. by apply rank_step.
Qed.

Lemma FirstStep_good w : good w → ∃ o, FirstStep f w = (Ok o, w) ∧ ∀ st, o = Some st → landing 0 (w_mem w) st.
Proof.
  intros Hg. destruct (probing_now w Hg) as (b & Hb). pose proof (eligible_now w Hg) as Hel.
  exists (head (setup_walk f (elig_at w) b)). split; [by apply FirstStep_walk|]. intros st Hst%head_elem%visit_weaken.
  split; [|by apply landing_walk; [|left]]. destruct (landing_rank w st Hg Hst) as (r & ?). exists r. split; [done|lia].
Qed.

Lemma same_inputs_step conn conn' id : same_inputs conn conn' → same_inputs conn (set_SetupStep id conn').
Proof. done. Qed.

Lemma landing_at_step n conn st :
  c_Id conn ≠ "" → landing n conn st → at_step n (set_SetupStep (Some (ms_Id st)) conn).
Proof.
  intros Hid [(r & Hr & Hn) Hst]. exists (ms_Id st), r. split_and!; [done..|].
  destruct Hst as [->|(i & Hi & He)]; [by left|]. right. by exists i, st.
Qed.

Lemma landing_answerable n conn st : landing n conn st → st = NewVerifyStep ∨ answerable answers returnToUrl st.
Proof.
  intros [_ [->|(i & Hi & _)]]; [by left|right]. rewrite Forall_forall in Hanswer.
  by eapply Hanswer, list_elem_of_lookup_2.
Qed.

Lemma advance_good w o n :
  good w → c_Id (w_mem w) ≠ "" → (∀ st, o = Some st → landing n (w_mem w) st) →
  succeeds (advanceToStep o returnToUrl) w (progressed n).
Proof.
  intros Hg Hid Ho. destruct o as [st|]; cbn [advanceToStep].
  2:{ eapply succeeds_weaken; [by apply succeeds_complete|]. by left. }
  specialize (Ho st eq_refl). pose proof (landing_answerable _ _ _ Ho) as Ha.
  eapply (succeeds_bind _ _ _ (λ conn, conn = w_mem w)).
  { case_decide as Ht; [|by apply succeeds_ret]. destruct Ha as [->|Ha]; [done|].
    by apply succeeds_or_else, (an_render _ _ _ Ha). }
  intros url w1 Hg1 Hw1. eapply (succeeds_bind _ _ _ (at_step n)).
  { apply succeeds_or_else, succeeds_SetSetupStep; [done|]. rewrite Hw1. by apply landing_at_step. }
  intros _ w2 Hg2 Hat. eapply (succeeds_bind _ _ _ (at_step n)).
  { case_decide; [by apply succeeds_or_else, succeeds_enqueue|by apply succeeds_ret]. }
  intros _ w3 Hg3 Hat3. case_decide; [apply succeeds_ret; [done|by right]|].
  unfold renderStepResponse. destruct (ms_Type st); [apply succeeds_ret; [done|by right]|done|apply succeeds_ret; [done|by right]].
Qed.

Lemma succeeds_getConnection w (P : Connection → Prop) :
  good w → (∀ h l a, P (relabel h l a (w_mem w))) → succeeds getConnection w P.
Proof.
  intros Hg HP. unfold getConnection. apply (succeeds_step _ _ _ tt w); [by apply call_out_good|].
  pose proof Hg as (Hf & h & l & a & Hd). exists tt, (with_mem (relabel h l a (w_mem w)) w). unfold primitive. rewrite Hd.
  assert (good (with_mem (relabel h l a (w_mem w)) w)) as Hg' by (split; [done|]; by exists h, l, a).
  rewrite (bind_ok _ _ _ _ _ (call_out_good _ Hg')). split; [done|]. split; [exact Hg'|apply HP].
Qed.

Lemma NextStep_succeeds {B} e w id r (k : option ManifestSetupStep → op B) Q :
  good w → rank f id = Some r →
  (∀ o, (∀ st, o = Some st → landing (S r) (w_mem w) st) → succeeds (k o) w Q) →
  succeeds (or_else e (NextStep f id) ≫= k) w Q.
Proof.
  intros Hg Hr Hk. destruct (NextStep_good w id r Hg Hr) as (o & Hn & Ho).
  destruct (Hk o Ho) as (b & w' & Hb & ? & ?). exists b, w'.
  by rewrite (bind_ok _ _ _ _ _ (or_else_ok e _ _ _ _ Hn)).
Qed.

Lemma credentials_good w id r :
  good w → c_Id (w_mem w) ≠ "" → c_SetupStep (w_mem w) = Some id → rank f id = Some r →
  succeeds (HandleCredentialsEstablished (Some c)) w (progressed (S r)).
Proof.
  intros Hg Hid Hs Hr. unfold HandleCredentialsEstablished. apply succeeds_mem. rewrite Hs.
  eapply (succeeds_bind _ _ _ (λ conn, c_Id conn ≠ "")); [by apply succeeds_or_else, succeeds_mark_healthy|].
  intros _ w1 Hg1 Hid1. apply (NextStep_succeeds _ _ _ r); [done|done|]. intros [st|] Ho.
  - specialize (Ho st eq_refl). eapply (succeeds_bind _ _ _ (at_step (S r))).
    { apply succeeds_or_else, succeeds_SetSetupStep; [done|]. by apply landing_at_step. }
    intros _ w2 Hg2 Hat. eapply (succeeds_bind _ _ _ (at_step (S r))).
    { case_decide; [by apply succeeds_or_else, succeeds_enqueue|by apply succeeds_or_else, succeeds_resolve]. }
    intros _ w3 Hg3 Hat3. apply succeeds_ret; [done|by right].
  - eapply succeeds_bind; [by apply succeeds_complete|]. intros _ w2 Hg2 Hfin.
    eapply (succeeds_bind _ _ _ finished); [by apply succeeds_or_else, succeeds_resolve|].
    intros _ w3 Hg3 Hfin3. apply succeeds_ret; [done|by left].
Qed.

Lemma verify_passed_good w r :
  good w → c_Id (w_mem w) ≠ "" → rank f SetupStepVerify = Some r → succeeds (onVerifyPassed (Some c)) w (progressed (S r)).
Proof.
  intros Hg Hid Hr. unfold onVerifyPassed.
  eapply (succeeds_bind _ _ _ (λ conn, c_Id conn ≠ "")); [by apply succeeds_or_else, succeeds_mark_healthy|].
  intros _ w1 Hg1 Hid1. eapply (succeeds_bind _ _ _ (λ conn, c_Id conn ≠ "")); [by apply succeeds_or_else, succeeds_resolve|].
  intros _ w2 Hg2 Hid2. apply (NextStep_succeeds _ _ _ r); [done|done|]. intros [st|] Ho.
  - specialize (Ho st eq_refl). apply succeeds_or_else, succeeds_SetSetupStep; [done|]. right. by apply landing_at_step.
  - eapply succeeds_bind; [by apply succeeds_complete|]. intros _ w3 Hg3 Hfin. apply succeeds_ret; [done|by left].
Qed.

Lemma verify_good w r :
  good w → c_Id (w_mem w) ≠ "" → c_SetupStep (w_mem w) = Some SetupStepVerify → rank f SetupStepVerify = Some r →
  succeeds (runVerifyConnection (Some c) (λ _, None)) w (progressed (S r)).
Proof.
  intros Hg Hid Hs Hr. unfold runVerifyConnection.
  destruct (succeeds_getConnection w (λ conn, c_Id conn ≠ "" ∧ c_SetupStep conn = Some SetupStepVerify) Hg) as ([] & w1 & Hget & Hg1 & Hw1); [done|].
  eapply (succeeds_bind _ _ _ (λ conn, c_Id conn ≠ "" ∧ c_SetupStep conn = Some SetupStepVerify)).
  { exists tt, w1. unfold primitive. by rewrite Hget. }
  intros _ w2 Hg2 [Hid2 Hw2]. apply succeeds_mem. rewrite decide_True by done.
  destruct Hprobes as (pe & Hpe). pose proof (Hpe w2 Hg2) as Hp.
  assert (∀ ps, succeeds (run_probes (Some c) (λ _, None) ps) w2 (progressed (S r))) as Hrun.
  { intros ps. induction ps as [|p ps IH]; cbn [run_probes]; [|done]. by apply verify_passed_good. }
  destruct (Hrun (pe (w_mem w2))) as (a & w3 & H3 & ? & ?). exists a, w3.
  by rewrite (bind_ok _ _ _ _ _ (or_else_ok Failed _ _ _ _ Hp)).
Qed.

Lemma resolve_auth_good w current next (P : Connection → Prop) :
  good w → P (w_mem w) → succeeds (resolveAuthRequiredIfCredentialsEstablished (Some c) current next) w P.
Proof.
  intros Hg HP. unfold resolveAuthRequiredIfCredentialsEstablished.
  destruct (negb _); [by apply succeeds_ret|]. destruct next as [st|]; [case_decide; [by apply succeeds_ret|]|];
    by apply succeeds_or_else, succeeds_resolve.
Qed.

Lemma submit_good w i st r :
  good w → c_Id (w_mem w) ≠ "" → c_SetupStep (w_mem w) = Some (ms_Id st) → rank f (ms_Id st) = Some r →
  mf_steps f !! i = Some st → ms_Type st = ManifestStepTypeForm → StepById f (ms_Id st) w = (Ok (Some st), w) →
  succeeds (SubmitForm (Some c) (ms_Id st) (answers (ms_Id st)) returnToUrl) w (progressed (S r)).
Proof.
  intros Hg Hid Hs Hr Hi Ht Hstep. unfold SubmitForm. apply succeeds_mem. rewrite Hs. cbn [default ensureStepMatches].
  pose proof Hok as (_ & _ & Hne & _). rewrite Forall_forall in Hne.
  rewrite decide_False by (by eapply Hne, list_elem_of_lookup_2). rewrite decide_False by (by intros []).
  assert (answerable answers returnToUrl st) as Ha.
  { rewrite Forall_forall in Hanswer. by eapply Hanswer, list_elem_of_lookup_2. }
  apply (succeeds_step _ _ _ tt w); [done|].
  apply (succeeds_step _ _ _ (Some st) w); [by apply or_else_ok|]. rewrite decide_False by (by intros []).
  eapply succeeds_bind; [by apply (an_submit _ _ _ Ha)|].
  intros _ w1 Hg1 (Hid1 & Hs1 & _). rewrite <- Hid1 in Hid. apply (NextStep_succeeds _ _ _ r); [done|done|]. intros [st'|] Ho.
  - specialize (Ho st' eq_refl). eapply (succeeds_bind _ _ _ (λ conn, conn = w_mem w1)); [by apply resolve_auth_good|].
    intros _ w2 Hg2 Hw2. apply advance_good; [done|by rewrite Hw2|]. intros st2 [= <-]. by rewrite Hw2.
  - eapply succeeds_bind; [by apply succeeds_complete|]. intros resp w2 Hg2 Hfin.
    eapply (succeeds_bind _ _ _ finished); [by apply resolve_auth_good|].
    intros _ w3 Hg3 Hfin3. apply succeeds_ret; [done|by left].
Qed.

Lemma at_step_relabel n h l a conn : at_step n conn → at_step n (relabel h l a conn).
Proof. done. Qed.

Lemma respond_forward n w : good w → at_step n (w_mem w) → succeeds respond w (progressed (S n)).
Proof.
  intros Hg Hat. unfold respond. eapply (succeeds_bind _ _ _ (at_step n)).
  { apply succeeds_getConnection; [done|]. intros h l a. by apply at_step_relabel. }
  clear w Hg Hat. intros _ w1 Hg1 (id & r & Hid & Hs & Hr & Hn & Hst). apply succeeds_mem. rewrite Hs.
  assert (∀ conn, progressed (S r) conn → progressed (S n) conn) as Hmono.
  { intros conn [?|(id' & r' & ? & ? & ? & ? & ?)]; [by left|]. right. exists id', r'. split_and!; [done..|lia|done]. }
  destruct Hst as [->|(i & st & Hi & <- & He)].
  { rewrite decide_True by done. eapply succeeds_weaken; [by apply (verify_good _ r)|done]. }
  rewrite decide_False.
  2:{ intros Heq. pose proof Hok as (_ & Hv & _). apply Hv. rewrite <- Heq. apply (list_elem_of_fmap_2 ms_Id). by eapply list_elem_of_lookup_2. }
  assert (StepById f (ms_Id st) w1 = (Ok (Some st), w1)) as Hstep.
  { eapply (step_addressable f w1 (elig_at w1)); [exact Hok|by apply eligible_now|exact Hi|].
    unfold elig_at. by rewrite He. }
  apply (succeeds_step _ _ _ (Some st) w1); [done|].
  pose proof (proj1 (Forall_forall _ _) Hanswer st (list_elem_of_lookup_2 _ _ _ Hi)) as Ha.
  destruct (ms_Type st) eqn:Ht; [| |by destruct (an_type _ _ _ Ha)].
  - eapply succeeds_bind; [by apply (submit_good w1 i st r)|]. intros _ w2 Hg2 Hp. apply succeeds_ret; [done|by apply Hmono].
  - eapply succeeds_bind; [by apply (credentials_good w1 (ms_Id st) r)|]. intros _ w2 Hg2 Hp. apply succeeds_ret; [done|by apply Hmono].
Qed.

Lemma respond_finished w : good w → finished (w_mem w) → succeeds respond w finished.
Proof.
  intros Hg Hfin. unfold respond. eapply (succeeds_bind _ _ _ finished); [by apply succeeds_getConnection|].
  intros _ w1 Hg1 Hfin1. apply succeeds_mem. destruct Hfin1 as [? Hs]. rewrite Hs. by apply succeeds_ret.
Qed.

Fixpoint responses (n : nat) : op unit :=
  match n with O => mret tt | S n => _ ← respond; responses n end.

Lemma rank_bound id r : rank f id = Some r → (r < 2 * length (mf_steps f) + 1)%nat.
Proof.
  unfold rank. case_decide.
  - intros [= <-]. rewrite (steps_split f), length_app. lia.
  - intros (i & Hi & ->)%fmap_Some. apply step_index_lookup in Hi as (st & Hst & _). apply lookup_lt_Some in Hst. lia.
Qed.

Lemma responses_finish n k w :
  (2 * length (mf_steps f) + 1 ≤ n + k)%nat → good w → progressed n (w_mem w) → succeeds (responses k) w finished.
Proof.
  revert n w. induction k as [|k IH]; intros n w Hk Hg [Hfin|Hat]; cbn [responses].
  - by apply succeeds_ret.
  - destruct Hat as (id & r & _ & _ & Hr%rank_bound & Hn & _). lia.
  - eapply succeeds_bind; [by apply respond_finished|]. intros _ w1 Hg1 Hf1. apply (IH (S n)); [lia|done|by left].
  - eapply succeeds_bind; [by apply (respond_forward n)|]. intros _ w1 Hg1 Hp. apply (IH (S n)); [lia|done|done].
Qed.
End completion.

(** C22: A setup completes when everyone does their part.  Take a validated
    connector whose auth method adds steps under ids of their own
    ([AuthStepsFresh]).  If every step can be answered and no call fails, where
    a step can be answered when the form accepts the answer, the redirect can be
    rendered and eligibility depends on nothing but the connection's id and
    configuration (predicates over labels are left out), then starting a
    setup and answering the current step (submitting the form, coming back
    from the redirect, running the probes successfully) at most twice as often
    as the connector has steps, plus one, leaves the connection configured
    with no setup step, whatever steps the answers make eligible on the way. *)
Theorem setup_completes c vc answers returnToUrl id labels w :
  let f := buildManifestSetupFlow (Some c) in
  SetupFlow_Validate vc (cn_SetupFlow c) = [] → AuthStepsFresh c →
  Forall (answerable answers returnToUrl) (mf_steps f) →
  (∃ pe, ∀ w, good w → GetEnabledProbes c w = (Ok (pe (w_mem w)), w)) →
  id ≠ "" → w_faults w = [] →
  ∃ w', (_ ← startSetup (Some c) id returnToUrl labels; responses c answers returnToUrl (2 * length (mf_steps f) + 1)) w = (Ok tt, w') ∧
    ∃ r, w_db w' = Some r ∧ c_State r = ConnectionStateConfigured ∧ c_SetupStep r = None.
Proof.
  intros f Hv Ha Han Hp Hid Hw.
  assert (succeeds (_ ← startSetup (Some c) id returnToUrl labels; responses c answers returnToUrl (2 * length (mf_steps f) + 1)) w finished)
    as ([] & w' & ? & (_ & h & l & a & Hd) & ? & ?); [|exists w'; split; [done|]; by exists (relabel h l a (w_mem w'))].
  eapply (succeeds_bind _ _ _ (progressed c 0)).
  2:{ intros _ w1 Hg1 Hpr. apply (responses_finish c vc answers returnToUrl Hv Ha Han Hp 0); [fold f; lia|done|done]. }
  unfold startSetup. set (w1 := with_mem (mkConnection id ConnectionStateSetup "" None None None ∅ ∅)
    (with_db (Some (mkConnection id ConnectionStateSetup ConnectionHealthStateHealthy None None None labels ∅)) w)).
  apply (succeeds_step _ _ _ tt w1).
  { unfold CreateConnection. by rewrite (bind_ok _ _ w tt w) by (unfold or_else, call_out; by rewrite Hw). }
  assert (good w1) as Hg1 by (split; [done|]; by exists ConnectionHealthStateHealthy, labels, ∅).
  destruct (FirstStep_good c vc answers returnToUrl Hv Ha Han Hp w1 Hg1) as (o & Hfirst & Ho).
  apply (succeeds_step _ _ _ o w1); [by apply or_else_ok|]. by eapply advance_good.
Qed.
End setup_walk.

(** ** A concrete instance

    Raw JSON is its list of fields, a schema lists the required ones; a
    predicate is the name of a configuration field that must be present; a
    template renders with its placeholders empty; an auth method stores
    whether it has credentials. *)

#[export] Instance sample_external : External := {|
  json := string;
  raw := list (string * string);
  auth_state := bool;
  unmarshal_object := λ d, Some (list_to_map d);
  json_Valid := λ _, true;
  schema_accepts := λ s d, forallb (λ k, bool_decide (k ∈ d.*1)) s.*1;
  schema_properties := λ s, Some s.*1;
  js_boolean := λ js cfg _ _, Some (bool_decide (is_Some (cfg !! js)));
  js_validates := λ _, true;
  mustache_Render := λ t _ _ _, Some (ReplaceAll (ReplaceAll t "{{RETURN_ADVANCE}}" "") "{{RETURN_ABORT}}" "");
  new_setup_token := λ n, "stk_" +:+ FormatInt (Z.of_nat n)
|}.

#[export] Instance sample_caller : Caller := {| actor := "act_1"; publicBase := "https://proxy.example.com/" |}.

Definition sample_form (id field : string) (cond : option string) : SetupFlowStep :=
  mkStep id "" "" "" (Some [(field, "")]) None [] cond None.

(** Ask for a tenant, sign in, check, then ask for a region if the tenant asked
    for one. *)
Definition sample_oauth2 : AuthMethod :=
  mkAuthMethod (oauth2_authorization_code_steps (λ rt a, (Some rt, a))) (Some (λ _, (true, false))).

Definition sample_connector : Connector :=
  mkConnector (Some (mkFlow (Some [sample_form "tenant" "tenant" None]) (Some [sample_form "region" "region" (Some "tenant")])))
    (Some (Some sample_oauth2)) [mkProbe "ping" None None None].

Definition blank : Connection := mkConnection "" ConnectionStateSetup "" None None None ∅ ∅.
Definition sample_world : world := mkWorld None blank false 0 0 [] [] ∅ 0 0 [].

Definition sample_answers (id : string) : raw := [(id, "x")].

#[export] Instance sample_fresh : AuthStepsFresh sample_connector.
Proof. split; [apply NoDup_singleton|]. constructor; [|constructor]. split_and!; [done|done|]. vm_compute. intros H. by repeat (apply elem_of_cons in H as [?|H]; [done|]); apply elem_of_nil in H. Qed.

Lemma manifest_presents_walk_witness :
  let f := buildManifestSetupFlow (Some sample_connector) in
  NextStep f "tenant" sample_world = (Ok (mf_steps f !! 1%nat), sample_world).
Proof.
  intros f.
  refine (proj1 (proj2 (proj2 (manifest_presents_walk sample_connector [] sample_world (λ st, negb (bool_decide (ms_Id st = "region"))) true
    eq_refl sample_fresh ltac:(discriminate) _ eq_refl)) 0%nat _ eq_refl)).
  repeat constructor.
Defined.

(** The sample world after the tenant was given. *)
Definition with_tenant : world := with_mem (set_Configuration (Some {[ "tenant" := "x" ]}) blank) sample_world.

Lemma follows_by f id id' w :
  match (NextStep f id w).1 with Ok (Some st) => bool_decide (ms_Id st = id') | _ => false end = true → follows f id id'.
Proof.
  intros H. unfold follows. destruct (NextStep f id w) as [[e|[st|]] w'] eqn:Hn; cbn in H; [done| |done].
  apply bool_decide_eq_true in H. by exists w, w', st.
Qed.

Lemma setup_terminates_witness :
  (length ["tenant"; OAuth2AuthorizeStepId; SetupStepVerify; "region"] ≤ 4)%nat.
Proof.
  refine (proj2 (setup_terminates sample_connector [] _ eq_refl sample_fresh _)).
  repeat constructor; apply (follows_by _ _ _ with_tenant); vm_compute; reflexivity.
Defined.

Lemma good_config_set w cfg : good w →
  succeeds (SetConfiguration cfg) w (λ c, c_Id c = c_Id (w_mem w) ∧ c_SetupStep c = c_SetupStep (w_mem w) ∧ c_State c = c_State (w_mem w)).
Proof.
  intros Hg. apply (succeeds_step _ _ _ tt w); [by apply call_out_good|].
  apply (succeeds_update (set_Configuration (Some cfg))); [|done|done]. intros h l a c. by exists h, l, a.
Qed.

Lemma get_configuration_good w : good w → GetConfiguration w = (Ok (c_Configuration (w_mem w)), w).
Proof.
  intros Hg. unfold GetConfiguration. rewrite (bind_ok _ _ w (w_mem w) w) by done.
  destruct (c_Configuration (w_mem w)); [|done].
  by rewrite (bind_ok _ _ _ _ _ (call_out_good w Hg)).
Qed.

Lemma sample_form_answerable id cond :
  id ≠ "" → answerable sample_answers "https://market.example.com" (newSchemaFormStep (sample_form id id cond)).
Proof.
  intros Hid. split.
  - done.
  - exists (λ c, match cond with Some js => bool_decide (is_Some (default ∅ (c_Configuration c) !! js)) | None => true end).
    split; [|by intros c c' (_ & ->)]. intros w Hg. destruct cond as [js|]; cbn; [|done].
    unfold eval_predicate. by rewrite (bind_ok _ _ _ _ _ (get_configuration_good w Hg)).
  - intros w _ Hg. cbn [ms_OnSubmit newSchemaFormStep NewFormStep ms_Id].
    apply (succeeds_step _ _ _ (c_Configuration (w_mem w)) w); [by apply or_else_ok, get_configuration_good|].
    unfold ValidateAndMergeData. rewrite decide_False by done. cbn [st_Id sample_form]. rewrite decide_False by (by intros []).
    cbn. rewrite bool_decide_true by (by left). cbn. apply succeeds_or_else. by apply good_config_set.
  - done.
Qed.

Lemma setup_completes_witness :
  ∃ w', (_ ← startSetup (Some sample_connector) "cxn_1" "https://market.example.com" {[ "apxy/cxn/-/id" := "cxn_1" ]};
         responses sample_connector sample_answers "https://market.example.com" 7) sample_world = (Ok tt, w') ∧
    ∃ r, w_db w' = Some r ∧ c_State r = ConnectionStateConfigured ∧ c_SetupStep r = None.
Proof.
  refine (setup_completes sample_connector [] sample_answers "https://market.example.com" "cxn_1" {[ "apxy/cxn/-/id" := "cxn_1" ]} sample_world
    eq_refl sample_fresh _ _ _ eq_refl); [|by exists (λ _, [mkProbe "ping" None None None])|done].
  change (mf_steps _) with [newSchemaFormStep (sample_form "tenant" "tenant" None);
    NewRedirectStep OAuth2AuthorizeStepId "Authorize" "Sign in to authorize this connection."
      (λ rt, in_auth (λ a, let '(o, a') := (if decide (rt = "") then (None, a) else (Some rt, a)) in
                           (match o with Some url => Ok url | None => Err Failed end, a'))) None;
    newSchemaFormStep (sample_form "region" "region" (Some "tenant"))].
  constructor; [by apply sample_form_answerable|]. constructor; [|constructor; [by apply sample_form_answerable|constructor]].
  split; [done|by exists (λ _, true)|done|]. intros w _ Hg Hid.
  exists "https://market.example.com", (with_auth (w_auth w) w). destruct Hg. by split_and!.
Defined.
