(* ===== verification/ConnectionFrames.v ===== *)
(** * What the operations of a connection leave alone

    The steps of a setup that work on the row, the queue and the notifications
    touch neither the state of the auth method nor the setup tokens, and keep
    the id of the connection.  Used wherever these operations are composed
    with others. *)

From S2P Require Import Prelude GoNumbers GoStrings RateRules SetupFlow Connection SetupWalk.
Open Scope string_scope.
Open Scope list_scope.

Create HintDb calm.

Section frames.
Context {ext : External} {caller : Caller}.

Record calm_world (w w' : world) : Prop := {
  calm_auth : w_auth w' = w_auth w;
  calm_tokens : w_tokens w' = w_tokens w;
  calm_db : c_Id <$> w_db w' = c_Id <$> w_db w;
  calm_mem : c_Id (w_mem w') = c_Id (w_mem w) ∨ c_Id <$> w_db w = Some (c_Id (w_mem w'))
}.

#[global] Instance calm_world_preorder : PreOrder calm_world.
Proof.
  split.
  - intros w. split; auto.
  - intros w1 w2 w3 [H1 H2 H3 H4] [H5 H6 H7 H8]. split; [congruence..|].
    destruct H8 as [->|H8]; [done|]. right. congruence.
Qed.

Definition calm {A} (m : op A) : Prop := ∀ w, calm_world w (m w).2.

Lemma calm_ret {A} (a : A) : calm (mret a).
Proof. by intros w. Qed.

Lemma calm_throw {A} e : calm (throw (A := A) e).
Proof. by intros w. Qed.

Lemma calm_bind {A B} (m : op A) (k : A → op B) : calm m → (∀ a, calm (k a)) → calm (m ≫= k).
Proof.
  intros Hm Hk w. specialize (Hm w). unfold mbind, op_bind. destruct (m w) as [[e|a] w1]; [done|].
  etrans; [exact Hm|apply Hk].
Qed.

Lemma calm_or_else {A} e (m : op A) : calm m → calm (or_else e m).
Proof. intros Hm w. specialize (Hm w). unfold or_else. by destruct (m w) as [[?|?] ?]. Qed.

Lemma calm_ignore {A} (m : op A) : calm m → calm (ignore m).
Proof. intros Hm w. apply Hm. Qed.

Lemma calm_if {A} (b : bool) (m m' : op A) : calm m → calm m' → calm (if b then m else m').
Proof. by destruct b. Qed.

Lemma calm_mem_op : calm mem.
Proof. by intros w. Qed.

Lemma calm_call_out : calm call_out.
Proof. intros w. unfold call_out. destruct (w_faults w); [done|]. split; auto. Qed.

(** One rule for each construct; calls by the hints. *)
Ltac calmly :=
  repeat (lazymatch goal with
    | |- calm (mret _) => apply calm_ret
    | |- calm (throw _) => apply calm_throw
    | |- calm (mbind _ _) => apply calm_bind; [|intros ?]
    | |- calm (or_else _ _) => apply calm_or_else
    | |- calm (ignore _) => apply calm_ignore
    | |- calm mem => apply calm_mem_op
    | |- calm (if decide _ then _ else _) => case_decide
    | |- calm (if _ then _ else _) => apply calm_if
    | |- calm _ => solve [eauto with calm]
    end).

#[local] Hint Resolve calm_call_out : calm.

(** Updates keep the id. *)
Definition keeps_id (g : Connection → Connection) : Prop := ∀ c, c_Id (g c) = c_Id c.

Lemma calm_db_update g : keeps_id g → calm (db_update g).
Proof.
  intros Hg. unfold db_update. calmly. intros w. unfold primitive. destruct (w_db w) as [c|] eqn:Hw; [|done].
  split; cbn; rewrite ?Hw; cbn; rewrite ?Hg; auto.
Qed.

Lemma calm_in_memory g : keeps_id g → calm (in_memory g).
Proof. intros Hg w. split; cbn; rewrite ?Hg; auto. Qed.

Lemma calm_resolve key : calm (resolveRequiredActionNotifications key).
Proof. unfold resolveRequiredActionNotifications. calmly. intros w. split; auto. Qed.

Lemma calm_Enqueue : calm EnqueueVerifyConnection.
Proof. unfold EnqueueVerifyConnection. calmly. intros w. split; auto. Qed.

Lemma calm_getConnection : calm getConnection.
Proof.
  unfold getConnection. calmly. intros w. unfold primitive. destruct (w_db w) as [r|] eqn:Hw; [|done].
  assert (calm_world w (with_mem r w)) as Hm by (split; cbn; rewrite ?Hw; auto).
  etrans; [exact Hm|]. assert (calm (_ ← call_out; mret tt)) as Hc by calmly. apply Hc.
Qed.

Lemma calm_GetConfiguration : calm GetConfiguration.
Proof. unfold GetConfiguration. calmly. destruct (c_Configuration _); calmly. Qed.

#[local] Hint Resolve calm_db_update calm_in_memory calm_resolve calm_Enqueue calm_getConnection calm_GetConfiguration : calm.
#[local] Hint Extern 1 (keeps_id _) => done : calm.

Lemma calm_SetState s : calm (SetState s).
Proof. unfold SetState, SetConnectionState. calmly. Qed.

Lemma calm_SetSetupStep s : calm (SetSetupStep s).
Proof. unfold SetSetupStep, SetConnectionSetupStep. calmly. Qed.

Lemma calm_SetSetupError e : calm (SetSetupError e).
Proof. unfold SetSetupError, SetConnectionSetupError. calmly. Qed.

Lemma calm_MarkHealthState s : calm (MarkHealthState s).
Proof. unfold MarkHealthState, SetConnectionHealthState. calmly. Qed.

#[local] Hint Resolve calm_SetState calm_SetSetupStep calm_SetSetupError calm_MarkHealthState : calm.

Lemma calm_AuthFailed msg : calm (HandleAuthFailed msg).
Proof. unfold HandleAuthFailed. calmly. Qed.

Lemma calm_eval js : calm (eval_predicate js).
Proof. unfold eval_predicate. calmly. destruct (js_boolean _ _ _ _); calmly. Qed.

#[local] Hint Resolve calm_eval : calm.

Lemma calm_enabled_probes ps : calm (enabled_probes ps).
Proof. induction ps as [|p ps IH]; cbn [enabled_probes]; calmly. unfold isProbeEnabled. destruct (pr_If p); calmly. Qed.

Lemma calm_eligible connector st : st ∈ mf_steps (buildManifestSetupFlow connector) → calm (ms_IsEligible st).
Proof.
  destruct connector as [c|]; [|by intros ?%elem_of_nil].
  assert (∀ p, st ∈ phase_manifest p → calm (ms_IsEligible st)) as Hphase.
  { intros p (spec & -> & _)%list_elem_of_fmap. unfold newSchemaStep.
    case_decide; cbn; unfold newSchemaStepEligibility; destruct (st_If spec); cbn; calmly. }
  cbn [buildManifestSetupFlow mf_steps]. rewrite !elem_of_app. unfold preconnect_steps, auth_manifest, configure_steps.
  intros [[Hst|Hst]|Hst]; repeat case_match; try (by apply elem_of_nil in Hst); eauto.
  apply list_elem_of_fmap in Hst as ([] & -> & _); apply calm_ret.
Qed.

Lemma calm_nextEligible connector start stop : calm (nextEligibleStep (buildManifestSetupFlow connector) start stop).
Proof.
  unfold nextEligibleStep. calmly. set (l := take _ _).
  assert (∀ st, st ∈ l → calm (ms_IsEligible st)) as Hl.
  { intros st Hst%list_elem_of_In. eapply calm_eligible, list_elem_of_In, incl_drop_steps.
    apply list_elem_of_In in Hst. by eapply list_elem_of_In, subseteq_take. }
  clearbody l. induction l as [|st l IH]; cbn [first_eligible]; [calmly|]. apply calm_bind; [apply Hl; by left|].
  intros b. apply calm_if; [calmly|]. apply IH. intros st' ?. apply Hl. by right.
Qed.

Lemma calm_NextStep connector id : calm (NextStep (buildManifestSetupFlow connector) id).
Proof.
  pose proof (calm_nextEligible connector) as Hn. unfold NextStep. case_decide; [apply Hn|].
  destruct (step_index _ id); [|calmly]. apply calm_if; [|apply Hn]. apply calm_bind; [apply Hn|]. intros [st|]; [calmly|].
  apply calm_bind; [|intros []; [calmly|apply Hn]]. unfold verifyEnabled. calmly.
  destruct connector as [c|]; cbn; [|calmly]. unfold cHasEnabledProbes, GetEnabledProbes. calmly. apply calm_enabled_probes.
Qed.

Lemma calm_completeFlow : calm completeFlow.
Proof. unfold completeFlow. calmly. destruct (c_SetupStep _); calmly. Qed.

#[local] Hint Resolve calm_NextStep calm_completeFlow : calm.

Lemma calm_Credentials connector : calm (HandleCredentialsEstablished connector).
Proof.
  unfold HandleCredentialsEstablished. calmly. destruct (c_SetupStep _); [|calmly]. unfold flow. calmly.
  destruct (_ : option ManifestSetupStep); calmly.
Qed.
End frames.

#[export] Hint Resolve calm_call_out calm_getConnection calm_MarkHealthState calm_SetState calm_SetSetupStep calm_SetSetupError
  calm_AuthFailed calm_Credentials calm_ret calm_throw calm_mem_op : calm.
