(* ===== verification/SetupSafety.v ===== *)
(** * What a setup guarantees

    A connection whose connector has probes becomes configured only after a
    verification passed, over every sequence of operations and every failure
    of the calls they make, as long as the OAuth2 callback arrives while an
    auth step is current.  Setup tokens are good for one use by the actor they
    were issued to.  The last part shows what goes wrong where the code does
    less than its comments say. *)

From S2P Require Import Prelude GoNumbers GoStrings RateRules SetupFlow Connection SetupWalk ConnectionFrames.
Open Scope string_scope.
Open Scope list_scope.

Create HintDb setup.
Create HintDb keeps_tokens.

Section setup_safety.
Context {ext : External} {caller : Caller}.

(** ** The operations of a connection *)

Inductive operation : Type :=
  | OStart (id returnToUrl : string) (labels : gmap string string)
  | OSubmit (stepId : string) (data : raw) (returnToUrl : string)
  | OResume (returnToUrl : string)
  | ORetry (returnToUrl : string)
  | OReauth (returnToUrl : string)
  | OReconfigure
  | OCancel
  | OAbort
  | OCallback (exchange : auth_state → result string unit * auth_state)
  | OToken (intent : Intent) (connectionId sessionActor token : string)
  | OVerify (invoke : string → option string)
  | ODisconnect
  | OFinalize
  | OForce.

Definition as_unit {A} (m : op A) : op unit := _ ← m; mret tt.

Lemma getConnection_loads w u w' : getConnection w = (Ok u, w') → w_db w = Some (w_mem w').
Proof.
  unfold getConnection, mbind, op_bind, primitive, call_out. destruct (w_faults w) as [|[] fs]; cbn; [|done|].
  all: destruct (w_db w) as [r|] eqn:Hd; cbn; rewrite ?Hd; [|done].
  all: unfold mret, op_ret; repeat case_match; intros; simplify_eq/=; done.
Qed.

Section connector.
Context (c : Connector).
Let f := buildManifestSetupFlow (Some c).

Definition perform (o : operation) : op unit :=
  let cn := Some c in
  match o with
  | OStart id rt labels => as_unit (startSetup cn id rt labels)
  | OSubmit stepId data rt => as_unit (on_connection (SubmitForm cn stepId data rt))
  | OResume rt => as_unit (on_connection (GetCurrentSetupStepResponse cn rt))
  | ORetry rt => as_unit (RetryConnectionSetup cn rt)
  | OReauth rt => as_unit (ReauthConnection cn rt)
  | OReconfigure => as_unit (on_connection (Reconfigure cn))
  | OCancel => on_connection CancelSetup
  | OAbort => AbortConnection cn
  | OCallback exchange => as_unit (on_connection (CallbackFrom3rdParty cn exchange))
  | OToken intent cid sa token => as_unit (handle cn intent cid sa token)
  | OVerify invoke => runVerifyConnection cn invoke
  | ODisconnect => DisconnectConnection
  | OFinalize => finalizeDisconnectConnectionV1
  | OForce => forceDisconnectConnectionV1
  end.

(** A verify task that loads a connection at the verify step and finds every
    probe that is enabled to succeed. *)
Definition verifies (invoke : string → option string) : op bool :=
  _ ← getConnection;
  conn ← mem;
  probes ← GetEnabledProbes c;
  mret (bool_decide (c_SetupStep conn = Some SetupStepVerify) && forallb (λ p, bool_decide (invoke (pr_Id p) = None)) probes).

(** Whether the current connection was verified, after [o] in [w]. *)
Definition verified_after (verified : bool) (o : operation) (w : world) : bool :=
  match o with
  | OVerify invoke => verified || match (verifies invoke w).1 with Ok b => b | Err _ => false end
  | _ => verified
  end.

(** A connection is started once; the callback arrives while a step of the
    connector is current, not in a failed setup nor during verification. *)
Definition admissible (o : operation) (w : world) : Prop :=
  match o with
  | OStart _ _ _ => False
  | OCallback _ => ∀ r id, w_db w = Some r → c_SetupStep r = Some id → is_Some (step_index (mf_steps f) id)
  | _ => True
  end.

(** Before an operation loads the row. *)
Definition unloaded : Connection := mkConnection "" ConnectionStateSetup "" None None None ∅ ∅.

(** The life of a connection: it is started, then operations happen in any
    order.  Between them time passes, the auth method's state changes and
    calls get ready to fail.  The index says whether it was verified. *)
Inductive reachable : bool → world → Prop :=
  | reachable_start w id returnToUrl labels :
      w_db w = None → w_tokens w = ∅ → w_mem w = unloaded → reachable false (perform (OStart id returnToUrl labels) w).2
  | reachable_env verified w w' :
      reachable verified w → w_db w' = w_db w → w_tokens w' = w_tokens w → w_mem w' = w_mem w → reachable verified w'
  | reachable_step verified w o :
      reachable verified w → admissible o w → reachable (verified_after verified o w) (perform o w).2.

(** ** Triples

    [safe J P m R]: from [P], the computation [m] leaves [J] whether it
    succeeds or fails, and a result satisfies [R]. *)
Definition safe {A} (J P : world → Prop) (m : op A) (R : A → Prop) : Prop :=
  ∀ w, P w → J (m w).2 ∧ ∀ a, (m w).1 = Ok a → R a.

Abbreviation keeps J m := (safe J J m (λ _, True)).

Section triples.
Context (J : world → Prop).

Lemma safe_ret {A} (a : A) (R : A → Prop) : R a → safe J J (mret a) R.
Proof. intros H w HJ. split; [done|]. by intros ? [= <-]. Qed.

Lemma safe_throw {A} e (R : A → Prop) : safe J J (throw e) R.
Proof. by intros w HJ. Qed.

Lemma safe_bind {A B} (m : op A) (k : A → op B) (P : world → Prop) (Q : A → Prop) (R : B → Prop) :
  safe J P m Q → (∀ a, Q a → safe J J (k a) R) → safe J P (m ≫= k) R.
Proof.
  intros Hm Hk w HP. specialize (Hm w HP) as [HJ HQ]. unfold mbind, op_bind.
  destruct (m w) as [[e|a] w1]; [done|]. by apply Hk; [apply HQ|].
Qed.

Lemma safe_or_else {A} e (m : op A) P (R : A → Prop) : safe J P m R → safe J P (or_else e m) R.
Proof. intros Hm w HP. specialize (Hm w HP). unfold or_else. destruct (m w) as [[e'|a] w1]; [by split; [apply Hm|]|done]. Qed.

Lemma safe_ignore {A} (m : op A) P (R : A → Prop) : safe J P m R → safe J P (ignore m) (λ _, True).
Proof. intros Hm w HP. by specialize (Hm w HP) as [? _]. Qed.

Lemma safe_pre {A} (m : op A) (P P' : world → Prop) (R : A → Prop) : (∀ w, P w → P' w) → safe J P' m R → safe J P m R.
Proof. intros HP Hm w Hw. by apply Hm, HP. Qed.

Lemma safe_post {A} (m : op A) (P : world → Prop) (R R' : A → Prop) : safe J P m R' → (∀ a, R' a → R a) → safe J P m R.
Proof. intros Hm HR w Hw. destruct (Hm w Hw) as [? ?]. auto. Qed.

Lemma safe_any {A} (m : op A) (P : world → Prop) (R : A → Prop) : safe J P m R → safe J P m (λ _, True).
Proof. intros Hm. by eapply safe_post. Qed.

Lemma safe_if {A} (b : bool) (m m' : op A) P (R : A → Prop) : safe J P m R → safe J P m' R → safe J P (if b then m else m') R.
Proof. by destruct b. Qed.
End triples.

(** ** Before a verification passed *)

Section unverified.
Context (vc : ValidationContext) (fresh : AuthStepsFresh c).
Hypothesis Hvalid : SetupFlow_Validate vc (cn_SetupFlow c) = [].
Hypothesis Hcredentials : credential_steps f ≠ [].
Hypothesis Hprobe : Exists (λ p, pr_If p = None) (cn_Probes c).

Definition indexed (id : string) : Prop := is_Some (step_index (mf_steps f) id).

(** A step after verification. *)
Definition later (id : string) : Prop := ∃ i, step_index (mf_steps f) id = Some i ∧ (length (credential_steps f) ≤ i)%nat.

Definition row_ok (r : Connection) : Prop :=
  c_State r ≠ ConnectionStateConfigured ∧ ∀ id, c_SetupStep r = Some id → ¬ later id.

Definition unverified (w : world) : Prop :=
  (∀ tok claims expires, w_tokens w !! tok = Some (claims, expires) → indexed (cl_StepId claims)) ∧
  (∀ r, w_db w = Some r → row_ok r) ∧ row_ok (w_mem w).

Abbreviation J := unverified.

Lemma Hok : flow_ok f.
Proof. by eapply flow_ok_build. Qed.

Lemma later_not_reserved id : later id → HasPrefix id ApxyStepPrefix = false.
Proof.
  intros (i & Hi & Hge). apply step_index_lookup in Hi as (st & Hst & <-).
  rewrite (steps_split f), lookup_app_r in Hst by done. unfold f in Hst. rewrite later_steps_build in Hst.
  apply list_elem_of_lookup_2, (list_elem_of_fmap_2 ms_Id) in Hst. change (ms_Id <$> configure_steps c) with (map ms_Id (configure_steps c)) in Hst.
  apply validated_ids in Hvalid as [_ Hu]. rewrite Forall_forall in Hu.
  assert (ms_Id st ∈ user_step_ids c) as (s & -> & Hs)%list_elem_of_fmap; [|by apply Hu].
  rewrite user_step_ids_eq. set_solver.
Qed.

Lemma configure_later id : id ∈ map ms_Id (configure_steps c) → later id.
Proof.
  rewrite <- later_steps_build. intros (st & -> & Hst)%list_elem_of_fmap. fold f in Hst.
  apply list_elem_of_lookup_1 in Hst as (i & Hi). pose proof Hok as (Hnd & _).
  assert (mf_steps f !! (length (credential_steps f) + i)%nat = Some st) as Hs.
  { rewrite (steps_split f), lookup_app_r by lia. by replace (_ + i - _)%nat with i by lia. }
  exists (length (credential_steps f) + i)%nat. split; [by apply step_index_nodup|lia].
Qed.

Lemma reserved_not_later id : HasPrefix id ApxyStepPrefix = true → ¬ later id.
Proof. intros Hp Hl%later_not_reserved. congruence. Qed.

Lemma mem_rule {B} (k : Connection → op B) (R : B → Prop) :
  (∀ conn, row_ok conn → safe J (λ w, J w ∧ w_mem w = conn) (k conn) R) → safe J J (mem ≫= k) R.
Proof. intros Hk w HJ. apply (Hk (w_mem w)); [apply HJ|done]. Qed.

Lemma keeps_mem {A} (k : Connection → op A) : (∀ conn, row_ok conn → keeps J (k conn)) → keeps J (mem ≫= k).
Proof. intros Hk. apply mem_rule. intros conn Hc. eapply safe_pre; [by intros w [? _]|]. by apply Hk. Qed.

Lemma mem_at {B} (P : Connection → Prop) (k : Connection → op B) (R : B → Prop) :
  (∀ conn, P conn → row_ok conn → safe J J (k conn) R) → safe J (λ w, J w ∧ P (w_mem w)) (mem ≫= k) R.
Proof. intros Hk w [HJ HP]. apply (Hk (w_mem w)); [done|apply HJ|done]. Qed.

(** One rule of the triples for each construct; calls by the hints. *)
Ltac keep :=
  repeat (lazymatch goal with
    | |- safe _ _ (mret _) _ => apply safe_ret; done
    | |- safe _ _ (throw _) _ => apply safe_throw
    | |- safe _ _ (or_else _ _) _ => apply safe_or_else
    | |- safe _ _ (mbind _ mem) _ => apply keeps_mem; intros ? ?
    | |- safe _ _ (mbind _ _) _ => eapply (safe_bind _ _ _ _ (λ _, True)); [|intros ? _]
    | |- safe _ _ (if decide _ then _ else _) _ => case_decide
    | |- safe _ _ (if _ then _ else _) _ => apply safe_if
    | |- safe _ _ _ _ => solve [eauto with setup]
    end).

(** *** Calls *)

Lemma keeps_call_out : keeps J call_out.
Proof. intros w HJ. unfold call_out. by destruct (w_faults w) as [|b fs]. Qed.

Lemma keeps_in_auth {A} (g : auth_state → result op_error A * auth_state) : keeps J (in_auth g).
Proof. intros w HJ. unfold in_auth. by destruct (g (w_auth w)) as [r a]. Qed.

Definition row_stable (g : Connection → Connection) : Prop := ∀ r, row_ok r → row_ok (g r).

Lemma keeps_db_update g : row_stable g → keeps J (db_update g).
Proof.
  intros Hg. eapply safe_bind; [apply keeps_call_out|]. intros _ _ w HJ. pose proof HJ as (Ht & Hd & Hm). unfold primitive.
  destruct (w_db w) as [r|] eqn:Hw; [|by split]. split; [|done].
  split_and!; [done| |done]. cbn. intros ? [= <-]. by apply Hg, Hd.
Qed.

Lemma keeps_in_memory g : row_stable g → keeps J (in_memory g).
Proof. intros Hg w (Ht & Hd & Hm). split; [|done]. split_and!; [done|done|by apply Hg]. Qed.

Lemma keeps_update g : row_stable g → keeps J (update g).
Proof. intros Hg. eapply safe_bind; [by apply keeps_db_update|]. intros _ _. by apply keeps_in_memory. Qed.

Lemma stable_state s : s ≠ ConnectionStateConfigured → row_stable (set_State s).
Proof. by intros Hs r [_ ?]. Qed.

Lemma stable_step o : (∀ id, o = Some id → ¬ later id) → row_stable (set_SetupStep o).
Proof. by intros Ho r [? _]. Qed.

Lemma keeps_getConnection : keeps J getConnection.
Proof.
  eapply safe_bind; [apply keeps_call_out|]. intros _ _ w HJ. pose proof HJ as (Ht & Hd & Hm). unfold primitive.
  destruct (w_db w) as [r|] eqn:Hw; [|by split].
  eapply safe_bind; [apply keeps_call_out|by intros; apply safe_ret|].
  split; [exact Ht|split; [apply HJ|by apply Hd]].
Qed.

Lemma keeps_DeleteConnection : keeps J DeleteConnection.
Proof. eapply safe_bind; [apply keeps_call_out|]. by intros _ _ w (? & ? & ?). Qed.

Lemma keeps_Enqueue : keeps J EnqueueVerifyConnection.
Proof. eapply safe_bind; [apply keeps_call_out|]. by intros _ _ w HJ. Qed.

Lemma keeps_resolve key : keeps J (resolveRequiredActionNotifications key).
Proof. eapply safe_bind; [apply keeps_call_out|]. by intros _ _ w HJ. Qed.

Lemma keeps_Mint cid stepId a intent rt : indexed stepId → keeps J (Mint cid stepId a intent rt).
Proof.
  intros Hi. unfold Mint. case_decide; [apply safe_throw|]. eapply safe_bind; [apply keeps_call_out|].
  intros _ _ w (Ht & Hd & Hm). split; [|done]. split_and!; [|done|done]. cbn. intros tok claims ex.
  rewrite lookup_insert_Some. intros [[_ [= <- _]]|[_ ?]]; [done|by eapply Ht].
Qed.

Lemma safe_consume token : safe J J (VerifyAndConsume token) (λ claims, indexed (cl_StepId claims)).
Proof.
  unfold VerifyAndConsume. case_decide; [apply safe_throw|]. eapply safe_bind; [apply keeps_call_out|].
  intros _ _ w (Ht & Hd & Hm). unfold primitive. destruct (w_tokens w !! token) as [[claims ex]|] eqn:Htok; [|by split].
  assert (J (with_tokens (delete token (w_tokens w)) w)) as HJ.
  { split_and!; [|done|done]. cbn. intros tok cl ex'. rewrite lookup_delete_Some. intros [_ ?]. by eapply Ht. }
  destruct (w_now w <? ex)%Z; split; [done| |done|done]. intros ? [= <-]. by eapply Ht.
Qed.

#[local] Hint Resolve keeps_call_out keeps_in_auth keeps_db_update keeps_update keeps_getConnection keeps_DeleteConnection
  keeps_Enqueue keeps_resolve keeps_Mint : setup.

(** *** The manifest's steps *)

Lemma keeps_GetConfiguration : keeps J GetConfiguration.
Proof. apply keeps_mem. intros conn Hc. destruct (c_Configuration conn); keep. Qed.

#[local] Hint Resolve keeps_GetConfiguration : setup.

Lemma keeps_eval js : keeps J (eval_predicate js).
Proof. unfold eval_predicate. keep. destruct (js_boolean _ _ _ _); keep. Qed.

#[local] Hint Resolve keeps_eval : setup.

Lemma safe_enabled_probes ps : safe J J (enabled_probes ps) (λ ps', ∀ p, p ∈ ps → pr_If p = None → p ∈ ps').
Proof.
  induction ps as [|p ps IH]; cbn [enabled_probes]; [apply safe_ret; by intros p ?%elem_of_nil|].
  eapply (safe_bind _ _ _ _ (λ b, pr_If p = None → b = true)).
  { unfold isProbeEnabled. destruct (pr_If p); [|by apply safe_ret]. eapply safe_post; [apply keeps_eval|done]. }
  intros b Hb. eapply safe_bind; [exact IH|]. intros rest Hrest. apply safe_ret.
  intros q [->|Hq]%elem_of_cons Hnone; [rewrite Hb by done; by left|].
  destruct b; [right|]; by apply Hrest.
Qed.

Lemma HasProbes_true : mf_hasProbes f = true.
Proof. unfold f. cbn. unfold HasProbes. apply bool_decide_eq_true. destruct (cn_Probes c); [by apply Exists_nil in Hprobe|cbn; lia]. Qed.

Lemma safe_verifyEnabled : safe J J (verifyEnabled f) (λ b, b = true).
Proof.
  unfold verifyEnabled. rewrite HasProbes_true. unfold f. cbn [buildManifestSetupFlow mf_hasEnabledProbes]. unfold cHasEnabledProbes.
  eapply safe_bind; [apply safe_enabled_probes|]. intros ps Hps. apply safe_ret. apply bool_decide_eq_true.
  apply Exists_exists in Hprobe as (p & Hp & Hnone). specialize (Hps p Hp Hnone). destruct ps; [by apply elem_of_nil in Hps|cbn; lia].
Qed.

(** What the code of a step may do. *)
Record step_keeps (st : ManifestSetupStep) : Prop := {
  sk_eligible : keeps J (ms_IsEligible st);
  sk_submit : ∀ data, keeps J (ms_OnSubmit st data);
  sk_render : ∀ rt, keeps J (ms_RenderRedirect st rt)
}.

Lemma keeps_eligibility spec : keeps J (default (mret true) (newSchemaStepEligibility spec)).
Proof. unfold newSchemaStepEligibility. destruct (st_If spec); cbn; keep. Qed.

Lemma keeps_SetConfiguration cfg : keeps J (SetConfiguration cfg).
Proof.
  unfold SetConfiguration. eapply (safe_bind _ _ _ _ (λ _, True)); [keep|]. intros _ _.
  apply (keeps_update (set_Configuration _)). by intros r [? ?].
Qed.

#[local] Hint Resolve keeps_eligibility keeps_SetConfiguration : setup.

Lemma schema_step_keeps spec : indexed (st_Id spec) → step_keeps (newSchemaStep spec).
Proof.
  intros Hi. unfold newSchemaStep. case_decide as Hd; (split; [apply keeps_eligibility|intros data|intros rt]); cbn [newSchemaRedirectStep newSchemaFormStep NewRedirectStep NewFormStep ms_OnSubmit ms_RenderRedirect]; keep.
  - destruct (st_Redirect spec) as [url|]; keep.
    destruct (mustache_Render _ _ _ _); unfold mintReturnURL; keep.
  - destruct (ValidateAndMergeData _ _ _ _); keep.
Qed.

Lemma steps_keep st : st ∈ mf_steps f → step_keeps st.
Proof.
  intros Hst. assert (indexed (ms_Id st)) as Hi.
  { pose proof Hok as (Hnd & _). apply list_elem_of_lookup_1 in Hst as (i & Hi). exists i. by apply step_index_nodup. }
  assert (∀ p, st ∈ phase_manifest p → step_keeps st) as Hphase.
  { intros p (spec & -> & _)%list_elem_of_fmap. apply schema_step_keeps. by rewrite <- newSchemaStep_id. }
  unfold f in Hst. cbn [buildManifestSetupFlow mf_steps] in Hst. rewrite !elem_of_app in Hst. destruct Hst as [[Hst|Hst]|Hst].
  - unfold preconnect_steps in Hst. destruct (HasPreconnect _); [by eapply Hphase|by apply elem_of_nil in Hst].
  - unfold auth_manifest in Hst. destruct (getAuthMethodFactory c) as [m|]; [|by apply elem_of_nil in Hst].
    apply list_elem_of_fmap in Hst as ([] & -> & _); split; intros; cbn [NewFormStep NewRedirectStep ms_IsEligible ms_OnSubmit ms_RenderRedirect from_option]; keep.
  - unfold configure_steps in Hst. destruct (HasConfigure _); [by eapply Hphase|by apply elem_of_nil in Hst].
Qed.

Lemma verify_keeps : step_keeps NewVerifyStep.
Proof. split; intros; cbn [NewVerifyStep ms_IsEligible ms_OnSubmit ms_RenderRedirect]; keep. Qed.

(** *** Moving through the manifest *)

Definition reached (o : option ManifestSetupStep) : Prop :=
  ∃ st, o = Some st ∧ step_keeps st ∧ ¬ later (ms_Id st).

Lemma keeps_first_eligible l : Forall step_keeps l → keeps J (first_eligible l).
Proof. induction 1 as [|st l Hst Hl IH]; cbn [first_eligible]; keep. apply (sk_eligible _ Hst). Qed.

Lemma safe_nextEligibleStep start stop : (-1 ≤ stop)%Z →
  safe J J (nextEligibleStep f start stop)
    (λ o, ∀ st, o = Some st → ∃ i, mf_steps f !! i = Some st ∧ (start ≤ Z.of_nat i ≤ stop)%Z).
Proof.
  intros Hstop w HJ. split.
  - assert (keeps J (nextEligibleStep f start stop)) as Hk; [|by apply Hk]. unfold nextEligibleStep. keep.
    apply keeps_first_eligible, Forall_forall. intros st Hst. apply steps_keep.
    apply list_elem_of_In. apply list_elem_of_In in Hst. eapply incl_drop_steps.
    by eapply list_elem_of_In, subseteq_take, list_elem_of_In.
  - intros o Ho st ->. eapply nextEligibleStep_range; [done|].
    by rewrite (surjective_pairing (nextEligibleStep f start stop w)), Ho.
Qed.

Lemma credential_reached i st :
  mf_steps f !! i = Some st → (Z.of_nat i ≤ mf_authBoundary f)%Z → reached (Some st).
Proof.
  intros Hi Hle. pose proof Hok as (Hnd & _). pose proof (length_credential f Hok) as Hl. exists st. split; [done|].
  split; [by eapply steps_keep, list_elem_of_lookup_2|]. intros (j & Hj & Hge).
  rewrite (step_index_nodup _ _ _ Hnd Hi) in Hj. simplify_eq. lia.
Qed.

Lemma verify_reached : reached (Some NewVerifyStep).
Proof. exists NewVerifyStep. split_and!; [done|apply verify_keeps|by apply reserved_not_later]. Qed.

(** From credential step [start], the next one or verification. *)
Lemma safe_toward_verify start (m : op (option ManifestSetupStep)) :
  safe J J (next ← nextEligibleStep f start (mf_authBoundary f);
            match next with
            | Some st => mret (Some st)
            | None => verify ← verifyEnabled f; if verify : bool then mret (Some NewVerifyStep) else m
            end) reached.
Proof.
  assert (-1 ≤ mf_authBoundary f)%Z as Hb by (pose proof Hok as (_ & _ & _ & ?); lia).
  eapply safe_bind; [by apply safe_nextEligibleStep|]. intros [st|] Hst.
  - destruct (Hst st eq_refl) as (i & Hi & Hr). apply safe_ret. eapply credential_reached; [exact Hi|apply Hr].
  - eapply safe_bind; [apply safe_verifyEnabled|]. intros ? ->. apply safe_ret, verify_reached.
Qed.

Lemma boundary_nonneg : (0 ≤ mf_authBoundary f)%Z.
Proof. pose proof (length_credential f Hok) as Hl. destruct (credential_steps f); [done|cbn [length] in Hl; lia]. Qed.

Lemma safe_FirstStep : safe J J (FirstStep f) reached.
Proof.
  unfold FirstStep. rewrite HasProbes_true, bool_decide_true by apply boundary_nonneg. apply safe_toward_verify.
Qed.

Lemma indexed_not_verify id : indexed id → id ≠ SetupStepVerify.
Proof.
  intros [i (st & Hst & Hid)%step_index_lookup] ->. pose proof Hok as (_ & Hv & _). apply Hv. rewrite <- Hid.
  apply (list_elem_of_fmap_2 ms_Id). by eapply list_elem_of_lookup_2.
Qed.

Lemma safe_NextStep id : indexed id → ¬ later id → safe J J (NextStep f id) reached.
Proof.
  intros Hi Hnl. unfold NextStep. rewrite decide_False by (by apply indexed_not_verify).
  destruct Hi as [i Hi]. rewrite Hi, HasProbes_true. pose proof (length_credential f Hok) as Hl.
  rewrite bool_decide_true; [apply safe_toward_verify|].
  assert (¬ length (credential_steps f) ≤ i)%nat; [|lia]. intros Hge. apply Hnl. by exists i.
Qed.

(** What the manifest finds under an id. *)
Definition found (id : string) (o : option ManifestSetupStep) : Prop :=
  match o with
  | Some st => step_keeps st ∧ ms_Id st = id ∧ (st = NewVerifyStep ∨ indexed id)
  | None => id ≠ SetupStepVerify
  end.

Lemma safe_StepById id : safe J J (StepById f id) (found id).
Proof.
  unfold StepById. case_decide as Hne; [by apply safe_ret; subst|]. rewrite HasProbes_true, andb_true_r. case_bool_decide as Hv.
  { eapply safe_bind; [apply safe_verifyEnabled|]. intros ? ->. apply safe_ret. split_and!; [apply verify_keeps|done|by left]. }
  destruct (step_index (mf_steps f) id) as [i|] eqn:Hi; [|by apply safe_ret].
  pose proof Hi as (st & Hst & Hid)%step_index_lookup. pose proof (steps_keep st (list_elem_of_lookup_2 _ _ _ Hst)) as Hk.
  eapply (safe_bind _ _ _ _ (λ _, True)).
  - unfold isStepEligible. case_decide; [by apply safe_ret|]. rewrite Nat2Z.id, Hst. apply Hk.
  - intros b _. apply safe_ret. rewrite Hst. destruct b; [|done]. split_and!; [done|done|by right; exists i].
Qed.

(** *** Operations *)

Lemma keeps_enter id : ¬ later id → keeps J (SetSetupStep (Some id)).
Proof. intros Hn. apply (keeps_update (set_SetupStep _)), stable_step. by intros ? [= <-]. Qed.

Lemma keeps_SetSetupError e : keeps J (SetSetupError e).
Proof. apply (keeps_update (set_SetupError _)). by intros r [? ?]. Qed.

Lemma keeps_MarkHealthState s : keeps J (MarkHealthState s).
Proof.
  unfold MarkHealthState, SetConnectionHealthState. destruct (IsValidConnectionHealthState s); [|keep]. keep.
  - apply keeps_db_update. by intros r [? ?].
  - apply keeps_in_memory. by intros r [? ?].
Qed.

#[local] Hint Resolve keeps_enter keeps_SetSetupError keeps_MarkHealthState reserved_not_later : setup.

Lemma keeps_render st rt : step_keeps st → keeps J (renderStepResponse st rt).
Proof. intros Hk. unfold renderStepResponse. destruct (ms_Type st); keep. apply Hk. Qed.

Lemma keeps_advance o rt : reached o → keeps J (advanceToStep o rt).
Proof.
  intros (st & -> & Hk & Hn). unfold advanceToStep. pose proof (keeps_render st rt Hk). pose proof (sk_render st Hk). keep.
Qed.

#[local] Hint Resolve keeps_render keeps_advance safe_FirstStep safe_NextStep : setup.

(** The step is computed, then entered. *)
Lemma keeps_goto {B} e (m : op (option ManifestSetupStep)) (k : option ManifestSetupStep → op B) :
  safe J J m reached → (∀ o, reached o → keeps J (k o)) → keeps J (next ← or_else e m; k next).
Proof. intros Hm Hk. eapply safe_bind; [by apply safe_or_else|done]. Qed.

Lemma keeps_startSetup id rt labels : keeps J (startSetup (Some c) id rt labels).
Proof.
  unfold startSetup. eapply (safe_bind _ _ _ _ (λ _, True)).
  - unfold CreateConnection. eapply (safe_bind _ _ _ _ (λ _, True)); [keep|]. intros _ _ w (Ht & _ & _). split; [|done]. split; [done|]. split; [by intros ? [= <-]|done].
  - intros _ _. apply keeps_goto; [apply safe_FirstStep|eauto with setup].
Qed.

Lemma keeps_resolve_auth st o : keeps J (resolveAuthRequiredIfCredentialsEstablished (Some c) st o).
Proof. unfold resolveAuthRequiredIfCredentialsEstablished. destruct o; keep. Qed.

Lemma keeps_SubmitForm stepId data rt : keeps J (SubmitForm (Some c) stepId data rt).
Proof.
  unfold SubmitForm. apply keeps_mem. intros conn [_ Hstep]. eapply (safe_bind _ _ _ _ (λ _, True)).
  { unfold ensureStepMatches. destruct (c_SetupStep conn); keep. }
  intros _ _. eapply safe_bind; [apply safe_or_else, safe_StepById|]. intros [st|]; [|intros _; keep].
  intros (Hk & Hid & Hor). case_decide as Ht; [keep|]. eapply (safe_bind _ _ _ _ (λ _, True)); [apply Hk|]. intros _ _.
  destruct Hor as [->|Hi]; [done|]. rewrite Hid. apply keeps_goto.
  - apply safe_NextStep; [done|]. destruct (c_SetupStep conn) as [id|]; [by apply Hstep|].
    cbn. intros (i & Hx & _). apply step_index_lookup in Hx as (st' & Hst' & Hemp). pose proof Hok as (_ & _ & Hne & _).
    rewrite Forall_forall in Hne. eapply Hne, Hemp. by eapply list_elem_of_lookup_2.
  - intros o Ho. pose proof Ho as (st' & -> & _). keep. apply keeps_resolve_auth.
Qed.

Lemma keeps_resume rt : keeps J (GetCurrentSetupStepResponse (Some c) rt).
Proof.
  unfold GetCurrentSetupStepResponse. apply keeps_mem. intros conn [_ Hstep]. destruct (c_SetupStep conn) as [id|]; [|keep].
  specialize (Hstep id eq_refl). unfold renderResumeResponse. destruct (IsTerminalFailure id); [keep|].
  eapply safe_bind; [apply safe_or_else, safe_StepById|]. intros [st|]; [intros (Hk & _); keep|]. intros Hv.
  unfold ContainsStep. change (mf_steps (flow (Some c))) with (mf_steps f). case_decide; [keep|]. rewrite bool_decide_false by done. cbn [andb].
  case_bool_decide as Hi; [|keep]. apply keeps_goto; [by apply safe_NextStep|eauto with setup].
Qed.

Lemma keeps_restart rt :
  keeps J (_ ← or_else InternalServerError (SetSetupError None);
           first ← or_else InternalServerError (FirstStep (flow (Some c)));
           match first with None => throw BadRequest | Some _ => advanceToStep first rt end).
Proof.
  eapply (safe_bind _ _ _ _ (λ _, True)); [keep|]. intros _ _. apply keeps_goto; [apply safe_FirstStep|].
  intros o Ho. pose proof Ho as (st & -> & _). keep.
Qed.

Lemma keeps_Retry rt : keeps J (RetryConnectionSetup (Some c) rt).
Proof.
  unfold RetryConnectionSetup. keep. destruct (c_SetupStep conn) as [id|]; [|keep].
  destruct (IsTerminalFailure id); [apply keeps_restart|keep].
Qed.

Lemma keeps_Abort : keeps J (AbortConnection (Some c)).
Proof.
  unfold AbortConnection. keep. destruct (c_SetupStep conn) as [id|]; keep.
  - eapply (safe_ignore _ _ _ (λ _, True)). unfold revoke_credentials. destruct (_ ≫= am_revoke); keep.
  - by apply (keeps_update (set_State _)), stable_state.
Qed.

Lemma keeps_AuthFailed msg : keeps J (HandleAuthFailed msg).
Proof. unfold HandleAuthFailed. keep. Qed.

Lemma safe_CredentialsEstablished :
  safe J (λ w, J w ∧ ∀ id, c_SetupStep (w_mem w) = Some id → indexed id) (HandleCredentialsEstablished (Some c)) (λ _, True).
Proof.
  apply (mem_at (λ conn, ∀ id, c_SetupStep conn = Some id → indexed id)). intros conn Hi [_ Hstep].
  destruct (c_SetupStep conn) as [id|]; [|keep]. eapply (safe_bind _ _ _ _ (λ _, True)); [keep|]. intros _ _.
  apply keeps_goto; [apply safe_NextStep; eauto|]. intros o (st & -> & _ & Hn). keep.
Qed.

Lemma callback_keeps exchange w :
  J w → admissible (OCallback exchange) w → J (perform (OCallback exchange) w).2.
Proof.
  intros HJ Hadm. unfold perform, as_unit, on_connection, mbind, op_bind. pose proof (keeps_getConnection w HJ) as [HJ1 _].
  destruct (getConnection w) as [[e|u] w1] eqn:Hg; [done|]. apply getConnection_loads in Hg. cbn in HJ1.
  set (k := CallbackFrom3rdParty (Some c) exchange). enough (J (k w1).2) by (destruct (k w1) as [[e|b] w2]; done).
  unfold k, CallbackFrom3rdParty, mbind, op_bind, primitive. destruct (exchange (w_auth w1)) as [[msg|[]] a].
  - pose proof (keeps_AuthFailed msg (with_auth a w1) HJ1) as [HJ2 _]. by destruct (HandleAuthFailed _ _) as [[e'|[]] w3].
  - destruct (safe_CredentialsEstablished (with_auth a w1)) as [HJ2 _]; [split; [done|intros id Hid; by apply (Hadm (w_mem w1))]|].
    destruct (HandleCredentialsEstablished (Some c) (with_auth a w1)) as [[e|b] w2]; [|done].
    pose proof (keeps_AuthFailed "failed to handle post-auth state transition" w2 HJ2) as [HJ3 _].
    by destruct (HandleAuthFailed _ w2) as [[e'|[]] w3].
Qed.

Lemma verify_failed_keeps probeId err : keeps J (onVerifyFailed (Some c) probeId err).
Proof.
  unfold onVerifyFailed. keep. eapply (safe_ignore _ _ _ (λ _, True)). unfold revoke_credentials.
  destruct (_ ≫= am_revoke); keep.
Qed.

Lemma run_probes_keeps invoke ps :
  forallb (λ p, bool_decide (invoke (pr_Id p) = None)) ps = false → keeps J (run_probes (Some c) invoke ps).
Proof.
  induction ps as [|p ps IH]; cbn [forallb run_probes]; [done|]. destruct (invoke (pr_Id p)) as [err|].
  - intros _. keep. apply verify_failed_keeps.
  - rewrite bool_decide_true by done. exact IH.
Qed.

Lemma verify_keeps_unless invoke w :
  J w → verified_after false (OVerify invoke) w = false → J (perform (OVerify invoke) w).2.
Proof.
  intros HJ. cbn [verified_after orb perform]. unfold verifies, runVerifyConnection, mbind, op_bind, primitive, mem.
  pose proof (keeps_getConnection w HJ) as [HJ1 _]. destruct (getConnection w) as [[e|u] w1]; [by destruct e|]. cbn [snd] in HJ1.
  case_decide as Hs; [|done]. unfold or_else. pose proof (safe_enabled_probes (cn_Probes c) w1 HJ1) as [HJ2 _].
  fold (GetEnabledProbes c) in HJ2. destruct (GetEnabledProbes c w1) as [[e|ps] w2]; [done|]. cbn [fst snd] in *.
  rewrite bool_decide_true by done. cbn [andb]. intros Hf. by apply (run_probes_keeps _ _ Hf).
Qed.

Lemma keeps_configured_only {A} (k : Connection → op A) e :
  keeps J (conn ← mem; if decide (c_State conn ≠ ConnectionStateConfigured) then throw e else k conn).
Proof. apply keeps_mem. intros conn [Hs _]. rewrite decide_True by done. keep. Qed.

Lemma keeps_handle intent cid sa token : keeps J (handle (Some c) intent cid sa token).
Proof.
  unfold handle. case_decide; [keep|]. case_decide; [keep|]. eapply safe_bind; [apply safe_consume|]. intros claims Hi.
  case_decide; [keep|]. case_decide; [keep|]. case_decide; [keep|]. destruct intent.
  - unfold doAdvance. eapply (safe_bind _ _ _ _ (λ _, True)); [keep|]. intros _ _. apply mem_rule. intros conn _.
    case_decide as Hs; [|eapply safe_pre; [|apply safe_throw]; by intros w [? _]].
    apply safe_or_else. eapply safe_pre; [|apply safe_CredentialsEstablished]. intros w [HJ Hw]. split; [done|].
    rewrite Hw, Hs. by intros id [= <-].
  - unfold doAbort. keep. apply keeps_Abort.
Qed.

Lemma keeps_SetConnectionState st : st ≠ ConnectionStateConfigured → keeps J (SetConnectionState st).
Proof. intros Hs. by apply keeps_db_update, stable_state. Qed.

Lemma keeps_disconnects :
  keeps J DisconnectConnection ∧ keeps J finalizeDisconnectConnectionV1 ∧ keeps J forceDisconnectConnectionV1.
Proof.
  pose proof (keeps_SetConnectionState ConnectionStateDisconnected ltac:(done)) as Hset.
  split; [|split]; unfold DisconnectConnection, finalizeDisconnectConnectionV1, forceDisconnectConnectionV1, startDisconnectConnectionWorkflow; keep.
  - by apply keeps_SetConnectionState.
  - by intros w (? & ? & ?).
  - by apply (keeps_update (set_State _)), stable_state.
  - intros w HJ. specialize (Hset w HJ) as [HJ1 _]. unfold primitive. by destruct (SetConnectionState _ w) as [[[]|[]] w1].
Qed.

Lemma as_unit_keeps {A} (m : op A) w : keeps J m → J w → J (as_unit m w).2.
Proof. intros Hm HJ. unfold as_unit. assert (keeps J (_ ← m; mret tt)) as Hk by (keep; done). by apply Hk. Qed.

Lemma perform_keeps o w : J w → admissible o w → verified_after false o w = false → J (perform o w).2.
Proof.
  intros HJ Hadm Hv. assert (∀ A (m : op A), keeps J m → J (as_unit (on_connection m) w).2) as Hon.
  { intros A m Hm. apply as_unit_keeps; [|done]. unfold on_connection. by keep. }
  pose proof keeps_disconnects as (Hd1 & Hd2 & Hd3).
  destruct o; cbn [perform]; [done|..|by apply Hd1|by apply Hd2|by apply Hd3].
  - apply Hon, keeps_SubmitForm.
  - apply Hon, keeps_resume.
  - apply as_unit_keeps; [apply keeps_Retry|done].
  - apply as_unit_keeps; [|done]. unfold ReauthConnection. eapply (safe_bind _ _ _ _ (λ _, True)); [keep|]. intros _ _. apply keeps_configured_only.
  - apply Hon, keeps_configured_only.
  - assert (keeps J (on_connection CancelSetup)) as Hk; [|by apply Hk].
    eapply (safe_bind _ _ _ _ (λ _, True)); [keep|]. intros _ _. apply keeps_configured_only.
  - by apply keeps_Abort.
  - by apply callback_keeps.
  - apply as_unit_keeps; [apply keeps_handle|done].
  - by apply verify_keeps_unless.
Qed.

Lemma reachable_unverified verified w : reachable verified w → verified = false → J w.
Proof.
  induction 1 as [w id rt labels Hd Ht Hm|verified w w' _ IH Hd Ht Hm|verified w o _ IH Hadm]; intros Hv.
  - apply as_unit_keeps; [apply keeps_startSetup|]. split; [by rewrite Ht|]. by rewrite Hd, Hm.
  - destruct (IH Hv) as (? & ? & ?). unfold unverified. by rewrite Hd, Ht, Hm.
  - assert (verified = false) as ->.
    { destruct o; cbn [verified_after] in Hv; try done. by apply orb_false_elim in Hv as [? _]. }
    apply perform_keeps; [by apply IH|done|done].
Qed.
End unverified.

(** C5: A connection is not put to use unverified.  Take a validated connector
    with a credential step and a probe that is always enabled, whose auth method
    adds steps under ids of their own, and sequences in which OAuth2 callbacks
    arrive while a step of the connector is current: at the verification and at
    the two steps of a failed setup the code accepts them too, and then
    completes the setup, as [setup_defects] shows.  Whatever such sequence of
    submissions, resumptions, retries, re-authentications,
    callbacks, token redemptions, verify tasks, cancellations, aborts and
    disconnects follows the start of a connection, and whichever of their
    database, queue and key calls fail, the connection is in state configured,
    or at a configure step, only if a verify task found it at the verify step
    with every enabled probe succeeding. *)
Theorem configured_only_after_verification vc verified w r :
  SetupFlow_Validate vc (cn_SetupFlow c) = [] → AuthStepsFresh c → preconnect_steps c ++ auth_manifest c ≠ [] →
  Exists (λ p, pr_If p = None) (cn_Probes c) →
  reachable verified w → w_db w = Some r →
  c_State r = ConnectionStateConfigured ∨ (∃ id, c_SetupStep r = Some id ∧ id ∈ map ms_Id (configure_steps c)) →
  verified = true.
Proof.
  intros Hv Hfresh Hne Hp Hr Hdb Hs. destruct verified; [done|]. exfalso.
  rewrite <- credential_steps_build in Hne. destruct (reachable_unverified vc Hfresh Hv Hne Hp _ _ Hr eq_refl) as (_ & Hd & _).
  destruct (Hd r Hdb) as [? Hn]. destruct Hs as [?|(id & Hid & Hin)]; [done|].
  apply (Hn id Hid). by eapply configure_later.
Qed.
End connector.

(** ** Setup tokens are used once *)

(** Computations that leave the setup tokens alone. *)
Definition keeps_tokens {A} (m : op A) : Prop := ∀ w, w_tokens (m w).2 = w_tokens w.

Lemma tokens_calm {A} (m : op A) : calm m → keeps_tokens m.
Proof. intros Hm w. apply (calm_tokens _ _ (Hm w)). Qed.

Lemma tokens_bind {A B} (m : op A) (k : A → op B) : keeps_tokens m → (∀ a, keeps_tokens (k a)) → keeps_tokens (m ≫= k).
Proof. intros Hm Hk w. specialize (Hm w). unfold mbind, op_bind. destruct (m w) as [[e|a] w1]; [done|]. by rewrite Hk. Qed.

Lemma tokens_or_else {A} e (m : op A) : keeps_tokens m → keeps_tokens (or_else e m).
Proof. intros Hm w. specialize (Hm w). unfold or_else. by destruct (m w) as [[?|?] ?]. Qed.

Lemma tokens_ignore {A} (m : op A) : keeps_tokens m → keeps_tokens (ignore m).
Proof. intros Hm w. apply Hm. Qed.

Lemma tokens_in_auth {A} (g : auth_state → result op_error A * auth_state) : keeps_tokens (in_auth g).
Proof. intros w. unfold in_auth. by destruct (g (w_auth w)). Qed.

Ltac frame :=
  repeat (lazymatch goal with
    | |- keeps_tokens (mbind _ _) => apply tokens_bind; [|intros ?]
    | |- keeps_tokens (or_else _ _) => apply tokens_or_else
    | |- keeps_tokens (ignore _) => apply tokens_ignore
    | |- keeps_tokens (if decide _ then _ else _) => case_decide
    | |- keeps_tokens _ => first [solve [eauto with keeps_tokens] | apply tokens_calm; solve [eauto with calm]]
    end).

#[local] Hint Resolve tokens_in_auth : keeps_tokens.

Lemma tokens_Abort connector : keeps_tokens (AbortConnection connector).
Proof.
  unfold AbortConnection. frame. destruct (c_SetupStep _); [|frame].
  assert (keeps_tokens DeleteConnection) by (unfold DeleteConnection; apply tokens_bind; [frame|done]).
  frame. unfold revoke_credentials. destruct (_ ≫= am_revoke); frame.
Qed.

Lemma bind_err {A B} (m : op A) (k : A → op B) w e w' : m w = (Err e, w') → (m ≫= k) w = (Err e, w').
Proof. intros H. unfold mbind, op_bind. by rewrite H. Qed.

Lemma consume_spec token w claims w1 :
  VerifyAndConsume token w = (Ok claims, w1) →
  ∃ expires, w_tokens w !! token = Some (claims, expires) ∧ (w_now w < expires)%Z ∧
    w_tokens w1 = delete token (w_tokens w) ∧ w_db w1 = w_db w.
Proof.
  unfold VerifyAndConsume, mbind, op_bind, primitive, call_out. case_decide; [done|].
  destruct (w_faults w) as [|[] fs]; cbn; [|done|];
    (destruct (w_tokens w !! token) as [[cl ex]|] eqn:Ht; [|done]); (destruct (Z.ltb_spec (w_now w) ex); [|done]);
    intros [= <- <-]; by exists ex.
Qed.

Lemma consume_missing token w : w_tokens w !! token = None → ∃ e, (VerifyAndConsume token w).1 = Err e.
Proof.
  intros Ht. unfold VerifyAndConsume, mbind, op_bind, primitive, call_out. case_decide; [by eexists|].
  destruct (w_faults w) as [|[] fs]; cbn; rewrite ?Ht; by eexists.
Qed.

(** The claims are for this endpoint, connection and actor, and an advance is
    for the step the connection is at. *)
Definition authorizes (claims : Claims) (intent : Intent) (connectionId sessionActor : string) (w : world) : Prop :=
  cl_Intent claims = intent ∧ cl_ConnectionId claims = connectionId ∧ cl_ActorId claims = sessionActor ∧
  (intent = IntentAdvance → ∃ r, w_db w = Some r ∧ c_SetupStep r = Some (cl_StepId claims)).

End setup_safety.

(** ** Concrete runs *)

Definition market : string := "https://market.example.com".

(** The token exchange succeeds and stores a token. *)
Definition exchange_ok : auth_state → result string unit * auth_state := λ _, (Ok tt, true).

Definition play (c : Connector) (p : bool * world) (o : operation) : bool * world :=
  (verified_after c p.1 o p.2, (perform c o p.2).2).

Lemma reachable_play c p o : reachable c p.1 p.2 → admissible c o p.2 → reachable c (play c p o).1 (play c p o).2.
Proof. apply reachable_step. Qed.

Lemma callback_admissible c exchange w :
  match w_db w ≫= c_SetupStep with
  | Some id => bool_decide (is_Some (step_index (mf_steps (buildManifestSetupFlow (Some c))) id))
  | None => true
  end = true → admissible c (OCallback exchange) w.
Proof. intros H r id Hr Hid. rewrite Hr in H. cbn in H. rewrite Hid in H. by apply bool_decide_eq_true in H. Qed.

Lemma surjective_pairing_ok {A E W} (p : result E A * W) a : p.1 = Ok a → (Ok a, p.2) = p.
Proof. destruct p. by intros [= ->]. Qed.

Lemma some_default {A} (o : option A) d : match o with Some _ => true | None => false end = true → o = Some (default d o).
Proof. by destruct o. Qed.

Definition started (c : Connector) : bool * world := (false, (perform c (OStart "cxn_1" market ∅) sample_world).2).

Definition setup_run : list operation :=
  [OSubmit "tenant" [("tenant", "x")] market; OCallback exchange_ok; OVerify (λ _, None); OSubmit "region" [("region", "x")] market].

Lemma configured_only_after_verification_witness : (foldl (play sample_connector) (started sample_connector) setup_run).1 = true.
Proof.
  refine (configured_only_after_verification sample_connector [] _ (foldl (play sample_connector) (started sample_connector) setup_run).2
    (default blank (w_db (foldl (play sample_connector) (started sample_connector) setup_run).2)) eq_refl sample_fresh _ _ _ _ _).
  - done.
  - by apply Exists_cons_hd.
  - cbn [foldl setup_run]. apply reachable_play; [apply reachable_play; [apply reachable_play; [apply reachable_play|]|]|]; [|exact I| |exact I|exact I].
    + exact (reachable_start sample_connector sample_world "cxn_1" market ∅ eq_refl eq_refl eq_refl).
    + apply callback_admissible. vm_compute. reflexivity.
  - apply some_default. vm_compute. reflexivity.
  - left. vm_compute. reflexivity.
Defined.

(** A partner's page before anything else, and a region afterwards. *)
Definition partner_connector : Connector :=
  mkConnector (Some (mkFlow (Some [mkStep "partner" "redirect" "" "" None None [] None (Some "https://partner.example.com/?done={{RETURN_ADVANCE}}")])
                            (Some [sample_form "region" "region" None]))) None [].


(** ** Where the code does less than it means to *)

Definition after (c : Connector) (os : list operation) : world := foldl (λ w o, (perform c o w).2) sample_world os.

(** State, step and health of the connection after a run. *)
Definition standing (w : world) : option (ConnectionState * option string * HealthState) :=
  (λ r, (c_State r, c_SetupStep r, c_HealthState r)) <$> w_db w.

Definition refused (c : Connector) (o : operation) (w : world) : bool :=
  match (perform c o w).1 with Ok _ => false | Err _ => true end.

Definition setup_ops : list operation := OStart "cxn_1" market ∅ :: setup_run.

Definition oauth2_connector : Connector := mkConnector None (Some (Some sample_oauth2)) [].

Definition api_key_connector : Connector :=
  mkConnector (Some (mkFlow None (Some [sample_form SynthesizedApiKeyCredentialsStepId "api_key" None])))
    (Some (Some (mkAuthMethod (api_key_ManifestSetupSteps (Some ([("api_key", "")], [])) (λ _ _, (Ok tt, true))) None))) [].

Definition give_key : operation := OSubmit SynthesizedApiKeyCredentialsStepId [("api_key", "k")] market.

Definition asking_for_key : Connection :=
  mkConnection "cxn_1" ConnectionStateSetup ConnectionHealthStateHealthy (Some SynthesizedApiKeyCredentialsStepId) None None ∅ ∅.

(** Giving the key leads back to the form that asks for it. *)
Lemma key_asked_again w :
  w_db w = Some asking_for_key ∧ w_faults w = [] →
  w_db (perform api_key_connector give_key w).2 = Some asking_for_key ∧ w_faults (perform api_key_connector give_key w).2 = [].
Proof. destruct w as [db mem a vt dc oc res tok minted now faults]. cbn [w_db w_faults]. intros [-> ->].
  split; [vm_cast_no_check (eq_refl (Some asking_for_key))|vm_cast_no_check (eq_refl (@nil bool))].
Qed.

Lemma key_asked_forever n : w_db (after api_key_connector (OStart "cxn_1" market ∅ :: repeat give_key n)) = Some asking_for_key.
Proof.
  unfold after. cbn [foldl]. set (w := (perform _ _ sample_world).2).
  assert (w_db w = Some asking_for_key ∧ w_faults w = []) as Hw.
  { split; [vm_cast_no_check (eq_refl (Some asking_for_key))|vm_cast_no_check (eq_refl (@nil bool))]. }
  clearbody w.
  revert w Hw. induction n as [|n IH]; intros w Hw; cbn [repeat foldl]; [apply Hw|]. by apply IH, key_asked_again.
Qed.

(** What goes wrong in a setup.  (1) A second OAuth2 callback, after one
    failed, configures the connection without verification and without the
    configure steps; during verification it skips the verification.  (2) A
    connector with probes and no credential step is configured with no
    verification.  (3) Finishing a setup returns a connection that is being
    disconnected to state configured.  (4) An abort token deletes a connection
    that has long left the token's step.  (5) Cancelling after a failed
    re-authentication leaves a configured, healthy connection whose
    credentials were revoked.  (6) Starting an OAuth2 connection without a
    return URL leaves a connection that can be neither aborted, retried,
    re-authenticated nor cancelled.  (7) The return links are not in the
    redirect a user is sent to.  (8) A validated step that shares its id with
    the API key step makes the setup repeat forever. *)
Theorem setup_defects :
  let submit_tenant := OSubmit "tenant" [("tenant", "x")] market in
  let deny := OCallback (λ a, (Err "access_denied", a)) in
  let ok := ConnectionHealthStateHealthy in
  (let w := after sample_connector [OStart "cxn_1" market ∅; submit_tenant; deny; OCallback exchange_ok] in
   standing w = Some (ConnectionStateConfigured, None, ok) ∧ w_verify_tasks w = 0%nat) ∧
  standing (after sample_connector [OStart "cxn_1" market ∅; submit_tenant; OCallback exchange_ok; OCallback exchange_ok])
    = Some (ConnectionStateSetup, Some "region", ok) ∧
  (let w := after (mkConnector None None [mkProbe "ping" None None None]) [OStart "cxn_1" market ∅] in
   standing w = Some (ConnectionStateConfigured, None, ok) ∧ w_verify_tasks w = 0%nat) ∧
  standing (after sample_connector [OStart "cxn_1" market ∅; submit_tenant; OCallback exchange_ok; ODisconnect; OVerify (λ _, None);
                                    OSubmit "region" [("region", "x")] market]) = Some (ConnectionStateConfigured, None, ok) ∧
  (let w := after partner_connector [OStart "cxn_1" market ∅; OToken IntentAdvance "cxn_1" "act_1" "stk_0";
                                     OSubmit "region" [("region", "x")] market; OReconfigure] in
   standing w = Some (ConnectionStateConfigured, Some "region", ok) ∧
   standing (perform partner_connector (OToken IntentAbort "cxn_1" "act_1" "stk_1") w).2 = None) ∧
  (let w := after sample_connector (setup_ops ++ [OReauth market; submit_tenant; OCallback exchange_ok; OVerify (λ _, Some "401"); OCancel]) in
   standing w = Some (ConnectionStateConfigured, None, ok) ∧ w_auth w = false) ∧
  (let w := after oauth2_connector [OStart "cxn_1" "" ∅] in
   standing w = Some (ConnectionStateSetup, None, ok) ∧
   forallb (λ o, refused oauth2_connector o w) [OAbort; ORetry market; OReauth market; OCancel; OReconfigure] = true) ∧
  (startSetup (Some partner_connector) "cxn_1" market ∅ sample_world).1 = Ok (ConnectionSetupRedirect "https://partner.example.com/?done=") ∧
  SetupFlow_Validate [] (cn_SetupFlow api_key_connector) = [] ∧
  ∀ n, standing (after api_key_connector (OStart "cxn_1" market ∅ :: repeat give_key n))
    = Some (ConnectionStateSetup, Some SynthesizedApiKeyCredentialsStepId, ok).
Proof.
  cbv zeta. repeat apply conj;
    lazymatch goal with
    | |- ∀ _ : nat, _ => intros n; unfold standing; by rewrite key_asked_forever
    | |- _ => vm_compute; reflexivity
    end.
Qed.
