(* ===== verification/ProbeHealth.v ===== *)
(** * Probes and health

    Probes run after a connection is set up.  Each outcome is appended to a
    log ([database/connection_probe_outcome.go]); the latest outcomes of a
    probe decide whether the connection turns unhealthy or healthy again
    ([core/connection_probe_health.go], [core/task_probe.go]); a daily task
    prunes the log ([core/task_probe_outcome_cleanup.go]).  The health state is
    shown to be the one that counting every outcome since the beginning gives,
    pruning or not. *)

From S2P Require Import Prelude GoNumbers GoStrings RateRules SetupFlow Connection SetupWalk.
Open Scope string_scope.
Open Scope list_scope.

Section probe_health.
Context {ext : External}.

(** ** The log *)

Definition ProbeOutcomeStatusSuccess : string := "success".
Definition ProbeOutcomeStatusFailure : string := "failure".

Definition InsertProbeOutcome (probeId outcome errorMessage : string) : op unit :=
  if decide (probeId = "") then throw Failed
  else if decide (outcome ≠ ProbeOutcomeStatusSuccess ∧ outcome ≠ ProbeOutcomeStatusFailure) then throw Failed
  else
    _ ← call_out;
    primitive (λ w,
      let msg := if decide (outcome = ProbeOutcomeStatusFailure ∧ errorMessage ≠ "") then Some errorMessage else None in
      (Ok tt, with_minted (S (w_minted w))
                (with_outcomes (mkOutcome (w_minted w) probeId outcome msg (w_now w) :: w_outcomes w) w))).

(** [ORDER BY occurred_at DESC]. *)
Definition by_time_desc (r r' : ConnectionProbeOutcome) : Z := (po_OccurredAt r' - po_OccurredAt r)%Z.

Definition of_probe (probeId : string) (rows : list ConnectionProbeOutcome) : list ConnectionProbeOutcome :=
  List.filter (λ r, bool_decide (po_ProbeId r = probeId)) rows.

Definition recent_outcomes (probeId : string) (rows : list ConnectionProbeOutcome) : list ConnectionProbeOutcome :=
  SortFunc by_time_desc (of_probe probeId rows).

Definition GetRecentProbeOutcomes (probeId : string) (limit : Z) : op (list ConnectionProbeOutcome) :=
  if (limit <=? 0)%Z then mret []
  else _ ← call_out; primitive (λ w, (Ok (take (Z.to_nat limit) (recent_outcomes probeId (w_outcomes w))), w)).

(** Two statements: the ids to keep, then the delete. *)
Definition DeleteOldProbeOutcomes (probeId : string) (keepMinimum olderThan : Z) : op Z :=
  let keepMinimum := if (keepMinimum <? 0)%Z then 0%Z else keepMinimum in
  _ ← call_out;
  protected ← primitive (λ w, (Ok (map po_Id (take (Z.to_nat keepMinimum) (recent_outcomes probeId (w_outcomes w)))), w));
  _ ← call_out;
  primitive (λ w,
    let kept := List.filter (λ r, negb (bool_decide (po_ProbeId r = probeId) && (po_OccurredAt r <? olderThan)%Z
                                        && bool_decide (po_Id r ∉ protected))) (w_outcomes w) in
    (Ok (Z.of_nat (length (w_outcomes w) - length kept)), with_outcomes kept w)).

Definition DistinctProbeIdsForConnection : op (list string) :=
  _ ← call_out; primitive (λ w, (Ok (remove_dups (map po_ProbeId (w_outcomes w))), w)).

(** ** Health *)

Fixpoint streak (matchOutcome : string) (rows : list ConnectionProbeOutcome) : Z :=
  match rows with
  | [] => 0
  | r :: rows => if decide (po_Outcome r = matchOutcome) then (1 + streak matchOutcome rows)%Z else 0
  end.

Definition consecutiveOutcomeStreak (probeId matchOutcome : string) (limit : Z) : op Z :=
  if (limit <=? 0)%Z then mret 0%Z
  else rows ← or_else Failed (GetRecentProbeOutcomes probeId limit); mret (streak matchOutcome rows).

Section connector.
Context (c : Connector).

(** Whether another probe is over its failure threshold. *)
Fixpoint other_failing (probeId : string) (probes : list Probe) : op bool :=
  match probes with
  | [] => mret false
  | q :: probes =>
      if decide (pr_Id q = probeId) then other_failing probeId probes
      else
        otherStreak ← consecutiveOutcomeStreak (pr_Id q) ProbeOutcomeStatusFailure (EffectiveFailureThreshold q);
        if (EffectiveFailureThreshold q <=? otherStreak)%Z then mret true else other_failing probeId probes
  end.

Definition maybeRecoverHealth (probe : Probe) : op unit :=
  conn ← mem;
  if decide (GetHealthState conn = ConnectionHealthStateHealthy) then mret tt
  else
    successStreak ← consecutiveOutcomeStreak (pr_Id probe) ProbeOutcomeStatusSuccess (EffectiveRecoveryThreshold probe);
    if (successStreak <? EffectiveRecoveryThreshold probe)%Z then mret tt
    else
      enabledProbes ← GetEnabledProbes c;
      failing ← other_failing (pr_Id probe) enabledProbes;
      if failing : bool then mret tt else MarkHealthState ConnectionHealthStateHealthy.

(** [stamp] is [maybeUpdateApiKeyLastValidated] on the stored credential of an
    API key connector; its errors are only logged.  [invokeErr] is the error of the probe, if any. *)
Definition recordPeriodicProbeOutcome (stamp : option (Z → auth_state → auth_state)) (probe : Probe) (invokeErr : option string) : op unit :=
  let outcome := match invokeErr with None => ProbeOutcomeStatusSuccess | Some _ => ProbeOutcomeStatusFailure end in
  _ ← or_else Failed (InsertProbeOutcome (pr_Id probe) outcome (default "" invokeErr));
  match invokeErr with
  | None =>
      _ ← (match stamp with
           | None => mret tt
           | Some stamp => ignore (_ ← call_out; primitive (λ w, (Ok tt, with_auth (stamp (w_now w) (w_auth w)) w)))
           end);
      maybeRecoverHealth probe
  | Some _ =>
      n ← consecutiveOutcomeStreak (pr_Id probe) ProbeOutcomeStatusFailure (EffectiveFailureThreshold probe);
      if (EffectiveFailureThreshold probe <=? n)%Z then MarkHealthState ConnectionHealthStateUnhealthy else mret tt
  end.

(** The first probe with the id; [None] when there is none or it is disabled. *)
Fixpoint enabled_probe (probeId : string) (probes : list Probe) : op (option Probe) :=
  match probes with
  | [] => mret None
  | p :: probes =>
      if decide (pr_Id p ≠ probeId) then enabled_probe probeId probes
      else enabled ← isProbeEnabled p; mret (if enabled : bool then Some p else None)
  end.

Definition GetEnabledProbe (probeId : string) : op (option Probe) := enabled_probe probeId (cn_Probes c).

(** [invoke] is the outcome of the probe's request. *)
Definition runProbeInternal (stamp : option (Z → auth_state → auth_state)) (probeId : string) (invoke : option string) : op unit :=
  _ ← primitive (λ w, match getConnection w with
                      | (Err NotFound, w') => (Err SkipRetry, w')
                      | r => r
                      end);
  probe ← GetEnabledProbe probeId;
  match probe with
  | None => throw SkipRetry
  | Some probe =>
      _ ← ignore (recordPeriodicProbeOutcome stamp probe invoke);
      match invoke with None => mret tt | Some _ => throw Failed end
  end.

(** ** Pruning *)

Definition keep_larger (a b : Z) : Z := if (b <? a)%Z then a else b.
Definition defaultKeepMinimum : Z := keep_larger DefaultProbeFailureThreshold DefaultProbeRecoveryThreshold.
Definition probeKeepMinimum (p : Probe) : Z := keep_larger (EffectiveFailureThreshold p) (EffectiveRecoveryThreshold p).

(** The last probe with an id wins, as in a map that is filled in order; no
    thresholds are known after an error. *)
Definition enabledProbeThresholdsForConnection : op (list Probe) := _ ← getConnection; GetEnabledProbes c.

Definition keep_minimum (probes : list Probe) (probeId : string) : Z :=
  match List.find (λ p, bool_decide (pr_Id p = probeId)) (rev probes) with
  | Some p => probeKeepMinimum p
  | None => defaultKeepMinimum
  end.

Fixpoint delete_old (probes : list Probe) (cutoff : Z) (probeIds : list string) : op unit :=
  match probeIds with
  | [] => mret tt
  | id :: probeIds => _ ← or_else Failed (DeleteOldProbeOutcomes id (keep_minimum probes id) cutoff); delete_old probes cutoff probeIds
  end.

Definition cleanupProbeOutcomesForConnection (cutoff : Z) : op unit :=
  probes ← primitive (λ w, match enabledProbeThresholdsForConnection w with
                           | (Err _, w') => (Ok [], w')
                           | r => r
                           end);
  probeIds ← or_else Failed DistinctProbeIdsForConnection;
  delete_old probes cutoff probeIds.

(** The part of [runProbeOutcomeCleanup] for one connection; an error is
    logged. *)
Definition runProbeOutcomeCleanup (retention : Z) : op unit :=
  now ← primitive (λ w, (Ok (w_now w), w)); ignore (cleanupProbeOutcomesForConnection (now - retention)%Z).

(** ** The reference: counting every outcome *)

(** Outcomes of known probes, latest first. *)
Abbreviation history := (list (string * bool)).

(** How many of the latest outcomes of a probe are [ok]. *)
Fixpoint run_length (probeId : string) (ok : bool) (h : history) : Z :=
  match h with
  | [] => 0
  | (p, b) :: h =>
      if decide (p = probeId) then (if bool_decide (b = ok) then (1 + run_length probeId ok h)%Z else 0)
      else run_length probeId ok h
  end.

Definition failing (h : history) (q : Probe) : bool := (EffectiveFailureThreshold q <=? run_length (pr_Id q) false h)%Z.
Definition recovered (h : history) (q : Probe) : bool := (EffectiveRecoveryThreshold q <=? run_length (pr_Id q) true h)%Z.

Definition probe_of (id : string) : option Probe := List.find (λ p, bool_decide (pr_Id p = id)) (cn_Probes c).

(** A probe that fails as often in a row as its threshold says makes the
    connection unhealthy; one that succeeds often enough makes it healthy again
    when no other probe is failing. *)
Definition health_step (h : history) (p : Probe) (ok before : bool) : bool :=
  if ok then before || (recovered h p && forallb (λ q, bool_decide (pr_Id q = pr_Id p) || negb (failing h q)) (cn_Probes c))
  else before && negb (failing h p).

Fixpoint healthy_after (start : bool) (h : history) : bool :=
  match h with
  | [] => start
  | (id, ok) :: h' =>
      let before := healthy_after start h' in
      match probe_of id with None => before | Some p => health_step h p ok before end
  end.

Inductive event : Type :=
  | ERun (probeId : string) (invoke : option string)
  | ECleanup (retention : Z).

Definition event_op (stamp : option (Z → auth_state → auth_state)) (e : event) : op unit :=
  match e with
  | ERun probeId invoke => runProbeInternal stamp probeId invoke
  | ECleanup retention => runProbeOutcomeCleanup retention
  end.

(** Events at the given times. *)
Fixpoint run_events (stamp : option (Z → auth_state → auth_state)) (es : list (Z * event)) (w : world) : world :=
  match es with
  | [] => w
  | (t, e) :: es => run_events stamp es (event_op stamp e (with_now t w)).2
  end.

Fixpoint outcomes_of (es : list (Z * event)) (h : history) : history :=
  match es with
  | [] => h
  | (_, ERun id invoke) :: es => outcomes_of es (match probe_of id with Some _ => (id, bool_decide (invoke = None)) :: h | None => h end)
  | (_, ECleanup _) :: es => outcomes_of es h
  end.

(** ** Runs of equal outcomes *)

Fixpoint lead (b : bool) (l : list bool) : Z :=
  match l with [] => 0 | x :: l => if bool_decide (x = b) then (1 + lead b l)%Z else 0 end.

Lemma lead_nonneg b l : (0 ≤ lead b l)%Z.
Proof. induction l as [|x l IH]; cbn; [lia|]. case_bool_decide; lia. Qed.

Lemma lead_take b l (n : Z) : (n <=? lead b (take (Z.to_nat n) l))%Z = (n <=? lead b l)%Z.
Proof.
  assert (∀ k : nat, lead b (take k l) = Z.min (Z.of_nat k) (lead b l)) as Hmin.
  { induction l as [|x l IH]; intros k; [destruct k; cbn; lia|]. destruct k as [|k]; cbn [take lead].
    - change (Z.of_nat 0) with 0%Z. pose proof (lead_nonneg b (x :: l)). cbn [lead] in *. lia.
    - case_bool_decide; [rewrite IH|]; lia. }
  rewrite Hmin. pose proof (lead_nonneg b l). apply eq_true_iff_eq. rewrite !Z.leb_le. lia.
Qed.

Definition is_ok (r : ConnectionProbeOutcome) : bool := bool_decide (po_Outcome r = ProbeOutcomeStatusSuccess).

Definition known_outcome (r : ConnectionProbeOutcome) : Prop :=
  po_Outcome r = ProbeOutcomeStatusSuccess ∨ po_Outcome r = ProbeOutcomeStatusFailure.

Definition status (ok : bool) : string := if ok then ProbeOutcomeStatusSuccess else ProbeOutcomeStatusFailure.

Lemma streak_lead ok rows : Forall known_outcome rows → streak (status ok) rows = lead ok (map is_ok rows).
Proof.
  induction 1 as [|r rows Hr _ IH]; cbn; [done|]. rewrite IH. unfold is_ok.
  destruct Hr as [-> | ->], ok; repeat case_decide; repeat case_bool_decide; done.
Qed.

Definition history_of (id : string) (h : history) : list bool :=
  map snd (List.filter (λ pb, bool_decide (pb.1 = id)) h).

Lemma history_of_cons id p b h : history_of id ((p, b) :: h) = if decide (p = id) then b :: history_of id h else history_of id h.
Proof. unfold history_of. cbn. case_decide; case_bool_decide; done. Qed.

Lemma run_length_lead id ok h : run_length id ok h = lead ok (history_of id h).
Proof.
  induction h as [|[p b] h IH]; [done|]. cbn [run_length]. rewrite history_of_cons. case_decide; [|done]. cbn [lead]. by rewrite IH.
Qed.

Lemma of_probe_cons id r rows : of_probe id (r :: rows) = if decide (po_ProbeId r = id) then r :: of_probe id rows else of_probe id rows.
Proof. unfold of_probe. cbn. case_decide; case_bool_decide; done. Qed.

(** ** The invariant *)

Definition newest_first (rows : list ConnectionProbeOutcome) : Prop :=
  StronglySorted (λ r r', po_OccurredAt r' < po_OccurredAt r)%Z rows.

Lemma newest_first_filter P rows : newest_first rows → newest_first (List.filter P rows).
Proof.
  induction 1 as [|r rows Hs IH Hr]; cbn; [constructor|]. destruct (P r); [|done]. constructor; [done|].
  apply Forall_forall. intros r' Hr'%list_elem_of_In%filter_In. rewrite Forall_forall in Hr. apply Hr, list_elem_of_In, Hr'.
Qed.

Lemma recent_newest id rows : newest_first rows → recent_outcomes id rows = of_probe id rows.
Proof.
  intros Hn. apply SortFunc_sorted_id. apply (newest_first_filter (λ r, bool_decide (po_ProbeId r = id))) in Hn.
  unfold of_probe. induction Hn as [|r l Hs IH Hr]; constructor; [done|]. eapply Forall_impl; [exact Hr|].
  intros r' Hlt. unfold cmp_le, by_time_desc. cbv beta in Hlt. lia.
Qed.

(** The log has, for each probe, as many of its latest outcomes as a decision
    can ask for. *)
Definition enough (h : history) (rows : list ConnectionProbeOutcome) (q : Probe) : Prop :=
  take (Z.to_nat (probeKeepMinimum q)) (map is_ok (of_probe (pr_Id q) rows))
  = take (Z.to_nat (probeKeepMinimum q)) (history_of (pr_Id q) h).

Record log_ok (h : history) (now : Z) (minted : nat) (rows : list ConnectionProbeOutcome) : Prop := {
  lo_sorted : newest_first rows;
  lo_past : Forall (λ r, po_OccurredAt r ≤ now)%Z rows;
  lo_known : Forall known_outcome rows;
  lo_ids : NoDup (map po_Id rows);
  lo_minted : Forall (λ r, (po_Id r < minted)%nat) rows;
  lo_enough : Forall (enough h rows) (cn_Probes c)
}.

Lemma lead_enough h rows q ok n :
  enough h rows q → (n ≤ probeKeepMinimum q)%Z →
  (n <=? lead ok (take (Z.to_nat n) (map is_ok (of_probe (pr_Id q) rows))))%Z = (n <=? run_length (pr_Id q) ok h)%Z.
Proof.
  intros He Hn. assert (take (Z.to_nat n) (map is_ok (of_probe (pr_Id q) rows)) = take (Z.to_nat n) (history_of (pr_Id q) h)) as ->.
  { unfold enough in He. apply (f_equal (take (Z.to_nat n))) in He. rewrite !take_take in He.
    by replace (Z.to_nat n `min` Z.to_nat (probeKeepMinimum q))%nat with (Z.to_nat n) in He by lia. }
  by rewrite lead_take, run_length_lead.
Qed.

Lemma thresholds_kept q : (EffectiveFailureThreshold q ≤ probeKeepMinimum q ∧ EffectiveRecoveryThreshold q ≤ probeKeepMinimum q)%Z.
Proof. unfold probeKeepMinimum, keep_larger. destruct (Z.ltb_spec (EffectiveRecoveryThreshold q) (EffectiveFailureThreshold q)); lia. Qed.

(** ** One event *)

Section steps.
Hypothesis Hids : NoDup (map pr_Id (cn_Probes c)).
Hypothesis Hprobes : Forall (λ p, pr_Id p ≠ "" ∧ pr_If p = None ∧ threshold_errors [] p = []) (cn_Probes c).

Lemma call_out_ok w : w_faults w = [] → call_out w = (Ok tt, w).
Proof. intros Hf. unfold call_out. by rewrite Hf. Qed.

Lemma GetEnabledProbes_all w : GetEnabledProbes c w = (Ok (cn_Probes c), w).
Proof.
  unfold GetEnabledProbes. pose proof Hprobes as Hall. revert Hall. generalize (cn_Probes c) as ps.
  induction 1 as [|p ps (_ & Hif & _) _ IH]; cbn [enabled_probes]; [done|].
  rewrite (bind_ok _ _ w true w) by (unfold isProbeEnabled; by rewrite Hif). by rewrite (bind_ok _ _ _ _ _ IH).
Qed.

Lemma thresholds_positive p : p ∈ cn_Probes c → (1 ≤ EffectiveFailureThreshold p ∧ 1 ≤ EffectiveRecoveryThreshold p)%Z.
Proof.
  rewrite Forall_forall in Hprobes. intros (_ & _ & Ht)%Hprobes. unfold threshold_errors in Ht. apply app_nil in Ht as [H1 H2].
  unfold EffectiveFailureThreshold, EffectiveRecoveryThreshold, DefaultProbeFailureThreshold, DefaultProbeRecoveryThreshold.
  destruct (pr_FailureThreshold p) as [n|], (pr_RecoveryThreshold p) as [m|]; cbn;
    repeat match goal with H : (if (?a <? ?b)%Z then _ else _) = [] |- _ => destruct (Z.ltb_spec a b); [done|] end; lia.
Qed.

Lemma streak_ok id ok n w h now :
  w_faults w = [] → log_ok h now (w_minted w) (w_outcomes w) → (1 ≤ n)%Z →
  consecutiveOutcomeStreak id (status ok) n w = (Ok (lead ok (take (Z.to_nat n) (map is_ok (of_probe id (w_outcomes w))))), w).
Proof.
  intros Hf Hlog Hn. unfold consecutiveOutcomeStreak, GetRecentProbeOutcomes. rewrite (proj2 (Z.leb_gt n 0)) by lia.
  rewrite (bind_ok _ _ w (take (Z.to_nat n) (of_probe id (w_outcomes w))) w).
  - unfold mret, op_ret. do 2 f_equal. rewrite streak_lead, firstn_map; [done|]. apply Forall_take, Forall_forall.
    intros r Hr%list_elem_of_In%filter_In. pose proof (lo_known _ _ _ _ Hlog) as Hk. rewrite Forall_forall in Hk.
    apply Hk, list_elem_of_In, Hr.
  - apply or_else_ok. rewrite (bind_ok _ _ _ _ _ (call_out_ok w Hf)). unfold primitive.
    by rewrite recent_newest by apply (lo_sorted _ _ _ _ Hlog).
Qed.

(** A threshold is met by the log exactly when it is met by the history. *)
Lemma streak_threshold q ok n w h now :
  w_faults w = [] → log_ok h now (w_minted w) (w_outcomes w) → q ∈ cn_Probes c → (1 ≤ n ≤ probeKeepMinimum q)%Z →
  ∃ s, consecutiveOutcomeStreak (pr_Id q) (status ok) n w = (Ok s, w) ∧ (n <=? s)%Z = (n <=? run_length (pr_Id q) ok h)%Z.
Proof.
  intros Hf Hlog Hq Hn. eexists. split; [by eapply streak_ok; [| |lia]|]. apply lead_enough; [|lia].
  pose proof (lo_enough _ _ _ _ Hlog) as He. rewrite Forall_forall in He. by apply He.
Qed.

Lemma other_failing_ok id qs w h now :
  w_faults w = [] → log_ok h now (w_minted w) (w_outcomes w) → incl qs (cn_Probes c) →
  other_failing id qs w = (Ok (negb (forallb (λ q, bool_decide (pr_Id q = id) || negb (failing h q)) qs)), w).
Proof.
  intros Hf Hlog. induction qs as [|q qs IH]; intros Hi; cbn [other_failing forallb]; [done|].
  assert (q ∈ cn_Probes c) as Hq by (apply list_elem_of_In, Hi; by left).
  specialize (IH (λ x Hx, Hi x (or_intror Hx))). case_decide as Hd.
  { rewrite bool_decide_true by done. exact IH. }
  rewrite bool_decide_false by done. cbn [orb].
  destruct (streak_threshold q false (EffectiveFailureThreshold q) w h now) as (s & Hs & Hle); [done|done|done| |].
  { pose proof (thresholds_positive q Hq). pose proof (thresholds_kept q). lia. }
  change (status false) with ProbeOutcomeStatusFailure in Hs. rewrite (bind_ok _ _ _ _ _ Hs). unfold failing. rewrite Hle.
  destruct (EffectiveFailureThreshold q <=? run_length (pr_Id q) false h)%Z; [done|]. cbn [negb andb]. exact IH.
Qed.

(** The world a decision leaves: the log is kept, the health state is set. *)
Definition decided (w w' : world) (healthy : bool) : Prop :=
  w_faults w' = [] ∧ w_outcomes w' = w_outcomes w ∧ w_minted w' = w_minted w ∧
  ∃ r, w_db w' = Some r ∧ bool_decide (GetHealthState r = ConnectionHealthStateHealthy) = healthy.

Lemma MarkHealthState_ok w s b :
  w_faults w = [] → w_db w = Some (w_mem w) → s = (if b : bool then ConnectionHealthStateHealthy else ConnectionHealthStateUnhealthy) →
  ∃ w', MarkHealthState s w = (Ok tt, w') ∧ decided w w' b.
Proof.
  intros Hf Hdb ->. unfold MarkHealthState. replace (IsValidConnectionHealthState _) with true by by destruct b.
  rewrite (bind_ok _ _ w (w_mem w) w) by done. case_decide as Hd.
  - exists w. split; [done|]. split_and!; [done..|]. exists (w_mem w). split; [done|]. rewrite Hd. by destruct b.
  - eexists. split.
    + apply or_else_ok. unfold SetConnectionHealthState. replace (IsValidConnectionHealthState _) with true by by destruct b.
      unfold db_update, in_memory, mbind, op_bind, primitive. rewrite (call_out_ok w Hf), Hdb. reflexivity.
    + split_and!; [done..|]. eexists. split; [done|]. by destruct b.
Qed.

Lemma take_S_cons {A} (x : A) l l' n : take n l = take n l' → take n (x :: l) = take n (x :: l').
Proof.
  destruct n as [|n]; cbn [take]; [done|]. intros Heq. f_equal.
  apply (f_equal (take n)) in Heq. rewrite !take_take in Heq. by replace (n `min` S n)%nat with n in Heq by lia.
Qed.

Lemma log_ok_insert h t t' minted rows id ok msg :
  log_ok h t minted rows → (t < t')%Z →
  log_ok ((id, ok) :: h) t' (S minted) (mkOutcome minted id (status ok) msg t' :: rows).
Proof.
  intros [Hs Hp Hk Hn Hm He] Ht. split.
  - constructor; [done|]. eapply Forall_impl; [exact Hp|]. cbn. intros. lia.
  - constructor; [cbn; lia|]. eapply Forall_impl; [exact Hp|]. cbn. intros. lia.
  - constructor; [|done]. destruct ok; [by left|by right].
  - cbn. constructor; [|done]. intros (r & Heq & Hr)%list_elem_of_fmap. rewrite Forall_forall in Hm. specialize (Hm r Hr). lia.
  - constructor; [cbn; lia|]. eapply Forall_impl; [exact Hm|]. cbn. intros. lia.
  - eapply Forall_impl; [exact He|]. intros q Hq. unfold enough. rewrite history_of_cons, of_probe_cons. cbn [po_ProbeId].
    case_decide; [|done]. cbn [map]. unfold is_ok at 1. cbn [po_Outcome].
    replace (bool_decide (status ok = ProbeOutcomeStatusSuccess)) with ok by by destruct ok. by apply take_S_cons.
Qed.

(** The world after recording an outcome. *)
Definition recorded (h : history) (now : Z) (healthy : bool) (w : world) : Prop :=
  w_faults w = [] ∧ log_ok h now (w_minted w) (w_outcomes w) ∧
  ∃ r, w_db w = Some r ∧ bool_decide (GetHealthState r = ConnectionHealthStateHealthy) = healthy.

Lemma decided_recorded h now w w' b : log_ok h now (w_minted w) (w_outcomes w) → decided w w' b → recorded h now b w'.
Proof. intros Hlog (Hf & Ho & Hm & Hr). split; [done|]. by rewrite Ho, Hm. Qed.

Lemma unchanged_decided w b :
  w_faults w = [] → w_db w = Some (w_mem w) → bool_decide (GetHealthState (w_mem w) = ConnectionHealthStateHealthy) = b → decided w w b.
Proof. intros. split_and!; [done..|]. by exists (w_mem w). Qed.

Lemma recover_ok p w h now :
  w_faults w = [] → w_db w = Some (w_mem w) → log_ok h now (w_minted w) (w_outcomes w) → p ∈ cn_Probes c →
  ∃ w', maybeRecoverHealth p w = (Ok tt, w') ∧
    decided w w' (health_step h p true (bool_decide (GetHealthState (w_mem w) = ConnectionHealthStateHealthy))).
Proof.
  intros Hf Hdb Hlog Hp. unfold maybeRecoverHealth, health_step. rewrite (bind_ok _ _ w (w_mem w) w) by done.
  case_decide as Hd; [exists w; split; [done|]; rewrite bool_decide_true by done; apply unchanged_decided; [done|done|by apply bool_decide_eq_true]|].
  rewrite bool_decide_false by done. cbn [orb].
  destruct (streak_threshold p true (EffectiveRecoveryThreshold p) w h now) as (s & Hs & Hle); [done|done|done| |].
  { pose proof (thresholds_positive p Hp). pose proof (thresholds_kept p). lia. }
  change (status true) with ProbeOutcomeStatusSuccess in Hs. rewrite (bind_ok _ _ _ _ _ Hs). unfold recovered. rewrite <- Hle.
  destruct (Z.ltb_spec s (EffectiveRecoveryThreshold p)).
  { exists w. split; [done|]. rewrite (proj2 (Z.leb_gt _ _)) by lia. apply unchanged_decided; [done|done|by apply bool_decide_eq_false]. }
  rewrite (proj2 (Z.leb_le _ _)) by lia. cbn [andb]. rewrite (bind_ok _ _ _ _ _ (GetEnabledProbes_all w)).
  rewrite (bind_ok _ _ _ _ _ (other_failing_ok (pr_Id p) (cn_Probes c) w h now Hf Hlog (incl_refl _))).
  destruct (forallb _ _); cbn [negb]; [by apply MarkHealthState_ok|].
  exists w. split; [done|]. apply unchanged_decided; [done|done|by apply bool_decide_eq_false].
Qed.

Lemma fail_ok p w h now :
  w_faults w = [] → w_db w = Some (w_mem w) → log_ok h now (w_minted w) (w_outcomes w) → p ∈ cn_Probes c →
  ∃ w', (n ← consecutiveOutcomeStreak (pr_Id p) ProbeOutcomeStatusFailure (EffectiveFailureThreshold p);
         if (EffectiveFailureThreshold p <=? n)%Z then MarkHealthState ConnectionHealthStateUnhealthy else mret tt) w = (Ok tt, w') ∧
    decided w w' (health_step h p false (bool_decide (GetHealthState (w_mem w) = ConnectionHealthStateHealthy))).
Proof.
  intros Hf Hdb Hlog Hp. destruct (streak_threshold p false (EffectiveFailureThreshold p) w h now) as (s & Hs & Hle); [done|done|done| |].
  { pose proof (thresholds_positive p Hp). pose proof (thresholds_kept p). lia. }
  change (status false) with ProbeOutcomeStatusFailure in Hs. rewrite (bind_ok _ _ _ _ _ Hs). unfold health_step, failing. rewrite Hle.
  destruct (EffectiveFailureThreshold p <=? run_length (pr_Id p) false h)%Z; cbn [negb].
  - rewrite andb_false_r. by apply MarkHealthState_ok.
  - rewrite andb_true_r. exists w. split; [done|]. by apply unchanged_decided.
Qed.

Lemma record_ok stamp p invoke w h t :
  w_faults w = [] → w_db w = Some (w_mem w) → log_ok h t (w_minted w) (w_outcomes w) → (t < w_now w)%Z → p ∈ cn_Probes c →
  let ok := bool_decide (invoke = None) in
  ∃ w', recordPeriodicProbeOutcome stamp p invoke w = (Ok tt, w') ∧
    recorded ((pr_Id p, ok) :: h) (w_now w)
      (health_step ((pr_Id p, ok) :: h) p ok (bool_decide (GetHealthState (w_mem w) = ConnectionHealthStateHealthy))) w'.
Proof.
  intros Hf Hdb Hlog Ht Hp ok. unfold recordPeriodicProbeOutcome.
  assert (ok = match invoke with None => true | Some _ => false end) as Hok by by destruct invoke.
  clearbody ok. pose proof (proj1 (Forall_forall _ _) Hprobes p Hp) as (Hne & _).
  set (msg := if decide (status ok = ProbeOutcomeStatusFailure ∧ default "" invoke ≠ "") then Some (default "" invoke) else None).
  set (w1 := with_minted (S (w_minted w)) (with_outcomes (mkOutcome (w_minted w) (pr_Id p) (status ok) msg (w_now w) :: w_outcomes w) w)).
  assert (log_ok ((pr_Id p, ok) :: h) (w_now w) (w_minted w1) (w_outcomes w1)) as Hlog1 by (by apply (log_ok_insert h t)).
  assert (InsertProbeOutcome (pr_Id p) (status ok) (default "" invoke) w = (Ok tt, w1)) as Hins.
  { unfold InsertProbeOutcome. rewrite decide_False by done. rewrite decide_False by (by destruct ok; intros [? ?]).
    by rewrite (bind_ok _ _ _ _ _ (call_out_ok w Hf)). }
  destruct invoke as [err|]; subst ok.
  - rewrite (bind_ok _ _ _ _ _ (or_else_ok Failed _ _ _ _ Hins)).
    destruct (fail_ok p w1 ((pr_Id p, false) :: h) (w_now w)) as (w' & Hw' & Hd); [done|done|done|done|].
    exists w'. split; [exact Hw'|]. by eapply decided_recorded.
  - rewrite (bind_ok _ _ _ _ _ (or_else_ok Failed _ _ _ _ Hins)).
    assert (∃ a, (match stamp with
           | None => mret tt
           | Some stamp => ignore (_ ← call_out; primitive (λ w, (Ok tt, with_auth (stamp (w_now w) (w_auth w)) w)))
           end) w1 = (Ok tt, with_auth a w1)) as (a & Hstamp).
    { destruct stamp as [stamp|]; [|exists (w_auth w1); by destruct w]. eexists. unfold ignore.
      rewrite (bind_ok _ _ w1 tt w1) by (by apply call_out_ok). reflexivity. }
    rewrite (bind_ok _ _ _ _ _ Hstamp).
    destruct (recover_ok p (with_auth a w1) ((pr_Id p, true) :: h) (w_now w)) as (w' & Hw' & Hd); [done|done|done|done|].
    exists w'. split; [exact Hw'|]. by eapply decided_recorded.
Qed.

Lemma getConnection_ok r w : w_faults w = [] → w_db w = Some r → getConnection w = (Ok tt, with_mem r w).
Proof.
  intros Hf Hdb. unfold getConnection. rewrite (bind_ok _ _ _ _ _ (call_out_ok w Hf)). unfold primitive. rewrite Hdb.
  by rewrite (bind_ok _ _ _ _ _ (call_out_ok (with_mem r w) Hf)).
Qed.

Lemma GetEnabledProbe_ok id w : GetEnabledProbe id w = (Ok (probe_of id), w).
Proof.
  unfold GetEnabledProbe, probe_of. pose proof Hprobes as Hall. revert Hall. generalize (cn_Probes c) as ps.
  induction 1 as [|p ps (_ & Hif & _) _ IH]; cbn [enabled_probe List.find]; [done|]. case_bool_decide as Hid.
  - rewrite decide_False by (by intros []). by rewrite (bind_ok _ _ w true w) by (unfold isProbeEnabled; by rewrite Hif).
  - by rewrite decide_True.
Qed.

Lemma probe_of_spec id p : probe_of id = Some p → p ∈ cn_Probes c ∧ pr_Id p = id.
Proof. intros [Hin Hid%bool_decide_eq_true]%List.find_some. split; [by apply list_elem_of_In|done]. Qed.

Lemma log_ok_later h t t' minted rows : log_ok h t minted rows → (t ≤ t')%Z → log_ok h t' minted rows.
Proof. intros [Hs Hp Hk Hn Hm He] Ht. split; try done. eapply Forall_impl; [exact Hp|]. cbn. intros. lia. Qed.

Lemma run_ok stamp id invoke w h t t' b :
  recorded h t b w → (t < t')%Z →
  let h' := match probe_of id with Some _ => (id, bool_decide (invoke = None)) :: h | None => h end in
  recorded h' t' (match probe_of id with Some p => health_step h' p (bool_decide (invoke = None)) b | None => b end)
    (runProbeInternal stamp id invoke (with_now t' w)).2.
Proof.
  intros (Hf & Hlog & r & Hdb & Hb) Ht h'. unfold runProbeInternal. set (w1 := with_mem r (with_now t' w)).
  rewrite (bind_ok _ _ (with_now t' w) tt w1) by (unfold primitive; by rewrite (getConnection_ok r)).
  rewrite (bind_ok _ _ _ _ _ (GetEnabledProbe_ok id w1)). subst h'. destruct (probe_of id) as [p|] eqn:Hp.
  - apply probe_of_spec in Hp as [Hin <-].
    destruct (record_ok stamp p invoke w1 h t) as (w' & Hw' & Hrec); [done|done|done|done|done|].
    rewrite (bind_ok _ _ w1 tt w') by (unfold ignore; by rewrite Hw'). rewrite <- Hb. by destruct invoke.
  - split; [done|]. split; [apply (log_ok_later _ t); [done|lia]|]. by exists r.
Qed.

(** *** Pruning keeps what decisions ask for *)

Lemma filter_comm {A} (P Q : A → bool) l : List.filter P (List.filter Q l) = List.filter Q (List.filter P l).
Proof. induction l as [|x l IH]; cbn; [done|]. destruct (P x) eqn:HP, (Q x) eqn:HQ; cbn; rewrite ?HP, ?HQ, ?IH; done. Qed.

Lemma filter_keeps_all {A} (P : A → bool) l : Forall (λ x, P x = true) l → List.filter P l = l.
Proof. induction 1 as [|x l Hx _ IH]; cbn; [done|]. by rewrite Hx, IH. Qed.

(** A filter that keeps the first [k] elements. *)
Lemma take_filter_kept {A B} (g : A → B) P (l : list A) k K :
  Forall (λ x, P x = true) (take k l) → (K ≤ k)%nat → take K (map g (List.filter P l)) = take K (map g l).
Proof.
  intros Hk HK. rewrite <- (take_drop k l) at 1. rewrite List.filter_app, (filter_keeps_all _ (take k l)) by done.
  rewrite !firstn_map. f_equal. destruct (decide (k ≤ length l)%nat).
  - rewrite take_app_le by (rewrite length_take; lia). rewrite take_take. f_equal. lia.
  - rewrite (take_ge l k), (drop_ge l k) by lia. cbn. by rewrite app_nil_r.
Qed.

Lemma nodup_filter {A B} (g : A → B) P l : NoDup (map g l) → NoDup (map g (List.filter P l)).
Proof.
  induction l as [|x l IH]; cbn; [done|]. intros [Hx Hn]%NoDup_cons. destruct (P x); [|by apply IH]. cbn. constructor; [|by apply IH].
  intros (y & Heq & Hy%list_elem_of_In%filter_In)%list_elem_of_fmap. apply Hx. rewrite Heq.
  apply (list_elem_of_fmap_2 g), list_elem_of_In, Hy.
Qed.

Definition pruned (id : string) (protected : list nat) (olderThan : Z) (r : ConnectionProbeOutcome) : bool :=
  negb (bool_decide (po_ProbeId r = id) && (po_OccurredAt r <? olderThan)%Z && bool_decide (po_Id r ∉ protected)).

Lemma log_ok_prune h t minted rows id k olderThan :
  log_ok h t minted rows → (∀ q, q ∈ cn_Probes c → pr_Id q = id → (probeKeepMinimum q ≤ k)%Z) →
  log_ok h t minted (List.filter (pruned id (map po_Id (take (Z.to_nat k) (of_probe id rows))) olderThan) rows).
Proof.
  intros [Hs Hp Hk Hn Hm He] Hkeep. set (P := pruned _ _ _).
  assert (∀ Q : ConnectionProbeOutcome → Prop, Forall Q rows → Forall Q (List.filter P rows)) as Hsub.
  { intros Q HQ. apply Forall_forall. intros r Hr%list_elem_of_In%filter_In. rewrite Forall_forall in HQ. apply HQ, list_elem_of_In, Hr. }
  split; [by apply newest_first_filter|by apply Hsub..| |by apply Hsub|].
  - by apply nodup_filter.
  - rewrite Forall_forall in He. apply Forall_forall. intros q Hq. specialize (He q Hq). unfold enough in *. rewrite <- He.
    unfold of_probe at 1. rewrite filter_comm. change (List.filter _ rows) with (of_probe (pr_Id q) rows).
    destruct (decide (pr_Id q = id)) as [Hid|Hid].
    + apply (take_filter_kept _ _ _ (Z.to_nat k)); [|specialize (Hkeep q Hq Hid); lia]. rewrite Hid. apply Forall_forall.
      intros r Hr. unfold P, pruned. rewrite (bool_decide_false (po_Id r ∉ _)); [by rewrite andb_false_r|].
      intros Hno. apply Hno. by apply (list_elem_of_fmap_2 po_Id).
    + do 2 f_equal. apply filter_keeps_all, Forall_forall. intros r [_ Hr%bool_decide_eq_true]%list_elem_of_In%filter_In.
      unfold P, pruned. by rewrite bool_decide_false by congruence.
Qed.

Lemma find_unique (q : Probe) (qs : list Probe) :
  NoDup (map pr_Id qs) → q ∈ qs → List.find (λ p, bool_decide (pr_Id p = pr_Id q)) (rev qs) = Some q.
Proof.
  intros Hn Hq. destruct (List.find _ (rev qs)) as [q'|] eqn:Hf.
  - apply List.find_some in Hf as [Hin%in_rev%list_elem_of_In Hid%bool_decide_eq_true]. f_equal.
    apply list_elem_of_lookup in Hq as (i & Hi), Hin as (j & Hj). enough (i = j) by congruence.
    eapply NoDup_lookup; [exact Hn|apply list_lookup_fmap_Some; eauto|apply list_lookup_fmap_Some; by exists q'].
  - apply (List.find_none _ _) with (x := q) in Hf; [|by apply -> in_rev; apply list_elem_of_In].
    by apply bool_decide_eq_false in Hf.
Qed.

Lemma delete_old_ok h t cutoff ids w :
  w_faults w = [] → log_ok h t (w_minted w) (w_outcomes w) →
  ∃ w', delete_old (cn_Probes c) cutoff ids w = (Ok tt, w') ∧ w_faults w' = [] ∧ w_db w' = w_db w ∧
    log_ok h t (w_minted w') (w_outcomes w').
Proof.
  revert w. induction ids as [|id ids IH]; intros w Hf Hlog; cbn [delete_old]; [by exists w|].
  set (k := keep_minimum (cn_Probes c) id).
  assert (∀ q, q ∈ cn_Probes c → pr_Id q = id → (probeKeepMinimum q ≤ k)%Z) as Hk.
  { intros q Hq <-. unfold k, keep_minimum. rewrite find_unique by done. lia. }
  assert (0 ≤ k)%Z as Hk0.
  { unfold k, keep_minimum. destruct (List.find _ _) as [q|] eqn:Hq; [|done]. apply List.find_some in Hq as [Hq%in_rev%list_elem_of_In _].
    pose proof (thresholds_positive q Hq). pose proof (thresholds_kept q). lia. }
  pose proof (log_ok_prune h t _ _ id k cutoff Hlog Hk) as Hlog1. set (rows1 := List.filter _ (w_outcomes w)) in Hlog1.
  destruct (IH (with_outcomes rows1 w)) as (w' & Hw' & ? & ? & ?); [done|done|]. exists w'. split; [|done].
  rewrite (bind_ok _ _ w (Z.of_nat (length (w_outcomes w) - length rows1)) (with_outcomes rows1 w)); [exact Hw'|].
  apply or_else_ok. unfold DeleteOldProbeOutcomes. rewrite (proj2 (Z.ltb_ge k 0)) by done. cbv zeta.
  rewrite (bind_ok _ _ _ _ _ (call_out_ok w Hf)).
  rewrite (bind_ok _ _ w (map po_Id (take (Z.to_nat k) (of_probe id (w_outcomes w)))) w)
    by (unfold primitive; by rewrite recent_newest by apply (lo_sorted _ _ _ _ Hlog)).
  by rewrite (bind_ok _ _ _ _ _ (call_out_ok w Hf)).
Qed.

Lemma cleanup_ok retention w h t t' b :
  recorded h t b w → (t < t')%Z → recorded h t' b (runProbeOutcomeCleanup retention (with_now t' w)).2.
Proof.
  intros (Hf & Hlog & r & Hdb & Hb) Ht. unfold runProbeOutcomeCleanup.
  rewrite (bind_ok _ _ (with_now t' w) t' (with_now t' w)) by done. unfold ignore, cleanupProbeOutcomesForConnection.
  set (w1 := with_mem r (with_now t' w)).
  rewrite (bind_ok _ _ (with_now t' w) (cn_Probes c) w1).
  2:{ unfold primitive, enabledProbeThresholdsForConnection. rewrite (bind_ok _ _ _ _ _ (getConnection_ok r (with_now t' w) Hf Hdb)).
      by rewrite GetEnabledProbes_all. }
  rewrite (bind_ok _ _ w1 (remove_dups (map po_ProbeId (w_outcomes w))) w1).
  2:{ apply or_else_ok. unfold DistinctProbeIdsForConnection. by rewrite (bind_ok _ _ _ _ _ (call_out_ok w1 Hf)). }
  destruct (delete_old_ok h t' (t' - retention) (remove_dups (map po_ProbeId (w_outcomes w))) w1) as (w' & Hw' & ? & Hdb' & ?); [done| |].
  { apply (log_ok_later _ t); [done|lia]. }
  rewrite Hw'. split; [done|]. split; [done|]. exists r. split; [|done]. by etrans; [exact Hdb'|].
Qed.

Lemma run_events_ok stamp es h t b w start :
  recorded h t b w → b = healthy_after start h → StronglySorted Z.lt (t :: map fst es) →
  ∃ t', recorded (outcomes_of es h) t' (healthy_after start (outcomes_of es h)) (run_events stamp es w).
Proof.
  revert h t b w. induction es as [|[t' e] es IH]; intros h t b w Hrec Hb Hs; cbn [run_events outcomes_of].
  { exists t. by rewrite <- Hb. }
  apply StronglySorted_inv in Hs as [Hs Hlt]. apply Forall_inv in Hlt. destruct e as [id invoke|retention].
  - pose proof (run_ok stamp id invoke w h t t' b Hrec Hlt) as Hrun. cbv zeta in Hrun.
    destruct (probe_of id) as [p|] eqn:Hp; [|by eapply IH]. eapply IH; [exact Hrun| |done].
    cbn [healthy_after]. by rewrite Hp, Hb.
  - eapply IH; [by apply (cleanup_ok retention _ _ t)|done|done].
Qed.
End steps.

(** C36: The health state counts every outcome.  For probes that are always
    enabled, with validated thresholds and distinct ids, take any sequence of
    probe runs and cleanups, with any retention, at increasing times and with
    no failing call.  The connection ends healthy exactly when the reference
    that counts consecutive outcomes over the whole history says so: a probe
    turns it unhealthy at its failure threshold; a probe turns it healthy at
    its recovery threshold if no other probe is at its failure threshold.
    Reading a bounded number of rows and pruning the log lose nothing. *)
Theorem health_counts_all_outcomes stamp es t w r :
  NoDup (map pr_Id (cn_Probes c)) →
  Forall (λ p, pr_Id p ≠ "" ∧ pr_If p = None ∧ threshold_errors [] p = []) (cn_Probes c) →
  w_faults w = [] → w_db w = Some r → w_outcomes w = [] → StronglySorted Z.lt (t :: map fst es) →
  let start := bool_decide (GetHealthState r = ConnectionHealthStateHealthy) in
  ∃ r', w_db (run_events stamp es w) = Some r' ∧
    bool_decide (GetHealthState r' = ConnectionHealthStateHealthy) = healthy_after start (outcomes_of es []).
Proof.
  intros Hids Hprobes Hf Hdb Ho Hs start.
  destruct (run_events_ok Hids Hprobes stamp es [] t start w start) as (t' & _ & _ & r' & Hr'); [|done|done|by exists r'].
  split; [done|]. split; [|by exists r]. rewrite Ho. split; try constructor. apply Forall_forall. by intros q _.
Qed.
End connector.
End probe_health.

(** ** Concrete runs *)

Definition probed_connector : Connector := mkConnector None None [mkProbe "ping" None (Some 5%Z) None; mkProbe "pong" None (Some 2%Z) (Some 2%Z)].

Definition configured : Connection := mkConnection "cxn_1" ConnectionStateConfigured ConnectionHealthStateHealthy None None None ∅ ∅.
Definition configured_world : world := with_db (Some configured) sample_world.

Definition fails (id : string) : event := ERun id (Some "401").
Definition passes (id : string) : event := ERun id None.

Definition sample_events : list (Z * event) :=
  [(1, fails "pong"); (2, fails "ping"); (3, fails "pong"); (4, ECleanup 0); (5, passes "ping"); (6, passes "pong"); (7, passes "pong")]%Z.

Lemma health_counts_all_outcomes_witness :
  ∃ r', w_db (run_events probed_connector None sample_events configured_world) = Some r' ∧
    bool_decide (GetHealthState r' = ConnectionHealthStateHealthy) = true.
Proof.
  refine (health_counts_all_outcomes probed_connector None sample_events 0 configured_world configured _ _ eq_refl eq_refl eq_refl _).
  - by repeat (constructor; [set_solver|]); constructor.
  - by repeat constructor.
  - repeat constructor.
Defined.

Definition health_after (es : list (Z * event)) (w : world) : option HealthState :=
  GetHealthState <$> w_db (run_events probed_connector None es w).

(** When a cleanup cannot read the thresholds of the probes it keeps three
    outcomes of each: the fifth failure in a row no longer makes the connection
    unhealthy. *)
Example cleanup_forgets_failures :
  let es := [(1, fails "ping"); (2, fails "ping"); (3, fails "ping"); (4, fails "ping")]%Z in
  let w := run_events probed_connector None es configured_world in
  health_after [(5, ECleanup 0); (6, fails "ping")]%Z w = Some ConnectionHealthStateUnhealthy ∧
  health_after [(5, ECleanup 0); (6, fails "ping")]%Z (with_faults [true] w) = Some ConnectionHealthStateHealthy.
Proof. split; vm_compute; reflexivity. Qed.
