(* ===== verification/Paging.v ===== *)
(** * Pages of a query

    The loop that the list builders' [Enumerate] methods share
    ([database/*.go]) and [EnumerateThrottled] of package [util/pagination]:
    rows are fetched a page at a time by offset while a callback works on the
    same database. *)

From S2P Require Import Prelude.
Open Scope list_scope.

Section pages.
Context {St Row E : Type}.
(** The rows a query without limit returns, in its order. *)
Context (query : St → list Row).

(** One row more than the page is asked for: [LIMIT limit+1 OFFSET offset]. *)
Definition page_rows (limit offset : nat) (s : St) : list Row := take (limit + 1) (drop offset (query s)).

(** [Enumerate]: whether there is more, the rows of the page, then the
    callback; [None] is running out of fuel. *)
Fixpoint EnumeratePages (callback : list Row → St → option E * St) (limit fuel offset : nat) (s : St) : option (option E * St) :=
  match fuel with
  | O => None
  | S fuel =>
      let results := page_rows limit offset s in
      let hasMore := (limit <? length results)%nat in
      match callback (take limit results) s with
      | (Some e, s') => Some (Some e, s')
      | (None, s') =>
          if hasMore then EnumeratePages callback limit fuel (offset + length results - 1) s' else Some (None, s')
      end
  end.

(** The rows of a page one after the other; the first error ends the loop. *)
Fixpoint each_row (cb : Row → St → option E * St) (rows : list Row) (s : St) : option E * St :=
  match rows with
  | [] => (None, s)
  | r :: rows => match cb r s with (Some e, s') => (Some e, s') | (None, s') => each_row cb rows s' end
  end.

Definition EnumerateThrottled (cb : Row → St → option E * St) (limit fuel : nat) (s : St) : option (option E * St) :=
  EnumeratePages (each_row cb) limit fuel 0 s.

(** Each row is handled by what identifies it, and handling a row leaves the
    identities and their order as they are. *)
Context {K : Type} (key : Row → K) (f : K → St → option E * St).

Fixpoint each_key (ks : list K) (s : St) : option E * St :=
  match ks with
  | [] => (None, s)
  | k :: ks => match f k s with (Some e, s') => (Some e, s') | (None, s') => each_key ks s' end
  end.

Hypothesis keys_kept : ∀ k s, map key (query (f k s).2) = map key (query s).

Lemma each_row_key rows s : each_row (λ r, f (key r)) rows s = each_key (map key rows) s.
Proof. revert s. induction rows as [|r rows IH]; intros s; cbn; [done|]. destruct (f (key r) s) as [[e|] s']; [done|]. apply IH. Qed.

Lemma each_key_keys ks s : map key (query (each_key ks s).2) = map key (query s).
Proof.
  revert s. induction ks as [|k ks IH]; intros s; cbn; [done|]. pose proof (keys_kept k s) as Hk.
  destruct (f k s) as [[e|] s']; cbn in *; [done|]. by rewrite IH.
Qed.

Lemma each_key_app ks ks' s :
  each_key (ks ++ ks') s = match each_key ks s with (Some e, s') => (Some e, s') | (None, s') => each_key ks' s' end.
Proof. revert s. induction ks as [|k ks IH]; intros s; cbn; [done|]. destruct (f k s) as [[e|] s']; [done|]. apply IH. Qed.

Lemma pages_each_key limit fuel offset s :
  (0 < limit)%nat → (offset ≤ length (query s))%nat → (length (query s) - offset < fuel)%nat →
  EnumeratePages (each_row (λ r, f (key r))) limit fuel offset s = Some (each_key (drop offset (map key (query s))) s).
Proof.
  intros Hlim. revert offset s. induction fuel as [|fuel IH]; intros offset s Ho Hf; [lia|]. cbn [EnumeratePages]. unfold page_rows.
  rewrite take_take, Nat.min_l by lia. rewrite each_row_key, <- !firstn_map, <- !skipn_map.
  set (ks := map key (query s)). assert (length ks = length (query s)) as Hks by apply length_map.
  rewrite length_take, length_drop. rewrite <- Hks in *.
  destruct (Nat.ltb_spec limit ((limit + 1) `min` (length ks - offset))).
  - rewrite <- (take_drop limit (drop offset ks)) at 2. rewrite each_key_app.
    pose proof (each_key_keys (take limit (drop offset ks)) s) as Hk. fold ks in Hk.
    destruct (each_key (take limit (drop offset ks)) s) as [[e|] s'] eqn:He; [done|]. cbn in Hk.
    assert (length (query s') = length ks) as Hl by (rewrite <- Hk; by rewrite length_map).
    rewrite Nat.min_l by lia. rewrite IH by lia. rewrite Hk, drop_drop. do 3 f_equal. lia.
  - rewrite (take_ge (drop offset ks)) by (rewrite length_drop; lia). by destruct (each_key (drop offset ks) s) as [[e|] s'].
Qed.

(** With enough fuel every row of the query is handled once, in order. *)
Lemma EnumerateThrottled_each_key limit fuel s :
  (0 < limit)%nat → (length (query s) < fuel)%nat →
  EnumerateThrottled (λ r, f (key r)) limit fuel s = Some (each_key (map key (query s)) s).
Proof. intros Hlim Hf. unfold EnumerateThrottled. rewrite pages_each_key by lia. done. Qed.
End pages.

(** An invariant that bounds the rows of the query: the enumeration ends, and
    the invariant holds afterwards, even if the callback changes the rows. *)
Lemma EnumeratePages_inv {St Row E} (query : St → list Row) (callback : list Row → St → option E * St) (Inv : St → Prop) limit N fuel offset s :
  (0 < limit)%nat → (∀ s, Inv s → (length (query s) ≤ N)%nat) →
  (∀ s rows, Inv s → (∀ r, r ∈ rows → r ∈ query s) → Inv (callback rows s).2) →
  Inv s → (offset ≤ N)%nat → (N - offset < fuel)%nat →
  ∃ e s', EnumeratePages query callback limit fuel offset s = Some (e, s') ∧ Inv s'.
Proof.
  intros Hlim Hlen Hcb. revert offset s. induction fuel as [|fuel IH]; intros offset s Hs Ho Hf; [lia|]. cbn [EnumeratePages].
  pose proof (Hcb s (take limit (page_rows query limit offset s)) Hs) as Hs'. pose proof (Hlen s Hs) as Hl.
  assert (∀ r, r ∈ take limit (page_rows query limit offset s) → r ∈ query s) as Hsub.
  { intros r Hr. apply elem_of_take in Hr as (i & Hi & _). apply list_elem_of_lookup_2 in Hi. unfold page_rows in Hi.
    apply elem_of_take in Hi as (j & Hj & _). rewrite lookup_drop in Hj. by eapply list_elem_of_lookup_2. }
  specialize (Hs' Hsub). destruct (callback _ s) as [[e|] s']; cbn in Hs'; [by eexists _, _|].
  unfold page_rows. rewrite length_take, length_drop.
  destruct (Nat.ltb_spec limit ((limit + 1) `min` (length (query s) - offset))); [|by eexists _, _]. apply IH; [done|lia|lia].
Qed.
