(* ===== verification/Actors.v ===== *)
(** * Actors

    The table of actors ([database/actor.go]) with its annotations
    ([database/annotations.go]): creating, upserting, renaming, deleting and
    labelling actors, under the unique indexes of the migrations.  Deletion is
    soft: a deleted row keeps its external id.  Stored actors are well formed
    and unique whatever is called, and what an upsert wrote is what is read
    back. *)

From S2P Require Import Prelude GoStrings Regex Namespace Permissions Labels.
Open Scope string_scope.
Open Scope list_scope.

(** ** Identifiers and names *)

Definition PrefixActor : string := "act_".

Definition ID_HasPrefix (id p : string) : bool := HasPrefix id p.

Definition ID_ValidatePrefix (id expected : string) : option error :=
  if decide (id = "") then None
  else if negb (ID_HasPrefix id expected) then Some "unexpected prefix"
  else None.

Definition ResourceNameMaxLength : nat := 63.
Definition resourceNameRegex : regex := token_regex is_alnum is_name_char 61.

Definition ResourceName_Validate (n : string) : option error :=
  if decide (n = "") then Some "resource name is required"
  else if bool_decide (ResourceNameMaxLength < String.length n)%nat then Some "resource name exceeds maximum length"
  else if negb (re_match resourceNameRegex n) then Some "resource name has invalid characters"
  else None.

(** ** Annotations *)

Abbreviation Annotations := (gmap string string) (only parsing).

Definition AnnotationsTotalMaxSize : nat := 256 * 1024.

Definition ValidateAnnotationKey (key : string) : option label_error := ValidateLabelKey key.

Inductive annotation_error : Type :=
  | AnnotationKeyInvalid (key : string) (e : label_error)
  | AnnotationsTooLarge (totalSize : nat).

Definition annotation_size (annotations : Annotations) : nat :=
  sum_list_with (λ kv, String.length kv.1 + String.length kv.2)%nat (map_to_list annotations).

Definition annotation_keys_errors (annotations : Annotations) : list annotation_error :=
  kv ← map_to_list annotations;
  match ValidateAnnotationKey kv.1 with Some e => [AnnotationKeyInvalid kv.1 e] | None => [] end.

Definition ValidateAnnotations (annotations : Annotations) : list annotation_error :=
  annotation_keys_errors annotations ++
  (if bool_decide (AnnotationsTotalMaxSize < annotation_size annotations)%nat
   then [AnnotationsTooLarge (annotation_size annotations)] else []).

(** ** Actors *)

Record EncryptedField := mkEncryptedField { ef_ID : string; ef_Data : string }.

#[export] Instance EncryptedField_eq_dec : EqDecision EncryptedField.
Proof. solve_decision. Defined.

Definition EncryptedField_Equal (ef other : option EncryptedField) : bool :=
  match ef, other with
  | None, None => true
  | Some ef, Some other => bool_decide (ef_ID ef = ef_ID other) && bool_decide (ef_Data ef = ef_Data other)
  | _, _ => false
  end.

(** A row; an empty map or list is stored as NULL, so nil and empty are one. *)
Record DbActor := mkDbActor {
  da_Id : string;
  da_Namespace : string;
  da_Name : string;
  da_ExternalId : string;
  da_Permissions : list Permission;
  da_Labels : Labels;
  da_Annotations : Annotations;
  da_EncryptedKey : option EncryptedField;
  da_CreatedAt : Z;
  da_UpdatedAt : Z;
  da_EncryptedAt : option Z;
  da_DeletedAt : option Z
}.

(** What [UpsertActor] is given: nil annotations are [None]; data that does
    not implement [IActorDataExtended] has no [ad_EncryptedKey]. *)
Record ActorData := mkActorData {
  ad_Id : string;
  ad_Namespace : string;
  ad_ExternalId : string;
  ad_Permissions : list Permission;
  ad_Labels : Labels;
  ad_Annotations : option Annotations;
  ad_EncryptedKey : option (option EncryptedField)
}.

Definition CanSelfSign (a : option DbActor) : bool :=
  match a with None => false | Some a => bool_decide (is_Some (da_EncryptedKey a)) end.

Definition setFromData (d : ActorData) (a : DbActor) : DbActor :=
  mkDbActor (da_Id a) (ad_Namespace d) (da_Name a) (ad_ExternalId d) (ad_Permissions d) (ad_Labels d)
    (match ad_Annotations d with Some annotations => annotations | None => da_Annotations a end)
    (match ad_EncryptedKey d with Some key => key | None => da_EncryptedKey a end)
    (da_CreatedAt a) (da_UpdatedAt a) (da_EncryptedAt a) (da_DeletedAt a).

(** The comparison of two maps in [sameAsData]. *)
Definition same_entries (m m' : gmap string string) : bool :=
  if decide (size m ≠ size m') then false
  else forallb (λ kv, bool_decide (m' !! kv.1 = Some kv.2)) (map_to_list m).

Fixpoint slices_EqualFunc {A B} (eq : A → B → bool) (s1 : list A) (s2 : list B) : bool :=
  match s1, s2 with
  | [], [] => true
  | x :: s1, y :: s2 => eq x y && slices_EqualFunc eq s1 s2
  | _, _ => false
  end.

Definition sameAsData (a : DbActor) (d : ActorData) : bool :=
  let '(aUserLabels, _) := SplitUserAndApxyLabels (da_Labels a) in
  same_entries aUserLabels (ad_Labels d) &&
  match ad_Annotations d with Some dAnnotations => same_entries (da_Annotations a) dAnnotations | None => true end &&
  (bool_decide (da_Namespace a = ad_Namespace d) && bool_decide (da_ExternalId a = ad_ExternalId d) &&
   slices_EqualFunc Permission_Equal (da_Permissions a) (ad_Permissions d)) &&
  match ad_EncryptedKey d with Some key => EncryptedField_Equal (da_EncryptedKey a) key | None => true end.

Definition set_name (name : string) (a : DbActor) : DbActor :=
  mkDbActor (da_Id a) (da_Namespace a) name (da_ExternalId a) (da_Permissions a) (da_Labels a) (da_Annotations a)
    (da_EncryptedKey a) (da_CreatedAt a) (da_UpdatedAt a) (da_EncryptedAt a) (da_DeletedAt a).

Definition normalize (a : DbActor) : DbActor :=
  if bool_decide (da_Name a = "") && negb (bool_decide (da_Id a = "")) then set_name (da_Id a) a else a.

Inductive actor_invalid : Type :=
  | ActorIdEmpty
  | ActorIdPrefix (e : error)
  | ActorName (e : error)
  | ActorNamespace (e : error)
  | ActorExternalIdEmpty
  | ActorPermission (i : nat) (es : list error)
  | ActorLabels (es : list (string * label_error))
  | ActorAnnotations (es : list annotation_error).

Definition permission_errors (permissions : list Permission) : list actor_invalid :=
  concat (imap (λ i p, match Permission_Validate p with [] => [] | es => [ActorPermission i es] end) permissions).

(** The accumulated errors. *)
Definition validate (a : DbActor) : list actor_invalid :=
  (if decide (da_Id a = "") then [ActorIdEmpty] else []) ++
  (match ID_ValidatePrefix (da_Id a) PrefixActor with Some e => [ActorIdPrefix e] | None => [] end) ++
  (match ResourceName_Validate (da_Name a) with Some e => [ActorName e] | None => [] end) ++
  (match ValidatePath (da_Namespace a) with Some e => [ActorNamespace e] | None => [] end) ++
  (if decide (da_ExternalId a = "") then [ActorExternalIdEmpty] else []) ++
  permission_errors (da_Permissions a) ++
  (match ValidateLabels (da_Labels a) with [] => [] | es => [ActorLabels es] end) ++
  (match ValidateAnnotations (da_Annotations a) with [] => [] | es => [ActorAnnotations es] end).

(** ** The store *)

Record NamespaceRow := mkNamespaceRow { nr_Labels : Labels; nr_DeletedAt : option Z }.

(** Both tables by primary key, deleted rows included. *)
Record store := mkStore {
  st_actors : gmap string DbActor;
  st_namespaces : gmap string NamespaceRow
}.

Definition with_actors (t : gmap string DbActor) (st : store) : store := mkStore t (st_namespaces st).

Inductive actor_error : Type :=
  | ActorNotFound
  | ActorDuplicate
  | ActorNamespaceMissing
  | ActorInvalid (es : list actor_invalid)
  | ActorBadArgument (e : error)
  | ActorBadAnnotations (es : list annotation_error)
  | ActorLabelError (e : Labels.store_error).

(** An operation is one transaction: an error leaves the store as it was. *)
Definition atx (A : Type) : Type := store → result actor_error A * store.

Definition is_live (a : DbActor) : bool := bool_decide (da_DeletedAt a = None).

Definition live_actor (id : string) (st : store) : option DbActor :=
  a ← st_actors st !! id; if is_live a then Some a else None.

(** [QueryRow] with a condition: a row that satisfies it. *)
Definition find_actor (P : DbActor → bool) (st : store) : option DbActor :=
  List.find P (map snd (map_to_list (st_actors st))).

Definition same_identity (a b : DbActor) : bool :=
  bool_decide (da_Namespace a = da_Namespace b) && bool_decide (da_ExternalId a = da_ExternalId b).

Definition same_live_name (a b : DbActor) : bool :=
  is_live a && is_live b && bool_decide (da_Namespace a = da_Namespace b) && bool_decide (da_Name a = da_Name b).

(** The unique indexes [idx_actors_namespace] on (namespace, external_id) and
    [idx_actors_live_namespace_name] on (namespace, name) of live rows, for a
    row written beside the others. *)
Definition violates_index (a : DbActor) (st : store) : bool :=
  existsb (λ b, negb (bool_decide (da_Id b = da_Id a)) && (same_identity a b || same_live_name a b))
    (map snd (map_to_list (st_actors st))).

Definition put_row (a : DbActor) (st : store) : store := with_actors (<[da_Id a := a]> (st_actors st)) st.

Definition update_row (a : DbActor) : atx unit := λ st,
  if violates_index a st then (Err ActorDuplicate, st) else (Ok tt, put_row a st).

Definition insert_row (a : DbActor) : atx unit := λ st,
  if bool_decide (is_Some (st_actors st !! da_Id a)) then (Err ActorDuplicate, st) else update_row a st.

Definition set_row_labels (labels : Labels) (a : DbActor) : DbActor :=
  mkDbActor (da_Id a) (da_Namespace a) (da_Name a) (da_ExternalId a) (da_Permissions a) labels (da_Annotations a)
    (da_EncryptedKey a) (da_CreatedAt a) (da_UpdatedAt a) (da_EncryptedAt a) (da_DeletedAt a).

Definition set_row_annotations (annotations : Annotations) (now : Z) (a : DbActor) : DbActor :=
  mkDbActor (da_Id a) (da_Namespace a) (da_Name a) (da_ExternalId a) (da_Permissions a) (da_Labels a) annotations
    (da_EncryptedKey a) (da_CreatedAt a) now (da_EncryptedAt a) (da_DeletedAt a).

Definition set_times (created updated : Z) (deleted : option Z) (a : DbActor) : DbActor :=
  mkDbActor (da_Id a) (da_Namespace a) (da_Name a) (da_ExternalId a) (da_Permissions a) (da_Labels a) (da_Annotations a)
    (da_EncryptedKey a) created updated (da_EncryptedAt a) deleted.

Section operations.
(** The order in which a loop visits the entries of a map. *)
Context (visit : Labels → list (string * string)).

Definition GetActor (id : string) : atx DbActor := λ st,
  match live_actor id st with Some a => (Ok a, st) | None => (Err ActorNotFound, st) end.

Definition GetActorByExternalId (namespace externalId : string) : atx DbActor := λ st,
  match find_actor (λ a, bool_decide (da_Namespace a = namespace) && bool_decide (da_ExternalId a = externalId)
                         && is_live a) st with
  | Some a => (Ok a, st)
  | None => (Err ActorNotFound, st)
  end.

(** The labels of the live namespace, if there is one. *)
Definition namespace_labels (path : string) (st : store) : Labels :=
  match st_namespaces st !! path with
  | Some ns => if decide (nr_DeletedAt ns = None) then nr_Labels ns else ∅
  | None => ∅
  end.

(** Carried from the namespace, then the actor's own implicit labels. *)
Definition materialize_labels (a : DbActor) (st : store) : Labels :=
  InjectSelfImplicitLabels (da_Id a) (da_Name a) (da_Namespace a)
    (ApplyParentCarryForward (da_Labels a)
       [mkParent NamespaceLabelToken (visit (namespace_labels (da_Namespace a) st))]).

Definition CreateActor (now : Z) (a : DbActor) : atx unit := λ st,
  let a := normalize a in
  match validate a with
  | [] =>
      if bool_decide (is_Some (st_actors st !! da_Id a)) || bool_decide (is_Some (find_actor (same_identity a) st))
      then (Err ActorDuplicate, st)
      else if bool_decide (st_namespaces st !! da_Namespace a = None) then (Err ActorNamespaceMissing, st)
      else insert_row (set_times now now (da_DeletedAt a) (set_row_labels (materialize_labels a st) a)) st
  | es => (Err (ActorInvalid es), st)
  end.

Definition upsert_lookup (d : ActorData) (st : store) : option DbActor :=
  if decide (ad_Id d ≠ "") then st_actors st !! ad_Id d
  else find_actor (λ a, bool_decide (da_Namespace a = ad_Namespace d) && bool_decide (da_ExternalId a = ad_ExternalId d)) st.

Definition upsert_guard (d : ActorData) : option actor_error :=
  if decide (ad_Id d ≠ "") then None
  else if decide (ad_ExternalId d = "") then Some (ActorBadArgument "actor external id is empty")
  else ActorBadArgument <$> ValidatePath (ad_Namespace d).

Definition upsert_new (now : Z) (new_id : string) (d : ActorData) : atx DbActor := λ st,
  let id := if decide (ad_Id d = "") then new_id else ad_Id d in
  let newActor := normalize (setFromData d (mkDbActor id "" "" "" [] ∅ ∅ None now now None None)) in
  let newActor := set_row_labels (materialize_labels newActor st) newActor in
  match validate newActor with
  | [] => let '(r, st') := insert_row newActor st in
          (match r with Ok _ => Ok newActor | Err e => Err e end, st')
  | es => (Err (ActorInvalid es), st)
  end.

Definition upsert_existing (now : Z) (d : ActorData) (existingActor : DbActor) : atx DbActor := λ st,
  if sameAsData existingActor d then (Ok existingActor, st)
  else
    let existingLabelsSnapshot := da_Labels existingActor in
    let updated := normalize (setFromData d existingActor) in
    let updated := set_row_labels (MergeUpsertLabels (da_Labels updated) existingLabelsSnapshot) updated in
    match validate updated with
    | [] =>
        let updated := set_times (da_CreatedAt updated) now (da_DeletedAt updated) updated in
        let '(r, st') := update_row updated st in
        (match r with Ok _ => Ok updated | Err e => Err e end, st')
    | es => (Err (ActorInvalid es), st)
    end.

(** [new_id] is what the id generator would return. *)
Definition UpsertActor (now : Z) (new_id : string) (d : ActorData) : atx DbActor := λ st,
  match upsert_guard d with
  | Some e => (Err e, st)
  | None =>
      match upsert_lookup d st with
      | None => upsert_new now new_id d st
      | Some existingActor => upsert_existing now d existingActor st
      end
  end.

Definition DeleteActor (now : Z) (id : string) : atx unit := λ st,
  match st_actors st !! id with
  | None => (Err ActorNotFound, st)
  | Some a => (Ok tt, put_row (set_times (da_CreatedAt a) now (Some now) a) st)
  end.

(** *** Labels and names, with the shared operations on label columns *)

Definition row_of (a : DbActor) : Labels.Row := mkRow (da_Name a) (da_Namespace a) (da_Labels a) (da_UpdatedAt a).

Definition of_row (r : Labels.Row) (a : DbActor) : DbActor :=
  set_times (da_CreatedAt a) (row_updated_at r) (da_DeletedAt a) (set_row_labels (row_labels r) (set_name (row_name r) a)).

Definition live_rows (st : store) : Labels.Table :=
  row_of <$> filter (λ kv : string * DbActor, da_DeletedAt kv.2 = None) (st_actors st).

(** One of the operations of file Labels on the live row of an actor; the
    actor as it is afterwards. *)
Definition in_labels {A} (id : string) (f : Labels.tx A) : atx DbActor := λ st,
  match live_actor id st with
  | None => (Err ActorNotFound, st)
  | Some a =>
      match f (live_rows st) with
      | (Err e, _) => (Err (ActorLabelError e), st)
      | (Ok _, t) =>
          match t !! id with
          | None => (Err ActorNotFound, st)
          | Some row => let '(r, st') := update_row (of_row row a) st in
                        (match r with Ok _ => Ok (of_row row a) | Err e => Err e end, st')
          end
      end
  end.

Definition UpdateActorName (now : Z) (id name : string) : atx DbActor := λ st,
  if decide (id = "") then (Err (ActorBadArgument "actor id is required"), st)
  else match ID_ValidatePrefix id PrefixActor, ResourceName_Validate name with
       | Some e, _ => (Err (ActorBadArgument e), st)
       | None, Some e => (Err (ActorBadArgument e), st)
       | None, None => in_labels id (updateResourceNameAndSelfLabels now id name) st
       end.

Definition PutActorLabels (now : Z) (id : string) (labels : Labels) : atx DbActor := λ st,
  if decide (id = "") then (Err (ActorBadArgument "actor id is required"), st)
  else if decide (size labels = 0%nat) then GetActor id st
  else match ValidateUserLabels labels with
       | [] => in_labels id (putLabelsInTableTx now id labels) st
       | es => (Err (ActorLabelError (ErrInvalidLabels es)), st)
       end.

Definition DeleteActorLabels (now : Z) (id : string) (keys : list string) : atx DbActor := λ st,
  if decide (id = "") then (Err (ActorBadArgument "actor id is required"), st)
  else if decide (length keys = 0%nat) then GetActor id st
  else match ValidateUserLabelDeletionKeys keys with
       | [] => in_labels id (deleteLabelsInTableTx now id keys) st
       | es => (Err (ActorLabelError (ErrInvalidLabels es)), st)
       end.

(** *** Annotations *)

(** The live row with its annotations replaced by a function of the stored
    ones. *)
Definition annotations_in_row (now : Z) (id : string) (f : Annotations → Annotations) : atx DbActor := λ st,
  match live_actor id st with
  | None => (Err ActorNotFound, st)
  | Some a => let a' := set_row_annotations (f (da_Annotations a)) now a in (Ok a', put_row a' st)
  end.

Definition updateAnnotationsInTableTx (now : Z) (id : string) (annotations : Annotations) : atx DbActor :=
  annotations_in_row now id (λ _, annotations).
Definition putAnnotationsInTableTx (now : Z) (id : string) (newAnnotations : Annotations) : atx DbActor :=
  annotations_in_row now id (λ current, overlay current newAnnotations).
Definition deleteAnnotationsInTableTx (now : Z) (id : string) (keys : list string) : atx DbActor :=
  annotations_in_row now id (λ current, foldl (λ m k, delete k m) current keys).

(** Nil annotations, like empty ones, remove all of them. *)
Definition UpdateActorAnnotations (now : Z) (id : string) (annotations : Annotations) : atx DbActor := λ st,
  if decide (id = "") then (Err (ActorBadArgument "actor id is required"), st)
  else match ValidateAnnotations annotations with
       | [] => updateAnnotationsInTableTx now id annotations st
       | es => (Err (ActorBadAnnotations es), st)
       end.

Definition PutActorAnnotations (now : Z) (id : string) (annotations : Annotations) : atx DbActor := λ st,
  if decide (id = "") then (Err (ActorBadArgument "actor id is required"), st)
  else if decide (size annotations = 0%nat) then GetActor id st
  else match ValidateAnnotations annotations with
       | [] => putAnnotationsInTableTx now id annotations st
       | es => (Err (ActorBadAnnotations es), st)
       end.

Definition DeleteActorAnnotations (now : Z) (id : string) (keys : list string) : atx DbActor := λ st,
  if decide (id = "") then (Err (ActorBadArgument "actor id is required"), st)
  else if decide (length keys = 0%nat) then GetActor id st
  else deleteAnnotationsInTableTx now id keys st.
End operations.

(** ** Lemmas on the data *)

Lemma same_entries_eq m m' : same_entries m m' = true ↔ m = m'.
Proof.
  unfold same_entries. split.
  - case_decide as Hs; [done|]. intros Hall. rewrite forallb_forall in Hall.
    assert (m ⊆ m') as Hsub.
    { apply map_subseteq_spec. intros k v Hk.
      apply elem_of_map_to_list, list_elem_of_In, Hall, bool_decide_eq_true in Hk. done. }
    apply (map_subseteq_size_eq _ _ Hsub). lia.
  - intros <-. rewrite decide_False by lia. apply forallb_forall. intros [k v] Hk%list_elem_of_In%elem_of_map_to_list.
    by apply bool_decide_eq_true.
Qed.

Lemma slices_EqualFunc_eq (l l' : list Permission) : slices_EqualFunc Permission_Equal l l' = true ↔ l = l'.
Proof.
  assert (∀ p q, Permission_Equal p q = true ↔ p = q) as Heq.
  { intros [] []. unfold Permission_Equal. cbn. rewrite !andb_true_iff, !bool_decide_eq_true. naive_solver. }
  revert l'. induction l as [|p l IH]; intros [|q l']; cbn; try done. rewrite andb_true_iff, Heq, IH. naive_solver.
Qed.

Lemma EncryptedField_Equal_eq ef other : EncryptedField_Equal ef other = true ↔ ef = other.
Proof.
  destruct ef as [[]|], other as [[]|]; cbn; try done. rewrite andb_true_iff, !bool_decide_eq_true. naive_solver.
Qed.

(** The data of an actor agrees with what an upsert asks for. *)
Record agrees (a : DbActor) (d : ActorData) : Prop := {
  ag_ns : da_Namespace a = ad_Namespace d;
  ag_ext : da_ExternalId a = ad_ExternalId d;
  ag_perms : da_Permissions a = ad_Permissions d;
  ag_labels : ∀ k, is_apxy k = false → da_Labels a !! k = ad_Labels d !! k;
  ag_annotations : ∀ m, ad_Annotations d = Some m → da_Annotations a = m;
  ag_key : ∀ key, ad_EncryptedKey d = Some key → da_EncryptedKey a = key
}.

Definition no_system_labels (d : ActorData) : Prop := ∀ k, is_apxy k = true → ad_Labels d !! k = None.

Lemma sameAsData_spec a d : sameAsData a d = true ↔ agrees a d ∧ no_system_labels d.
Proof.
  unfold sameAsData. cbn [SplitUserAndApxyLabels]. change (filter _ (da_Labels a)) with (SplitUserAndApxyLabels (da_Labels a)).1.
  rewrite !andb_true_iff, same_entries_eq, !bool_decide_eq_true, slices_EqualFunc_eq. split.
  - intros [[[Hl Ha] [[Hn He] Hp]] Hk]. split; [split; try done|].
    + intros k Hx. rewrite <- Hl, split_user_lookup, Hx. done.
    + intros m Hm. rewrite Hm in Ha. by apply same_entries_eq.
    + intros key Hkey. rewrite Hkey in Hk. by apply EncryptedField_Equal_eq.
    + intros k Hx. rewrite <- Hl, split_user_lookup, Hx. done.
  - intros [[Hn He Hp Hl Ha Hk] Hs]. split_and!; try done.
    + apply map_eq. intros k. rewrite split_user_lookup. destruct (is_apxy k) eqn:Hx; [by rewrite Hs|by apply Hl].
    + destruct (ad_Annotations d) as [m|]; [|done]. apply same_entries_eq. by apply Ha.
    + destruct (ad_EncryptedKey d) as [key|]; [|done]. apply EncryptedField_Equal_eq. by apply Hk.
Qed.

(** ** Well-formed actors *)

(** What identifies an actor and what it may do; the labels are not part of
    it, since carried labels are not validated. *)
Record actor_ok (a : DbActor) : Prop := {
  ok_id : HasPrefix (da_Id a) PrefixActor = true;
  ok_name : ResourceName_Validate (da_Name a) = None;
  ok_ns : ValidatePath (da_Namespace a) = None;
  ok_ext : da_ExternalId a ≠ "";
  ok_perms : Forall (λ p, Permission_Validate p = []) (da_Permissions a);
  ok_annotations : map_Forall (λ k _, ValidateAnnotationKey k = None) (da_Annotations a)
}.

Lemma permission_errors_nil ps : permission_errors ps = [] → Forall (λ p, Permission_Validate p = []) ps.
Proof.
  intros H. apply Forall_lookup. intros i p Hi. destruct (Permission_Validate p) as [|e es] eqn:Hp; [done|exfalso].
  unfold permission_errors in H. apply (f_equal (λ l, ActorPermission i (e :: es) ∈ l)) in H.
  assert (ActorPermission i (e :: es) ∈ @nil actor_invalid) as Hin; [|set_solver].
  rewrite <- H. apply list_elem_of_In, in_concat. exists [ActorPermission i (e :: es)]. split; [|by left].
  apply list_elem_of_In, list_elem_of_lookup. exists i. rewrite list_lookup_imap, Hi. cbn. by rewrite Hp.
Qed.

Lemma annotation_keys_ok m : annotation_keys_errors m = [] ↔ map_Forall (λ k _, ValidateAnnotationKey k = None) m.
Proof.
  unfold annotation_keys_errors. split.
  - intros H k v Hk. destruct (ValidateAnnotationKey k) as [e|] eqn:He; [exfalso|done].
    assert (AnnotationKeyInvalid k e ∈ @nil annotation_error) as Hin; [|set_solver].
    rewrite <- H. apply list_elem_of_bind. exists (k, v). cbn. rewrite elem_of_map_to_list, He. split; [set_solver|done].
  - intros H. destruct (_ ≫= _) as [|x l] eqn:Hl; [done|exfalso].
    assert (x ∈ x :: l) as Hx by set_solver. rewrite <- Hl in Hx. apply list_elem_of_bind in Hx as ([k v] & Hx & Hk).
    apply elem_of_map_to_list, H in Hk. cbn in Hx. rewrite Hk in Hx. set_solver.
Qed.

Lemma ValidateAnnotations_keys m : ValidateAnnotations m = [] → map_Forall (λ k _, ValidateAnnotationKey k = None) m.
Proof. by intros [?%annotation_keys_ok _]%app_eq_nil. Qed.

Lemma validate_ok a : validate a = [] → actor_ok a ∧ ValidateLabels (da_Labels a) = [] ∧ ValidateAnnotations (da_Annotations a) = [].
Proof.
  unfold validate. rewrite !app_nil. intros (Hid & Hpre & Hname & Hns & Hext & Hperm & Hlab & Hann).
  destruct (decide (da_Id a = "")); [done|]. unfold ID_ValidatePrefix, ID_HasPrefix in Hpre. rewrite decide_False in Hpre by done.
  destruct (HasPrefix (da_Id a) PrefixActor) eqn:Hp; [|done].
  destruct (ResourceName_Validate (da_Name a)) eqn:Hn; [done|]. destruct (ValidatePath (da_Namespace a)) eqn:Hpath; [done|].
  destruct (decide (da_ExternalId a = "")); [done|].
  destruct (ValidateLabels (da_Labels a)); [|done]. destruct (ValidateAnnotations (da_Annotations a)) eqn:Ha; [|done].
  split; [|done]. split; try done; [by apply permission_errors_nil|by apply ValidateAnnotations_keys].
Qed.

(** ** The invariant of the store *)

Record store_ok (st : store) : Prop := {
  so_rows : map_Forall (λ id a, da_Id a = id ∧ actor_ok a) (st_actors st);
  so_identity : ∀ id id' a a', st_actors st !! id = Some a → st_actors st !! id' = Some a' → same_identity a a' = true → id = id';
  so_name : ∀ id id' a a', st_actors st !! id = Some a → st_actors st !! id' = Some a' → same_live_name a a' = true → id = id'
}.

Lemma find_actor_Some P st a : find_actor P st = Some a → P a = true ∧ ∃ id, st_actors st !! id = Some a.
Proof.
  intros [Hin HP]%find_some. split; [done|]. apply in_map_iff in Hin as ([id b] & <- & Hin).
  exists id. by apply elem_of_map_to_list, list_elem_of_In.
Qed.

Lemma find_actor_None P st id a : find_actor P st = None → st_actors st !! id = Some a → P a = false.
Proof.
  intros Hn Ha. eapply find_none; [exact Hn|]. apply in_map_iff. exists (id, a). split; [done|].
  by apply list_elem_of_In, elem_of_map_to_list.
Qed.

Lemma same_identity_spec a b : same_identity a b = true ↔ da_Namespace a = da_Namespace b ∧ da_ExternalId a = da_ExternalId b.
Proof. unfold same_identity. by rewrite andb_true_iff, !bool_decide_eq_true. Qed.

Lemma same_live_name_sym a b : same_live_name a b = same_live_name b a.
Proof.
  unfold same_live_name. apply eq_true_iff_eq. rewrite !andb_true_iff, !bool_decide_eq_true. naive_solver.
Qed.

Lemma same_identity_sym a b : same_identity a b = same_identity b a.
Proof. apply eq_true_iff_eq. rewrite !same_identity_spec. naive_solver. Qed.

Lemma violates_index_false a st id b :
  violates_index a st = false → st_actors st !! id = Some b → da_Id b ≠ da_Id a → same_identity a b = false ∧ same_live_name a b = false.
Proof.
  unfold violates_index. intros Hv Hb Hne. apply orb_false_elim. apply not_true_is_false. intros Ht.
  apply not_true_iff_false in Hv. apply Hv, existsb_exists. exists b. split.
  - apply in_map_iff. exists (id, b). split; [done|]. by apply list_elem_of_In, elem_of_map_to_list.
  - by rewrite bool_decide_false, Ht.
Qed.

Lemma put_row_ok a st : store_ok st → actor_ok a → violates_index a st = false → store_ok (put_row a st).
Proof.
  intros [Hrows Hid Hname] Ha Hv.
  assert (∀ id b, id ≠ da_Id a → st_actors st !! id = Some b → same_identity a b = false ∧ same_live_name a b = false) as Hother.
  { intros id b Hne Hb. eapply violates_index_false; [done..|]. by destruct (Hrows _ _ Hb) as [-> _]. }
  unfold put_row, with_actors. split; cbn.
  - apply map_Forall_insert_2; done.
  - intros id id' b b'. rewrite !lookup_insert_Some. intros [[<- <-]|[Hne Hb]] [[<- <-]|[Hne' Hb']] Hs; [done| | |by eapply Hid].
    + destruct (Hother id' b') as [? _]; [done..|congruence].
    + rewrite same_identity_sym in Hs. destruct (Hother id b) as [? _]; [done..|congruence].
  - intros id id' b b'. rewrite !lookup_insert_Some. intros [[<- <-]|[Hne Hb]] [[<- <-]|[Hne' Hb']] Hs; [done| | |by eapply Hname].
    + destruct (Hother id' b') as [_ ?]; [done..|congruence].
    + rewrite same_live_name_sym in Hs. destruct (Hother id b) as [_ ?]; [done..|congruence].
Qed.

Lemma update_row_ok a st : store_ok st → actor_ok a → store_ok (update_row a st).2.
Proof. intros Hst Ha. unfold update_row. destruct (violates_index a st) eqn:Hv; [done|by apply put_row_ok]. Qed.

Lemma insert_row_ok a st : store_ok st → actor_ok a → store_ok (insert_row a st).2.
Proof. intros Hst Ha. unfold insert_row. case_bool_decide; [done|by apply update_row_ok]. Qed.

(** A row that keeps its identity, its name and is deleted no less. *)
Lemma rewrite_row_ok a a' st id :
  store_ok st → st_actors st !! id = Some a → da_Id a' = da_Id a → actor_ok a' →
  da_Namespace a' = da_Namespace a → da_ExternalId a' = da_ExternalId a → da_Name a' = da_Name a →
  (is_live a' = true → is_live a = true) → store_ok (put_row a' st).
Proof.
  intros Hst Ha Hid Ha' Hns Hext Hname Hlive. apply put_row_ok; [done..|].
  apply not_true_is_false. intros [b [Hb Hc]]%existsb_exists.
  apply in_map_iff in Hb as ([id' b'] & Heq & Hb'). cbn in Heq. subst b'.
  apply list_elem_of_In, elem_of_map_to_list in Hb'. apply andb_true_iff in Hc as [Hne Hc]. apply negb_true_iff, bool_decide_eq_false in Hne.
  assert (id = id') as <-; [|congruence]. apply orb_true_iff in Hc as [Hc|Hc].
  - eapply so_identity; [done..|]. apply same_identity_spec in Hc as [??]. apply same_identity_spec. by split; congruence.
  - eapply so_name; [done..|]. unfold same_live_name in *. rewrite !andb_true_iff, !bool_decide_eq_true in *. naive_solver congruence.
Qed.

Lemma live_actor_Some id st a : live_actor id st = Some a ↔ st_actors st !! id = Some a ∧ is_live a = true.
Proof.
  unfold live_actor. destruct (st_actors st !! id) as [b|]; cbn; [|split; [done|by intros []]]. destruct (is_live b) eqn:Hb; split.
  - by intros [= ->].
  - by intros [[= ->] _].
  - done.
  - intros [[= ->] Hl]. congruence.
Qed.

Lemma live_rows_lookup id st a : live_actor id st = Some a → live_rows st !! id = Some (row_of a).
Proof.
  intros [Ha Hl]%live_actor_Some. unfold live_rows. apply lookup_fmap_Some. exists a. split; [done|].
  apply map_lookup_filter_Some. split; [done|]. by apply bool_decide_eq_true in Hl.
Qed.

Lemma normalize_id a : da_Id (normalize a) = da_Id a.
Proof. unfold normalize. by destruct (_ && _). Qed.

Lemma in_labels_ok {A} id (f : Labels.tx A) st :
  store_ok st →
  (∀ a row, live_actor id st = Some a → (f (live_rows st)).2 !! id = Some row → ResourceName_Validate (row_name row) = None) →
  store_ok (in_labels id f st).2.
Proof.
  intros Hst Hf. unfold in_labels. destruct (live_actor id st) as [a|] eqn:Ha; [|done].
  destruct (f (live_rows st)) as [[e|r] t] eqn:He; [done|]. cbn in Hf. destruct (t !! id) as [row|] eqn:Hrow; [|done].
  assert (store_ok (update_row (of_row row a) st).2) as Hok; [|by destruct (update_row (of_row row a) st)].
  apply update_row_ok; [done|]. specialize (Hf a row eq_refl eq_refl). apply live_actor_Some in Ha as [Ha _].
  destruct (so_rows _ Hst _ _ Ha) as [_ []]. by split.
Qed.

Lemma annotations_in_row_ok now id f st :
  store_ok st → (∀ m, map_Forall (λ k _, ValidateAnnotationKey k = None) m → map_Forall (λ k _, ValidateAnnotationKey k = None) (f m)) →
  store_ok (annotations_in_row now id f st).2.
Proof.
  intros Hst Hf. unfold annotations_in_row. destruct (live_actor id st) as [a|] eqn:Ha; [|done].
  apply live_actor_Some in Ha as [Ha Hl]. destruct (so_rows _ Hst _ _ Ha) as [Hid []]. cbn [snd].
  eapply rewrite_row_ok; try done. split; try done. by apply Hf.
Qed.

(** Every call that changes the table. *)
Inductive actor_op : Type :=
  | ACreate (a : DbActor)
  | AUpsert (new_id : string) (d : ActorData)
  | ADelete (id : string)
  | ARename (id name : string)
  | APutLabels (id : string) (labels : Labels)
  | ADeleteLabels (id : string) (keys : list string)
  | AUpdateAnnotations (id : string) (annotations : Annotations)
  | APutAnnotations (id : string) (annotations : Annotations)
  | ADeleteAnnotations (id : string) (keys : list string).

Definition run_actor_op (visit : Labels → list (string * string)) (now : Z) (op : actor_op) (st : store) : store :=
  match op with
  | ACreate a => (CreateActor visit now a st).2
  | AUpsert new_id d => (UpsertActor visit now new_id d st).2
  | ADelete id => (DeleteActor now id st).2
  | ARename id name => (UpdateActorName now id name st).2
  | APutLabels id labels => (PutActorLabels now id labels st).2
  | ADeleteLabels id keys => (DeleteActorLabels now id keys st).2
  | AUpdateAnnotations id annotations => (UpdateActorAnnotations now id annotations st).2
  | APutAnnotations id annotations => (PutActorAnnotations now id annotations st).2
  | ADeleteAnnotations id keys => (DeleteActorAnnotations now id keys st).2
  end.

Definition run_actor_ops (visit : Labels → list (string * string)) (ops : list (Z * actor_op)) (st : store) : store :=
  foldl (λ st op, run_actor_op visit op.1 op.2 st) st ops.

Section invariant.
Context (visit : Labels → list (string * string)).

Lemma actor_ok_labels labels a : actor_ok a → actor_ok (set_row_labels labels a).
Proof. by intros []. Qed.

Lemma actor_ok_times c u del a : actor_ok a → actor_ok (set_times c u del a).
Proof. by intros []. Qed.

Lemma CreateActor_ok now a st : store_ok st → store_ok (CreateActor visit now a st).2.
Proof.
  intros Hst. unfold CreateActor. destruct (validate (normalize a)) eqn:Hv; [|done].
  destruct (_ || _); [done|]. case_bool_decide; [done|]. apply insert_row_ok; [done|].
  by apply actor_ok_times, actor_ok_labels, validate_ok.
Qed.

Lemma UpsertActor_ok now new_id d st : store_ok st → store_ok (UpsertActor visit now new_id d st).2.
Proof.
  intros Hst. unfold UpsertActor. destruct (upsert_guard d); [done|]. destruct (upsert_lookup d st) as [a|].
  - unfold upsert_existing. destruct (sameAsData a d); [done|].
    destruct (validate _) eqn:Hv; [|done]. apply validate_ok in Hv as [Hok _].
    destruct (update_row _ st) as [r st'] eqn:Hu. apply (f_equal snd) in Hu. cbn [snd] in Hu |- *. subst st'.
    by apply update_row_ok, actor_ok_times.
  - unfold upsert_new. destruct (validate _) eqn:Hv; [|done]. apply validate_ok in Hv as [Hok _].
    destruct (insert_row _ st) as [r st'] eqn:Hu. apply (f_equal snd) in Hu. cbn [snd] in Hu |- *. subst st'. by apply insert_row_ok.
Qed.

Lemma DeleteActor_ok now id st : store_ok st → store_ok (DeleteActor now id st).2.
Proof.
  intros Hst. unfold DeleteActor. destruct (st_actors st !! id) as [a|] eqn:Ha; [|done].
  destruct (so_rows _ Hst _ _ Ha) as [Hid Hok]. cbn [snd]. eapply rewrite_row_ok; try done. by apply actor_ok_times.
Qed.

(** The label operations leave the name. *)
Lemma keeps_name_ok {A} (f : Labels.tx A) id st :
  (∀ t r row, t !! id = Some r → (f t).2 !! id = Some row → row_name row = row_name r) →
  store_ok st → store_ok (in_labels id f st).2.
Proof.
  intros Hf Hst. apply in_labels_ok; [done|]. intros a row Ha Hrow.
  rewrite (Hf _ _ _ (live_rows_lookup _ _ _ Ha) Hrow). apply live_actor_Some in Ha as [Ha _].
  by destruct (so_rows _ Hst _ _ Ha) as [_ []].
Qed.

Lemma run_actor_op_ok now op st : store_ok st → store_ok (run_actor_op visit now op st).
Proof.
  intros Hst. destruct op as [a|new_id d|id|id name|id labels|id keys|id m|id m|id keys]; cbn [run_actor_op].
  - by apply CreateActor_ok.
  - by apply UpsertActor_ok.
  - by apply DeleteActor_ok.
  - unfold UpdateActorName. case_decide; [done|]. destruct (ID_ValidatePrefix id PrefixActor); [done|].
    destruct (ResourceName_Validate name) eqn:Hn; [done|]. apply in_labels_ok; [done|]. intros a row Ha.
    unfold updateResourceNameAndSelfLabels. rewrite (live_rows_lookup _ _ _ Ha). cbn. rewrite lookup_insert_eq. by intros [= <-].
  - unfold PutActorLabels. case_decide; [done|]. case_decide; [by unfold GetActor; destruct (live_actor id st)|].
    destruct (ValidateUserLabels labels); [|done]. apply keeps_name_ok; [|done]. intros t r row Hr. unfold putLabelsInTableTx.
    rewrite Hr. cbn. rewrite lookup_insert_eq. by intros [= <-].
  - unfold DeleteActorLabels. case_decide; [done|]. case_decide; [by unfold GetActor; destruct (live_actor id st)|].
    destruct (ValidateUserLabelDeletionKeys keys); [|done]. apply keeps_name_ok; [|done]. intros t r row Hr. unfold deleteLabelsInTableTx.
    rewrite Hr. cbn. rewrite lookup_insert_eq. by intros [= <-].
  - unfold UpdateActorAnnotations. case_decide; [done|]. destruct (ValidateAnnotations m) eqn:Hm; [|done].
    apply annotations_in_row_ok; [done|]. intros _ _. by apply ValidateAnnotations_keys.
  - unfold PutActorAnnotations. case_decide; [done|]. case_decide; [by unfold GetActor; destruct (live_actor id st)|].
    destruct (ValidateAnnotations m) eqn:Hm; [|done]. apply annotations_in_row_ok; [done|]. intros m' Hm' k v.
    rewrite overlay_lookup. apply ValidateAnnotations_keys in Hm. destruct (m !! k) as [w|] eqn:Hk; [intros _; by eapply Hm|apply Hm'].
  - unfold DeleteActorAnnotations. case_decide; [done|]. case_decide; [by unfold GetActor; destruct (live_actor id st)|].
    apply annotations_in_row_ok; [done|]. intros m Hm k v. rewrite foldl_delete_lookup. case_bool_decide; [done|apply Hm].
Qed.

Lemma run_actor_ops_ok ops st : store_ok st → store_ok (run_actor_ops visit ops st).
Proof. unfold run_actor_ops. revert st. induction ops as [|op ops IH]; intros st Hst; cbn; [done|]. by apply IH, run_actor_op_ok. Qed.
End invariant.

(** ** What an upsert leaves *)

#[local] Arguments MergeUpsertLabels : simpl never.
#[local] Arguments materialize_labels : simpl never.

Section upsert.
Context (visit : Labels → list (string * string)).

(** With unique identities the lookup finds the row, if there is one. *)
Lemma find_by_identity st a P :
  store_ok st → (∃ id, st_actors st !! id = Some a) → P a = true →
  (∀ b, P b = true → same_identity b a = true) → find_actor P st = Some a.
Proof.
  intros Hst [id Ha] HP Huniq. destruct (find_actor P st) as [b|] eqn:Hf.
  - apply find_actor_Some in Hf as [HPb [id' Hb]]. assert (id' = id) as -> by (by eapply so_identity; [..|apply Huniq]). congruence.
  - rewrite (find_actor_None P st id a) in HP by done. done.
Qed.

Lemma get_by_external_id st id a :
  store_ok st → st_actors st !! id = Some a → is_live a = true →
  GetActorByExternalId (da_Namespace a) (da_ExternalId a) st = (Ok a, st).
Proof.
  intros Hst Ha Hl. unfold GetActorByExternalId. rewrite (find_by_identity st a); [done|done|by exists id| |].
  - by rewrite !bool_decide_true, Hl.
  - intros b. rewrite !andb_true_iff, !bool_decide_eq_true. intros [[??] _]. by apply same_identity_spec.
Qed.

Lemma update_row_Ok a st u st' : update_row a st = (Ok u, st') → st' = put_row a st.
Proof. unfold update_row. destruct (violates_index a st); [done|]. by intros [= _ <-]. Qed.

Lemma insert_row_Ok a st u st' : insert_row a st = (Ok u, st') → st' = put_row a st ∧ st_actors st !! da_Id a = None.
Proof.
  unfold insert_row. case_bool_decide as Hn; [done|]. intros ->%update_row_Ok. split; [done|]. by apply eq_None_not_Some.
Qed.

Lemma materialize_user_labels a st k : is_apxy k = false → materialize_labels visit a st !! k = da_Labels a !! k.
Proof.
  intros Hk. unfold materialize_labels, InjectSelfImplicitLabels.
  assert (∀ l : Labels, (∀ v, l !! k = Some v → False) → overlay (ApplyParentCarryForward (da_Labels a)
    [mkParent NamespaceLabelToken (visit (namespace_labels (da_Namespace a) st))]) l !! k = da_Labels a !! k) as Hov.
  { intros l Hl. rewrite overlay_lookup. destruct (l !! k) eqn:Hlk; [by exfalso; eapply Hl|].
    unfold ApplyParentCarryForward. fold (inherited [mkParent NamespaceLabelToken (visit (namespace_labels (da_Namespace a) st))]).
    rewrite overlay_lookup. destruct (da_Labels a !! k); [done|].
    destruct (inherited _ !! k) as [v|] eqn:Hi; [|done].
    assert (is_apxy k = true) by (eapply inherited_apxy; rewrite Hi; done). congruence. }
  case_decide.
  - rewrite <- (Hov ∅) by (intros v; by rewrite lookup_empty). rewrite overlay_lookup. by rewrite lookup_empty.
  - apply Hov. intros v. unfold BuildImplicitResourceLabels, BuildImplicitResourceLabelsForToken.
    repeat (case_decide || destruct (_ || _)); try (by rewrite lookup_empty).
    all: rewrite !lookup_insert_Some, lookup_empty; unfold implicit_key, is_apxy in *; intros Hin;
      repeat (destruct Hin as [[<- _]|[_ Hin]]; [by rewrite HasPrefix_app in Hk|]); done.
Qed.

(** The row [a] carries the data [d]; it is stored, and it is the only change.
    A key that the data does not speak of is kept, and so are creation and
    deletion times and the system labels of the [old] row; a new row is live
    and has a new id. *)
Definition written (d : ActorData) (old : option DbActor) (a : DbActor) (st st' : store) : Prop :=
  agrees a d ∧ st_actors st' !! da_Id a = Some a ∧
  (∀ id, id ≠ da_Id a → st_actors st' !! id = st_actors st !! id) ∧
  (da_EncryptedKey a = default (old ≫= da_EncryptedKey) (ad_EncryptedKey d)) ∧
  (old = None → is_live a = true ∧ st_actors st !! da_Id a = None) ∧
  (∀ o, old = Some o → da_Id a = da_Id o ∧ da_DeletedAt a = da_DeletedAt o ∧ da_CreatedAt a = da_CreatedAt o ∧
    ∀ k, is_apxy k = true → da_Labels a !! k = match ad_Labels d !! k with Some v => Some v | None => da_Labels o !! k end).

Lemma merge_upsert_lookup new old k :
  MergeUpsertLabels new old !! k =
  if is_apxy k then match new !! k with Some v => Some v | None => old !! k end else new !! k.
Proof.
  unfold MergeUpsertLabels. cbn [SplitUserAndApxyLabels]. unfold MergeApxyAndUserLabels. rewrite !overlay_lookup.
  change (filter _ new !! k) with ((SplitUserAndApxyLabels new).2 !! k) at 1.
  change (filter (λ kv, is_apxy kv.1 = false) new) with (SplitUserAndApxyLabels new).1.
  change (filter (λ kv, is_apxy kv.1 = true) old) with (SplitUserAndApxyLabels old).2.
  rewrite !split_apxy_lookup, split_user_lookup. destruct (is_apxy k); [|done]. destruct (new !! k); [done|]. by destruct (old !! k).
Qed.

Lemma upsert_existing_ok now d o st a st' :
  st_actors st !! da_Id o = Some o → upsert_existing now d o st = (Ok a, st') → written d (Some o) a st st'.
Proof.
  intros Ho. unfold upsert_existing. destruct (sameAsData o d) eqn:Hs.
  - intros [= <- <-]. apply sameAsData_spec in Hs as [Hag Hsys]. split; [done|]. split_and!; [done|done| |done|].
    + destruct (ad_EncryptedKey d) as [key|] eqn:Hk; cbn; [by apply (ag_key _ _ Hag)|done].
    + intros o' [= <-]. split_and!; [done..|]. intros k Hk. by rewrite Hsys.
  - destruct (validate _); [|done]. destruct (update_row _ st) as [[e|u] st1] eqn:Hu; [done|]. intros [= <- <-].
    apply update_row_Ok in Hu as ->. set (n := normalize (setFromData d o)).
    assert (da_Id n = da_Id o ∧ da_Namespace n = ad_Namespace d ∧ da_ExternalId n = ad_ExternalId d ∧ da_Permissions n = ad_Permissions d
      ∧ da_Labels n = ad_Labels d ∧ da_Annotations n = default (da_Annotations o) (ad_Annotations d)
      ∧ da_EncryptedKey n = default (da_EncryptedKey o) (ad_EncryptedKey d) ∧ da_DeletedAt n = da_DeletedAt o ∧ da_CreatedAt n = da_CreatedAt o)
      as (Hid & Hns & Hext & Hp & Hl & Han & Hk & Hdel & Hcr).
    { unfold n, normalize. destruct (_ && _); cbn; split_and!; try done; by destruct (ad_Annotations d), (ad_EncryptedKey d). }
    split.
    { split; cbn; try done.
      - intros k Hx. by rewrite merge_upsert_lookup, Hx, Hl.
      - intros m Hm. by rewrite Han, Hm.
      - intros key Hkey. by rewrite Hk, Hkey. }
    cbn. split_and!; [by rewrite lookup_insert_eq|intros id Hne; by rewrite lookup_insert_ne|done|done|].
    intros o' [= <-]. split_and!; [done..|]. intros k Hx. by rewrite merge_upsert_lookup, Hx, Hl.
Qed.

Lemma upsert_new_ok now new_id d st a st' :
  upsert_new visit now new_id d st = (Ok a, st') → written d None a st st'.
Proof.
  unfold upsert_new. set (n0 := setFromData d _). set (n := normalize n0).
  destruct (validate _); [|done]. destruct (insert_row _ st) as [[e|u] st1] eqn:Hu; [done|]. intros [= <- <-].
  apply insert_row_Ok in Hu as [-> Hnone].
  assert (da_Id n = da_Id n0 ∧ da_Namespace n = ad_Namespace d ∧ da_ExternalId n = ad_ExternalId d ∧ da_Permissions n = ad_Permissions d
    ∧ da_Labels n = ad_Labels d ∧ da_Annotations n = default ∅ (ad_Annotations d)
    ∧ da_EncryptedKey n = default None (ad_EncryptedKey d) ∧ da_DeletedAt n = None)
    as (Hid & Hns & Hext & Hp & Hl & Han & Hk & Hdel).
  { unfold n, n0, normalize. destruct (_ && _); cbn; split_and!; try done; by destruct (ad_Annotations d), (ad_EncryptedKey d). }
  split.
  { split; cbn; try done.
    - intros k Hx. by rewrite materialize_user_labels, Hl.
    - intros m Hm. by rewrite Han, Hm.
    - intros key Hkey. by rewrite Hk, Hkey. }
  cbn. split_and!; [by rewrite lookup_insert_eq|intros id Hne; by rewrite lookup_insert_ne|done| |done].
  intros _. split; [|done]. unfold is_live. cbn. by rewrite Hdel.
Qed.
End upsert.

Lemma upsert_lookup_stored d st o : store_ok st → upsert_lookup d st = Some o → st_actors st !! da_Id o = Some o.
Proof.
  intros Hst. unfold upsert_lookup. case_decide.
  - intros Ho. by destruct (so_rows _ Hst _ _ Ho) as [-> _].
  - intros [_ [id Ho]]%find_actor_Some. by destruct (so_rows _ Hst _ _ Ho) as [-> _].
Qed.

Lemma UpsertActor_written visit now new_id d st a st' :
  store_ok st → UpsertActor visit now new_id d st = (Ok a, st') → upsert_guard d = None ∧ written d (upsert_lookup d st) a st st'.
Proof.
  intros Hst. unfold UpsertActor. destruct (upsert_guard d); [done|]. destruct (upsert_lookup d st) as [o|] eqn:Ho; intros Hu; (split; [done|]).
  - eapply upsert_existing_ok; [|exact Hu]. by eapply upsert_lookup_stored.
  - by eapply upsert_new_ok.
Qed.

(** ** Claims *)

(** C33: Stored actors are well typed and unique.  Starting from a store that
    is, after any sequence of creations, upserts, renames, deletions, label
    and annotation operations, at any times and with any arguments, every row
    of the table has an actor id that is its key, a valid name and namespace,
    an external id, valid permissions and valid annotation keys; no other row,
    deleted or not, has its namespace and external id, and no other live row
    has its namespace and name; and a live row is what looking it up by id or
    by external id returns. *)
Theorem stored_actors_wellformed visit ops st id a :
  store_ok st → st_actors (run_actor_ops visit ops st) !! id = Some a →
  let st' := run_actor_ops visit ops st in
  da_Id a = id ∧ HasPrefix id PrefixActor = true ∧ ResourceName_Validate (da_Name a) = None ∧
  ValidatePath (da_Namespace a) = None ∧ da_ExternalId a ≠ "" ∧
  Forall (λ p, Permission_Validate p = []) (da_Permissions a) ∧
  map_Forall (λ k _, ValidateAnnotationKey k = None) (da_Annotations a) ∧
  (∀ id' a', st_actors st' !! id' = Some a' → da_Namespace a' = da_Namespace a → da_ExternalId a' = da_ExternalId a → id' = id) ∧
  (is_live a = true →
    (∀ id' a', st_actors st' !! id' = Some a' → is_live a' = true → da_Namespace a' = da_Namespace a → da_Name a' = da_Name a → id' = id) ∧
    GetActor id st' = (Ok a, st') ∧
    GetActorByExternalId (da_Namespace a) (da_ExternalId a) st' = (Ok a, st')).
Proof.
  intros Hst Ha st'. assert (store_ok st') as Hok by (by apply run_actor_ops_ok).
  destruct (so_rows _ Hok _ _ Ha) as [Hid [H1 H2 H3 H4 H5 H6]]. split_and!; try done; [by rewrite <- Hid| |].
  - intros id' a' Ha' Hns Hext. eapply so_identity; [exact Hok|exact Ha'|exact Ha|]. by apply same_identity_spec.
  - intros Hl. split_and!.
    + intros id' a' Ha' Hl' Hns Hname. eapply so_name; [exact Hok|exact Ha'|exact Ha|].
      unfold same_live_name. by rewrite Hl, Hl', Hns, Hname, !bool_decide_true.
    + unfold GetActor. by rewrite (proj2 (live_actor_Some id st' a)).
    + by eapply get_by_external_id.
Qed.

(** What an upsert wrote is what is read.  When [UpsertActor] succeeds, the
    row it returns carries the namespace, external id, permissions, user labels
    and, if given, annotations and key of the data; it is stored and no other
    row changed; an existing row keeps its id, its key and annotations when the
    data has none, its creation and deletion times, and its system labels
    except those the data overrides.  If the row is live, both lookups return
    it.  Upserting the same data again, at any later time, changes nothing and
    returns the same row. *)
Theorem upsert_roundtrip visit now new_id d st a st' :
  store_ok st → ad_Id d = "" → UpsertActor visit now new_id d st = (Ok a, st') →
  written d (upsert_lookup d st) a st st' ∧
  (is_live a = true →
    GetActorByExternalId (ad_Namespace d) (ad_ExternalId d) st' = (Ok a, st') ∧ GetActor (da_Id a) st' = (Ok a, st')) ∧
  (no_system_labels d → ∀ now' new_id', UpsertActor visit now' new_id' d st' = (Ok a, st')).
Proof.
  intros Hst Hid Hu. assert (store_ok st') as Hok.
  { pose proof (UpsertActor_ok visit now new_id d st Hst) as Hok. by rewrite Hu in Hok. }
  destruct (UpsertActor_written _ _ _ _ _ _ _ Hst Hu) as [Hg Hw]. split; [done|].
  destruct Hw as (Hag & Hstored & _). pose proof Hag as [Hns Hext _ _ _ _]. split.
  - intros Hl. split; [rewrite <- Hns, <- Hext; by eapply get_by_external_id|].
    unfold GetActor. by rewrite (proj2 (live_actor_Some _ st' a)).
  - intros Hsys now' new_id'. unfold UpsertActor. rewrite Hg. unfold upsert_lookup. rewrite (decide_False (P := ad_Id d ≠ "")) by tauto.
    rewrite (find_by_identity st' a); [|done|by eexists| |].
    + unfold upsert_existing. by rewrite (proj2 (sameAsData_spec a d)).
    + by rewrite !bool_decide_true.
    + intros b. rewrite andb_true_iff, !bool_decide_eq_true. intros [??]. apply same_identity_spec. by split; congruence.
Qed.

(** ** Concrete runs *)

Definition jwt_data (externalId : string) (permissions : list Permission) (labels : Labels) : ActorData :=
  mkActorData "" "root.team" externalId permissions labels None None.

Definition sample_store : store := mkStore ∅ {[ "root.team" := mkNamespaceRow {[ "env" := "prod" ]} None ]}.

Definition sample_ops : list (Z * actor_op) :=
  [(1%Z, AUpsert "act_1" (jwt_data "alice" (PermissionsSingle "root.team" "connections" "get") {[ "role" := "dev" ]}));
   (2%Z, AUpsert "act_2" (jwt_data "bob" [] ∅));
   (3%Z, ARename "act_1" "alice");
   (4%Z, APutAnnotations "act_1" {[ "note" := "x" ]});
   (5%Z, ADelete "act_2")].

Lemma empty_store_ok ns : store_ok (mkStore ∅ ns).
Proof. split; cbn; [apply map_Forall_empty|intros id id' a a'; by rewrite lookup_empty..]. Qed.

Definition sample_alice : DbActor :=
  mkDbActor "act_1" "root.team" "alice" "alice" (PermissionsSingle "root.team" "connections" "get")
    (<["apxy/act/-/id" := "act_1"]> (<["apxy/act/-/name" := "alice"]> (<["apxy/act/-/ns" := "root.team"]>
       (<["apxy/ns/env" := "prod"]> {[ "role" := "dev" ]}))))
    {[ "note" := "x" ]} None 1 4 None None.

Lemma stored_actors_wellformed_witness :
  let st := run_actor_ops map_to_list sample_ops sample_store in
  GetActorByExternalId "root.team" "alice" st = (Ok sample_alice, st).
Proof.
  apply (stored_actors_wellformed map_to_list sample_ops sample_store "act_1" sample_alice).
  - apply empty_store_ok.
  - vm_compute. reflexivity.
  - reflexivity.
Defined.

Lemma upsert_roundtrip_witness :
  let d := jwt_data "alice" (PermissionsSingle "root.team" "connections" "get") {[ "role" := "ops" ]} in
  let st := run_actor_ops map_to_list sample_ops sample_store in
  let '(r, st') := UpsertActor map_to_list 6 "act_3" d st in
  UpsertActor map_to_list 7 "act_4" d st' = (r, st').
Proof.
  intros d st. destruct (UpsertActor map_to_list 6 "act_3" d st) as [[e|a] st'] eqn:Hu; [vm_compute in Hu; discriminate|].
  refine (proj2 (proj2 (upsert_roundtrip map_to_list 6 "act_3" d st a st' _ _ Hu)) _ 7%Z "act_4").
  - apply run_actor_ops_ok, empty_store_ok.
  - reflexivity.
  - intros k Hk. apply lookup_singleton_ne. intros <-. discriminate Hk.
Defined.

(** *** Where the store does less than it says *)

Definition tenant_store : store :=
  mkStore ∅ {[ "root.team" := mkNamespaceRow {[ "example.com/team" := "a" ]} None ]}.

Definition created_actor : DbActor := mkDbActor "act_1" "root.team" "" "alice" [] ∅ ∅ None 0 0 None None.

Definition alice_data : ActorData := jwt_data "alice" [] {[ "role" := "dev" ]}.

Definition succeeds {E A} (r : result E A) : bool := match r with Ok _ => true | Err _ => false end.

(** [2^n] characters. *)
Fixpoint long_string (n : nat) : string :=
  match n with O => "x" | S n => let s := long_string n in s +:+ s end.

Definition large_annotation (key : string) : Annotations := {[ key := long_string 17 ]}.

(** Four places where the actor store does less than its comments say.  In
    a namespace whose label key has a DNS prefix, [CreateActor] stores an actor
    whose carried label is invalid, and from then on, as for actors that do not
    exist yet, every [UpsertActor] with new data is refused.  An actor can be
    upserted into a namespace that does not exist, which [CreateActor] refuses.
    Upserting a deleted actor updates and returns the deleted row, which
    neither lookup finds: it is never live again.  Annotations merged in two
    calls exceed the size limit that each call checks, and the actor can no
    longer be upserted. *)
Theorem actor_store_defects :
  (let st := (CreateActor map_to_list 1 created_actor tenant_store).2 in
   succeeds (CreateActor map_to_list 1 created_actor tenant_store).1 = true ∧
   succeeds (UpsertActor map_to_list 2 "act_2" alice_data st).1 = false ∧
   succeeds (UpsertActor map_to_list 2 "act_2" alice_data tenant_store).1 = false) ∧
  (succeeds (UpsertActor map_to_list 1 "act_1" alice_data (mkStore ∅ ∅)).1 = true ∧
   (CreateActor map_to_list 1 created_actor (mkStore ∅ ∅)).1 = Err ActorNamespaceMissing) ∧
  (let st := run_actor_ops map_to_list [(1%Z, AUpsert "act_1" (jwt_data "alice" [] ∅)); (2%Z, ADelete "act_1")] sample_store in
   let '(r, st') := UpsertActor map_to_list 3 "act_2" alice_data st in
   (da_Id <$> match r with Ok a => Some a | Err _ => None end) = Some "act_1" ∧
   (GetActor "act_1" st').1 = Err ActorNotFound ∧ (GetActorByExternalId "root.team" "alice" st').1 = Err ActorNotFound) ∧
  (let st := run_actor_ops map_to_list [(1%Z, AUpsert "act_1" (jwt_data "alice" [] ∅));
                                        (2%Z, APutAnnotations "act_1" (large_annotation "a"))] sample_store in
   succeeds (PutActorAnnotations 3 "act_1" (large_annotation "b") st).1 = true ∧
   succeeds (UpsertActor map_to_list 4 "act_2" alice_data (PutActorAnnotations 3 "act_1" (large_annotation "b") st).2).1 = false).
Proof. vm_compute. repeat split. Qed.
