(* ===== verification/ActorList.v ===== *)
(** * Listing actors, and the synchronisation of configured ones

    The list builder of [database/actor.go]: filters, the query they become,
    pages and cursors ([util/pagination]); and the task that makes the table
    agree with the configured actors ([apauth/tasks/sync_actors.go]), which
    lists them.  The database's [LIKE], JSON functions and ordering by a column
    are parameters ([Dialect]), and so is the encryption of cursors. *)

From S2P Require Import Prelude GoStrings Regex Namespace Permissions PermissionValidator Labels LabelSelector Actors.
Open Scope string_scope.
Open Scope list_scope.

(** ** Ordering *)

Inductive ActorOrderByField : Type :=
  | ActorOrderByCreatedAt | ActorOrderByUpdatedAt | ActorOrderByNamespace | ActorOrderByExternalId | ActorOrderByDeletedAt.

(** The value of a string as a field, if it is one. *)
Definition IsValidActorOrderByField (field : string) : option ActorOrderByField :=
  if decide (field = "created_at") then Some ActorOrderByCreatedAt
  else if decide (field = "updated_at") then Some ActorOrderByUpdatedAt
  else if decide (field = "namespace") then Some ActorOrderByNamespace
  else if decide (field = "external_id") then Some ActorOrderByExternalId
  else if decide (field = "deleted_at") then Some ActorOrderByDeletedAt
  else None.

Inductive OrderBy : Type := OrderByAsc | OrderByDesc.

(** [strings.ToUpper]; among other letters only the long s has an ASCII
    capital, which is left out. *)
Definition upper_char (a : ascii) : ascii :=
  let n := nat_of_ascii a in if decide (97 ≤ n ≤ 122)%nat then ascii_of_nat (n - 32) else a.
Fixpoint ToUpper (s : string) : string :=
  match s with "" => "" | String a s => String (upper_char a) (ToUpper s) end.

Definition SplitOrderByParam (p : string) : result error (string * OrderBy) :=
  if decide (String.length p = 0%nat) then Err "invalid order by field"
  else if Contains p " " then
    match Split p " " with
    | [field; orderBy] =>
        if decide (ToUpper orderBy = "ASC") then Ok (field, OrderByAsc)
        else if decide (ToUpper orderBy = "DESC") then Ok (field, OrderByDesc)
        else Err "invalid order by"
    | _ => Err "invalid order by field"
    end
  else Ok (p, OrderByAsc).

(** ** The builder *)

Inductive list_error : Type :=
  | ListNameInvalid (e : error)
  | ListMatcherInvalid (e : error)
  | ListSelectorInvalid (e : selector_error)
  | ListCursorFailed.

(** [uint64] fields are numbers modulo [2^64]; [Errors] is not serialised. *)
Record listActorsFilters := mkFilters {
  lf_LimitVal : Z;
  lf_Offset : Z;
  lf_OrderBy : option (ActorOrderByField * OrderBy);
  lf_IncludeDeletedVal : bool;
  lf_ExternalIdVal : option string;
  lf_NameVal : option string;
  lf_NamespaceMatchers : list string;
  lf_LabelSelectorVal : option string;
  lf_Errors : list list_error
}.

Definition u64 (z : Z) : Z := z `mod` 2 ^ 64.

Definition ListActorsBuilder : listActorsFilters := mkFilters 100 0 None false None None [] None [].

Definition lf_addError (e : list_error) (l : listActorsFilters) : listActorsFilters :=
  mkFilters (lf_LimitVal l) (lf_Offset l) (lf_OrderBy l) (lf_IncludeDeletedVal l) (lf_ExternalIdVal l) (lf_NameVal l)
    (lf_NamespaceMatchers l) (lf_LabelSelectorVal l) (lf_Errors l ++ [e]).

Definition lf_Limit (limit : Z) (l : listActorsFilters) : listActorsFilters :=
  mkFilters (u64 limit) (lf_Offset l) (lf_OrderBy l) (lf_IncludeDeletedVal l) (lf_ExternalIdVal l) (lf_NameVal l)
    (lf_NamespaceMatchers l) (lf_LabelSelectorVal l) (lf_Errors l).

Definition lf_SetOrderBy (field : string) (by_ : OrderBy) (l : listActorsFilters) : listActorsFilters :=
  match IsValidActorOrderByField field with
  | Some f => mkFilters (lf_LimitVal l) (lf_Offset l) (Some (f, by_)) (lf_IncludeDeletedVal l) (lf_ExternalIdVal l) (lf_NameVal l)
                (lf_NamespaceMatchers l) (lf_LabelSelectorVal l) (lf_Errors l)
  | None => l
  end.

Definition lf_IncludeDeleted (l : listActorsFilters) : listActorsFilters :=
  mkFilters (lf_LimitVal l) (lf_Offset l) (lf_OrderBy l) true (lf_ExternalIdVal l) (lf_NameVal l)
    (lf_NamespaceMatchers l) (lf_LabelSelectorVal l) (lf_Errors l).

Definition lf_ForExternalId (externalId : string) (l : listActorsFilters) : listActorsFilters :=
  mkFilters (lf_LimitVal l) (lf_Offset l) (lf_OrderBy l) (lf_IncludeDeletedVal l) (Some externalId) (lf_NameVal l)
    (lf_NamespaceMatchers l) (lf_LabelSelectorVal l) (lf_Errors l).

Definition lf_ForName (name : string) (l : listActorsFilters) : listActorsFilters :=
  match ResourceName_Validate name with
  | Some e => lf_addError (ListNameInvalid e) l
  | None => mkFilters (lf_LimitVal l) (lf_Offset l) (lf_OrderBy l) (lf_IncludeDeletedVal l) (lf_ExternalIdVal l) (Some name)
              (lf_NamespaceMatchers l) (lf_LabelSelectorVal l) (lf_Errors l)
  end.

Definition lf_set_matchers (matchers : list string) (l : listActorsFilters) : listActorsFilters :=
  mkFilters (lf_LimitVal l) (lf_Offset l) (lf_OrderBy l) (lf_IncludeDeletedVal l) (lf_ExternalIdVal l) (lf_NameVal l)
    matchers (lf_LabelSelectorVal l) (lf_Errors l).

Definition lf_ForNamespaceMatcher (matcher : string) (l : listActorsFilters) : listActorsFilters :=
  match ValidateMatcher matcher with
  | Some e => lf_addError (ListMatcherInvalid e) l
  | None => lf_set_matchers [matcher] l
  end.

(** The first invalid matcher ends the loop. *)
Fixpoint first_invalid_matcher (matchers : list string) : option error :=
  match matchers with
  | [] => None
  | m :: matchers => match ValidateMatcher m with Some e => Some e | None => first_invalid_matcher matchers end
  end.

Definition lf_ForNamespaceMatchers (matchers : list string) (l : listActorsFilters) : listActorsFilters :=
  match first_invalid_matcher matchers with
  | Some e => lf_addError (ListMatcherInvalid e) l
  | None => lf_set_matchers matchers l
  end.

Definition lf_ForLabelSelector (selector : string) (l : listActorsFilters) : listActorsFilters :=
  mkFilters (lf_LimitVal l) (lf_Offset l) (lf_OrderBy l) (lf_IncludeDeletedVal l) (lf_ExternalIdVal l) (lf_NameVal l)
    (lf_NamespaceMatchers l) (Some selector) (lf_Errors l).

(** ** The query *)

(** What depends on the database, and the sealing of cursors. *)
Class Dialect := {
  dl_provider : DatabaseProvider;
  dl_like : string → string → bool;
  dl_pg_arrow : Labels → string → option string;
  dl_jsonb_exists : Labels → string → bool;
  dl_JSONExtractString : Labels → string → string;
  dl_json_extract : Labels → string → option string;
  dl_order : ActorOrderByField → OrderBy → list DbActor → list DbActor;
  dl_seal : listActorsFilters → option string;
  dl_open : string → option listActorsFilters
}.

Definition lf_set_page (limit offset : Z) (l : listActorsFilters) : listActorsFilters :=
  mkFilters limit offset (lf_OrderBy l) (lf_IncludeDeletedVal l) (lf_ExternalIdVal l) (lf_NameVal l)
    (lf_NamespaceMatchers l) (lf_LabelSelectorVal l) (lf_Errors l).

(** [created_at ASC, id ASC]. *)
Definition by_creation (a b : DbActor) : Z :=
  if decide (da_CreatedAt a < da_CreatedAt b)%Z then (-1)%Z
  else if decide (da_CreatedAt b < da_CreatedAt a)%Z then 1%Z
  else match String.compare (da_Id a) (da_Id b) with Lt => (-1)%Z | Eq => 0%Z | Gt => 1%Z end.

Section list.
Context {dl : Dialect}.

(** The label predicates of the query; an invalid selector adds none. *)
Definition label_preds (l : listActorsFilters) : list label_pred :=
  match lf_LabelSelectorVal l with
  | None => []
  | Some s => match ParseLabelSelector s with
              | Err _ => []
              | Ok selector => ApplyToSqlBuilderWithProvider [] selector dl_provider
              end
  end.

Definition column (a : DbActor) (field : string) : string :=
  if decide (field = "namespace") then da_Namespace a else "".

Definition selected (l : listActorsFilters) (a : DbActor) : bool :=
  row_selected dl_pg_arrow dl_jsonb_exists dl_JSONExtractString dl_json_extract (da_Labels a) (label_preds l) &&
  (lf_IncludeDeletedVal l || is_live a) &&
  selects dl_like (restrictToNamespaceMatchers [] "namespace" (lf_NamespaceMatchers l)) (column a) &&
  match lf_ExternalIdVal l with Some e => bool_decide (da_ExternalId a = e) | None => true end &&
  match lf_NameVal l with Some n => bool_decide (da_Name a = n) | None => true end.

Definition ordered (l : listActorsFilters) (rows : list DbActor) : list DbActor :=
  match lf_OrderBy l with
  | Some (field, by_) => dl_order field by_ rows
  | None => SortFunc by_creation rows
  end.

(** All rows of the query, without the limit. *)
Definition query_rows (l : listActorsFilters) (st : store) : list DbActor :=
  ordered l (List.filter (selected l) (map snd (map_to_list (st_actors st)))).

(** [LIMIT limit OFFSET offset]. *)
Definition window (limit offset : Z) (rows : list DbActor) : list DbActor :=
  if (Z.of_nat (length rows) <=? offset)%Z then []
  else let rest := drop (Z.to_nat offset) rows in
       if (Z.of_nat (length rest) <=? limit)%Z then rest else take (Z.to_nat limit) rest.

(** The side effects of building the query on the filters: an invalid selector
    is remembered, a zero limit becomes 100. *)
Definition applyRestrictions (l : listActorsFilters) : listActorsFilters :=
  let l := match lf_LabelSelectorVal l with
           | None => l
           | Some s => match ParseLabelSelector s with Err e => lf_addError (ListSelectorInvalid e) l | Ok _ => l end
           end in
  lf_set_page (if (lf_LimitVal l <=? 0)%Z then 100%Z else lf_LimitVal l) (lf_Offset l) l.

Record PageResult := mkPage { pg_Results : list DbActor; pg_HasMore : bool; pg_Cursor : string }.

Definition fetchPage (l : listActorsFilters) (st : store) : result (list list_error) PageResult * listActorsFilters :=
  match lf_Errors l with
  | [] =>
      let l := applyRestrictions l in
      let results := window (u64 (lf_LimitVal l + 1)) (lf_Offset l) (query_rows l st) in
      let n := Z.of_nat (length results) in
      let l := lf_set_page (lf_LimitVal l) (u64 (lf_Offset l + n - 1)) l in
      let hasMore := (lf_LimitVal l <? n)%Z in
      match (if hasMore then dl_seal l else Some "") with
      | None => (Err [ListCursorFailed], l)
      | Some cursor => (Ok (mkPage (if (n <=? lf_LimitVal l)%Z then results else take (Z.to_nat (lf_LimitVal l)) results) hasMore cursor), l)
      end
  | es => (Err es, l)
  end.

(** [ListActorsFromCursor]. *)
Definition FromCursor (cursor : string) : option listActorsFilters := dl_open cursor.

(** [Enumerate] with a callback on a state in which the store is; [None] is
    running out of fuel. *)
Fixpoint Enumerate {S E} (get : S → store) (callback : PageResult → S → (bool * option E) * S)
    (fuel : nat) (l : listActorsFilters) (s : S) : option (option (E + list list_error) * S) :=
  match fuel with
  | O => None
  | Datatypes.S fuel =>
      match fetchPage l (get s) with
      | (Err es, _) => Some (Some (inr es), s)
      | (Ok page, l') =>
          match callback page s with
          | ((_, Some e), s') => Some (Some (inl e), s')
          | ((keepGoing, None), s') =>
              if pg_HasMore page && keepGoing then Enumerate get callback fuel l' s' else Some (None, s')
          end
      end
  end.

(** A client that asks for the first page and follows the cursors. *)
Fixpoint follow_cursors (fuel : nat) (l : listActorsFilters) (st : store) : option (list DbActor) :=
  match fuel with
  | O => None
  | S fuel =>
      match (fetchPage l st).1 with
      | Err _ => None
      | Ok page =>
          if pg_HasMore page then
            l' ← FromCursor (pg_Cursor page); rest ← follow_cursors fuel l' st; Some (pg_Results page ++ rest)
          else Some (pg_Results page)
      end
  end.

(** A callback that collects the rows. *)
Definition collect (page : PageResult) (s : store * list DbActor) : (bool * option unit) * (store * list DbActor) :=
  ((true, None), (s.1, s.2 ++ pg_Results page)).

(** Documented behaviour: the JSON functions, [ORDER BY] permutes the rows, and
    opening a sealed cursor gives back its filters. *)
Record dialect_ok : Prop := {
  dk_json : json_functions_ok dl_pg_arrow dl_jsonb_exists dl_JSONExtractString dl_json_extract;
  dk_provider : dl_provider ≠ DatabaseProviderClickhouse;
  dk_order f b rows : dl_order f b rows ≡ₚ rows;
  dk_cursor l : lf_Errors l = [] → ∃ c, dl_seal l = Some c ∧ dl_open c = Some l
}.

(** Filters as a builder leaves them, with a selector that parses. *)
Record filters_ok (l : listActorsFilters) : Prop := {
  fk_errors : lf_Errors l = [];
  fk_limit : (0 < lf_LimitVal l < 2 ^ 62)%Z;
  fk_selector : ∀ s, lf_LabelSelectorVal l = Some s → ∃ sel, ParseLabelSelector s = Ok sel
}.

(** ** Pages *)

Lemma set_page_same l : lf_set_page (lf_LimitVal l) (lf_Offset l) l = l.
Proof. by destruct l. Qed.

Lemma applyRestrictions_ok l : filters_ok l → applyRestrictions l = l.
Proof.
  intros [_ Hl Hs]. unfold applyRestrictions. destruct (lf_LabelSelectorVal l) as [s|] eqn:Hsel.
  - destruct (Hs s eq_refl) as [sel ->]. destruct (Z.leb_spec (lf_LimitVal l) 0); [lia|]. apply set_page_same.
  - destruct (Z.leb_spec (lf_LimitVal l) 0); [lia|]. apply set_page_same.
Qed.

Lemma filters_ok_page l o : filters_ok l → filters_ok (lf_set_page (lf_LimitVal l) o l).
Proof. by intros []. Qed.

(** The page at an offset within the rows. *)
Lemma fetchPage_ok l st :
  filters_ok l → (Z.of_nat (length (query_rows l st)) < 2 ^ 62)%Z → (0 ≤ lf_Offset l ≤ Z.of_nat (length (query_rows l st)))%Z →
  let rows := query_rows l st in
  let limit := Z.to_nat (lf_LimitVal l) in
  let o := Z.to_nat (lf_Offset l) in
  if decide (o + limit < length rows)%nat then
    let l' := lf_set_page (lf_LimitVal l) (lf_Offset l + lf_LimitVal l) l in
    fetchPage l st = match dl_seal l' with
                     | None => (Err [ListCursorFailed], l')
                     | Some c => (Ok (mkPage (take limit (drop o rows)) true c), l')
                     end
  else (fetchPage l st).1 = Ok (mkPage (drop o rows) false "").
Proof.
  intros Hl Hlen Ho rows limit o. unfold fetchPage. rewrite fk_errors, applyRestrictions_ok by done. fold rows.
  destruct Hl as [_ Hlim _]. assert (u64 (lf_LimitVal l + 1) = lf_LimitVal l + 1)%Z as -> by (unfold u64; apply Z.mod_small; lia).
  fold rows in Hlen, Ho. unfold window. fold o. case_decide as Hmore.
  - destruct (Z.leb_spec (Z.of_nat (length rows)) (lf_Offset l)); [lia|].
    rewrite length_drop. destruct (Z.leb_spec (Z.of_nat (length rows - o)) (lf_LimitVal l + 1)).
    + rewrite length_drop. cbn [lf_LimitVal lf_set_page].
      destruct (Z.ltb_spec (lf_LimitVal l) (Z.of_nat (length rows - o))); [|lia].
      destruct (Z.leb_spec (Z.of_nat (length rows - o)) (lf_LimitVal l)); [lia|].
      replace (u64 (lf_Offset l + Z.of_nat (length rows - o) - 1)) with (lf_Offset l + lf_LimitVal l)%Z;
        [done|unfold u64; rewrite Z.mod_small; lia].
    + rewrite length_take, length_drop, Nat.min_l by lia. cbn [lf_LimitVal lf_set_page].
      destruct (Z.ltb_spec (lf_LimitVal l) (Z.of_nat (Z.to_nat (lf_LimitVal l + 1)))); [|lia].
      destruct (Z.leb_spec (Z.of_nat (Z.to_nat (lf_LimitVal l + 1))) (lf_LimitVal l)); [lia|].
      replace (u64 (lf_Offset l + Z.of_nat (Z.to_nat (lf_LimitVal l + 1)) - 1)) with (lf_Offset l + lf_LimitVal l)%Z;
        [|unfold u64; rewrite Z.mod_small; lia].
      rewrite take_take, Nat.min_l by lia. done.
  - assert (window (lf_LimitVal l + 1) (lf_Offset l) rows = drop o rows) as Hw.
    { unfold window. fold o. destruct (Z.leb_spec (Z.of_nat (length rows)) (lf_Offset l)); [by rewrite drop_ge by lia|].
      rewrite length_drop. destruct (Z.leb_spec (Z.of_nat (length rows - o)) (lf_LimitVal l + 1)); [done|lia]. }
    unfold window in Hw. fold o in Hw. rewrite Hw, length_drop. cbn [lf_LimitVal lf_set_page].
    destruct (Z.ltb_spec (lf_LimitVal l) (Z.of_nat (length rows - o))); [lia|].
    destruct (Z.leb_spec (Z.of_nat (length rows - o)) (lf_LimitVal l)); [done|lia].
Qed.

(** Past the rows the page is empty and the last one. *)
Lemma fetchPage_past l st :
  filters_ok l → (Z.of_nat (length (query_rows l st)) < lf_Offset l)%Z → (fetchPage l st).1 = Ok (mkPage [] false "").
Proof.
  intros Hl Ho. unfold fetchPage. rewrite fk_errors, applyRestrictions_ok by done. destruct Hl as [_ Hlim _]. unfold window.
  destruct (Z.leb_spec (Z.of_nat (length (query_rows l st))) (lf_Offset l)); [|lia]. cbn [length lf_LimitVal lf_set_page].
  destruct (Z.ltb_spec (lf_LimitVal l) (Z.of_nat 0)); [lia|]. by destruct (Z.leb_spec (Z.of_nat 0) (lf_LimitVal l)); [|lia].
Qed.

Section walk.
Hypothesis Hdl : dialect_ok.

Lemma enumerate_from l st fuel acc :
  filters_ok l → (Z.of_nat (length (query_rows l st)) < 2 ^ 62)%Z → (0 ≤ lf_Offset l ≤ Z.of_nat (length (query_rows l st)))%Z →
  (length (query_rows l st) - Z.to_nat (lf_Offset l) < fuel)%nat →
  Enumerate fst collect fuel l (st, acc) = Some (None, (st, acc ++ drop (Z.to_nat (lf_Offset l)) (query_rows l st))) ∧
  follow_cursors fuel l st = Some (drop (Z.to_nat (lf_Offset l)) (query_rows l st)).
Proof.
  revert l acc. induction fuel as [|fuel IH]; intros l acc Hl Hlen Ho Hf; [lia|]. cbn [Enumerate follow_cursors fst].
  pose proof (fetchPage_ok l st Hl Hlen Ho) as Hp. cbv zeta in Hp. case_decide as Hmore.
  - set (l' := lf_set_page (lf_LimitVal l) (lf_Offset l + lf_LimitVal l) l) in *.
    destruct (dk_cursor Hdl l') as (c & Hseal & Hopen); [by apply (fk_errors l)|]. rewrite Hseal in Hp. rewrite Hp.
    cbn [collect pg_HasMore pg_Cursor pg_Results fst snd andb]. unfold FromCursor. rewrite Hopen.
    pose proof (fk_limit l Hl) as Hlim. change (query_rows l st) with (query_rows l' st) in *.
    destruct (IH l' (acc ++ take (Z.to_nat (lf_LimitVal l)) (drop (Z.to_nat (lf_Offset l)) (query_rows l' st)))) as [-> Hfol];
      [by apply filters_ok_page|done|cbn; lia|cbn; lia|].
    cbn [mbind option_bind]. rewrite Hfol. cbn [mbind option_bind].
    replace (Z.to_nat (lf_Offset l')) with (Z.to_nat (lf_Offset l) + Z.to_nat (lf_LimitVal l))%nat by (cbn; lia).
    rewrite <- drop_drop, <- app_assoc, take_drop. done.
  - destruct (fetchPage l st) as [r l'] eqn:Hfp. cbn [fst] in Hp. subst r. done.
Qed.
End walk.

(** ** The rows *)

Definition creation_le (a b : DbActor) : Prop :=
  (da_CreatedAt a < da_CreatedAt b)%Z ∨ (da_CreatedAt a = da_CreatedAt b ∧ (da_Id a = da_Id b ∨ str_lt (da_Id a) (da_Id b))).

Lemma by_creation_le a b : cmp_le by_creation a b ↔ creation_le a b.
Proof.
  unfold cmp_le, by_creation, creation_le. rewrite str_lt_compare.
  assert (da_Id a = da_Id b ↔ String.compare (da_Id a) (da_Id b) = Eq) as -> by (split; [intros ->; apply str_compare_refl|apply String.compare_eq_iff]).
  repeat case_decide; [split; [by left|lia]|split; [lia|intros [?|[? _]]; lia]|].
  assert (da_CreatedAt a = da_CreatedAt b) by lia.
  destruct (String.compare (da_Id a) (da_Id b)); split; intros Hc; try lia; try (right; split; [done|]; by auto).
  destruct Hc as [?|[_ [?|?]]]; [lia|done|done].
Qed.

Lemma creation_total a b : creation_le a b ∨ creation_le b a.
Proof.
  unfold creation_le. destruct (Z.lt_trichotomy (da_CreatedAt a) (da_CreatedAt b)) as [?|[?|?]]; [tauto| |tauto].
  destruct (str_lt_total (da_Id a) (da_Id b)) as [?|[?|?]]; intuition.
Qed.

Lemma creation_trans a b c : creation_le a b → creation_le b c → creation_le a c.
Proof.
  unfold creation_le. intros [?|[? Hab]] [?|[? Hbc]]; [left; lia..|]. right. split; [congruence|].
  destruct Hab as [->|Hab]; [done|]. destruct Hbc as [<-|Hbc]; [by right|right]. by etrans.
Qed.

Lemma query_rows_perm l st :
  dialect_ok → query_rows l st ≡ₚ List.filter (selected l) (map snd (map_to_list (st_actors st))).
Proof.
  intros Hdl. unfold query_rows, ordered. destruct (lf_OrderBy l) as [[f b]|]; [apply (dk_order Hdl)|apply SortFunc_perm].
Qed.

Lemma query_rows_sorted l st : lf_OrderBy l = None → StronglySorted creation_le (query_rows l st).
Proof.
  intros Hn. unfold query_rows, ordered. rewrite Hn.
  assert (StronglySorted (cmp_le by_creation) (SortFunc by_creation (List.filter (selected l) (map snd (map_to_list (st_actors st)))))) as Hs.
  2: { induction Hs as [|a rows Hs IH Ha]; constructor; [done|]. eapply Forall_impl; [exact Ha|]. intros b. apply by_creation_le. }
  apply (SortFunc_sorted by_creation (λ _, True)).
  - intros x y _ _. rewrite !by_creation_le. apply creation_total.
  - intros x y z _ _ _. rewrite !by_creation_le. apply creation_trans.
  - by apply Forall_true.
Qed.

Definition keyed (st : store) : Prop := map_Forall (λ id a, da_Id a = id) (st_actors st).

Lemma store_ok_keyed st : store_ok st → keyed st.
Proof. intros Hst id a Ha. by destruct (so_rows _ Hst _ _ Ha). Qed.

Lemma stored_NoDup st : keyed st → NoDup (map snd (map_to_list (st_actors st))).
Proof.
  intros Hst. apply (NoDup_fmap_2_strong snd); [|apply NoDup_map_to_list].
  intros [i a] [j b] Hi%elem_of_map_to_list Hj%elem_of_map_to_list. cbn. intros <-.
  apply Hst in Hi, Hj. by subst.
Qed.

Lemma elem_of_rows l st a :
  dialect_ok → a ∈ query_rows l st ↔ (∃ id, st_actors st !! id = Some a) ∧ selected l a = true.
Proof.
  intros Hdl. rewrite (query_rows_perm l st Hdl), list_elem_of_In, filter_In. f_equiv.
  rewrite in_map_iff. split.
  - intros ([id b] & <- & Hin). exists id. by apply elem_of_map_to_list, list_elem_of_In.
  - intros [id Ha]. exists (id, a). split; [done|]. by apply list_elem_of_In, elem_of_map_to_list.
Qed.

Lemma query_rows_NoDup l st : dialect_ok → keyed st → NoDup (query_rows l st).
Proof.
  intros Hdl Hst. rewrite (query_rows_perm l st Hdl). apply NoDup_ListNoDup, List.NoDup_filter, NoDup_ListNoDup. by apply stored_NoDup.
Qed.

(** What the filters ask of an actor. *)
Record matches (l : listActorsFilters) (a : DbActor) : Prop := {
  ma_live : lf_IncludeDeletedVal l = true ∨ is_live a = true;
  ma_labels : ∀ s sel, lf_LabelSelectorVal l = Some s → ParseLabelSelector s = Ok sel → LabelSelector_Matches sel (da_Labels a) = true;
  ma_namespace : lf_NamespaceMatchers l = [] ∨
    Exists (λ m, sql_eval dl_like (column a) (namespaceMatcherCondition "namespace" m) = true) (lf_NamespaceMatchers l);
  ma_external_id : ∀ e, lf_ExternalIdVal l = Some e → da_ExternalId a = e;
  ma_name : ∀ n, lf_NameVal l = Some n → da_Name a = n
}.

Lemma label_preds_matches l a :
  dialect_ok → filters_ok l →
  row_selected dl_pg_arrow dl_jsonb_exists dl_JSONExtractString dl_json_extract (da_Labels a) (label_preds l) = true ↔
  ∀ s sel, lf_LabelSelectorVal l = Some s → ParseLabelSelector s = Ok sel → LabelSelector_Matches sel (da_Labels a) = true.
Proof.
  intros Hdl Hl. unfold label_preds. destruct (lf_LabelSelectorVal l) as [s|] eqn:Hs; [|naive_solver].
  destruct (fk_selector l Hl s Hs) as [sel Hsel]. rewrite Hsel, selector_sql_agrees.
  - cbn. split; [intros Hm s' sel' [= <-]; rewrite Hsel; by intros [= <-]|]. intros Hm. by eapply Hm.
  - apply (dk_json Hdl).
  - apply parse_valid in Hsel. eapply Forall_impl; [exact Hsel|]. intros r Hr o Ho. unfold valid_requirement in Hr. rewrite Ho in Hr. naive_solver.
  - intros Hp. by destruct (dk_provider Hdl).
Qed.

Lemma selected_matches l a : dialect_ok → filters_ok l → selected l a = true ↔ matches l a.
Proof.
  intros Hdl Hl. unfold selected. rewrite !andb_true_iff, label_preds_matches, orb_true_iff, restrict_selects by done.
  cbn [selects forallb andb]. rewrite orb_true_iff, bool_decide_eq_true, existsb_exists. split.
  - intros ((((H1 & H2) & H3) & H4) & H5). split; try done.
    + destruct H3 as [H3|(m & Hin & Hm)]; [by left|right]. apply Exists_exists. exists m. by rewrite list_elem_of_In.
    + intros e He. rewrite He in H4. by apply bool_decide_eq_true in H4.
    + intros n Hn. rewrite Hn in H5. by apply bool_decide_eq_true in H5.
  - intros [H1 H2 H3 H4 H5]. split_and!; try done.
    + destruct H3 as [H3|(m & Hin & Hm)%Exists_exists]; [by left|right]. exists m. by rewrite <- list_elem_of_In.
    + destruct (lf_ExternalIdVal l); [|done]. apply bool_decide_eq_true. by apply H4.
    + destruct (lf_NameVal l); [|done]. apply bool_decide_eq_true. by apply H5.
Qed.

(** A listing is complete and without repetition.  For filters without
    errors and any positive limit, on a table that does not change meanwhile,
    [Enumerate] ends and visits, and a client that follows the cursors from the
    first page on receives, the same rows: every actor that satisfies the
    filters, exactly once, however they are cut into pages; by default in the
    order of creation and id. *)
Theorem listing_complete l st :
  dialect_ok → filters_ok l → lf_Offset l = 0%Z → store_ok st →
  (Z.of_nat (size (st_actors st)) < 2 ^ 62)%Z →
  ∃ rows,
    Enumerate fst collect (S (size (st_actors st))) l (st, []) = Some (None, (st, rows)) ∧
    follow_cursors (S (size (st_actors st))) l st = Some rows ∧
    NoDup rows ∧
    (∀ a, a ∈ rows ↔ (∃ id, st_actors st !! id = Some a) ∧ matches l a) ∧
    (lf_OrderBy l = None → StronglySorted creation_le rows).
Proof.
  intros Hdl Hl Ho Hst Hsize. exists (query_rows l st).
  assert (length (query_rows l st) ≤ size (st_actors st))%nat as Hlen.
  { rewrite (query_rows_perm l st Hdl). etrans; [apply filter_length_le|]. by rewrite length_map, length_map_to_list. }
  destruct (enumerate_from Hdl l st (S (size (st_actors st))) [] Hl) as [He Hf]; [lia..|].
  rewrite Ho in He, Hf. split_and!; [done|done| | |by apply query_rows_sorted].
  - by apply query_rows_NoDup, store_ok_keyed.
  - intros a. by rewrite elem_of_rows, selected_matches.
Qed.
End list.

(** ** Configured actors *)

Definition LabelConfiguredActorSyncSource : string := "authproxy.io/actor-sync-source".
Definition LabelValueConfigList : string := "config-list".
Definition LabelValuePublicKeyDir : string := "public-key-dir".

(** [ca_Key] is the key as JSON. *)
Record ConfiguredActor := mkConfiguredActor {
  ca_ExternalId : string;
  ca_Key : option string;
  ca_Permissions : list Permission;
  ca_Labels : Labels
}.

Inductive sync_error : Type :=
  | SyncEncryptFailed
  | SyncUpsertFailed (e : actor_error)
  | SyncDeleteFailed (e : actor_error)
  | SyncListFailed (es : list list_error).

Section sync.
Context {dl : Dialect} (visit : Labels → list (string * string)).
(** What [EncryptStringGlobal] returns and the ids handed out, by call. *)
Context (encrypt : nat → string → option EncryptedField) (new_id : nat → string) (now : Z).

Definition configuredActorData (actor : ConfiguredActor) (sourceLabel : string) (encryptedKey : option EncryptedField) : ActorData :=
  mkActorData "" "root" (ca_ExternalId actor) (ca_Permissions actor)
    (<[LabelConfiguredActorSyncSource := sourceLabel]> (ca_Labels actor)) None (Some encryptedKey).

Definition encrypt_key (i : nat) (key : option string) : result sync_error (option EncryptedField) :=
  match key with
  | None => Ok None
  | Some k => match encrypt i k with Some e => Ok (Some e) | None => Err SyncEncryptFailed end
  end.

Fixpoint sync_upserts (i : nat) (actors : list ConfiguredActor) (sourceLabel : string) (st : store) : option sync_error * store :=
  match actors with
  | [] => (None, st)
  | actor :: actors =>
      match encrypt_key i (ca_Key actor) with
      | Err e => (Some e, st)
      | Ok key =>
          match UpsertActor visit now (new_id i) (configuredActorData actor sourceLabel key) st with
          | (Err e, st') => (Some (SyncUpsertFailed e), st')
          | (Ok _, st') => sync_upserts (S i) actors sourceLabel st'
          end
      end
  end.

Definition stale (sourceLabel : string) (expectedExternalIds : list string) (a : DbActor) : bool :=
  bool_decide (default "" (da_Labels a !! LabelConfiguredActorSyncSource) = sourceLabel) &&
  negb (bool_decide (da_ExternalId a ∈ expectedExternalIds)).

Fixpoint delete_stale (sourceLabel : string) (expected : list string) (rows : list DbActor) (st : store) : (bool * option sync_error) * store :=
  match rows with
  | [] => ((true, None), st)
  | a :: rows =>
      if stale sourceLabel expected a then
        match DeleteActor now (da_Id a) st with
        | (Err e, st') => ((false, Some (SyncDeleteFailed e)), st')
        | (Ok _, st') => delete_stale sourceLabel expected rows st'
        end
      else delete_stale sourceLabel expected rows st
  end.

(** The fuel is one more than the rows there are; see [sync_terminates]. *)
Definition syncConfiguredActors (actors : list ConfiguredActor) (sourceLabel : string) (st : store) : option (option sync_error * store) :=
  let expectedExternalIds := map ca_ExternalId actors in
  match sync_upserts 0 actors sourceLabel st with
  | (Some e, st') => Some (Some e, st')
  | (None, st') =>
      match Enumerate (λ s, s) (λ page, delete_stale sourceLabel expectedExternalIds (pg_Results page)) (S (size (st_actors st')))
              (lf_ForLabelSelector LabelConfiguredActorSyncSource ListActorsBuilder) st' with
      | None => None
      | Some (None, st'') => Some (None, st'')
      | Some (Some (inl e), st'') => Some (Some e, st'')
      | Some (Some (inr es), st'') => Some (Some (SyncListFailed es), st'')
      end
  end.

(** *** The stale ones are deleted *)

Definition deleted_at (a : DbActor) : DbActor := set_times (da_CreatedAt a) now (Some now) a.

Definition hit (sourceLabel : string) (expected : list string) (rows : list DbActor) (id : string) : bool :=
  existsb (λ r, stale sourceLabel expected r && bool_decide (da_Id r = id)) rows.

Lemma delete_stale_ok sourceLabel expected rows st :
  map_Forall (λ id a, da_Id a = id) (st_actors st) → Forall (λ r, is_Some (st_actors st !! da_Id r)) rows →
  ∃ st', delete_stale sourceLabel expected rows st = ((true, None), st') ∧
    ∀ id, st_actors st' !! id = (λ a, if hit sourceLabel expected rows id then deleted_at a else a) <$> st_actors st !! id.
Proof.
  revert st. induction rows as [|r rows IH]; intros st Hids Hrows; cbn [delete_stale].
  { exists st. split; [done|]. intros id. cbn. by destruct (st_actors st !! id). }
  apply Forall_cons in Hrows as [[a Ha] Hrows]. destruct (stale sourceLabel expected r) eqn:Hs.
  - unfold DeleteActor. rewrite Ha. pose proof (Hids _ _ Ha) as Hid. cbn beta in Hid.
    destruct (IH (put_row (deleted_at a) st)) as (st' & Hd & Hl).
    { cbn. apply map_Forall_insert_2; done. }
    { eapply Forall_impl; [exact Hrows|]. intros r' [b Hb]. cbn. destruct (decide (da_Id a = da_Id r')) as [->|]; [by rewrite lookup_insert_eq|].
      by rewrite lookup_insert_ne. }
    exists st'. split; [exact Hd|]. intros id. rewrite Hl. cbn. rewrite Hs. cbn [andb]. fold (hit sourceLabel expected rows id).
    rewrite Hid. destruct (decide (da_Id r = id)) as [<-|Hne].
    + rewrite lookup_insert_eq, bool_decide_true, Ha by done. cbn. by destruct (hit _ _ _ _).
    + rewrite lookup_insert_ne, bool_decide_false by done. done.
  - destruct (IH st Hids Hrows) as (st' & Hd & Hl). exists st'. split; [done|]. intros id. rewrite Hl. cbn. by rewrite Hs.
Qed.

Definition sync_filters : listActorsFilters := lf_ForLabelSelector LabelConfiguredActorSyncSource ListActorsBuilder.

Lemma sync_filters_ok : filters_ok sync_filters.
Proof. split; [done|done|]. intros s [= <-]. eexists. vm_compute. reflexivity. Qed.

Lemma stored_rows l st : dialect_ok → store_ok st → Forall (λ r, st_actors st !! da_Id r = Some r) (query_rows l st).
Proof.
  intros Hdl Hst. apply Forall_forall. intros r [[id Hr] _]%elem_of_rows; [|done]. by destruct (so_rows _ Hst _ _ Hr) as [-> _].
Qed.

(** A live actor with the label of the source is among the rows. *)
Lemma labelled_row st id a v :
  dialect_ok → st_actors st !! id = Some a → is_live a = true → da_Labels a !! LabelConfiguredActorSyncSource = Some v → a ∈ query_rows sync_filters st.
Proof.
  intros Hdl Ha Hl Hv. apply elem_of_rows; [done|]. split; [by exists id|]. apply selected_matches; [done|apply sync_filters_ok|].
  split; try done; [by right| |by left]. intros s sel [= <-] Hp. vm_compute in Hp. injection Hp as <-.
  unfold LabelSelector_Matches, requirement_holds. cbn [req_Operator req_Key]. unfold LabelConfiguredActorSyncSource in Hv. by rewrite Hv.
Qed.

(** *** The upserts *)

Lemma upsert_step i c actors sourceLabel st st' :
  store_ok st → sync_upserts i (c :: actors) sourceLabel st = (None, st') →
  ∃ key b st1, encrypt_key i (ca_Key c) = Ok key ∧ UpsertActor visit now (new_id i) (configuredActorData c sourceLabel key) st = (Ok b, st1) ∧ store_ok st1 ∧
    sync_upserts (S i) actors sourceLabel st1 = (None, st') ∧
    written (configuredActorData c sourceLabel key) (upsert_lookup (configuredActorData c sourceLabel key) st) b st st1.
Proof.
  intros Hst. cbn [sync_upserts]. destruct (encrypt_key i (ca_Key c)) as [e|key] eqn:Hkey; [done|].
  destruct (UpsertActor _ _ _ _ _) as [[e|b] st1] eqn:Hu; [done|]. intros Hrest. exists key, b, st1.
  pose proof (UpsertActor_ok visit now (new_id i) (configuredActorData c sourceLabel key) st Hst) as Hst1. rewrite Hu in Hst1.
  split_and!; [done..|]. by eapply UpsertActor_written.
Qed.

Lemma upsert_lookup_identity c sourceLabel key st o :
  upsert_lookup (configuredActorData c sourceLabel key) st = Some o → da_Namespace o = "root" ∧ da_ExternalId o = ca_ExternalId c.
Proof.
  unfold upsert_lookup. cbn [ad_Id configuredActorData]. rewrite decide_False by tauto. intros [Ho _]%find_actor_Some.
  cbn in Ho. by rewrite andb_true_iff, !bool_decide_eq_true in Ho.
Qed.

Lemma upserts_keep i actors sourceLabel st st' id a :
  store_ok st → sync_upserts i actors sourceLabel st = (None, st') →
  st_actors st !! id = Some a → ¬ (da_Namespace a = "root" ∧ da_ExternalId a ∈ map ca_ExternalId actors) → st_actors st' !! id = Some a.
Proof.
  revert i st. induction actors as [|c actors IH]; intros i st Hst; [by intros [= <-]|].
  intros (key & b & st1 & _ & Hu & Hst1 & Hrest & Hag & _ & Hoth & _ & Hnew & Hold)%upsert_step Ha Hn; [|done].
  eapply IH; [exact Hst1|exact Hrest| |set_solver].
  rewrite Hoth; [done|]. intros ->. destruct (upsert_lookup _ st) as [o|] eqn:Ho.
  - destruct (Hold o eq_refl) as [Hid _]. pose proof (upsert_lookup_stored _ _ _ Hst Ho) as Hso. rewrite <- Hid, Ha in Hso. injection Hso as <-.
    apply upsert_lookup_identity in Ho as [??]. apply Hn. set_solver.
  - destruct (Hnew eq_refl) as [_ Hnone]. congruence.
Qed.

Lemma sync_upserts_ok i actors sourceLabel st st' :
  store_ok st → sync_upserts i actors sourceLabel st = (None, st') → store_ok st'.
Proof.
  revert i st. induction actors as [|c actors IH]; intros i st Hst; [by intros [= <-]|].
  intros (key & b & st1 & _ & _ & Hst1 & Hrest & _)%upsert_step; [|done]. by eapply IH.
Qed.

Lemma upserts_written i actors sourceLabel st st' c :
  store_ok st → sync_upserts i actors sourceLabel st = (None, st') → NoDup (map ca_ExternalId actors) → c ∈ actors →
  ∃ id a n key, encrypt_key n (ca_Key c) = Ok key ∧ st_actors st' !! id = Some a ∧ agrees a (configuredActorData c sourceLabel key) ∧
    (is_live a = true ∨ ∃ o, st_actors st !! id = Some o ∧ da_Namespace o = "root" ∧ da_ExternalId o = ca_ExternalId c ∧ is_live o = false).
Proof.
  revert i st. induction actors as [|c' actors IH]; intros i st Hst; [set_solver|].
  intros (key & b & st1 & Hkey & Hu & Hst1 & Hrest & Hag & Hstored & Hoth & _ & Hnew & Hold)%upsert_step Hnd Hin; [|done].
  cbn in Hnd. apply NoDup_cons in Hnd as [Hnin Hnd]. pose proof (ag_ext _ _ Hag) as Hext. cbn in Hext.
  apply elem_of_cons in Hin as [->|Hin].
  - exists (da_Id b), b, i, key. split_and!; [done| |done|].
    + eapply upserts_keep; [exact Hst1|exact Hrest|done|]. rewrite Hext. naive_solver.
    + destruct (upsert_lookup _ st) as [o|] eqn:Ho; [|left; by apply Hnew]. destruct (Hold o eq_refl) as (Hid & Hdel & _).
      destruct (is_live b) eqn:Hl; [by left|right]. exists o. rewrite Hid.
      pose proof (upsert_lookup_identity _ _ _ _ _ Ho) as [??]. split_and!; [by eapply upsert_lookup_stored|done..|].
      unfold is_live in *. by rewrite <- Hdel.
  - destruct (IH _ _ Hst1 Hrest Hnd Hin) as (id & a & n & key' & Hk' & Ha & Hag' & Hl). exists id, a, n, key'. split_and!; [done..|].
    destruct Hl as [?|(o & Ho & Hns & Hoe & Hdel)]; [by left|right]. exists o. split_and!; [|done..].
    rewrite <- Hoth; [done|]. intros ->. rewrite Hstored in Ho. injection Ho as <-. apply Hnin. rewrite <- Hext, Hoe.
    apply list_elem_of_fmap. by exists c.
Qed.

(** *** Termination *)

Lemma rows_shrink l st st' :
  dialect_ok → keyed st → keyed st' → 
  (∀ id a', st_actors st' !! id = Some a' → selected l a' = true → ∃ a, st_actors st !! id = Some a ∧ selected l a = true) →
  (length (query_rows l st') ≤ length (query_rows l st))%nat.
Proof.
  intros Hdl Hk Hk' Hsub. rewrite <- (length_map da_Id (query_rows l st')), <- (length_map da_Id (query_rows l st)).
  apply submseteq_length, NoDup_submseteq.
  - apply (NoDup_fmap_2_strong da_Id); [|by apply query_rows_NoDup].
    intros a b [[i Hi] _]%elem_of_rows [[j Hj] _]%elem_of_rows Heq; [|done..].
    pose proof (Hk' _ _ Hi) as Hii. pose proof (Hk' _ _ Hj) as Hjj. cbn in Hii, Hjj. congruence.
  - intros id (a' & -> & [[i Hi] Hs]%elem_of_rows)%list_elem_of_fmap; [|done]. pose proof (Hk' _ _ Hi) as Hii. cbn in Hii.
    destruct (Hsub _ _ Hi Hs) as (a & Ha & Hsa). apply list_elem_of_fmap. exists a. split.
    + pose proof (Hk _ _ Ha) as Haa. cbn in Haa. congruence.
    + apply elem_of_rows; [done|]. split; [by exists i|done].
Qed.

Lemma delete_stale_shrinks sourceLabel expected rows st st' :
  dialect_ok → keyed st →
  (∀ id, st_actors st' !! id = (λ a, if hit sourceLabel expected rows id then deleted_at a else a) <$> st_actors st !! id) →
  keyed st' ∧ ∀ o, (length (query_rows (lf_set_page 100 o sync_filters) st') ≤ length (query_rows (lf_set_page 100 o sync_filters) st))%nat.
Proof.
  intros Hdl Hk Hst'. assert (keyed st') as Hk'.
  { intros id a'. rewrite Hst'. intros (a & Ha & ->)%fmap_Some. apply Hk in Ha. by destruct (hit _ _ _ _). }
  split; [done|]. intros o. apply rows_shrink; [done..|]. intros id a'. rewrite Hst'. intros (a & Ha & ->)%fmap_Some Hs. exists a. split; [done|].
  destruct (hit sourceLabel expected rows id); [|done]. unfold selected in Hs. rewrite !andb_true_iff in Hs. destruct Hs as [[[[_ Hs] _] _] _]. discriminate Hs.
Qed.

Lemma stale_enumeration_ends sourceLabel expected fuel o st :
  dialect_ok → keyed st → (0 ≤ o)%Z → (Z.of_nat (length (query_rows sync_filters st)) < 2 ^ 62)%Z →
  (length (query_rows sync_filters st) - Z.to_nat o < fuel)%nat →
  ∃ r, Enumerate (λ s, s) (λ page, delete_stale sourceLabel expected (pg_Results page)) fuel (lf_set_page 100 o sync_filters) st = Some r.
Proof.
  intros Hdl. revert o st. induction fuel as [|fuel IH]; intros o st Hk Ho Hlen Hf; [lia|]. cbn [Enumerate].
  set (l := lf_set_page 100 o sync_filters). change (query_rows sync_filters st) with (query_rows l st) in *.
  assert (filters_ok l) as Hl by apply (filters_ok_page sync_filters), sync_filters_ok.
  destruct (fetchPage l st) as [r l'] eqn:Hfp.
  destruct (decide (o ≤ Z.of_nat (length (query_rows l st)))%Z) as [Hin|Hpast].
  - pose proof (fetchPage_ok l st Hl Hlen (conj Ho Hin)) as Hp. cbv zeta in Hp. rewrite Hfp in Hp. case_decide as Hmore.
    + set (l1 := lf_set_page (lf_LimitVal l) (lf_Offset l + lf_LimitVal l) l) in Hp.
      assert (l1 = lf_set_page 100 (o + 100) sync_filters) as Hl1 by reflexivity.
      destruct (dk_cursor Hdl l1 eq_refl) as (c & Hseal & _). rewrite Hseal, Hl1 in Hp. injection Hp as -> ->. cbn [pg_HasMore pg_Results andb].
      set (page := take _ _). destruct (delete_stale_ok sourceLabel expected page st) as (st' & -> & Hst'); [done| |].
      { apply Forall_forall. intros a' Ha'. unfold page in Ha'. apply elem_of_take in Ha' as (k & Hk' & _). rewrite lookup_drop in Hk'.
        apply list_elem_of_lookup_2, elem_of_rows in Hk' as [[id Hid] _]; [|done]. pose proof (Hk _ _ Hid) as <-. by rewrite Hid. }
      destruct (delete_stale_shrinks _ _ _ _ _ Hdl Hk Hst') as [Hk' Hsh]. specialize (Hsh o). fold l in Hsh.
      apply (IH (o + 100)%Z st' Hk'); [lia| |]; change (query_rows sync_filters st') with (query_rows l st'); [lia|].
      change (lf_Offset l) with o in Hmore. change (lf_LimitVal l) with 100%Z in Hmore. lia.
    + cbn [fst] in Hp. subst r. cbn [pg_HasMore andb]. destruct (delete_stale _ _ _ _) as [[k [e|]] s']; by eexists.
  - pose proof (fetchPage_past l st Hl) as Hp. rewrite Hfp in Hp. cbn [fst] in Hp. rewrite Hp by (change (lf_Offset l) with o; lia).
    cbn [pg_HasMore andb].
    destruct (delete_stale _ _ _ _) as [[k [e|]] s']; by eexists.
Qed.

Lemma sync_terminates actors sourceLabel st :
  dialect_ok → store_ok st → (∀ st', sync_upserts 0 actors sourceLabel st = (None, st') → (Z.of_nat (size (st_actors st')) < 2 ^ 62)%Z) →
  ∃ r, syncConfiguredActors actors sourceLabel st = Some r.
Proof.
  intros Hdl Hst Hsize. unfold syncConfiguredActors. destruct (sync_upserts 0 actors sourceLabel st) as [[e|] st1] eqn:Hu; [by eexists|].
  assert (length (query_rows sync_filters st1) ≤ size (st_actors st1))%nat as Hlen.
  { rewrite (query_rows_perm sync_filters st1 Hdl). etrans; [apply filter_length_le|]. by rewrite length_map, length_map_to_list. }
  specialize (Hsize st1 eq_refl).
  destruct (stale_enumeration_ends sourceLabel (map ca_ExternalId actors) (S (size (st_actors st1))) 0 st1 Hdl) as [r Hr];
    [apply store_ok_keyed; by eapply sync_upserts_ok|lia|lia|lia|].
  change (lf_set_page 100 0 sync_filters) with sync_filters in Hr. unfold sync_filters in Hr. rewrite Hr.
  destruct r as [[[e|es]|] st2]; by eexists.
Qed.

Lemma hit_row sourceLabel expected l st id a :
  dialect_ok → keyed st → st_actors st !! id = Some a →
  hit sourceLabel expected (query_rows l st) id = true ↔ a ∈ query_rows l st ∧ stale sourceLabel expected a = true.
Proof.
  intros Hdl Hk Ha. unfold hit. rewrite existsb_exists. split.
  - intros (r & Hin & [Hs Hid]%andb_true_iff). apply bool_decide_eq_true in Hid. apply list_elem_of_In in Hin.
    pose proof Hin as [[i Hi] _]%elem_of_rows; [|done]. pose proof (Hk _ _ Hi) as Hii. cbn in Hii.
    assert (r = a) as -> by congruence. done.
  - intros [Hin Hs]. exists a. rewrite <- list_elem_of_In, Hs. split; [done|]. apply bool_decide_eq_true. by apply Hk.
Qed.

(** The row is what the configuration says of the actor: its labels of the
    user are the configured ones and the label of the source, and its key is
    the configured one as the encryption service sealed it. *)
Record as_configured (sourceLabel : string) (c : ConfiguredActor) (a : DbActor) : Prop := {
  ac_identity : da_Namespace a = "root" ∧ da_ExternalId a = ca_ExternalId c;
  ac_permissions : da_Permissions a = ca_Permissions c;
  ac_source : da_Labels a !! LabelConfiguredActorSyncSource = Some sourceLabel;
  ac_labels k : is_apxy k = false → k ≠ LabelConfiguredActorSyncSource → da_Labels a !! k = ca_Labels c !! k;
  ac_key : match ca_Key c with
           | None => da_EncryptedKey a = None
           | Some secret => ∃ n sealed, encrypt n secret = Some sealed ∧ da_EncryptedKey a = Some sealed
           end
}.

Lemma agrees_configured n sourceLabel c key a : encrypt_key n (ca_Key c) = Ok key → agrees a (configuredActorData c sourceLabel key) → as_configured sourceLabel c a.
Proof.
  intros Hk [Hns Hext Hp Hl _ Hkey]. cbn in *. split; [done|done|..].
  - rewrite Hl by reflexivity. by rewrite lookup_insert_eq.
  - intros k Hx Hne. rewrite Hl by done. by rewrite lookup_insert_ne.
  - specialize (Hkey key eq_refl). unfold encrypt_key in Hk. destruct (ca_Key c) as [secret|]; [|congruence].
    destruct (encrypt n secret) as [sealed|] eqn:He; [|done]. exists n, sealed. split; [done|congruence].
Qed.

End sync.

(** ** A database *)

Definition order_code (o : option (ActorOrderByField * OrderBy)) : nat :=
  match o with
  | None => 0
  | Some (f, b) =>
      match f with ActorOrderByCreatedAt => 1 | ActorOrderByUpdatedAt => 3 | ActorOrderByNamespace => 5 | ActorOrderByExternalId => 7 | ActorOrderByDeletedAt => 9 end
      + match b with OrderByAsc => 0 | OrderByDesc => 1 end
  end.

Definition code_order (n : nat) : option (ActorOrderByField * OrderBy) :=
  match n with
  | 1 => Some (ActorOrderByCreatedAt, OrderByAsc) | 2 => Some (ActorOrderByCreatedAt, OrderByDesc)
  | 3 => Some (ActorOrderByUpdatedAt, OrderByAsc) | 4 => Some (ActorOrderByUpdatedAt, OrderByDesc)
  | 5 => Some (ActorOrderByNamespace, OrderByAsc) | 6 => Some (ActorOrderByNamespace, OrderByDesc)
  | 7 => Some (ActorOrderByExternalId, OrderByAsc) | 8 => Some (ActorOrderByExternalId, OrderByDesc)
  | 9 => Some (ActorOrderByDeletedAt, OrderByAsc) | 10 => Some (ActorOrderByDeletedAt, OrderByDesc)
  | _ => None
  end%nat.

Definition seal_filters (l : listActorsFilters) : string :=
  pos_digits (encode (lf_LimitVal l, lf_Offset l, order_code (lf_OrderBy l), lf_IncludeDeletedVal l, lf_ExternalIdVal l, lf_NameVal l,
                      lf_NamespaceMatchers l, lf_LabelSelectorVal l)).

Definition open_filters (c : string) : option listActorsFilters :=
  t ← decode (digits_pos c);
  let '(limit, offset, order, incl, ext, name, ms, sel) := t in Some (mkFilters limit offset (code_order order) incl ext name ms sel []).

#[export] Instance sqlite : Dialect := {|
  dl_provider := DatabaseProviderSqlite;
  dl_like := λ v p, standard_like p v;
  dl_pg_arrow := λ m k, m !! k;
  dl_jsonb_exists := λ m k, bool_decide (is_Some (m !! k));
  dl_JSONExtractString := λ m k, default "" (m !! k);
  dl_json_extract := λ m k, m !! k;
  dl_order := λ _ _ rows, rows;
  dl_seal := λ l, Some (seal_filters l);
  dl_open := open_filters
|}.

Lemma sqlite_ok : dialect_ok (dl := sqlite).
Proof.
  split; [by split_and!|done|done|]. intros l Hl. eexists. split; [reflexivity|]. cbn. unfold open_filters, seal_filters.
  rewrite digits_pos_digits, decode_encode. cbn. destruct l as [? ? [[[] []]|] ? ? ? ? ? ?]; cbn in *; by subst.
Qed.

Definition sample_table : store := run_actor_ops map_to_list sample_ops sample_store.

Lemma sample_table_ok : store_ok sample_table.
Proof. apply run_actor_ops_ok, empty_store_ok. Qed.

Lemma listing_complete_witness :
  ∃ rows, follow_cursors (S (size (st_actors sample_table))) (lf_Limit 1 (lf_IncludeDeleted ListActorsBuilder)) sample_table = Some rows ∧
    NoDup rows ∧ sample_alice ∈ rows.
Proof.
  destruct (listing_complete (dl := sqlite) (lf_Limit 1 (lf_IncludeDeleted ListActorsBuilder)) sample_table sqlite_ok) as (rows & _ & Hf & Hnd & Hin & _).
  - split; [done|done|]. intros s. discriminate.
  - reflexivity.
  - apply sample_table_ok.
  - vm_compute. reflexivity.
  - exists rows. split; [exact Hf|]. split; [exact Hnd|]. apply Hin. split; [exists "act_1"; vm_compute; reflexivity|].
    split; [left; reflexivity|intros s sel Hs; discriminate Hs|left; reflexivity|intros e He; discriminate He|intros n He; discriminate He].
Defined.

Definition one_configured : list ConfiguredActor := [mkConfiguredActor "carol" (Some "{}") (PermissionsSingle "root" "actors" "list") ∅].

Definition sample_encrypt (i : nat) (s : string) : option EncryptedField := Some (mkEncryptedField "dek_1" s).

Definition sync (now : Z) (ids : nat → string) (actors : list ConfiguredActor) (st : store) : option (option sync_error * store) :=
  syncConfiguredActors (dl := sqlite) map_to_list sample_encrypt ids now actors LabelValueConfigList st.


(** [n] actors a synchronisation created. *)
Definition synced_row (i : nat) : DbActor :=
  let id := "act_" +:+ pos_digits (Pos.of_succ_nat i) in
  mkDbActor id "root" id id [] {[ LabelConfiguredActorSyncSource := LabelValueConfigList ]} ∅ None 0 0 None None.

Definition synced_table (n : nat) : store :=
  mkStore (list_to_map (map (λ i, let a := synced_row i in (da_Id a, a)) (seq 0 n))) ∅.

Definition live_count (st : store) : nat := length (List.filter is_live (map snd (map_to_list (st_actors st)))).

Definition after (r : option (option sync_error * store)) : store := match r with Some (None, st) => st | _ => mkStore ∅ ∅ end.

Definition alice_configured : list ConfiguredActor := [mkConfiguredActor "alice" None [] ∅].
Definition alice_token : ActorData := mkActorData "" "root" "alice" [] ∅ None None.

Definition found (r : result actor_error DbActor * store) : bool := succeeds r.1.

(** Five places where listing and synchronisation do less than they say.
    The first page of a list with an invalid label selector is unfiltered,
    since the error is recorded after the check for errors.  A synchronisation
    deletes while it pages by offset, so with more than a hundred stale actors
    it skips some.  An actor that was upserted from a token no longer has the
    label of its source, and stays after it is removed from the configuration.
    An actor that is removed from the configuration and added again stays
    deleted.  The order [created_at:asc] of the API documentation is not a
    field. *)
Theorem listing_defects :
  (let l := lf_ForLabelSelector "a=b=c d" (lf_IncludeDeleted ListActorsBuilder) in
   ((λ p, map da_Id (pg_Results p)) <$> match (fetchPage (dl := sqlite) l sample_table).1 with Ok p => Some p | Err _ => None end)
     = Some ["act_1"; "act_2"] ∧
   succeeds (fetchPage (dl := sqlite) (fetchPage (dl := sqlite) l sample_table).2 sample_table).1 = false) ∧
  live_count (after (sync 9 (λ _, "act_9") [] (synced_table 102))) = 2%nat ∧
  (let st := after (sync 1 (λ _, "act_1") alice_configured (mkStore ∅ ∅)) in
   let st := (UpsertActor map_to_list 2 "act_2" alice_token st).2 in
   found (GetActorByExternalId "root" "alice" (after (sync 3 (λ _, "act_3") [] st))) = true) ∧
  (let st := after (sync 1 (λ _, "act_1") alice_configured (mkStore ∅ ∅)) in
   let st := after (sync 2 (λ _, "act_2") [] st) in
   let st' := after (sync 3 (λ _, "act_3") alice_configured st) in
   size (st_actors st') = 1%nat ∧ found (GetActorByExternalId "root" "alice" st') = false) ∧
  (SplitOrderByParam "created_at:asc" = Ok ("created_at:asc", OrderByAsc) ∧ IsValidActorOrderByField "created_at:asc" = None).
Proof. vm_compute. repeat split. Qed.
