(* ===== verification/AuthService.v ===== *)
(** * Authentication of requests

    How a request is authenticated ([apauth/service] auth_methods.go,
    session.go, actor_cache.go, middleware.go): the token of the query or the
    header, the key it must be signed with, its claims ([apauth/jwt]
    auth_proxy_claims.go) and nonce ([database/used_nonce.go]), the actor it
    stands for, and sessions in Redis with their cookies and XSRF values.

    Tokens are parsed and verified by a third-party library, as are JSON,
    base64 and encryption: these are the members of [AuthExternal]. *)

From S2P Require Import Prelude GoNumbers GoStrings Namespace Permissions Labels Redis Actors.
Open Scope string_scope.
Open Scope list_scope.

(** ** Keys and claims *)

(** A reference to key material; reading its current version may fail. *)
Abbreviation KeyData := string (only parsing).

Inductive Key : Type :=
  | KeyPublicPrivate (PublicKey : KeyData)
  | KeyShared (SharedKey : KeyData)
  | KeyOther.

(** What a signature is verified with. *)
Inductive VerifyingKey : Type :=
  | VerifyShared (data : string)
  | VerifyPublic (key : string).

(** Times in nanoseconds.  [cl_ActorAnnotations] is whether the annotations of
    the actor are a map and not nil. *)
Record AuthProxyClaims := mkClaims {
  cl_Issuer : string;
  cl_Subject : string;
  cl_Audience : list string;
  cl_ExpiresAt : option Z;
  cl_IssuedAt : option Z;
  cl_Namespace : string;
  cl_Actor : option Actor;
  cl_ActorAnnotations : bool;
  cl_Permissions : list Permission;
  cl_SystemSigned : bool;
  cl_ActorSigned : bool;
  cl_Nonce : option string
}.

Definition claims_GetNamespace (tc : AuthProxyClaims) : string :=
  if decide (cl_Namespace tc = "") then "root" else cl_Namespace tc.

Definition IsExpired (now : Z) (tc : AuthProxyClaims) : bool :=
  match cl_ExpiresAt tc with None => false | Some e => (e <? now)%Z end.

(** ** Sessions *)

Record session := mkSession {
  s_Id : string;
  s_ActorId : string;
  s_ValidXsrfValues : list string;
  s_ExpiresAt : Z
}.

Record sessionId := mkSessionId { sid_Id : string; sid_ActorId : string }.

(** The zero [time.Time], in nanoseconds from 1970. *)
Definition zero_time : Z := (-62135596800 * 1000000000)%Z.

Definition session_IsValid (s : session) : bool :=
  negb (bool_decide (s_Id s = "")) && negb (bool_decide (s_ActorId s = "")) && negb (bool_decide (s_ExpiresAt s = zero_time)).

Definition session_IsExpired (now : Z) (s : session) : bool := (s_ExpiresAt s <? now)%Z.

Definition GetSessionId (s : session) : sessionId := mkSessionId (s_Id s) (s_ActorId s).

Definition getRedisSessionJsonKey (sessionId : string) : string := "session:" +:+ sessionId +:+ ":json".
Definition getRedisXsrfKey (sessionId : string) : string := "session:" +:+ sessionId +:+ ":xsrf".

(** ** What the code calls *)

Class AuthExternal := {
  jwt_decode : string → option AuthProxyClaims;        (** the claims of a token, not verified *)
  jwt_signed : string → VerifyingKey → bool;
  jwt_registered : Z → AuthProxyClaims → bool;          (** exp, nbf and iat at a time *)
  jwt_sign : AuthProxyClaims → string → option string;  (** with a shared key *)
  current_version : KeyData → option string;
  load_public_key : string → option string;             (** PEM or OpenSSH *)
  decrypt_string : EncryptedField → option string;
  key_of_json : string → option Key;
  sid_json : sessionId → string;
  sid_of_json : string → option sessionId;
  encrypt_global : string → option EncryptedField;
  ef_json : EncryptedField → string;
  ef_of_json : string → option EncryptedField;
  base64 : string → string;
  base64_decode : string → option string;
  session_json : session → string;                      (** without the XSRF values *)
  session_of_json : string → option session;
  new_actor_id : nat → string;
  new_session_id : nat → string;
  new_uuid : nat → string;
  visit_labels : Labels → list (string * string)
}.

(** [config.HttpServiceWithSession]. *)
Record SessionService := mkSessionService {
  ss_SessionTimeout : Z;
  ss_XsrfRequestQueueDepth : Z
}.

(** The service and the configuration it reads; [None] for a service that does
    not implement sessions. *)
Record AuthConfig := mkAuthConfig {
  cfg_ServiceId : string;
  cfg_JwtSigningKey : option Key;
  cfg_GlobalAESKey : KeyData;
  cfg_has_db : bool;
  cfg_has_encrypt : bool;
  cfg_SupportsSession : bool;
  cfg_session : option SessionService;
  cfg_IsHttps : bool
}.

Record Request := mkRequest {
  rq_Method : string;
  rq_query_token : string;   (** the query parameter [authToken] *)
  rq_Authorization : string;
  rq_xsrf : string;          (** the header [X-XSRF-TOKEN] *)
  rq_cookie : option string  (** the cookie [SESSION-ID] *)
}.

Record Cookie := mkCookie { ck_Value : string; ck_MaxAge : Z; ck_HttpOnly : bool; ck_Secure : bool }.

Record UsedNonce := mkUsedNonce { un_RetainUntil : Z; un_CreatedAt : Z }.

Record actorCache := mkCache { byExternalId : gmap string DbActor; byId : gmap string DbActor }.

(** The state a request works on: the database, Redis, the cache of the
    request, the response so far, the outcome of the next calls that leave the
    process, and a supply of fresh identifiers. *)
Record aworld (R : Type) := mkWorld {
  aw_store : store;
  aw_nonces : gmap string UsedNonce;
  aw_redis : R;
  aw_cache : actorCache;
  aw_xsrf : option string;
  aw_cookies : list Cookie;
  aw_links : list link;
  aw_fresh : nat;
  aw_now : Z;       (** nanoseconds, the clock of the process *)
  aw_redis_now : Z  (** milliseconds, the clock of Redis *)
}.
Arguments mkWorld {R}.
Arguments aw_store {R}.
Arguments aw_nonces {R}.
Arguments aw_redis {R}.
Arguments aw_cache {R}.
Arguments aw_xsrf {R}.
Arguments aw_cookies {R}.
Arguments aw_links {R}.
Arguments aw_fresh {R}.
Arguments aw_now {R}.
Arguments aw_redis_now {R}.

Inductive auth_error : Type :=
  | Unauthorized (msg : string)
  | Forbidden (msg : string)
  | InternalError
  | AuthPanic.

Section service.
Context {R : Type} {redis : RedisServer R} {ext : AuthExternal} (cfg : AuthConfig).

Definition aop (A : Type) : Type := aworld R → result auth_error A * aworld R.

#[local] Instance aop_ret : MRet aop := λ A a w, (Ok a, w).
#[local] Instance aop_bind : MBind aop := λ A B f m w,
  match m w with (Err e, w') => (Err e, w') | (Ok a, w') => f a w' end.

Definition fail {A} (e : auth_error) : aop A := λ w, (Err e, w).

Definition set_store (st : store) (w : aworld R) : aworld R :=
  mkWorld st (aw_nonces w) (aw_redis w) (aw_cache w) (aw_xsrf w) (aw_cookies w) (aw_links w) (aw_fresh w) (aw_now w) (aw_redis_now w).
Definition set_nonces (n : gmap string UsedNonce) (w : aworld R) : aworld R :=
  mkWorld (aw_store w) n (aw_redis w) (aw_cache w) (aw_xsrf w) (aw_cookies w) (aw_links w) (aw_fresh w) (aw_now w) (aw_redis_now w).
Definition set_redis (r : R) (w : aworld R) : aworld R :=
  mkWorld (aw_store w) (aw_nonces w) r (aw_cache w) (aw_xsrf w) (aw_cookies w) (aw_links w) (aw_fresh w) (aw_now w) (aw_redis_now w).
Definition set_cache (c : actorCache) (w : aworld R) : aworld R :=
  mkWorld (aw_store w) (aw_nonces w) (aw_redis w) c (aw_xsrf w) (aw_cookies w) (aw_links w) (aw_fresh w) (aw_now w) (aw_redis_now w).
Definition set_response (x : option string) (cs : list Cookie) (w : aworld R) : aworld R :=
  mkWorld (aw_store w) (aw_nonces w) (aw_redis w) (aw_cache w) x cs (aw_links w) (aw_fresh w) (aw_now w) (aw_redis_now w).
Definition set_links (ls : list link) (w : aworld R) : aworld R :=
  mkWorld (aw_store w) (aw_nonces w) (aw_redis w) (aw_cache w) (aw_xsrf w) (aw_cookies w) ls (aw_fresh w) (aw_now w) (aw_redis_now w).
Definition set_fresh (n : nat) (w : aworld R) : aworld R :=
  mkWorld (aw_store w) (aw_nonces w) (aw_redis w) (aw_cache w) (aw_xsrf w) (aw_cookies w) (aw_links w) n (aw_now w) (aw_redis_now w).

(** The next call out of the process; the schedule is [LinkUp] when it ends. *)
Definition next_link (w : aworld R) : link * aworld R :=
  match aw_links w with [] => (LinkUp, w) | l :: ls => (l, set_links ls w) end.

Definition next_fresh : aop nat := λ w, (Ok (aw_fresh w), set_fresh (S (aw_fresh w)) w).
Definition clock : aop Z := λ w, (Ok (aw_now w), w).

(** A database transaction: lost before or after it commits, or answered; the
    inner result is the database's own.  A commit that fails unnoticed is an
    event of the sequences in file AuthSafety. *)
Definition db_call {E A} (f : aworld R → result E A * aworld R) : aop (result E A) := λ w,
  if negb (cfg_has_db cfg) then (Err AuthPanic, w)
  else match next_link w with
       | (LinkUp, w) => let '(r, w') := f w in (Ok r, w')
       | (RequestLost, w) => (Err InternalError, w)
       | (ReplyLost, w) => (Err InternalError, (f w).2)
       end.

Definition actor_call {A} (f : atx A) : aop (result actor_error A) :=
  db_call (λ w, let '(r, st) := f (aw_store w) in (r, set_store st w)).

(** A pipeline of Redis commands, at one instant of the server. *)
Definition redis_call_out {A} (f : script R A) : aop (result redis_error A) := λ w,
  match next_link w with
  | (LinkUp, w) => let '(r, s) := f (aw_redis_now w) (aw_redis w) in (Ok r, set_redis s w)
  | (RequestLost, w) => (Err InternalError, w)
  | (ReplyLost, w) => (Err InternalError, set_redis (f (aw_redis_now w) (aw_redis w)).2 w)
  end.

(** ** The cache of a request *)

Definition externalIdKey (namespace externalId : string) : string := namespace +:+ ":" +:+ externalId.

Definition newActorCache : actorCache := mkCache ∅ ∅.

Definition cache_Put (actor : DbActor) : aop unit := λ w,
  let c := aw_cache w in
  (Ok tt, set_cache (mkCache (<[externalIdKey (da_Namespace actor) (da_ExternalId actor) := actor]> (byExternalId c))
                       (if decide (da_Id actor = "") then byId c else <[da_Id actor := actor]> (byId c))) w).

Definition cache_GetByExternalId (namespace externalId : string) : aop (option DbActor) := λ w,
  (Ok (byExternalId (aw_cache w) !! externalIdKey namespace externalId), w).

Definition cache_GetById (id : string) : aop (option DbActor) := λ w, (Ok (byId (aw_cache w) !! id), w).

(** The cache, then the database; the actor found is cached. *)
Definition lookup_actor (namespace externalId : string) : aop (result actor_error DbActor) :=
  cached ← cache_GetByExternalId namespace externalId;
  match cached with
  | Some actor => mret (Ok actor)
  | None =>
      r ← actor_call (GetActorByExternalId namespace externalId);
      match r with
      | Ok actor => _ ← cache_Put actor; mret (Ok actor)
      | Err e => mret (Err e)
      end
  end.

(** ** Keys *)

(** The stored key of an actor. *)
Definition actor_key (ef : EncryptedField) : aop Key :=
  match decrypt_string ef with
  | None => fail InternalError
  | Some decrypted => match key_of_json decrypted with None => fail InternalError | Some key => mret key end
  end.

(** A key that is nil in the configuration is dereferenced. *)
Definition deref (key : option Key) : aop Key := match key with None => fail AuthPanic | Some k => mret k end.

Definition keyForToken (claims : AuthProxyClaims) : aop Key :=
  if negb (cfg_has_db cfg) then deref (cfg_JwtSigningKey cfg)
  else
    r ← lookup_actor (claims_GetNamespace claims) (cl_Subject claims);
    match r with
    | Err ActorNotFound => deref (cfg_JwtSigningKey cfg)
    | Err _ => fail InternalError
    | Ok actor =>
        match da_EncryptedKey actor with
        | None => deref (cfg_JwtSigningKey cfg)
        | Some ef => if negb (cfg_has_encrypt cfg) then fail AuthPanic else actor_key ef
        end
    end.

Definition keyForActorSignedToken (claims : AuthProxyClaims) : aop Key :=
  if negb (cfg_has_db cfg) || negb (cfg_has_encrypt cfg) then mret (KeyShared (cfg_GlobalAESKey cfg))
  else
    r ← lookup_actor (claims_GetNamespace claims) (cl_Subject claims);
    match r with
    | Err ActorNotFound => mret (KeyShared (cfg_GlobalAESKey cfg))
    | Err _ => fail InternalError
    | Ok actor =>
        match da_EncryptedKey actor with
        | None => mret (KeyShared (cfg_GlobalAESKey cfg))
        | Some ef => actor_key ef
        end
    end.

(** The selector [Parse] passes to the parser: key data, and whether it is a
    shared key. *)
Definition key_selector (unverified : AuthProxyClaims) : aop (KeyData * bool) :=
  if cl_SystemSigned unverified then mret (cfg_GlobalAESKey cfg, true)
  else if cl_ActorSigned unverified then
    key ← keyForActorSignedToken unverified;
    match key with
    | KeyPublicPrivate pk => mret (pk, false)
    | _ => mret (cfg_GlobalAESKey cfg, true)
    end
  else
    key ← keyForToken unverified;
    match key with
    | KeyPublicPrivate pk => mret (pk, false)
    | KeyShared sk => mret (sk, true)
    | KeyOther => fail InternalError
    end.

Definition getVerifyingKeyData (unverified : AuthProxyClaims) : aop VerifyingKey :=
  '(keyData, isShared) ← key_selector unverified;
  match current_version keyData with
  | None => fail InternalError
  | Some rawKeyData =>
      if isShared : bool then mret (VerifyShared rawKeyData)
      else match load_public_key rawKeyData with None => fail InternalError | Some k => mret (VerifyPublic k) end
  end.

(** The library decodes the token, asks for the key, verifies the signature
    and checks the registered claims. *)
Definition ParseCtx (token : string) : aop AuthProxyClaims :=
  match jwt_decode token with
  | None => fail InternalError
  | Some claims =>
      key ← getVerifyingKeyData claims;
      now ← clock;
      if jwt_signed token key && jwt_registered now claims then mret claims else fail InternalError
  end.

(** [AuthProxyClaims.Validate]: whether there is no error. *)
Definition claims_Validate (now : Z) (tc : AuthProxyClaims) : bool :=
  jwt_registered now tc &&
  match cl_Actor tc with
  | None => true
  | Some actor => bool_decide (cl_Subject tc = act_ExternalId actor) && bool_decide (claims_GetNamespace tc = act_Namespace actor)
  end &&
  forallb (λ p, bool_decide (length (Permission_Validate p) = 0%nat)) (cl_Permissions tc).

(** Every error of [Parse] is an unauthorized response; panics are not
    caught. *)
Definition as_unauthorized {A} (m : aop A) : aop A := λ w,
  match m w with
  | (Err AuthPanic, w') => (Err AuthPanic, w')
  | (Err _, w') => (Err (Unauthorized "invalid token"), w')
  | r => r
  end.

Definition Parse (tokenString : string) : aop AuthProxyClaims :=
  claims ← as_unauthorized (ParseCtx tokenString);
  if negb (bool_decide (cfg_ServiceId cfg ∈ cl_Audience claims)) then fail (Unauthorized "invalid token")
  else
    now ← clock;
    if claims_Validate now claims then mret claims else fail (Unauthorized "invalid jwt claims").

Definition AllValidServiceIds (ids : list string) : bool :=
  forallb (λ id, bool_decide (id ∈ ["admin-api"; "api"; "public"; "worker"])) ids.

Definition Token (claims : AuthProxyClaims) : aop string :=
  now ← clock;
  let clone := mkClaims (cfg_ServiceId cfg) (cl_Subject claims) (cl_Audience claims) (cl_ExpiresAt claims) (Some now)
                 (cl_Namespace claims) (cl_Actor claims) (cl_ActorAnnotations claims) (cl_Permissions claims) true
                 (cl_ActorSigned claims) (cl_Nonce claims) in
  if negb (AllValidServiceIds (cl_Audience clone)) then fail InternalError
  else match current_version (cfg_GlobalAESKey cfg) with
       | None => fail InternalError
       | Some data => match jwt_sign clone data with None => fail InternalError | Some t => mret t end
       end.

(** ** Nonces *)

Definition PrefixNonce : string := "non_".

(** One transaction: the nonce is looked up and, if new, inserted. *)
Definition mark_nonce (nonce : string) (retainRecordUntil : Z) (w : aworld R) : result error bool * aworld R :=
  match aw_nonces w !! nonce with
  | Some _ => (Ok false, w)
  | None => (Ok true, set_nonces (<[nonce := mkUsedNonce retainRecordUntil (aw_now w)]> (aw_nonces w)) w)
  end.

Definition CheckNonceValidAndMarkUsed (nonce : string) (retainRecordUntil : Z) : aop bool :=
  if negb (cfg_has_db cfg) then fail AuthPanic
  else if decide (nonce = "") then fail InternalError
  else match ID_ValidatePrefix nonce PrefixNonce with
       | Some _ => fail InternalError
       | None => r ← db_call (mark_nonce nonce retainRecordUntil);
                 match r with Ok b => mret b | Err _ => fail InternalError end
       end.

Definition DeleteExpiredNonces : aop unit :=
  _ ← db_call (λ w, (Ok tt : result error unit, set_nonces (filter (λ kv, ¬ un_RetainUntil kv.2 < aw_now w)%Z (aw_nonces w)) w));
  mret tt.

(** ** Session cookies *)

Definition GetSessionCookieId (sid : sessionId) : option string :=
  ef ← encrypt_global (sid_json sid); Some (base64 (ef_json ef)).

Definition fromSessionCookieId (val : string) : option sessionId :=
  efJSON ← base64_decode val; ef ← ef_of_json efJSON; decrypted ← decrypt_string ef; sid_of_json decrypted.

(** The service as one with sessions; the type assertion panics otherwise. *)
Definition session_service : aop SessionService := match cfg_session cfg with None => fail AuthPanic | Some ss => mret ss end.

(** Writing to the response. *)
Definition SetCookie (c : Cookie) : aop unit := λ w, (Ok tt, set_response (aw_xsrf w) (c :: aw_cookies w) w).
Definition SetXsrfHeader (v : string) : aop unit := λ w, (Ok tt, set_response (Some v) (aw_cookies w) w).

Definition clearSessionCookie : aop unit :=
  _ ← session_service; SetCookie (mkCookie "" (-1) false (cfg_IsHttps cfg)).

Definition setSessionCookie (sess : session) : aop unit :=
  ss ← session_service;
  now ← clock;
  let cookieExpiration := if decide (ss_SessionTimeout ss = 0)%Z then 0%Z else ((s_ExpiresAt sess - now) ÷ 1000000000)%Z in
  match GetSessionCookieId (GetSessionId sess) with
  | None => fail InternalError
  | Some val => SetCookie (mkCookie val cookieExpiration true (cfg_IsHttps cfg))
  end.

(** ** Sessions in Redis *)

(** [GET] and [LRANGE] in a pipeline: the first error is the error of the
    pipeline, and a missing key counts as one ([redis.Nil]). *)
Definition read_pipeline (id : string) : script R (option (string * list string)) := λ t s,
  let '(json, s) := call GET (getRedisSessionJsonKey id) t s in
  let '(xsrf, s) := call LRANGE_all (getRedisXsrfKey id) t s in
  (match json, xsrf with
   | Err e, _ => Err e
   | Ok None, _ => Ok None
   | Ok (Some _), Err e => Err e
   | Ok (Some j), Ok l => Ok (Some (j, l))
   end, s).

Definition tryReadSessionFromRedis (id : string) : aop (option session) :=
  r ← redis_call_out (read_pipeline id);
  match r with
  | Err _ => fail InternalError
  | Ok None => mret None
  | Ok (Some (jsonData, xsrfData)) =>
      match session_of_json jsonData with
      | None => fail InternalError
      | Some sess =>
          if negb (session_IsValid sess) then fail InternalError
          else
            now ← clock;
            if session_IsExpired now sess then mret None
            else mret (Some (mkSession (s_Id sess) (s_ActorId sess) xsrfData (s_ExpiresAt sess)))
      end
  end.

(** Every command of the pipeline is executed; the first error is returned. *)
Definition write_pipeline (sess : session) (newXsrfValue : string) (limit ttl : Z) : script R unit := λ t s,
  let '(r1, s) := call (client_Set (session_json sess) ttl) (getRedisSessionJsonKey (s_Id sess)) t s in
  let '(r2, s) := call (LPUSH newXsrfValue) (getRedisXsrfKey (s_Id sess)) t s in
  let '(r3, s) := call (LTRIM_0 limit) (getRedisXsrfKey (s_Id sess)) t s in
  let '(r4, s) := call (client_Expire ttl) (getRedisXsrfKey (s_Id sess)) t s in
  (match r1, r2, r3 with Err e, _, _ => Err e | _, Err e, _ => Err e | _, _, Err e => Err e | _, _, _ => r4 end, s).

Definition extendSession (sess : session) : aop unit :=
  ss ← session_service;
  n ← next_fresh;
  let newXsrfValue := new_uuid n in
  now ← clock;
  r ← redis_call_out (write_pipeline sess newXsrfValue (ss_XsrfRequestQueueDepth ss) (s_ExpiresAt sess - now));
  match r with
  | Err _ => fail InternalError
  | Ok _ => SetXsrfHeader newXsrfValue
  end.

Definition deleteSessionFromRedis (id : string) : aop unit :=
  r ← redis_call_out (λ t s, let '(r1, s) := call DEL (getRedisSessionJsonKey id) t s in
                             let '(r2, s) := call DEL (getRedisXsrfKey id) t s in
                             (match r1 with Err e => Err e | Ok _ => r2 end, s));
  match r with Err _ => fail InternalError | Ok _ => mret tt end.

(** ** Authentication *)

Definition data_of (a : DbActor) : Actor + IActorData :=
  inr (mkIActorData (da_Id a) (da_Name a) (da_ExternalId a) (da_Permissions a) (da_Namespace a) (da_Labels a) (da_Annotations a)).

Definition establishAuthFromSession (requireSessionXsrf : bool) (r : Request) (fromJwt : RequestAuth) : aop RequestAuth :=
  if negb (cfg_SupportsSession cfg) then mret fromJwt
  else
    match rq_cookie r with
    | None => mret fromJwt
    | Some cookie =>
        match fromSessionCookieId cookie with
        | None => _ ← clearSessionCookie; mret fromJwt
        | Some sid =>
            if decide (sid_Id sid = "") then _ ← clearSessionCookie; mret fromJwt
            else
              sess ← tryReadSessionFromRedis (sid_Id sid);
              match sess with
              | None => mret fromJwt
              | Some sess =>
                  if decide (s_Id sess ≠ sid_Id sid) then fail InternalError
                  else if decide (s_ActorId sess ≠ sid_ActorId sid) then fail InternalError
                  else
                    match ra_actor fromJwt with
                    | Some actor =>
                        if decide (s_ActorId sess ≠ act_Id actor)
                        then _ ← deleteSessionFromRedis (sid_Id sid); mret fromJwt
                        else mret (SetSessionId fromJwt (Some (s_Id sess)))
                    | None =>
                        _ ← (if requireSessionXsrf && negb (bool_decide (rq_Method r = "GET")) then
                               if decide (rq_xsrf r = "") then fail (Forbidden "missing XSRF token")
                               else if bool_decide (rq_xsrf r ∈ s_ValidXsrfValues sess) then mret tt
                               else fail (Forbidden "invalid XSRF token")
                             else mret tt);
                        cached ← cache_GetById (s_ActorId sess);
                        actor ← (match cached with
                                 | Some actor => mret actor
                                 | None =>
                                     r ← actor_call (GetActor (s_ActorId sess));
                                     match r with
                                     | Err _ => fail InternalError
                                     | Ok actor => _ ← cache_Put actor; mret actor
                                     end
                                 end);
                        _ ← extendSession sess;
                        mret (NewAuthenticatedRequestAuthWithSession (data_of actor) (Some (s_Id sess)))
                    end
              end
        end
    end.

(** *** Tokens *)

Definition extractTokenFromBearer (authorizationHeader : string) : option string :=
  if HasPrefix authorizationHeader "Bearer " then Some (TrimPrefix authorizationHeader "Bearer ") else None.

(** The token of the query, or else of the header; a header that is not a
    bearer token is an error. *)
Definition request_token (r : Request) : result auth_error string :=
  if decide (rq_query_token r ≠ "") then Ok (rq_query_token r)
  else if decide (rq_Authorization r ≠ "") then
    match extractTokenFromBearer (rq_Authorization r) with
    | None => Err InternalError
    | Some tokenString => Ok tokenString
    end
  else Ok "".

(** What [UpsertActor] sees of the actor of the claims. *)
Definition claims_actor_data (tc : AuthProxyClaims) (a : Actor) : ActorData :=
  mkActorData (act_Id a) (act_Namespace a) (act_ExternalId a) (act_Permissions a) (act_Labels a)
    (if cl_ActorAnnotations tc then Some (act_Annotations a) else None) None.

Definition check_nonce (claims : AuthProxyClaims) : aop unit :=
  match cl_Nonce claims with
  | None => mret tt
  | Some nonce =>
      match cl_ExpiresAt claims with
      | None => fail (Unauthorized "cannot use nonce in jwt without expiration time")
      | Some exp =>
          wasValid ← as_unauthorized (CheckNonceValidAndMarkUsed nonce exp);
          if wasValid : bool then mret tt else fail (Unauthorized "jwt nonce already used")
      end
  end.

Definition token_actor (claims : AuthProxyClaims) : aop DbActor :=
  match cl_Actor claims with
  | None =>
      r ← lookup_actor (claims_GetNamespace claims) (cl_Subject claims);
      match r with
      | Ok actor => mret actor
      | Err ActorNotFound => fail (Unauthorized "actor does not exist")
      | Err _ => fail InternalError
      end
  | Some a =>
      now ← clock;
      n ← next_fresh;
      r ← actor_call (UpsertActor visit_labels now (new_actor_id n) (claims_actor_data claims a));
      match r with
      | Err _ => fail InternalError
      | Ok actor => _ ← cache_Put actor; mret actor
      end
  end.

Definition auth_from_token (tokenString : string) : aop RequestAuth :=
  claims ← Parse tokenString;
  now ← clock;
  if IsExpired now claims then fail (Unauthorized "token is expired")
  else
    _ ← check_nonce claims;
    actor ← token_actor claims;
    mret (match cl_Permissions claims with
          | [] => NewAuthenticatedRequestAuth (data_of actor)
          | ps => NewAuthenticatedRequestAuthWithPermissions (data_of actor) ps
          end).

(** The cache starts empty. *)
Definition establishAuthFromRequest (requireSessionXsrf : bool) (r : Request) : aop RequestAuth := λ w,
  (match request_token r with
   | Err e => fail e
   | Ok tokenString =>
       ra ← (if decide (tokenString ≠ "") then auth_from_token tokenString else mret NewUnauthenticatedRequestAuth);
       establishAuthFromSession requireSessionXsrf r ra
   end) (set_cache newActorCache w).

(** [auth]: the authentication the handler sees, or the error of the
    response. *)
Definition auth_middleware (requireAuth requireSessionXsrf : bool) (r : Request) : aop RequestAuth :=
  requestAuth ← establishAuthFromRequest requireSessionXsrf r;
  if requireAuth && negb (IsAuthenticated requestAuth) then fail (Unauthorized "") else mret requestAuth.

(** *** Starting and ending a session *)

(** The session id the request has afterwards. *)
Definition EstablishSession (ra : RequestAuth) : aop RequestAuth :=
  match ra_actor ra with
  | None => fail InternalError
  | Some actor =>
      if negb (cfg_SupportsSession cfg) then fail InternalError
      else match cfg_session cfg with
           | None => fail InternalError
           | Some ss =>
               existing ← (match ra_sessionId ra with
                           | None => mret None
                           | Some sessId =>
                               sess ← tryReadSessionFromRedis sessId;
                               match sess with
                               | None => mret None
                               | Some sess =>
                                   if decide (s_ActorId sess ≠ act_Id actor)
                                   then _ ← deleteSessionFromRedis sessId; mret None
                                   else mret (Some sess)
                               end
                           end);
               sess ← (match existing with
                       | Some sess => mret sess
                       | None => n ← next_fresh; now ← clock;
                                 mret (mkSession (new_session_id n) (act_Id actor) [] (now + ss_SessionTimeout ss))
                       end);
               _ ← extendSession sess;
               _ ← setSessionCookie sess;
               mret (SetSessionId ra (Some (s_Id sess)))
           end
  end.

Definition EndSession (ra : RequestAuth) : aop unit :=
  _ ← (match ra_actor ra, ra_sessionId ra with
       | Some _, Some id => deleteSessionFromRedis id
       | _, _ => mret tt
       end);
  clearSessionCookie.
End service.
