(* ===== verification/AuthSafety.v ===== *)
(** * What authentication guarantees

    Over the definitions of file AuthService: what an authenticated request
    has shown; that a token with a nonce is accepted once; that a session, once
    established, serves the requests that present its cookie until it expires
    or ends; and executions in which restrictions are lost. *)

From S2P Require Import Prelude GoNumbers GoStrings Namespace Permissions Labels Redis Actors AuthService.
Open Scope string_scope.
Open Scope list_scope.

Section auth.
Context {R : Type} {redis : RedisServer R} {ext : AuthExternal} (cfg : AuthConfig).

#[local] Existing Instance aop_ret.
#[local] Existing Instance aop_bind.

(** ** The keys the store asks for *)

(** The key of the live actor a token names, if it has one; the inner option
    is a key that cannot be read. *)
Definition own_key (st : store) (claims : AuthProxyClaims) : option (option Key) :=
  match (GetActorByExternalId (claims_GetNamespace claims) (cl_Subject claims) st).1 with
  | Err _ => None
  | Ok actor => ef ← da_EncryptedKey actor; Some (decrypted ← decrypt_string ef; key_of_json decrypted)
  end.

Definition shared_or_public (k : Key) : option (KeyData * bool) :=
  match k with KeyPublicPrivate pk => Some (pk, false) | KeyShared sk => Some (sk, true) | KeyOther => None end.

(** A service's own tokens need the global key; an actor's the actor's public
    key, or the global key if it has none; others the actor's key, or the
    configured one. *)
Definition required_key (st : store) (claims : AuthProxyClaims) : option (KeyData * bool) :=
  if cl_SystemSigned claims then Some (cfg_GlobalAESKey cfg, true)
  else if cl_ActorSigned claims then
    match own_key st claims with
    | Some (Some (KeyPublicPrivate pk)) => Some (pk, false)
    | Some None => None
    | _ => Some (cfg_GlobalAESKey cfg, true)
    end
  else
    match own_key st claims with
    | Some k => k ≫= shared_or_public
    | None => cfg_JwtSigningKey cfg ≫= shared_or_public
    end.

Definition verifying_key (st : store) (claims : AuthProxyClaims) : option VerifyingKey :=
  '(kd, isShared) ← required_key st claims;
  raw ← current_version kd;
  if isShared : bool then Some (VerifyShared raw) else VerifyPublic <$> load_public_key raw.

(** ** Steps *)

Lemma bind_Ok {A B} (m : aop A) (f : A → aop B) (w : aworld R) b w'' :
  (m ≫= f) w = (Ok b, w'') → ∃ a w', m w = (Ok a, w') ∧ f a w' = (Ok b, w'').
Proof. unfold mbind, aop_bind. destruct (m w) as [[e|a] w']; [done|]. intros H. by exists a, w'. Qed.

(** The database, Redis and the clocks are as before. *)
Record same_base (w w' : aworld R) : Prop := {
  sb_store : aw_store w' = aw_store w;
  sb_nonces : aw_nonces w' = aw_nonces w;
  sb_redis : aw_redis w' = aw_redis w;
  sb_now : aw_now w' = aw_now w;
  sb_redis_now : aw_redis_now w' = aw_redis_now w
}.

#[local] Instance same_base_preorder : PreOrder same_base.
Proof. split; [by split|]. intros w1 w2 w3 [] []. by split; congruence. Qed.

Lemma next_link_base (w : aworld R) : same_base w (next_link w).2.
Proof. unfold next_link. by destruct (aw_links w). Qed.

Lemma next_link_cache (w : aworld R) : aw_cache (next_link w).2 = aw_cache w.
Proof. unfold next_link. by destruct (aw_links w). Qed.

Lemma db_call_Ok {E A} (f : aworld R → result E A * aworld R) (w : aworld R) r w' :
  db_call cfg f w = (Ok r, w') → cfg_has_db cfg = true ∧ f (next_link w).2 = (r, w').
Proof.
  unfold db_call. destruct (cfg_has_db cfg); [|done]. cbn [negb]. destruct (next_link w) as [[] w1]; [|done..].
  cbn [snd]. destruct (f w1). by intros [= <- <-].
Qed.

Lemma actor_call_Ok {A} (f : atx A) (w : aworld R) r w' :
  actor_call cfg f w = (Ok r, w') →
  cfg_has_db cfg = true ∧ f (aw_store w) = (r, aw_store w') ∧ aw_cache w' = aw_cache w ∧ aw_nonces w' = aw_nonces w ∧
  aw_redis w' = aw_redis w ∧ aw_now w' = aw_now w ∧ aw_redis_now w' = aw_redis_now w.
Proof.
  intros [Hdb Hf]%db_call_Ok. pose proof (next_link_base w) as []. pose proof (next_link_cache w). rewrite <- sb_store0.
  destruct (f (aw_store (next_link w).2)) as [r' st] eqn:Heq. injection Hf as <- <-. cbn. done.
Qed.

Lemma redis_call_Ok {A} (f : script R A) (w : aworld R) r w' :
  redis_call_out f w = (Ok r, w') →
  f (aw_redis_now w) (aw_redis w) = (r, aw_redis w') ∧ aw_cache w' = aw_cache w ∧ aw_nonces w' = aw_nonces w ∧
  aw_store w' = aw_store w ∧ aw_now w' = aw_now w ∧ aw_redis_now w' = aw_redis_now w.
Proof.
  unfold redis_call_out. pose proof (next_link_base w) as []. pose proof (next_link_cache w) as Hc.
  destruct (next_link w) as [[] w1]; [|done..]. cbn [snd] in *. rewrite sb_redis_now0, sb_redis0.
  destruct (f _ _) as [r' s]. intros [= <- <-]. cbn. done.
Qed.

(** ** Looking up the actor of a token *)

(** What the cache says of an actor is what the database says. *)
Definition cache_agrees (ns ext_id : string) (w : aworld R) : Prop :=
  ∀ a, byExternalId (aw_cache w) !! externalIdKey ns ext_id = Some a → GetActorByExternalId ns ext_id (aw_store w) = (Ok a, aw_store w).

Lemma GetActorByExternalId_Ok ns ext_id st r st' :
  GetActorByExternalId ns ext_id st = (r, st') →
  st' = st ∧ ∀ a, r = Ok a → da_Namespace a = ns ∧ da_ExternalId a = ext_id ∧ is_live a = true ∧ ∃ id, st_actors st !! id = Some a.
Proof.
  unfold GetActorByExternalId. destruct (find_actor _ st) as [b|] eqn:Hf; intros [= <- <-]; (split; [done|]); [|done].
  intros a [= <-]. apply find_actor_Some in Hf as [Hp Hid]. rewrite !andb_true_iff, !bool_decide_eq_true in Hp. naive_solver.
Qed.

Lemma lookup_actor_Ok ns ext_id (w : aworld R) r w' :
  cache_agrees ns ext_id w → lookup_actor cfg ns ext_id w = (Ok r, w') →
  r = (GetActorByExternalId ns ext_id (aw_store w)).1 ∧ same_base w w' ∧ cache_agrees ns ext_id w'.
Proof.
  intros Hc (cached & w1 & Hget & Hrest)%bind_Ok. injection Hget as <- <-.
  destruct (byExternalId (aw_cache w) !! externalIdKey ns ext_id) as [a|] eqn:Hca.
  - injection Hrest as <- <-. rewrite (Hc a Hca). by split_and!.
  - apply bind_Ok in Hrest as (r1 & w1 & Hcall & Hrest).
    apply actor_call_Ok in Hcall as (_ & Hf & Hcache & Hn & Hr & Hnow & Hrn). pose proof Hf as Hf'.
    apply GetActorByExternalId_Ok in Hf' as [Hst Hrow]. destruct r1 as [e|a].
    + injection Hrest as <- <-. rewrite Hf. split_and!; [done|by split|]. intros b. unfold cache_agrees in Hc. rewrite Hcache. intros Hb. congruence.
    + apply bind_Ok in Hrest as (u & w2 & Hput & Hrest). injection Hput as <- <-. injection Hrest as <- <-. rewrite Hf.
      split_and!; [done|by split|]. destruct (Hrow a eq_refl) as (Hns & Hext & _). intros b. cbn. rewrite Hns, Hext, lookup_insert_eq.
      intros [= <-]. rewrite Hst in Hf |- *. done.
Qed.

Hypothesis has_db : cfg_has_db cfg = true.
Hypothesis has_encrypt : cfg_has_encrypt cfg = true.

(** A step that only fills the cache. *)
Definition quiet {A} (claims : AuthProxyClaims) (m : aop A) (P : store → Z → A → Prop) : Prop :=
  ∀ w a w', cache_agrees (claims_GetNamespace claims) (cl_Subject claims) w → m w = (Ok a, w') →
    P (aw_store w) (aw_now w) a ∧ same_base w w' ∧ cache_agrees (claims_GetNamespace claims) (cl_Subject claims) w'.

Lemma quiet_ret {A} claims (a : A) : quiet claims (mret a) (λ _ _ a', a' = a).
Proof. intros w a' w' Hc [= <- <-]. by split_and!. Qed.

Lemma quiet_fail {A} claims e P : quiet claims (fail e : aop A) P.
Proof. intros w a w' _ H. discriminate H. Qed.

Lemma quiet_bind {A B} claims (m : aop A) (f : A → aop B) P Q :
  quiet claims m P → (∀ a, quiet claims (f a) (λ st now b, P st now a → Q st now b)) → quiet claims (m ≫= f) Q.
Proof.
  intros Hm Hf w b w'' Hc (a & w' & H1 & H2)%bind_Ok. destruct (Hm _ _ _ Hc H1) as (HP & Hs & Hc').
  destruct (Hf a _ _ _ Hc' H2) as (HQ & Hs' & Hc''). split_and!; [|by etrans|done].
  rewrite (sb_store _ _ Hs), (sb_now _ _ Hs) in HQ. by apply HQ.
Qed.

Lemma quiet_impl {A} claims (m : aop A) (P Q : store → Z → A → Prop) :
  quiet claims m P → (∀ st now a, P st now a → Q st now a) → quiet claims m Q.
Proof. intros Hm HPQ w a w' Hc H. destruct (Hm _ _ _ Hc H) as (? & ? & ?). split_and!; [by apply HPQ|done..]. Qed.

Lemma quiet_clock claims : quiet claims clock (λ _ now a, a = now).
Proof. intros w a w' Hc [= <- <-]. by split_and!. Qed.

Lemma quiet_lookup claims :
  quiet claims (lookup_actor cfg (claims_GetNamespace claims) (cl_Subject claims))
    (λ st _ r, r = (GetActorByExternalId (claims_GetNamespace claims) (cl_Subject claims) st).1).
Proof. intros w r w' Hc H. by apply lookup_actor_Ok in H. Qed.

Definition own_or (st : store) (claims : AuthProxyClaims) (d : option Key) (k : Key) : Prop :=
  match own_key st claims with None => d = Some k | Some ok => ok = Some k end.

Lemma quiet_actor_key claims ef : quiet claims (actor_key ef) (λ _ _ k, (decrypted ← decrypt_string ef; key_of_json decrypted) = Some k).
Proof.
  unfold actor_key. destruct (decrypt_string ef) as [d|]; [|apply quiet_fail]. cbn. destruct (key_of_json d) as [k|]; [|apply quiet_fail].
  eapply quiet_impl; [apply quiet_ret|]. by intros ? ? ? ->.
Qed.

Lemma quiet_keyForToken claims : quiet claims (keyForToken cfg claims) (λ st _ k, own_or st claims (cfg_JwtSigningKey cfg) k).
Proof.
  unfold keyForToken. rewrite has_db, has_encrypt. cbn [negb]. eapply quiet_bind; [apply quiet_lookup|]. intros r. unfold own_or, own_key.
  assert (quiet claims (deref (cfg_JwtSigningKey cfg)) (λ _ _ k, cfg_JwtSigningKey cfg = Some k)) as Hd.
  { unfold deref. destruct (cfg_JwtSigningKey cfg); [|apply quiet_fail]. eapply quiet_impl; [apply quiet_ret|]. by intros ? ? ? ->. }
  destruct r as [[]|a]; try apply quiet_fail.
  - eapply quiet_impl; [exact Hd|]. intros st now k Hk <-. done.
  - destruct (da_EncryptedKey a) as [ef|] eqn:Hef.
    + eapply quiet_impl; [apply quiet_actor_key|]. intros st now k Hk <-. cbn. by rewrite Hef.
    + eapply quiet_impl; [exact Hd|]. intros st now k Hk <-. cbn. by rewrite Hef.
Qed.

Lemma quiet_keyForActorSignedToken claims :
  quiet claims (keyForActorSignedToken cfg claims) (λ st _ k, own_or st claims (Some (KeyShared (cfg_GlobalAESKey cfg))) k).
Proof.
  unfold keyForActorSignedToken. rewrite has_db, has_encrypt. cbn [negb orb]. eapply quiet_bind; [apply quiet_lookup|]. intros r.
  unfold own_or, own_key. destruct r as [[]|a]; try apply quiet_fail.
  - eapply quiet_impl; [apply quiet_ret|]. by intros st now k -> <-.
  - destruct (da_EncryptedKey a) as [ef|] eqn:Hef.
    + eapply quiet_impl; [apply quiet_actor_key|]. intros st now k Hk <-. cbn. by rewrite Hef.
    + eapply quiet_impl; [apply quiet_ret|]. intros st now k -> <-. cbn. by rewrite Hef.
Qed.

Lemma quiet_key_selector claims : quiet claims (key_selector cfg claims) (λ st _ kd, required_key st claims = Some kd).
Proof.
  unfold key_selector, required_key. destruct (cl_SystemSigned claims).
  { eapply quiet_impl; [apply quiet_ret|]. by intros ? ? ? ->. }
  destruct (cl_ActorSigned claims).
  - eapply quiet_bind; [apply quiet_keyForActorSignedToken|]. unfold own_or. intros k.
    destruct k; (eapply quiet_impl; [apply quiet_ret|]; intros st now kd -> Hk; destruct (own_key st claims) as [ok|]; simplify_eq; done).
  - eapply quiet_bind; [apply quiet_keyForToken|]. unfold own_or. intros k.
    destruct k; [..|apply quiet_fail]; (eapply quiet_impl; [apply quiet_ret|]; intros st now kd -> Hk; destruct (own_key st claims); by rewrite Hk).
Qed.

Lemma quiet_getVerifyingKeyData claims : quiet claims (getVerifyingKeyData cfg claims) (λ st _ vk, verifying_key st claims = Some vk).
Proof.
  unfold getVerifyingKeyData. eapply quiet_bind; [apply quiet_key_selector|]. intros [kd isShared]. unfold verifying_key.
  destruct (current_version kd) as [raw|] eqn:Hv; [|apply quiet_fail]. destruct isShared.
  - eapply quiet_impl; [apply quiet_ret|]. intros st now vk -> ->. cbn. by rewrite Hv.
  - destruct (load_public_key raw) as [k|] eqn:Hl; [|apply quiet_fail].
    eapply quiet_impl; [apply quiet_ret|]. intros st now vk -> ->. cbn. rewrite Hv. cbn. by rewrite Hl.
Qed.

(** What [Parse] has checked. *)
Record verified (st : store) (now : Z) (token : string) (claims : AuthProxyClaims) : Prop := {
  ve_decoded : jwt_decode token = Some claims;
  ve_signed : ∃ vk, verifying_key st claims = Some vk ∧ jwt_signed token vk = true;
  ve_registered : jwt_registered now claims = true;
  ve_audience : cfg_ServiceId cfg ∈ cl_Audience claims;
  ve_actor : ∀ a, cl_Actor claims = Some a → act_ExternalId a = cl_Subject claims ∧ act_Namespace a = claims_GetNamespace claims;
  ve_permissions : Forall (λ p, Permission_Validate p = []) (cl_Permissions claims)
}.

Lemma claims_Validate_true now tc : claims_Validate now tc = true →
  (∀ a, cl_Actor tc = Some a → act_ExternalId a = cl_Subject tc ∧ act_Namespace a = claims_GetNamespace tc) ∧
  Forall (λ p, Permission_Validate p = []) (cl_Permissions tc).
Proof.
  unfold claims_Validate. rewrite !andb_true_iff, forallb_forall. intros [[_ Ha] Hp]. split.
  - intros a Hc. rewrite Hc, andb_true_iff, !bool_decide_eq_true in Ha. by destruct Ha.
  - apply Forall_forall. intros p Hin%list_elem_of_In. specialize (Hp p Hin). apply bool_decide_eq_true in Hp. by apply nil_length_inv.
Qed.

Lemma Parse_Ok token w claims w' :
  aw_cache w = newActorCache → Parse cfg token w = (Ok claims, w') →
  verified (aw_store w) (aw_now w) token claims ∧ same_base w w' ∧ cache_agrees (claims_GetNamespace claims) (cl_Subject claims) w'.
Proof.
  intros Hc (c & w1 & Hp & Hrest)%bind_Ok.
  assert (ParseCtx cfg token w = (Ok c, w1)) as Hp'.
  { unfold as_unauthorized in Hp. destruct (ParseCtx cfg token w) as [[[]|] ?]; simplify_eq; done. }
  clear Hp. unfold ParseCtx in Hp'. destruct (jwt_decode token) as [c0|] eqn:Hd; [|done].
  assert (quiet c0 (key ← getVerifyingKeyData cfg c0; now ← clock; if jwt_signed token key && jwt_registered now c0 then mret c0 else fail InternalError)
    (λ st now c', c' = c0 ∧ (∃ vk, verifying_key st c0 = Some vk ∧ jwt_signed token vk = true) ∧ jwt_registered now c0 = true)) as Hq.
  { eapply quiet_bind; [apply quiet_getVerifyingKeyData|]. intros vk. eapply quiet_bind; [apply quiet_clock|]. intros now.
    destruct (jwt_signed token vk && jwt_registered now c0) eqn:Hs; [|apply quiet_fail]. apply andb_true_iff in Hs as [??].
    eapply quiet_impl; [apply quiet_ret|]. intros st now' c' -> -> Hvk. eauto. }
  assert (cache_agrees (claims_GetNamespace c0) (cl_Subject c0) w) as Hagree.
  { intros a. by rewrite Hc. }
  destruct (Hq _ _ _ Hagree Hp') as ((-> & Hs & Hreg) & Hbase & Hc'). case_bool_decide as Haud; [|done]. cbn [negb] in Hrest.
  apply bind_Ok in Hrest as (now & w2 & Hn & Hrest). injection Hn as <- <-.
  destruct (claims_Validate (aw_now w1) c0) eqn:Hv; [|done]. injection Hrest as <- <-.
  split_and!; [|done|done]. apply claims_Validate_true in Hv as [Hva Hvp]. by split.
Qed.

(** ** The nonce *)

Definition nonce_used (claims : AuthProxyClaims) (w w' : aworld R) : Prop :=
  match cl_Nonce claims with
  | None => aw_nonces w' = aw_nonces w
  | Some n => ∃ e, cl_ExpiresAt claims = Some e ∧ aw_nonces w !! n = None ∧ aw_nonces w' = <[n := mkUsedNonce e (aw_now w)]> (aw_nonces w)
  end.

Lemma as_unauthorized_Ok {A} (m : aop A) (w : aworld R) a w' : as_unauthorized m w = (Ok a, w') → m w = (Ok a, w').
Proof. unfold as_unauthorized. by destruct (m w) as [[[]|] ?]. Qed.

Lemma check_nonce_Ok claims (w : aworld R) u w' :
  check_nonce cfg claims w = (Ok u, w') →
  nonce_used claims w w' ∧ aw_store w' = aw_store w ∧ aw_redis w' = aw_redis w ∧ aw_cache w' = aw_cache w ∧
  aw_now w' = aw_now w ∧ aw_redis_now w' = aw_redis_now w.
Proof.
  unfold check_nonce, nonce_used. destruct (cl_Nonce claims) as [n|]; [|by intros [= _ <-]].
  destruct (cl_ExpiresAt claims) as [e|]; [|done]. intros (b & w1 & Hc%as_unauthorized_Ok & Hrest)%bind_Ok.
  destruct b; [|done]. injection Hrest as _ <-. unfold CheckNonceValidAndMarkUsed in Hc. rewrite has_db in Hc. cbn [negb] in Hc.
  case_decide; [done|]. destruct (ID_ValidatePrefix n PrefixNonce); [done|].
  apply bind_Ok in Hc as (r & w2 & [_ Hd]%db_call_Ok & Hr). destruct r as [e'|b]; [done|]. injection Hr as -> ->.
  pose proof (next_link_base w) as []. pose proof (next_link_cache w). unfold mark_nonce in Hd. rewrite sb_nonces0 in Hd.
  destruct (aw_nonces w !! n) eqn:Hn; [done|]. injection Hd as <-. cbn. split_and!; [|congruence..].
  exists e. split_and!; congruence.
Qed.

(** ** The actor of a token *)

(** The actor a request is authenticated as, of a row. *)
Definition actor_of (row : DbActor) : Actor :=
  mkActor (da_Id row) (da_Name row) (da_ExternalId row) (da_Namespace row) (da_Labels row) (da_Annotations row) (da_Permissions row).

Definition token_row (claims : AuthProxyClaims) (st st' : store) (row : DbActor) : Prop :=
  da_Namespace row = claims_GetNamespace claims ∧ da_ExternalId row = cl_Subject claims ∧
  match cl_Actor claims with
  | None => st' = st ∧ is_live row = true ∧ st_actors st !! da_Id row = Some row
  | Some a => agrees row (claims_actor_data claims a) ∧ st_actors st' !! da_Id row = Some row
  end.

Lemma token_actor_Ok token claims (w : aworld R) row w' :
  store_ok (aw_store w) → verified (aw_store w) (aw_now w) token claims → cache_agrees (claims_GetNamespace claims) (cl_Subject claims) w →
  token_actor cfg claims w = (Ok row, w') →
  token_row claims (aw_store w) (aw_store w') row ∧ store_ok (aw_store w') ∧ aw_nonces w' = aw_nonces w ∧ aw_redis w' = aw_redis w ∧
  aw_now w' = aw_now w ∧ aw_redis_now w' = aw_redis_now w.
Proof.
  intros Hst Hv Hc. unfold token_actor, token_row. destruct (cl_Actor claims) as [a|] eqn:Ha.
  - intros (now & w1 & Hn & Hrest)%bind_Ok. injection Hn as <- <-. apply bind_Ok in Hrest as (k & w1 & Hk & Hrest). injection Hk as <- <-.
    apply bind_Ok in Hrest as (r & w2 & (_ & Hu & _ & H1 & H2 & H3 & H4)%actor_call_Ok & Hrest). cbn in *.
    destruct r as [e|row']; [done|]. apply bind_Ok in Hrest as (u & w3 & Hput & Hrest). injection Hput as <- <-. injection Hrest as <- <-.
    pose proof (UpsertActor_written _ _ _ _ _ _ _ Hst Hu) as [_ (Hag & Hs & _)].
    pose proof (UpsertActor_ok visit_labels (aw_now w) (new_actor_id (aw_fresh w)) (claims_actor_data claims a) _ Hst) as Hst'. rewrite Hu in Hst'.
    destruct (ve_actor _ _ _ _ Hv a Ha) as [He Hns]. split_and!; cbn; try done; [by rewrite (ag_ns _ _ Hag)|by rewrite (ag_ext _ _ Hag)].
  - intros (r & w1 & Hl & Hrest)%bind_Ok. apply lookup_actor_Ok in Hl as (-> & [] & _); [|done].
    destruct (GetActorByExternalId (claims_GetNamespace claims) (cl_Subject claims) (aw_store w)) as [[[]|row'] st'] eqn:Hg; try done.
    cbn in Hrest. injection Hrest as -> <-. apply GetActorByExternalId_Ok in Hg as [_ Hrow].
    destruct (Hrow row eq_refl) as (Hns & Hext & Hl & id & Hid). destruct (so_rows _ Hst _ _ Hid) as [Hi _].
    split_and!; try done; [by rewrite Hi|congruence].
Qed.

Lemma auth_from_token_Ok token (w : aworld R) ra w' :
  store_ok (aw_store w) → aw_cache w = newActorCache → auth_from_token cfg token w = (Ok ra, w') →
  ∃ claims row, verified (aw_store w) (aw_now w) token claims ∧ IsExpired (aw_now w) claims = false ∧
    nonce_used claims w w' ∧ token_row claims (aw_store w) (aw_store w') row ∧ store_ok (aw_store w') ∧
    ra = mkRequestAuth None (Some (actor_of row)) (cl_Permissions claims) ∧
    aw_redis w' = aw_redis w ∧ aw_now w' = aw_now w ∧ aw_redis_now w' = aw_redis_now w.
Proof.
  intros Hst Hc (claims & w1 & Hp & Hrest)%bind_Ok. apply Parse_Ok in Hp as (Hv & [Bst Bn Br Bnow Brn] & Hca); [|done].
  apply bind_Ok in Hrest as (now & w1' & Hn & Hrest). injection Hn as <- <-.
  destruct (IsExpired (aw_now w1) claims) eqn:He; [done|]. rewrite Bnow in He.
  apply bind_Ok in Hrest as (u & w2 & Hnon & Hrest). apply check_nonce_Ok in Hnon as (Hnu & Cst & Cr & Cc & Cnow & Crn).
  apply bind_Ok in Hrest as (row & w3 & Ht & Hrest). injection Hrest as <- <-.
  eapply token_actor_Ok in Ht as (Hrow & Hok & Dn & Dr & Dnow & Drn).
  - exists claims, row. rewrite Cst, Bst in Hrow. split_and!; try done; try congruence.
    + unfold nonce_used in *. rewrite Dn, <- Bn, <- Bnow. done.
    + by destruct (cl_Permissions claims).
  - by rewrite Cst, Bst.
  - rewrite Cst, Cnow, Bst, Bnow. exact Hv.
  - intros a. rewrite Cc, Cst. apply Hca.
Qed.

(** ** Sessions *)

(** What Redis holds of a session. *)
Definition redis_holds (s : R) (t : Z) (id json : string) (xsrf : list string) : Prop :=
  (exec GET t (Redis.lookup s t (getRedisSessionJsonKey id))).1 = Ok (Some json) ∧
  (exec LRANGE_all t (Redis.lookup s t (getRedisXsrfKey id))).1 = Ok xsrf.

Lemma str_app_suffix (a b c d : string) : String.length a = String.length b → a +:+ c = b +:+ d → c = d.
Proof.
  revert b. induction a as [|x a IH]; intros [|y b]; try done. intros [= Hl]. rewrite !str_cons_app. intros [= _ H]. by apply (IH b).
Qed.

Lemma session_keys_differ id id' : getRedisXsrfKey id' ≠ getRedisSessionJsonKey id.
Proof.
  unfold getRedisXsrfKey, getRedisSessionJsonKey. rewrite <- !str_app_assoc. intros H.
  assert (String.length (("session:" +:+ id') +:+ ":xsrf") = String.length (("session:" +:+ id) +:+ ":json")) as Hl by (by rewrite H).
  rewrite !(str_length_app (_ +:+ _)) in Hl. apply str_app_suffix in H; [done|]. cbn in Hl |- *. lia.
Qed.

Lemma read_pipeline_Ok id t s r s' :
  read_pipeline id t s = (Ok r, s') →
  match r with None => True | Some (j, l) => redis_holds s t id j l end.
Proof.
  unfold read_pipeline. destruct (call GET (getRedisSessionJsonKey id) t s) as [r1 s1] eqn:H1.
  destruct (call LRANGE_all (getRedisXsrfKey id) t s1) as [r2 s2] eqn:H2.
  pose proof (call_reply GET (getRedisSessionJsonKey id) t s) as E1. rewrite H1 in E1.
  pose proof (call_reply LRANGE_all (getRedisXsrfKey id) t s1) as E2. rewrite H2 in E2. cbn [fst] in E1, E2.
  pose proof (call_other GET (getRedisSessionJsonKey id) (getRedisXsrfKey id) t s (session_keys_differ id id)) as E3. rewrite H1 in E3. cbn [snd] in E3.
  rewrite E3 in E2. destruct r1 as [e|[j|]], r2 as [e'|l]; intros [= <- _]; try done.
Qed.

(** A session as Redis holds it, good at a time. *)
Record session_good (s : R) (t now : Z) (id : string) (sess : session) : Prop := {
  sg_json : ∃ j s0, redis_holds s t id j (s_ValidXsrfValues sess) ∧ session_of_json j = Some s0 ∧ session_IsValid s0 = true ∧
    s_Id s0 = s_Id sess ∧ s_ActorId s0 = s_ActorId sess ∧ s_ExpiresAt s0 = s_ExpiresAt sess;
  sg_unexpired : (now ≤ s_ExpiresAt sess)%Z
}.

Lemma tryRead_Ok id (w : aworld R) r w' :
  tryReadSessionFromRedis id w = (Ok r, w') →
  aw_store w' = aw_store w ∧ aw_nonces w' = aw_nonces w ∧ aw_cache w' = aw_cache w ∧ aw_now w' = aw_now w ∧ aw_redis_now w' = aw_redis_now w ∧
  ∀ sess, r = Some sess → session_good (aw_redis w) (aw_redis_now w) (aw_now w) id sess.
Proof.
  intros (r1 & w1 & (Hf & Hc & Hn & Hst & Hnow & Hrn)%redis_call_Ok & Hrest)%bind_Ok.
  destruct r1 as [e|[[j l]|]]; [done| |by injection Hrest as <- <-; split_and!]. apply read_pipeline_Ok in Hf.
  destruct (session_of_json j) as [s0|] eqn:Hj; [|done]. destruct (session_IsValid s0) eqn:Hv; [|done]. cbn [negb] in Hrest.
  apply bind_Ok in Hrest as (now & w2 & Hcl & Hrest). injection Hcl as <- <-.
  destruct (session_IsExpired (aw_now w1) s0) eqn:He; injection Hrest as <- <-; split_and!; try done; intros sess [= <-].
  split; cbn; [|rewrite Hnow in He; unfold session_IsExpired in He; apply Z.ltb_ge in He; done]. exists j, s0. by split_and!.
Qed.

Lemma clearSessionCookie_Ok (w : aworld R) u w' :
  clearSessionCookie cfg w = (Ok u, w') → aw_store w' = aw_store w ∧ aw_nonces w' = aw_nonces w.
Proof.
  intros (ss & w1 & Hs & Hrest)%bind_Ok. injection Hrest as _ <-. unfold session_service in Hs. destruct (cfg_session cfg); [|done].
  by injection Hs as _ <-.
Qed.

Lemma extendSession_Ok sess (w : aworld R) u w' :
  extendSession cfg sess w = (Ok u, w') → aw_store w' = aw_store w ∧ aw_nonces w' = aw_nonces w.
Proof.
  intros (ss & w1 & Hs & Hrest)%bind_Ok. unfold session_service in Hs. destruct (cfg_session cfg); [|done]. injection Hs as _ <-.
  apply bind_Ok in Hrest as (n & w1 & Hn & Hrest). injection Hn as _ <-. apply bind_Ok in Hrest as (now & w2 & Hn & Hrest). injection Hn as _ <-.
  apply bind_Ok in Hrest as (r & w2 & (_ & _ & Hn & Hst & _)%redis_call_Ok & Hrest). destruct r; [done|]. by injection Hrest as _ <-.
Qed.

Lemma deleteSession_Ok id (w : aworld R) u w' :
  deleteSessionFromRedis id w = (Ok u, w') → aw_store w' = aw_store w ∧ aw_nonces w' = aw_nonces w.
Proof. intros (r & w1 & (_ & _ & Hn & Hst & _)%redis_call_Ok & Hrest)%bind_Ok. destruct r; [done|]. by injection Hrest as _ <-. Qed.

(** What a request without a token has shown when a session authenticates
    it. *)
Definition session_grants (requireSessionXsrf : bool) (r : Request) (w : aworld R) (ra : RequestAuth) : Prop :=
  ∃ cookie sid sess row,
    rq_cookie r = Some cookie ∧ fromSessionCookieId cookie = Some sid ∧ sid_Id sid ≠ "" ∧
    session_good (aw_redis w) (aw_redis_now w) (aw_now w) (sid_Id sid) sess ∧ s_Id sess = sid_Id sid ∧ s_ActorId sess = sid_ActorId sid ∧
    (requireSessionXsrf = true → rq_Method r ≠ "GET" → rq_xsrf r ≠ "" ∧ rq_xsrf r ∈ s_ValidXsrfValues sess) ∧
    live_actor (s_ActorId sess) (aw_store w) = Some row ∧ ra = mkRequestAuth (Some (s_Id sess)) (Some (actor_of row)) [].

Lemma establishAuthFromSession_Ok requireSessionXsrf r fromJwt (w : aworld R) ra w' :
  establishAuthFromSession cfg requireSessionXsrf r fromJwt w = (Ok ra, w') →
  aw_store w' = aw_store w ∧ aw_nonces w' = aw_nonces w ∧
  match ra_actor fromJwt with
  | Some a => ra_actor ra = Some a ∧ ra_permissions ra = ra_permissions fromJwt
  | None => ra = fromJwt ∨ (aw_cache w = newActorCache → session_grants requireSessionXsrf r w ra)
  end.
Proof.
  unfold establishAuthFromSession.
  assert (∀ w1, aw_store w1 = aw_store w ∧ aw_nonces w1 = aw_nonces w → ra = fromJwt → w1 = w' →
    aw_store w' = aw_store w ∧ aw_nonces w' = aw_nonces w ∧
    match ra_actor fromJwt with
    | Some a => ra_actor ra = Some a ∧ ra_permissions ra = ra_permissions fromJwt
    | None => ra = fromJwt ∨ (aw_cache w = newActorCache → session_grants requireSessionXsrf r w ra)
    end) as Hsame.
  { intros w1 [??] -> <-. split_and!; [done..|]. by destruct (ra_actor fromJwt); [|left]. }
  destruct (cfg_SupportsSession cfg); [|intros [= <- <-]; by apply (Hsame w)]. cbn [negb].
  destruct (rq_cookie r) as [cookie|] eqn:Hck; [|intros [= <- <-]; by apply (Hsame w)].
  destruct (fromSessionCookieId cookie) as [sid|] eqn:Hsid.
  2: { intros (u & w1 & Hcl%clearSessionCookie_Ok & [= <- <-])%bind_Ok. by apply (Hsame w1). }
  case_decide as Hid. { intros (u & w1 & Hcl%clearSessionCookie_Ok & [= <- <-])%bind_Ok. by apply (Hsame w1). }
  intros (sess & w1 & Ht%tryRead_Ok & Hrest)%bind_Ok. destruct Ht as (Hst & Hn & Hc & Hnow & Hrn & Hgood).
  destruct sess as [sess|]; [|injection Hrest as <- <-; by apply (Hsame w1)]. specialize (Hgood sess eq_refl).
  case_decide as Hi; [done|]. case_decide as Ha; [done|].
  destruct (ra_actor fromJwt) as [actor|] eqn:Hra.
  - case_decide.
    + apply bind_Ok in Hrest as (u & w2 & [? ?]%deleteSession_Ok & [= <- <-]). split_and!; [congruence..|done|done].
    + injection Hrest as <- <-. split_and!; [congruence..|done|done].
  - apply bind_Ok in Hrest as (u & w2 & Hx & Hrest).
    assert (w2 = w1 ∧ (requireSessionXsrf = true → rq_Method r ≠ "GET" → rq_xsrf r ≠ "" ∧ rq_xsrf r ∈ s_ValidXsrfValues sess)) as [-> Hxsrf].
    { destruct requireSessionXsrf; cbn [andb] in Hx; [|by injection Hx as _ <-].
      case_bool_decide as Hm; cbn [negb] in Hx; [injection Hx as _ <-; naive_solver|]. case_decide; [done|].
      case_bool_decide; [injection Hx as _ <-; naive_solver|done]. }
    clear Hx u. apply bind_Ok in Hrest as (cached & w2 & Hg & Hrest). injection Hg as <- <-.
    apply bind_Ok in Hrest as (row & w2 & Hrow & Hrest). apply bind_Ok in Hrest as (u & w3 & [Est En]%extendSession_Ok & [= <- <-]).
    destruct (byId (aw_cache w1) !! s_ActorId sess) as [row'|] eqn:Hcached.
    + injection Hrow as <- <-. split_and!; [congruence..|]. right. intros Hnew. rewrite Hc, Hnew in Hcached. done.
    + apply bind_Ok in Hrow as (res & w4 & (_ & Hget & Gc & Gn & _)%actor_call_Ok & Hrow). destruct res as [e|row']; [done|].
      apply bind_Ok in Hrow as (u' & w5 & Hput & Hrow). injection Hput as _ <-. injection Hrow as <- <-. cbn in Est, En.
      unfold GetActor in Hget. rewrite Hst in Hget. destruct (live_actor (s_ActorId sess) (aw_store w)) as [row''|] eqn:Hl; [|done].
      injection Hget as <- Hgs. split_and!; [congruence..|]. right. intros _. exists cookie, sid, sess, row''. by split_and!.
Qed.

(** What a request with a token has shown: the token decodes to claims that are
    signed with the key the store asks for, meant for this service, in their
    time and valid; its nonce was new and is used now; the actor is the one the
    claims name, as stored or as the claims say; and the token's permissions
    restrict the request. *)
Definition token_grants (r : Request) (w w' : aworld R) (ra : RequestAuth) : Prop :=
  ∃ token claims row,
    request_token r = Ok token ∧ token ≠ "" ∧ verified (aw_store w) (aw_now w) token claims ∧ IsExpired (aw_now w) claims = false ∧
    nonce_used claims w w' ∧ token_row claims (aw_store w) (aw_store w') row ∧
    ra_actor ra = Some (actor_of row) ∧ ra_permissions ra = cl_Permissions claims.

Lemma establishAuthFromRequest_Ok requireSessionXsrf r (w : aworld R) ra w' :
  store_ok (aw_store w) → establishAuthFromRequest cfg requireSessionXsrf r w = (Ok ra, w') →
  token_grants r w w' ra ∨ (request_token r = Ok "" ∧ aw_nonces w' = aw_nonces w ∧ (ra = NewUnauthenticatedRequestAuth ∨ session_grants requireSessionXsrf r w ra)).
Proof.
  intros Hst. unfold establishAuthFromRequest. destruct (request_token r) as [e|token] eqn:Hrt; [done|].
  set (w0 := set_cache newActorCache w). intros (ra0 & w1 & Htok & Hs%establishAuthFromSession_Ok)%bind_Ok. destruct Hs as (Hst1 & Hn1 & Hs).
  case_decide as Hne.
  - left. destruct (auth_from_token_Ok token w0 ra0 w1 Hst eq_refl Htok) as (claims & row & Hv & He & Hnon & Hrow & _ & -> & _).
    cbn in Hs. destruct Hs as [Ha Hp]. exists token, claims, row. rewrite Hst1.
    assert (nonce_used claims w w') as Hnon' by (unfold nonce_used in *; rewrite Hn1; done).
    do 7 (split; [done|]). done.
  - injection Htok as <- <-. right. cbn in Hs. split_and!; [congruence|done|]. destruct Hs as [->|Hs]; [by left|right]. by apply Hs.
Qed.

(** ** Sequences of requests *)

(** A request, or the task that forgets expired nonces.  A request may also have
    the commit of its nonce, or of its actor, fail: [transaction]
    (database/util.go) loses that error and reports success. *)
Inductive auth_event : Type :=
  | EvRequest (requireSessionXsrf : bool) (r : Request)
  | EvUncommitted (nonce_lost actor_lost requireSessionXsrf : bool) (r : Request)
  | EvCleanup.

(** An event at a time of the process and of Redis, with the outcomes of its
    calls. *)
Record timed_event := mkTimed { te_now : Z; te_redis_now : Z; te_links : list link; te_event : auth_event }.

Definition begin_request (e : timed_event) (w : aworld R) : aworld R :=
  mkWorld (aw_store w) (aw_nonces w) (aw_redis w) newActorCache None [] (te_links e) (aw_fresh w) (te_now e) (te_redis_now e).

(** The tables after a request whose commits were lost: nothing but the check of
    the nonce writes the one, and nothing but the upsert of the actor the other. *)
Definition uncommitted (nonce_lost actor_lost : bool) (w w' : aworld R) : aworld R :=
  set_nonces (if nonce_lost then aw_nonces w else aw_nonces w') (set_store (if actor_lost then aw_store w else aw_store w') w').

Definition run_event (e : timed_event) (w : aworld R) : option (Request * RequestAuth) * aworld R :=
  match te_event e with
  | EvRequest x r =>
      match establishAuthFromRequest cfg x r (begin_request e w) with
      | (Ok ra, w') => (Some (r, ra), w')
      | (Err _, w') => (None, w')
      end
  | EvUncommitted nonce_lost actor_lost x r =>
      match establishAuthFromRequest cfg x r (begin_request e w) with
      | (Ok ra, w') => (Some (r, ra), uncommitted nonce_lost actor_lost w w')
      | (Err _, w') => (None, uncommitted nonce_lost actor_lost w w')
      end
  | EvCleanup => (None, (DeleteExpiredNonces cfg (begin_request e w)).2)
  end.

Definition carries (token : string) (r : Request) : bool :=
  match request_token r with Ok t => bool_decide (t = token) | Err _ => false end.

(** How many requests with the token were let through. *)
Fixpoint accepted (token : string) (es : list timed_event) (w : aworld R) : nat :=
  match es with
  | [] => 0
  | e :: es =>
      let '(res, w') := run_event e w in
      (match res with Some (r, _) => if carries token r then 1 else 0 | None => 0 end + accepted token es w')%nat
  end.

(** The requests with the token whose record of the nonce was lost. *)
Definition lost_record (token : string) (e : timed_event) : bool :=
  match te_event e with EvUncommitted true _ _ r => carries token r | _ => false end.

(** Whatever its result, a step keeps the nonces that are used and the store
    well formed. *)
Definition keeps {A} (m : aop A) : Prop := ∀ w : aworld R,
  store_ok (aw_store w) → aw_nonces w ⊆ aw_nonces (m w).2 ∧ store_ok (aw_store (m w).2).

Lemma keeps_same {A} (m : aop A) : (∀ w, aw_nonces (m w).2 = aw_nonces w ∧ aw_store (m w).2 = aw_store w) → keeps m.
Proof. intros H w Hst. destruct (H w) as [-> ->]. done. Qed.

Lemma keeps_bind {A B} (m : aop A) (f : A → aop B) : keeps m → (∀ a, keeps (f a)) → keeps (m ≫= f).
Proof.
  intros Hm Hf w Hst. unfold mbind, aop_bind. destruct (m w) as [[e|a] w'] eqn:Heq; pose proof (Hm w Hst) as [Hn Hs]; rewrite Heq in Hn, Hs; [done|].
  destruct (Hf a w' Hs) as [Hn' Hs']. split; [by etrans|done].
Qed.

Lemma keeps_ret {A} (a : A) : keeps (mret a).
Proof. by intros w Hst. Qed.
Lemma keeps_fail {A} e : keeps (fail e : aop A).
Proof. by intros w Hst. Qed.
Lemma keeps_clock : keeps clock.
Proof. by intros w Hst. Qed.
Lemma keeps_fresh : keeps next_fresh.
Proof. by intros w Hst. Qed.

Lemma keeps_db {E A} (f : aworld R → result E A * aworld R) :
  (∀ w, store_ok (aw_store w) → aw_nonces w ⊆ aw_nonces (f w).2 ∧ store_ok (aw_store (f w).2)) → keeps (db_call cfg f).
Proof.
  intros Hf w Hst. unfold db_call. destruct (cfg_has_db cfg); [|done]. cbn [negb]. pose proof (next_link_base w) as [Hs Hn _ _ _].
  destruct (next_link w) as [l w1]. cbn [snd] in *. rewrite <- Hs in Hst. destruct (Hf w1 Hst) as [Hn' Hs']. rewrite Hn in Hn'.
  destruct l; cbn; [|by rewrite Hn|done]. by destruct (f w1).
Qed.

Lemma keeps_actor {A} (f : atx A) : (∀ st, store_ok st → store_ok (f st).2) → keeps (actor_call cfg f).
Proof. intros Hf. apply keeps_db. intros w Hst. specialize (Hf _ Hst). by destruct (f (aw_store w)). Qed.

Lemma keeps_redis {A} (f : script R A) : keeps (redis_call_out f).
Proof.
  apply keeps_same. intros w. unfold redis_call_out. pose proof (next_link_base w) as [Hs Hn _ _ _]. destruct (next_link w) as [[] w1]; cbn in *; try done.
  by destruct (f _ _).
Qed.

Lemma keeps_unauthorized {A} (m : aop A) : keeps m → keeps (as_unauthorized m).
Proof. intros Hm w Hst. unfold as_unauthorized. specialize (Hm w Hst). by destruct (m w) as [[[]|] ?]. Qed.

Lemma keeps_put a : keeps (cache_Put a).
Proof. by intros w Hst. Qed.

Create HintDb keeps discriminated.
Hint Resolve keeps_ret keeps_fail keeps_clock keeps_fresh keeps_redis keeps_put keeps_unauthorized : keeps.

Ltac keeps_step :=
  first [ progress intros | solve [auto with keeps] | apply keeps_bind | apply keeps_unauthorized | case_decide | case_match ].
Ltac solve_keeps := repeat keeps_step.

Lemma keeps_get ns e : keeps (actor_call cfg (GetActorByExternalId ns e)).
Proof. apply keeps_actor. intros st Hst. unfold GetActorByExternalId. by destruct (find_actor _ st). Qed.
Lemma keeps_get_id id : keeps (actor_call cfg (GetActor id)).
Proof. apply keeps_actor. intros st Hst. unfold GetActor. by destruct (live_actor id st). Qed.
Lemma keeps_upsert now id d : keeps (actor_call cfg (UpsertActor visit_labels now id d)).
Proof. apply keeps_actor. intros st. apply UpsertActor_ok. Qed.

Lemma keeps_lookup ns e : keeps (lookup_actor cfg ns e).
Proof.
  apply keeps_bind; [by intros w Hst|]. intros [a|]; [apply keeps_ret|]. apply keeps_bind; [apply keeps_get|]. intros [e'|a]; [apply keeps_ret|].
  apply keeps_bind; [apply keeps_put|]. intros _. apply keeps_ret.
Qed.
Hint Resolve keeps_lookup keeps_get keeps_get_id keeps_upsert : keeps.

Lemma keeps_Parse token : keeps (Parse cfg token).
Proof.
  unfold Parse, ParseCtx, getVerifyingKeyData, key_selector, keyForToken, keyForActorSignedToken, actor_key, deref. solve_keeps.
Qed.

Lemma keeps_mark n e : keeps (db_call cfg (mark_nonce n e)).
Proof.
  apply keeps_db. intros w Hst. unfold mark_nonce. destruct (aw_nonces w !! n) eqn:Hn; [done|]. cbn. split; [by apply insert_subseteq|done].
Qed.

Lemma keeps_nonce claims : keeps (check_nonce cfg claims).
Proof. unfold check_nonce, CheckNonceValidAndMarkUsed. pose proof keeps_mark. solve_keeps. Qed.

Lemma keeps_clear : keeps (clearSessionCookie cfg).
Proof. unfold clearSessionCookie, session_service. apply keeps_bind; [by destruct (cfg_session cfg)|]. intros ss. by apply keeps_same. Qed.

Lemma keeps_read id : keeps (tryReadSessionFromRedis id).
Proof. unfold tryReadSessionFromRedis. solve_keeps. Qed.

Lemma keeps_delete id : keeps (deleteSessionFromRedis id).
Proof. unfold deleteSessionFromRedis. solve_keeps. Qed.

Lemma keeps_extend sess : keeps (extendSession cfg sess).
Proof.
  unfold extendSession, session_service. apply keeps_bind; [by destruct (cfg_session cfg)|]. intros ss.
  solve_keeps.
Qed.

Lemma keeps_get_cached id : keeps (cache_GetById id).
Proof. by apply keeps_same. Qed.
Hint Resolve keeps_clear keeps_read keeps_delete keeps_extend keeps_get_cached : keeps.

Lemma keeps_session x r fromJwt : keeps (establishAuthFromSession cfg x r fromJwt).
Proof. unfold establishAuthFromSession. solve_keeps. Qed.

Lemma keeps_request x r : keeps (establishAuthFromRequest cfg x r).
Proof.
  intros w Hst. unfold establishAuthFromRequest. destruct (request_token r) as [e|token]; [done|].
  set (m := _ ≫= _). assert (keeps m) as Hm; [|by apply (Hm (set_cache newActorCache w))].
  apply keeps_bind; [|intros; apply keeps_session]. case_decide; [|apply keeps_ret]. unfold auth_from_token, token_actor.
  pose proof (keeps_Parse token). pose proof keeps_nonce. solve_keeps.
Qed.

(** *** A nonce is used once *)

Section nonce.
Context (token : string) (claims : AuthProxyClaims) (n : string) (exp : Z).
Hypothesis Hdecode : jwt_decode token = Some claims.
Hypothesis Hnonce : cl_Nonce claims = Some n.
Hypothesis Hexp : cl_ExpiresAt claims = Some exp.

(** From a time on the token is of no use: its nonce is recorded, or it has
    expired. *)
Definition spent (t : Z) (w : aworld R) : Prop :=
  (∃ u, aw_nonces w !! n = Some u ∧ un_RetainUntil u = exp) ∨ (exp < t)%Z.

Lemma accepted_fresh x r e (w : aworld R) ra w' :
  store_ok (aw_store w) → establishAuthFromRequest cfg x r (begin_request e w) = (Ok ra, w') → request_token r = Ok token → token ≠ "" →
  aw_nonces w !! n = None ∧ (te_now e ≤ exp)%Z ∧ spent (te_now e) w'.
Proof.
  intros Hst Hr Ht Hne. destruct (establishAuthFromRequest_Ok x r (begin_request e w) _ _ Hst Hr) as [Hg|[Hg _]]; [|congruence].
  destruct Hg as (token' & claims' & row & Ht' & _ & Hv & He & Hnon & _). rewrite Ht in Ht'. injection Ht' as <-.
  pose proof (ve_decoded _ _ _ _ Hv) as Hd. rewrite Hdecode in Hd. injection Hd as <-.
  unfold nonce_used in Hnon. rewrite Hnonce in Hnon. destruct Hnon as (e' & He' & Hnone & Hn'). cbn in Hnone, Hn'.
  rewrite Hexp in He'. injection He' as <-. unfold IsExpired in He. rewrite Hexp in He. cbn in He. apply Z.ltb_ge in He.
  split_and!; [done|done|]. left. eexists. rewrite Hn', lookup_insert_eq. done.
Qed.

Lemma run_event_keeps e w : store_ok (aw_store w) → store_ok (aw_store (run_event e w).2).
Proof.
  intros Hst. unfold run_event. destruct (te_event e) as [x r|nl al x r|].
  - pose proof (keeps_request x r (begin_request e w) Hst) as [_ Hs]. by destruct (establishAuthFromRequest _ _ _ _) as [[]?].
  - pose proof (keeps_request x r (begin_request e w) Hst) as [_ Hs]. destruct (establishAuthFromRequest _ _ _ _) as [[]?]; by destruct al.
  - unfold DeleteExpiredNonces. cbn. unfold mbind, aop_bind, db_call. rewrite has_db. cbn. unfold next_link. cbn.
    by destruct (te_links e) as [|[] ls].
Qed.

(** A request forgets no nonce, committed or not. *)
Lemma request_keeps_nonces e w : store_ok (aw_store w) → te_event e ≠ EvCleanup → aw_nonces w ⊆ aw_nonces (run_event e w).2.
Proof.
  intros Hst He. unfold run_event. destruct (te_event e) as [x r|nl al x r|]; [| |done];
    pose proof (keeps_request x r (begin_request e w) Hst) as [Hn _]; destruct (establishAuthFromRequest _ _ _ _) as [[]?]; cbn in *; [done..| |]; by destruct nl.
Qed.

Lemma spent_step e t w :
  (t ≤ te_now e)%Z → store_ok (aw_store w) → spent t w → spent (te_now e) (run_event e w).2.
Proof.
  intros Ht Hst [(u & Hu & Hret)|Hpast]; [|right; lia].
  assert (te_event e ≠ EvCleanup → spent (te_now e) (run_event e w).2) as Hreq.
  { intros He. left. exists u. split; [|done]. eapply lookup_weaken; [exact Hu|]. by apply request_keeps_nonces. }
  destruct (te_event e) as [x r|nl al x r|] eqn:Hev; [by apply Hreq|by apply Hreq|]. clear Hreq. unfold run_event. rewrite Hev.
  unfold DeleteExpiredNonces. unfold mbind, aop_bind, db_call. rewrite has_db. cbn [negb]. unfold next_link. cbn [aw_links begin_request].
  assert (∀ ls, spent (te_now e) (set_nonces (filter (λ kv, ¬ un_RetainUntil kv.2 < te_now e)%Z (aw_nonces w)) (set_links ls (begin_request e w)))) as Hf.
  { intros ls. destruct (decide (exp < te_now e)%Z); [by right|left]. exists u. split; [|done]. apply map_lookup_filter_Some. split; [done|]. cbn. lia. }
  destruct (te_links e) as [|[] ls] eqn:Hl; cbn [fst snd].
  - specialize (Hf []). unfold begin_request in *. rewrite Hl in *. done.
  - apply (Hf ls).
  - left. by exists u.
  - apply (Hf ls).
Qed.

(** A request with the token that is let through finds its nonce unused, and
    leaves it spent unless the record was lost. *)
Lemma accepted_event e (w : aworld R) r ra w' :
  store_ok (aw_store w) → run_event e w = (Some (r, ra), w') → carries token r = true → token ≠ "" →
  aw_nonces w !! n = None ∧ (te_now e ≤ exp)%Z ∧ (lost_record token e = false → spent (te_now e) w').
Proof.
  intros Hst Hrun Hc Hne. pose proof Hc as Ht. unfold carries in Ht. destruct (request_token r) as [|t'] eqn:Hrt; [done|]. apply bool_decide_eq_true in Ht. subst t'.
  unfold run_event, lost_record in *. destruct (te_event e) as [x r0|nl al x r0|]; [| |done];
    destruct (establishAuthFromRequest cfg x r0 (begin_request e w)) as [[|ra'] w1] eqn:He; try done; injection Hrun as -> <- <-;
    destruct (accepted_fresh _ _ _ _ _ _ Hst He Hrt Hne) as (Hnone & Hle & Hsp); (split_and!; [done|done|]); [done|].
  rewrite Hc. destruct nl; [done|]. intros _. destruct Hsp as [(u & Hu & Hret)|?]; [left; by exists u|by right].
Qed.

Lemma spent_none es t w :
  token ≠ "" → store_ok (aw_store w) → spent t w → StronglySorted Z.le (t :: map te_now es) → accepted token es w = 0%nat.
Proof.
  intros Hne. revert t w. induction es as [|e es IH]; intros t w Hst Hsp Hs; [done|]. cbn [accepted].
  apply StronglySorted_inv in Hs as [Hs Hle]. apply Forall_inv in Hle.
  pose proof (run_event_keeps e w Hst) as Hst'. pose proof (spent_step e t w Hle Hst Hsp) as Hsp'.
  destruct (run_event e w) as [res w'] eqn:Hrun. cbn [snd] in *. rewrite (IH (te_now e) w') by done.
  destruct res as [[r ra]|]; [|done]. destruct (carries token r) eqn:Hc; [|done]. exfalso.
  destruct (accepted_event _ _ _ _ _ Hst Hrun Hc Hne) as (Hnone & Hle' & _). destruct Hsp as [(u & Hu & _)|?]; [congruence|lia].
Qed.

Lemma accepted_once es t w :
  token ≠ "" → store_ok (aw_store w) → StronglySorted Z.le (t :: map te_now es) →
  (accepted token es w ≤ 1 + length (List.filter (lost_record token) es))%nat.
Proof.
  intros Hne. revert t w. induction es as [|e es IH]; intros t w Hst Hs; [cbn; lia|]. cbn [accepted List.filter].
  apply StronglySorted_inv in Hs as [Hs Hle]. pose proof (run_event_keeps e w Hst) as Hst'.
  destruct (run_event e w) as [res w'] eqn:Hrun. cbn [snd] in *. specialize (IH (te_now e) w' Hst' Hs).
  assert (length (List.filter (lost_record token) es) ≤ length (if lost_record token e then e :: List.filter (lost_record token) es else List.filter (lost_record token) es))%nat as Hmono
    by (destruct (lost_record token e); cbn; lia).
  destruct res as [[r ra]|]; [|lia]. destruct (carries token r) eqn:Hc; [|lia].
  destruct (accepted_event _ _ _ _ _ Hst Hrun Hc Hne) as (_ & _ & Hsp). destruct (lost_record token e) eqn:Hl; [cbn; lia|].
  rewrite (spent_none es (te_now e) w'); [lia|done|done|by apply Hsp|done].
Qed.
End nonce.

Lemma never_accepted token claims n es w :
  jwt_decode token = Some claims → cl_Nonce claims = Some n → cl_ExpiresAt claims = None → token ≠ "" →
  store_ok (aw_store w) → accepted token es w = 0%nat.
Proof.
  intros Hd Hn He Hne. revert w. induction es as [|e es IH]; intros w Hst; [done|]. cbn [accepted].
  pose proof (run_event_keeps e w Hst) as Hst'. destruct (run_event e w) as [res w'] eqn:Hrun. cbn [snd] in Hst'. rewrite (IH w' Hst').
  destruct res as [[r ra]|]; [|done]. destruct (carries token r) eqn:Hc; [|done]. exfalso.
  unfold carries in Hc. destruct (request_token r) as [|t'] eqn:Ht; [done|]. apply bool_decide_eq_true in Hc. subst t'.
  assert (∃ x ra' w1, establishAuthFromRequest cfg x r (begin_request e w) = (Ok ra', w1)) as (x & ra' & w1 & Hr).
  { unfold run_event in Hrun. destruct (te_event e) as [x r0|nl al x r0|]; [| |done];
      destruct (establishAuthFromRequest cfg x r0 (begin_request e w)) as [[|ra'] w1] eqn:Hr; try done; injection Hrun as -> <- <-; by exists x, ra', w1. }
  destruct (establishAuthFromRequest_Ok x r (begin_request e w) _ _ Hst Hr) as [(tok & c & row & Ht' & _ & Hv & _ & Hnon & _)|[Hg _]]; [|congruence].
  assert (tok = token) as -> by congruence. pose proof (ve_decoded _ _ _ _ Hv) as Hd'. assert (c = claims) as -> by congruence.
  unfold nonce_used in Hnon. rewrite Hn, He in Hnon. by destruct Hnon as (? & ? & _).
Qed.

(** C2: Authentication is sound.  When a service with a database authenticates a
    request, either the request carries a token: it decodes to claims that are
    signed with the key the store asks for (the global key, the actor's key or
    the configured key), are meant for this service, are within their time and
    well formed; a nonce was unused and is used from now on; the actor is the
    live actor of the database with the token's namespace and subject, or the
    upserted actor of the claims with the same namespace and subject; and the
    request is restricted by the token's permissions.  Or it carries none, and
    a cookie decrypts to the id of a session that Redis holds for the same id
    and actor and that has not expired, the request has one of its XSRF values
    when that is required and the method is not GET, and the actor is live.
    This holds for every failure of the database and of Redis that the calls
    report; a commit that fails unnoticed undoes the record of the nonce or of
    the actor afterwards. *)
Theorem request_auth_sound requireSessionXsrf r (w : aworld R) ra w' :
  store_ok (aw_store w) → establishAuthFromRequest cfg requireSessionXsrf r w = (Ok ra, w') → IsAuthenticated ra = true →
  token_grants r w w' ra ∨ (request_token r = Ok "" ∧ session_grants requireSessionXsrf r w ra).
Proof.
  intros Hst Hr Ha. destruct (establishAuthFromRequest_Ok _ _ _ _ _ Hst Hr) as [?|(Ht & _ & [->|?])]; [by left|done|by right].
Qed.

(** C6: A token with a nonce is accepted once.  Over any sequence of requests
    and cleanups of the table of nonces, in the order of the clock, with any
    outcome of the calls to the database and to Redis, at most one request that
    carries the token is let through, and one more for each such request whose
    record of the nonce the database accepted but failed to commit, which the
    code does not notice.  When a cleanup forgets a nonce, the token has
    expired. *)
Theorem nonce_token_once token claims n es t w :
  jwt_decode token = Some claims → cl_Nonce claims = Some n → token ≠ "" →
  store_ok (aw_store w) → StronglySorted Z.le (t :: map te_now es) →
  (accepted token es w ≤ 1 + length (List.filter (lost_record token) es))%nat.
Proof.
  intros Hd Hn Hne Hst Hs. destruct (cl_ExpiresAt claims) as [exp|] eqn:He.
  - by eapply (accepted_once token claims n exp).
  - rewrite (never_accepted token claims n) by done. lia.
Qed.
End auth.
