(* ===== verification/AuthSessions.v ===== *)
(** * Sessions serve requests

    A session that was established authenticates the requests that present its
    cookie, and a recent XSRF value where one is needed, until it expires or is
    ended; and concrete executions of authentication. *)

From S2P Require Import Prelude GoNumbers GoStrings Namespace Permissions Labels Redis Actors AuthService AuthSafety.
Open Scope string_scope.
Open Scope list_scope.

(** Documented behaviour of JSON, base64 and encryption: what was written is
    what is read. *)
Class AuthExternalLaws `{AuthExternal} : Prop := {
  law_field x e : encrypt_global x = Some e → ef_of_json (ef_json e) = Some e ∧ decrypt_string e = Some x;
  law_base64 x : base64_decode (base64 x) = Some x;
  law_sid s : sid_of_json (sid_json s) = Some s;
  law_session s : session_of_json (session_json s) = Some (mkSession (s_Id s) (s_ActorId s) [] (s_ExpiresAt s))
}.

Section sessions.
Context {R : Type} {redis : RedisServer R} {ext : AuthExternal} {laws : AuthExternalLaws} (cfg : AuthConfig) (ss : SessionService).

#[local] Existing Instance aop_ret.
#[local] Existing Instance aop_bind.

Hypothesis has_db : cfg_has_db cfg = true.
Hypothesis has_encrypt : cfg_has_encrypt cfg = true.
Hypothesis supports : cfg_SupportsSession cfg = true.
Hypothesis with_sessions : cfg_session cfg = Some ss.
Hypothesis depth_nonneg : (0 ≤ ss_XsrfRequestQueueDepth ss)%Z.

Lemma cookie_roundtrip sid c : GetSessionCookieId sid = Some c → fromSessionCookieId c = Some sid.
Proof.
  unfold GetSessionCookieId, fromSessionCookieId. destruct (encrypt_global (sid_json sid)) as [e|] eqn:He; [|done]. cbn. intros [= <-].
  destruct (law_field _ _ He) as [Hj Hd]. rewrite law_base64. cbn. rewrite Hj. cbn. rewrite Hd. cbn. apply law_sid.
Qed.

(** ** Redis *)

Lemma get_string_value t v x : (exec GET t (Some (mkEntry (string_value v) x))).1 = Ok (Some v).
Proof. unfold string_value. destruct (ParseInt v) as [z|]; [|done]. case_decide as Hf; [|done]. cbn. by rewrite Hf. Qed.

(** The values a session accepts: the latest ones handed out. *)
Definition valid_xsrf (handed : list string) : list string := take (Z.to_nat (ss_XsrfRequestQueueDepth ss + 1)) handed.

Lemma ltrim_valid new handed : ltrim (ss_XsrfRequestQueueDepth ss) (new :: valid_xsrf handed) = valid_xsrf (new :: handed).
Proof.
  unfold ltrim, valid_xsrf. destruct (Z.ltb_spec (ss_XsrfRequestQueueDepth ss) 0); [lia|].
  replace (Z.to_nat (ss_XsrfRequestQueueDepth ss + 1)) with (S (Z.to_nat (ss_XsrfRequestQueueDepth ss))) by lia. cbn [take].
  f_equal. rewrite take_take. f_equal. lia.
Qed.

(** A session in Redis at a time of its server, until near its end. *)
Record held (id actorId : string) (expires : Z) (handed : list string) (s : R) (t : Z) : Prop := {
  he_json : ∃ j x, Redis.lookup s t (getRedisSessionJsonKey id) = Some (mkEntry (string_value j) (Some x)) ∧
    (expires `div` 1000000 - 1000 ≤ x)%Z ∧ session_of_json j = Some (mkSession id actorId [] expires);
  he_xsrf : ∃ x, Redis.lookup s t (getRedisXsrfKey id) = Some (mkEntry (VList (valid_xsrf handed)) (Some x)) ∧
    (expires `div` 1000000 - 1000 ≤ x)%Z
}.

Lemma held_later id actorId expires handed s t t' :
  held id actorId expires handed s t → (t ≤ t')%Z → (t' < expires `div` 1000000 - 1000)%Z → held id actorId expires handed s t'.
Proof.
  intros [(j & x & Hj & Hx & Hp) (x' & Hk & Hx')] Ht Hlt. split.
  - exists j, x. split_and!; [|done..]. eapply lookup_live; [exact Ht|done|]. unfold live. cbn. lia.
  - exists x'. split; [|done]. eapply lookup_live; [exact Ht|done|]. unfold live. cbn. lia.
Qed.

Lemma read_held id actorId expires handed s t :
  held id actorId expires handed s t →
  ∃ j s', read_pipeline id t s = (Ok (Some (j, valid_xsrf handed)), s') ∧ session_of_json j = Some (mkSession id actorId [] expires) ∧
    held id actorId expires handed s' t.
Proof.
  intros [(j & x & Hj & Hx & Hp) (x' & Hk & Hx')]. unfold read_pipeline.
  pose proof (call_reply GET (getRedisSessionJsonKey id) t s) as E1. pose proof (call_same GET (getRedisSessionJsonKey id) t s) as E1s.
  pose proof (call_other GET (getRedisSessionJsonKey id) (getRedisXsrfKey id) t s (session_keys_differ id id)) as E1o.
  destruct (call GET (getRedisSessionJsonKey id) t s) as [r1 s1]. cbn [fst snd] in *. rewrite Hj in E1, E1s. rewrite get_string_value in E1. subst r1.
  assert ((exec GET t (Some (mkEntry (string_value j) (Some x)))).2 = Some (mkEntry (string_value j) (Some x))) as Hsame.
  { unfold string_value. destruct (ParseInt j); [|done]. by case_decide. }
  rewrite Hsame in E1s.
  pose proof (call_reply LRANGE_all (getRedisXsrfKey id) t s1) as E2. pose proof (call_same LRANGE_all (getRedisXsrfKey id) t s1) as E2s.
  pose proof (call_other LRANGE_all (getRedisXsrfKey id) (getRedisSessionJsonKey id) t s1 (not_eq_sym (session_keys_differ id id))) as E2o.
  destruct (call LRANGE_all (getRedisXsrfKey id) t s1) as [r2 s2]. cbn [fst snd] in *. rewrite E1o, Hk in E2, E2s. cbn in E2, E2s. subst r2.
  exists j, s2. split_and!; [done|done|]. split; [exists j, x; by rewrite E2o, E1s|exists x'; by rewrite E2s].
Qed.

(** Writing a session that ends at least two seconds later. *)
Lemma write_held sess new handed s t now :
  (t = now `div` 1000000)%Z → (now ≤ s_ExpiresAt sess - 2000000000)%Z →
  (Redis.lookup s t (getRedisXsrfKey (s_Id sess)) = None ∧ handed = [] ∨
   ∃ x, Redis.lookup s t (getRedisXsrfKey (s_Id sess)) = Some (mkEntry (VList (valid_xsrf handed)) x)) →
  ∃ s', write_pipeline sess new (ss_XsrfRequestQueueDepth ss) (s_ExpiresAt sess - now) t s = (Ok tt, s') ∧
    held (s_Id sess) (s_ActorId sess) (s_ExpiresAt sess) (new :: handed) s' t.
Proof.
  intros Ht Hnow Hx. unfold write_pipeline. set (ttl := (s_ExpiresAt sess - now)%Z). set (kj := getRedisSessionJsonKey (s_Id sess)). set (kx := getRedisXsrfKey (s_Id sess)).
  assert (client_Set (session_json sess) ttl = SET_PX (session_json sess) (formatMs ttl)) as ->.
  { unfold client_Set. destruct (Z.ltb_spec 0 ttl); [done|lia]. }
  assert (formatMs ttl = ttl `div` 1000000)%Z as Hms.
  { unfold formatMs. destruct (Z.ltb_spec ttl 1000000); [lia|]. rewrite andb_false_r. apply Z.quot_div_nonneg; lia. }
  assert (formatSec ttl = ttl `div` 1000000000)%Z as Hsec.
  { unfold formatSec. destruct (Z.ltb_spec ttl 1000000000); [lia|]. rewrite andb_false_r. apply Z.quot_div_nonneg; lia. }
  assert (kx ≠ kj) as Hne by apply session_keys_differ.
  pose proof (call_reply (SET_PX (session_json sess) (formatMs ttl)) kj t s) as E1. pose proof (call_same (SET_PX (session_json sess) (formatMs ttl)) kj t s) as E1s.
  pose proof (call_other (SET_PX (session_json sess) (formatMs ttl)) kj kx t s Hne) as E1o.
  destruct (call (SET_PX (session_json sess) (formatMs ttl)) kj t s) as [r1 s1]. cbn [fst snd exec] in *.
  rewrite decide_False in E1, E1s by (rewrite Hms; Z.to_euclidean_division_equations; lia). cbn [fst snd] in E1, E1s. subst r1.
  pose proof (call_reply (LPUSH new) kx t s1) as E2. pose proof (call_same (LPUSH new) kx t s1) as E2s. pose proof (call_other (LPUSH new) kx kj t s1 (not_eq_sym Hne)) as E2o.
  destruct (call (LPUSH new) kx t s1) as [r2 s2]. cbn [fst snd] in *. rewrite E1o in E2, E2s.
  assert (r2 = Ok tt ∧ ∃ x, Redis.lookup s2 t kx = Some (mkEntry (VList (new :: valid_xsrf handed)) x)) as [-> [x E2k]].
  { fold kx in Hx. destruct Hx as [[Hx ->]|[x Hx]]; rewrite Hx in E2, E2s; cbn in E2, E2s; split; try done.
    - exists None. rewrite E2s. unfold valid_xsrf. by rewrite take_nil.
    - by exists x. }
  pose proof (call_reply (LTRIM_0 (ss_XsrfRequestQueueDepth ss)) kx t s2) as E3. pose proof (call_same (LTRIM_0 (ss_XsrfRequestQueueDepth ss)) kx t s2) as E3s.
  pose proof (call_other (LTRIM_0 (ss_XsrfRequestQueueDepth ss)) kx kj t s2 (not_eq_sym Hne)) as E3o.
  destruct (call (LTRIM_0 (ss_XsrfRequestQueueDepth ss)) kx t s2) as [r3 s3]. cbn [fst snd] in *. rewrite E2k in E3, E3s. cbn [exec on_list] in E3, E3s.
  rewrite ltrim_valid in E3, E3s. cbn [fst snd] in E3, E3s. subst r3.
  assert (valid_xsrf (new :: handed) ≠ []) as Hnonempty.
  { unfold valid_xsrf. replace (Z.to_nat (ss_XsrfRequestQueueDepth ss + 1)) with (S (Z.to_nat (ss_XsrfRequestQueueDepth ss))) by lia. done. }
  pose proof (call_reply (client_Expire ttl) kx t s3) as E4. pose proof (call_same (client_Expire ttl) kx t s3) as E4s.
  pose proof (call_other (client_Expire ttl) kx kj t s3 (not_eq_sym Hne)) as E4o.
  destruct (call (client_Expire ttl) kx t s3) as [r4 s4]. cbn [fst snd client_Expire exec] in *. subst r4. exists s4. split; [done|].
  rewrite E3s in E4s. unfold list_entry in E4s. destruct (valid_xsrf (new :: handed)) as [|v vs] eqn:Hv; [done|]. cbn [e_value] in E4s.
  rewrite decide_False in E4s by (rewrite Hsec; Z.to_euclidean_division_equations; lia). split.
  - exists (session_json sess), (t + formatMs ttl)%Z. fold kj. rewrite E4o, E3o, E2o, E1s. split_and!; [done| |apply law_session].
    rewrite Hms, Ht. unfold ttl. Z.to_euclidean_division_equations. lia.
  - eexists. fold kx. rewrite E4s, Hv. split; [done|]. rewrite Hsec, Ht. unfold ttl. Z.to_euclidean_division_equations. lia.
Qed.

(** ** Requests *)

Lemma redis_up {A} (f : script R A) (w : aworld R) r s :
  aw_links w = [] → f (aw_redis_now w) (aw_redis w) = (r, s) → redis_call_out f w = (Ok r, set_redis s w).
Proof. intros Hl Hf. unfold redis_call_out, next_link. by rewrite Hl, Hf. Qed.

Lemma bind_run {A B} (m : aop A) (f : A → aop B) (w : aworld R) a w' : m w = (Ok a, w') → (m ≫= f) w = f a w'.
Proof. intros Hm. unfold mbind, aop_bind. by rewrite Hm. Qed.

Section one_session.
Context (id actorId : string) (expires : Z) (row : DbActor) (c : string).
Hypothesis id_nonempty : id ≠ "".
Hypothesis actor_nonempty : actorId ≠ "".
Hypothesis expires_later : (0 < expires)%Z.
Hypothesis cookie_ok : GetSessionCookieId (mkSessionId id actorId) = Some c.

Lemma tryRead_run handed (w : aworld R) :
  aw_links w = [] → held id actorId expires handed (aw_redis w) (aw_redis_now w) → (aw_now w ≤ expires)%Z →
  ∃ s, tryReadSessionFromRedis id w = (Ok (Some (mkSession id actorId (valid_xsrf handed) expires)), set_redis s w) ∧
    held id actorId expires handed s (aw_redis_now w).
Proof.
  intros Hl Hh Hnow. destruct (read_held _ _ _ _ _ _ Hh) as (j & s & Hr & Hj & Hh'). exists s. split; [|done].
  unfold tryReadSessionFromRedis. rewrite (bind_run _ _ _ _ _ (redis_up _ _ _ _ Hl Hr)). rewrite Hj.
  assert (session_IsValid (mkSession id actorId [] expires) = true) as ->.
  { unfold session_IsValid. cbn. rewrite !bool_decide_false; [done|unfold zero_time; lia|done|done]. }
  cbn [negb]. rewrite (bind_run clock _ _ (aw_now w) (set_redis s w)) by done.
  assert (session_IsExpired (aw_now w) (mkSession id actorId [] expires) = false) as ->; [|done].
  unfold session_IsExpired. cbn. apply Z.ltb_ge. done.
Qed.

Lemma extend_run sess handed (w : aworld R) :
  aw_links w = [] → (aw_redis_now w = aw_now w `div` 1000000)%Z → (aw_now w ≤ s_ExpiresAt sess - 2000000000)%Z →
  (Redis.lookup (aw_redis w) (aw_redis_now w) (getRedisXsrfKey (s_Id sess)) = None ∧ handed = [] ∨
   ∃ x, Redis.lookup (aw_redis w) (aw_redis_now w) (getRedisXsrfKey (s_Id sess)) = Some (mkEntry (VList (valid_xsrf handed)) x)) →
  let new := new_uuid (aw_fresh w) in
  ∃ s, extendSession cfg sess w = (Ok tt, set_response (Some new) (aw_cookies w) (set_redis s (set_fresh (S (aw_fresh w)) w))) ∧
    held (s_Id sess) (s_ActorId sess) (s_ExpiresAt sess) (new :: handed) s (aw_redis_now w).
Proof.
  intros Hl Hc Hnow Hx new. destruct (write_held sess new handed (aw_redis w) (aw_redis_now w) (aw_now w) Hc Hnow Hx) as (s & Hw & Hh).
  exists s. split; [|done]. unfold extendSession, session_service. rewrite with_sessions.
  rewrite (bind_run (mret ss) _ _ ss w) by done. rewrite (bind_run next_fresh _ _ (aw_fresh w) (set_fresh (S (aw_fresh w)) w)) by done. cbn zeta. fold new.
  rewrite (bind_run clock _ _ (aw_now w) (set_fresh (S (aw_fresh w)) w)) by done.
  rewrite (bind_run _ _ _ (Ok tt) (set_redis s (set_fresh (S (aw_fresh w)) w))); [done|]. by apply redis_up.
Qed.

(** A request without a token, with the cookie and, where one is needed, one
    of the latest XSRF values. *)
Definition session_request (handed : list string) (x : bool) (r : Request) : Prop :=
  request_token r = Ok "" ∧ rq_cookie r = Some c ∧
  (x = true → rq_Method r ≠ "GET" → rq_xsrf r ≠ "" ∧ rq_xsrf r ∈ valid_xsrf handed).

Definition session_auth : RequestAuth := mkRequestAuth (Some id) (Some (actor_of row)) [].

Lemma request_run handed x r (w : aworld R) :
  aw_links w = [] → (aw_redis_now w = aw_now w `div` 1000000)%Z → (aw_now w ≤ expires - 2000000000)%Z →
  held id actorId expires handed (aw_redis w) (aw_redis_now w) → live_actor actorId (aw_store w) = Some row → session_request handed x r →
  ∃ w', establishAuthFromRequest cfg x r w = (Ok session_auth, w') ∧ aw_xsrf w' = Some (new_uuid (aw_fresh w)) ∧
    aw_store w' = aw_store w ∧ aw_now w' = aw_now w ∧ aw_redis_now w' = aw_redis_now w ∧
    held id actorId expires (new_uuid (aw_fresh w) :: handed) (aw_redis w') (aw_redis_now w').
Proof.
  intros Hl Hc Hnow Hh Hrow (Ht & Hck & Hx). unfold establishAuthFromRequest. rewrite Ht. rewrite (decide_False (P := "" ≠ "")) by tauto.
  set (w0 := set_cache newActorCache w). rewrite (bind_run (mret _) _ _ NewUnauthenticatedRequestAuth w0) by done.
  unfold establishAuthFromSession. rewrite supports, Hck, (cookie_roundtrip _ _ cookie_ok). cbn [negb sid_Id sid_ActorId].
  rewrite decide_False by done. destruct (tryRead_run handed w0 Hl Hh) as (s1 & Hrd & Hh1); [cbn; lia|].
  rewrite (bind_run _ _ _ _ _ Hrd). cbn [s_Id s_ActorId]. rewrite !(decide_False (P := _ ≠ _)) by tauto.
  cbn [ra_actor NewUnauthenticatedRequestAuth]. set (w1 := set_redis s1 w0).
  rewrite (bind_run _ _ _ tt w1).
  2: { destruct x; [|done]. cbn [andb]. case_bool_decide as Hm; [done|]. cbn [negb]. destruct (Hx eq_refl Hm) as [Hne Hin].
       rewrite decide_False by done. cbn [s_ValidXsrfValues]. by rewrite bool_decide_true. }
  rewrite (bind_run (cache_GetById actorId) _ _ None w1) by done.
  set (w2 := set_cache (mkCache (<[externalIdKey (da_Namespace row) (da_ExternalId row) := row]> ∅)
                          (if decide (da_Id row = "") then ∅ else <[da_Id row := row]> ∅)) (set_store (aw_store w) w1)).
  rewrite (bind_run _ _ _ row w2).
  2: { rewrite (bind_run _ _ _ (Ok row) (set_store (aw_store w) w1)); [by rewrite (bind_run (cache_Put row) _ _ tt w2)|].
       unfold actor_call, db_call, next_link. rewrite has_db. cbn [negb aw_links w1 set_redis w0 set_cache]. rewrite Hl.
       unfold GetActor. cbn [aw_store w1 w0 set_redis set_cache]. by rewrite Hrow. }
  destruct (extend_run (mkSession id actorId (valid_xsrf handed) expires) handed w2) as (s2 & He & Hh2); [done|done|done| |].
  { right. destruct Hh1 as [_ (x0 & Hx0 & _)]. exists (Some x0). done. }
  rewrite (bind_run _ _ _ _ _ He). eexists. split; [reflexivity|]. by split_and!.
Qed.

(** Every request in turn, at times before the last two seconds and with no
    failing call, is authenticated and gets a new XSRF value. *)
Fixpoint serves (handed : list string) (es : list timed_event) (w : aworld R) : Prop :=
  match es with
  | [] => True
  | e :: es =>
      ∀ x r, te_event e = EvRequest x r → te_links e = [] → (te_redis_now e = te_now e `div` 1000000)%Z →
        (aw_now w ≤ te_now e ≤ expires - 2000000000)%Z → session_request handed x r →
        ∃ w' new, establishAuthFromRequest cfg x r (begin_request e w) = (Ok session_auth, w') ∧ aw_xsrf w' = Some new ∧ serves (new :: handed) es w'
  end.

Lemma serves_held handed es (w : aworld R) :
  (aw_redis_now w = aw_now w `div` 1000000)%Z → held id actorId expires handed (aw_redis w) (aw_redis_now w) →
  live_actor actorId (aw_store w) = Some row → serves handed es w.
Proof.
  revert handed w. induction es as [|e es IH]; intros handed w Hc Hh Hrow; [done|]. cbn [serves]. intros x r He Hl Hce [Hle Hend] Hr.
  assert (held id actorId expires handed (aw_redis w) (te_redis_now e)) as Hh'.
  { eapply held_later; [done|rewrite Hc, Hce; by apply Z.div_le_mono|]. rewrite Hce. Z.to_euclidean_division_equations. lia. }
  destruct (request_run handed x r (begin_request e w) Hl Hce Hend Hh' Hrow Hr) as (w' & Hrun & Hxs & Hst & Hn & Hrn & Hh2).
  exists w', (new_uuid (aw_fresh w)). split_and!; [done|done|]. apply IH.
  - by rewrite Hn, Hrn.
  - exact Hh2.
  - by rewrite Hst.
Qed.

(** After the session ended nobody is authenticated by the cookie. *)
Lemma ended_run ra (w w' : aworld R) u e x r :
  aw_links w = [] → IsSession ra = true → ra_sessionId ra = Some id → EndSession cfg ra w = (Ok u, w') →
  te_links e = [] → (aw_redis_now w ≤ te_redis_now e)%Z → request_token r = Ok "" → rq_cookie r = Some c →
  (establishAuthFromRequest cfg x r (begin_request e w')).1 = Ok NewUnauthenticatedRequestAuth.
Proof.
  intros Hl His Hra Hend Hle Ht Htok Hck. unfold EndSession in Hend. rewrite Hra in Hend. unfold IsSession, IsAuthenticated in His.
  destruct (ra_actor ra); [|done]. apply bind_Ok in Hend as (u1 & w1 & Hd & Hcl).
  assert (Redis.lookup (aw_redis w1) (aw_redis_now w) (getRedisSessionJsonKey id) = None) as Hnone.
  { apply bind_Ok in Hd as (r1 & w2 & (Hf & _)%redis_call_Ok & Hd). destruct r1; [done|]. injection Hd as _ <-.
    pose proof (call_same DEL (getRedisSessionJsonKey id) (aw_redis_now w) (aw_redis w)) as D1. destruct (call DEL (getRedisSessionJsonKey id) _ _) as [d1 s1].
    pose proof (call_other DEL (getRedisXsrfKey id) (getRedisSessionJsonKey id) (aw_redis_now w) s1 (not_eq_sym (session_keys_differ id id))) as D2.
    destruct (call DEL (getRedisXsrfKey id) _ s1) as [d2 s2]. cbn in D1, D2. injection Hf as _ <-. by rewrite D2. }
  assert (aw_redis w' = aw_redis w1) as Hr'.
  { apply bind_Ok in Hcl as (ss' & w2 & Hs & Hcl). unfold session_service in Hs. rewrite with_sessions in Hs. injection Hs as _ <-. by injection Hcl as _ <-. }
  unfold establishAuthFromRequest. rewrite Htok. rewrite (decide_False (P := "" ≠ "")) by tauto. set (w0 := set_cache newActorCache (begin_request e w')).
  rewrite (bind_run (mret _) _ _ NewUnauthenticatedRequestAuth w0) by done. unfold establishAuthFromSession.
  rewrite supports, Hck, (cookie_roundtrip _ _ cookie_ok). cbn [negb sid_Id]. rewrite decide_False by done.
  assert (∃ s, tryReadSessionFromRedis id w0 = (Ok None, set_redis s w0)) as [s Hrd]; [|by rewrite (bind_run _ _ _ _ _ Hrd)].
  pose proof (call_reply GET (getRedisSessionJsonKey id) (te_redis_now e) (aw_redis w')) as E1.
  rewrite Hr', (lookup_missing _ _ _ _ Ht Hnone) in E1. rewrite <- Hr' in E1.
  assert (∃ s, read_pipeline id (te_redis_now e) (aw_redis w') = (Ok None, s)) as [s Hs].
  { unfold read_pipeline. destruct (call GET _ _ _) as [r1 s1]. cbn in E1. subst r1. destruct (call LRANGE_all _ _ s1) as [r2 s2]. by exists s2. }
  exists s. unfold tryReadSessionFromRedis. by rewrite (bind_run _ _ _ _ _ (redis_up _ w0 _ _ Hle Hs)).
Qed.
End one_session.

(** C11: A session serves its owner and nobody after it ended.  When Redis and
    the database answer, an authenticated actor gets a session of at least two
    seconds: the response has a cookie and an XSRF value, and from then on every
    request of a sequence, in the order of the clock and before the last two
    seconds of the session, that presents the cookie and, where one is needed,
    one of the latest values it was handed is authenticated as the live actor
    with the session's id and is handed a new value.  Whenever the session is
    ended, later requests with the cookie are not authenticated by it. *)
Theorem session_serves ra actor row (w : aworld R) :
  let id := new_session_id (aw_fresh w) in
  let expires := (aw_now w + ss_SessionTimeout ss)%Z in
  aw_links w = [] → (0 ≤ aw_now w)%Z → (aw_redis_now w = aw_now w `div` 1000000)%Z → (2000000000 ≤ ss_SessionTimeout ss)%Z →
  ra_actor ra = Some actor → ra_sessionId ra = None → act_Id actor ≠ "" → live_actor (act_Id actor) (aw_store w) = Some row →
  id ≠ "" → Redis.lookup (aw_redis w) (aw_redis_now w) (getRedisXsrfKey id) = None →
  encrypt_global (sid_json (mkSessionId id (act_Id actor))) ≠ None →
  ∃ w1 cookie new,
    EstablishSession cfg ra w = (Ok (SetSessionId ra (Some id)), w1) ∧ aw_cookies w1 = cookie :: aw_cookies w ∧ aw_xsrf w1 = Some new ∧
    (∀ es, serves id expires row (ck_Value cookie) [new] es w1) ∧
    (∀ ra' w2 u w3 e x r, aw_links w2 = [] → IsSession ra' = true → ra_sessionId ra' = Some id → EndSession cfg ra' w2 = (Ok u, w3) →
       te_links e = [] → (aw_redis_now w2 ≤ te_redis_now e)%Z → request_token r = Ok "" → rq_cookie r = Some (ck_Value cookie) →
       (establishAuthFromRequest cfg x r (begin_request e w3)).1 = Ok NewUnauthenticatedRequestAuth).
Proof.
  intros id expires Hl H0 Hc Hto Ha Hsid Hact Hrow Hid Hx Henc. set (sess := mkSession id (act_Id actor) [] expires).
  assert (∃ c, GetSessionCookieId (mkSessionId id (act_Id actor)) = Some c) as [c Hck].
  { unfold GetSessionCookieId. destruct (encrypt_global _) as [e|]; [|done]. by eexists. }
  set (w0 := set_fresh (S (aw_fresh w)) w).
  destruct (extend_run sess [] w0 Hl Hc) as (s & Hext & Hheld); [cbn; lia|by left|].
  set (new := new_uuid (aw_fresh w0)) in *. set (w1 := set_response _ _ _) in Hext.
  set (cookie := mkCookie c (if decide (ss_SessionTimeout ss = 0)%Z then 0 else ((expires - aw_now w) ÷ 1000000000))%Z true (cfg_IsHttps cfg)).
  exists (set_response (Some new) (cookie :: aw_cookies w) w1), cookie, new. split_and!.
  - unfold EstablishSession. rewrite Ha, supports, with_sessions, Hsid. cbn [negb]. rewrite (bind_run (mret None) _ _ None w) by done.
    rewrite (bind_run _ _ _ sess w0) by done. rewrite (bind_run _ _ _ _ _ Hext).
    rewrite (bind_run _ _ _ tt (set_response (Some new) (cookie :: aw_cookies w) w1)); [done|].
    unfold setSessionCookie, session_service. rewrite with_sessions. rewrite (bind_run (mret ss) _ _ ss w1) by done.
    rewrite (bind_run clock _ _ (aw_now w) w1) by done. unfold GetSessionId. cbn [s_Id s_ActorId sess]. rewrite Hck. done.
  - done.
  - done.
  - intros es. apply (serves_held id (act_Id actor) expires row c Hid Hact); [lia|done..].
  - intros ra' w2 u w3 e x r Hl2 His Hra' Hend Hle Ht Htok Hcookie.
    by apply (ended_run id (act_Id actor) c Hid Hck ra' w2 w3 u e x r).
Qed.
End sessions.
