(* ===== verification/AuthExamples.v ===== *)
(** * Executions of authentication

    An instance of what authentication calls, with the laws of file
    AuthSessions, and concrete requests: that the theorems of files AuthSafety
    and AuthSessions apply, and where restrictions are lost. *)

From S2P Require Import Prelude GoNumbers GoStrings Namespace Permissions Labels Redis Actors AuthService AuthSafety AuthSessions.
Open Scope string_scope.
Open Scope list_scope.

(** ** An instance *)

(** Values written as the digits of their codes. *)
Definition as_digits {A} `{Countable A} (a : A) : string := pos_digits (encode a).
Definition of_digits {A} `{Countable A} (s : string) : option A := decode (digits_pos s).

Lemma of_digits_as_digits {A} `{Countable A} (a : A) : of_digits (as_digits a) = Some a.
Proof. unfold of_digits, as_digits. by rewrite digits_pos_digits, decode_encode. Qed.

Definition all_of_team : list Permission := PermissionsSingle "root.team" "*" "*".
Definition only_reading : list Permission := PermissionsSingle "root.team" "connections" "get".

Definition alice_claim (permissions : list Permission) : Actor := mkActor "" "" "alice" "root.team" ∅ ∅ permissions.

(** The tokens there are: of the system for alice, restricted to reading; of
    alice herself, who says what she may do; of the system, with an actor. *)
Definition tokens : gmap string AuthProxyClaims :=
  {[ "restricted" := mkClaims "api" "alice" ["api"] (Some 100000000000)%Z None "root.team" None false only_reading true false (Some "non_1");
     "self" := mkClaims "" "alice" ["api"] None None "root.team" (Some (alice_claim AllPermissions)) false [] false true None;
     "system" := mkClaims "api" "alice" ["api"] None None "root.team" (Some (alice_claim all_of_team)) false [] true false None ]}.

Definition signer (token : string) : VerifyingKey :=
  if decide (token = "self") then VerifyPublic "alice-public" else VerifyShared "aes".

Definition verifying_key_eqb (k k' : VerifyingKey) : bool :=
  match k, k' with
  | VerifyShared a, VerifyShared b => bool_decide (a = b)
  | VerifyPublic a, VerifyPublic b => bool_decide (a = b)
  | _, _ => false
  end.

#[local] Instance example_external : AuthExternal := {|
  jwt_decode token := tokens !! token;
  jwt_signed token k := verifying_key_eqb k (signer token);
  jwt_registered now c := negb (IsExpired now c);
  jwt_sign _ _ := None;
  current_version k := Some k;
  load_public_key s := Some s;
  decrypt_string ef := Some (ef_Data ef);
  key_of_json s := Some (KeyPublicPrivate s);
  sid_json s := as_digits (sid_Id s, sid_ActorId s);
  sid_of_json s := '(i, a) ← (of_digits s : option (string * string)); Some (mkSessionId i a);
  encrypt_global s := Some (mkEncryptedField "dek" s);
  ef_json e := as_digits (ef_ID e, ef_Data e);
  ef_of_json s := '(i, d) ← (of_digits s : option (string * string)); Some (mkEncryptedField i d);
  base64 s := s;
  base64_decode s := Some s;
  session_json s := as_digits (s_Id s, s_ActorId s, s_ExpiresAt s);
  session_of_json s := '(i, a, e) ← (of_digits s : option (string * string * Z)); Some (mkSession i a [] e);
  new_actor_id n := "act_" +:+ pretty n;
  new_session_id n := "ses_" +:+ pretty n;
  new_uuid n := "uuid-" +:+ pretty n;
  visit_labels := map_to_list
|}.

#[local] Instance example_laws : AuthExternalLaws.
Proof.
  split; cbn [sid_json sid_of_json encrypt_global ef_json ef_of_json base64 base64_decode session_json session_of_json decrypt_string example_external].
  - intros x e [= <-]. by rewrite of_digits_as_digits.
  - done.
  - intros [i a]. by rewrite of_digits_as_digits.
  - intros [i a x e]. by rewrite of_digits_as_digits.
Qed.

Definition example_service : SessionService := mkSessionService 60000000000 2.
Definition with_service (ss : SessionService) : AuthConfig := mkAuthConfig "api" None "aes" true true true (Some ss) true.
Definition example_config : AuthConfig := with_service example_service.

(** Alice may do everything in her namespace and has a key. *)
Definition alice : DbActor := mkDbActor "act_1" "root.team" "" "alice" all_of_team ∅ ∅ (Some (mkEncryptedField "dek" "alice-public")) 0 0 None None.

Definition example_store : store := (CreateActor map_to_list 1 alice (mkStore ∅ {[ "root.team" := mkNamespaceRow ∅ None ]})).2.

Lemma example_store_ok : store_ok example_store.
Proof. apply CreateActor_ok, empty_store_ok. Qed.

(** The world at a second. *)
Definition world_at (second : Z) (st : store) : aworld (gmap string entry) :=
  mkWorld st ∅ ∅ newActorCache None [] [] 0 (second * 1000000000) (second * 1000).

Definition get_request (token : string) : Request := mkRequest "GET" token "" "" None.
Definition post_request (xsrf cookie : string) : Request := mkRequest "POST" "" "" xsrf (Some cookie).

Definition at_second (second : Z) (r : Request) : timed_event := mkTimed (second * 1000000000) (second * 1000) [] (EvRequest true r).

(** The authentication and the world after a request, unauthenticated if it was
    refused. *)
Definition request (cfg : AuthConfig) (e : timed_event) (w : aworld (gmap string entry)) : RequestAuth * aworld (gmap string entry) :=
  match run_event cfg e w with
  | (Some (_, ra), w') => (ra, w')
  | (None, w') => (NewUnauthenticatedRequestAuth, w')
  end.

Definition first_cookie (w : aworld (gmap string entry)) : string := match aw_cookies w with c :: _ => ck_Value c | [] => "" end.
Definition xsrf_of (w : aworld (gmap string entry)) : string := default "" (aw_xsrf w).

(** A token at second 1, and then a session. *)
Definition session_of (cfg : AuthConfig) (token : string) (w : aworld (gmap string entry)) : RequestAuth * aworld (gmap string entry) :=
  let '(ra, w1) := request cfg (at_second 1 (get_request token)) w in
  match EstablishSession cfg ra w1 with (Ok ra', w2) => (ra', w2) | (Err _, w2) => (NewUnauthenticatedRequestAuth, w2) end.

Definition may (ra : RequestAuth) (namespace verb : string) : bool := Allows no_templates (Some ra) namespace "connections" verb "".

(** ** The theorems apply *)

Lemma request_auth_sound_witness :
  let r := get_request "restricted" in
  ∃ ra w', establishAuthFromRequest example_config true r (world_at 1 example_store) = (Ok ra, w') ∧
    token_grants example_config r (world_at 1 example_store) w' ra.
Proof.
  intros r. destruct (establishAuthFromRequest example_config true r (world_at 1 example_store)) as [[e|ra] w'] eqn:He; [vm_compute in He; discriminate|].
  exists ra, w'. split; [done|].
  destruct (request_auth_sound example_config eq_refl eq_refl true r (world_at 1 example_store) ra w') as [H|[H _]].
  - apply example_store_ok.
  - exact He.
  - vm_compute in He. injection He as <- _. reflexivity.
  - exact H.
  - discriminate H.
Defined.

(** The same token three times; the first time its nonce is not committed. *)
Definition three_times : list timed_event :=
  [mkTimed 1000000000 1000 [] (EvUncommitted true false true (get_request "restricted"));
   at_second 2 (get_request "restricted"); at_second 3 (get_request "restricted")].

Lemma nonce_token_once_witness :
  (accepted example_config "restricted" three_times (world_at 0 example_store) ≤ 1 + length (List.filter (lost_record "restricted") three_times))%nat ∧
  accepted example_config "restricted" three_times (world_at 0 example_store) = 2%nat ∧
  (accepted example_config "restricted" (tail three_times) (world_at 0 example_store) ≤ 1 + length (List.filter (lost_record "restricted") (tail three_times)))%nat ∧
  accepted example_config "restricted" (tail three_times) (world_at 0 example_store) = 1%nat.
Proof.
  split_and!; [|vm_compute; reflexivity| |vm_compute; reflexivity];
    (eapply (nonce_token_once example_config eq_refl eq_refl "restricted" _ "non_1" _ 0);
      [vm_compute; reflexivity|reflexivity|discriminate|apply example_store_ok|repeat constructor; vm_compute; discriminate]).
Defined.

Lemma session_serves_witness :
  ∃ row w1 cookie new,
    EstablishSession example_config (mkRequestAuth None (Some (actor_of row)) []) (world_at 1 example_store) =
      (Ok (mkRequestAuth (Some "ses_0") (Some (actor_of row)) []), w1) ∧
    serves example_config example_service "ses_0" 61000000000 row (ck_Value cookie) [new] [at_second 2 (post_request new (ck_Value cookie))] w1.
Proof.
  destruct (live_actor "act_1" example_store) as [row|] eqn:Hrow; [|vm_compute in Hrow; discriminate].
  assert (act_Id (actor_of row) = "act_1") as Hid by (vm_compute in Hrow; injection Hrow as <-; reflexivity).
  destruct (session_serves example_config example_service eq_refl eq_refl eq_refl ltac:(vm_compute; discriminate)
              (mkRequestAuth None (Some (actor_of row)) []) (actor_of row) row (world_at 1 example_store)) as (w1 & cookie & new & He & _ & _ & Hs & _).
  - reflexivity.
  - vm_compute. discriminate.
  - reflexivity.
  - vm_compute. discriminate.
  - reflexivity.
  - reflexivity.
  - rewrite Hid. discriminate.
  - rewrite Hid. exact Hrow.
  - vm_compute. discriminate.
  - vm_compute. reflexivity.
  - discriminate.
  - exists row, w1, cookie, new. split; [exact He|apply Hs].
Defined.

(** ** Where restrictions are lost *)

(** Five places where authentication gives more, or less, than its comments
    say.  A session started with a token that is restricted to reading lets its
    owner do all that the actor may: the restriction, which the token's comment
    says is intersected with the actor's permissions, is not kept.  An actor
    that signs its own token can name any permissions for itself: they are
    stored and it has them from then on.  A deleted actor is authenticated by a
    token that describes it, though no lookup finds it.  With a session timeout
    of 0, which stands for a cookie that lasts as long as the browser's session,
    the session has expired a nanosecond later, while its record stays in Redis
    for ever.  With a queue of two XSRF values three are accepted. *)
Theorem auth_defects :
  (let '(ra, w) := request example_config (at_second 1 (get_request "restricted")) (world_at 0 example_store) in
   let w1 := (session_of example_config "restricted" (world_at 0 example_store)).2 in
   may ra "root.team" "delete" = false ∧
   may (request example_config (at_second 2 (post_request (xsrf_of w1) (first_cookie w1))) w1).1 "root.team" "delete" = true) ∧
  (may (mkRequestAuth None (Some (actor_of alice)) []) "root.other" "delete" = false ∧
   let '(ra, w) := request example_config (at_second 1 (get_request "self")) (world_at 0 example_store) in
   may ra "root.other" "delete" = true ∧ (da_Permissions <$> live_actor "act_1" (aw_store w)) = Some AllPermissions) ∧
  (let st := (DeleteActor 5 "act_1" example_store).2 in
   let ra := (request example_config (at_second 1 (get_request "system")) (world_at 0 st)).1 in
   live_actor "act_1" st = None ∧ (act_Id <$> ra_actor ra) = Some "act_1" ∧ may ra "root.team" "delete" = true) ∧
  (let cfg := with_service (mkSessionService 0 2) in
   let '(ra, w) := session_of cfg "restricted" (world_at 0 example_store) in
   let r := post_request (xsrf_of w) (first_cookie w) in
   ra_sessionId ra = Some "ses_0" ∧ map ck_MaxAge (aw_cookies w) = [0%Z] ∧
   (request cfg (mkTimed 1000000001 1001 [] (EvRequest false r)) w).1 = NewUnauthenticatedRequestAuth ∧
   (e_expire <$> aw_redis w !! getRedisSessionJsonKey "ses_0") = Some None) ∧
  (let w1 := (session_of example_config "system" (world_at 0 example_store)).2 in
   let get := mkRequest "GET" "" "" "" (Some (first_cookie w1)) in
   let w2 := (request example_config (at_second 2 get) w1).2 in
   let w3 := (request example_config (at_second 3 get) w2).2 in
   ss_XsrfRequestQueueDepth example_service = 2%Z ∧ bool_decide (NoDup [xsrf_of w1; xsrf_of w2; xsrf_of w3]) = true ∧
   map (λ x, IsAuthenticated (request example_config (at_second 4 (post_request x (first_cookie w1))) w3).1)
     [xsrf_of w1; xsrf_of w2; xsrf_of w3] = [true; true; true]).
Proof. vm_compute. repeat split. Qed.
