(* ===== verification/NamespaceStore.v ===== *)
(** * The table of namespaces

    [database/namespace.go] and the namespace operations of
    [core/service_namespace.go]: rows, validation, creation with the
    inheritance of state and labels, the chain of ancestors that an ensured
    path gets, keys and their scope, deletion, labels, annotations, and the
    filters of a listing. *)

From S2P Require Import Prelude GoStrings Regex Namespace PermissionValidator Labels LabelSelector Paging Actors ActorList.
Open Scope string_scope.
Open Scope list_scope.

(** ** Rows *)

(** [NamespaceState] is a string type; any string can be stored. *)
Definition NamespaceStateActive : string := "active".
Definition NamespaceStateDestroying : string := "destroying".
Definition NamespaceStateDestroyed : string := "destroyed".

Definition IsValidNamespaceState (state : string) : bool :=
  bool_decide (state = NamespaceStateActive) || bool_decide (state = NamespaceStateDestroying) ||
  bool_decide (state = NamespaceStateDestroyed).

Definition advanceNamespaceState (cur next : string) : string :=
  if decide (cur = "") then next
  else if decide (cur = NamespaceStateActive) then next
  else if decide (cur = NamespaceStateDestroying) then
    if decide (next = NamespaceStateDestroyed) then next else cur
  else if decide (cur = NamespaceStateDestroyed) then cur
  else next.

Record DbNamespace := mkDbNamespace {
  dn_Path : string;
  dn_depth : Z;
  dn_State : string;
  dn_KeyId : option string;
  dn_TargetDataEncryptionKeyId : option string;
  dn_Labels : Labels;
  dn_Annotations : gmap string string;
  dn_CreatedAt : Z;
  dn_UpdatedAt : Z;
  dn_DeletedAt : option Z
}.

(** A row of the table of keys. *)
Record DbKey := mkDbKey {
  dk_Id : string;
  dk_Namespace : string;
  dk_Name : string;
  dk_Usage : string;
  dk_MaterialType : string;
  dk_EncryptedKeyData : option EncryptedField;
  dk_State : string;
  dk_Labels : Labels;
  dk_Annotations : gmap string string;
  dk_CreatedAt : Z;
  dk_UpdatedAt : Z;
  dk_EncryptedAt : option Z;
  dk_DeletedAt : option Z
}.

Definition GlobalKeyID : string := "key_global".

(** The two tables, by primary key. *)
Record ndb := mkNdb {
  db_namespaces : gmap string DbNamespace;
  db_keys : gmap string DbKey
}.

Definition with_namespaces (t : gmap string DbNamespace) (db : ndb) : ndb := mkNdb t (db_keys db).

Definition set_ns_state (state : string) (ns : DbNamespace) : DbNamespace :=
  mkDbNamespace (dn_Path ns) (dn_depth ns) state (dn_KeyId ns) (dn_TargetDataEncryptionKeyId ns) (dn_Labels ns)
    (dn_Annotations ns) (dn_CreatedAt ns) (dn_UpdatedAt ns) (dn_DeletedAt ns).
Definition set_ns_key (key : option string) (ns : DbNamespace) : DbNamespace :=
  mkDbNamespace (dn_Path ns) (dn_depth ns) (dn_State ns) key (dn_TargetDataEncryptionKeyId ns) (dn_Labels ns)
    (dn_Annotations ns) (dn_CreatedAt ns) (dn_UpdatedAt ns) (dn_DeletedAt ns).
Definition set_ns_target (dek : option string) (ns : DbNamespace) : DbNamespace :=
  mkDbNamespace (dn_Path ns) (dn_depth ns) (dn_State ns) (dn_KeyId ns) dek (dn_Labels ns)
    (dn_Annotations ns) (dn_CreatedAt ns) (dn_UpdatedAt ns) (dn_DeletedAt ns).
Definition set_ns_labels (labels : Labels) (ns : DbNamespace) : DbNamespace :=
  mkDbNamespace (dn_Path ns) (dn_depth ns) (dn_State ns) (dn_KeyId ns) (dn_TargetDataEncryptionKeyId ns) labels
    (dn_Annotations ns) (dn_CreatedAt ns) (dn_UpdatedAt ns) (dn_DeletedAt ns).
Definition set_ns_annotations (annotations : gmap string string) (ns : DbNamespace) : DbNamespace :=
  mkDbNamespace (dn_Path ns) (dn_depth ns) (dn_State ns) (dn_KeyId ns) (dn_TargetDataEncryptionKeyId ns) (dn_Labels ns)
    annotations (dn_CreatedAt ns) (dn_UpdatedAt ns) (dn_DeletedAt ns).
Definition set_ns_times (created updated : Z) (deleted : option Z) (ns : DbNamespace) : DbNamespace :=
  mkDbNamespace (dn_Path ns) (dn_depth ns) (dn_State ns) (dn_KeyId ns) (dn_TargetDataEncryptionKeyId ns) (dn_Labels ns)
    (dn_Annotations ns) created updated deleted.
Definition touch (now : Z) (ns : DbNamespace) : DbNamespace := set_ns_times (dn_CreatedAt ns) now (dn_DeletedAt ns) ns.

Definition rootNamespaceKeyID : option string := Some GlobalKeyID.

Definition normalize_ns (ns : DbNamespace) : DbNamespace :=
  mkDbNamespace (dn_Path ns) (DepthOfPath (dn_Path ns))
    (if decide (dn_State ns = "") then NamespaceStateActive else dn_State ns)
    (if decide (dn_Path ns = Root ∧ dn_KeyId ns = None) then rootNamespaceKeyID else dn_KeyId ns)
    (dn_TargetDataEncryptionKeyId ns) (dn_Labels ns) (dn_Annotations ns) (dn_CreatedAt ns) (dn_UpdatedAt ns) (dn_DeletedAt ns).

Inductive ns_invalid : Type :=
  | NsInvalidPath (e : error)
  | NsInvalidState
  | NsInvalidLabels (es : list (string * label_error))
  | NsInvalidAnnotations (es : list annotation_error).

Definition Validate_ns (ns : DbNamespace) : list ns_invalid :=
  (match ValidatePath (dn_Path ns) with Some e => [NsInvalidPath e] | None => [] end) ++
  (if IsValidNamespaceState (dn_State ns) then [] else [NsInvalidState]) ++
  (match ValidateLabels (dn_Labels ns) with [] => [] | es => [NsInvalidLabels es] end) ++
  (match ValidateAnnotations (dn_Annotations ns) with [] => [] | es => [NsInvalidAnnotations es] end).

(** ** Errors and transactions *)

Inductive ns_error : Type :=
  | NsNotFound
  | NsKeyNotFound
  | NsKeyOutOfScope (keyNamespace path : string)
  | NsParentMissing (path parent : string)
  | NsAlreadyExists (path : string)
  | NsDuplicateKey
  | NsNotActive (path : string)
  | NsInvalid (es : list ns_invalid)
  | NsBadPath (e : error)
  | NsPathRequired
  | NsBadLabels (es : list (string * label_error))
  | NsBadAnnotations (es : list annotation_error)
  | NsNotCreated.

(** The errors that wrap [ErrNotFound]. *)
Definition is_not_found (e : ns_error) : bool :=
  match e with NsNotFound | NsKeyNotFound => true | _ => false end.

Definition ntx (A : Type) : Type := ndb → result ns_error A * ndb.

(** An error rolls the transaction back; otherwise it is committed.  The error
    of a commit is assigned after the result was computed, so it is lost. *)
Definition transaction_commit {A} (commits : bool) (f : ntx A) : ntx A := λ db,
  match f db with (Err e, _) => (Err e, db) | (Ok a, db') => (Ok a, if commits then db' else db) end.

Definition transaction {A} (f : ntx A) : ntx A := transaction_commit true f.

Definition ns_live (ns : DbNamespace) : bool := bool_decide (dn_DeletedAt ns = None).

Definition live_ns (path : string) (db : ndb) : option DbNamespace :=
  match db_namespaces db !! path with
  | Some ns => if ns_live ns then Some ns else None
  | None => None
  end.

Definition getNamespaceByPath (path : string) (db : ndb) : result ns_error DbNamespace :=
  match live_ns path db with Some ns => Ok ns | None => Err NsNotFound end.

Definition live_key (id : string) (db : ndb) : option DbKey :=
  match db_keys db !! id with
  | Some k => if decide (dk_DeletedAt k = None) then Some k else None
  | None => None
  end.

Definition validateNamespaceKeyScope (path keyID : string) (db : ndb) : option ns_error :=
  match live_key keyID db with
  | None => Some NsKeyNotFound
  | Some k =>
      if IsSameOrChild (dk_Namespace k) path then None
      else Some (NsKeyOutOfScope (dk_Namespace k) path)
  end.

(** The check when a key is given: [if ns.KeyId != nil]. *)
Definition key_scope_error (path : string) (key : option string) (db : ndb) : option ns_error :=
  match key with Some k => validateNamespaceKeyScope path k db | None => None end.

(** [Insert]: the path is the primary key, of deleted rows too. *)
Definition insert_ns (ns : DbNamespace) : ntx DbNamespace := λ db,
  match db_namespaces db !! dn_Path ns with
  | Some _ => (Err NsDuplicateKey, db)
  | None => (Ok ns, with_namespaces (<[dn_Path ns := ns]> (db_namespaces db)) db)
  end.

(** [Update ... Where path = ?], with or without [deleted_at IS NULL]. *)
Definition update_ns (f : DbNamespace → DbNamespace) (path : string) : ntx unit := λ db,
  match live_ns path db with
  | None => (Err NsNotFound, db)
  | Some ns => (Ok (), with_namespaces (<[path := f ns]> (db_namespaces db)) db)
  end.

(** ** Creation *)

(** The loop over the ancestors: each has to be live, and its state bounds
    that of the new namespace. *)
Fixpoint parent_states (path : string) (ancestors : list string) (state : string) (db : ndb) : result ns_error string :=
  match ancestors with
  | [] => Ok state
  | p :: ancestors =>
      match getNamespaceByPath p db with
      | Err e => Err (if is_not_found e then NsParentMissing path p else e)
      | Ok parent => parent_states path ancestors (advanceNamespaceState state (dn_State parent)) db
      end
  end.

Definition ns_labels_of (path : string) (db : ndb) : Labels :=
  match live_ns path db with Some ns => dn_Labels ns | None => ∅ end.

(** [prefixes[len(prefixes)-2]], if there are two. *)
Definition parent_prefix (prefixes : list string) : option string := last (removelast prefixes).

(** The labels of a new row; [visit] is the order in which the loop visits
    the parent's labels. *)
Definition materialize_ns (visit : Labels → list (string * string)) (prefixes : list string) (ns : DbNamespace) (db : ndb) : Labels :=
  InjectNamespaceSelfImplicitLabels (dn_Path ns)
    match parent_prefix prefixes with
    | Some parentPath =>
        ApplyParentCarryForward (dn_Labels ns) [mkParent NamespaceLabelToken (visit (ns_labels_of parentPath db))]
    | None => dn_Labels ns
    end.

Definition createNamespace (visit : Labels → list (string * string)) (now : Z) (ns0 : DbNamespace) : ntx DbNamespace := λ db,
  let ns := normalize_ns ns0 in
  let prefixes := SplitPathToPrefixes (dn_Path ns) in
  match parent_states (dn_Path ns) (removelast prefixes) (dn_State ns) db with
  | Err e => (Err e, db)
  | Ok state =>
      match getNamespaceByPath (dn_Path ns) db with
      | Ok _ => (Err (NsAlreadyExists (dn_Path ns)), db)
      | Err e =>
          if negb (is_not_found e) then (Err e, db) else
          let ns := set_ns_state state ns in
          match key_scope_error (dn_Path ns) (dn_KeyId ns) db with
          | Some e => (Err e, db)
          | None =>
              insert_ns (set_ns_times now now (dn_DeletedAt ns) (set_ns_labels (materialize_ns visit prefixes ns db) ns)) db
          end
      end
  end.

Definition CreateNamespace (visit : Labels → list (string * string)) (now : Z) (ns0 : DbNamespace) : ntx DbNamespace := λ db,
  let ns := normalize_ns ns0 in
  match Validate_ns ns with
  | [] => transaction (createNamespace visit now ns) db
  | es => (Err (NsInvalid es), db)
  end.

(** [&Namespace{Path: path, State: NamespaceStateActive}] *)
Definition new_namespace (path : string) (labels : Labels) : DbNamespace :=
  mkDbNamespace path 0 NamespaceStateActive None None labels ∅ 0 0 None.

(** The loop of [EnsureNamespaceByPath] at its [i]-th prefix. *)
Fixpoint ensure_prefixes (visit : nat → Labels → list (string * string)) (now : nat → Z) (i : nat) (prefixes : list string) : ntx unit := λ db,
  match prefixes with
  | [] => (Ok (), db)
  | p :: prefixes =>
      match getNamespaceByPath p db with
      | Err e =>
          if is_not_found e then
            match createNamespace (visit i) (now i) (new_namespace p ∅) db with
            | (Err e, db') => (Err e, db')
            | (Ok _, db') => ensure_prefixes visit now (S i) prefixes db'
            end
          else (Err e, db)
      | Ok ns =>
          if decide (dn_State ns = NamespaceStateActive) then ensure_prefixes visit now (S i) prefixes db
          else (Err (NsNotActive p), db)
      end
  end.

Definition EnsureNamespaceByPath (visit : nat → Labels → list (string * string)) (now : nat → Z) (path : string) : ntx unit := λ db,
  match ValidatePath path with
  | Some e => (Err (NsBadPath e), db)
  | None => transaction (ensure_prefixes visit now 0 (SplitPathToPrefixes path)) db
  end.

Definition GetNamespace (path : string) : ntx DbNamespace := λ db, (getNamespaceByPath path db, db).

(** [where path = ?] alone: a deleted row is updated again. *)
Definition DeleteNamespace (now : Z) (path : string) : ntx unit := λ db,
  match db_namespaces db !! path with
  | None => (Err NsNotFound, db)
  | Some ns => (Ok (), with_namespaces (<[path := set_ns_times (dn_CreatedAt ns) now (Some now) ns]> (db_namespaces db)) db)
  end.

Definition SetNamespaceKeyId (now : Z) (path : string) (ekId : option string) : ntx DbNamespace := λ db,
  match transaction (λ db,
    match key_scope_error path ekId db with
    | Some e => (Err e, db)
    | None => update_ns (λ ns, touch now (set_ns_key ekId ns)) path db
    end) db with
  | (Err e, db') => (Err e, db')
  | (Ok _, db') => GetNamespace path db'
  end.

Definition SetNamespaceState (now : Z) (path state : string) : ntx unit :=
  update_ns (λ ns, touch now (set_ns_state state ns)) path.

(** [PurgeSoftDeletedRecords] on the two tables. *)
Definition to_purge (olderThan : Z) (deleted : option Z) : bool :=
  match deleted with Some d => (d <? olderThan)%Z | None => false end.

Definition PurgeSoftDeletedRecords (olderThan : Z) (db : ndb) : ndb :=
  mkNdb (filter (λ kv : string * DbNamespace, to_purge olderThan (dn_DeletedAt kv.2) = false) (db_namespaces db))
        (filter (λ kv : string * DbKey, to_purge olderThan (dk_DeletedAt kv.2) = false) (db_keys db)).

(** ** Labels and annotations *)

(** The label columns of the live rows, as file Labels has them. *)
Definition ns_rows (db : ndb) : Labels.Table :=
  (λ ns, mkRow (NameFromPath (dn_Path ns)) (dn_Path ns) (dn_Labels ns) (dn_UpdatedAt ns)) <$>
  filter (λ kv : string * DbNamespace, dn_DeletedAt kv.2 = None) (db_namespaces db).

Definition label_store_error (e : store_error) : ns_error :=
  match e with
  | ErrNotFound => NsNotFound
  | ErrIdRequired => NsPathRequired
  | ErrInvalidLabels es => NsBadLabels es
  end.

(** [UpdateNamespaceLabels], [PutNamespaceLabels] and [DeleteNamespaceLabels]
    of file Labels on the table; the namespace as it is afterwards. *)
Definition namespace_labels_op (op : user_op) : ntx DbNamespace := λ db,
  match run_op op (ns_rows db) with
  | (Err e, _) => (Err (label_store_error e), db)
  | (Ok _, t) =>
      match live_ns (op_path op) db, t !! op_path op with
      | Some ns, Some row =>
          let ns' := touch (row_updated_at row) (set_ns_labels (row_labels row) ns) in
          (Ok ns', with_namespaces (<[op_path op := ns']> (db_namespaces db)) db)
      | _, _ => (Err NsNotFound, db)
      end
  end.

Definition ns_annotations_in_row (now : Z) (path : string) (f : gmap string string → gmap string string) : ntx DbNamespace := λ db,
  match live_ns path db with
  | None => (Err NsNotFound, db)
  | Some ns =>
      let ns' := touch now (set_ns_annotations (f (dn_Annotations ns)) ns) in
      (Ok ns', with_namespaces (<[path := ns']> (db_namespaces db)) db)
  end.

Definition UpdateNamespaceAnnotations (now : Z) (path : string) (annotations : gmap string string) : ntx DbNamespace := λ db,
  if decide (path = "") then (Err NsPathRequired, db)
  else match ValidateAnnotations annotations with
       | [] => ns_annotations_in_row now path (λ _, annotations) db
       | es => (Err (NsBadAnnotations es), db)
       end.

Definition PutNamespaceAnnotations (now : Z) (path : string) (annotations : gmap string string) : ntx DbNamespace := λ db,
  if decide (path = "") then (Err NsPathRequired, db)
  else if decide (size annotations = 0%nat) then GetNamespace path db
  else match ValidateAnnotations annotations with
       | [] => ns_annotations_in_row now path (λ current, overlay current annotations) db
       | es => (Err (NsBadAnnotations es), db)
       end.

Definition DeleteNamespaceAnnotations (now : Z) (path : string) (keys : list string) : ntx DbNamespace := λ db,
  if decide (path = "") then (Err NsPathRequired, db)
  else if decide (length keys = 0%nat) then GetNamespace path db
  else ns_annotations_in_row now path (λ current, foldl (λ m k, delete k m) current keys) db.

(** [EnsureNamespaceAncestorPath] of [core]: every missing prefix is created
    with the labels, each in a transaction of its own. *)
Fixpoint ensure_ancestors (visit : nat → Labels → list (string * string)) (now : nat → Z) (labels : Labels)
    (i : nat) (prefixes : list string) (final : option DbNamespace) : ntx (option DbNamespace) := λ db,
  match prefixes with
  | [] => (Ok final, db)
  | p :: prefixes =>
      match getNamespaceByPath p db with
      | Ok ns => ensure_ancestors visit now labels (S i) prefixes (Some ns) db
      | Err e =>
          if is_not_found e then
            match CreateNamespace (visit i) (now i) (new_namespace p labels) db with
            | (Err e, db') => (Err e, db')
            | (Ok ns, db') => ensure_ancestors visit now labels (S i) prefixes (Some ns) db'
            end
          else (Err e, db)
      end
  end.

Definition EnsureNamespaceAncestorPath (visit : nat → Labels → list (string * string)) (now : nat → Z)
    (targetNamespace : string) (labels : Labels) : ntx DbNamespace := λ db,
  match ValidatePath targetNamespace with
  | Some e => (Err (NsBadPath e), db)
  | None =>
      match ensure_ancestors visit now labels 0 (SplitPathToPrefixes targetNamespace) None db with
      | (Err e, db') => (Err e, db')
      | (Ok None, db') => (Err NsNotCreated, db')
      | (Ok (Some ns), db') => (Ok ns, db')
      end
  end.

(** [CreateNamespace] of [core]. *)
Definition core_CreateNamespace (visit : Labels → list (string * string)) (now : Z) (path : string) (labels : Labels) : ntx DbNamespace :=
  CreateNamespace visit now (new_namespace path labels).

(** [SetNamespaceKey] and [ClearNamespaceKey] of [core]. *)
Definition SetNamespaceKey (now : Z) (path ekId : string) : ntx DbNamespace := λ db,
  match live_key ekId db with
  | None => (Err NsKeyNotFound, db)
  | Some _ => SetNamespaceKeyId now path (Some ekId) db
  end.

Definition ClearNamespaceKey (now : Z) (path : string) : ntx DbNamespace := SetNamespaceKeyId now path None.

(** ** Listing *)

Record listNamespacesFilters := mkNsFilters {
  nf_LimitVal : Z;
  nf_Offset : Z;
  nf_StatesVal : list string;
  nf_PathPrefixVal : string;
  nf_DepthVal : option Z;
  nf_NamespaceMatchers : list string;
  nf_NameVal : option string;
  nf_OrderBy : option (string * OrderBy);
  nf_IncludeDeletedVal : bool;
  nf_LabelSelectorVal : option string;
  nf_Errors : list error
}.

Definition ListNamespacesBuilder : listNamespacesFilters := mkNsFilters 100 0 [] "" None [] None None false None [].

Definition nf_addError (e : error) (l : listNamespacesFilters) : listNamespacesFilters :=
  mkNsFilters (nf_LimitVal l) (nf_Offset l) (nf_StatesVal l) (nf_PathPrefixVal l) (nf_DepthVal l) (nf_NamespaceMatchers l)
    (nf_NameVal l) (nf_OrderBy l) (nf_IncludeDeletedVal l) (nf_LabelSelectorVal l) (nf_Errors l ++ [e]).
Definition nf_Limit (limit : Z) (l : listNamespacesFilters) : listNamespacesFilters :=
  mkNsFilters (u64 limit) (nf_Offset l) (nf_StatesVal l) (nf_PathPrefixVal l) (nf_DepthVal l) (nf_NamespaceMatchers l)
    (nf_NameVal l) (nf_OrderBy l) (nf_IncludeDeletedVal l) (nf_LabelSelectorVal l) (nf_Errors l).
Definition nf_ForState (state : string) (l : listNamespacesFilters) : listNamespacesFilters :=
  mkNsFilters (nf_LimitVal l) (nf_Offset l) [state] (nf_PathPrefixVal l) (nf_DepthVal l) (nf_NamespaceMatchers l)
    (nf_NameVal l) (nf_OrderBy l) (nf_IncludeDeletedVal l) (nf_LabelSelectorVal l) (nf_Errors l).
Definition nf_ForPathPrefix (prefix : string) (l : listNamespacesFilters) : listNamespacesFilters :=
  mkNsFilters (nf_LimitVal l) (nf_Offset l) (nf_StatesVal l) prefix (nf_DepthVal l) (nf_NamespaceMatchers l)
    (nf_NameVal l) (nf_OrderBy l) (nf_IncludeDeletedVal l) (nf_LabelSelectorVal l) (nf_Errors l).
Definition nf_ForDepth (depth : Z) (l : listNamespacesFilters) : listNamespacesFilters :=
  mkNsFilters (nf_LimitVal l) (nf_Offset l) (nf_StatesVal l) (nf_PathPrefixVal l) (Some depth) (nf_NamespaceMatchers l)
    (nf_NameVal l) (nf_OrderBy l) (nf_IncludeDeletedVal l) (nf_LabelSelectorVal l) (nf_Errors l).
Definition nf_ForChildrenOf (path : string) (l : listNamespacesFilters) : listNamespacesFilters :=
  match ValidatePath path with
  | Some e => nf_addError e l
  | None => nf_ForPathPrefix path (nf_ForDepth (u64 (DepthOfPath path + 1)) l)
  end.
Definition nf_set_matchers (matchers : list string) (l : listNamespacesFilters) : listNamespacesFilters :=
  mkNsFilters (nf_LimitVal l) (nf_Offset l) (nf_StatesVal l) (nf_PathPrefixVal l) (nf_DepthVal l) matchers
    (nf_NameVal l) (nf_OrderBy l) (nf_IncludeDeletedVal l) (nf_LabelSelectorVal l) (nf_Errors l).
Definition nf_ForNamespaceMatcher (matcher : string) (l : listNamespacesFilters) : listNamespacesFilters :=
  match ValidateMatcher matcher with Some e => nf_addError e l | None => nf_set_matchers [matcher] l end.
Definition nf_ForNamespaceMatchers (matchers : list string) (l : listNamespacesFilters) : listNamespacesFilters :=
  match first_invalid_matcher matchers with Some e => nf_addError e l | None => nf_set_matchers matchers l end.
Definition nf_ForName (name : string) (l : listNamespacesFilters) : listNamespacesFilters :=
  match ValidateName name with
  | Some e => nf_addError e l
  | None =>
      mkNsFilters (nf_LimitVal l) (nf_Offset l) (nf_StatesVal l) (nf_PathPrefixVal l) (nf_DepthVal l) (nf_NamespaceMatchers l)
        (Some name) (nf_OrderBy l) (nf_IncludeDeletedVal l) (nf_LabelSelectorVal l) (nf_Errors l)
  end.
Definition nf_SetOrderBy (field : string) (by_ : OrderBy) (l : listNamespacesFilters) : listNamespacesFilters :=
  mkNsFilters (nf_LimitVal l) (nf_Offset l) (nf_StatesVal l) (nf_PathPrefixVal l) (nf_DepthVal l) (nf_NamespaceMatchers l)
    (nf_NameVal l) (Some (field, by_)) (nf_IncludeDeletedVal l) (nf_LabelSelectorVal l) (nf_Errors l).
Definition nf_IncludeDeleted (l : listNamespacesFilters) : listNamespacesFilters :=
  mkNsFilters (nf_LimitVal l) (nf_Offset l) (nf_StatesVal l) (nf_PathPrefixVal l) (nf_DepthVal l) (nf_NamespaceMatchers l)
    (nf_NameVal l) (nf_OrderBy l) true (nf_LabelSelectorVal l) (nf_Errors l).
Definition nf_ForLabelSelector (selector : string) (l : listNamespacesFilters) : listNamespacesFilters :=
  mkNsFilters (nf_LimitVal l) (nf_Offset l) (nf_StatesVal l) (nf_PathPrefixVal l) (nf_DepthVal l) (nf_NamespaceMatchers l)
    (nf_NameVal l) (nf_OrderBy l) (nf_IncludeDeletedVal l) (Some selector) (nf_Errors l).

(** [strings.NewReplacer(`\`, `\\`, `%`, `\%`, `_`, `\_`)] *)
Fixpoint escape_like (s : string) : string :=
  match s with
  | "" => ""
  | String a s =>
      if is_one_of ["\"%char; "%"%char; "_"%char] a then String "\" (String a (escape_like s)) else String a (escape_like s)
  end.

Section namespace_list.
(** [LIKE ... ESCAPE '\'] beside the operators of the dialect. *)
Context {dl : Dialect} (like_escape : string → string → bool).

(** The condition on the path when a prefix is asked for. *)
Definition path_prefix_selects (prefix path : string) : bool :=
  if decide (prefix = "") then true
  else if bool_decide (2 ≤ String.length prefix)%nat && HasSuffix prefix "." then
    bool_decide (path = str_take (String.length prefix - 2) prefix) || dl_like path (prefix +:+ "%")
  else bool_decide (path = prefix) || dl_like path (prefix +:+ String PathSeparator "%").

Definition ns_label_preds (l : listNamespacesFilters) : list label_pred :=
  match nf_LabelSelectorVal l with
  | None => []
  | Some s => match ParseLabelSelector s with
              | Err _ => []
              | Ok selector => ApplyToSqlBuilderWithProvider [] selector dl_provider
              end
  end.

(** The conditions of [applyRestrictions] on a row. *)
Definition ns_selected (l : listNamespacesFilters) (ns : DbNamespace) : bool :=
  row_selected dl_pg_arrow dl_jsonb_exists dl_JSONExtractString dl_json_extract (dn_Labels ns) (ns_label_preds l) &&
  path_prefix_selects (nf_PathPrefixVal l) (dn_Path ns) &&
  match nf_DepthVal l with Some d => bool_decide (dn_depth ns = d) | None => true end &&
  match nf_StatesVal l with [] => true | states => bool_decide (dn_State ns ∈ states) end &&
  (nf_IncludeDeletedVal l || ns_live ns) &&
  selects dl_like (restrictToNamespaceMatchers [] "path" (nf_NamespaceMatchers l)) (λ _, dn_Path ns) &&
  match nf_NameVal l with
  | Some n => bool_decide (dn_Path ns = n) || like_escape (dn_Path ns) ("%" +:+ String PathSeparator (escape_like n))
  | None => true
  end.

(** The rows of the query without the limit; the order of the database or of
    [ORDER BY] is a parameter. *)
Definition ns_query (order : list DbNamespace → list DbNamespace) (l : listNamespacesFilters) (db : ndb) : list DbNamespace :=
  order (List.filter (ns_selected l) (map snd (map_to_list (db_namespaces db)))).
End namespace_list.

(** ** The ancestors of a path *)

(** The proper ancestors of a path, from the root down. *)
Definition ancestors (segs : list string) : list string := map (λ i, render (take i segs)) (seq 0 (length segs)).

Lemma prefixes_ancestors segs : valid_segs segs → SplitPathToPrefixes (render segs) = ancestors segs ++ [render segs].
Proof.
  intros Hs. rewrite SplitPathToPrefixes_render by done. unfold ancestors. rewrite seq_S, map_app. cbn.
  by rewrite take_ge by lia.
Qed.

Lemma removelast_prefixes segs : valid_segs segs → removelast (SplitPathToPrefixes (render segs)) = ancestors segs.
Proof. intros Hs. rewrite prefixes_ancestors by done. apply removelast_last. Qed.

Lemma ancestors_snoc segs x : ancestors (segs ++ [x]) = ancestors segs ++ [render segs].
Proof.
  unfold ancestors. rewrite length_app, Nat.add_1_r, seq_S, map_app. cbn. f_equal.
  - apply map_ext_in. intros i Hi%in_seq. by rewrite take_app_le by lia.
  - by rewrite take_app_length.
Qed.

Lemma elem_of_ancestors segs x : x ∈ ancestors segs ↔ ∃ q, q `prefix_of` segs ∧ q ≠ segs ∧ x = render q.
Proof.
  unfold ancestors. rewrite list_elem_of_fmap. setoid_rewrite elem_of_seq. split.
  - intros (i & -> & Hi). exists (take i segs). split_and!; [apply prefix_take| |done].
    intros Heq. apply (f_equal length) in Heq. rewrite length_take in Heq. lia.
  - intros (q & [r ->] & Hne & ->). exists (length q). rewrite take_app_length, length_app. split; [done|].
    destruct r; [by rewrite app_nil_r in Hne|cbn; lia].
Qed.

Lemma parent_prefix_render segs x : valid_segs (segs ++ [x]) → parent_prefix (SplitPathToPrefixes (render (segs ++ [x]))) = Some (render segs).
Proof. intros Hs. unfold parent_prefix. by rewrite removelast_prefixes, ancestors_snoc, last_snoc. Qed.

Lemma parent_prefix_root : parent_prefix (SplitPathToPrefixes Root) = None.
Proof. reflexivity. Qed.

(** ** States *)

(** How far a namespace is on its way to destruction. *)
Definition state_rank (state : string) : nat :=
  if decide (state = NamespaceStateDestroyed) then 2 else if decide (state = NamespaceStateDestroying) then 1 else 0.

Lemma IsValidNamespaceState_spec s :
  IsValidNamespaceState s = true ↔ s = NamespaceStateActive ∨ s = NamespaceStateDestroying ∨ s = NamespaceStateDestroyed.
Proof. unfold IsValidNamespaceState. rewrite !orb_true_iff, !bool_decide_eq_true. tauto. Qed.

(** Advancing never goes back, and takes the further of the two states. *)
Lemma advance_rank cur next :
  IsValidNamespaceState cur = true → IsValidNamespaceState next = true →
  IsValidNamespaceState (advanceNamespaceState cur next) = true ∧
  state_rank (advanceNamespaceState cur next) = state_rank cur `max` state_rank next.
Proof. rewrite !IsValidNamespaceState_spec. intros [->|[->| ->]] [->|[->| ->]]; cbn; auto. Qed.

(** ** Lookups *)

Lemma live_ns_Some path db ns : live_ns path db = Some ns ↔ db_namespaces db !! path = Some ns ∧ dn_DeletedAt ns = None.
Proof.
  unfold live_ns. destruct (db_namespaces db !! path) as [m|]; [|naive_solver]. unfold ns_live. case_bool_decide; naive_solver.
Qed.

Lemma live_ns_insert path ns db p :
  live_ns p (with_namespaces (<[path := ns]> (db_namespaces db)) db) =
  if decide (p = path) then (if ns_live ns then Some ns else None) else live_ns p db.
Proof.
  unfold live_ns, with_namespaces. cbn. case_decide as Hp.
  - subst. by rewrite lookup_insert_eq.
  - by rewrite lookup_insert_ne.
Qed.

Lemma getNamespaceByPath_Ok path db ns : getNamespaceByPath path db = Ok ns ↔ live_ns path db = Some ns.
Proof. unfold getNamespaceByPath. destruct (live_ns path db); naive_solver. Qed.

Lemma getNamespaceByPath_Err path db e : getNamespaceByPath path db = Err e ↔ e = NsNotFound ∧ live_ns path db = None.
Proof. unfold getNamespaceByPath. destruct (live_ns path db); naive_solver. Qed.

(** The state a new namespace gets from the live ancestors. *)
Lemma parent_states_Ok path anc state db s :
  parent_states path anc state db = Ok s ↔
  ∃ parents, Forall2 (λ p ns, live_ns p db = Some ns) anc parents ∧ s = foldl advanceNamespaceState state (map dn_State parents).
Proof.
  revert state. induction anc as [|p anc IH]; intros state; cbn [parent_states].
  - split; [intros [= <-]; by exists []|]. intros (ps & Hps%Forall2_nil_inv_l & ->). by subst.
  - unfold getNamespaceByPath. destruct (live_ns p db) as [ns|] eqn:Hp.
    + rewrite IH. split; intros (ps & Hps & ->).
      * exists (ns :: ps). by split; [constructor|].
      * inversion Hps as [|? ns' ? ps' Hns' Hps' Hq1 Hq2]; subst. rewrite Hp in Hns'. simplify_eq. by exists ps'.
    + split; [done|]. intros (ps & Hps & _). inversion Hps; subst. congruence.
Qed.

(** With all ancestors active a new namespace keeps its state. *)
Lemma parent_states_active path anc state db :
  (∀ p, p ∈ anc → ∃ ns, live_ns p db = Some ns ∧ dn_State ns = NamespaceStateActive) →
  state = NamespaceStateActive → parent_states path anc state db = Ok NamespaceStateActive.
Proof.
  intros Hanc ->. induction anc as [|p anc IH]; [done|]. cbn [parent_states].
  destruct (Hanc p) as (ns & Hns & Hst); [set_solver|]. unfold getNamespaceByPath. rewrite Hns, Hst.
  apply IH. set_solver.
Qed.

(** ** Creation, on every branch *)

Definition key_in_scope (path : string) (key : option string) (db : ndb) : Prop :=
  match key with
  | None => True
  | Some k => ∃ row, live_key k db = Some row ∧ IsSameOrChild (dk_Namespace row) path = true
  end.

Lemma key_scope_checked path key db :
  key_scope_error path key db = None ↔ key_in_scope path key db.
Proof.
  unfold key_scope_error. destruct key as [k|]; cbn; [|done]. unfold validateNamespaceKeyScope. destruct (live_key k db) as [row|].
  - destruct (IsSameOrChild (dk_Namespace row) path) eqn:Hs; split; try done.
    + intros _. by exists row.
    + intros (? & [= <-] & ?). congruence.
  - split; [done|by intros (? & ? & _)].
Qed.

(** The row written for [ns] when its ancestors leave it in [state]. *)
Definition created_row (visit : Labels → list (string * string)) (now : Z) (ns : DbNamespace) (state : string) (db : ndb) : DbNamespace :=
  let ns := set_ns_state state (normalize_ns ns) in
  set_ns_times now now (dn_DeletedAt ns) (set_ns_labels (materialize_ns visit (SplitPathToPrefixes (dn_Path ns)) ns db) ns).

Definition insert_row_at (row : DbNamespace) (db : ndb) : ndb := with_namespaces (<[dn_Path row := row]> (db_namespaces db)) db.

Lemma createNamespace_Ok visit now ns db row db' :
  createNamespace visit now ns db = (Ok row, db') ↔
  ∃ state, parent_states (dn_Path ns) (removelast (SplitPathToPrefixes (dn_Path ns))) (dn_State (normalize_ns ns)) db = Ok state ∧
    db_namespaces db !! dn_Path ns = None ∧ key_in_scope (dn_Path ns) (dn_KeyId (normalize_ns ns)) db ∧
    row = created_row visit now ns state db ∧ db' = insert_row_at row db.
Proof.
  unfold createNamespace. cbn [dn_Path normalize_ns].
  destruct (parent_states _ _ _ db) as [e|state] eqn:Hps; [split; [done|by intros (? & [=] & _)]|].
  unfold getNamespaceByPath, live_ns. destruct (db_namespaces db !! dn_Path ns) as [old|] eqn:Hold.
  - split; [|by intros (? & _ & [=] & _)]. destruct (ns_live old); [done|]. cbn [is_not_found negb].
    destruct (key_scope_error _ _ db); [done|].
    unfold insert_ns. cbn. by rewrite Hold.
  - cbn [is_not_found negb]. pose proof (key_scope_checked (dn_Path ns) (dn_KeyId (normalize_ns ns)) db) as Hk.
    change (dn_KeyId (set_ns_state state (normalize_ns ns))) with (dn_KeyId (normalize_ns ns)).
    change (dn_Path (set_ns_state state (normalize_ns ns))) with (dn_Path ns).
    destruct (key_scope_error _ _ db) as [e|] eqn:Hm.
    + split; [done|]. intros (? & _ & _ & Hks%Hk & _). done.
    + unfold insert_ns. cbn [dn_Path set_ns_times set_ns_labels set_ns_state normalize_ns]. rewrite Hold. split.
      * intros [= <- <-]. exists state. split_and!; [done..|by apply Hk|done|done].
      * intros (state' & Hs & _ & _ & -> & ->). injection Hs as <-. done.
Qed.

Lemma createNamespace_Err visit now ns db e db' : createNamespace visit now ns db = (Err e, db') → db' = db.
Proof.
  unfold createNamespace, insert_ns. repeat case_match; intros [= <- <-]; done.
Qed.

(** A failing transaction leaves the tables as they were. *)
Lemma transaction_Err {A} (f : ntx A) db e db' : transaction f db = (Err e, db') → db' = db.
Proof. unfold transaction, transaction_commit. destruct (f db) as [[e'|a] db'']; naive_solver. Qed.

Lemma transaction_Ok {A} (f : ntx A) db a db' : transaction f db = (Ok a, db') ↔ f db = (Ok a, db').
Proof. unfold transaction, transaction_commit. destruct (f db) as [[e'|a'] db'']; naive_solver. Qed.

(** ** The chain of ancestors of an ensured path *)

Definition active_at (path : string) (db : ndb) : Prop := ∃ ns, live_ns path db = Some ns ∧ dn_State ns = NamespaceStateActive.

(** Every namespace on the way is active or was never there; a missing root
    needs the global key. *)
Record ensurable (segs : list string) (db : ndb) : Prop := {
  en_way : ∀ p, p ∈ SplitPathToPrefixes (render segs) → active_at p db ∨ db_namespaces db !! p = None;
  en_root : db_namespaces db !! Root = None → key_in_scope Root (Some GlobalKeyID) db
}.

(** The row a missing namespace gets. *)
Definition ensured_row (visit : Labels → list (string * string)) (now : Z) (path : string) (db : ndb) : DbNamespace :=
  created_row visit now (new_namespace path ∅) NamespaceStateActive db.

(** Rows are kept, and the new ones are those of missing prefixes from the
    [i]-th on, each with the labels of its parent as they are afterwards. *)
Record grown (visit : nat → Labels → list (string * string)) (now : nat → Z) (segs : list string) (i : nat) (db db' : ndb) : Prop := {
  gr_keys : db_keys db' = db_keys db;
  gr_kept : ∀ p ns, db_namespaces db !! p = Some ns → db_namespaces db' !! p = Some ns;
  gr_new : ∀ p ns, db_namespaces db' !! p = Some ns → db_namespaces db !! p = None →
    ∃ j, (i ≤ j ≤ length segs)%nat ∧ p = render (take j segs) ∧ ns = ensured_row (visit j) (now j) p db'
}.

Lemma grown_refl visit now segs i db : grown visit now segs i db db.
Proof. split; [done..|]. congruence. Qed.

Lemma live_ns_grown visit now segs i db db' p ns : grown visit now segs i db db' → live_ns p db = Some ns → live_ns p db' = Some ns.
Proof. rewrite !live_ns_Some. intros Hg [Hp Hd]. split; [by eapply gr_kept|done]. Qed.

Section ensure.
Context (visit : nat → Labels → list (string * string)) (now : nat → Z) (segs : list string).
Hypothesis segs_valid : valid_segs segs.

Local Abbreviation way j := (render (take j segs)).

Lemma take_valid j : valid_segs (take j segs).
Proof. rewrite <- (take_drop j segs) in segs_valid. by apply valid_segs_app in segs_valid as [? _]. Qed.

Lemma way_inj j k : (j ≤ length segs)%nat → (k ≤ length segs)%nat → way j = way k → j = k.
Proof.
  intros Hj Hk Heq%render_inj; [|apply take_valid..]. apply (f_equal length) in Heq. rewrite !length_take in Heq. lia.
Qed.

Lemma way_ancestors j : (j ≤ length segs)%nat → ancestors (take j segs) = map (λ k, way k) (seq 0 j).
Proof.
  intros Hj. unfold ancestors. rewrite length_take, Nat.min_l by done. apply map_ext_in. intros k Hk%in_seq.
  by rewrite take_take, Nat.min_l by lia.
Qed.

Lemma way_root j : (j ≤ length segs)%nat → way j = Root → j = 0%nat.
Proof. intros Hj Heq. apply (way_inj j 0); [done|lia|by rewrite Heq]. Qed.

(** The parent's labels, once the parent's row is there. *)
Lemma materialize_stable db db' j :
  (j ≤ length segs)%nat → (∀ k, (k < j)%nat → active_at (way k) db) → (∀ p ns, live_ns p db = Some ns → live_ns p db' = Some ns) →
  ensured_row (visit j) (now j) (way j) db = ensured_row (visit j) (now j) (way j) db'.
Proof.
  intros Hj Hanc Hkeep. unfold ensured_row, created_row. f_equal. f_equal. unfold materialize_ns.
  cbn [dn_Path set_ns_state normalize_ns new_namespace]. f_equal. destruct j as [|j]; [done|].
  assert (take (S j) segs = take j segs ++ [nth j segs ""]) as Hsn.
  { destruct (lookup_lt_is_Some_2 segs j) as [x Hx]; [lia|]. rewrite (take_S_r _ _ x) by done.
    do 2 f_equal. symmetry. by apply nth_lookup_Some. }
  rewrite Hsn, parent_prefix_render by (rewrite <- Hsn; apply take_valid). unfold ns_labels_of.
  destruct (Hanc j) as (ns & Hns & _); [lia|]. by rewrite Hns, (Hkeep _ _ Hns).
Qed.

Lemma root_key_of j : (j ≤ length segs)%nat → dn_KeyId (normalize_ns (new_namespace (way j) ∅)) = if decide (j = 0%nat) then Some GlobalKeyID else None.
Proof.
  intros Hj. cbn. case_decide as Hd; case_decide as Hz; try done.
  - destruct Hd as [Hr _]. by apply way_root in Hr.
  - subst. exfalso. by apply Hd.
Qed.

Lemma new_namespace_state path : dn_State (normalize_ns (new_namespace path ∅)) = NamespaceStateActive.
Proof. reflexivity. Qed.

(** A missing prefix is created when its ancestors are active. *)
Lemma create_step j db :
  (j ≤ length segs)%nat → (∀ k, (k < j)%nat → active_at (way k) db) → db_namespaces db !! way j = None →
  (j = 0%nat → key_in_scope Root (Some GlobalKeyID) db) →
  let row := ensured_row (visit j) (now j) (way j) db in
  createNamespace (visit j) (now j) (new_namespace (way j) ∅) db = (Ok row, insert_row_at row db).
Proof.
  intros Hj Hanc Hno Hkey row. apply createNamespace_Ok. exists NamespaceStateActive. split_and!; try done.
  - cbn [dn_Path new_namespace]. rewrite removelast_prefixes by apply take_valid. rewrite way_ancestors by done.
    apply parent_states_active; [|done]. intros p (k & -> & Hk%elem_of_seq)%list_elem_of_fmap. apply Hanc. lia.
  - rewrite root_key_of by done. case_decide as Hz; [|done]. subst. by apply Hkey.
Qed.

Lemma active_insert j k db :
  (j ≤ length segs)%nat → (k ≤ length segs)%nat → 
  active_at (way k) (insert_row_at (ensured_row (visit j) (now j) (way j) db) db) ↔ k = j ∨ active_at (way k) db.
Proof.
  intros Hj Hk. unfold active_at, insert_row_at. cbn [dn_Path ensured_row created_row set_ns_times set_ns_labels set_ns_state normalize_ns new_namespace].
  setoid_rewrite live_ns_insert. case_decide as Hkj.
  - apply way_inj in Hkj; [|done..]. subst. split; [auto|]. intros _. by eexists.
  - split; [by auto|]. by intros [->|?].
Qed.

Lemma lookup_insert_way j k db :
  (j ≤ length segs)%nat → (k ≤ length segs)%nat → k ≠ j →
  db_namespaces (insert_row_at (ensured_row (visit j) (now j) (way j) db) db) !! way k = db_namespaces db !! way k.
Proof.
  intros Hj Hk Hne. unfold insert_row_at. cbn. apply lookup_insert_ne. by intros Heq%way_inj.
Qed.

Lemma grown_step j db db' :
  (j ≤ length segs)%nat → (∀ k, (k < j)%nat → active_at (way k) db) → db_namespaces db !! way j = None →
  grown visit now segs (S j) (insert_row_at (ensured_row (visit j) (now j) (way j) db) db) db' → grown visit now segs j db db'.
Proof.
  intros Hj Hanc Hno Hg. set (row := ensured_row (visit j) (now j) (way j) db) in *.
  assert (∀ p ns, db_namespaces db !! p = Some ns → db_namespaces db' !! p = Some ns) as Hkept.
  { intros p ns Hp. apply (gr_kept _ _ _ _ _ _ Hg). unfold insert_row_at. cbn. rewrite lookup_insert_ne; [done|].
    intros Heq. change (way j = p) in Heq. subst p. congruence. }
  split; [exact (gr_keys _ _ _ _ _ _ Hg)|done|]. intros p ns Hp Hpn. destruct (decide (p = way j)) as [->|Hne].
  - exists j. split_and!; [lia..|done|]. assert (db_namespaces db' !! way j = Some row) as Hrow.
    { apply (gr_kept _ _ _ _ _ _ Hg). unfold insert_row_at. cbn. apply lookup_insert_eq. }
    rewrite Hrow in Hp. injection Hp as <-. apply materialize_stable; [done..|]. intros q m. rewrite !live_ns_Some. intros [??]. by split; [apply Hkept|].
  - destruct (gr_new _ _ _ _ _ _ Hg p ns Hp) as (k & Hk & -> & ->); [|by exists k; split_and!; [lia..|done|done]].
    unfold insert_row_at. cbn. by rewrite lookup_insert_ne.
Qed.

Lemma ensure_loop n : ∀ i db,
  (i + n = S (length segs))%nat → (∀ k, (k < i)%nat → active_at (way k) db) →
  (∀ j, (i ≤ j ≤ length segs)%nat → active_at (way j) db ∨ db_namespaces db !! way j = None) →
  (i = 0%nat → db_namespaces db !! Root = None → key_in_scope Root (Some GlobalKeyID) db) →
  ∃ db', ensure_prefixes visit now i (map (λ k, way k) (seq i n)) db = (Ok (), db') ∧ grown visit now segs i db db' ∧
    ∀ k, (k ≤ length segs)%nat → active_at (way k) db'.
Proof.
  induction n as [|n IH]; intros i db Hn Hanc Hway Hroot.
  { exists db. split_and!; [done|apply grown_refl|]. intros k Hk. apply Hanc. lia. }
  cbn [seq map ensure_prefixes]. unfold getNamespaceByPath. destruct (Hway i) as [Hact|Hno]; [lia|..].
  - destruct Hact as (ns & Hns & Hst). rewrite Hns, decide_True by done.
    destruct (IH (S i) db) as (db' & Hrun & Hg & Hall); [lia| |intros; apply Hway; lia|done|].
    { intros k Hk. destruct (decide (k = i)) as [->|]; [by exists ns|apply Hanc; lia]. }
    exists db'. split_and!; [done| |done]. destruct Hg as [Hk Hkept Hnew]. split; [done..|].
    intros p m Hp Hpn. destruct (Hnew p m Hp Hpn) as (j & Hj & ? & ?). exists j. split_and!; [lia..|done|done].
  - assert (live_ns (way i) db = None) as -> by (unfold live_ns; by rewrite Hno). cbn [is_not_found].
    rewrite create_step; [|lia|done|done|].
    2:{ intros ->. by apply Hroot. }
    destruct (IH (S i) (insert_row_at (ensured_row (visit i) (now i) (way i) db) db)) as (db' & Hrun & Hg & Hall); [lia| | |lia|].
    { intros k Hk. apply active_insert; [lia..|]. destruct (decide (k = i)); [by left|right; apply Hanc; lia]. }
    { intros j Hj. rewrite active_insert, lookup_insert_way by lia. destruct (Hway j); [lia|by left; right|by right]. }
    exists db'. split_and!; [done| |done]. apply grown_step; [lia|done..].
Qed.

Lemma ensure_loop_needs n : ∀ i db db',
  (i + n = S (length segs))%nat → (∀ k, (k < i)%nat → active_at (way k) db) →
  ensure_prefixes visit now i (map (λ k, way k) (seq i n)) db = (Ok (), db') →
  (∀ j, (i ≤ j ≤ length segs)%nat → active_at (way j) db ∨ db_namespaces db !! way j = None) ∧
  (i = 0%nat → db_namespaces db !! Root = None → key_in_scope Root (Some GlobalKeyID) db).
Proof.
  induction n as [|n IH]; intros i db db' Hn Hanc; [split; intros; lia|].
  cbn [seq map ensure_prefixes]. unfold getNamespaceByPath. destruct (live_ns (way i) db) as [ns|] eqn:Hlive.
  - case_decide as Hst; [|done]. intros Hrun. apply IH in Hrun as [Hway _]; [|lia|].
    2:{ intros k Hk. destruct (decide (k = i)) as [->|]; [by exists ns|apply Hanc; lia]. }
    split.
    + intros j Hj. destruct (decide (j = i)) as [->|]; [left; by exists ns|apply Hway; lia].
    + intros -> Hno. apply live_ns_Some in Hlive as [Hl _]. change (way 0) with Root in Hl. congruence.
  - cbn [is_not_found]. destruct (createNamespace _ _ _ db) as [[e|row] db1] eqn:Hc; [done|]. intros Hrun.
    apply createNamespace_Ok in Hc as (state & Hps & Hno & Hkey & -> & ->). cbn [dn_Path new_namespace] in Hno.
    cbn [dn_Path new_namespace] in Hps. rewrite removelast_prefixes, way_ancestors in Hps by (apply take_valid || lia).
    rewrite new_namespace_state, parent_states_active in Hps; [|intros p (k & -> & Hk%elem_of_seq)%list_elem_of_fmap; apply Hanc; lia|done].
    injection Hps as <-. fold (ensured_row (visit i) (now i) (way i) db) in Hrun.
    apply IH in Hrun as [Hway _]; [|lia|].
    2:{ intros k Hk. apply active_insert; [lia..|]. destruct (decide (k = i)); [by left|right; apply Hanc; lia]. }
    split.
    + intros j Hj. destruct (decide (j = i)) as [->|Hne]; [by right|]. specialize (Hway j).
      rewrite active_insert, lookup_insert_way in Hway by lia. destruct Hway as [[?|?]|?]; [lia..|by left|by right].
    + intros -> _. rewrite root_key_of in Hkey by lia. done.
Qed.

Lemma prefixes_ways : SplitPathToPrefixes (render segs) = map (λ k, way k) (seq 0 (S (length segs))).
Proof. by apply SplitPathToPrefixes_render. Qed.

Lemma ensurable_ways db :
  ensurable segs db ↔
  (∀ j, (0 ≤ j ≤ length segs)%nat → active_at (way j) db ∨ db_namespaces db !! way j = None) ∧
  (db_namespaces db !! Root = None → key_in_scope Root (Some GlobalKeyID) db).
Proof.
  split.
  - intros [Hw Hr]. split; [|done]. intros j Hj. apply Hw. rewrite prefixes_ways. apply list_elem_of_fmap.
    exists j. split; [done|]. apply elem_of_seq. lia.
  - intros [Hw Hr]. split; [|done]. intros p. rewrite prefixes_ways. intros (j & -> & Hj%elem_of_seq)%list_elem_of_fmap.
    apply Hw. lia.
Qed.
End ensure.

(** ** The invariant of the table *)

Definition self_labelled (path : string) (labels : Labels) : Prop := BuildNamespaceImplicitResourceLabels path ⊆ labels.

(** Purging removes rows others refer to: [strict] is for tables that were not
    purged. *)
Record ns_ok (strict : bool) (db : ndb) (path : string) (ns : DbNamespace) : Prop := {
  no_path : dn_Path ns = path;
  no_depth : dn_depth ns = DepthOfPath path;
  no_valid : ValidatePath path = None;
  no_ancestors : strict = true → ∀ p, p ∈ removelast (SplitPathToPrefixes path) → is_Some (db_namespaces db !! p);
  no_labels : self_labelled path (dn_Labels ns);
  no_key : ∀ k, dn_KeyId ns = Some k →
    (strict = true → is_Some (db_keys db !! k)) ∧ ∀ row, db_keys db !! k = Some row → IsSameOrChild (dk_Namespace row) path = true
}.

Definition ndb_ok (strict : bool) (db : ndb) : Prop := map_Forall (ns_ok strict db) (db_namespaces db).

(** Every call that changes the table. *)
Inductive ns_op : Type :=
  | NsCreate (visit : Labels → list (string * string)) (now : Z) (ns : DbNamespace)
  | NsEnsure (visit : nat → Labels → list (string * string)) (now : nat → Z) (path : string)
  | NsEnsureAncestors (visit : nat → Labels → list (string * string)) (now : nat → Z) (path : string) (labels : Labels)
  | NsDelete (now : Z) (path : string)
  | NsPurge (olderThan : Z)
  | NsSetKeyId (now : Z) (path : string) (key : option string)
  | NsSetKey (now : Z) (path key : string)
  | NsSetState (now : Z) (path state : string)
  | NsLabels (op : user_op)
  | NsUpdateAnnotations (now : Z) (path : string) (annotations : gmap string string)
  | NsPutAnnotations (now : Z) (path : string) (annotations : gmap string string)
  | NsDeleteAnnotations (now : Z) (path : string) (keys : list string).

Definition run_ns_op (op : ns_op) (db : ndb) : ndb :=
  match op with
  | NsCreate visit now ns => (CreateNamespace visit now ns db).2
  | NsEnsure visit now path => (EnsureNamespaceByPath visit now path db).2
  | NsEnsureAncestors visit now path labels => (EnsureNamespaceAncestorPath visit now path labels db).2
  | NsDelete now path => (DeleteNamespace now path db).2
  | NsPurge olderThan => PurgeSoftDeletedRecords olderThan db
  | NsSetKeyId now path key => (SetNamespaceKeyId now path key db).2
  | NsSetKey now path key => (SetNamespaceKey now path key db).2
  | NsSetState now path state => (SetNamespaceState now path state db).2
  | NsLabels op => (namespace_labels_op op db).2
  | NsUpdateAnnotations now path annotations => (UpdateNamespaceAnnotations now path annotations db).2
  | NsPutAnnotations now path annotations => (PutNamespaceAnnotations now path annotations db).2
  | NsDeleteAnnotations now path keys => (DeleteNamespaceAnnotations now path keys db).2
  end.

Section invariant.
Context (strict : bool).

Lemma insert_ns_ok path ns db :
  ndb_ok strict db → ns_ok strict db path ns → ndb_ok strict (with_namespaces (<[path := ns]> (db_namespaces db)) db).
Proof.
  intros Hdb Hns p m. cbn. intros Hm.
  assert (ns_ok strict db p m) as [? ? ? Hanc ? ?].
  { apply lookup_insert_Some in Hm as [[<- <-]|[_ Hm]]; [done|by apply Hdb]. }
  split; try done. intros Hst q Hq. cbn. destruct (decide (q = path)) as [->|Hne].
  - by rewrite lookup_insert_eq.
  - rewrite lookup_insert_ne by done. by apply Hanc.
Qed.

Lemma live_key_row k db row : live_key k db = Some row → db_keys db !! k = Some row.
Proof. unfold live_key. destruct (db_keys db !! k) as [r|]; [|done]. by case_decide; intros [= ->]. Qed.

Lemma key_in_scope_row path key db k :
  key_in_scope path key db → key = Some k →
  (strict = true → is_Some (db_keys db !! k)) ∧ ∀ row, db_keys db !! k = Some row → IsSameOrChild (dk_Namespace row) path = true.
Proof. intros Hk ->. destruct Hk as (row & Hrow%live_key_row & Hs). rewrite Hrow. split; [done|]. by intros ? [= <-]. Qed.

(** Rewriting columns of a row that do not identify it. *)
Lemma rewrite_ns_ok path ns ns' db :
  ndb_ok strict db → db_namespaces db !! path = Some ns → dn_Path ns' = dn_Path ns → dn_depth ns' = dn_depth ns →
  self_labelled path (dn_Labels ns') →
  (dn_KeyId ns' = dn_KeyId ns ∨ key_in_scope path (dn_KeyId ns') db) →
  ndb_ok strict (with_namespaces (<[path := ns']> (db_namespaces db)) db).
Proof.
  intros Hdb Hns Hp Hd Hl Hk. apply insert_ns_ok; [done|]. destruct (Hdb _ _ Hns) as [Hpath Hdepth Hv Hanc _ Hkey].
  split; try congruence; try done.
  intros k Hkk. destruct Hk as [Hk|Hk]; [apply Hkey; congruence|by eapply key_in_scope_row].
Qed.

Lemma update_ns_ok f path db :
  ndb_ok strict db →
  (∀ ns, dn_Path (f ns) = dn_Path ns ∧ dn_depth (f ns) = dn_depth ns ∧ dn_Labels (f ns) = dn_Labels ns ∧
         (dn_KeyId (f ns) = dn_KeyId ns ∨ key_in_scope path (dn_KeyId (f ns)) db)) →
  ndb_ok strict (update_ns f path db).2.
Proof.
  intros Hdb Hf. unfold update_ns. destruct (live_ns path db) as [ns|] eqn:Hns; [|done]. apply live_ns_Some in Hns as [Hns _].
  destruct (Hf ns) as (? & ? & Hl & ?). eapply rewrite_ns_ok; try done. rewrite Hl. by apply (Hdb _ _ Hns).
Qed.

Lemma self_labelled_inject path labels : self_labelled path (InjectNamespaceSelfImplicitLabels path labels).
Proof.
  unfold self_labelled, InjectNamespaceSelfImplicitLabels. case_decide as Hs.
  - apply map_size_empty_inv in Hs. rewrite Hs. apply map_empty_subseteq.
  - unfold overlay. apply map_union_subseteq_l.
Qed.

Lemma parent_states_rows path anc state db s p : parent_states path anc state db = Ok s → p ∈ anc → is_Some (db_namespaces db !! p).
Proof.
  intros (parents & Hps & _)%parent_states_Ok Hp. apply list_elem_of_lookup in Hp as [i Hi].
  destruct (Forall2_lookup_l _ _ _ _ _ Hps Hi) as (ns & _ & [Hns _]%live_ns_Some). by exists ns.
Qed.

Lemma createNamespace_ok visit now ns db :
  ndb_ok strict db → ValidatePath (dn_Path ns) = None → ndb_ok strict (createNamespace visit now ns db).2.
Proof.
  intros Hdb Hv. destruct (createNamespace visit now ns db) as [[e|row] db'] eqn:Hc.
  - apply createNamespace_Err in Hc as ->. done.
  - apply createNamespace_Ok in Hc as (state & Hps & Hno & Hkey & -> & ->). apply insert_ns_ok; [done|]. split; try done.
    + intros _ p Hp. by eapply parent_states_rows.
    + apply self_labelled_inject.
    + intros k Hk. by eapply key_in_scope_row.
Qed.

Lemma transaction_ok {A} (f : ntx A) db : ndb_ok strict db → ndb_ok strict (f db).2 → ndb_ok strict (transaction f db).2.
Proof. intros Hdb Hf. unfold transaction, transaction_commit. by destruct (f db) as [[e|a] db']. Qed.

Lemma Validate_ns_path ns : Validate_ns ns = [] → ValidatePath (dn_Path ns) = None.
Proof. unfold Validate_ns. by destruct (ValidatePath (dn_Path ns)). Qed.

Lemma CreateNamespace_ok visit now ns db : ndb_ok strict db → ndb_ok strict (CreateNamespace visit now ns db).2.
Proof.
  intros Hdb. unfold CreateNamespace. destruct (Validate_ns (normalize_ns ns)) eqn:Hv; [|done].
  apply transaction_ok; [done|]. apply createNamespace_ok; [done|]. by apply Validate_ns_path in Hv.
Qed.

Lemma prefix_path_valid segs p : valid_segs segs → p ∈ SplitPathToPrefixes (render segs) → ValidatePath p = None.
Proof.
  intros Hs (q & [r ->] & ->)%elem_of_SplitPathToPrefixes; [|done]. apply valid_segs_app in Hs as [Hq _]. by apply ValidatePath_render.
Qed.

Lemma ensure_prefixes_ok visit now i ps db :
  ndb_ok strict db → (∀ p, p ∈ ps → ValidatePath p = None) → ndb_ok strict (ensure_prefixes visit now i ps db).2.
Proof.
  revert i db. induction ps as [|p ps IH]; intros i db Hdb Hps; [done|]. cbn [ensure_prefixes].
  destruct (getNamespaceByPath p db) as [e|ns].
  - destruct (is_not_found e); [|done].
    pose proof (createNamespace_ok (visit i) (now i) (new_namespace p ∅) db Hdb) as Hc.
    destruct (createNamespace _ _ _ db) as [[e'|row] db']; cbn in *; [|apply IH]; try (apply Hc; apply Hps); set_solver.
  - case_decide; [|done]. apply IH; [done|set_solver].
Qed.

Lemma ensure_ancestors_ok visit now labels i ps final db :
  ndb_ok strict db → ndb_ok strict (ensure_ancestors visit now labels i ps final db).2.
Proof.
  revert i final db. induction ps as [|p ps IH]; intros i final db Hdb; [done|]. cbn [ensure_ancestors].
  destruct (getNamespaceByPath p db) as [e|ns]; [|by apply IH]. destruct (is_not_found e); [|done].
  pose proof (CreateNamespace_ok (visit i) (now i) (new_namespace p labels) db Hdb) as Hc.
  destruct (CreateNamespace _ _ _ db) as [[e'|row] db']; cbn in *; [done|]. by apply IH.
Qed.

Lemma implicit_apxy path k : is_Some (BuildNamespaceImplicitResourceLabels path !! k) → is_apxy k = true.
Proof.
  unfold BuildNamespaceImplicitResourceLabels, BuildImplicitResourceLabelsForToken. intros [v Hv].
  destruct (_ || _); [by rewrite lookup_empty in Hv|].
  repeat (apply lookup_insert_Some in Hv as [[<- _]|[_ Hv]]; [reflexivity|]). by rewrite lookup_empty in Hv.
Qed.

Lemma ns_rows_lookup db path ns : live_ns path db = Some ns →
  ns_rows db !! path = Some (mkRow (NameFromPath (dn_Path ns)) (dn_Path ns) (dn_Labels ns) (dn_UpdatedAt ns)).
Proof.
  intros [Hns Hl]%live_ns_Some. unfold ns_rows. apply lookup_fmap_Some. exists ns. split; [done|].
  by apply map_lookup_filter_Some.
Qed.

(** User operations keep the labels by which a namespace is identified. *)
Lemma labels_op_self op db ns row :
  live_ns (op_path op) db = Some ns → (run_op op (ns_rows db)).2 !! op_path op = Some row →
  self_labelled (op_path op) (dn_Labels ns) → self_labelled (op_path op) (row_labels row).
Proof.
  intros Hns Hrow Hself. apply map_subseteq_spec. intros k v Hkv.
  destruct (run_op_preserves op (ns_rows db) (op_path op)) as [Hsys _].
  unfold system_labels in Hsys. rewrite Hrow, (ns_rows_lookup _ _ _ Hns) in Hsys. apply (inj Some) in Hsys.
  assert ((SplitUserAndApxyLabels (row_labels row)).2 !! k = (SplitUserAndApxyLabels (dn_Labels ns)).2 !! k) as Heq by (by rewrite Hsys).
  clear Hsys. rename Heq into Hsys. rewrite !split_apxy_lookup in Hsys.
  rewrite (implicit_apxy (op_path op) k) in Hsys by (by rewrite Hkv). rewrite Hsys.
  by eapply map_subseteq_spec in Hself.
Qed.

Lemma namespace_labels_op_ok op db : ndb_ok strict db → ndb_ok strict (namespace_labels_op op db).2.
Proof.
  intros Hdb. unfold namespace_labels_op. destruct (run_op op (ns_rows db)) as [[e|l] t] eqn:Hrun; [done|].
  destruct (live_ns (op_path op) db) as [ns|] eqn:Hns; [|done]. destruct (t !! op_path op) as [row|] eqn:Hrow; [|done].
  pose proof Hns as [Hn _]%live_ns_Some. eapply rewrite_ns_ok; [done..| |by left].
  eapply labels_op_self; [done|by rewrite Hrun|]. by apply (Hdb _ _ Hn).
Qed.

Lemma ns_annotations_ok now path f db : ndb_ok strict db → ndb_ok strict (ns_annotations_in_row now path f db).2.
Proof.
  intros Hdb. unfold ns_annotations_in_row. destruct (live_ns path db) as [ns|] eqn:Hns; [|done]. apply live_ns_Some in Hns as [Hns _].
  eapply rewrite_ns_ok; [done..| |by left]. by apply (Hdb _ _ Hns).
Qed.

Lemma SetNamespaceKeyId_ok now path key db : ndb_ok strict db → ndb_ok strict (SetNamespaceKeyId now path key db).2.
Proof.
  intros Hdb. unfold SetNamespaceKeyId.
  destruct (transaction _ db) as [[e|u] db'] eqn:Ht; [by apply transaction_Err in Ht as ->|].
  apply (proj1 (transaction_Ok _ _ _ _)) in Ht. cbn. revert Ht. cbn beta.
  destruct (key_scope_error path key db) as [e|] eqn:Hk; [done|]. apply key_scope_checked in Hk.
  intros Hu. change db' with (Ok (E := ns_error) u, db').2. rewrite <- Hu. apply update_ns_ok; [done|]. intros ns. cbn. auto.
Qed.

Lemma purge_ok olderThan db : strict = false → ndb_ok strict db → ndb_ok strict (PurgeSoftDeletedRecords olderThan db).
Proof.
  intros Hst Hdb path ns. cbn. intros [Hns _]%map_lookup_filter_Some. destruct (Hdb _ _ Hns) as [? ? ? Hanc ? Hkey].
  split; try done; [congruence|]. intros k Hk. split; [congruence|]. cbn. intros row [Hrow _]%map_lookup_filter_Some. by apply (Hkey k).
Qed.

Definition is_purge (op : ns_op) : bool := match op with NsPurge _ => true | _ => false end.

Lemma run_ns_op_ok op db : (strict = true → is_purge op = false) → ndb_ok strict db → ndb_ok strict (run_ns_op op db).
Proof.
  intros Hpurge Hdb. destruct op as [visit now ns|visit now path|visit now path labels|now path|olderThan|now path key|now path key|now path state|op
    |now path m|now path m|now path keys]; cbn [run_ns_op].
  - by apply CreateNamespace_ok.
  - unfold EnsureNamespaceByPath. destruct (ValidatePath path) eqn:Hv; [done|]. apply ValidatePath_None in Hv as (segs & Hs & ->).
    apply transaction_ok; [done|]. apply ensure_prefixes_ok; [done|]. intros p. by apply prefix_path_valid.
  - unfold EnsureNamespaceAncestorPath. destruct (ValidatePath path); [done|].
    pose proof (ensure_ancestors_ok visit now labels 0 (SplitPathToPrefixes path) None db Hdb).
    by destruct (ensure_ancestors _ _ _ _ _ _ db) as [[e|[ns|]] db'].
  - unfold DeleteNamespace. destruct (db_namespaces db !! path) as [ns|] eqn:Hns; [|done].
    eapply rewrite_ns_ok; [done..| |by left]. by apply (Hdb _ _ Hns).
  - apply purge_ok; [|done]. destruct strict; [by specialize (Hpurge eq_refl)|done].
  - by apply SetNamespaceKeyId_ok.
  - unfold SetNamespaceKey. destruct (live_key key db); [|done]. by apply SetNamespaceKeyId_ok.
  - apply update_ns_ok; [done|]. intros ns. cbn. auto.
  - by apply namespace_labels_op_ok.
  - unfold UpdateNamespaceAnnotations. case_decide; [done|]. destruct (ValidateAnnotations m); [|done]. by apply ns_annotations_ok.
  - unfold PutNamespaceAnnotations. do 2 (case_decide; [done|]). destruct (ValidateAnnotations m); [|done]. by apply ns_annotations_ok.
  - unfold DeleteNamespaceAnnotations. do 2 (case_decide; [done|]). by apply ns_annotations_ok.
Qed.
End invariant.

(** Facts about the loop over the ancestors. *)
Lemma parent_states_total path anc state db :
  (∀ p, p ∈ anc → is_Some (live_ns p db)) → ∃ s, parent_states path anc state db = Ok s.
Proof.
  revert state. induction anc as [|p anc IH]; intros state Hanc; [by eexists|]. cbn [parent_states].
  destruct (Hanc p) as [ns Hns]; [set_solver|]. unfold getNamespaceByPath. rewrite Hns. apply IH. set_solver.
Qed.

Lemma parent_states_live path anc state db s p : parent_states path anc state db = Ok s → p ∈ anc → is_Some (live_ns p db).
Proof.
  intros (parents & Hps & _)%parent_states_Ok Hp. apply list_elem_of_lookup in Hp as [i Hi].
  destruct (Forall2_lookup_l _ _ _ _ _ Hps Hi) as (ns & _ & Hns). by exists ns.
Qed.

Lemma fold_advance_rank states state :
  IsValidNamespaceState state = true → (∀ x, x ∈ states → IsValidNamespaceState x = true) →
  (state_rank state ≤ state_rank (foldl advanceNamespaceState state states))%nat ∧
  ∀ x, x ∈ states → (state_rank x ≤ state_rank (foldl advanceNamespaceState state states))%nat.
Proof.
  revert state. induction states as [|y states IH]; intros state Hv Hall; cbn [foldl]; [split; [done|set_solver]|].
  destruct (advance_rank state y) as [Hv' Hr]; [done|apply Hall; set_solver|].
  destruct (IH _ Hv') as [Hle Hothers]; [intros; apply Hall; set_solver|]. split; [lia|].
  intros x [->|Hx]%elem_of_cons; [lia|by apply Hothers].
Qed.

Lemma parent_states_rank path anc state db s p parent :
  parent_states path anc state db = Ok s → IsValidNamespaceState state = true →
  (∀ p parent, live_ns p db = Some parent → IsValidNamespaceState (dn_State parent) = true) →
  p ∈ anc → live_ns p db = Some parent → (state_rank (dn_State parent) ≤ state_rank s)%nat.
Proof.
  intros (parents & Hps & ->)%parent_states_Ok Hv Hval Hp Hlive.
  apply (fold_advance_rank (map dn_State parents) state); [done|..].
  - intros x (q & -> & Hq)%list_elem_of_fmap. apply list_elem_of_lookup in Hq as [i Hi].
    destruct (Forall2_lookup_r _ _ _ _ _ Hps Hi) as (p' & _ & Hq'). by eapply Hval.
  - apply list_elem_of_fmap. exists parent. split; [done|]. apply list_elem_of_lookup in Hp as [i Hi].
    destruct (Forall2_lookup_l _ _ _ _ _ Hps Hi) as (ns & Hns & Hl). apply list_elem_of_lookup. exists i. congruence.
Qed.

Lemma normalize_ns_idemp ns : normalize_ns (normalize_ns ns) = normalize_ns ns.
Proof.
  unfold normalize_ns. cbn [dn_Path dn_State dn_KeyId dn_TargetDataEncryptionKeyId dn_Labels dn_Annotations dn_CreatedAt dn_UpdatedAt dn_DeletedAt].
  f_equal; repeat case_decide; naive_solver.
Qed.

Lemma Validate_ns_state ns : Validate_ns ns = [] → IsValidNamespaceState (dn_State ns) = true.
Proof. unfold Validate_ns. destruct (ValidatePath (dn_Path ns)); [done|]. by destruct (IsValidNamespaceState (dn_State ns)). Qed.

(** ** Properties *)

(** A tree with the root, a team and the key of the root. *)
Definition global_key_row : DbKey := mkDbKey GlobalKeyID Root GlobalKeyID "data_encryption" "symmetric" None "active" ∅ ∅ 0 0 None None.
Definition seeded : ndb := mkNdb ∅ {[ GlobalKeyID := global_key_row ]}.
Definition sample_visit : nat → Labels → list (string * string) := λ _, map_to_list.
Definition team_db : ndb := (EnsureNamespaceByPath sample_visit (λ i, Z.of_nat i) "root.team" seeded).2.
Definition deleted_team_db : ndb := (DeleteNamespace 9 "root.team" team_db).2.

(** Ensuring a namespace path succeeds exactly when every namespace on the
    way is active or has never existed (and the global key can serve a missing
    root).  Afterwards every prefix is active, existing rows are unchanged, and
    the new rows are those of the missing prefixes, each with the depth of its
    path, the labels carried from its parent and, for the root, the global key.
    When it fails nothing is written. *)
Theorem ensure_namespace_exact visit now segs db :
  valid_segs segs →
  let '(r, db') := EnsureNamespaceByPath visit now (render segs) db in
  (r = Ok () ↔ ensurable segs db) ∧
  (r = Ok () → grown visit now segs 0 db db' ∧ ∀ p, p ∈ SplitPathToPrefixes (render segs) → active_at p db') ∧
  (r ≠ Ok () → db' = db).
Proof.
  intros Hs. unfold EnsureNamespaceByPath. rewrite ValidatePath_render by done. rewrite prefixes_ways by done.
  destruct (transaction _ db) as [[e|[]] db'] eqn:Ht.
  - split_and!; [|done|by apply transaction_Err in Ht as ->]. split; [done|]. intros [Hw Hr]%ensurable_ways; [|done].
    destruct (ensure_loop visit now segs Hs (S (length segs)) 0 db) as (db1 & Hrun & _); [done|lia|done|done|].
    unfold transaction, transaction_commit in Ht. by rewrite Hrun in Ht.
  - apply (proj1 (transaction_Ok _ _ _ _)) in Ht. apply ensure_loop_needs in Ht as Hneed; [|done..|lia].
    assert (ensurable segs db) as He by (apply ensurable_ways; [done|]; destruct Hneed as [? Hr]; split; [done|by apply Hr]).
    split_and!; [done| |done]. intros _. apply ensurable_ways in He as [Hw Hr]; [|done].
    destruct (ensure_loop visit now segs Hs (S (length segs)) 0 db) as (db1 & Hrun & Hg & Hall); [done|lia|done|done|].
    rewrite Hrun in Ht. injection Ht as <-. split; [done|].
    intros p (k & -> & Hk%elem_of_seq)%list_elem_of_fmap. apply Hall. lia.
Qed.

Lemma ensure_namespace_exact_witness :
  EnsureNamespaceByPath sample_visit (λ i, Z.of_nat i) "root.team" seeded = (Ok (), team_db) ∧
  active_at "root.team" team_db ∧ (EnsureNamespaceByPath sample_visit (λ _, 0%Z) "root.team.x" deleted_team_db).2 = deleted_team_db.
Proof.
  pose proof (ensure_namespace_exact sample_visit (λ i, Z.of_nat i) ["team"] seeded) as H1.
  pose proof (ensure_namespace_exact sample_visit (λ _, 0%Z) ["team"; "x"] deleted_team_db) as H2.
  change (render ["team"]) with "root.team" in H1. change (render ["team"; "x"]) with "root.team.x" in H2.
  assert ((EnsureNamespaceByPath sample_visit (λ i, Z.of_nat i) "root.team" seeded).1 = Ok ()) as Hr by (vm_compute; reflexivity).
  assert (is_ok (EnsureNamespaceByPath sample_visit (λ _, 0%Z) "root.team.x" deleted_team_db).1 = false) as Hf by (vm_compute; reflexivity).
  unfold team_db at 1 2. destruct (EnsureNamespaceByPath sample_visit (λ i, Z.of_nat i) "root.team" seeded) as [r db'].
  destruct (EnsureNamespaceByPath sample_visit (λ _, 0%Z) "root.team.x" deleted_team_db) as [r2 db2]. cbn in Hr, Hf |- *.
  destruct H1 as (_ & H1 & _); [by repeat constructor|]. destruct H2 as (_ & _ & H2); [by repeat constructor|]. split_and!.
  - by rewrite Hr.
  - apply (H1 Hr). vm_compute. right. left.
  - apply H2. intros Heq. rewrite Heq in Hf. exact (diff_true_false Hf).
Defined.

(** C29: over every sequence of operations on namespaces a row is stored under
    its own valid path with the depth of that path, the labels by which the
    system identifies a namespace are those of its path whatever users wrote,
    and a namespace never refers to a stored key of another branch of the tree.
    As long as deleted rows are not purged, every ancestor of a row has a row
    and every key referred to has one. *)
Theorem namespace_table_invariant strict ops db :
  ndb_ok strict db → (strict = true → Forall (λ op, is_purge op = false) ops) →
  let db' := foldl (λ db op, run_ns_op op db) db ops in
  ∀ path ns, db_namespaces db' !! path = Some ns →
    dn_Path ns = path ∧ dn_depth ns = DepthOfPath path ∧ BuildNamespaceImplicitResourceLabels path ⊆ dn_Labels ns ∧
    (∀ k row, dn_KeyId ns = Some k → db_keys db' !! k = Some row → IsSameOrChild (dk_Namespace row) path = true) ∧
    ∃ segs, valid_segs segs ∧ path = render segs ∧
      (strict = true → ∀ q, q `prefix_of` segs → is_Some (db_namespaces db' !! render q)) ∧
      (strict = true → ∀ k, dn_KeyId ns = Some k → is_Some (db_keys db' !! k)).
Proof.
  intros Hdb Hops db' path ns Hns.
  assert (ndb_ok strict db') as Hok.
  { subst db'. clear Hns. revert db Hdb. induction ops as [|op ops IH]; intros db Hdb; [done|]. cbn. apply IH.
    - intros Hst. by apply Hops, Forall_cons_1 in Hst as [_ ?].
    - apply run_ns_op_ok; [|done]. intros Hst. by apply Hops, Forall_cons_1 in Hst as [? _]. }
  destruct (Hok _ _ Hns) as [Hp Hd Hv Hanc Hl Hk]. split_and!; [done..| |].
  { intros k row Hkk. by apply (Hk k Hkk). }
  apply ValidatePath_None in Hv as (segs & Hs & ->). exists segs. split_and!; [done..| |].
  - intros Hst q Hq. destruct (decide (q = segs)) as [->|Hne]; [by exists ns|].
    apply Hanc; [done|]. rewrite removelast_prefixes by done. apply elem_of_ancestors. by exists q.
  - intros Hst k Hkk. by apply (Hk k Hkk).
Qed.

Lemma namespace_table_invariant_witness :
  is_Some (db_namespaces (foldl (λ db op, run_ns_op op db) seeded [NsEnsure sample_visit (λ i, Z.of_nat i) "root.team"]) !! render []).
Proof.
  destruct (db_namespaces team_db !! "root.team") as [ns|] eqn:Hns; [|vm_compute in Hns; discriminate].
  destruct (namespace_table_invariant true [NsEnsure sample_visit (λ i, Z.of_nat i) "root.team"] seeded) with (path := "root.team") (ns := ns)
    as (_ & _ & _ & _ & segs & _ & _ & Hanc & _); [|by repeat constructor|exact Hns|].
  - intros p m Hm. cbn in Hm. by rewrite lookup_empty in Hm.
  - apply Hanc; [done|]. apply prefix_nil.
Defined.

(** Creating a namespace succeeds exactly when the row is valid, all its
    ancestors are live, its path was never used, and the key it names is live
    and belongs to it or to an ancestor; then exactly that row is added, with
    its depth, the time, the carried labels, and a state at least as far
    towards destruction as that of every ancestor.  Otherwise nothing is
    written. *)
Theorem create_namespace_exact visit now ns db :
  let '(r, db') := CreateNamespace visit now ns db in
  (is_ok r = true ↔
    Validate_ns (normalize_ns ns) = [] ∧ db_namespaces db !! dn_Path ns = None ∧ key_in_scope (dn_Path ns) (dn_KeyId (normalize_ns ns)) db ∧
    ∀ p, p ∈ removelast (SplitPathToPrefixes (dn_Path ns)) → is_Some (live_ns p db)) ∧
  match r with
  | Err _ => db' = db
  | Ok row =>
      db' = insert_row_at row db ∧
      (∃ state, row = created_row visit now (normalize_ns ns) state db ∧
        ((∀ p parent, live_ns p db = Some parent → IsValidNamespaceState (dn_State parent) = true) →
         ∀ p parent, p ∈ removelast (SplitPathToPrefixes (dn_Path ns)) → live_ns p db = Some parent →
           (state_rank (dn_State parent) ≤ state_rank state)%nat))
  end.
Proof.
  unfold CreateNamespace. destruct (Validate_ns (normalize_ns ns)) as [|e es] eqn:Hv; [|split; [|done]; split; [done|by intros ([=] & _)]].
  destruct (transaction _ db) as [[e|row] db'] eqn:Ht.
  - split; [|by apply transaction_Err in Ht]. split; [done|]. intros (_ & Hno & Hk & Hanc). exfalso.
    destruct (parent_states_total (dn_Path ns) (removelast (SplitPathToPrefixes (dn_Path ns))) (dn_State (normalize_ns ns)) db Hanc) as [state Hst].
    assert (createNamespace visit now (normalize_ns ns) db = (Ok (created_row visit now (normalize_ns ns) state db), insert_row_at (created_row visit now (normalize_ns ns) state db) db)) as Hc.
    { apply createNamespace_Ok. exists state. rewrite normalize_ns_idemp. split_and!; done. }
    unfold transaction, transaction_commit in Ht. by rewrite Hc in Ht.
  - apply (proj1 (transaction_Ok _ _ _ _)), createNamespace_Ok in Ht as (state & Hps & Hno & Hk & -> & ->).
    rewrite normalize_ns_idemp in Hps, Hk. split.
    + split; [|done]. intros _. split_and!; [done..|]. intros p Hp. by eapply parent_states_live.
    + split; [done|]. exists state. split; [done|]. intros Hval p parent Hp Hlive.
      apply (parent_states_rank _ _ _ _ _ p parent Hps); [|done..].
      apply Validate_ns_state in Hv. done.
Qed.

(** What the table does not do.  A path that was deleted cannot be used
    again until its row is purged: creating or ensuring it, or anything below
    it, fails although no lookup finds it.  Setting a state ignores the order of states, and accepts
    strings that are not states.  Deleting a namespace leaves its children live,
    nothing can be created below them, and the purge leaves them without an
    ancestor.  A path prefix that ends with a dot
    selects the path without its last two characters instead of the path.  And
    a transaction whose commit fails reports success. *)
Theorem namespace_store_defects :
  (∀ visit now segs db q row, valid_segs segs → q `prefix_of` segs → db_namespaces db !! render q = Some row → dn_DeletedAt row ≠ None →
     is_ok (EnsureNamespaceByPath visit now (render segs) db).1 = false) ∧
  (∀ visit now ns db row, db_namespaces db !! dn_Path ns = Some row → is_ok (CreateNamespace visit now ns db).1 = false) ∧
  (CreateNamespace map_to_list 10 (new_namespace "root.team" ∅) deleted_team_db).1 = Err NsDuplicateKey ∧
  (GetNamespace "root.team" deleted_team_db).1 = Err NsNotFound ∧
  (let db := (SetNamespaceState 3 "root.team" NamespaceStateActive (SetNamespaceState 2 "root.team" NamespaceStateDestroyed team_db).2).2 in
   dn_State <$> live_ns "root.team" db = Some NamespaceStateActive ∧
   advanceNamespaceState NamespaceStateDestroyed NamespaceStateActive = NamespaceStateDestroyed ∧
   dn_State <$> live_ns "root.team" (SetNamespaceState 4 "root.team" "paused" db).2 = Some "paused") ∧
  (let db := (DeleteNamespace 5 Root team_db).2 in
   is_Some (live_ns "root.team" db) ∧
   (CreateNamespace map_to_list 6 (new_namespace "root.team.x" ∅) db).1 = Err (NsParentMissing "root.team.x" Root) ∧
   db_namespaces (PurgeSoftDeletedRecords 6 db) !! Root = None ∧ is_ok (GetNamespace "root.team" (PurgeSoftDeletedRecords 6 db)).1 = true) ∧
  is_ok (CreateNamespace map_to_list 10 (new_namespace "root.team" ∅) (PurgeSoftDeletedRecords 10 deleted_team_db)).1 = true ∧
  (∀ dl : Dialect, dl_like "root.team" "root.team.%" = false →
     path_prefix_selects "root.team." "root.team" = false ∧ path_prefix_selects "root.team." "root.tea" = true) ∧
  (∀ visit now ns db row db', createNamespace visit now ns db = (Ok row, db') →
     transaction_commit false (createNamespace visit now ns) db = (Ok row, db)).
Proof.
  split; [|split; [|split; [vm_compute; reflexivity|split; [vm_compute; reflexivity|split; [split_and!; vm_compute; reflexivity|split; [split_and!|split; [vm_compute; reflexivity|split]]]]]]].
  - intros visit now segs db q row Hs Hq Hrow Hdel. unfold EnsureNamespaceByPath. rewrite ValidatePath_render, prefixes_ways by done.
    destruct (transaction _ db) as [[e|[]] db'] eqn:Ht; [done|exfalso].
    apply (proj1 (transaction_Ok _ _ _ _)), ensure_loop_needs in Ht as [Hway Hroot]; [|done..|lia].
    destruct (Hway (length q)) as [(ns & [Hns Hl]%live_ns_Some & _)|Hno].
    { destruct Hq as [r ->]. rewrite length_app. lia. }
    all: destruct Hq as [r ->]; rewrite take_app_length in *; congruence.
  - intros visit now ns db row Hrow. unfold CreateNamespace. destruct (Validate_ns (normalize_ns ns)); [|done].
    destruct (transaction _ db) as [[e|row'] db'] eqn:Ht; [done|exfalso].
    apply (proj1 (transaction_Ok _ _ _ _)), createNamespace_Ok in Ht as (? & _ & Hno & _). cbn in Hno. congruence.
  - vm_compute. by eexists.
  - vm_compute. reflexivity.
  - vm_compute. reflexivity.
  - vm_compute. reflexivity.
  - intros dl Hl. split; [|reflexivity]. unfold path_prefix_selects. cbn [decide]. rewrite decide_False by done.
    change (bool_decide _ && _) with true. cbn iota. change ("root.team." +:+ "%") with "root.team.%". by rewrite Hl.
  - intros visit now ns db row db' Hc. unfold transaction_commit. by rewrite Hc.
Qed.
