(* ===== verification/LabelPropagation.v ===== *)
(** * Propagation of labels

    [database/labels_propagate.go]: when the labels of a namespace change, the
    part that its children and the resources in it carry is derived again, row
    by row, each in a transaction of its own ([RefreshNamespaceLabelsCarryForward]);
    a daily pass derives every row again ([ReconcileCarryForwardLabels]). *)

From S2P Require Import Prelude GoStrings Namespace PermissionValidator Labels Paging Actors NamespaceStore.
Open Scope string_scope.
Open Scope list_scope.

(** ** The labelled rows *)

Inductive kind : Type := KConnection | KActor | KKey | KConnector | KRateLimit.

#[export] Instance kind_eq_dec : EqDecision kind.
Proof. solve_decision. Defined.

Definition kind_code (k : kind) : positive :=
  match k with KConnection => 1 | KActor => 2 | KKey => 3 | KConnector => 4 | KRateLimit => 5 end.
Definition code_kind (p : positive) : option kind :=
  match p with
  | 1 => Some KConnection | 2 => Some KActor | 3 => Some KKey | 4 => Some KConnector | 5 => Some KRateLimit | _ => None
  end%positive.

#[export] Program Instance kind_countable : Countable kind := {| encode := kind_code; decode := code_kind |}.
Next Obligation. by intros []. Qed.

(** The columns of a resource that the propagation reads; only a connection
    has a connector. *)
Record LabelRow := mkLabelRow {
  lr_Name : string;
  lr_Namespace : string;
  lr_ConnectorId : string;
  lr_Labels : Labels;
  lr_UpdatedAt : Z;
  lr_DeletedAt : option Z
}.

Record lstore := mkLstore {
  ls_ns : gmap string DbNamespace;
  ls_rows : gmap (kind * string) LabelRow
}.

(** The store and the number of calls made so far, by which the behaviour of
    the environment is indexed. *)
Record pst := mkPst { ps_store : lstore; ps_step : nat }.

Definition tick (s : pst) : pst := mkPst (ps_store s) (S (ps_step s)).

Inductive prop_error : Type := PropFailed.

Definition live_row (k : kind) (id : string) (s : lstore) : option LabelRow :=
  match ls_rows s !! (k, id) with
  | Some row => if decide (lr_DeletedAt row = None) then Some row else None
  | None => None
  end.

Definition live_namespace (path : string) (s : lstore) : option DbNamespace := live_ns path (mkNdb (ls_ns s) ∅).

(** [fetchLabelsForCarryForward] on the two tables that have children. *)
Definition row_labels_of (k : kind) (id : string) (s : lstore) : Labels :=
  match live_row k id s with Some row => lr_Labels row | None => ∅ end.
Definition path_labels_of (path : string) (s : lstore) : Labels :=
  match live_namespace path s with Some ns => dn_Labels ns | None => ∅ end.

Definition PrefixConnectorVersion : string := "cxr_".
Definition connector_token : string := ApidPrefixToLabelToken PrefixConnectorVersion.

Definition labelsEqual (a b : Labels) : bool := same_entries a b.

Definition set_row (k : kind) (id : string) (row : LabelRow) (s : lstore) : lstore :=
  mkLstore (ls_ns s) (<[(k, id) := row]> (ls_rows s)).
Definition set_namespace (path : string) (ns : DbNamespace) (s : lstore) : lstore :=
  mkLstore (<[path := ns]> (ls_ns s)) (ls_rows s).

Definition with_labels (labels : Labels) (now : Z) (row : LabelRow) : LabelRow :=
  mkLabelRow (lr_Name row) (lr_Namespace row) (lr_ConnectorId row) labels now (lr_DeletedAt row).

Section propagation.
(** What the environment decides at each call: the order in which a map is
    visited, whether the call fails, the time, and the order of the rows of a
    query.  Two maps are visited in one transaction at most. *)
Context (visit : nat → Labels → list (string * string)) (fails : nat → bool) (clock : nat → Z).
Context (scan : nat → list string → list string) (sql_like : string → string → bool).

(** [writeRecomputedLabels] on a resource and on a namespace. *)
Definition writeRecomputedLabels (k : kind) (id : string) (row : LabelRow) (newLabels : Labels) (s : pst) : result prop_error bool * pst :=
  if labelsEqual (lr_Labels row) newLabels then (Ok false, tick s)
  else (Ok true, tick (mkPst (set_row k id (with_labels newLabels (clock (ps_step s)) row) (ps_store s)) (ps_step s))).

Definition writeRecomputedNamespaceLabels (path : string) (ns : DbNamespace) (newLabels : Labels) (s : pst) : result prop_error bool * pst :=
  if labelsEqual (dn_Labels ns) newLabels then (Ok false, tick s)
  else (Ok true, tick (mkPst (set_namespace path (NamespaceStore.touch (clock (ps_step s)) (set_ns_labels newLabels ns)) (ps_store s)) (ps_step s))).

Definition recomputeConnectionLabelsTx (id : string) (s : pst) : result prop_error bool * pst :=
  if fails (ps_step s) then (Err PropFailed, tick s)
  else match live_row KConnection id (ps_store s) with
  | None => (Ok false, tick s)
  | Some conn =>
      let userLabels := (SplitUserAndApxyLabels (lr_Labels conn)).1 in
      let cvLabels := row_labels_of KConnector (lr_ConnectorId conn) (ps_store s) in
      let nsLabels := path_labels_of (lr_Namespace conn) (ps_store s) in
      let newLabels := ApplyParentCarryForward userLabels
        [mkParent connector_token (visit (2 * ps_step s) cvLabels); mkParent NamespaceLabelToken (visit (2 * ps_step s + 1) nsLabels)] in
      let newLabels := InjectSelfImplicitLabels id (lr_Name conn) (lr_Namespace conn) newLabels in
      writeRecomputedLabels KConnection id conn newLabels s
  end.

(** The body the other resources share. *)
Definition recomputeInNamespace (k : kind) (id : string) (s : pst) : result prop_error bool * pst :=
  if fails (ps_step s) then (Err PropFailed, tick s)
  else match live_row k id (ps_store s) with
  | None => (Ok false, tick s)
  | Some row =>
      let userLabels := (SplitUserAndApxyLabels (lr_Labels row)).1 in
      let nsLabels := path_labels_of (lr_Namespace row) (ps_store s) in
      let newLabels := ApplyParentCarryForward userLabels [mkParent NamespaceLabelToken (visit (2 * ps_step s) nsLabels)] in
      let newLabels := InjectSelfImplicitLabels id (lr_Name row) (lr_Namespace row) newLabels in
      writeRecomputedLabels k id row newLabels s
  end.

Definition recomputeActorLabelsTx : string → pst → result prop_error bool * pst := recomputeInNamespace KActor.
Definition recomputeEncryptionKeyLabelsTx : string → pst → result prop_error bool * pst := recomputeInNamespace KKey.
Definition recomputeRateLimitLabelsTx : string → pst → result prop_error bool * pst := recomputeInNamespace KRateLimit.
Definition recomputeConnectorLabelsTx : string → pst → result prop_error bool * pst := recomputeInNamespace KConnector.

Definition recompute_row (k : kind) : string → pst → result prop_error bool * pst :=
  match k with
  | KConnection => recomputeConnectionLabelsTx
  | KActor => recomputeActorLabelsTx
  | KKey => recomputeEncryptionKeyLabelsTx
  | KConnector => recomputeConnectorLabelsTx
  | KRateLimit => recomputeRateLimitLabelsTx
  end.

Definition recomputeNamespaceLabelsTx (path : string) (s : pst) : result prop_error bool * pst :=
  if fails (ps_step s) then (Err PropFailed, tick s)
  else match live_namespace path (ps_store s) with
  | None => (Ok false, tick s)
  | Some ns =>
      let userLabels := (SplitUserAndApxyLabels (dn_Labels ns)).1 in
      let parentLabels := match parent_prefix (SplitPathToPrefixes (dn_Path ns)) with
                          | Some p => path_labels_of p (ps_store s)
                          | None => ∅
                          end in
      let newLabels := ApplyParentCarryForward userLabels [mkParent NamespaceLabelToken (visit (2 * ps_step s) parentLabels)] in
      let newLabels := InjectNamespaceSelfImplicitLabels (dn_Path ns) newLabels in
      writeRecomputedNamespaceLabels path ns newLabels s
  end.

(** A loop that stops at the first error. *)
Fixpoint for_each (f : string → pst → result prop_error bool * pst) (ids : list string) (s : pst) : result prop_error unit * pst :=
  match ids with
  | [] => (Ok (), s)
  | id :: ids => match f id s with (Err e, s') => (Err e, s') | (Ok _, s') => for_each f ids s' end
  end.

Definition ids_where (k : kind) (P : LabelRow → bool) (s : lstore) : list string :=
  map (λ kv : (kind * string) * LabelRow, kv.1.2)
    (List.filter (λ kv : (kind * string) * LabelRow, bool_decide (kv.1.1 = k) && bool_decide (lr_DeletedAt kv.2 = None) && P kv.2)
       (map_to_list (ls_rows s))).

Definition scanIdsByNamespace (k : kind) (nsPath : string) (s : pst) : result prop_error (list string) * pst :=
  if fails (ps_step s) then (Err PropFailed, tick s)
  else (Ok (scan (ps_step s) (ids_where k (λ row, bool_decide (lr_Namespace row = nsPath)) (ps_store s))), tick s).

(** [refreshConnectionsInNamespace] and its four siblings. *)
Definition refreshInNamespace (k : kind) (nsPath : string) (s : pst) : result prop_error unit * pst :=
  match scanIdsByNamespace k nsPath s with
  | (Err e, s') => (Err e, s')
  | (Ok ids, s') => for_each (recompute_row k) ids s'
  end.

Definition refreshConnectionsInNamespace : string → pst → result prop_error unit * pst := refreshInNamespace KConnection.
Definition refreshActorsInNamespace : string → pst → result prop_error unit * pst := refreshInNamespace KActor.
Definition refreshEncryptionKeysInNamespace : string → pst → result prop_error unit * pst := refreshInNamespace KKey.
Definition refreshConnectorsInNamespace : string → pst → result prop_error unit * pst := refreshInNamespace KConnector.
Definition refreshRateLimitsInNamespace : string → pst → result prop_error unit * pst := refreshInNamespace KRateLimit.

Definition is_direct_child (nsPath : string) (ns : DbNamespace) : bool :=
  sql_like (dn_Path ns) (nsPath +:+ String PathSeparator "%") &&
  bool_decide (dn_depth ns = (DepthOfPath nsPath + 1) `mod` 2 ^ 64)%Z && ns_live ns.

Definition child_paths (nsPath : string) (s : lstore) : list string :=
  map (λ kv : string * DbNamespace, dn_Path kv.2) (List.filter (λ kv : string * DbNamespace, is_direct_child nsPath kv.2) (map_to_list (ls_ns s))).

Definition directChildNamespacePaths (nsPath : string) (s : pst) : result prop_error (list string) * pst :=
  if fails (ps_step s) then (Err PropFailed, tick s)
  else (Ok (scan (ps_step s) (child_paths nsPath (ps_store s))), tick s).

(** Sequencing of steps that may fail. *)
Definition and_then {A} (r : result prop_error unit * pst) (f : pst → result prop_error A * pst) : result prop_error A * pst :=
  match r with (Err e, s) => (Err e, s) | (Ok _, s) => f s end.

(** The resources of one namespace, in the order of the code. *)
Definition refresh_resources (nsPath : string) (s : pst) : result prop_error unit * pst :=
  and_then (refreshConnectionsInNamespace nsPath s) (λ s,
  and_then (refreshActorsInNamespace nsPath s) (λ s,
  and_then (refreshEncryptionKeysInNamespace nsPath s) (λ s,
  and_then (refreshConnectorsInNamespace nsPath s) (λ s,
  refreshRateLimitsInNamespace nsPath s)))).

(** The loop over the children; [None] is running out of fuel. *)
Fixpoint for_children (refresh : string → pst → option (result prop_error unit * pst)) (paths : list string) (s : pst) :
    option (result prop_error unit * pst) :=
  match paths with
  | [] => Some (Ok (), s)
  | childPath :: paths =>
      match recomputeNamespaceLabelsTx childPath s with
      | (Err e, s') => Some (Err e, s')
      | (Ok _, s') =>
          match refresh childPath s' with
          | None => None
          | Some (Err e, s') => Some (Err e, s')
          | Some (Ok _, s') => for_children refresh paths s'
          end
      end
  end.

Fixpoint RefreshNamespaceLabelsCarryForward (fuel : nat) (nsPath : string) (s : pst) : option (result prop_error unit * pst) :=
  match fuel with
  | O => None
  | S fuel =>
      match refresh_resources nsPath s with
      | (Err e, s') => Some (Err e, s')
      | (Ok _, s') =>
          match directChildNamespacePaths nsPath s' with
          | (Err e, s') => Some (Err e, s')
          | (Ok childPaths, s') => for_children (RefreshNamespaceLabelsCarryForward fuel) childPaths s'
          end
      end
  end.

Definition RefreshConnectionsForConnector (id : string) (s : pst) : result prop_error unit * pst :=
  if fails (ps_step s) then (Err PropFailed, tick s)
  else for_each recomputeConnectionLabelsTx
         (scan (ps_step s) (ids_where KConnection (λ row, bool_decide (lr_ConnectorId row = id)) (ps_store s))) (tick s).

(** ** The daily pass *)

(** A callback of the enumeration: the number of corrections is counted. *)
Definition counted (f : string → pst → result prop_error bool * pst) (id : string) (sc : pst * Z) : option prop_error * (pst * Z) :=
  match f id sc.1 with
  | (Err e, s') => (Some e, (s', sc.2))
  | (Ok wasCorrected, s') => (None, (s', if wasCorrected then (sc.2 + 1)%Z else sc.2))
  end.

(** The rows of a listing, in the order the database returns them: no order is
    asked for, and it is taken to stay the same during a walk. *)
Context (listing : kind → gset string → list string) (ns_listing : gset string → list string).

Definition list_rows (k : kind) (sc : pst * Z) : list string :=
  listing k (list_to_set (ids_where k (λ _, true) (ps_store sc.1))).
Definition live_paths (s : lstore) : list string :=
  map (λ kv : string * DbNamespace, dn_Path kv.2) (List.filter (λ kv : string * DbNamespace, ns_live kv.2) (map_to_list (ls_ns s))).
Definition list_namespaces (sc : pst * Z) : list string := ns_listing (list_to_set (live_paths (ps_store sc.1))).

(** [reconcileNamespaces] and its five siblings: the walk and the count. *)
Definition reconcileNamespaces (batchSize fuel : nat) (s : pst) : option (option prop_error * (pst * Z)) :=
  EnumerateThrottled list_namespaces (counted recomputeNamespaceLabelsTx) batchSize fuel (s, 0%Z).
Definition reconcileRows (k : kind) (batchSize fuel : nat) (s : pst) : option (option prop_error * (pst * Z)) :=
  EnumerateThrottled (list_rows k) (counted (recompute_row k)) batchSize fuel (s, 0%Z).

Definition reconcileConnectors := reconcileRows KConnector.
Definition reconcileConnections := reconcileRows KConnection.
Definition reconcileActors := reconcileRows KActor.
Definition reconcileEncryptionKeys := reconcileRows KKey.
Definition reconcileRateLimits := reconcileRows KRateLimit.

(** The steps one after the other; an error ends the pass with what was
    corrected so far. *)
Fixpoint reconcile_steps (steps : list (nat → nat → pst → option (option prop_error * (pst * Z)))) (batchSize fuel : nat)
    (total : Z) (s : pst) : option (result prop_error unit * Z * pst) :=
  match steps with
  | [] => Some (Ok (), total, s)
  | walk :: steps =>
      match walk batchSize fuel s with
      | None => None
      | Some (Some e, (s', _)) => Some (Err e, total, s')
      | Some (None, (s', corrected)) => reconcile_steps steps batchSize fuel (total + corrected)%Z s'
      end
  end.

Definition ReconcileCarryForwardLabels (batchSize : Z) (fuel : nat) (s : pst) : option (result prop_error unit * Z * pst) :=
  let batchSize := if (batchSize <=? 0)%Z then 100%Z else batchSize in
  reconcile_steps [reconcileNamespaces; reconcileConnectors; reconcileConnections; reconcileActors; reconcileEncryptionKeys; reconcileRateLimits]
    (Z.to_nat batchSize) fuel 0 s.
End propagation.

(** ** What the labels of a row should be *)

Definition user_part (l : Labels) : Labels := (SplitUserAndApxyLabels l).1.

(** A parent with its entries in some order. *)
Definition entries_of (p : ParentCarryForward) (q : string * Labels) : Prop := pcf_Rt p = q.1 ∧ pcf_Labels p ≡ₚ map_to_list q.2.

(** The labels are what the row's own labels and those of its parents give. *)
Definition derived (inject : Labels → Labels) (ps : list (string * Labels)) (labels : Labels) : Prop :=
  ∃ parents, Forall2 entries_of parents ps ∧ labels = inject (ApplyParentCarryForward (user_part labels) parents).

Definition row_parents (k : kind) (row : LabelRow) (s : lstore) : list (string * Labels) :=
  (if decide (k = KConnection) then [(connector_token, row_labels_of KConnector (lr_ConnectorId row) s)] else []) ++
  [(NamespaceLabelToken, path_labels_of (lr_Namespace row) s)].

Definition row_consistent (s : lstore) (k : kind) (id : string) (row : LabelRow) : Prop :=
  derived (InjectSelfImplicitLabels id (lr_Name row) (lr_Namespace row)) (row_parents k row s) (lr_Labels row).

Definition ns_parent (path : string) : option string := parent_prefix (SplitPathToPrefixes path).

Definition ns_parent_labels (path : string) (s : lstore) : Labels :=
  match ns_parent path with Some p => path_labels_of p s | None => ∅ end.

Definition ns_consistent (s : lstore) (ns : DbNamespace) : Prop :=
  derived (InjectNamespaceSelfImplicitLabels (dn_Path ns)) [(NamespaceLabelToken, ns_parent_labels (dn_Path ns) s)] (dn_Labels ns).

(** Everything is as it should be, except the namespaces of [E] and the rows
    of [R]. *)
Record ok_except (E : string → Prop) (R : kind * string → Prop) (s : lstore) : Prop := {
  ok_ns : ∀ path ns, live_namespace path s = Some ns → E path ∨ ns_consistent s ns;
  ok_rows : ∀ k id row, live_row k id s = Some row → R (k, id) ∨ row_consistent s k id row
}.

(** *** Own labels *)

Lemma user_part_lookup l k : user_part l !! k = if is_apxy k then None else l !! k.
Proof. apply split_user_lookup. Qed.

Lemma user_part_overlay_apxy below above :
  (∀ k, is_Some (above !! k) → is_apxy k = true) → user_part (overlay below above) = user_part below.
Proof.
  intros Ha. apply map_eq. intros k. rewrite !user_part_lookup, overlay_lookup. destruct (is_apxy k) eqn:Hk; [done|].
  destruct (above !! k) eqn:Hak; [|done]. rewrite Ha in Hk; [done|by rewrite Hak].
Qed.

Lemma implicit_key_apxy rt leaf : is_apxy (implicit_key rt leaf) = true.
Proof. apply HasPrefix_spec. by eexists. Qed.

Lemma token_labels_apxy rt id name ns k : is_Some (BuildImplicitResourceLabelsForToken rt id name ns !! k) → is_apxy k = true.
Proof.
  unfold BuildImplicitResourceLabelsForToken. intros [v Hv].
  destruct (_ || _); [by rewrite lookup_empty in Hv|].
  do 3 (apply lookup_insert_Some in Hv as [[<- _]|[_ Hv]]; [apply implicit_key_apxy|]). by rewrite lookup_empty in Hv.
Qed.

Lemma user_part_inject id name ns l : user_part (InjectSelfImplicitLabels id name ns l) = user_part l.
Proof.
  unfold InjectSelfImplicitLabels. case_decide; [done|]. apply user_part_overlay_apxy. intros k.
  unfold BuildImplicitResourceLabels. case_decide; [rewrite lookup_empty; by intros [??]|apply token_labels_apxy].
Qed.

Lemma user_part_inject_ns path l : user_part (InjectNamespaceSelfImplicitLabels path l) = user_part l.
Proof.
  unfold InjectNamespaceSelfImplicitLabels. case_decide; [done|]. apply user_part_overlay_apxy. intros k. apply token_labels_apxy.
Qed.

Lemma user_part_apply l parents : user_part (ApplyParentCarryForward (user_part l) parents) = user_part l.
Proof.
  unfold ApplyParentCarryForward. fold (inherited parents). apply map_eq. intros k.
  rewrite !user_part_lookup, overlay_lookup, user_part_lookup. destruct (is_apxy k) eqn:Hk; [done|].
  destruct (l !! k); [done|]. destruct (inherited parents !! k) eqn:Hi; [|done].
  rewrite (inherited_apxy parents k) in Hk; [done|by rewrite Hi].
Qed.

Lemma user_part_new inject l parents :
  (∀ l, user_part (inject l) = user_part l) → user_part (inject (ApplyParentCarryForward (user_part l) parents)) = user_part l.
Proof. intros Hi. by rewrite Hi, user_part_apply. Qed.

Lemma derived_new inject ps parents l :
  (∀ l, user_part (inject l) = user_part l) → Forall2 entries_of parents ps →
  derived inject ps (inject (ApplyParentCarryForward (user_part l) parents)).
Proof. intros Hi Hp. exists parents. split; [done|]. by rewrite user_part_new. Qed.

Lemma inject_ns_overlay path l : InjectNamespaceSelfImplicitLabels path l = overlay l (BuildNamespaceImplicitResourceLabels path).
Proof.
  unfold InjectNamespaceSelfImplicitLabels. case_decide as Hs; [|done]. apply map_size_empty_inv in Hs. rewrite Hs.
  unfold overlay. by rewrite (left_id_L ∅ (∪)).
Qed.

Lemma derived_ns_lookup path parents l k :
  InjectNamespaceSelfImplicitLabels path (ApplyParentCarryForward (user_part l) parents) !! k =
  if is_apxy k then match BuildNamespaceImplicitResourceLabels path !! k with Some v => Some v | None => inherited parents !! k end
  else l !! k.
Proof.
  rewrite inject_ns_overlay. unfold ApplyParentCarryForward. fold (inherited parents). rewrite !overlay_lookup, user_part_lookup.
  destruct (is_apxy k) eqn:Hk; [done|].
  destruct (BuildNamespaceImplicitResourceLabels path !! k) eqn:Hb; [rewrite (implicit_apxy path k) in Hk; [done|by rewrite Hb]|].
  destruct (l !! k); [done|]. destruct (inherited parents !! k) eqn:Hi; [|done].
  rewrite (inherited_apxy parents k) in Hk; [done|by rewrite Hi].
Qed.

(** Replacing the own labels leaves derived labels derived. *)
Lemma derived_edit path ps l l' :
  derived (InjectNamespaceSelfImplicitLabels path) ps l → (SplitUserAndApxyLabels l').2 = (SplitUserAndApxyLabels l).2 →
  derived (InjectNamespaceSelfImplicitLabels path) ps l'.
Proof.
  intros (parents & Hp & Hl) Hs. exists parents. split; [done|]. apply map_eq. intros k. rewrite derived_ns_lookup.
  destruct (is_apxy k) eqn:Hk; [|done]. apply (f_equal (lookup k)) in Hl. rewrite derived_ns_lookup, Hk in Hl. rewrite <- Hl.
  assert ((SplitUserAndApxyLabels l').2 !! k = (SplitUserAndApxyLabels l).2 !! k) as Heq by (by rewrite Hs).
  by rewrite !split_apxy_lookup, Hk in Heq.
Qed.

(** ** The shape of a store: all but the carried labels and the times *)

Definition row_shape (row : LabelRow) : LabelRow := with_labels (user_part (lr_Labels row)) 0 row.
Definition ns_shape (ns : DbNamespace) : DbNamespace := NamespaceStore.touch 0 (set_ns_labels (user_part (dn_Labels ns)) ns).
Definition shape (s : lstore) : lstore := mkLstore (ns_shape <$> ls_ns s) (row_shape <$> ls_rows s).

(** Where a live row is, which connector a live connection uses, and which
    namespaces the walk goes on to from another. *)
Definition in_ns (s : lstore) (r : kind * string) (path : string) : Prop :=
  ∃ row, live_row r.1 r.2 s = Some row ∧ lr_Namespace row = path.
Definition uses (s : lstore) (r : kind * string) (connector : string) : Prop :=
  r.1 = KConnection ∧ ∃ row, live_row KConnection r.2 s = Some row ∧ lr_ConnectorId row = connector.

Lemma live_row_Some k id s row : live_row k id s = Some row ↔ ls_rows s !! (k, id) = Some row ∧ lr_DeletedAt row = None.
Proof. unfold live_row. destruct (ls_rows s !! (k, id)) as [r|]; [case_decide|]; naive_solver. Qed.

Lemma live_namespace_Some path s ns : live_namespace path s = Some ns ↔ ls_ns s !! path = Some ns ∧ dn_DeletedAt ns = None.
Proof. apply live_ns_Some. Qed.

Lemma shape_rows s s' r row : shape s = shape s' → ls_rows s !! r = Some row → ∃ row', ls_rows s' !! r = Some row' ∧ row_shape row = row_shape row'.
Proof.
  intros Hs Hr. apply (f_equal ls_rows) in Hs. cbn in Hs. apply (f_equal (lookup r)) in Hs. rewrite !lookup_fmap, Hr in Hs.
  destruct (ls_rows s' !! r) as [row'|]; [|done]. injection Hs as Hs. exists row'. split; [done|]. unfold row_shape, with_labels. congruence.
Qed.

Lemma shape_ns s s' p ns : shape s = shape s' → ls_ns s !! p = Some ns → ∃ ns', ls_ns s' !! p = Some ns' ∧ ns_shape ns = ns_shape ns'.
Proof.
  intros Hs Hr. apply (f_equal ls_ns) in Hs. cbn in Hs. apply (f_equal (lookup p)) in Hs. rewrite !lookup_fmap, Hr in Hs.
  destruct (ls_ns s' !! p) as [ns'|]; [|done]. exists ns'. split; [done|]. by apply (inj Some) in Hs.
Qed.

Lemma shape_live_row s s' k id row : shape s = shape s' → live_row k id s = Some row → ∃ row', live_row k id s' = Some row' ∧ row_shape row = row_shape row'.
Proof.
  intros Hs [Hr Hd]%live_row_Some. destruct (shape_rows _ _ _ _ Hs Hr) as (row' & Hr' & Heq). exists row'. split; [|done].
  apply live_row_Some. split; [done|]. injection Heq. congruence.
Qed.

Lemma shape_live_ns s s' p ns : shape s = shape s' → live_namespace p s = Some ns → ∃ ns', live_namespace p s' = Some ns' ∧ ns_shape ns = ns_shape ns'.
Proof.
  intros Hs [Hr Hd]%live_namespace_Some. destruct (shape_ns _ _ _ _ Hs Hr) as (ns' & Hr' & Heq). exists ns'. split; [|done].
  apply live_namespace_Some. split; [done|]. injection Heq. congruence.
Qed.

Lemma in_ns_shape s s' r p : shape s = shape s' → in_ns s r p → in_ns s' r p.
Proof. intros Hs (row & Hr & <-). destruct (shape_live_row _ _ _ _ _ Hs Hr) as (row' & Hr' & Heq). exists row'. split; [done|]. by injection Heq. Qed.

Lemma uses_shape s s' r x : shape s = shape s' → uses s r x → uses s' r x.
Proof. intros Hs (Hk & row & Hr & <-). destruct (shape_live_row _ _ _ _ _ Hs Hr) as (row' & Hr' & Heq). split; [done|]. exists row'. split; [done|]. by injection Heq. Qed.

(** ** One transaction *)

(** A row's labels are derived again from the store as it is. *)
Definition rewrites_row (k : kind) (id : string) (s s' : lstore) : Prop :=
  (live_row k id s = None ∧ s' = s) ∨
  ∃ row l t, live_row k id s = Some row ∧ user_part l = user_part (lr_Labels row) ∧
    derived (InjectSelfImplicitLabels id (lr_Name row) (lr_Namespace row)) (row_parents k row s) l ∧
    s' = set_row k id (with_labels l t row) s.

Definition rewrites_ns (path : string) (s s' : lstore) : Prop :=
  (live_namespace path s = None ∧ s' = s) ∨
  ∃ ns l t, live_namespace path s = Some ns ∧ user_part l = user_part (dn_Labels ns) ∧
    derived (InjectNamespaceSelfImplicitLabels (dn_Path ns)) [(NamespaceLabelToken, ns_parent_labels (dn_Path ns) s)] l ∧
    s' = set_namespace path (NamespaceStore.touch t (set_ns_labels l ns)) s.

Section steps.
Context (visit : nat → Labels → list (string * string)) (fails : nat → bool) (clock : nat → Z).
Hypothesis visit_perm : ∀ n l, visit n l ≡ₚ map_to_list l.

Lemma write_row_spec k id row l s :
  live_row k id (ps_store s) = Some row → user_part l = user_part (lr_Labels row) →
  derived (InjectSelfImplicitLabels id (lr_Name row) (lr_Namespace row)) (row_parents k row (ps_store s)) l →
  ∃ b s', writeRecomputedLabels clock k id row l s = (Ok b, s') ∧ rewrites_row k id (ps_store s) (ps_store s').
Proof.
  intros Hrow Hu Hd. unfold writeRecomputedLabels, labelsEqual. destruct (same_entries (lr_Labels row) l) eqn:He.
  - apply same_entries_eq in He as <-. do 2 eexists. split; [done|]. right. exists row, (lr_Labels row), (lr_UpdatedAt row).
    split_and!; [done..|]. cbn. destruct row as [? ? ? ? ? ?]. unfold set_row, with_labels. cbn.
    rewrite insert_id by (by apply live_row_Some in Hrow as [? _]). by destruct (ps_store s).
  - do 2 eexists. split; [done|]. right. exists row, l, (clock (ps_step s)). by split_and!.
Qed.

Lemma recompute_row_spec k id s : fails (ps_step s) = false →
  ∃ b s', recompute_row visit fails clock k id s = (Ok b, s') ∧ rewrites_row k id (ps_store s) (ps_store s').
Proof.
  intros Hf.
  assert (∀ k, k ≠ KConnection → ∃ b s', recomputeInNamespace visit fails clock k id s = (Ok b, s') ∧ rewrites_row k id (ps_store s) (ps_store s')) as Hother.
  { intros k' Hk. unfold recomputeInNamespace. rewrite Hf. destruct (live_row k' id (ps_store s)) as [row|] eqn:Hrow.
    - apply write_row_spec; [done|apply user_part_new, user_part_inject|]. apply derived_new; [apply user_part_inject|].
      unfold row_parents. rewrite decide_False by done. repeat constructor. by apply visit_perm.
    - do 2 eexists. split; [done|]. by left. }
  destruct k; try by apply Hother. cbn. unfold recomputeConnectionLabelsTx. rewrite Hf.
  destruct (live_row KConnection id (ps_store s)) as [row|] eqn:Hrow.
  - apply write_row_spec; [done|apply user_part_new, user_part_inject|]. apply derived_new; [apply user_part_inject|].
    repeat constructor; by apply visit_perm.
  - do 2 eexists. split; [done|]. by left.
Qed.

Lemma recompute_ns_spec path s : fails (ps_step s) = false →
  ∃ b s', recomputeNamespaceLabelsTx visit fails clock path s = (Ok b, s') ∧ rewrites_ns path (ps_store s) (ps_store s').
Proof.
  intros Hf. unfold recomputeNamespaceLabelsTx. rewrite Hf. destruct (live_namespace path (ps_store s)) as [ns|] eqn:Hns.
  2:{ do 2 eexists. split; [done|]. by left. }
  fold (ns_parent (dn_Path ns)). fold (ns_parent_labels (dn_Path ns) (ps_store s)). fold (user_part (dn_Labels ns)).
  match goal with |- context [writeRecomputedNamespaceLabels _ _ _ ?l] => set (new := l) end.
  assert (user_part new = user_part (dn_Labels ns)) as Hu by (apply user_part_new, user_part_inject_ns).
  assert (derived (InjectNamespaceSelfImplicitLabels (dn_Path ns)) [(NamespaceLabelToken, ns_parent_labels (dn_Path ns) (ps_store s))] new) as Hd.
  { apply derived_new; [apply user_part_inject_ns|]. repeat constructor. by apply visit_perm. }
  clearbody new. unfold writeRecomputedNamespaceLabels, labelsEqual. destruct (same_entries (dn_Labels ns) new) eqn:He.
  - apply same_entries_eq in He as <-. do 2 eexists. split; [done|]. right. exists ns, (dn_Labels ns), (dn_UpdatedAt ns). split_and!; [done..|].
    cbn. destruct ns as []. unfold set_namespace, NamespaceStore.touch. cbn.
    rewrite insert_id by (by apply live_namespace_Some in Hns as [? _]). by destruct (ps_store s).
  - do 2 eexists. split; [done|]. right. exists ns, new, (clock (ps_step s)). by split_and!.
Qed.
End steps.

(** *** What one transaction does to the rest *)

(** Namespaces are stored under their own valid paths, with the depth of the
    path, which Go's integers can represent. *)
Definition lwf (s : lstore) : Prop :=
  ∀ path ns, ls_ns s !! path = Some ns →
    dn_Path ns = path ∧ dn_depth ns = DepthOfPath path ∧ ∃ segs, valid_segs segs ∧ path = render segs ∧ (Z.of_nat (length segs) < 2 ^ 63)%Z.

Lemma lwf_shape s s' : shape s = shape s' → lwf s → lwf s'.
Proof.
  intros Hs Hw path ns Hns. destruct (shape_ns s' s path ns) as (ns' & Hns' & Heq); [done..|].
  injection Heq as Hp Hd. destruct (Hw _ _ Hns') as (? & ? & ?). split_and!; [congruence..|done].
Qed.

Lemma ns_parent_snoc segs x : valid_segs (segs ++ [x]) → ns_parent (render (segs ++ [x])) = Some (render segs).
Proof. apply parent_prefix_render. Qed.

Lemma ns_parent_inv segs p : valid_segs segs → ns_parent (render segs) = Some p → ∃ q x, segs = q ++ [x] ∧ p = render q.
Proof.
  intros Hs Hp. destruct segs as [|x q _] using rev_ind; [done|]. rewrite ns_parent_snoc in Hp by done.
  injection Hp as <-. by exists q, x.
Qed.

Lemma ns_parent_ne segs : valid_segs segs → ns_parent (render segs) ≠ Some (render segs).
Proof.
  intros Hs Hp. destruct (ns_parent_inv segs (render segs) Hs Hp) as (q & x & -> & Heq).
  apply render_inj in Heq; [|done|by apply valid_segs_app in Hs as [? _]].
  apply (f_equal length) in Heq. rewrite length_app in Heq. cbn in Heq. lia.
Qed.

Lemma live_row_set k id row s k' id' :
  lr_DeletedAt row = None → live_row k' id' (set_row k id row s) = if decide ((k', id') = (k, id)) then Some row else live_row k' id' s.
Proof.
  intros Hd. unfold live_row, set_row. cbn. case_decide as He.
  - rewrite He, lookup_insert_eq. by rewrite decide_True.
  - by rewrite lookup_insert_ne.
Qed.

Lemma live_namespace_set path ns s p :
  dn_DeletedAt ns = None → live_namespace p (set_namespace path ns s) = if decide (p = path) then Some ns else live_namespace p s.
Proof.
  intros Hd. unfold live_namespace, set_namespace, live_ns. cbn. case_decide as He.
  - subst. rewrite lookup_insert_eq. unfold ns_live. by rewrite bool_decide_true.
  - by rewrite lookup_insert_ne.
Qed.

Lemma rewrites_row_shape k id s s' : rewrites_row k id s s' → shape s' = shape s.
Proof.
  intros [[_ ->]|(row & l & t & Hrow & Hu & _ & ->)]; [done|]. unfold shape, set_row. cbn. f_equal. rewrite fmap_insert.
  rewrite insert_id; [done|]. rewrite lookup_fmap. apply live_row_Some in Hrow as [-> _].
  unfold row_shape. cbn [fmap option_fmap option_map with_labels lr_Labels lr_Name lr_Namespace lr_ConnectorId lr_DeletedAt]. by rewrite Hu.
Qed.

Lemma rewrites_ns_shape path s s' : rewrites_ns path s s' → shape s' = shape s.
Proof.
  intros [[_ ->]|(ns & l & t & Hns & Hu & _ & ->)]; [done|]. unfold shape, set_namespace. cbn. f_equal. rewrite fmap_insert.
  rewrite insert_id; [done|]. rewrite lookup_fmap. apply live_namespace_Some in Hns as [-> _].
  unfold ns_shape, NamespaceStore.touch, set_ns_times, set_ns_labels.
  cbn [fmap option_fmap option_map dn_Path dn_depth dn_State dn_KeyId dn_TargetDataEncryptionKeyId dn_Labels dn_Annotations dn_CreatedAt dn_UpdatedAt dn_DeletedAt].
  by rewrite Hu.
Qed.

Lemma ok_mono E E' R R' s :
  ok_except E R s → (∀ p ns, live_namespace p s = Some ns → E p → E' p) → (∀ k id row, live_row k id s = Some row → R (k, id) → R' (k, id)) →
  ok_except E' R' s.
Proof. intros [Hn Hr] HE HR. split; [intros p ns Hp; destruct (Hn p ns Hp); eauto|intros k id row Hrow; destruct (Hr k id row Hrow); eauto]. Qed.

Lemma rewrites_row_ok E R k id s s' :
  rewrites_row k id s s' → ok_except E R s →
  ok_except E (λ r, (R r ∧ r ≠ (k, id)) ∨ (k = KConnector ∧ uses s r id)) s'.
Proof.
  intros [[Hno ->]|(row & l & t & Hrow & Hu & Hd & ->)] Hok.
  { eapply ok_mono; [exact Hok|by auto|]. cbn. intros k' id' row' Hr' HR. left. split; [done|]. intros [= -> ->]. congruence. }
  destruct Hok as [Hns Hrows]. assert (lr_DeletedAt row = None) as Hlive by (by apply live_row_Some in Hrow as [_ ?]). split.
  - intros p ns Hp. exact (Hns p ns Hp).
  - intros k' id' row'. rewrite live_row_set by done. case_decide as He.
    + injection He as -> ->. intros [= <-]. right. unfold row_consistent. cbn [lr_Name lr_Namespace lr_Labels with_labels].
      replace (row_parents k (with_labels l t row) (set_row k id (with_labels l t row) s)) with (row_parents k row s); [done|].
      unfold row_parents. cbn [lr_ConnectorId lr_Namespace with_labels]. f_equal. case_decide as Hk; [|done]. subst k. do 2 f_equal.
      unfold row_labels_of. by rewrite live_row_set, decide_False.
    + intros Hr'. destruct (Hrows k' id' row' Hr') as [HR|Hc]; [by left; left|].
      destruct (decide (k' = KConnection ∧ k = KConnector ∧ lr_ConnectorId row' = id)) as [(-> & -> & Hx)|Hne].
      { left. right. split; [done|]. split; [done|]. by exists row'. }
      right. unfold row_consistent in *. replace (row_parents k' row' (set_row k id (with_labels l t row) s)) with (row_parents k' row' s); [done|].
      unfold row_parents. f_equal. case_decide as Hk; [|done]. subst k'. do 2 f_equal.
      unfold row_labels_of. rewrite live_row_set by done. rewrite decide_False; [done|]. intros [= <- <-]. by apply Hne.
Qed.

(** New labels of a namespace that are as they should be leave its children
    and what is in it to be done. *)
Lemma set_namespace_ok E R path ns l t s :
  lwf s → live_namespace path s = Some ns →
  derived (InjectNamespaceSelfImplicitLabels (dn_Path ns)) [(NamespaceLabelToken, ns_parent_labels (dn_Path ns) s)] l → ok_except E R s →
  ok_except (λ p, (E p ∧ p ≠ path) ∨ ns_parent p = Some path) (λ r, R r ∨ in_ns s r path)
    (set_namespace path (NamespaceStore.touch t (set_ns_labels l ns)) s).
Proof.
  intros Hwf Hns Hd [Hnss Hrows]. pose proof Hns as [Hin Hlive]%live_namespace_Some.
  destruct (Hwf _ _ Hin) as (Hpath & _ & segs & Hs & Hr & _). set (ns' := NamespaceStore.touch t (set_ns_labels l ns)).
  assert (∀ p, p ≠ path → path_labels_of p (set_namespace path ns' s) = path_labels_of p s) as Hlabels.
  { intros p Hp. unfold path_labels_of. by rewrite live_namespace_set, decide_False. }
  split.
  - intros p m. rewrite live_namespace_set by done. case_decide as He.
    + subst p. intros [= <-]. right. unfold ns_consistent. cbn [dn_Path dn_Labels ns' NamespaceStore.touch set_ns_times set_ns_labels].
      unfold ns_parent_labels in *. destruct (ns_parent (dn_Path ns)) as [q|] eqn:Hq; [|done]. rewrite Hlabels; [done|].
      intros ->. rewrite Hpath, Hr in Hq. by eapply ns_parent_ne.
    + intros Hm. destruct (Hnss p m Hm) as [HE|Hc]; [by left; left|].
      destruct (decide (ns_parent p = Some path)) as [Hp|Hp]; [by left; right|]. right.
      unfold ns_consistent, ns_parent_labels in *. apply live_namespace_Some in Hm as [Hm _]. destruct (Hwf _ _ Hm) as (Hmp & _).
      rewrite Hmp in *. destruct (ns_parent p) as [q|]; [|done]. rewrite Hlabels by congruence. done.
  - intros k id row Hrow. destruct (Hrows k id row Hrow) as [HR|Hc]; [by left; left|].
    destruct (decide (lr_Namespace row = path)) as [Hp|Hp]; [left; right; by exists row|]. right.
    unfold row_consistent, row_parents in *. by rewrite Hlabels.
Qed.

Lemma rewrites_ns_ok E R path s s' :
  lwf s → rewrites_ns path s s' → ok_except E R s →
  ok_except (λ p, (E p ∧ p ≠ path) ∨ ns_parent p = Some path) (λ r, R r ∨ in_ns s r path) s'.
Proof.
  intros Hwf [[Hno ->]|(ns & l & t & Hns & Hu & Hd & ->)] Hok; [|by apply set_namespace_ok].
  eapply ok_mono; [exact Hok| |by auto]. cbn. intros p ns Hp HE. left. split; [done|]. intros ->. congruence.
Qed.

(** ** The walk *)

Section walk.
Context (visit : nat → Labels → list (string * string)) (fails : nat → bool) (clock : nat → Z).
Hypothesis visit_perm : ∀ n l, visit n l ≡ₚ map_to_list l.
Hypothesis never_fails : ∀ n, fails n = false.

Local Abbreviation recompute_row := (recompute_row visit fails clock).

(** A call succeeds, keeps the shape, and changes what is in order. *)
Definition effect {A} (r : result prop_error A * pst) (s : pst)
    (EE : (string → Prop) → string → Prop) (RR : (kind * string → Prop) → kind * string → Prop) : Prop :=
  ∃ a s', r = (Ok a, s') ∧ shape (ps_store s') = shape (ps_store s) ∧
    ∀ E R, ok_except E R (ps_store s) → ok_except (EE E) (RR R) (ps_store s').

Lemma elem_of_ids_where k P s id : id ∈ ids_where k P s ↔ ∃ row, live_row k id s = Some row ∧ P row = true.
Proof.
  unfold ids_where. rewrite list_elem_of_In, in_map_iff. split.
  - intros ([[k' id'] row] & <- & [Hin Hf]%filter_In). cbn in *. rewrite !andb_true_iff, !bool_decide_eq_true in Hf. destruct Hf as [[-> Hd] HP].
    exists row. split; [|done]. apply live_row_Some. split; [|done]. by apply elem_of_map_to_list, list_elem_of_In.
  - intros (row & [Hrow Hd]%live_row_Some & HP). exists ((k, id), row). split; [done|]. apply filter_In. split.
    + by apply list_elem_of_In, elem_of_map_to_list.
    + cbn. by rewrite !bool_decide_true, HP.
Qed.

Lemma for_each_effect k ids s :
  effect (for_each (recompute_row k) ids s) s (λ E, E)
    (λ R r, (R r ∧ ¬ (r.1 = k ∧ r.2 ∈ ids)) ∨ (k = KConnector ∧ ∃ x, x ∈ ids ∧ uses (ps_store s) r x)).
Proof.
  revert s. induction ids as [|id ids IH]; intros s; cbn [for_each].
  { exists (), s. split_and!; [done..|]. intros E R Hok. eapply ok_mono; [exact Hok|done|]. cbn. intros k' id' row _ HR. left. split; [done|]. set_solver. }
  destruct (recompute_row_spec visit fails clock visit_perm k id s) as (b & s1 & -> & Hrw); [done|].
  destruct (IH s1) as (a & s2 & -> & Hsh & Heff). pose proof (rewrites_row_shape _ _ _ _ Hrw) as Hsh1.
  exists a, s2. split_and!; [done|congruence|]. intros E R Hok. eapply ok_mono; [apply Heff; eapply rewrites_row_ok; [exact Hrw|exact Hok]|done|].
  cbn. intros k' id' row _ [[[[HR Hne]|[-> Hu]] Hnot]|[-> (x & Hx & Hu)]].
  - left. split; [done|]. intros [-> [->|Hin]%elem_of_cons]; [done|]. by apply Hnot.
  - right. split; [done|]. exists id. split; [set_solver|done].
  - right. split; [done|]. exists x. split; [set_solver|]. eapply uses_shape; [|exact Hu]. done.
Qed.

Lemma effect_seq {A} (r : result prop_error unit * pst) (f : pst → result prop_error A * pst) s EE RR EE' RR' :
  effect r s EE RR →
  (∀ s', shape (ps_store s') = shape (ps_store s) → effect (f s') s' EE' RR') →
  effect (and_then r f) s (λ E, EE' (EE E)) (λ R, RR' (RR R)).
Proof.
  intros (a & s1 & -> & Hsh & He) Hf. destruct (Hf s1 Hsh) as (b & s2 & Hr & Hsh2 & He2). exists b, s2. cbn. split_and!; [done|congruence|].
  intros E R Hok. by apply He2, He.
Qed.

Lemma effect_mono {A} (r : result prop_error A * pst) s EE RR EE' RR' :
  effect r s EE RR →
  (∀ E p, (∃ ns, live_namespace p (ps_store s) = Some ns) → EE E p → EE' E p) →
  (∀ R k id, (∃ row, live_row k id (ps_store s) = Some row) → RR R (k, id) → RR' R (k, id)) →
  effect r s EE' RR'.
Proof.
  intros (a & s' & -> & Hsh & He) HE HR. exists a, s'. split_and!; [done..|]. intros E R Hok.
  eapply ok_mono; [by apply He| |].
  - intros p ns Hp. apply HE. destruct (shape_live_ns _ _ _ _ Hsh Hp) as (ns' & ? & _). by exists ns'.
  - intros k id row Hr. apply HR. destruct (shape_live_row _ _ _ _ _ Hsh Hr) as (row' & ? & _). by exists row'.
Qed.

Section tree.
Context (scan : nat → list string → list string) (sql_like : string → string → bool).
Hypothesis scan_perm : ∀ n l, scan n l ≡ₚ l.
Hypothesis like_complete : like_prefix_complete sql_like.

Local Abbreviation refreshInNamespace := (refreshInNamespace visit fails clock scan).
Local Abbreviation refresh_resources := (refresh_resources visit fails clock scan).
Local Abbreviation Refresh := (RefreshNamespaceLabelsCarryForward visit fails clock scan sql_like).

Lemma refreshInNamespace_effect k p s :
  effect (refreshInNamespace k p s) s (λ E, E)
    (λ R r, (R r ∧ ¬ (r.1 = k ∧ in_ns (ps_store s) r p)) ∨
            (k = KConnector ∧ ∃ x, in_ns (ps_store s) (KConnector, x) p ∧ uses (ps_store s) r x)).
Proof.
  unfold LabelPropagation.refreshInNamespace, scanIdsByNamespace. rewrite never_fails.
  set (ids := scan _ _).
  assert (∀ id, id ∈ ids ↔ in_ns (ps_store s) (k, id) p) as Hids.
  { intros id. unfold ids. rewrite scan_perm, elem_of_ids_where. unfold in_ns. cbn. setoid_rewrite bool_decide_eq_true. done. }
  destruct (for_each_effect k ids (tick s)) as (a & s' & -> & Hsh & Heff). exists a, s'. split_and!; [done..|].
  intros E R Hok. eapply ok_mono; [by apply Heff|done|]. cbn. intros k' id' row _ [[HR Hnot]|[-> (x & Hx & Hu)]].
  - left. split; [done|]. intros [-> Hin]. apply Hnot. split; [done|]. by apply Hids.
  - right. split; [done|]. exists x. split; [by apply Hids|done].
Qed.

(** A connector's connections are in order again after its labels changed. *)
Lemma RefreshConnectionsForConnector_effect x s :
  effect (RefreshConnectionsForConnector visit fails clock scan x s) s (λ E, E) (λ R r, R r ∧ ¬ uses (ps_store s) r x).
Proof.
  unfold RefreshConnectionsForConnector. rewrite never_fails. set (ids := scan _ _).
  destruct (for_each_effect KConnection ids (tick s)) as (a & s' & Hr & Hsh & Heff). cbn in Hr. rewrite Hr. exists a, s'. split_and!; [done..|].
  intros E R Hok. eapply ok_mono; [by apply Heff|done|]. cbn. intros k id row _ [[HR Hnot]|[[=] _]]. split; [done|].
  intros (Hk & row' & Hrow' & Hx). cbn in Hk. subst k. apply Hnot. split; [done|]. unfold ids. rewrite scan_perm, elem_of_ids_where.
  exists row'. split; [done|]. by apply bool_decide_eq_true.
Qed.

Lemma refresh_shape_effect k p s s' : shape (ps_store s') = shape (ps_store s) →
  effect (refreshInNamespace k p s') s' (λ E, E)
    (λ R r, (R r ∧ ¬ (r.1 = k ∧ in_ns (ps_store s) r p)) ∨
            (k = KConnector ∧ ∃ x, in_ns (ps_store s) (KConnector, x) p ∧ uses (ps_store s) r x)).
Proof.
  intros Hsh. eapply effect_mono; [apply refreshInNamespace_effect|done|]. cbn. intros R k' id' _ [[HR Hn]|[-> (x & Hx & Hu)]].
  - left. split; [done|]. intros [-> Hin]. apply Hn. split; [done|]. eapply in_ns_shape; [|exact Hin]. done.
  - right. split; [done|]. exists x. split; [by eapply in_ns_shape|by eapply uses_shape].
Qed.

(** The rows of the namespace are in order again, but connections of its
    connectors may not be: connectors come after connections. *)
Lemma refresh_resources_effect p s :
  effect (refresh_resources p s) s (λ E, E)
    (λ R r, (R r ∧ ¬ in_ns (ps_store s) r p) ∨ ∃ x, in_ns (ps_store s) (KConnector, x) p ∧ uses (ps_store s) r x).
Proof.
  eapply effect_mono.
  - unfold LabelPropagation.refresh_resources. eapply effect_seq; [by apply (refresh_shape_effect KConnection p s)|intros s1 H1].
    eapply effect_seq; [by apply (refresh_shape_effect KActor p s)|intros s2 H2].
    eapply effect_seq; [apply (refresh_shape_effect KKey p s); congruence|intros s3 H3].
    eapply effect_seq; [apply (refresh_shape_effect KConnector p s); congruence|intros s4 H4].
    apply (refresh_shape_effect KRateLimit p s). congruence.
  - done.
  - cbn. intros R k id _ H. destruct_or! H; try (destruct H as [? _]; done).
    all: repeat match goal with H : (_ ∧ _) |- _ => destruct H | H : (_ ∨ _) |- _ => destruct H | H : ∃ _, _ |- _ => destruct H end; try done.
    + left. split; [done|]. intros Hin. destruct k; naive_solver.
    + right. naive_solver.
Qed.

(** *** Which namespaces the walk reaches *)

Definition is_child (s : lstore) (p c : string) : Prop :=
  ∃ ns, live_namespace c s = Some ns ∧ is_direct_child sql_like p ns = true.

Inductive reached (s : lstore) : string → string → Prop :=
  | reached_refl p : reached s p p
  | reached_step p c q : is_child s p c → reached s c q → reached s p q.

Definition below (s : lstore) (p q : string) : Prop := ∃ c, is_child s p c ∧ reached s c q.

(** A connection whose connector is reached, and which is not itself reached
    after it. *)
Definition stale (s : lstore) (p : string) (r : kind * string) : Prop :=
  ∃ q x, reached s p q ∧ in_ns s (KConnector, x) q ∧ uses s r x ∧ ¬ ∃ n, below s q n ∧ in_ns s r n.

Lemma is_child_shape s s' p c : shape s = shape s' → is_child s p c → is_child s' p c.
Proof.
  intros Hs (ns & Hns & Hc). destruct (shape_live_ns _ _ _ _ Hs Hns) as (ns' & Hns' & Heq). exists ns'. split; [done|].
  revert Hc. unfold is_direct_child, ns_live. injection Heq as Hp Hd _ _ _ _ _ _ Hdel. by rewrite Hp, Hd, Hdel.
Qed.

Lemma reached_shape s s' p q : shape s = shape s' → reached s p q → reached s' p q.
Proof. intros Hs. induction 1; [constructor|econstructor; [by eapply is_child_shape|done]]. Qed.

Lemma below_shape s s' p q : shape s = shape s' → below s p q → below s' p q.
Proof. intros Hs (c & Hc & Hr). exists c. split; [by eapply is_child_shape|by eapply reached_shape]. Qed.

Lemma stale_shape s s' p r : shape s = shape s' → stale s p r → stale s' p r.
Proof.
  intros Hs (q & x & Hq & Hx & Hu & Hn). exists q, x. split_and!; [by eapply reached_shape|by eapply in_ns_shape|by eapply uses_shape|].
  intros (n & Hb & Hi). apply Hn. exists n. split; [by eapply below_shape|by eapply in_ns_shape].
Qed.

Definition seen (s : lstore) (p : string) (r : kind * string) : Prop := ∃ q, reached s p q ∧ in_ns s r q.

Lemma seen_shape s s' p r : shape s = shape s' → seen s p r → seen s' p r.
Proof. intros Hs (q & Hq & Hi). exists q. split; [by eapply reached_shape|by eapply in_ns_shape]. Qed.

(** What is out of order after the walk from [p]. *)
Definition after_walk (s : lstore) (p : string) (R : kind * string → Prop) (r : kind * string) : Prop :=
  (R r ∧ ¬ seen s p r) ∨ stale s p r.

Definition walk_effect (r : option (result prop_error unit * pst)) (p : string) (s : pst) : Prop :=
  ∃ r', r = Some r' ∧ effect r' s (λ E x, E x ∧ ns_parent x ≠ Some p) (after_walk (ps_store s) p).

(** The loop over the children, when the walk from each does its work. *)
Lemma for_children_effect refresh paths s :
  lwf (ps_store s) →
  (∀ c s', c ∈ paths → shape (ps_store s') = shape (ps_store s) → walk_effect (refresh c s') c s') →
  ∃ r, for_children visit fails clock refresh paths s = Some r ∧
    effect r s (λ E x, E x ∧ x ∉ paths)
      (λ R r, (R r ∧ ∀ c, c ∈ paths → ¬ seen (ps_store s) c r) ∨ ∃ c, c ∈ paths ∧ stale (ps_store s) c r).
Proof.
  revert s. induction paths as [|c paths IH]; intros s Hwf Href; cbn [for_children].
  { eexists. split; [done|]. exists (), s. split_and!; [done..|]. intros E R Hok. eapply ok_mono; [exact Hok|set_solver|]. cbn. intros. left. split; [done|set_solver]. }
  destruct (recompute_ns_spec visit fails clock visit_perm c s) as (b & s1 & -> & Hrw); [done|].
  pose proof (rewrites_ns_shape _ _ _ Hrw) as Hsh1.
  destruct (Href c s1) as (r1 & -> & a & s2 & -> & Hsh2 & He2); [set_solver|done|].
  destruct (IH s2) as (r & -> & a' & s3 & -> & Hsh3 & He3).
  { eapply lwf_shape; [|exact Hwf]. congruence. }
  { intros c' s' Hc' Hs'. apply Href; [set_solver|congruence]. }
  eexists. split; [done|]. exists a', s3. split_and!; [done|congruence|]. intros E R Hok.
  eapply ok_mono; [apply He3, He2, (rewrites_ns_ok E R c); [done..|exact Hok]|..]; cbn.
  - intros x ns _ [[[[HE Hne]|Hp] Hnp] Hx]; [|done]. split; [done|set_solver].
  - intros k id row _ [[[[[HR|Hin] Hseen]|Hst] Hrest]|(c' & Hc' & Hst)].
    + left. split; [done|]. intros c' [->|Hc']%elem_of_cons Hs.
      * apply Hseen. eapply seen_shape; [|exact Hs]. done.
      * eapply Hrest; [done|]. eapply seen_shape; [|exact Hs]. congruence.
    + exfalso. apply Hseen. exists c. split; [constructor|]. eapply in_ns_shape; [|exact Hin]. done.
    + right. exists c. split; [set_solver|]. eapply stale_shape; [|exact Hst]. done.
    + right. exists c'. split; [set_solver|]. eapply stale_shape; [|exact Hst]. congruence.
Qed.

(** *** The children *)

Lemma elem_of_child_paths p s c : lwf s → c ∈ child_paths sql_like p s ↔ is_child s p c.
Proof.
  intros Hwf. unfold child_paths, is_child. rewrite list_elem_of_In, in_map_iff. split.
  - intros ([path ns] & <- & [Hin Hf]%filter_In). cbn in *. apply list_elem_of_In, elem_of_map_to_list in Hin.
    destruct (Hwf _ _ Hin) as (-> & _). exists ns. split; [|done]. apply live_namespace_Some. split; [done|].
    unfold is_direct_child, ns_live in Hf. by bool_simpl.
  - intros (ns & [Hns Hd]%live_namespace_Some & Hc). exists (c, ns). split; [by apply (Hwf _ _ Hns)|].
    apply filter_In. split; [|done]. by apply list_elem_of_In, elem_of_map_to_list.
Qed.

(** Every child in the tree is found. *)
Lemma tree_child s p c ns : lwf s → live_namespace c s = Some ns → ns_parent c = Some p → is_child s p c.
Proof.
  intros Hwf Hns Hp. exists ns. split; [done|]. apply live_namespace_Some in Hns as [Hns Hd].
  destruct (Hwf _ _ Hns) as (Hpath & Hdepth & segs & Hs & -> & Hlen).
  destruct (ns_parent_inv segs p Hs Hp) as (q & x & -> & ->). pose proof Hs as [Hq Hx]%valid_segs_app.
  rewrite length_app in Hlen. cbn in Hlen. unfold is_direct_child, ns_live. rewrite Hpath, Hdepth, Hd. rewrite !andb_true_iff. split_and!.
  - rewrite render_snoc. by apply like_complete.
  - apply bool_decide_eq_true. rewrite !DepthOfPath_render by (done || (rewrite ?length_app; cbn; lia)). rewrite length_app. cbn.
    rewrite Z.mod_small by lia. lia.
  - by apply bool_decide_eq_true.
Qed.

(** A child that is found is one level down. *)
Lemma child_depth s segs c :
  lwf s → valid_segs segs → (Z.of_nat (length segs) < 2 ^ 63)%Z → is_child s (render segs) c →
  ∃ segs', valid_segs segs' ∧ c = render segs' ∧ length segs' = S (length segs) ∧ (Z.of_nat (length segs') < 2 ^ 63)%Z.
Proof.
  intros Hwf Hs Hlen (ns & [Hns _]%live_namespace_Some & Hc). destruct (Hwf _ _ Hns) as (_ & Hdepth & segs' & Hs' & -> & Hlen').
  exists segs'. split_and!; [done..| |done]. unfold is_direct_child in Hc. bool_simpl.
  rewrite Hdepth, !DepthOfPath_render in * by (done || lia). rewrite Z.mod_small in * by lia. lia.
Qed.

(** The deepest namespace, which bounds the recursion. *)
Definition depth_bound (s : lstore) (D : nat) : Prop := ∀ segs, valid_segs segs → is_Some (ls_ns s !! render segs) → (length segs ≤ D)%nat.

Lemma depth_bound_shape s s' D : shape s = shape s' → depth_bound s D → depth_bound s' D.
Proof. intros Hs Hb segs Hv [ns Hns]. destruct (shape_ns s' s _ _ (eq_sym Hs) Hns) as (ns' & Hns' & _). by apply Hb; [|exists ns']. Qed.

Lemma refresh_effect D fuel segs s :
  lwf (ps_store s) → depth_bound (ps_store s) D → valid_segs segs → (Z.of_nat (length segs) < 2 ^ 63)%Z →
  (0 < fuel)%nat → (D < fuel + length segs)%nat →
  walk_effect (Refresh fuel (render segs) s) (render segs) s.
Proof.
  revert segs s. induction fuel as [|fuel IH]; intros segs s Hwf HD Hs Hlen Hpos Hfuel; [lia|]. cbn [RefreshNamespaceLabelsCarryForward].
  destruct (refresh_resources_effect (render segs) s) as (a & s1 & -> & Hsh1 & He1).
  unfold directChildNamespacePaths. rewrite never_fails. set (paths := scan _ _).
  assert (lwf (ps_store s1)) as Hwf1 by (by eapply lwf_shape; [|exact Hwf]).
  assert (∀ c, c ∈ paths ↔ is_child (ps_store s) (render segs) c) as Hpaths.
  { intros c. unfold paths. rewrite scan_perm, elem_of_child_paths by done. split; apply is_child_shape; done. }
  destruct (for_children_effect (Refresh fuel) paths (tick s1)) as (r & -> & a' & s2 & -> & Hsh2 & He2); [done| |].
  { intros c s' Hc Hs'. apply Hpaths in Hc. destruct (child_depth (ps_store s) segs c) as (segs' & Hv' & -> & Hl' & Hsm'); [done..|].
    assert (shape (ps_store s') = shape (ps_store s)) as Hss by (rewrite Hs'; exact Hsh1).
    assert (length segs' ≤ D)%nat as HlD by (destruct Hc as (ns & [Hns _]%live_namespace_Some & _); by apply HD; [|exists ns]).
    apply IH; [eapply lwf_shape; [|exact Hwf]; done|eapply depth_bound_shape; [|exact HD]; done|done|done|lia|lia]. }
  eexists. split; [done|]. exists a', s2. cbn in Hsh2. split_and!; [done|congruence|]. intros E R Hok.
  eapply ok_mono; [apply He2, He1; exact Hok|..]; cbn.
  - intros x ns Hx [HE Hnot]. split; [done|]. intros Hp. apply Hnot, Hpaths.
    destruct (shape_live_ns _ (ps_store s) _ _ ltac:(by rewrite Hsh2, Hsh1) Hx) as (ns' & Hx' & _). by eapply tree_child.
  - assert (∀ r, (∀ c, c ∈ paths → ¬ seen (ps_store s1) c r) → ¬ ∃ n, below (ps_store s) (render segs) n ∧ in_ns (ps_store s) r n) as Hnb.
    { intros r0 Hc (n & (c & Hcc & Hr) & Hi). apply (Hc c); [by apply Hpaths|]. eapply seen_shape; [|exists n; split; [exact Hr|exact Hi]]. done. }
    intros k id row _ [[[[HR Hin]|(x & Hx & Hu)] Hrest]|(c & Hc & Hst)].
    + left. split; [done|]. intros (q & Hq & Hi). inversion Hq as [|? c ? Hcc Hr]; subst; [done|].
      apply (Hnb _ Hrest). exists q. split; [by exists c|done].
    + right. exists (render segs), x. split_and!; [constructor|done..|by apply Hnb].
    + right. apply Hpaths in Hc. apply (stale_shape _ (ps_store s)) in Hst; [|done].
      destruct Hst as (q & x & Hq & Hrest). exists q, x. split; [|done]. by econstructor.
Qed.

End tree.

(** *** The daily pass *)

Section daily.
Context (listing : kind → gset string → list string) (ns_listing : gset string → list string).
Hypothesis listing_perm : ∀ k X, listing k X ≡ₚ elements X.
Hypothesis ns_listing_perm : ∀ X, ns_listing X ≡ₚ elements X.

(** No namespace comes before its parent. *)
Definition parents_first (paths : list string) : Prop :=
  ∀ l1 x l2 p, paths = l1 ++ x :: l2 → ns_parent x = Some p → p ∉ l2.

Local Abbreviation recompute_ns := (recomputeNamespaceLabelsTx visit fails clock).

Lemma for_each_ns_effect paths s :
  lwf (ps_store s) → parents_first paths → (∀ x, x ∈ paths → is_Some (live_namespace x (ps_store s))) →
  effect (for_each recompute_ns paths s) s (λ E x, (E x ∨ ∃ c, c ∈ paths ∧ ns_parent x = Some c) ∧ x ∉ paths) (λ R r, True).
Proof.
  revert s. induction paths as [|c paths IH]; intros s Hwf Hpf Hlive; cbn [for_each].
  { exists (), s. split_and!; [done..|]. intros E R Hok. eapply ok_mono; [exact Hok| |by auto]. cbn. intros p ns _ HE. split; [by left|set_solver]. }
  destruct (recompute_ns_spec visit fails clock visit_perm c s) as (b & s1 & -> & Hrw); [done|].
  pose proof (rewrites_ns_shape _ _ _ Hrw) as Hsh1.
  destruct (IH s1) as (a & s2 & -> & Hsh2 & He2).
  { by eapply lwf_shape; [|exact Hwf]. }
  { intros l1 x l2 p Heq. apply (Hpf (c :: l1)). by rewrite Heq. }
  { intros x Hx. destruct (Hlive x) as [ns Hns]; [set_solver|]. destruct (shape_live_ns _ (ps_store s1) _ _ (eq_sym Hsh1) Hns) as (ns' & ? & _). by exists ns'. }
  exists a, s2. split_and!; [done|congruence|]. intros E R Hok.
  eapply ok_mono; [eapply He2, (rewrites_ns_ok E R c); [done..|exact Hok]| |done]. cbn.
  assert (ns_parent c ≠ Some c) as Hself.
  { destruct (Hlive c) as [ns [Hns _]%live_namespace_Some]; [set_solver|]. destruct (Hwf _ _ Hns) as (_ & _ & segs & Hv & -> & _). by apply ns_parent_ne. }
  intros x ns _ [[[[HE Hne]|Hp]|(c' & Hc' & Hp)] Hx].
  - split; [by left|set_solver].
  - split; [right; exists c; split; [set_solver|done]|]. intros [->|?]%elem_of_cons; [done|set_solver].
  - split; [right; exists c'; split; [set_solver|done]|]. intros [->|?]%elem_of_cons; [|set_solver].
    by eapply (Hpf [] c paths).
Qed.

(** The callback of the enumeration does what the loop does. *)
Lemma each_key_for_each (f : string → pst → result prop_error bool * pst) ids s n a s' :
  for_each f ids s = (Ok a, s') → ∃ n', each_key (counted f) ids (s, n) = (None, (s', n')).
Proof.
  revert s n. induction ids as [|id ids IH]; intros s n; cbn; [intros [= _ <-]; by eexists|].
  unfold counted at 1. cbn. destruct (f id s) as [[e|b] s1]; [done|]. intros Hr. by apply (IH s1 (if b then (n + 1)%Z else n)).
Qed.

Lemma row_ids_shape k s s' : shape s = shape s' → list_to_set (C := gset string) (ids_where k (λ _, true) s) = list_to_set (ids_where k (λ _, true) s').
Proof.
  intros Hs. apply set_eq. intros id. rewrite !elem_of_list_to_set, !elem_of_ids_where. split; intros (row & Hr & _).
  - destruct (shape_live_row _ _ _ _ _ Hs Hr) as (row' & ? & _). by exists row'.
  - destruct (shape_live_row _ _ _ _ _ (eq_sym Hs) Hr) as (row' & ? & _). by exists row'.
Qed.

Lemma elem_of_live_paths s x : x ∈ live_paths s ↔ ∃ key ns, live_namespace key s = Some ns ∧ dn_Path ns = x.
Proof.
  unfold live_paths. rewrite list_elem_of_In, in_map_iff. split.
  - intros ([key ns] & <- & [Hin Hl]%filter_In). exists key, ns. split; [|done]. apply live_namespace_Some.
    split; [by apply elem_of_map_to_list, list_elem_of_In|]. by apply bool_decide_eq_true in Hl.
  - intros (key & ns & [Hns Hd]%live_namespace_Some & <-). exists (key, ns). split; [done|]. apply filter_In.
    split; [by apply list_elem_of_In, elem_of_map_to_list|]. by apply bool_decide_eq_true.
Qed.

Lemma ns_paths_shape s s' : shape s = shape s' → list_to_set (C := gset string) (live_paths s) = list_to_set (live_paths s').
Proof.
  intros Hs. apply set_eq. intros x. rewrite !elem_of_list_to_set, !elem_of_live_paths. split; intros (key & ns & Hn & <-).
  - destruct (shape_live_ns _ _ _ _ Hs Hn) as (ns' & ? & Heq). exists key, ns'. split; [done|]. by injection Heq.
  - destruct (shape_live_ns _ _ _ _ (eq_sym Hs) Hn) as (ns' & ? & Heq). exists key, ns'. split; [done|]. by injection Heq.
Qed.

Lemma counted_shape f (id : string) sc :
  (∀ id s, shape (ps_store (f id s).2) = shape (ps_store s)) → shape (ps_store (counted f id sc).2.1) = shape (ps_store sc.1).
Proof. intros Hf. unfold counted. specialize (Hf id sc.1). by destruct (f id sc.1) as [[e|b] s']. Qed.

Lemma recompute_row_shape k id s : shape (ps_store (recompute_row k id s).2) = shape (ps_store s).
Proof. destruct (recompute_row_spec visit fails clock visit_perm k id s) as (b & s' & -> & Hrw); [done|]. by eapply rewrites_row_shape. Qed.

Lemma recompute_ns_shape id s : shape (ps_store (recompute_ns id s).2) = shape (ps_store s).
Proof. destruct (recompute_ns_spec visit fails clock visit_perm id s) as (b & s' & -> & Hrw); [done|]. by eapply rewrites_ns_shape. Qed.

(** A walk over a listing that depends on the shape alone is the loop over the
    rows listed at its start. *)
Lemma enumerate_for_each (query : pst * Z → list string) f batch fuel s a s' :
  (∀ sc sc', shape (ps_store sc.1) = shape (ps_store sc'.1) → query sc = query sc') →
  (∀ id s, shape (ps_store (f id s).2) = shape (ps_store s)) →
  (0 < batch)%nat → (length (query (s, 0%Z)) < fuel)%nat → for_each f (query (s, 0%Z)) s = (Ok a, s') →
  ∃ n, EnumerateThrottled query (counted f) batch fuel (s, 0%Z) = Some (None, (s', n)).
Proof.
  intros Hq Hf Hb Hfuel Hr. destruct (each_key_for_each _ _ _ 0%Z _ _ Hr) as [n Hn]. exists n.
  pose proof (EnumerateThrottled_each_key query (λ x, x) (counted f)) as He. rewrite He; [|intros k sc|done..].
  - rewrite map_id. by rewrite Hn.
  - rewrite !map_id. apply Hq. by apply counted_shape.
Qed.

Lemma size_list_to_set_le (l : list string) : (size (list_to_set (C := gset string) l) ≤ length l)%nat.
Proof.
  induction l as [|x l IH]; cbn; [by rewrite size_empty|]. rewrite size_union_alt, size_singleton.
  assert (size (list_to_set l ∖ {[x]} : gset string) ≤ size (list_to_set (C := gset string) l))%nat by (apply subseteq_size; set_solver).
  lia.
Qed.

Lemma listed_rows_le k sc : (length (list_rows listing k sc) ≤ size (ls_rows (ps_store sc.1)))%nat.
Proof.
  unfold list_rows. rewrite (Permutation_length (listing_perm _ _)). change (length (elements ?X)) with (size X).
  etrans; [apply size_list_to_set_le|]. unfold ids_where. rewrite length_map. etrans; [apply List.filter_length_le|].
  by rewrite length_map_to_list.
Qed.

Lemma listed_namespaces_le sc : (length (list_namespaces ns_listing sc) ≤ size (ls_ns (ps_store sc.1)))%nat.
Proof.
  unfold list_namespaces. rewrite (Permutation_length (ns_listing_perm _)). change (length (elements ?X)) with (size X).
  etrans; [apply size_list_to_set_le|]. unfold live_paths. rewrite length_map. etrans; [apply List.filter_length_le|].
  by rewrite length_map_to_list.
Qed.

Lemma elem_of_list_rows k sc id : id ∈ list_rows listing k sc ↔ ∃ row, live_row k id (ps_store sc.1) = Some row.
Proof.
  unfold list_rows. rewrite listing_perm, elem_of_elements, elem_of_list_to_set, elem_of_ids_where. split; intros (row & ?); exists row; naive_solver.
Qed.

Lemma elem_of_list_namespaces sc x : lwf (ps_store sc.1) →
  x ∈ list_namespaces ns_listing sc ↔ ∃ ns, live_namespace x (ps_store sc.1) = Some ns.
Proof.
  intros Hwf. unfold list_namespaces. rewrite ns_listing_perm, elem_of_elements, elem_of_list_to_set, elem_of_live_paths. split.
  - intros (key & ns & Hns & <-). exists ns. pose proof Hns as [Hin _]%live_namespace_Some. by destruct (Hwf _ _ Hin) as (-> & _).
  - intros (ns & Hns). exists x, ns. split; [done|]. apply live_namespace_Some in Hns as [Hin _]. by destruct (Hwf _ _ Hin) as (-> & _).
Qed.

(** A pass over a table. *)
Definition pass_effect (r : option (option prop_error * (pst * Z))) (s : pst)
    (EE : (string → Prop) → string → Prop) (RR : (kind * string → Prop) → kind * string → Prop) : Prop :=
  ∃ n s', r = Some (None, (s', n)) ∧ shape (ps_store s') = shape (ps_store s) ∧
    ∀ E R, ok_except E R (ps_store s) → ok_except (EE E) (RR R) (ps_store s').

Lemma reconcileRows_effect k batch fuel s :
  (0 < batch)%nat → (size (ls_rows (ps_store s)) < fuel)%nat →
  pass_effect (reconcileRows visit fails clock listing k batch fuel s) s (λ E, E)
    (λ R r, (R r ∧ r.1 ≠ k) ∨ (k = KConnector ∧ r.1 = KConnection)).
Proof.
  intros Hb Hfuel. unfold reconcileRows.
  destruct (for_each_effect k (list_rows listing k (s, 0%Z)) s) as (a & s' & Hr & Hsh & He).
  edestruct (enumerate_for_each (list_rows listing k) (recompute_row k) batch fuel s) as [n Hn]; [|apply recompute_row_shape|done| |exact Hr|].
  { intros sc sc' Hs. unfold list_rows. by rewrite (row_ids_shape k _ _ Hs). }
  { pose proof (listed_rows_le k (s, 0%Z)). cbn in *. lia. }
  exists n, s'. split_and!; [done..|]. intros E R Hok. eapply ok_mono; [by apply He|done|]. cbn.
  intros k' id row Hrow [[HR Hn']|[-> (x & _ & Hu)]].
  - left. split; [done|]. intros ->. apply Hn'. split; [done|]. apply elem_of_list_rows.
    destruct (shape_live_row _ (ps_store s) _ _ _ Hsh Hrow) as (row' & ? & _). by exists row'.
  - right. split; [done|]. by destruct Hu.
Qed.

Lemma reconcileNamespaces_effect batch fuel s :
  lwf (ps_store s) → parents_first (list_namespaces ns_listing (s, 0%Z)) → (0 < batch)%nat → (size (ls_ns (ps_store s)) < fuel)%nat →
  pass_effect (reconcileNamespaces visit fails clock ns_listing batch fuel s) s (λ E x, False) (λ R r, True).
Proof.
  intros Hwf Hpf Hb Hfuel. unfold reconcileNamespaces.
  destruct (for_each_ns_effect (list_namespaces ns_listing (s, 0%Z)) s) as (a & s' & Hr & Hsh & He); [done..| |].
  { intros x [ns Hx]%elem_of_list_namespaces; [|done]. by exists ns. }
  edestruct (enumerate_for_each (list_namespaces ns_listing) recompute_ns batch fuel s) as [n Hn]; [|apply recompute_ns_shape|done| |exact Hr|].
  { intros sc sc' Hs. unfold list_namespaces. by rewrite (ns_paths_shape _ _ Hs). }
  { pose proof (listed_namespaces_le (s, 0%Z)). cbn in *. lia. }
  exists n, s'. split_and!; [done..|]. intros E R Hok. eapply ok_mono; [by apply (He E R)| |done]. cbn. intros x ns Hx [_ Hnot].
  apply Hnot, elem_of_list_namespaces; [done|]. destruct (shape_live_ns _ (ps_store s) _ _ Hsh Hx) as (ns' & ? & _). by exists ns'.
Qed.

Lemma shape_sizes s s' : shape s = shape s' → size (ls_rows s) = size (ls_rows s').
Proof. intros Hs. apply (f_equal ls_rows), (f_equal size) in Hs. cbn in Hs. by rewrite !map_size_fmap in Hs. Qed.

(** The steps of the pass one after the other. *)
Lemma reconcile_rows_steps ks batch fuel total s :
  (0 < batch)%nat → (size (ls_rows (ps_store s)) < fuel)%nat →
  ∃ total' s', reconcile_steps (map (reconcileRows visit fails clock listing) ks) batch fuel total s = Some (Ok (), total', s') ∧
    shape (ps_store s') = shape (ps_store s) ∧
    ∀ E R, ok_except E R (ps_store s) →
      ok_except E (foldl (λ R k r, (R r ∧ r.1 ≠ k) ∨ (k = KConnector ∧ r.1 = KConnection)) R ks) (ps_store s').
Proof.
  intros Hb. revert total s. induction ks as [|k ks IH]; intros total s Hfuel; cbn [map reconcile_steps foldl].
  { exists total, s. by split_and!. }
  destruct (reconcileRows_effect k batch fuel s) as (n & s1 & -> & Hsh1 & He1); [done..|].
  destruct (IH (total + n)%Z s1) as (total' & s2 & -> & Hsh2 & He2); [by rewrite (shape_sizes _ _ Hsh1)|].
  exists total', s2. split_and!; [done|congruence|]. intros E R Hok. by apply He2, He1.
Qed.

Lemma reconcile_effect batchSize fuel s :
  lwf (ps_store s) → parents_first (list_namespaces ns_listing (s, 0%Z)) →
  (size (ls_ns (ps_store s)) < fuel)%nat → (size (ls_rows (ps_store s)) < fuel)%nat →
  ∃ total s', ReconcileCarryForwardLabels visit fails clock listing ns_listing batchSize fuel s = Some (Ok (), total, s') ∧
    shape (ps_store s') = shape (ps_store s) ∧ ok_except (λ _, False) (λ _, False) (ps_store s').
Proof.
  intros Hwf Hpf Hf1 Hf2. unfold ReconcileCarryForwardLabels. set (batch := Z.to_nat _).
  assert (0 < batch)%nat as Hb by (unfold batch; case_match; lia).
  change ([_; _; _; _; _; _]) with (reconcileNamespaces visit fails clock ns_listing ::
    map (reconcileRows visit fails clock listing) [KConnector; KConnection; KActor; KKey; KRateLimit]).
  cbn [reconcile_steps]. destruct (reconcileNamespaces_effect batch fuel s) as (n & s1 & -> & Hsh1 & He1); [done..|].
  destruct (reconcile_rows_steps [KConnector; KConnection; KActor; KKey; KRateLimit] batch fuel (0 + n) s1) as (total & s2 & -> & Hsh2 & He2); [done| |].
  { by rewrite (shape_sizes _ _ Hsh1). }
  exists total, s2. split_and!; [done|congruence|].
  eapply ok_mono; [apply He2, (He1 (λ _, True) (λ _, True)); by split; auto|done|]. cbn. intros k id row _ H.
  destruct k; naive_solver.
Qed.
End daily.
End walk.

(** ** Properties *)

(** A team with a connector, a connection and an actor, below the root. *)
Definition bare_ns (path : string) (labels : Labels) : DbNamespace :=
  mkDbNamespace path (DepthOfPath path) NamespaceStateActive None None labels ∅ 0 0 None.
Definition bare_row (name path connector : string) : LabelRow := mkLabelRow name path connector ∅ 0 None.

Definition drifted : lstore := mkLstore
  (<["root" := bare_ns "root" {[ "env" := "prod" ]}]> (<["root.team" := bare_ns "root.team" {[ "tier" := "gold" ]}]>
   (<["root.team.x" := bare_ns "root.team.x" ∅]> ∅)))
  (<[(KConnector, "cxr_1") := bare_row "crm" "root.team" ""]> (<[(KConnection, "cxn_1") := bare_row "main" "root.team" "cxr_1"]>
   (<[(KActor, "act_1") := bare_row "alice" "root.team.x" ""]> ∅))).

Definition path_order (up : bool) (a b : string) : Z :=
  let d := (Z.of_nat (String.length a) - Z.of_nat (String.length b))%Z in if up then d else (- d)%Z.
Definition listed (up : bool) (X : gset string) : list string := SortFunc (path_order up) (elements X).
Definition calm : nat → bool := λ _, false.
Definition unordered : nat → list string → list string := λ _ l, l.

Definition reconcile_all (up : bool) (s : lstore) : lstore :=
  match ReconcileCarryForwardLabels (λ _, map_to_list) calm (λ _, 7%Z) (λ _, elements) (listed up) 10 10 (mkPst s 0) with
  | Some (_, _, s') => ps_store s'
  | None => s
  end.
Definition propagate (path : string) (s : lstore) : lstore :=
  match RefreshNamespaceLabelsCarryForward (λ _, map_to_list) calm (λ _, 7%Z) unordered (λ s p, standard_like p s) 5 path (mkPst s 0) with
  | Some (_, s') => ps_store s'
  | None => s
  end.

Definition tidy : lstore := reconcile_all true drifted.

(** The namespace after a user replaced its labels. *)
Definition edit (path : string) (user : Labels) (s : lstore) : lstore :=
  match live_namespace path s with
  | Some ns => set_namespace path (NamespaceStore.touch 8 (set_ns_labels (MergeApxyAndUserLabels user (SplitUserAndApxyLabels (dn_Labels ns)).2) ns)) s
  | None => s
  end.

(** C28: the labels of a namespace in a store where every row carries what its
    parents give it are changed, and the change is propagated.  The walk ends,
    with fuel for the depth of the tree, and afterwards every namespace and
    every resource again carries what its parents give it, except connections
    whose connector the walk reached and that it did not reach later (they are
    refreshed before connectors are).  Nothing but carried labels and times
    changed. *)
Theorem label_propagation_exact visit fails clock scan sql_like D fuel segs ns labels now n s0 :
  (∀ n l, visit n l ≡ₚ map_to_list l) → (∀ n l, scan n l ≡ₚ l) → like_prefix_complete sql_like → (∀ n, fails n = false) →
  lwf s0 → depth_bound s0 D → ok_except (λ _, False) (λ _, False) s0 →
  valid_segs segs → live_namespace (render segs) s0 = Some ns →
  (SplitUserAndApxyLabels labels).2 = (SplitUserAndApxyLabels (dn_Labels ns)).2 →
  (0 < fuel)%nat → (D < fuel + length segs)%nat →
  let s := set_namespace (render segs) (NamespaceStore.touch now (set_ns_labels labels ns)) s0 in
  ∃ s', RefreshNamespaceLabelsCarryForward visit fails clock scan sql_like fuel (render segs) (mkPst s n) = Some (Ok (), s') ∧
    shape (ps_store s') = shape s ∧ ok_except (λ _, False) (stale sql_like s (render segs)) (ps_store s').
Proof.
  intros Hv Hsc Hlike Hf Hwf HD Hok Hs Hns Hl Hpos Hfuel s.
  pose proof Hns as [Hin Hlive]%live_namespace_Some. destruct (Hwf _ _ Hin) as (Hp & Hd & segs' & Hs' & Heq & Hlen).
  apply render_inj in Heq; [|done..]. subst segs'.
  assert (ok_except (λ p, (False ∧ p ≠ render segs) ∨ ns_parent p = Some (render segs)) (λ r, False ∨ in_ns s0 r (render segs)) s) as Hok'.
  { apply set_namespace_ok; [done..| |done]. eapply derived_edit; [|exact Hl]. by destruct (ok_ns _ _ _ Hok _ _ Hns). }
  assert (lwf s) as Hwf'.
  { intros path m. unfold s, set_namespace. cbn [ls_ns]. rewrite lookup_insert_Some. intros [[<- <-]|[_ Hm]]; [by split_and!; [..|exists segs]|by apply Hwf]. }
  assert (depth_bound s D) as HD'.
  { intros q Hq [m Hm]. apply HD; [done|]. unfold s, set_namespace in Hm. cbn [ls_ns] in Hm.
    apply lookup_insert_Some in Hm as [[<- _]|[_ Hm]]; [by exists ns|by exists m]. }
  destruct (refresh_effect visit fails clock Hv Hf scan sql_like Hsc Hlike D fuel segs (mkPst s n)) as (r & Hr & [] & s' & -> & Hsh & He); [done..|].
  exists s'. split_and!; [done..|]. eapply ok_mono; [apply He; exact Hok'|..]; cbn.
  - intros p m _ [[[[] _]|Hpp] Hne]. done.
  - intros k id row _ [[[[]|Hin'] Hns']|Hst]; [|done]. exfalso. apply Hns'. exists (render segs). split; [constructor|].
    destruct Hin' as (row' & Hrow' & Hpath). exists row'. done.
Qed.

(** The daily pass brings any store in order: with fuel for the rows of
    each table it ends without an error, and then every namespace and every
    resource carries what its parents give it, whatever was stored before, as
    long as the listing of namespaces returns parents before their children.
    Nothing but carried labels and times changed. *)
Theorem reconcile_restores visit fails clock listing ns_listing batchSize fuel s :
  (∀ n l, visit n l ≡ₚ map_to_list l) → (∀ n, fails n = false) →
  (∀ k X, listing k X ≡ₚ elements X) → (∀ X, ns_listing X ≡ₚ elements X) →
  lwf (ps_store s) → parents_first (list_namespaces ns_listing (s, 0%Z)) →
  (size (ls_ns (ps_store s)) < fuel)%nat → (size (ls_rows (ps_store s)) < fuel)%nat →
  ∃ total s', ReconcileCarryForwardLabels visit fails clock listing ns_listing batchSize fuel s = Some (Ok (), total, s') ∧
    shape (ps_store s') = shape (ps_store s) ∧
    (∀ path ns, live_namespace path (ps_store s') = Some ns → ns_consistent (ps_store s') ns) ∧
    (∀ k id row, live_row k id (ps_store s') = Some row → row_consistent (ps_store s') k id row).
Proof.
  intros Hv Hf Hl Hnl Hwf Hpf H1 H2.
  destruct (reconcile_effect visit fails clock Hv Hf listing ns_listing Hl Hnl batchSize fuel s Hwf Hpf H1 H2) as (total & s' & Hr & Hsh & [Hn Hrow]).
  exists total, s'. split_and!; [done..| |].
  - intros path ns Hp. by destruct (Hn path ns Hp).
  - intros k id row Hp. by destruct (Hrow k id row Hp).
Qed.

Lemma listed_parents_first : parents_first (list_namespaces (listed true) (mkPst drifted 0, 0%Z)).
Proof.
  change (parents_first (listed true (list_to_set (live_paths drifted)))).
  assert (listed true (list_to_set (live_paths drifted)) = ["root"; "root.team"; "root.team.x"]) as -> by (vm_compute; reflexivity).
  intros l1 x l2 p Heq Hp. destruct l1 as [|a [|b [|c l1]]]; cbn in Heq; injection Heq; intros; subst; try (vm_compute in Hp; discriminate).
  - vm_compute in Hp. injection Hp as <-. set_solver.
  - set_solver.
  - by destruct l1.
Qed.

Lemma drifted_wf : lwf drifted.
Proof.
  intros path ns. unfold drifted. cbn [ls_ns]. rewrite !lookup_insert_Some, lookup_empty.
  intros [[<- <-]|[_ [[<- <-]|[_ [[<- <-]|[_ [=]]]]]]]; (split; [done|split; [done|]]).
  - exists []. by split_and!; [constructor|..].
  - exists ["team"]. by split_and!; [repeat constructor|..].
  - exists ["team"; "x"]. by split_and!; [repeat constructor|..].
Qed.

Lemma reconcile_restores_witness :
  ∃ total s', ReconcileCarryForwardLabels (λ _, map_to_list) calm (λ _, 7%Z) (λ _, elements) (listed true) 10 10 (mkPst drifted 0) = Some (Ok (), total, s') ∧
    ∀ k id row, live_row k id (ps_store s') = Some row → row_consistent (ps_store s') k id row.
Proof.
  destruct (reconcile_restores (λ _, map_to_list) calm (λ _, 7%Z) (λ _, elements) (listed true) 10 10 (mkPst drifted 0)) as (total & s' & Hr & _ & _ & Hrows).
  - done.
  - done.
  - done.
  - intros X. apply SortFunc_perm.
  - exact drifted_wf.
  - exact listed_parents_first.
  - vm_compute. lia.
  - vm_compute. lia.
  - exists total, s'. split; [exact Hr|exact Hrows].
Defined.

(** The pass leaves everything in order on the sample. *)
Lemma tidy_ok : lwf tidy ∧ depth_bound tidy 2 ∧ ok_except (λ _, False) (λ _, False) tidy.
Proof.
  destruct (reconcile_effect (λ _, map_to_list) calm (λ _, 7%Z) ltac:(done) ltac:(done) (λ _, elements) (listed true) ltac:(done)
    ltac:(intros X; apply SortFunc_perm) 10 10 (mkPst drifted 0) drifted_wf listed_parents_first) as (total & s' & Hr & Hsh & Hok); [vm_compute; lia..|].
  assert (tidy = ps_store s') as -> by (unfold tidy, reconcile_all; by rewrite Hr). split_and!; [|..|done].
  - eapply lwf_shape; [symmetry; exact Hsh|exact drifted_wf].
  - eapply depth_bound_shape; [symmetry; exact Hsh|]. intros segs Hs [ns Hns]. cbn [ps_store] in Hns. unfold drifted in Hns. cbn [ls_ns] in Hns.
    rewrite !lookup_insert_Some, lookup_empty in Hns.
    destruct Hns as [[Heq _]|[_ [[Heq _]|[_ [[Heq _]|[_ [=]]]]]]].
    + change "root" with (render []) in Heq. apply render_inj in Heq; [|constructor|done]. subst. cbn. lia.
    + change "root.team" with (render ["team"]) in Heq. apply render_inj in Heq; [|by repeat constructor|done]. subst. cbn. lia.
    + change "root.team.x" with (render ["team"; "x"]) in Heq. apply render_inj in Heq; [|by repeat constructor|done]. subst. cbn. lia.
Qed.

Lemma label_propagation_exact_witness :
  ∃ ns s', live_namespace Root tidy = Some ns ∧
    RefreshNamespaceLabelsCarryForward (λ _, map_to_list) calm (λ _, 7%Z) unordered (λ s p, standard_like p s) 5 Root
      (mkPst (set_namespace Root (NamespaceStore.touch 8 (set_ns_labels (dn_Labels ns) ns)) tidy) 0) = Some (Ok (), s').
Proof.
  destruct (live_namespace Root tidy) as [ns|] eqn:Hns; [|vm_compute in Hns; discriminate Hns].
  destruct tidy_ok as (Hwf & HD & Hok).
  destruct (label_propagation_exact (λ _, map_to_list) calm (λ _, 7%Z) unordered (λ s p, standard_like p s) 2 5 [] ns (dn_Labels ns) 8 0 tidy)
    as (s' & Hr & _); [done|done|apply standard_like_prefix_complete|done|done|done|done|constructor|exact Hns|done|lia|cbn; lia|].
  exists ns, s'. split; [exact eq_refl|exact Hr].
Defined.

(** Where propagation does less than its comments promise.  After a label
    of a namespace is removed, one propagation leaves it on a connection of the
    namespace whose connector is there too (a second one removes it).  The
    daily pass asks for no order, and when a child is listed before its parent,
    the child keeps the old labels; with parents first it does not. *)
Theorem propagation_defects :
  let carried s := path_labels_of "root.team.x" s !! "apxy/ns/env" in
  let on_connection s := row_labels_of KConnection "cxn_1" s !! "apxy/ns/tier" in
  let removed := edit "root.team" ∅ tidy in
  on_connection tidy = Some "gold" ∧
  on_connection (propagate "root.team" removed) = Some "gold" ∧
  row_labels_of KConnector "cxr_1" (propagate "root.team" removed) !! "apxy/ns/tier" = None ∧
  on_connection (propagate "root.team" (propagate "root.team" removed)) = None ∧
  carried tidy = Some "prod" ∧ carried (reconcile_all false drifted) = None ∧
  carried (reconcile_all false (reconcile_all false drifted)) = Some "prod".
Proof. split_and!; vm_compute; reflexivity. Qed.
