(* ===== verification/KeyMaterial.v ===== *)
(** * Key material

    Package [schema/resources/key] (key_data.go, key_data_dek.go,
    key_version_info.go), the AES-GCM helpers of [encrypt/service.go] and the
    policy of [schema/config/data_encryption_keys.go]: how a data encryption
    key (DEK) is generated, wrapped by a provider's key and unwrapped again.

    AES-GCM and base64 are parameters ([Cipher]); a provider is a record of
    the calls its interfaces have, at an instant, since keys held elsewhere are
    rotated there. *)

From S2P Require Import Prelude GoStrings Actors.
Open Scope string_scope.
Open Scope list_scope.

(** ** Encryption of bytes *)

Class Cipher := {
  gcm_seal : string → string → string → string;
  gcm_open : string → string → string → option string;
  b64_encode : string → string;
  b64_decode : string → option string
}.

Class CipherLaws (C : Cipher) : Prop := {
  gcm_open_seal key nonce data : gcm_open key nonce (gcm_seal key nonce data) = Some data;
  b64_decode_encode s : b64_decode (b64_encode s) = Some s;
  b64_encode_inj s : b64_encode s = "" → s = ""
}.

(** [aes.NewCipher] accepts keys of 16, 24 and 32 bytes. *)
Definition aes_key (key : string) : bool :=
  bool_decide (String.length key = 16 ∨ String.length key = 24 ∨ String.length key = 32)%nat.

Definition nonceSize : nat := 12.

Section cipher.
Context `{C : Cipher}.

(** [gcm.Seal(nonce, nonce, data, nil)] appends to the nonce. *)
Definition encryptWithKey (key nonce data : string) : option string :=
  if aes_key key then Some (nonce +:+ gcm_seal key nonce data) else None.

Definition decryptWithKey (key data : string) : option string :=
  if aes_key key then
    if (String.length data <? nonceSize)%nat then None
    else gcm_open key (str_take nonceSize data) (str_drop nonceSize data)
  else None.

Definition decryptFieldWithBytes (keyBytes : string) (ef : EncryptedField) : option string :=
  match b64_decode (ef_Data ef) with
  | None => None
  | Some decodedData => decryptWithKey keyBytes decodedData
  end.

(** ** Providers *)

Record KeyVersionProtectedData := mkProtected {
  pd_Type : string;
  pd_WrappedData : string;
  pd_Metadata : gmap string string
}.

Definition Protected_IsZero (p : KeyVersionProtectedData) : bool :=
  bool_decide (pd_Type p = "") && bool_decide (pd_WrappedData p = "") && bool_decide (size (pd_Metadata p) = 0%nat).

Record KeyVersionInfo := mkKeyVersion {
  kv_Provider : string;
  kv_ProviderID : string;
  kv_ProviderVersion : string;
  kv_Data : string;
  kv_IsCurrent : bool
}.

Record DataEncryptionKeyInfo := mkDekInfo {
  di_ID : string;
  di_EncryptionKeyID : string;
  di_Provider : string;
  di_ProviderID : string;
  di_ProviderVersion : string;
  di_ProtectedData : option KeyVersionProtectedData;
  di_IsCurrent : bool
}.

Record KeyWrappingKeyInfo := mkWrappingKey {
  wk_Provider : string;
  wk_ProviderID : string;
  wk_ProviderVersion : string;
  wk_Metadata : gmap string string
}.

Record GeneratedDataEncryptionKey := mkGenerated {
  gd_Provider : string;
  gd_ProviderID : string;
  gd_ProviderVersion : string;
  gd_ProviderMetadata : gmap string string;
  gd_ProtectedData : KeyVersionProtectedData;
  gd_Data : string
}.

(** [KeyDataWrapsDataEncryptionKeys]: a provider that wraps by itself. *)
Record Wrapper := mkWrapper {
  wr_CurrentWrappingKey : nat → option KeyWrappingKeyInfo;
  wr_Wrap : nat → string → option GeneratedDataEncryptionKey;
  wr_Unwrap : nat → DataEncryptionKeyInfo → option string
}.

(** [KeyDataType] with the interfaces a provider may implement beside it; the
    first argument is the instant of the call. *)
Record Provider := mkProvider {
  pr_GetCurrentVersion : nat → option KeyVersionInfo;
  pr_GetVersion : nat → string → option KeyVersionInfo;
  pr_Wrapper : option Wrapper;
  pr_Generate : option (nat → option GeneratedDataEncryptionKey)
}.

(** [KeyData] with its [InnerVal]. *)
Definition KeyData : Type := option Provider.

Definition KeyVersionProtectedDataTypeAuthProxyAESGCM : string := "authproxy_aes_gcm".

Definition wrapDataEncryptionKeyWithAESGCM (nonce wrappingKey : string) (info : KeyVersionInfo) (dek : string) : option KeyVersionProtectedData :=
  match encryptWithKey wrappingKey nonce dek with
  | None => None
  | Some encrypted =>
      Some (mkProtected KeyVersionProtectedDataTypeAuthProxyAESGCM (b64_encode encrypted)
        (<["wrapping_provider" := kv_Provider info]> (<["wrapping_provider_id" := kv_ProviderID info]>
         (<["wrapping_provider_version" := kv_ProviderVersion info]> ∅))))
  end.

Definition unwrapDataEncryptionKeyWithAESGCM (wrappingKey : string) (protected : KeyVersionProtectedData) : option string :=
  match b64_decode (pd_WrappedData protected) with
  | None => None
  | Some decoded => decryptWithKey wrappingKey decoded
  end.

Definition CurrentWrappingKey (t : nat) (kd : KeyData) : option KeyWrappingKeyInfo :=
  match kd with
  | None => None
  | Some pr =>
      match pr_Wrapper pr with
      | Some w => wr_CurrentWrappingKey w t
      | None =>
          match pr_GetCurrentVersion pr t with
          | None => None
          | Some current =>
              if decide (kv_Data current = "") then None
              else Some (mkWrappingKey (kv_Provider current) (kv_ProviderID current) (kv_ProviderVersion current) ∅)
          end
      end
  end.

Definition WrapDataEncryptionKey (t : nat) (nonce : string) (kd : KeyData) (dek : string) : option GeneratedDataEncryptionKey :=
  match kd with
  | None => None
  | Some pr =>
      if decide (dek = "") then None
      else match pr_Wrapper pr with
      | Some w => wr_Wrap w t dek
      | None =>
          match pr_GetCurrentVersion pr t with
          | None => None
          | Some current =>
              if decide (kv_Data current = "") then None
              else match wrapDataEncryptionKeyWithAESGCM nonce (kv_Data current) current dek with
              | None => None
              | Some protected =>
                  Some (mkGenerated (kv_Provider current) (kv_ProviderID current) (kv_ProviderVersion current) ∅ protected dek)
              end
          end
      end
  end.

Definition DataEncryptionKeySize : nat := 32.

(** [random] are the bytes read from the random source. *)
Definition GenerateDataEncryptionKey (t : nat) (nonce random : string) (kd : KeyData) : option GeneratedDataEncryptionKey :=
  match kd with
  | None => None
  | Some pr =>
      match pr_Generate pr with
      | Some generate => generate t
      | None => WrapDataEncryptionKey t nonce kd random
      end
  end.

Definition UnwrapDataEncryptionKey (t : nat) (kd : KeyData) (dek : DataEncryptionKeyInfo) : option string :=
  match kd with
  | None => None
  | Some pr =>
      match pr_Wrapper pr with
      | Some w => wr_Unwrap w t dek
      | None =>
          match di_ProtectedData dek with
          | None => None
          | Some protected =>
              if Protected_IsZero protected then None
              else if decide (pd_Type protected ≠ KeyVersionProtectedDataTypeAuthProxyAESGCM) then None
              else match pr_GetVersion pr t (di_ProviderVersion dek) with
              | None => None
              | Some version =>
                  if decide (kv_Provider version ≠ di_Provider dek) then None
                  else if decide (di_ProviderID dek ≠ "" ∧ kv_ProviderID version ≠ di_ProviderID dek) then None
                  else if decide (kv_Data version = "") then None
                  else unwrapDataEncryptionKeyWithAESGCM (kv_Data version) protected
              end
          end
      end
  end.

(** ** What the encryption service relies on *)

(** The row of a generated or wrapped key, as it is stored. *)
Definition info_of (id keyId : string) (current : bool) (g : GeneratedDataEncryptionKey) : DataEncryptionKeyInfo :=
  mkDekInfo id keyId (gd_Provider g) (gd_ProviderID g) (gd_ProviderVersion g) (Some (gd_ProtectedData g)) current.

(** Whatever was wrapped or generated can be unwrapped ever after. *)
Record key_data_ok (kd : KeyData) : Prop := {
  kd_wrap_unwrap t t' nonce id keyId current dek g :
    (t ≤ t')%nat → String.length nonce = nonceSize → WrapDataEncryptionKey t nonce kd dek = Some g →
    UnwrapDataEncryptionKey t' kd (info_of id keyId current g) = Some dek;
  kd_generate_unwrap t nonce random g :
    String.length nonce = nonceSize → GenerateDataEncryptionKey t nonce random kd = Some g →
    ∀ t' id keyId current, (t ≤ t')%nat → UnwrapDataEncryptionKey t' kd (info_of id keyId current g) = Some (gd_Data g)
}.

Context `{!CipherLaws C}.

Lemma str_take_app_length (a b : string) n : String.length a = n → str_take n (a +:+ b) = a.
Proof. intros <-. apply str_take_app. Qed.

Lemma decrypt_encrypt key nonce data c : String.length nonce = nonceSize → encryptWithKey key nonce data = Some c → decryptWithKey key c = Some data.
Proof.
  unfold encryptWithKey, decryptWithKey. intros Hn. destruct (aes_key key); [|done]. intros [= <-].
  rewrite str_length_app, Hn. rewrite (proj2 (Nat.ltb_ge _ _)) by lia.
  rewrite str_take_app_length by done. rewrite <- Hn, str_drop_app. apply gcm_open_seal.
Qed.

(** A provider whose secret is read from elsewhere serves the interface, if it
    still returns a version it once had. *)
Definition retains_versions (pr : Provider) : Prop :=
  ∀ t t' v, (t ≤ t')%nat → pr_GetCurrentVersion pr t = Some v → pr_GetVersion pr t' (kv_ProviderVersion v) = Some v.

Lemma secret_provider_ok pr :
  pr_Wrapper pr = None → pr_Generate pr = None → retains_versions pr → key_data_ok (Some pr).
Proof.
  intros Hw Hg Hret.
  assert (∀ t t' nonce id keyId current dek g, (t ≤ t')%nat → String.length nonce = nonceSize →
    WrapDataEncryptionKey t nonce (Some pr) dek = Some g → UnwrapDataEncryptionKey t' (Some pr) (info_of id keyId current g) = Some dek ∧ gd_Data g = dek) as Hround.
  { intros t t' nonce id keyId current dek g Ht Hn. unfold WrapDataEncryptionKey, UnwrapDataEncryptionKey. rewrite Hw.
    case_decide; [done|]. destruct (pr_GetCurrentVersion pr t) as [v|] eqn:Hv; [|done]. case_decide as Hd; [done|].
    unfold wrapDataEncryptionKeyWithAESGCM. destruct (encryptWithKey (kv_Data v) nonce dek) as [c|] eqn:He; [|done]. intros [= <-]. cbn.
    rewrite (Hret t t' v Ht Hv). rewrite !decide_False by naive_solver. split; [|done].
    unfold unwrapDataEncryptionKeyWithAESGCM. cbn. rewrite b64_decode_encode. by eapply decrypt_encrypt. }
  split.
  - intros. by eapply Hround.
  - intros t nonce random g Hn. cbn. rewrite Hg. intros Hgen t' id keyId current Ht.
    destruct (Hround t t' nonce id keyId current random g Ht Hn Hgen) as [Hu ->]. done.
Qed.
End cipher.

Arguments KeyData : clear implicits.

(** ** Rotation policy *)

Definition defaultDataEncryptionKeyRotationInterval : Z := 90 * 24 * 3600 * 1000000000.

Record DataEncryptionKeys := mkPolicy {
  dp_RotationInterval : option Z;
  dp_EnsureCurrent : option bool
}.

Definition GetRotationInterval (d : option DataEncryptionKeys) : Z :=
  match d with
  | Some p => match dp_RotationInterval p with Some i => i | None => defaultDataEncryptionKeyRotationInterval end
  | None => defaultDataEncryptionKeyRotationInterval
  end.

Definition ShouldEnsureCurrent (d : option DataEncryptionKeys) : bool :=
  match d with
  | Some p => match dp_EnsureCurrent p with Some b => b | None => true end
  | None => true
  end.

Definition ShouldRotate (d : option DataEncryptionKeys) (now currentCreatedAt : Z) : bool :=
  let interval := GetRotationInterval d in
  if (interval =? 0)%Z then false else negb (now <? currentCreatedAt + interval)%Z.

Definition Policy_Validate (d : option DataEncryptionKeys) : bool :=
  match d with
  | Some p => match dp_RotationInterval p with Some i => negb (i <? 0)%Z | None => true end
  | None => true
  end.

(** [EncryptedField.IsZero]. *)
Definition EncryptedField_IsZero (ef : EncryptedField) : bool := bool_decide (ef_ID ef = "") && bool_decide (ef_Data ef = "").

(** ** The inline form of a field *)

Definition colon : ascii := ":"%char.

Definition IsEncryptedWithKey (ef : EncryptedField) (keyID : string) : bool := bool_decide (ef_ID ef = keyID).

Definition ToInlineString (ef : EncryptedField) : string := ef_ID ef +:+ String colon (ef_Data ef).

Definition ParseInlineString (s : string) : option EncryptedField :=
  if HasPrefix s "dek_" then
    match Index s colon with
    | None => None
    | Some colonIdx => Some (mkEncryptedField (str_take colonIdx s) (str_drop (colonIdx + 1) s))
    end
  else None.

(** The form is read back, for ids with their prefix and without a colon, and
    nothing else is accepted. *)
Lemma inline_roundtrip s ef :
  ParseInlineString s = Some ef ↔ s = ToInlineString ef ∧ HasPrefix s "dek_" = true ∧ no_char colon (ef_ID ef) = true.
Proof.
  unfold ParseInlineString, ToInlineString. split.
  - destruct (HasPrefix s "dek_") eqn:Hp; [|done]. destruct (Index s colon) as [i|] eqn:Hi; [|done]. intros [= <-]. cbn.
    apply Index_Some in Hi as (a & b & -> & -> & Ha). by rewrite str_take_app, str_drop_after.
  - intros (-> & -> & Hn). rewrite Index_app by done. rewrite str_take_app, str_drop_after. by destruct ef.
Qed.
