(* ===== verification/Encryption.v ===== *)
(** * The tables of encryption at rest

    [database/data_encryption_key.go], [database/key.go], the registry of
    encrypted columns in [database/reencrypt_registry.go] and the encryption
    targets of [database/namespace.go].

    Keys form a hierarchy: the configuration of a key is encrypted with a data
    encryption key (DEK) of another key, up to the global key.  A DEK is stored
    wrapped by its key. *)

From S2P Require Import Prelude GoStrings Namespace Labels Actors Paging NamespaceStore KeyMaterial.
Open Scope string_scope.
Open Scope list_scope.

(** ** Tables *)

Record DataEncryptionKey := mkDek {
  dek_Id : string;
  dek_KeyId : string;
  dek_Provider : string;
  dek_ProviderID : string;
  dek_ProviderVersion : string;
  dek_ProviderMetadata : gmap string string;
  dek_ProtectedData : option KeyVersionProtectedData;
  dek_IsCurrent : bool;
  dek_CreatedAt : Z;
  dek_UpdatedAt : Z;
  dek_DeletedAt : option Z
}.

(** A row of a registered table: its namespace, resolved through the join the
    registration names, and its encrypted columns that are not null. *)
Record FieldRow := mkFieldRow {
  fr_Namespace : string;
  fr_Cols : gmap string EncryptedField;
  fr_EncryptedAt : option Z;
  fr_Live : bool
}.

Record edb := mkEdb {
  e_ndb : ndb;
  e_deks : gmap string DataEncryptionKey;
  e_rows : gmap (string * string) FieldRow
}.

Definition with_ndb (n : ndb) (db : edb) : edb := mkEdb n (e_deks db) (e_rows db).
Definition with_deks (d : gmap string DataEncryptionKey) (db : edb) : edb := mkEdb (e_ndb db) d (e_rows db).
Definition with_rows (r : gmap (string * string) FieldRow) (db : edb) : edb := mkEdb (e_ndb db) (e_deks db) r.
Definition with_keys (k : gmap string DbKey) (db : edb) : edb := with_ndb (mkNdb (db_namespaces (e_ndb db)) k) db.

Definition dek_live (d : DataEncryptionKey) : bool := bool_decide (dek_DeletedAt d = None).

Definition live_dek (id : string) (db : edb) : option DataEncryptionKey :=
  match e_deks db !! id with Some d => if dek_live d then Some d else None | None => None end.

Definition key_row (id : string) (db : edb) : option DbKey := live_key id (e_ndb db).

(** ** Data encryption keys *)

Inductive enc_error : Type :=
  | EncNotFound
  | EncInvalid
  | EncDuplicate
  | EncProtected
  | EncNotSynced
  | EncNoCurrentKey (keyId : string)
  | EncKeyNotCached (dekId : string)
  | EncCipher
  | EncProvider
  | EncStore (e : ns_error)
  | EncNotRegistered
  | EncNoKeyData
  | EncNoConfig.

Definition PrefixKey : string := "key_".
Definition PrefixDataEncryptionKey : string := "dek_".

Definition Dek_Validate (d : DataEncryptionKey) : bool :=
  bool_decide (dek_Id d ≠ "") && ID_HasPrefix (dek_Id d) PrefixDataEncryptionKey &&
  bool_decide (dek_KeyId d ≠ "") && ID_HasPrefix (dek_KeyId d) PrefixKey &&
  bool_decide (dek_Provider d ≠ "") && bool_decide (dek_ProviderID d ≠ "") && bool_decide (dek_ProviderVersion d ≠ "") &&
  match dek_ProtectedData d with Some p => negb (Protected_IsZero p) | None => false end.

Definition set_current (current : bool) (now : Z) (d : DataEncryptionKey) : DataEncryptionKey :=
  mkDek (dek_Id d) (dek_KeyId d) (dek_Provider d) (dek_ProviderID d) (dek_ProviderVersion d) (dek_ProviderMetadata d)
    (dek_ProtectedData d) current (dek_CreatedAt d) now (dek_DeletedAt d).
Definition set_dek_times (created updated : Z) (deleted : option Z) (d : DataEncryptionKey) : DataEncryptionKey :=
  mkDek (dek_Id d) (dek_KeyId d) (dek_Provider d) (dek_ProviderID d) (dek_ProviderVersion d) (dek_ProviderMetadata d)
    (dek_ProtectedData d) (dek_IsCurrent d) created updated deleted.

(** [UPDATE ... WHERE P AND deleted_at IS NULL]. *)
Definition update_deks (P : DataEncryptionKey → bool) (f : DataEncryptionKey → DataEncryptionKey) (t : gmap string DataEncryptionKey) :
    gmap string DataEncryptionKey := (λ d, if dek_live d && P d then f d else d) <$> t.

Definition clear_current (keyId : string) (now : Z) : gmap string DataEncryptionKey → gmap string DataEncryptionKey :=
  update_deks (λ d, bool_decide (dek_KeyId d = keyId)) (set_current false now).

Definition CreateDataEncryptionKey (now : Z) (new_id : string) (dek0 : DataEncryptionKey) (db : edb) : result enc_error DataEncryptionKey * edb :=
  let dek := if decide (dek_Id dek0 = "") then
               mkDek new_id (dek_KeyId dek0) (dek_Provider dek0) (dek_ProviderID dek0) (dek_ProviderVersion dek0)
                 (dek_ProviderMetadata dek0) (dek_ProtectedData dek0) (dek_IsCurrent dek0) (dek_CreatedAt dek0) (dek_UpdatedAt dek0) (dek_DeletedAt dek0)
             else dek0 in
  if Dek_Validate dek then
    let dek := set_dek_times now now (dek_DeletedAt dek) dek in
    match e_deks db !! dek_Id dek with
    | Some _ => (Err EncDuplicate, db)
    | None =>
        let t := if dek_IsCurrent dek then clear_current (dek_KeyId dek) now (e_deks db) else e_deks db in
        (Ok dek, with_deks (<[dek_Id dek := dek]> t) db)
    end
  else (Err EncInvalid, db).

(** [created_at ASC, id ASC] *)
Definition by_dek_age (a b : DataEncryptionKey) : Z :=
  if decide (dek_CreatedAt a < dek_CreatedAt b)%Z then (-1)%Z
  else if decide (dek_CreatedAt b < dek_CreatedAt a)%Z then 1%Z
  else match String.compare (dek_Id a) (dek_Id b) with Lt => (-1)%Z | Eq => 0%Z | Gt => 1%Z end.

Definition ListDataEncryptionKeysForKey (keyId : string) (db : edb) : list DataEncryptionKey :=
  SortFunc by_dek_age (List.filter (λ d, dek_live d && bool_decide (dek_KeyId d = keyId)) (map snd (map_to_list (e_deks db)))).

(** [EnumerateDataEncryptionKeysForKey]: the same rows in pages; the callbacks
    leave their order and number as they are. *)
Definition EnumerateDataEncryptionKeysForKey {S} (keyId : string) (callback : DataEncryptionKey → S → S) (db : edb) (s : S) : S :=
  foldl (λ s d, callback d s) s (ListDataEncryptionKeysForKey keyId db).

(** [ORDER BY created_at DESC, id DESC LIMIT 1] *)
Definition GetCurrentDataEncryptionKeyForKey (keyId : string) (db : edb) : option DataEncryptionKey :=
  last (List.filter dek_IsCurrent (ListDataEncryptionKeysForKey keyId db)).

Definition UpdateDataEncryptionKeyWrapping (now : Z) (dek : DataEncryptionKey) (db : edb) : result enc_error unit * edb :=
  if bool_decide (dek_Id dek ≠ "") && ID_HasPrefix (dek_Id dek) PrefixDataEncryptionKey && bool_decide (dek_Provider dek ≠ "") &&
     bool_decide (dek_ProviderID dek ≠ "") && bool_decide (dek_ProviderVersion dek ≠ "") &&
     match dek_ProtectedData dek with Some p => negb (Protected_IsZero p) | None => false end
  then match live_dek (dek_Id dek) db with
       | None => (Err EncNotFound, db)
       | Some d =>
           let d' := mkDek (dek_Id d) (dek_KeyId d) (dek_Provider dek) (dek_ProviderID dek) (dek_ProviderVersion dek) (dek_ProviderMetadata dek)
                       (dek_ProtectedData dek) (dek_IsCurrent d) (dek_CreatedAt d) now (dek_DeletedAt d) in
           (Ok (), with_deks (<[dek_Id dek := d']> (e_deks db)) db)
       end
  else (Err EncInvalid, db).

Definition ClearCurrentDataEncryptionKeyFlagForKey (now : Z) (keyId : string) (db : edb) : edb :=
  with_deks (update_deks (λ d, bool_decide (dek_KeyId d = keyId) && dek_IsCurrent d) (set_current false now) (e_deks db)) db.

Definition SetDataEncryptionKeyCurrentFlag (now : Z) (id : string) (isCurrent : bool) (db : edb) : result enc_error unit * edb :=
  match live_dek id db with
  | None => (Err EncNotFound, db)
  | Some d =>
      let t := if isCurrent then clear_current (dek_KeyId d) now (e_deks db) else e_deks db in
      (Ok (), with_deks (<[id := set_current isCurrent now d]> t) db)
  end.

(** ** Keys *)

Definition KeyStateActive : string := "active".
Definition KeyStateDisabled : string := "disabled".
Definition KeyUsageDataEncryption : string := "data_encryption".
Definition KeyMaterialTypeSymmetric : string := "symmetric".
Definition KeyMaterialTypePublic : string := "public".
Definition KeyMaterialTypePrivate : string := "private".
Definition KeyMaterialTypeExternal : string := "external".

Definition IsValidKeyUsage (usage : string) : bool := bool_decide (usage = KeyUsageDataEncryption).
Definition IsValidKeyMaterialType (m : string) : bool :=
  bool_decide (m = KeyMaterialTypeSymmetric) || bool_decide (m = KeyMaterialTypePublic) ||
  bool_decide (m = KeyMaterialTypePrivate) || bool_decide (m = KeyMaterialTypeExternal).
Definition IsValidKeyState (s : string) : bool := bool_decide (s = KeyStateActive) || bool_decide (s = KeyStateDisabled).

Definition normalize_key (k : DbKey) : DbKey :=
  mkDbKey (dk_Id k) (dk_Namespace k)
    (if decide (dk_Name k = "" ∧ dk_Id k ≠ "") then dk_Id k else dk_Name k)
    (if decide (dk_Usage k = "") then KeyUsageDataEncryption else dk_Usage k)
    (if decide (dk_MaterialType k = "") then KeyMaterialTypeSymmetric else dk_MaterialType k)
    (dk_EncryptedKeyData k)
    (if decide (dk_State k = "") then KeyStateActive else dk_State k)
    (dk_Labels k) (dk_Annotations k) (dk_CreatedAt k) (dk_UpdatedAt k) (dk_EncryptedAt k) (dk_DeletedAt k).

Definition Validate_key (k : DbKey) : bool :=
  bool_decide (dk_Id k ≠ "") && ID_HasPrefix (dk_Id k) PrefixKey && bool_decide (ResourceName_Validate (dk_Name k) = None) &&
  bool_decide (dk_Namespace k ≠ "") && IsValidKeyUsage (dk_Usage k) && IsValidKeyMaterialType (dk_MaterialType k) && IsValidKeyState (dk_State k) &&
  match ValidateLabels (dk_Labels k) with [] => true | _ => false end &&
  match ValidateAnnotations (dk_Annotations k) with [] => true | _ => false end.

(** The unique index on the live names of a namespace. *)
Definition key_name_taken (k : DbKey) (t : gmap string DbKey) : bool :=
  existsb (λ kv : string * DbKey, bool_decide (dk_DeletedAt kv.2 = None) && bool_decide (dk_Namespace kv.2 = dk_Namespace k) &&
    bool_decide (dk_Name kv.2 = dk_Name k) && negb (bool_decide (kv.1 = dk_Id k))) (map_to_list t).

Definition set_key_row (labels : Labels) (enc : option EncryptedField) (state : string) (created updated : Z) (encrypted deleted : option Z) (k : DbKey) : DbKey :=
  mkDbKey (dk_Id k) (dk_Namespace k) (dk_Name k) (dk_Usage k) (dk_MaterialType k) enc state labels (dk_Annotations k) created updated encrypted deleted.

Definition CreateKey (visit : Labels → list (string * string)) (now : Z) (k0 : DbKey) (db : edb) : result enc_error DbKey * edb :=
  let k := normalize_key k0 in
  if Validate_key k then
    let labels := InjectSelfImplicitLabels (dk_Id k) (dk_Name k) (dk_Namespace k)
      (ApplyParentCarryForward (dk_Labels k) [mkParent NamespaceLabelToken (visit (ns_labels_of (dk_Namespace k) (e_ndb db)))]) in
    let k := set_key_row labels (dk_EncryptedKeyData k) (dk_State k) now now (dk_EncryptedAt k) (dk_DeletedAt k) k in
    match db_keys (e_ndb db) !! dk_Id k with
    | Some _ => (Err EncDuplicate, db)
    | None => if key_name_taken k (db_keys (e_ndb db)) then (Err EncDuplicate, db)
              else (Ok k, with_keys (<[dk_Id k := k]> (db_keys (e_ndb db))) db)
    end
  else (Err EncInvalid, db).

(** [UpdateKey] with the columns its callers set. *)
Definition UpdateKey (now : Z) (id : string) (enc : EncryptedField) (encryptedAt : option Z) (db : edb) : result enc_error DbKey * edb :=
  match key_row id db with
  | None => (Err EncNotFound, db)
  | Some k =>
      let k' := set_key_row (dk_Labels k) (Some enc) (dk_State k) (dk_CreatedAt k) now
                  (match encryptedAt with Some e => Some e | None => dk_EncryptedAt k end) (dk_DeletedAt k) k in
      (Ok k', with_keys (<[id := k']> (db_keys (e_ndb db))) db)
  end.

Definition SetKeyState (now : Z) (id state : string) (db : edb) : result enc_error unit * edb :=
  if IsValidKeyState state then
    match key_row id db with
    | None => (Err EncNotFound, db)
    | Some k =>
        (Ok (), with_keys (<[id := set_key_row (dk_Labels k) (dk_EncryptedKeyData k) state (dk_CreatedAt k) now (dk_EncryptedAt k) (dk_DeletedAt k) k]>
           (db_keys (e_ndb db))) db)
    end
  else (Err EncInvalid, db).

Definition deleteDataEncryptionKeysForKey (keyId : string) (deletedAt : Z) (db : edb) : edb :=
  with_deks (update_deks (λ d, bool_decide (dek_KeyId d = keyId)) (λ d, set_dek_times (dek_CreatedAt d) deletedAt (Some deletedAt) d) (e_deks db)) db.

Definition DeleteKey (now : Z) (id : string) (db : edb) : result enc_error unit * edb :=
  if decide (id = GlobalKeyID) then (Err EncProtected, db)
  else match key_row id db with
  | None => (Err EncNotFound, db)
  | Some k =>
      let k' := set_key_row (dk_Labels k) (dk_EncryptedKeyData k) (dk_State k) (dk_CreatedAt k) now (dk_EncryptedAt k) (Some now) k in
      (Ok (), deleteDataEncryptionKeysForKey id now (with_keys (<[id := k']> (db_keys (e_ndb db))) db))
  end.


(** ** Keys in the order of their dependencies *)

Definition live_keys (db : edb) : list DbKey :=
  List.filter (λ k, bool_decide (dk_DeletedAt k = None)) (map snd (map_to_list (db_keys (e_ndb db)))).

Definition is_root_key (k : DbKey) : bool :=
  match dk_EncryptedKeyData k with None => true | Some ef => EncryptedField_IsZero ef end.

(** [parentOf], and [None] for an orphan. *)
Definition parent_key (db : edb) (k : DbKey) : option string :=
  match dk_EncryptedKeyData k with
  | None => None
  | Some ef =>
      if EncryptedField_IsZero ef then None
      else match live_dek (ef_ID ef) db with
      | None => None
      | Some d => match key_row (dek_KeyId d) db with Some _ => Some (dek_KeyId d) | None => None end
      end
  end.

(** The two loops over maps run in an order of their own. *)
Record key_orders := mkOrders {
  ko_keys : list DbKey → list DbKey;
  ko_children : list DbKey → list DbKey
}.

Definition key_roots (o : key_orders) (db : edb) : list DbKey := List.filter is_root_key (ko_keys o (live_keys db)).

Definition key_children (o : key_orders) (db : edb) (parent : string) : list DbKey :=
  List.filter (λ k, bool_decide (parent_key db k = Some parent))
    (ko_children o (List.filter (λ k, bool_decide (is_Some (parent_key db k))) (live_keys db))).

Definition key_orphans (o : key_orders) (db : edb) : list DbKey :=
  List.filter (λ k, negb (is_root_key k) && bool_decide (parent_key db k = None)) (ko_keys o (live_keys db)).

Fixpoint key_levels {S} (children : string → list DbKey) (callback : list DbKey → S → S) (fuel : nat) (currentLevel : list DbKey) (s : S) : option S :=
  match currentLevel with
  | [] => Some s
  | _ =>
      match fuel with
      | O => None
      | Datatypes.S fuel =>
          key_levels children callback fuel (flat_map (λ k, children (dk_Id k)) currentLevel) (callback currentLevel s)
      end
  end.

(** The maps are filled before the first call of [callback], which always
    continues; [None] is running out of fuel. *)
Definition EnumerateKeysInDependencyOrder {S} (o : key_orders) (callback : list DbKey → S → S) (fuel : nat) (db : edb) (s : S) : option (list DbKey * S) :=
  match live_keys db with
  | [] => Some ([], s)
  | _ =>
      match key_levels (key_children o db) callback fuel (key_roots o db) s with
      | Some s' => Some (key_orphans o db, s')
      | None => None
      end
  end.

(** ** The encryption targets of namespaces *)

Record NamespaceEncryptionTarget := mkTarget {
  et_Path : string;
  et_Depth : Z;
  et_KeyId : option string;
  et_Target : option string
}.

Definition target_of (ns : DbNamespace) : NamespaceEncryptionTarget :=
  mkTarget (dn_Path ns) (dn_depth ns) (dn_KeyId ns) (dn_TargetDataEncryptionKeyId ns).

Definition target_after (depth : Z) (path : string) (r : NamespaceEncryptionTarget) : bool :=
  (depth <? et_Depth r)%Z || ((et_Depth r =? depth)%Z && String.ltb path (et_Path r)).

(** [ORDER BY depth, path] *)
Definition by_depth_path (a b : NamespaceEncryptionTarget) : Z :=
  if decide (et_Depth a < et_Depth b)%Z then (-1)%Z
  else if decide (et_Depth b < et_Depth a)%Z then 1%Z
  else str_cmp (et_Path a) (et_Path b).

Definition all_targets (db : edb) : list NamespaceEncryptionTarget :=
  SortFunc by_depth_path (map target_of (List.filter ns_live (map snd (map_to_list (db_namespaces (e_ndb db)))))).

Definition target_page (pageSize : nat) (cursor : option (Z * string)) (db : edb) : list NamespaceEncryptionTarget :=
  take (pageSize + 1) match cursor with
  | None => all_targets db
  | Some (depth, path) => List.filter (target_after depth path) (all_targets db)
  end.

(** [UPDATE ... WHERE path = ?]: a deleted row too. *)
Definition update_target (now : Z) (path dek : string) (db : edb) : edb :=
  match db_namespaces (e_ndb db) !! path with
  | Some ns => with_ndb (with_namespaces (<[path := touch now (set_ns_target (Some dek) ns)]> (db_namespaces (e_ndb db))) (e_ndb db)) db
  | None => db
  end.

Definition apply_targets (now : Z) (updates : list (string * string)) (db : edb) : edb :=
  foldl (λ db u, update_target now u.1 u.2 db) db updates.

Definition target_page_size : nat := 100.

(** [callback] computes the updates of a page from the database and its own
    state; both callers continue and return no error. *)
Fixpoint target_pages {S} (callback : edb → list NamespaceEncryptionTarget → S → list (string * string) * S) (now : Z) (fuel : nat)
    (cursor : option (Z * string)) (db : edb) (s : S) : option (edb * S) :=
  match fuel with
  | O => None
  | Datatypes.S fuel =>
      let results := target_page target_page_size cursor db in
      let lastPage := (length results <=? target_page_size)%nat in
      let results := take target_page_size results in
      let '(updates, s') := callback db results s in
      let db' := apply_targets now updates db in
      if lastPage then Some (db', s')
      else match last results with
           | None => Some (db', s')
           | Some r => target_pages callback now fuel (Some (et_Depth r, et_Path r)) db' s'
           end
  end.

Definition EnumerateNamespaceEncryptionTargets {S} (callback : edb → list NamespaceEncryptionTarget → S → list (string * string) * S)
    (now : Z) (fuel : nat) (db : edb) (s : S) : option (edb * S) :=
  target_pages callback now fuel None db s.

(** ** The registry of encrypted columns *)

Record EncryptedFieldRegistration := mkRegistration {
  rg_Table : string;
  rg_PrimaryKeyCols : list string;
  rg_EncryptedCols : list string;
  rg_NamespaceCol : string;
  rg_JoinTable : string;
  rg_JoinLocalCol : string;
  rg_JoinRemoteCol : string;
  rg_JoinNamespaceCol : string
}.

Definition Registration_validate (r : EncryptedFieldRegistration) : bool :=
  bool_decide (rg_Table r ≠ "") && bool_decide (rg_PrimaryKeyCols r ≠ []) && bool_decide (rg_EncryptedCols r ≠ []) &&
  (bool_decide (rg_NamespaceCol r ≠ "") ||
   (bool_decide (rg_JoinTable r ≠ "") && bool_decide (rg_JoinLocalCol r ≠ "") && bool_decide (rg_JoinRemoteCol r ≠ "") && bool_decide (rg_JoinNamespaceCol r ≠ ""))).

Definition usesJoin (r : EncryptedFieldRegistration) : bool := bool_decide (rg_JoinTable r ≠ "").

(** [None] is the panic. *)
Definition RegisterEncryptedField (reg : EncryptedFieldRegistration) (regs : list EncryptedFieldRegistration) : option (list EncryptedFieldRegistration) :=
  if Registration_validate reg then Some (regs ++ [reg]) else None.

Definition isRegisteredEncryptedField (regs : list EncryptedFieldRegistration) (table col : string) : bool :=
  existsb (λ r, bool_decide (rg_Table r = table) && bool_decide (col ∈ rg_EncryptedCols r)) regs.

(** The registrations of the package's [init] functions. *)
Definition registration_actors : EncryptedFieldRegistration := mkRegistration "actors" ["id"] ["encrypted_key"] "namespace" "" "" "" "".
Definition registration_credentials : EncryptedFieldRegistration :=
  mkRegistration "connection_credentials" ["id"] ["encrypted_credentials"] "" "connections" "connection_id" "id" "namespace".
Definition registration_connections : EncryptedFieldRegistration := mkRegistration "connections" ["id"] ["encrypted_configuration"] "namespace" "" "" "" "".
Definition registration_definitions : EncryptedFieldRegistration :=
  mkRegistration "connector_definition_versions" ["id"] ["encrypted_definition"] "" "connectors" "connector_id" "id" "namespace".
Definition registration_tokens : EncryptedFieldRegistration :=
  mkRegistration "oauth2_tokens" ["id"] ["encrypted_refresh_token"; "encrypted_access_token"] "" "connections" "connection_id" "id" "namespace".

Definition encryptedFieldRegistrations : list EncryptedFieldRegistration :=
  [registration_actors; registration_credentials; registration_connections; registration_definitions; registration_tokens].

Record ReEncryptionTarget := mkReTarget {
  rt_Table : string;
  rt_PrimaryKey : string;
  rt_FieldColumn : string;
  rt_EncryptedFieldValue : EncryptedField;
  rt_TargetDataEncryptionKeyId : string
}.

Record ReEncryptedFieldUpdate := mkReUpdate {
  ru_Table : string;
  ru_PrimaryKey : string;
  ru_FieldColumn : string;
  ru_NewValue : EncryptedField
}.

(** A row of the query: its primary key, its encrypted columns, the target. *)
Record reenc_row := mkReencRow {
  rr_pk : string;
  rr_cols : gmap string EncryptedField;
  rr_target : string
}.

Definition needs_reencryption (reg : EncryptedFieldRegistration) (target : string) (cols : gmap string EncryptedField) : bool :=
  existsb (λ ec, match cols !! ec with Some ef => bool_decide (ef_ID ef ≠ target) | None => false end) (rg_EncryptedCols reg).

Definition reenc_row_of (reg : EncryptedFieldRegistration) (db : edb) (kv : (string * string) * FieldRow) : option reenc_row :=
  if bool_decide (kv.1.1 = rg_Table reg) && fr_Live kv.2 then
    match live_ns (fr_Namespace kv.2) (e_ndb db) with
    | None => None
    | Some ns =>
        match dn_TargetDataEncryptionKeyId ns with
        | None => None
        | Some target => if needs_reencryption reg target (fr_Cols kv.2) then Some (mkReencRow kv.1.2 (fr_Cols kv.2) target) else None
        end
    end
  else None.

(** The rows of [queryReEncryptionPage] without limit and offset, by primary
    key. *)
Definition reenc_query (reg : EncryptedFieldRegistration) (db : edb) : list reenc_row :=
  SortFunc (λ a b, str_cmp (rr_pk a) (rr_pk b)) (omap (reenc_row_of reg db) (map_to_list (e_rows db))).

(** One target per column of a row that is not under the row's target. *)
Definition row_targets (reg : EncryptedFieldRegistration) (r : reenc_row) : list ReEncryptionTarget :=
  omap (λ ec,
    match rr_cols r !! ec with
    | Some ef => if EncryptedField_IsZero ef then None
                 else if decide (ef_ID ef = rr_target r) then None
                 else Some (mkReTarget (rg_Table reg) (rr_pk r) ec ef (rr_target r))
    | None => None
    end) (rg_EncryptedCols reg).

Definition reenc_page_size : nat := 100.

(** The loop over the pages of one registration; [callback] continues and
    returns no error. *)
Definition EnumerateRegistration {S} (db_of : S → edb) (callback : list ReEncryptionTarget → S → S) (reg : EncryptedFieldRegistration)
    (fuel : nat) (s : S) : option S :=
  match EnumeratePages (E := Empty_set) (λ s, reenc_query reg (db_of s)) (λ rows s, (None, callback (flat_map (row_targets reg) rows) s)) reenc_page_size fuel 0 s with
  | Some (_, s') => Some s'
  | None => None
  end.

Fixpoint EnumerateRegistrations {S} (db_of : S → edb) (callback : list ReEncryptionTarget → S → S) (regs : list EncryptedFieldRegistration)
    (fuel : nat) (s : S) : option S :=
  match regs with
  | [] => Some s
  | reg :: regs =>
      match EnumerateRegistration db_of callback reg fuel s with
      | Some s' => EnumerateRegistrations db_of callback regs fuel s'
      | None => None
      end
  end.

Definition EnumerateFieldsRequiringReEncryption {S} (db_of : S → edb) (callback : list ReEncryptionTarget → S → S)
    (regs : list EncryptedFieldRegistration) (fuel : nat) (s : S) : option S :=
  match regs with
  | [] => Some (callback [] s)
  | _ => EnumerateRegistrations db_of callback regs fuel s
  end.

Definition update_field (now : Z) (u : ReEncryptedFieldUpdate) (db : edb) : edb :=
  match e_rows db !! (ru_Table u, ru_PrimaryKey u) with
  | Some r => with_rows (<[(ru_Table u, ru_PrimaryKey u) :=
                mkFieldRow (fr_Namespace r) (<[ru_FieldColumn u := ru_NewValue u]> (fr_Cols r)) (Some now) (fr_Live r)]> (e_rows db)) db
  | None => db
  end.

(** The updates before the first of an unregistered column are kept. *)
Fixpoint BatchUpdateReEncryptedFields (regs : list EncryptedFieldRegistration) (now : Z) (updates : list ReEncryptedFieldUpdate) (db : edb) : option enc_error * edb :=
  match updates with
  | [] => (None, db)
  | u :: updates =>
      if isRegisteredEncryptedField regs (ru_Table u) (ru_FieldColumn u)
      then BatchUpdateReEncryptedFields regs now updates (update_field now u db)
      else (Some EncNotRegistered, db)
  end.

(** ** The rows of a table of data encryption keys *)

Lemma elem_of_deks_of_key keyId db d :
  d ∈ ListDataEncryptionKeysForKey keyId db ↔ ∃ id, e_deks db !! id = Some d ∧ dek_live d = true ∧ dek_KeyId d = keyId.
Proof.
  unfold ListDataEncryptionKeysForKey. rewrite SortFunc_perm, elem_of_List_filter, andb_true_iff, bool_decide_eq_true.
  rewrite list_elem_of_fmap. split.
  - intros [[Hl Hk] ([id e] & -> & He%elem_of_map_to_list)]. by exists id.
  - intros (id & Hd & Hl & Hk). split; [done|]. exists (id, d). by rewrite elem_of_map_to_list.
Qed.

Lemma current_dek_Some keyId db d :
  GetCurrentDataEncryptionKeyForKey keyId db = Some d → ∃ id, e_deks db !! id = Some d ∧ dek_live d = true ∧ dek_KeyId d = keyId ∧ dek_IsCurrent d = true.
Proof.
  unfold GetCurrentDataEncryptionKeyForKey. intros [l Hl]%last_Some.
  assert (d ∈ List.filter dek_IsCurrent (ListDataEncryptionKeysForKey keyId db)) as Hd by (rewrite Hl; set_solver).
  apply elem_of_List_filter in Hd as [Hc (id & ? & ? & ?)%elem_of_deks_of_key]. by exists id.
Qed.

(** ** The levels of the hierarchy *)

Section levels.
Context (o : key_orders) (db : edb).
Hypothesis keys_perm : ∀ l, ko_keys o l ≡ₚ l.
Hypothesis children_perm : ∀ l, ko_children o l ≡ₚ l.
Hypothesis ids : ∀ id k, db_keys (e_ndb db) !! id = Some k → dk_Id k = id.

Definition level (i : nat) : list DbKey := Nat.iter i (flat_map (λ k, key_children o db (dk_Id k))) (key_roots o db).

Lemma elem_of_live_keys k : k ∈ live_keys db ↔ key_row (dk_Id k) db = Some k.
Proof.
  unfold live_keys, key_row, live_key. rewrite elem_of_List_filter, bool_decide_eq_true, list_elem_of_fmap. split.
  - intros [Hd ([id k'] & -> & Hk%elem_of_map_to_list)]. cbn in *. rewrite (ids _ _ Hk), Hk. by rewrite decide_True.
  - destruct (db_keys (e_ndb db) !! dk_Id k) as [k'|] eqn:Hk; [|done]. case_decide; [|done]. intros [= ->].
    split; [done|]. exists (dk_Id k, k). by rewrite elem_of_map_to_list.
Qed.

Lemma elem_of_level_0 k : k ∈ level 0 ↔ key_row (dk_Id k) db = Some k ∧ is_root_key k = true.
Proof. cbn. unfold key_roots. rewrite elem_of_List_filter, keys_perm, elem_of_live_keys. tauto. Qed.

Lemma elem_of_level_S i k :
  k ∈ level (S i) ↔ key_row (dk_Id k) db = Some k ∧ ∃ p, p ∈ level i ∧ parent_key db k = Some (dk_Id p).
Proof.
  change (level (S i)) with (flat_map (λ k, key_children o db (dk_Id k)) (level i)).
  rewrite list_elem_of_In, in_flat_map. setoid_rewrite <- list_elem_of_In. unfold key_children.
  setoid_rewrite elem_of_List_filter. setoid_rewrite children_perm. setoid_rewrite elem_of_List_filter.
  setoid_rewrite bool_decide_eq_true. setoid_rewrite elem_of_live_keys. split.
  - intros (p & Hp & Hk & _ & Hl). eauto.
  - intros (Hl & p & Hp & Hk). exists p. eauto 10.
Qed.

Lemma level_live i k : k ∈ level i → key_row (dk_Id k) db = Some k.
Proof. destruct i; [rewrite elem_of_level_0|rewrite elem_of_level_S]; tauto. Qed.

Lemma root_no_parent k : is_root_key k = true → parent_key db k = None.
Proof. unfold is_root_key, parent_key. destruct (dk_EncryptedKeyData k); [|done]. by intros ->. Qed.

(** A key is on one level only. *)
Lemma level_unique i j k : k ∈ level i → k ∈ level j → i = j.
Proof.
  revert j k. induction i as [|i IH]; intros [|j] k Hi Hj; [done|..].
  - apply elem_of_level_0 in Hi as [_ Hr%root_no_parent]. apply elem_of_level_S in Hj as (_ & p & _ & Hp). congruence.
  - apply elem_of_level_0 in Hj as [_ Hr%root_no_parent]. apply elem_of_level_S in Hi as (_ & p & _ & Hp). congruence.
  - apply elem_of_level_S in Hi as (_ & p & Hp & Hpk). apply elem_of_level_S in Hj as (_ & q & Hq & Hqk). f_equal.
    assert (p = q) as ->; [|by eapply IH]. apply level_live in Hp, Hq. congruence.
Qed.

(** A key of level [i] has a chain of [i] keys above it, all different. *)
Lemma level_chain i k : k ∈ level i →
  ∃ chain, length chain = S i ∧ NoDup chain ∧ (∀ x, x ∈ chain → ∃ j k', (j ≤ i)%nat ∧ k' ∈ level j ∧ dk_Id k' = x).
Proof.
  revert k. induction i as [|i IH]; intros k Hk.
  - exists [dk_Id k]. split_and!; [done|apply NoDup_singleton|]. intros x ->%list_elem_of_singleton. by exists 0%nat, k.
  - pose proof Hk as (_ & p & Hp & _)%elem_of_level_S. destruct (IH p Hp) as (chain & Hl & Hnd & Hall).
    exists (dk_Id k :: chain). split_and!; [cbn; lia| |].
    + constructor; [|done]. intros (j & k' & Hj & Hk' & Hid)%Hall.
      assert (k' = k) as -> by (pose proof (level_live _ _ Hk'); pose proof (level_live _ _ Hk); congruence).
      pose proof (level_unique _ _ _ Hk Hk'). lia.
    + intros x [->|(j & k' & Hj & Hk' & Hid)%Hall]%elem_of_cons; [by exists (S i), k|]. exists j, k'. split; [lia|done].
Qed.

Lemma level_bound i : level i ≠ [] → (i < size (db_keys (e_ndb db)))%nat.
Proof.
  destruct (level i) as [|k l] eqn:Hl; [done|]. intros _.
  destruct (level_chain i k) as (chain & Hlen & Hnd & Hall); [rewrite Hl; set_solver|].
  apply Nat.lt_le_trans with (length chain); [lia|].
  rewrite <- size_dom. rewrite <- (size_list_to_set (C := gset string) chain) by done.
  apply subseteq_size. intros x. rewrite elem_of_list_to_set. intros (j & k' & _ & Hk'%level_live & <-)%Hall.
  apply elem_of_dom. unfold key_row, live_key in Hk'. by destruct (db_keys (e_ndb db) !! dk_Id k').
Qed.

Lemma level_empty_after i j : level i = [] → (i ≤ j)%nat → level j = [].
Proof.
  intros Hi Hij. induction Hij as [|j _ IH]; [done|].
  change (level (S j)) with (flat_map (λ k, key_children o db (dk_Id k)) (level j)). by rewrite IH.
Qed.

(** The enumeration ends, and an invariant of its levels holds at the end. *)
Lemma levels_ind {S} (callback : list DbKey → S → S) (Inv : nat → S → Prop) (s0 : S) :
  Inv 0%nat s0 → (∀ i s, Inv i s → Inv (Datatypes.S i) (callback (level i) s)) →
  ∃ s' i, EnumerateKeysInDependencyOrder o callback (Datatypes.S (size (db_keys (e_ndb db)))) db s0 = Some (key_orphans o db, s') ∧
    Inv i s' ∧ level i = [].
Proof.
  intros H0 Hstep.
  assert (∀ fuel i s, Inv i s → (size (db_keys (e_ndb db)) < fuel + i)%nat →
    ∃ s' j, key_levels (key_children o db) callback fuel (level i) s = Some s' ∧ Inv j s' ∧ level j = []) as Hrun.
  { induction fuel as [|fuel IH]; intros i s Hi Hf.
    - destruct (level i) as [|k l] eqn:Hl; [by exists s, i|]. pose proof (level_bound i) as Hb. rewrite Hl in Hb.
      specialize (Hb ltac:(done)). lia.
    - destruct (level i) as [|k l] eqn:Hl; [by exists s, i|]. cbn [key_levels]. rewrite <- Hl.
      change (flat_map _ (level i)) with (level (Datatypes.S i)). apply IH; [by apply Hstep|lia]. }
  assert (ko_keys o [] = []) as keys_nil by (apply Permutation_nil_r, keys_perm).
  unfold EnumerateKeysInDependencyOrder. destruct (live_keys db) as [|k ks] eqn:Hlive.
  - exists s0, 0%nat. split_and!; [|done|].
    + unfold key_orphans. rewrite Hlive. by rewrite keys_nil.
    + cbn. unfold key_roots. rewrite Hlive. by rewrite keys_nil.
  - destruct (Hrun (Datatypes.S (size (db_keys (e_ndb db)))) 0%nat s0 H0 ltac:(lia)) as (s' & i & Hk & Hi & Hl).
    exists s', i. change (key_roots o db) with (level 0). by rewrite Hk.
Qed.
End levels.

(** *** Each key once, after its parent *)

Lemma NoDup_flat_map {A B} (f : A → list B) l :
  NoDup l → (∀ x, x ∈ l → NoDup (f x)) → (∀ x y z, x ∈ l → y ∈ l → z ∈ f x → z ∈ f y → x = y) → NoDup (flat_map f l).
Proof.
  induction 1 as [|x l Hx Hnd IH]; intros Hf Hdisj; cbn; [constructor|]. apply NoDup_app. split_and!.
  - apply Hf. set_solver.
  - intros z Hz (y & Hy%list_elem_of_In & Hzy%list_elem_of_In)%list_elem_of_In%in_flat_map.
    assert (x = y) as -> by (eapply Hdisj; set_solver). done.
  - apply IH; [intros y Hy; apply Hf; set_solver|]. intros a b z Ha Hb. apply Hdisj; set_solver.
Qed.

Lemma NoDup_List_filter {A} (f : A → bool) l : NoDup l → NoDup (List.filter f l).
Proof.
  induction 1 as [|x l Hx _ IH]; cbn; [constructor|]. destruct (f x); [|done]. constructor; [|done].
  by rewrite elem_of_List_filter; intros [_ ?].
Qed.

Section once.
Context (o : key_orders) (db : edb).
Hypothesis keys_perm : ∀ l, ko_keys o l ≡ₚ l.
Hypothesis children_perm : ∀ l, ko_children o l ≡ₚ l.
Hypothesis ids : ∀ id k, db_keys (e_ndb db) !! id = Some k → dk_Id k = id.

Lemma NoDup_live_keys : NoDup (live_keys db).
Proof.
  apply NoDup_List_filter, NoDup_fmap_2_strong; [|apply NoDup_map_to_list].
  intros [p a] [q b] Ha%elem_of_map_to_list Hb%elem_of_map_to_list. cbn. intros ->. pose proof (ids _ _ Ha). pose proof (ids _ _ Hb). congruence.
Qed.

Lemma NoDup_level i : NoDup (level o db i).
Proof.
  induction i as [|i IH].
  - apply NoDup_List_filter. rewrite keys_perm. apply NoDup_live_keys.
  - change (level o db (S i)) with (flat_map (λ k, key_children o db (dk_Id k)) (level o db i)). apply NoDup_flat_map; [done|..].
    + intros k _. apply NoDup_List_filter. rewrite children_perm. apply NoDup_List_filter, NoDup_live_keys.
    + intros x y z Hx Hy [Hzx%bool_decide_eq_true _]%elem_of_List_filter [Hzy%bool_decide_eq_true _]%elem_of_List_filter.
      apply (level_live _ _ keys_perm children_perm ids) in Hx, Hy. congruence.
Qed.

(** The keys that are reached from a root key through data encryption keys. *)
Inductive reachable : DbKey → Prop :=
  | reach_root k : key_row (dk_Id k) db = Some k → is_root_key k = true → reachable k
  | reach_child k p : key_row (dk_Id k) db = Some k → parent_key db k = Some (dk_Id p) → reachable p → reachable k.

Lemma reachable_level k : reachable k ↔ ∃ i, k ∈ level o db i.
Proof.
  split.
  - induction 1 as [k Hk Hr|k p Hk Hp _ [i Hi]]; [exists 0%nat; by apply elem_of_level_0|exists (S i); apply elem_of_level_S; eauto].
  - intros [i Hi]. revert k Hi. induction i as [|i IH]; intros k Hi.
    + apply elem_of_level_0 in Hi as [? ?]; [|done..]. by apply reach_root.
    + apply elem_of_level_S in Hi as (? & p & Hp & ?); [|done..]. eapply reach_child; eauto.
Qed.

(** C27: enumerating the keys in the order of their dependencies ends, whatever
    the table holds, cycles included, after as many levels as there are keys;
    the keys passed to the callback are those that are reached from a key
    without encrypted data, each once and after the key whose data encryption
    key encrypts it. *)
Theorem dependency_order_exact :
  ∃ keys, EnumerateKeysInDependencyOrder o (λ level acc, acc ++ level) (S (size (db_keys (e_ndb db)))) db [] = Some (key_orphans o db, keys) ∧
    NoDup keys ∧ (∀ k, k ∈ keys ↔ reachable k) ∧
    ∀ before k after, keys = before ++ k :: after → ∀ parent, parent_key db k = Some parent → ∃ p, p ∈ before ∧ dk_Id p = parent.
Proof.
  destruct (levels_ind o db keys_perm children_perm ids (λ level acc, acc ++ level)
    (λ i acc, NoDup acc ∧ (∀ k, k ∈ acc ↔ ∃ j, (j < i)%nat ∧ k ∈ level o db j) ∧
      ∀ before k after, acc = before ++ k :: after → ∀ parent, parent_key db k = Some parent → ∃ p, p ∈ before ∧ dk_Id p = parent) [])
    as (keys & i & Hrun & (Hnd & Hin & Hpar) & Hend).
  - split_and!; [constructor|intros k; split; [by intros []%elem_of_nil|intros (? & ? & _); lia]|]. by intros [|? ?] k after.
  - intros i acc (Hnd & Hin & Hpar). split_and!.
    + apply NoDup_app. split_and!; [done| |apply NoDup_level]. intros k (j & Hj & Hk)%Hin Hk'.
      pose proof (level_unique _ _ keys_perm children_perm ids _ _ _ Hk Hk'). lia.
    + intros k. rewrite elem_of_app, Hin. split; [intros [(j & ? & ?)|?]; [exists j; split; [lia|done]|exists i; split; [lia|done]]|].
      intros (j & Hj & Hk). destruct (decide (j = i)) as [->|]; [by right|]. left. exists j. split; [lia|done].
    + intros before k after Heq parent Hp. apply app_eq_app in Heq as [l [[-> Heq]|[-> Heq]]].
      * destruct l as [|x l]; cbn in Heq.
        -- assert (k ∈ level o db i) as Hk by (rewrite <- Heq; set_solver). rewrite app_nil_r in *.
           destruct i as [|i]; [apply elem_of_level_0 in Hk as [_ Hr%(root_no_parent db)]; [congruence|done..]|].
           apply elem_of_level_S in Hk as (_ & p & Hpl & Hpk); [|done..]. exists p. split; [|congruence]. apply Hin. exists i. split; [lia|done].
        -- injection Heq as -> ->. by eapply Hpar.
      * assert (k ∈ level o db i) as Hk by (rewrite Heq; set_solver).
        destruct i as [|i]; [apply elem_of_level_0 in Hk as [_ Hr%(root_no_parent db)]; [congruence|done..]|].
        apply elem_of_level_S in Hk as (_ & p & Hpl & Hpk); [|done..]. exists p. split; [|congruence]. apply elem_of_app. left. apply Hin. exists i. split; [lia|done].
  - exists keys. split_and!; [done|done| |done]. intros k. rewrite Hin, reachable_level. split; [intros (j & _ & ?); by exists j|].
    intros [j Hj]. exists j. split; [|done]. destruct (decide (j < i)%nat) as [|Hge]; [done|]. rewrite (level_empty_after _ _ i j) in Hj by (done || lia). by apply elem_of_nil in Hj.
Qed.
End once.

(** ** The pages of encryption targets *)

Definition paths_ok (db : edb) : Prop := ∀ p ns, db_namespaces (e_ndb db) !! p = Some ns → dn_Path ns = p.

Definition target_lt (a b : NamespaceEncryptionTarget) : Prop :=
  (et_Depth a < et_Depth b)%Z ∨ et_Depth a = et_Depth b ∧ str_lt (et_Path a) (et_Path b).

Lemma target_after_lt a b : target_after (et_Depth a) (et_Path a) b = true ↔ target_lt a b.
Proof. unfold target_after, target_lt, str_lt. rewrite orb_true_iff, andb_true_iff, Z.ltb_lt, Z.eqb_eq. naive_solver. Qed.

Lemma target_lt_irrefl a : ¬ target_lt a a.
Proof. intros [?|[_ H]]; [lia|]. by apply (irreflexivity str_lt) in H. Qed.

Lemma target_lt_trans a b c : target_lt a b → target_lt b c → target_lt a c.
Proof. unfold target_lt. intros [?|[? Hab]] [?|[? Hbc]]; [left; lia..|]. right. split; [lia|]. by transitivity (et_Path b). Qed.

Lemma by_depth_path_le a b : cmp_le by_depth_path a b ↔ target_lt a b ∨ et_Depth a = et_Depth b ∧ et_Path a = et_Path b.
Proof.
  unfold cmp_le, by_depth_path, target_lt. repeat case_decide; [naive_solver lia..|].
  pose proof (str_cmp_le (et_Path a) (et_Path b)) as Hs. unfold cmp_le in Hs. rewrite Hs. assert (et_Depth a = et_Depth b) by lia. naive_solver lia.
Qed.

Lemma elem_of_all_targets db t :
  t ∈ all_targets db ↔ ∃ p ns, db_namespaces (e_ndb db) !! p = Some ns ∧ ns_live ns = true ∧ t = target_of ns.
Proof.
  unfold all_targets. rewrite SortFunc_perm, list_elem_of_fmap. setoid_rewrite elem_of_List_filter. setoid_rewrite list_elem_of_fmap. split.
  - intros (ns & -> & Hl & [p ns'] & -> & Hp%elem_of_map_to_list). by exists p, ns'.
  - intros (p & ns & Hp & Hl & ->). exists ns. split_and!; [done..|]. exists (p, ns). by rewrite elem_of_map_to_list.
Qed.

Lemma all_targets_sorted db : paths_ok db → StronglySorted target_lt (all_targets db).
Proof.
  intros Hp. apply (StronglySorted_strict (cmp_le by_depth_path)).
  - unfold all_targets. rewrite SortFunc_perm. apply NoDup_fmap_2_strong.
    + intros a b Ha Hb Heq. apply elem_of_List_filter in Ha as [_ ([p a'] & -> & Ha%elem_of_map_to_list)%list_elem_of_fmap].
      apply elem_of_List_filter in Hb as [_ ([q b'] & -> & Hb%elem_of_map_to_list)%list_elem_of_fmap]. cbn in *.
      apply (f_equal et_Path) in Heq. cbn in Heq. rewrite (Hp _ _ Ha), (Hp _ _ Hb) in Heq. congruence.
    + apply NoDup_List_filter, NoDup_fmap_2_strong; [|apply NoDup_map_to_list].
      intros [p a] [q b] Ha%elem_of_map_to_list Hb%elem_of_map_to_list. cbn. intros ->.
      pose proof (Hp _ _ Ha). pose proof (Hp _ _ Hb). congruence.
  - intros a b Ha Hb [?|[_ Heq]]%by_depth_path_le; [by right|]. left.
    apply elem_of_all_targets in Ha as (p & ns & Ha & _ & ->). apply elem_of_all_targets in Hb as (q & ms & Hb & _ & ->).
    cbn in Heq. rewrite (Hp _ _ Ha), (Hp _ _ Hb) in Heq. subst. congruence.
  - apply (SortFunc_sorted _ (λ _, True)); [| |by apply Forall_true].
    + intros a b _ _. rewrite !by_depth_path_le. unfold target_lt.
      destruct (Z.lt_total (et_Depth a) (et_Depth b)) as [?|[?|?]], (str_lt_total (et_Path a) (et_Path b)) as [?|[?|?]]; naive_solver.
    + intros a b c _ _ _. rewrite !by_depth_path_le. intros [Hab|[Hd Hpab]] [Hbc|[Hd' Hpbc]].
      * left. by eapply target_lt_trans.
      * left. unfold target_lt in *. rewrite <- Hd', <- Hpbc. done.
      * left. unfold target_lt in *. rewrite Hd, Hpab. done.
      * right. split; congruence.
Qed.

Lemma StronglySorted_elem_unique (l l' : list NamespaceEncryptionTarget) :
  StronglySorted target_lt l → StronglySorted target_lt l' → (∀ t, t ∈ l ↔ t ∈ l') → l = l'.
Proof.
  assert (∀ l, StronglySorted target_lt l → NoDup l) as Hnd.
  { induction 1 as [|x k _ IH Hx]; constructor; [|done]. rewrite Forall_forall in Hx. intros Hin. by apply (target_lt_irrefl x), Hx. }
  intros Hl Hl' Heq. apply (StronglySorted_unique_strong target_lt); [|done..|].
  - intros x y _ _ Hxy Hyx. exfalso. apply (target_lt_irrefl x). by eapply target_lt_trans.
  - apply NoDup_Permutation; auto.
Qed.

Lemma StronglySorted_List_filter {A} (R : relation A) f l : StronglySorted R l → StronglySorted R (List.filter f l).
Proof.
  induction 1 as [|x l _ IH Hx]; cbn; [constructor|]. destruct (f x); [|done]. constructor; [done|].
  rewrite Forall_forall in Hx |- *. intros y [_ Hy]%elem_of_List_filter. by apply Hx.
Qed.

Lemma apply_targets_frame now us db :
  db_keys (e_ndb (apply_targets now us db)) = db_keys (e_ndb db) ∧ e_deks (apply_targets now us db) = e_deks db ∧
  e_rows (apply_targets now us db) = e_rows db.
Proof.
  unfold apply_targets. revert db. induction us as [|u us IH]; intros db; cbn; [done|].
  destruct (IH (update_target now u.1 u.2 db)) as (-> & -> & ->). unfold update_target. by destruct (db_namespaces (e_ndb db) !! u.1).
Qed.

(** What the updates leave of a row: all but the target and the time. *)
Lemma apply_targets_row now us db p ns' :
  db_namespaces (e_ndb (apply_targets now us db)) !! p = Some ns' →
  ∃ ns, db_namespaces (e_ndb db) !! p = Some ns ∧
    (((p ∉ map fst us) ∧ ns' = ns) ∨ (∃ dek, (p, dek) ∈ us ∧ ns' = touch now (set_ns_target (Some dek) ns))).
Proof.
  unfold apply_targets. revert db. induction us as [|[q dek] us IH]; intros db; cbn [foldl].
  - intros Hp. exists ns'. split; [done|]. left. set_solver.
  - intros (ns & Hns & Hcase)%IH. cbn [fst snd] in *. unfold update_target in Hns.
    destruct (db_namespaces (e_ndb db) !! q) as [m|] eqn:Hq; cbn in Hns.
    + apply lookup_insert_Some in Hns as [[-> <-]|[Hne Hns]].
      * exists m. split; [done|]. right. destruct Hcase as [[_ ->]|(dek' & Hin & ->)].
        -- exists dek. split; [set_solver|done].
        -- exists dek'. split; [set_solver|done].
      * exists ns. split; [done|]. destruct Hcase as [[Hout ->]|(dek' & Hin & ->)]; [left; set_solver|right; exists dek'; set_solver].
    + exists ns. split; [done|]. destruct Hcase as [[Hout ->]|(dek' & Hin & ->)]; [|right; exists dek'; set_solver].
      left. split; [|done]. cbn. intros [->|?]%elem_of_cons; [congruence|done].
Qed.

Lemma apply_targets_dom now us db p :
  is_Some (db_namespaces (e_ndb db) !! p) → is_Some (db_namespaces (e_ndb (apply_targets now us db)) !! p).
Proof.
  unfold apply_targets. revert db. induction us as [|[q dek] us IH]; intros db Hp; cbn [foldl]; [done|]. apply IH.
  unfold update_target. cbn. destruct (db_namespaces (e_ndb db) !! q) as [m|]; [|done]. cbn.
  destruct (decide (p = q)) as [->|]; [by rewrite lookup_insert_eq|by rewrite lookup_insert_ne].
Qed.

Lemma apply_targets_kept now us db p ns :
  p ∉ map fst us → db_namespaces (e_ndb db) !! p = Some ns → db_namespaces (e_ndb (apply_targets now us db)) !! p = Some ns.
Proof.
  intros Hp Hns. destruct (apply_targets_dom now us db p) as [ns' Hns']; [by eexists|].
  pose proof Hns' as (m & Hm & [[_ ->]|(dek & Hin & _)])%apply_targets_row; [congruence|].
  destruct Hp. apply list_elem_of_fmap. by exists (p, dek).
Qed.

Lemma apply_targets_paths now us db : paths_ok db → paths_ok (apply_targets now us db).
Proof. intros Hp p ns (m & Hm & [[_ ->]|(dek & _ & ->)])%apply_targets_row; cbn; by apply Hp. Qed.

Lemma apply_targets_app now us vs db : apply_targets now (us ++ vs) db = apply_targets now vs (apply_targets now us db).
Proof. apply foldl_app. Qed.

(** A callback that works row by row, on nothing the updates change, gets all
    rows in one pass, and all updates are applied. *)
Section pages.
Context {S : Type} (callback : edb → list NamespaceEncryptionTarget → S → list (string * string) * S) (now : Z).
Hypothesis cb_app : ∀ db l l' s, callback db (l ++ l') s =
  ((callback db l s).1 ++ (callback db l' (callback db l s).2).1, (callback db l' (callback db l s).2).2).
Hypothesis cb_db : ∀ us db l s, callback (apply_targets now us db) l s = callback db l s.
Hypothesis cb_paths : ∀ db l s u, u ∈ (callback db l s).1 → u.1 ∈ map et_Path l.

Definition after_cursor (cursor : option (Z * string)) (db : edb) : list NamespaceEncryptionTarget :=
  match cursor with None => all_targets db | Some (depth, path) => List.filter (target_after depth path) (all_targets db) end.

Lemma after_cursor_sorted cursor db : paths_ok db → StronglySorted target_lt (after_cursor cursor db).
Proof. intros Hp. destruct cursor as [[d p]|]; [apply StronglySorted_List_filter|]; by apply all_targets_sorted. Qed.

Lemma after_cursor_all cursor db t : t ∈ after_cursor cursor db → t ∈ all_targets db.
Proof. destruct cursor as [[d p]|]; cbn; [|done]. by intros [_ ?]%elem_of_List_filter. Qed.

(** The rows after the last of a page are the rest, updates or not. *)
Lemma after_last cursor db l r rest us :
  paths_ok db → after_cursor cursor db = l ++ r :: rest → (∀ u, u ∈ us → u.1 ∈ map et_Path (l ++ [r])) →
  after_cursor (Some (et_Depth r, et_Path r)) (apply_targets now us db) = rest.
Proof.
  intros Hp Heq Hus. pose proof (after_cursor_sorted cursor db Hp) as Hs. rewrite Heq in Hs.
  assert (∀ x y, x ∈ l ++ [r] → y ∈ rest → target_lt x y) as Hlt.
  { intros x y Hx Hy. replace (l ++ r :: rest) with ((l ++ [r]) ++ rest) in Hs by by rewrite <- app_assoc.
    apply StronglySorted_app in Hs as (Hc & _ & _). by apply Hc. }
  assert (StronglySorted target_lt rest) as Hrest.
  { apply StronglySorted_app in Hs as (_ & _ & Hs). by inversion Hs. }
  assert (∀ x y, x ∈ all_targets db → y ∈ all_targets db → et_Path x = et_Path y → x = y) as Hinj.
  { intros x y (p & a & Ha & _ & ->)%elem_of_all_targets (q & b & Hb & _ & ->)%elem_of_all_targets. cbn.
    rewrite (Hp _ _ Ha), (Hp _ _ Hb). intros ->. congruence. }
  assert (∀ t, t ∈ l ++ r :: rest → t ∈ all_targets db) as Hin by (intros t; rewrite <- Heq; apply after_cursor_all).
  assert (∀ t, t ∈ rest → et_Path t ∉ map fst us) as Hout.
  { intros t Ht ([p dek] & Hpt & Hu)%list_elem_of_fmap. apply Hus in Hu as (x & Hx & Hxl)%list_elem_of_fmap. cbn in *.
    assert (x = t) as -> by (apply Hinj; [apply Hin; set_solver..|congruence]). by apply (target_lt_irrefl t), Hlt. }
  apply StronglySorted_elem_unique; [apply after_cursor_sorted; by apply apply_targets_paths|done|].
  intros t. cbn. rewrite elem_of_List_filter, target_after_lt. split.
  - intros [Hrt (p & ns' & Hns' & Hl & ->)%elem_of_all_targets].
    apply apply_targets_row in Hns' as (ns & Hns & Hcase).
    assert (target_lt r (target_of ns)) as Hrt'.
    { destruct Hcase as [[_ ->]|(dek & _ & ->)]; [done|]. unfold target_lt in *. cbn in *. done. }
    assert (target_of ns ∈ l ++ r :: rest) as Hm.
    { assert (target_of ns ∈ all_targets db) as Hall.
      { apply elem_of_all_targets. exists p, ns. split_and!; [done| |done]. by destruct Hcase as [[_ ->]|(dek & _ & ->)]. }
      rewrite <- Heq. destruct cursor as [[d q]|]; cbn; [|done]. apply elem_of_List_filter. split; [|done].
      assert (r ∈ after_cursor (Some (d, q)) db) as [Hr _]%elem_of_List_filter by (rewrite Heq; set_solver).
      pose proof (target_after_lt (mkTarget q d None None) (target_of ns)) as Ht. cbn in Ht. rewrite Ht.
      apply (target_lt_trans _ r); [by apply (target_after_lt (mkTarget q d None None))|done]. }
    apply elem_of_app in Hm as [Hm|[Hm|Hm]%elem_of_cons].
    + exfalso. assert (target_lt (target_of ns) r) as Hnr.
      { apply StronglySorted_app in Hs as (Hc & _ & _). apply Hc; set_solver. }
      apply (target_lt_irrefl r). by eapply target_lt_trans.
    + rewrite Hm in Hrt'. by apply target_lt_irrefl in Hrt'.
    + destruct Hcase as [[_ ->]|(dek & Hu & ->)]; [done|]. exfalso. apply (Hout _ Hm). apply list_elem_of_fmap.
      exists (p, dek). split; [|done]. cbn. by apply Hp.
  - intros Ht. split; [apply Hlt; set_solver|]. assert (t ∈ all_targets db) as (p & ns & Hns & Hl & ->)%elem_of_all_targets by (apply Hin; set_solver).
    apply elem_of_all_targets. exists p, ns. split_and!; [|done..]. apply apply_targets_kept; [|done].
    rewrite <- (Hp _ _ Hns). by apply (Hout (target_of ns)).
Qed.

Lemma target_pages_all fuel cursor db s :
  paths_ok db → (length (after_cursor cursor db) < fuel)%nat →
  target_pages callback now fuel cursor db s =
    Some (apply_targets now (callback db (after_cursor cursor db) s).1 db, (callback db (after_cursor cursor db) s).2).
Proof.
  revert cursor db s. induction fuel as [|fuel IH]; intros cursor db s Hp Hf; [lia|]. cbn [target_pages].
  change (target_page target_page_size cursor db) with (take (target_page_size + 1) (after_cursor cursor db)).
  set (rest := after_cursor cursor db) in *.
  rewrite take_take, length_take, Nat.min_l by lia. destruct (Nat.leb_spec ((target_page_size + 1) `min` length rest) target_page_size) as [Hle|Hgt].
  - rewrite take_ge by lia. by destruct (callback db rest s).
  - destruct (exists_last (l := take target_page_size rest)) as (l & r & Hl).
    { intros H0%(f_equal length). rewrite length_take in H0. unfold target_page_size in *. cbn [length] in H0. lia. }
    assert (rest = l ++ r :: drop target_page_size rest) as Hrest.
    { rewrite <- (take_drop target_page_size rest) at 1. by rewrite Hl, <- app_assoc. }
    rewrite Hl, last_snoc. destruct (callback db (l ++ [r]) s) as [us s1] eqn:Hcb.
    pose proof (after_last cursor db l r (drop target_page_size rest) us Hp Hrest) as Hnext.
    rewrite IH; [|by apply apply_targets_paths|].
    + rewrite Hnext by (intros u Hu; apply (cb_paths db _ s); by rewrite Hcb).
      rewrite cb_db. set (tl := drop target_page_size rest) in *. rewrite Hrest.
      replace (l ++ r :: tl) with ((l ++ [r]) ++ tl) by by rewrite <- app_assoc.
      rewrite cb_app, Hcb. cbn [fst snd]. by rewrite apply_targets_app.
    + rewrite Hnext by (intros u Hu; apply (cb_paths db _ s); by rewrite Hcb). rewrite length_drop. unfold target_page_size in *. lia.
Qed.

Lemma length_all_targets db : (length (all_targets db) ≤ size (db_namespaces (e_ndb db)))%nat.
Proof.
  unfold all_targets. rewrite SortFunc_perm, length_map. etrans; [apply List.filter_length_le|].
  by rewrite length_map, length_map_to_list.
Qed.

Lemma EnumerateTargets_all db s :
  paths_ok db → EnumerateNamespaceEncryptionTargets callback now (Datatypes.S (size (db_namespaces (e_ndb db)))) db s =
    Some (apply_targets now (callback db (all_targets db) s).1 db, (callback db (all_targets db) s).2).
Proof.
  intros Hp. unfold EnumerateNamespaceEncryptionTargets. rewrite target_pages_all; [done..|]. cbn. pose proof (length_all_targets db). lia.
Qed.
End pages.

(** ** One current data encryption key per key *)

(** Rows are kept by their id, and of the live rows of a key one at most is
    current. *)
Record deks_ok (deks : gmap string DataEncryptionKey) : Prop := {
  dko_id id d : deks !! id = Some d → dek_Id d = id;
  dko_current i j d e : deks !! i = Some d → deks !! j = Some e → dek_live d = true → dek_live e = true →
    dek_KeyId d = dek_KeyId e → dek_IsCurrent d = true → dek_IsCurrent e = true → i = j
}.

(** Every call that changes the table. *)
Inductive dek_op : Type :=
  | DekCreate (now : Z) (new_id : string) (d : DataEncryptionKey)
  | DekUpdateWrapping (now : Z) (d : DataEncryptionKey)
  | DekClearCurrent (now : Z) (keyId : string)
  | DekSetCurrent (now : Z) (id : string) (isCurrent : bool)
  | DekDeleteKey (now : Z) (keyId : string).

Definition run_dek_op (db : edb) (op : dek_op) : edb :=
  match op with
  | DekCreate now new_id d => (CreateDataEncryptionKey now new_id d db).2
  | DekUpdateWrapping now d => (UpdateDataEncryptionKeyWrapping now d db).2
  | DekClearCurrent now keyId => ClearCurrentDataEncryptionKeyFlagForKey now keyId db
  | DekSetCurrent now id isCurrent => (SetDataEncryptionKeyCurrentFlag now id isCurrent db).2
  | DekDeleteKey now keyId => (DeleteKey now keyId db).2
  end.

(** Rows that stay what they are, or are no longer current. *)
Definition weaker (d d' : DataEncryptionKey) : Prop :=
  dek_Id d' = dek_Id d ∧ dek_KeyId d' = dek_KeyId d ∧ (dek_live d' = true → dek_live d = true) ∧ (dek_IsCurrent d' = true → dek_IsCurrent d = true).

Lemma update_deks_weaker P f deks : (∀ d, weaker d (f d)) → deks_ok deks → deks_ok (update_deks P f deks).
Proof.
  intros Hf [Hid Hcur].
  assert (∀ i d', update_deks P f deks !! i = Some d' → ∃ d, deks !! i = Some d ∧ weaker d d') as Hrow.
  { intros i d'. unfold update_deks. rewrite lookup_fmap. intros (d & Hd & ->)%fmap_Some. exists d. split; [done|]. destruct (_ && _); [apply Hf|by split_and!]. }
  split.
  - intros i d' (d & Hd & (-> & _))%Hrow. by apply Hid.
  - intros i j d' e' (d & Hd & _ & Hk & Hl & Hc)%Hrow (e & He & _ & Hk' & Hl' & Hc')%Hrow ? ? Heq ? ?. apply (Hcur i j d e); auto. congruence.
Qed.

Lemma clear_current_none keyId now deks i d : clear_current keyId now deks !! i = Some d → dek_live d = true → dek_KeyId d = keyId → dek_IsCurrent d = false.
Proof.
  unfold clear_current, update_deks. rewrite lookup_fmap. intros (e & _ & ->)%fmap_Some. destruct (dek_live e) eqn:Hl; cbn [andb]; [|congruence].
  case_bool_decide; [done|]. congruence.
Qed.

Lemma insert_dek_current deks id d :
  deks_ok deks → dek_Id d = id →
  (dek_IsCurrent d = true → ∀ j e, deks !! j = Some e → j ≠ id → dek_live e = true → dek_KeyId e = dek_KeyId d → dek_IsCurrent e = false) →
  deks_ok (<[id := d]> deks).
Proof.
  intros [Hid Hcur] Hd Hother. split.
  - intros i e [[<- <-]|[_ He]]%lookup_insert_Some; [done|by apply Hid].
  - intros i j x y Hx Hy Hlx Hly Hk Hcx Hcy. apply lookup_insert_Some in Hx as [[<- <-]|[Hi Hx]], Hy as [[<- <-]|[Hj Hy]]; [done| | |by eapply Hcur].
    + rewrite (Hother Hcx j y Hy) in Hcy by (done || congruence). done.
    + rewrite (Hother Hcy i x Hx) in Hcx by (done || congruence). done.
Qed.

Lemma clear_current_weaker now d : weaker d (set_current false now d).
Proof. split_and!; try done. Qed.

Lemma clear_current_deks_ok keyId now deks : deks_ok deks → deks_ok (clear_current keyId now deks).
Proof. apply update_deks_weaker, clear_current_weaker. Qed.

Lemma run_dek_op_ok op db : deks_ok (e_deks db) → deks_ok (e_deks (run_dek_op db op)).
Proof.
  intros Hok. destruct op as [now new_id d|now d|now keyId|now id isCurrent|now keyId]; cbn [run_dek_op].
  - unfold CreateDataEncryptionKey. match goal with |- context [Dek_Validate ?x] => set (dek := x) end. clearbody dek.
    destruct (Dek_Validate dek); [|done]. destruct (e_deks db !! dek_Id (set_dek_times now now (dek_DeletedAt dek) dek)) eqn:Hfresh; [done|].
    cbn [snd e_deks with_deks]. apply insert_dek_current; [|done|].
    + destruct (dek_IsCurrent (set_dek_times now now (dek_DeletedAt dek) dek)); [by apply clear_current_deks_ok|done].
    + intros Hc j e. rewrite Hc. intros He _ Hl Hk. by eapply clear_current_none.
  - unfold UpdateDataEncryptionKeyWrapping. match goal with |- context [if ?c then _ else _] => destruct c end; [|done].
    unfold live_dek. destruct (e_deks db !! dek_Id d) as [d0|] eqn:Hd; [|done]. destruct (dek_live d0) eqn:Hl; [|done].
    cbn [snd e_deks with_deks]. apply insert_dek_current; [done|exact (dko_id _ Hok _ _ Hd)|]. cbn. intros Hc j e He Hne Hle Hk.
    destruct (dek_IsCurrent e) eqn:Hce; [|done]. exfalso. apply Hne. by eapply (dko_current _ Hok).
  - apply update_deks_weaker; [|done]. apply clear_current_weaker.
  - unfold SetDataEncryptionKeyCurrentFlag, live_dek. destruct (e_deks db !! id) as [d|] eqn:Hd; [|done]. destruct (dek_live d) eqn:Hl; [|done].
    cbn [snd e_deks with_deks]. apply insert_dek_current; [by destruct isCurrent; [apply clear_current_deks_ok|]|exact (dko_id _ Hok _ _ Hd)|]. cbn.
    intros -> j e He _ Hle Hk. by eapply clear_current_none.
  - unfold DeleteKey. case_decide; [done|]. destruct (key_row keyId db); [|done]. cbn. apply update_deks_weaker; [|done]. intros x. split_and!; done.
Qed.

(** C32: whatever sequence of creations, rewrappings, changes of the current
    flag and deletions of keys the table of data encryption keys goes through,
    a key has at most one live current data encryption key;
    [GetCurrentDataEncryptionKeyForKey] returns it if there is one, and after a
    creation that succeeds with the flag set it is the new one. *)
Theorem one_current_dek ops db :
  deks_ok (e_deks db) →
  let db' := foldl run_dek_op db ops in
  deks_ok (e_deks db') ∧
  (∀ keyId d, GetCurrentDataEncryptionKeyForKey keyId db' = Some d ↔
    e_deks db' !! dek_Id d = Some d ∧ dek_live d = true ∧ dek_KeyId d = keyId ∧ dek_IsCurrent d = true) ∧
  (∀ now new_id d0 d db'', CreateDataEncryptionKey now new_id d0 db' = (Ok d, db'') → dek_IsCurrent d0 = true → dek_DeletedAt d0 = None →
    GetCurrentDataEncryptionKeyForKey (dek_KeyId d0) db'' = Some d).
Proof.
  intros Hdb. cbn zeta. set (db' := foldl run_dek_op db ops).
  assert (deks_ok (e_deks db')) as Hok.
  { subst db'. revert db Hdb. induction ops as [|op ops IH]; intros db Hdb; [done|]. cbn. by apply IH, run_dek_op_ok. }
  assert (∀ db keyId d, deks_ok (e_deks db) → GetCurrentDataEncryptionKeyForKey keyId db = Some d ↔
    e_deks db !! dek_Id d = Some d ∧ dek_live d = true ∧ dek_KeyId d = keyId ∧ dek_IsCurrent d = true) as Hget.
  { clear. intros db keyId d Hok. split.
    - intros (id & Hd & Hl & Hk & Hc)%current_dek_Some. by rewrite (dko_id _ Hok _ _ Hd).
    - intros (Hd & Hl & Hk & Hc). unfold GetCurrentDataEncryptionKeyForKey.
      assert (d ∈ List.filter dek_IsCurrent (ListDataEncryptionKeysForKey keyId db)) as Hin.
      { apply elem_of_List_filter. split; [done|]. apply elem_of_deks_of_key. by exists (dek_Id d). }
      destruct (last (List.filter dek_IsCurrent (ListDataEncryptionKeysForKey keyId db))) as [e|] eqn:He; [|apply last_None in He; rewrite He in Hin; by apply elem_of_nil in Hin].
      assert (GetCurrentDataEncryptionKeyForKey keyId db = Some e) as (id & Hid & Hle & Hke & Hce)%current_dek_Some by done.
      assert (id = dek_Id d) as -> by (eapply (dko_current _ Hok); [done|done|done|done|congruence|done|done]). congruence. }
  split; [done|]. split; [intros; by apply Hget|]. intros now new_id d0 d db'' Hcreate Hc Hdel.
  pose proof (run_dek_op_ok (DekCreate now new_id d0) db' Hok) as Hok'. cbn [run_dek_op] in Hok'. rewrite Hcreate in Hok'. cbn [snd] in Hok'.
  apply Hget; [done|]. revert Hcreate. unfold CreateDataEncryptionKey. case_decide; (destruct (Dek_Validate _); [|done]); cbn;
    (match goal with |- context [match ?x with Some _ => _ | None => _ end] => destruct x eqn:Hfresh end; [done|]); intros [= <- <-]; cbn;
    rewrite lookup_insert_eq; unfold dek_live; cbn; rewrite Hdel; done.
Qed.

(** A table with a current key and an older one. *)
Definition sample_dek (id : string) (current : bool) (created : Z) : DataEncryptionKey :=
  mkDek id "key_a" "value" "id" "v1" ∅ (Some (mkProtected "t" "w" ∅)) current created created None.

Definition sample_deks : edb := mkEdb seeded (<["dek_1" := sample_dek "dek_1" true 2]> {[ "dek_0" := sample_dek "dek_0" false 1 ]}) ∅.

Lemma sample_deks_ok : deks_ok (e_deks sample_deks).
Proof.
  unfold sample_deks. cbn [e_deks]. split.
  - intros id d [[<- <-]|[_ [<- <-]%lookup_singleton_Some]]%lookup_insert_Some; done.
  - intros i j d e [[<- <-]|[_ [<- <-]%lookup_singleton_Some]]%lookup_insert_Some [[<- <-]|[_ [<- <-]%lookup_singleton_Some]]%lookup_insert_Some; done.
Qed.

Lemma one_current_dek_witness :
  GetCurrentDataEncryptionKeyForKey "key_a" (foldl run_dek_op sample_deks [DekSetCurrent 5 "dek_0" true]) = Some (set_current true 5 (sample_dek "dek_0" false 1)).
Proof.
  destruct (one_current_dek [DekSetCurrent 5 "dek_0" true] sample_deks sample_deks_ok) as (_ & Hget & _).
  apply (proj2 (Hget "key_a" (set_current true 5 (sample_dek "dek_0" false 1)))). split_and!; reflexivity.
Defined.
