(* ===== verification/EncryptService.v ===== *)
(** * The encryption service and its tasks

    [encrypt/service.go] (the caches, their synchronisation, encryption and
    decryption), [encrypt/task_generate_data_encryption_keys.go],
    [encrypt/task_sync_keys_to_database.go], [encrypt/task_reencrypt.go] and the
    key operations of [core/service_key.go].

    Every call of a provider, every draw of random bytes and every reading of
    the clock takes the next number of a counter: the [n]-th call happens at
    the instant [n] of the providers, with the [n]-th random bytes. *)

From S2P Require Import Prelude GoStrings Namespace Labels Actors Paging NamespaceStore KeyMaterial Encryption.
Open Scope string_scope.
Open Scope list_scope.

(** The configuration of a key, its JSON form and the provider it stands for. *)
Class KeyConfig := {
  KD : Type;
  provider : KD → KeyData;
  json_Marshal : KD → option string;
  json_Unmarshal : string → option KD
}.

(** What is outside: the random source, the clock and the order of the loops
    over maps. *)
Record outside := mkOutside {
  nonce_at : nat → string;
  random_at : nat → string;
  id_at : nat → string;
  clock : nat → Z;
  orders : nat → key_orders;
  visit_labels : nat → Labels → list (string * string);
  list_keys : list DbKey → list DbKey
}.

Section service.
Context `{C : Cipher, K : KeyConfig} (o : outside).

(** [SystemAuth]: the global key and the policy for data encryption keys. *)
Record SystemAuth := mkSystemAuth {
  GlobalAESKey : option KD;
  sa_DataEncryptionKeys : option DataEncryptionKeys
}.

(** The database with the counter. *)
Record est := mkEst {
  s_db : edb;
  s_n : nat
}.

Definition tick (s : est) : est := mkEst (s_db s) (S (s_n s)).
Definition set_db (db : edb) (s : est) : est := mkEst db (s_n s).

(** ** The caches *)

Record caches := mkCaches {
  keyToKeyDataCache : gmap string KeyData;
  dekToBytesCache : gmap string string;
  keyToCurrentDEKCache : gmap string string;
  namespaceToKeyCache : gmap string string;
  syncReady : bool
}.

Definition NewEncryptService : caches := mkCaches ∅ ∅ ∅ ∅ false.

Definition dataEncryptionKeyInfo (d : DataEncryptionKey) : DataEncryptionKeyInfo :=
  mkDekInfo (dek_Id d) (dek_KeyId d) (dek_Provider d) (dek_ProviderID d) (dek_ProviderVersion d) (dek_ProtectedData d) (dek_IsCurrent d).

(** The caches being filled, the errors so far and the counter. *)
Record loading := mkLoading {
  l_keyData : gmap string KeyData;
  l_bytes : gmap string string;
  l_current : gmap string string;
  l_errors : list enc_error;
  l_n : nat
}.

Definition add_error (e : enc_error) (l : loading) : loading :=
  mkLoading (l_keyData l) (l_bytes l) (l_current l) (l_errors l ++ [e]) (l_n l).

(** One data encryption key: bytes from the old cache, or unwrapped. *)
Definition load_dek (old : gmap string string) (keyData : KeyData) (dek : DataEncryptionKey) (l : loading) : loading :=
  let cached := λ n bytes, mkLoading (l_keyData l) (<[dek_Id dek := bytes]> (l_bytes l))
    (if dek_IsCurrent dek then <[dek_KeyId dek := dek_Id dek]> (l_current l) else l_current l) (l_errors l) n in
  match old !! dek_Id dek with
  | Some bytes => cached (l_n l) bytes
  | None =>
      match UnwrapDataEncryptionKey (l_n l) keyData (dataEncryptionKeyInfo dek) with
      | Some bytes => cached (S (l_n l)) bytes
      | None => add_error EncProvider (mkLoading (l_keyData l) (l_bytes l) (l_current l) (l_errors l) (S (l_n l)))
      end
  end.

(** The key data of a key: configured for the global key, otherwise decrypted
    with a data encryption key loaded before. *)
Definition key_data_of (sa : SystemAuth) (l : loading) (key : DbKey) : result enc_error KeyData :=
  if decide (dk_Id key = GlobalKeyID) then Ok (match GlobalAESKey sa with Some g => provider g | None => None end)
  else match dk_EncryptedKeyData key with
  | None => Err EncNoKeyData
  | Some ef =>
      if EncryptedField_IsZero ef then Err EncNoKeyData
      else match l_bytes l !! ef_ID ef with
      | None => Err (EncKeyNotCached (ef_ID ef))
      | Some keyBytes =>
          match decryptFieldWithBytes keyBytes ef with
          | None => Err EncCipher
          | Some keyDataBytes =>
              match json_Unmarshal keyDataBytes with
              | None => Err EncNoKeyData
              | Some kd => Ok (provider kd)
              end
          end
      end
  end.

Definition load_key (sa : SystemAuth) (old : gmap string string) (db : edb) (l : loading) (key : DbKey) : loading :=
  match key_data_of sa l key with
  | Err e => add_error e l
  | Ok keyData =>
      EnumerateDataEncryptionKeysForKey (dk_Id key) (load_dek old keyData) db
        (mkLoading (<[dk_Id key := keyData]> (l_keyData l)) (l_bytes l) (l_current l) (l_errors l) (l_n l))
  end.

Definition namespace_keys (_ : edb) (targets : list NamespaceEncryptionTarget) (m : gmap string string) : list (string * string) * gmap string string :=
  ([], foldl (λ m t, match et_KeyId t with Some k => <[et_Path t := k]> m | None => m end) m targets).

(** Enough fuel for the two enumerations. *)
Definition key_fuel (db : edb) : nat := S (size (db_keys (e_ndb db))).
Definition target_fuel (db : edb) : nat := S (size (db_namespaces (e_ndb db))).

(** The errors, and the caches that replace the old ones whatever the errors. *)
Definition syncKeysFromDbToMemory (sa : SystemAuth) (mem : caches) (s : est) : option (list enc_error * caches * est) :=
  match EnumerateKeysInDependencyOrder (orders o (s_n s)) (λ keys l, foldl (load_key sa (dekToBytesCache mem) (s_db s)) l keys) (key_fuel (s_db s)) (s_db s)
          (mkLoading ∅ ∅ ∅ [] (S (s_n s))),
        EnumerateNamespaceEncryptionTargets namespace_keys 0 (target_fuel (s_db s)) (s_db s) ∅ with
  | Some (_, l), Some (_, nsKeys) =>
      Some (l_errors l, mkCaches (l_keyData l) (l_bytes l) (l_current l) nsKeys (syncReady mem), mkEst (s_db s) (l_n l))
  | _, _ => None
  end.

Definition hasGlobalDataEncryptionKey (mem : caches) : bool :=
  match keyToCurrentDEKCache mem !! GlobalKeyID with
  | None => false
  | Some dekID => bool_decide (is_Some (dekToBytesCache mem !! dekID))
  end.

Definition markSyncReady (mem : caches) : caches :=
  mkCaches (keyToKeyDataCache mem) (dekToBytesCache mem) (keyToCurrentDEKCache mem) (namespaceToKeyCache mem) true.

(** Also one attempt of the initial loop of [syncLoop]. *)
Definition SyncKeysFromDbToMemory (sa : SystemAuth) (mem : caches) (s : est) : option (list enc_error * caches * est) :=
  match syncKeysFromDbToMemory sa mem s with
  | None => None
  | Some ([], mem', s') => Some ([], if hasGlobalDataEncryptionKey mem' then markSyncReady mem' else mem', s')
  | Some (errs, mem', s') => Some (errs, mem', s')
  end.

(** ** Encryption *)

Definition getKeyIdForNamespace (mem : caches) (namespacePath : string) : string :=
  match list_find (λ p, is_Some (namespaceToKeyCache mem !! p)) (rev (SplitPathToPrefixes namespacePath)) with
  | Some (_, p) => match namespaceToKeyCache mem !! p with Some id => id | None => GlobalKeyID end
  | None => GlobalKeyID
  end.

Definition encrypt_bytes (n : nat) (dekId keyBytes data : string) : result enc_error EncryptedField :=
  match encryptWithKey keyBytes (nonce_at o n) data with
  | None => Err EncCipher
  | Some encryptedData => Ok (mkEncryptedField dekId (b64_encode encryptedData))
  end.

Definition encryptForKey (n : nat) (mem : caches) (keyId data : string) : result enc_error EncryptedField :=
  match keyToCurrentDEKCache mem !! keyId with
  | None => Err (EncNoCurrentKey keyId)
  | Some dekId =>
      match dekToBytesCache mem !! dekId with
      | None => Err (EncKeyNotCached dekId)
      | Some keyBytes => encrypt_bytes n dekId keyBytes data
      end
  end.

(** A caller waits for the first synchronisation; here it gets an error. *)
Definition EncryptGlobal (n : nat) (mem : caches) (data : string) : result enc_error EncryptedField :=
  if syncReady mem then encryptForKey n mem GlobalKeyID data else Err EncNotSynced.

Definition EncryptForNamespace (n : nat) (mem : caches) (namespacePath data : string) : result enc_error EncryptedField :=
  if syncReady mem then encryptForKey n mem (getKeyIdForNamespace mem namespacePath) data else Err EncNotSynced.

Definition EncryptKeyForNamespace (n : nat) (mem : caches) (namespacePath keyData : string) : result enc_error EncryptedField :=
  if decide (namespacePath = Root) then EncryptGlobal n mem keyData
  else EncryptForNamespace n mem (ParentPath namespacePath) keyData.

Definition decrypt (mem : caches) (ef : EncryptedField) : result enc_error string :=
  if EncryptedField_IsZero ef then Ok ""
  else match dekToBytesCache mem !! ef_ID ef with
  | None => Err (EncKeyNotCached (ef_ID ef))
  | Some keyBytes => match decryptFieldWithBytes keyBytes ef with Some data => Ok data | None => Err EncCipher end
  end.

Definition Decrypt (mem : caches) (ef : EncryptedField) : result enc_error string :=
  if syncReady mem then decrypt mem ef else Err EncNotSynced.

Definition ReEncryptField (n : nat) (mem : caches) (ef : EncryptedField) (targetDEKId : string) : result enc_error EncryptedField :=
  if syncReady mem then
    if decide (ef_ID ef = targetDEKId) then Ok ef
    else match decrypt mem ef with
    | Err e => Err e
    | Ok plaintext =>
        match dekToBytesCache mem !! targetDEKId with
        | None => Err (EncKeyNotCached targetDEKId)
        | Some keyBytes => encrypt_bytes n targetDEKId keyBytes plaintext
        end
    end
  else Err EncNotSynced.

(** ** Targets *)

Definition ensureRootNamespaceHasKeySet (s : est) : option enc_error * est :=
  match live_ns Root (e_ndb (s_db s)) with
  | None => (None, s)
  | Some ns =>
      match dn_KeyId ns with
      | Some _ => (None, s)
      | None =>
          match SetNamespaceKeyId (clock o (s_n s)) Root (Some GlobalKeyID) (e_ndb (s_db s)) with
          | (Err e, db') => (Some (EncStore e), tick (set_db (with_ndb db' (s_db s)) s))
          | (Ok _, db') => (None, tick (set_db (with_ndb db' (s_db s)) s))
          end
      end
  end.

(** The data encryption key a namespace is to use; [None] skips it. *)
Definition resolve_target (db : edb) (effectiveDEK : gmap string string) (target : NamespaceEncryptionTarget) : option string :=
  match et_KeyId target with
  | Some keyId => dek_Id <$> GetCurrentDataEncryptionKeyForKey keyId db
  | None =>
      match list_find (λ p, is_Some (effectiveDEK !! p)) (rev (removelast (SplitPathToPrefixes (et_Path target)))) with
      | Some (_, p) => effectiveDEK !! p
      | None => dek_Id <$> GetCurrentDataEncryptionKeyForKey GlobalKeyID db
      end
  end.

Definition reconcile_target (db : edb) (acc : list (string * string) * gmap string string) (target : NamespaceEncryptionTarget) :
    list (string * string) * gmap string string :=
  let '(updates, effectiveDEK) := acc in
  match resolve_target db effectiveDEK target with
  | None => (updates, effectiveDEK)
  | Some resolvedDEKID =>
      (if decide (et_Target target = Some resolvedDEKID) then updates else updates ++ [(et_Path target, resolvedDEKID)],
       <[et_Path target := resolvedDEKID]> effectiveDEK)
  end.

Definition reconcile_page (db : edb) (targets : list NamespaceEncryptionTarget) (effectiveDEK : gmap string string) : list (string * string) * gmap string string :=
  foldl (reconcile_target db) ([], effectiveDEK) targets.

Definition reconcileNamespaceEncryptionTargets (s : est) : option est :=
  match EnumerateNamespaceEncryptionTargets reconcile_page (clock o (s_n s)) (target_fuel (s_db s)) (s_db s) ∅ with
  | Some (db', _) => Some (tick (set_db db' s))
  | None => None
  end.

(** ** Wrapping *)

(** The map entry of a missing key reads as the empty string. *)
Definition providerMetadataMatches (dekMetadata wrappingMetadata : gmap string string) : bool :=
  bool_decide (size dekMetadata = size wrappingMetadata) &&
  forallb (λ kv : string * string, bool_decide (default "" (dekMetadata !! kv.1) = kv.2)) (map_to_list wrappingMetadata).

Definition dataEncryptionKeyNeedsRewrap (dek : DataEncryptionKey) (current : KeyWrappingKeyInfo) : bool :=
  negb (bool_decide (dek_Provider dek = wk_Provider current)) || negb (bool_decide (dek_ProviderID dek = wk_ProviderID current)) ||
  negb (bool_decide (dek_ProviderVersion dek = wk_ProviderVersion current)) ||
  negb (providerMetadataMatches (dek_ProviderMetadata dek) (wk_Metadata current)).

Definition rewrap_dek (kd : KeyData) (current : KeyWrappingKeyInfo) (dek : DataEncryptionKey) (acc : list enc_error * est) : list enc_error * est :=
  let '(errs, s) := acc in
  if dataEncryptionKeyNeedsRewrap dek current then
    match UnwrapDataEncryptionKey (s_n s) kd (dataEncryptionKeyInfo dek) with
    | None => (errs ++ [EncProvider], tick s)
    | Some dekBytes =>
        let s := tick s in
        match WrapDataEncryptionKey (s_n s) (nonce_at o (s_n s)) kd dekBytes with
        | None => (errs ++ [EncProvider], tick s)
        | Some wrapped =>
            let s := tick s in
            let updated := mkDek (dek_Id dek) (dek_KeyId dek) (gd_Provider wrapped) (gd_ProviderID wrapped) (gd_ProviderVersion wrapped)
              (wk_Metadata current) (Some (gd_ProtectedData wrapped)) (dek_IsCurrent dek) (dek_CreatedAt dek) (dek_UpdatedAt dek) (dek_DeletedAt dek) in
            match UpdateDataEncryptionKeyWrapping (clock o (s_n s)) updated (s_db s) with
            | (Err e, db') => (errs ++ [e], set_db db' s)
            | (Ok _, db') => (errs, set_db db' s)
            end
        end
    end
  else (errs, s).

Definition rewrapDataEncryptionKeysForKey (keyId : string) (kd : KeyData) (s : est) : list enc_error * est :=
  match CurrentWrappingKey (s_n s) kd with
  | None => ([EncProvider], tick s)
  | Some current => EnumerateDataEncryptionKeysForKey keyId (rewrap_dek kd current) (s_db s) ([], tick s)
  end.

(** The plain data encryption keys of a task, by id. *)
Definition material : Type := gmap string KeyVersionInfo.

Fixpoint cache_deks (kd : KeyData) (deks : list DataEncryptionKey) (cache : material) (n : nat) : option enc_error * material * nat :=
  match deks with
  | [] => (None, cache, n)
  | dek :: deks =>
      match UnwrapDataEncryptionKey n kd (dataEncryptionKeyInfo dek) with
      | None => (Some EncProvider, cache, S n)
      | Some dekBytes =>
          cache_deks kd deks (<[dek_Id dek := mkKeyVersion (dek_Provider dek) (dek_ProviderID dek) (dek_ProviderVersion dek) dekBytes (dek_IsCurrent dek)]> cache) (S n)
      end
  end.

Definition cacheDataEncryptionKeysForKey (keyId : string) (kd : KeyData) (cache : material) (s : est) : option enc_error * material * est :=
  let '(e, cache', n) := cache_deks kd (ListDataEncryptionKeysForKey keyId (s_db s)) cache (s_n s) in
  (e, cache', mkEst (s_db s) n).

(** Decoding, decrypting and parsing the data of a key; [None] skips it. *)
Definition task_key_data (cache : material) (ef : EncryptedField) : option KD :=
  match cache !! ef_ID ef with
  | None => None
  | Some kvi =>
      match b64_decode (ef_Data ef) with
      | None => None
      | Some decodedData =>
          match decryptWithKey (kv_Data kvi) decodedData with
          | None => None
          | Some decryptedData => json_Unmarshal decryptedData
          end
      end
  end.

(** ** The task that wraps data encryption keys anew *)

Definition sync_key (acc : material * est) (key : DbKey) : material * est :=
  let '(cache, s) := acc in
  match dk_EncryptedKeyData key with
  | None => acc
  | Some ef =>
      match task_key_data cache ef with
      | None => acc
      | Some kd =>
          let '(errs, s) := rewrapDataEncryptionKeysForKey (dk_Id key) (provider kd) s in
          match errs with
          | [] => let '(_, cache', s') := cacheDataEncryptionKeysForKey (dk_Id key) (provider kd) cache s in (cache', s')
          | _ => (cache, s)
          end
      end
  end.

(** [recent] is the sentinel in Redis, [locked] whether the lock was taken. *)
Definition syncKeysToDatabase (sa : SystemAuth) (recent locked : bool) (s : est) : option (list enc_error * est) :=
  match ensureRootNamespaceHasKeySet s with
  | (Some e, s) => Some ([e], s)
  | (None, s) =>
      if recent then Some ([], s)
      else if negb locked then Some ([EncNoConfig], s)
      else match GlobalAESKey sa with
      | None => Some ([EncNoConfig], s)
      | Some g =>
          match rewrapDataEncryptionKeysForKey GlobalKeyID (provider g) s with
          | ([], s) =>
              match cacheDataEncryptionKeysForKey GlobalKeyID (provider g) ∅ s with
              | (Some e, _, s) => Some ([e], s)
              | (None, cache, s) =>
                  match EnumerateKeysInDependencyOrder (orders o (s_n s)) (λ keys acc, foldl sync_key acc keys) (key_fuel (s_db s)) (s_db s) (cache, tick s) with
                  | None => None
                  | Some (_, (_, s)) =>
                      match reconcileNamespaceEncryptionTargets s with Some s => Some ([], s) | None => None end
                  end
              end
          | (errs, s) => Some (errs, s)
          end
      end
  end.

(** ** The task that generates data encryption keys *)

Definition createDataEncryptionKey (encryptionKeyId : string) (kd : KeyData) (s : est) : result enc_error DataEncryptionKey * est :=
  match GenerateDataEncryptionKey (s_n s) (nonce_at o (s_n s)) (random_at o (s_n s)) kd with
  | None => (Err EncProvider, tick s)
  | Some generated =>
      let dek := mkDek "" encryptionKeyId (gd_Provider generated) (gd_ProviderID generated) (gd_ProviderVersion generated)
        (gd_ProviderMetadata generated) (Some (gd_ProtectedData generated)) true 0 0 None in
      let '(r, db') := CreateDataEncryptionKey (clock o (s_n s)) (PrefixDataEncryptionKey +:+ id_at o (s_n s)) dek (s_db s) in
      (r, tick (set_db db' s))
  end.

Definition ensureDataEncryptionKeyForKey (policy : option DataEncryptionKeys) (encryptionKeyId : string) (kd : option KeyData) (s : est) :
    result enc_error bool * est :=
  match kd with
  | None => (Err EncNoKeyData, s)
  | Some kd =>
      let create := λ s, match createDataEncryptionKey encryptionKeyId kd s with (Err e, s) => (Err e, s) | (Ok _, s) => (Ok true, s) end in
      match GetCurrentDataEncryptionKeyForKey encryptionKeyId (s_db s) with
      | None => if ShouldEnsureCurrent policy then create s else (Ok false, s)
      | Some current => if ShouldRotate policy (clock o (s_n s)) (dek_CreatedAt current) then create (tick s) else (Ok false, tick s)
      end
  end.

Definition shouldManageDataEncryptionKeysForKey (key : DbKey) : bool :=
  bool_decide (dk_State key = KeyStateActive) && bool_decide (dk_Usage key = KeyUsageDataEncryption) &&
  (bool_decide (dk_MaterialType key = KeyMaterialTypeSymmetric) || bool_decide (dk_MaterialType key = KeyMaterialTypeExternal)).

Definition generate_key (policy : option DataEncryptionKeys) (acc : material * est) (key : DbKey) : material * est :=
  let '(cache, s) := acc in
  if decide (dk_Id key = GlobalKeyID) then acc
  else match dk_EncryptedKeyData key with
  | None => acc
  | Some ef =>
      match task_key_data cache ef with
      | None => acc
      | Some kd =>
          let s := if shouldManageDataEncryptionKeysForKey key
                   then (ensureDataEncryptionKeyForKey policy (dk_Id key) (Some (provider kd)) s).2 else s in
          let '(_, cache', s') := cacheDataEncryptionKeysForKey (dk_Id key) (provider kd) cache s in (cache', s')
      end
  end.

Definition opt_list {A} (x : option A) : list A := match x with Some a => [a] | None => [] end.

Definition generateDataEncryptionKeysToDatabase (sa : SystemAuth) (locked : bool) (s : est) : option (list enc_error * est) :=
  if negb locked then Some ([EncNoConfig], s)
  else match GlobalAESKey sa with
  | None => Some ([EncNoConfig], s)
  | Some g =>
      let '(e1, s) := ensureRootNamespaceHasKeySet s in
      let '(r2, s) := ensureDataEncryptionKeyForKey (sa_DataEncryptionKeys sa) GlobalKeyID (Some (provider g)) s in
      let '(e3, cache, s) := cacheDataEncryptionKeysForKey GlobalKeyID (provider g) ∅ s in
      match EnumerateKeysInDependencyOrder (orders o (s_n s)) (λ keys acc, foldl (generate_key (sa_DataEncryptionKeys sa)) acc keys) (key_fuel (s_db s)) (s_db s) (cache, tick s) with
      | None => None
      | Some (_, (_, s)) =>
          match reconcileNamespaceEncryptionTargets s with
          | Some s => Some (opt_list e1 ++ match r2 with Err e => [e] | Ok _ => [] end ++ opt_list e3, s)
          | None => None
          end
      end
  end.

(** ** Re-encryption *)

Record totals := mkTotals {
  totalProcessed : Z;
  totalSkipped : Z;
  totalErrors : Z
}.

Definition count_processed (k : Z) (t : totals) : totals := mkTotals (totalProcessed t + k) (totalSkipped t) (totalErrors t).
Definition count_skipped (k : Z) (t : totals) : totals := mkTotals (totalProcessed t) (totalSkipped t + k) (totalErrors t).
Definition count_errors (k : Z) (t : totals) : totals := mkTotals (totalProcessed t) (totalSkipped t) (totalErrors t + k).

(** One target of a page: an update for it, or a count. *)
Definition reencrypt_target (mem : caches) (acc : list ReEncryptedFieldUpdate * totals * nat) (target : ReEncryptionTarget) :
    list ReEncryptedFieldUpdate * totals * nat :=
  let '(updates, tot, n) := acc in
  match ReEncryptField n mem (rt_EncryptedFieldValue target) (rt_TargetDataEncryptionKeyId target) with
  | Err _ => (updates, count_errors 1 tot, S n)
  | Ok newEF =>
      if decide (ef_ID newEF = ef_ID (rt_EncryptedFieldValue target)) then (updates, count_skipped 1 tot, S n)
      else (updates ++ [mkReUpdate (rt_Table target) (rt_PrimaryKey target) (rt_FieldColumn target) newEF], count_processed 1 tot, S n)
  end.

Definition reencrypt_page (regs : list EncryptedFieldRegistration) (mem : caches) (targets : list ReEncryptionTarget) (acc : totals * est) : totals * est :=
  let '(tot, s) := acc in
  let '(updates, tot, n) := foldl (reencrypt_target mem) ([], tot, s_n s) targets in
  match updates with
  | [] => (tot, mkEst (s_db s) n)
  | _ =>
      match BatchUpdateReEncryptedFields regs (clock o n) updates (s_db s) with
      | (None, db') => (tot, mkEst db' (S n))
      | (Some _, db') => (count_processed (- Z.of_nat (length updates)) (count_errors (Z.of_nat (length updates)) tot), mkEst db' (S n))
      end
  end.

(** [None] is the key that has no target, an error the missing namespace. *)
Definition keyTargetDataEncryptionKeyID (key : DbKey) (db : edb) : result enc_error (option string) :=
  match live_ns (ParentPath (dk_Namespace key)) (e_ndb db) with
  | None => Err (EncStore NsNotFound)
  | Some ns => Ok (dn_TargetDataEncryptionKeyId ns)
  end.

Definition reencrypt_key (mem : caches) (now : Z) (key : DbKey) (acc : totals * est) : totals * est :=
  let '(tot, s) := acc in
  match dk_EncryptedKeyData key with
  | None => (count_skipped 1 tot, s)
  | Some ef =>
      if EncryptedField_IsZero ef then (count_skipped 1 tot, s)
      else match keyTargetDataEncryptionKeyID key (s_db s) with
      | Err _ => (count_errors 1 tot, s)
      | Ok None => (count_skipped 1 tot, s)
      | Ok (Some targetDEKID) =>
          if decide (ef_ID ef = targetDEKID) then (count_skipped 1 tot, s)
          else match ReEncryptField (s_n s) mem ef targetDEKID with
          | Err _ => (count_errors 1 tot, tick s)
          | Ok newEF =>
              match UpdateKey (clock o (s_n s)) (dk_Id key) newEF (Some now) (s_db s) with
              | (Err _, db') => (count_errors 1 tot, tick (set_db db' s))
              | (Ok _, db') => (count_processed 1 tot, tick (set_db db' s))
              end
          end
      end
  end.

(** The live keys by creation, in the pages of the list builder. *)
Definition reencryptKeys (mem : caches) (acc : totals * est) : option (totals * est) :=
  let now := clock o (s_n acc.2) in
  match EnumerateThrottled (E := Empty_set) (λ acc : totals * est, list_keys o (live_keys (s_db acc.2))) (λ key acc, (None, reencrypt_key mem now key acc))
          100 (key_fuel (s_db acc.2)) acc with
  | Some (_, acc') => Some acc'
  | None => None
  end.

Definition field_fuel (db : edb) : nat := S (size (e_rows db)).

(** The caches, the counts (an error of the task if there are errors) and the
    state. *)
Definition handleReencryptAll (sa : SystemAuth) (regs : list EncryptedFieldRegistration) (mem : caches) (s : est) : option (caches * totals * est) :=
  match SyncKeysFromDbToMemory sa mem s with
  | None => None
  | Some (_, mem', s) =>
      match EnumerateFieldsRequiringReEncryption (λ acc : totals * est, s_db acc.2) (reencrypt_page regs mem') regs (field_fuel (s_db s)) (mkTotals 0 0 0, s) with
      | None => None
      | Some acc =>
          match reencryptKeys mem' acc with
          | None => None
          | Some (tot, s') => Some (mem', tot, s')
          end
      end
  end.

(** ** Keys, as [core] manages them *)

Definition core_CreateKey (mem : caches) (ns name : string) (keyData : option KD) (labels : Labels) (s : est) : result enc_error DbKey * est :=
  match keyData with
  | None => (Err EncNoKeyData, s)
  | Some kd =>
      match json_Marshal kd with
      | None => (Err EncNoKeyData, s)
      | Some keyDataBytes =>
          match EncryptKeyForNamespace (s_n s) mem ns keyDataBytes with
          | Err e => (Err e, tick s)
          | Ok ef =>
              let s := tick s in
              let '(r, db') := CreateKey (visit_labels o (s_n s)) (clock o (s_n s))
                (mkDbKey (PrefixKey +:+ id_at o (s_n s)) ns name "" "" (Some ef) KeyStateActive labels ∅ 0 0 None None) (s_db s) in
              (r, tick (set_db db' s))
          end
      end
  end.

Definition core_GetKeyData (mem : caches) (id : string) (s : est) : result enc_error KD :=
  match key_row id (s_db s) with
  | None => Err EncNotFound
  | Some k =>
      match dk_EncryptedKeyData k with
      | None => Err EncNoKeyData
      | Some ef =>
          if EncryptedField_IsZero ef then Err EncNoKeyData
          else match Decrypt mem ef with
          | Err e => Err e
          | Ok keyDataBytes => match json_Unmarshal keyDataBytes with Some kd => Ok kd | None => Err EncNoKeyData end
          end
      end
  end.

Definition core_UpdateKeyData (mem : caches) (id : string) (keyData : option KD) (s : est) : result enc_error DbKey * est :=
  match keyData with
  | None => (Err EncNoKeyData, s)
  | Some kd =>
      match key_row id (s_db s) with
      | None => (Err EncNotFound, s)
      | Some k =>
          match json_Marshal kd with
          | None => (Err EncNoKeyData, s)
          | Some keyDataBytes =>
              match EncryptKeyForNamespace (s_n s) mem (dk_Namespace k) keyDataBytes with
              | Err e => (Err e, tick s)
              | Ok ef =>
                  let s := tick s in
                  let '(r, db') := UpdateKey (clock o (s_n s)) id ef None (s_db s) in
                  (r, tick (set_db db' s))
              end
          end
      end
  end.
End service.

(** ** Reading back *)

Section reading_back.
Context {C : Cipher} {CL : CipherLaws C} (o : outside).

(** What was encrypted with the caches can be decrypted with them. *)
Lemma decrypt_encryptForKey n mem keyId data ef : String.length (nonce_at o n) = nonceSize → syncReady mem = true →
  encryptForKey o n mem keyId data = Ok ef → Decrypt mem ef = Ok data.
Proof.
  intros Hn Hsync. unfold encryptForKey, encrypt_bytes. destruct (keyToCurrentDEKCache mem !! keyId) as [dek|]; [|done].
  destruct (dekToBytesCache mem !! dek) as [b|] eqn:Hb; [|done].
  destruct (encryptWithKey b (nonce_at o n) data) as [c|] eqn:Hc; [|done]. intros [= <-].
  unfold Decrypt, decrypt. rewrite Hsync. cbn [ef_ID]. rewrite Hb. unfold decryptFieldWithBytes. cbn [ef_Data].
  rewrite b64_decode_encode, (decrypt_encrypt _ _ _ _ Hn Hc).
  assert (c ≠ "") as Hne.
  { unfold encryptWithKey in Hc. destruct (aes_key b); [|done]. injection Hc as <-. intros [Hnil _]%str_app_nil_inv. by rewrite Hnil in Hn. }
  unfold EncryptedField_IsZero. cbn. rewrite (bool_decide_false (b64_encode c = "")) by (by intros ?%b64_encode_inj).
  by rewrite andb_false_r.
Qed.

Lemma decrypt_EncryptForNamespace n mem ns data ef : String.length (nonce_at o n) = nonceSize →
  EncryptForNamespace o n mem ns data = Ok ef → Decrypt mem ef = Ok data.
Proof. intros Hn. unfold EncryptForNamespace. destruct (syncReady mem) eqn:Hs; [|done]. by apply decrypt_encryptForKey. Qed.
End reading_back.
