(* ===== verification/EncryptTargets.v ===== *)
(** * The targets of namespaces

    [reconcileNamespaceEncryptionTargets] works through the namespaces in
    pages, by depth, with a map of what it has resolved.  It gives every
    namespace the current data encryption key of the nearest key above it. *)

From S2P Require Import Prelude GoStrings Namespace Labels Actors Paging NamespaceStore KeyMaterial Encryption EncryptService.
Open Scope string_scope.
Open Scope list_scope.

(** ** The reference *)

Definition current_id (keyId : string) (db : edb) : option string := dek_Id <$> GetCurrentDataEncryptionKeyForKey keyId db.

(** The current data encryption key of a live namespace's own key. *)
Definition own_dek (db : edb) (path : string) : option string :=
  match live_ns path (e_ndb db) with
  | Some ns => match dn_KeyId ns with Some k => current_id k db | None => None end
  | None => None
  end.

Fixpoint first_some {A B} (f : A → option B) (l : list A) : option B :=
  match l with
  | [] => None
  | x :: l => match f x with Some y => Some y | None => first_some f l end
  end.

(** The nearest of the ancestors with a usable key, or else the global key. *)
Definition inherited_dek (db : edb) (path : string) : option string :=
  match first_some (own_dek db) (rev (removelast (SplitPathToPrefixes path))) with
  | Some d => Some d
  | None => current_id GlobalKeyID db
  end.

Definition effective_dek (db : edb) (path : string) (key : option string) : option string :=
  match key with Some k => current_id k db | None => inherited_dek db path end.

(** The row afterwards: untouched if it has no key to use, or uses it already. *)
Definition retargeted (now : Z) (db : edb) (path : string) (ns : DbNamespace) : DbNamespace :=
  if ns_live ns then
    match effective_dek db path (dn_KeyId ns) with
    | Some dek => if decide (dn_TargetDataEncryptionKeyId ns = Some dek) then ns else touch now (set_ns_target (Some dek) ns)
    | None => ns
    end
  else ns.

(** Rows as the operations on namespaces leave them, with paths shorter than
    the counter of depths. *)
Record targets_wf (db : edb) : Prop := {
  tw_path path ns : db_namespaces (e_ndb db) !! path = Some ns →
    dn_Path ns = path ∧ dn_depth ns = DepthOfPath path ∧ ∃ segs, valid_segs segs ∧ path = render segs ∧ (Z.of_nat (length segs) < 2 ^ 63)%Z
}.

Lemma targets_wf_paths db : targets_wf db → paths_ok db.
Proof. intros Hwf p ns Hns. by destruct (tw_path _ Hwf _ _ Hns). Qed.

(** ** One pass over the rows *)

(** What the callbacks read is not what the updates write. *)
Lemma current_frame now us db keyId :
  GetCurrentDataEncryptionKeyForKey keyId (apply_targets now us db) = GetCurrentDataEncryptionKeyForKey keyId db.
Proof.
  unfold GetCurrentDataEncryptionKeyForKey, ListDataEncryptionKeysForKey. by destruct (apply_targets_frame now us db) as (_ & -> & _).
Qed.

Lemma reconcile_target_db now us db acc t : reconcile_target (apply_targets now us db) acc t = reconcile_target db acc t.
Proof. unfold reconcile_target, resolve_target. destruct acc. by rewrite !current_frame; destruct (et_KeyId t); rewrite ?current_frame. Qed.

Lemma reconcile_fold_acc db l us eff :
  foldl (reconcile_target db) (us, eff) l = (us ++ (reconcile_page db l eff).1, (reconcile_page db l eff).2).
Proof.
  unfold reconcile_page. revert us eff. induction l as [|t l IH] using rev_ind; intros us eff; [by rewrite app_nil_r|].
  rewrite !foldl_app, (IH us eff). cbn. destruct (foldl (reconcile_target db) ([], eff) l) as [vs eff'] eqn:Hf. cbn.
  destruct (resolve_target db eff' t); [|done]. case_decide; [done|]. by rewrite <- app_assoc.
Qed.

Lemma reconcile_page_app db l l' eff :
  reconcile_page db (l ++ l') eff =
  ((reconcile_page db l eff).1 ++ (reconcile_page db l' (reconcile_page db l eff).2).1, (reconcile_page db l' (reconcile_page db l eff).2).2).
Proof.
  unfold reconcile_page at 1. rewrite foldl_app. fold (reconcile_page db l eff).
  rewrite (surjective_pairing (reconcile_page db l eff)). by rewrite reconcile_fold_acc.
Qed.

Lemma reconcile_page_db now us db l eff : reconcile_page (apply_targets now us db) l eff = reconcile_page db l eff.
Proof. unfold reconcile_page. generalize (@nil (string * string), eff). induction l as [|t l IH]; intros acc; cbn; [done|]. by rewrite reconcile_target_db. Qed.

Lemma reconcile_page_paths db l eff u : u ∈ (reconcile_page db l eff).1 → u.1 ∈ map et_Path l.
Proof.
  revert eff u. induction l as [|t l IH] using rev_ind; intros eff u; [set_solver|]. rewrite reconcile_page_app, map_app. cbn [fst].
  intros [Hu|Hu]%elem_of_app; [apply elem_of_app; left; by eapply IH|]. apply elem_of_app. right. revert Hu. unfold reconcile_page at 1.
  cbn. destruct (resolve_target db _ t); cbn; [|set_solver]. case_decide; set_solver.
Qed.

(** ** The map of what is resolved *)

Section resolved.
Context (db : edb).
Hypothesis wf : targets_wf db.

Lemma live_target path ns : live_ns path (e_ndb db) = Some ns → target_of ns ∈ all_targets db ∧ et_Path (target_of ns) = path.
Proof.
  intros [Hns Hl]%live_ns_Some. split.
  - apply elem_of_all_targets. exists path, ns. split_and!; [done| |done]. by apply bool_decide_eq_true.
  - by apply (targets_wf_paths _ wf).
Qed.

(** What the map holds at a path, once the rows above it have been through. *)
Definition resolved (eff : gmap string string) (path : string) : Prop :=
  eff !! path = match live_ns path (e_ndb db) with Some ns => effective_dek db path (dn_KeyId ns) | None => None end.

Lemma find_resolved eff segs :
  valid_segs segs → (∀ p, p ∈ ancestors segs → resolved eff p) →
  match list_find (λ p, is_Some (eff !! p)) (rev (ancestors segs)) with
  | Some (_, p) => eff !! p
  | None => current_id GlobalKeyID db
  end = inherited_dek db (render segs).
Proof.
  unfold inherited_dek. intros Hv. rewrite removelast_prefixes by done.
  induction segs as [|x segs IH] using rev_ind; intros Hres; [done|]. apply Forall_app in Hv as [Hv _].
  rewrite ancestors_snoc in *. rewrite rev_app_distr. cbn [rev app first_some].
  assert (resolved eff (render segs)) as Hr by (apply Hres; set_solver).
  specialize (IH Hv ltac:(intros p Hp; apply Hres; set_solver)).
  unfold resolved in Hr. cbn [list_find]. unfold own_dek at 1.
  destruct (live_ns (render segs) (e_ndb db)) as [ns|] eqn:Hns.
  - unfold effective_dek in Hr. destruct (dn_KeyId ns) as [k|].
    + destruct (current_id k db) as [d|] eqn:Hd.
      * rewrite decide_True by (by eexists). done.
      * rewrite decide_False by (by rewrite Hr; intros []). rewrite <- IH.
        destruct (list_find _ (rev (ancestors segs))) as [[i p]|]; done.
    + unfold inherited_dek in Hr. rewrite removelast_prefixes in Hr by done. rewrite <- IH in Hr |- *.
      case_decide as Hd; [done|]. destruct (list_find _ (rev (ancestors segs))) as [[i p]|]; done.
  - rewrite decide_False by (by rewrite Hr; intros []). rewrite <- IH. destruct (list_find _ (rev (ancestors segs))) as [[i p]|]; done.
Qed.

Lemma ancestor_shallower segs p ns :
  valid_segs segs → (Z.of_nat (length segs) < 2 ^ 63)%Z → p ∈ ancestors segs → live_ns p (e_ndb db) = Some ns →
  (dn_depth ns < DepthOfPath (render segs))%Z.
Proof.
  intros Hv Hlen (q & [r ->] & Hne & ->)%elem_of_ancestors [Hns _]%live_ns_Some.
  destruct (tw_path _ wf _ _ Hns) as (_ & -> & _). apply Forall_app in Hv as [Hq Hr].
  rewrite length_app in Hlen. rewrite !DepthOfPath_render by (rewrite ?length_app; (done || lia || by apply Forall_app)).
  rewrite length_app. destruct r; [by rewrite app_nil_r in Hne|]. cbn. lia.
Qed.

(** What the loop has after the rows of [l]: the paths it has met are resolved
    as the reference has them, and the updates are those of the rows that have
    another target. *)
Record reconciled (l : list NamespaceEncryptionTarget) (acc : list (string * string) * gmap string string) : Prop := {
  rc_in path : path ∈ map et_Path l → resolved acc.2 path;
  rc_out path : path ∉ map et_Path l → acc.2 !! path = None;
  rc_updates path dek : (path, dek) ∈ acc.1 ↔
    ∃ t, t ∈ l ∧ et_Path t = path ∧ effective_dek db path (et_KeyId t) = Some dek ∧ et_Target t ≠ Some dek
}.

Section step.
Context (l rest : list NamespaceEncryptionTarget) (ns : DbNamespace) (segs : list string).
Hypothesis all : all_targets db = l ++ target_of ns :: rest.
Hypothesis segs_valid : valid_segs segs.
Hypothesis segs_short : (Z.of_nat (length segs) < 2 ^ 63)%Z.
Hypothesis ns_path : dn_Path ns = render segs.
Hypothesis ns_depth : dn_depth ns = DepthOfPath (render segs).
Hypothesis ns_row : live_ns (render segs) (e_ndb db) = Some ns.

Lemma elem_before x : x ∈ l → ∃ m, live_ns (et_Path x) (e_ndb db) = Some m ∧ x = target_of m ∧ target_lt x (target_of ns).
Proof.
  intros Hx. pose proof (all_targets_sorted db (targets_wf_paths _ wf)) as Hs. rewrite all in Hs. apply StronglySorted_app in Hs as (Hc & _).
  assert (x ∈ all_targets db) as (q & m & Hm & Hl & ->)%elem_of_all_targets by (rewrite all; set_solver).
  exists m. split_and!; [|done|apply Hc; set_solver]. cbn [et_Path target_of]. rewrite (targets_wf_paths _ wf _ _ Hm).
  apply live_ns_Some. split; [done|]. by apply bool_decide_eq_true in Hl.
Qed.

Lemma path_is_new : render segs ∉ map et_Path l.
Proof.
  intros (x & Hxp & Hx)%list_elem_of_fmap. destruct (elem_before x Hx) as (m & Hm & -> & Hlt). rewrite <- Hxp in Hm.
  assert (m = ns) as -> by congruence. by apply target_lt_irrefl in Hlt.
Qed.

Lemma ancestor_before p m : p ∈ ancestors segs → live_ns p (e_ndb db) = Some m → p ∈ map et_Path l.
Proof.
  intros Hp Hm. pose proof (ancestor_shallower _ _ _ segs_valid segs_short Hp Hm) as Hsh.
  destruct (live_target _ _ Hm) as [Hin Hpm]. apply list_elem_of_fmap. exists (target_of m). split; [done|].
  rewrite all in Hin. apply elem_of_app in Hin as [Hin|[Hin|Hin]%elem_of_cons]; [done|exfalso..].
  - apply (f_equal et_Depth) in Hin. cbn in Hin. lia.
  - pose proof (all_targets_sorted db (targets_wf_paths _ wf)) as Hs. rewrite all in Hs. apply StronglySorted_app in Hs as (_ & _ & Hs).
    inversion Hs as [|?? _ Hf]. subst. rewrite Forall_forall in Hf. destruct (Hf _ Hin) as [Hlt|[Hlt _]]; cbn in Hlt; lia.
Qed.

Lemma resolve_reference acc : reconciled l acc → resolve_target db acc.2 (target_of ns) = effective_dek db (render segs) (dn_KeyId ns).
Proof.
  intros Hrec. unfold resolve_target, effective_dek. cbn [et_KeyId et_Path target_of]. destruct (dn_KeyId ns) as [k|]; [done|].
  rewrite ns_path, removelast_prefixes by done. apply find_resolved; [done|]. intros p Hp.
  destruct (live_ns p (e_ndb db)) as [m|] eqn:Hm; [apply (rc_in _ _ Hrec); by eapply ancestor_before|].
  unfold resolved. rewrite Hm. apply (rc_out _ _ Hrec). intros (x & -> & Hx)%list_elem_of_fmap.
  destruct (elem_before x Hx) as (m & Hm' & _). congruence.
Qed.

Lemma reconcile_step acc : reconciled l acc → reconciled (l ++ [target_of ns]) (reconcile_target db acc (target_of ns)).
Proof.
  intros Hrec. pose proof (resolve_reference acc Hrec) as Hres. destruct Hrec as [Hin Hout Hup]. pose proof path_is_new as Hnew.
  unfold reconcile_target. destruct acc as [us eff]. cbn [fst snd] in *. rewrite Hres. clear Hres.
  assert (∀ path, path ∈ map et_Path (l ++ [target_of ns]) ↔ path = render segs ∨ path ∈ map et_Path l) as Hex.
  { intros path. rewrite map_app, elem_of_app. cbn [map et_Path target_of]. rewrite ns_path, list_elem_of_singleton. tauto. }
  assert (∀ path dek, (∃ t, t ∈ l ++ [target_of ns] ∧ et_Path t = path ∧ effective_dek db path (et_KeyId t) = Some dek ∧ et_Target t ≠ Some dek) ↔
    (path, dek) ∈ us ∨ path = render segs ∧ effective_dek db path (dn_KeyId ns) = Some dek ∧ dn_TargetDataEncryptionKeyId ns ≠ Some dek) as Hups.
  { intros path dek. rewrite Hup. setoid_rewrite elem_of_app. setoid_rewrite list_elem_of_singleton. split.
    - intros (x & [Hx| ->] & Hxp & Hd); [left; by exists x|right]. cbn [et_Path et_KeyId et_Target target_of] in Hxp, Hd. split; congruence.
    - intros [(x & Hx & Hd)|(-> & Hd)]; [exists x; by auto|]. exists (target_of ns). split; [by right|]. by cbn [et_Path et_KeyId et_Target target_of]. }
  cbn [et_Path et_Target target_of]. rewrite ns_path. destruct (effective_dek db (render segs) (dn_KeyId ns)) as [dek|] eqn:Heff; split; cbn [fst snd].
  - intros path [->|Hx]%Hex; unfold resolved; [by rewrite lookup_insert_eq, ns_row|].
    rewrite lookup_insert_ne by (intros <-; done). by apply Hin.
  - intros path Hno. rewrite Hex in Hno. rewrite lookup_insert_ne by (intros <-; tauto). apply Hout. tauto.
  - intros path d. rewrite Hups. case_decide; rewrite ?elem_of_app, ?list_elem_of_singleton; naive_solver congruence.
  - intros path [->|Hx]%Hex; [|by apply Hin]. unfold resolved. rewrite ns_row, Heff. by apply Hout.
  - intros path Hno. rewrite Hex in Hno. apply Hout. tauto.
  - intros path d. rewrite Hups. naive_solver congruence.
Qed.
End step.

Lemma reconcile_reference : reconciled (all_targets db) (reconcile_page db (all_targets db) ∅).
Proof.
  assert (∀ l rest, all_targets db = l ++ rest → reconciled l (reconcile_page db l ∅)) as H; [|by apply (H _ []); rewrite app_nil_r].
  induction l as [|t l IH] using rev_ind; intros rest Hall.
  { split; [set_solver|intros; apply lookup_empty|]. cbn. set_solver. }
  rewrite <- app_assoc in Hall. specialize (IH _ Hall).
  assert (t ∈ all_targets db) as (path & ns & Hns & Hl & ->)%elem_of_all_targets by (rewrite Hall; set_solver).
  destruct (tw_path _ wf _ _ Hns) as (Hp & Hd & segs & Hv & -> & Hlen). unfold reconcile_page. rewrite foldl_app. cbn [foldl].
  apply (reconcile_step l rest ns segs); try done. apply live_ns_Some. split; [done|]. by apply bool_decide_eq_true in Hl.
Qed.
End resolved.

(** The rows afterwards. *)
Lemma reconcile_rows now db path ns :
  targets_wf db → db_namespaces (e_ndb db) !! path = Some ns →
  db_namespaces (e_ndb (apply_targets now (reconcile_page db (all_targets db) ∅).1 db)) !! path = Some (retargeted now db path ns).
Proof.
  intros Hwf Hns. pose proof (reconcile_reference db Hwf) as [_ _ Hup]. set (us := (reconcile_page db (all_targets db) ∅).1) in *.
  assert (dn_Path ns = path) as Hpath by by apply (targets_wf_paths _ Hwf).
  assert (∀ dek, (path, dek) ∈ us ↔ ns_live ns = true ∧ effective_dek db path (dn_KeyId ns) = Some dek ∧ dn_TargetDataEncryptionKeyId ns ≠ Some dek) as Hus.
  { intros dek. rewrite Hup. split.
    - intros (t & (q & m & Hm & Hl & ->)%elem_of_all_targets & Hp & Hd). cbn [et_Path et_KeyId et_Target target_of] in *.
      rewrite (targets_wf_paths _ Hwf _ _ Hm) in Hp. subst q. assert (m = ns) as -> by congruence. done.
    - intros (Hl & Hd & Hn). exists (target_of ns). split_and!; [|done..]. apply elem_of_all_targets. by exists path, ns. }
  destruct (apply_targets_dom now us db path) as [ns' Hns']; [by eexists|]. rewrite Hns'. f_equal.
  apply apply_targets_row in Hns' as (m & Hm & Hcase). assert (m = ns) as -> by congruence. unfold retargeted.
  destruct Hcase as [[Hout ->]|(dek & (Hl & He & Ht)%Hus & ->)].
  - destruct (ns_live ns) eqn:Hl; [|done]. destruct (effective_dek db path (dn_KeyId ns)) as [dek|] eqn:He; [|done]. case_decide as Ht; [done|].
    destruct Hout. apply list_elem_of_fmap. exists (path, dek). split; [done|]. by apply Hus.
  - rewrite Hl, He. by rewrite decide_False.
Qed.

(** ** Properties *)

(** C25: whenever the table of namespaces is as its operations leave it,
    [reconcileNamespaceEncryptionTargets] ends, and every live namespace has
    as its target the current data encryption key of its own key, or, without
    a key, that of the nearest live ancestor whose key has a current one, or
    else of the global key; a namespace that has no such key, or has it
    already, keeps its row, deleted rows stay, and so do keys, data encryption
    keys and encrypted fields. *)
Theorem reconcile_targets_exact o s :
  targets_wf (s_db s) →
  ∃ s', reconcileNamespaceEncryptionTargets o s = Some s' ∧
    (∀ path, db_namespaces (e_ndb (s_db s')) !! path =
      retargeted (clock o (s_n s)) (s_db s) path <$> db_namespaces (e_ndb (s_db s)) !! path) ∧
    db_keys (e_ndb (s_db s')) = db_keys (e_ndb (s_db s)) ∧ e_deks (s_db s') = e_deks (s_db s) ∧ e_rows (s_db s') = e_rows (s_db s).
Proof.
  intros Hwf. unfold reconcileNamespaceEncryptionTargets, target_fuel.
  rewrite EnumerateTargets_all; [|apply reconcile_page_app|apply reconcile_page_db|apply reconcile_page_paths|by apply targets_wf_paths].
  eexists. split; [done|]. cbn [s_db tick set_db]. split; [|apply apply_targets_frame]. intros path.
  destruct (db_namespaces (e_ndb (s_db s)) !! path) as [ns|] eqn:Hns; cbn; [by apply reconcile_rows|].
  apply eq_None_not_Some. intros [ns' (m & Hm & _)%apply_targets_row]. congruence.
Qed.
