(* ===== verification/EncryptionSafety.v ===== *)
(** * No encrypted data is lost

    The keys, data encryption keys, namespaces, encrypted fields and caches of
    the encryption service, over any sequence of operations: what was written
    can be read back by a service that starts anew.

    The argument follows what each data encryption key and each key stood for
    when it was made ([hist]).  Keys are ordered: the global key, then by the
    depth of their namespaces.  The data of a key is always encrypted under a
    key that is lower in this order, so that the hierarchy has no cycle. *)

From S2P Require Import Prelude GoStrings Namespace Labels Actors Paging NamespaceStore KeyMaterial Encryption EncryptService EncryptTargets.
Open Scope string_scope.
Open Scope list_scope.

(** ** Depths *)

Definition path_rank (path : string) : nat := length (SplitPathToPrefixes path).

Lemma path_rank_render segs : valid_segs segs → path_rank (render segs) = S (length segs).
Proof. intros Hs. unfold path_rank. by rewrite SplitPathToPrefixes_render, length_map, length_seq by done. Qed.

(** The key of a namespace is not deeper than it; the root has the global key. *)
Definition target_bound (path : string) : nat := if decide (path = Root) then 0%nat else path_rank path.

Lemma scope_rank p q : ValidatePath p = None → ValidatePath q = None → IsSameOrChild p q = true → (path_rank p ≤ path_rank q)%nat.
Proof.
  intros (a & Ha & ->)%ValidatePath_None (b & Hb & ->)%ValidatePath_None Hs.
  apply IsSameOrChild_render in Hs as [r ->]; [|done..]. rewrite !path_rank_render by done. rewrite length_app. lia.
Qed.

Lemma prefix_rank p q : ValidatePath q = None → p ∈ SplitPathToPrefixes q → ValidatePath p = None ∧ (path_rank p ≤ path_rank q)%nat.
Proof.
  intros (b & Hb & ->)%ValidatePath_None (a & [r ->] & ->)%elem_of_SplitPathToPrefixes; [|done]. apply Forall_app in Hb as [Ha Hr].
  split; [by apply ValidatePath_render|]. rewrite !path_rank_render by (done || by apply Forall_app). rewrite length_app. lia.
Qed.

Lemma ParentPath_rank p : ValidatePath p = None →
  ValidatePath (ParentPath p) = None ∧ (target_bound (ParentPath p) ≤ pred (path_rank p))%nat ∧ (p ≠ Root → path_rank (ParentPath p) = pred (path_rank p)).
Proof.
  intros (a & Ha & ->)%ValidatePath_None. destruct a as [|x a _] using rev_ind.
  - split_and!; [reflexivity| |done]. unfold target_bound. change (ParentPath (render [])) with Root. rewrite decide_True by done. lia.
  - pose proof Ha as [Hs Hx]%Forall_app. rewrite Forall_singleton in Hx. rewrite ParentPath_snoc by done.
    split; [by apply ValidatePath_render|]. rewrite !path_rank_render, length_app by done. cbn [length pred].
    split; [|intros; lia]. unfold target_bound. case_decide; [lia|]. rewrite path_rank_render by done. lia.
Qed.

Lemma path_rank_pos p : ValidatePath p = None → (0 < path_rank p)%nat.
Proof. intros (a & Ha & ->)%ValidatePath_None. rewrite path_rank_render by done. lia. Qed.

(** ** What the operations on namespaces do to keys and targets *)

(** The key of a row after an operation, unless it was the row's before. *)
Definition sets_key (op : ns_op) (path : string) (key : option string) : Prop :=
  match op with
  | NsSetKeyId _ p k => path = p ∧ key = k
  | NsSetKey _ p k => path = p ∧ key = Some k
  | _ => False
  end.

(** Rows keep their targets; new ones have none, and no key but the root's. *)
Definition evolves (op : option ns_op) (db db' : ndb) : Prop :=
  db_keys db' = db_keys db ∧
  ∀ path ns', db_namespaces db' !! path = Some ns' →
    (∃ ns, db_namespaces db !! path = Some ns ∧ dn_TargetDataEncryptionKeyId ns' = dn_TargetDataEncryptionKeyId ns ∧
      (dn_KeyId ns' = dn_KeyId ns ∨ (∃ op', op = Some op' ∧ sets_key op' path (dn_KeyId ns')))) ∨
    (dn_TargetDataEncryptionKeyId ns' = None ∧ (dn_KeyId ns' = None ∨ path = Root ∧ dn_KeyId ns' = Some GlobalKeyID)).

Lemma evolves_refl op db : evolves op db db.
Proof. split; [done|]. intros path ns Hns. left. exists ns. auto. Qed.

Lemma evolves_trans db db' db'' : evolves None db db' → evolves None db' db'' → evolves None db db''.
Proof.
  intros [Hk Hr] [Hk' Hr']. split; [congruence|]. intros path ns'' [(ns' & Hns' & Ht & Hc)|Hnew]%Hr'; [|by right].
  assert (dn_KeyId ns'' = dn_KeyId ns') as Hc' by (destruct Hc as [|(? & [=] & _)]; done).
  destruct (Hr _ _ Hns') as [(ns & Hns & Ht' & Hc2)|[Ht' Hc2]].
  - left. exists ns. split_and!; [done|congruence|]. left. destruct Hc2 as [|(? & [=] & _)]. congruence.
  - right. rewrite Ht, Ht', Hc'. done.
Qed.

Lemma evolves_weaken op db db' : evolves None db db' → evolves op db db'.
Proof.
  intros [Hk Hr]. split; [done|]. intros path ns' [(ns & ? & ? & [?|(? & [=] & _)])|?]%Hr; [|by right]. left. exists ns. auto.
Qed.

(** A row with other labels, annotations, state or times. *)
Lemma evolves_row op path ns ns' db :
  db_namespaces db !! path = Some ns → dn_TargetDataEncryptionKeyId ns' = dn_TargetDataEncryptionKeyId ns →
  (dn_KeyId ns' = dn_KeyId ns ∨ ∃ op', op = Some op' ∧ sets_key op' path (dn_KeyId ns')) →
  evolves op db (with_namespaces (<[path := ns']> (db_namespaces db)) db).
Proof.
  intros Hns Ht Hk. split; [done|]. cbn. intros p m [[<- <-]|[_ Hm]]%lookup_insert_Some; left; [by exists ns|]. exists m. auto.
Qed.

Lemma createNamespace_evolves visit now ns db :
  dn_KeyId ns = None → dn_TargetDataEncryptionKeyId ns = None → evolves None db (createNamespace visit now ns db).2.
Proof.
  intros Hk Ht. destruct (createNamespace visit now ns db) as [[e|row] db'] eqn:Hc.
  - apply createNamespace_Err in Hc as ->. apply evolves_refl.
  - apply createNamespace_Ok in Hc as (state & _ & _ & _ & -> & ->). split; [done|]. cbn.
    intros p m [[<- <-]|[_ Hm]]%lookup_insert_Some; [right|left; exists m; auto]. cbn. rewrite Hk, Ht. split; [done|]. case_decide; naive_solver.
Qed.

Lemma transaction_evolves {A} (f : ntx A) db : evolves None db (f db).2 → evolves None db (transaction f db).2.
Proof. unfold transaction, transaction_commit. destruct (f db) as [[e|a] db']; [intros; apply evolves_refl|done]. Qed.

Lemma CreateNamespace_evolves visit now ns db :
  dn_KeyId ns = None → dn_TargetDataEncryptionKeyId ns = None → evolves None db (CreateNamespace visit now ns db).2.
Proof.
  intros Hk Ht. unfold CreateNamespace. destruct (Validate_ns (normalize_ns ns)); [|apply evolves_refl]. apply transaction_evolves.
  destruct (createNamespace visit now (normalize_ns ns) db) as [[e|row] db'] eqn:Hc; [apply createNamespace_Err in Hc as ->; apply evolves_refl|].
  apply createNamespace_Ok in Hc as (state & _ & _ & _ & -> & ->). split; [done|]. cbn.
  intros p m [[<- <-]|[_ Hm]]%lookup_insert_Some; [right|left; exists m; auto]. cbn. rewrite Hk, Ht. split; [done|]. repeat case_decide; naive_solver.
Qed.

Lemma ensure_prefixes_evolves visit now i ps db : evolves None db (ensure_prefixes visit now i ps db).2.
Proof.
  revert i db. induction ps as [|p ps IH]; intros i db; cbn [ensure_prefixes]; [apply evolves_refl|].
  destruct (getNamespaceByPath p db) as [e|ns]; [|case_decide; [apply IH|apply evolves_refl]]. destruct (is_not_found e); [|apply evolves_refl].
  pose proof (createNamespace_evolves (visit i) (now i) (new_namespace p ∅) db eq_refl eq_refl) as Hc.
  destruct (createNamespace _ _ _ db) as [[e'|row] db']; [done|]. eapply evolves_trans; [exact Hc|]. apply IH.
Qed.

Lemma ensure_ancestors_evolves visit now labels i ps final db : evolves None db (ensure_ancestors visit now labels i ps final db).2.
Proof.
  revert i final db. induction ps as [|p ps IH]; intros i final db; cbn [ensure_ancestors]; [apply evolves_refl|].
  destruct (getNamespaceByPath p db) as [e|ns]; [|apply IH]. destruct (is_not_found e); [|apply evolves_refl].
  pose proof (CreateNamespace_evolves (visit i) (now i) (new_namespace p labels) db eq_refl eq_refl) as Hc.
  destruct (CreateNamespace _ _ _ db) as [[e'|row] db']; [done|]. eapply evolves_trans; [exact Hc|]. apply IH.
Qed.

Lemma SetNamespaceKeyId_evolves op now path key db :
  (∀ ns, sets_key op path (dn_KeyId (touch now (set_ns_key key ns)))) → evolves (Some op) db (SetNamespaceKeyId now path key db).2.
Proof.
  intros Hop. unfold SetNamespaceKeyId. destruct (transaction _ db) as [[e|u] db'] eqn:Ht; [apply transaction_Err in Ht as ->; apply evolves_refl|].
  apply (proj1 (transaction_Ok _ _ _ _)) in Ht. revert Ht. cbn beta. destruct (key_scope_error path key db); [done|].
  unfold update_ns. destruct (live_ns path db) as [ns|] eqn:Hns; [|done]. intros [= _ <-]. apply live_ns_Some in Hns as [Hns _].
  eapply evolves_row; [done..|]. right. exists op. split; [done|]. apply Hop.
Qed.

(** Rows are not purged, and a row that is created has neither key nor target,
    as [core] creates them. *)
Definition ns_op_plain (op : ns_op) : bool :=
  match op with
  | NsPurge _ => false
  | NsCreate _ _ ns => bool_decide (dn_KeyId ns = None) && bool_decide (dn_TargetDataEncryptionKeyId ns = None)
  | _ => true
  end.

Lemma ns_annotations_evolves op now path f db : evolves op db (ns_annotations_in_row now path f db).2.
Proof.
  unfold ns_annotations_in_row. destruct (live_ns path db) as [ns|] eqn:Hns; [|apply evolves_refl]. apply live_ns_Some in Hns as [Hns _].
  eapply evolves_row; [done..|by left].
Qed.

Lemma run_ns_op_evolves op db : ns_op_plain op = true → evolves (Some op) db (run_ns_op op db).
Proof.
  destruct op as [visit now ns|visit now path|visit now path labels|now path|olderThan|now path key|now path key|now path state|op
    |now path m|now path m|now path keys]; cbn [run_ns_op ns_op_plain]; try done.
  - intros [Hk%bool_decide_eq_true Ht%bool_decide_eq_true]%andb_true_iff. by apply evolves_weaken, CreateNamespace_evolves.
  - intros _. unfold EnsureNamespaceByPath. destruct (ValidatePath path); [apply evolves_refl|]. apply evolves_weaken, transaction_evolves, ensure_prefixes_evolves.
  - intros _. unfold EnsureNamespaceAncestorPath. destruct (ValidatePath path); [apply evolves_refl|].
    pose proof (ensure_ancestors_evolves visit now labels 0 (SplitPathToPrefixes path) None db) as He. apply evolves_weaken.
    by destruct (ensure_ancestors _ _ _ _ _ _ db) as [[e|[ns|]] db'].
  - intros _. unfold DeleteNamespace. destruct (db_namespaces db !! path) as [ns|] eqn:Hns; [|apply evolves_refl]. eapply evolves_row; [done..|by left].
  - intros _. by apply SetNamespaceKeyId_evolves.
  - intros _. unfold SetNamespaceKey. destruct (live_key key db); [|apply evolves_refl]. by apply SetNamespaceKeyId_evolves.
  - intros _. unfold SetNamespaceState, update_ns. destruct (live_ns path db) as [ns|] eqn:Hns; [|apply evolves_refl]. apply live_ns_Some in Hns as [Hns _].
    eapply evolves_row; [done..|by left].
  - intros _. unfold namespace_labels_op. destruct (run_op op (ns_rows db)) as [[e|l] t]; [apply evolves_refl|].
    destruct (live_ns (op_path op) db) as [ns|] eqn:Hns; [|apply evolves_refl]. destruct (t !! op_path op); [|apply evolves_refl].
    apply live_ns_Some in Hns as [Hns _]. eapply evolves_row; [done..|by left].
  - intros _. unfold UpdateNamespaceAnnotations. case_decide; [apply evolves_refl|]. destruct (ValidateAnnotations m); [apply ns_annotations_evolves|apply evolves_refl].
  - intros _. unfold PutNamespaceAnnotations. do 2 (case_decide; [apply evolves_refl|]). destruct (ValidateAnnotations m); [apply ns_annotations_evolves|apply evolves_refl].
  - intros _. unfold DeleteNamespaceAnnotations. do 2 (case_decide; [apply evolves_refl|]). apply ns_annotations_evolves.
Qed.

Section safety.
Context `{C : Cipher, !CipherLaws C, K : KeyConfig} (o : outside).
Hypothesis nonces : ∀ n, String.length (nonce_at o n) = nonceSize.
Hypothesis providers_ok : ∀ kd, key_data_ok (provider kd).
Hypothesis json_roundtrip : ∀ kd bytes, json_Marshal kd = Some bytes → json_Unmarshal bytes = Some kd.
Hypothesis orders_perm : ∀ n l, ko_keys (orders o n) l ≡ₚ l ∧ ko_children (orders o n) l ≡ₚ l.
Hypothesis list_keys_perm : ∀ l, list_keys o l ≡ₚ l.
Context (sa : SystemAuth) (g : KD).
Hypothesis global_configured : GlobalAESKey sa = Some g.

(** ** What was made *)

Record hist := mkHist {
  h_bytes : gmap string string;
  h_data : gmap string KD;
  h_ns : gmap string string;
  h_key : gmap string string;
  h_seen : bool
}.

Record hist_le (h h' : hist) : Prop := {
  hl_bytes : h_bytes h ⊆ h_bytes h';
  hl_data : h_data h ⊆ h_data h';
  hl_ns : h_ns h ⊆ h_ns h';
  hl_key : h_key h ⊆ h_key h';
  hl_seen : h_seen h = true → h_seen h' = true
}.

#[local] Instance hist_le_preorder : PreOrder hist_le.
Proof.
  split; [by split|]. intros a b c [? ? ? ? ?] [? ? ? ? ?]. split; [by etrans|by etrans|by etrans|by etrans|by auto].
Qed.

(** The key is the global one, or its namespace has at most [r] prefixes. *)
Definition rank_le (h : hist) (key : string) (r : nat) : Prop :=
  key = GlobalKeyID ∨ ∃ ns, h_ns h !! key = Some ns ∧ (path_rank ns ≤ r)%nat.

Lemma rank_le_mono h h' key r r' : hist_le h h' → rank_le h key r → (r ≤ r')%nat → rank_le h' key r'.
Proof. intros Hh [->|(ns & Hns & Hr)] Hrr; [by left|]. right. exists ns. split; [|lia]. by eapply lookup_weaken, hl_ns. Qed.

(** The field decrypts to [data] with the bytes of its data encryption key,
    which belongs to [key]. *)
Definition field_of (h : hist) (ef : EncryptedField) (data key : string) : Prop :=
  ∃ b, h_bytes h !! ef_ID ef = Some b ∧ h_key h !! ef_ID ef = Some key ∧ decryptFieldWithBytes b ef = Some data ∧ ef_ID ef ≠ "".

Definition field_ok (h : hist) (ef : EncryptedField) (data : string) : Prop := ∃ key, field_of h ef data key.

Lemma field_of_mono h h' ef data key : hist_le h h' → field_of h ef data key → field_of h' ef data key.
Proof.
  intros Hh (b & Hb & Hk & Hd & Hne). exists b. split_and!; [by eapply lookup_weaken, hl_bytes|by eapply lookup_weaken, hl_key|done..].
Qed.

Record key_ok (h : hist) (id : string) (k : DbKey) : Prop := {
  ko_id : dk_Id k = id;
  ko_live : dk_DeletedAt k = None;
  ko_ns : h_ns h !! id = Some (dk_Namespace k);
  ko_valid : ValidatePath (dk_Namespace k) = None;
  ko_global : id = GlobalKeyID → dk_EncryptedKeyData k = None;
  ko_data : id ≠ GlobalKeyID → ∃ ef bytes kd parent, dk_EncryptedKeyData k = Some ef ∧ field_of h ef bytes parent ∧
    rank_le h parent (pred (path_rank (dk_Namespace k))) ∧ json_Unmarshal bytes = Some kd ∧ h_data h !! id = Some kd
}.

(** What a provider gets to see of a data encryption key. *)
Definition info_with (c : bool) (d : DataEncryptionKey) : DataEncryptionKeyInfo :=
  mkDekInfo (dek_Id d) (dek_KeyId d) (dek_Provider d) (dek_ProviderID d) (dek_ProviderVersion d) (dek_ProtectedData d) c.

Record dek_ok (h : hist) (n : nat) (id : string) (d : DataEncryptionKey) : Prop := {
  do_id : dek_Id d = id;
  do_nonempty : id ≠ "";
  do_live : dek_DeletedAt d = None;
  do_key : h_key h !! id = Some (dek_KeyId d);
  do_bytes : ∃ b kd, h_bytes h !! id = Some b ∧ h_data h !! dek_KeyId d = Some kd ∧
    ∀ t c, (n ≤ t)%nat → UnwrapDataEncryptionKey t (provider kd) (info_with c d) = Some b
}.

Definition target_ok (h : hist) (path : string) (ns : DbNamespace) : Prop :=
  ∀ dek, dn_TargetDataEncryptionKeyId ns = Some dek → dek ≠ "" ∧ ∃ key, h_key h !! dek = Some key ∧ rank_le h key (target_bound path).

Definition global_current (deks : gmap string DataEncryptionKey) : Prop :=
  ∃ id d, deks !! id = Some d ∧ dek_KeyId d = GlobalKeyID ∧ dek_IsCurrent d = true.

Record db_ok (h : hist) (n : nat) (db : edb) : Prop := {
  ok_ns : ndb_ok true (e_ndb db);
  ok_root ns k : db_namespaces (e_ndb db) !! Root = Some ns → dn_KeyId ns = Some k → k = GlobalKeyID;
  ok_targets : map_Forall (target_ok h) (db_namespaces (e_ndb db));
  ok_keys : map_Forall (key_ok h) (db_keys (e_ndb db));
  ok_keys_all id : is_Some (h_ns h !! id) → is_Some (db_keys (e_ndb db) !! id);
  ok_deks : map_Forall (dek_ok h n) (e_deks db);
  ok_deks_all id : is_Some (h_key h !! id) → is_Some (e_deks db !! id);
  ok_bytes_all id : is_Some (h_bytes h !! id) → is_Some (h_key h !! id);
  ok_data_all id : is_Some (h_data h !! id) → is_Some (h_ns h !! id);
  ok_dek_keys id key : h_key h !! id = Some key → is_Some (h_ns h !! key);
  ok_global : h_data h !! GlobalKeyID = Some g;
  ok_global_row : is_Some (h_ns h !! GlobalKeyID);
  ok_seen : h_seen h = true → global_current (e_deks db)
}.

Definition field_at (rows : gmap (string * string) FieldRow) (loc : (string * string) * string) : option EncryptedField :=
  rows !! loc.1 ≫= λ r, fr_Cols r !! loc.2.

Record rows_ok (h : hist) (rows : gmap (string * string) FieldRow) (plain : gmap ((string * string) * string) string) : Prop := {
  ro_fields loc : option_Forall2 (field_ok h) (field_at rows loc) (plain !! loc);
  ro_seen loc : is_Some (plain !! loc) → h_seen h = true
}.

Record mem_ok (h : hist) (mem : caches) : Prop := {
  mo_bytes : dekToBytesCache mem ⊆ h_bytes h;
  mo_current key dek : keyToCurrentDEKCache mem !! key = Some dek → dek ≠ "" ∧ h_key h !! dek = Some key;
  mo_ns path key : namespaceToKeyCache mem !! path = Some key → rank_le h key (path_rank path);
  mo_ready : syncReady mem = true → h_seen h = true
}.

Lemma rows_ok_mono h h' rows plain : hist_le h h' → rows_ok h rows plain → rows_ok h' rows plain.
Proof.
  intros Hh [Hf Hs]. split; [|intros loc Hl; by apply (hl_seen _ _ Hh), (Hs loc)].
  intros loc. destruct (Hf loc) as [ef data [key Hfo]|]; constructor. exists key. by eapply field_of_mono.
Qed.

Lemma mem_ok_mono h h' mem : hist_le h h' → mem_ok h mem → mem_ok h' mem.
Proof.
  intros Hh [Hb Hc Hn Hr]. split.
  - by etrans; [|apply hl_bytes].
  - intros key dek [? ?]%Hc. split; [done|]. by eapply lookup_weaken, hl_key.
  - intros path key Hk%Hn. by eapply rank_le_mono.
  - intros Hs. by apply (hl_seen _ _ Hh), Hr.
Qed.

Lemma dek_ok_mono h h' n n' id d : hist_le h h' → (n ≤ n')%nat → dek_ok h n id d → dek_ok h' n' id d.
Proof.
  intros Hh Hn [? ? ? Hk (b & kd & Hb & Hkd & Hu)]. split; [done..|by eapply lookup_weaken, hl_key|].
  exists b, kd. split_and!; [by eapply lookup_weaken, hl_bytes|by eapply lookup_weaken, hl_data|]. intros t c Ht. apply Hu. lia.
Qed.

Lemma key_ok_mono h h' id k : hist_le h h' → key_ok h id k → key_ok h' id k.
Proof.
  intros Hh [? ? Hns ? ? Hd]. split; [done..|by eapply lookup_weaken, hl_ns|done|done|].
  intros Hne. destruct (Hd Hne) as (ef & bytes & kd & parent & ? & Hf & Hr & ? & Hkd). exists ef, bytes, kd, parent.
  split_and!; [done|by eapply field_of_mono|by eapply rank_le_mono|done|by eapply lookup_weaken, hl_data].
Qed.

Lemma target_ok_mono h h' path ns : hist_le h h' → target_ok h path ns → target_ok h' path ns.
Proof.
  intros Hh Ht dek Hd. destruct (Ht dek Hd) as (Hne & key & Hk & Hr). split; [done|]. exists key.
  split; [by eapply lookup_weaken, hl_key|by eapply rank_le_mono].
Qed.

(** A later instant. *)
Lemma db_ok_later h n n' db : (n ≤ n')%nat → db_ok h n db → db_ok h n' db.
Proof. intros Hn [? ? ? ? ? Hd ? ? ? ? ? ? ?]. split; try done. intros id d Hid. by eapply dek_ok_mono, Hd. Qed.

(** ** Encryption and decryption *)

Lemma encrypt_bytes_field h n dek b key data ef :
  h_bytes h !! dek = Some b → h_key h !! dek = Some key → dek ≠ "" → encrypt_bytes o n dek b data = Ok ef → ef_ID ef = dek ∧ field_of h ef data key.
Proof.
  intros Hb Hk Hne. unfold encrypt_bytes. destruct (encryptWithKey b (nonce_at o n) data) as [c|] eqn:He; [|done]. intros [= <-].
  split; [done|]. exists b. cbn. split_and!; [done..| |done]. unfold decryptFieldWithBytes. cbn. rewrite b64_decode_encode.
  by eapply decrypt_encrypt.
Qed.

Lemma encryptForKey_field h n mem key data ef : mem_ok h mem → encryptForKey o n mem key data = Ok ef → field_of h ef data key.
Proof.
  intros Hm. unfold encryptForKey. destruct (keyToCurrentDEKCache mem !! key) as [dek|] eqn:Hc; [|done].
  destruct (mo_current _ _ Hm _ _ Hc) as [Hne Hk]. destruct (dekToBytesCache mem !! dek) as [b|] eqn:Hb; [|done].
  intros He. eapply encrypt_bytes_field; [|done..]. by eapply lookup_weaken, mo_bytes.
Qed.

Lemma decrypt_field h mem ef data x : mem_ok h mem → field_ok h ef data → decrypt mem ef = Ok x → x = data.
Proof.
  intros Hm (key & b & Hb & _ & Hd & Hne). unfold decrypt, EncryptedField_IsZero. rewrite bool_decide_false by done. cbn.
  destruct (dekToBytesCache mem !! ef_ID ef) as [b'|] eqn:Hb'; [|done]. pose proof (lookup_weaken _ _ _ _ Hb' (mo_bytes _ _ Hm)).
  assert (b' = b) as -> by congruence. rewrite Hd. congruence.
Qed.

Lemma ReEncryptField_field h n mem ef data dek key ef' :
  mem_ok h mem → field_ok h ef data → h_key h !! dek = Some key → dek ≠ "" → ReEncryptField o n mem ef dek = Ok ef' → field_of h ef' data key.
Proof.
  intros Hm Hf Hk Hne. unfold ReEncryptField. destruct (syncReady mem); [|done]. case_decide as Hid.
  - intros [= <-]. destruct Hf as (key' & b & Hb & Hk' & Hd & Hne'). exists b. split_and!; try done. congruence.
  - destruct (decrypt mem ef) as [e|x] eqn:Hdec; [done|]. pose proof (decrypt_field _ _ _ _ _ Hm Hf Hdec) as ->.
    destruct (dekToBytesCache mem !! dek) as [b|] eqn:Hb; [|done]. intros He. eapply encrypt_bytes_field; [|done..]. by eapply lookup_weaken, mo_bytes.
Qed.

(** ** The hierarchy *)

Section hierarchy.
Context (h : hist) (n : nat) (db : edb).
Hypothesis ok : db_ok h n db.

Lemma ok_ids id k : db_keys (e_ndb db) !! id = Some k → dk_Id k = id.
Proof. intros Hk. by apply (ko_id _ _ _ (ok_keys _ _ _ ok _ _ Hk)). Qed.

Lemma ok_key_row id : key_row id db = db_keys (e_ndb db) !! id.
Proof.
  unfold key_row, live_key. destruct (db_keys (e_ndb db) !! id) as [k|] eqn:Hk; [|done].
  by rewrite decide_True by apply (ko_live _ _ _ (ok_keys _ _ _ ok _ _ Hk)).
Qed.

Lemma ok_live_dek id : live_dek id db = e_deks db !! id.
Proof.
  unfold live_dek, dek_live. destruct (e_deks db !! id) as [d|] eqn:Hd; [|done].
  by rewrite bool_decide_true by apply (do_live _ _ _ _ (ok_deks _ _ _ ok _ _ Hd)).
Qed.

Lemma ok_dek_list keyId d : d ∈ ListDataEncryptionKeysForKey keyId db ↔ e_deks db !! dek_Id d = Some d ∧ dek_KeyId d = keyId.
Proof.
  rewrite elem_of_deks_of_key. split.
  - intros (id & Hd & _ & Hk). by rewrite (do_id _ _ _ _ (ok_deks _ _ _ ok _ _ Hd)).
  - intros [Hd Hk]. exists (dek_Id d). split_and!; [done| |done]. unfold dek_live.
    by rewrite bool_decide_true by apply (do_live _ _ _ _ (ok_deks _ _ _ ok _ _ Hd)).
Qed.

(** The data encryption key of a field, and its key. *)
Lemma field_dek ef data key : field_of h ef data key → ∃ d, e_deks db !! ef_ID ef = Some d ∧ dek_KeyId d = key ∧ is_Some (db_keys (e_ndb db) !! key).
Proof.
  intros (b & _ & Hk & _). destruct (ok_deks_all _ _ _ ok (ef_ID ef)) as [d Hd]; [by eexists|]. exists d.
  pose proof (do_key _ _ _ _ (ok_deks _ _ _ ok _ _ Hd)). split_and!; [done|congruence|]. apply (ok_keys_all _ _ _ ok). by eapply ok_dek_keys.
Qed.

Lemma ok_parent id k : db_keys (e_ndb db) !! id = Some k → id ≠ GlobalKeyID →
  ∃ parent, parent_key db k = Some parent ∧ is_Some (db_keys (e_ndb db) !! parent) ∧ rank_le h parent (pred (path_rank (dk_Namespace k))).
Proof.
  intros Hk Hne. destruct (ko_data _ _ _ (ok_keys _ _ _ ok _ _ Hk) Hne) as (ef & bytes & kd & parent & Hef & Hf & Hr & _).
  destruct (field_dek _ _ _ Hf) as (d & Hd & Hdk & [p Hp]). exists parent. split_and!; [|by eexists|done].
  unfold parent_key. rewrite Hef. destruct Hf as (b & _ & _ & _ & Hid). unfold EncryptedField_IsZero. rewrite bool_decide_false by done. cbn.
  by rewrite ok_live_dek, Hd, Hdk, ok_key_row, Hp.
Qed.

Context (ord : key_orders).
Hypothesis keys_perm : ∀ l, ko_keys ord l ≡ₚ l.
Hypothesis children_perm : ∀ l, ko_children ord l ≡ₚ l.

(** Every key is on some level. *)
Lemma key_on_level id k : db_keys (e_ndb db) !! id = Some k → ∃ i, k ∈ level ord db i.
Proof.
  assert (∀ r id k, db_keys (e_ndb db) !! id = Some k → (id = GlobalKeyID ∨ path_rank (dk_Namespace k) ≤ r)%nat → ∃ i, k ∈ level ord db i) as H.
  { induction r as [r IH] using lt_wf_ind. clear id k. intros id k Hk Hr. pose proof (ok_keys _ _ _ ok _ _ Hk) as Hkok.
    assert (key_row (dk_Id k) db = Some k) as Hrow by (by rewrite (ko_id _ _ _ Hkok), ok_key_row).
    destruct (decide (id = GlobalKeyID)) as [->|Hne].
    { exists 0%nat. apply elem_of_level_0; [done|apply ok_ids|]. split; [done|]. unfold is_root_key. by rewrite (ko_global _ _ _ Hkok). }
    destruct Hr as [?|Hr]; [done|]. destruct (ok_parent _ _ Hk Hne) as (parent & Hp & [p Hprow] & Hrank).
    pose proof (path_rank_pos _ (ko_valid _ _ _ Hkok)). destruct (IH (pred r) ltac:(lia) parent p Hprow) as [i Hi].
    { destruct Hrank as [->|(ns & Hns & Hle)]; [by left|right]. rewrite (ko_ns _ _ _ (ok_keys _ _ _ ok _ _ Hprow)) in Hns. injection Hns as <-. lia. }
    exists (S i). apply elem_of_level_S; [done|apply ok_ids|]. split; [done|]. exists p. by rewrite (ok_ids _ _ Hprow). }
  intros Hk. eapply H; [done|]. by right.
Qed.

(** *** Loading the caches *)

Context (old : gmap string string).
Hypothesis old_ok : old ⊆ h_bytes h.

Record load_ok (l : loading) : Prop := {
  lo_bytes : l_bytes l ⊆ h_bytes h;
  lo_current key dek : l_current l !! key = Some dek →
    is_Some (l_bytes l !! dek) ∧ ∃ d, e_deks db !! dek = Some d ∧ dek_KeyId d = key ∧ dek_IsCurrent d = true;
  lo_errors : l_errors l = [];
  lo_n : (n ≤ l_n l)%nat
}.

Record load_le (l l' : loading) : Prop := {
  ll_bytes : l_bytes l ⊆ l_bytes l';
  ll_current key : is_Some (l_current l !! key) → is_Some (l_current l' !! key)
}.

#[local] Instance load_le_preorder : PreOrder load_le.
Proof. split; [by split|]. intros a b c [? ?] [? ?]. split; [by etrans|by auto]. Qed.

Definition dek_loaded (d : DataEncryptionKey) (l : loading) : Prop :=
  is_Some (l_bytes l !! dek_Id d) ∧ (dek_IsCurrent d = true → is_Some (l_current l !! dek_KeyId d)).

Definition key_loaded (id : string) (l : loading) : Prop := ∀ d, d ∈ ListDataEncryptionKeysForKey id db → dek_loaded d l.

Lemma dek_loaded_mono d l l' : load_le l l' → dek_loaded d l → dek_loaded d l'.
Proof. intros [Hb Hc] [[b Hd] Hcur]. split; [exists b; by eapply lookup_weaken|]. intros Hi. by apply Hc, Hcur. Qed.

Lemma load_dek_ok kd d l : h_data h !! dek_KeyId d = Some kd → e_deks db !! dek_Id d = Some d → load_ok l →
  load_ok (load_dek old (provider kd) d l) ∧ load_le l (load_dek old (provider kd) d l) ∧ dek_loaded d (load_dek old (provider kd) d l).
Proof.
  intros Hkd Hd [Hb Hc He Hn]. destruct (ok_deks _ _ _ ok _ _ Hd) as [_ Hne _ Hkey (b & kd' & Hbytes & Hkd' & Hu)].
  assert (kd' = kd) as -> by congruence.
  assert (∀ n', (l_n l ≤ n')%nat → let l' := mkLoading (l_keyData l) (<[dek_Id d := b]> (l_bytes l))
    (if dek_IsCurrent d then <[dek_KeyId d := dek_Id d]> (l_current l) else l_current l) (l_errors l) n' in
    load_ok l' ∧ load_le l l' ∧ dek_loaded d l') as Hcached.
  { intros n' Hn'. assert (l_bytes l ⊆ <[dek_Id d := b]> (l_bytes l)) as Hsub.
    { apply map_subseteq_spec. intros x y Hx. destruct (decide (x = dek_Id d)) as [->|]; [|by rewrite lookup_insert_ne].
      rewrite lookup_insert_eq. by rewrite <- Hbytes; eapply lookup_weaken. }
    split_and!; split; cbn; try done; try lia.
    - by apply insert_subseteq_l.
    - intros key dek Hcur. assert (dek = dek_Id d ∧ key = dek_KeyId d ∧ dek_IsCurrent d = true ∨ l_current l !! key = Some dek) as [(-> & -> & Hi)|Hold].
      { destruct (dek_IsCurrent d); [|by right]. apply lookup_insert_Some in Hcur as [[<- <-]|[_ ?]]; [by left|by right]. }
      + split; [by rewrite lookup_insert_eq|by exists d].
      + destruct (Hc _ _ Hold) as ([x Hx] & ?). split; [|done]. exists x. by eapply lookup_weaken.
    - intros key [x Hx]. destruct (dek_IsCurrent d); [|by eexists]. destruct (decide (key = dek_KeyId d)) as [->|]; [by rewrite lookup_insert_eq|].
      rewrite lookup_insert_ne by done. by eexists.
    - by rewrite lookup_insert_eq.
    - intros ->. by rewrite lookup_insert_eq. }
  unfold load_dek. destruct (old !! dek_Id d) as [b'|] eqn:Hold.
  - pose proof (lookup_weaken _ _ _ _ Hold old_ok). assert (b' = b) as -> by congruence. by apply Hcached.
  - change (dataEncryptionKeyInfo d) with (info_with (dek_IsCurrent d) d). rewrite Hu by done. apply Hcached. lia.
Qed.

Lemma load_deks_ok kd ds l : (∀ d, d ∈ ds → h_data h !! dek_KeyId d = Some kd ∧ e_deks db !! dek_Id d = Some d) → load_ok l →
  let l' := foldl (λ l d, load_dek old (provider kd) d l) l ds in
  load_ok l' ∧ load_le l l' ∧ ∀ d, d ∈ ds → dek_loaded d l'.
Proof.
  revert l. induction ds as [|d ds IH]; intros l Hds Hl; cbn; [split_and!; [done..|set_solver]|].
  destruct (Hds d) as [Hkd Hd]; [set_solver|]. destruct (load_dek_ok kd d l Hkd Hd Hl) as (Hl1 & Hle1 & Hd1).
  destruct (IH (load_dek old (provider kd) d l)) as (Hl2 & Hle2 & Hds2); [intros e He; apply Hds; set_solver|done|].
  split_and!; [done|by etrans|]. intros e [->|He]%elem_of_cons; [by eapply dek_loaded_mono|by apply Hds2].
Qed.

(** The key data is the one it was made with, once its parent is loaded. *)
Lemma key_data_ok_of l id k : load_ok l → db_keys (e_ndb db) !! id = Some k →
  (∀ parent, parent_key db k = Some parent → key_loaded parent l) →
  ∃ kd, key_data_of sa l k = Ok (provider kd) ∧ h_data h !! id = Some kd.
Proof.
  intros Hl Hk Hparent. pose proof (ok_keys _ _ _ ok _ _ Hk) as Hkok. unfold key_data_of. rewrite (ko_id _ _ _ Hkok).
  case_decide as Hg; [subst id; exists g; rewrite global_configured; split; [done|apply (ok_global _ _ _ ok)]|].
  destruct (ko_data _ _ _ Hkok Hg) as (ef & bytes & kd & parent & Hef & Hf & _ & Hj & Hkd). rewrite Hef. exists kd. split; [|done].
  destruct (field_dek _ _ _ Hf) as (d & Hd & Hdk & [p Hp]).
  assert (parent_key db k = Some parent) as Hpk.
  { destruct (ok_parent _ _ Hk Hg) as (q & Hq & _). revert Hq. unfold parent_key. rewrite Hef. destruct (EncryptedField_IsZero ef); [done|].
    by rewrite ok_live_dek, Hd, Hdk, ok_key_row, Hp. }
  destruct Hf as (b & Hb & _ & Hdec & Hid). unfold EncryptedField_IsZero. rewrite bool_decide_false by done. cbn.
  assert (dek_Id d = ef_ID ef) as Hdid by apply (do_id _ _ _ _ (ok_deks _ _ _ ok _ _ Hd)).
  destruct (Hparent _ Hpk d) as [[b' Hb'] _]; [apply ok_dek_list; by rewrite Hdid|]. rewrite Hdid in Hb'. rewrite Hb'.
  pose proof (lookup_weaken _ _ _ _ Hb' (lo_bytes _ Hl)). assert (b' = b) as -> by congruence. by rewrite Hdec, Hj.
Qed.

Lemma load_key_ok l id k : load_ok l → db_keys (e_ndb db) !! id = Some k →
  (∀ parent, parent_key db k = Some parent → key_loaded parent l) →
  load_ok (load_key sa old db l k) ∧ load_le l (load_key sa old db l k) ∧ key_loaded id (load_key sa old db l k).
Proof.
  intros Hl Hk Hparent. destruct (key_data_ok_of l id k Hl Hk Hparent) as (kd & Hdata & Hkd). unfold load_key. rewrite Hdata, (ok_ids _ _ Hk).
  set (l1 := mkLoading _ _ _ _ _). assert (load_ok l1) as Hl1 by (destruct Hl; by split).
  destruct (load_deks_ok kd (ListDataEncryptionKeysForKey id db) l1) as (? & Hle & ?); [|done|].
  - intros d [Hd Hdk]%ok_dek_list. by rewrite Hdk.
  - split_and!; [done| |done]. destruct Hle as [? ?]. by split.
Qed.

Lemma load_level_ok i l : load_ok l → (∀ j k, (j < i)%nat → k ∈ level ord db j → key_loaded (dk_Id k) l) →
  let l' := foldl (load_key sa old db) l (level ord db i) in
  load_ok l' ∧ ∀ j k, (j < S i)%nat → k ∈ level ord db j → key_loaded (dk_Id k) l'.
Proof.
  intros Hl Hbefore. cbn.
  assert (∀ ks l, (∀ k, k ∈ ks → k ∈ level ord db i) → load_ok l → (∀ j k, (j < i)%nat → k ∈ level ord db j → key_loaded (dk_Id k) l) →
    load_ok (foldl (load_key sa old db) l ks) ∧ load_le l (foldl (load_key sa old db) l ks) ∧ ∀ k, k ∈ ks → key_loaded (dk_Id k) (foldl (load_key sa old db) l ks)) as Hks.
  { clear l Hl Hbefore. induction ks as [|k ks IH]; intros l Hin Hl Hbefore; cbn; [split_and!; [done..|set_solver]|].
    assert (k ∈ level ord db i) as Hk by (apply Hin; set_solver).
    pose proof (level_live _ _ keys_perm children_perm ok_ids _ _ Hk) as Hrow. rewrite ok_key_row in Hrow.
    destruct (load_key_ok l (dk_Id k) k Hl Hrow) as (Hl1 & Hle1 & Hk1).
    { intros parent Hp. destruct i as [|i].
      - apply elem_of_level_0 in Hk as [_ Hr%(root_no_parent db)]; [congruence|done|apply ok_ids].
      - apply elem_of_level_S in Hk as (_ & p & Hpl & Hpk); [|done|apply ok_ids]. assert (parent = dk_Id p) as -> by congruence.
        apply (Hbefore i p); [lia|done]. }
    destruct (IH (load_key sa old db l k)) as (Hl2 & Hle2 & Hk2); [intros x Hx; apply Hin; set_solver|done| |].
    { intros j x Hj Hx d Hd. eapply dek_loaded_mono; [done|]. by eapply Hbefore. }
    split_and!; [done|by etrans|]. intros x [->|Hx]%elem_of_cons; [|by apply Hk2]. intros d Hd. eapply dek_loaded_mono; [done|]. by apply Hk1. }
  destruct (Hks (level ord db i) l) as (Hl' & Hle & Hnew); [done..|]. split; [done|]. intros j k Hj Hk.
  destruct (decide (j = i)) as [->|]; [by apply Hnew|]. intros d Hd. eapply dek_loaded_mono; [done|]. apply (Hbefore j k); [lia|done|done].
Qed.

Lemma load_all_ok l0 : load_ok l0 →
  ∃ orphans l, EnumerateKeysInDependencyOrder ord (λ keys l, foldl (load_key sa old db) l keys) (key_fuel db) db l0 = Some (orphans, l) ∧
    load_ok l ∧ ∀ d, e_deks db !! dek_Id d = Some d → dek_loaded d l.
Proof.
  intros Hl0.
  destruct (levels_ind ord db keys_perm children_perm ok_ids (λ keys l, foldl (load_key sa old db) l keys)
    (λ i l, load_ok l ∧ ∀ j k, (j < i)%nat → k ∈ level ord db j → key_loaded (dk_Id k) l) l0) as (l & i & Hrun & [Hl Hall] & Hend).
  - split; [done|]. lia.
  - intros i l [Hl Hb]. by apply load_level_ok.
  - eexists _, l. split; [exact Hrun|]. split; [done|]. intros d Hd.
    pose proof (ok_deks _ _ _ ok _ _ Hd) as Hdok. destruct (ok_keys_all _ _ _ ok (dek_KeyId d)) as [k Hk]; [by eapply ok_dek_keys, do_key|].
    destruct (key_on_level _ _ Hk) as [j Hj]. apply (Hall j k); [|done|].
    + destruct (decide (j < i)%nat) as [|Hge]; [done|]. rewrite (level_empty_after _ _ i j) in Hj by (done || lia). by apply elem_of_nil in Hj.
    + apply ok_dek_list. by rewrite (ok_ids _ _ Hk).
Qed.
End hierarchy.

(** ** A synchronised service *)

Lemma namespace_keys_fold l m path key :
  foldl (λ (m : gmap string string) t, match et_KeyId t with Some k => <[et_Path t := k]> m | None => m end) m l !! path = Some key →
  m !! path = Some key ∨ ∃ t, t ∈ l ∧ et_Path t = path ∧ et_KeyId t = Some key.
Proof.
  revert m. induction l as [|t l IH]; intros m; cbn; [by left|]. intros [Hm|(t' & Ht' & ?)]%IH; [|right; exists t'; set_solver].
  destruct (et_KeyId t) as [k|] eqn:Hk; [|by left]. apply lookup_insert_Some in Hm as [[<- <-]|[_ Hm]]; [|by left]. right. exists t. set_solver.
Qed.

Lemma ndb_ok_paths db : ndb_ok true (e_ndb db) → paths_ok db.
Proof. intros Hok p ns Hns. by apply (no_path _ _ _ _ (Hok _ _ Hns)). Qed.

(** The keys of namespaces, as the cache has them. *)
Lemma namespace_keys_ok h n db :
  db_ok h n db → ∃ m, EnumerateNamespaceEncryptionTargets namespace_keys 0 (target_fuel db) db ∅ = Some (db, m) ∧
    ∀ path key, m !! path = Some key → rank_le h key (path_rank path).
Proof.
  intros Hok. unfold target_fuel. rewrite EnumerateTargets_all.
  - eexists. split; [done|]. intros path key [Hm|(t & (p & ns & Hns & _ & ->)%elem_of_all_targets & Hp & Hk)]%namespace_keys_fold; [by rewrite lookup_empty in Hm|].
    pose proof (ok_ns _ _ _ Hok _ _ Hns) as Hnok. cbn in Hp, Hk. rewrite (no_path _ _ _ _ Hnok) in Hp. subst p.
    destruct (no_key _ _ _ _ Hnok _ Hk) as [[k Hkrow] Hscope]; [done|]. pose proof (ok_keys _ _ _ Hok _ _ Hkrow) as Hkok.
    right. exists (dk_Namespace k). split; [apply (ko_ns _ _ _ Hkok)|]. apply scope_rank; [apply (ko_valid _ _ _ Hkok)|apply (no_valid _ _ _ _ Hnok)|by apply Hscope].
  - intros db' l l' s. unfold namespace_keys. cbn. by rewrite foldl_app.
  - done.
  - intros db' l s u Hu. by apply elem_of_nil in Hu.
  - apply ndb_ok_paths, (ok_ns _ _ _ Hok).
Qed.

(** The caches hold every data encryption key. *)
Definition complete (h : hist) (mem : caches) : Prop :=
  ∀ id, is_Some (h_key h !! id) → is_Some (dekToBytesCache mem !! id).

Lemma sync_memory_ok h mem s :
  db_ok h (s_n s) (s_db s) → mem_ok h mem →
  ∃ mem' n', syncKeysFromDbToMemory o sa mem s = Some ([], mem', mkEst (s_db s) n') ∧ (s_n s ≤ n')%nat ∧
    mem_ok h mem' ∧ complete h mem' ∧ syncReady mem' = syncReady mem ∧
    (hasGlobalDataEncryptionKey mem' = true ↔ global_current (e_deks (s_db s))).
Proof.
  intros Hok Hm. unfold syncKeysFromDbToMemory.
  destruct (load_all_ok h (s_n s) (s_db s) Hok (orders o (s_n s)) (λ l, proj1 (orders_perm _ l)) (λ l, proj2 (orders_perm _ l))
    (dekToBytesCache mem) (mo_bytes _ _ Hm) (mkLoading ∅ ∅ ∅ [] (S (s_n s)))) as (orphans & l & Hrun & [Hb Hc He Hn] & Hall).
  { split; cbn; [apply map_empty_subseteq|by intros ? ? []%lookup_empty_Some|done|lia]. }
  rewrite Hrun. destruct (namespace_keys_ok _ _ _ Hok) as (m & -> & Hns). rewrite He. eexists _, _. split; [done|].
  assert (∀ id d, e_deks (s_db s) !! id = Some d → dek_loaded d l) as Hdeks.
  { intros id d Hd. apply Hall. by rewrite (do_id _ _ _ _ (ok_deks _ _ _ Hok _ _ Hd)). }
  split_and!; [lia| | |done|].
  - split; cbn; [done|intros key dek (_ & d & Hd & <- & _)%Hc; pose proof (ok_deks _ _ _ Hok _ _ Hd) as Hdok;
      split; [apply (do_nonempty _ _ _ _ Hdok)|apply (do_key _ _ _ _ Hdok)]|done|by apply (mo_ready _ _ Hm)].
  - intros id [d Hd]%(ok_deks_all _ _ _ Hok). destruct (Hdeks _ _ Hd) as [Hbs _]. by rewrite (do_id _ _ _ _ (ok_deks _ _ _ Hok _ _ Hd)) in Hbs.
  - unfold hasGlobalDataEncryptionKey. cbn. split.
    + destruct (l_current l !! GlobalKeyID) as [dek|] eqn:Hcur; [|done]. intros _.
      destruct (Hc _ _ Hcur) as (_ & d & Hd & Hk & Hi). by exists dek, d.
    + intros (id & d & Hd & Hk & Hi). destruct (Hdeks _ _ Hd) as [_ Hcur]. rewrite Hk in Hcur. destruct (Hcur Hi) as [dek Hdek]. rewrite Hdek.
      apply bool_decide_eq_true. by destruct (Hc _ _ Hdek) as (? & _).
Qed.

(** ** What an operation leaves *)

Record step (h : hist) (s : est) (h' : hist) (s' : est) : Prop := {
  st_le : hist_le h h';
  st_ok : db_ok h' (s_n s') (s_db s');
  st_rows : e_rows (s_db s') = e_rows (s_db s);
  st_n : (s_n s ≤ s_n s')%nat
}.

Lemma step_refl h s : db_ok h (s_n s) (s_db s) → step h s h s.
Proof. by split. Qed.

Lemma step_trans h s h' s' h'' s'' : step h s h' s' → step h' s' h'' s'' → step h s h'' s''.
Proof. intros [? _ Hr ?] [? ? Hr' ?]. split; [by etrans|done|congruence|lia]. Qed.

Lemma step_later h s h' s' n' : step h s h' s' → (s_n s' ≤ n')%nat → step h s h' (mkEst (s_db s') n').
Proof. intros [? ? ? ?] Hn. split; [done|by eapply db_ok_later|done|cbn; lia]. Qed.

Lemma step_tick h s : db_ok h (s_n s) (s_db s) → step h s h (tick s).
Proof. intros Hok. apply (step_later _ _ h s); [by apply step_refl|cbn; lia]. Qed.

(** Rows of namespaces anew. *)
Lemma db_ok_namespaces h n db ndb' :
  db_ok h n db → db_keys ndb' = db_keys (e_ndb db) → ndb_ok true ndb' →
  (∀ ns k, db_namespaces ndb' !! Root = Some ns → dn_KeyId ns = Some k → k = GlobalKeyID) →
  map_Forall (target_ok h) (db_namespaces ndb') → db_ok h n (with_ndb ndb' db).
Proof. intros [] Hk Hn Hr Ht. split; cbn; try done; rewrite Hk; done. Qed.

(** Rows of keys anew, in the namespaces they had. *)
Lemma ndb_ok_keys db keys' :
  ndb_ok true db → (∀ id k, db_keys db !! id = Some k → ∃ k', keys' !! id = Some k' ∧ dk_Namespace k' = dk_Namespace k) →
  ndb_ok true (mkNdb (db_namespaces db) keys').
Proof.
  intros Hok Hkeys path ns Hns. destruct (Hok _ _ Hns) as [? ? ? ? ? Hkey]. split; try done. intros k Hk.
  destruct (Hkey k Hk) as [[row Hrow] Hscope]; [done|]. destruct (Hkeys _ _ Hrow) as (row' & Hrow' & Heq). cbn. rewrite Hrow'.
  split; [done|]. intros r [= <-]. rewrite Heq. by apply Hscope.
Qed.

Lemma db_ok_key h n db id k k' :
  db_ok h n db → db_keys (e_ndb db) !! id = Some k → dk_Namespace k' = dk_Namespace k → key_ok h id k' →
  db_ok h n (with_keys (<[id := k']> (db_keys (e_ndb db))) db).
Proof.
  intros [] Hk Hns Hk'. split; cbn; try done.
  - apply ndb_ok_keys; [done|]. intros i r Hr. destruct (decide (i = id)) as [->|].
    + rewrite lookup_insert_eq. exists k'. split; [done|]. congruence.
    + rewrite lookup_insert_ne by done. by exists r.
  - by apply map_Forall_insert_2.
  - intros i Hi. destruct (decide (i = id)) as [->|]; [by rewrite lookup_insert_eq|]. rewrite lookup_insert_ne by done. auto.
Qed.

(** ** New data encryption keys *)

Lemma dek_ok_flags h n id d current updated :
  dek_ok h n id d → dek_ok h n id (mkDek (dek_Id d) (dek_KeyId d) (dek_Provider d) (dek_ProviderID d) (dek_ProviderVersion d)
    (dek_ProviderMetadata d) (dek_ProtectedData d) current (dek_CreatedAt d) updated (dek_DeletedAt d)).
Proof. intros [? ? ? ? Hb]. split; try done. Qed.

Lemma clear_current_ok h n keyId now deks : map_Forall (dek_ok h n) deks → map_Forall (dek_ok h n) (clear_current keyId now deks).
Proof.
  intros Hd id d. unfold clear_current, update_deks. rewrite lookup_fmap. intros (d0 & Hd0 & ->)%fmap_Some. specialize (Hd _ _ Hd0).
  destruct (dek_live d0 && _); [|done]. by apply dek_ok_flags.
Qed.

Lemma clear_current_lookup keyId now deks id d :
  deks !! id = Some d → dek_KeyId d ≠ keyId → clear_current keyId now deks !! id = Some d.
Proof. intros Hd Hne. unfold clear_current, update_deks. rewrite lookup_fmap, Hd. cbn. by rewrite bool_decide_false, andb_false_r. Qed.

(** A row of the table for a data encryption key that unwraps to [b]. *)
Lemma insert_dek_ok h n db now d b kd :
  db_ok h n db → h_data h !! dek_KeyId d = Some kd → is_Some (h_ns h !! dek_KeyId d) →
  dek_Id d ≠ "" → dek_DeletedAt d = None → dek_IsCurrent d = true → e_deks db !! dek_Id d = None →
  (∀ t c, (n ≤ t)%nat → UnwrapDataEncryptionKey t (provider kd) (info_with c d) = Some b) →
  ∃ h', hist_le h h' ∧ db_ok h' n (with_deks (<[dek_Id d := d]> (clear_current (dek_KeyId d) now (e_deks db))) db).
Proof.
  intros Hok Hkd Hns Hid Hdel Hcur Hfresh Hu. set (id := dek_Id d) in *. set (keyId := dek_KeyId d) in *.
  assert (h_key h !! id = None) as Hkey. { apply eq_None_not_Some. intros Hs%(ok_deks_all _ _ _ Hok). rewrite Hfresh in Hs. by destruct Hs. }
  assert (h_bytes h !! id = None) as Hbytes. { apply eq_None_not_Some. intros Hs%(ok_bytes_all _ _ _ Hok). rewrite Hkey in Hs. by destruct Hs. }
  set (h' := mkHist (<[id := b]> (h_bytes h)) (h_data h) (h_ns h) (<[id := keyId]> (h_key h)) (h_seen h)).
  assert (hist_le h h') as Hle by (split; cbn; [by apply insert_subseteq|done|done|by apply insert_subseteq|done]).
  exists h'. split; [done|]. destruct Hok as [? ? Htg Hks ? Hds Hda Hba ? Hdk ? ? Hseen]. unfold h'. split; cbn; try done.
  - intros p ns Hp. eapply target_ok_mono, Htg; done.
  - intros i k Hi. eapply key_ok_mono, Hks; done.
  - apply map_Forall_insert_2.
    + split; cbn; [done..|by rewrite lookup_insert_eq|]. exists b, kd. by rewrite lookup_insert_eq.
    + apply clear_current_ok. intros i e Hi. by eapply dek_ok_mono, Hds.
  - intros i Hi. destruct (decide (i = id)) as [->|Hne]; [by rewrite lookup_insert_eq|]. rewrite lookup_insert_ne in Hi by done. rewrite lookup_insert_ne by done.
    unfold clear_current, update_deks. rewrite lookup_fmap. apply fmap_is_Some. by apply Hda.
  - intros i Hi. destruct (decide (i = id)) as [->|Hne]; [by rewrite lookup_insert_eq|]. rewrite lookup_insert_ne in Hi by done. rewrite lookup_insert_ne by done. by apply Hba.
  - intros i key [[<- <-]|[_ Hi]]%lookup_insert_Some; [done|]. by eapply Hdk.
  - intros Hs. destruct (decide (keyId = GlobalKeyID)) as [Hg|Hne].
    + exists id, d. by rewrite lookup_insert_eq.
    + destruct (Hseen Hs) as (i & e & He & Hdg & Hc). exists i, e. rewrite lookup_insert_ne by (intros <-; congruence).
      split; [|done]. apply clear_current_lookup; [done|]. congruence.
Qed.

Lemma createDataEncryptionKey_step h s keyId kd r s' :
  db_ok h (s_n s) (s_db s) → h_data h !! keyId = Some kd → is_Some (h_ns h !! keyId) →
  createDataEncryptionKey o keyId (provider kd) s = (r, s') → ∃ h', step h s h' s'.
Proof.
  intros Hok Hkd Hns. pose proof (step_tick h s Hok) as Ht. unfold createDataEncryptionKey.
  destruct (GenerateDataEncryptionKey _ _ _ _) as [gen|] eqn:Hgen; [|intros [= <- <-]; by exists h].
  set (n := s_n s) in *. set (dek := mkDek (PrefixDataEncryptionKey +:+ id_at o n) keyId (gd_Provider gen) (gd_ProviderID gen) (gd_ProviderVersion gen)
    (gd_ProviderMetadata gen) (Some (gd_ProtectedData gen)) true (clock o n) (clock o n) None).
  unfold CreateDataEncryptionKey. cbn [dek_Id]. rewrite decide_True by done.
  match goal with |- context [Dek_Validate ?d] => destruct (Dek_Validate d) eqn:Hv end; [|intros [= <- <-]; by exists h].
  change (set_dek_times _ _ _ _) with dek. change (dek_IsCurrent dek) with true. cbv iota.
  destruct (e_deks (s_db s) !! dek_Id dek) eqn:Hfresh; [intros [= <- <-]; by exists h|]. intros [= <- <-].
  destruct (insert_dek_ok h n (s_db s) (clock o n) dek (gd_Data gen) kd) as (h' & Hle & Hok'); try done.
  - intros t c Hle. by apply (kd_generate_unwrap _ (providers_ok kd) n (nonce_at o n) (random_at o n)).
  - exists h'. split; [done| |done|cbn; lia]. eapply db_ok_later; [|exact Hok']. cbn. lia.
Qed.

Lemma ensureDataEncryptionKey_step h s policy keyId kd r s' :
  db_ok h (s_n s) (s_db s) → h_data h !! keyId = Some kd → is_Some (h_ns h !! keyId) →
  ensureDataEncryptionKeyForKey o policy keyId (Some (provider kd)) s = (r, s') → ∃ h', step h s h' s'.
Proof.
  intros Hok Hkd Hns. unfold ensureDataEncryptionKeyForKey.
  assert (∀ s1 r s', db_ok h (s_n s1) (s_db s1) → match createDataEncryptionKey o keyId (provider kd) s1 with (Err e, s) => (Err e, s) | (Ok _, s) => (Ok true, s) end = (r, s') →
    ∃ h', step h s1 h' s') as Hcreate.
  { intros s1 r1 s1' Hok1. destruct (createDataEncryptionKey _ _ _ s1) as [[e|d] s2] eqn:Hc; intros [= <- <-]; by eapply createDataEncryptionKey_step. }
  destruct (GetCurrentDataEncryptionKeyForKey keyId (s_db s)) as [cur|].
  - destruct (ShouldRotate _ _ _); [|intros [= <- <-]; exists h; by apply step_tick].
    pose proof (step_tick h s Hok) as Ht. intros [h' Hs]%Hcreate; [|apply (st_ok _ _ _ _ Ht)]. exists h'. by eapply step_trans.
  - destruct (ShouldEnsureCurrent policy); [by apply Hcreate|]. intros [= <- <-]. exists h. by apply step_refl.
Qed.

(** ** Wrapping anew *)

Lemma rewrap_dek_step h s kd current d errs errs' s' :
  db_ok h (s_n s) (s_db s) → dek_ok h (s_n s) (dek_Id d) d → h_data h !! dek_KeyId d = Some kd →
  rewrap_dek o (provider kd) current d (errs, s) = (errs', s') → step h s h s'.
Proof.
  intros Hok Hd Hkd. unfold rewrap_dek. destruct (dataEncryptionKeyNeedsRewrap d current); [|intros [= <- <-]; by apply step_refl].
  pose proof (do_bytes _ _ _ _ Hd) as (b & kd' & Hb & Hkd' & Hu). assert (kd' = kd) as -> by congruence.
  change (dataEncryptionKeyInfo d) with (info_with (dek_IsCurrent d) d). rewrite Hu by done. cbn [s_n tick].
  pose proof (step_later h s h s (S (S (s_n s))) (step_refl _ _ Hok) ltac:(lia)) as Htt.
  destruct (WrapDataEncryptionKey _ _ _ b) as [w|] eqn:Hw; [|intros [= <- <-]; exact Htt]. unfold UpdateDataEncryptionKeyWrapping.
  match goal with |- context [if ?c then _ else _] => destruct c end; [|intros [= <- <-]; exact Htt]. cbn [dek_Id s_db tick]. rewrite (ok_live_dek _ _ _ Hok).
  destruct (e_deks (s_db s) !! dek_Id d) as [d1|] eqn:Hd1; [|intros [= <- <-]; exact Htt]. intros [= <- <-].
  apply (step_trans _ _ h (tick (tick s))); [exact Htt|]. destruct Htt as [_ Hok2 _ _]. split; [done| |done|cbn; lia].
  destruct Hok2 as [? ? ? ? ? Hds Hda ? ? ? ? ? Hseen]. cbn in Hds, Hda, Hseen. split; cbn; try done.
  - apply map_Forall_insert_2; [|done]. destruct (Hds _ _ Hd1) as [? ? ? Hk1 (b1 & kd1 & Hb1 & Hkd1 & _)]. split; cbn; try done.
    exists b, kd. split_and!; [congruence| |].
    + pose proof (do_key _ _ _ _ Hd). congruence.
    + intros t c Ht. apply (kd_wrap_unwrap _ (providers_ok kd) (S (s_n s)) t (nonce_at o (S (s_n s))) (dek_Id d1) (dek_KeyId d1) c b w); [lia|apply nonces|exact Hw].
  - intros i Hi. destruct (decide (i = dek_Id d)) as [->|]; [by rewrite lookup_insert_eq|]. rewrite lookup_insert_ne by done. by apply Hda.
  - intros Hs. destruct (Hseen Hs) as (i & e & He & Hg & Hc). destruct (decide (i = dek_Id d)) as [->|Hne].
    + eexists _, _. rewrite lookup_insert_eq. split; [done|]. cbn. assert (e = d1) as -> by congruence. done.
    + exists i, e. by rewrite lookup_insert_ne.
Qed.

Lemma rewrapDataEncryptionKeys_step h s keyId kd errs s' :
  db_ok h (s_n s) (s_db s) → h_data h !! keyId = Some kd → rewrapDataEncryptionKeysForKey o keyId (provider kd) s = (errs, s') → step h s h s'.
Proof.
  intros Hok Hkd. unfold rewrapDataEncryptionKeysForKey. destruct (CurrentWrappingKey _ _) as [current|]; [|intros [= <- <-]; by apply step_tick].
  assert (∀ ds acc s0 errs s', step h s h s0 → (∀ d, d ∈ ds → dek_ok h (s_n s) (dek_Id d) d ∧ dek_KeyId d = keyId) →
    foldl (λ acc d, rewrap_dek o (provider kd) current d acc) (acc, s0) ds = (errs, s') → step h s h s') as Hfold.
  { clear errs s'. induction ds as [|d ds IH]; intros acc s0 errs s' Hs Hds; cbn [foldl]; [by intros [= <- <-]|].
    destruct (Hds d) as [Hd Hdk]; [set_solver|]. destruct (rewrap_dek _ _ _ d (acc, s0)) as [e1 s1] eqn:Hr. apply IH; [|intros; apply Hds; set_solver].
    eapply step_trans; [done|]. eapply rewrap_dek_step; [apply (st_ok _ _ _ _ Hs)| |by rewrite Hdk|exact Hr]. eapply dek_ok_mono; [done|apply (st_n _ _ _ _ Hs)|done]. }
  apply Hfold; [by apply step_tick|]. intros d [Hd Hk]%(ok_dek_list _ _ _ Hok). split; [|done]. by apply (ok_deks _ _ _ Hok).
Qed.

(** ** The tasks *)

(** The plain keys a task holds are the ones that were made. *)
Definition material_ok (h : hist) (cache : material) : Prop := ∀ id kvi, cache !! id = Some kvi → h_bytes h !! id = Some (kv_Data kvi).

Lemma material_ok_mono h h' cache : hist_le h h' → material_ok h cache → material_ok h' cache.
Proof. intros Hh Hc id kvi Hid%Hc. by eapply lookup_weaken, hl_bytes. Qed.

Lemma cache_deks_ok h kd ds cache n e cache' n' :
  material_ok h cache → (∀ d, d ∈ ds → dek_ok h n (dek_Id d) d ∧ h_data h !! dek_KeyId d = Some kd) →
  cache_deks (provider kd) ds cache n = (e, cache', n') → material_ok h cache' ∧ (n ≤ n')%nat.
Proof.
  revert cache n. induction ds as [|d ds IH]; intros cache n Hc Hds; cbn [cache_deks]; [by intros [= _ <- <-]|].
  destruct (Hds d) as [Hd Hkd]; [set_solver|]. pose proof (do_bytes _ _ _ _ Hd) as (b & kd' & Hb & Hkd' & Hu). assert (kd' = kd) as -> by congruence.
  change (dataEncryptionKeyInfo d) with (info_with (dek_IsCurrent d) d). rewrite Hu by done. intros Hrun.
  apply IH in Hrun as [? ?]; [split; [done|lia]| |].
  - intros id kvi [[<- <-]|[_ Hid]]%lookup_insert_Some; [done|by apply Hc].
  - intros x Hx. destruct (Hds x) as [Hxok Hxk]; [set_solver|]. split; [|done]. eapply dek_ok_mono; [done| |done]. lia.
Qed.

Lemma cacheDataEncryptionKeys_step h s keyId kd cache e cache' s' :
  db_ok h (s_n s) (s_db s) → material_ok h cache → h_data h !! keyId = Some kd →
  cacheDataEncryptionKeysForKey keyId (provider kd) cache s = (e, cache', s') → step h s h s' ∧ material_ok h cache'.
Proof.
  intros Hok Hc Hkd. unfold cacheDataEncryptionKeysForKey. destruct (cache_deks _ _ _ _) as [[e1 c1] n1] eqn:Hrun. intros [= _ <- <-].
  apply (cache_deks_ok h) in Hrun as [Hc1 Hn]; [|done|].
  - split; [|done]. apply (step_later _ _ h s); [by apply step_refl|done].
  - intros d [Hd Hk]%(ok_dek_list _ _ _ Hok). rewrite Hk. split; [|done]. by apply (ok_deks _ _ _ Hok).
Qed.

Lemma task_key_data_ok h cache id k ef kd :
  material_ok h cache → key_ok h id k → dk_EncryptedKeyData k = Some ef → task_key_data cache ef = Some kd → h_data h !! id = Some kd.
Proof.
  intros Hc Hk Hef. unfold task_key_data. destruct (cache !! ef_ID ef) as [kvi|] eqn:Hkvi; [|done].
  destruct (decide (id = GlobalKeyID)) as [->|Hne]; [by rewrite (ko_global _ _ _ Hk) in Hef|].
  destruct (ko_data _ _ _ Hk Hne) as (ef' & bytes & kd' & parent & Hef' & (b & Hb & _ & Hd & _) & _ & Hj & Hkd).
  assert (ef' = ef) as -> by congruence. apply Hc in Hkvi. assert (b = kv_Data kvi) as -> by congruence. revert Hd. unfold decryptFieldWithBytes.
  destruct (b64_decode (ef_Data ef)) as [x|]; [|done]. intros ->. congruence.
Qed.

(** What a task has while it goes through the keys of [db]. *)
Definition task_inv (h : hist) (s : est) (acc : material * est) : Prop := ∃ h', step h s h' acc.2 ∧ material_ok h' acc.1.

Lemma task_inv_step h s h1 s1 h2 cache' s2 : step h s h1 s1 → step h1 s1 h2 s2 → material_ok h2 cache' → task_inv h s (cache', s2).
Proof. intros H1 H2 Hc. exists h2. split; [by eapply step_trans|done]. Qed.

Lemma sync_key_inv h s acc id k : key_ok h id k → task_inv h s acc → task_inv h s (sync_key o acc k).
Proof.
  intros Hk (h1 & Hs1 & Hc1). destruct acc as [cache s1]. cbn in Hs1, Hc1. unfold sync_key.
  destruct (dk_EncryptedKeyData k) as [ef|] eqn:Hef; [|by exists h1]. destruct (task_key_data cache ef) as [kd|] eqn:Htk; [|by exists h1].
  assert (h_data h1 !! dk_Id k = Some kd) as Hkd.
  { rewrite (ko_id _ _ _ Hk). eapply task_key_data_ok; [done| |done|done]. eapply key_ok_mono; [apply (st_le _ _ _ _ Hs1)|done]. }
  destruct (rewrapDataEncryptionKeysForKey _ _ _ s1) as [errs s2] eqn:Hr.
  pose proof (rewrapDataEncryptionKeys_step h1 s1 _ _ _ _ (st_ok _ _ _ _ Hs1) Hkd Hr) as Hs2.
  destruct errs as [|e errs]; [|by eapply task_inv_step].
  destruct (cacheDataEncryptionKeysForKey _ _ _ s2) as [[e c3] s3] eqn:Hca.
  destruct (cacheDataEncryptionKeys_step h1 s2 _ _ _ _ _ _ (st_ok _ _ _ _ Hs2) Hc1 Hkd Hca) as [Hs3 Hc3].
  eapply task_inv_step; [done| |done]. by eapply step_trans.
Qed.

Lemma generate_key_inv h s policy acc id k : is_Some (h_ns h !! id) → key_ok h id k → task_inv h s acc → task_inv h s (generate_key o policy acc k).
Proof.
  intros Hns Hk (h1 & Hs1 & Hc1). destruct acc as [cache s1]. cbn in Hs1, Hc1. unfold generate_key. case_decide; [by exists h1|].
  destruct (dk_EncryptedKeyData k) as [ef|] eqn:Hef; [|by exists h1]. destruct (task_key_data cache ef) as [kd|] eqn:Htk; [|by exists h1].
  pose proof (st_le _ _ _ _ Hs1) as Hle1.
  assert (h_data h1 !! dk_Id k = Some kd) as Hkd.
  { rewrite (ko_id _ _ _ Hk). eapply task_key_data_ok; [done| |done|done]. by eapply key_ok_mono. }
  assert (∃ h2, step h1 s1 h2 (if shouldManageDataEncryptionKeysForKey k then (ensureDataEncryptionKeyForKey o policy (dk_Id k) (Some (provider kd)) s1).2 else s1)) as [h2 Hs2].
  { destruct (shouldManageDataEncryptionKeysForKey k); [|exists h1; by apply step_refl, (st_ok _ _ _ _ Hs1)].
    destruct (ensureDataEncryptionKeyForKey _ _ _ _ s1) as [r s2] eqn:He. eapply ensureDataEncryptionKey_step; [apply (st_ok _ _ _ _ Hs1)|done| |exact He].
    rewrite (ko_id _ _ _ Hk). destruct Hns as [ns Hns]. exists ns. by eapply lookup_weaken, hl_ns. }
  match goal with |- context [cacheDataEncryptionKeysForKey _ _ _ ?s2] => destruct (cacheDataEncryptionKeysForKey (dk_Id k) (provider kd) cache s2) as [[e c3] s3] eqn:Hca end.
  pose proof (st_le _ _ _ _ Hs2) as Hle2.
  destruct (cacheDataEncryptionKeys_step h2 _ _ _ _ _ _ _ (st_ok _ _ _ _ Hs2) (material_ok_mono _ _ _ Hle2 Hc1) ltac:(by eapply lookup_weaken, hl_data) Hca) as [Hs3 Hc3].
  eapply task_inv_step; [done| |done]. by eapply step_trans.
Qed.

(** A task over the keys in the order of their dependencies. *)
Lemma task_keys h n db (f : material * est → DbKey → material * est) ord (Inv : material * est → Prop) acc0 :
  db_ok h n db → (∀ l, ko_keys ord l ≡ₚ l) → (∀ l, ko_children ord l ≡ₚ l) →
  (∀ acc id k, db_keys (e_ndb db) !! id = Some k → Inv acc → Inv (f acc k)) → Inv acc0 →
  ∃ orphans acc, EnumerateKeysInDependencyOrder ord (λ keys acc, foldl f acc keys) (key_fuel db) db acc0 = Some (orphans, acc) ∧ Inv acc.
Proof.
  intros Hok Hp1 Hp2 Hf H0. pose proof (ok_ids _ _ _ Hok) as Hids.
  destruct (levels_ind ord db Hp1 Hp2 Hids (λ keys acc, foldl f acc keys) (λ _, Inv) acc0) as (acc & i & Hrun & Hinv & _); [done| |by eexists _, acc].
  intros i acc Hacc. assert (∀ k, k ∈ level ord db i → db_keys (e_ndb db) !! dk_Id k = Some k) as Hlev.
  { intros k Hk%(level_live _ _ Hp1 Hp2 Hids). by rewrite (ok_key_row _ _ _ Hok) in Hk. }
  revert acc Hacc. induction (level ord db i) as [|k ks IH]; intros acc Hacc; cbn; [done|]. apply IH; [intros x Hx; apply Hlev; set_solver|].
  eapply Hf; [|done]. apply Hlev. set_solver.
Qed.

(** *** The targets of namespaces *)

Definition good_target (h : hist) (path dek : string) : Prop := dek ≠ "" ∧ ∃ key, h_key h !! dek = Some key ∧ rank_le h key (target_bound path).

Lemma current_dek_rank h n db keyId d : db_ok h n db → GetCurrentDataEncryptionKeyForKey keyId db = Some d → dek_Id d ≠ "" ∧ h_key h !! dek_Id d = Some keyId.
Proof.
  intros Hok (id & Hd & _ & Hk & _)%current_dek_Some. pose proof (ok_deks _ _ _ Hok _ _ Hd) as Hdok.
  rewrite (do_id _ _ _ _ Hdok). split; [apply (do_nonempty _ _ _ _ Hdok)|]. rewrite <- Hk. apply (do_key _ _ _ _ Hdok).
Qed.

Lemma own_key_rank h n db path ns k :
  db_ok h n db → db_namespaces (e_ndb db) !! path = Some ns → dn_KeyId ns = Some k → rank_le h k (target_bound path).
Proof.
  intros Hok Hns Hk. unfold target_bound. case_decide as Hr; [left; subst path; by eapply ok_root|].
  pose proof (ok_ns _ _ _ Hok _ _ Hns) as Hnok. destruct (no_key _ _ _ _ Hnok _ Hk) as [[row Hrow] Hscope]; [done|].
  pose proof (ok_keys _ _ _ Hok _ _ Hrow) as Hkok. right. exists (dk_Namespace row). split; [apply (ko_ns _ _ _ Hkok)|].
  apply scope_rank; [apply (ko_valid _ _ _ Hkok)|apply (no_valid _ _ _ _ Hnok)|by apply Hscope].
Qed.

Lemma ancestor_bound path p : ValidatePath path = None → p ∈ removelast (SplitPathToPrefixes path) → (target_bound p ≤ target_bound path)%nat.
Proof.
  intros Hv Hp. assert (path ≠ Root) as Hne by (intros ->; vm_compute in Hp; set_solver).
  assert (p ∈ SplitPathToPrefixes path) as Hin.
  { pose proof Hv as (segs & Hs & ->)%ValidatePath_None. rewrite removelast_prefixes in Hp by done. rewrite prefixes_ancestors by done. set_solver. }
  destruct (prefix_rank _ _ Hv Hin) as [_ Hr]. unfold target_bound. rewrite (decide_False (P := path = Root)) by done. case_decide; lia.
Qed.

Lemma resolve_target_good h n db eff t :
  db_ok h n db → t ∈ all_targets db → (∀ p d, eff !! p = Some d → good_target h p d) → ∀ dek, resolve_target db eff t = Some dek → good_target h (et_Path t) dek.
Proof.
  intros Hok (path & ns & Hns & _ & ->)%elem_of_all_targets Heff dek. cbn [et_Path target_of].
  pose proof (ok_ns _ _ _ Hok _ _ Hns) as Hnok. rewrite (no_path _ _ _ _ Hnok). unfold resolve_target. cbn [et_KeyId et_Path target_of].
  rewrite (no_path _ _ _ _ Hnok). destruct (dn_KeyId ns) as [k|] eqn:Hk.
  - intros (d & Hd & ->)%fmap_Some. destruct (current_dek_rank _ _ _ _ _ Hok Hd) as [Hne Hkey]. split; [done|]. exists k. split; [done|]. by eapply own_key_rank.
  - destruct (list_find _ _) as [[i p]|] eqn:Hfind.
    + apply list_find_Some in Hfind as (Hp & _ & _). apply list_elem_of_lookup_2, list_elem_of_In, in_rev, list_elem_of_In in Hp.
      intros Hd. destruct (Heff _ _ Hd) as (Hne & key & Hkey & Hr). split; [done|]. exists key. split; [done|].
      eapply rank_le_mono; [done|done|]. by apply ancestor_bound; [apply (no_valid _ _ _ _ Hnok)|].
    + intros (d & Hd & ->)%fmap_Some. destruct (current_dek_rank _ _ _ _ _ Hok Hd) as [Hne Hkey]. split; [done|]. exists GlobalKeyID. split; [done|by left].
Qed.

Lemma reconcile_good h n db :
  db_ok h n db → ∀ path dek, (path, dek) ∈ (reconcile_page db (all_targets db) ∅).1 → good_target h path dek.
Proof.
  intros Hok.
  assert (∀ l acc, (∀ t, t ∈ l → t ∈ all_targets db) → (∀ p d, acc.2 !! p = Some d → good_target h p d) → (∀ p d, (p, d) ∈ acc.1 → good_target h p d) →
    ∀ p d, (p, d) ∈ (foldl (reconcile_target db) acc l).1 → good_target h p d) as Hfold.
  { induction l as [|t l IH]; intros acc Hl Heff Hus; [done|]. cbn [foldl]. pose proof (resolve_target_good h n db acc.2 t Hok ltac:(apply Hl; set_solver) Heff) as Hres.
    destruct acc as [us eff]. cbn [fst snd] in *. unfold reconcile_target at 2. destruct (resolve_target db eff t) as [dek|]; [|apply IH; [intros x Hx; apply Hl; set_solver|done|done]].
    specialize (Hres dek eq_refl). apply IH; [intros x Hx; apply Hl; set_solver| |]; cbn [fst snd].
    - intros p d [[<- <-]|[_ Hp]]%lookup_insert_Some; [done|by apply Heff].
    - intros p d. case_decide; [apply Hus|]. rewrite elem_of_app, list_elem_of_singleton. intros [?|[= -> ->]]; [by apply Hus|done]. }
  apply Hfold; [done| |]; cbn; [intros p d Hp; by rewrite lookup_empty in Hp|set_solver].
Qed.

(** Rewriting columns that are not the key of a namespace. *)
Lemma ndb_ok_targets now us db : ndb_ok true (e_ndb db) → ndb_ok true (e_ndb (apply_targets now us db)).
Proof.
  intros Hok path ns (m & Hm & Hcase)%apply_targets_row. destruct (apply_targets_frame now us db) as (Hk & _ & _).
  destruct (Hok _ _ Hm) as [? ? ? Hanc ? Hkey]. assert (∀ p, p ∈ removelast (SplitPathToPrefixes path) → is_Some (db_namespaces (e_ndb (apply_targets now us db)) !! p)) as Hanc'.
  { intros p Hp. apply apply_targets_dom. by apply Hanc. }
  destruct Hcase as [[_ ->]|(dek & _ & ->)]; split; cbn; try done; try (by intros _; apply Hanc'); rewrite Hk; done.
Qed.

Lemma reconcile_step_ok h s : db_ok h (s_n s) (s_db s) → ∃ s', reconcileNamespaceEncryptionTargets o s = Some s' ∧ step h s h s'.
Proof.
  intros Hok. unfold reconcileNamespaceEncryptionTargets, target_fuel.
  rewrite EnumerateTargets_all; [|apply reconcile_page_app|apply reconcile_page_db|apply reconcile_page_paths|apply ndb_ok_paths, (ok_ns _ _ _ Hok)].
  eexists. split; [done|]. set (us := (reconcile_page _ _ _).1). pose proof (reconcile_good _ _ _ Hok) as Hgood. fold us in Hgood.
  destruct (apply_targets_frame (clock o (s_n s)) us (s_db s)) as (Hk & Hd & Hr). split; [done| |done|cbn; lia].
  apply (db_ok_later _ (s_n s)); [cbn; lia|]. cbn [s_db tick set_db]. pose proof (ndb_ok_targets (clock o (s_n s)) us _ (ok_ns _ _ _ Hok)) as Hn.
  destruct Hok as [? Hroot Htg ? ? ? ? ? ? ? ? ? ?]. split; rewrite ?Hk, ?Hd; try done.
  - intros ns k (m & Hm & [[_ ->]|(dek & _ & ->)])%apply_targets_row; cbn; by eapply Hroot.
  - intros p ns (m & Hm & [[_ ->]|(dek & Hin & ->)])%apply_targets_row; [by eapply Htg|]. intros x [= <-]. by apply Hgood.
Qed.

(** *** Namespaces *)

(** The root has the global key or none. *)
Definition root_key_global (op : ns_op) : bool :=
  match op with
  | NsSetKeyId _ p k => negb (bool_decide (p = Root)) || bool_decide (k = None) || bool_decide (k = Some GlobalKeyID)
  | NsSetKey _ p k => negb (bool_decide (p = Root)) || bool_decide (k = GlobalKeyID)
  | _ => true
  end.

Lemma sets_key_root op key k : root_key_global op = true → sets_key op Root key → key = Some k → k = GlobalKeyID.
Proof. destruct op; cbn; try done; intros Hg [<- Heq] ->; revert Hg;
    rewrite !orb_true_iff, negb_true_iff, !bool_decide_eq_true, bool_decide_eq_false; naive_solver. Qed.

Lemma ns_op_db_ok h n db op : db_ok h n db → ns_op_plain op = true → root_key_global op = true → db_ok h n (with_ndb (run_ns_op op (e_ndb db)) db).
Proof.
  intros Hok Hp Hr. destruct (run_ns_op_evolves op (e_ndb db) Hp) as [Hk Hrows]. apply db_ok_namespaces; [done|done|..].
  - apply run_ns_op_ok; [|apply (ok_ns _ _ _ Hok)]. intros _. by destruct op.
  - intros ns k Hns Hkey. destruct (Hrows _ _ Hns) as [(m & Hm & _ & [Heq|(op' & [= <-] & Hset)])|[_ [?|[_ ?]]]]; [|by eapply sets_key_root|congruence..].
    apply (ok_root _ _ _ Hok m); [done|congruence].
  - intros path ns Hns dek Hdek. destruct (Hrows _ _ Hns) as [(m & Hm & Ht & _)|[Ht _]]; [|congruence]. apply (ok_targets _ _ _ Hok _ _ Hm). congruence.
Qed.

Lemma ensureRoot_step h s e s' : db_ok h (s_n s) (s_db s) → ensureRootNamespaceHasKeySet o s = (e, s') → step h s h s'.
Proof.
  intros Hok. unfold ensureRootNamespaceHasKeySet. destruct (live_ns Root (e_ndb (s_db s))) as [ns|]; [|intros [= <- <-]; by apply step_refl].
  destruct (dn_KeyId ns); [intros [= <- <-]; by apply step_refl|].
  pose proof (ns_op_db_ok h (s_n s) (s_db s) (NsSetKeyId (clock o (s_n s)) Root (Some GlobalKeyID)) Hok eq_refl eq_refl) as Hok'. cbn [run_ns_op] in Hok'.
  destruct (SetNamespaceKeyId _ _ _ _) as [[err|u] ndb']; intros [= <- <-];
    (split; [done|apply (db_ok_later _ (s_n s)); [cbn; lia|exact Hok']|done|cbn; lia]).
Qed.

(** *** The two tasks *)

Lemma material_ok_empty h : material_ok h ∅.
Proof. intros id kvi Hid. change ((∅ : gmap string KeyVersionInfo) !! id = Some kvi) in Hid. by rewrite lookup_empty in Hid. Qed.

Lemma sync_task_step h s recent locked : db_ok h (s_n s) (s_db s) → ∃ errs s' h', syncKeysToDatabase o sa recent locked s = Some (errs, s') ∧ step h s h' s'.
Proof.
  intros Hok. unfold syncKeysToDatabase. destruct (ensureRootNamespaceHasKeySet o s) as [e s1] eqn:He.
  pose proof (ensureRoot_step _ _ _ _ Hok He) as Hs1. destruct e as [e|]; [by eexists _, _, h|]. destruct recent; [by eexists _, _, h|].
  destruct locked; cbn [negb]; [|by eexists _, _, h]. rewrite global_configured. pose proof (st_ok _ _ _ _ Hs1) as Hok1. pose proof (ok_global _ _ _ Hok1) as Hg.
  destruct (rewrapDataEncryptionKeysForKey _ _ _ s1) as [errs s2] eqn:Hr. pose proof (rewrapDataEncryptionKeys_step _ _ _ _ _ _ Hok1 Hg Hr) as Hs2.
  pose proof (step_trans _ _ _ _ _ _ Hs1 Hs2) as Hs12. destruct errs as [|err errs]; [|by eexists _, _, h].
  destruct (cacheDataEncryptionKeysForKey _ _ _ s2) as [[e3 cache] s3] eqn:Hc.
  destruct (cacheDataEncryptionKeys_step _ _ _ _ _ _ _ _ (st_ok _ _ _ _ Hs2) (material_ok_empty h) Hg Hc) as [Hs3 Hcache].
  pose proof (step_trans _ _ _ _ _ _ Hs12 Hs3) as Hs123. destruct e3 as [e3|]; [by eexists _, _, h|].
  pose proof (st_ok _ _ _ _ Hs3) as Hok3.
  destruct (task_keys h (s_n s3) (s_db s3) (sync_key o) (orders o (s_n s3)) (task_inv h s) (cache, tick s3)) as (orphans & [c4 s4] & Hrun & (h4 & Hs4 & _));
    [done|apply orders_perm|apply orders_perm| | |].
  - intros acc id k Hk. eapply sync_key_inv. by apply (ok_keys _ _ _ Hok3).
  - exists h. split; [|done]. eapply step_trans; [exact Hs123|]. by apply step_tick.
  - rewrite Hrun. cbn in Hs4. destruct (reconcile_step_ok _ _ (st_ok _ _ _ _ Hs4)) as (s5 & Hrec & Hs5). rewrite Hrec. eexists _, _, h4.
    split; [done|]. by eapply step_trans.
Qed.

Lemma generate_task_step h s locked : db_ok h (s_n s) (s_db s) → ∃ errs s' h', generateDataEncryptionKeysToDatabase o sa locked s = Some (errs, s') ∧ step h s h' s'.
Proof.
  intros Hok. unfold generateDataEncryptionKeysToDatabase. destruct locked; cbn [negb]; [|eexists _, _, h; split; [done|by apply step_refl]].
  rewrite global_configured. destruct (ensureRootNamespaceHasKeySet o s) as [e1 s1] eqn:He. pose proof (ensureRoot_step _ _ _ _ Hok He) as Hs1.
  pose proof (st_ok _ _ _ _ Hs1) as Hok1.
  destruct (ensureDataEncryptionKeyForKey _ _ _ _ s1) as [r2 s2] eqn:H2.
  destruct (ensureDataEncryptionKey_step _ _ _ _ _ _ _ Hok1 (ok_global _ _ _ Hok1) (ok_global_row _ _ _ Hok1) H2) as [h2 Hs2].
  pose proof (step_trans _ _ _ _ _ _ Hs1 Hs2) as Hs12. pose proof (st_ok _ _ _ _ Hs2) as Hok2.
  destruct (cacheDataEncryptionKeysForKey _ _ _ s2) as [[e3 cache] s3] eqn:Hc.
  destruct (cacheDataEncryptionKeys_step _ _ _ _ _ _ _ _ Hok2 (material_ok_empty h2) (ok_global _ _ _ Hok2) Hc) as [Hs3 Hcache].
  pose proof (step_trans _ _ _ _ _ _ Hs12 Hs3) as Hs123. pose proof (st_ok _ _ _ _ Hs3) as Hok3.
  destruct (task_keys h2 (s_n s3) (s_db s3) (generate_key o (sa_DataEncryptionKeys sa)) (orders o (s_n s3)) (task_inv h2 s3) (cache, tick s3))
    as (orphans & [c4 s4] & Hrun & (h4 & Hs4 & _)); [done|apply orders_perm|apply orders_perm| | |].
  - intros acc id k Hk. pose proof (ok_keys _ _ _ Hok3 _ _ Hk) as Hkok. eapply generate_key_inv; [|done]. by rewrite (ko_ns _ _ _ Hkok).
  - exists h2. split; [by apply step_tick|done].
  - rewrite Hrun. cbn in Hs4. destruct (reconcile_step_ok _ _ (st_ok _ _ _ _ Hs4)) as (s5 & Hrec & Hs5). rewrite Hrec. eexists _, _, h4.
    split; [done|]. eapply step_trans; [exact Hs123|]. by eapply step_trans.
Qed.

(** *** New keys *)

Lemma getKeyId_rank h mem path : mem_ok h mem → ValidatePath path = None → rank_le h (getKeyIdForNamespace mem path) (path_rank path).
Proof.
  intros Hm Hv. unfold getKeyIdForNamespace. destruct (list_find _ _) as [[i p]|] eqn:Hf; [|by left].
  apply list_find_Some in Hf as (Hp & [k Hk] & _). rewrite Hk. apply list_elem_of_lookup_2, list_elem_of_In, in_rev, list_elem_of_In in Hp.
  destruct (prefix_rank _ _ Hv Hp) as [_ Hr]. eapply rank_le_mono; [done|by apply (mo_ns _ _ Hm)|done].
Qed.

Lemma EncryptKey_field h n mem ns data ef :
  mem_ok h mem → ValidatePath ns = None → EncryptKeyForNamespace o n mem ns data = Ok ef →
  ∃ parent, field_of h ef data parent ∧ rank_le h parent (pred (path_rank ns)).
Proof.
  intros Hm Hv. unfold EncryptKeyForNamespace, EncryptGlobal, EncryptForNamespace. case_decide as Hroot; destruct (syncReady mem); try done; intros He.
  - exists GlobalKeyID. split; [by eapply encryptForKey_field|by left].
  - destruct (ParentPath_rank _ Hv) as (Hpv & _ & Hpr). eexists. split; [by eapply encryptForKey_field|]. rewrite <- Hpr by done. by apply getKeyId_rank.
Qed.

Lemma insert_key_ok h n db id k kd :
  db_ok h n db → db_keys (e_ndb db) !! id = None → dk_Id k = id → dk_DeletedAt k = None → ValidatePath (dk_Namespace k) = None →
  (∃ ef bytes parent, dk_EncryptedKeyData k = Some ef ∧ field_of h ef bytes parent ∧ rank_le h parent (pred (path_rank (dk_Namespace k))) ∧ json_Unmarshal bytes = Some kd) →
  ∃ h', hist_le h h' ∧ db_ok h' n (with_keys (<[id := k]> (db_keys (e_ndb db))) db).
Proof.
  intros Hok Hfresh Hid Hdel Hv (ef & bytes & parent & Hef & Hf & Hr & Hj).
  assert (h_ns h !! id = None) as Hns. { apply eq_None_not_Some. intros Hs%(ok_keys_all _ _ _ Hok). rewrite Hfresh in Hs. by destruct Hs. }
  assert (h_data h !! id = None) as Hdata. { apply eq_None_not_Some. intros Hs%(ok_data_all _ _ _ Hok). rewrite Hns in Hs. by destruct Hs. }
  assert (id ≠ GlobalKeyID) as Hng. { intros ->. pose proof (ok_global_row _ _ _ Hok) as Hs. rewrite Hns in Hs. by destruct Hs. }
  set (h' := mkHist (h_bytes h) (<[id := kd]> (h_data h)) (<[id := dk_Namespace k]> (h_ns h)) (h_key h) (h_seen h)).
  assert (hist_le h h') as Hle by (split; cbn; [done|by apply insert_subseteq|by apply insert_subseteq|done|done]).
  exists h'. split; [done|]. destruct Hok as [Hn Hrt Htg Hks Hka Hds ? ? Hdta Hdk Hg Hgr Hseen]. split; cbn; try done.
  - apply ndb_ok_keys; [done|]. intros i r Hi. exists r. rewrite lookup_insert_ne by (intros <-; congruence). done.
  - intros p ns Hp. eapply target_ok_mono, Htg; done.
  - apply map_Forall_insert_2; [|intros i r Hi; by eapply key_ok_mono, Hks]. split; cbn; try done; [by rewrite lookup_insert_eq|].
    intros _. exists ef, bytes, kd, parent. rewrite lookup_insert_eq. split_and!; [done|by eapply field_of_mono|by eapply rank_le_mono|done..].
  - intros i Hi. destruct (decide (i = id)) as [->|Hne]; [by rewrite lookup_insert_eq|]. rewrite lookup_insert_ne in Hi by done. rewrite lookup_insert_ne by done. by apply Hka.
  - intros i d Hi. by eapply dek_ok_mono, Hds.
  - intros i Hi. destruct (decide (i = id)) as [->|Hne]; [by rewrite lookup_insert_eq|]. rewrite lookup_insert_ne in Hi by done. rewrite lookup_insert_ne by done. by apply Hdta.
  - intros i key Hi. destruct (Hdk _ _ Hi) as [x Hx]. exists x. exact (lookup_weaken _ _ _ _ Hx (hl_ns _ _ Hle)).
  - by rewrite lookup_insert_ne.
  - by rewrite lookup_insert_ne.
Qed.

Lemma CreateKey_step h s mem ns name kd labels r s' :
  db_ok h (s_n s) (s_db s) → mem_ok h mem → ValidatePath ns = None →
  core_CreateKey o mem ns name kd labels s = (r, s') → ∃ h', step h s h' s'.
Proof.
  intros Hok Hm Hv. unfold core_CreateKey. destruct kd as [kd|]; [|intros [= <- <-]; exists h; by apply step_refl].
  destruct (json_Marshal kd) as [bytes|] eqn:Hj; [|intros [= <- <-]; exists h; by apply step_refl].
  destruct (EncryptKeyForNamespace _ _ _ _ _) as [e|ef] eqn:He; [intros [= <- <-]; exists h; by apply step_tick|].
  destruct (EncryptKey_field _ _ _ _ _ _ Hm Hv He) as (parent & Hf & Hr). apply json_roundtrip in Hj.
  pose proof (step_later h s h s (S (S (s_n s))) (step_refl _ _ Hok) ltac:(lia)) as Htt. cbn [s_n tick].
  unfold CreateKey. destruct (Validate_key _); [|intros [= <- <-]; exists h; exact Htt].
  match goal with |- context [db_keys _ !! dk_Id ?k] => set (row := k) end. cbn [s_db tick].
  destruct (db_keys (e_ndb (s_db s)) !! dk_Id row) eqn:Hfresh; [intros [= <- <-]; exists h; exact Htt|].
  destruct (key_name_taken row _); [intros [= <- <-]; exists h; exact Htt|]. intros [= <- <-].
  destruct (insert_key_ok h (s_n s) (s_db s) (dk_Id row) row kd) as (h' & Hle & Hok'); try done; [by exists ef, bytes, parent|].
  exists h'. split; [done| |done|cbn; lia]. eapply db_ok_later; [|exact Hok']. cbn. lia.
Qed.

Lemma SetKeyState_step h s id state : db_ok h (s_n s) (s_db s) → step h s h (tick (set_db (SetKeyState (clock o (s_n s)) id state (s_db s)).2 s)).
Proof.
  intros Hok. unfold SetKeyState. destruct (IsValidKeyState state); [|exact (step_tick h s Hok)]. rewrite (ok_key_row _ _ _ Hok).
  destruct (db_keys (e_ndb (s_db s)) !! id) as [k|] eqn:Hk; [|exact (step_tick h s Hok)]. split; [done| |done|cbn; lia]. apply (db_ok_later _ (s_n s)); [cbn; lia|].
  cbn [s_db tick set_db snd]. eapply db_ok_key; [done..|]. destruct (ok_keys _ _ _ Hok _ _ Hk). by split.
Qed.

(** *** The caches *)

Definition seen (h : hist) : hist := mkHist (h_bytes h) (h_data h) (h_ns h) (h_key h) true.

Lemma seen_le h : hist_le h (seen h).
Proof. by split. Qed.

Lemma db_ok_seen h n db : db_ok h n db → global_current (e_deks db) → db_ok (seen h) n db.
Proof.
  intros Hok Hg. pose proof (seen_le h) as Hle. destruct Hok as [? ? Htg Hks ? Hds ? ? ? ? ? ? ?]. split; try done.
  - intros i x Hi. by eapply key_ok_mono, Hks.
  - intros i x Hi. by eapply dek_ok_mono, Hds.
Qed.

Lemma SyncMemory_step h s mem :
  db_ok h (s_n s) (s_db s) → mem_ok h mem →
  ∃ mem' n' h', SyncKeysFromDbToMemory o sa mem s = Some ([], mem', mkEst (s_db s) n') ∧ step h s h' (mkEst (s_db s) n') ∧ mem_ok h' mem' ∧
    complete h' mem' ∧ (h_seen h = true → syncReady mem' = true).
Proof.
  intros Hok Hm. destruct (sync_memory_ok _ _ _ Hok Hm) as (mem' & n' & Hrun & Hn & Hm' & Hc & Hready & Hglobal).
  unfold SyncKeysFromDbToMemory. rewrite Hrun. pose proof (step_later h s h s n' (step_refl _ _ Hok) Hn) as Hs.
  destruct (hasGlobalDataEncryptionKey mem') eqn:Hh.
  - exists (markSyncReady mem'), n', (seen h). pose proof (db_ok_seen h n' (s_db s) (st_ok _ _ _ _ Hs) (proj1 Hglobal eq_refl)) as Hok'.
    split_and!; [done| | |done|done].
    + split; [apply seen_le|exact Hok'|done|exact Hn].
    + destruct Hm' as [? ? ? ?]. by split.
  - exists mem', n', h. split_and!; [done..|]. intros Hseen%(ok_seen _ _ _ Hok)%Hglobal. congruence.
Qed.

(** *** Re-encryption of fields *)

Lemma db_ok_rows h n db rows : db_ok h n db → db_ok h n (with_rows rows db).
Proof. intros []. by split. Qed.

(** A target of the query: its value is the field's, its key is known. *)
Definition retarget_ok (h : hist) (plain : gmap ((string * string) * string) string) (t : ReEncryptionTarget) : Prop :=
  ∃ data key, plain !! ((rt_Table t, rt_PrimaryKey t), rt_FieldColumn t) = Some data ∧ field_ok h (rt_EncryptedFieldValue t) data ∧
    rt_TargetDataEncryptionKeyId t ≠ "" ∧ h_key h !! rt_TargetDataEncryptionKeyId t = Some key.

Definition update_ok (h : hist) (plain : gmap ((string * string) * string) string) (u : ReEncryptedFieldUpdate) : Prop :=
  ∃ data, plain !! ((ru_Table u, ru_PrimaryKey u), ru_FieldColumn u) = Some data ∧ field_ok h (ru_NewValue u) data.

Lemma query_targets_ok h n db plain reg r t :
  db_ok h n db → rows_ok h (e_rows db) plain → r ∈ reenc_query reg db → t ∈ row_targets reg r → retarget_ok h plain t.
Proof.
  intros Hok Hrows. unfold reenc_query. rewrite SortFunc_perm. intros ([[tbl pk] fr] & Hin%elem_of_map_to_list & Hr)%list_elem_of_omap.
  unfold reenc_row_of in Hr. cbn [fst snd] in Hr. destruct (_ && _) eqn:Hc; [|done]. apply andb_true_iff in Hc as [->%bool_decide_eq_true _].
  destruct (live_ns (fr_Namespace fr) (e_ndb db)) as [ns|] eqn:Hns; [|done]. destruct (dn_TargetDataEncryptionKeyId ns) as [target|] eqn:Ht; [|done].
  destruct (needs_reencryption reg target (fr_Cols fr)); [|done]. injection Hr as <-.
  unfold row_targets. cbn [rr_cols rr_target rr_pk]. intros (ec & _ & Hec)%list_elem_of_omap.
  destruct (fr_Cols fr !! ec) as [ef|] eqn:Hef; [|done]. destruct (EncryptedField_IsZero ef); [done|]. case_decide; [done|]. injection Hec as <-.
  pose proof (ro_fields _ _ _ Hrows ((rg_Table reg, pk), ec)) as Hf. unfold field_at in Hf. cbn [fst snd] in Hf. rewrite Hin in Hf. cbn in Hf. rewrite Hef in Hf.
  inversion Hf as [? data Hfo Heq1 Heq2|]. subst. apply live_ns_Some in Hns as [Hns _].
  destruct (ok_targets _ _ _ Hok _ _ Hns _ Ht) as (Hne & key & Hk & _). exists data, key. cbn. by rewrite <- Heq2.
Qed.

Lemma reencrypt_targets_ok h plain mem ts us tot n us' tot' n' :
  mem_ok h mem → (∀ t, t ∈ ts → retarget_ok h plain t) → (∀ u, u ∈ us → update_ok h plain u) →
  foldl (reencrypt_target o mem) (us, tot, n) ts = (us', tot', n') → (∀ u, u ∈ us' → update_ok h plain u) ∧ (n ≤ n')%nat.
Proof.
  intros Hm. revert us tot n. induction ts as [|t ts IH]; intros us tot n Hts Hus; cbn [foldl]; [by intros [= <- <- <-]|].
  unfold reencrypt_target at 2. destruct (ReEncryptField _ _ _ _ _) as [e|ef] eqn:He.
  - intros Hrun. apply IH in Hrun as [? ?]; [split; [done|lia]|intros x Hx; apply Hts; set_solver|done].
  - case_decide; intros Hrun; apply IH in Hrun as [? ?]; try (intros x Hx; apply Hts; set_solver); try (split; [done|lia]); [done|].
    intros u [Hu| ->%list_elem_of_singleton]%elem_of_app; [by apply Hus|]. destruct (Hts t) as (data & key & Hp & Hf & Hne & Hk); [set_solver|].
    exists data. split; [done|]. exists key. by eapply ReEncryptField_field.
Qed.

Lemma update_field_ok h plain now u db :
  update_ok h plain u → rows_ok h (e_rows db) plain →
  rows_ok h (e_rows (update_field now u db)) plain ∧ size (e_rows (update_field now u db)) = size (e_rows db).
Proof.
  intros (data & Hp & Hf) Hrows. unfold update_field. destruct (e_rows db !! (ru_Table u, ru_PrimaryKey u)) as [r|] eqn:Hr; [|done]. cbn.
  split; [|by rewrite map_size_insert_Some by (by eexists)]. destruct Hrows as [Hfields Hseen]. split; [|done]. intros [loc col].
  unfold field_at. cbn. destruct (decide (loc = (ru_Table u, ru_PrimaryKey u))) as [->|Hne].
  - rewrite lookup_insert_eq. cbn. destruct (decide (col = ru_FieldColumn u)) as [->|Hc].
    + rewrite lookup_insert_eq, Hp. by constructor.
    + rewrite lookup_insert_ne by done. pose proof (Hfields ((ru_Table u, ru_PrimaryKey u), col)) as H. unfold field_at in H. cbn in H. by rewrite Hr in H.
  - rewrite lookup_insert_ne by done. exact (Hfields (loc, col)).
Qed.

Lemma BatchUpdate_ok h n plain regs now us db e db' :
  (∀ u, u ∈ us → update_ok h plain u) → db_ok h n db → rows_ok h (e_rows db) plain →
  BatchUpdateReEncryptedFields regs now us db = (e, db') → db_ok h n db' ∧ rows_ok h (e_rows db') plain ∧ size (e_rows db') = size (e_rows db).
Proof.
  revert db. induction us as [|u us IH]; intros db Hus Hok Hrows; cbn; [by intros [= <- <-]|].
  destruct (isRegisteredEncryptedField regs (ru_Table u) (ru_FieldColumn u)); [|by intros [= <- <-]]. intros Hrun.
  destruct (update_field_ok h plain now u db) as [Hr Hsz]; [apply Hus; set_solver|done|].
  apply IH in Hrun as (? & ? & ?); [split_and!; [done..|congruence]|intros x Hx; apply Hus; set_solver| |done].
  unfold update_field. destruct (e_rows db !! _); [by apply db_ok_rows|done].
Qed.

(** What the loops over fields and keys keep. *)
Record reenc_inv (h : hist) (plain : gmap ((string * string) * string) string) (N M n0 : nat) (acc : totals * est) : Prop := {
  ri_db : db_ok h (s_n acc.2) (s_db acc.2);
  ri_rows : rows_ok h (e_rows (s_db acc.2)) plain;
  ri_size : size (e_rows (s_db acc.2)) = N;
  ri_keys : size (db_keys (e_ndb (s_db acc.2))) = M;
  ri_n : (n0 ≤ s_n acc.2)%nat
}.

Lemma reencrypt_page_inv h plain N M n0 regs mem reg rows acc :
  mem_ok h mem → reenc_inv h plain N M n0 acc → (∀ r, r ∈ rows → r ∈ reenc_query reg (s_db acc.2)) →
  reenc_inv h plain N M n0 (reencrypt_page o regs mem (flat_map (row_targets reg) rows) acc).
Proof.
  intros Hm Hinv Hrows. destruct acc as [tot s]. pose proof Hinv as [Hok Hr Hsz Hks Hn]. cbn [snd] in *. unfold reencrypt_page.
  destruct (foldl _ _ _) as [[us tot'] n'] eqn:Hfold. apply (reencrypt_targets_ok h plain) in Hfold as [Hus Hn']; [|done| |set_solver].
  2: { intros t Ht. apply list_elem_of_In, in_flat_map in Ht as (r & Hr1%list_elem_of_In & Hr2%list_elem_of_In). eapply query_targets_ok; [done|done|by apply Hrows|done]. }
  destruct us as [|u us]; [split; cbn; [by eapply db_ok_later|done..|lia]|].
  destruct (BatchUpdateReEncryptedFields regs (clock o n') (u :: us) (s_db s)) as [e db'] eqn:Hb. pose proof Hb as Hb'. cbn [BatchUpdateReEncryptedFields] in Hb'.
  assert (db_keys (e_ndb db') = db_keys (e_ndb (s_db s))) as Hkeys.
  { clear -Hb. revert Hb. generalize (s_db s), (u :: us). intros db l. revert db. induction l as [|x l IH]; intros db; cbn; [by intros [= _ <-]|].
    destruct (isRegisteredEncryptedField _ _ _); [|by intros [= _ <-]]. intros ->%IH. unfold update_field. by destruct (e_rows db !! _). }
  apply (BatchUpdate_ok h (s_n s) plain) in Hb as (Hok' & Hr' & Hsz'); [|done..].
  destruct e; (split; cbn; [eapply db_ok_later; [|done]; lia|done|congruence|congruence|lia]).
Qed.

Lemma length_reenc_query reg db : (length (reenc_query reg db) ≤ size (e_rows db))%nat.
Proof.
  unfold reenc_query. rewrite SortFunc_perm. rewrite <- (length_map_to_list (e_rows db)). generalize (map_to_list (e_rows db)).
  intros l. induction l as [|x l IH]; cbn; [done|]. destruct (reenc_row_of reg db x); cbn; lia.
Qed.

Lemma EnumerateRegistration_inv h plain N M n0 regs mem reg acc :
  mem_ok h mem → reenc_inv h plain N M n0 acc →
  ∃ acc', EnumerateRegistration (λ acc : totals * est, s_db acc.2) (reencrypt_page o regs mem) reg (S N) acc = Some acc' ∧ reenc_inv h plain N M n0 acc'.
Proof.
  intros Hm Hinv. unfold EnumerateRegistration.
  match goal with |- context [EnumeratePages ?q ?cb _ _ _ _] =>
    destruct (EnumeratePages_inv q cb (reenc_inv h plain N M n0) reenc_page_size N (S N) 0 acc) as (e & acc' & -> & Hinv') end; [..|by exists acc'].
  - unfold reenc_page_size. lia.
  - intros a Ha. rewrite <- (ri_size _ _ _ _ _ _ Ha). apply length_reenc_query.
  - intros a rows Ha Hrows. by apply reencrypt_page_inv.
  - done.
  - lia.
  - lia.
Qed.

Lemma EnumerateFields_inv h plain N M n0 regs mem acc :
  mem_ok h mem → reenc_inv h plain N M n0 acc →
  ∃ acc', EnumerateFieldsRequiringReEncryption (λ acc : totals * est, s_db acc.2) (reencrypt_page o regs mem) regs (S N) acc = Some acc' ∧
    reenc_inv h plain N M n0 acc'.
Proof.
  intros Hm. unfold EnumerateFieldsRequiringReEncryption.
  assert (∀ rs acc, reenc_inv h plain N M n0 acc → ∃ acc', EnumerateRegistrations (λ acc : totals * est, s_db acc.2) (reencrypt_page o regs mem) rs (S N) acc = Some acc' ∧
    reenc_inv h plain N M n0 acc') as Hregs.
  { induction rs as [|reg rs IH]; intros a Ha; cbn [EnumerateRegistrations]; [by exists a|].
    destruct (EnumerateRegistration_inv h plain N M n0 regs mem reg a Hm Ha) as (a' & -> & Ha'). by apply IH. }
  destruct regs as [|reg rs]; [|apply Hregs]. intros Hinv. eexists. split; [done|].
  apply (reencrypt_page_inv _ _ _ _ _ _ _ registration_actors [] acc); [done|done|set_solver].
Qed.

(** *** Re-encryption of keys *)

Lemma reencrypt_key_inv h plain N M n0 mem now key acc :
  mem_ok h mem → key_ok h (dk_Id key) key → reenc_inv h plain N M n0 acc → reenc_inv h plain N M n0 (reencrypt_key o mem now key acc).
Proof.
  intros Hm Hkey Hinv. destruct acc as [tot s]. pose proof Hinv as [Hok Hr Hsz Hks Hn]. cbn [snd] in *. unfold reencrypt_key.
  assert (∀ tot', reenc_inv h plain N M n0 (tot', s)) as Hsame by (intros; by split).
  assert (∀ tot', reenc_inv h plain N M n0 (tot', tick s)) as Htick by (intros; split; cbn; [by eapply db_ok_later; [|done]; lia|done..|lia]).
  destruct (dk_EncryptedKeyData key) as [ef|] eqn:Hef; [|done]. destruct (EncryptedField_IsZero ef); [done|].
  unfold keyTargetDataEncryptionKeyID. destruct (live_ns (ParentPath (dk_Namespace key)) (e_ndb (s_db s))) as [ns|] eqn:Hns; [|done].
  destruct (dn_TargetDataEncryptionKeyId ns) as [target|] eqn:Ht; [|done]. case_decide; [done|].
  destruct (ReEncryptField _ _ _ _ _) as [e|ef'] eqn:He; [done|].
  assert (dk_Id key ≠ GlobalKeyID) as Hng by (intros Hg; by rewrite (ko_global _ _ _ Hkey Hg) in Hef).
  destruct (ko_data _ _ _ Hkey Hng) as (ef0 & bytes & kd & parent & Hef0 & Hf & _ & Hj & Hkd). assert (ef0 = ef) as -> by congruence.
  apply live_ns_Some in Hns as [Hns _]. destruct (ok_targets _ _ _ Hok _ _ Hns _ Ht) as (Hne & tkey & Htk & Hrank).
  assert (field_of h ef' bytes tkey) as Hf' by (eapply ReEncryptField_field; [done|by exists parent|done..]).
  unfold UpdateKey. rewrite (ok_key_row _ _ _ Hok). destruct (db_keys (e_ndb (s_db s)) !! dk_Id key) as [k|] eqn:Hk; [|by apply Htick].
  pose proof (ok_keys _ _ _ Hok _ _ Hk) as Hkok. assert (dk_Namespace k = dk_Namespace key) as Hsame_ns.
  { pose proof (ko_ns _ _ _ Hkok). pose proof (ko_ns _ _ _ Hkey). congruence. }
  split; cbn [snd s_db s_n tick set_db]; [|done|done| |cbn; lia].
  - apply (db_ok_later _ (s_n s)); [cbn; lia|]. eapply db_ok_key; [done..|]. destruct Hkok as [? ? ? ? ? ?]. split; cbn; try done.
    intros _. exists ef', bytes, kd, tkey. split_and!; [done|done| |done|done]. rewrite Hsame_ns.
    eapply rank_le_mono; [done|done|]. by apply ParentPath_rank, (ko_valid _ _ _ Hkey).
  - cbn. by rewrite map_size_insert_Some by (by eexists).
Qed.

Lemma reencryptKeys_inv h plain N n0 mem acc :
  mem_ok h mem → reenc_inv h plain N (size (db_keys (e_ndb (s_db acc.2)))) n0 acc →
  ∃ acc', reencryptKeys o mem acc = Some acc' ∧ reenc_inv h plain N (size (db_keys (e_ndb (s_db acc.2)))) n0 acc'.
Proof.
  intros Hm Hinv. unfold reencryptKeys, key_fuel, EnumerateThrottled. set (M := size (db_keys (e_ndb (s_db acc.2)))) in *. clearbody M.
  set (now := clock o (s_n acc.2)). clearbody now.
  match goal with |- context [EnumeratePages ?q ?cb _ _ _ _] =>
    destruct (EnumeratePages_inv q cb (reenc_inv h plain N M n0) 100 M (S M) 0 acc) as (e & acc' & -> & Hinv') end; [lia|..|done|lia|lia|by exists acc'].
  - intros a Ha. rewrite list_keys_perm. rewrite <- (ri_keys _ _ _ _ _ _ Ha). unfold live_keys. etrans; [apply List.filter_length_le|].
    by rewrite length_map, length_map_to_list.
  - intros a rows Ha Hrows. assert (∀ k, k ∈ rows → key_ok h (dk_Id k) k) as Hkeys.
    { intros k Hk%Hrows. rewrite list_keys_perm in Hk. pose proof (ri_db _ _ _ _ _ _ Ha) as Hok.
      apply elem_of_live_keys in Hk; [|apply (ok_ids _ _ _ Hok)]. rewrite (ok_key_row _ _ _ Hok) in Hk. by apply (ok_keys _ _ _ Hok). }
    clear Hrows. revert a Ha. induction rows as [|k rows IH]; intros a Ha; cbn; [done|]. apply IH; [intros x Hx; apply Hkeys; set_solver|].
    apply reencrypt_key_inv; [done|apply Hkeys; set_solver|done].
Qed.

Lemma reencrypt_all_inv h plain regs mem s :
  db_ok h (s_n s) (s_db s) → mem_ok h mem → rows_ok h (e_rows (s_db s)) plain →
  ∃ mem' tot s' h', handleReencryptAll o sa regs mem s = Some (mem', tot, s') ∧ hist_le h h' ∧ db_ok h' (s_n s') (s_db s') ∧ mem_ok h' mem' ∧
    rows_ok h' (e_rows (s_db s')) plain.
Proof.
  intros Hok Hm Hrows. unfold handleReencryptAll. destruct (SyncMemory_step h s mem Hok Hm) as (mem' & n' & h' & -> & Hs & Hm' & _ & _).
  pose proof (rows_ok_mono _ _ _ _ (st_le _ _ _ _ Hs) Hrows) as Hrows'.
  set (acc0 := (mkTotals 0 0 0, mkEst (s_db s) n')).
  assert (reenc_inv h' plain (size (e_rows (s_db s))) (size (db_keys (e_ndb (s_db s)))) 0 acc0) as Hinv0.
  { split; cbn; [apply (st_ok _ _ _ _ Hs)|done|done|done|lia]. }
  destruct (EnumerateFields_inv h' plain _ _ 0 regs mem' acc0 Hm' Hinv0) as (acc1 & Hrun1 & Hinv1).
  change (field_fuel (s_db (mkEst (s_db s) n'))) with (S (size (e_rows (s_db s)))). fold acc0. rewrite Hrun1.
  destruct (reencryptKeys_inv h' plain (size (e_rows (s_db s))) 0 mem' acc1) as (acc2 & Hrun2 & Hinv2).
  { done. } { rewrite (ri_keys _ _ _ _ _ _ Hinv1). done. }
  rewrite Hrun2. destruct acc2 as [tot s']. exists mem', tot, s', h'. destruct Hinv2 as [? ? _ _ _]. split_and!; [done|apply (st_le _ _ _ _ Hs)|done..].
Qed.

(** ** Any sequence of operations *)

(** The database, the caches of the processes, and what was written. *)
Record world := mkWorld {
  w_s : est;
  w_mem : gmap nat caches;
  w_plain : gmap ((string * string) * string) string
}.

Definition proc (p : nat) (w : world) : caches := default NewEncryptService (w_mem w !! p).

Inductive enc_op : Type :=
  | OpNamespace (op : ns_op)
  | OpCreateKey (p : nat) (ns name : string) (kd : option KD) (labels : Labels)
  | OpSetKeyState (id state : string)
  | OpGenerate (locked : bool)
  | OpSync (recent locked : bool)
  | OpLoad (p : nat)
  | OpRestart (p : nat)
  | OpWrite (p : nat) (table pk ns col data : string)
  | OpReencrypt (p : nat) (regs : list EncryptedFieldRegistration).

(** A client stores what [EncryptForNamespace] returns in a column. *)
Definition write_field (p : nat) (table pk ns col data : string) (w : world) : world :=
  let s := w_s w in
  match EncryptForNamespace o (s_n s) (proc p w) ns data with
  | Err _ => mkWorld (tick s) (w_mem w) (w_plain w)
  | Ok ef =>
      let row := match e_rows (s_db s) !! (table, pk) with
                 | Some r => mkFieldRow (fr_Namespace r) (<[col := ef]> (fr_Cols r)) (fr_EncryptedAt r) (fr_Live r)
                 | None => mkFieldRow ns {[ col := ef ]} None true
                 end in
      mkWorld (tick (set_db (with_rows (<[(table, pk) := row]> (e_rows (s_db s))) (s_db s)) s)) (w_mem w)
        (<[((table, pk), col) := data]> (w_plain w))
  end.

Definition run_enc_op (w : world) (op : enc_op) : option world :=
  let s := w_s w in
  match op with
  | OpNamespace op => Some (mkWorld (set_db (with_ndb (run_ns_op op (e_ndb (s_db s))) (s_db s)) s) (w_mem w) (w_plain w))
  | OpCreateKey p ns name kd labels => Some (mkWorld (core_CreateKey o (proc p w) ns name kd labels s).2 (w_mem w) (w_plain w))
  | OpSetKeyState id state => Some (mkWorld (tick (set_db (SetKeyState (clock o (s_n s)) id state (s_db s)).2 s)) (w_mem w) (w_plain w))
  | OpGenerate locked =>
      match generateDataEncryptionKeysToDatabase o sa locked s with Some (_, s') => Some (mkWorld s' (w_mem w) (w_plain w)) | None => None end
  | OpSync recent locked =>
      match syncKeysToDatabase o sa recent locked s with Some (_, s') => Some (mkWorld s' (w_mem w) (w_plain w)) | None => None end
  | OpLoad p =>
      match SyncKeysFromDbToMemory o sa (proc p w) s with Some (_, mem, s') => Some (mkWorld s' (<[p := mem]> (w_mem w)) (w_plain w)) | None => None end
  | OpRestart p => Some (mkWorld s (delete p (w_mem w)) (w_plain w))
  | OpWrite p table pk ns col data => Some (write_field p table pk ns col data w)
  | OpReencrypt p regs =>
      match handleReencryptAll o sa regs (proc p w) s with Some (mem, _, s') => Some (mkWorld s' (<[p := mem]> (w_mem w)) (w_plain w)) | None => None end
  end.

Fixpoint run_enc_ops (w : world) (ops : list enc_op) : option world :=
  match ops with
  | [] => Some w
  | op :: ops => match run_enc_op w op with Some w' => run_enc_ops w' ops | None => None end
  end.

(** Operations on namespaces as [core] calls them, the root with the global
    key; keys in namespaces with valid paths. *)
Definition op_allowed (op : enc_op) : bool :=
  match op with
  | OpNamespace op => ns_op_plain op && root_key_global op
  | OpCreateKey _ ns _ _ _ => bool_decide (ValidatePath ns = None)
  | _ => true
  end.

Definition world_inv (w : world) : Prop :=
  ∃ h, db_ok h (s_n (w_s w)) (s_db (w_s w)) ∧ rows_ok h (e_rows (s_db (w_s w))) (w_plain w) ∧ map_Forall (λ _, mem_ok h) (w_mem w).

Lemma mem_ok_new h : mem_ok h NewEncryptService.
Proof. split; cbn; [apply map_empty_subseteq|intros ?? H; by rewrite lookup_empty in H..|done]. Qed.

Lemma proc_ok h p w : map_Forall (λ _, mem_ok h) (w_mem w) → mem_ok h (proc p w).
Proof. intros Hm. unfold proc. destruct (w_mem w !! p) as [mem|] eqn:Hp; cbn; [by eapply Hm|apply mem_ok_new]. Qed.

Lemma mems_mono h h' (mems : gmap nat caches) : hist_le h h' → map_Forall (λ _, mem_ok h) mems → map_Forall (λ _, mem_ok h') mems.
Proof. intros Hle Hm p mem Hp. by eapply mem_ok_mono, Hm. Qed.

(** A step of the database alone. *)
Lemma world_step h w s' h' : rows_ok h (e_rows (s_db (w_s w))) (w_plain w) → map_Forall (λ _, mem_ok h) (w_mem w) → step h (w_s w) h' s' →
  world_inv (mkWorld s' (w_mem w) (w_plain w)).
Proof.
  intros Hr Hm [Hle Hok Hrows _]. exists h'. cbn. rewrite Hrows. split_and!; [done|by eapply rows_ok_mono|by eapply mems_mono].
Qed.

Lemma rows_ok_write h rows plain table pk ns col ef data :
  rows_ok h rows plain → field_ok h ef data → h_seen h = true →
  rows_ok h (<[(table, pk) := match rows !! (table, pk) with
    | Some r => mkFieldRow (fr_Namespace r) (<[col := ef]> (fr_Cols r)) (fr_EncryptedAt r) (fr_Live r)
    | None => mkFieldRow ns {[ col := ef ]} None true end]> rows) (<[((table, pk), col) := data]> plain).
Proof.
  intros [Hf Hs] Hef Hseen. split; [|done]. intros [loc c]. unfold field_at. cbn [fst snd].
  destruct (decide (loc = (table, pk))) as [->|Hne].
  - rewrite lookup_insert_eq. cbn [mbind option_bind]. pose proof (Hf ((table, pk), c)) as Hold. unfold field_at in Hold. cbn [fst snd] in Hold.
    destruct (decide (c = col)) as [->|Hc].
    + rewrite lookup_insert_eq. destruct (rows !! (table, pk)) as [r|]; cbn; rewrite ?lookup_insert_eq, ?lookup_singleton_eq; by constructor.
    + rewrite (lookup_insert_ne plain) by congruence. destruct (rows !! (table, pk)) as [r|]; cbn in *.
      * by rewrite lookup_insert_ne.
      * by rewrite lookup_singleton_ne.
  - rewrite lookup_insert_ne by done. rewrite lookup_insert_ne by congruence. apply (Hf (loc, c)).
Qed.

Lemma write_field_inv p table pk ns col data w : world_inv w → world_inv (write_field p table pk ns col data w).
Proof.
  intros (h & Hok & Hr & Hm). unfold write_field. pose proof (proc_ok h p w Hm) as Hp.
  destruct (EncryptForNamespace _ _ _ _ _) as [e|ef] eqn:He; [by eapply world_step, step_tick|].
  unfold EncryptForNamespace in He. destruct (syncReady (proc p w)) eqn:Hready; [|done].
  assert (field_ok h ef data) as Hf by (eexists; by eapply encryptForKey_field).
  exists h. cbn. split_and!; [apply db_ok_rows; eapply db_ok_later; [|done]; lia| |done].
  apply rows_ok_write; [done|done|by apply (mo_ready _ _ Hp)].
Qed.

Lemma run_enc_op_inv w op : op_allowed op = true → world_inv w → ∃ w', run_enc_op w op = Some w' ∧ world_inv w'.
Proof.
  intros Hop Hw. pose proof Hw as (h & Hok & Hr & Hm).
  destruct op as [op|p ns name kd labels|id state|locked|recent locked|p|p|p table pk ns col data|p regs]; cbn [run_enc_op op_allowed] in *.
  - eexists. split; [done|]. apply andb_true_iff in Hop as [? ?]. exists h. cbn. split_and!; [by apply ns_op_db_ok|done|done].
  - eexists. split; [done|]. apply bool_decide_eq_true in Hop. destruct (core_CreateKey _ _ _ _ _ _ _) as [r s'] eqn:Hc.
    apply (CreateKey_step h) in Hc as [h' Hs]; [|done|by apply proc_ok|done]. by eapply world_step.
  - eexists. split; [done|]. by eapply world_step, SetKeyState_step.
  - destruct (generate_task_step h (w_s w) locked Hok) as (errs & s' & h' & -> & Hs). eexists. split; [done|]. by eapply world_step.
  - destruct (sync_task_step h (w_s w) recent locked Hok) as (errs & s' & h' & -> & Hs). eexists. split; [done|]. by eapply world_step.
  - destruct (SyncMemory_step h (w_s w) (proc p w) Hok (proc_ok _ _ _ Hm)) as (mem & n' & h' & -> & Hs & Hmem & _). eexists. split; [done|].
    exists h'. destruct Hs as [Hle Hok' Hrows _]. cbn in *. split_and!; [done|by eapply rows_ok_mono|]. apply map_Forall_insert_2; [done|by eapply mems_mono].
  - eexists. split; [done|]. exists h. cbn. split_and!; [done|done|]. intros q mem [_ Hq]%lookup_delete_Some. by eapply Hm.
  - eexists. split; [done|]. by apply write_field_inv.
  - destruct (reencrypt_all_inv h (w_plain w) regs (proc p w) (w_s w) Hok (proc_ok _ _ _ Hm) Hr) as (mem & tot & s' & h' & -> & Hle & Hok' & Hmem & Hrows).
    eexists. split; [done|]. exists h'. cbn. split_and!; [done|done|]. apply map_Forall_insert_2; [done|by eapply mems_mono].
Qed.

Lemma run_enc_ops_inv ops w : Forall (λ op, op_allowed op = true) ops → world_inv w → ∃ w', run_enc_ops w ops = Some w' ∧ world_inv w'.
Proof.
  intros Hops. revert w. induction Hops as [|op ops Hop _ IH]; intros w Hw; cbn [run_enc_ops]; [by exists w|].
  destruct (run_enc_op_inv w op Hop Hw) as (w' & -> & Hw'). by apply IH.
Qed.

(** The tables as the migrations leave them: the global key and nothing else. *)
Definition initial_world : world := mkWorld (mkEst (mkEdb seeded ∅ ∅) 0) ∅ ∅.

Lemma initial_inv : world_inv initial_world.
Proof.
  exists (mkHist ∅ {[ GlobalKeyID := g ]} {[ GlobalKeyID := Root ]} ∅ false). split_and!.
  - split; cbn; try done; try (intros id [x Hx]; by rewrite lookup_empty in Hx).
    + intros id k [<- <-]%lookup_singleton_Some. by split.
    + intros id [x [<- _]%lookup_singleton_Some]. by eexists.
    + intros id [x [<- _]%lookup_singleton_Some]. by eexists.
  - split; cbn; [|intros loc [x Hx]; by rewrite lookup_empty in Hx]. intros loc. unfold field_at. rewrite lookup_empty. constructor.
  - intros p mem Hp. cbn in Hp. by rewrite lookup_empty in Hp.
Qed.

(** What a service that starts anew reads. *)
Lemma world_readable w : world_inv w →
  ∃ mem s', SyncKeysFromDbToMemory o sa NewEncryptService (w_s w) = Some ([], mem, s') ∧ s_db s' = s_db (w_s w) ∧
    ∀ loc data, w_plain w !! loc = Some data → ∃ ef, field_at (e_rows (s_db (w_s w))) loc = Some ef ∧ Decrypt mem ef = Ok data.
Proof.
  intros (h & Hok & Hr & _). destruct (SyncMemory_step h (w_s w) NewEncryptService Hok (mem_ok_new h)) as (mem & n' & h' & Hrun & Hs & Hm & Hc & Hready).
  exists mem, (mkEst (s_db (w_s w)) n'). split_and!; [done|done|]. intros loc data Hd.
  pose proof (ro_fields _ _ _ Hr loc) as Hf. rewrite Hd in Hf. inversion Hf as [ef ? Hfo Heq1 Heq2|]. subst. exists ef. split; [done|].
  unfold Decrypt. rewrite Hready by (apply (ro_seen _ _ _ Hr loc); by rewrite Hd). destruct Hfo as [key Hfo].
  pose proof (field_of_mono _ _ _ _ _ (st_le _ _ _ _ Hs) Hfo) as Hfo'. destruct (decrypt mem ef) as [e|x] eqn:Hdec.
  - exfalso. revert Hdec. destruct Hfo' as (b & Hb & Hk & Hd' & Hne). unfold decrypt, EncryptedField_IsZero. rewrite bool_decide_false by done. cbn.
    destruct (Hc (ef_ID ef)) as [b' Hb']; [by eexists|]. rewrite Hb'. pose proof (lookup_weaken _ _ _ _ Hb' (mo_bytes _ _ Hm)).
    assert (b' = b) as -> by congruence. by rewrite Hd'.
  - f_equal. eapply decrypt_field; [done|by exists key|done].
Qed.

End safety.
