(* ===== verification/EncryptExamples.v ===== *)
(** * Encryption on concrete keys

    A cipher, key configurations and a random source to run the model with,
    the witnesses of the properties of files EncryptTargets and
    EncryptionSafety, and the sequences of operations after which data is lost
    or left behind. *)

From S2P Require Import Prelude GoStrings Namespace Labels Actors Paging NamespaceStore KeyMaterial Encryption EncryptService EncryptTargets EncryptionSafety.
Open Scope string_scope.
Open Scope list_scope.

(** ** A cipher and providers *)

#[local] Instance toy_cipher : Cipher := {
  gcm_seal key nonce data := key +:+ data;
  gcm_open key nonce data := if HasPrefix data key then Some (str_drop (String.length key) data) else None;
  b64_encode s := s;
  b64_decode s := Some s
}.

#[local] Instance toy_cipher_laws : CipherLaws toy_cipher.
Proof.
  split; cbn; [|done..]. intros key nonce data. assert (HasPrefix (key +:+ data) key = true) as -> by (apply HasPrefix_spec; by exists data).
  by rewrite str_drop_app.
Qed.

(** A key given by its value, as [KeyDataValue] is. *)
Definition value_version (secret : string) : KeyVersionInfo := mkKeyVersion "value" secret "v1" secret true.

Definition value_provider (secret : string) : Provider :=
  mkProvider (λ _, Some (value_version secret)) (λ _ v, if decide (v = "v1") then Some (value_version secret) else None) None None.

#[local] Instance value_config : KeyConfig := {
  KD := string;
  provider secret := Some (value_provider secret);
  json_Marshal secret := Some secret;
  json_Unmarshal bytes := Some bytes
}.

Lemma value_providers_ok kd : key_data_ok (provider kd).
Proof. apply secret_provider_ok; [done..|]. intros t t' v _ [= <-]. done. Qed.

Definition digit (n : nat) : ascii := ascii_of_nat (48 + n `mod` 10).
Definition digits3 (n : nat) : string := String (digit (n / 100)) (String (digit (n / 10)) (String (digit n) "")).

Definition sample_outside : outside := mkOutside (λ _, "nonce-nonce-") (λ n, "data-encryption-key-number-00" +:+ digits3 n) digits3 (λ n, Z.of_nat n)
  (λ _, mkOrders id id) (λ _, map_to_list) id.

Definition master : string := "global-master-key-of-32-bytes-01".
Definition other_secret : string := "secret-of-a-custom-key-32-bytes1".
Definition new_secret : string := "replacement-of-the-secret-32-by1".
Definition sample_auth : SystemAuth := mkSystemAuth (Some master) None.

Definition at_time (i : nat) : Z := Z.of_nat i.
Definition run (ops : list enc_op) : option world := run_enc_ops sample_outside sample_auth initial_world ops.

(** A team's namespace, data encryption keys, and a process that has them. *)
Definition start_ops : list enc_op :=
  [OpNamespace (NsEnsure sample_visit at_time "root.team"); OpGenerate true; OpLoad 0].

Definition team_key_ops : list enc_op :=
  start_ops ++ [OpCreateKey 0 "root" "team-key" (Some other_secret) ∅; OpGenerate true; OpLoad 0].

(** ** Reading back *)

(** What a process that starts anew reads, with the errors of its loading. *)
Definition fresh_read (table pk col : string) (s : est) : option (list enc_error * result enc_error string) :=
  match SyncKeysFromDbToMemory sample_outside sample_auth NewEncryptService s, field_at (e_rows (s_db s)) ((table, pk), col) with
  | Some (errs, mem, _), Some ef => Some (errs, Decrypt mem ef)
  | _, _ => None
  end.

Definition state_after (ops : list enc_op) : option est := w_s <$> run ops.

Definition write_secret : enc_op := OpWrite 0 "actors" "act_1" "root.team" "encrypted_key" "secret".

(** The team uses its own key. *)
Definition team_written : list enc_op :=
  team_key_ops ++ [OpNamespace (NsSetKey 5 "root.team" "key_007"); OpGenerate true; OpLoad 0; write_secret].

(** The root itself uses the key that lives in it. *)
Definition root_written : list enc_op :=
  team_key_ops ++ [OpNamespace (NsSetKey 5 Root "key_007"); OpGenerate true; OpLoad 0; write_secret].

(** Rows of a team under the global key, then a key of the team's own. *)
Definition many_written (n : nat) : list enc_op :=
  team_key_ops ++ map (λ i, OpWrite 0 "actors" (digits3 i) "root.team" "encrypted_key" "secret") (seq 0 n) ++
  [OpNamespace (NsSetKey 5 "root.team" "key_007"); OpGenerate true; OpReencrypt 0 encryptedFieldRegistrations].

(** The rows of actors under each data encryption key. *)
Definition rows_under (dek : string) (s : est) : nat :=
  length (List.filter (λ kv : (string * string) * FieldRow, match fr_Cols kv.2 !! "encrypted_key" with Some ef => bool_decide (ef_ID ef = dek) | None => false end)
    (map_to_list (e_rows (s_db s)))).

(** The team's key is deleted, or gets another secret and the tasks run that
    the change enqueues. *)
Definition after_delete : option est :=
  match state_after team_written with Some s => Some (set_db (DeleteKey 9 "key_007" (s_db s)).2 s) | None => None end.

Definition after_update : option est :=
  match run team_written with
  | None => None
  | Some w =>
      let s := (core_UpdateKeyData sample_outside (proc 0 w) "key_007" (Some new_secret) (w_s w)).2 in
      match generateDataEncryptionKeysToDatabase sample_outside sample_auth true s with
      | None => None
      | Some (_, s) => match syncKeysToDatabase sample_outside sample_auth false true s with Some (_, s) => Some s | None => None end
      end
  end.

Definition team_key (s : est) : option string := match live_ns "root.team" (e_ndb (s_db s)) with Some ns => dn_KeyId ns | None => None end.

(** ** Properties *)

(** Where data is lost or left behind.  A field that a process starting
    anew reads is lost (1) if the root namespace uses a key that lives in it:
    [reencryptKeys] takes the root's own target for it, so that the key's data
    ends up under its own data encryption key, and no error is reported;
    (2) if the key of its namespace is deleted, which the namespace goes on
    using; (3) if the key's data is replaced: its data encryption keys stay
    wrapped by the data it had, loading reports an error, and no process that
    starts anew becomes ready.  And (4) of 110 rows that need
    re-encryption one run of the task handles 100: its pages move on by 100
    rows while the rows it has handled leave the query. *)
Theorem encryption_defects :
  (state_after root_written ≫= fresh_read "actors" "act_1" "encrypted_key" = Some ([], Ok "secret") ∧
   state_after (root_written ++ [OpReencrypt 0 encryptedFieldRegistrations]) ≫= fresh_read "actors" "act_1" "encrypted_key" =
     Some ([], Err (EncKeyNotCached "dek_011"))) ∧
  (state_after team_written ≫= fresh_read "actors" "act_1" "encrypted_key" = Some ([], Ok "secret") ∧
   after_delete ≫= fresh_read "actors" "act_1" "encrypted_key" = Some ([], Err (EncKeyNotCached "dek_011")) ∧
   after_delete ≫= team_key = Some "key_007") ∧
  after_update ≫= fresh_read "actors" "act_1" "encrypted_key" = Some ([EncProvider], Err EncNotSynced) ∧
  ((λ s, (rows_under "dek_000" s, rows_under "dek_011" s)) <$> state_after (many_written 110)) = Some (10, 100)%nat.
Proof. split_and!; vm_compute; reflexivity. Qed.

(** ** Witnesses *)


(** The root under the global key, a team with its own, a group that inherits. *)
Definition target_row (path : string) (key target : option string) : DbNamespace :=
  mkDbNamespace path (DepthOfPath path) NamespaceStateActive key target ∅ ∅ 0 0 None.

Definition target_dek (id key : string) : DataEncryptionKey := mkDek id key "value" "id" "v1" ∅ None true 0 0 None.

Definition target_db : edb := mkEdb
  (mkNdb (<["root" := target_row "root" (Some GlobalKeyID) None]> (<["root.team" := target_row "root.team" (Some "key_1") (Some "dek_0")]>
    {[ "root.team.group" := target_row "root.team.group" None None ]})) ∅)
  (<["dek_0" := target_dek "dek_0" GlobalKeyID]> {[ "dek_1" := target_dek "dek_1" "key_1" ]}) ∅.

Lemma target_db_wf : targets_wf target_db.
Proof.
  split. intros path ns Hns. cbn in Hns.
  apply lookup_insert_Some in Hns as [[<- <-]|[_ [[<- <-]|[_ [<- <-]%lookup_singleton_Some]]%lookup_insert_Some]]; split_and!; try done.
  - exists []. split_and!; [constructor|done|cbn; lia].
  - exists ["team"]. split_and!; [repeat constructor|done|cbn; lia].
  - exists ["team"; "group"]. split_and!; [repeat constructor|done|cbn; lia].
Qed.

Lemma reconcile_targets_witness :
  ∃ s', reconcileNamespaceEncryptionTargets sample_outside (mkEst target_db 7) = Some s' ∧
    (dn_TargetDataEncryptionKeyId <$> live_ns "root.team.group" (e_ndb (s_db s'))) = Some (Some "dek_1").
Proof.
  destruct (reconcile_targets_exact sample_outside (mkEst target_db 7) target_db_wf) as (s' & Hrun & Hrows & _). exists s'. split; [exact Hrun|].
  unfold live_ns. rewrite (Hrows "root.team.group"). reflexivity.
Defined.

(** A key under the global key, and one under its own data encryption key. *)
Definition sample_key (id : string) (ef : option EncryptedField) : DbKey :=
  mkDbKey id "root" id KeyUsageDataEncryption KeyMaterialTypeSymmetric ef KeyStateActive ∅ ∅ 0 0 None None.

Definition cyclic_db : edb := mkEdb
  (mkNdb ∅ (<[GlobalKeyID := sample_key GlobalKeyID None]> (<["key_a" := sample_key "key_a" (Some (mkEncryptedField "dek_0" "data"))]>
    {[ "key_b" := sample_key "key_b" (Some (mkEncryptedField "dek_b" "data")) ]})))
  (<["dek_0" := target_dek "dek_0" GlobalKeyID]> {[ "dek_b" := target_dek "dek_b" "key_b" ]}) ∅.

Lemma cyclic_ids id k : db_keys (e_ndb cyclic_db) !! id = Some k → dk_Id k = id.
Proof. unfold cyclic_db. cbn [e_ndb db_keys]. by intros [[<- <-]|[_ [[<- <-]|[_ [<- <-]%lookup_singleton_Some]]%lookup_insert_Some]]%lookup_insert_Some. Qed.

Lemma dependency_order_witness :
  ∃ keys, EnumerateKeysInDependencyOrder (mkOrders id id) (λ level acc, acc ++ level) 4 cyclic_db [] = Some ([], keys) ∧ NoDup keys ∧
    map dk_Id keys = [GlobalKeyID; "key_a"].
Proof.
  destruct (dependency_order_exact (mkOrders id id) cyclic_db ltac:(done) ltac:(done) cyclic_ids) as (keys & Hrun & Hnd & _ & _).
  exists keys. vm_compute in Hrun. injection Hrun as <-. split_and!; [reflexivity|exact Hnd|reflexivity].
Defined.
