(* ===== verification/OAuth2Config.v ===== *)
(** * OAuth2: configuration and pure helpers

    The OAuth2 block of a connector and its validation
    ([schema/resources/connectors] auth_oauth2*.go), and the helpers of
    [auth_methods/oauth2] that keep no state: PKCE verifiers (pkce.go), scopes
    (scopes.go, scope_predicates.go, scope_mismatch.go), the authentication of
    the client (client_auth.go), the classes of failures
    (token_exchange_failure.go, token_refresh_failure.go), return URLs
    (return_url.go) and the retry loop of [util/retry].

    JavaScript, URLs, SHA-256 and base64 are parameters. *)

From S2P Require Import Prelude GoNumbers GoStrings RateRules SetupFlow KeyMaterial.
Open Scope string_scope.
Open Scope list_scope.

(** ** Scopes in the configuration *)

(** The predicate is its JavaScript. *)
Record ScopeRequired := mkScopeRequired {
  sr_Bool : option bool;
  sr_Predicate : option string
}.

Record Scope := mkScope {
  sc_Id : string;
  sc_If : option string;
  sc_Required : option ScopeRequired;
  sc_Reason : string
}.

Definition NewScopeRequiredBool (value : bool) : ScopeRequired := mkScopeRequired (Some value) None.

(** [jsctx.EvaluateBoolean] of a context; [None] is an error. *)
Abbreviation js_context := (string → option bool).

Definition ScopeRequired_IsRequired (jsctx : js_context) (r : option ScopeRequired) : option bool :=
  match r with
  | None => Some true
  | Some r =>
      match sr_Bool r with
      | Some b => Some b
      | None => match sr_Predicate r with None => None | Some js => jsctx js end
      end
  end.

Definition Scope_IsRequired (jsctx : js_context) (s : Scope) : option bool :=
  match sc_Required s with None => Some true | Some r => ScopeRequired_IsRequired jsctx (Some r) end.

(** ** The OAuth2 block of a connector *)

Definition TokenEndpointAuthClientSecretPost : string := "client_secret_post".
Definition TokenEndpointAuthClientSecretBasic : string := "client_secret_basic".
Definition TokenEndpointAuthNone : string := "none".

Definition OAuth2GrantAuthorizationCode : string := "authorization_code".
Definition OAuth2GrantClientCredentials : string := "client_credentials".

Definition PKCEMethodS256 : string := "S256".
Definition PKCEMethodPlain : string := "plain".

(** A pointer to a PKCE block is its method. *)
Definition PKCE_GetMethodOrDefault (p : option string) : string :=
  match p with
  | None => PKCEMethodS256
  | Some m => if decide (m = "") then PKCEMethodS256 else m
  end.

Record AuthOauth2Authorization := mkAuthorization {
  az_Endpoint : string;
  az_QueryOverrides : list (string * string);   (** in the order they are ranged over *)
  az_PKCE : option string
}.

(** Durations are in nanoseconds. *)
Record AuthOauth2Token := mkTokenConfig {
  tc_Endpoint : string;
  tc_QueryOverrides : list (string * string);
  tc_FormOverrides : list (string * string);
  tc_RefreshTimeout : option Z;
  tc_RefreshInBackground : option bool;
  tc_RefreshTimeBeforeExpiry : option Z
}.

Definition GetRefreshTimeout (t : AuthOauth2Token) : Z := default (30 * 1000000000)%Z (tc_RefreshTimeout t).
Definition GetRefreshInBackgroundOrDefault (t : AuthOauth2Token) : bool := default true (tc_RefreshInBackground t).
Definition GetRefreshTimeBeforeExpiryOrDefault (t : AuthOauth2Token) (fallback : Z) : Z :=
  default fallback (tc_RefreshTimeBeforeExpiry t).

Definition RevocationAccessToken : string := "access_token".
Definition RevocationRefreshToken : string := "refresh_token".
Definition RevocationBoth : string := "both".

Record AuthOauth2Revocation := mkRevocation {
  rv_Endpoint : string;
  rv_SupportedTokens : option string;
  rv_QueryOverrides : list (string * string);
  rv_FormOverrides : list (string * string)
}.

Definition SupportRevokingAccessToken (r : option AuthOauth2Revocation) : bool :=
  match r with
  | None => false
  | Some r =>
      match rv_SupportedTokens r with
      | None => true
      | Some t => bool_decide (t = RevocationAccessToken) || bool_decide (t = RevocationBoth)
      end
  end.

Definition SupportRevokingRefreshToken (r : option AuthOauth2Revocation) : bool :=
  match r with
  | None => false
  | Some r =>
      match rv_SupportedTokens r with
      | None => true
      | Some t => bool_decide (t = RevocationRefreshToken) || bool_decide (t = RevocationBoth)
      end
  end.

(** [common.StringValue]: the inner value may be missing; what it reads (a
    file, an environment variable) is given by its two calls. *)
Record StringValueType := mkStringValue {
  sv_HasValue : bool;
  sv_GetValue : option string
}.

Definition StringValue : Type := option StringValueType.

Definition HasValue (sv : StringValue) : bool := match sv with None => false | Some v => sv_HasValue v end.
Definition GetValue (sv : StringValue) : option string := match sv with None => None | Some v => sv_GetValue v end.

Record AuthOAuth2 := mkAuthOAuth2 {
  oa_GrantType : option string;
  oa_TokenEndpointAuthMethod : option string;
  oa_ClientId : option StringValue;
  oa_ClientSecret : option StringValue;
  oa_Scopes : list Scope;
  oa_Authorization : AuthOauth2Authorization;
  oa_Token : AuthOauth2Token;
  oa_Revocation : option AuthOauth2Revocation
}.

Definition GetTokenEndpointAuthMethodOrDefault (a : AuthOAuth2) : string :=
  match oa_TokenEndpointAuthMethod a with None => TokenEndpointAuthClientSecretPost | Some m => m end.

Definition GetGrantTypeOrDefault (a : AuthOAuth2) : string :=
  match oa_GrantType a with None => OAuth2GrantAuthorizationCode | Some g => g end.

Definition SupportsRefreshToken (a : AuthOAuth2) : bool :=
  bool_decide (GetGrantTypeOrDefault a = OAuth2GrantAuthorizationCode).

(** ** Validation *)

Inductive oauth_error : Type :=
  | GrantTypeEmpty | GrantTypeInvalid
  | AuthorizationNotAllowed | ClientIdNotAllowed | ClientSecretNotAllowed
  | EndpointRequired | PkceMethodInvalid
  | AuthMethodEmpty | AuthMethodInvalid | ClientIdRequired | ClientSecretRequired
  | PkceRequired | RequiredBoth | RequiredNeither
  | ScopePredicate (e : flow_error).

Abbreviation oerrors := (list (ValidationContext * oauth_error)).

Section validation.
Context {ext : External}.

Definition predicate_errors (vc : ValidationContext) (p : option string) : oerrors :=
  map (λ e, (e.1, ScopePredicate e.2)) (Predicate_Validate vc p).

Definition ScopeRequired_Validate (vc : ValidationContext) (r : option ScopeRequired) : oerrors :=
  match r with
  | None => []
  | Some r =>
      match sr_Bool r, sr_Predicate r with
      | Some _, Some _ => [(vc, RequiredBoth)]
      | None, None => [(vc, RequiredNeither)]
      | _, p => predicate_errors vc p
      end
  end.

Definition Scope_Validate (vc : ValidationContext) (s : Scope) : oerrors :=
  predicate_errors (PushField vc "if") (sc_If s) ++ ScopeRequired_Validate (PushField vc "required") (sc_Required s).

Fixpoint validate_scopes (vc : ValidationContext) (i : nat) (scopes : list Scope) : oerrors :=
  match scopes with
  | [] => []
  | s :: scopes => Scope_Validate (PushIndex (PushField vc "scopes") i) s ++ validate_scopes vc (S i) scopes
  end.

(** [a.ClientId != nil && a.ClientId.InnerVal != nil]. *)
Definition has_inner (v : option StringValue) : bool := bool_decide (is_Some (v ≫= id)).

Definition when (b : bool) (vc : ValidationContext) (e : oauth_error) : oerrors := if b then [(vc, e)] else [].

Definition grant_errors (vc : ValidationContext) (a : AuthOAuth2) : oerrors :=
  let az := oa_Authorization a in
  if decide (GetGrantTypeOrDefault a = OAuth2GrantClientCredentials) then
    when (negb (bool_decide (az_Endpoint az = "")) || negb (bool_decide (az_QueryOverrides az = []))
          || bool_decide (is_Some (az_PKCE az))) (PushField vc "authorization") AuthorizationNotAllowed
    ++ when (bool_decide (is_Some (oa_ClientId a))) (PushField vc "client_id") ClientIdNotAllowed
    ++ when (bool_decide (is_Some (oa_ClientSecret a))) (PushField vc "client_secret") ClientSecretNotAllowed
  else when (bool_decide (az_Endpoint az = "")) (PushField (PushField vc "authorization") "endpoint") EndpointRequired.

Definition pkce_errors (vc : ValidationContext) (a : AuthOAuth2) : oerrors :=
  if decide (GetGrantTypeOrDefault a = OAuth2GrantAuthorizationCode) then
    match az_PKCE (oa_Authorization a) with
    | None => []
    | Some m =>
        if decide (m = "" ∨ m = PKCEMethodS256 ∨ m = PKCEMethodPlain) then []
        else [(PushField (PushField (PushField vc "authorization") "pkce") "method", PkceMethodInvalid)]
    end
  else [].

Definition method_errors (vc : ValidationContext) (a : AuthOAuth2) : oerrors :=
  let method := GetTokenEndpointAuthMethodOrDefault a in
  let code := bool_decide (GetGrantTypeOrDefault a = OAuth2GrantAuthorizationCode) in
  let hasSecret := has_inner (oa_ClientSecret a) in
  if decide (method = TokenEndpointAuthClientSecretPost ∨ method = TokenEndpointAuthClientSecretBasic) then
    when (code && negb hasSecret) (PushField vc "client_secret") ClientSecretRequired
  else if decide (method = TokenEndpointAuthNone) then
    when hasSecret (PushField vc "client_secret") ClientSecretNotAllowed
    ++ when (code && negb (bool_decide (is_Some (az_PKCE (oa_Authorization a)))))
         (PushField (PushField vc "authorization") "pkce") PkceRequired
  else [(PushField vc "token_endpoint_auth_method", AuthMethodInvalid)].

Definition AuthOAuth2_Validate (vc : ValidationContext) (a : AuthOAuth2) : oerrors :=
  let grantType := GetGrantTypeOrDefault a in
  if decide (grantType = "") then [(PushField vc "grant_type", GrantTypeEmpty)]
  else
    (if decide (grantType = OAuth2GrantAuthorizationCode ∨ grantType = OAuth2GrantClientCredentials) then []
     else [(PushField vc "grant_type", GrantTypeInvalid)])
    ++ grant_errors vc a ++ pkce_errors vc a
    ++ (if decide (oa_TokenEndpointAuthMethod a = Some "") then [(PushField vc "token_endpoint_auth_method", AuthMethodEmpty)]
        else
          when (bool_decide (grantType = OAuth2GrantAuthorizationCode) && negb (has_inner (oa_ClientId a)))
            (PushField vc "client_id") ClientIdRequired
          ++ validate_scopes vc 0 (oa_Scopes a)
          ++ method_errors vc a).
End validation.

(** ** Scopes of a connection *)

(** [scope.Clone()] with the changes of the loop. *)
Definition set_Required (r : option ScopeRequired) (s : Scope) : Scope := mkScope (sc_Id s) (sc_If s) r (sc_Reason s).

(** The scopes that apply, with predicates for [required] replaced by their
    value; [None] is an error. *)
Fixpoint effective_scopes (jsctx : js_context) (scopes : list Scope) : option (list Scope) :=
  match scopes with
  | [] => Some []
  | declared :: scopes =>
      applies ← (match sc_If declared with None => Some true | Some js => jsctx js end);
      if (applies : bool) then
        scope ← (match sc_Required declared with
                 | Some (mkScopeRequired _ (Some _)) =>
                     required ← Scope_IsRequired jsctx declared;
                     Some (set_Required (Some (NewScopeRequiredBool required)) declared)
                 | _ => Some declared
                 end);
        rest ← effective_scopes jsctx scopes;
        Some (scope :: rest)
      else effective_scopes jsctx scopes
  end.

(** [strings.Fields]: [skip] bytes of a white-space character are left. *)
Definition flush (cur : string) : list string := if decide (cur = "") then [] else [cur].

Fixpoint fields_from (skip : nat) (cur s : string) : list string :=
  match s with
  | "" => flush cur
  | String c s' =>
      match skip with
      | S k => fields_from k cur s'
      | O =>
          match leading_space s with
          | Some n => flush cur ++ fields_from (pred n) "" s'
          | None => fields_from 0 (cur +:+ String c "") s'
          end
      end
  end.

Definition SplitScopes (s : string) : list string := fields_from 0 "" s.

Definition space : ascii := " "%char.

Definition JoinScopes (scopes : list Scope) : string := Join (map sc_Id scopes) space.

Definition scopeSet (s : string) : gset string := list_to_set (SplitScopes s).

Record scopeMismatchOutcome := mkMismatch {
  missingRequired : list string;
  missingOptional : list string;
  extraGranted : list string
}.

(** The declared scopes that were not granted, required and optional. *)
Fixpoint missing_scopes (jsctx : js_context) (granted : gset string) (declared : list Scope) : option (list string * list string) :=
  match declared with
  | [] => Some ([], [])
  | s :: declared =>
      if decide (sc_Id s ∈ granted) then missing_scopes jsctx granted declared
      else
        required ← Scope_IsRequired jsctx s;
        '(req, opt) ← missing_scopes jsctx granted declared;
        Some (if (required : bool) then (sc_Id s :: req, opt) else (req, sc_Id s :: opt))
  end.

(** [jsctx] is the empty context. *)
Definition detectScopeMismatch (jsctx : js_context) (declared : list Scope) (granted : string) : option scopeMismatchOutcome :=
  let grantedSet := scopeSet granted in
  '(req, opt) ← missing_scopes jsctx grantedSet declared;
  Some (mkMismatch (sort_strings req) (sort_strings opt)
          (sort_strings (elements (grantedSet ∖ list_to_set (map sc_Id declared))))).

(** Only missing required scopes are an error, with their names. *)
Definition applyScopeMismatch (outcome : scopeMismatchOutcome) : option string :=
  if decide (missingRequired outcome = []) then None
  else Some ("required oauth2 scopes were not granted by provider: " +:+ Join (missingRequired outcome) space).

(** ** PKCE *)

Definition pkceVerifierAlphabet : string := "ABCDEFGHIJKLMNOPQRSTUVWXYZabcdefghijklmnopqrstuvwxyz0123456789-._~".
Definition pkceVerifierLength : nat := 43.
Definition cutoff : nat := 256 - 256 mod String.length pkceVerifierAlphabet.

(** [alpha[i]], which is in range for [i = b mod len(alpha)]. *)
Definition alpha (i : nat) : ascii := default "A"%char (String.get i pkceVerifierAlphabet).

(** The loop over one buffer of random bytes. *)
Fixpoint pkce_fill (out : string) (buf : list nat) : string :=
  match buf with
  | [] => out
  | b :: buf =>
      if (cutoff <=? b)%nat then pkce_fill out buf
      else
        let out := out +:+ String (alpha (b mod String.length pkceVerifierAlphabet)) "" in
        if decide (String.length out = pkceVerifierLength) then out else pkce_fill out buf
  end.

(** [draw n] is the [n]-th buffer of 43 random bytes, or an error; [fuel]
    bounds the rounds.  The result has the number of draws. *)
Fixpoint pkce_loop (fuel : nat) (draw : nat → option (list nat)) (n : nat) (out : string) : option (option string * nat) :=
  if (String.length out <? pkceVerifierLength)%nat then
    match fuel with
    | O => None
    | S fuel =>
        match draw n with
        | None => Some (None, S n)
        | Some buf => pkce_loop fuel draw (S n) (pkce_fill out buf)
        end
    end
  else Some (Some out, n).

Definition generatePKCEVerifier (fuel : nat) (draw : nat → option (list nat)) (n : nat) : option (option string * nat) :=
  pkce_loop fuel draw n "".

(** [s256] is the unpadded base64url encoding of the SHA-256 hash. *)
Definition pkceChallengeFor (s256 : string → string) (method verifier : string) : option string :=
  if decide (method = PKCEMethodS256) then Some (s256 verifier)
  else if decide (method = PKCEMethodPlain) then Some verifier
  else None.

(** ** Authentication of the client *)

(** [url.Values]. *)
Abbreviation Values := (gmap string (list string)).

Definition Values_Set (k v : string) (vs : Values) : Values := <[k := [v]]> vs.
Definition Values_Get (k : string) (vs : Values) : string := match vs !! k with Some (v :: _) => v | _ => "" end.
Definition Values_Set_all (kvs : list (string * string)) (vs : Values) : Values := foldl (λ vs kv, Values_Set kv.1 kv.2 vs) vs kvs.

(** [url.QueryEscape]. *)
Definition unreserved (c : ascii) : bool :=
  let n := nat_of_ascii c in
  ((48 <=? n) && (n <=? 57) || (65 <=? n) && (n <=? 90) || (97 <=? n) && (n <=? 122)
   || (n =? 45) || (n =? 46) || (n =? 95) || (n =? 126))%nat.

Definition hex_digit (n : nat) : ascii := ascii_of_nat (if (n <? 10)%nat then 48 + n else 55 + n).

Fixpoint QueryEscape (s : string) : string :=
  match s with
  | "" => ""
  | String c s =>
      if unreserved c then String c (QueryEscape s)
      else if decide (c = space) then String "+" (QueryEscape s)
      else let n := nat_of_ascii c in
           String "%" (String (hex_digit (n / 16)) (String (hex_digit (n mod 16)) (QueryEscape s)))
  end.

Section client_auth.
Context {C : Cipher}.

(** The form values and the [Authorization] header. *)
Definition applyTokenEndpointClientAuth (method clientId clientSecret : string) (values : Values) : option (Values * string) :=
  if decide (method = TokenEndpointAuthClientSecretPost) then
    Some (Values_Set "client_secret" clientSecret (Values_Set "client_id" clientId values), "")
  else if decide (method = TokenEndpointAuthClientSecretBasic) then
    Some (values, "Basic " +:+ b64_encode (QueryEscape clientId +:+ ":" +:+ QueryEscape clientSecret))
  else if decide (method = TokenEndpointAuthNone) then
    Some (Values_Set "client_id" clientId values, "")
  else None.
End client_auth.

(** ** Classes of failures *)

Inductive tokenExchangeCategory : Type :=
  | tokenExchangeProviderDenied | tokenExchangeMissingCode | tokenExchangeNetworkError
  | tokenExchangeInvalidGrant | tokenExchangeInvalidClient | tokenExchangeInvalidRequest
  | tokenExchangeUnauthorizedClient | tokenExchangeUnsupportedGrantType | tokenExchangeInvalidScope
  | tokenExchangeProvider4xxOther | tokenExchangeProvider5xx | tokenExchangeMalformedResponse
  | tokenExchangeStateCleanupError | tokenExchangeInternalError.

Inductive tokenRefreshCategory : Type :=
  | tokenRefreshNoRefreshToken | tokenRefreshNetworkError | tokenRefreshInvalidGrant
  | tokenRefreshInvalidClient | tokenRefreshProvider4xxOther | tokenRefreshProvider5xx
  | tokenRefreshMalformedResponse | tokenRefreshInternalError.

#[export] Instance tokenExchangeCategory_eq_dec : EqDecision tokenExchangeCategory.
Proof. solve_decision. Defined.
#[export] Instance tokenRefreshCategory_eq_dec : EqDecision tokenRefreshCategory.
Proof. solve_decision. Defined.

Definition IsPermanent (c : tokenRefreshCategory) : bool :=
  match c with
  | tokenRefreshNoRefreshToken | tokenRefreshInvalidGrant | tokenRefreshInvalidClient
  | tokenRefreshProvider4xxOther | tokenRefreshMalformedResponse => true
  | _ => false
  end.

(** [error] is the member of that name in the body, empty when the body has
    none or cannot be parsed. *)
Definition classifyTokenEndpointStatus (statusCode : Z) (error : string) : tokenExchangeCategory * string :=
  if (500 <=? statusCode)%Z then (tokenExchangeProvider5xx, "")
  else if (400 <=? statusCode)%Z then
    if decide (error = "invalid_grant") then (tokenExchangeInvalidGrant, error)
    else if decide (error = "invalid_client") then (tokenExchangeInvalidClient, error)
    else if decide (error = "invalid_request") then (tokenExchangeInvalidRequest, error)
    else if decide (error = "unauthorized_client") then (tokenExchangeUnauthorizedClient, error)
    else if decide (error = "unsupported_grant_type") then (tokenExchangeUnsupportedGrantType, error)
    else if decide (error = "invalid_scope") then (tokenExchangeInvalidScope, error)
    else (tokenExchangeProvider4xxOther, error)
  else (tokenExchangeProvider4xxOther, "").

Definition classifyTokenRefreshStatus (statusCode : Z) (error : string) : tokenRefreshCategory * string :=
  if (500 <=? statusCode)%Z then (tokenRefreshProvider5xx, "")
  else if (400 <=? statusCode)%Z then
    if decide (error = "invalid_grant") then (tokenRefreshInvalidGrant, error)
    else if decide (error = "invalid_client") then (tokenRefreshInvalidClient, error)
    else (tokenRefreshProvider4xxOther, error)
  else (tokenRefreshProvider4xxOther, "").

(** ** Retries *)

Section retry.
Context {St T E : Type}.

(** [retry.Do]: [ctx_err] is [ctx.Err()] at a state, [op] the operation,
    [wait] the sleep, which [ctx] may cut short.  A strategy gives the wait
    before the [n]-th retry, or stops. *)
Record Options := mkOptions {
  MaxAttempts : Z;
  Backoff : nat → option Z;
  Classify : option T → option E → bool;
  OnRetryWait : option (option T → option E → Z)
}.

Record Result := mkResult {
  r_Value : option T;
  r_Attempts : Z;
  r_Err : option E
}.

Context (ctx_err : St → option E * St) (op : St → (option T * option E) * St) (wait : Z → St → option E * St).

(** [retries] is how many attempts may follow this one. *)
Fixpoint do_attempts (opts : Options) (retries attempt : nat) (lastVal : option T) (s : St) : Result * St :=
  let '(cancelled, s) := ctx_err s in
  match cancelled with
  | Some e => (mkResult lastVal (Z.of_nat attempt - 1) (Some e), s)
  | None =>
      let '((val, err), s) := op s in
      if negb (Classify opts val err) then (mkResult val (Z.of_nat attempt) err, s)
      else match retries with
      | O => (mkResult val (Z.of_nat attempt) err, s)
      | S retries =>
          match Backoff opts attempt with
          | None => (mkResult val (Z.of_nat attempt) err, s)
          | Some w =>
              let w := match OnRetryWait opts with
                       | Some f => if (0 <? f val err)%Z then f val err else w
                       | None => w
                       end in
              let '(cancelled, s) := wait w s in
              match cancelled with
              | Some e => (mkResult val (Z.of_nat attempt) (Some e), s)
              | None => do_attempts opts retries (S attempt) val s
              end
          end
      end
  end.

Definition retry_Do (opts : Options) (s : St) : Result * St :=
  do_attempts opts (Z.to_nat (Z.max 1 (MaxAttempts opts)) - 1) 1 None s.
End retry.
Arguments Options : clear implicits.
Arguments Result : clear implicits.

Definition LinearBackOff (step : Z) (n : nat) : option Z := Some (step * Z.of_nat n)%Z.

(** ** Return URLs *)

(** [net/url] and the case folding of [strings]. *)
Class UrlLib := {
  URL : Type;
  url_Parse : string → option URL;
  url_String : URL → string;
  u_Scheme : URL → string;
  u_Host : URL → string;
  u_HasUser : URL → bool;
  u_Path : URL → string;
  u_Query : URL → Values;
  u_with_Path : string → URL → URL;
  u_with_RawQuery : Values → URL → URL;      (** the encoded values *)
  u_without_RawQuery : URL → URL;
  u_without_Fragment : URL → URL;
  EqualFold : string → string → bool;
  ToLower : string → string
}.

Section return_url.
Context {U : UrlLib} (baseUrl : string).

Definition defaultOAuthReturnPath : string := "/connections".

Definition isAllowedReturnScheme (scheme : string) : bool :=
  bool_decide (ToLower scheme = "http") || bool_decide (ToLower scheme = "https").

Definition sameOrigin (a b : URL) : bool := EqualFold (u_Scheme a) (u_Scheme b) && EqualFold (u_Host a) (u_Host b).

Definition defaultReturnToUrl : string :=
  match url_Parse baseUrl with
  | None => baseUrl
  | Some publicURL => url_String (u_without_Fragment (u_without_RawQuery (u_with_Path defaultOAuthReturnPath publicURL)))
  end.

Definition safeReturnToUrl (raw : string) : string :=
  let fallback := defaultReturnToUrl in
  match url_Parse raw with
  | None => fallback
  | Some returnURL =>
      if bool_decide (u_Scheme returnURL = "") || bool_decide (u_Host returnURL = "") then fallback
      else if u_HasUser returnURL || negb (isAllowedReturnScheme (u_Scheme returnURL)) then fallback
      else match url_Parse baseUrl with
      | None => fallback
      | Some publicURL => if negb (sameOrigin publicURL returnURL) then fallback else url_String returnURL
      end
  end.

Definition appendSetupPendingToReturnUrl (connectionId raw : string) : string :=
  match url_Parse raw with
  | None => raw
  | Some returnUrl =>
      url_String (u_with_RawQuery (Values_Set "connectionId" connectionId (Values_Set "setup" "pending" (u_Query returnUrl))) returnUrl)
  end.

Definition getPublicCallbackUrl : option string :=
  u ← url_Parse baseUrl; Some (url_String (u_with_Path (u_Path u +:+ "/oauth2/callback") u)).
End return_url.

(** ** PKCE verifiers *)

Definition usable (b : nat) : Prop := (b < cutoff)%nat.

#[export] Instance usable_dec b : Decision (usable b).
Proof. unfold usable. apply _. Defined.

(** The letters of usable bytes. *)
Definition letter (b : nat) : ascii := alpha (b mod String.length pkceVerifierAlphabet).

Fixpoint letters (bs : list nat) : string := match bs with [] => "" | b :: bs => String (letter b) (letters bs) end.

Lemma letters_length bs : String.length (letters bs) = length bs.
Proof. induction bs as [|b bs IH]; cbn; [done|]. by rewrite IH. Qed.

Lemma letters_app bs bs' : letters (bs ++ bs') = letters bs +:+ letters bs'.
Proof. induction bs as [|b bs IH]; cbn; [done|]. by rewrite IH. Qed.

(** One buffer adds the letters of its usable bytes, up to 43. *)
Lemma pkce_fill_letters out buf : (String.length out < pkceVerifierLength)%nat →
  pkce_fill out buf = out +:+ letters (take (pkceVerifierLength - String.length out) (filter usable buf)).
Proof.
  revert out. induction buf as [|b buf IH]; intros out Hlen.
  { rewrite filter_nil, take_nil. cbn. by rewrite str_app_nil_r. }
  cbn [pkce_fill]. rewrite filter_cons. destruct (Nat.leb_spec cutoff b) as [Hb|Hb].
  { rewrite (decide_False (P := usable b)) by (unfold usable; lia). by apply IH. }
  rewrite (decide_True (P := usable b)) by done. fold (letter b).
  assert (String.length (out +:+ String (letter b) "") = S (String.length out)) as Hlen'.
  { rewrite str_length_app. cbn. lia. }
  destruct (pkceVerifierLength - String.length out) as [|k] eqn:Hk; [lia|]. cbn [take letters].
  destruct (decide _) as [Hfull|Hmore].
  - replace k with 0%nat by lia. done.
  - rewrite IH by lia. rewrite Hlen'. replace (pkceVerifierLength - S (String.length out)) with k by lia.
    by rewrite str_app_assoc.
Qed.

(** The buffers [n], ..., [n + k - 1] when every draw succeeds. *)
Fixpoint draws (draw : nat → option (list nat)) (n k : nat) : option (list nat) :=
  match k with
  | O => Some []
  | S k => buf ← draw n; rest ← draws draw (S n) k; Some (buf ++ rest)
  end.

Lemma pkce_loop_full fuel draw n out : String.length out = pkceVerifierLength → pkce_loop fuel draw n out = Some (Some out, n).
Proof. intros Hlen. destruct fuel; cbn; rewrite Hlen; done. Qed.

Lemma pkce_loop_letters k : ∀ fuel draw n out bytes,
  (k ≤ fuel)%nat → (String.length out ≤ pkceVerifierLength)%nat → draws draw n k = Some bytes →
  (pkceVerifierLength - String.length out ≤ length (filter usable bytes))%nat →
  ∃ n', pkce_loop fuel draw n out = Some (Some (out +:+ letters (take (pkceVerifierLength - String.length out) (filter usable bytes))), n')
        ∧ (n ≤ n' ≤ n + k)%nat.
Proof.
  induction k as [|k IH]; intros fuel draw n out bytes Hfuel Hlen Hd Hmany.
  { cbn in Hd. injection Hd as <-. rewrite filter_nil in Hmany. cbn [length] in Hmany. exists n. rewrite pkce_loop_full by lia.
    rewrite filter_nil, take_nil. cbn. rewrite str_app_nil_r. split; [done|lia]. }
  cbn in Hd. destruct (draw n) as [buf|] eqn:Hn; [|done]. cbn in Hd.
  destruct (draws draw (S n) k) as [rest|] eqn:Hrest; [|done]. cbn in Hd. injection Hd as <-.
  destruct (decide (String.length out = pkceVerifierLength)) as [Hfull|Hmore].
  { exists n. rewrite pkce_loop_full by done. rewrite Hfull, Nat.sub_diag, take_0. cbn. rewrite str_app_nil_r. split; [done|lia]. }
  destruct fuel as [|fuel]; [lia|]. cbn [pkce_loop]. rewrite (proj2 (Nat.ltb_lt _ _)) by lia. rewrite Hn.
  rewrite pkce_fill_letters by lia. set (m := pkceVerifierLength - String.length out) in *.
  set (out' := out +:+ letters (take m (filter usable buf))).
  assert (String.length out' = String.length out + Nat.min m (length (filter usable buf)))%nat as Hout'.
  { unfold out'. rewrite str_length_app, letters_length, length_take. lia. }
  rewrite filter_app, length_app in Hmany.
  destruct (IH fuel draw (S n) out' rest) as (n' & Hrun & Hn'); [lia|lia|done|lia|].
  exists n'. rewrite Hrun. split; [|lia].
  replace (pkceVerifierLength - String.length out') with (m - length (filter usable buf)) by lia.
  unfold out'. by rewrite filter_app, take_app, letters_app, str_app_assoc.
Qed.

(** A test of every byte. *)
Lemma ascii_all (f : ascii → bool) : forallb (λ n, f (ascii_of_nat n)) (seq 0 256) = true → ∀ c, f c = true.
Proof.
  intros Hall c. rewrite forallb_forall in Hall. rewrite <- (ascii_nat_embedding c). apply Hall, in_seq.
  pose proof (nat_ascii_bounded c). lia.
Qed.

Lemma letter_in_alphabet b : no_char (letter b) pkceVerifierAlphabet = false.
Proof.
  unfold letter. generalize (Nat.mod_upper_bound b (String.length pkceVerifierAlphabet)). generalize (b mod String.length pkceVerifierAlphabet).
  intros i Hi. specialize (Hi ltac:(done)). revert i Hi.
  assert (forallb (λ i, negb (no_char (alpha i) pkceVerifierAlphabet)) (seq 0 66) = true) as Hall by (vm_compute; reflexivity).
  rewrite forallb_forall in Hall. intros i Hi. apply negb_true_iff, Hall, in_seq. split; [lia|exact Hi].
Qed.

(** How many usable bytes give a letter. *)
Definition bytes_of (c : ascii) : nat := length (filter (λ b, usable b ∧ letter b = c) (seq 0 256)).

Lemma bytes_of_letter c : bytes_of c = (if no_char c pkceVerifierAlphabet then 0 else 3)%nat.
Proof.
  apply Nat.eqb_eq. revert c. apply ascii_all. vm_compute. reflexivity.
Qed.

(** A PKCE verifier is drawn as RFC 7636 asks.  When the random source has
    given 43 bytes below the cut-off in the first [k] buffers, the loop ends
    within [k] rounds, and the verifier consists of the letters of the first 43
    of them, in order.  It has 43 characters of the unreserved alphabet, and
    each of the 66 characters comes from exactly three of the bytes that are
    used, so that uniform bytes give uniform characters. *)
Theorem pkce_verifier_exact k draw n bytes :
  draws draw n k = Some bytes → (pkceVerifierLength ≤ length (filter usable bytes))%nat →
  ∃ v n', generatePKCEVerifier k draw n = Some (Some v, n') ∧ (n ≤ n' ≤ n + k)%nat ∧
    v = letters (take pkceVerifierLength (filter usable bytes)) ∧
    String.length v = pkceVerifierLength ∧
    str_forall (λ c, negb (no_char c pkceVerifierAlphabet)) v = true ∧
    (∀ c, no_char c pkceVerifierAlphabet = false → bytes_of c = 3%nat) ∧
    (∀ c, no_char c pkceVerifierAlphabet = true → bytes_of c = 0%nat).
Proof.
  intros Hd Hmany. destruct (pkce_loop_letters k k draw n "" bytes) as (n' & Hrun & Hn'); [done|cbn [String.length]; lia|done|cbn [String.length]; lia|].
  cbn [String.length] in Hrun. rewrite Nat.sub_0_r in Hrun.
  change ("" +:+ ?x) with x in Hrun. eexists _, n'. split; [exact Hrun|]. split; [done|]. split; [done|].
  split; [|split; [|split]].
  - rewrite letters_length, length_take. lia.
  - generalize (take pkceVerifierLength (filter usable bytes)). intros l. induction l as [|b l IH]; [done|].
    cbn [letters str_forall]. by rewrite IH, letter_in_alphabet.
  - intros c Hc. pose proof (bytes_of_letter c) as H. by rewrite Hc in H.
  - intros c Hc. pose proof (bytes_of_letter c) as H. by rewrite Hc in H.
Qed.

(** Two buffers of which enough bytes are below the cut-off. *)
Lemma pkce_verifier_witness :
  ∃ v n', generatePKCEVerifier 2 (λ n, Some (repeat (if decide (n = 5) then 250 else 67 + n)%nat 43)) 5 = Some (Some v, n') ∧
    v = letters (take pkceVerifierLength (filter usable (repeat 250 43 ++ repeat 73 43))%nat).
Proof.
  edestruct (pkce_verifier_exact 2 (λ n, Some (repeat (if decide (n = 5) then 250 else 67 + n)%nat 43)) 5) as (v & n' & Hrun & _ & Hv & _);
    [reflexivity|vm_compute; lia|].
  exists v, n'. split; [exact Hrun|exact Hv].
Defined.

(** ** Which blocks are accepted *)

Section well_formed.
Context {ext : External}.

Definition predicate_ok (js : string) : Prop := TrimSpace js ≠ "" ∧ js_validates js = true.

Definition required_ok (r : option ScopeRequired) : Prop :=
  match r with
  | None => True
  | Some r => (is_Some (sr_Bool r) ∧ sr_Predicate r = None) ∨ (sr_Bool r = None ∧ ∃ js, sr_Predicate r = Some js ∧ predicate_ok js)
  end.

Definition scope_ok (s : Scope) : Prop := (∀ js, sc_If s = Some js → predicate_ok js) ∧ required_ok (sc_Required s).

(** A block for users who authorize the connection, as a confidential or a
    public client, or one for credentials of the client alone. *)
Definition code_ok (a : AuthOAuth2) : Prop :=
  GetGrantTypeOrDefault a = OAuth2GrantAuthorizationCode ∧
  az_Endpoint (oa_Authorization a) ≠ "" ∧
  (∀ m, az_PKCE (oa_Authorization a) = Some m → m ∈ ["" ; PKCEMethodS256; PKCEMethodPlain]) ∧
  has_inner (oa_ClientId a) = true ∧
  ((GetTokenEndpointAuthMethodOrDefault a ∈ [TokenEndpointAuthClientSecretPost; TokenEndpointAuthClientSecretBasic] ∧
    has_inner (oa_ClientSecret a) = true) ∨
   (GetTokenEndpointAuthMethodOrDefault a = TokenEndpointAuthNone ∧ has_inner (oa_ClientSecret a) = false ∧
    is_Some (az_PKCE (oa_Authorization a)))).

Definition client_credentials_ok (a : AuthOAuth2) : Prop :=
  GetGrantTypeOrDefault a = OAuth2GrantClientCredentials ∧
  az_Endpoint (oa_Authorization a) = "" ∧ az_QueryOverrides (oa_Authorization a) = [] ∧ az_PKCE (oa_Authorization a) = None ∧
  oa_ClientId a = None ∧ oa_ClientSecret a = None ∧
  GetTokenEndpointAuthMethodOrDefault a ∈
    [TokenEndpointAuthClientSecretPost; TokenEndpointAuthClientSecretBasic; TokenEndpointAuthNone].

Definition oauth_ok (a : AuthOAuth2) : Prop := (code_ok a ∨ client_credentials_ok a) ∧ Forall scope_ok (oa_Scopes a).

Lemma when_nil b vc e : when b vc e = [] ↔ b = false.
Proof. by destruct b. Qed.

Lemma predicate_errors_nil vc p : predicate_errors vc p = [] ↔ ∀ js, p = Some js → predicate_ok js.
Proof.
  unfold predicate_errors, predicate_ok. destruct p as [js|]; cbn; [|done].
  destruct (decide (TrimSpace js = "")) as [Hb|Hb].
  { split; [done|]. intros H. by destruct (H js eq_refl). }
  destruct (js_validates js) eqn:Hv; cbn; (split; [|done || (intros H; destruct (H js eq_refl); congruence)]).
  - by intros _ ? [= <-].
  - done.
Qed.

Lemma ScopeRequired_nil vc r : ScopeRequired_Validate vc r = [] ↔ required_ok r.
Proof.
  destruct r as [[[b|] [p|]]|]; cbn -[predicate_errors]; [| | | |done].
  - split; [done|]. intros [[_ H]|[H _]]; done.
  - split; [eauto|]. intros _. by apply predicate_errors_nil.
  - rewrite predicate_errors_nil. split; [|naive_solver]. intros H. right. eauto.
  - split; [done|]. intros [[[] _]|[_ (js & H & _)]]; done.
Qed.

Lemma Scope_nil vc s : Scope_Validate vc s = [] ↔ scope_ok s.
Proof. unfold Scope_Validate, scope_ok. by rewrite app_nil, predicate_errors_nil, ScopeRequired_nil. Qed.

Lemma validate_scopes_nil vc i scopes : validate_scopes vc i scopes = [] ↔ Forall scope_ok scopes.
Proof. revert i. induction scopes as [|s scopes IH]; intros i; cbn; [done|]. by rewrite app_nil, Scope_nil, Forall_cons, IH. Qed.

Lemma method_errors_nil vc a : method_errors vc a = [] ↔
  let code := bool_decide (GetGrantTypeOrDefault a = OAuth2GrantAuthorizationCode) in
  (GetTokenEndpointAuthMethodOrDefault a ∈ [TokenEndpointAuthClientSecretPost; TokenEndpointAuthClientSecretBasic] ∧
     (code = true → has_inner (oa_ClientSecret a) = true)) ∨
  (GetTokenEndpointAuthMethodOrDefault a = TokenEndpointAuthNone ∧ has_inner (oa_ClientSecret a) = false ∧
     (code = true → is_Some (az_PKCE (oa_Authorization a)))).
Proof.
  unfold method_errors. set (m := GetTokenEndpointAuthMethodOrDefault a). cbn zeta. set (code := bool_decide _).
  destruct (decide (m = _ ∨ m = _)) as [Hm|Hm].
  - rewrite when_nil, andb_false_iff, negb_false_iff. split.
    + intros H. left. split; [set_solver|]. destruct code; naive_solver.
    + intros [[_ H]|[-> _]]; [destruct code; naive_solver|by destruct Hm].
  - destruct (decide (m = TokenEndpointAuthNone)) as [Hn|Hn].
    + rewrite app_nil, !when_nil, andb_false_iff, negb_false_iff, bool_decide_eq_true. split.
      * intros [H1 H2]. right. split_and!; [done|done|]. destruct code; naive_solver.
      * intros [[H _]|(_ & H1 & H2)]; [set_solver|]. split; [done|]. destruct code; naive_solver.
    + split; [done|]. intros [[H _]|[H _]]; set_solver.
Qed.

(** The validator accepts exactly the OAuth2 blocks that can be used: for
    an authorization code, an endpoint, a client id, a known PKCE method, and
    either a secret or, for public clients, PKCE and no secret; for client
    credentials, none of these, since the client's credentials are collected
    from the user.  Predicates of scopes are present and boolean. *)
Theorem oauth_config_exact vc a : AuthOAuth2_Validate vc a = [] ↔ oauth_ok a.
Proof.
  unfold AuthOAuth2_Validate, oauth_ok, code_ok, client_credentials_ok, grant_errors, pkce_errors.
  set (g := GetGrantTypeOrDefault a). destruct (decide (g = "")) as [->|Hne].
  { split; [done|]. intros [[[H _]|[H _]] _]; done. }
  rewrite !app_nil. destruct (decide (oa_TokenEndpointAuthMethod a = Some "")) as [Hempty|Hset].
  { assert (GetTokenEndpointAuthMethodOrDefault a = "") as Hm by (unfold GetTokenEndpointAuthMethodOrDefault; by rewrite Hempty).
    rewrite Hm. split; [naive_solver|]. intros [[(_ & _ & _ & _ & [[H _]|[H _]])|(_ & _ & _ & _ & _ & _ & H)] _]; set_solver. }
  rewrite !app_nil, when_nil, validate_scopes_nil, method_errors_nil. cbn zeta. fold g.
  destruct (decide (g = OAuth2GrantAuthorizationCode)) as [Hg|Hg].
  - rewrite Hg. rewrite (decide_False (P := OAuth2GrantAuthorizationCode = OAuth2GrantClientCredentials)) by done.
    rewrite decide_True by (by left). rewrite when_nil, bool_decide_eq_false, !bool_decide_true by done. cbn [andb].
    rewrite negb_false_iff.
    assert ((match az_PKCE (oa_Authorization a) with
             | Some m => if decide (m = "" ∨ m = PKCEMethodS256 ∨ m = PKCEMethodPlain) then []
                         else [(PushField (PushField (PushField vc "authorization") "pkce") "method", PkceMethodInvalid)]
             | None => []
             end = []) ↔ ∀ m, az_PKCE (oa_Authorization a) = Some m → m ∈ [""; PKCEMethodS256; PKCEMethodPlain]) as ->.
    { destruct (az_PKCE (oa_Authorization a)) as [m|]; [|naive_solver]. destruct (decide _) as [H|H]; split; try done.
      - intros _ m' [= <-]. set_solver.
      - intros H'. specialize (H' m eq_refl). exfalso. set_solver. }
    split.
    + intros (_ & He & Hp & Hc & Hs & Hm). split; [|done]. left. split_and!; [done..|]. naive_solver.
    + intros [[(_ & He & Hp & Hc & Hm)|(H & _)] Hs]; [|done]. split_and!; [done..|]. naive_solver.
  - destruct (decide (g = OAuth2GrantClientCredentials)) as [Hc|Hc].
    + rewrite decide_True by (by right).
      rewrite !app_nil, !when_nil, !orb_false_iff, !negb_false_iff, !bool_decide_eq_false, !bool_decide_eq_true.
      rewrite (bool_decide_false (g = OAuth2GrantAuthorizationCode)) by done. cbn [andb].
      assert (∀ {A} (o : option A), ¬ is_Some o ↔ o = None) as Hnone by (intros; by rewrite eq_None_not_Some).
      rewrite !Hnone. split.
      * intros (_ & (((He & Hq) & Hp) & Hid & Hsec) & _ & _ & Hs & Hm). split; [|done]. right. split_and!; [done..|]. set_solver.
      * intros [[(H & _)|(_ & He & Hq & Hp & Hid & Hsec & Hm)] Hs]; [done|]. rewrite Hsec. split_and!; [done..|].
        unfold has_inner. cbn. set_solver.
    + rewrite decide_False by naive_solver. split; [naive_solver|]. naive_solver.
Qed.
End well_formed.

(** ** Splitting and joining scopes *)

(** No white space starts anywhere in [s]. *)
Fixpoint spaceless (s : string) : bool :=
  match s with "" => true | String _ s' => bool_decide (leading_space s = None) && spaceless s' end.

Lemma HasPrefix_before_char e c : ∀ w r, no_char c e = true → HasPrefix (w +:+ String c r) e = true → HasPrefix w e = true.
Proof.
  induction e as [|a e IH]; intros w r Hno Hp; [by destruct w|]. cbn in Hno. apply andb_true_iff in Hno as [Ha Hno].
  apply bool_decide_eq_true in Ha. destruct w as [|b w]; cbn in Hp |- *; apply andb_true_iff in Hp as [Hb Hp].
  - apply bool_decide_eq_true in Hb. congruence.
  - rewrite Hb. by eapply IH.
Qed.

Lemma leading_space_before w r : w ≠ "" → leading_space w = None → leading_space (w +:+ String space r) = None.
Proof.
  intros Hne Hnone. unfold leading_space in *. apply fmap_None in Hnone. apply fmap_None.
  destruct (List.find (HasPrefix (w +:+ String space r)) space_encodings) as [e|] eqn:Hf; [|done]. exfalso. apply find_some in Hf as [Hin Hp].
  pose proof (find_none _ _ Hnone e Hin) as Hno. revert Hno. apply not_false_iff_true.
  destruct (decide (e = " ")) as [->|Hsp].
  - destruct w as [|a w]; [done|]. cbn in Hp |- *. apply andb_true_iff in Hp as [-> _]. by destruct w.
  - eapply HasPrefix_before_char; [|exact Hp].
    assert (forallb (λ e, bool_decide (e = " ") || no_char space e) space_encodings = true) as Hall by (vm_compute; reflexivity).
    rewrite forallb_forall in Hall. specialize (Hall e Hin). apply orb_true_iff in Hall as [H|H]; [|done].
    by apply bool_decide_eq_true in H.
Qed.

Lemma fields_word w rest : ∀ cur, spaceless w = true → (rest = "" ∨ ∃ r, rest = String space r) →
  fields_from 0 cur (w +:+ rest) = fields_from 0 (cur +:+ w) rest.
Proof.
  induction w as [|c w IH]; intros cur Hw Hrest; [by rewrite str_app_nil_r|].
  cbn [spaceless] in Hw. apply andb_true_iff in Hw as [Hc Hw]. apply bool_decide_eq_true in Hc.
  change (String c w +:+ rest) with (String c (w +:+ rest)). cbn [fields_from].
  assert (leading_space (String c (w +:+ rest)) = None) as ->.
  { destruct Hrest as [->|[r ->]]; [by rewrite str_app_nil_r|]. by apply (leading_space_before (String c w)). }
  rewrite IH by done. by rewrite str_app_assoc.
Qed.

Definition plain_scope (x : string) : Prop := x ≠ "" ∧ spaceless x = true.

Lemma SplitScopes_Join ids : Forall plain_scope ids → SplitScopes (Join ids space) = ids.
Proof.
  unfold SplitScopes. induction 1 as [|x ids [Hne Hx] Hids IH]; [done|]. destruct ids as [|y ids].
  - cbn [Join]. rewrite <- (str_app_nil_r x) at 1. rewrite fields_word by eauto. cbn. unfold flush. by rewrite decide_False.
  - rewrite Join_cons by done. rewrite fields_word by eauto. change ("" +:+ x) with x. cbn [fields_from].
    change (leading_space (String space (Join (y :: ids) space))) with (leading_space (" " +:+ Join (y :: ids) space)).
    assert (leading_space (" " +:+ Join (y :: ids) space) = Some 1%nat) as ->.
    { generalize (Join (y :: ids) space). intros r. unfold leading_space. cbn. destruct r; reflexivity. }
    cbn [pred]. unfold flush. rewrite decide_False by done. cbn [app]. by rewrite IH.
Qed.

(** ** What is granted and what is missing *)

Definition applies (jsctx : js_context) (s : Scope) : Prop :=
  match sc_If s with None => True | Some js => jsctx js = Some true end.

(** The scope as [effective_scopes] keeps it. *)
Definition resolve_scope (jsctx : js_context) (s : Scope) : option Scope :=
  match sc_Required s with
  | Some (mkScopeRequired _ (Some _)) =>
      required ← Scope_IsRequired jsctx s; Some (set_Required (Some (NewScopeRequiredBool required)) s)
  | _ => Some s
  end.

Lemma effective_scopes_resolve jsctx declared eff d : effective_scopes jsctx declared = Some eff →
  d ∈ declared → applies jsctx d → ∃ s, resolve_scope jsctx d = Some s.
Proof.
  revert eff. induction declared as [|e declared IH]; intros eff Heff Hd Ha; [set_solver|].
  cbn [effective_scopes] in Heff. fold (resolve_scope jsctx e) in Heff. apply elem_of_cons in Hd as [->|Hd].
  - unfold applies in Ha. destruct (sc_If e) as [js|]; [rewrite Ha in Heff|]; cbn in Heff;
      (destruct (resolve_scope jsctx e) as [s|]; [eauto|done]).
  - destruct (match sc_If e with None => Some true | Some js => jsctx js end) as [[]|]; [| |done]; cbn in Heff; [|eauto].
    destruct (resolve_scope jsctx e); [|done]. cbn in Heff. destruct (effective_scopes jsctx declared); [|done]. eauto.
Qed.

Lemma effective_scopes_spec jsctx declared eff : effective_scopes jsctx declared = Some eff →
  ∀ s', s' ∈ eff ↔ ∃ s, s ∈ declared ∧ applies jsctx s ∧ resolve_scope jsctx s = Some s'.
Proof.
  revert eff. induction declared as [|d declared IH]; intros eff Heff s'.
  { injection Heff as <-. set_solver. }
  cbn [effective_scopes] in Heff. fold (resolve_scope jsctx d) in Heff.
  destruct (match sc_If d with None => Some true | Some js => jsctx js end) as [b|] eqn:Hif; [|done]. cbn in Heff.
  assert (applies jsctx d ↔ b = true) as Hap.
  { unfold applies. destruct (sc_If d); [by rewrite Hif; split; [intros [= ->]|intros ->]|]. by injection Hif as <-. }
  destruct b; cbn in Heff.
  - destruct (resolve_scope jsctx d) as [d'|] eqn:Hd; [|done]. cbn in Heff.
    destruct (effective_scopes jsctx declared) as [rest|] eqn:Hr; [|done]. cbn in Heff. injection Heff as <-.
    rewrite elem_of_cons, (IH rest eq_refl). split.
    + intros [->|(s & Hs & H)]; [exists d|exists s]; set_solver.
    + intros (s & Hs & Ha & Hres). apply elem_of_cons in Hs as [->|Hs]; [left; congruence|eauto 6].
  - rewrite (IH eff Heff). split; intros (s & Hs & Ha & Hres); exists s; [set_solver|].
    apply elem_of_cons in Hs as [->|Hs]; [|eauto]. by apply Hap in Ha.
Qed.

(** A scope whose [required] is decided, whatever the context. *)
Definition decided (s : Scope) (b : bool) : Prop := ∀ jsctx, Scope_IsRequired jsctx s = Some b.

Lemma missing_scopes_spec jsctx granted scopes : (∀ s, s ∈ scopes → ∃ b, decided s b) →
  ∃ req opt, missing_scopes jsctx granted scopes = Some (req, opt) ∧
    (∀ x, x ∈ req ↔ x ∉ granted ∧ ∃ s, s ∈ scopes ∧ sc_Id s = x ∧ decided s true) ∧
    (∀ x, x ∈ opt ↔ x ∉ granted ∧ ∃ s, s ∈ scopes ∧ sc_Id s = x ∧ decided s false).
Proof.
  induction scopes as [|s scopes IH]; intros Hdec; [exists [], []; set_solver|]. cbn [missing_scopes].
  destruct IH as (req & opt & Hm & Hreq & Hopt); [set_solver|].
  destruct (Hdec s) as [b Hb]; [set_solver|].
  assert (¬ decided s (negb b)) as Hnb by (intros H; specialize (H jsctx); specialize (Hb jsctx); destruct b; naive_solver).
  destruct (decide (sc_Id s ∈ granted)) as [Hg|Hg].
  - exists req, opt. split; [done|]. split; intros x; rewrite ?Hreq, ?Hopt; set_solver.
  - rewrite (Hb jsctx), Hm. cbn. destruct b; eexists _, _; (split; [reflexivity|]); split; intros x;
      rewrite ?elem_of_cons, ?Hreq, ?Hopt; set_solver.
Qed.

Section mismatch.
Context {ext : External}.

Lemma resolve_scope_decided jsctx s s' : scope_ok s → resolve_scope jsctx s = Some s' →
  sc_Id s' = sc_Id s ∧ ∃ b, Scope_IsRequired jsctx s = Some b ∧ decided s' b.
Proof.
  intros [_ Hr] Hres. unfold resolve_scope, decided, Scope_IsRequired in *.
  destruct (sc_Required s) as [[[b|] [js|]]|] eqn:Heq; cbn in *.
  - destruct Hr as [[_ ?]|[? _]]; done.
  - injection Hres as <-. rewrite Heq. eauto.
  - destruct (jsctx js) as [b|] eqn:Hjs; [|done]. cbn in Hres. injection Hres as <-. cbn. eauto.
  - destruct Hr as [[[] _]|[_ (? & ? & _)]]; done.
  - injection Hres as <-. rewrite Heq. eauto.
Qed.

(** The scopes that apply, by id. *)
Definition applying (jsctx : js_context) (declared : list Scope) (x : string) : Prop :=
  ∃ s, s ∈ declared ∧ sc_Id s = x ∧ applies jsctx s.

Definition applying_required (jsctx : js_context) (declared : list Scope) (b : bool) (x : string) : Prop :=
  ∃ s, s ∈ declared ∧ sc_Id s = x ∧ applies jsctx s ∧ Scope_IsRequired jsctx s = Some b.

Lemma mismatch_members jsctx empty declared eff granted :
  Forall scope_ok declared → effective_scopes jsctx declared = Some eff →
  ∃ out, detectScopeMismatch empty eff granted = Some out ∧
    (∀ x, x ∈ missingRequired out ↔ x ∉ SplitScopes granted ∧ applying_required jsctx declared true x) ∧
    (∀ x, x ∈ missingOptional out ↔ x ∉ SplitScopes granted ∧ applying_required jsctx declared false x) ∧
    (∀ x, x ∈ extraGranted out ↔ x ∈ SplitScopes granted ∧ ¬ applying jsctx declared x) ∧
    (∀ x, x ∈ map sc_Id eff ↔ applying jsctx declared x) ∧
    StronglySorted (cmp_le str_cmp) (missingRequired out) ∧ StronglySorted (cmp_le str_cmp) (missingOptional out) ∧
    StronglySorted (cmp_le str_cmp) (extraGranted out).
Proof.
  unfold applying_required, applying. intros Hok Heff. rewrite Forall_forall in Hok. pose proof (effective_scopes_spec _ _ _ Heff) as Hspec.
  assert (∀ s b, s ∈ eff ∧ decided s b → ∃ d, d ∈ declared ∧ sc_Id d = sc_Id s ∧ applies jsctx d ∧ Scope_IsRequired jsctx d = Some b) as Hdown.
  { intros s b [Hs Hb]. apply Hspec in Hs as (d & Hd & Ha & Hres). destruct (resolve_scope_decided _ _ _ (Hok d Hd) Hres) as (Hid & b' & Hr & Hb').
    specialize (Hb jsctx). specialize (Hb' jsctx). exists d. naive_solver congruence. }
  assert (∀ d b, d ∈ declared → applies jsctx d → Scope_IsRequired jsctx d = Some b → ∃ s, s ∈ eff ∧ sc_Id s = sc_Id d ∧ decided s b) as Hup.
  { intros d b Hd Ha Hr. destruct (resolve_scope jsctx d) as [s|] eqn:Hres.
    - destruct (resolve_scope_decided _ _ _ (Hok d Hd) Hres) as (Hid & b' & Hr' & Hb'). exists s. split; [apply Hspec; eauto|]. naive_solver congruence.
    - unfold resolve_scope in Hres. destruct (sc_Required d) as [[? [js|]]|]; [|done..]. by rewrite Hr in Hres. }
  destruct (missing_scopes_spec empty (scopeSet granted) eff) as (req & opt & Hm & Hreq & Hopt).
  { intros s Hs. pose proof Hs as (d & Hd & Ha & Hres)%Hspec. destruct (resolve_scope_decided _ _ _ (Hok d Hd) Hres) as (_ & b & _ & Hb). eauto. }
  unfold detectScopeMismatch. rewrite Hm. cbn. eexists. split; [reflexivity|]. cbn [missingRequired missingOptional extraGranted].
  assert (∀ x, x ∈ scopeSet granted ↔ x ∈ SplitScopes granted) as Hset by (intros; apply elem_of_list_to_set).
  assert (∀ x, x ∈ map sc_Id eff ↔ ∃ s, s ∈ declared ∧ sc_Id s = x ∧ applies jsctx s) as Hids.
  { intros x. rewrite list_elem_of_fmap. split.
    - intros (s & -> & Hs). pose proof Hs as (d & Hd & Ha & Hres)%Hspec. destruct (resolve_scope_decided _ _ _ (Hok d Hd) Hres) as [Hid _]. eauto.
    - intros (d & Hd & <- & Ha). destruct (effective_scopes_resolve _ _ _ d Heff Hd Ha) as [s Hres].
      destruct (resolve_scope_decided _ _ _ (Hok d Hd) Hres) as [Hid _]. exists s. split; [done|]. apply Hspec. eauto. }
  assert (∀ (l : list string) x, x ∈ sort_strings l ↔ x ∈ l) as Hsort by (intros; by rewrite sort_strings_perm).
  split_and!; try apply sort_strings_sorted.
  - intros x. rewrite Hsort, Hreq, Hset. split; (intros [? (s & Hs & <- & H)]; split; [done|]); [|destruct H as [Ha H]];
      [destruct (Hdown s true) as (d & ?)|destruct (Hup s true) as (s' & ?)]; naive_solver.
  - intros x. rewrite Hsort, Hopt, Hset. split; (intros [? (s & Hs & <- & H)]; split; [done|]); [|destruct H as [Ha H]];
      [destruct (Hdown s false) as (d & ?)|destruct (Hup s false) as (s' & ?)]; naive_solver.
  - intros x. by rewrite Hsort, elem_of_elements, elem_of_difference, elem_of_list_to_set, Hset, Hids.
  - exact Hids.
Qed.

(** The comparison of declared and granted scopes is exact.  For scopes
    the validator accepted, when their predicates evaluate, the comparison
    succeeds, and reports the scopes that apply to the connection and were not
    granted, required and optional ones apart, and the granted ones that do
    not apply, each list sorted.  The tokens are refused exactly when a
    required scope that applies is not among the words the provider granted.
    A provider that repeats the request (or says nothing, when the request is
    taken for the answer) gets no complaint, as long as scopes are words. *)
Theorem scope_mismatch_exact jsctx empty declared eff granted :
  Forall scope_ok declared → effective_scopes jsctx declared = Some eff →
  ∃ out, detectScopeMismatch empty eff granted = Some out ∧
    (∀ x, x ∈ missingRequired out ↔ x ∉ SplitScopes granted ∧ applying_required jsctx declared true x) ∧
    (∀ x, x ∈ missingOptional out ↔ x ∉ SplitScopes granted ∧ applying_required jsctx declared false x) ∧
    (∀ x, x ∈ extraGranted out ↔ x ∈ SplitScopes granted ∧ ¬ applying jsctx declared x) ∧
    StronglySorted (cmp_le str_cmp) (missingRequired out) ∧ StronglySorted (cmp_le str_cmp) (missingOptional out) ∧
    StronglySorted (cmp_le str_cmp) (extraGranted out) ∧
    (applyScopeMismatch out = None ↔ ∀ x, applying_required jsctx declared true x → x ∈ SplitScopes granted) ∧
    (granted = JoinScopes eff → Forall (λ s, plain_scope (sc_Id s)) eff → out = mkMismatch [] [] []).
Proof.
  intros Hok Heff. destruct (mismatch_members jsctx empty declared eff granted Hok Heff) as (out & Hd & Hr & Ho & He & Hids & Hsorted).
  exists out. split; [exact Hd|]. split; [exact Hr|]. split; [exact Ho|]. split; [exact He|]. destruct Hsorted as (? & ? & ?).
  split_and!; [done..| |].
  - unfold applyScopeMismatch. destruct (decide (missingRequired out = [])) as [Hnil|Hnil].
    + split; [|done]. intros _ x Hx. destruct (decide (x ∈ SplitScopes granted)) as [|Hn]; [done|]. exfalso.
      assert (x ∈ missingRequired out) as Hin by (apply Hr; done). rewrite Hnil in Hin. set_solver.
    + split; [done|]. intros H'. destruct Hnil. apply elem_of_nil_inv. intros x Hx. apply Hr in Hx as [Hx1 Hx2]. by apply Hx1, H'.
  - intros -> Hplain. unfold JoinScopes in *. rewrite SplitScopes_Join in Hr, Ho, He by (by apply Forall_fmap).
    destruct out as [r o e]. cbn in Hr, Ho, He. f_equal; apply elem_of_nil_inv; intros x; rewrite ?Hr, ?Ho, ?He, Hids;
      unfold applying, applying_required; naive_solver.
Qed.
End mismatch.

(** ** The attempts of a retry loop *)

Section retry_trace.
Context {St T E : Type}.
Context (ctx_err : St → option E * St) (op : St → (option T * option E) * St) (wait : Z → St → option E * St).

(** A log of the outcomes of the operation, latest last, which nothing else
    writes. *)
Context (log : St → list (option T * option E)).
Hypothesis log_ctx : ∀ s, log (ctx_err s).2 = log s.
Hypothesis log_op : ∀ s, log (op s).2 = log s ++ [(op s).1].
Hypothesis log_wait : ∀ w s, log (wait w s).2 = log s.

(** The attempts that were made: at most the budget, every one but the last
    classified as worth a retry, the last one answering unless the context
    ended. *)
Definition attempts_of (opts : Options T E) (budget : nat) (outs : list (option T * option E)) (r : Result T E) : Prop :=
  (length outs ≤ budget)%nat ∧
  (∀ l out, outs = l ++ [out] → Forall (λ o, Classify opts o.1 o.2 = true) l) ∧
  ((∃ l, outs = l ++ [(r_Value r, r_Err r)]) ∨ (∃ e, r_Err r = Some e ∧ Forall (λ o, Classify opts o.1 o.2 = true) outs)).

Lemma do_attempts_log opts retries : ∀ attempt lastVal s,
  let '(r, s') := do_attempts ctx_err op wait opts retries attempt lastVal s in
  ∃ outs, log s' = log s ++ outs ∧ attempts_of opts (S retries) outs r ∧
    r_Attempts r = (Z.of_nat attempt - 1 + Z.of_nat (length outs))%Z.
Proof.
  induction retries as [|retries IH]; intros attempt lastVal s.
  all: cbn [do_attempts]; pose proof (log_ctx s) as Hc; destruct (ctx_err s) as [[e|] s1]; cbn in Hc.
  1, 3: exists []; rewrite app_nil_r; split; [done|]; split; [|cbn; lia]; split; [cbn; lia|]; split;
    [intros l out H; by destruct l|right; exists e; by rewrite Forall_nil].
  all: pose proof (log_op s1) as Ho; destruct (op s1) as [[val err] s2]; cbn in Ho; rewrite Hc in Ho.
  all: assert (attempts_of opts 1 [(val, err)] (mkResult val (Z.of_nat attempt) err)) as Hone by
    (split; [cbn; lia|]; split; [intros l out H; destruct l as [|x [|]]; [done|done|done]|left; by exists []]).
  all: assert (∀ n, (1 ≤ n)%nat → attempts_of opts n [(val, err)] (mkResult val (Z.of_nat attempt) err)) as Hn by
    (intros n Hn'; destruct Hone as (? & ? & ?); split; [cbn; lia|done]).
  all: destruct (Classify opts val err) eqn:Hcl; cbn [negb];
    [|exists [(val, err)]; split; [done|]; split; [apply Hn; lia|cbn; lia]].
  { exists [(val, err)]. split; [done|]. split; [apply Hn; lia|cbn; lia]. }
  destruct (Backoff opts attempt) as [w|]; [|exists [(val, err)]; split; [done|]; split; [apply Hn; lia|cbn; lia]].
  set (w' := match OnRetryWait opts with Some f => _ | None => w end). clearbody w'.
  pose proof (log_wait w' s2) as Hw. destruct (wait w' s2) as [[e|] s3]; cbn in Hw; rewrite Ho in Hw.
  { exists [(val, err)]. split; [done|]. split; [|cbn; lia]. split; [cbn; lia|]. split; [intros l out H; destruct l as [|x [|]]; done|].
    right. exists e. split; [done|]. by constructor. }
  specialize (IH (S attempt) val s3). destruct (do_attempts _ _ _ opts retries (S attempt) val s3) as [r s4].
  destruct IH as (outs & Hlog & (Hlen & Hall & Hlast) & Hatt). exists ((val, err) :: outs). split; [|split].
  - by rewrite Hlog, Hw, <- app_assoc.
  - split; [cbn; lia|]. split.
    + intros l out Heq. destruct l as [|x l]; [constructor|]. injection Heq as <- Heq. constructor; [done|]. by eapply Hall.
    + destruct Hlast as [[l ->]|(e & He & Hf)]; [left; by exists ((val, err) :: l)|right]. exists e. split; [done|]. by constructor.
  - rewrite Hatt. cbn [length]. lia.
Qed.

Lemma retry_Do_log opts s :
  let '(r, s') := retry_Do ctx_err op wait opts s in
  ∃ outs, log s' = log s ++ outs ∧ attempts_of opts (Z.to_nat (Z.max 1 (MaxAttempts opts))) outs r ∧
    r_Attempts r = Z.of_nat (length outs).
Proof.
  unfold retry_Do. pose proof (do_attempts_log opts (Z.to_nat (Z.max 1 (MaxAttempts opts)) - 1) 1 None s) as H.
  destruct (do_attempts _ _ _ opts _ 1 None s) as [r s']. destruct H as (outs & Hlog & Hof & Hatt).
  exists outs. split; [done|]. split; [|lia]. destruct Hof as (Hlen & ? & ?). split; [lia|done].
Qed.
End retry_trace.

(** ** Return URLs stay on the public origin *)

Section return_origin.
Context {U : UrlLib} (baseUrl : string).

(** The address is that of a URL of the public origin, without credentials:
    the requested one, or the fallback. *)
Lemma safeReturnToUrl_origin raw public : url_Parse baseUrl = Some public →
  safeReturnToUrl baseUrl raw = defaultReturnToUrl baseUrl ∨
  ∃ u, url_Parse raw = Some u ∧ safeReturnToUrl baseUrl raw = url_String u ∧ sameOrigin public u = true ∧
    u_HasUser u = false ∧ isAllowedReturnScheme (u_Scheme u) = true ∧ u_Host u ≠ "".
Proof.
  intros Hb. unfold safeReturnToUrl. destruct (url_Parse raw) as [u|]; [|by left].
  destruct (bool_decide (u_Scheme u = "") || bool_decide (u_Host u = "")) eqn:H1; [by left|].
  destruct (u_HasUser u || negb (isAllowedReturnScheme (u_Scheme u))) eqn:H2; [by left|]. rewrite Hb.
  destruct (sameOrigin public u) eqn:H3; [right|by left]. exists u. cbn [negb].
  apply orb_false_iff in H1 as [_ H1%bool_decide_eq_false], H2 as [H2 H4%negb_false_iff]. done.
Qed.
End return_origin.
