(* ===== verification/CredentialStore.v ===== *)
(** * The credentials of connections

    [database/oauth2_token.go] and [database/api_key_credential.go]: the tokens
    and the keys or client credentials that connections use.  Both tables keep
    the history of a connection: inserting a row soft-deletes the live one in
    the same transaction.  They are shown to refine a map from connections to
    the row in use. *)

From S2P Require Import Prelude GoStrings Paging Actors KeyMaterial.
Open Scope string_scope.
Open Scope list_scope.

(** ** Rows that replace one another *)

(** What the two tables have in common: an id, the connection a row belongs
    to, and when it was made and deleted. *)
Class CredentialRow (R : Type) := {
  row_Id : R → string;
  row_ConnectionId : R → string;
  row_CreatedAt : R → Z;
  row_DeletedAt : R → option Z;
  row_set_DeletedAt : Z → R → R
}.

Class CredentialRowLaws (R : Type) `{CredentialRow R} : Prop := {
  row_Id_delete t r : row_Id (row_set_DeletedAt t r) = row_Id r;
  row_ConnectionId_delete t r : row_ConnectionId (row_set_DeletedAt t r) = row_ConnectionId r;
  row_DeletedAt_delete t r : row_DeletedAt (row_set_DeletedAt t r) = Some t
}.

Inductive store_error : Type := StoreNotFound | StoreViolation | StoreInvalid | StoreDuplicateId.

Section rows.
Context {R} `{CredentialRow R}.

(** The rows in the order of insertion. *)
Definition table := list R.

(** [WHERE connection_id = ... AND deleted_at IS NULL]. *)
Definition live_of (connectionId : string) (r : R) : Prop := row_ConnectionId r = connectionId ∧ row_DeletedAt r = None.

#[global] Instance live_of_dec c r : Decision (live_of c r).
Proof. unfold live_of. apply _. Defined.

(** [UPDATE ... SET deleted_at = now WHERE ...]. *)
Definition soft_delete (P : R → Prop) `{∀ r, Decision (P r)} (now : Z) (tab : table) : table :=
  map (λ r, if decide (P r) then row_set_DeletedAt now r else r) tab.

(** [ORDER BY created_at DESC LIMIT 1]; between rows of the same time the
    database may choose. *)
Definition newest_first (a b : R) : Z := (row_CreatedAt b - row_CreatedAt a)%Z.

Definition get_live (connectionId : string) (tab : table) : option R :=
  head (SortFunc newest_first (filter (live_of connectionId) tab)).

(** The transaction of an insert: the live rows of the connection are deleted,
    then the new row is validated and inserted; an error undoes both.  The
    commit itself may fail too, which [transaction] (database/util.go) does not
    report: the sequences of [cred_op] below have inserts that are lost so. *)
Definition insert_row (now : Z) (valid : bool) (new : R) (tab : table) : result store_error R * table :=
  let tab' := soft_delete (live_of (row_ConnectionId new)) now tab in
  if negb valid then (Err StoreInvalid, tab)
  else if decide (row_Id new ∈ map row_Id tab') then (Err StoreDuplicateId, tab)
  else (Ok new, tab' ++ [new]).
End rows.
Arguments table : clear implicits.

(** ** OAuth2 tokens *)

Definition PrefixOAuth2Token : string := "tok_".
Definition PrefixConnection : string := "cxn_".

(** Times are in nanoseconds. *)
Definition OAuth2AccessTokenExpiryBuffer : Z := 30 * 1000000000.

Record OAuth2Token := mkOAuth2Token {
  t_Id : string;
  t_ConnectionId : string;
  t_RefreshedFromId : option string;
  t_EncryptedRefreshToken : EncryptedField;
  t_EncryptedAccessToken : EncryptedField;
  t_AccessTokenExpiresAt : option Z;
  t_Scopes : string;
  t_RequestedScopes : string;
  t_CreatedByActorId : option string;
  t_CreatedAt : Z;
  t_EncryptedAt : option Z;
  t_DeletedAt : option Z
}.

#[export] Instance token_row : CredentialRow OAuth2Token := {
  row_Id := t_Id;
  row_ConnectionId := t_ConnectionId;
  row_CreatedAt := t_CreatedAt;
  row_DeletedAt := t_DeletedAt;
  row_set_DeletedAt now t :=
    mkOAuth2Token (t_Id t) (t_ConnectionId t) (t_RefreshedFromId t) (t_EncryptedRefreshToken t) (t_EncryptedAccessToken t)
      (t_AccessTokenExpiresAt t) (t_Scopes t) (t_RequestedScopes t) (t_CreatedByActorId t) (t_CreatedAt t) (t_EncryptedAt t) (Some now)
}.

#[export] Instance token_row_laws : CredentialRowLaws OAuth2Token.
Proof. by split. Qed.

(** The 30 seconds count as expired. *)
Definition IsAccessTokenExpired (now : Z) (t : OAuth2Token) : bool :=
  match t_AccessTokenExpiresAt t with
  | None => false
  | Some e => negb (now + OAuth2AccessTokenExpiryBuffer <? e)%Z
  end.

Definition prefix_ok (id expected : string) : bool := bool_decide (ID_ValidatePrefix id expected = None).
Definition opt_prefix_ok (id : option string) (expected : string) : bool :=
  match id with None => true | Some id => prefix_ok id expected end.

Definition OAuth2Token_Validate (t : OAuth2Token) : bool :=
  bool_decide (t_Id t ≠ "") && prefix_ok (t_Id t) PrefixOAuth2Token &&
  bool_decide (t_ConnectionId t ≠ "") && prefix_ok (t_ConnectionId t) PrefixConnection &&
  opt_prefix_ok (t_RefreshedFromId t) PrefixOAuth2Token && opt_prefix_ok (t_CreatedByActorId t) PrefixActor.

Abbreviation tokens := (table OAuth2Token).

Definition GetOAuth2Token (connectionId : string) (tab : tokens) : result store_error OAuth2Token :=
  match get_live connectionId tab with None => Err StoreNotFound | Some t => Ok t end.

Definition DeleteOAuth2Token (now : Z) (tokenId : string) (tab : tokens) : option store_error * tokens :=
  let tab' := soft_delete (λ t, t_Id t = tokenId) now tab in
  let affected := length (filter (λ t, t_Id t = tokenId) tab) in
  (if (affected =? 0)%nat then Some StoreNotFound else if (1 <? affected)%nat then Some StoreViolation else None, tab').

Definition DeleteAllOAuth2TokensForConnection (now : Z) (connectionId : string) (tab : tokens) : tokens :=
  soft_delete (λ t, t_ConnectionId t = connectionId) now tab.

(** [newId] is what the id generator returns. *)
Definition InsertOAuth2Token (now : Z) (newId connectionId : string) (refreshedFrom : option string)
    (encryptedRefreshToken encryptedAccessToken : EncryptedField) (accessTokenExpiresAt : option Z)
    (scopes requestedScopes : string) (createdByActorId : option string) (tab : tokens) : result store_error OAuth2Token * tokens :=
  let newToken := mkOAuth2Token newId connectionId refreshedFrom encryptedRefreshToken encryptedAccessToken
                    accessTokenExpiresAt scopes requestedScopes createdByActorId now None None in
  insert_row now (OAuth2Token_Validate newToken) newToken tab.

(** The join of the tokens with the live, configured connections of their ids,
    by the time of creation. *)
Definition expires_by (threshold : Z) (t : OAuth2Token) : bool :=
  match t_AccessTokenExpiresAt t with Some e => (e <=? threshold)%Z | None => false end.

Definition expiring (configured : string → bool) (threshold : Z) (tab : tokens) : list OAuth2Token :=
  SortFunc newest_first
    (filter (λ t, t_DeletedAt t = None ∧ configured (t_ConnectionId t) = true ∧ expires_by threshold t = true) tab).

Definition expiringPageSize : nat := 100.

(** Pages of 100 by offset; the callback that is passed stops only with an
    error. *)
Definition EnumerateOAuth2TokensExpiringWithin {St E} (view : St → (string → bool) * tokens) (now duration : Z) (fuel : nat)
    (callback : list OAuth2Token → St → option E * St) (s : St) : option (option E * St) :=
  EnumeratePages (λ s, expiring (view s).1 (now + duration) (view s).2) callback expiringPageSize fuel 0 s.

(** ** API keys and client credentials *)

Definition PrefixApiKeyCredential : string := "akc_".

Record ApiKeyPlacement := mkPlacement {
  pl_Type : string;
  pl_HeaderName : string;
  pl_Prefix : string;
  pl_ParamName : string;
  pl_UsernameField : string
}.

Record ApiKeyCredential := mkApiKeyCredential {
  ak_Id : string;
  ak_ConnectionId : string;
  ak_EncryptedCredentials : EncryptedField;
  ak_PlacementSnapshot : option ApiKeyPlacement;
  ak_CreatedByActorId : option string;
  ak_LastValidatedAt : option Z;
  ak_CreatedAt : Z;
  ak_EncryptedAt : option Z;
  ak_DeletedAt : option Z
}.

#[export] Instance credential_row : CredentialRow ApiKeyCredential := {
  row_Id := ak_Id;
  row_ConnectionId := ak_ConnectionId;
  row_CreatedAt := ak_CreatedAt;
  row_DeletedAt := ak_DeletedAt;
  row_set_DeletedAt now c :=
    mkApiKeyCredential (ak_Id c) (ak_ConnectionId c) (ak_EncryptedCredentials c) (ak_PlacementSnapshot c) (ak_CreatedByActorId c)
      (ak_LastValidatedAt c) (ak_CreatedAt c) (ak_EncryptedAt c) (Some now)
}.

#[export] Instance credential_row_laws : CredentialRowLaws ApiKeyCredential.
Proof. by split. Qed.

Definition ApiKeyCredential_Validate (c : ApiKeyCredential) : bool :=
  bool_decide (ak_Id c ≠ "") && prefix_ok (ak_Id c) PrefixApiKeyCredential &&
  bool_decide (ak_ConnectionId c ≠ "") && prefix_ok (ak_ConnectionId c) PrefixConnection &&
  opt_prefix_ok (ak_CreatedByActorId c) PrefixActor.

Abbreviation credentials := (table ApiKeyCredential).

(** A row read from the database always has a placement: the pointer that is
    scanned into is allocated, and stays empty for a null column. *)
Definition emptyPlacement : ApiKeyPlacement := mkPlacement "" "" "" "" "".

Definition scan_credential (c : ApiKeyCredential) : ApiKeyCredential :=
  mkApiKeyCredential (ak_Id c) (ak_ConnectionId c) (ak_EncryptedCredentials c)
    (Some (default emptyPlacement (ak_PlacementSnapshot c))) (ak_CreatedByActorId c)
    (ak_LastValidatedAt c) (ak_CreatedAt c) (ak_EncryptedAt c) (ak_DeletedAt c).

Definition GetActiveApiKeyCredential (connectionId : string) (tab : credentials) : result store_error ApiKeyCredential :=
  match get_live connectionId tab with None => Err StoreNotFound | Some c => Ok (scan_credential c) end.

Definition InsertApiKeyCredential (now : Z) (newId connectionId : string) (encryptedCredentials : EncryptedField)
    (placement : option ApiKeyPlacement) (createdByActorId : option string) (tab : credentials) :
    result store_error ApiKeyCredential * credentials :=
  let newCred := mkApiKeyCredential newId connectionId encryptedCredentials placement createdByActorId None now None None in
  insert_row now (ApiKeyCredential_Validate newCred) newCred tab.

Definition set_LastValidatedAt (at' : Z) (c : ApiKeyCredential) : ApiKeyCredential :=
  mkApiKeyCredential (ak_Id c) (ak_ConnectionId c) (ak_EncryptedCredentials c) (ak_PlacementSnapshot c) (ak_CreatedByActorId c)
    (Some at') (ak_CreatedAt c) (ak_EncryptedAt c) (ak_DeletedAt c).

Definition UpdateApiKeyCredentialLastValidated (credentialId : string) (at' : Z) (tab : credentials) : option store_error * credentials :=
  let tab' := map (λ c, if decide (ak_Id c = credentialId) then set_LastValidatedAt at' c else c) tab in
  let affected := length (filter (λ c, ak_Id c = credentialId) tab) in
  (if (affected =? 0)%nat then Some StoreNotFound else if (1 <? affected)%nat then Some StoreViolation else None, tab').

Definition DeleteAllApiKeyCredentialsForConnection (now : Z) (connectionId : string) (tab : credentials) : credentials :=
  soft_delete (live_of connectionId) now tab.

(** ** The tables refine maps *)

Section refinement.
Context {R} {CR : CredentialRow R} {CL : CredentialRowLaws R}.
Local Open Scope nat_scope.

(** What can happen to a table: an insert (of a row that is valid or not), the
    deletion of a row, of all rows of a connection, of its live ones. *)
Inductive table_op : Type :=
  | TInsert (now : Z) (valid : bool) (new : R)
  | TDelete (now : Z) (id : string)
  | TDeleteAll (now : Z) (connectionId : string)
  | TDeleteLive (now : Z) (connectionId : string).

Definition run_table_op (o : table_op) (tab : table R) : table R :=
  match o with
  | TInsert now valid new => (insert_row now valid new tab).2
  | TDelete now id => soft_delete (λ r, row_Id r = id) now tab
  | TDeleteAll now c => soft_delete (λ r, row_ConnectionId r = c) now tab
  | TDeleteLive now c => soft_delete (live_of c) now tab
  end.

(** The abstract store: the ids that were used and the row in use of each
    connection. *)
Record current_rows := mkCurrent { cur_ids : gset string; cur_row : gmap string R }.

Definition accepts (s : current_rows) (valid : bool) (new : R) : bool := valid && bool_decide (row_Id new ∉ cur_ids s).

Definition run_current (o : table_op) (s : current_rows) : current_rows :=
  match o with
  | TInsert now valid new =>
      if accepts s valid new then mkCurrent ({[row_Id new]} ∪ cur_ids s) (<[row_ConnectionId new := new]> (cur_row s)) else s
  | TDelete _ id => mkCurrent (cur_ids s) (filter (λ p, row_Id p.2 ≠ id) (cur_row s))
  | TDeleteAll _ c | TDeleteLive _ c => mkCurrent (cur_ids s) (delete c (cur_row s))
  end.

(** New rows are live. *)
Definition fresh_op (o : table_op) : Prop := match o with TInsert _ _ new => row_DeletedAt new = None | _ => True end.

Record table_refines (tab : table R) (s : current_rows) : Prop := {
  ref_nodup : NoDup (map row_Id tab);
  ref_ids : cur_ids s = list_to_set (map row_Id tab);
  ref_live c r : cur_row s !! c = Some r ↔ r ∈ tab ∧ live_of c r
}.

Lemma soft_delete_ids P `{∀ r, Decision (P r)} now (tab : table R) : map row_Id (soft_delete P now tab) = map row_Id tab.
Proof.
  unfold soft_delete. rewrite map_map. apply map_ext. intros r. destruct (decide (P r)); [|done]. apply row_Id_delete.
Qed.

Lemma soft_delete_live P `{∀ r, Decision (P r)} now c r (tab : table R) :
  r ∈ soft_delete P now tab ∧ live_of c r ↔ r ∈ tab ∧ live_of c r ∧ ¬ P r.
Proof.
  unfold soft_delete. rewrite list_elem_of_fmap. split.
  - intros [(r0 & -> & Hr0) Hl]. destruct (decide (P r0)); [|done]. destruct Hl as [_ Hl]. by rewrite row_DeletedAt_delete in Hl.
  - intros (Hr & Hl & Hn). split; [|done]. exists r. by rewrite decide_False.
Qed.

Lemma refines_unique tab s c r r' : table_refines tab s → r ∈ tab → r' ∈ tab → live_of c r → live_of c r' → r = r'.
Proof.
  intros Hs Hr Hr' Hl Hl'. assert (cur_row s !! c = Some r) as H1 by (by apply Hs).
  assert (cur_row s !! c = Some r') as H2 by (by apply Hs). congruence.
Qed.

Lemma refines_soft_delete P `{∀ r, Decision (P r)} now tab s cur : table_refines tab s →
  (∀ c r, cur !! c = Some r ↔ cur_row s !! c = Some r ∧ ¬ P r) →
  table_refines (soft_delete P now tab) (mkCurrent (cur_ids s) cur).
Proof.
  intros Hs Hcur. split; cbn [cur_ids cur_row].
  - rewrite soft_delete_ids. apply Hs.
  - rewrite soft_delete_ids. apply Hs.
  - intros c r. rewrite Hcur, soft_delete_live, (ref_live _ _ Hs). tauto.
Qed.

Lemma refines_step o tab s : fresh_op o → table_refines tab s → table_refines (run_table_op o tab) (run_current o s).
Proof.
  intros Hf Hs. destruct o as [now valid new|now id|now c|now c]; cbn [run_table_op run_current].
  - unfold insert_row, accepts. rewrite soft_delete_ids.
    assert (row_Id new ∈ cur_ids s ↔ row_Id new ∈ map row_Id tab) as Hid by (rewrite (ref_ids _ _ Hs); apply elem_of_list_to_set).
    destruct valid; cbn [negb andb]; [|done]. destruct (decide (row_Id new ∈ map row_Id tab)) as [Hin|Hin].
    { rewrite bool_decide_false by tauto. done. }
    rewrite bool_decide_true by tauto. cbn in Hf. split; cbn [snd cur_ids cur_row].
    + rewrite map_app, soft_delete_ids. apply NoDup_app. split; [apply Hs|]. split; [set_solver|]. cbn. apply NoDup_singleton.
    + rewrite map_app, soft_delete_ids, (ref_ids _ _ Hs), list_to_set_app_L. cbn. set_solver.
    + intros c r. rewrite elem_of_app, list_elem_of_singleton, lookup_insert_Some, (ref_live _ _ Hs).
      pose proof (soft_delete_live (live_of (row_ConnectionId new)) now c r tab) as Hl. unfold live_of in *. naive_solver.
  - apply refines_soft_delete; [done|]. intros c r. rewrite map_lookup_filter_Some. done.
  - apply refines_soft_delete; [done|]. intros c' r. rewrite lookup_delete_Some, (ref_live _ _ Hs). unfold live_of. naive_solver.
  - apply refines_soft_delete; [done|]. intros c' r. rewrite lookup_delete_Some, (ref_live _ _ Hs). unfold live_of. naive_solver.
Qed.

Lemma refines_get tab s c : table_refines tab s → get_live c tab = cur_row s !! c.
Proof.
  intros Hs. unfold get_live. destruct (cur_row s !! c) as [r|] eqn:Hr.
  - assert (filter (live_of c) tab = [r]) as ->; [|done].
    assert (r ∈ tab ∧ live_of c r) as [Hin Hl] by (by apply Hs). apply Permutation_singleton_r, NoDup_Permutation.
    + apply NoDup_filter. eapply NoDup_fmap_1, Hs.
    + apply NoDup_singleton.
    + intros r'. rewrite list_elem_of_filter, list_elem_of_singleton. split; [|by intros ->]. intros [Hl' Hin']. by eapply refines_unique.
  - assert (filter (live_of c) tab = []) as ->; [|done]. apply elem_of_nil_inv. intros r. rewrite list_elem_of_filter. intros [Hl Hin].
    assert (cur_row s !! c = Some r) as H' by (by apply Hs). congruence.
Qed.

(** The row that was inserted is the one in use; the table stays in order. *)
Definition table_ok (tab : table R) : Prop := ∃ s, table_refines tab s.

Lemma insert_row_live tab now valid new r tab' : table_ok tab → row_DeletedAt new = None → insert_row now valid new tab = (Ok r, tab') →
  r = new ∧ table_ok tab' ∧ ∀ c, get_live c tab' = if decide (c = row_ConnectionId new) then Some new else get_live c tab.
Proof.
  intros [s Hs] Hlive Hi. pose proof (refines_step (TInsert now valid new) tab s Hlive Hs) as Hs'. cbn [run_table_op run_current] in Hs'.
  rewrite Hi in Hs'. cbn [snd] in Hs'. assert (accepts s valid new = true) as Ha.
  { unfold insert_row, accepts in *. rewrite soft_delete_ids in Hi. rewrite (ref_ids _ _ Hs). destruct valid; [|done]. cbn in *.
    destruct (decide _) as [|Hn]; [done|]. apply bool_decide_eq_true. by rewrite elem_of_list_to_set. }
  rewrite Ha in Hs'. split.
  { unfold insert_row in Hi. destruct valid; [|done]. cbn in Hi. destruct (decide _); [done|]. by injection Hi. }
  split; [by eexists|]. intros c. rewrite (refines_get _ _ c Hs'), (refines_get _ _ c Hs). cbn [cur_row].
  case_decide as Hc; [by rewrite Hc, lookup_insert_eq|by rewrite lookup_insert_ne].
Qed.

Lemma insert_row_err tab now valid new e tab' : insert_row now valid new tab = (Err e, tab') → tab' = tab.
Proof. unfold insert_row. destruct valid; cbn; [|by intros [= _ <-]]. destruct (decide _); [by intros [= _ <-]|done]. Qed.

Lemma refines_nil : table_refines ([] : table R) (mkCurrent ∅ ∅).
Proof. split; [constructor|done|]. intros c r. cbn [cur_row]. rewrite lookup_empty. split; [done|]. intros [Hin _]. set_solver. Qed.

Lemma table_ok_single (new : R) : row_DeletedAt new = None → table_ok [new].
Proof.
  intros Hlive. destruct (insert_row_live [] 0%Z true new new [new]) as (_ & Hok & _); [eexists; apply refines_nil|done| |done].
  unfold insert_row. cbn [negb soft_delete map]. rewrite decide_False; [done|]. apply not_elem_of_nil.
Qed.

Lemma insert_row_result tab s now valid new : table_refines tab s →
  (insert_row now valid new tab).1 = if negb valid then Err StoreInvalid else if decide (row_Id new ∈ cur_ids s) then Err StoreDuplicateId else Ok new.
Proof.
  intros Hs. unfold insert_row. rewrite soft_delete_ids, (ref_ids _ _ Hs). destruct valid; [|done]. cbn [negb].
  destruct (decide (row_Id new ∈ map row_Id tab)) as [Hin|Hin]; [rewrite decide_True|rewrite decide_False]; rewrite ?elem_of_list_to_set; done.
Qed.

(** An id names at most one row. *)
Lemma affected_ids tab s id : table_refines tab s →
  length (filter (λ r, row_Id r = id) tab) = if decide (id ∈ cur_ids s) then 1 else 0.
Proof.
  intros Hs. rewrite (ref_ids _ _ Hs). pose proof (ref_nodup _ _ Hs) as Hnd. clear Hs. induction tab as [|x tab IH]; [done|].
  cbn [map] in Hnd. apply NoDup_cons in Hnd as [Hx Hnd]. specialize (IH Hnd). rewrite filter_cons. cbn [map list_to_set].
  assert (row_Id x = id → id ∉ map row_Id tab) as Hno by (by intros <-).
  destruct (decide (row_Id x = id)) as [Heq|Hne]; cbn [length].
  - rewrite decide_True by set_solver. f_equal. etrans; [exact IH|]. rewrite decide_False; [done|]. rewrite elem_of_list_to_set. by apply Hno.
  - etrans; [exact IH|]. destruct (decide (id ∈ list_to_set (map row_Id tab))) as [Hin|Hin]; [rewrite decide_True|rewrite decide_False]; [done|set_solver|done|set_solver].
Qed.

(** Rows that are changed in place. *)
Lemma refines_update (f : R → R) tab s : (∀ r, row_Id (f r) = row_Id r ∧ row_ConnectionId (f r) = row_ConnectionId r ∧ row_DeletedAt (f r) = row_DeletedAt r) →
  table_refines tab s → table_refines (map f tab) (mkCurrent (cur_ids s) (f <$> cur_row s)).
Proof.
  intros Hf Hs. assert (map row_Id (map f tab) = map row_Id tab) as Hids by (rewrite map_map; apply map_ext; intros r; apply Hf).
  split; cbn [cur_ids cur_row]; [rewrite Hids; apply Hs|rewrite Hids; apply Hs|]. intros c r. rewrite lookup_fmap, fmap_Some, list_elem_of_fmap. split.
  - intros (r0 & [Hin Hl]%(ref_live _ _ Hs) & ->). destruct (Hf r0) as (_ & Hc & Hd). split; [by exists r0|]. unfold live_of in *. by rewrite Hc, Hd.
  - intros [(r0 & -> & Hin) Hl]. exists r0. split; [|done]. apply (ref_live _ _ Hs). split; [done|]. destruct (Hf r0) as (_ & Hc & Hd).
    unfold live_of in *. by rewrite Hc, Hd in Hl.
Qed.
End refinement.
Arguments current_rows : clear implicits.

(** *** Both tables *)

(** The operations on the two tables.  An insert whose commit fails is reported
    as a success. *)
Inductive cred_op : Type :=
  | OpInsertToken (commits : bool) (now : Z) (newId connectionId : string) (refreshedFrom : option string) (refresh access : EncryptedField)
      (expiresAt : option Z) (scopes requestedScopes : string) (actor : option string)
  | OpDeleteToken (now : Z) (id : string)
  | OpDeleteTokens (now : Z) (connectionId : string)
  | OpInsertKey (commits : bool) (now : Z) (newId connectionId : string) (secrets : EncryptedField) (placement : option ApiKeyPlacement) (actor : option string)
  | OpKeyValidated (id : string) (at' : Z)
  | OpDeleteKeys (now : Z) (connectionId : string).

Record cred_tables := mkCredTables { ct_tokens : tokens; ct_keys : credentials }.

Definition err_of {A} (r : result store_error A) : option store_error := match r with Ok _ => None | Err e => Some e end.

Definition run_cred_op (op : cred_op) (t : cred_tables) : option store_error * cred_tables :=
  match op with
  | OpInsertToken commits now newId c from refresh access exp scopes req actor =>
      let '(r, tab) := InsertOAuth2Token now newId c from refresh access exp scopes req actor (ct_tokens t) in
      (err_of r, if commits then mkCredTables tab (ct_keys t) else t)
  | OpDeleteToken now id => let '(e, tab) := DeleteOAuth2Token now id (ct_tokens t) in (e, mkCredTables tab (ct_keys t))
  | OpDeleteTokens now c => (None, mkCredTables (DeleteAllOAuth2TokensForConnection now c (ct_tokens t)) (ct_keys t))
  | OpInsertKey commits now newId c secrets placement actor =>
      let '(r, tab) := InsertApiKeyCredential now newId c secrets placement actor (ct_keys t) in
      (err_of r, if commits then mkCredTables (ct_tokens t) tab else t)
  | OpKeyValidated id at' => let '(e, tab) := UpdateApiKeyCredentialLastValidated id at' (ct_keys t) in (e, mkCredTables (ct_tokens t) tab)
  | OpDeleteKeys now c => (None, mkCredTables (ct_tokens t) (DeleteAllApiKeyCredentialsForConnection now c (ct_keys t)))
  end.

(** The promise: each connection has a token and a key in use, or none, and ids
    are not used twice. *)
Record in_use := mkInUse { iu_tokens : current_rows OAuth2Token; iu_keys : current_rows ApiKeyCredential }.

Definition take_in_use {R} {CR : CredentialRow R} (valid commits : bool) (new : R) (s : current_rows R) : option store_error * current_rows R :=
  if negb valid then (Some StoreInvalid, s)
  else if decide (row_Id new ∈ cur_ids s) then (Some StoreDuplicateId, s)
  else (None, if commits then mkCurrent ({[row_Id new]} ∪ cur_ids s) (<[row_ConnectionId new := new]> (cur_row s)) else s).

Definition known {R} (id : string) (s : current_rows R) : option store_error := if decide (id ∈ cur_ids s) then None else Some StoreNotFound.

Definition promise (op : cred_op) (s : in_use) : option store_error * in_use :=
  match op with
  | OpInsertToken commits now newId c from refresh access exp scopes req actor =>
      let new := mkOAuth2Token newId c from refresh access exp scopes req actor now None None in
      let '(e, cur) := take_in_use (OAuth2Token_Validate new) commits new (iu_tokens s) in (e, mkInUse cur (iu_keys s))
  | OpDeleteToken _ id =>
      (known id (iu_tokens s), mkInUse (mkCurrent (cur_ids (iu_tokens s)) (filter (λ p, t_Id p.2 ≠ id) (cur_row (iu_tokens s)))) (iu_keys s))
  | OpDeleteTokens _ c => (None, mkInUse (mkCurrent (cur_ids (iu_tokens s)) (delete c (cur_row (iu_tokens s)))) (iu_keys s))
  | OpInsertKey commits now newId c secrets placement actor =>
      let new := mkApiKeyCredential newId c secrets placement actor None now None None in
      let '(e, cur) := take_in_use (ApiKeyCredential_Validate new) commits new (iu_keys s) in (e, mkInUse (iu_tokens s) cur)
  | OpKeyValidated id at' =>
      (known id (iu_keys s),
       mkInUse (iu_tokens s) (mkCurrent (cur_ids (iu_keys s)) ((λ k, if decide (ak_Id k = id) then set_LastValidatedAt at' k else k) <$> cur_row (iu_keys s))))
  | OpDeleteKeys _ c => (None, mkInUse (iu_tokens s) (mkCurrent (cur_ids (iu_keys s)) (delete c (cur_row (iu_keys s)))))
  end.

Fixpoint runs {St : Type} (step : cred_op → St → option store_error * St) (ops : list cred_op) (s : St) : list (option store_error) * St :=
  match ops with [] => ([], s) | o :: ops => let '(e, s) := step o s in let '(es, s) := runs step ops s in (e :: es, s) end.

Record tables_refine (t : cred_tables) (s : in_use) : Prop := {
  tr_tokens : table_refines (ct_tokens t) (iu_tokens s);
  tr_keys : table_refines (ct_keys t) (iu_keys s)
}.

Lemma take_refines {R} {CR : CredentialRow R} {CL : CredentialRowLaws R} now valid commits (new : R) tab s :
  row_DeletedAt new = None → table_refines tab s →
  let '(r, tab') := insert_row now valid new tab in
  let '(e, s') := take_in_use valid commits new s in err_of r = e ∧ table_refines (if commits then tab' else tab) s'.
Proof.
  intros Hlive Hs. pose proof (insert_row_result tab s now valid new Hs) as Hr. pose proof (refines_step (TInsert now valid new) tab s Hlive Hs) as Hs'.
  cbn [run_table_op run_current] in Hs'. unfold take_in_use, accepts in *. destruct (insert_row now valid new tab) as [r tab'] eqn:Hi. cbn [fst snd] in *.
  destruct valid; cbn [negb andb] in *; [|subst r; apply insert_row_err in Hi as ->; by destruct commits].
  destruct (decide (row_Id new ∈ cur_ids s)) as [Hin|Hin]; [subst r; apply insert_row_err in Hi as ->; by destruct commits|].
  rewrite bool_decide_true in Hs' by done. subst r. by destruct commits.
Qed.

Lemma promise_kept op t s : tables_refine t s →
  (run_cred_op op t).1 = (promise op s).1 ∧ tables_refine (run_cred_op op t).2 (promise op s).2.
Proof.
  intros [Ht Hk]. destruct op as [commits now newId c from refresh access exp scopes req actor|now id|now c|commits now newId c secrets placement actor|id at'|now c];
    cbn [run_cred_op promise].
  - unfold InsertOAuth2Token. set (new := mkOAuth2Token _ _ _ _ _ _ _ _ _ _ _ _).
    pose proof (take_refines now (OAuth2Token_Validate new) commits new _ _ eq_refl Ht) as H. destruct (insert_row _ _ new _) as [r tab'], (take_in_use _ _ _ _) as [e cur].
    destruct H as [<- H]. split; [done|]. destruct commits; by split.
  - unfold DeleteOAuth2Token, known. set (affected := length _).
    assert (affected = if decide (id ∈ cur_ids (iu_tokens s)) then 1%nat else 0%nat) as -> by exact (affected_ids _ _ id Ht).
    split; [by destruct (decide (id ∈ cur_ids (iu_tokens s)))|]. split; [|done]. apply (refines_step (TDelete now id) _ _ I Ht).
  - split; [done|]. split; [|done]. apply (refines_step (TDeleteAll now c) _ _ I Ht).
  - unfold InsertApiKeyCredential. set (new := mkApiKeyCredential _ _ _ _ _ _ _ _ _).
    pose proof (take_refines now (ApiKeyCredential_Validate new) commits new _ _ eq_refl Hk) as H. destruct (insert_row _ _ new _) as [r tab'], (take_in_use _ _ _ _) as [e cur].
    destruct H as [<- H]. split; [done|]. destruct commits; by split.
  - unfold UpdateApiKeyCredentialLastValidated, known. set (affected := length _).
    assert (affected = if decide (id ∈ cur_ids (iu_keys s)) then 1%nat else 0%nat) as -> by exact (affected_ids _ _ id Hk).
    split; [by destruct (decide (id ∈ cur_ids (iu_keys s)))|]. split; [done|]. apply refines_update; [|done]. intros k. by case_decide.
  - split; [done|]. split; [done|]. apply (refines_step (TDeleteLive now c) _ _ I Hk).
Qed.

Lemma runs_kept ops t s : tables_refine t s →
  (runs run_cred_op ops t).1 = (runs promise ops s).1 ∧ tables_refine (runs run_cred_op ops t).2 (runs promise ops s).2.
Proof.
  revert t s. induction ops as [|op ops IH]; intros t s H; [done|]. cbn. destruct (promise_kept op t s H) as [He H'].
  destruct (run_cred_op op t) as [e t'], (promise op s) as [e' s']. cbn in He, H'. subst e'. destruct (IH t' s' H') as [Hes H''].
  destruct (runs run_cred_op ops t') as [es t''], (runs promise ops s') as [es' s'']. cbn in *. by subst es'.
Qed.

Definition no_credentials : cred_tables := mkCredTables [] [].
Definition nothing_in_use : in_use := mkInUse (mkCurrent ∅ ∅) (mkCurrent ∅ ∅).

