(* ===== verification/OAuth2.v ===== *)
(** * OAuth2 connections

    Package [auth_methods/oauth2]: the state of a flow, sealed in Redis
    (state.go, oauth2.go), the URL of the provider (auth_url.go), the callback
    with its token exchange (callback.go), tokens from responses
    (token_response.go), client credentials (client_auth.go,
    client_credentials.go), refreshing (proxy.go, authenticator.go) and
    revoking (revocation.go) them.

    The store holds Redis, the tables of credentials, the caches of the
    encryption service, the clock, the requests that were sent to providers
    and the events that were logged.  Every call outside takes the next number
    of a counter, which decides whether it fails and what it returns. *)

From S2P Require Import Prelude GoNumbers GoStrings Namespace Permissions RateRules Redis SetupFlow Connection Actors KeyMaterial Encryption EncryptService OAuth2Config CredentialStore Paging.
Open Scope string_scope.
Open Scope list_scope.

(** ** Data *)

(** The state of a flow; [None] is the zero time. *)
Record state := mkState {
  os_Id : string;
  os_Namespace : string;
  os_ActorId : string;
  os_ConnectorId : string;
  os_ConnectorVersion : Z;
  os_ConnectionId : string;
  os_ReturnToUrl : string;
  os_CancelSessionAfterAuth : bool;
  os_ExpiresAt : option Z;
  os_PKCECodeVerifier : string;
  os_PKCEMethod : string
}.

#[export] Instance state_eq_dec : EqDecision state.
Proof. solve_decision. Defined.

Definition set_Cancel (b : bool) (s : state) : state :=
  mkState (os_Id s) (os_Namespace s) (os_ActorId s) (os_ConnectorId s) (os_ConnectorVersion s) (os_ConnectionId s)
    (os_ReturnToUrl s) b (os_ExpiresAt s) (os_PKCECodeVerifier s) (os_PKCEMethod s).

Definition state_IsValid (s : state) : bool :=
  bool_decide (os_Namespace s ≠ "") && bool_decide (os_ActorId s ≠ "") && bool_decide (os_ConnectorId s ≠ "") &&
  bool_decide (os_ConnectionId s ≠ "") && bool_decide (is_Some (os_ExpiresAt s)).

Record tokenResponse := mkTokenResponse {
  tr_AccessToken : string;
  tr_ExpiresIn : option Z;
  tr_RefreshToken : string;
  tr_Scope : string
}.

(** A request to a provider; the form before it is encoded. *)
Record request := mkRequest {
  rq_URL : string;
  rq_Query : list (string * string);
  rq_Form : Values;
  rq_Authorization : string
}.

Record response := mkResponse { rs_StatusCode : Z; rs_Body : string }.

Inductive oauth_event : Type :=
  | ExchangeFailed (category : tokenExchangeCategory)
  | RefreshFailed (category : tokenRefreshCategory)
  | RefreshSucceeded.

(** JSON and SHA-256. *)
Class OAuthExternal := {
  state_Marshal : state → string;
  state_Unmarshal : string → option state;
  parse_token_response : string → option tokenResponse;
  parse_error : string → string;                         (** the member [error], if it can be read *)
  credentials_Marshal : string * string → string;        (** a client id and secret *)
  credentials_Unmarshal : string → option (string * string);
  s256 : string → string;
  redirect_jwt : string * string → option string;        (** the signed token of an actor, by id and namespace *)
  js_empty : js_context                                   (** [apjs.Context{}] *)
}.

Class OAuthExternalLaws (X : OAuthExternal) : Prop := {
  state_json s : state_Unmarshal (state_Marshal s) = Some s;
  credentials_json c : credentials_Unmarshal (credentials_Marshal c) = Some c
}.

(** What the [n]-th call outside does. *)
Record surroundings := mkSurroundings {
  at_link : nat → link;                          (** the connection to Redis *)
  at_db_fails : nat → bool;
  at_ctx_done : nat → bool;                      (** the request was cancelled *)
  at_lock_fails : nat → bool;
  at_post : nat → request → option response;     (** the provider, or no answer *)
  at_random : nat → option (list nat);           (** 43 random bytes *)
  at_id : nat → string                           (** the suffix of a new id *)
}.

(** The [oauth] block of the configuration with what else is read. *)
Record oauth_config := mkOauthConfig {
  cf_BaseUrl : string;
  cf_ErrorPage : string;
  cf_RoundTripTtl : Z;
  cf_RefreshTokensInBackground : option bool;
  cf_RefreshTokensTimeBeforeExpiry : option Z
}.

Definition DefaultOAuthRoundTripTtl : Z := 3600 * 1000000000.

Definition GetRoundTripTtlOrDefault (cfg : oauth_config) : Z :=
  if decide (cf_RoundTripTtl cfg = 0%Z) then DefaultOAuthRoundTripTtl else cf_RoundTripTtl cfg.
Definition GetRefreshTokensInBackgroundOrDefault (cfg : oauth_config) : bool := default true (cf_RefreshTokensInBackground cfg).
Definition GetRefreshTokensTimeBeforeExpiryOrDefault (cfg : oauth_config) : Z :=
  default (10 * 60 * 1000000000)%Z (cf_RefreshTokensTimeBeforeExpiry cfg).

Definition PrefixOauth2State : string := "oas_".

(** ** The store *)

Record ostore (S : Type) := mkOstore {
  o_redis : S;
  o_tokens : tokens;
  o_creds : credentials;
  o_caches : caches;
  o_now : Z;
  o_n : nat;
  o_sent : list (request * option response);    (** oldest first *)
  o_log : list oauth_event
}.
Arguments mkOstore {S}.
Arguments o_redis {S}. Arguments o_tokens {S}. Arguments o_creds {S}. Arguments o_caches {S}.
Arguments o_now {S}. Arguments o_n {S}. Arguments o_sent {S}. Arguments o_log {S}.

Section store.
Context {S : Type}.
Implicit Types s : ostore S.

Definition set_redis (x : S) s := mkOstore x (o_tokens s) (o_creds s) (o_caches s) (o_now s) (o_n s) (o_sent s) (o_log s).
Definition set_tokens x s := mkOstore (o_redis s) x (o_creds s) (o_caches s) (o_now s) (o_n s) (o_sent s) (o_log s).
Definition set_creds x s := mkOstore (o_redis s) (o_tokens s) x (o_caches s) (o_now s) (o_n s) (o_sent s) (o_log s).
Definition set_now x s := mkOstore (o_redis s) (o_tokens s) (o_creds s) (o_caches s) x (o_n s) (o_sent s) (o_log s).
Definition add_sent x s := mkOstore (o_redis s) (o_tokens s) (o_creds s) (o_caches s) (o_now s) (o_n s) (o_sent s ++ [x]) (o_log s).
Definition add_event x s := mkOstore (o_redis s) (o_tokens s) (o_creds s) (o_caches s) (o_now s) (o_n s) (o_sent s) (o_log s ++ [x]).
Definition next s := mkOstore (o_redis s) (o_tokens s) (o_creds s) (o_caches s) (o_now s) (Datatypes.S (o_n s)) (o_sent s) (o_log s).

(** A computation on the store with errors of type [E]. *)
Definition om (E A : Type) : Type := ostore S → result E A * ostore S.

#[global] Instance om_ret {E} : MRet (om E) := λ A a s, (Ok a, s).
#[global] Instance om_bind {E} : MBind (om E) := λ A B f m s,
  match m s with (Err e, s') => (Err e, s') | (Ok a, s') => f a s' end.

Definition fail {E A} (e : E) : om E A := λ s, (Err e, s).

(** [if err != nil { return e }]. *)
Definition or_fail {E E' A} (e : E') (m : om E A) : om E' A := λ s,
  match m s with (Err _, s') => (Err e, s') | (Ok a, s') => (Ok a, s') end.

Definition reads {E A} (f : ostore S → A) : om E A := λ s, (Ok (f s), s).

(** A pure call that may fail. *)
Definition from_option {E A} (e : E) (o : option A) : om E A := match o with Some a => mret a | None => fail e end.

(** A computation given by its effect on the store. *)
Definition effect {E A} (f : ostore S → result E A * ostore S) : om E A := f.

(** The next number of the counter. *)
Definition ask {E A} (f : nat → A) : om E A := λ s, (Ok (f (o_n s)), next s).
End store.

(** ** Operations on the store *)

Section oauth2.
Context {S : Type} {RS : RedisServer S} {C : Cipher} {ext : External} {U : UrlLib} {X : OAuthExternal}.
Context (eo : outside) (o : surroundings) (cfg : oauth_config).

Abbreviation oop := (om (S := S)).

(** Messages leave out the text of wrapped errors. *)
Abbreviation message := string.

Definition db_call {E} (e : E) : oop E unit :=
  failed ← ask (at_db_fails o); if (failed : bool) then fail e else mret tt.

(** A command over the connection, at the time of the store in milliseconds. *)
Definition redis_do {A} (p : script S A) : oop client_error A := λ s,
  let '(r, x) := Run (at_link o (o_n s)) p (o_now s / 1000000)%Z (o_redis s) in (r, next (set_redis x s)).

Definition encrypt_global (data : string) : oop enc_error EncryptedField := λ s,
  (EncryptGlobal eo (o_n s) (o_caches s) data, next s).
Definition encrypt_for_namespace (ns data : string) : oop enc_error EncryptedField := λ s,
  (EncryptForNamespace eo (o_n s) (o_caches s) ns data, next s).
Definition decrypt_string (ef : EncryptedField) : oop enc_error string := λ s, (Decrypt (o_caches s) ef, s).

(** *** The state of a flow *)

Definition getStateRedisKey (id : string) : string := "oauth2:state:" +:+ id.

Definition writeStateToRedis (st : state) (ttl : Z) : oop unit unit :=
  ef ← or_fail tt (encrypt_global (state_Marshal st));
  or_fail tt (redis_do (redis_call (client_Set (ToInlineString ef) ttl) (getStateRedisKey (os_Id st)))).

Inductive state_error : Type := errStateNotFound | errStateTampered | errStateLoad.

Definition readStateFromRedis (stateId : string) : oop state_error state :=
  raw ← or_fail errStateLoad (redis_do (redis_call GET (getStateRedisKey stateId)));
  match raw with
  | None => fail errStateNotFound
  | Some raw =>
      ef ← from_option errStateLoad (ParseInlineString raw);
      plaintext ← or_fail errStateTampered (decrypt_string ef);
      from_option errStateTampered (state_Unmarshal plaintext)
  end.

Definition deleteStateFromRedis (stateId : string) : oop unit unit :=
  or_fail tt (redis_do (redis_call DEL (getStateRedisKey stateId))).

(** The actor of the request: id and namespace. *)
Record IActorData := mkActorData { ac_Id : string; ac_Namespace : string }.

(** What a flow knows of its connection: its row, namespace and connector. *)
Record oAuth2Connection := mkOAuth2Connection {
  oc_Connection : Connection;
  oc_Namespace : string;
  oc_ConnectorId : string;
  oc_ConnectorVersion : Z;
  oc_auth : AuthOAuth2
}.

Definition oc_Id (c : oAuth2Connection) : string := c_Id (oc_Connection c).

(** The draws of the verifier move the counter on; [fuel] bounds them. *)
Definition new_verifier (fuel : nat) : oop unit string := λ s,
  match generatePKCEVerifier fuel (at_random o) (o_n s) with
  | Some (v, n) =>
      (match v with Some v => Ok v | None => Err tt end,
       mkOstore (o_redis s) (o_tokens s) (o_creds s) (o_caches s) (o_now s) n (o_sent s) (o_log s))
  | None => (Err tt, s)
  end.

Definition pkce_fuel : nat := 1000.

Definition saveStateToRedis (c : oAuth2Connection) (actor : IActorData) (stateId returnToUrl : string) : oop unit state :=
  let ttl := GetRoundTripTtlOrDefault cfg in
  now ← reads o_now;
  pkce ← (match az_PKCE (oa_Authorization (oc_auth c)) with
          | None => mret ("", "")
          | Some m => verifier ← new_verifier pkce_fuel; mret (verifier, PKCE_GetMethodOrDefault (Some m))
          end);
  let s := mkState stateId (ac_Namespace actor) (ac_Id actor) (oc_ConnectorId c) (oc_ConnectorVersion c) (oc_Id c)
             returnToUrl false (Some (now + ttl)%Z) pkce.1 pkce.2 in
  _ ← writeStateToRedis s ttl;
  mret s.

(** [RecordCancelSessionAfterAuth] on a state that was read. *)
Definition RecordCancelSessionAfterAuth (st : state) (shouldCancel : bool) : oop unit state :=
  if decide (shouldCancel = os_CancelSessionAfterAuth st) then mret st
  else
    let st' := set_Cancel shouldCancel st in
    now ← reads o_now;
    _ ← writeStateToRedis st' (default 0%Z (os_ExpiresAt st) - now)%Z;
    mret st'.

(** *** Templates, scopes and credentials of the client *)

(** [GetConfiguration] decrypts, which may fail. *)
Definition get_configuration {E} (e : E) (c : oAuth2Connection) : oop E (option (gmap string json)) :=
  match c_Configuration (oc_Connection c) with
  | None => mret None
  | Some m => _ ← db_call e; mret (Some m)
  end.

Definition renderMustache (c : oAuth2Connection) (template : string) : oop unit string :=
  if negb (ContainsMustache template) then mret template
  else
    m ← get_configuration tt c;
    from_option tt (mustache_Render template m (c_Labels (oc_Connection c)) (c_Annotations (oc_Connection c))).

Definition effectiveScopes (c : oAuth2Connection) : oop unit (list Scope) :=
  match oa_Scopes (oc_auth c) with
  | [] => mret []
  | scopes =>
      m ← get_configuration tt c;
      let jsctx := λ js, js_boolean js (default ∅ m) (c_Labels (oc_Connection c)) (c_Annotations (oc_Connection c)) in
      from_option tt (effective_scopes jsctx scopes)
  end.

Definition resolveStoredClientCredentials (c : oAuth2Connection) : oop message (string * string) :=
  _ ← db_call "failed to load OAuth2 client credentials";
  cred ← effect (λ s, match GetActiveApiKeyCredential (oc_Id c) (o_creds s) with
                      | Err _ => (Err "failed to load OAuth2 client credentials", s)
                      | Ok cred => (Ok cred, s)
                      end);
  plaintextJSON ← or_fail "failed to decrypt OAuth2 client credentials" (decrypt_string (ak_EncryptedCredentials cred));
  plaintext ← from_option "failed to parse OAuth2 client credentials" (credentials_Unmarshal plaintextJSON);
  if decide (plaintext.1 = "") then fail "OAuth2 client credentials missing client_id"
  else if negb (bool_decide (GetTokenEndpointAuthMethodOrDefault (oc_auth c) = TokenEndpointAuthNone)) && bool_decide (plaintext.2 = "")
  then fail "OAuth2 client credentials missing client_secret"
  else mret plaintext.

(** The client id and secret of a validated connector are present where they
    are read. *)
Definition resolveClientCredentials (c : oAuth2Connection) : oop message (string * string) :=
  let a := oc_auth c in
  if decide (GetGrantTypeOrDefault a = OAuth2GrantClientCredentials) then resolveStoredClientCredentials c
  else
    clientId ← from_option "failed to get client id for connector" (oa_ClientId a ≫= GetValue);
    if decide (GetTokenEndpointAuthMethodOrDefault a = TokenEndpointAuthNone) then mret (clientId, "")
    else
      clientSecret ← from_option "failed to get client secret for connector" (oa_ClientSecret a ≫= GetValue);
      mret (clientId, clientSecret).

(** [PersistClientCredentials]: the form data has strings under the two
    names, or not. *)
Definition PersistClientCredentials (c : oAuth2Connection) (clientId clientSecret : option string) (actor : string) : oop op_error unit :=
  let id := default "" clientId in
  let secret := default "" clientSecret in
  if decide (id = "") then fail BadRequest
  else if negb (bool_decide (GetTokenEndpointAuthMethodOrDefault (oc_auth c) = TokenEndpointAuthNone)) && bool_decide (secret = "")
  then fail BadRequest
  else
    encrypted ← or_fail InternalServerError (encrypt_for_namespace (oc_Namespace c) (credentials_Marshal (id, secret)));
    _ ← db_call InternalServerError;
    newId ← ask (at_id o);
    effect (λ s,
      match InsertApiKeyCredential (o_now s) (PrefixApiKeyCredential +:+ newId) (oc_Id c) encrypted None (Some actor) (o_creds s) with
      | (Ok _, tab) => (Ok tt, set_creds tab s)
      | (Err _, _) => (Err InternalServerError, s)
      end).

(** *** Requests to the provider *)

Definition tokenExchangeMaxAttempts : Z := 3.
Definition tokenExchangeBackoffStep : Z := 200 * 1000000.
Definition tokenRefreshMaxAttempts : Z := 3.
Definition tokenRefreshBackoffStep : Z := 200 * 1000000.

(** One request: it is recorded with its answer. *)
Definition post (rq : request) : ostore S → (option response * option unit) * ostore S := λ s,
  let r := at_post o (o_n s) rq in
  ((r, match r with Some _ => None | None => Some tt end), next (add_sent (rq, r) s)).

Definition ctx_err (s : ostore S) : option unit * ostore S :=
  (if at_ctx_done o (o_n s) then Some tt else None, next s).

(** Waiting takes its time, unless the request is cancelled meanwhile. *)
Definition wait (w : Z) (s : ostore S) : option unit * ostore S :=
  if at_ctx_done o (o_n s) then (Some tt, next s) else (None, next (set_now (o_now s + w)%Z s)).

(** A transport error or a status of 500 and more is retried. *)
Definition retryable (resp : option response) (err : option unit) : bool :=
  bool_decide (is_Some err) || match resp with Some r => (500 <=? rs_StatusCode r)%Z | None => false end.

Definition post_with_retry (maxAttempts step : Z) (rq : request) : oop unit response := λ s,
  let '(r, s') := retry_Do ctx_err (post rq) wait (mkOptions maxAttempts (LinearBackOff step) retryable None) s in
  (match r_Err r, r_Value r with None, Some resp => Ok resp | _, _ => Err tt end, s').

Definition postTokenExchangeWithRetry (c : oAuth2Connection) (tokenEndpoint : string) (values : Values) (authHeader : string) : oop unit response :=
  post_with_retry tokenExchangeMaxAttempts tokenExchangeBackoffStep
    (mkRequest tokenEndpoint (tc_QueryOverrides (oa_Token (oc_auth c))) values authHeader).

Definition postRefreshWithRetry (tokenEndpoint : string) (values : Values) (authHeader : string) : oop unit response :=
  post_with_retry tokenRefreshMaxAttempts tokenRefreshBackoffStep (mkRequest tokenEndpoint [] values authHeader).

(** *** Tokens from responses *)

(** [time.Duration(seconds) * time.Second]. *)
Definition seconds (n : Z) : Z := int64_of (n * 1000000000).

(** [o.state] is there after an authorization, not on a refresh. *)
Definition createDbTokenFromResponseWithOptions (c : oAuth2Connection) (st : option state) (body : string)
    (refreshFrom : option OAuth2Token) (persistRefreshToken : bool) : oop message OAuth2Token :=
  jsonResp ← from_option "failed to parse token response" (parse_token_response body);
  if decide (tr_AccessToken jsonResp = "") then fail "no access token in response"
  else
    effectiveScopes ← or_fail "failed to resolve oauth2 scopes" (effectiveScopes c);
    let requestedScopes := JoinScopes effectiveScopes in
    encryptedAccessToken ← or_fail "failed to encrypt access token" (encrypt_for_namespace (oc_Namespace c) (tr_AccessToken jsonResp));
    encryptedRefreshToken ←
      (if negb (bool_decide (tr_RefreshToken jsonResp = "")) && persistRefreshToken then
         or_fail "failed to encrypt refresh token" (encrypt_for_namespace (oc_Namespace c) (tr_RefreshToken jsonResp))
       else mret (match refreshFrom with
                  | Some t => if persistRefreshToken then t_EncryptedRefreshToken t else mkEncryptedField "" ""
                  | None => mkEncryptedField "" ""
                  end));
    let scopes := if decide (tr_Scope jsonResp = "") then requestedScopes else tr_Scope jsonResp in
    now ← reads o_now;
    let expiresAt := (λ n, now + seconds n)%Z <$> tr_ExpiresIn jsonResp in
    let createdByActorId :=
      match refreshFrom, st with
      | Some t, _ => t_CreatedByActorId t
      | None, Some st => if decide (os_ActorId st = "") then None else Some (os_ActorId st)
      | None, None => None
      end in
    _ ← db_call "failed to insert oauth2 token";
    newId ← ask (at_id o);
    token ← effect (λ s,
      match InsertOAuth2Token (o_now s) (PrefixOAuth2Token +:+ newId) (oc_Id c) (t_Id <$> refreshFrom) encryptedRefreshToken
              encryptedAccessToken expiresAt scopes requestedScopes createdByActorId (o_tokens s) with
      | (Ok t, tab) => (Ok t, set_tokens tab s)
      | (Err _, _) => (Err "failed to insert oauth2 token", s)
      end);
    mismatch ← from_option "failed to detect oauth2 scope mismatch" (detectScopeMismatch js_empty effectiveScopes scopes);
    match applyScopeMismatch mismatch with
    | Some err => fail err
    | None => mret token
    end.

Definition createDbTokenFromResponse (c : oAuth2Connection) (st : option state) (body : string) (refreshFrom : option OAuth2Token) :
    oop message OAuth2Token := createDbTokenFromResponseWithOptions c st body refreshFrom true.

(** *** The token exchange *)

(** [emitAndRecordExchangeFailure], then the error. *)
Definition exchange_fail {A} (category : tokenExchangeCategory) (msg : message) : oop message A := λ s,
  (Err msg, add_event (ExchangeFailed category) s).

(** The failure of a call, with its category; the message of the call or one of
    its own. *)
Definition or_exchange_fail {E A} (category : tokenExchangeCategory) (msg : E → message) (m : oop E A) : oop message A := λ s,
  match m s with (Err e, s') => exchange_fail category (msg e) s' | (Ok a, s') => (Ok a, s') end.

Definition status_message (status : Z) (what : string) : message :=
  "received status code " +:+ FormatInt status +:+ " from " +:+ what.

(** The request is posted and its answer becomes a token; shared by the two
    grants. *)
Definition exchange_for_token (c : oAuth2Connection) (st : option state) (tokenEndpoint : string) (values : Values)
    (clientId clientSecret : string) (posting what : message) (persistRefreshToken : bool) : oop message unit :=
  match applyTokenEndpointClientAuth (GetTokenEndpointAuthMethodOrDefault (oc_auth c)) clientId clientSecret values with
  | None => exchange_fail tokenExchangeInternalError
              ("unsupported token_endpoint_auth_method " +:+ quoted (GetTokenEndpointAuthMethodOrDefault (oc_auth c)))
  | Some (values, authHeader) =>
      let values := Values_Set_all (tc_FormOverrides (oa_Token (oc_auth c))) values in
      resp ← or_exchange_fail tokenExchangeNetworkError (λ _, posting) (postTokenExchangeWithRetry c tokenEndpoint values authHeader);
      if decide (rs_StatusCode resp ≠ 200%Z) then
        exchange_fail (classifyTokenEndpointStatus (rs_StatusCode resp) (parse_error (rs_Body resp))).1
          (status_message (rs_StatusCode resp) what)
      else
        _ ← or_exchange_fail tokenExchangeMalformedResponse (λ e, "failed to create db token from response: " +:+ e)
              (createDbTokenFromResponseWithOptions c st (rs_Body resp) None persistRefreshToken);
        mret tt
  end.

(** [exchangeCodeAndAdvanceInner] up to the transition of the connection. *)
Definition exchangeCode (c : oAuth2Connection) (st : state) (query : Values) : oop message unit :=
  _ ← or_exchange_fail tokenExchangeStateCleanupError (λ _, "failed to clean up oauth state") (deleteStateFromRedis (os_Id st));
  let errCode := Values_Get "error" query in
  if negb (bool_decide (errCode = "")) then
    let desc := Values_Get "error_description" query in
    let msg := if decide (desc = "") then errCode else errCode +:+ ": " +:+ desc in
    exchange_fail tokenExchangeProviderDenied ("authorization denied by provider: " +:+ msg)
  else
    let code := Values_Get "code" query in
    if decide (code = "") then exchange_fail tokenExchangeMissingCode "no code in query"
    else match getPublicCallbackUrl (cf_BaseUrl cfg) with
    | None => exchange_fail tokenExchangeInternalError "failed to get public callback url"
    | Some callbackUrl =>
        client ← or_exchange_fail tokenExchangeInternalError id (resolveClientCredentials c);
        tokenEndpoint ← or_exchange_fail tokenExchangeInternalError (λ _, "failed to render token endpoint template")
                          (renderMustache c (tc_Endpoint (oa_Token (oc_auth c))));
        let values := Values_Set "redirect_uri" callbackUrl (Values_Set "code" code (Values_Set "grant_type" "authorization_code" ∅)) in
        let values := if decide (os_PKCECodeVerifier st = "") then values
                      else Values_Set "code_verifier" (os_PKCECodeVerifier st) values in
        exchange_for_token c (Some st) tokenEndpoint values client.1 client.2
          "failed to post to exchange authorization code for access token" "exchange authorization code for access token" true
    end.

(** [exchangeClientCredentialsInner]. *)
Definition ExchangeClientCredentials (c : oAuth2Connection) (st : option state) : oop message unit :=
  client ← or_exchange_fail tokenExchangeInternalError id (resolveClientCredentials c);
  tokenEndpoint ← or_exchange_fail tokenExchangeInternalError (λ _, "failed to render token endpoint template")
                    (renderMustache c (tc_Endpoint (oa_Token (oc_auth c))));
  scopes ← or_exchange_fail tokenExchangeInternalError (λ _, "failed to resolve oauth2 scopes") (effectiveScopes c);
  let values := Values_Set "grant_type" "client_credentials" ∅ in
  let values := if decide (JoinScopes scopes = "") then values else Values_Set "scope" (JoinScopes scopes) values in
  exchange_for_token c st tokenEndpoint values client.1 client.2
    "failed to post client credentials token exchange" "client credentials token exchange" false.

(** *** The URL of the provider *)

Fixpoint render_overrides (c : oAuth2Connection) (overrides : list (string * string)) (query : Values) : oop unit Values :=
  match overrides with
  | [] => mret query
  | (k, v) :: overrides => rendered ← renderMustache c v; render_overrides c overrides (Values_Set k rendered query)
  end.

Definition GenerateAuthUrl (c : oAuth2Connection) (st : state) : oop unit string :=
  let az := oa_Authorization (oc_auth c) in
  if negb (match oa_ClientId (oc_auth c) with Some v => HasValue v | None => false end) then fail tt
  else
    clientId ← from_option tt (oa_ClientId (oc_auth c) ≫= GetValue);
    if decide (az_Endpoint az = "") then fail tt
    else
      callbackUrl ← from_option tt (getPublicCallbackUrl (cf_BaseUrl cfg));
      scopes ← effectiveScopes c;
      authEndpoint ← renderMustache c (az_Endpoint az);
      authUrl3p ← from_option tt (url_Parse authEndpoint);
      let query := Values_Set_all [("redirect_uri", callbackUrl); ("access_type", "offline"); ("response_type", "code");
                                   ("client_id", clientId); ("scope", JoinScopes scopes); ("state", os_Id st)] (u_Query authUrl3p) in
      query ← (match az_PKCE az with
               | None => mret query
               | Some m =>
                   let method := PKCE_GetMethodOrDefault (Some m) in
                   challenge ← from_option tt (pkceChallengeFor s256 method (os_PKCECodeVerifier st));
                   mret (Values_Set "code_challenge_method" method (Values_Set "code_challenge" challenge query))
               end);
      query ← render_overrides c (az_QueryOverrides az) query;
      mret (url_String (u_with_RawQuery query authUrl3p)).

(** *** Refreshing *)

Inductive refreshMode : Type := refreshModeOnlyExpired | refreshModeAlways.

#[global] Instance refreshMode_eq_dec : EqDecision refreshMode.
Proof. solve_decision. Defined.

Definition get_token {E} (e : store_error → E) (unavailable : E) (connectionId : string) : oop E OAuth2Token :=
  _ ← db_call unavailable;
  effect (λ s, match GetOAuth2Token connectionId (o_tokens s) with Ok t => (Ok t, s) | Err x => (Err (e x), s) end).

Definition lock_tokens : oop tokenRefreshCategory unit :=
  failed ← ask (at_lock_fails o); if (failed : bool) then fail tokenRefreshInternalError else mret tt.

(** [refreshAccessTokenInner] up to what it records: the category of a
    failure, or the token and whether it is new. *)
Definition refresh_token_at_provider (c : oAuth2Connection) (mode : refreshMode) : oop tokenRefreshCategory (OAuth2Token * bool) :=
  _ ← lock_tokens;
  token ← get_token (λ _, tokenRefreshInternalError) tokenRefreshInternalError (oc_Id c);
  now ← reads o_now;
  if bool_decide (mode = refreshModeOnlyExpired) && negb (IsAccessTokenExpired now token) then mret (token, false)
  else if EncryptedField_IsZero (t_EncryptedRefreshToken token) && SupportsRefreshToken (oc_auth c) then fail tokenRefreshNoRefreshToken
  else
    client ← or_fail tokenRefreshInternalError (resolveClientCredentials c);
    tokenEndpoint ← or_fail tokenRefreshInternalError (renderMustache c (tc_Endpoint (oa_Token (oc_auth c))));
    values ←
      (if SupportsRefreshToken (oc_auth c) then
         refreshToken ← or_fail tokenRefreshInternalError (decrypt_string (t_EncryptedRefreshToken token));
         mret (Values_Set "refresh_token" refreshToken (Values_Set "grant_type" "refresh_token" ∅))
       else
         scopes ← or_fail tokenRefreshInternalError (effectiveScopes c);
         let values := Values_Set "grant_type" "client_credentials" ∅ in
         mret (if decide (JoinScopes scopes = "") then values else Values_Set "scope" (JoinScopes scopes) values));
    match applyTokenEndpointClientAuth (GetTokenEndpointAuthMethodOrDefault (oc_auth c)) client.1 client.2 values with
    | None => fail tokenRefreshInternalError
    | Some (values, authHeader) =>
        resp ← or_fail tokenRefreshNetworkError (postRefreshWithRetry tokenEndpoint values authHeader);
        if decide (rs_StatusCode resp ≠ 200%Z) then
          fail (classifyTokenRefreshStatus (rs_StatusCode resp) (parse_error (rs_Body resp))).1
        else
          newToken ← or_fail tokenRefreshMalformedResponse
            (createDbTokenFromResponseWithOptions c None (rs_Body resp) (Some token) (SupportsRefreshToken (oc_auth c)));
          mret (newToken, true)
    end.

(** *** Revoking *)

Definition SupportsRevoke (a : AuthOAuth2) : bool :=
  match oa_Revocation a with None => false | Some r => negb (bool_decide (rv_Endpoint r = "")) end.

Definition send_once (rq : request) : oop unit response := λ s,
  let '((r, _), s') := post rq s in (match r with Some r => Ok r | None => Err tt end, s').

Definition post_revocation (c : oAuth2Connection) (r : AuthOauth2Revocation) (token hint : string) : oop unit unit :=
  endpoint ← renderMustache c (rv_Endpoint r);
  let values := Values_Set_all (rv_FormOverrides r) (Values_Set "token_type_hint" hint (Values_Set "token" token ∅)) in
  resp ← send_once (mkRequest endpoint (rv_QueryOverrides r) values "");
  if decide (rs_StatusCode resp ≠ 200%Z) then fail tt else mret tt.

Definition revokeRefreshToken (c : oAuth2Connection) (r : AuthOauth2Revocation) (token : OAuth2Token) : oop unit unit :=
  if EncryptedField_IsZero (t_EncryptedRefreshToken token) then fail tt
  else
    refreshToken ← or_fail tt (decrypt_string (t_EncryptedRefreshToken token));
    post_revocation c r refreshToken "refresh_token".

(** The token is read again. *)
Definition revokeAccessToken (c : oAuth2Connection) (r : AuthOauth2Revocation) : oop unit unit :=
  token ← get_token (λ _, tt) tt (oc_Id c);
  if EncryptedField_IsZero (t_EncryptedAccessToken token) then fail tt
  else
    accessToken ← or_fail tt (decrypt_string (t_EncryptedAccessToken token));
    post_revocation c r accessToken "access_token".

Definition Revoke (c : oAuth2Connection) : oop unit unit :=
  match oa_Revocation (oc_auth c) with
  | Some r =>
      if SupportsRevoke (oc_auth c) then
        _ ← db_call tt;
        current ← reads (λ s, GetOAuth2Token (oc_Id c) (o_tokens s));
        match current with
        | Err StoreNotFound => mret tt
        | Err _ => fail tt
        | Ok token =>
            _ ← (if SupportRevokingRefreshToken (Some r) then revokeRefreshToken c r token else mret tt);
            _ ← (if SupportRevokingAccessToken (Some r) then revokeAccessToken c r else mret tt);
            _ ← db_call tt;
            effect (λ s, let '(e, tab) := DeleteOAuth2Token (o_now s) (t_Id token) (o_tokens s) in
                         (match e with Some _ => Err tt | None => Ok tt end, set_tokens tab s))
        end
      else mret tt
  | None => mret tt
  end.

(** *** Starting a flow *)

Definition JwtQueryParam : string := "authToken".

Definition getPublicRedirectUrl (stateId : string) (actor : IActorData) : option string :=
  tokenString ← redirect_jwt (ac_Id actor, ac_Namespace actor);
  u ← url_Parse (cf_BaseUrl cfg);
  Some (url_String (u_with_RawQuery (Values_Set JwtQueryParam tokenString (Values_Set "stateId" stateId (u_Query u)))
          (u_with_Path (u_Path u +:+ "/oauth2/redirect") u))).

Definition SetStateAndGeneratePublicUrl (c : oAuth2Connection) (actor : IActorData) (returnToUrl : string) : oop unit string :=
  newId ← ask (at_id o);
  let stateId := PrefixOauth2State +:+ newId in
  _ ← saveStateToRedis c actor stateId (safeReturnToUrl (cf_BaseUrl cfg) returnToUrl);
  from_option tt (getPublicRedirectUrl stateId actor).

(** ** Operations on the connection *)

(** The store within the state of the auth method. *)
Class AuthStore := {
  auth_get : auth_state → ostore S;
  auth_put : ostore S → auth_state → auth_state
}.

Context {A : AuthStore} {caller : Caller}.

Definition in_store {E B} (m : oop E B) : op (result E B) := λ w,
  let '(r, s) := m (auth_get (w_auth w)) in (Ok r, with_auth (auth_put s (w_auth w)) w).

Definition log_event (e : oauth_event) : op unit := _ ← in_store (E := unit) (λ s, (Ok tt, add_event e s)); mret tt.

(** What a connection has besides its row. *)
Record conn_def := mkConnDef {
  cd_Namespace : string;
  cd_ConnectorId : string;
  cd_ConnectorVersion : Z;
  cd_OAuth2 : option AuthOAuth2;      (** [None] for another auth type *)
  cd_Connector : Connector
}.

Definition newOAuth2 (d : conn_def) (a : AuthOAuth2) (c : Connection) : oAuth2Connection :=
  mkOAuth2Connection c (cd_Namespace d) (cd_ConnectorId d) (cd_ConnectorVersion d) a.

Section of_connection.
Context (d : conn_def) (a : AuthOAuth2).

(** The failure is logged; permanent ones mark the connection. *)
Definition classifyAndRecordRefreshFailure {B} (category : tokenRefreshCategory) : op B :=
  _ ← log_event (RefreshFailed category);
  _ ← (if IsPermanent category then ignore (MarkHealthState ConnectionHealthStateUnhealthy) else mret tt);
  throw Failed.

Definition refreshAccessToken (mode : refreshMode) : op OAuth2Token :=
  c ← mem;
  r ← in_store (refresh_token_at_provider (newOAuth2 d a c) mode);
  match r with
  | Err category => classifyAndRecordRefreshFailure category
  | Ok (token, false) => mret token
  | Ok (newToken, true) =>
      _ ← ignore (MarkHealthState ConnectionHealthStateHealthy);
      _ ← log_event RefreshSucceeded;
      mret newToken
  end.

(** The test for a missing token has its arguments the wrong way around, so
    that the error of the lookup is returned as it is. *)
Definition getValidToken : op OAuth2Token :=
  c ← mem;
  r ← in_store (get_token (λ e, match e with StoreNotFound => NotFound | _ => Failed end) Failed (c_Id c));
  match r with
  | Err e => throw e
  | Ok token =>
      now ← primitive (λ w, (Ok (o_now (auth_get (w_auth w))), w));
      if IsAccessTokenExpired now token then refreshAccessToken refreshModeOnlyExpired else mret token
  end.

(** The headers of an [AuthApplication]. *)
Definition Resolve : op (list (string * string)) :=
  token ← getValidToken;
  r ← in_store (decrypt_string (t_EncryptedAccessToken token));
  match r with
  | Err _ => throw Failed
  | Ok accessToken => mret [("Authorization", "Bearer " +:+ accessToken)]
  end.

Definition Refresh : op unit :=
  c ← mem;
  r ← in_store (get_token (λ e, match e with StoreNotFound => NotFound | _ => Failed end) Failed (c_Id c));
  match r with
  | Err e => throw e
  | Ok _ => _ ← refreshAccessToken refreshModeAlways; mret tt
  end.

Definition RecoverFrom401 : op unit := Refresh.

(** [refreshOauth2Token], the task of one connection. *)
Definition task_refreshOauth2Token : op unit := _ ← or_else Failed getConnection; or_else Failed Refresh.

(** The failure is recorded on the connection; if that fails too, the error
    page is shown. *)
Definition record_auth_failed (st : state) (msg : message) : op string :=
  _ ← or_else Failed (HandleAuthFailed msg);
  c ← mem;
  mret (appendSetupPendingToReturnUrl (c_Id c) (safeReturnToUrl (cf_BaseUrl cfg) (os_ReturnToUrl st))).

Definition CallbackFrom3rdParty (st : state) (query : Values) : op string :=
  c ← mem;
  r ← in_store (exchangeCode (newOAuth2 d a c) st query);
  match r with
  | Err msg => record_auth_failed st msg
  | Ok _ =>
      primitive (λ w,
        match HandleCredentialsEstablished (Some (cd_Connector d)) w with
        | (Ok pending, w') =>
            let returnToUrl := safeReturnToUrl (cf_BaseUrl cfg) (os_ReturnToUrl st) in
            (Ok (if (pending : bool) then appendSetupPendingToReturnUrl (c_Id c) returnToUrl else returnToUrl), w')
        | (Err _, w') =>
            (_ ← log_event (ExchangeFailed tokenExchangeInternalError);
             record_auth_failed st "failed to handle post-auth state transition") w'
        end)
  end.
End of_connection.

(** ** The service *)

(** The connections by id, each with its world; the store is shared. *)
Record osys := mkOsys {
  y_store : ostore S;
  y_conns : gmap string (conn_def * world)
}.

(** An operation on a connection, with the shared store. *)
Definition run_conn {B} (id : string) (m : conn_def → op B) (y : osys) : result op_error B * osys :=
  match y_conns y !! id with
  | None => (Err NotFound, y)
  | Some (d, w) =>
      let '(r, w') := m d (with_auth (auth_put (y_store y) (w_auth w)) w) in
      (r, mkOsys (auth_get (w_auth w')) (<[id := (d, w')]> (y_conns y)))
  end.

Definition on_store {E B} (m : oop E B) (y : osys) : result E B * osys :=
  let '(r, s) := m (y_store y) in (r, mkOsys s (y_conns y)).

Inductive rejection : Type :=
  | rejectionMissingState | rejectionInvalidStateFormat
  | rejectionUnknownState | rejectionTamperedState | rejectionStateLoadError | rejectionStateInvalid
  | rejectionExpiredState | rejectionActorMismatch | rejectionNamespaceMismatchActor
  | rejectionNamespaceMismatchConnection | rejectionConnectionNotFound | rejectionConnectorTypeMismatch
  | ConnectionNotLoaded                 (** not logged as a rejection *)
  | SessionFailed | OperationFailed.

Definition rejection_of (e : state_error) : rejection :=
  match e with
  | errStateNotFound => rejectionUnknownState
  | errStateTampered => rejectionTamperedState
  | errStateLoad => rejectionStateLoadError
  end.

(** The state, if it is the actor's, with the OAuth2 block of its connection,
    which is then loaded. *)
Definition getOAuth2State (actor : IActorData) (stateId : string) (y : osys) : result rejection (state * AuthOAuth2) * osys :=
  match on_store (readStateFromRedis stateId) y with
  | (Err e, y) => (Err (rejection_of e), y)
  | (Ok s, y) =>
      if negb (state_IsValid s) then (Err rejectionStateInvalid, y)
      else if (default 0%Z (os_ExpiresAt s) <? o_now (y_store y))%Z then (Err rejectionExpiredState, y)
      else if decide (os_ActorId s ≠ ac_Id actor) then (Err rejectionActorMismatch, y)
      else if decide (os_Namespace s ≠ ac_Namespace actor) then (Err rejectionNamespaceMismatchActor, y)
      else match run_conn (os_ConnectionId s) (λ d, _ ← getConnection; mret d) y with
      | (Err NotFound, y) => (Err rejectionConnectionNotFound, y)
      | (Err _, y) => (Err ConnectionNotLoaded, y)
      | (Ok d, y) =>
          if decide (os_Namespace s ≠ cd_Namespace d) then (Err rejectionNamespaceMismatchConnection, y)
          else match cd_OAuth2 d with
          | None => (Err rejectionConnectorTypeMismatch, y)
          | Some a => (Ok (s, a), y)
          end
      end
  end.

(** [apid.Parse]: the empty string, or a known prefix. *)
Definition validPrefixes : list string :=
  ["act_"; "cxn_"; "cxr_"; "cvd_"; "tok_"; "akc_"; "pou_"; "non_"; "req_"; "cor_"; "jti_"; "oas_"; "sess_"; "key_"; "dek_";
   "rl_"; "stk_"; "ntf_"].

Definition apid_Parse (s : string) : option string :=
  if decide (s = "") then Some "" else if existsb (HasPrefix s) validPrefixes then Some s else None.

(** Ending or establishing the browser session, which belongs to the
    authentication service. *)
Definition session_call : oop rejection unit := db_call SessionFailed.

Definition or_reject {B} (r : result op_error B * osys) : result rejection B * osys :=
  match r with (Ok b, y) => (Ok b, y) | (Err _, y) => (Err OperationFailed, y) end.

(** [GET /oauth2/callback]: the redirect, or the reason for the error page. *)
Definition callback (actor : IActorData) (query : Values) (y : osys) : result rejection string * osys :=
  let stateParam := Values_Get "state" query in
  if decide (stateParam = "") then (Err rejectionMissingState, y)
  else match apid_Parse stateParam with
  | None => (Err rejectionInvalidStateFormat, y)
  | Some stateId =>
      match getOAuth2State actor stateId y with
      | (Err e, y) => (Err e, y)
      | (Ok (s, a), y) =>
          match (if os_CancelSessionAfterAuth s then on_store session_call y else (Ok tt, y)) with
          | (Err e, y) => (Err e, y)
          | (Ok _, y) => or_reject (run_conn (os_ConnectionId s) (λ d, CallbackFrom3rdParty d a s query) y)
          end
      end
  end.

(** [GET /oauth2/redirect]; [isSession] says whether the request has a session
    already. *)
Definition redirect (actor : IActorData) (isSession : bool) (stateParam : string) (y : osys) : result rejection string * osys :=
  match (if isSession then (Ok tt, y) else on_store session_call y) with
  | (Err e, y) => (Err e, y)
  | (Ok _, y) =>
      if decide (stateParam = "") then (Err rejectionMissingState, y)
      else match apid_Parse stateParam with
      | None => (Err rejectionInvalidStateFormat, y)
      | Some stateId =>
          match getOAuth2State actor stateId y with
          | (Err e, y) => (Err e, y)
          | (Ok (s, a), y) =>
              match on_store (RecordCancelSessionAfterAuth s (negb isSession)) y with
              | (Err _, y) => (Err OperationFailed, y)
              | (Ok s, y) =>
                  or_reject (run_conn (os_ConnectionId s)
                    (λ d, c ← mem; r ← in_store (GenerateAuthUrl (newOAuth2 d a c) s);
                          match r with Ok u => mret u | Err _ => throw Failed end) y)
              end
          end
      end
  end.

(** The redirect step of a setup: a flow is started for the connection. *)
Definition start_flow (actor : IActorData) (connectionId returnToUrl : string) : osys → result op_error string * osys :=
  run_conn connectionId (λ d,
    match cd_OAuth2 d with
    | None => throw Failed
    | Some a =>
        _ ← getConnection; c ← mem;
        r ← in_store (SetStateAndGeneratePublicUrl (newOAuth2 d a c) actor returnToUrl);
        match r with Ok u => mret u | Err _ => throw Failed end
    end).

(** *** Refreshing in the background *)

(** The widest window of the configured connectors. *)
Definition refresh_window (connectors : list (option AuthOAuth2)) : Z :=
  foldl (λ within c,
    match c with
    | Some a => if GetRefreshInBackgroundOrDefault (oa_Token a) && (within <? GetRefreshTimeBeforeExpiryOrDefault (oa_Token a) within)%Z
                then GetRefreshTimeBeforeExpiryOrDefault (oa_Token a) within else within
    | None => within
    end) (GetRefreshTokensTimeBeforeExpiryOrDefault cfg) connectors.

(** A connection that is live and configured. *)
Definition is_configured (y : osys) (id : string) : bool :=
  match y_conns y !! id with
  | Some (_, w) => match w_db w with Some c => bool_decide (c_State c = ConnectionStateConfigured) | None => false end
  | None => false
  end.

(** The task enqueues a refresh for each token that expires in the window. *)
Definition refreshExpiringOauth2Tokens (connectors : list (option AuthOAuth2)) (fuel : nat) (yq : osys * list string) :
    option (option unit * (osys * list string)) :=
  if GetRefreshTokensInBackgroundOrDefault cfg then
    EnumerateOAuth2TokensExpiringWithin (λ yq, (is_configured yq.1, o_tokens (y_store yq.1))) (o_now (y_store yq.1)) (refresh_window connectors) fuel
      (each_row (λ t yq, match on_store (db_call tt) yq.1 with
                         | (Err _, y) => (Some tt, (y, yq.2))
                         | (Ok _, y) => (None, (y, yq.2 ++ [t_ConnectionId t]))
                         end)) yq
  else Some (None, yq).
End oauth2.
