(* ===== verification/OAuth2Safety.v ===== *)
(** * What OAuth2 flows guarantee

    Over every sequence of operations of the service, an authorization code is
    exchanged only for a flow that was started by the same actor for the same
    connection and has not expired, and once for each flow.

    Most computations only read the states of flows or remove them ([tame]);
    what is written is a state that was started. *)

From S2P Require Import Prelude GoNumbers GoStrings Namespace Permissions RateRules Redis SetupFlow Connection ConnectionFrames Actors NamespaceStore KeyMaterial Encryption EncryptService OAuth2Config CredentialStore OAuth2 Paging.
Open Scope string_scope.
Open Scope list_scope.

Create HintDb tame.

Section safety.
Context {S : Type} {RS : RedisServer S} {C : Cipher} {ext : External} {U : UrlLib} {X : OAuthExternal}.
Context (eo : outside) (o : surroundings) (cfg : oauth_config).
Context {A : AuthStore (S := S)} {caller : Caller}.

(** ** Computations that write no state *)

Definition ms (s : ostore S) : Z := (o_now s / 1000000)%Z.

Record tame (s s' : ostore S) : Prop := {
  tame_caches : o_caches s' = o_caches s;
  tame_now : (o_now s ≤ o_now s')%Z;
  tame_n : (o_n s ≤ o_n s')%nat;
  tame_redis k e : lookup (o_redis s') (ms s') k = Some e → lookup (o_redis s) (ms s) k = Some e
}.

#[global] Instance tame_preorder : PreOrder tame.
Proof.
  split.
  - intros s. by split.
  - intros s1 s2 s3 [H1 H2 H3 H4] [H5 H6 H7 H8]. split; [congruence|lia|lia|auto].
Qed.

(** The same Redis at the same or a later time. *)
Lemma tame_same s s' : o_caches s' = o_caches s → (o_now s ≤ o_now s')%Z → (o_n s ≤ o_n s')%nat → o_redis s' = o_redis s → tame s s'.
Proof.
  intros Hc Hn Hk Hr. split; [done..|]. intros k e. rewrite Hr. intros He.
  assert (ms s ≤ ms s')%Z as Hms by (apply Z.div_le_mono; lia).
  destruct (lookup_later (o_redis s) (ms s) (ms s') k Hms) as [Heq|[Hnone _]]; [by rewrite <- Heq|]. congruence.
Qed.

Definition calms {E B} (m : om (S := S) E B) : Prop := ∀ s, tame s (m s).2.

Lemma calms_ret {E B} (b : B) : calms (E := E) (mret b).
Proof. by intros s. Qed.

Lemma calms_fail {E B} (e : E) : calms (B := B) (fail e).
Proof. by intros s. Qed.

Lemma calms_bind {E B B'} (m : om E B) (k : B → om E B') : calms m → (∀ b, calms (k b)) → calms (m ≫= k).
Proof.
  intros Hm Hk s. specialize (Hm s). unfold mbind, om_bind. destruct (m s) as [[e|b] s1]; [done|].
  etrans; [exact Hm|apply Hk].
Qed.

Lemma calms_or_fail {E E' B} (e : E') (m : om E B) : calms m → calms (or_fail e m).
Proof. intros Hm s. specialize (Hm s). unfold or_fail. by destruct (m s) as [[?|?] ?]. Qed.

Lemma calms_from_option {E B} (e : E) (x : option B) : calms (from_option e x).
Proof. by destruct x; intros s. Qed.

Lemma calms_reads {E B} (f : ostore S → B) : calms (E := E) (reads f).
Proof. by intros s. Qed.

(** An effect on the tables or the log. *)
Lemma calms_effect {E B} (f : ostore S → result E B * ostore S) :
  (∀ s, o_caches (f s).2 = o_caches s ∧ o_now (f s).2 = o_now s ∧ o_n (f s).2 = o_n s ∧ o_redis (f s).2 = o_redis s) → calms (effect f).
Proof. intros Hf s. destruct (Hf s) as (? & ? & ? & ?). apply tame_same; unfold effect; lia || done. Qed.

Lemma tame_next s : tame s (next s).
Proof. apply tame_same; cbn; lia || done. Qed.

Lemma calms_ask {E B} (f : nat → B) : calms (E := E) (ask f).
Proof. intros s. apply tame_next. Qed.

Lemma calms_if {E B} (b : bool) (m m' : om E B) : calms m → calms m' → calms (if b then m else m').
Proof. by destruct b. Qed.

(** One rule for each construct; calls by the hints. *)
Ltac tamely :=
  repeat (lazymatch goal with
    | |- calms (mret _) => apply calms_ret
    | |- calms (fail _) => apply calms_fail
    | |- calms (mbind _ _) => apply calms_bind; [|intros ?]
    | |- calms (or_fail _ _) => apply calms_or_fail
    | |- calms (from_option _ _) => apply calms_from_option
    | |- calms (reads _) => apply calms_reads
    | |- calms (ask _) => apply calms_ask
    | |- calms (if decide _ then _ else _) => case_decide
    | |- calms (if _ then _ else _) => apply calms_if
    | |- calms (match ?x with _ => _ end) => destruct x
    | |- calms (let _ := _ in _) => cbn zeta
    | |- calms _ => solve [eauto with tame]
    end).

Lemma calms_db_call {E} (e : E) : calms (db_call o e).
Proof. unfold db_call. tamely. Qed.

Lemma calms_encrypt ns data : calms (encrypt_for_namespace eo ns data).
Proof. intros s. apply tame_next. Qed.

Lemma calms_decrypt ef : calms (decrypt_string (S := S) ef).
Proof. by intros s. Qed.

#[local] Hint Resolve calms_db_call calms_encrypt calms_decrypt : tame.

(** A command that leaves the key as it is, or removes it. *)
Definition no_write {R} (c : cmd R) : Prop := ∀ t e, (exec c t e).2 = e ∨ (exec c t e).2 = None.

Lemma calms_command {R} (c : cmd R) key : no_write c → calms (redis_do o (redis_call c key)).
Proof.
  intros Hc s. unfold redis_do, Run, redis_call.
  assert (tame s (set_redis (call c key (ms s) (o_redis s)).2 s)) as Hcall.
  { split; [done|done|done|]. intros k e. cbn. unfold ms. cbn. fold (ms s).
    destruct (decide (k = key)) as [->|Hk]; [|by rewrite call_other]. rewrite call_same.
    destruct (Hc (ms s) (lookup (o_redis s) (ms s) key)) as [-> | ->]; done. }
  destruct (at_link o (o_n s)); cbn; fold (ms s).
  - destruct (call c key (ms s) (o_redis s)) as [r x]. etrans; [exact Hcall|]. apply tame_next.
  - etrans; [|apply tame_next]. by apply tame_same.
  - etrans; [exact Hcall|]. apply tame_next.
Qed.

Lemma calms_readState id : calms (readStateFromRedis o id).
Proof.
  unfold readStateFromRedis. apply calms_bind; [apply calms_or_fail, calms_command|intros [raw|]; tamely].
  intros t e. left. cbn. destruct e as [[[] ?]|]; done.
Qed.

Lemma calms_deleteState id : calms (deleteStateFromRedis o id).
Proof. unfold deleteStateFromRedis. apply calms_or_fail, calms_command. intros t e. by right. Qed.

#[local] Hint Resolve calms_readState calms_deleteState : tame.

(** *** Requests *)

Lemma tame_post rq s : tame s (post o rq s).2.
Proof. apply tame_same; cbn; lia || done. Qed.

Lemma tame_ctx_err s : tame s (ctx_err o s).2.
Proof. apply tame_next. Qed.

Lemma tame_wait w s : (0 ≤ w)%Z → tame s (wait o w s).2.
Proof. intros Hw. unfold wait. destruct (at_ctx_done o (o_n s)); apply tame_same; cbn; lia || done. Qed.

Lemma tame_do_attempts rq (opts : Options response unit) retries attempt v s :
  (∀ n w, Backoff opts n = Some w → (0 ≤ w)%Z) → OnRetryWait opts = None →
  tame s (do_attempts (ctx_err o) (post o rq) (wait o) opts retries attempt v s).2.
Proof.
  intros Hb Hw. revert attempt v s. induction retries as [|retries IH]; intros attempt v s; cbn [do_attempts]; rewrite ?Hw.
  all: pose proof (tame_ctx_err s) as H1; destruct (ctx_err o s) as [[e|] s1]; cbn in H1; [exact H1|].
  all: pose proof (tame_post rq s1) as H2; destruct (post o rq s1) as [[val err] s2]; cbn in H2.
  all: assert (tame s s2) as H12 by (by etrans).
  all: destruct (Classify opts val err); cbn [negb]; [|exact H12].
  { exact H12. }
  destruct (Backoff opts attempt) as [w|] eqn:Hw'; [|exact H12].
  pose proof (tame_wait w s2 (Hb _ _ Hw')) as H3. destruct (wait o w s2) as [[e|] s3]; cbn in H3; [by etrans|].
  etrans; [exact H12|]. etrans; [exact H3|]. apply IH.
Qed.

Lemma calms_post_with_retry maxAttempts step rq : (0 ≤ step)%Z → calms (post_with_retry o maxAttempts step rq).
Proof.
  intros Hstep s. unfold post_with_retry, retry_Do. set (opts := mkOptions _ _ _ _).
  assert (∀ n w, Backoff opts n = Some w → (0 ≤ w)%Z) as Hb by (intros n w; cbn; unfold LinearBackOff; intros [= <-]; nia).
  pose proof (tame_do_attempts rq opts (Z.to_nat (Z.max 1 (MaxAttempts opts)) - 1) 1 None s Hb eq_refl) as Ht.
  destruct (do_attempts _ _ _ opts _ _ _ s) as [r s']. destruct (r_Err r), (r_Value r); exact Ht.
Qed.

Lemma calms_send_once rq : calms (send_once o rq).
Proof. intros s. unfold send_once. pose proof (tame_post rq s) as H. destruct (post o rq s) as [[[]] s']; exact H. Qed.

#[local] Hint Resolve calms_send_once : tame.

(** *** The operations on the store *)

Lemma calms_get_configuration {E} (e : E) c : calms (get_configuration o e c).
Proof. unfold get_configuration. tamely. Qed.

#[local] Hint Resolve calms_get_configuration : tame.

Lemma calms_render c template : calms (renderMustache o c template).
Proof. unfold renderMustache. tamely. Qed.

Lemma calms_effectiveScopes c : calms (effectiveScopes o c).
Proof. unfold effectiveScopes. tamely. Qed.

Lemma calms_resolveClientCredentials c : calms (resolveClientCredentials o c).
Proof.
  unfold resolveClientCredentials, resolveStoredClientCredentials. tamely.
  apply calms_effect. intros s. by destruct (GetActiveApiKeyCredential _ _).
Qed.

#[local] Hint Resolve calms_render calms_effectiveScopes calms_resolveClientCredentials : tame.

Lemma calms_createDbToken c st body refreshFrom persist :
  calms (createDbTokenFromResponseWithOptions eo o c st body refreshFrom persist).
Proof.
  unfold createDbTokenFromResponseWithOptions. tamely.
  apply calms_effect. intros s. by destruct (InsertOAuth2Token _ _ _ _ _ _ _ _ _ _ _) as [[] ?].
Qed.

#[local] Hint Resolve calms_createDbToken : tame.

Lemma calms_exchange_fail {B} category msg : calms (exchange_fail (S := S) (A := B) category msg).
Proof. intros s. by apply tame_same. Qed.

Lemma calms_or_exchange_fail {E B} category (msg : E → string) (m : om E B) : calms m → calms (or_exchange_fail category msg m).
Proof.
  intros Hm s. specialize (Hm s). unfold or_exchange_fail. destruct (m s) as [[e|b] s1]; [|done].
  etrans; [exact Hm|]. apply (calms_exchange_fail (B := B)).
Qed.

Lemma calms_exchange_for_token c st endpoint values cid secret posting what persist :
  calms (exchange_for_token eo o c st endpoint values cid secret posting what persist).
Proof.
  unfold exchange_for_token. destruct (applyTokenEndpointClientAuth _ _ _ _) as [[vs h]|]; [|apply calms_exchange_fail]. cbn zeta.
  apply calms_bind; [apply calms_or_exchange_fail, calms_post_with_retry; done|]. intros resp.
  case_decide; [apply calms_exchange_fail|]. apply calms_bind; [apply calms_or_exchange_fail; eauto with tame|]. intros _. tamely.
Qed.

(** What follows the removal of the state. *)
Lemma exchangeCode_after c st query : ∃ rest, calms rest ∧
  exchangeCode eo o cfg c st query =
    (_ ← or_exchange_fail tokenExchangeStateCleanupError (λ _, "failed to clean up oauth state") (deleteStateFromRedis o (os_Id st)); rest).
Proof.
  eexists. split; [|reflexivity]. cbn beta zeta.
  destruct (negb (bool_decide (Values_Get "error" query = ""))); [apply calms_exchange_fail|]. case_decide; [apply calms_exchange_fail|].
  destruct (getPublicCallbackUrl _) as [u|]; [|apply calms_exchange_fail].
  apply calms_bind; [apply calms_or_exchange_fail; eauto with tame|]. intros client.
  apply calms_bind; [apply calms_or_exchange_fail; eauto with tame|]. intros endpoint. apply calms_exchange_for_token.
Qed.

Lemma calms_exchangeCode c st query : calms (exchangeCode eo o cfg c st query).
Proof.
  destruct (exchangeCode_after c st query) as (rest & Hrest & ->).
  apply calms_bind; [apply calms_or_exchange_fail; eauto with tame|]. by intros _.
Qed.

Lemma calms_ExchangeClientCredentials c st : calms (ExchangeClientCredentials eo o c st).
Proof.
  unfold ExchangeClientCredentials. repeat (apply calms_bind; [apply calms_or_exchange_fail; eauto with tame|intros ?]).
  cbn zeta. apply calms_exchange_for_token.
Qed.

Lemma calms_PersistClientCredentials c id secret actor : calms (PersistClientCredentials eo o c id secret actor).
Proof.
  unfold PersistClientCredentials. cbn zeta. tamely. apply calms_effect. intros s. by destruct (InsertApiKeyCredential _ _ _ _ _ _ _) as [[] ?].
Qed.

Lemma calms_overrides c overrides : ∀ query, calms (render_overrides o c overrides query).
Proof. induction overrides as [|[k v] overrides IH]; intros query; cbn [render_overrides]; tamely. Qed.

#[local] Hint Resolve calms_overrides : tame.

Lemma calms_GenerateAuthUrl c st : calms (GenerateAuthUrl o cfg c st).
Proof. unfold GenerateAuthUrl. tamely. Qed.

Lemma calms_get_token {E} (e : store_error → E) unavailable id : calms (get_token o e unavailable id).
Proof. unfold get_token. tamely. apply calms_effect. intros s. by destruct (GetOAuth2Token _ _). Qed.

#[local] Hint Resolve calms_get_token : tame.

Lemma calms_refresh c mode : calms (refresh_token_at_provider eo o c mode).
Proof.
  unfold refresh_token_at_provider, lock_tokens, postRefreshWithRetry. tamely. apply calms_post_with_retry. done.
Qed.

Lemma calms_Revoke c : calms (Revoke o c).
Proof.
  unfold Revoke, revokeRefreshToken, revokeAccessToken, post_revocation. tamely.
  apply calms_effect. intros s. by destruct (DeleteOAuth2Token _ _ _).
Qed.

(** ** What can be read back *)

Context {CL : CipherLaws C} {XL : OAuthExternalLaws X}.
Hypothesis nonces : ∀ n, String.length (nonce_at eo n) = nonceSize.

(** The ids of data encryption keys that the cache holds. *)
Definition caches_ok (mem : caches) : Prop :=
  ∀ key dek, keyToCurrentDEKCache mem !! key = Some dek → HasPrefix dek "dek_" = true ∧ no_char colon dek = true.

(** The content of a key as the service reads it. *)
Definition readable (mem : caches) (raw : string) (st : state) : Prop :=
  ∃ ef p, ParseInlineString raw = Some ef ∧ Decrypt mem ef = Ok p ∧ state_Unmarshal p = Some st.

Lemma HasPrefix_app_l s t p : HasPrefix s p = true → HasPrefix (s +:+ t) p = true.
Proof. rewrite !HasPrefix_spec. intros [r ->]. exists (r +:+ t). by rewrite str_app_assoc. Qed.

(** What was sealed with the global key is what is read. *)
Lemma sealed_readable mem n data ef raw st : caches_ok mem → EncryptGlobal eo n mem data = Ok ef → raw = ToInlineString ef →
  data = state_Marshal st → ∀ st', readable mem raw st' → st' = st.
Proof.
  intros Hmem He -> -> st' (ef' & p & Hparse & Hdec & Hun). unfold EncryptGlobal in He. destruct (syncReady mem) eqn:Hsync; [|done].
  pose proof (decrypt_encryptForKey eo _ _ _ _ _ (nonces n) Hsync He) as Hdec'. unfold encryptForKey, encrypt_bytes in He.
  destruct (keyToCurrentDEKCache mem !! GlobalKeyID) as [dek|] eqn:Hdek; [|done].
  destruct (dekToBytesCache mem !! dek) as [b|]; [|done]. destruct (encryptWithKey b (nonce_at eo n) (state_Marshal st)) as [c|]; [|done].
  injection He as <-. destruct (Hmem _ _ Hdek) as [Hp Hcol].
  assert (ParseInlineString (ToInlineString (mkEncryptedField dek (b64_encode c))) = Some (mkEncryptedField dek (b64_encode c))) as Hparse'.
  { apply inline_roundtrip. split; [done|]. split; [|done]. cbn. by apply HasPrefix_app_l. }
  rewrite Hparse' in Hparse. injection Hparse as <-. rewrite Hdec' in Hdec. injection Hdec as <-.
  rewrite state_json in Hun. by injection Hun as <-.
Qed.

(** A string that is set is got. *)
Lemma redis_string_got v ex t : (exec GET t (Some (mkEntry (string_value v) ex))).1 = Ok (Some v).
Proof. cbn. unfold string_value. destruct (ParseInt v) as [z|]; [|done]. case_decide as Hz; [|done]. by rewrite Hz. Qed.

Lemma exec_client_Set v dur t e :
  (exec (client_Set v dur) t e).2 = e ∨ ∃ ex, (exec (client_Set v dur) t e).2 = Some (mkEntry (string_value v) ex).
Proof.
  unfold client_Set. destruct (0 <? dur)%Z; cbn; [case_decide; [by left|right; by eexists]|].
  destruct (dur =? -1)%Z; cbn; right; by eexists.
Qed.

(** ** Flows *)

Inductive flow_event : Type :=
  | Started (id actorId ns connectionId : string) (t : Z)
  | Exchanged (id : string).

Definition event_id (e : flow_event) : string := match e with Started id _ _ _ _ | Exchanged id => id end.

Abbreviation trace := (list flow_event).

Definition ttl : Z := GetRoundTripTtlOrDefault cfg.

(** A state that may be in Redis after [tr], at the time [now]: its flow was
    started, and its code not exchanged. *)
Record state_ok (tr : trace) (now : Z) (id : string) (st : state) : Prop := {
  so_id : os_Id st = id;
  so_started : ∃ t0, Started id (os_ActorId st) (os_Namespace st) (os_ConnectionId st) t0 ∈ tr ∧ (t0 ≤ now)%Z ∧ os_ExpiresAt st = Some (t0 + ttl)%Z;
  so_open : Exchanged id ∉ tr
}.

Record flows_ok (tr : trace) (s : ostore S) : Prop := {
  fl_caches : caches_ok (o_caches s);
  fl_states id e raw st :
    lookup (o_redis s) (ms s) (getStateRedisKey id) = Some e → (exec GET (ms s) (Some e)).1 = Ok (Some raw) →
    readable (o_caches s) raw st → state_ok tr (o_now s) id st;
  fl_ids ev : ev ∈ tr → ∃ n, event_id ev = PrefixOauth2State +:+ at_id o n ∧ (n < o_n s)%nat
}.

Lemma state_ok_later tr now now' id st : (now ≤ now')%Z → state_ok tr now id st → state_ok tr now' id st.
Proof. intros Hn [H1 (t0 & Ht & Hle & He) H3]. split; [done| |done]. exists t0. split; [done|]. split; [lia|done]. Qed.

Lemma exec_GET_time t t' e : (exec GET t e).1 = (exec GET t' e).1.
Proof. by destruct e as [[[] ?]|]. Qed.

Lemma flows_tame tr s s' : tame s s' → flows_ok tr s → flows_ok tr s'.
Proof.
  intros [Hc Hn Hk Hr] [Hfc Hfs Hfi]. split.
  - by rewrite Hc.
  - intros id e raw st He Hget Hread. eapply state_ok_later; [exact Hn|]. rewrite Hc in Hread.
    rewrite (exec_GET_time _ (ms s)) in Hget. eauto.
  - intros ev Hev. destruct (Hfi ev Hev) as (n & Hn' & Hlt). exists n. split; [done|lia].
Qed.

Lemma key_inj id id' : getStateRedisKey id = getStateRedisKey id' → id = id'.
Proof. apply (inj (String.append "oauth2:state:")). Qed.

(** Writing a state that is in order. *)
Lemma write_flows tr s st dur : flows_ok tr s → state_ok tr (o_now s) (os_Id st) st → flows_ok tr (writeStateToRedis eo o st dur s).2.
Proof.
  intros Hs Hst. unfold writeStateToRedis, mbind, om_bind, or_fail, encrypt_global.
  destruct (EncryptGlobal eo (o_n s) (o_caches s) (state_Marshal st)) as [e|ef] eqn:He.
  { apply (flows_tame tr s); [apply tame_next|done]. }
  set (s1 := next s). assert (flows_ok tr s1) as Hs1 by (apply (flows_tame tr s); [apply tame_next|done]).
  unfold redis_do, Run, redis_call. set (raw := ToInlineString ef). fold (ms s1).
  assert (flows_ok tr (set_redis (call (client_Set raw dur) (getStateRedisKey (os_Id st)) (ms s1) (o_redis s1)).2 s1)) as Hcall.
  { destruct Hs1 as [Hfc Hfs Hfi]. split; [done| |done]. intros id e raw' st' Hl Hget Hread.
    change (lookup (call (client_Set raw dur) (getStateRedisKey (os_Id st)) (ms s1) (o_redis s1)).2 (ms s1) (getStateRedisKey id) = Some e) in Hl.
    change ((exec GET (ms s1) (Some e)).1 = Ok (Some raw')) in Hget. change (readable (o_caches s1) raw' st') in Hread.
    change (state_ok tr (o_now s1) id st'). destruct (decide (id = os_Id st)) as [->|Hne].
    - rewrite call_same in Hl. destruct (exec_client_Set raw dur (ms s1) (lookup (o_redis s1) (ms s1) (getStateRedisKey (os_Id st)))) as [Hold|[ex Hnew]].
      + rewrite Hold in Hl. by eapply Hfs.
      + rewrite Hnew in Hl. injection Hl as <-. rewrite redis_string_got in Hget. injection Hget as <-.
        assert (st' = st) as -> by (eapply (sealed_readable (o_caches s)); [exact Hfc|exact He|reflexivity|reflexivity|exact Hread]).
        exact Hst.
    - rewrite call_other in Hl by (by intros ?%key_inj). by eapply Hfs. }
  assert (∀ x, flows_ok tr x → flows_ok tr (next x)) as Hnext by (intros x; apply flows_tame, tame_next).
  destruct (call (client_Set raw dur) (getStateRedisKey (os_Id st)) (ms s1) (o_redis s1)) as [r x]; cbn [snd] in Hcall.
  destruct (at_link o (o_n s1)); cbv beta iota.
  - destruct r; apply Hnext, Hcall.
  - apply Hnext. by apply (flows_tame tr s1); [apply tame_same|].
  - apply Hnext, Hcall.
Qed.

Hypothesis ids_fresh : ∀ n m, at_id o n = at_id o m → n = m.

Lemma state_ok_started tr ev now id st : ev ≠ Exchanged id → state_ok tr now id st → state_ok (tr ++ [ev]) now id st.
Proof. intros Hev [H1 (t0 & Ht & H2) H3]. split; [done|exists t0; set_solver|]. set_solver. Qed.

(** A new flow takes the next id. *)
Lemma flows_started tr s a n c t : flows_ok tr s → flows_ok (tr ++ [Started (PrefixOauth2State +:+ at_id o (o_n s)) a n c t]) (next s).
Proof.
  intros Hs. pose proof (flows_tame tr s _ (tame_next s) Hs) as [Hfc Hfs Hfi]. split; [done| |].
  - intros id e raw st He Hget Hread. apply state_ok_started; [done|]. by eapply Hfs.
  - intros ev [Hev| ->%list_elem_of_singleton]%elem_of_app; [by apply Hfi|]. exists (o_n s). split; [done|cbn; lia].
Qed.

Lemma id_unused tr s ev : flows_ok tr s → ev ∈ tr → event_id ev ≠ PrefixOauth2State +:+ at_id o (o_n s).
Proof.
  intros Hs Hev Heq. destruct (fl_ids _ _ Hs ev Hev) as (n & Hn & Hlt). rewrite Hn in Heq.
  apply (inj (String.append PrefixOauth2State)) in Heq. apply ids_fresh in Heq. lia.
Qed.

Lemma pkce_loop_counter fuel draw : ∀ n out r n', pkce_loop fuel draw n out = Some (r, n') → (n ≤ n')%nat.
Proof.
  induction fuel as [|fuel IH]; intros n out r n'; cbn [pkce_loop]; destruct (_ <? _)%nat; [done|by intros [= _ <-]| |by intros [= _ <-]].
  destruct (draw n) as [buf|]; [|intros [= _ <-]; lia]. intros H%IH. lia.
Qed.

Lemma calms_new_verifier fuel : calms (new_verifier o fuel).
Proof.
  intros s. unfold new_verifier, generatePKCEVerifier. destruct (pkce_loop _ _ _ _) as [[v n]|] eqn:Hl; [|done].
  apply pkce_loop_counter in Hl. by apply tame_same.
Qed.

Lemma new_verifier_now fuel (s : ostore S) : o_now (new_verifier o fuel s).2 = o_now s.
Proof. unfold new_verifier. by destruct (generatePKCEVerifier _ _ _) as [[[] ?]|]. Qed.

Lemma start_flows tr s c actor rt : flows_ok tr s →
  flows_ok (tr ++ [Started (PrefixOauth2State +:+ at_id o (o_n s)) (ac_Id actor) (ac_Namespace actor) (oc_Id c) (o_now s)])
    (SetStateAndGeneratePublicUrl eo o cfg c actor rt s).2.
Proof.
  intros Hs. set (id := PrefixOauth2State +:+ at_id o (o_n s)). set (tr' := tr ++ [_]).
  assert (flows_ok tr' (next s)) as Hs1 by (by apply flows_started).
  assert (∀ verifier method, state_ok tr' (o_now s) id (mkState id (ac_Namespace actor) (ac_Id actor) (oc_ConnectorId c) (oc_ConnectorVersion c)
     (oc_Id c) (safeReturnToUrl (cf_BaseUrl cfg) rt) false (Some (o_now s + ttl)%Z) verifier method)) as Hst.
  { intros verifier method. split; cbn; [done| |].
    - exists (o_now s). split; [|split; [lia|done]]. apply elem_of_app. right. by apply list_elem_of_singleton.
    - intros Hin. apply elem_of_app in Hin as [Hin|Hin%list_elem_of_singleton]; [|done].
      by apply (id_unused tr s _ Hs Hin). }
  unfold SetStateAndGeneratePublicUrl, saveStateToRedis, ask, reads, mbind, om_bind, mret, om_ret. cbn beta iota zeta. fold id.
  change (o_now (next s)) with (o_now s).
  assert (∀ v s1, flows_ok tr' s1 → o_now s1 = o_now s → let st := mkState id (ac_Namespace actor) (ac_Id actor) (oc_ConnectorId c) (oc_ConnectorVersion c)
     (oc_Id c) (safeReturnToUrl (cf_BaseUrl cfg) rt) false (Some (o_now s + ttl)%Z) v.1 v.2 in
     flows_ok tr' (writeStateToRedis eo o st ttl s1).2) as Hwrite.
  { intros v s1 H1 Hnow st. apply write_flows; [done|]. rewrite Hnow. apply Hst. }
  destruct (az_PKCE (oa_Authorization (oc_auth c))) as [m|]; cbn beta iota.
  - pose proof (calms_new_verifier pkce_fuel (next s)) as Hc. pose proof (new_verifier_now pkce_fuel (next s)) as Hn.
    destruct (new_verifier o pkce_fuel (next s)) as [[[]|v] s1]; cbn in Hc, Hn.
    { exact (flows_tame _ _ _ Hc Hs1). }
    specialize (Hwrite (v, PKCE_GetMethodOrDefault (Some m)) s1 (flows_tame _ _ _ Hc Hs1) Hn). cbn in Hwrite |- *.
    fold ttl. destruct (writeStateToRedis eo o _ ttl s1) as [[] s2]; [done|]. cbn. by destruct (getPublicRedirectUrl _ _ _).
  - specialize (Hwrite ("", "") (next s) Hs1 eq_refl). cbn in Hwrite |- *.
    fold ttl. destruct (writeStateToRedis eo o _ ttl (next s)) as [[] s2]; [done|]. cbn. by destruct (getPublicRedirectUrl _ _ _).
Qed.

Lemma cancel_flows tr s st b : flows_ok tr s → state_ok tr (o_now s) (os_Id st) st → flows_ok tr (RecordCancelSessionAfterAuth eo o st b s).2.
Proof.
  intros Hs Hst. unfold RecordCancelSessionAfterAuth. case_decide; [done|]. unfold mbind, om_bind, reads. cbn beta iota zeta.
  pose proof (write_flows tr s (set_Cancel b st) (default 0%Z (os_ExpiresAt st) - o_now s)) as Hw.
  assert (flows_ok tr (writeStateToRedis eo o (set_Cancel b st) (default 0%Z (os_ExpiresAt st) - o_now s) s).2) as H2.
  { apply Hw; [done|]. destruct Hst as [H1 H2 H3]. by split. }
  destruct (writeStateToRedis _ _ _ _ s) as [[] s1]; exact H2.
Qed.

(** A state that was read. *)
Lemma read_flows tr s id st s' : flows_ok tr s → readStateFromRedis o id s = (Ok st, s') → state_ok tr (o_now s) id st ∧ o_now s' = o_now s.
Proof.
  intros Hs. unfold readStateFromRedis, mbind, om_bind, or_fail, redis_do, Run, redis_call. fold (ms s).
  destruct (at_link o (o_n s)); [|done|done]. pose proof (call_reply GET (getStateRedisKey id) (ms s) (o_redis s)) as Hr.
  destruct (call GET (getStateRedisKey id) (ms s) (o_redis s)) as [[e|[raw|]] x]; [done| |done]. cbn [fst] in Hr.
  unfold from_option, decrypt_string. destruct (ParseInlineString raw) as [ef|] eqn:Hp; [|done]. cbn.
  destruct (Decrypt (o_caches s) ef) as [e|p] eqn:Hd; [done|]. destruct (state_Unmarshal p) as [st'|] eqn:Hu; [|done].
  intros [= <- <-]. split; [|done]. destruct (lookup (o_redis s) (ms s) (getStateRedisKey id)) as [en|] eqn:Hl; [|done].
  eapply (fl_states _ _ Hs); [exact Hl|by rewrite <- Hr|]. by exists ef, p.
Qed.

(** ** Operations on connections *)

Hypothesis auth_get_put : ∀ s a, auth_get (auth_put s a) = s.

Record tame_world (w w' : world) : Prop := {
  tw_store : tame (auth_get (w_auth w)) (auth_get (w_auth w'));
  tw_db : c_Id <$> w_db w' = c_Id <$> w_db w
}.

#[local] Instance tame_world_preorder : PreOrder tame_world.
Proof.
  split.
  - intros w. by split.
  - intros w1 w2 w3 [H1 H2] [H3 H4]. split; [by etrans|congruence].
Qed.

Definition hush {B} (m : op B) : Prop := ∀ w, tame_world w (m w).2.

Lemma hush_calm {B} (m : op B) : calm m → hush m.
Proof. intros Hm w. destruct (Hm w) as [H1 _ H2 _]. split; [by rewrite H1|done]. Qed.

Lemma hush_in_store {E B} (m : om E B) : calms m → hush (in_store m).
Proof.
  intros Hm w. specialize (Hm (auth_get (w_auth w))). unfold in_store. destruct (m _) as [r s]. split; [|done].
  cbn. by rewrite auth_get_put.
Qed.

Lemma hush_bind {B B'} (m : op B) (k : B → op B') : hush m → (∀ b, hush (k b)) → hush (m ≫= k).
Proof.
  intros Hm Hk w. specialize (Hm w). unfold mbind, op_bind. destruct (m w) as [[e|b] w1]; [done|].
  etrans; [exact Hm|apply Hk].
Qed.

Lemma hush_or_else {B} e (m : op B) : hush m → hush (or_else e m).
Proof. intros Hm w. specialize (Hm w). unfold or_else. by destruct (m w) as [[?|?] ?]. Qed.

Lemma hush_ignore {B} (m : op B) : hush m → hush (ignore m).
Proof. intros Hm w. apply Hm. Qed.

Lemma hush_if {B} (b : bool) (m m' : op B) : hush m → hush m' → hush (if b then m else m').
Proof. by destruct b. Qed.

Lemma hush_log e : hush (log_event e).
Proof.
  apply hush_bind; [|intros _; by intros w]. apply hush_in_store. intros s. by apply tame_same.
Qed.

Ltac hushing :=
  repeat (lazymatch goal with
    | |- hush (mbind _ _) => apply hush_bind; [|intros ?]
    | |- hush (or_else _ _) => apply hush_or_else
    | |- hush (ignore _) => apply hush_ignore
    | |- hush (in_store _) => apply hush_in_store
    | |- hush (log_event _) => apply hush_log
    | |- hush (if decide _ then _ else _) => case_decide
    | |- hush (if ?b then _ else _) => first [apply hush_if | destruct b]
    | |- hush (match ?x with _ => _ end) => destruct x
    | |- calms _ => solve [eauto with tame]
    | |- hush _ => first [solve [auto] | apply hush_calm; solve [eauto with calm]]
    end).

#[local] Hint Resolve calms_refresh calms_exchangeCode calms_GenerateAuthUrl calms_Revoke : tame.

Lemma hush_refresh d a mode : hush (refreshAccessToken eo o d a mode).
Proof. unfold refreshAccessToken, classifyAndRecordRefreshFailure. hushing. Qed.

Lemma hush_Resolve d a : hush (Resolve eo o d a).
Proof.
  pose proof (hush_refresh d a). unfold Resolve, getValidToken. hushing.
Qed.

Lemma hush_Refresh d a : hush (Refresh eo o d a).
Proof. pose proof (hush_refresh d a). unfold Refresh. hushing. Qed.

Lemma hush_task d a : hush (task_refreshOauth2Token eo o d a).
Proof. pose proof (hush_Refresh d a). unfold task_refreshOauth2Token. hushing. Qed.

(** After the removal of the state the callback writes none. *)
Lemma callback_hush d a st query : ∃ rest : result string unit → op string, (∀ r, hush (rest r)) ∧ (∀ msg, calm (rest (Err msg))) ∧
  ∀ w, CallbackFrom3rdParty eo o cfg d a st query w =
       (r ← in_store (exchangeCode eo o cfg (newOAuth2 d a (w_mem w)) st query); rest r) w.
Proof.
  set (failed := λ msg, record_auth_failed cfg st msg).
  assert (∀ msg, calm (failed msg)) as Hcalm.
  { intros msg. unfold failed, record_auth_failed. apply calm_bind; [apply calm_or_else; eauto with calm|intros _]. by intros w. }
  assert (∀ msg, hush (failed msg)) as Hfailed by (intros msg; apply hush_calm, Hcalm).
  eexists (λ r, match r with
                | Err msg => failed msg
                | Ok _ => c ← mem; primitive (λ w,
                    match HandleCredentialsEstablished (Some (cd_Connector d)) w with
                    | (Ok pending, w') =>
                        let returnToUrl := safeReturnToUrl (cf_BaseUrl cfg) (os_ReturnToUrl st) in
                        (Ok (if (pending : bool) then appendSetupPendingToReturnUrl (c_Id c) returnToUrl else returnToUrl), w')
                    | (Err _, w') => (_ ← log_event (ExchangeFailed tokenExchangeInternalError); failed "failed to handle post-auth state transition") w'
                    end)
                end). split_and!; [|exact Hcalm|].
  - intros [msg|[]]; [apply Hfailed|]. hushing. intros w. pose proof (hush_calm _ (calm_Credentials (Some (cd_Connector d))) w) as Hc.
    unfold primitive. destruct (HandleCredentialsEstablished _ w) as [[e|p] w1]; cbn in Hc; [|exact Hc].
    etrans; [exact Hc|]. assert (hush (_ ← log_event (ExchangeFailed tokenExchangeInternalError); failed "failed to handle post-auth state transition")) as Hq by hushing.
    apply Hq.
  - intros w. unfold CallbackFrom3rdParty, mem, in_store. unfold mbind, op_bind.
    destruct (exchangeCode eo o cfg _ st query (auth_get (w_auth w))) as [[msg|[]] s]; [done|]. cbn. done.
Qed.

(** ** The service *)

(** What the id of the row is, with what else of the connection is fixed. *)
Definition shape (p : conn_def * world) : conn_def * option string := (p.1, c_Id <$> w_db p.2).

Record sys_tame (y y' : osys (S := S)) : Prop := {
  st_store : tame (y_store y) (y_store y');
  st_conns id : shape <$> y_conns y' !! id = shape <$> y_conns y !! id
}.

#[local] Instance sys_tame_preorder : PreOrder sys_tame.
Proof.
  split.
  - intros y. by split.
  - intros y1 y2 y3 [H1 H2] [H3 H4]. split; [by etrans|]. intros id. by rewrite H4.
Qed.

(** Nothing was sent to a provider and no token was stored. *)
Definition idle (s s' : ostore S) : Prop := o_sent s' = o_sent s ∧ o_tokens s' = o_tokens s.

#[local] Instance idle_preorder : PreOrder idle.
Proof. split; [done|]. intros s1 s2 s3 [] []. split; congruence. Qed.

Lemma shape_insert (y : osys (S := S)) c d w w' : y_conns y !! c = Some (d, w) → c_Id <$> w_db w' = c_Id <$> w_db w →
  ∀ id, shape <$> <[c := (d, w')]> (y_conns y) !! id = shape <$> y_conns y !! id.
Proof.
  intros Hc Hw id. destruct (decide (id = c)) as [->|Hne]; [|by rewrite lookup_insert_ne].
  rewrite lookup_insert_eq, Hc. cbn. unfold shape. cbn. by rewrite Hw.
Qed.

Lemma run_conn_hush {B} id (m : conn_def → op B) y : (∀ d, hush (m d)) → sys_tame y (run_conn id m y).2.
Proof.
  intros Hm. unfold run_conn. destruct (y_conns y !! id) as [[d w]|] eqn:Hid; [|done].
  pose proof (Hm d (with_auth (auth_put (y_store y) (w_auth w)) w)) as [Hs Hw]. destruct (m d _) as [r w']. cbn in Hs, Hw. split; cbn.
  - by rewrite auth_get_put in Hs.
  - by eapply shape_insert.
Qed.

Lemma run_conn_other {B} id (m : conn_def → op B) y id' : id' ≠ id → y_conns (run_conn id m y).2 !! id' = y_conns y !! id'.
Proof.
  intros Hne. unfold run_conn. destruct (y_conns y !! id) as [[d w]|]; [|done]. destruct (m d _) as [r w']. cbn. by rewrite lookup_insert_ne.
Qed.

Lemma run_conn_calm {B} id (m : conn_def → op B) y : (∀ d, calm (m d)) → y_store (run_conn id m y).2 = y_store y.
Proof.
  intros Hm. unfold run_conn. destruct (y_conns y !! id) as [[d w]|] eqn:Hid; [|done].
  pose proof (calm_auth _ _ (Hm d (with_auth (auth_put (y_store y) (w_auth w)) w))) as Hs. destruct (m d _) as [r w']. cbn in *.
  by rewrite Hs, auth_get_put.
Qed.

Lemma on_store_calms {E B} (m : om E B) y : calms m → sys_tame y (on_store m y).2.
Proof. intros Hm. specialize (Hm (y_store y)). unfold on_store. destruct (m _) as [r s]. by split. Qed.

Lemma idle_read id (s : ostore S) : idle s (readStateFromRedis o id s).2.
Proof.
  unfold readStateFromRedis, mbind, om_bind, or_fail, redis_do, decrypt_string, from_option. destruct (Run _ _ _ _) as [[e|[raw|]] x]; [done| |done].
  destruct (ParseInlineString raw) as [ef|]; [|done]. cbn. destruct (Decrypt _ ef) as [|p]; [done|]. by destruct (state_Unmarshal p).
Qed.

Lemma idle_delete id (s : ostore S) : idle s (deleteStateFromRedis o id s).2.
Proof. unfold deleteStateFromRedis, or_fail, redis_do. by destruct (Run _ _ _ _) as [[e|n] x]. Qed.

Lemma idle_session (s : ostore S) : idle s (session_call o s).2.
Proof. unfold session_call, db_call, ask, mbind, om_bind. cbn. by destruct (at_db_fails o (o_n s)). Qed.

(** Rows are under their ids. *)
Definition rows_ok (y : osys (S := S)) : Prop := ∀ id p i, y_conns y !! id = Some p → c_Id <$> w_db p.2 = Some i → i = id.

Lemma rows_kept y y' : (∀ id, shape <$> y_conns y' !! id = shape <$> y_conns y !! id) → rows_ok y → rows_ok y'.
Proof.
  intros Hc Hy id p i Hp Hi. specialize (Hc id). rewrite Hp in Hc. cbn in Hc.
  destruct (y_conns y !! id) as [q|] eqn:Hq; [|done]. injection Hc as H1 H2. apply (Hy id q i Hq). by rewrite <- H2.
Qed.

Record sys_ok (tr : trace) (y : osys (S := S)) : Prop := {
  sy_flows : flows_ok tr (y_store y);
  sy_rows : rows_ok y
}.

Lemma sys_ok_tame tr y y' : sys_tame y y' → sys_ok tr y → sys_ok tr y'.
Proof. intros Ht [H1 H2]. split; [by eapply flows_tame; [apply Ht|]|by eapply rows_kept; [apply Ht|]]. Qed.

(** A state that [getOAuth2State] lets through. *)
Record opened (tr : trace) (actor : IActorData) (y : osys (S := S)) (id : string) (st : state) (a : AuthOAuth2) : Prop := {
  op_state : state_ok tr (o_now (y_store y)) id st;
  op_expiry : (o_now (y_store y) ≤ default 0 (os_ExpiresAt st))%Z;
  op_actor : os_ActorId st = ac_Id actor;
  op_namespace : os_Namespace st = ac_Namespace actor;
  op_conn : ∃ d w, y_conns y !! os_ConnectionId st = Some (d, w) ∧ cd_Namespace d = ac_Namespace actor ∧ cd_OAuth2 d = Some a
}.

Lemma load_calm : ∀ d : conn_def, calm (_ ← getConnection; mret d).
Proof. intros d. apply calm_bind; [eauto with calm|]. intros _. apply calm_ret. Qed.

Lemma run_conn_load id y d y' : run_conn id (λ d, _ ← getConnection; mret d) y = (Ok d, y') → ∃ w, y_conns y !! id = Some (d, w).
Proof.
  unfold run_conn. destruct (y_conns y !! id) as [[d0 w]|]; [|done]. unfold mbind, op_bind.
  destruct (getConnection _) as [[e|c] w']; [done|]. cbn. intros [= <- _]. by exists w.
Qed.

Lemma opened_state tr actor id y : sys_ok tr y →
  let '(r, y') := getOAuth2State o actor id y in
  sys_tame y y' ∧ idle (y_store y) (y_store y') ∧
  match r with
  | Ok (st, a) => opened tr actor y id st a ∧ (∀ id', id' ≠ os_ConnectionId st → y_conns y' !! id' = y_conns y !! id')
  | Err _ => True
  end.
Proof.
  intros Hy. unfold getOAuth2State. pose proof (on_store_calms (readStateFromRedis o id) y (calms_readState id)) as Ht.
  pose proof (idle_read id (y_store y)) as Hi. unfold on_store in *.
  destruct (readStateFromRedis o id (y_store y)) as [[e|st] s1] eqn:Hr; cbn in Ht, Hi; [by split_and!|].
  destruct (read_flows tr _ id st s1 (sy_flows _ _ Hy) Hr) as [Hst Hnow]. cbn [y_store].
  destruct (negb (state_IsValid st)); [by split_and!|]. rewrite Hnow. destruct (_ <? _)%Z eqn:Hexp; [by split_and!|]. apply Z.ltb_ge in Hexp.
  case_decide as Ha; [by split_and!|]. case_decide as Hns; [by split_and!|].
  set (y1 := mkOsys s1 (y_conns y)) in *.
  pose proof (run_conn_hush (os_ConnectionId st) _ y1 (λ d, hush_calm _ (load_calm d))) as Ht2.
  pose proof (run_conn_calm (os_ConnectionId st) _ y1 load_calm) as Hs2.
  pose proof (λ id', run_conn_other (os_ConnectionId st) (λ d, _ ← getConnection; mret d) y1 id') as Ho.
  destruct (run_conn (os_ConnectionId st) _ y1) as [[e|d] y2] eqn:Hrun; cbn in Ht2, Hs2, Ho.
  all: assert (sys_tame y y2 ∧ idle (y_store y) (y_store y2)) as [Ht' Hi'] by (split; [by etrans|by rewrite Hs2]).
  { by destruct e. }
  destruct (run_conn_load _ _ _ _ Hrun) as [w Hw].
  case_decide as Hd; [done|]. destruct (cd_OAuth2 d) as [a|] eqn:Hoa; [|done].
  split_and!; [done..| |done]. split; [done|done|done|done|]. exists d, w. split; [done|]. split; [congruence|done].
Qed.

(** *** A callback *)

Lemma delete_gone id s s' : deleteStateFromRedis o id s = (Ok tt, s') → lookup (o_redis s') (ms s') (getStateRedisKey id) = None.
Proof.
  unfold deleteStateFromRedis, or_fail, redis_do, Run, redis_call. fold (ms s). destruct (at_link o (o_n s)); [|done|done].
  pose proof (call_same DEL (getStateRedisKey id) (ms s) (o_redis s)) as Hc.
  destruct (call DEL (getStateRedisKey id) (ms s) (o_redis s)) as [[e|n] x]; [done|]. intros Heq. simplify_eq. exact Hc.
Qed.

Lemma tame_gone s s' k : tame s s' → lookup (o_redis s) (ms s) k = None → lookup (o_redis s') (ms s') k = None.
Proof. intros Ht Hk. destruct (lookup (o_redis s') (ms s') k) as [e|] eqn:He; [|done]. apply Ht in He. congruence. Qed.

Lemma hush_callback d a st query : hush (CallbackFrom3rdParty eo o cfg d a st query).
Proof.
  destruct (callback_hush d a st query) as (rest & Hrest & _ & Heq). intros w. rewrite Heq. apply hush_bind; [|done].
  apply hush_in_store, calms_exchangeCode.
Qed.

(** The code is sent, and a token stored, only after the state is gone. *)
Lemma callback_effect d a st query w : let s := auth_get (w_auth w) in
  let s' := auth_get (w_auth (CallbackFrom3rdParty eo o cfg d a st query w).2) in
  idle s s' ∨ lookup (o_redis s') (ms s') (getStateRedisKey (os_Id st)) = None.
Proof.
  destruct (callback_hush d a st query) as (rest & Hrest & Hcalm & Heq). rewrite Heq. unfold mbind, op_bind, in_store.
  destruct (exchangeCode_after (newOAuth2 d a (w_mem w)) st query) as (tail & Htail & ->). unfold mbind, om_bind, or_exchange_fail.
  pose proof (idle_delete (os_Id st) (auth_get (w_auth w))) as Hi.
  destruct (deleteStateFromRedis o (os_Id st) (auth_get (w_auth w))) as [[e|[]] s1] eqn:Hd.
  - left. unfold exchange_fail. rewrite (calm_auth _ _ (Hcalm _ _)). cbn. rewrite auth_get_put. exact Hi.
  - right. apply delete_gone in Hd. specialize (Htail s1). destruct (tail s1) as [r s2].
    eapply tame_gone; [apply (tw_store _ _ (Hrest r _))|]. cbn. rewrite auth_get_put. by eapply tame_gone.
Qed.

Lemma callback_step tr actor query y : sys_ok tr y →
  let y' := (callback eo o cfg actor query y).2 in let id := Values_Get "state" query in
  sys_tame y y' ∧
  (idle (y_store y) (y_store y') ∨
   ∃ st a, opened tr actor y id st a ∧ lookup (o_redis (y_store y')) (ms (y_store y')) (getStateRedisKey id) = None ∧
           ∀ id', id' ≠ os_ConnectionId st → y_conns y' !! id' = y_conns y !! id').
Proof.
  intros Hy. unfold callback. case_decide as Hempty; [by split; [|left]|]. unfold apid_Parse. rewrite decide_False by done.
  destruct (existsb _ _); [|by split; [|left]]. pose proof (opened_state tr actor (Values_Get "state" query) y Hy) as Hop.
  destruct (getOAuth2State o actor _ y) as [[e|[st a]] y1]; destruct Hop as (Ht1 & Hi1 & Hop); [by split; [|left]|].
  destruct Hop as [Hop Ho1]. set (session := if os_CancelSessionAfterAuth st then _ else _).
  assert (sys_tame y1 session.2 ∧ idle (y_store y1) (y_store session.2) ∧ y_conns session.2 = y_conns y1) as (Ht2 & Hi2 & Ho2).
  { unfold session. destruct (os_CancelSessionAfterAuth st); [|done]. split; [apply on_store_calms, calms_db_call|].
    unfold on_store. pose proof (idle_session (y_store y1)) as Hi. by destruct (session_call o (y_store y1)) as [r s]. }
  destruct session as [[e|u] y2]; cbn in Ht2, Hi2, Ho2; [split; [by etrans|left; by etrans]|].
  assert (sys_tame y y2 ∧ idle (y_store y) (y_store y2)) as [Ht Hi] by (split; by etrans).
  pose proof (run_conn_hush (os_ConnectionId st) _ y2 (λ d, hush_callback d a st query)) as Ht3.
  pose proof (λ id', run_conn_other (os_ConnectionId st) (λ d, CallbackFrom3rdParty eo o cfg d a st query) y2 id') as Ho3.
  assert (∀ p : result op_error string * osys, (or_reject p).2 = p.2) as -> by (by intros [[] ?]).
  split; [by etrans|]. unfold run_conn in *. destruct (y_conns y2 !! os_ConnectionId st) as [[d w]|]; [|by left].
  pose proof (callback_effect d a st query (with_auth (auth_put (y_store y2) (w_auth w)) w)) as Heff.
  destruct (CallbackFrom3rdParty eo o cfg d a st query _) as [r w']; cbn in *. rewrite auth_get_put, (so_id _ _ _ _ (op_state _ _ _ _ _ _ Hop)) in Heff.
  destruct Heff as [Heff|Heff]; [left; by etrans|right]. exists st, a. split_and!; [done|done|]. intros id' Hne. rewrite Ho3, Ho2, Ho1; done.
Qed.

(** *** The other operations *)

Lemma redirect_step tr actor isSession stateParam y : sys_ok tr y → sys_ok tr (redirect eo o cfg actor isSession stateParam y).2.
Proof.
  intros Hy. unfold redirect. set (session := if isSession then _ else _).
  assert (sys_tame y session.2) as Ht1 by (unfold session; destruct isSession; [done|apply on_store_calms, calms_db_call]).
  destruct session as [[e|u] y1]; cbn in Ht1; [by eapply sys_ok_tame|]. apply (sys_ok_tame _ _ _ Ht1) in Hy. clear Ht1.
  case_decide; [done|]. destruct (apid_Parse stateParam) as [id|]; [|done]. pose proof (opened_state tr actor id y1 Hy) as Hop.
  destruct (getOAuth2State o actor id y1) as [[e|[st a]] y2]; destruct Hop as (Ht2 & _ & Hop); [by eapply sys_ok_tame|].
  destruct Hop as [Hop _]. pose proof (sys_ok_tame _ _ _ Ht2 Hy) as [Hf Hr].
  assert (sys_ok tr (on_store (RecordCancelSessionAfterAuth eo o st (negb isSession)) y2).2) as Hy3.
  { unfold on_store. pose proof (cancel_flows tr (y_store y2) st (negb isSession) Hf) as Hc.
    destruct (RecordCancelSessionAfterAuth _ _ _ _ _) as [r s]. split; [|done]. apply Hc.
    destruct Hop as [Hst _ _ _ _]. rewrite (so_id _ _ _ _ Hst). eapply state_ok_later; [apply Ht2|done]. }
  destruct (on_store _ y2) as [[e|st'] y3]; cbn in Hy3; [done|].
  assert (∀ p : result op_error string * osys, (or_reject p).2 = p.2) as -> by (by intros [[] ?]).
  eapply sys_ok_tame; [|exact Hy3]. apply run_conn_hush. intros d. hushing.
Qed.

(** The event of a start: an id was drawn for a flow of the connection. *)
Definition start_events (actor : IActorData) (connectionId : string) (y y' : osys (S := S)) : trace :=
  if (o_n (y_store y) <? o_n (y_store y'))%nat then
    [Started (PrefixOauth2State +:+ at_id o (o_n (y_store y))) (ac_Id actor) (ac_Namespace actor) connectionId (o_now (y_store y))]
  else [].

(** The row is loaded. *)
Lemma getConnection_mem w u w' : getConnection w = (Ok u, w') → c_Id <$> w_db w = Some (c_Id (w_mem w')).
Proof.
  assert (∀ v r v', (_ ← call_out; mret tt) v = (r, v') → w_mem v' = w_mem v) as Hc.
  { intros v r v'. unfold mbind, op_bind, call_out. by destruct (w_faults v) as [|[|] fs]; intros [= _ <-]. }
  unfold getConnection. unfold mbind at 1, op_bind at 1. destruct (call_out w) as [[e|[]] w1] eqn:Hw1; [done|].
  assert (w_db w1 = w_db w) as <- by (unfold call_out in Hw1; by destruct (w_faults w) as [|[|] fs]; simplify_eq/=).
  unfold primitive. destruct (w_db w1) as [c|]; [|done]. intros Heq%Hc. cbn in *. congruence.
Qed.

Lemma start_step tr actor c rt y : sys_ok tr y → let y' := (start_flow eo o cfg actor c rt y).2 in
  sys_ok (tr ++ start_events actor c y y') y'.
Proof.
  intros Hy. unfold start_flow, start_events.
  assert (∀ y', sys_tame y y' → o_n (y_store y') = o_n (y_store y) → sys_ok (tr ++ start_events actor c y y') y') as Hsame.
  { intros y' Ht Hn. unfold start_events. rewrite (proj2 (Nat.ltb_ge _ _)) by lia. rewrite app_nil_r. by eapply sys_ok_tame. }
  unfold run_conn. destruct (y_conns y !! c) as [[d w]|] eqn:Hc; [|by apply Hsame].
  set (w0 := with_auth (auth_put (y_store y) (w_auth w)) w).
  assert (∀ w', calm_world w0 w' → let y' := mkOsys (auth_get (w_auth w')) (<[c := (d, w')]> (y_conns y)) in sys_tame y y' ∧ y_store y' = y_store y) as Hcalm.
  { intros w' [H1 _ H2 _]. assert (auth_get (w_auth w') = y_store y) as Hst by (by rewrite H1; cbn; rewrite auth_get_put).
    split; [|done]. split; cbn; [by rewrite Hst|]. by eapply shape_insert. }
  destruct (cd_OAuth2 d) as [a|].
  2:{ destruct (Hcalm w0) as [Ht He]; [done|]. apply Hsame; [exact Ht|exact (f_equal o_n He)]. }
  pose proof (calm_getConnection w0) as Hg. unfold mbind, op_bind. pose proof (getConnection_mem w0) as Hm.
  destruct (getConnection w0) as [[e|u] w1]; cbn [snd] in Hg; destruct (Hcalm w1 Hg) as [Ht He].
  { apply Hsame; [exact Ht|exact (f_equal o_n He)]. }
  specialize (Hm u w1 eq_refl). unfold mem, in_store. cbn beta iota. change (auth_get (w_auth w1) = y_store y) in He. rewrite He.
  set (cn := newOAuth2 d a (w_mem w1)).
  assert (oc_Id cn = c) as Hid by (eapply (sy_rows _ _ Hy c (d, w)); [exact Hc|]; exact Hm).
  pose proof (start_flows tr (y_store y) cn actor rt (sy_flows _ _ Hy)) as Hs. rewrite Hid in Hs.
  destruct (SetStateAndGeneratePublicUrl eo o cfg cn actor rt (y_store y)) as [r s]; cbn [snd] in Hs.
  assert (o_n (y_store y) < o_n s)%nat as Hn.
  { destruct (fl_ids _ _ Hs (Started (PrefixOauth2State +:+ at_id o (o_n (y_store y))) (ac_Id actor) (ac_Namespace actor) c (o_now (y_store y))))
      as (n & Heq & Hlt); [set_solver|]. apply (inj (String.append PrefixOauth2State)), ids_fresh in Heq. by subst. }
  set (w2 := with_auth (auth_put s (w_auth w1)) w1).
  match goal with |- context [let '(_, _) := ?m in _] => assert (m.2 = w2) as Hm2 by (by destruct r); destruct m as [r' w3] end.
  cbn [snd y_store] in *. subst w3. assert (auth_get (w_auth w2) = s) as -> by apply auth_get_put.
  rewrite (proj2 (Nat.ltb_lt _ _)) by done. split; [exact Hs|].
  eapply rows_kept; [|exact (sy_rows _ _ Hy)]. eapply shape_insert; [exact Hc|apply Hg].
Qed.

(** *** Everything that happens *)

(** An OAuth2 operation on a connection. *)
Definition with_oauth {B} (f : oAuth2Connection → om (S := S) B unit) (d : conn_def) : op unit :=
  match cd_OAuth2 d with
  | None => throw Failed
  | Some a => c ← mem; r ← in_store (f (newOAuth2 d a c)); match r with Ok _ => mret tt | Err _ => throw Failed end
  end.

Definition with_auth_method {B} (f : conn_def → AuthOAuth2 → op B) (d : conn_def) : op B :=
  match cd_OAuth2 d with None => throw Failed | Some a => f d a end.

(** The requests of the browser, of the API and the background, steps of the
    setup that leave flows alone, the other users of Redis, and time. *)
Inductive sys_op : Type :=
  | YStart (actor : IActorData) (connectionId returnToUrl : string)
  | YRedirect (actor : IActorData) (isSession : bool) (stateParam : string)
  | YCallback (actor : IActorData) (query : Values)
  | YResolve (connectionId : string)
  | YRefresh (connectionId : string)
  | YTask (connectionId : string)
  | YRevoke (connectionId : string)
  | YPersist (connectionId : string) (clientId clientSecret : option string) (actor : string)
  | YClientCredentials (connectionId : string)
  | YSetup (connectionId : string) (m : op unit)
  | YRedis (key : string) (R : Set) (c : cmd R)
  | YTick (dt : Z).

Definition run_sys_op (op : sys_op) (y : osys (S := S)) : osys :=
  match op with
  | YStart actor c rt => (start_flow eo o cfg actor c rt y).2
  | YRedirect actor isSession stateParam => (redirect eo o cfg actor isSession stateParam y).2
  | YCallback actor query => (callback eo o cfg actor query y).2
  | YResolve c => (run_conn c (with_auth_method (Resolve eo o)) y).2
  | YRefresh c => (run_conn c (with_auth_method (Refresh eo o)) y).2
  | YTask c => (run_conn c (with_auth_method (task_refreshOauth2Token eo o)) y).2
  | YRevoke c => (run_conn c (with_oauth (Revoke o)) y).2
  | YPersist c clientId clientSecret actor =>
      (run_conn c (λ d, with_oauth (λ oc, PersistClientCredentials eo o oc clientId clientSecret actor) d) y).2
  | YClientCredentials c => (run_conn c (with_oauth (λ oc, ExchangeClientCredentials eo o oc None)) y).2
  | YSetup c m => (run_conn c (λ _, m) y).2
  | YRedis key R c => mkOsys (set_redis (call c key (ms (y_store y)) (o_redis (y_store y))).2 (y_store y)) (y_conns y)
  | YTick dt => mkOsys (set_now (o_now (y_store y) + dt)%Z (y_store y)) (y_conns y)
  end.

Definition op_ok (op : sys_op) : Prop :=
  match op with
  | YSetup _ m => calm m
  | YRedis key _ _ => ∀ id, key ≠ getStateRedisKey id
  | YTick dt => (0 ≤ dt)%Z
  | _ => True
  end.

(** A request went to a provider, or a token was stored. *)
Definition acted (y y' : osys (S := S)) : Prop :=
  length (o_sent (y_store y')) ≠ length (o_sent (y_store y)) ∨ length (o_tokens (y_store y')) ≠ length (o_tokens (y_store y)).

#[global] Instance acted_dec y y' : Decision (acted y y').
Proof. unfold acted. apply _. Defined.

(** What an operation adds to the history of flows. *)
Definition events (op : sys_op) (y : osys (S := S)) : trace :=
  match op with
  | YStart actor c _ => start_events actor c y (run_sys_op op y)
  | YCallback _ query => if decide (acted y (run_sys_op op y)) then [Exchanged (Values_Get "state" query)] else []
  | _ => []
  end.

Fixpoint history (ops : list sys_op) (y : osys (S := S)) : trace * osys :=
  match ops with
  | [] => ([], y)
  | op :: ops => let '(tr, y') := history ops (run_sys_op op y) in (events op y ++ tr, y')
  end.

Lemma idle_acted y y' : idle (y_store y) (y_store y') → ¬ acted y y'.
Proof. intros [H1 H2]. unfold acted. rewrite H1, H2. lia. Qed.

Lemma exchanged_step tr actor query y : sys_ok tr y → let op := YCallback actor query in sys_ok (tr ++ events op y) (run_sys_op op y).
Proof.
  intros Hy. destruct (callback_step tr actor query y Hy) as [Ht Hor]. cbn [events run_sys_op] in *.
  set (y' := (callback eo o cfg actor query y).2) in *. destruct (decide (acted y y')) as [Hacted|]; [|rewrite app_nil_r; by eapply sys_ok_tame].
  destruct Hor as [Hi|(st & a & Hop & Hgone & _)]; [by apply idle_acted in Hi|]. destruct (sys_ok_tame _ _ _ Ht Hy) as [[Hc Hs Hids] Hr].
  destruct (so_started _ _ _ _ (op_state _ _ _ _ _ _ Hop)) as (t0 & Hin & _). split; [|done]. split; [done| |].
  - intros id e raw st' He Hget Hread. apply state_ok_started; [|by eapply Hs]. intros [= <-]. congruence.
  - intros ev [Hev| ->%list_elem_of_singleton]%elem_of_app; [by apply Hids|]. exact (Hids _ Hin).
Qed.

Lemma redis_step tr key (R : Set) (c : cmd R) y : (∀ id, key ≠ getStateRedisKey id) → sys_ok tr y → sys_ok tr (run_sys_op (YRedis key R c) y).
Proof.
  intros Hkey [[Hc Hs Hi] Hr]. split; [|done]. split; [done| |done]. intros id e raw st He. cbn in He. apply Hs.
  change (ms _) with (ms (y_store y)) in He. by rewrite call_other in He.
Qed.

Lemma hush_with_oauth {B} (f : oAuth2Connection → om B unit) d : (∀ c, calms (f c)) → hush (with_oauth f d).
Proof. intros Hf. unfold with_oauth. destruct (cd_OAuth2 d); hushing. Qed.

Lemma hush_with_auth_method {B} (f : conn_def → AuthOAuth2 → op B) d : (∀ a, hush (f d a)) → hush (with_auth_method f d).
Proof. intros Hf. unfold with_auth_method. destruct (cd_OAuth2 d); hushing. Qed.

#[local] Hint Resolve hush_Resolve hush_Refresh hush_task calms_Revoke calms_PersistClientCredentials calms_ExchangeClientCredentials : tame.

Lemma step_ok tr op y : op_ok op → sys_ok tr y → sys_ok (tr ++ events op y) (run_sys_op op y).
Proof.
  intros Hop Hy. destruct op; cbn [events]; rewrite ?app_nil_r; cbn [op_ok] in Hop.
  1: by apply start_step.
  1: by apply redirect_step.
  1: by apply exchanged_step.
  8: by apply redis_step.
  all: eapply sys_ok_tame; [|exact Hy]; cbn [run_sys_op].
  1-3: apply run_conn_hush; intros d; apply hush_with_auth_method; eauto with tame.
  1-3: apply run_conn_hush; intros d; apply hush_with_oauth; eauto with tame.
  - apply run_conn_hush. intros _. by apply hush_calm.
  - split; [|done]. apply tame_same; cbn; lia || done.
Qed.

Lemma history_ok ops : ∀ tr y, Forall op_ok ops → sys_ok tr y → sys_ok (tr ++ (history ops y).1) (history ops y).2.
Proof.
  induction ops as [|op ops IH]; intros tr y Hops Hy; [by rewrite app_nil_r|]. inversion Hops as [|? ? Hop Hops']; subst. cbn [history].
  pose proof (IH _ _ Hops' (step_ok tr op y Hop Hy)) as IH'. destruct (history ops (run_sys_op op y)) as [tr' y']. cbn in *.
  by rewrite app_assoc.
Qed.

(** No flow is under way. *)
Definition no_states (s : ostore S) : Prop := ∀ id, lookup (o_redis s) (ms s) (getStateRedisKey id) = None.

Lemma sys_ok_start y : no_states (y_store y) → rows_ok y → caches_ok (o_caches (y_store y)) → sys_ok [] y.
Proof. intros Hn Hr Hc. split; [|done]. split; [done| |set_solver]. intros id e raw st He. by rewrite Hn in He. Qed.

(** C7: Over every sequence of OAuth2 requests, background refreshes,
    revocations, steps of setups, commands of the other users of Redis and
    passing of time, from a store without flows: when a callback sends the code
    to the provider or stores a token, then its state names a flow that the
    actor of the request, in its namespace, started before for a connection of
    that namespace; the flow is not older than the round-trip time; its state
    was never exchanged before; and no other connection is touched. *)
Theorem oauth_flow_once ops y0 actor query : no_states (y_store y0) → rows_ok y0 → caches_ok (o_caches (y_store y0)) → Forall op_ok ops →
  let '(tr, y) := history ops y0 in let y' := run_sys_op (YCallback actor query) y in let id := Values_Get "state" query in
  acted y y' →
  Exchanged id ∉ tr ∧
  ∃ c d w t0, Started id (ac_Id actor) (ac_Namespace actor) c t0 ∈ tr ∧ (t0 ≤ o_now (y_store y) ≤ t0 + ttl)%Z ∧
    y_conns y !! c = Some (d, w) ∧ cd_Namespace d = ac_Namespace actor ∧ ∀ c', c' ≠ c → y_conns y' !! c' = y_conns y !! c'.
Proof.
  intros Hn Hr Hc Hops. pose proof (history_ok ops [] y0 Hops (sys_ok_start y0 Hn Hr Hc)) as Hy.
  destruct (history ops y0) as [tr y]. cbn zeta. intros Hacted. destruct (callback_step tr actor query y Hy) as [_ [Hi|(st & a & Hop & _ & Ho)]].
  { by apply idle_acted in Hi. }
  destruct Hop as [[Hid (t0 & Hin & Hle & Hexp) Hopen] Hexpiry Ha Hns (d & w & Hconn & Hd & _)]. split; [exact Hopen|].
  exists (os_ConnectionId st), d, w, t0. rewrite Ha, Hns in Hin. rewrite Hexp in Hexpiry. cbn in Hexpiry. by split_and!.
Qed.
End safety.
