(* ===== verification/OAuth2Examples.v ===== *)
(** * OAuth2 on concrete flows

    A cipher, a Redis server and a provider to run the model with, the
    witnesses of the properties of files OAuth2Config and OAuth2Safety, and the
    sequences in which a flow is completed twice or a connection is left with
    tokens it should not have. *)

From S2P Require Import Prelude GoNumbers GoStrings Namespace Permissions RateRules Redis SetupFlow Connection ConnectionFrames Actors NamespaceStore KeyMaterial Encryption EncryptService AuthExamples OAuth2Config CredentialStore OAuth2 OAuth2Safety Paging.
Open Scope string_scope.
Open Scope list_scope.

(** ** An instance *)

#[local] Instance plain_cipher : Cipher := {
  gcm_seal key nonce data := data;
  gcm_open key nonce data := Some data;
  b64_encode s := s;
  b64_decode s := Some s
}.

#[local] Instance plain_cipher_laws : CipherLaws plain_cipher.
Proof. by split. Qed.

Definition a_store : Type := ostore (gmap string entry).

#[local] Instance example_ext : External := {
  json := string;
  raw := string;
  auth_state := a_store;
  unmarshal_object _ := None;
  json_Valid _ := true;
  schema_accepts _ _ := true;
  schema_properties _ := None;
  js_boolean js _ _ _ := Some (bool_decide (js = "true"));
  js_validates js := bool_decide (js = "true");
  mustache_Render t _ _ _ := Some t;
  new_setup_token n := "stk_" +:+ pretty n
}.

#[local] Instance example_auth_store : AuthStore (S := gmap string entry) := {
  auth_get s := s;
  auth_put s _ := s
}.

#[local] Instance example_caller : Caller := { actor := "act_1"; publicBase := "https://proxy.test" }.

(** URLs are kept as they are, without their parts. *)
#[local] Instance example_urls : UrlLib := {
  URL := string;
  url_Parse s := Some s;
  url_String s := s;
  u_Scheme _ := "https";
  u_Host _ := "proxy.test";
  u_HasUser _ := false;
  u_Path _ := "";
  u_Query _ := ∅;
  u_with_Path _ u := u;
  u_with_RawQuery _ u := u;
  u_without_RawQuery u := u;
  u_without_Fragment u := u;
  EqualFold a b := bool_decide (a = b);
  ToLower s := s
}.

Definition state_tuple (s : state) : string * string * string * string * Z * string * string * bool * option Z * string * string :=
  (os_Id s, os_Namespace s, os_ActorId s, os_ConnectorId s, os_ConnectorVersion s, os_ConnectionId s, os_ReturnToUrl s,
   os_CancelSessionAfterAuth s, os_ExpiresAt s, os_PKCECodeVerifier s, os_PKCEMethod s).

Definition tuple_state (p : string * string * string * string * Z * string * string * bool * option Z * string * string) : state :=
  let '(a, b, c, d, e, f, g, h, i, j, k) := p in mkState a b c d e f g h i j k.

(** The answers of the provider: with all scopes, with too few, with a
    lifetime that does not fit. *)
Definition answer_full : tokenResponse := mkTokenResponse "access-1" (Some 3600%Z) "refresh-1" "read write".
Definition answer_few : tokenResponse := mkTokenResponse "access-2" (Some 3600%Z) "refresh-2" "write".
Definition answer_long : tokenResponse := mkTokenResponse "access-3" (Some 9223372037%Z) "" "read write".
Definition answer_bare : tokenResponse := mkTokenResponse "access-4" (Some 3600%Z) "" "read write".

#[local] Instance example_oauth : OAuthExternal := {
  state_Marshal s := as_digits (state_tuple s);
  state_Unmarshal s := tuple_state <$> of_digits s;
  parse_token_response body :=
    if decide (body = "full") then Some answer_full else if decide (body = "few") then Some answer_few
    else if decide (body = "long") then Some answer_long else if decide (body = "bare") then Some answer_bare else None;
  parse_error body := body;
  credentials_Marshal c := as_digits c;
  credentials_Unmarshal s := of_digits s;
  s256 s := s;
  redirect_jwt _ := Some "jwt";
  js_empty _ := None
}.

#[local] Instance example_oauth_laws : OAuthExternalLaws example_oauth.
Proof.
  split; cbn.
  - intros s. rewrite of_digits_as_digits. by destruct s.
  - intros c. by rewrite of_digits_as_digits.
Qed.

Definition example_outside : outside := mkOutside (λ _, "nonce-nonce-") (λ _, "") pretty Z.of_nat (λ _, mkOrders id id) (λ _, map_to_list) id.

(** Everything works; the provider answers the exchange of a code with [code],
    other requests with [refresh]. *)
Definition working (code refresh : string) : surroundings :=
  mkSurroundings (λ _, LinkUp) (λ _, false) (λ _, false) (λ _, false)
    (λ _ rq, Some (mkResponse 200 (if decide (Values_Get "grant_type" (rq_Form rq) = "authorization_code") then code else refresh)))
    (λ _, None) pretty.

Definition example_config : oauth_config := mkOauthConfig "https://proxy.test" "https://proxy.test/error" 0 None None.

Definition read_required : Scope := mkScope "read" None None "to read".
Definition write_optional : Scope := mkScope "write" None (Some (NewScopeRequiredBool false)) "to write".

Definition a_string (s : string) : option StringValue := Some (Some (mkStringValue true (Some s))).

Definition example_oauth2 (revocation : option AuthOauth2Revocation) : AuthOAuth2 :=
  mkAuthOAuth2 None None (a_string "client") (a_string "secret") [read_required; write_optional]
    (mkAuthorization "https://provider.test/authorize" [] None)
    (mkTokenConfig "https://provider.test/token" [] [("audience", "api")] None None None) revocation.

Definition example_caches : caches :=
  mkCaches ∅ {["dek_1" := "0123456789abcdef0123456789abcdef"]} {[GlobalKeyID := "dek_1"]} {["root.team" := GlobalKeyID]} true.

Definition start_time : Z := 1000000000000000000.

Definition example_store : a_store := mkOstore ∅ [] [] example_caches start_time 0 [] [].

Definition example_row : Connection := mkConnection "cxn_1" ConnectionStateSetup ConnectionHealthStateHealthy None None None ∅ ∅.

Definition example_def (revocation : option AuthOauth2Revocation) : conn_def :=
  mkConnDef "root.team" "cxr_1" 1 (Some (example_oauth2 revocation)) (mkConnector None None []).

Definition example_world : world := mkWorld (Some example_row) example_row example_store 0 0 [] [] ∅ 0 start_time [].

Definition example_system (revocation : option AuthOauth2Revocation) : osys (S := gmap string entry) :=
  mkOsys example_store {["cxn_1" := (example_def revocation, example_world)]}.

Definition alice : IActorData := mkActorData "act_1" "root.team".
Definition mallory : IActorData := mkActorData "act_2" "root.team".

Definition code_query : Values := Values_Set "code" "code-1" (Values_Set "state" "oas_0" ∅).

(** ** Witnesses *)

Definition example_start : list sys_op := [YStart alice "cxn_1" "https://proxy.test/done"; YTick 5].

Definition started (o : surroundings) (revocation : option AuthOauth2Revocation) : list flow_event * osys :=
  history example_outside o example_config example_start (example_system revocation).

(** The flow of alice, completed in time. *)
Lemma oauth_flow_witness : let o := working "full" "full" in let '(tr, y) := started o None in
  acted y (run_sys_op example_outside o example_config (YCallback alice code_query) y) ∧
  (Exchanged "oas_0" ∉ tr) ∧ ∃ c d w t0, Started "oas_0" "act_1" "root.team" c t0 ∈ tr ∧
    (t0 ≤ o_now (y_store y) ≤ t0 + 3600000000000)%Z ∧ y_conns y !! c = Some (d, w) ∧ cd_Namespace d = "root.team".
Proof.
  cbn zeta. set (o := working "full" "full").
  assert (rows_ok (example_system None)) as Hrows.
  { intros id p i Hp Hi. cbn [y_conns example_system] in Hp. apply lookup_singleton_Some in Hp as [<- <-]. by injection Hi. }
  assert (caches_ok (o_caches (y_store (example_system None)))) as Hcaches.
  { intros key dek Hk. cbn [y_store example_system o_caches example_store example_caches keyToCurrentDEKCache] in Hk. apply lookup_singleton_Some in Hk as [_ <-]. done. }
  pose proof (oauth_flow_once example_outside o example_config (λ _, eq_refl) (λ n m H, inj pretty n m H) (λ _ _, eq_refl)
    example_start (example_system None) alice code_query (λ _, eq_refl) Hrows Hcaches) as Hflow.
  specialize (Hflow ltac:(repeat constructor; cbn; lia)). change (history _ _ _ _ _) with (started o None) in Hflow.
  assert (acted (started o None).2 (run_sys_op example_outside o example_config (YCallback alice code_query) (started o None).2)) as Hacted.
  { vm_compute. left. lia. }
  destruct (started o None) as [tr y]. destruct (Hflow Hacted) as (Hopen & c & d & w & t0 & Hin & Ht & Hc & Hns & _).
  split_and!; [done|done|]. by exists c, d, w, t0.
Defined.

Lemma scope_mismatch_witness : ∃ out, detectScopeMismatch (λ _, None) [read_required; write_optional] "write admin" = Some out ∧
  "read" ∈ missingRequired out ∧ "admin" ∈ extraGranted out ∧ applyScopeMismatch out ≠ None.
Proof.
  assert (Forall scope_ok [read_required; write_optional]) as Hok by (repeat constructor; cbn; eauto; done).
  destruct (scope_mismatch_exact (λ _, None) (λ _, None) [read_required; write_optional] [read_required; write_optional] "write admin" Hok eq_refl)
    as (out & Hd & Hr & _ & He & _ & _ & _ & Ha & _).
  exists out. split; [exact Hd|]. split; [|split].
  - apply Hr. split; [vm_compute; set_solver|]. exists read_required. split_and!; [set_solver|done|done|done].
  - apply He. split; [vm_compute; set_solver|]. intros (s & [-> | ->%list_elem_of_singleton]%elem_of_cons & Hs & _); done.
  - intros Hn. pose proof (proj1 Ha Hn "read") as Hread. assert ("read" ∈ SplitScopes "write admin") as Hin.
    { apply Hread. exists read_required. split_and!; [set_solver|done|done|done]. }
    revert Hin. vm_compute. set_solver.
Defined.

(** ** Where flows and tokens go wrong *)

(** What a callback does with the state it has read. *)
Definition finish (o : surroundings) (st : state) (y : osys) : result op_error string * osys :=
  run_conn (os_ConnectionId st) (with_auth_method (λ d a, CallbackFrom3rdParty example_outside o example_config d a st code_query)) y.

(** Two callbacks that both read the state before either removes it. *)
Definition raced (o : surroundings) : option (bool * bool * nat) :=
  match getOAuth2State o alice "oas_0" (started o None).2 with
  | (Ok (st1, _), y) =>
      match getOAuth2State o alice "oas_0" y with
      | (Ok (st2, _), y) =>
          let '(r1, y) := finish o st1 y in let '(r2, y) := finish o st2 y in
          Some (is_ok r1, is_ok r2, length (o_tokens (y_store y)))
      | _ => None
      end
  | _ => None
  end.

(** A redirect that writes the state it has read after the callback has
    removed it, and a second callback. *)
Definition revived (o : surroundings) : option (bool * bool * nat) :=
  match getOAuth2State o alice "oas_0" (started o None).2 with
  | (Ok (st, _), y) =>
      let '(r1, y) := callback example_outside o example_config alice code_query y in
      let '(_, y) := on_store (RecordCancelSessionAfterAuth example_outside o st true) y in
      let '(r2, y) := callback example_outside o example_config alice code_query y in
      Some (is_ok r1, is_ok r2, length (o_tokens (y_store y)))
  | _ => None
  end.

Definition completed (o : surroundings) (revocation : option AuthOauth2Revocation) : osys :=
  (callback example_outside o example_config alice code_query (started o revocation).2).2.

Definition token_in_use (y : osys (S := gmap string entry)) : option OAuth2Token :=
  match GetOAuth2Token "cxn_1" (o_tokens (y_store y)) with Ok t => Some t | Err _ => None end.

(** A refresh that is answered with too few scopes. *)
Definition narrowed : option (bool * option string) :=
  let o := working "full" "few" in
  let '(r, y) := run_conn "cxn_1" (with_auth_method (Refresh example_outside o)) (completed o None) in
  Some (is_ok r, t_Scopes <$> token_in_use y).

(** The value of [audience], which is configured for the form of the token
    endpoint, in each request. *)
Definition audiences : list string :=
  let o := working "full" "full" in
  let '(_, y) := run_conn "cxn_1" (with_auth_method (Refresh example_outside o)) (completed o None) in
  map (λ p : request * option response, Values_Get "audience" (rq_Form p.1)) (o_sent (y_store y)).

Definition both_revocable : AuthOauth2Revocation := mkRevocation "https://provider.test/revoke" None [] [].

(** Revoking what a provider granted without a refresh token: the result, the
    requests after the exchange, and whether the token is still in use. *)
Definition unrevoked : bool * nat * bool :=
  let o := working "bare" "full" in let y := completed o (Some both_revocable) in
  let '(r, y') := run_conn "cxn_1" (with_oauth (Revoke o)) y in
  (is_ok r, length (o_sent (y_store y')) - length (o_sent (y_store y)), bool_decide (is_Some (token_in_use y')))%nat.

(** A lifetime of more seconds than a duration holds. *)
Definition expires_early : option bool :=
  let y := completed (working "long" "full") None in IsAccessTokenExpired (o_now (y_store y)) <$> token_in_use y.

(** What goes wrong, on runs of the model.  Two callbacks that read the
    state before either removes it both complete, and a second token replaces
    the first; a redirect that stores the state it has read after the callback
    removed it lets the same callback complete again; a refresh answered
    without a required scope fails, and its token is in use all the same; the
    configured form parameters of the token endpoint are sent on the exchange
    and left out on a refresh; revoking a connection that has no refresh token,
    where both kinds can be revoked, fails before any request is sent and
    leaves the token; a token whose lifetime in seconds is too large for a
    duration has expired as soon as it is stored. *)
Theorem oauth_defects :
  raced (working "full" "full") = Some (true, true, 2%nat) ∧
  revived (working "full" "full") = Some (true, true, 2%nat) ∧
  narrowed = Some (false, Some "write") ∧
  audiences = ["api"; ""] ∧
  unrevoked = (false, 0%nat, true) ∧
  expires_early = Some true.
Proof. vm_compute. by split_and!. Qed.
