(* ===== verification/Connectors.v ===== *)
(** * Connectors and their versions

    The tables [connectors] and [connector_definition_versions]
    (internal/database/connector.go, connector_definition_version.go,
    connector_with_definition.go): a logical connector has versions of its
    definition, numbered in order, of which one is primary; a version that was
    published is not changed any more.  Every operation is one transaction; the
    calls themselves do not fail. *)

From S2P Require Import Prelude GoNumbers GoStrings Namespace Labels Actors KeyMaterial.
Open Scope string_scope.
Open Scope list_scope.

(** ** Rows *)

Definition PrefixConnector : string := "cxr_".
Definition PrefixConnectorDefinitionVersion : string := "cvd_".

Abbreviation ConnectorDefinitionVersionState := string (only parsing).

Definition StateDraft : ConnectorDefinitionVersionState := "draft".
Definition StatePrimary : ConnectorDefinitionVersionState := "primary".
Definition StateActive : ConnectorDefinitionVersionState := "active".
Definition StateArchived : ConnectorDefinitionVersionState := "archived".

Definition IsValidConnectorDefinitionVersionState (s : string) : bool :=
  bool_decide (s = StateDraft) || bool_decide (s = StatePrimary) || bool_decide (s = StateActive) || bool_decide (s = StateArchived).

Record DbConnector := mkDbConnector {
  dc_Id : string;
  dc_Namespace : string;
  dc_Name : string;
  dc_Labels : Labels;
  dc_Annotations : gmap string string;
  dc_CreatedAt : Z;
  dc_UpdatedAt : Z;
  dc_DeletedAt : option Z
}.

Record ConnectorDefinitionVersion := mkDefinitionVersion {
  dv_Id : string;
  dv_ConnectorId : string;
  dv_Version : Z;                        (** a [uint64] *)
  dv_State : ConnectorDefinitionVersionState;
  dv_EncryptedDefinition : EncryptedField;
  dv_CreatedAt : Z;
  dv_UpdatedAt : Z;
  dv_EncryptedAt : option Z;
  dv_DeletedAt : option Z
}.

(** A connector with one of its versions; [None] for a nil map. *)
Record ConnectorWithDefinition := mkConnectorWithDefinition {
  cw_Id : string;
  cw_Namespace : string;
  cw_Name : string;
  cw_DefinitionVersionId : string;
  cw_Version : Z;
  cw_State : ConnectorDefinitionVersionState;
  cw_EncryptedDefinition : EncryptedField;
  cw_Labels : option Labels;
  cw_Annotations : option (gmap string string);
  cw_CreatedAt : Z;
  cw_UpdatedAt : Z;
  cw_DefinitionCreatedAt : Z;
  cw_DefinitionUpdatedAt : Z;
  cw_EncryptedAt : option Z;
  cw_DeletedAt : option Z
}.

(** Primary keys: the id, and the connector's id with the number, which is
    unique too.  The namespaces are those of the labels that are carried. *)
Record cdb := mkCdb {
  k_connectors : gmap string DbConnector;
  k_versions : gmap (string * Z) ConnectorDefinitionVersion;
  k_namespaces : gmap string NamespaceRow
}.

Definition with_versions (t : gmap (string * Z) ConnectorDefinitionVersion) (db : cdb) : cdb := mkCdb (k_connectors db) t (k_namespaces db).
Definition with_connector (c : DbConnector) (db : cdb) : cdb := mkCdb (<[dc_Id c := c]> (k_connectors db)) (k_versions db) (k_namespaces db).

(** ** Validation *)

Inductive connector_error : Type :=
  | ConnectorInvalid | ConnectorNotFound | ConnectorDuplicate | NotDraftOrPrimary | NonDraft | NonSequential
  | NamespaceChanged | NameChanged.

Definition version_valid (dv : ConnectorDefinitionVersion) : bool :=
  negb (bool_decide (dv_Id dv = "")) && bool_decide (ID_ValidatePrefix (dv_Id dv) PrefixConnectorDefinitionVersion = None) &&
  negb (bool_decide (dv_ConnectorId dv = "")) && bool_decide (ID_ValidatePrefix (dv_ConnectorId dv) PrefixConnector = None) &&
  negb (bool_decide (dv_Version dv = 0%Z)) && IsValidConnectorDefinitionVersionState (dv_State dv) && negb (EncryptedField_IsZero (dv_EncryptedDefinition dv)).

Definition connector_valid (c : DbConnector) : bool :=
  negb (bool_decide (dc_Id c = "")) && bool_decide (ID_ValidatePrefix (dc_Id c) PrefixConnector = None) &&
  bool_decide (ValidatePath (dc_Namespace c) = None) && bool_decide (ResourceName_Validate (dc_Name c) = None) &&
  match ValidateLabels (dc_Labels c) with [] => true | _ => false end && match ValidateAnnotations (dc_Annotations c) with [] => true | _ => false end.

Definition definitionVersion (cv : ConnectorWithDefinition) : ConnectorDefinitionVersion :=
  mkDefinitionVersion (cw_DefinitionVersionId cv) (cw_Id cv) (cw_Version cv) (cw_State cv) (cw_EncryptedDefinition cv)
    (cw_DefinitionCreatedAt cv) (cw_DefinitionUpdatedAt cv) (cw_EncryptedAt cv) None.

(** A version without an id gets one. *)
Definition with_id (fresh : string) (dv : ConnectorDefinitionVersion) : ConnectorDefinitionVersion :=
  if decide (dv_Id dv = "") then
    mkDefinitionVersion (PrefixConnectorDefinitionVersion +:+ fresh) (dv_ConnectorId dv) (dv_Version dv) (dv_State dv)
      (dv_EncryptedDefinition dv) (dv_CreatedAt dv) (dv_UpdatedAt dv) (dv_EncryptedAt dv) (dv_DeletedAt dv)
  else dv.

Definition with_definition_valid (fresh : string) (cv : ConnectorWithDefinition) : bool :=
  negb (bool_decide (cw_Id cv = "")) && bool_decide (ID_ValidatePrefix (cw_Id cv) PrefixConnector = None) &&
  bool_decide (ValidatePath (cw_Namespace cv) = None) &&
  (bool_decide (cw_Name cv = "") || bool_decide (ResourceName_Validate (cw_Name cv) = None)) &&
  match ValidateLabels (default ∅ (cw_Labels cv)) with [] => true | _ => false end &&
  match ValidateAnnotations (default ∅ (cw_Annotations cv)) with [] => true | _ => false end &&
  version_valid (with_id fresh (definitionVersion cv)).

(** ** Reading *)

Definition live_connector (id : string) (db : cdb) : option DbConnector :=
  c ← k_connectors db !! id; if decide (dc_DeletedAt c = None) then Some c else None.

Definition live_version (id : string) (v : Z) (db : cdb) : option ConnectorDefinitionVersion :=
  dv ← k_versions db !! (id, v); if decide (dv_DeletedAt dv = None) then Some dv else None.

(** The columns of the join. *)
Definition joined (c : DbConnector) (dv : ConnectorDefinitionVersion) : ConnectorWithDefinition :=
  mkConnectorWithDefinition (dc_Id c) (dc_Namespace c) (dc_Name c) (dv_Id dv) (dv_Version dv) (dv_State dv) (dv_EncryptedDefinition dv)
    (Some (dc_Labels c)) (Some (dc_Annotations c)) (dc_CreatedAt c) (dc_UpdatedAt c) (dv_CreatedAt dv) (dv_UpdatedAt dv)
    (dv_EncryptedAt dv) (dc_DeletedAt c).

Definition GetConnectorDefinitionVersion (id : string) (v : Z) (db : cdb) : option ConnectorWithDefinition :=
  dv ← live_version id v db; c ← live_connector id db; Some (joined c dv).

(** The live versions of a connector, in no particular order. *)
Definition versions_of (id : string) (db : cdb) : list ConnectorDefinitionVersion :=
  filter (λ dv, dv_ConnectorId dv = id ∧ dv_DeletedAt dv = None) (map snd (map_to_list (k_versions db))).

(** [ORDER BY version DESC LIMIT 1]. *)
Fixpoint highest (l : list ConnectorDefinitionVersion) : option ConnectorDefinitionVersion :=
  match l with
  | [] => None
  | dv :: l =>
      match highest l with
      | None => Some dv
      | Some b => if (dv_Version b <? dv_Version dv)%Z then Some dv else Some b
      end
  end.

Definition newest (P : ConnectorDefinitionVersion → bool) (id : string) (db : cdb) : option ConnectorWithDefinition :=
  dv ← highest (List.filter P (versions_of id db)); c ← live_connector id db; Some (joined c dv).

Definition GetConnectorDefinitionVersionForState (id : string) (state : string) (db : cdb) : option ConnectorWithDefinition :=
  newest (λ dv, bool_decide (dv_State dv = state)) id db.

Definition NewestConnectorDefinitionVersionForId (id : string) (db : cdb) : option ConnectorWithDefinition := newest (λ _, true) id db.

Definition NewestPublishedConnectorDefinitionVersionForId (id : string) (db : cdb) : option ConnectorWithDefinition :=
  newest (λ dv, bool_decide (dv_State dv = StatePrimary) || bool_decide (dv_State dv = StateActive)) id db.

(** The version that stands for its connector in lists: by state, then number;
    [rank] orders the states. *)
Definition rank (state : string) : Z :=
  if decide (state = StatePrimary) then 1 else if decide (state = StateDraft) then 2
  else if decide (state = StateActive) then 3 else if decide (state = StateArchived) then 4 else 5.

Definition before (a b : ConnectorDefinitionVersion) : bool :=
  (rank (dv_State a) <? rank (dv_State b))%Z || ((rank (dv_State a) =? rank (dv_State b))%Z && (dv_Version b <? dv_Version a)%Z).

Fixpoint first_ranked (l : list ConnectorDefinitionVersion) : option ConnectorDefinitionVersion :=
  match l with
  | [] => None
  | dv :: l => match first_ranked l with None => Some dv | Some b => if before dv b then Some dv else Some b end
  end.

(** Also deleted versions are ranked; they go with their connector. *)
Definition listed (c : DbConnector) (db : cdb) : option ConnectorWithDefinition :=
  dv ← first_ranked (filter (λ dv, dv_ConnectorId dv = dc_Id c) (map snd (map_to_list (k_versions db)))); Some (joined c dv).

(** ** Writing *)

Definition set_state (state : string) (now : Z) (dv : ConnectorDefinitionVersion) : ConnectorDefinitionVersion :=
  mkDefinitionVersion (dv_Id dv) (dv_ConnectorId dv) (dv_Version dv) state (dv_EncryptedDefinition dv) (dv_CreatedAt dv) now
    (dv_EncryptedAt dv) (dv_DeletedAt dv).

(** [UPDATE ... SET state = to WHERE state = from], but for one version. *)
Definition move_others (id : string) (v : Z) (from to : string) (now : Z) (db : cdb) : cdb :=
  with_versions
    ((λ dv, if bool_decide (dv_ConnectorId dv = id) && bool_decide (dv_State dv = from) && bool_decide (dv_DeletedAt dv = None) &&
               negb (dv_Version dv =? v)%Z
            then set_state to now dv else dv) <$> k_versions db) db.

(** The unique index on the names of live connectors. *)
Definition name_taken (id ns name : string) (db : cdb) : bool :=
  existsb (λ c, negb (bool_decide (dc_Id c = id)) && bool_decide (dc_DeletedAt c = None) && bool_decide (dc_Namespace c = ns) && bool_decide (dc_Name c = name))
    (map snd (map_to_list (k_connectors db))).

Section writing.
(** The order in which a loop visits the entries of a map. *)
Context (visit : Labels → list (string * string)).

Definition carried_from_namespace (path : string) (db : cdb) : Labels :=
  match k_namespaces db !! path with
  | Some ns => if decide (nr_DeletedAt ns = None) then nr_Labels ns else ∅
  | None => ∅
  end.

Definition ensureConnectorForDefinition (now : Z) (cv : ConnectorWithDefinition) (db : cdb) : result connector_error cdb :=
  match live_connector (cw_Id cv) db with
  | Some existing =>
      if decide (dc_Namespace existing ≠ cw_Namespace cv) then Err NamespaceChanged
      else if decide (cw_Name cv ≠ "" ∧ cw_Name cv ≠ dc_Name existing) then Err NameChanged
      else
        let labels := match cw_Labels cv with
                      | Some l => InjectSelfImplicitLabels (dc_Id existing) (dc_Name existing) (dc_Namespace existing) (MergeUpsertLabels l (dc_Labels existing))
                      | None => dc_Labels existing
                      end in
        Ok (with_connector (mkDbConnector (dc_Id existing) (dc_Namespace existing) (dc_Name existing) labels
                              (default (dc_Annotations existing) (cw_Annotations cv)) (dc_CreatedAt existing) now None) db)
  | None =>
      let name := if decide (cw_Name cv = "") then cw_Id cv else cw_Name cv in
      let labels := InjectSelfImplicitLabels (cw_Id cv) name (cw_Namespace cv)
                      (ApplyParentCarryForward (default ∅ (cw_Labels cv)) [mkParent NamespaceLabelToken (visit (carried_from_namespace (cw_Namespace cv) db))]) in
      let c := mkDbConnector (cw_Id cv) (cw_Namespace cv) name labels (default ∅ (cw_Annotations cv)) now now None in
      if negb (connector_valid c) then Err ConnectorInvalid
      else if bool_decide (is_Some (k_connectors db !! cw_Id cv)) || name_taken (cw_Id cv) (cw_Namespace cv) name db then Err ConnectorDuplicate
      else Ok (with_connector c db)
  end.

(** [COALESCE(MAX(version), 0)] and its successor. *)
Definition maxVersion (id : string) (db : cdb) : Z := match highest (versions_of id db) with Some dv => dv_Version dv | None => 0 end.

Definition next_version (v : Z) : Z := ((v + 1) mod 2 ^ 64)%Z.

(** The new or changed row of the version. *)
Definition put_version (now : Z) (fresh : string) (cv : ConnectorWithDefinition) (db : cdb) : result connector_error cdb :=
  match live_version (cw_Id cv) (cw_Version cv) db with
  | Some existing =>
      if decide (dv_State existing ≠ StateDraft) then Err NonDraft
      else Ok (with_versions (<[(cw_Id cv, cw_Version cv) :=
                 mkDefinitionVersion (dv_Id existing) (dv_ConnectorId existing) (dv_Version existing) (cw_State cv) (cw_EncryptedDefinition cv)
                   (dv_CreatedAt existing) now (cw_EncryptedAt cv) None]> (k_versions db)) db)
  | None =>
      let max := maxVersion (cw_Id cv) db in
      if negb (max =? 0)%Z && negb (next_version max =? cw_Version cv)%Z then Err NonSequential
      else
        let dv := with_id fresh (definitionVersion cv) in
        let dv := mkDefinitionVersion (dv_Id dv) (dv_ConnectorId dv) (dv_Version dv) (dv_State dv) (dv_EncryptedDefinition dv) now now (dv_EncryptedAt dv) None in
        if negb (version_valid dv) then Err ConnectorInvalid
        else if bool_decide (is_Some (k_versions db !! (cw_Id cv, cw_Version cv))) ||
                existsb (λ x, bool_decide (dv_Id x = dv_Id dv)) (map snd (map_to_list (k_versions db))) then Err ConnectorDuplicate
        else Ok (with_versions (<[(cw_Id cv, cw_Version cv) := dv]> (k_versions db)) db)
  end.

Definition UpsertConnectorDefinitionVersion (now : Z) (fresh : string) (cv : ConnectorWithDefinition) (db : cdb) : option connector_error * cdb :=
  if negb (with_definition_valid fresh cv) then (Some ConnectorInvalid, db)
  else if decide (cw_State cv ≠ StateDraft ∧ cw_State cv ≠ StatePrimary) then (Some NotDraftOrPrimary, db)
  else match ensureConnectorForDefinition now cv db with
  | Err e => (Some e, db)
  | Ok db1 =>
      match put_version now fresh cv db1 with
      | Err e => (Some e, db)
      | Ok db2 => (None, if decide (cw_State cv = StatePrimary) then move_others (cw_Id cv) (cw_Version cv) StatePrimary StateActive now db2 else db2)
      end
  end.

Definition touch (now : Z) (deleted : option Z) (c : DbConnector) : DbConnector :=
  mkDbConnector (dc_Id c) (dc_Namespace c) (dc_Name c) (dc_Labels c) (dc_Annotations c) (dc_CreatedAt c) now deleted.

Definition SetConnectorDefinitionVersionState (now : Z) (id : string) (v : Z) (state : string) (db : cdb) : option connector_error * cdb :=
  if decide (id = "") then (Some ConnectorInvalid, db)
  else if negb (IsValidConnectorDefinitionVersionState state) then (Some ConnectorInvalid, db)
  else match live_connector id db, live_version id v db with
  | Some c, Some dv =>
      let db := with_connector (touch now None c) db in
      let db := with_versions (<[(id, v) := set_state state now dv]> (k_versions db)) db in
      let db := if decide (state = StatePrimary) then move_others id v StatePrimary StateActive now db else db in
      (None, if decide (state = StateDraft) then move_others id v StateDraft StateArchived now db else db)
  | _, _ => (Some ConnectorNotFound, db)
  end.

Definition DeleteConnector (now : Z) (id : string) (db : cdb) : option connector_error * cdb :=
  if decide (id = "") then (Some ConnectorInvalid, db)
  else match live_connector id db with
  | None => (Some ConnectorNotFound, db)
  | Some c =>
      (None, with_versions
         ((λ dv, if bool_decide (dv_ConnectorId dv = id) && bool_decide (dv_DeletedAt dv = None)
                 then mkDefinitionVersion (dv_Id dv) (dv_ConnectorId dv) (dv_Version dv) (dv_State dv) (dv_EncryptedDefinition dv)
                        (dv_CreatedAt dv) now (dv_EncryptedAt dv) (Some now)
                 else dv) <$> k_versions db) (with_connector (touch now (Some now) c) db))
  end.

Definition UpdateConnectorName (now : Z) (id name : string) (db : cdb) : option connector_error * cdb :=
  if decide (id = "") then (Some ConnectorInvalid, db)
  else match ID_ValidatePrefix id PrefixConnector, ResourceName_Validate name with
  | None, None =>
      match live_connector id db with
      | None => (Some ConnectorNotFound, db)
      | Some c =>
          if name_taken id (dc_Namespace c) name db then (Some ConnectorDuplicate, db)
          else (None, with_connector (mkDbConnector (dc_Id c) (dc_Namespace c) name (InjectSelfImplicitLabels id name (dc_Namespace c) (dc_Labels c))
                                        (dc_Annotations c) (dc_CreatedAt c) now None) db)
      end
  | _, _ => (Some ConnectorInvalid, db)
  end.
End writing.

(** ** What the tables hold *)

Lemma highest_spec l : match highest l with None => l = [] | Some b => b ∈ l ∧ ∀ x, x ∈ l → (dv_Version x ≤ dv_Version b)%Z end.
Proof.
  induction l as [|a l IH]; [done|]. cbn. destruct (highest l) as [b|].
  - destruct IH as [Hb Hmax]. destruct (Z.ltb_spec (dv_Version b) (dv_Version a)).
    + split; [apply list_elem_of_here|]. intros x [->|Hx]%elem_of_cons; [lia|]. specialize (Hmax x Hx). lia.
    + split; [by apply list_elem_of_further|]. intros x [->|Hx]%elem_of_cons; [lia|by apply Hmax].
  - subst l. split; [apply list_elem_of_here|]. intros x ->%list_elem_of_singleton. lia.
Qed.

(** Rows are under their keys, and live and die with their connector. *)
Record shape (db : cdb) : Prop := {
  sh_id id c : k_connectors db !! id = Some c → dc_Id c = id;
  sh_key k dv : k_versions db !! k = Some dv → k = (dv_ConnectorId dv, dv_Version dv) ∧ (0 < dv_Version dv < 2 ^ 64)%Z;
  sh_state k dv : k_versions db !! k = Some dv → IsValidConnectorDefinitionVersionState (dv_State dv) = true;
  sh_live k dv : k_versions db !! k = Some dv →
    ∃ c, k_connectors db !! dv_ConnectorId dv = Some c ∧ (dv_DeletedAt dv = None ↔ dc_DeletedAt c = None)
}.

Definition is_version (id : string) (v : Z) (db : cdb) : Prop := is_Some (live_version id v db).
Definition is_primary (id : string) (v : Z) (db : cdb) : Prop := dv_State <$> live_version id v db = Some StatePrimary.

Record connectors_ok (db : cdb) : Prop := {
  co_shape : shape db;
  co_some id c : live_connector id db = Some c → ∃ v, is_version id v db;
  co_run id v v' x : is_version id v db → is_version id v' db → (v ≤ x ≤ v')%Z → is_version id x db;
  co_primary id v v' : is_primary id v db → is_primary id v' db → v = v';
  co_names id id' c c' : live_connector id db = Some c → live_connector id' db = Some c' →
    dc_Namespace c = dc_Namespace c' → dc_Name c = dc_Name c' → id = id'
}.

Lemma live_version_lookup id v db dv : live_version id v db = Some dv ↔ k_versions db !! (id, v) = Some dv ∧ dv_DeletedAt dv = None.
Proof.
  unfold live_version. destruct (k_versions db !! (id, v)) as [x|] eqn:Hx; cbn; [|naive_solver]. case_decide; naive_solver.
Qed.

Lemma live_connector_lookup id db c : live_connector id db = Some c ↔ k_connectors db !! id = Some c ∧ dc_DeletedAt c = None.
Proof.
  unfold live_connector. destruct (k_connectors db !! id) as [x|] eqn:Hx; cbn; [|naive_solver]. case_decide; naive_solver.
Qed.

Lemma elem_versions_of id db dv : shape db → dv ∈ versions_of id db ↔ live_version id (dv_Version dv) db = Some dv.
Proof.
  intros Hs. unfold versions_of. rewrite list_elem_of_filter, list_elem_of_fmap, live_version_lookup. split.
  - intros [[Hid Hlive] ([k x] & -> & Hin)]. apply elem_of_map_to_list in Hin. split; [|done]. cbn in *.
    destruct (sh_key _ Hs _ _ Hin) as [-> _]. by rewrite <- Hid.
  - intros [Hin Hlive]. destruct (sh_key _ Hs _ _ Hin) as [[= Hid] _]. split; [done|]. exists ((id, dv_Version dv), dv). split; [done|].
    by apply elem_of_map_to_list.
Qed.

(** The highest of the live versions that satisfy [P]. *)
Lemma newest_spec P id db : shape db →
  match newest P id db with
  | Some cw => ∃ c dv, cw = joined c dv ∧ live_connector id db = Some c ∧ live_version id (dv_Version dv) db = Some dv ∧ P dv = true ∧
                 ∀ v x, live_version id v db = Some x → P x = true → (v ≤ dv_Version dv)%Z
  | None => ∀ v x, live_version id v db = Some x → P x = false
  end.
Proof.
  intros Hs. unfold newest. pose proof (highest_spec (List.filter P (versions_of id db))) as Hh.
  assert (∀ v x, live_version id v db = Some x → P x = true → x ∈ List.filter P (versions_of id db) ∧ v = dv_Version x) as Hin.
  { intros v x Hx HP. pose proof Hx as Hl. apply live_version_lookup in Hl as [Hl _]. destruct (sh_key _ Hs _ _ Hl) as [[= _ ->] _].
    split; [|done]. apply list_elem_of_In, filter_In. split; [|done]. apply list_elem_of_In. by apply elem_versions_of. }
  destruct (highest _) as [dv|]; cbn.
  - destruct Hh as [Hdv Hmax]. apply list_elem_of_In, filter_In in Hdv as [Hdv%list_elem_of_In HP]. apply elem_versions_of in Hdv; [|done].
    pose proof Hdv as Hl. apply live_version_lookup in Hl as [Hl Hlive]. destruct (sh_live _ Hs _ _ Hl) as (c & Hc & Hiff).
    destruct (sh_key _ Hs _ _ Hl) as [[= Hid] _]. rewrite <- Hid in Hc.
    assert (live_connector id db = Some c) as Hlc by (apply live_connector_lookup; split; [done|by apply Hiff]).
    rewrite Hlc. cbn. exists c, dv. split_and!; [done..|]. intros v x Hx HPx. destruct (Hin v x Hx HPx) as [Hx' ->]. by apply Hmax.
  - intros v x Hx. destruct (P x) eqn:HP; [|done]. destruct (Hin v x Hx HP) as [Hx' _]. rewrite Hh in Hx'. by apply elem_of_nil in Hx'.
Qed.

Lemma maxVersion_spec id db : shape db → (maxVersion id db = 0%Z ∧ ∀ v, ¬ is_version id v db) ∨
  (is_version id (maxVersion id db) db ∧ (0 < maxVersion id db)%Z ∧ ∀ v, is_version id v db → (v ≤ maxVersion id db)%Z).
Proof.
  intros Hs. unfold maxVersion. pose proof (highest_spec (versions_of id db)) as Hh.
  assert (∀ v x, live_version id v db = Some x → x ∈ versions_of id db ∧ v = dv_Version x) as Hin.
  { intros v x Hx. pose proof Hx as Hl. apply live_version_lookup in Hl as [Hl _]. destruct (sh_key _ Hs _ _ Hl) as [[= _ ->] _]. split; [|done].
    by apply elem_versions_of. }
  destruct (highest _) as [dv|].
  - right. destruct Hh as [Hdv Hmax]. apply elem_versions_of in Hdv; [|done]. split_and!; [by exists dv| |].
    + apply live_version_lookup in Hdv as [Hl _]. by destruct (sh_key _ Hs _ _ Hl) as [_ [? _]].
    + intros v [x Hx]. destruct (Hin v x Hx) as [Hx' ->]. by apply Hmax.
  - left. split; [done|]. intros v [x Hx]. destruct (Hin v x Hx) as [Hx' _]. rewrite Hh in Hx'. by apply elem_of_nil in Hx'.
Qed.

(** ** Moving states *)

Lemma move_others_lookup id v from to now db k :
  k_versions (move_others id v from to now db) !! k =
  (λ dv, if bool_decide (dv_ConnectorId dv = id) && bool_decide (dv_State dv = from) && bool_decide (dv_DeletedAt dv = None) &&
            negb (dv_Version dv =? v)%Z
         then set_state to now dv else dv) <$> k_versions db !! k.
Proof. apply lookup_fmap. Qed.

(** Only the state and the time of a row change, and only from [from]. *)
Lemma move_others_row id v from to now db k dv : k_versions (move_others id v from to now db) !! k = Some dv →
  ∃ old, k_versions db !! k = Some old ∧ (dv = old ∨ dv = set_state to now old ∧ dv_State old = from ∧ dv_ConnectorId old = id ∧ dv_Version old ≠ v).
Proof.
  rewrite move_others_lookup. destruct (k_versions db !! k) as [old|]; cbn; [|done]. intros [= <-]. exists old. split; [done|].
  destruct (bool_decide (dv_ConnectorId old = id)) eqn:H1; cbn; [|by left]. destruct (bool_decide (dv_State old = from)) eqn:H2; cbn; [|by left].
  destruct (bool_decide (dv_DeletedAt old = None)); cbn; [|by left]. destruct (Z.eqb_spec (dv_Version old) v); cbn; [by left|].
  apply bool_decide_eq_true in H1, H2. by right.
Qed.

Lemma move_others_shape id v from to now db : IsValidConnectorDefinitionVersionState to = true → shape db → shape (move_others id v from to now db).
Proof.
  intros Hto [Hid Hkey Hst Hlive]. split; [done|..].
  all: intros k dv Hdv; apply move_others_row in Hdv as (old & Hold & [->|(-> & _)]); cbn [dv_ConnectorId dv_Version dv_State dv_DeletedAt set_state]; eauto.
Qed.

Lemma move_others_version id v from to now db x y : is_version x y (move_others id v from to now db) ↔ is_version x y db.
Proof.
  unfold is_version, live_version. rewrite move_others_lookup. destruct (k_versions db !! (x, y)) as [old|]; cbn; [|done].
  destruct (_ && negb _); cbn; [|done]. by destruct (decide (dv_DeletedAt old = None)).
Qed.

(** Afterwards only [v] can be in the state [from]. *)
Lemma move_others_state id v from to now db x y : shape db → from ≠ to →
  dv_State <$> live_version x y (move_others id v from to now db) = Some from ↔
  dv_State <$> live_version x y db = Some from ∧ (x = id → y = v).
Proof.
  intros Hs Hne. unfold live_version. rewrite move_others_lookup. destruct (k_versions db !! (x, y)) as [old|] eqn:Hold; cbn; [|naive_solver].
  destruct (sh_key _ Hs _ _ Hold) as [[= -> ->] _].
  destruct (decide (dv_DeletedAt old = None)) as [Hlive|Hdel].
  - rewrite (bool_decide_true (dv_DeletedAt old = None)) by done. rewrite andb_true_r.
    destruct (decide (dv_ConnectorId old = id)) as [H1|H1]; [rewrite bool_decide_true by done|rewrite bool_decide_false by done]; cbn.
    2:{ rewrite decide_True by done. cbn. naive_solver. }
    destruct (decide (dv_State old = from)) as [H2|H2]; [rewrite bool_decide_true by done|rewrite bool_decide_false by done]; cbn.
    2:{ rewrite decide_True by done. cbn. naive_solver. }
    destruct (Z.eqb_spec (dv_Version old) v); cbn; rewrite decide_True by done; cbn; naive_solver.
  - rewrite (bool_decide_false (dv_DeletedAt old = None)) by done. rewrite andb_false_r. cbn. rewrite decide_False by done. naive_solver.
Qed.

(** ** Rows that are written *)

Lemma with_connector_live c db x : live_connector x (with_connector c db) =
  if decide (x = dc_Id c) then (if decide (dc_DeletedAt c = None) then Some c else None) else live_connector x db.
Proof.
  unfold live_connector, with_connector. cbn. case_decide as Hx; [subst x; by rewrite lookup_insert_eq|by rewrite lookup_insert_ne].
Qed.

Lemma with_connector_shape c db : shape db →
  (∀ c0, k_connectors db !! dc_Id c = Some c0 → (dc_DeletedAt c0 = None ↔ dc_DeletedAt c = None)) → shape (with_connector c db).
Proof.
  intros [Hid Hkey Hst Hlive] Hsame. split; [|done|done|].
  - intros id c'. cbn. rewrite lookup_insert_Some. intros [[<- <-]|[_ H]]; eauto.
  - intros k dv Hdv. destruct (Hlive k dv Hdv) as (c0 & Hc0 & Hiff). cbn. destruct (decide (dv_ConnectorId dv = dc_Id c)) as [Heq|Hne].
    + rewrite Heq in *. exists c. rewrite lookup_insert_eq. split; [done|]. rewrite Hiff. by apply Hsame.
    + exists c0. by rewrite lookup_insert_ne.
Qed.

Definition put_row (dv : ConnectorDefinitionVersion) (db : cdb) : cdb :=
  with_versions (<[(dv_ConnectorId dv, dv_Version dv) := dv]> (k_versions db)) db.

Lemma put_row_live dv db x y : dv_DeletedAt dv = None →
  live_version x y (put_row dv db) = if decide (x = dv_ConnectorId dv ∧ y = dv_Version dv) then Some dv else live_version x y db.
Proof.
  intros Hlive. unfold live_version, put_row. cbn. case_decide as Hxy.
  - destruct Hxy as [-> ->]. rewrite lookup_insert_eq. cbn. by rewrite decide_True.
  - rewrite lookup_insert_ne; [done|]. intros [= <- <-]. by destruct Hxy.
Qed.

Lemma put_row_shape dv db c : shape db → (0 < dv_Version dv < 2 ^ 64)%Z → IsValidConnectorDefinitionVersionState (dv_State dv) = true →
  dv_DeletedAt dv = None → live_connector (dv_ConnectorId dv) db = Some c → shape (put_row dv db).
Proof.
  intros [Hid Hkey Hst Hlive] Hv Hs Hdel [Hc Hcl]%live_connector_lookup. split; [done|..].
  all: intros k x; cbn; rewrite lookup_insert_Some; intros [[<- <-]|[_ H]]; [|by eauto].
  - done.
  - done.
  - exists c. by rewrite Hc, Hdel, Hcl.
Qed.

Lemma put_row_version dv db x y : dv_DeletedAt dv = None →
  is_version x y (put_row dv db) ↔ (x = dv_ConnectorId dv ∧ y = dv_Version dv) ∨ is_version x y db.
Proof.
  intros Hlive. unfold is_version. rewrite put_row_live by done. case_decide; [naive_solver|]. tauto.
Qed.

(** ** The operations *)

Section operations.
Context (visit : Labels → list (string * string)).

Lemma ensure_inv now cv db db1 : shape db → ensureConnectorForDefinition visit now cv db = Ok db1 →
  ∃ c, db1 = with_connector c db ∧ dc_Id c = cw_Id cv ∧ dc_DeletedAt c = None ∧
    (dc_Namespace c = cw_Namespace cv ∧ (cw_Name cv ≠ "" → dc_Name c = cw_Name cv)) ∧
    ((∃ c0, live_connector (cw_Id cv) db = Some c0 ∧ dc_Name c = dc_Name c0 ∧ dc_Namespace c = dc_Namespace c0) ∨
     (k_connectors db !! cw_Id cv = None ∧ name_taken (cw_Id cv) (dc_Namespace c) (dc_Name c) db = false)).
Proof.
  intros Hs. unfold ensureConnectorForDefinition. destruct (live_connector (cw_Id cv) db) as [c0|] eqn:Hc0.
  - case_decide as Hns; [done|]. destruct (decide (cw_Name cv ≠ "" ∧ cw_Name cv ≠ dc_Name c0)) as [|Hname]; [done|]. intros [= <-].
    eexists. split; [reflexivity|]. cbn. apply live_connector_lookup in Hc0 as [Hc0 _]. split_and!; [by apply (sh_id _ Hs)|done|done| |left; by exists c0].
    intros Hne. destruct (decide (cw_Name cv = dc_Name c0)); [done|]. by destruct Hname.
  - destruct (negb _); [done|]. destruct (bool_decide (is_Some _)) eqn:H1; [done|]. cbn [orb]. destruct (name_taken _ _ _ db) eqn:H2; [done|].
    intros [= <-]. eexists. split; [reflexivity|]. cbn. split_and!; [done..|intros ?; by rewrite decide_False|]. right. apply bool_decide_eq_false in H1.
    split; [by apply eq_None_not_Some|done].
Qed.

Lemma with_id_same fresh dv : dv_ConnectorId (with_id fresh dv) = dv_ConnectorId dv ∧ dv_Version (with_id fresh dv) = dv_Version dv ∧
  dv_State (with_id fresh dv) = dv_State dv ∧ dv_EncryptedDefinition (with_id fresh dv) = dv_EncryptedDefinition dv.
Proof. unfold with_id. by case_decide. Qed.

(** A draft is replaced, or the number is the next one. *)
Definition follows (id : string) (v : Z) (db : cdb) : Prop :=
  (∃ old, live_version id v db = Some old ∧ dv_State old = StateDraft) ∨
  (k_versions db !! (id, v) = None ∧
   ((∀ v', ¬ is_version id v' db) ∨ (is_version id (v - 1) db ∧ ∀ v', is_version id v' db → (v' ≤ v - 1)%Z))).

Lemma put_inv now fresh cv db db2 : shape db → (0 < cw_Version cv < 2 ^ 64)%Z → put_version now fresh cv db = Ok db2 →
  ∃ dv, db2 = put_row dv db ∧ dv_ConnectorId dv = cw_Id cv ∧ dv_Version dv = cw_Version cv ∧ dv_DeletedAt dv = None ∧
    dv_State dv = cw_State cv ∧ dv_EncryptedDefinition dv = cw_EncryptedDefinition cv ∧ follows (cw_Id cv) (cw_Version cv) db.
Proof.
  intros Hs Hv. unfold put_version. destruct (live_version (cw_Id cv) (cw_Version cv) db) as [old|] eqn:Hold.
  - case_decide as Hd; [done|]. intros [= <-]. pose proof Hold as Hl. apply live_version_lookup in Hl as [Hl _].
    destruct (sh_key _ Hs _ _ Hl) as [[= Hid Hver] _]. eexists (mkDefinitionVersion _ _ _ _ _ _ _ _ _). split.
    { unfold put_row. cbn [dv_ConnectorId dv_Version]. rewrite <- Hid, <- Hver. reflexivity. }
    cbn. split_and!; [done..|]. left. by exists old.
  - destruct (with_id_same fresh (definitionVersion cv)) as (H1 & H2 & H3 & H4).
    destruct (negb (maxVersion (cw_Id cv) db =? 0)%Z && _) eqn:Hseq; [done|]. cbn zeta.
    match goal with |- context [version_valid ?d] => set (dv := d) end. destruct (negb (version_valid dv)); [done|].
    assert (dv_ConnectorId dv = cw_Id cv ∧ dv_Version dv = cw_Version cv) as [Hid Hver] by (unfold dv; cbn [dv_ConnectorId dv_Version]; by rewrite H1, H2).
    destruct (bool_decide (is_Some (k_versions db !! _)) || _) eqn:Hdup; [done|]. apply orb_false_iff in Hdup as [Hdup%bool_decide_eq_false _].
    intros [= <-]. exists dv. unfold put_row. rewrite Hid, Hver. split_and!; [done..|]. right. split; [by apply eq_None_not_Some|].
    destruct (maxVersion_spec (cw_Id cv) db Hs) as [[_ Hnone]|(Hmax & Hpos & Hle)]; [by left|right].
    apply andb_false_iff in Hseq as [Hseq|Hseq]; apply negb_false_iff, Z.eqb_eq in Hseq; [lia|]. unfold next_version in Hseq.
    destruct Hmax as [x Hx]. pose proof Hx as Hxl. apply live_version_lookup in Hxl as [Hxl _]. destruct (sh_key _ Hs _ _ Hxl) as [[= _ Hxv] Hxb].
    rewrite Hxv in *. destruct (decide (dv_Version x + 1 = 2 ^ 64)%Z) as [Heq|Hne]; [rewrite Heq, Z.mod_same in Hseq by done; lia|].
    rewrite Z.mod_small in Hseq by lia. assert (cw_Version cv - 1 = dv_Version x)%Z as -> by lia. split; [by exists x|done].
Qed.

(** What a successful upsert has done. *)
Record upserted (cv : ConnectorWithDefinition) (now : Z) (db db' : cdb) (c : DbConnector) (dv : ConnectorDefinitionVersion) : Prop := {
  up_db : db' = (let db2 := put_row dv (with_connector c db) in
                 if decide (cw_State cv = StatePrimary) then move_others (cw_Id cv) (cw_Version cv) StatePrimary StateActive now db2 else db2);
  up_id : dc_Id c = cw_Id cv;
  up_live : dc_DeletedAt c = None;
  up_named : dc_Namespace c = cw_Namespace cv ∧ (cw_Name cv ≠ "" → dc_Name c = cw_Name cv);
  up_connector : (∃ c0, live_connector (cw_Id cv) db = Some c0 ∧ dc_Name c = dc_Name c0 ∧ dc_Namespace c = dc_Namespace c0) ∨
     (k_connectors db !! cw_Id cv = None ∧ name_taken (cw_Id cv) (dc_Namespace c) (dc_Name c) db = false);
  up_cid : dv_ConnectorId dv = cw_Id cv;
  up_version : dv_Version dv = cw_Version cv;
  up_vlive : dv_DeletedAt dv = None;
  up_state : dv_State dv = cw_State cv;
  up_def : dv_EncryptedDefinition dv = cw_EncryptedDefinition cv;
  up_draft : cw_State cv = StateDraft ∨ cw_State cv = StatePrimary;
  up_follows : follows (cw_Id cv) (cw_Version cv) db;
  up_bound : (0 < cw_Version cv < 2 ^ 64)%Z
}.

Lemma with_connector_same_shape c db : shape db → dc_DeletedAt c = None →
  ((∃ c0, live_connector (dc_Id c) db = Some c0) ∨ k_connectors db !! dc_Id c = None) → shape (with_connector c db).
Proof.
  intros Hs Hlive Hor. apply with_connector_shape; [done|]. intros c0 Hc0. destruct Hor as [[c1 [Hc1 Hl]%live_connector_lookup]|Hn]; [|congruence].
  rewrite Hc0 in Hc1. injection Hc1 as ->. by rewrite Hl, Hlive.
Qed.

Lemma upsert_inv now fresh cv db : shape db → (0 ≤ cw_Version cv < 2 ^ 64)%Z →
  match UpsertConnectorDefinitionVersion visit now fresh cv db with
  | (None, db') => ∃ c dv, upserted cv now db db' c dv
  | (Some _, db') => db' = db
  end.
Proof.
  intros Hs Hb. unfold UpsertConnectorDefinitionVersion. destruct (with_definition_valid fresh cv) eqn:Hval; [|done]. cbn [negb].
  case_decide as Hst; [done|]. destruct (ensureConnectorForDefinition visit now cv db) as [e|db1] eqn:He; [done|].
  destruct (ensure_inv now cv db db1 Hs He) as (c & -> & Hid & Hlive & Hnamed & Hor). destruct (put_version now fresh cv _) as [e|db2] eqn:Hp; [done|].
  assert (shape (with_connector c db)) as Hs1.
  { apply with_connector_same_shape; [done|done|]. rewrite Hid. destruct Hor as [(c0 & ? & _)|[? _]]; [left; by exists c0|by right]. }
  assert (0 < cw_Version cv < 2 ^ 64)%Z as Hb'.
  { assert (cw_Version cv ≠ 0%Z) as Hnz; [|lia]. unfold with_definition_valid in Hval. apply andb_true_iff in Hval as [_ Hval].
    unfold version_valid in Hval. rewrite !andb_true_iff in Hval. destruct Hval as [[[_ Hval] _] _]. apply negb_true_iff, bool_decide_eq_false in Hval.
    destruct (with_id_same fresh (definitionVersion cv)) as (_ & H2 & _). by rewrite H2 in Hval. }
  destruct (put_inv now fresh cv _ db2 Hs1 Hb' Hp) as (dv & -> & H1 & H2 & H3 & H4 & H5 & H6). exists c, dv. split; try done.
  destruct (decide (cw_State cv = StateDraft)), (decide (cw_State cv = StatePrimary)); tauto.
Qed.

(** The versions there are after an upsert. *)
Lemma upserted_versions cv now db db' c dv : upserted cv now db db' c dv →
  ∀ x y, is_version x y db' ↔ (x = cw_Id cv ∧ y = cw_Version cv) ∨ is_version x y db.
Proof.
  intros [Hdb _ _ _ _ Hcid Hver Hvl _ _ _ _ _] x y. transitivity (is_version x y (put_row dv (with_connector c db))).
  - rewrite Hdb. cbn zeta. case_decide; [apply move_others_version|done].
  - rewrite put_row_version by done. by rewrite Hcid, Hver.
Qed.

(** The rows that an upsert leaves. *)
Lemma upserted_rows cv now db db' c dv : upserted cv now db db' c dv →
  live_connector (cw_Id cv) db' = Some c ∧ live_version (cw_Id cv) (cw_Version cv) db' = Some dv.
Proof.
  intros [Hdb Hid Hlive _ _ Hcid Hver Hvl _ _ _ _ _].
  assert (live_connector (cw_Id cv) (put_row dv (with_connector c db)) = Some c ∧
          live_version (cw_Id cv) (cw_Version cv) (put_row dv (with_connector c db)) = Some dv) as [Hc Hv].
  { split; [|by rewrite put_row_live, decide_True by (rewrite ?Hcid, ?Hver; done)].
    change (live_connector (cw_Id cv) (with_connector c db) = Some c). by rewrite with_connector_live, <- Hid, !decide_True. }
  rewrite Hdb. cbn zeta. case_decide; [|done]. split; [exact Hc|].
  unfold live_version. rewrite move_others_lookup. apply live_version_lookup in Hv as [-> Hl]. cbn.
  rewrite Hver, Z.eqb_refl, andb_false_r. cbn. by rewrite decide_True.
Qed.
End operations.

(** ** The invariant *)

Section invariant.
Context (visit : Labels → list (string * string)).

Lemma no_versions id db : shape db → k_connectors db !! id = None → ∀ v, ¬ is_version id v db.
Proof.
  intros Hs Hn v [x [Hx _]%live_version_lookup]. destruct (sh_live _ Hs _ _ Hx) as (c & Hc & _). destruct (sh_key _ Hs _ _ Hx) as [[= Hid _] _]. congruence.
Qed.

Lemma name_taken_false id ns name db c id' : shape db → name_taken id ns name db = false → live_connector id' db = Some c → id' ≠ id →
  dc_Namespace c = ns → dc_Name c = name → False.
Proof.
  intros Hs Ht [Hc Hl]%live_connector_lookup Hne Hns Hname. apply not_true_iff_false in Ht. apply Ht. unfold name_taken. apply existsb_exists. exists c. split.
  - apply in_map_iff. exists (id', c). split; [done|]. apply list_elem_of_In. by apply elem_of_map_to_list.
  - rewrite !andb_true_iff, negb_true_iff, bool_decide_eq_false, !bool_decide_eq_true, (sh_id _ Hs _ _ Hc). done.
Qed.

(** Names stay unique when one connector is written. *)
Lemma names_kept c db : shape db → dc_DeletedAt c = None →
  (∀ id id' c c', live_connector id db = Some c → live_connector id' db = Some c' → dc_Namespace c = dc_Namespace c' → dc_Name c = dc_Name c' → id = id') →
  ((∃ c0, live_connector (dc_Id c) db = Some c0 ∧ dc_Name c = dc_Name c0 ∧ dc_Namespace c = dc_Namespace c0) ∨ name_taken (dc_Id c) (dc_Namespace c) (dc_Name c) db = false) →
  ∀ id id' x x', live_connector id (with_connector c db) = Some x → live_connector id' (with_connector c db) = Some x' →
    dc_Namespace x = dc_Namespace x' → dc_Name x = dc_Name x' → id = id'.
Proof.
  intros Hs Hlive Hnames Hor id id' x x'. rewrite !with_connector_live, (decide_True _ _ Hlive).
  assert (∀ y y', y ≠ dc_Id c → live_connector y db = Some y' → dc_Namespace y' = dc_Namespace c → dc_Name y' = dc_Name c → False) as Hother.
  { intros y y' Hne Hy Hns Hname. destruct Hor as [(c0 & Hc0 & Hn & Hnn)|Ht]; [|by eapply name_taken_false].
    apply Hne. apply (Hnames y (dc_Id c) y' c0 Hy Hc0); congruence. }
  repeat case_decide; intros; simplify_eq; [done|exfalso; by eapply (Hother id')|exfalso; by eapply (Hother id)|by eauto].
Qed.

Lemma upsert_ok now fresh cv db : (0 ≤ cw_Version cv < 2 ^ 64)%Z → connectors_ok db → connectors_ok (UpsertConnectorDefinitionVersion visit now fresh cv db).2.
Proof.
  intros Hb [Hs Hsome Hrun Hprim Hnames]. pose proof (upsert_inv visit now fresh cv db Hs Hb) as Hu.
  destruct (UpsertConnectorDefinitionVersion visit now fresh cv db) as [[e|] db']; [by rewrite Hu|]. destruct Hu as (c & dv & Hu). cbn [snd].
  pose proof (upserted_versions _ _ _ _ _ _ Hu) as Hvers. destruct Hu as [Hdb Hid Hlive _ Hor Hcid Hver Hvl Hst Hdef Hd Hfol Hbb]. set (db2 := put_row dv (with_connector c db)) in *.
  assert (shape (with_connector c db)) as Hs1.
  { apply with_connector_same_shape; [done|done|]. rewrite Hid. destruct Hor as [(c0 & ? & _)|[? _]]; [left; by exists c0|by right]. }
  assert (shape db2) as Hs2.
  { apply (put_row_shape _ _ c); [done|by rewrite Hver| |done|by rewrite Hcid, with_connector_live, <- Hid, !decide_True].
    rewrite Hst. by destruct Hd as [-> | ->]. }
  assert (∀ x, live_connector x db' = live_connector x (with_connector c db)) as Hconn by (intros x; rewrite Hdb; by case_decide).
  split.
  - rewrite Hdb. case_decide; [by apply move_others_shape|done].
  - intros id x Hx. destruct (decide (id = cw_Id cv)) as [->|Hne]; [exists (cw_Version cv); apply Hvers; by left|].
    rewrite Hconn, with_connector_live, decide_False in Hx by congruence. destruct (Hsome id x Hx) as [v Hv]. exists v. apply Hvers. by right.
  - intros id v v' x Hv Hv' Hx. rewrite !Hvers in *. destruct (decide (id = cw_Id cv)) as [->|Hne].
    2:{ right. destruct Hv as [[? _]|Hv], Hv' as [[? _]|Hv']; [done..|]. by apply (Hrun id v v'). }
    destruct (decide (x = cw_Version cv)) as [->|Hnx]; [by left|]. right.
    destruct Hfol as [(old & Hold & _)|(_ & [Hnone|[Hpred Hmax]])].
    + assert (is_version (cw_Id cv) (cw_Version cv) db) as Hcur by (by exists old).
      apply (Hrun (cw_Id cv) v v'); [|destruct Hv' as [[_ ->]|Hv']|done]; [|done..]. by destruct Hv as [[_ ->]|Hv].
    + destruct Hv as [[_ ->]|Hv]; [|by destruct (Hnone v)]. destruct Hv' as [[_ ->]|Hv']; [lia|by destruct (Hnone v')].
    + destruct Hv as [[_ ->]|Hv]; [destruct Hv' as [[_ ->]|Hv']; [lia|specialize (Hmax v' Hv'); lia]|].
      destruct Hv' as [[_ ->]|Hv']; [|by apply (Hrun (cw_Id cv) v v')]. apply (Hrun (cw_Id cv) v (cw_Version cv - 1)%Z); [done|done|lia].
  - assert (∀ x y, is_primary x y db2 → is_primary x y db ∨ (x = cw_Id cv ∧ y = cw_Version cv)) as Hp2.
    { intros x y. unfold is_primary, db2. rewrite put_row_live by done. rewrite Hcid, Hver. destruct (decide (x = cw_Id cv ∧ y = cw_Version cv)); intros Hxy; [by right|left; exact Hxy]. }
    intros id v v'. unfold is_primary at 1 2. rewrite Hdb. destruct (decide (cw_State cv = StatePrimary)) as [Hpr|Hnp].
    + rewrite !move_others_state by done. intros [H1 H1'] [H2 H2']. destruct (decide (id = cw_Id cv)) as [->|Hne].
      * by rewrite H1', H2'.
      * destruct (Hp2 id v H1) as [?|[? _]]; [|done]. destruct (Hp2 id v' H2) as [?|[? _]]; [|done]. by apply (Hprim id).
    + assert (∀ x y, is_primary x y db2 → is_primary x y db) as Hp3.
      { intros x y Hxy. destruct (Hp2 x y Hxy) as [?|[-> ->]]; [done|]. exfalso. unfold is_primary, db2 in Hxy.
        rewrite put_row_live, decide_True in Hxy by done. cbn in Hxy. rewrite Hst in Hxy. by injection Hxy. }
      intros H1 H2. apply (Hprim id); by apply Hp3.
  - intros id id' x x'. rewrite !Hconn. apply names_kept; [done|done|exact Hnames|]. rewrite Hid. destruct Hor as [Hor|[_ Ht]]; [by left|by right].
Qed.

Lemma set_state_ok now id v state db : connectors_ok db → connectors_ok (SetConnectorDefinitionVersionState now id v state db).2.
Proof.
  intros [Hs Hsome Hrun Hprim Hnames]. unfold SetConnectorDefinitionVersionState. case_decide; [done|].
  destruct (IsValidConnectorDefinitionVersionState state) eqn:Hst; [|done]. cbn [negb]. destruct (live_connector id db) as [c|] eqn:Hc; [|done].
  destruct (live_version id v db) as [dv|] eqn:Hdv; [|done]. cbn [snd].
  pose proof Hc as [Hc' Hcl]%live_connector_lookup. pose proof Hdv as [Hdv' Hdvl]%live_version_lookup.
  pose proof (sh_id _ Hs _ _ Hc') as Hcid. destruct (sh_key _ Hs _ _ Hdv') as [[= Hid Hver] Hb].
  set (db1 := with_connector (touch now None c) db). set (db2 := with_versions (<[(id, v) := set_state state now dv]> (k_versions db1)) db1).
  assert (db2 = put_row (set_state state now dv) db1) as Hdb2 by (unfold db2, put_row; cbn [dv_ConnectorId dv_Version set_state]; by rewrite <- Hid, <- Hver).
  assert (shape db1) as Hs1 by (apply with_connector_same_shape; [done|done|]; left; exists c; cbn; by rewrite Hcid).
  assert (shape db2) as Hs2.
  { rewrite Hdb2. apply (put_row_shape _ _ (touch now None c)); [done|done|done|done|]. unfold db1. rewrite with_connector_live. cbn.
    by rewrite Hcid, <- Hid, !decide_True. }
  assert (∀ x y, is_version x y db2 ↔ is_version x y db) as Hv2.
  { intros x y. rewrite Hdb2, put_row_version by done. cbn [dv_ConnectorId dv_Version set_state]. rewrite <- Hid, <- Hver.
    split; [intros [[-> ->]|?]; [by exists dv|done]|by right]. }
  assert (∀ x y, is_primary x y db2 → (x = id ∧ y = v ∧ state = StatePrimary) ∨ ((x = id → y ≠ v) ∧ is_primary x y db)) as Hp2.
  { intros x y. unfold is_primary. rewrite Hdb2, put_row_live by done. cbn [dv_ConnectorId dv_Version set_state]. rewrite <- Hid, <- Hver.
    case_decide as Hxy; [destruct Hxy as [-> ->]; intros [= ->]; by left|]. intros Hp. right. split; [naive_solver|done]. }
  set (db3 := if decide (state = StatePrimary) then move_others id v StatePrimary StateActive now db2 else db2).
  set (db4 := if decide (state = StateDraft) then move_others id v StateDraft StateArchived now db3 else db3).
  assert (shape db3 ∧ shape db4) as [Hs3 Hs4].
  { assert (shape db3) by (unfold db3; case_decide; [by apply move_others_shape|done]). split; [done|]. unfold db4. case_decide; [by apply move_others_shape|done]. }
  assert (∀ x y, is_version x y db4 ↔ is_version x y db) as Hv4.
  { intros x y. rewrite <- Hv2. unfold db4, db3. repeat case_decide; by rewrite ?move_others_version. }
  assert (∀ x, live_connector x db4 = live_connector x db1) as Hc4 by (intros x; unfold db4, db3; by repeat case_decide).
  assert (∀ x y, is_primary x y db4 → is_primary x y db3) as Hp4.
  { intros x y. unfold db4. case_decide; [|done]. unfold is_primary, live_version. rewrite move_others_lookup. destruct (k_versions db3 !! (x, y)) as [r|]; cbn; [|done].
    destruct (_ && negb _); cbn; [|done]. case_decide; [|done]. by intros [=]. }
  split; [done|..].
  - intros x cx Hx. rewrite Hc4 in Hx. unfold db1 in Hx. rewrite with_connector_live in Hx. cbn in Hx. rewrite Hcid in Hx. setoid_rewrite Hv4. case_decide as Hxid.
    + exists v. subst x. by exists dv.
    + by apply (Hsome x cx).
  - intros x y y' z. rewrite !Hv4. apply Hrun.
  - intros x y y' Hy%Hp4 Hy'%Hp4. unfold db3 in Hy, Hy'. case_decide as Hpr.
    + apply move_others_state in Hy as [Hy Hyv], Hy' as [Hy' Hyv']; [|done..]. destruct (decide (x = id)) as [->|Hne]; [by rewrite Hyv, Hyv'|].
      destruct (Hp2 x y Hy) as [[? _]|[_ ?]]; [done|]. destruct (Hp2 x y' Hy') as [[? _]|[_ ?]]; [done|]. by apply (Hprim x).
    + destruct (Hp2 x y Hy) as [(_ & _ & ?)|[_ ?]]; [done|]. destruct (Hp2 x y' Hy') as [(_ & _ & ?)|[_ ?]]; [done|]. by apply (Hprim x).
  - intros x x' cx cx'. rewrite !Hc4. apply names_kept; [done|done|exact Hnames|]. left. exists c. cbn. by rewrite Hcid.
Qed.

Lemma delete_ok now id db : connectors_ok db → connectors_ok (DeleteConnector now id db).2.
Proof.
  intros [Hs Hsome Hrun Hprim Hnames]. unfold DeleteConnector. case_decide; [done|]. destruct (live_connector id db) as [c|] eqn:Hc; [|done]. cbn [snd].
  pose proof Hc as [Hc' Hcl]%live_connector_lookup. pose proof (sh_id _ Hs _ _ Hc') as Hcid. set (db' := with_versions _ _).
  assert (∀ k, k_versions db' !! k = (λ dv, if bool_decide (dv_ConnectorId dv = id) && bool_decide (dv_DeletedAt dv = None)
                 then mkDefinitionVersion (dv_Id dv) (dv_ConnectorId dv) (dv_Version dv) (dv_State dv) (dv_EncryptedDefinition dv)
                        (dv_CreatedAt dv) now (dv_EncryptedAt dv) (Some now)
                 else dv) <$> k_versions db !! k) as Hl by (intros k; apply lookup_fmap).
  assert (∀ x y, live_version x y db' = if decide (x = id) then None else live_version x y db) as Hv.
  { intros x y. unfold live_version. rewrite Hl. destruct (k_versions db !! (x, y)) as [r|] eqn:Hr; cbn; [|by case_decide].
    destruct (sh_key _ Hs _ _ Hr) as [[= Hx _] _]. rewrite Hx. destruct (decide (dv_ConnectorId r = id)) as [Hxid|Hxid].
    - rewrite bool_decide_true by done. cbn. destruct (decide (dv_DeletedAt r = None)) as [Hd|Hd]; [rewrite bool_decide_true by done|rewrite bool_decide_false by done]; cbn; [done|].
      by rewrite decide_False.
    - by rewrite bool_decide_false. }
  assert (∀ x, live_connector x db' = if decide (x = id) then None else live_connector x db) as Hcc.
  { intros x. change (live_connector x db') with (live_connector x (with_connector (touch now (Some now) c) db)). rewrite with_connector_live. cbn. by rewrite Hcid. }
  split.
  - destruct Hs as [Hsid Hskey Hsst Hslive]. split.
    + intros x cx. cbn. rewrite lookup_insert_Some. intros [[<- <-]|[_ ?]]; [done|eauto].
    + intros k r. rewrite Hl. destruct (k_versions db !! k) as [r0|] eqn:Hr; cbn; [|done]. intros [= <-]. destruct (_ && _); cbn; eauto.
    + intros k r. rewrite Hl. destruct (k_versions db !! k) as [r0|] eqn:Hr; cbn; [|done]. intros [= <-]. destruct (_ && _); cbn; eauto.
    + intros k r. rewrite Hl. destruct (k_versions db !! k) as [r0|] eqn:Hr; cbn; [|done]. intros [= <-].
      destruct (Hslive k r0 Hr) as (c0 & Hc0 & Hiff). destruct (decide (dv_ConnectorId r0 = id)) as [Heq|Hne].
      * exists (touch now (Some now) c). rewrite bool_decide_true by done. cbn [andb]. rewrite Heq, Hc' in Hc0. injection Hc0 as <-.
        rewrite bool_decide_true by (by apply Hiff). cbn. rewrite Heq, Hcid, lookup_insert_eq. done.
      * exists c0. rewrite bool_decide_false by done. cbn. rewrite lookup_insert_ne by congruence. done.
  - intros x cx. rewrite Hcc. case_decide; [done|]. intros Hx. destruct (Hsome x cx Hx) as [v Hv']. exists v. unfold is_version. by rewrite Hv, decide_False.
  - intros x y y' z. unfold is_version. rewrite !Hv. case_decide; [by intros [??]|]. apply Hrun.
  - intros x y y'. unfold is_primary. rewrite !Hv. case_decide; [done|]. apply Hprim.
  - intros x x' cx cx'. rewrite !Hcc. do 2 (case_decide; [done|]). apply Hnames.
Qed.

Lemma rename_ok now id name db : connectors_ok db → connectors_ok (UpdateConnectorName now id name db).2.
Proof.
  intros [Hs Hsome Hrun Hprim Hnames]. unfold UpdateConnectorName. case_decide; [done|]. destruct (ID_ValidatePrefix _ _); [done|].
  destruct (ResourceName_Validate name); [done|]. destruct (live_connector id db) as [c|] eqn:Hc; [|done]. destruct (name_taken _ _ _ db) eqn:Ht; [done|]. cbn [snd].
  pose proof Hc as [Hc' Hcl]%live_connector_lookup. pose proof (sh_id _ Hs _ _ Hc') as Hcid.
  match goal with |- connectors_ok (with_connector ?x db) => set (c' := x) end. split.
  - apply with_connector_same_shape; [done|done|]. left. exists c. cbn. by rewrite Hcid.
  - intros x cx. rewrite with_connector_live. cbn. rewrite Hcid. case_decide as Hx; [subst x; intros _; by apply (Hsome id c)|apply Hsome].
  - exact Hrun.
  - exact Hprim.
  - apply names_kept; [done|done|exact Hnames|]. right. cbn. by rewrite Hcid.
Qed.

(** A sequence of operations, with the times and ids they get.  The purge of
    connectors that were deleted long ago and the re-encryption of the column
    of definitions are not among them. *)
Inductive connector_op : Type :=
  | OpUpsert (now : Z) (fresh : string) (cv : ConnectorWithDefinition)
  | OpSetState (now : Z) (id : string) (v : Z) (state : string)
  | OpDelete (now : Z) (id : string)
  | OpRename (now : Z) (id name : string).

Definition run_op (db : cdb) (o : connector_op) : cdb :=
  match o with
  | OpUpsert now fresh cv => (UpsertConnectorDefinitionVersion visit now fresh cv db).2
  | OpSetState now id v state => (SetConnectorDefinitionVersionState now id v state db).2
  | OpDelete now id => (DeleteConnector now id db).2
  | OpRename now id name => (UpdateConnectorName now id name db).2
  end.

(** Version numbers are 64-bit. *)
Definition op_in_range (o : connector_op) : Prop := match o with OpUpsert _ _ cv => (0 ≤ cw_Version cv < 2 ^ 64)%Z | _ => True end.

Lemma run_op_ok db o : op_in_range o → connectors_ok db → connectors_ok (run_op db o).
Proof. destruct o; [apply upsert_ok|intros _; apply set_state_ok|intros _; apply delete_ok|intros _; apply rename_ok]. Qed.

Lemma run_ops_ok ops db : Forall op_in_range ops → connectors_ok db → connectors_ok (foldl run_op db ops).
Proof. intros Hops. revert db. induction Hops as [|o ops Ho _ IH]; intros db Hdb; [done|]. by apply IH, run_op_ok. Qed.

Definition no_connectors (namespaces : gmap string NamespaceRow) : cdb := mkCdb ∅ ∅ namespaces.

Lemma no_connectors_ok namespaces : connectors_ok (no_connectors namespaces).
Proof.
  split; [split|..]; unfold is_version, is_primary, live_version, live_connector; cbn; intros *; rewrite ?lookup_empty; cbn; intros; done || (destruct_and?; by simplify_eq) || idtac.
Qed.

(** ** Published versions *)

(** The row of a version that is no draft, with what it is about. *)
Definition published (id : string) (v : Z) (dv : ConnectorDefinitionVersion) (db : cdb) : Prop :=
  ∃ x, k_versions db !! (id, v) = Some x ∧ dv_Id x = dv_Id dv ∧ dv_EncryptedDefinition x = dv_EncryptedDefinition dv ∧ dv_State x ≠ StateDraft.

Lemma move_others_published id v dv i w from to now db : to ≠ StateDraft → published id v dv db → published id v dv (move_others i w from to now db).
Proof.
  intros Hto (x & Hx & Hid & Hdef & Hst). unfold published. rewrite move_others_lookup, Hx. cbn. eexists. split; [reflexivity|]. by destruct (_ && negb _).
Qed.

Lemma put_row_published id v dv x db : published id v dv db → (dv_ConnectorId x, dv_Version x) ≠ (id, v) → published id v dv (put_row x db).
Proof. intros (y & Hy & Hrest) Hne. exists y. split; [|done]. unfold put_row. cbn. by rewrite lookup_insert_ne. Qed.

(** Only setting the version back to draft lets it change. *)
Definition unpublishes (id : string) (v : Z) (o : connector_op) : Prop :=
  match o with OpSetState _ i w state => i = id ∧ w = v ∧ state = StateDraft | _ => False end.

Lemma run_op_published id v dv db o : connectors_ok db → op_in_range o → ¬ unpublishes id v o → published id v dv db → published id v dv (run_op db o).
Proof.
  intros [Hs _ _ _ _] Hrange Hnot Hpub. destruct o as [now fresh cv|now i w state|now i|now i name]; cbn [run_op].
  - pose proof (upsert_inv visit now fresh cv db Hs Hrange) as Hu. destruct (UpsertConnectorDefinitionVersion _ _ _ _ _) as [[e|] db']; cbn [snd]; [by rewrite Hu|].
    destruct Hu as (c & x & [Hdb _ _ _ _ Hcid Hver _ _ _ _ Hfol _]). rewrite Hdb. cbn zeta.
    assert (published id v dv (put_row x (with_connector c db))) as Hput.
    { apply put_row_published; [exact Hpub|]. rewrite Hcid, Hver. intros [= Hi Hw]. rewrite Hi, Hw in Hfol. destruct Hpub as (y & Hy & _ & _ & Hyst).
      destruct Hfol as [(old & [Hold _]%live_version_lookup & Hd)|[Hn _]]; congruence. }
    case_decide; [by apply move_others_published|done].
  - unfold SetConnectorDefinitionVersionState. case_decide; [done|]. destruct (negb _); [done|]. destruct (live_connector i db) as [c|]; [|done].
    destruct (live_version i w db) as [x|] eqn:Hx; [|done]. cbn [snd]. apply live_version_lookup in Hx as [Hx _].
    destruct (sh_key _ Hs _ _ Hx) as [[= Hi Hw] _].
    assert (published id v dv (with_versions (<[(i, w) := set_state state now x]> (k_versions (with_connector (touch now None c) db))) (with_connector (touch now None c) db))) as Hput.
    { destruct Hpub as (y & Hy & H1 & H2 & H3). destruct (decide ((i, w) = (id, v))) as [[= -> ->]|Hne].
      - exists (set_state state now x). cbn. rewrite lookup_insert_eq. rewrite Hy in Hx. injection Hx as <-. split_and!; [done..|]. intros ->. by apply Hnot.
      - exists y. cbn. by rewrite lookup_insert_ne. }
    repeat case_decide; repeat (apply move_others_published; [done|]); exact Hput.
  - unfold DeleteConnector. case_decide; [done|]. destruct (live_connector i db) as [c|]; [|done]. destruct Hpub as (y & Hy & H1 & H2 & H3).
    eexists. cbn. rewrite lookup_fmap, Hy. split; [reflexivity|]. by destruct (_ && _).
  - unfold UpdateConnectorName. case_decide; [done|]. destruct (ID_ValidatePrefix _ _); [done|]. destruct (ResourceName_Validate name); [done|].
    destruct (live_connector i db); [|done]. destruct (name_taken _ _ _ db); done.
Qed.

(** C30: what the tables of connectors hold after every sequence of upserts,
    changes of state, deletions and renames, those that fail included: a
    connector has at most one primary version, which is the one a query for it
    returns; its versions are numbered without gaps; names are unique in their
    namespace; a connector is live exactly as long as its versions are.  And a
    version that is published keeps its definition, also when its connector is
    deleted, unless it is made a draft again. *)
Theorem connector_versions_invariant namespaces ops later id v dv : Forall op_in_range (ops ++ later) →
  let db := foldl run_op (no_connectors namespaces) ops in
  (∀ id v v', is_primary id v db → is_primary id v' db → v = v') ∧
  (∀ id v, is_primary id v db → cw_Version <$> GetConnectorDefinitionVersionForState id StatePrimary db = Some v) ∧
  (∀ id v v' x, is_version id v db → is_version id v' db → (v ≤ x ≤ v')%Z → is_version id x db) ∧
  (∀ id id' c c', live_connector id db = Some c → live_connector id' db = Some c' → dc_Namespace c = dc_Namespace c' → dc_Name c = dc_Name c' → id = id') ∧
  (∀ id, is_Some (live_connector id db) ↔ ∃ v, is_version id v db) ∧
  (live_version id v db = Some dv → dv_State dv ≠ StateDraft → Forall (λ o, ¬ unpublishes id v o) later →
   ∃ dv', k_versions (foldl run_op db later) !! (id, v) = Some dv' ∧ dv_EncryptedDefinition dv' = dv_EncryptedDefinition dv).
Proof.
  intros [Hops Hlater]%Forall_app db. pose proof (run_ops_ok ops _ Hops (no_connectors_ok namespaces)) as Hok. fold db in Hok.
  pose proof Hok as [Hs Hsome Hrun Hprim Hnames]. split_and!; [done| |done|done| |].
  - intros i w Hw. pose proof (newest_spec (λ dv, bool_decide (dv_State dv = StatePrimary)) i db Hs) as Hn. unfold GetConnectorDefinitionVersionForState, is_primary in *.
    destruct (live_version i w db) as [x|] eqn:Hx; [|done]. injection Hw as Hst. destruct (newest _ i db) as [cw|].
    + destruct Hn as (c & d & -> & _ & Hd & HP & _). apply bool_decide_eq_true in HP. cbn. f_equal. apply (Hprim i); unfold is_primary; by rewrite ?Hd, ?Hx; cbn; congruence.
    + specialize (Hn w x Hx). cbn in Hn. by rewrite bool_decide_true in Hn.
  - intros i. split; [intros [c Hc]; by apply (Hsome i c)|]. intros (w & x & [Hx Hl]%live_version_lookup). destruct (sh_live _ Hs _ _ Hx) as (c & Hc & Hiff).
    destruct (sh_key _ Hs _ _ Hx) as [[= Hid _] _]. exists c. apply live_connector_lookup. rewrite Hid. split; [done|by apply Hiff].
  - intros Hdv Hst Hnot. assert (published id v dv (foldl run_op db later)) as (x & Hx & _ & Hdef & _); [|by exists x].
    assert (published id v dv db) as Hpub by (apply live_version_lookup in Hdv as [Hdv _]; by exists dv).
    clear Hdv Hs Hsome Hrun Hprim Hnames. clearbody db. revert db Hok Hpub. induction later as [|o later IH]; intros db Hok Hpub; [done|]. cbn.
    inversion Hnot; subst. inversion Hlater; subst. apply IH; [done|done|by apply run_op_ok|by apply run_op_published].
Qed.
End invariant.
