(* ===== verification/ConnectorService.v ===== *)
(** * Connectors in the core

    The operations on connectors and their versions
    (internal/core/service_connector_version_create.go,
    service_connector_version_update.go, connector_builder.go, connector.go) and
    the migration of connectors from the configuration file
    (service_migration.go): each configured connector is found by its id or
    name, compared with what is stored by a hash of its definition, and stored
    as a new version when it differs; connectors that are no longer configured
    are removed or, while connections use them, demoted. *)

From S2P Require Import Prelude GoNumbers GoStrings Namespace Labels Actors KeyMaterial Encryption EncryptService Connectors.
Open Scope string_scope.
Open Scope list_scope.

(** ** Definitions of connectors *)

(** [cschema.Connector]: the fields that identify it, and the rest. *)
Record config_Connector := mkConfigConnector {
  cc_Id : string;
  cc_Name : string;
  cc_Version : Z;
  cc_Namespace : option string;
  cc_State : string;
  cc_Labels : option Labels;
  cc_Rest : string
}.

Definition HasId (c : config_Connector) : bool := negb (bool_decide (cc_Id c = "")).
Definition HasName (c : config_Connector) : bool := negb (bool_decide (cc_Name c = "")).
Definition HasVersion (c : config_Connector) : bool := (0 <? cc_Version c)%Z.
Definition cc_GetNamespace (c : config_Connector) : string := default Root (cc_Namespace c).

(** JSON of a definition and the first digits of its SHA-1 hash. *)
Class ConnectorJson := {
  definition_Marshal : config_Connector → string;
  definition_Unmarshal : string → option config_Connector;
  sha1_digits : string → string
}.

Section core.
Context {C : Cipher} {J : ConnectorJson}.
Context (eo : outside) (mem : caches) (visit : Labels → list (string * string)) (order : list DbConnector → list DbConnector).

(** The tables, the counter of what is drawn from outside, and the connectors
    whose labels are to be propagated. *)
Record cstate := mkCstate { ks_db : cdb; ks_n : nat; ks_tasks : list string }.

Definition with_db (db : cdb) (s : cstate) : cstate := mkCstate db (ks_n s) (ks_tasks s).
Definition advance (s : cstate) : cstate := mkCstate (ks_db s) (S (ks_n s)) (ks_tasks s).
Definition enqueueConnectorLabelPropagation (id : string) (s : cstate) : cstate := mkCstate (ks_db s) (ks_n s) (ks_tasks s ++ [id]).

Definition cc_Hash (c : config_Connector) : string :=
  sha1_digits (definition_Marshal (mkConfigConnector (cc_Id c) "" (cc_Version c) (cc_Namespace c) (cc_State c) (cc_Labels c) (cc_Rest c))).

Record built := mkBuilt { bt_cv : ConnectorWithDefinition; bt_Hash : string }.

(** [connectorBuilder.Build] with [setDefinition]; the setters of the builder
    also change the configuration it was given. *)
Definition with_identity (id : string) (version : Z) (state : string) (c : config_Connector) : config_Connector :=
  mkConfigConnector id (cc_Name c) version (cc_Namespace c) state (cc_Labels c) (cc_Rest c).

Definition stored_definition (c : config_Connector) : string :=
  definition_Marshal (mkConfigConnector (cc_Id c) "" (cc_Version c) (cc_Namespace c) (cc_State c) (cc_Labels c) (cc_Rest c)).

Definition Build (id : string) (version : Z) (state : string) (c : config_Connector) (s : cstate) : option built * cstate :=
  let c := with_identity id version state c in
  (match EncryptForNamespace eo (ks_n s) mem (cc_GetNamespace c) (stored_definition c) with
   | Err _ => None
   | Ok encrypted =>
       Some (mkBuilt (mkConnectorWithDefinition id (cc_GetNamespace c) "" "" version state encrypted (cc_Labels c) None 0 0 0 0 None None) (cc_Hash c))
   end, advance s).

Definition getDefinition (cv : ConnectorWithDefinition) : option config_Connector :=
  match Decrypt mem (cw_EncryptedDefinition cv) with Ok decrypted => definition_Unmarshal decrypted | Err _ => None end.

Definition getHash (cv : ConnectorWithDefinition) : option string :=
  match Decrypt mem (cw_EncryptedDefinition cv) with Ok decrypted => Some (sha1_digits decrypted) | Err _ => None end.

Inductive svc_error : Type := SvcNotFound | SvcDraftAlreadyExists | SvcNotDraft | SvcFailed.

(** ** The API *)

Definition getConnectorVersion (id : string) (version : Z) (s : cstate) : result svc_error ConnectorWithDefinition * cstate :=
  match GetConnectorDefinitionVersion id version (ks_db s) with
  | None => (Err SvcNotFound, s)
  | Some cv => match getDefinition cv with Some _ => (Ok cv, s) | None => (Err SvcFailed, s) end
  end.

Definition with_metadata (name : string) (labels : option Labels) (annotations : option (gmap string string)) (cv : ConnectorWithDefinition) : ConnectorWithDefinition :=
  mkConnectorWithDefinition (cw_Id cv) (cw_Namespace cv) name (cw_DefinitionVersionId cv) (cw_Version cv) (cw_State cv)
    (cw_EncryptedDefinition cv) labels annotations (cw_CreatedAt cv) (cw_UpdatedAt cv) (cw_DefinitionCreatedAt cv)
    (cw_DefinitionUpdatedAt cv) (cw_EncryptedAt cv) (cw_DeletedAt cv).

(** The upsert with the ids that are drawn in it. *)
Definition upsert (now : Z) (cv : ConnectorWithDefinition) (s : cstate) : option connector_error * cstate :=
  let '(e, db) := UpsertConnectorDefinitionVersion visit now (id_at eo (ks_n s)) cv (ks_db s) in (e, advance (with_db db s)).

(** A version is built as a draft, stored and read back. *)
Definition store_draft (now : Z) (id : string) (version : Z) (ns : string) (def : config_Connector) (name : string) (labels : option Labels)
    (annotations : option (gmap string string)) (s : cstate) : result svc_error unit * cstate :=
  let def := mkConfigConnector (cc_Id def) (cc_Name def) (cc_Version def) (Some ns) (cc_State def) (cc_Labels def) (cc_Rest def) in
  match Build id version StateDraft def s with
  | (None, s) => (Err SvcFailed, s)
  | (Some b, s) =>
      match upsert now (with_metadata name labels annotations (bt_cv b)) s with
      | (Some _, s) => (Err SvcFailed, s)
      | (None, s) => (Ok tt, s)
      end
  end.

Definition and_get (id : string) (version : Z) (r : result svc_error unit * cstate) : result svc_error ConnectorWithDefinition * cstate :=
  match r with (Err e, s) => (Err e, s) | (Ok _, s) => getConnectorVersion id version s end.

Definition CreateConnectorVersion (now : Z) (ns name : string) (definition : config_Connector) (labels : option Labels)
    (annotations : option (gmap string string)) (s : cstate) : result svc_error ConnectorWithDefinition * cstate :=
  let id := PrefixConnector +:+ id_at eo (ks_n s) in
  and_get id 1 (store_draft now id 1 ns definition name labels annotations (advance s)).

Definition core_UpdateConnectorName (now : Z) (id name : string) (s : cstate) : option svc_error * cstate :=
  match UpdateConnectorName now id name (ks_db s) with
  | (Some ConnectorNotFound, db) => (Some SvcNotFound, with_db db s)
  | (Some _, db) => (Some SvcFailed, with_db db s)
  | (None, db) => (None, enqueueConnectorLabelPropagation id (with_db db s))
  end.

(** The definition given, or that of the latest version. *)
Definition CreateDraftConnectorVersion (now : Z) (id : string) (definition : option config_Connector) (labels : option Labels)
    (annotations : option (gmap string string)) (s : cstate) : result svc_error ConnectorWithDefinition * cstate :=
  match GetConnectorDefinitionVersionForState id StateDraft (ks_db s) with
  | Some _ => (Err SvcDraftAlreadyExists, s)
  | None =>
      match NewestConnectorDefinitionVersionForId id (ks_db s) with
      | None => (Err SvcNotFound, s)
      | Some latest =>
          let newVersion := next_version (cw_Version latest) in
          match (match definition with Some d => Some d | None => getDefinition latest end) with
          | None => (Err SvcFailed, s)
          | Some def =>
              and_get id newVersion
                (store_draft now id newVersion (cw_Namespace latest) def ""
                   (match labels with Some l => Some l | None => cw_Labels latest end)
                   (match annotations with Some a => Some a | None => cw_Annotations latest end) s)
          end
      end
  end.

Definition UpdateDraftConnectorVersion (now : Z) (id : string) (version : Z) (definition : config_Connector) (labels : option Labels)
    (annotations : option (gmap string string)) (s : cstate) : result svc_error ConnectorWithDefinition * cstate :=
  match GetConnectorDefinitionVersion id version (ks_db s) with
  | None => (Err SvcNotFound, s)
  | Some existing =>
      if decide (cw_State existing ≠ StateDraft) then (Err SvcNotDraft, s)
      else match store_draft now id version (cw_Namespace existing) definition ""
                   (match labels with Some l => Some l | None => cw_Labels existing end)
                   (match annotations with Some a => Some a | None => cw_Annotations existing end) s with
           | (Err e, s) => (Err e, s)
           | (Ok _, s) => getConnectorVersion id version (enqueueConnectorLabelPropagation id s)
           end
  end.

Definition GetOrCreateDraftConnectorVersion (now : Z) (id : string) (s : cstate) : result svc_error ConnectorWithDefinition * cstate :=
  match GetConnectorDefinitionVersionForState id StateDraft (ks_db s) with
  | Some draft => match getDefinition draft with Some _ => (Ok draft, s) | None => (Err SvcFailed, s) end
  | None =>
      match NewestConnectorDefinitionVersionForId id (ks_db s) with
      | None => (Err SvcNotFound, s)
      | Some latest =>
          match getDefinition latest with
          | None => (Err SvcFailed, s)
          | Some def =>
              let newVersion := next_version (cw_Version latest) in
              and_get id newVersion (store_draft now id newVersion (cw_Namespace latest) def "" (cw_Labels latest) (cw_Annotations latest) s)
          end
      end
  end.

Definition Connector_SetState (now : Z) (id : string) (version : Z) (state : string) (s : cstate) : option svc_error * cstate :=
  match SetConnectorDefinitionVersionState now id version state (ks_db s) with
  | (None, db) => (None, with_db db s)
  | (Some _, db) => (Some SvcFailed, with_db db s)
  end.

(** ** Migration *)

Definition connectorSourceLabelKey : string := "apxy/cxr/source".
Definition connectorSourceLabelValueConfig : string := "config".

(** The live connectors with the version that stands for each. *)
Definition list_connectors (P : DbConnector → bool) (db : cdb) : list ConnectorWithDefinition :=
  omap (λ c, listed c db) (order (List.filter (λ c, bool_decide (dc_DeletedAt c = None) && P c) (map snd (map_to_list (k_connectors db))))).

Definition connectorForConfigName (ns name : string) (db : cdb) : result svc_error (option ConnectorWithDefinition) :=
  match take 2 (list_connectors (λ c, bool_decide (dc_Name c = name) && bool_decide (dc_Namespace c = ns)) db) with
  | [] => Ok None
  | [cv] => Ok (Some cv)
  | _ => Err SvcFailed
  end.

Definition connectorVersionHashEquals (cv : ConnectorWithDefinition) (expected : string) : result svc_error bool :=
  match getHash cv with Some actual => Ok (bool_decide (actual = expected)) | None => Err SvcFailed end.

(** [ValidateIdentities]: each entry has an id or a name, and no two entries
    contradict each other. *)
Definition entry_name (c : config_Connector) : string := if HasName c then cc_Name c else cc_Id c.
Definition entry_state (c : config_Connector) : string := if decide (cc_State c = "") then StatePrimary else cc_State c.

Definition same_name_key (a b : config_Connector) : bool :=
  bool_decide (cc_GetNamespace a = cc_GetNamespace b) && bool_decide (entry_name a = entry_name b).

Definition same_logical (a b : config_Connector) : bool :=
  bool_decide (cc_Id a = cc_Id b) && (HasId a || same_name_key a b).

Definition contradict (a b : config_Connector) : bool :=
  (same_name_key a b && (negb (bool_decide (cc_Id a = cc_Id b)))) ||
  (HasId a && bool_decide (cc_Id a = cc_Id b) &&
     (negb (bool_decide (cc_GetNamespace a = cc_GetNamespace b)) || (HasName a && HasName b && negb (bool_decide (cc_Name a = cc_Name b))))) ||
  (same_logical a b &&
     if HasVersion a then negb (HasVersion b) || (cc_Version a =? cc_Version b)%Z
     else HasVersion b || bool_decide (entry_state a = entry_state b)).

Fixpoint pairwise (R : config_Connector → config_Connector → bool) (l : list config_Connector) : bool :=
  match l with [] => true | a :: l => forallb (λ b, negb (R a b)) l && pairwise R l end.

Definition ValidateIdentities (l : list config_Connector) : bool :=
  forallb (λ c, HasId c || HasName c) l && pairwise contradict l.

(** A published version must not have changed. *)
Definition precheck_unchanged (c : config_Connector) (existing : ConnectorWithDefinition) : result svc_error unit :=
  let c := mkConfigConnector (cc_Id c) (cc_Name c) (cc_Version c) (cc_Namespace c) (entry_state c) (cc_Labels c) (cc_Rest c) in
  if decide (cw_State existing = StateDraft) then Ok tt
  else match connectorVersionHashEquals existing (cc_Hash c) with
  | Ok true => Ok tt
  | Ok false | Err _ => Err SvcFailed
  end.

Definition guard_ok (b : bool) : result svc_error unit := if b then Ok tt else Err SvcFailed.

(** The number follows the newest one, or is the first. *)
Definition precheck_number (c : config_Connector) (newest : option ConnectorWithDefinition) (same_namespace : bool) : result svc_error unit :=
  match newest with
  | Some nv => guard_ok ((next_version (cw_Version nv) =? cc_Version c)%Z && (negb same_namespace || bool_decide (cw_Namespace nv = cc_GetNamespace c)))
  | None => guard_ok (cc_Version c =? 1)%Z
  end.

Definition precheck_by_id (c : config_Connector) (db : cdb) : result svc_error unit :=
  if HasVersion c then
    match GetConnectorDefinitionVersion (cc_Id c) (cc_Version c) db with
    | None => precheck_number c (NewestConnectorDefinitionVersionForId (cc_Id c) db) true
    | Some existing => if decide (cw_Namespace existing ≠ cc_GetNamespace c) then Err SvcFailed else precheck_unchanged c existing
    end
  else match NewestConnectorDefinitionVersionForId (cc_Id c) db with
  | Some existing => guard_ok (bool_decide (cw_Namespace existing = cc_GetNamespace c))
  | None => Ok tt
  end.

Definition precheckConnectorForMigration (c : config_Connector) (db : cdb) : result svc_error unit :=
  if HasId c then
    if HasName c then
      match connectorForConfigName (cc_GetNamespace c) (cc_Name c) db with
      | Err e => Err e
      | Ok (Some byName) => if decide (cw_Id byName ≠ cc_Id c) then Err SvcFailed else precheck_by_id c db
      | Ok None => precheck_by_id c db
      end
    else precheck_by_id c db
  else match connectorForConfigName (cc_GetNamespace c) (cc_Name c) db with
  | Err e => Err e
  | Ok existingConnector =>
      if HasVersion c then
        match existingConnector with
        | None => precheck_number c None false
        | Some e =>
            match GetConnectorDefinitionVersion (cw_Id e) (cc_Version c) db with
            | Some existing => precheck_unchanged c existing
            | None => match NewestConnectorDefinitionVersionForId (cw_Id e) db with
                      | Some nv => precheck_number c (Some nv) false
                      | None => Ok tt
                      end
            end
        end
      else Ok tt
  end.

Fixpoint precheck_all (l : list config_Connector) (db : cdb) : result svc_error unit :=
  match l with
  | [] => Ok tt
  | c :: l => match precheckConnectorForMigration c db with Ok _ => precheck_all l db | Err e => Err e end
  end.

Definition precheckConnectorsForMigration (l : list config_Connector) (db : cdb) : result svc_error unit :=
  if ValidateIdentities l then precheck_all l db else Err SvcFailed.

Definition syncConfiguredConnectorName (now : Z) (c : config_Connector) (existing : option ConnectorWithDefinition) (s : cstate) : option svc_error * cstate :=
  match existing with
  | None => (None, s)
  | Some e =>
      if HasId c && HasName c && negb (bool_decide (cw_Name e = cc_Name c)) then core_UpdateConnectorName now (cc_Id c) (cc_Name c) s
      else (None, s)
  end.

(** Whether the connector as built with a number is what is stored; a build
    that fails is none. *)
Definition matches_existing (id : string) (version : Z) (state : string) (c : config_Connector) (existing : option ConnectorWithDefinition) (s : cstate) :
    result svc_error bool * cstate :=
  match existing with
  | None => (Ok false, s)
  | Some e => match Build id version state c s with (Some b, s) => (connectorVersionHashEquals e (bt_Hash b), s) | (None, s) => (Ok false, s) end
  end.

(** Where a configured connector goes: the id, the number, what it is compared
    with, and the number it is compared as. *)
Record target := mkTarget { tg_Id : string; tg_Version : Z; tg_Existing : option ConnectorWithDefinition; tg_Compared : Z }.

Definition find_target (now : Z) (newId : string) (c : config_Connector) (s : cstate) : result svc_error target * cstate :=
  let db := ks_db s in
  if HasId c && HasVersion c then
    let existing := GetConnectorDefinitionVersion (cc_Id c) (cc_Version c) db in
    let for_name := match existing with
                    | Some e => Some e
                    | None => if HasName c then NewestConnectorDefinitionVersionForId (cc_Id c) db else None
                    end in
    match syncConfiguredConnectorName now c for_name s with
    | (Some e, s) => (Err e, s)
    | (None, s) => (Ok (mkTarget (cc_Id c) (cc_Version c) existing (cc_Version c)), s)
    end
  else if HasId c then
    let existing := NewestConnectorDefinitionVersionForId (cc_Id c) db in
    match syncConfiguredConnectorName now c existing s with
    | (Some e, s) => (Err e, s)
    | (None, s) =>
        (Ok (match existing with
             | Some e => mkTarget (cc_Id c) (next_version (cw_Version e)) existing (cw_Version e)
             | None => mkTarget (cc_Id c) 1 None 1
             end), s)
    end
  else match connectorForConfigName (cc_GetNamespace c) (cc_Name c) db with
  | Err e => (Err e, s)
  | Ok None => (Ok (mkTarget newId (if HasVersion c then cc_Version c else 1) None 1), s)
  | Ok (Some e) =>
      if HasVersion c then
        let existing := match GetConnectorDefinitionVersion (cw_Id e) (cc_Version c) db with Some x => x | None => e end in
        (Ok (mkTarget (cw_Id e) (cc_Version c) (Some existing) (cc_Version c)), s)
      else (Ok (mkTarget (cw_Id e) (next_version (cw_Version e)) (Some e) (cw_Version e)), s)
  end.

(** Stored with the label that says where it comes from; compared once more
    with the number it gets. *)
Definition store_configured (now : Z) (t : target) (state : string) (c : config_Connector) (s : cstate) : result svc_error string * cstate :=
  match Build (tg_Id t) (tg_Version t) state c s with
  | (None, s) => (Err SvcFailed, s)
  | (Some b, s) =>
      match (match tg_Existing t with Some e => connectorVersionHashEquals e (bt_Hash b) | None => Ok false end) with
      | Err e => (Err e, s)
      | Ok true => (Ok (tg_Id t), s)
      | Ok false =>
          let labels := <[connectorSourceLabelKey := connectorSourceLabelValueConfig]> (default ∅ (cw_Labels (bt_cv b))) in
          match upsert now (with_metadata (cc_Name c) (Some labels) (cw_Annotations (bt_cv b)) (bt_cv b)) s with
          | (Some _, s) => (Err SvcFailed, s)
          | (None, s) => (Ok (tg_Id t), s)
          end
      end
  end.

Definition migrateConnector (now : Z) (c : config_Connector) (s : cstate) : result svc_error string * cstate :=
  let newId := PrefixConnector +:+ id_at eo (ks_n s) in
  let state := entry_state c in
  match find_target now newId c (advance s) with
  | (Err e, s) => (Err e, s)
  | (Ok t, s) =>
      match matches_existing (tg_Id t) (tg_Compared t) state c (tg_Existing t) s with
      | (Err e, s) => (Err e, s)
      | (Ok true, s) => (Ok (tg_Id t), s)
      | (Ok false, s) => store_configured now t state c s
      end
  end.

(** *** Connectors that are no longer configured *)

(** [has_connections] says which connectors have live connections. *)
Context (has_connections : string → bool).

Definition handleOrphanedConfigConnector (now : Z) (id : string) (db : cdb) : result svc_error unit * cdb :=
  if negb (has_connections id) then
    match DeleteConnector now id db with
    | (None, db) | (Some ConnectorNotFound, db) => (Ok tt, db)
    | (Some _, db) => (Err SvcFailed, db)
    end
  else match NewestPublishedConnectorDefinitionVersionForId id db with
  | Some newest =>
      if decide (cw_State newest = StatePrimary) then
        match SetConnectorDefinitionVersionState now (cw_Id newest) (cw_Version newest) StateActive db with
        | (None, db) => (Ok tt, db)
        | (Some _, db) => (Err SvcFailed, db)
        end
      else (Ok tt, db)
  | None => (Ok tt, db)
  end.

Fixpoint handle_orphans (now : Z) (seen : list string) (page : list ConnectorWithDefinition) (db : cdb) : result svc_error unit * cdb :=
  match page with
  | [] => (Ok tt, db)
  | cv :: page =>
      if decide (cw_Id cv ∈ seen) then handle_orphans now seen page db
      else match handleOrphanedConfigConnector now (cw_Id cv) db with
           | (Ok _, db) => handle_orphans now seen page db
           | (Err e, db) => (Err e, db)
           end
  end.

Definition config_sourced (c : DbConnector) : bool := bool_decide (dc_Labels c !! connectorSourceLabelKey = Some connectorSourceLabelValueConfig).

Definition orphan_page : nat := 100.

(** [Enumerate]: the next page starts where this one ended, among the rows
    there then are. *)
Fixpoint cleanup_pages (fuel : nat) (now : Z) (seen : list string) (offset : nat) (db : cdb) : result svc_error unit * cdb :=
  match fuel with
  | O => (Err SvcFailed, db)
  | S fuel =>
      let rows := take (orphan_page + 1) (drop offset (list_connectors config_sourced db)) in
      match handle_orphans now seen (take orphan_page rows) db with
      | (Err e, db) => (Err e, db)
      | (Ok _, db) =>
          if (orphan_page <? length rows)%nat then cleanup_pages fuel now seen (offset + length rows - 1) db else (Ok tt, db)
      end
  end.

Definition cleanupOrphanedConfigConnectors (now : Z) (seen : list string) (db : cdb) : result svc_error unit * cdb :=
  cleanup_pages (S (size (k_connectors db))) now seen 0 db.

Fixpoint migrate_all (now : Z) (l : list config_Connector) (s : cstate) : result svc_error (list string) * cstate :=
  match l with
  | [] => (Ok [], s)
  | c :: l =>
      match migrateConnector now c s with
      | (Err e, s) => (Err e, s)
      | (Ok id, s) => match migrate_all now l s with (Ok ids, s) => (Ok (id :: ids), s) | (Err e, s) => (Err e, s) end
      end
  end.

Definition MigrateConnectors (now : Z) (l : list config_Connector) (s : cstate) : result svc_error unit * cstate :=
  match l with
  | [] => (Ok tt, s)
  | _ =>
      match precheckConnectorsForMigration l (ks_db s) with
      | Err e => (Err e, s)
      | Ok _ =>
          match migrate_all now l s with
          | (Err e, s) => (Err e, s)
          | (Ok seen, s) => let '(r, db) := cleanupOrphanedConfigConnectors now seen (ks_db s) in (r, with_db db s)
          end
      end
  end.
End core.
Arguments mkCstate : clear implicits.
