(* ===== verification/ConnectorMigration.v ===== *)
(** * Migration of connectors settles

    What a successful migration of the configured connectors leaves in the
    database, that the next migration of the same configuration writes nothing
    for them, and the entries for which it is refused. *)

From S2P Require Import Prelude GoNumbers GoStrings Namespace Labels Actors KeyMaterial Encryption EncryptService Connectors ConnectorService.
Open Scope string_scope.
Open Scope list_scope.

(** ** Versions that stand for their connector *)

Lemma rank_primary s : (1 ≤ rank s)%Z ∧ (rank s = 1%Z → s = StatePrimary).
Proof. unfold rank. repeat case_decide; split; done || lia. Qed.

Lemma first_ranked_spec l : match first_ranked l with None => l = [] | Some b => b ∈ l ∧ ∀ x, x ∈ l → before x b = false end.
Proof.
  assert (∀ a, before a a = false) as Hirr.
  { intros a. unfold before. rewrite Z.ltb_irrefl, Z.eqb_refl, Z.ltb_irrefl. done. }
  assert (∀ a b, before a b = true → ∀ x, before x b = false → before x a = false) as Htr.
  { intros a b Hab x Hxb. unfold before in *. destruct (Z.ltb_spec (rank (dv_State a)) (rank (dv_State b))), (Z.eqb_spec (rank (dv_State a)) (rank (dv_State b))),
      (Z.ltb_spec (dv_Version b) (dv_Version a)), (Z.ltb_spec (rank (dv_State x)) (rank (dv_State b))), (Z.eqb_spec (rank (dv_State x)) (rank (dv_State b))),
      (Z.ltb_spec (dv_Version b) (dv_Version x)); cbn in *; try done;
    destruct (Z.ltb_spec (rank (dv_State x)) (rank (dv_State a))), (Z.eqb_spec (rank (dv_State x)) (rank (dv_State a))), (Z.ltb_spec (dv_Version a) (dv_Version x)); cbn; done || lia. }
  induction l as [|a l IH]; [done|]. cbn. destruct (first_ranked l) as [b|].
  - destruct IH as [Hb Hmax]. destruct (before a b) eqn:Hab.
    + split; [apply list_elem_of_here|]. intros x [->|Hx]%elem_of_cons; [apply Hirr|]. apply (Htr a b Hab), Hmax, Hx.
    + split; [by apply list_elem_of_further|]. intros x [->|Hx]%elem_of_cons; [done|by apply Hmax].
  - subst l. split; [apply list_elem_of_here|]. by intros x ->%list_elem_of_singleton.
Qed.

(** A live connector is listed with its primary version, if it has one. *)
Lemma listed_spec id c db : connectors_ok db → live_connector id db = Some c →
  ∃ dv, listed c db = Some (joined c dv) ∧ live_version id (dv_Version dv) db = Some dv ∧
    ∀ v, is_primary id v db → dv_Version dv = v.
Proof.
  intros [Hs Hsome _ Hprim _] Hc. pose proof Hc as [Hc' Hcl]%live_connector_lookup. pose proof (sh_id _ Hs _ _ Hc') as Hid.
  unfold listed. rewrite Hid. set (l := filter _ _).
  assert (∀ dv, dv ∈ l ↔ live_version id (dv_Version dv) db = Some dv) as Hl.
  { intros dv. unfold l. rewrite list_elem_of_filter, list_elem_of_fmap, live_version_lookup. split.
    - intros [Hcid ([k x] & -> & Hin)]. cbn in *. apply elem_of_map_to_list in Hin. destruct (sh_key _ Hs _ _ Hin) as [-> _]. rewrite Hcid in *.
      split; [done|]. destruct (sh_live _ Hs _ _ Hin) as (c0 & Hc0 & Hiff). rewrite Hcid, Hc' in Hc0. injection Hc0 as <-. by apply Hiff.
    - intros [Hin Hlive]. destruct (sh_key _ Hs _ _ Hin) as [[= Hcid] _]. split; [done|]. exists ((id, dv_Version dv), dv). split; [done|by apply elem_of_map_to_list]. }
  pose proof (first_ranked_spec l) as Hf. destruct (first_ranked l) as [b|].
  - destruct Hf as [Hb Hmax]. exists b. split; [done|]. split; [by apply Hl|]. intros v Hv. apply (Hprim id); [|done].
    unfold is_primary in *. destruct (live_version id v db) as [x|] eqn:Hx; [|done]. injection Hv as Hxst.
    pose proof Hx as [Hx' _]%live_version_lookup. destruct (sh_key _ Hs _ _ Hx') as [[= _ ->] _].
    specialize (Hmax x (proj2 (Hl x) Hx)). rewrite (proj1 (Hl b) Hb). cbn. f_equal. unfold before in Hmax. rewrite Hxst in Hmax. change (rank StatePrimary) with 1%Z in Hmax.
    destruct (rank_primary (dv_State b)) as [H1 H2]. apply H2. apply orb_false_iff in Hmax as [Hmax _]. apply Z.ltb_ge in Hmax. lia.
  - destruct (Hsome id c Hc) as (v & x & Hx). pose proof Hx as [Hx' _]%live_version_lookup. destruct (sh_key _ Hs _ _ Hx') as [[= _ ->] _].
    apply Hl in Hx. rewrite Hf in Hx. by apply elem_of_nil in Hx.
Qed.

(** ** Rows of one connector *)

(** The rows of a connector are the same. *)
Definition same_rows (id : string) (db db' : cdb) : Prop :=
  k_connectors db' !! id = k_connectors db !! id ∧ ∀ v, k_versions db' !! (id, v) = k_versions db !! (id, v).

Lemma same_rows_trans id db1 db2 db3 : same_rows id db1 db2 → same_rows id db2 db3 → same_rows id db1 db3.
Proof. intros [H1 H2] [H3 H4]. split; [congruence|]. intros v. by rewrite H4. Qed.

Lemma same_live_connector id db db' : same_rows id db db' → live_connector id db' = live_connector id db.
Proof. intros [H _]. unfold live_connector. by rewrite H. Qed.

Lemma same_live_version id v db db' : same_rows id db db' → live_version id v db' = live_version id v db.
Proof. intros [_ H]. unfold live_version. by rewrite H. Qed.

(** The version that stands for a connector is decided by its rows. *)
Lemma first_ranked_unique l l' b b' : first_ranked l = Some b → first_ranked l' = Some b' → (∀ x, x ∈ l ↔ x ∈ l') →
  (∀ x y, x ∈ l → y ∈ l → dv_Version x = dv_Version y → x = y) → b = b'.
Proof.
  intros Hb Hb' Hsame Hinj. pose proof (first_ranked_spec l) as H. pose proof (first_ranked_spec l') as H'. rewrite Hb in H. rewrite Hb' in H'.
  destruct H as [Hin Hmax], H' as [Hin' Hmax']. apply Hinj; [done|by apply Hsame|].
  specialize (Hmax b' (proj2 (Hsame b') Hin')). specialize (Hmax' b (proj1 (Hsame b) Hin)). unfold before in *.
  destruct (Z.ltb_spec (rank (dv_State b)) (rank (dv_State b'))), (Z.ltb_spec (rank (dv_State b')) (rank (dv_State b))); cbn in *; try done.
  assert (rank (dv_State b) = rank (dv_State b')) as Heq by lia. rewrite Heq, Z.eqb_refl in *. cbn in *.
  apply Z.ltb_ge in Hmax, Hmax'. lia.
Qed.

Lemma ranked_rows id db : shape db → ∀ x, x ∈ filter (λ dv, dv_ConnectorId dv = id) (map snd (map_to_list (k_versions db))) ↔ k_versions db !! (id, dv_Version x) = Some x.
Proof.
  intros Hs x. rewrite list_elem_of_filter, list_elem_of_fmap. split.
  - intros [Hcid ([k y] & -> & Hin)]. cbn in *. apply elem_of_map_to_list in Hin. destruct (sh_key _ Hs _ _ Hin) as [-> _]. congruence.
  - intros Hin. destruct (sh_key _ Hs _ _ Hin) as [[= Hcid] _]. split; [done|]. exists ((id, dv_Version x), x). split; [done|by apply elem_of_map_to_list].
Qed.

Lemma listed_same id k db db' : shape db → shape db' → dc_Id k = id → same_rows id db db' → listed k db' = listed k db.
Proof.
  intros Hs Hs' Hid [_ Hrows]. unfold listed. rewrite Hid. pose proof (ranked_rows id db Hs) as Hl. pose proof (ranked_rows id db' Hs') as Hl'.
  set (l := filter _ (map snd (map_to_list (k_versions db)))) in *. set (l' := filter _ (map snd (map_to_list (k_versions db')))) in *.
  assert (∀ x, x ∈ l' ↔ x ∈ l) as Hsame by (intros x; by rewrite Hl, Hl', Hrows).
  pose proof (first_ranked_spec l) as H. pose proof (first_ranked_spec l') as H'.
  destruct (first_ranked l) as [b|] eqn:Hb, (first_ranked l') as [b'|] eqn:Hb'; cbn.
  - rewrite (first_ranked_unique l' l b' b Hb' Hb Hsame); [done|]. intros x y Hx%Hl' Hy%Hl' Hv. rewrite Hv in Hx. congruence.
  - destruct H as [Hin%Hsame _]. rewrite H' in Hin. by apply elem_of_nil in Hin.
  - destruct H' as [Hin%Hsame _]. rewrite H in Hin. by apply elem_of_nil in Hin.
  - done.
Qed.

(** Writes to one connector leave the others. *)
Lemma move_others_frame id v from to now db x : shape db → x ≠ id → same_rows x db (move_others id v from to now db).
Proof.
  intros Hs Hne. split; [done|]. intros w. rewrite move_others_lookup. destruct (k_versions db !! (x, w)) as [dv|] eqn:Hdv; [|done].
  destruct (sh_key _ Hs _ _ Hdv) as [[= -> _] _]. cbn. by rewrite bool_decide_false.
Qed.

Lemma with_connector_frame c db x : x ≠ dc_Id c → same_rows x db (with_connector c db).
Proof. intros Hne. split; [by apply lookup_insert_ne|done]. Qed.

Lemma put_row_frame dv db x : x ≠ dv_ConnectorId dv → same_rows x db (put_row dv db).
Proof. intros Hne. split; [done|]. intros v. apply lookup_insert_ne. congruence. Qed.

Lemma upserted_frame cv now db db' c dv x : shape db → upserted cv now db db' c dv → x ≠ cw_Id cv → same_rows x db db'.
Proof.
  intros Hs Hu Hne. rewrite (up_db _ _ _ _ _ _ Hu). cbn zeta.
  assert (same_rows x db (put_row dv (with_connector c db))) as Hput.
  { eapply same_rows_trans; [apply with_connector_frame|apply put_row_frame]; [by rewrite (up_id _ _ _ _ _ _ Hu)|by rewrite (up_cid _ _ _ _ _ _ Hu)]. }
  case_decide; [|done]. eapply same_rows_trans; [exact Hput|]. split; [done|]. intros w. rewrite move_others_lookup, (proj2 Hput w).
  destruct (k_versions db !! (x, w)) as [y|] eqn:Hy; [|done]. destruct (sh_key _ Hs _ _ Hy) as [[= -> _] _]. cbn. by rewrite bool_decide_false.
Qed.

Lemma rename_frame now id name db x : shape db → x ≠ id → same_rows x db (UpdateConnectorName now id name db).2.
Proof.
  intros Hs Hne. unfold UpdateConnectorName. destruct (decide (id = "")); [done|]. destruct (ID_ValidatePrefix id _); [done|].
  destruct (ResourceName_Validate name); [done|]. destruct (live_connector id db) as [c|] eqn:Hc; [|done]. destruct (name_taken _ _ _ _); [done|].
  apply with_connector_frame. cbn. apply live_connector_lookup in Hc as [Hc _]. by rewrite (sh_id _ Hs _ _ Hc).
Qed.

Lemma delete_frame now id db x : shape db → x ≠ id → same_rows x db (DeleteConnector now id db).2.
Proof.
  intros Hs Hne. unfold DeleteConnector. destruct (decide (id = "")); [done|]. destruct (live_connector id db) as [c|] eqn:Hc; [|done].
  apply live_connector_lookup in Hc as [Hc _]. pose proof (sh_id _ Hs _ _ Hc) as Hid. split; cbn; [apply lookup_insert_ne; cbn; congruence|].
  intros v. rewrite lookup_fmap. destruct (k_versions db !! (x, v)) as [dv|] eqn:Hdv; [|done]. destruct (sh_key _ Hs _ _ Hdv) as [[= -> _] _]. cbn. by rewrite bool_decide_false.
Qed.

Lemma demote_frame now id v db x : shape db → x ≠ id → same_rows x db (SetConnectorDefinitionVersionState now id v StateActive db).2.
Proof.
  intros Hs Hne. unfold SetConnectorDefinitionVersionState. destruct (decide (id = "")); [done|]. destruct (negb _); [done|].
  destruct (live_connector id db) as [c|] eqn:Hc; [|done]. destruct (live_version id v db) as [dv|]; [|done].
  apply live_connector_lookup in Hc as [Hc _]. pose proof (sh_id _ Hs _ _ Hc) as Hid. cbn [snd]. rewrite !decide_False by done.
  split; cbn; [apply lookup_insert_ne; cbn; congruence|]. intros w. apply lookup_insert_ne. congruence.
Qed.

Section migration.
Context {C : Cipher} {CL : CipherLaws C} {J : ConnectorJson}.
Context (eo : outside) (mem : caches) (visit : Labels → list (string * string)) (order : list DbConnector → list DbConnector).
Hypothesis nonces : ∀ n, String.length (nonce_at eo n) = nonceSize.
Hypothesis order_perm : ∀ l, order l ≡ₚ l.

(** Names find one connector. *)
Lemma by_name_some id c db : connectors_ok db → live_connector id db = Some c →
  connectorForConfigName order (dc_Namespace c) (dc_Name c) db = Ok (listed c db).
Proof.
  intros Hok Hc. pose proof Hok as [Hs _ _ _ Hnames]. destruct (listed_spec id c db Hok Hc) as (dv & Hl & _). unfold connectorForConfigName, list_connectors.
  set (l := List.filter _ _). assert (l = [c]) as ->.
  { assert (∀ x, x ∈ l ↔ x = c) as Helem.
    { intros x. unfold l. rewrite list_elem_of_In, filter_In, in_map_iff, !andb_true_iff, !bool_decide_eq_true. split.
      - intros [([k x'] & Heq & Hin) (Hlive & Hn & Hns)]. cbn in Heq. subst x'. apply list_elem_of_In, elem_of_map_to_list in Hin.
        assert (live_connector k db = Some x) as Hx by (by apply live_connector_lookup). assert (k = id) as -> by (by eapply Hnames). congruence.
      - intros ->. pose proof Hc as [Hc' Hcl]%live_connector_lookup. split; [|done]. exists (id, c). split; [done|]. by apply list_elem_of_In, elem_of_map_to_list. }
    assert (NoDup l) as Hnd.
    { unfold l. apply NoDup_ListNoDup, List.NoDup_filter, NoDup_ListNoDup. apply NoDup_fmap_2_strong; [|apply NoDup_map_to_list].
      intros [k x] [k' x'] Hin Hin' Heq. cbn in Heq. subst x'. apply elem_of_map_to_list in Hin, Hin'.
      by rewrite <- (sh_id _ Hs _ _ Hin), <- (sh_id _ Hs _ _ Hin'). }
    destruct l as [|a [|b l]].
    - assert (c ∈ ([] : list DbConnector)) as Hin by (by apply Helem). by apply elem_of_nil in Hin.
    - f_equal. apply Helem. apply list_elem_of_here.
    - assert (a = c) as -> by (apply Helem; set_solver). assert (b = c) as -> by (apply Helem; set_solver).
      apply NoDup_cons in Hnd as [Hnd _]. set_solver. }
  assert (order [c] = [c]) as -> by (apply Permutation_singleton_r, order_perm). cbn. by rewrite Hl.
Qed.

Lemma by_name_inv ns name db e : connectors_ok db → connectorForConfigName order ns name db = Ok (Some e) →
  ∃ c dv, e = joined c dv ∧ live_connector (cw_Id e) db = Some c ∧ dc_Namespace c = ns ∧ dc_Name c = name ∧ live_version (cw_Id e) (dv_Version dv) db = Some dv.
Proof.
  intros Hok. pose proof Hok as [Hs _ _ _ _]. unfold connectorForConfigName, list_connectors. set (l := List.filter _ _).
  assert (∀ x, x ∈ order l → live_connector (dc_Id x) db = Some x ∧ dc_Namespace x = ns ∧ dc_Name x = name) as Hin.
  { intros x. rewrite order_perm. unfold l. rewrite list_elem_of_In, filter_In, in_map_iff, !andb_true_iff, !bool_decide_eq_true.
    intros [([k x'] & Heq & Hin) (Hlive & Hn & Hns)]. cbn in Heq. subst x'. apply list_elem_of_In, elem_of_map_to_list in Hin. split; [|done].
    rewrite (sh_id _ Hs _ _ Hin). by apply live_connector_lookup. }
  assert (∀ x, x ∈ omap (λ c, listed c db) (order l) → ∃ c dv, x = joined c dv ∧ live_connector (cw_Id x) db = Some c ∧ dc_Namespace c = ns ∧ dc_Name c = name ∧ live_version (cw_Id x) (dv_Version dv) db = Some dv) as Hom.
  { intros x Hx. apply list_elem_of_omap in Hx as (c & Hc & Hx). destruct (Hin c Hc) as (Hl & Hns & Hn).
    destruct (listed_spec _ c db Hok Hl) as (dv & Hd & Hv & _). rewrite Hd in Hx. injection Hx as <-. exists c, dv. by split_and!. }
  destruct (omap _ (order l)) as [|a [|b r]]; cbn; [done| |done]. intros [= ->]. apply Hom. apply list_elem_of_here.
Qed.

(** ** What is found again *)

Definition hash_of (dv : ConnectorDefinitionVersion) : option string :=
  match Decrypt mem (dv_EncryptedDefinition dv) with Ok decrypted => Some (sha1_digits decrypted) | Err _ => None end.

(** The hash of a configured connector as it is stored under a number. *)
Definition configured_hash (id : string) (v : Z) (c : config_Connector) : string := cc_Hash (with_identity id v (entry_state c) c).

(** The numbers as which an entry is compared with the version [n]: its own
    number, or, without one, [n] and then the number that follows. *)
Definition compared_as (c : config_Connector) (n v : Z) : Prop :=
  if HasVersion c then v = cc_Version c else v = n ∨ v = next_version n.

(** The row with which the configured connector is compared the next time: it
    has the same hash, and is found by what the entry identifies it with. *)
Record settled (c : config_Connector) (id : string) (db : cdb) (k : DbConnector) (dv : ConnectorDefinitionVersion) : Prop := {
  se_connector : live_connector id db = Some k;
  se_version : live_version id (dv_Version dv) db = Some dv;
  se_hash : ∃ v, compared_as c (dv_Version dv) v ∧ hash_of dv = Some (configured_hash id v c);
  se_identity : if HasId c then cc_Id c = id ∧ (HasName c = true → dc_Name k = cc_Name c)
                else dc_Name k = cc_Name c ∧ dc_Namespace k = cc_GetNamespace c;
  se_found : if HasVersion c then
               dv_Version dv = cc_Version c ∨ (HasId c = false ∧ live_version id (cc_Version c) db = None ∧ listed k db = Some (joined k dv))
             else if HasId c then ∀ v, is_version id v db → (v ≤ dv_Version dv)%Z
             else listed k db = Some (joined k dv)
}.

Definition can_encrypt (ns : string) : Prop := ∀ n data, ∃ ef, EncryptForNamespace eo n mem ns data = Ok ef.

Lemma can_encrypt_once n ns data ef : EncryptForNamespace eo n mem ns data = Ok ef → can_encrypt ns.
Proof.
  unfold can_encrypt, EncryptForNamespace, encryptForKey, encrypt_bytes, encryptWithKey. intros H n' data'.
  destruct (syncReady mem); [|done]. destruct (keyToCurrentDEKCache mem !! _) as [dek|]; [|done]. destruct (dekToBytesCache mem !! dek) as [b|]; [|done].
  destruct (aes_key b); [by eexists|done].
Qed.

Lemma Build_spec id v state c s : match Build eo mem id v state c s with
  | (Some b, s') => s' = advance s ∧ bt_Hash b = cc_Hash (with_identity id v state c) ∧ can_encrypt (cc_GetNamespace c) ∧
      Decrypt mem (cw_EncryptedDefinition (bt_cv b)) = Ok (stored_definition (with_identity id v state c)) ∧
      cw_Id (bt_cv b) = id ∧ cw_Version (bt_cv b) = v ∧ cw_State (bt_cv b) = state ∧ cw_Namespace (bt_cv b) = cc_GetNamespace c
  | (None, s') => s' = advance s ∧ ¬ can_encrypt (cc_GetNamespace c)
  end.
Proof.
  unfold Build. destruct (EncryptForNamespace eo (ks_n s) mem _ _) as [e|ef] eqn:He.
  - split; [done|]. intros Hc. destruct (Hc (ks_n s) (stored_definition (with_identity id v state c))) as [ef Hef]. change (cc_GetNamespace c) with (cc_GetNamespace (with_identity id v state c)) in Hef. congruence.
  - split_and!; [done|done|by eapply can_encrypt_once| |done..]. cbn. by eapply decrypt_EncryptForNamespace.
Qed.

Lemma get_version_live id v db k dv : live_connector id db = Some k → live_version id v db = Some dv → GetConnectorDefinitionVersion id v db = Some (joined k dv).
Proof. intros Hk Hv. unfold GetConnectorDefinitionVersion. by rewrite Hv, Hk. Qed.

Lemma get_version_inv id v db e : shape db → GetConnectorDefinitionVersion id v db = Some e →
  ∃ k dv, e = joined k dv ∧ live_connector id db = Some k ∧ live_version id v db = Some dv ∧ dv_Version dv = v.
Proof.
  intros Hs. unfold GetConnectorDefinitionVersion. destruct (live_version id v db) as [dv|] eqn:Hv; [|done]. destruct (live_connector id db) as [k|] eqn:Hk; [|done].
  intros [= <-]. exists k, dv. split_and!; [done..|]. apply live_version_lookup in Hv as [Hv _]. by destruct (sh_key _ Hs _ _ Hv) as [[= _ ->] _].
Qed.

Lemma newest_live id db k dv : shape db → live_connector id db = Some k → live_version id (dv_Version dv) db = Some dv →
  (∀ v, is_version id v db → (v ≤ dv_Version dv)%Z) → NewestConnectorDefinitionVersionForId id db = Some (joined k dv).
Proof.
  intros Hs Hk Hv Hmax. pose proof (newest_spec (λ _, true) id db Hs) as Hn. unfold NewestConnectorDefinitionVersionForId.
  destruct (newest _ id db) as [e|]; [|by specialize (Hn _ _ Hv)]. destruct Hn as (k' & dv' & -> & Hk' & Hv' & _ & Hmax').
  rewrite Hk in Hk'. injection Hk' as <-. assert (dv_Version dv' = dv_Version dv) as Heq.
  { specialize (Hmax (dv_Version dv') ltac:(by exists dv')). specialize (Hmax' _ _ Hv eq_refl). lia. }
  rewrite Heq, Hv in Hv'. by injection Hv' as ->.
Qed.

Lemma built_again v c s : can_encrypt (cc_GetNamespace c) → ∀ id,
  ∃ b, Build eo mem id v (entry_state c) c s = (Some b, advance s) ∧ bt_Hash b = configured_hash id v c.
Proof.
  intros Henc id. pose proof (Build_spec id v (entry_state c) c s) as Hb. destruct (Build eo mem id v (entry_state c) c s) as [[b|] s']; [|by destruct Hb].
  destruct Hb as (-> & Hb & _). by exists b.
Qed.

(** A settled connector is left as it is. *)
Lemma settled_again now c id s k dv : connectors_ok (ks_db s) → can_encrypt (cc_GetNamespace c) → settled c id (ks_db s) k dv →
  ∃ s', migrateConnector eo mem visit order now c s = (Ok id, s') ∧ ks_db s' = ks_db s.
Proof.
  intros Hok Henc [Hk Hv (n & Hn & Hh) Hid Hf]. pose proof Hok as [Hs _ _ _ _]. unfold migrateConnector. cbn zeta.
  assert (∀ e v w, dv_EncryptedDefinition dv = cw_EncryptedDefinition e → n = v ∨ n = w → ∀ s1, ks_db s1 = ks_db s →
    ∃ s', match matches_existing eo mem id v (entry_state c) c (Some e) s1 with
          | (Err e, s) => (Err e, s)
          | (Ok true, s) => (Ok id, s)
          | (Ok false, s) => store_configured eo mem visit now (mkTarget id w (Some e) v) (entry_state c) c s
          end = (Ok id, s') ∧ ks_db s' = ks_db s) as Hmatch.
  { intros e v w He Hvw s1 Hs1. unfold matches_existing, connectorVersionHashEquals, getHash, store_configured. rewrite <- He. unfold hash_of in Hh.
    destruct (Decrypt mem _) as [|d] eqn:Hd; [done|]. injection Hh as Hh. cbn [tg_Id tg_Version tg_Existing].
    destruct (built_again v c s1 Henc id) as (b & -> & Hb). rewrite Hh, Hb. destruct (bool_decide_reflect (configured_hash id n c = configured_hash id v c)) as [|Hne]; [by eexists|].
    destruct (built_again w c (advance s1) Henc id) as (b' & -> & Hb'). unfold connectorVersionHashEquals, getHash. rewrite <- He, Hd, Hh, Hb'.
    destruct Hvw as [->| ->]; [done|]. rewrite bool_decide_true by done. by eexists. }
  unfold compared_as in Hn.
  unfold find_target. change (ks_db (advance s)) with (ks_db s). destruct (HasId c) eqn:HasI; cbn [andb].
  - destruct Hid as [<- Hname]. assert (∀ e, cw_Name e = dc_Name k → syncConfiguredConnectorName now c (Some e) (advance s) = (None, advance s)) as Hsync.
    { intros e He. unfold syncConfiguredConnectorName. rewrite HasI, He. cbn [andb]. destruct (HasName c); [|done]. by rewrite Hname, bool_decide_true. }
    destruct (HasVersion c) eqn:HasV.
    + destruct Hf as [Hf|[[=] _]]. rewrite Hf in Hv. rewrite (get_version_live _ _ _ _ _ Hk Hv), Hsync by done. cbn [tg_Id tg_Compared tg_Existing]. by apply Hmatch; [|left|].
    + rewrite (newest_live _ _ k dv) by done. rewrite Hsync by done. cbn [tg_Id tg_Compared tg_Existing]. by apply Hmatch.
  - destruct Hid as [Hname Hns]. pose proof (by_name_some _ _ _ Hok Hk) as Hby. rewrite Hname, Hns in Hby.
    destruct (listed_spec id k _ Hok Hk) as (dv0 & Hl & _ & _). rewrite Hby, Hl.
    assert (dc_Id k = id) as Hkid by (apply live_connector_lookup in Hk as [Hk _]; by apply (sh_id _ Hs)).
    assert (cw_Id (joined k dv0) = id) as -> by done. destruct (HasVersion c) eqn:HasV; cbn [tg_Id tg_Compared tg_Existing].
    + destruct Hf as [Hf|(_ & Hnone & Hf)].
      * rewrite Hf in Hv. rewrite (get_version_live _ _ _ _ _ Hk Hv). by apply Hmatch; [|left|].
      * assert (GetConnectorDefinitionVersion id (cc_Version c) (ks_db s) = None) as -> by (unfold GetConnectorDefinitionVersion; by rewrite Hnone).
        rewrite Hl in Hf. injection Hf as Hf. apply Hmatch; [|by left|done]. cbn. congruence.
    + rewrite Hl in Hf. injection Hf as Hf. apply Hmatch; [cbn; congruence| |done]. cbn. assert (dv_Version dv0 = dv_Version dv) as -> by congruence. done.
Qed.

(** ** The first time *)

(** What the target of a configured connector is about. *)
Record targeted (c : config_Connector) (t : target) (db : cdb) : Prop := {
  ta_id : HasId c = true → tg_Id t = cc_Id c;
  ta_version : HasVersion c = true → tg_Version t = cc_Version c;
  ta_existing e : tg_Existing t = Some e → ∃ k dv, live_connector (tg_Id t) db = Some k ∧ live_version (tg_Id t) (dv_Version dv) db = Some dv ∧
    cw_EncryptedDefinition e = dv_EncryptedDefinition dv ∧ tg_Compared t = (if HasVersion c then cc_Version c else dv_Version dv) ∧
    (if HasId c then cc_Id c = tg_Id t ∧ (HasName c = true → dc_Name k = cc_Name c) else dc_Name k = cc_Name c ∧ dc_Namespace k = cc_GetNamespace c) ∧
    (if HasVersion c then
       dv_Version dv = cc_Version c ∨ (HasId c = false ∧ live_version (tg_Id t) (cc_Version c) db = None ∧ listed k db = Some (joined k dv))
     else if HasId c then ∀ v, is_version (tg_Id t) v db → (v ≤ dv_Version dv)%Z
     else listed k db = Some (joined k dv)) ∧
    (HasVersion c = false → tg_Version t = next_version (dv_Version dv));
  ta_none : tg_Existing t = None → HasVersion c = false → tg_Version t = 1%Z ∧ (HasId c = true → ∀ v, ¬ is_version (tg_Id t) v db)
}.

(** The name of the connector is that of the entry afterwards; nothing else
    that matters here changes. *)
Lemma synced now c e s s' : connectors_ok (ks_db s) → syncConfiguredConnectorName now c (Some e) s = (None, s') → HasId c = true →
  ∀ k, live_connector (cc_Id c) (ks_db s) = Some k → cw_Name e = dc_Name k →
  connectors_ok (ks_db s') ∧ k_versions (ks_db s') = k_versions (ks_db s) ∧
  ∃ k', live_connector (cc_Id c) (ks_db s') = Some k' ∧ (HasName c = true → dc_Name k' = cc_Name c).
Proof.
  intros Hok Hsync HasI k Hk He. unfold syncConfiguredConnectorName in Hsync. rewrite HasI in Hsync. cbn [andb] in Hsync.
  destruct (HasName c && negb (bool_decide (cw_Name e = cc_Name c))) eqn:Hn.
  - unfold core_UpdateConnectorName in Hsync. pose proof (rename_ok now (cc_Id c) (cc_Name c) (ks_db s) Hok) as Hok'.
    unfold UpdateConnectorName in *. destruct (decide (cc_Id c = "")); [done|]. destruct (ID_ValidatePrefix (cc_Id c) _); [done|].
    destruct (ResourceName_Validate (cc_Name c)); [done|]. rewrite Hk in *. destruct (name_taken _ _ _ _); [done|]. injection Hsync as <-. cbn in *.
    assert (dc_Id k = cc_Id c) as Hid by (apply live_connector_lookup in Hk as [Hk _]; by apply (sh_id _ (co_shape _ Hok))).
    split_and!; [done|done|]. eexists. rewrite with_connector_live. cbn. rewrite Hid, !decide_True by done. by split.
  - injection Hsync as <-. split_and!; [done|done|]. exists k. split; [done|]. intros HasN. rewrite HasN in Hn. cbn in Hn.
    apply negb_false_iff, bool_decide_eq_true in Hn. congruence.
Qed.

Lemma live_version_same id v db db' : k_versions db' = k_versions db → live_version id v db' = live_version id v db.
Proof. intros H. unfold live_version. by rewrite H. Qed.

Lemma found now newId c s t s' : connectors_ok (ks_db s) → find_target order now newId c s = (Ok t, s') → connectors_ok (ks_db s') ∧ targeted c t (ks_db s').
Proof.
  intros Hok. pose proof Hok as [Hs Hsome _ _ _]. unfold find_target. cbn zeta. destruct (HasId c) eqn:HasI; cbn [andb].
  - destruct (HasVersion c) eqn:HasV.
    + destruct (GetConnectorDefinitionVersion (cc_Id c) (cc_Version c) (ks_db s)) as [e|] eqn:He.
      * destruct (get_version_inv _ _ _ _ Hs He) as (k & dv & -> & Hk & Hv & Hver). destruct (syncConfiguredConnectorName _ _ _ _) as [[?|] s1] eqn:Hsync; [done|].
        intros [= <- <-]. destruct (synced _ _ _ _ _ Hok Hsync HasI k Hk eq_refl) as (Hok' & Hvs & k' & Hk' & Hname). split; [done|].
        split; cbn; [done|done| |done]. intros e [= <-]. exists k', dv. rewrite HasI, HasV. rewrite (live_version_same _ _ _ _ Hvs), Hver.
        split_and!; try done. by left.
      * destruct (syncConfiguredConnectorName _ _ _ _) as [[?|] s1] eqn:Hsync; [done|]. intros [= <- <-]. split; [|split; cbn; [done|done|done|congruence]].
        destruct (HasName c); [|by injection Hsync as <-]. destruct (NewestConnectorDefinitionVersionForId _ _) as [e|] eqn:Hn; [|by injection Hsync as <-].
        pose proof (newest_spec (λ _, true) (cc_Id c) _ Hs) as Hns. unfold NewestConnectorDefinitionVersionForId in Hn. rewrite Hn in Hns.
        destruct Hns as (k & dv & -> & Hk & _). by destruct (synced _ _ _ _ _ Hok Hsync HasI k Hk eq_refl).
    + pose proof (newest_spec (λ _, true) (cc_Id c) _ Hs) as Hns. unfold NewestConnectorDefinitionVersionForId. destruct (newest _ (cc_Id c) _) as [e|].
      * destruct Hns as (k & dv & -> & Hk & Hv & _ & Hmax). destruct (syncConfiguredConnectorName _ _ _ _) as [[?|] s1] eqn:Hsync; [done|]. intros [= <- <-].
        destruct (synced _ _ _ _ _ Hok Hsync HasI k Hk eq_refl) as (Hok' & Hvs & k' & Hk' & Hname). split; [done|].
        split; cbn; [done|congruence| |done]. intros e [= <-]. exists k', dv. rewrite HasI, HasV. rewrite (live_version_same _ _ _ _ Hvs). split_and!; try done.
        intros v [x Hx]. rewrite (live_version_same _ _ _ _ Hvs) in Hx. by eapply Hmax.
      * intros [= <- <-]. split; [done|]. split; cbn; [done|congruence|done|]. intros _ _. split; [done|]. intros _ v [x Hx]. by specialize (Hns v x Hx).
  - destruct (connectorForConfigName order _ _ _) as [|[e|]] eqn:Hby; [done| |].
    + destruct (by_name_inv _ _ _ _ Hok Hby) as (k & dv & -> & Hk & Hns & Hname & Hv).
      assert (Ok (Some (joined k dv)) = Ok (E := svc_error) (listed k (ks_db s))) as Hl by (rewrite <- Hby; rewrite <- Hns, <- Hname; by eapply by_name_some).
      injection Hl as Hl. destruct (HasVersion c) eqn:HasV; intros [= <- <-]; (split; [done|]); split; cbn [tg_Id tg_Version tg_Existing tg_Compared]; try done; try congruence.
      * intros e [= <-]. destruct (GetConnectorDefinitionVersion (cw_Id (joined k dv)) (cc_Version c) (ks_db s)) as [x|] eqn:Hx.
        -- destruct (get_version_inv _ _ _ _ Hs Hx) as (k' & dv' & -> & Hk' & Hv' & Hver'). exists k, dv'. rewrite HasI, HasV, Hver'. change (dc_Id k) with (cw_Id (joined k dv)). rewrite ?Hx. split_and!; try done. by left.
        -- exists k, dv. rewrite HasI, HasV. change (dc_Id k) with (cw_Id (joined k dv)). rewrite ?Hx. split_and!; try done. right. split_and!; [done| |done].
           unfold GetConnectorDefinitionVersion in Hx. destruct (live_version _ (cc_Version c) _); [|done]. by rewrite Hk in Hx.
      * intros e [= <-]. exists k, dv. rewrite HasI, HasV. by split_and!.
    + intros [= <- <-]. split; [done|]. split; cbn; [congruence| |done|]; [by intros ->|]. intros _ ->. split; [done|congruence].
Qed.

Lemma version_bound id v db dv : shape db → live_version id v db = Some dv → (0 < dv_Version dv < 2 ^ 64)%Z.
Proof. intros Hs [Hl _]%live_version_lookup. by destruct (sh_key _ Hs _ _ Hl). Qed.

(** An upsert of what was built settles it too. *)
Lemma stored_settles now c t s id s' : connectors_ok (ks_db s) → targeted c t (ks_db s) → entry_state c = StatePrimary → HasId c || HasName c = true →
  (0 ≤ cc_Version c < 2 ^ 64)%Z → store_configured eo mem visit now t (entry_state c) c s = (Ok id, s') →
  connectors_ok (ks_db s') ∧ can_encrypt (cc_GetNamespace c) ∧ id = tg_Id t ∧
  (ks_db s' = ks_db s ∧ (∃ e, tg_Existing t = Some e ∧ getHash mem e = Some (cc_Hash (with_identity (tg_Id t) (tg_Version t) (entry_state c) c))) ∨
   ∃ k dv, settled c id (ks_db s') k dv).
Proof.
  intros Hok Hta Hst Hor Hrange. unfold store_configured. pose proof (Build_spec (tg_Id t) (tg_Version t) (entry_state c) c s) as Hb.
  destruct (Build eo mem _ _ _ c s) as [[b|] s1]; [|done]. destruct Hb as (-> & Hh & Henc & Hdec & Hbid & Hbv & Hbs & Hbns).
  destruct (match tg_Existing t with Some e => _ | None => Ok false end) as [|[]] eqn:Hm; [done| |].
  - intros [= <- <-]. split_and!; [done..|]. left. split; [done|]. destruct (tg_Existing t) as [e|]; [|done]. exists e. split; [done|].
    unfold connectorVersionHashEquals in Hm. destruct (getHash mem e); [|done]. injection Hm as Hm. apply bool_decide_eq_true in Hm. congruence.
  - unfold upsert. set (cv := with_metadata _ _ _ _). change (ks_db (advance s)) with (ks_db s).
    assert (0 ≤ cw_Version cv < 2 ^ 64)%Z as Hrv.
    { change (cw_Version cv) with (cw_Version (bt_cv b)). rewrite Hbv. destruct (HasVersion c) eqn:HasV; [by rewrite (ta_version _ _ _ Hta HasV)|].
      destruct (tg_Existing t) as [e|] eqn:He; [|destruct (ta_none _ _ _ Hta He HasV) as [-> _]; lia].
      destruct (ta_existing _ _ _ Hta e He) as (k & dv & _ & _ & _ & _ & _ & _ & Hn). rewrite (Hn HasV). unfold next_version. apply Z.mod_pos_bound. lia. }
    pose proof (upsert_inv visit now (id_at eo (ks_n (advance s))) cv (ks_db s) (co_shape _ Hok) Hrv) as Hu.
    pose proof (upsert_ok visit now (id_at eo (ks_n (advance s))) cv (ks_db s) Hrv Hok) as Hok'.
    destruct (UpsertConnectorDefinitionVersion _ _ _ cv _) as [[e|] db']; [done|]. intros [= <- <-]. cbn [ks_db advance with_db snd] in *.
    destruct Hu as (k & dv & Hu). destruct (upserted_rows _ _ _ _ _ _ Hu) as [Hk Hv]. pose proof (upserted_versions _ _ _ _ _ _ Hu) as Hvers.
    destruct (up_named _ _ _ _ _ _ Hu) as [Hns Hname]. pose proof (up_bound _ _ _ _ _ _ Hu) as Hb. pose proof (up_version _ _ _ _ _ _ Hu) as Hdvv.
    change (cw_Id cv) with (cw_Id (bt_cv b)) in *. change (cw_Version cv) with (cw_Version (bt_cv b)) in *. change (cw_Namespace cv) with (cw_Namespace (bt_cv b)) in *.
    change (cw_Name cv) with (cc_Name c) in *. rewrite Hbid, Hbv in *. rewrite Hbns in Hns.
    assert (HasName c = true → dc_Name k = cc_Name c) as Hname'.
    { intros HasN. apply Hname. unfold HasName in HasN. by apply negb_true_iff, bool_decide_eq_false in HasN. }
    split_and!; [done|done|done|]. right. exists k, dv. split.
    + done.
    + by rewrite Hdvv.
    + exists (tg_Version t). split; [unfold compared_as; rewrite Hdvv; destruct (HasVersion c) eqn:HasV; [by apply (ta_version _ _ _ Hta)|by left]|].
      unfold hash_of. rewrite (up_def _ _ _ _ _ _ Hu). change (cw_EncryptedDefinition cv) with (cw_EncryptedDefinition (bt_cv b)). by rewrite Hdec.
    + destruct (HasId c) eqn:HasI; [split; [by rewrite (ta_id _ _ _ Hta HasI)|done]|]. split; [by apply Hname'|done].
    + destruct (HasVersion c) eqn:HasV; [left; by rewrite Hdvv, (ta_version _ _ _ Hta HasV)|]. rewrite Hdvv. destruct (HasId c) eqn:HasI.
      * intros v [[_ ->]|Hold]%Hvers; [done|]. destruct (tg_Existing t) as [e|] eqn:He.
        -- destruct (ta_existing _ _ _ Hta e He) as (k0 & dv0 & _ & Hl0 & _ & _ & _ & Hf & Hn). rewrite HasI, HasV in Hf. specialize (Hf v Hold). rewrite (Hn HasV) in *.
           unfold next_version in *. destruct (version_bound _ _ _ _ (co_shape _ Hok) Hl0) as [Hlo Hhi].
           destruct (decide (dv_Version dv0 + 1 = 2 ^ 64)%Z) as [Heq|Hne]; [rewrite Heq, Z.mod_same in Hb by done; lia|rewrite Z.mod_small by lia; lia].
        -- by destruct (proj2 (ta_none _ _ _ Hta He HasV) HasI v).
      * destruct (listed_spec _ k _ Hok' Hk) as (dv1 & Hl & Hv1 & Hprim). rewrite Hl. do 2 f_equal. specialize (Hprim (tg_Version t)). rewrite Hprim in Hv1; [congruence|].
        unfold is_primary. rewrite Hv. cbn. f_equal. rewrite (up_state _ _ _ _ _ _ Hu). change (cw_State cv) with (cw_State (bt_cv b)). congruence.
Qed.

(** What a successful migration of an entry leaves is settled. *)
Lemma migrated now c s id s' : connectors_ok (ks_db s) → entry_state c = StatePrimary → HasId c || HasName c = true → (0 ≤ cc_Version c < 2 ^ 64)%Z →
  migrateConnector eo mem visit order now c s = (Ok id, s') →
  connectors_ok (ks_db s') ∧ can_encrypt (cc_GetNamespace c) ∧ ∃ k dv, settled c id (ks_db s') k dv.
Proof.
  intros Hok Hst Hor Hrange. unfold migrateConnector. cbn zeta. destruct (find_target order now _ c (advance s)) as [[e|t] s1] eqn:Hf; [done|].
  destruct (found _ _ _ (advance s) _ _ Hok Hf) as [Hok1 Hta].
  assert (∀ e v, tg_Existing t = Some e → v = tg_Compared t ∨ v = tg_Version t → getHash mem e = Some (cc_Hash (with_identity (tg_Id t) v (entry_state c) c)) →
    ∃ k dv, settled c (tg_Id t) (ks_db s1) k dv) as Hsame.
  { intros e v He Hv' Hh. destruct (ta_existing _ _ _ Hta e He) as (k & dv & Hk & Hv & Hd & Hc & Hid & Hfound & Hnext). exists k, dv. split; [done|done| |done|done].
    exists v. unfold compared_as, hash_of, getHash in *. rewrite <- Hd. split; [|done]. destruct (HasVersion c) eqn:HasV.
    - destruct Hv' as [->| ->]; [done|]. by apply (ta_version _ _ _ Hta).
    - destruct Hv' as [->| ->]; [by left|]. right. by apply Hnext. }
  unfold matches_existing. destruct (tg_Existing t) as [e|] eqn:He.
  - pose proof (Build_spec (tg_Id t) (tg_Compared t) (entry_state c) c s1) as Hb. destruct (Build eo mem _ _ _ c s1) as [[b|] s2].
    + destruct Hb as (-> & Hh & Henc & _). unfold connectorVersionHashEquals. destruct (getHash mem e) as [h|] eqn:Hhe; [|done].
      destruct (bool_decide_reflect (h = bt_Hash b)) as [->|Hne].
      * intros [= <- <-]. split_and!; [done|done|]. apply (Hsame e (tg_Compared t) eq_refl (or_introl eq_refl)). by rewrite Hhe, Hh.
      * intros Hs. apply stored_settles in Hs as (Hok' & Henc' & -> & Hres); try done. split_and!; [done|done|].
        destruct Hres as [(Hdb & e' & He' & Hh')|Hres]; [|done]. rewrite Hdb. change (ks_db (advance s1)) with (ks_db s1).
        rewrite He in He'. injection He' as <-. by apply (Hsame e (tg_Version t) eq_refl (or_intror eq_refl)).
    + destruct Hb as [-> Hno]. intros Hs. apply stored_settles in Hs as (Hok' & Henc' & _); done.
  - intros Hs. apply stored_settles in Hs as (Hok' & Henc' & -> & Hres); try done. split_and!; [done|done|].
    destruct Hres as [(_ & e' & He' & _)|Hres]; [congruence|done].
Qed.

(** ** Every run *)

Lemma upsert_state_ok now cv s : (0 ≤ cw_Version cv < 2 ^ 64)%Z → connectors_ok (ks_db s) → connectors_ok (ks_db (upsert eo visit now cv s).2).
Proof.
  intros Hr Hok. unfold upsert. pose proof (upsert_ok visit now (id_at eo (ks_n s)) cv (ks_db s) Hr Hok) as H.
  by destruct (UpsertConnectorDefinitionVersion _ _ _ _ _) as [e db].
Qed.

Lemma sync_ok now c e s : connectors_ok (ks_db s) → connectors_ok (ks_db (syncConfiguredConnectorName now c e s).2).
Proof.
  intros Hok. unfold syncConfiguredConnectorName, core_UpdateConnectorName. destruct e as [e|]; [|done]. destruct (_ && negb _); [|done].
  pose proof (rename_ok now (cc_Id c) (cc_Name c) (ks_db s) Hok) as H. by destruct (UpdateConnectorName _ _ _ _) as [[[]|] db].
Qed.

Lemma find_target_ok now newId c s : connectors_ok (ks_db s) → connectors_ok (ks_db (find_target order now newId c s).2).
Proof.
  intros Hok. unfold find_target. cbn zeta. destruct (HasId c && HasVersion c).
  - pose proof (sync_ok now c (match GetConnectorDefinitionVersion (cc_Id c) (cc_Version c) (ks_db s) with
                    | Some e => Some e
                    | None => if HasName c then NewestConnectorDefinitionVersionForId (cc_Id c) (ks_db s) else None
                    end) s Hok) as H. by destruct (syncConfiguredConnectorName _ _ _ _) as [[]].
  - destruct (HasId c).
    + pose proof (sync_ok now c (NewestConnectorDefinitionVersionForId (cc_Id c) (ks_db s)) s Hok) as H. by destruct (syncConfiguredConnectorName _ _ _ _) as [[]].
    + destruct (connectorForConfigName _ _ _ _) as [|[]]; [done| |done]. by destruct (HasVersion c).
Qed.

Lemma target_in_range now newId c s t s' : connectors_ok (ks_db s) → (0 ≤ cc_Version c < 2 ^ 64)%Z → find_target order now newId c s = (Ok t, s') → (0 ≤ tg_Version t < 2 ^ 64)%Z.
Proof.
  intros Hok Hr Hf. destruct (found _ _ _ _ _ _ Hok Hf) as [_ Hta]. destruct (HasVersion c) eqn:HasV; [by rewrite (ta_version _ _ _ Hta HasV)|].
  destruct (tg_Existing t) as [e|] eqn:He; [|destruct (ta_none _ _ _ Hta He HasV) as [-> _]; lia].
  destruct (ta_existing _ _ _ Hta e He) as (k & dv & _ & _ & _ & _ & _ & _ & Hn). rewrite (Hn HasV). unfold next_version. apply Z.mod_pos_bound. lia.
Qed.

Lemma store_configured_ok now t state c s : (0 ≤ tg_Version t < 2 ^ 64)%Z → connectors_ok (ks_db s) → connectors_ok (ks_db (store_configured eo mem visit now t state c s).2).
Proof.
  intros Hr Hok. unfold store_configured. pose proof (Build_spec (tg_Id t) (tg_Version t) state c s) as Hb.
  destruct (Build eo mem _ _ _ c s) as [[b|] s1]; [|destruct Hb as [-> _]; done]. destruct Hb as (-> & _ & _ & _ & _ & Hv & _).
  destruct (match tg_Existing t with Some e => _ | None => _ end) as [|[]]; [done|done|]. set (cv := with_metadata _ _ _ _).
  pose proof (upsert_state_ok now cv (advance s)) as H. change (cw_Version cv) with (cw_Version (bt_cv b)) in H. rewrite Hv in H. specialize (H Hr Hok).
  by destruct (upsert _ _ _ _ _) as [[]].
Qed.

Lemma matches_existing_db id v state c e s : ks_db (matches_existing eo mem id v state c e s).2 = ks_db s.
Proof. unfold matches_existing. destruct e as [e|]; [|done]. unfold Build. by destruct (EncryptForNamespace _ _ _ _ _). Qed.

Lemma migrateConnector_ok now c s : (0 ≤ cc_Version c < 2 ^ 64)%Z → connectors_ok (ks_db s) → connectors_ok (ks_db (migrateConnector eo mem visit order now c s).2).
Proof.
  intros Hr Hok. unfold migrateConnector. cbn zeta. pose proof (find_target_ok now (PrefixConnector +:+ id_at eo (ks_n s)) c (advance s) Hok) as Hok1.
  destruct (find_target _ _ _ _ _) as [[e|t] s1] eqn:Hf; [done|]. cbn [snd] in Hok1. pose proof (target_in_range _ _ _ (advance s) _ _ Hok Hr Hf) as Ht.
  pose proof (matches_existing_db (tg_Id t) (tg_Compared t) (entry_state c) c (tg_Existing t) s1) as Hm.
  destruct (matches_existing _ _ _ _ _ _ _ _) as [[|[]] s2]; cbn [snd] in *; [congruence|congruence|]. apply store_configured_ok; [done|congruence].
Qed.

Lemma migrate_all_ok now l s : Forall (λ c, 0 ≤ cc_Version c < 2 ^ 64)%Z l → connectors_ok (ks_db s) → connectors_ok (ks_db (migrate_all eo mem visit order now l s).2).
Proof.
  intros Hl. revert s. induction Hl as [|c l Hc Hl IH]; intros s Hok; [done|]. cbn. pose proof (migrateConnector_ok now c s Hc Hok) as H.
  destruct (migrateConnector _ _ _ _ _ _ _) as [[e|id] s1]; [done|]. specialize (IH s1 H). by destruct (migrate_all _ _ _ _ _ _ s1) as [[]].
Qed.

(** ** The other connectors *)

Lemma settled_same c id db db' k dv : shape db → shape db' → same_rows id db db' → settled c id db k dv → settled c id db' k dv.
Proof.
  intros Hs Hs' Hsame [Hk Hv Hh Hid Hf]. pose proof Hk as [Hk' _]%live_connector_lookup. pose proof (listed_same id k db db' Hs Hs' (sh_id _ Hs _ _ Hk') Hsame) as Hl.
  split; [by rewrite (same_live_connector _ _ _ Hsame)|by rewrite (same_live_version _ _ _ _ Hsame)|done|done|].
  rewrite (same_live_version _ _ _ _ Hsame), Hl. destruct (HasVersion c), (HasId c); try done.
  intros v [x Hx]. rewrite (same_live_version _ _ _ _ Hsame) in Hx. apply Hf. by exists x.
Qed.

(** A connector that an entry names by id is in the namespace of the entry. *)
Definition owns (c : config_Connector) (db : cdb) : Prop :=
  HasId c = true → ∀ k, live_connector (cc_Id c) db = Some k → dc_Namespace k = cc_GetNamespace c.

Lemma owns_same c db db' : same_rows (cc_Id c) db db' → owns c db → owns c db'.
Proof. intros Hsame Ho HasI k Hk. rewrite (same_live_connector _ _ _ Hsame) in Hk. by apply Ho. Qed.

Lemma sync_frame now c e s s' : shape (ks_db s) → syncConfiguredConnectorName now c e s = (None, s') →
  (∀ x, x ≠ cc_Id c → same_rows x (ks_db s) (ks_db s')) ∧ (owns c (ks_db s) → owns c (ks_db s')).
Proof.
  intros Hs. unfold syncConfiguredConnectorName, core_UpdateConnectorName. destruct e as [e|]; [|by intros [= <-]]. destruct (_ && negb _); [|by intros [= <-]].
  pose proof (λ x, rename_frame now (cc_Id c) (cc_Name c) (ks_db s) x Hs) as Hframe. unfold UpdateConnectorName in *. destruct (decide (cc_Id c = "")); [done|].
  destruct (ID_ValidatePrefix (cc_Id c) _); [done|]. destruct (ResourceName_Validate (cc_Name c)); [done|]. destruct (live_connector (cc_Id c) (ks_db s)) as [k|] eqn:Hk; [|done].
  destruct (name_taken _ _ _ _); [done|]. intros [= <-]. split; [done|]. intros Ho HasI k'. cbn. rewrite with_connector_live. cbn.
  pose proof Hk as [Hk' _]%live_connector_lookup. rewrite (sh_id _ Hs _ _ Hk'), !decide_True by done. intros [= <-]. exact (Ho HasI k Hk).
Qed.

Lemma find_target_frame now newId c s t s' : shape (ks_db s) → find_target order now newId c s = (Ok t, s') →
  (∀ x, x ≠ tg_Id t → same_rows x (ks_db s) (ks_db s')) ∧ (owns c (ks_db s) → owns c (ks_db s')).
Proof.
  intros Hs. unfold find_target. cbn zeta. destruct (HasId c) eqn:HasI; cbn [andb].
  - destruct (HasVersion c).
    + destruct (syncConfiguredConnectorName _ _ _ _) as [[?|] s1] eqn:Hsync; [done|]. intros [= <- <-]. by eapply sync_frame.
    + destruct (syncConfiguredConnectorName _ _ _ _) as [[?|] s1] eqn:Hsync; [done|]. intros [= <- <-]. destruct (NewestConnectorDefinitionVersionForId _ _); by eapply sync_frame.
  - destruct (connectorForConfigName _ _ _ _) as [|[e|]]; [done| |by intros [= <- <-]]. by destruct (HasVersion c); intros [= <- <-].
Qed.

Lemma store_frame now t c s id s' : connectors_ok (ks_db s) → (HasId c = true → tg_Id t = cc_Id c) → (0 ≤ tg_Version t < 2 ^ 64)%Z →
  store_configured eo mem visit now t (entry_state c) c s = (Ok id, s') →
  id = tg_Id t ∧ (∀ x, x ≠ id → same_rows x (ks_db s) (ks_db s')) ∧ (owns c (ks_db s) → owns c (ks_db s')).
Proof.
  intros Hok Hid Hr. unfold store_configured. pose proof (Build_spec (tg_Id t) (tg_Version t) (entry_state c) c s) as Hb.
  destruct (Build eo mem _ _ _ c s) as [[b|] s1]; [|done]. destruct Hb as (-> & _ & _ & _ & Hbid & Hbv & _ & Hbns).
  destruct (match tg_Existing t with Some e => _ | None => Ok false end) as [|[]]; [done|by intros [= <- <-]|].
  unfold upsert. set (cv := with_metadata _ _ _ _). change (ks_db (advance s)) with (ks_db s).
  pose proof (upsert_inv visit now (id_at eo (ks_n (advance s))) cv (ks_db s) (co_shape _ Hok)) as Hu. change (cw_Version cv) with (cw_Version (bt_cv b)) in Hu.
  rewrite Hbv in Hu. specialize (Hu Hr). destruct (UpsertConnectorDefinitionVersion _ _ _ cv _) as [[e|] db']; [done|]. intros [= <- <-]. cbn [ks_db advance with_db].
  destruct Hu as (k & dv & Hu). assert (cw_Id cv = tg_Id t) as Hcid by exact Hbid. split; [done|]. split.
  - intros x Hx. eapply upserted_frame; [apply Hok|done|congruence].
  - intros _ HasI k'. rewrite <- (Hid HasI), <- Hcid. destruct (upserted_rows _ _ _ _ _ _ Hu) as [-> _]. intros [= <-].
    destruct (up_named _ _ _ _ _ _ Hu) as [-> _]. exact Hbns.
Qed.

(** A migrated entry changes the rows of its connector only, and the connector
    of an entry by id keeps its namespace. *)
Lemma migrate_frame now c s id s' : connectors_ok (ks_db s) → (0 ≤ cc_Version c < 2 ^ 64)%Z → migrateConnector eo mem visit order now c s = (Ok id, s') →
  (HasId c = true → id = cc_Id c) ∧ (∀ x, x ≠ id → same_rows x (ks_db s) (ks_db s')) ∧ (owns c (ks_db s) → owns c (ks_db s')).
Proof.
  intros Hok Hr. unfold migrateConnector. cbn zeta. destruct (find_target order now _ c (advance s)) as [[e|t] s1] eqn:Hf; [done|].
  destruct (found _ _ _ (advance s) _ _ Hok Hf) as [Hok1 Hta]. pose proof (target_in_range _ _ _ (advance s) _ _ Hok Hr Hf) as Ht.
  destruct (find_target_frame _ _ _ (advance s) _ _ (co_shape _ Hok) Hf) as [Hframe Howns]. change (ks_db (advance s)) with (ks_db s) in *.
  assert (ks_db (matches_existing eo mem (tg_Id t) (tg_Compared t) (entry_state c) c (tg_Existing t) s1).2 = ks_db s1) as Hm by apply matches_existing_db.
  destruct (matches_existing _ _ _ _ _ _ _ _) as [[|[]] s2]; cbn [snd] in Hm; [done| |].
  - intros [= <- <-]. rewrite Hm. split; [apply (ta_id _ _ _ Hta)|done].
  - intros Hs. rewrite <- Hm in *. apply store_frame in Hs as (-> & Hframe' & Howns'); [|done|apply (ta_id _ _ _ Hta)|done].
    split; [apply (ta_id _ _ _ Hta)|]. split; [|auto]. intros x Hx. eapply same_rows_trans; [by apply Hframe|by apply Hframe'].
Qed.

Section cleanup.
Context (has_connections : string → bool).

(** What the handling of orphans keeps: the invariant, and the ids there are. *)
Definition kept (db db' : cdb) : Prop := (connectors_ok db → connectors_ok db') ∧ (connectors_ok db → size (k_connectors db') = size (k_connectors db)).

Lemma touched_size id now deleted k db : connectors_ok db → k_connectors db !! id = Some k → size (<[dc_Id k := touch now deleted k]> (k_connectors db)) = size (k_connectors db).
Proof. intros Hok Hk. rewrite (sh_id _ (co_shape _ Hok) _ _ Hk). by apply map_size_insert_Some. Qed.

Lemma handleOrphaned_kept now id db : kept db (handleOrphanedConfigConnector has_connections now id db).2.
Proof.
  unfold kept, handleOrphanedConfigConnector. destruct (negb _).
  - assert (connectors_ok db → size (k_connectors (DeleteConnector now id db).2) = size (k_connectors db)) as Hsize.
    { intros Hok. unfold DeleteConnector. destruct (decide (id = "")); [done|]. destruct (live_connector id db) as [k|] eqn:Hk; [|done].
      apply live_connector_lookup in Hk as [Hk _]. exact (touched_size _ now _ k db Hok Hk). }
    pose proof (delete_ok now id db) as H. by destruct (DeleteConnector now id db) as [[[]|] db'].
  - destruct (NewestPublishedConnectorDefinitionVersionForId id db) as [cw|]; [|done]. destruct (decide _); [|done].
    pose proof (set_state_ok now (cw_Id cw) (cw_Version cw) StateActive db) as H. split; [by destruct (SetConnectorDefinitionVersionState _ _ _ _ _) as [[]]|].
    intros Hok. clear H. unfold SetConnectorDefinitionVersionState. destruct (decide (cw_Id cw = "")); [done|]. cbn [negb IsValidConnectorDefinitionVersionState].
    destruct (negb _); [done|]. destruct (live_connector (cw_Id cw) db) as [k|] eqn:Hk; [|done]. destruct (live_version _ _ _); [|done].
    apply live_connector_lookup in Hk as [Hk _]. exact (touched_size _ now _ k db Hok Hk).
Qed.

Lemma handle_orphans_kept now seen page db : kept db (handle_orphans has_connections now seen page db).2.
Proof.
  revert db. induction page as [|cv page IH]; intros db; [done|]. cbn. destruct (decide _); [apply IH|].
  destruct (handleOrphaned_kept now (cw_Id cv) db) as [H1 H2]. destruct (handleOrphanedConfigConnector _ _ _ _) as [[] db1]; [done|]. cbn in *.
  destruct (IH db1) as [H3 H4]. split; intros Hok; [auto|]. rewrite H4, H2; auto.
Qed.

Lemma length_list_connectors P db : (length (list_connectors order P db) ≤ size (k_connectors db))%nat.
Proof.
  assert (∀ (f : DbConnector → option ConnectorWithDefinition) l, (length (omap f l) ≤ length l)%nat) as Homap.
  { intros f l. induction l as [|x l IH]; [done|]. cbn. destruct (f x); cbn; lia. }
  unfold list_connectors. etrans; [apply Homap|]. rewrite order_perm. etrans; [apply List.filter_length_le|]. by rewrite List.length_map, length_map_to_list.
Qed.

Lemma cleanup_pages_ok fuel now seen offset db : connectors_ok db → connectors_ok (cleanup_pages order has_connections fuel now seen offset db).2.
Proof.
  revert offset db. induction fuel as [|fuel IH]; intros offset db Hok; [done|]. cbn [cleanup_pages].
  destruct (handle_orphans_kept now seen (take orphan_page (take (orphan_page + 1) (drop offset (list_connectors order config_sourced db)))) db) as [H _].
  destruct (handle_orphans _ _ _ _ _) as [[] db1]; [by apply H|]. cbn in H. destruct (_ <? _)%nat; [apply IH|]; by apply H.
Qed.

(** Each page starts a hundred rows further, so that there are no more pages
    than connectors. *)
Lemma cleanup_pages_enough fuel extra now seen offset db : connectors_ok db → (size (k_connectors db) < fuel + offset)%nat →
  cleanup_pages order has_connections (fuel + extra) now seen offset db = cleanup_pages order has_connections fuel now seen offset db ∨ fuel = 0%nat.
Proof.
  revert offset db. induction fuel as [|fuel IH]; intros offset db Hok Hf; [by right|]. left. cbn [cleanup_pages Nat.add]. set (rows := take (orphan_page + 1) _).
  destruct (handle_orphans_kept now seen (take orphan_page rows) db) as [H1 H2]. destruct (handle_orphans _ _ _ _ _) as [[] db1]; [done|]. cbn in H1, H2.
  destruct (Nat.ltb_spec orphan_page (length rows)) as [Hlt|]; [|done].
  assert (length rows = orphan_page + 1)%nat as Hrows by (pose proof (length_take_le (drop offset (list_connectors order config_sourced db)) (orphan_page + 1)); unfold rows in *; rewrite length_take in *; lia).
  assert (offset + orphan_page < size (k_connectors db))%nat as Hoff.
  { pose proof (length_list_connectors config_sourced db) as Hlen. unfold rows in Hrows. rewrite length_take, length_drop in Hrows. unfold orphan_page in *. lia. }
  destruct (IH (offset + length rows - 1)%nat db1 (H1 Hok)) as [->| ->]; [|done|]; [rewrite H2 by done; unfold orphan_page in *; lia|].
  exfalso. unfold orphan_page in *. lia.
Qed.

(** Whatever the configuration holds and however a run ends, the migration
    of connectors keeps what holds of the tables; and the removal of orphans
    ends: it looks at no more pages than there are connectors, so that more
    room changes nothing. *)
Theorem migration_run_invariant now l s : Forall (λ c, 0 ≤ cc_Version c < 2 ^ 64)%Z l → connectors_ok (ks_db s) →
  connectors_ok (ks_db (MigrateConnectors eo mem visit order has_connections now l s).2) ∧
  ∀ seen extra, cleanup_pages order has_connections (S (size (k_connectors (ks_db s))) + extra) now seen 0 (ks_db s) =
    cleanupOrphanedConfigConnectors order has_connections now seen (ks_db s).
Proof.
  intros Hl Hok. split.
  - unfold MigrateConnectors. destruct l as [|c l]; [done|]. destruct (precheckConnectorsForMigration _ _ _ _); [done|].
    pose proof (migrate_all_ok now (c :: l) s Hl Hok) as H. destruct (migrate_all _ _ _ _ _ _ _) as [[e|seen] s1]; [done|]. cbn [snd] in H.
    pose proof (cleanup_pages_ok (S (size (k_connectors (ks_db s1)))) now seen 0 (ks_db s1) H) as H'. unfold cleanupOrphanedConfigConnectors.
    by destruct (cleanup_pages _ _ _ _ _ _ _) as [r db].
  - intros seen extra. unfold cleanupOrphanedConfigConnectors. destruct (cleanup_pages_enough (S (size (k_connectors (ks_db s)))) extra now seen 0 (ks_db s)) as [->|[=]]; [done|lia|done].
Qed.
(** ** Runs of the migration *)

Lemma handleOrphaned_frame now id db x : shape db → x ≠ id → same_rows x db (handleOrphanedConfigConnector has_connections now id db).2.
Proof.
  intros Hs Hne. unfold handleOrphanedConfigConnector. destruct (negb _).
  - pose proof (delete_frame now id db x Hs Hne) as H. by destruct (DeleteConnector now id db) as [[[]|] db'].
  - unfold NewestPublishedConnectorDefinitionVersionForId.
    pose proof (newest_spec (λ dv, bool_decide (dv_State dv = StatePrimary) || bool_decide (dv_State dv = StateActive)) id db Hs) as Hn.
    destruct (newest _ id db) as [cw|]; [|done]. destruct Hn as (k & dv & -> & [Hk _]%live_connector_lookup & _). destruct (decide _); [|done].
    assert (cw_Id (joined k dv) = id) as -> by apply (sh_id _ Hs _ _ Hk).
    pose proof (demote_frame now id (cw_Version (joined k dv)) db x Hs Hne) as H. by destruct (SetConnectorDefinitionVersionState _ _ _ _ _) as [[]].
Qed.

Lemma handle_orphans_frame now seen page db x : connectors_ok db → x ∈ seen → same_rows x db (handle_orphans has_connections now seen page db).2.
Proof.
  intros Hok Hx. revert db Hok. induction page as [|cv page IH]; intros db Hok; [done|]. cbn. destruct (decide _) as [Hin|Hin]; [by apply IH|].
  pose proof (handleOrphaned_frame now (cw_Id cv) db x (co_shape _ Hok)) as H. destruct (handleOrphaned_kept now (cw_Id cv) db) as [Hkeep _].
  destruct (handleOrphanedConfigConnector _ _ _ _) as [[] db1]; cbn [snd] in *; [apply H; congruence|]. eapply same_rows_trans; [apply H; congruence|by apply IH, Hkeep].
Qed.

(** The removal of orphans leaves the connectors that were seen. *)
Lemma cleanup_frame fuel now seen offset db x : connectors_ok db → x ∈ seen → same_rows x db (cleanup_pages order has_connections fuel now seen offset db).2.
Proof.
  intros Hok Hx. revert offset db Hok. induction fuel as [|fuel IH]; intros offset db Hok; [done|]. cbn [cleanup_pages]. set (page := take orphan_page _).
  pose proof (handle_orphans_frame now seen page db x Hok Hx) as H. destruct (handle_orphans_kept now seen page db) as [Hkeep _].
  destruct (handle_orphans _ _ _ _ _) as [[] db1]; cbn [snd] in *; [done|]. destruct (_ <? _)%nat; [|done]. eapply same_rows_trans; [done|by apply IH, Hkeep].
Qed.

End cleanup.

(** The entries of which this is about: those that ask for the primary state,
    with an id when they have a version. *)
Definition settling (c : config_Connector) : Prop :=
  entry_state c = StatePrimary ∧ (0 ≤ cc_Version c < 2 ^ 64)%Z ∧ (HasVersion c = true → HasId c = true).

(** An entry and the connector it was migrated to. *)
Record settled_entry (db : cdb) (c : config_Connector) (id : string) : Prop := {
  sn_entry : settling c ∧ HasId c || HasName c = true;
  sn_encrypts : can_encrypt (cc_GetNamespace c);
  sn_owns : owns c db;
  sn_settled : ∃ k dv, settled c id db k dv
}.

Lemma settled_entry_same db db' c id : shape db → shape db' → same_rows id db db' → settled_entry db c id → settled_entry db' c id.
Proof.
  intros Hs Hs' Hsame [He Henc Ho (k & dv & Hse)]. split; [done|done| |exists k, dv; exact (settled_same _ _ _ _ _ _ Hs Hs' Hsame Hse)]. intros HasI. apply (owns_same c db); [|done|done].
  pose proof (se_identity _ _ _ _ _ Hse) as Hid. rewrite HasI in Hid. by destruct Hid as [-> _].
Qed.

Lemma migrate_all_ids now l s ids s' : connectors_ok (ks_db s) → Forall settling l → migrate_all eo mem visit order now l s = (Ok ids, s') →
  ∀ c, c ∈ l → HasId c = true → cc_Id c ∈ ids.
Proof.
  intros Hok Hl. revert s ids Hok. induction Hl as [|c l (_ & Hr & _) Hl IH]; intros s ids Hok; cbn; [set_solver|].
  pose proof (migrateConnector_ok now c s Hr Hok) as Hok1. destruct (migrateConnector _ _ _ _ _ _ _) as [[e|id] s1] eqn:Hm; [done|].
  destruct (migrate_frame _ _ _ _ _ Hok Hr Hm) as (Hid & _). destruct (migrate_all _ _ _ _ _ l s1) as [[e|ids1] s2] eqn:Hall; [done|].
  intros [= <- <-] c' [->|Hc']%elem_of_cons HasI; [rewrite Hid by done; set_solver|]. apply list_elem_of_further. by eapply IH.
Qed.

Lemma migrate_all_settled now l s ids s' : connectors_ok (ks_db s) → Forall settling l → Forall (λ c, HasId c || HasName c = true ∧ owns c (ks_db s)) l →
  migrate_all eo mem visit order now l s = (Ok ids, s') → NoDup ids →
  connectors_ok (ks_db s') ∧ Forall2 (settled_entry (ks_db s')) l ids ∧ ∀ x, x ∉ ids → same_rows x (ks_db s) (ks_db s').
Proof.
  intros Hok Hl. revert s ids Hok. induction Hl as [|c l Hc Hl IH]; intros s ids Hok Howns; cbn; [by intros [= <- <-]|].
  apply Forall_cons in Howns as [[Hor Ho] Howns]. pose proof Hc as (Hst & Hr & _).
  destruct (migrateConnector _ _ _ _ _ _ _) as [[e|id] s1] eqn:Hm; [done|]. destruct (migrated _ _ _ _ _ Hok Hst Hor Hr Hm) as (Hok1 & Henc & k & dv & Hse).
  destruct (migrate_frame _ _ _ _ _ Hok Hr Hm) as (Hid & Hframe & Ho1). destruct (migrate_all _ _ _ _ _ l s1) as [[e|ids1] s2] eqn:Hall; [done|].
  intros [= <- <-] [Hnew Hnd]%NoDup_cons. pose proof (migrate_all_ids _ _ _ _ _ Hok1 Hl Hall) as Hids.
  destruct (IH s1 ids1 Hok1) as (Hok2 & Hsettled & Hsame); [|done|done|].
  { apply Forall_forall. intros c' Hc'. rewrite Forall_forall in Howns. destruct (Howns c' Hc') as [Hor' Ho']. split; [done|]. intros HasI.
    apply (owns_same c' (ks_db s)); [|done|done]. apply Hframe. intros <-. by apply Hnew, Hids. }
  split; [done|]. split.
  - constructor; [|done]. apply (settled_entry_same (ks_db s1)); [apply Hok1|apply Hok2|by apply Hsame|]. split; [done|done|by apply Ho1|by exists k, dv].
  - intros x Hx. apply not_elem_of_cons in Hx as [Hne Hx]. eapply same_rows_trans; [by apply Hframe|by apply Hsame].
Qed.

(** The precheck of the first run sees to the namespaces. *)
Lemma prechecked_owns c db : connectors_ok db → precheckConnectorForMigration mem order c db = Ok tt → owns c db.
Proof.
  intros Hok Hp HasI k Hk. pose proof (co_shape _ Hok) as Hs. unfold precheckConnectorForMigration in Hp. rewrite HasI in Hp.
  assert (precheck_by_id mem c db = Ok tt) as Hby.
  { destruct (HasName c); [|done]. destruct (connectorForConfigName _ _ _ _) as [|[e|]]; [done| |done]. by destruct (decide _). }
  assert (∃ cw, NewestConnectorDefinitionVersionForId (cc_Id c) db = Some cw ∧ cw_Namespace cw = dc_Namespace k) as (cw & Hn & <-).
  { pose proof (newest_spec (λ _, true) (cc_Id c) db Hs) as Hn. unfold NewestConnectorDefinitionVersionForId. destruct (newest _ _ _) as [cw|].
    - destruct Hn as (k' & dv & -> & Hk' & _). rewrite Hk in Hk'. injection Hk' as <-. by eexists.
    - destruct (co_some _ Hok _ _ Hk) as (v & x & Hx). by specialize (Hn _ _ Hx). }
  unfold precheck_by_id in Hby. rewrite Hn in Hby. destruct (HasVersion c).
  - destruct (GetConnectorDefinitionVersion (cc_Id c) (cc_Version c) db) as [e|] eqn:He.
    + destruct (decide _) as [|Heq]; [done|]. destruct (get_version_inv _ _ _ _ Hs He) as (k' & dv & -> & Hk' & _). apply dec_stable in Heq.
      pose proof (newest_spec (λ _, true) (cc_Id c) db Hs) as Hs'. unfold NewestConnectorDefinitionVersionForId in Hn. rewrite Hn in Hs'.
      destruct Hs' as (k2 & dv2 & -> & Hk2 & _). cbn in *. congruence.
    + unfold precheck_number, guard_ok in Hby. destruct (_ && _) eqn:Hb; [|done]. apply andb_true_iff in Hb as [_ Hb]. by apply bool_decide_eq_true in Hb.
  - unfold guard_ok in Hby. by destruct (bool_decide_reflect (cw_Namespace cw = cc_GetNamespace c)).
Qed.

(** What is settled passes the precheck. *)
Lemma settled_prechecked db c id : connectors_ok db → settled_entry db c id → precheckConnectorForMigration mem order c db = Ok tt.
Proof.
  intros Hok [((Hst & _ & Hvi) & _) _ Ho (k & dv & [Hk Hv (v & Hc & Hh) Hid Hf])]. pose proof (co_shape _ Hok) as Hs. unfold precheckConnectorForMigration.
  pose proof Hk as [Hk' _]%live_connector_lookup. pose proof (sh_id _ Hs _ _ Hk') as Hkid. pose proof (by_name_some _ _ _ Hok Hk) as Hby.
  destruct (listed_spec id k _ Hok Hk) as (dv0 & Hl & _ & _). rewrite Hl in Hby. destruct (HasId c) eqn:HasI.
  - destruct Hid as [<- Hname]. pose proof (Ho HasI k Hk) as Hns. assert (precheck_by_id mem c db = Ok tt) as Hpre.
    { unfold precheck_by_id. unfold compared_as in Hc. destruct (HasVersion c).
      - destruct Hf as [Hf|[[=] _]]. rewrite Hf in Hv. rewrite (get_version_live _ _ _ _ _ Hk Hv), decide_False by (cbn; tauto).
        unfold precheck_unchanged, connectorVersionHashEquals, getHash. case_decide; [done|]. change (cw_EncryptedDefinition (joined k dv)) with (dv_EncryptedDefinition dv).
        unfold hash_of in Hh. destruct (Decrypt mem _); [done|]. injection Hh as ->. subst v. by rewrite bool_decide_true.
      - rewrite (newest_live _ _ k dv) by done. unfold guard_ok. by rewrite bool_decide_true. }
    destruct (HasName c); [|done]. rewrite <- Hns, <- Hname, Hby by done. rewrite decide_False; [done|]. cbn. tauto.
  - destruct Hid as [Hname Hns]. rewrite Hname, Hns in Hby. rewrite Hby. destruct (HasVersion c); [by specialize (Hvi eq_refl)|done].
Qed.

Lemma settled_precheck_all db l ids : connectors_ok db → Forall2 (settled_entry db) l ids → precheck_all mem order l db = Ok tt.
Proof. intros Hok. induction 1 as [|c id l ids Hc _ IH]; cbn; [done|]. by rewrite (settled_prechecked db c id). Qed.

Lemma settled_all_again later l ids s : connectors_ok (ks_db s) → Forall2 (settled_entry (ks_db s)) l ids →
  ∃ s', migrate_all eo mem visit order later l s = (Ok ids, s') ∧ ks_db s' = ks_db s.
Proof.
  intros Hok Hall. revert s ids Hok Hall. induction l as [|c l IH]; intros s ids Hok Hall.
  - inversion Hall. by exists s.
  - destruct ids as [|id ids]; [by inversion Hall|]. apply Forall2_cons in Hall as [[_ Henc _ (k & dv & Hse)] Hl].
    destruct (settled_again later c id s k dv Hok Henc Hse) as (s1 & Hm & Hs1).
    destruct (IH s1 ids) as (s2 & Hm2 & Hs2); [by rewrite Hs1|by rewrite Hs1|]. exists s2. cbn. rewrite Hm, Hm2. split; [done|congruence].
Qed.

Lemma precheck_all_inv l db : precheck_all mem order l db = Ok tt → Forall (λ c, precheckConnectorForMigration mem order c db = Ok tt) l.
Proof. induction l as [|c l IH]; cbn; [constructor|]. destruct (precheckConnectorForMigration mem order c db) as [|[]] eqn:Hc; [done|]. intros H. constructor; auto. Qed.
(** C31: after a migration of connectors that succeeded, each entry of the
    configuration is stored: its connector is live in its namespace, under its
    id or name, and has a live version whose stored definition has the hash of
    the entry.  The next run of [MigrateConnectors] with the same configuration,
    at any time and whatever connections there are then, passes the precheck,
    finds the same connector for each entry and writes nothing for it: what it
    does to the tables is what the removal of orphans does, and that leaves the
    rows of the configured connectors.  This is about entries that ask for the
    primary state, as entries do unless they say otherwise, that go to
    different connectors, and that have an id when they have a version: one with
    a name and a version and no id fails the next precheck
    ([name_version_refused]).  The database is taken to commit what it accepts. *)
Theorem migration_settles used now l s ids s1 s' : l ≠ [] → connectors_ok (ks_db s) → Forall settling l →
  migrate_all eo mem visit order now l s = (Ok ids, s1) → NoDup ids →
  MigrateConnectors eo mem visit order used now l s = (Ok tt, s') →
  Forall2 (λ c id, ∃ k dv v, live_connector id (ks_db s') = Some k ∧ live_version id (dv_Version dv) (ks_db s') = Some dv ∧
      dc_Namespace k = cc_GetNamespace c ∧ (if HasId c then cc_Id c = id else dc_Name k = cc_Name c) ∧
      compared_as c (dv_Version dv) v ∧ hash_of dv = Some (configured_hash id v c)) l ids ∧
  ∀ used' later n tasks, let again := mkCstate (ks_db s') n tasks in
    (∃ s2, migrate_all eo mem visit order later l again = (Ok ids, s2) ∧ ks_db s2 = ks_db s') ∧
    let '(r, s3) := MigrateConnectors eo mem visit order used' later l again in
    (r, ks_db s3) = cleanupOrphanedConfigConnectors order used' later ids (ks_db s') ∧ ∀ id, id ∈ ids → same_rows id (ks_db s') (ks_db s3).
Proof.
  intros Hne Hok Hl Hall Hnd Hrun. destruct l as [|c0 l0]; [done|]. set (l := c0 :: l0) in *. unfold MigrateConnectors in Hrun. cbn zeta in Hrun.
  destruct (precheckConnectorsForMigration mem order l (ks_db s)) as [e|[]] eqn:Hpre; [done|]. fold l in Hrun. rewrite Hall in Hrun.
  unfold precheckConnectorsForMigration in Hpre. destruct (ValidateIdentities l) eqn:Hvalid; [|done].
  destruct (migrate_all_settled now l s ids s1 Hok Hl) as (Hok1 & Hsettled & _); [|done|done|].
  { apply andb_true_iff in Hvalid as [Hor _]. rewrite forallb_forall in Hor. apply precheck_all_inv in Hpre. rewrite Forall_forall in *. intros c Hc.
    split; [by apply Hor, list_elem_of_In|by apply prechecked_owns, Hpre]. }
  assert (connectors_ok (ks_db s') ∧ ∀ x, x ∈ ids → same_rows x (ks_db s1) (ks_db s')) as [Hok' Hsame].
  { unfold cleanupOrphanedConfigConnectors in Hrun. pose proof (cleanup_pages_ok used (S (size (k_connectors (ks_db s1)))) now ids 0 (ks_db s1) Hok1) as H.
    pose proof (λ x, cleanup_frame used (S (size (k_connectors (ks_db s1)))) now ids 0 (ks_db s1) x Hok1) as H'. destruct (cleanup_pages _ _ _ _ _ _ _) as [r db].
    by injection Hrun as -> <-. }
  assert (Forall2 (settled_entry (ks_db s')) l ids) as Hsettled'.
  { apply Forall2_same_length_lookup in Hsettled as [Hlen Hs]. apply Forall2_same_length_lookup. split; [done|]. intros i c id Hc Hid.
    apply (settled_entry_same (ks_db s1)); [apply Hok1|apply Hok'|apply Hsame; by eapply list_elem_of_lookup_2|by eapply Hs]. }
  split.
  - eapply Forall2_impl; [exact Hsettled'|]. intros c id [_ _ Ho (k & dv & [Hk Hv (v & Hc & Hh) Hid _])]. exists k, dv, v.
    split_and!; try done; destruct (HasId c) eqn:HasI; try (by destruct Hid). destruct Hid as [<- _]. by apply Ho.
  - intros used' later n tasks again. destruct (settled_all_again later l ids again Hok' Hsettled') as (s2 & Hm & Hs2). split; [by exists s2|].
    unfold MigrateConnectors, precheckConnectorsForMigration. fold l. rewrite Hvalid, (settled_precheck_all (ks_db again) l ids Hok' Hsettled'). rewrite Hm, Hs2.
    unfold cleanupOrphanedConfigConnectors. change (ks_db again) with (ks_db s').
    pose proof (λ x, cleanup_frame used' (S (size (k_connectors (ks_db s')))) later ids 0 (ks_db s') x Hok') as Hframe. by destruct (cleanup_pages _ _ _ _ _ _ _) as [r db].
Qed.

Lemma precheck_refuses c l db e : c ∈ l → precheckConnectorForMigration mem order c db = Err e → ∃ e', precheckConnectorsForMigration mem order l db = Err e'.
Proof.
  intros Hc Hp. unfold precheckConnectorsForMigration. destruct (ValidateIdentities l); [|by eexists]. induction l as [|a l IH]; [by apply elem_of_nil in Hc|].
  cbn. apply elem_of_cons in Hc as [<-|Hc]; [rewrite Hp; by eexists|]. destruct (precheckConnectorForMigration mem order a db); [by eexists|by apply IH].
Qed.

End migration.
