(* ===== verification/ConnectorExamples.v ===== *)
(** * Connectors on concrete configurations

    A JSON of definitions to run the model of connectors with, the witnesses of
    the properties of files Connectors and ConnectorMigration, and the
    configurations whose migration does something else than it should. *)

From S2P Require Import Prelude GoNumbers GoStrings Namespace Labels Actors KeyMaterial Encryption EncryptService OAuth2Examples Connectors ConnectorService ConnectorMigration.
Open Scope string_scope.
Open Scope list_scope.

#[local] Existing Instances plain_cipher plain_cipher_laws.

#[local] Instance example_json : ConnectorJson := {
  definition_Marshal c := cc_Id c +:+ "|" +:+ pretty (cc_Version c) +:+ "|" +:+ default "" (cc_Namespace c) +:+ "|" +:+ cc_State c +:+ "|" +:+ cc_Rest c;
  definition_Unmarshal text := Some (mkConfigConnector "" "" 0 None "" None text);
  sha1_digits text := text
}.

(** Entries of a configuration by id, by name, and by name and version. *)
Definition by_id (id rest : string) : config_Connector := mkConfigConnector id "" 0 None "" None rest.
Definition by_name (name rest : string) : config_Connector := mkConfigConnector "" name 0 None "" None rest.
Definition by_name_version (name : string) (v : Z) (rest : string) : config_Connector := mkConfigConnector "" name v None "" None rest.

Definition fresh_state : cstate := mkCstate (no_connectors {[ "root" := mkNamespaceRow ∅ None ]}) 0 [].

Definition migrate (used : string → bool) (now : Z) (l : list config_Connector) (s : cstate) : bool * cstate :=
  let '(r, s) := MigrateConnectors example_outside example_caches map_to_list id used now l s in (match r with Ok _ => true | Err _ => false end, s).

Definition nobody (_ : string) : bool := false.
Definition everybody (_ : string) : bool := true.

(** The versions of a connector that are live: number and state. *)
Definition live_states (id : string) (s : cstate) : list (Z * string) :=
  omap (λ v, (λ dv, (v, dv_State dv)) <$> live_version id v (ks_db s)) [1; 2; 3]%Z.

Definition text_of (id : string) (v : Z) (s : cstate) : option string :=
  dv ← live_version id v (ks_db s); hash_of example_caches dv.

(** ** Witnesses *)

Definition a_draft (v : Z) (rest : string) : ConnectorWithDefinition :=
  mkConnectorWithDefinition "cxr_a" "root" "a" "" v StateDraft (mkEncryptedField "dek_1" rest) None None 0 0 0 0 None None.

Definition two_versions : list connector_op :=
  [OpUpsert 1 "1" (a_draft 1 "one"); OpSetState 2 "cxr_a" 1 StatePrimary; OpUpsert 3 "2" (a_draft 2 "two"); OpSetState 4 "cxr_a" 2 StatePrimary].

Lemma connector_versions_witness : let db := foldl (run_op map_to_list) (no_connectors ∅) two_versions in
  is_primary "cxr_a" 2 db ∧ cw_Version <$> GetConnectorDefinitionVersionForState "cxr_a" StatePrimary db = Some 2%Z ∧
  ∃ dv', k_versions (foldl (run_op map_to_list) db [OpUpsert 5 "3" (a_draft 1 "changed"); OpDelete 6 "cxr_a"]) !! ("cxr_a", 1%Z) = Some dv' ∧
    dv_EncryptedDefinition dv' = mkEncryptedField "dek_1" "one".
Proof.
  intros db. assert (is_primary "cxr_a" 2 db) as Hp by (vm_compute; reflexivity).
  destruct (live_version "cxr_a" 1 db) as [dv|] eqn:Hdv; [|by vm_compute in Hdv].
  assert (Forall op_in_range (two_versions ++ [OpUpsert 5 "3" (a_draft 1 "changed"); OpDelete 6 "cxr_a"])) as Hr by (repeat constructor; vm_compute; done).
  destruct (connector_versions_invariant map_to_list ∅ two_versions [OpUpsert 5 "3" (a_draft 1 "changed"); OpDelete 6 "cxr_a"] "cxr_a" 1 dv Hr) as (_ & Hq & _ & _ & _ & Hkept).
  fold db in Hq, Hkept. split; [done|]. split; [by apply Hq|]. destruct Hkept as (dv' & Hdv' & Heq); [done| | |].
  - vm_compute in Hdv. injection Hdv as <-. by vm_compute.
  - repeat constructor; intros []; done.
  - exists dv'. split; [done|]. rewrite Heq. vm_compute in Hdv. by injection Hdv as <-.
Defined.

(** A configuration of two entries, one by name and one by id. *)
Definition two_entries : list config_Connector := [by_name "a" "one"; by_id "cxr_b" "two"].

Definition run_migration (now : Z) (l : list config_Connector) : cstate → result svc_error unit * cstate :=
  MigrateConnectors example_outside example_caches map_to_list id nobody now l.

Lemma migration_settles_witness : ∃ s', run_migration 1 two_entries fresh_state = (Ok tt, s') ∧
  (∃ k, live_connector "cxr_0" (ks_db s') = Some k ∧ dc_Name k = "a") ∧ (∃ k, live_connector "cxr_b" (ks_db s') = Some k ∧ dc_Namespace k = "root") ∧
  ∀ later, let s3 := (run_migration later two_entries (mkCstate (ks_db s') 7 [])).2 in same_rows "cxr_0" (ks_db s') (ks_db s3) ∧ same_rows "cxr_b" (ks_db s') (ks_db s3).
Proof.
  set (x := run_migration 1 two_entries fresh_state). set (y := migrate_all example_outside example_caches map_to_list id 1 two_entries fresh_state).
  assert (x.1 = Ok tt) as Hx by (vm_compute; reflexivity). assert (x = (Ok tt, x.2)) as Hrun by (destruct x; f_equal; exact Hx).
  assert (y.1 = Ok ["cxr_0"; "cxr_b"]) as Hy by (vm_compute; reflexivity). assert (y = (Ok ["cxr_0"; "cxr_b"], y.2)) as Hall by (destruct y; f_equal; exact Hy).
  assert (Forall settling two_entries) as Hl by (repeat constructor; vm_compute; congruence).
  assert (NoDup ["cxr_0"; "cxr_b"]) as Hnd by (apply (bool_decide_unpack _); vm_compute; exact I).
  destruct (migration_settles example_outside example_caches map_to_list id (λ _, eq_refl) (λ l, reflexivity l) nobody 1 two_entries fresh_state ["cxr_0"; "cxr_b"] y.2 x.2
    ltac:(discriminate) (no_connectors_ok _) Hl Hall Hnd Hrun) as [Hstored Hagain].
  apply Forall2_cons in Hstored as [(k & dv & v & Hk & _ & _ & Hname & _) Hstored]. apply Forall2_cons in Hstored as [(k' & dv' & v' & Hk' & _ & Hns & _) _].
  exists x.2. split; [exact Hrun|]. split; [exists k; split; [exact Hk|exact Hname]|]. split; [exists k'; split; [exact Hk'|exact Hns]|].
  intros later s3. destruct (Hagain nobody later 7%nat []) as [_ Hsame]. unfold run_migration in s3. unfold s3. destruct (MigrateConnectors _ _ _ _ _ later _ _) as [r s4].
  destruct Hsame as [_ Hsame]. split; apply Hsame; [apply list_elem_of_here|apply list_elem_of_further, list_elem_of_here].
Defined.

(** An entry with a name and a version that was migrated. *)
Definition migrated_by_version : cstate := (migrateConnector example_outside example_caches map_to_list id 1 (by_name_version "a" 1 "one") fresh_state).2.


(** ** What goes wrong *)

(** An entry that was migrated, and the same configuration on the next start. *)
Definition twice (l : list config_Connector) : bool * bool :=
  let '(a, s) := migrate nobody 1 l fresh_state in (a, (migrate nobody 2 l s).1).

(** An entry is removed from the configuration and comes back. *)
Definition comes_back (used : string → bool) : bool * bool * bool * list (Z * string) :=
  let '(a, s) := migrate used 1 [by_id "cxr_a" "one"; by_id "cxr_b" "two"] fresh_state in
  let '(b, s) := migrate used 2 [by_id "cxr_b" "two"] s in
  let '(c, s) := migrate used 3 [by_id "cxr_a" "one"; by_id "cxr_b" "two"] s in (a, b, c, live_states "cxr_a" s).

(** A second version is published through the API. *)
Definition publish (id : string) (s : cstate) : cstate :=
  let '(_, s) := CreateDraftConnectorVersion example_outside example_caches map_to_list 5 id (Some (by_id "" "published")) None None s in
  (Connector_SetState 6 id 2 StatePrimary s).2.

Definition rolled_back (id : string) (s : cstate) : cstate := (Connector_SetState 7 id 1 StatePrimary (publish id s)).2.

Definition orphan_after_rollback : bool * list (Z * string) :=
  let '(_, s) := migrate everybody 1 [by_id "cxr_a" "one"; by_id "cxr_b" "two"] fresh_state in
  let '(ok, s) := migrate everybody 8 [by_id "cxr_b" "two"] (rolled_back "cxr_a" s) in (ok, live_states "cxr_a" s).

Definition changed_after_rollback : bool * bool :=
  let '(a, s) := migrate nobody 1 [by_name "a" "one"] fresh_state in (a, (migrate nobody 8 [by_name "a" "other"] (rolled_back "cxr_0" s)).1).

(** A draft of the API is open when the configuration changes. *)
Definition overwritten_draft : option string * option string * list (Z * string) :=
  let '(_, s) := migrate nobody 1 [by_name "a" "one"] fresh_state in
  let '(_, s) := CreateDraftConnectorVersion example_outside example_caches map_to_list 5 "cxr_0" (Some (by_id "" "draft")) None None s in
  let '(_, s') := migrate nobody 8 [by_name "a" "other"] s in (text_of "cxr_0" 2 s, text_of "cxr_0" 2 s', live_states "cxr_0" s').

Definition emptied : bool * list (Z * string) :=
  let '(_, s) := migrate nobody 1 [by_id "cxr_a" "one"] fresh_state in
  let '(ok, s) := migrate nobody 2 [] s in (ok, live_states "cxr_a" s).

(** Configurations whose migration does something else than it should.  An
    entry with a name and a version fails on the next start, unchanged, where
    entries by id or by name alone do not.  An entry by id that is removed, with
    its connector, and comes back is refused for good; while the connector has
    connections it comes back without a primary version.  After a rollback an
    orphan keeps its primary version, and a changed entry by name is refused.  A
    changed entry by name takes over the draft of an API user, and a
    configuration without connectors leaves those of before as they are. *)
Theorem migration_defects :
  twice [by_name_version "a" 1 "one"] = (true, false) ∧ twice [by_id "cxr_a" "one"; by_name "b" "two"] = (true, true) ∧
  comes_back nobody = (true, true, false, []) ∧
  comes_back everybody = (true, true, true, [(1%Z, StateActive)]) ∧
  orphan_after_rollback = (true, [(1%Z, StatePrimary); (2%Z, StateActive)]) ∧
  changed_after_rollback = (true, false) ∧
  overwritten_draft = (Some "cxr_0|2|root|draft|draft", Some "cxr_0|2||primary|other", [(1%Z, StateActive); (2%Z, StatePrimary)]) ∧
  emptied = (true, [(1%Z, StatePrimary)]).
Proof. vm_compute. split_and!; reflexivity. Qed.
