(* ===== verification/HttpFactory.v ===== *)
(** * The HTTP client factory

    Package [httpf] (internal/httpf/factory.go): what the middlewares of an
    outgoing request are told about it.  A factory is a description of requests
    ([clientFactory]) that is refined step by step; the proxy refines it with
    the kind of request, the connection, the actor and the labels of the
    request, and the rate limiter (file Enforcer) decides by the result. *)

From S2P Require Import Prelude GoNumbers GoStrings Namespace Labels RateRules Enforcer Actors.
Open Scope string_scope.
Open Scope list_scope.

Section factory.
(** The configuration of the reactive limiter, and round trippers. *)
Context {RL RT : Type}.

(** [RequestInfo] with the fields that the enforcer does not read. *)
Record factory_info := mkFactoryInfo {
  fi_Info : RequestInfo;
  fi_RateLimiting : option RL;
  fi_PropagateTraceContext : option bool
}.

(** What the interfaces [Connection], [RateLimitConfigProvider] and
    [TracePropagationProvider] give; [None] in the last two for a connection
    that does not implement them. *)
Record http_Connection := mkHttpConnection {
  hc_Id : string;
  hc_Namespace : string;
  hc_ConnectorId : string;
  hc_ConnectorVersion : Z;
  hc_Labels : Labels;
  hc_RateLimitConfig : option (option RL);
  hc_PropagateTraceContext : option (option bool)
}.

Record http_Actor := mkHttpActor { ha_Id : string; ha_Name : string; ha_Namespace : string; ha_Labels : Labels }.

(** [NewRoundTripper] of a middleware; [None] for one that does not apply. *)
Abbreviation middleware := (factory_info → RT → option RT).

Record clientFactory := mkClientFactory { cf_middlewares : list middleware; cf_requestInfo : factory_info }.

Definition CreateFactory (requestLog : middleware) (additionalMiddlewares : list (option middleware)) : clientFactory :=
  mkClientFactory (omap id additionalMiddlewares ++ [requestLog])
    (mkFactoryInfo (mkRequestInfo Root RequestTypeGlobal "" 0 "" ∅) None None).

Definition ForRequestInfo (ri : factory_info) (f : clientFactory) : clientFactory := mkClientFactory (cf_middlewares f) ri.

Definition ForRequestType (rt : RequestType) (f : clientFactory) : clientFactory :=
  let ri := cf_requestInfo f in
  let i := fi_Info ri in
  ForRequestInfo (mkFactoryInfo (mkRequestInfo (ri_Namespace i) rt (ri_ConnectorId i) (ri_ConnectorVersion i) (ri_ConnectionId i) (ri_Labels i))
                    (fi_RateLimiting ri) (fi_PropagateTraceContext ri)) f.

Definition ForConnectorVersion (ns id : string) (version : Z) (f : clientFactory) : clientFactory :=
  let ri := cf_requestInfo f in
  let i := fi_Info ri in
  ForRequestInfo (mkFactoryInfo (mkRequestInfo ns (ri_Type i) id version (ri_ConnectionId i) (ri_Labels i))
                    (fi_RateLimiting ri) (fi_PropagateTraceContext ri)) f.

(** A factory for the connector version is made first where the connection has
    one; its description is replaced by that of the connection. *)
Definition ForConnection (c : http_Connection) (f : clientFactory) : clientFactory :=
  let ri := cf_requestInfo f in
  let i := fi_Info ri in
  ForRequestInfo
    (mkFactoryInfo
       (mkRequestInfo (hc_Namespace c) (ri_Type i) (hc_ConnectorId c) (hc_ConnectorVersion c) (hc_Id c)
          (if decide (size (hc_Labels c) = 0%nat) then ri_Labels i else hc_Labels c))
       (default (fi_RateLimiting ri) (hc_RateLimitConfig c))
       (default (fi_PropagateTraceContext ri) (hc_PropagateTraceContext c))) f.

Definition with_labels (labels : Labels) (ri : factory_info) : factory_info :=
  let i := fi_Info ri in
  mkFactoryInfo (mkRequestInfo (ri_Namespace i) (ri_Type i) (ri_ConnectorId i) (ri_ConnectorVersion i) (ri_ConnectionId i) labels)
    (fi_RateLimiting ri) (fi_PropagateTraceContext ri).

(** The labels that an actor brings: its own under [apxy/act/], then the
    implicit ones. *)
Definition actor_key (k : string) : string := ApxyReservedPrefix +:+ ApidPrefixToLabelToken PrefixActor +:+ "/" +:+ k.

Definition actorContribution (a : http_Actor) : Labels :=
  overlay (kmap actor_key (filter (λ kv, is_apxy kv.1 = false) (ha_Labels a)))
    (BuildImplicitResourceLabels (ha_Id a) (ha_Name a) (ha_Namespace a)).

Definition ForActor (actor : option http_Actor) (f : clientFactory) : clientFactory :=
  match actor with
  | None => f
  | Some a =>
      if decide (ha_Id a = "") then f
      else
        let contribution := actorContribution a in
        if decide (size contribution = 0%nat) then f
        else ForRequestInfo (with_labels (overlay (ri_Labels (fi_Info (cf_requestInfo f))) contribution) (cf_requestInfo f)) f
  end.

(** System labels of the request are ignored. *)
Definition ForLabels (labels : Labels) (f : clientFactory) : clientFactory :=
  if decide (size labels = 0%nat) then f
  else ForRequestInfo
    (with_labels (overlay (ri_Labels (fi_Info (cf_requestInfo f))) (filter (λ kv, is_apxy kv.1 = false) labels)) (cf_requestInfo f)) f.

(** Each middleware wraps the ones before it. *)
Definition buildWrappedTransport (defaultTransport : RT) (f : clientFactory) : RT :=
  foldl (λ parent m, default parent (m (cf_requestInfo f) parent)) defaultTransport (cf_middlewares f).

(** The factory of a proxied request. *)
Definition for_proxied (rt : RequestType) (c : http_Connection) (actor : option http_Actor) (labels : Labels) (f : clientFactory) : clientFactory :=
  ForLabels labels (ForActor actor (ForConnection c (ForRequestType rt f))).

(** ** What the rate limiter is told *)

#[local] Instance actor_key_inj : Inj (=) (=) actor_key.
Proof. intros k k' H. cbn in H. by simplify_eq. Qed.

Lemma actor_key_apxy k : is_apxy (actor_key k) = true.
Proof. reflexivity. Qed.

Lemma labels_of_actor a f : let g := ForActor (Some a) f in
  cf_requestInfo g = with_labels (overlay (ri_Labels (fi_Info (cf_requestInfo f))) (if decide (ha_Id a = "") then ∅ else actorContribution a)) (cf_requestInfo f).
Proof.
  assert (∀ l, l = (∅ : Labels) → cf_requestInfo f = with_labels (overlay (ri_Labels (fi_Info (cf_requestInfo f))) l) (cf_requestInfo f)) as Hsame.
  { intros l ->. unfold with_labels, overlay. rewrite map_empty_union. by destruct (cf_requestInfo f) as [[] ? ?]. }
  unfold ForActor. cbn zeta. case_decide; [by apply Hsame|]. case_decide as Hz; [|done]. apply Hsame. by apply map_size_empty_iff in Hz.
Qed.

Lemma labels_of_request labels f :
  cf_requestInfo (ForLabels labels f) =
  with_labels (overlay (ri_Labels (fi_Info (cf_requestInfo f))) (filter (λ kv, is_apxy kv.1 = false) labels)) (cf_requestInfo f).
Proof.
  unfold ForLabels. case_decide as Hz; [|done]. apply map_size_empty_iff in Hz as ->. rewrite map_filter_empty. unfold with_labels, overlay.
  rewrite map_empty_union. by destruct (cf_requestInfo f) as [[] ? ?].
Qed.

(** The system labels of a request that an actor makes over a connection. *)
Definition system_label (c : http_Connection) (a : http_Actor) (k : string) : option string :=
  if decide (k = actorIDLabelKey) then Some (ha_Id a)
  else if decide (k = implicit_key "act" "name") then Some (if decide (ha_Name a = "") then ha_Id a else ha_Name a)
  else if decide (k = implicit_key "act" "ns") then Some (ha_Namespace a)
  else match kmap (M2 := gmap string) actor_key (filter (λ kv, is_apxy kv.1 = false) (ha_Labels a)) !! k with
       | Some v => Some v
       | None => hc_Labels c !! k
       end.

Lemma actor_labels a k : ID_Prefix (ha_Id a) = PrefixActor →
  actorContribution a !! k =
  (if decide (k = actorIDLabelKey) then Some (ha_Id a)
   else if decide (k = implicit_key "act" "name") then Some (if decide (ha_Name a = "") then ha_Id a else ha_Name a)
   else if decide (k = implicit_key "act" "ns") then Some (ha_Namespace a)
   else kmap (M2 := gmap string) actor_key (filter (λ kv, is_apxy kv.1 = false) (ha_Labels a)) !! k).
Proof.
  intros Hid. unfold actorContribution. rewrite overlay_lookup. unfold BuildImplicitResourceLabels. rewrite Hid, decide_False by (intros Hz; by rewrite Hz in Hid).
  unfold BuildImplicitResourceLabelsForToken. rewrite (bool_decide_false (ha_Id a = "")) by (intros Hz; by rewrite Hz in Hid). cbn [orb].
  change (implicit_key (ApidPrefixToLabelToken PrefixActor) "id") with actorIDLabelKey. change (ApidPrefixToLabelToken PrefixActor) with "act".
  change (bool_decide ("act" = "") || false) with false. cbn iota.
  destruct (decide (k = actorIDLabelKey)) as [->|H1]; [by rewrite lookup_insert_eq|]. rewrite lookup_insert_ne by done.
  destruct (decide (k = implicit_key "act" "name")) as [->|H2]; [by rewrite lookup_insert_eq|]. rewrite lookup_insert_ne by done.
  destruct (decide (k = implicit_key "act" "ns")) as [->|H3]; [by rewrite lookup_insert_eq|]. by rewrite lookup_insert_ne.
Qed.

(** C16: what a rate limit is decided by.  For a request that an actor makes
    over a connection, whatever labels come with it: the connection, its
    namespace and connector and the actor are the true ones, the labels of the
    system are those of the connection and the actor, and the labels of the
    request replace the connection's own under other names.  In particular the
    labels of the system in a request have no effect at all. *)
Theorem request_identity_exact rt c a labels f req : ID_Prefix (ha_Id a) = PrefixActor → hc_Labels c ≠ ∅ →
  let ctx := buildRequestContext (fi_Info (cf_requestInfo (for_proxied rt c (Some a) labels f))) req in
  (rc_Type ctx, rc_Namespace ctx, rc_ActorID ctx, rc_ConnectionID ctx, rc_ConnectorID ctx, rc_ConnectorVersion ctx) =
    (rt, hc_Namespace c, ha_Id a, hc_Id c, hc_ConnectorId c, hc_ConnectorVersion c) ∧
  (∀ k, rc_Labels ctx !! k =
     if is_apxy k then system_label c a k else match labels !! k with Some v => Some v | None => hc_Labels c !! k end) ∧
  ctx = buildRequestContext (fi_Info (cf_requestInfo (for_proxied rt c (Some a) (filter (λ kv, is_apxy kv.1 = false) labels) f))) req.
Proof.
  intros Hid Hc ctx. assert (∀ labels, let ri := cf_requestInfo (for_proxied rt c (Some a) labels f) in
    (∀ k, ri_Labels (fi_Info ri) !! k = if is_apxy k then system_label c a k else match labels !! k with Some v => Some v | None => hc_Labels c !! k end) ∧
    (ri_Type (fi_Info ri), ri_Namespace (fi_Info ri), ri_ConnectionId (fi_Info ri), ri_ConnectorId (fi_Info ri), ri_ConnectorVersion (fi_Info ri)) =
      (rt, hc_Namespace c, hc_Id c, hc_ConnectorId c, hc_ConnectorVersion c)) as Hri.
  { intros l. unfold for_proxied. rewrite labels_of_request, labels_of_actor. cbn zeta. split; [|done]. intros k.
    rewrite (decide_False (P := ha_Id a = "")) by (intros Hz; by rewrite Hz in Hid). cbn [with_labels fi_Info ri_Labels ForConnection ForRequestInfo cf_requestInfo].
    rewrite decide_False by (by rewrite map_size_empty_iff). rewrite !overlay_lookup, actor_labels by done.
    destruct (is_apxy k) eqn:Hk.
    - rewrite (map_lookup_filter_None_2 _ l k) by (right; intros v _ Hv; cbn [fst] in Hv; congruence). unfold system_label. by repeat case_decide.
    - do 3 (rewrite decide_False by (intros ->; done)).
      assert (kmap (M2 := gmap string) actor_key (filter (λ kv, is_apxy kv.1 = false) (ha_Labels a)) !! k = None) as ->.
      { apply lookup_kmap_None; [apply _|]. intros k' ->. by rewrite actor_key_apxy in Hk. }
      destruct (l !! k) as [v|] eqn:Hl; [by rewrite (map_lookup_filter_Some_2 _ l k v)|]. by rewrite map_lookup_filter_None_2 by (by left). }
  split_and!.
  - destruct (Hri labels) as [Hl [= H1 H2 H3 H4 H5]]. unfold ctx. cbn. by rewrite H1, H2, H3, H4, H5, Hl.
  - intros k. apply (Hri labels).
  - destruct (Hri labels) as [Hl [= H1 H2 H3 H4 H5]]. destruct (Hri (filter (λ kv, is_apxy kv.1 = false) labels)) as [Hl' [= H1' H2' H3' H4' H5']].
    unfold ctx, buildRequestContext. rewrite H1, H2, H3, H4, H5, H1', H2', H3', H4', H5'.
    match goal with |- mkRequestContext _ _ _ _ _ _ _ _ ?x = mkRequestContext _ _ _ _ _ _ _ _ ?y => assert (x = y) as ->; [|done] end.
    apply map_eq. intros k. rewrite Hl, Hl'. destruct (is_apxy k) eqn:Hk; [done|].
    destruct (labels !! k) as [v|] eqn:Hv; [by rewrite (map_lookup_filter_Some_2 _ labels k v)|]. by rewrite map_lookup_filter_None_2 by (by left).
Qed.
End factory.
Arguments http_Connection : clear implicits.

(** A request that claims to come from another actor. *)
Definition example_connection : http_Connection unit := mkHttpConnection "cxn_1" "root.acme" "cxr_1" 3 {["team" := "x"]} None None.
Definition example_actor : http_Actor := mkHttpActor "act_1" "alice" "root.acme" {["tier" := "gold"]}.
Definition example_labels : Labels := {["apxy/act/-/id" := "act_2"; "team" := "y"]}.

Lemma request_identity_witness :
  let f := CreateFactory (RL := unit) (RT := unit) (λ _ _, None) [] in
  let ctx := buildRequestContext (fi_Info (cf_requestInfo (for_proxied RequestTypeProxy example_connection (Some example_actor) example_labels f)))
               (mkRequest "GET" None) in
  rc_ActorID ctx = "act_1" ∧ rc_Labels ctx !! "team" = Some "y" ∧ rc_Labels ctx !! "apxy/act/tier" = Some "gold".
Proof.
  cbn zeta. set (f := CreateFactory (RL := unit) (RT := unit) (λ _ _, None) []).
  pose proof (request_identity_exact RequestTypeProxy example_connection example_actor example_labels f (mkRequest "GET" None) eq_refl
    ltac:(intros H; apply (f_equal (lookup "team")) in H; discriminate)) as H.
  cbn zeta in H. revert H. generalize (buildRequestContext (fi_Info (cf_requestInfo (for_proxied RequestTypeProxy example_connection (Some example_actor) example_labels f)))
               (mkRequest "GET" None)) as ctx. intros ctx (Hid & Hl & _).
  split_and!; [by injection Hid|rewrite Hl; reflexivity|rewrite Hl; reflexivity].
Defined.
