(* ===== verification/HttpHeaders.v ===== *)
(** * HTTP headers

    [http.Header] with the canonical form of names, and the two functions that
    pass headers on: [copyHeaderExceptHopByHop] for responses
    (internal/proxy/proxy.go) and [copyInboundHeadersForRawProxy] with the
    envelope of a raw request (internal/routes/connections_proxy_raw.go).  A map
    that is ranged over is given by the list of its entries in the order they
    are visited. *)

From S2P Require Import Prelude GoNumbers GoStrings.
Open Scope string_scope.
Open Scope list_scope.

(** ** Names *)

Definition between (lo hi : ascii) (c : ascii) : bool := (nat_of_ascii lo <=? nat_of_ascii c)%nat && (nat_of_ascii c <=? nat_of_ascii hi)%nat.

(** [isTchar], the bytes of a token (RFC 7230). *)
Definition isTchar (c : ascii) : bool :=
  between "0" "9" c || between "A" "Z" c || between "a" "z" c ||
  existsb (λ d, bool_decide (c = d))
    ["!"; "#"; "$"; "%"; "&"; "'"; "*"; "+"; "-"; "."; "^"; "_"; "`"; "|"; "~"]%char.

Definition isValidHttpHeaderFieldName (s : string) : bool := negb (bool_decide (s = "")) && str_forall isTchar s.

Definition upper (c : ascii) : ascii := if between "a" "z" c then ascii_of_nat (nat_of_ascii c - 32) else c.
Definition lower (c : ascii) : ascii := if between "A" "Z" c then ascii_of_nat (nat_of_ascii c + 32) else c.

Fixpoint canonical_from (up : bool) (s : string) : string :=
  match s with
  | "" => ""
  | String c s' => let c' := if up then upper c else lower c in String c' (canonical_from (bool_decide (c' = "-"%char)) s')
  end.

(** [http.CanonicalHeaderKey]: a name with other bytes stays as it is. *)
Definition CanonicalHeaderKey (s : string) : string := if str_forall isTchar s then canonical_from true s else s.

(** ** Maps of headers *)

Abbreviation Header := (gmap string (list string)).

Definition Header_Set (k v : string) (h : Header) : Header := <[CanonicalHeaderKey k := [v]]> h.
Definition Header_Values (k : string) (h : Header) : list string := default [] (h !! CanonicalHeaderKey k).
Definition Header_Add (k v : string) (h : Header) : Header := <[CanonicalHeaderKey k := Header_Values k h ++ [v]]> h.
Definition Header_Get (k : string) (h : Header) : string := match Header_Values k h with v :: _ => v | [] => "" end.

(** ** Headers of one hop *)

Definition hopByHopHeaders : list string :=
  ["Connection"; "Keep-Alive"; "Proxy-Authenticate"; "Proxy-Authorization"; "Te"; "Trailers"; "Transfer-Encoding"; "Upgrade"].

Definition isHopByHopHeader (name : string) : bool := bool_decide (CanonicalHeaderKey name ∈ hopByHopHeaders).

Definition blank (c : ascii) : bool := bool_decide (c = " "%char) || bool_decide (c = byte 9).

Fixpoint trim_blanks_left (s : string) : string :=
  match s with
  | "" => ""
  | String c s' => if blank c then trim_blanks_left s' else s
  end.

Fixpoint trim_blanks_right (s : string) : string :=
  match s with
  | "" => ""
  | String c s' => let r := trim_blanks_right s' in if bool_decide (r = "") && blank c then "" else String c r
  end.

(** The names of a list; [trim] is what is removed around each. *)
Definition splitCommaTrim (trim : string → string) (s : string) : list string :=
  List.filter (λ seg, negb (bool_decide (seg = ""))) (map trim (Split s ","%char)).

Definition proxy_trim (s : string) : string := trim_blanks_right (trim_blanks_left s).

(** The names that the [Connection] header of the message adds. *)
Definition hopByConnection (trim : string → string) (h : Header) : gset string :=
  list_to_set (map CanonicalHeaderKey (mjoin (map (splitCommaTrim trim) (Header_Values "Connection" h)))).

Definition copyHeaderExceptHopByHop (visit : Header → list (string * list string)) (dst src : Header) : Header :=
  foldl (λ dst '(k, vv),
    if isHopByHopHeader k then dst
    else if bool_decide (CanonicalHeaderKey k ∈ hopByConnection proxy_trim src) then dst
    else <[k := vv]> dst) dst (visit src).

(** ** The envelope of a raw request *)

Definition HeaderUpstreamURL : string := "X-AuthProxy-Upstream-URL".
Definition HeaderLabel : string := "X-AuthProxy-Label".

Definition copyInboundHeadersForRawProxy (visit : Header → list (string * list string)) (dst src : Header) : Header :=
  foldl (λ dst '(k, vv),
    let canon := CanonicalHeaderKey k in
    if decide (canon = "Authorization") then dst
    else if bool_decide (canon = CanonicalHeaderKey HeaderUpstreamURL) || bool_decide (canon = CanonicalHeaderKey HeaderLabel) then dst
    else if bool_decide (canon = "Host") || bool_decide (canon = "Content-Length") then dst
    else if isHopByHopHeader canon then dst
    else if bool_decide (canon ∈ hopByConnection TrimSpace src) then dst
    else <[canon := vv]> dst) dst (visit src).

Inductive envelope_error : Type := MissingUpstream | InvalidUpstream | NotAbsolute | NoHost | InvalidLabel.

(** [parseLabelHeaders]; a label that is given twice has the last value. *)
Fixpoint label_headers (values : list string) (labels : gmap string string) : result envelope_error (gmap string string) :=
  match values with
  | [] => Ok labels
  | raw :: values =>
      let raw := TrimSpace raw in
      if decide (raw = "") then label_headers values labels
      else match Index raw "="%char with
      | None | Some O => Err InvalidLabel
      | Some i => label_headers values (<[str_take i raw := str_drop (i + 1) raw]> labels)
      end
  end.

Definition parseLabelHeaders (values : list string) : result envelope_error (gmap string string) := label_headers values ∅.

(** What [net/url] says of a URL: scheme and host. *)
Definition parseRawProxyEnvelope (url_parts : string → option (string * string)) (h : Header) :
    result envelope_error (string * gmap string string) :=
  let rawURL := Header_Get HeaderUpstreamURL h in
  if decide (rawURL = "") then Err MissingUpstream
  else match url_parts rawURL with
  | None => Err InvalidUpstream
  | Some (scheme, host) =>
      if negb (bool_decide (scheme = "http") || bool_decide (scheme = "https")) then Err NotAbsolute
      else if decide (host = "") then Err NoHost
      else match parseLabelHeaders (Header_Values HeaderLabel h) with
      | Err e => Err e
      | Ok labels => Ok (rawURL, labels)
      end
  end.

(** ** Names up to case *)

Fixpoint lowers (s : string) : string := match s with "" => "" | String c s' => String (lower c) (lowers s') end.

Lemma upper_upper c : upper (upper c) = upper c.
Proof. destruct c as [[] [] [] [] [] [] [] []]; reflexivity. Qed.

Lemma lower_lower c : lower (lower c) = lower c.
Proof. destruct c as [[] [] [] [] [] [] [] []]; reflexivity. Qed.

Lemma upper_lower c : upper (lower c) = upper c.
Proof. destruct c as [[] [] [] [] [] [] [] []]; reflexivity. Qed.

Lemma lower_upper c : lower (upper c) = lower c.
Proof. destruct c as [[] [] [] [] [] [] [] []]; reflexivity. Qed.

Lemma isTchar_upper c : isTchar (upper c) = isTchar c.
Proof. destruct c as [[] [] [] [] [] [] [] []]; reflexivity. Qed.

Lemma isTchar_lower c : isTchar (lower c) = isTchar c.
Proof. destruct c as [[] [] [] [] [] [] [] []]; reflexivity. Qed.

Lemma canonical_tchar up s : str_forall isTchar (canonical_from up s) = str_forall isTchar s.
Proof.
  revert up. induction s as [|c s IH]; intros up; [done|]. cbn [canonical_from str_forall]. rewrite IH.
  destruct up; [by rewrite isTchar_upper|by rewrite isTchar_lower].
Qed.

Lemma canonical_idem up s : canonical_from up (canonical_from up s) = canonical_from up s.
Proof.
  revert up. induction s as [|c s IH]; intros up; [done|]. cbn [canonical_from].
  destruct up; [rewrite upper_upper|rewrite lower_lower]; by rewrite IH.
Qed.

Lemma canonical_lowers up s : canonical_from up (lowers s) = canonical_from up s.
Proof.
  revert up. induction s as [|c s IH]; intros up; [done|]. cbn [canonical_from lowers].
  destruct up; [rewrite upper_lower|rewrite lower_lower]; by rewrite IH.
Qed.

Lemma lowers_canonical up s : lowers (canonical_from up s) = lowers s.
Proof.
  revert up. induction s as [|c s IH]; intros up; [done|]. cbn [canonical_from lowers]. rewrite IH.
  destruct up; [by rewrite lower_upper|by rewrite lower_lower].
Qed.

Lemma canonical_key_idem s : CanonicalHeaderKey (CanonicalHeaderKey s) = CanonicalHeaderKey s.
Proof.
  unfold CanonicalHeaderKey. destruct (str_forall isTchar s) eqn:Hs; [|by rewrite Hs].
  by rewrite canonical_tchar, Hs, canonical_idem.
Qed.

(** Names are the same up to case exactly when their canonical forms are. *)
Lemma canonical_key_case s t : str_forall isTchar s = true → str_forall isTchar t = true →
  CanonicalHeaderKey s = CanonicalHeaderKey t ↔ lowers s = lowers t.
Proof.
  intros Hs Ht. unfold CanonicalHeaderKey. rewrite Hs, Ht. split; intros H.
  - by rewrite <- (lowers_canonical true s), H, lowers_canonical.
  - by rewrite <- (canonical_lowers true s), H, canonical_lowers.
Qed.

(** A credential replaces what the caller sent under any spelling. *)
Lemma Header_Set_Values k k' v h :
  Header_Values k' (Header_Set k v h) = if decide (CanonicalHeaderKey k = CanonicalHeaderKey k') then [v] else Header_Values k' h.
Proof.
  unfold Header_Values, Header_Set. case_decide as Hk; [by rewrite Hk, lookup_insert_eq|by rewrite lookup_insert_ne].
Qed.

(** ** What is passed on *)

Section copy.
Context (visit : Header → list (string * list string)).
Hypothesis visits : ∀ h, visit h ≡ₚ map_to_list h.

Lemma foldl_same {A B} (f g : A → B → A) (a : A) l : (∀ a b, f a b = g a b) → foldl f a l = foldl g a l.
Proof. intros Hfg. revert a. induction l as [|b l IH]; intros a; [done|]. cbn. by rewrite Hfg. Qed.

(** The part of the loops that the functions share. *)
Lemma fold_copy (drop : string → bool) (name : string → string) l (dst : Header) k : NoDup l.*1 → (∀ x, x ∈ l.*1 → name x = x) →
  foldl (λ dst '(k, vv), if drop k then dst else <[name k := vv]> dst) dst l !! k =
  match list_to_map (M := Header) l !! k with Some vv => if drop k then dst !! k else Some vv | None => dst !! k end.
Proof.
  revert dst. induction l as [|[x vv] l IH]; intros dst Hnd Hname; [done|]. cbn [fmap list_fmap fst] in Hnd, Hname.
  apply NoDup_cons in Hnd as [Hx Hnd]. cbn [foldl list_to_map foldr uncurry fst]. rewrite IH by set_solver.
  change (list_to_map ((x, vv) :: l) : Header) with (<[x := vv]> (list_to_map l : Header)).
  rewrite (Hname x) by set_solver. destruct (decide (x = k)) as [->|Hne].
  - rewrite lookup_insert_eq. assert (list_to_map l !! k = None (A := list string)) as -> by (by apply not_elem_of_list_to_map).
    destruct (drop k); [done|]. by rewrite lookup_insert_eq.
  - rewrite lookup_insert_ne by done. destruct (list_to_map l !! k), (drop k), (drop x); by rewrite ?lookup_insert_ne.
Qed.

(** The keys of a message are canonical, as [net/http] makes them. *)
Definition canonical_keys (h : Header) : Prop := ∀ k, is_Some (h !! k) → CanonicalHeaderKey k = k.

Lemma copy_lookup (drop : string → bool) (name : string → string) (dst src : Header) k : (∀ x, is_Some (src !! x) → name x = x) →
  foldl (λ dst '(k, vv), if drop k then dst else <[name k := vv]> dst) dst (visit src) !! k =
  match src !! k with Some vv => if drop k then dst !! k else Some vv | None => dst !! k end.
Proof.
  intros Hname. rewrite fold_copy.
  - assert (list_to_map (visit src) = src) as ->; [|done]. rewrite (list_to_map_proper _ (map_to_list src)); [apply list_to_map_to_list| |done].
    rewrite (visits src). apply NoDup_fst_map_to_list.
  - rewrite (visits src). apply NoDup_fst_map_to_list.
  - intros x Hx. apply Hname. rewrite (visits src) in Hx. apply list_elem_of_fmap in Hx as ([x' vv] & -> & Hin).
    apply elem_of_map_to_list in Hin. by exists vv.
Qed.

(** Named by the [Connection] header. *)
Definition named_by_connection (trim : string → string) (h : Header) (k : string) : Prop :=
  ∃ v seg, v ∈ Header_Values "Connection" h ∧ seg ∈ Split v ","%char ∧ trim seg ≠ "" ∧ CanonicalHeaderKey (trim seg) = k.

Lemma hopByConnection_spec trim h k : k ∈ hopByConnection trim h ↔ named_by_connection trim h k.
Proof.
  unfold hopByConnection, named_by_connection, splitCommaTrim. rewrite elem_of_list_to_set, list_elem_of_fmap. split.
  - intros (name & -> & Hin). apply list_elem_of_join in Hin as (l & Hname & Hl).
    apply list_elem_of_fmap in Hl as (v & -> & Hv). apply list_elem_of_In, filter_In in Hname as [Hname Hne].
    apply list_elem_of_In, list_elem_of_fmap in Hname as (seg & -> & Hseg). exists v, seg.
    apply negb_true_iff, bool_decide_eq_false in Hne. done.
  - intros (v & seg & Hv & Hseg & Hne & <-). exists (trim seg). split; [done|]. apply list_elem_of_join.
    exists (List.filter (λ seg, negb (bool_decide (seg = ""))) (map trim (Split v ","%char))). split.
    + apply list_elem_of_In, filter_In. split; [apply list_elem_of_In, list_elem_of_fmap; by exists seg|].
      apply negb_true_iff. by apply bool_decide_eq_false.
    + apply list_elem_of_fmap. by exists v.
Qed.

(** The headers that belong to the request to the proxy itself. *)
Definition envelope_names : list string :=
  ["Authorization"; "X-Authproxy-Upstream-Url"; "X-Authproxy-Label"; "Host"; "Content-Length"].

Lemma envelope_cases c : bool_decide (c ∈ envelope_names) =
  bool_decide (c = "Authorization") ||
  ((bool_decide (c = CanonicalHeaderKey HeaderUpstreamURL) || bool_decide (c = CanonicalHeaderKey HeaderLabel)) ||
   (bool_decide (c = "Host") || bool_decide (c = "Content-Length"))).
Proof.
  apply Bool.eq_iff_eq_true. rewrite !orb_true_iff, !bool_decide_eq_true.
  change (CanonicalHeaderKey HeaderUpstreamURL) with "X-Authproxy-Upstream-Url". change (CanonicalHeaderKey HeaderLabel) with "X-Authproxy-Label".
  unfold envelope_names. set_solver.
Qed.

(** What the copy of a request leaves out. *)
Definition not_forwarded (src : Header) (k : string) : bool :=
  bool_decide (CanonicalHeaderKey k ∈ envelope_names) || bool_decide (CanonicalHeaderKey k ∈ hopByHopHeaders) ||
  bool_decide (CanonicalHeaderKey k ∈ hopByConnection TrimSpace src).

Lemma inbound_fold dst src : copyInboundHeadersForRawProxy visit dst src =
  foldl (λ dst '(k, vv), if not_forwarded src k then dst else <[CanonicalHeaderKey k := vv]> dst) dst (visit src).
Proof.
  unfold copyInboundHeadersForRawProxy. apply foldl_same. intros d [x vv]. unfold not_forwarded, isHopByHopHeader.
  rewrite canonical_key_idem, envelope_cases, decide_bool_decide.
  destruct (bool_decide (_ = "Authorization")), (_ || bool_decide (_ = CanonicalHeaderKey HeaderLabel)), (_ || bool_decide (_ = "Content-Length")),
    (bool_decide (_ ∈ hopByHopHeaders)), (bool_decide (_ ∈ hopByConnection _ _)); done.
Qed.

Definition not_returned (src : Header) (k : string) : bool :=
  bool_decide (CanonicalHeaderKey k ∈ hopByHopHeaders) || bool_decide (CanonicalHeaderKey k ∈ hopByConnection proxy_trim src).

Lemma returned_fold dst src : copyHeaderExceptHopByHop visit dst src =
  foldl (λ dst '(k, vv), if not_returned src k then dst else <[id k := vv]> dst) dst (visit src).
Proof.
  unfold copyHeaderExceptHopByHop. apply foldl_same. intros d [x vv]. unfold not_returned, isHopByHopHeader.
  by destruct (bool_decide (_ ∈ hopByHopHeaders)), (bool_decide (_ ∈ hopByConnection _ _)).
Qed.

(** Which headers cross the proxy.  A header of a raw request goes to the
    upstream, with all its values, exactly when it is none of the envelope or
    authorization headers, none of the hop-by-hop ones, and not named by the
    request's Connection header; a header of the response goes to the caller
    exactly when it is not hop-by-hop and not named by the response's Connection
    header, and what was set for the caller under other names stays.  This holds
    for every order in which the maps are visited. *)
Theorem raw_headers_exact dst src k : canonical_keys src →
  (∀ vv, copyInboundHeadersForRawProxy visit ∅ src !! k = Some vv ↔
         src !! k = Some vv ∧ k ∉ envelope_names ∧ k ∉ hopByHopHeaders ∧ ¬ named_by_connection TrimSpace src k) ∧
  (k ∈ hopByHopHeaders ∨ named_by_connection proxy_trim src k → copyHeaderExceptHopByHop visit dst src !! k = dst !! k) ∧
  (k ∉ hopByHopHeaders → ¬ named_by_connection proxy_trim src k →
   copyHeaderExceptHopByHop visit dst src !! k = match src !! k with Some vv => Some vv | None => dst !! k end).
Proof.
  intros Hcanon. pose proof (hopByConnection_spec TrimSpace src k) as Hin. pose proof (hopByConnection_spec proxy_trim src k) as Hout.
  rewrite inbound_fold, returned_fold, !copy_lookup by (done || intros; by apply Hcanon).
  destruct (src !! k) as [xx|] eqn:Hk; [|split_and!; [intros vv; rewrite lookup_empty; naive_solver|done..]].
  unfold not_forwarded, not_returned. rewrite (Hcanon k) by (by exists xx).
  split_and!; [|intros Hor|intros H1 H2]; [|repeat case_bool_decide; naive_solver..].
  intros vv. rewrite lookup_empty. repeat case_bool_decide; naive_solver.
Qed.
End copy.

(** A request with a cookie, a token and a header of this hop. *)
Lemma raw_headers_witness :
  copyInboundHeadersForRawProxy map_to_list ∅
    {["Authorization" := ["Bearer t"]; "Connection" := ["x-hop, keep-alive"]; "X-Hop" := ["1"]; "Accept" := ["*/*"]]} !! "X-Hop" = None.
Proof.
  set (src := {["Authorization" := _; "Connection" := _; "X-Hop" := _; "Accept" := _]} : Header).
  assert (canonical_keys src) as Hc.
  { intros k [vv Hv]. unfold src in Hv. repeat (apply lookup_insert_Some in Hv as [[<- _]|[_ Hv]]; [done|]).
    apply lookup_singleton_Some in Hv as [<- _]. done. }
  destruct (raw_headers_exact map_to_list (λ _, reflexivity _) ∅ src "X-Hop" Hc) as [H _].
  apply eq_None_not_Some. intros [vv Hv]. apply H in Hv as (_ & _ & _ & Hn). destruct Hn.
  exists "x-hop, keep-alive", "x-hop". assert (Header_Values "Connection" src = ["x-hop, keep-alive"]) as -> by reflexivity.
  split_and!; [apply list_elem_of_here|cbn; apply list_elem_of_here|done|done].
Defined.
