(* ===== verification/ApiKey.v ===== *)
(** * API keys

    Package [auth_methods/api_key] with the connector's block
    ([schema/resources/connectors/auth_api_key.go]): where the key goes in a
    request, how it is collected, stored and used.  A credential is stored with
    the placement that was in effect, encrypted with the key of the namespace;
    what is stored for a validated placement is what requests are made with. *)

From S2P Require Import Prelude GoNumbers GoStrings Namespace RateRules SetupFlow Connection Actors Redis KeyMaterial Encryption EncryptService OAuth2Config CredentialStore OAuth2 HttpHeaders.
Open Scope string_scope.
Open Scope list_scope.

(** ** The block of the connector *)

Definition ApiKeyPlacementBearer : string := "bearer".
Definition ApiKeyPlacementHeader : string := "header".
Definition ApiKeyPlacementQuery : string := "query".
Definition ApiKeyPlacementBasic : string := "basic".

(** The fields of the form that hold secrets. *)
Definition CredentialFieldNames (p : option ApiKeyPlacement) : list string :=
  match p with
  | None => []
  | Some p =>
      if decide (pl_Type p = ApiKeyPlacementBasic) then
        if decide (pl_UsernameField p = "") then ["api_key"] else ["api_key"; pl_UsernameField p]
      else ["api_key"]
  end.

Inductive placement_error : Type :=
  | PlacementRequired | FieldRequired | FieldInvalid | FieldNotAllowed | TypeRequired | TypeInvalid.

Abbreviation perrors := (list (ValidationContext * placement_error)).

Definition pwhen (b : bool) (vc : ValidationContext) (e : placement_error) : perrors := if b then [(vc, e)] else [].

Definition isValidUrlQueryParamName (s : string) : bool := isValidHttpHeaderFieldName s.

Definition type_errors (pvc : ValidationContext) (p : ApiKeyPlacement) : perrors :=
  if decide (pl_Type p = ApiKeyPlacementBearer) then []
  else if decide (pl_Type p = ApiKeyPlacementHeader) then
    if decide (pl_HeaderName p = "") then [(PushField pvc "header_name", FieldRequired)]
    else pwhen (negb (isValidHttpHeaderFieldName (pl_HeaderName p))) (PushField pvc "header_name") FieldInvalid
  else if decide (pl_Type p = ApiKeyPlacementQuery) then
    if decide (pl_ParamName p = "") then [(PushField pvc "param_name", FieldRequired)]
    else pwhen (negb (isValidUrlQueryParamName (pl_ParamName p))) (PushField pvc "param_name") FieldInvalid
  else if decide (pl_Type p = ApiKeyPlacementBasic) then
    pwhen (bool_decide (pl_UsernameField p = "")) (PushField pvc "username_field") FieldRequired
  else if decide (pl_Type p = "") then [(PushField pvc "type", TypeRequired)]
  else [(PushField pvc "type", TypeInvalid)].

Definition AuthApiKey_Validate (vc : ValidationContext) (placement : option ApiKeyPlacement) : perrors :=
  match placement with
  | None => [(PushField vc "placement", PlacementRequired)]
  | Some p =>
      let pvc := PushField vc "placement" in
      type_errors pvc p
      ++ (if decide (pl_Type p = ApiKeyPlacementHeader) then []
          else pwhen (negb (bool_decide (pl_HeaderName p = ""))) (PushField pvc "header_name") FieldNotAllowed
               ++ pwhen (negb (bool_decide (pl_Prefix p = ""))) (PushField pvc "prefix") FieldNotAllowed)
      ++ pwhen (negb (bool_decide (pl_Type p = ApiKeyPlacementQuery)) && negb (bool_decide (pl_ParamName p = "")))
           (PushField pvc "param_name") FieldNotAllowed
      ++ pwhen (negb (bool_decide (pl_Type p = ApiKeyPlacementBasic)) && negb (bool_decide (pl_UsernameField p = "")))
           (PushField pvc "username_field") FieldNotAllowed
  end.

(** ** The form *)

(** The JSON schema and the order of the controls: name, title and whether the
    value is hidden. *)
Record field_spec := mkFieldSpec { fs_Name : string; fs_Title : string; fs_Password : bool }.

Record credentials_step := mkCredentialsStep {
  cs_Required : list string;
  cs_Properties : gmap string string;        (** titles; all are strings of at least one character *)
  cs_Controls : list (string * bool)         (** scope, and whether it is a password *)
}.

Definition SynthesizedApiKeyCredentialsStepId : string := "_authproxy_api_key_credentials".

Definition synthesizeCredentialsStep (placement : option ApiKeyPlacement) : option credentials_step :=
  match placement with
  | None => None
  | Some p =>
      let fields :=
        (if bool_decide (pl_Type p = ApiKeyPlacementBasic) && negb (bool_decide (pl_UsernameField p = ""))
         then [mkFieldSpec (pl_UsernameField p) "Username" false] else [])
        ++ [mkFieldSpec "api_key" "API Key" true] in
      Some (mkCredentialsStep (map fs_Name fields)
              (foldl (λ m f, <[fs_Name f := fs_Title f]> m) ∅ fields)
              (map (λ f, ("#/properties/" +:+ fs_Name f, fs_Password f)) fields))
  end.

(** ** Credentials in use *)

Record ApiKeyCredentialPlaintext := mkPlaintext { pt_ApiKey : string; pt_Username : string }.

Record authApplication := mkAuthApplication { aa_Header : option (string * string); aa_Query : option (string * string) }.

Inductive application_error : Type := NoPlacement | EmptyKey | NoHeaderName | NoParamName | NoUsername | UnsupportedPlacement.

(** Where requests get their credentials: headers and parameters to set. *)
Record AuthApplication := mkApplication { app_Headers : list (string * string); app_QueryParams : list (string * string) }.

Definition noApplication : AuthApplication := mkApplication [] [].

(** JSON of the plaintext. *)
Class ApiKeyExternal := {
  plaintext_Marshal : ApiKeyCredentialPlaintext → string;
  plaintext_Unmarshal : string → option ApiKeyCredentialPlaintext
}.

Class ApiKeyExternalLaws (X : ApiKeyExternal) : Prop := {
  plaintext_json p : plaintext_Unmarshal (plaintext_Marshal p) = Some p
}.

Section api_key.
Context {S : Type} {RS : RedisServer S} {C : Cipher} {ext : External} {X : ApiKeyExternal}.
Context (eo : outside) (o : surroundings).

Definition computeAuthApplication (placement : option ApiKeyPlacement) (plaintext : ApiKeyCredentialPlaintext) :
    result application_error authApplication :=
  match placement with
  | None => Err NoPlacement
  | Some p =>
      if decide (pt_ApiKey plaintext = "") then Err EmptyKey
      else if decide (pl_Type p = ApiKeyPlacementBearer) then
        Ok (mkAuthApplication (Some ("Authorization", "Bearer " +:+ pt_ApiKey plaintext)) None)
      else if decide (pl_Type p = ApiKeyPlacementHeader) then
        if decide (pl_HeaderName p = "") then Err NoHeaderName
        else Ok (mkAuthApplication (Some (pl_HeaderName p, pl_Prefix p +:+ pt_ApiKey plaintext)) None)
      else if decide (pl_Type p = ApiKeyPlacementQuery) then
        if decide (pl_ParamName p = "") then Err NoParamName
        else Ok (mkAuthApplication None (Some (pl_ParamName p, pt_ApiKey plaintext)))
      else if decide (pl_Type p = ApiKeyPlacementBasic) then
        if decide (pt_Username plaintext = "") then Err NoUsername
        else Ok (mkAuthApplication
                   (Some ("Authorization", "Basic " +:+ b64_encode (pt_Username plaintext +:+ ":" +:+ pt_ApiKey plaintext))) None)
      else Err UnsupportedPlacement
  end.

Definition resolveAuth (connectionId : string) : om (S := S) unit authApplication :=
  _ ← db_call o tt;
  cred ← effect (λ s, match GetActiveApiKeyCredential connectionId (o_creds s) with Ok c => (Ok c, s) | Err _ => (Err tt, s) end);
  if decide (ak_PlacementSnapshot cred = None) then fail tt
  else
    decrypted ← or_fail tt (decrypt_string (ak_EncryptedCredentials cred));
    plaintext ← from_option tt (plaintext_Unmarshal decrypted);
    match computeAuthApplication (ak_PlacementSnapshot cred) plaintext with Ok app => mret app | Err _ => fail tt end.

Definition apikey_Resolve (connectionId : string) : om (S := S) unit AuthApplication :=
  app ← resolveAuth connectionId;
  mret (mkApplication (option_list (aa_Header app)) (option_list (aa_Query app))).

(** The secrets of a submission; [credData] gives the strings among the
    submitted values. *)
Definition submitted_plaintext (p : ApiKeyPlacement) (credData : string → option string) : result op_error ApiKeyCredentialPlaintext :=
  let key := default "" (credData "api_key") in
  if decide (key = "") then Err BadRequest
  else if decide (pl_Type p = ApiKeyPlacementBasic) then
    if decide (pl_UsernameField p = "") then Err InternalServerError
    else
      let v := default "" (credData (pl_UsernameField p)) in
      if decide (v = "") then Err BadRequest else Ok (mkPlaintext key v)
  else Ok (mkPlaintext key "").

Definition PersistCredentials (ns connectionId : string) (placement : option ApiKeyPlacement) (credData : string → option string) (actor : string) :
    om (S := S) op_error unit :=
  match placement with
  | None => fail InternalServerError
  | Some p =>
      match submitted_plaintext p credData with
      | Err e => fail e
      | Ok plaintext =>
          encrypted ← or_fail InternalServerError (encrypt_for_namespace eo ns (plaintext_Marshal plaintext));
          _ ← db_call o InternalServerError;
          newId ← ask (at_id o);
          effect (λ s,
            match InsertApiKeyCredential (o_now s) (PrefixApiKeyCredential +:+ newId) connectionId encrypted (Some p) (Some actor) (o_creds s) with
            | (Ok _, tab) => (Ok tt, set_creds tab s)
            | (Err _, _) => (Err InternalServerError, s)
            end)
      end
  end.
End api_key.

(** ** What is stored is what is used *)

(** The credentials a request gets from a key and a user name. *)
Definition application_of `{Cipher} (p : ApiKeyPlacement) (key username : string) : AuthApplication :=
  if decide (pl_Type p = ApiKeyPlacementBearer) then mkApplication [("Authorization", "Bearer " +:+ key)] []
  else if decide (pl_Type p = ApiKeyPlacementHeader) then mkApplication [(pl_HeaderName p, pl_Prefix p +:+ key)] []
  else if decide (pl_Type p = ApiKeyPlacementQuery) then mkApplication [] [(pl_ParamName p, key)]
  else mkApplication [("Authorization", "Basic " +:+ b64_encode (username +:+ ":" +:+ key))] [].

(** A placement that the validator accepts. *)
Record placement_ok (p : ApiKeyPlacement) : Prop := {
  po_type : pl_Type p ∈ [ApiKeyPlacementBearer; ApiKeyPlacementHeader; ApiKeyPlacementQuery; ApiKeyPlacementBasic];
  po_header : pl_Type p = ApiKeyPlacementHeader → isValidHttpHeaderFieldName (pl_HeaderName p) = true;
  po_query : pl_Type p = ApiKeyPlacementQuery → isValidHttpHeaderFieldName (pl_ParamName p) = true;
  po_basic : pl_Type p = ApiKeyPlacementBasic → pl_UsernameField p ≠ "";
  po_unused : (pl_Type p ≠ ApiKeyPlacementHeader → pl_HeaderName p = "" ∧ pl_Prefix p = "") ∧
              (pl_Type p ≠ ApiKeyPlacementQuery → pl_ParamName p = "") ∧
              (pl_Type p ≠ ApiKeyPlacementBasic → pl_UsernameField p = "")
}.

Lemma pwhen_nil b vc e : pwhen b vc e = [] ↔ b = false.
Proof. by destruct b. Qed.

Lemma type_errors_nil pvc p : type_errors pvc p = [] ↔
  pl_Type p = ApiKeyPlacementBearer ∨
  (pl_Type p = ApiKeyPlacementHeader ∧ isValidHttpHeaderFieldName (pl_HeaderName p) = true) ∨
  (pl_Type p = ApiKeyPlacementQuery ∧ isValidHttpHeaderFieldName (pl_ParamName p) = true) ∨
  (pl_Type p = ApiKeyPlacementBasic ∧ pl_UsernameField p ≠ "").
Proof.
  assert (isValidHttpHeaderFieldName "" = false) as Hempty by reflexivity.
  unfold type_errors, isValidUrlQueryParamName, ApiKeyPlacementBearer, ApiKeyPlacementHeader, ApiKeyPlacementQuery, ApiKeyPlacementBasic.
  destruct p as [ty hn px pn uf]; cbn [pl_Type pl_HeaderName pl_ParamName pl_UsernameField].
  case_decide; [tauto|]. case_decide as H1; [|case_decide as H2; [|case_decide as H3]].
  - subst ty. case_decide as Hn; [subst hn|rewrite pwhen_nil, negb_false_iff]; intuition congruence.
  - subst ty. case_decide as Hn; [subst pn|rewrite pwhen_nil, negb_false_iff]; intuition congruence.
  - subst ty. rewrite pwhen_nil, bool_decide_eq_false. intuition congruence.
  - case_decide; intuition congruence.
Qed.

Lemma unused_nil pvc p : (if decide (pl_Type p = ApiKeyPlacementHeader) then []
   else pwhen (negb (bool_decide (pl_HeaderName p = ""))) (PushField pvc "header_name") FieldNotAllowed
        ++ pwhen (negb (bool_decide (pl_Prefix p = ""))) (PushField pvc "prefix") FieldNotAllowed) = [] ↔
  (pl_Type p ≠ ApiKeyPlacementHeader → pl_HeaderName p = "" ∧ pl_Prefix p = "").
Proof. case_decide; [tauto|]. rewrite app_nil, !pwhen_nil, !negb_false_iff, !bool_decide_eq_true. tauto. Qed.

Lemma unless_nil (P Q : Prop) `{Decision P, Decision Q} vc e : pwhen (negb (bool_decide P) && negb (bool_decide Q)) vc e = [] ↔ (¬ P → Q).
Proof. rewrite pwhen_nil. repeat case_bool_decide; cbn; intuition congruence. Qed.

Lemma placement_validated vc p : AuthApiKey_Validate vc (Some p) = [] ↔ placement_ok p.
Proof.
  unfold AuthApiKey_Validate. rewrite !app_nil, type_errors_nil, unused_nil, !unless_nil. split.
  - intros (Ht & H1 & H2 & H3).
    split; [|intros He..|done]; unfold ApiKeyPlacementBearer, ApiKeyPlacementHeader, ApiKeyPlacementQuery, ApiKeyPlacementBasic in *.
    { rewrite !elem_of_cons. tauto. }
    all: rewrite He in Ht; intuition congruence.
  - intros [Hty Hh Hq Hb Hu]. split; [|done]. rewrite !elem_of_cons in Hty. destruct Hty as [Hty|[Hty|[Hty|[Hty|Hty]]]]; [tauto..|].
    by apply elem_of_nil in Hty.
Qed.

Section in_use.
Context {S : Type} {RS : RedisServer S} {C : Cipher} {CL : CipherLaws C} {ext : External} {X : ApiKeyExternal} {XL : ApiKeyExternalLaws X}.
Context (eo : outside) (o : surroundings).
Hypothesis nonces : ∀ n, String.length (nonce_at eo n) = nonceSize.

Lemma db_call_ok {E} (e : E) (s : ostore S) : at_db_fails o (o_n s) = false → db_call o e s = (Ok tt, next s).
Proof. intros Hf. unfold db_call, ask, mbind, om_bind. by rewrite Hf. Qed.

Lemma db_call_inv {E} (e : E) (s : ostore S) u s' : db_call o e s = (Ok u, s') → s' = next s.
Proof. unfold db_call, ask, mbind, om_bind. destruct (at_db_fails o (o_n s)); [done|]. by intros [= _ <-]. Qed.

(** The user name that is stored: only basic authentication has one. *)
Definition username_of (p : ApiKeyPlacement) (data : string → option string) : string :=
  if decide (pl_Type p = ApiKeyPlacementBasic) then default "" (data (pl_UsernameField p)) else "".

Lemma submitted_inv p data pt : submitted_plaintext p data = Ok pt →
  pt = mkPlaintext (default "" (data "api_key")) (username_of p data) ∧ default "" (data "api_key") ≠ "" ∧
  (pl_Type p = ApiKeyPlacementBasic → username_of p data ≠ "").
Proof.
  unfold submitted_plaintext, username_of. cbn zeta. case_decide as Hk; [done|]. case_decide; [|by intros [= <-]].
  do 2 (case_decide; [done|]). by intros [= <-].
Qed.

(** What a successful submission has stored. *)
Lemma persisted ns c p data actor (s s' : ostore S) : table_ok (o_creds s) →
  PersistCredentials eo o ns c (Some p) data actor s = (Ok tt, s') →
  let key := default "" (data "api_key") in
  key ≠ "" ∧ (pl_Type p = ApiKeyPlacementBasic → username_of p data ≠ "") ∧
  o_caches s' = o_caches s ∧ table_ok (o_creds s') ∧
  ∃ ef cred, Decrypt (o_caches s) ef = Ok (plaintext_Marshal (mkPlaintext key (username_of p data))) ∧
    ak_EncryptedCredentials cred = ef ∧ ak_PlacementSnapshot cred = Some p ∧
    ∀ c', get_live c' (o_creds s') = if decide (c' = c) then Some cred else get_live c' (o_creds s).
Proof.
  intros Hok. unfold PersistCredentials. destruct (submitted_plaintext p data) as [e|pt] eqn:Hpt; [done|].
  destruct (submitted_inv p data pt Hpt) as (-> & Hkey & Huser). unfold mbind, om_bind. unfold or_fail, encrypt_for_namespace.
  destruct (EncryptForNamespace eo (o_n s) (o_caches s) ns _) as [e|ef] eqn:He; [done|]. cbn beta iota.
  destruct (db_call o InternalServerError (next s)) as [[e|u] s2] eqn:Hdb; [done|]. apply db_call_inv in Hdb. subst s2.
  unfold ask, effect. cbn beta iota. destruct (InsertApiKeyCredential _ _ _ _ _ _ _) as [[e|cred] tab] eqn:Hi; [done|]. intros [= <-].
  unfold InsertApiKeyCredential in Hi. apply insert_row_live in Hi as (-> & Hok' & Hget); [|exact Hok|reflexivity].
  split_and!; [done|done|done|done|]. eexists ef, _. split; [by eapply decrypt_EncryptForNamespace|].
  split; [|split; [|exact Hget]]; reflexivity.
Qed.

(** The placement decides; nothing that the validator accepts fails. *)
Lemma computed p key user : placement_ok p → key ≠ "" → (pl_Type p = ApiKeyPlacementBasic → user ≠ "") →
  ∃ app, computeAuthApplication (Some p) (mkPlaintext key user) = Ok app ∧
         mkApplication (option_list (aa_Header app)) (option_list (aa_Query app)) = application_of p key user.
Proof.
  intros [Hty Hh Hq _ _] Hkey Huser. assert (isValidHttpHeaderFieldName "" = false) as Hempty by reflexivity.
  unfold computeAuthApplication, application_of. cbn [pt_ApiKey pt_Username]. rewrite decide_False by done.
  case_decide; [by eexists|]. case_decide as H1; [|case_decide as H2; [|case_decide as H3]].
  - case_decide as Hn; [rewrite Hn in Hh; naive_solver|by eexists].
  - case_decide as Hn; [rewrite Hn in Hq; naive_solver|by eexists].
  - case_decide as Hn; [naive_solver|by eexists].
  - set_solver.
Qed.

Lemma form_fields p : placement_ok p → cs_Required <$> synthesizeCredentialsStep (Some p) = Some (rev (CredentialFieldNames (Some p))).
Proof.
  intros Hp. unfold synthesizeCredentialsStep, CredentialFieldNames. case_decide as Hb.
  - rewrite Hb, bool_decide_true, (bool_decide_false (pl_UsernameField p = "")), decide_False by (done || by apply Hp). done.
  - by rewrite bool_decide_false.
Qed.

Lemma refused ns c p data actor (s : ostore S) : placement_ok p →
  (PersistCredentials eo o ns c (Some p) data actor s).1 = Err BadRequest ↔
  ∃ f, f ∈ CredentialFieldNames (Some p) ∧ default "" (data f) = "".
Proof.
  intros Hp. unfold PersistCredentials. destruct (submitted_plaintext p data) as [e|pt] eqn:Hpt.
  - unfold submitted_plaintext, CredentialFieldNames in *. cbn zeta in Hpt. case_decide as Hk.
    { injection Hpt as <-. split; [|done]. intros _. exists "api_key". split; [|done]. repeat case_decide; set_solver. }
    case_decide as Hb; [|done]. case_decide as Hu; [by destruct (po_basic p Hp Hb)|]. case_decide as Hv; [|done]. injection Hpt as <-.
    split; [|done]. intros _. exists (pl_UsernameField p). split; [set_solver|done].
  - destruct (submitted_inv p data pt Hpt) as (-> & Hkey & Huser). split.
    + unfold mbind, om_bind. unfold or_fail, encrypt_for_namespace. destruct (EncryptForNamespace _ _ _ _ _); [done|]. cbn beta iota.
      destruct (db_call o InternalServerError (next s)) as [[e|u] s2] eqn:Hdb.
      { unfold db_call, ask, mbind, om_bind in Hdb. destruct (at_db_fails o _); by injection Hdb as <- _. }
      unfold ask, effect. cbn beta iota. by destruct (InsertApiKeyCredential _ _ _ _ _ _ _) as [[] ?].
    + intros (f & Hf & Hempty). unfold CredentialFieldNames, username_of in *. case_decide as Hb; [|set_solver].
      case_decide; [set_solver|]. specialize (Huser Hb). set_solver.
Qed.

(** C15: an API key that was submitted is the one that requests are made with.
    For a placement that the validator accepts, the form asks for exactly the
    credential fields, a submission that lacks one of them is refused as a bad
    request, and after one that succeeds every later request of the connection,
    as long as no other credential is stored, carries the key, where and how the
    placement says, while other connections keep theirs. *)
Theorem api_key_in_use vc ns c p data actor (s : ostore S) : AuthApiKey_Validate vc (Some p) = [] → table_ok (o_creds s) →
  let fields := CredentialFieldNames (Some p) in
  let '(r, s') := PersistCredentials eo o ns c (Some p) data actor s in
  ((cs_Required <$> synthesizeCredentialsStep (Some p)) = Some (rev fields)) ∧
  (r = Err BadRequest ↔ ∃ f, f ∈ fields ∧ default "" (data f) = "") ∧
  (r = Ok tt →
    table_ok (o_creds s') ∧
    (∀ c', c' ≠ c → GetActiveApiKeyCredential c' (o_creds s') = GetActiveApiKeyCredential c' (o_creds s)) ∧
    ∀ s2 : ostore S, o_creds s2 = o_creds s' → o_caches s2 = o_caches s → at_db_fails o (o_n s2) = false →
      (apikey_Resolve o c s2).1 = Ok (application_of p (default "" (data "api_key")) (username_of p data))).
Proof.
  intros Hval Hok fields. apply placement_validated in Hval. pose proof (persisted ns c p data actor s) as Hper.
  pose proof (refused ns c p data actor s Hval) as Href.
  destruct (PersistCredentials eo o ns c (Some p) data actor s) as [r s'] eqn:Hrun. split_and!; [by apply form_fields|exact Href|].
  intros ->. destruct (Hper s' Hok eq_refl) as (Hkey & Huser & Hc & Hok' & ef & cred & Hdec & Hef & Hpl & Hget). split_and!; [done| |].
  - intros c' Hne. unfold GetActiveApiKeyCredential. by rewrite Hget, decide_False.
  - intros s2 Hcreds Hcaches Hdb. destruct (computed p _ _ Hval Hkey Huser) as (app & Hcomp & Happ).
    unfold apikey_Resolve, resolveAuth. unfold mbind, om_bind. rewrite db_call_ok by done. unfold effect, GetActiveApiKeyCredential.
    change (o_creds (next s2)) with (o_creds s2). rewrite Hcreds, Hget, decide_True by done. cbn [scan_credential ak_PlacementSnapshot ak_EncryptedCredentials].
    rewrite Hpl, Hef. cbn [default from_option]. rewrite decide_False by done. unfold or_fail, decrypt_string.
    change (o_caches (next s2)) with (o_caches s2). rewrite Hcaches, Hdec, plaintext_json. unfold OAuth2.from_option, mret, om_ret. change (id p) with p. rewrite Hcomp. cbn [fst]. by rewrite Happ.
Qed.
End in_use.
