(* ===== verification/OAuth2Refresh.v ===== *)
(** * Access tokens stay current

    What a request over an OAuth2 connection is made with: the access token of
    the row in use, which has not expired or was issued in the same call; and
    what refreshing does at the provider and to the connection, on every path.

    Most computations only move the counter of outside calls on ([moves]). *)

From S2P Require Import Prelude GoNumbers GoStrings Namespace RateRules SetupFlow Connection ConnectionFrames Actors Redis KeyMaterial Encryption EncryptService OAuth2Config CredentialStore OAuth2.
Open Scope string_scope.
Open Scope list_scope.

Create HintDb moves.

Section refresh.
Context {S : Type} {RS : RedisServer S} {C : Cipher} {CL : CipherLaws C} {ext : External} {U : UrlLib} {X : OAuthExternal}.
Context (eo : outside) (o : surroundings).
Hypothesis nonces : ∀ n, String.length (nonce_at eo n) = nonceSize.

(** ** Computations that read *)

Definition set_n (n : nat) (s : ostore S) : ostore S :=
  mkOstore (o_redis s) (o_tokens s) (o_creds s) (o_caches s) (o_now s) n (o_sent s) (o_log s).

Definition moved (s s' : ostore S) : Prop := ∃ n, s' = set_n n s.

#[local] Instance moved_preorder : PreOrder moved.
Proof.
  split.
  - intros s. exists (o_n s). by destruct s.
  - intros s1 s2 s3 [n ->] [m ->]. by exists m.
Qed.

Definition moves {E B} (m : om (S := S) E B) : Prop := ∀ s, moved s (m s).2.

Lemma moved_next s : moved s (next s).
Proof. by exists (Datatypes.S (o_n s)). Qed.

Lemma moves_ret {E B} (b : B) : moves (E := E) (mret b).
Proof. by intros s. Qed.

Lemma moves_fail {E B} (e : E) : moves (B := B) (fail e).
Proof. by intros s. Qed.

Lemma moves_bind {E B B'} (m : om E B) (k : B → om E B') : moves m → (∀ b, moves (k b)) → moves (m ≫= k).
Proof.
  intros Hm Hk s. specialize (Hm s). unfold mbind, om_bind. destruct (m s) as [[e|b] s1]; [done|]. etrans; [exact Hm|apply Hk].
Qed.

Lemma moves_or_fail {E E' B} (e : E') (m : om E B) : moves m → moves (or_fail e m).
Proof. intros Hm s. specialize (Hm s). unfold or_fail. by destruct (m s) as [[?|?] ?]. Qed.

Lemma moves_from_option {E B} (e : E) (x : option B) : moves (OAuth2.from_option e x).
Proof. by destruct x; intros s. Qed.

Lemma moves_reads {E B} (f : ostore S → B) : moves (E := E) (reads f).
Proof. by intros s. Qed.

Lemma moves_ask {E B} (f : nat → B) : moves (E := E) (ask f).
Proof. intros s. apply moved_next. Qed.

Lemma moves_same {E B} (f : ostore S → result E B) : moves (effect (λ s, (f s, s))).
Proof. by intros s. Qed.

Lemma moves_if {E B} (b : bool) (m m' : om E B) : moves m → moves m' → moves (if b then m else m').
Proof. by destruct b. Qed.

(** One rule for each construct; calls by the hints. *)
Ltac moving :=
  repeat (lazymatch goal with
    | |- moves (mret _) => apply moves_ret
    | |- moves (fail _) => apply moves_fail
    | |- moves (mbind _ _) => apply moves_bind; [|intros ?]
    | |- moves (or_fail _ _) => apply moves_or_fail
    | |- moves (OAuth2.from_option _ _) => apply moves_from_option
    | |- moves (reads _) => apply moves_reads
    | |- moves (ask _) => apply moves_ask
    | |- moves (if decide _ then _ else _) => case_decide
    | |- moves (if _ then _ else _) => apply moves_if
    | |- moves (match ?x with _ => _ end) => destruct x
    | |- moves (let _ := _ in _) => cbn zeta
    | |- moves _ => solve [eauto with moves]
    end).

Lemma moves_db_call {E} (e : E) : moves (db_call o e).
Proof. unfold db_call. moving. Qed.

Lemma moves_encrypt ns data : moves (encrypt_for_namespace eo ns data).
Proof. intros s. apply moved_next. Qed.

Lemma moves_decrypt ef : moves (decrypt_string (S := S) ef).
Proof. by intros s. Qed.

#[local] Hint Resolve moves_db_call moves_encrypt moves_decrypt : moves.

Lemma moves_get_configuration {E} (e : E) c : moves (get_configuration o e c).
Proof. unfold get_configuration. moving. Qed.

#[local] Hint Resolve moves_get_configuration : moves.

Lemma moves_render c template : moves (renderMustache o c template).
Proof. unfold renderMustache. moving. Qed.

Lemma moves_effectiveScopes c : moves (effectiveScopes o c).
Proof. unfold effectiveScopes. moving. Qed.

Lemma moves_resolveClientCredentials c : moves (resolveClientCredentials o c).
Proof.
  unfold resolveClientCredentials, resolveStoredClientCredentials. moving. intros s. unfold effect. by destruct (GetActiveApiKeyCredential _ _).
Qed.

#[local] Hint Resolve moves_render moves_effectiveScopes moves_resolveClientCredentials : moves.

(** ** Requests *)

(** What requests leave alone. *)
Record same_data (s s' : ostore S) : Prop := {
  sd_tokens : o_tokens s' = o_tokens s;
  sd_caches : o_caches s' = o_caches s;
  sd_log : o_log s' = o_log s
}.

#[local] Instance same_data_preorder : PreOrder same_data.
Proof. split; [by intros s|]. intros s1 s2 s3 [] []. split; congruence. Qed.

Lemma moved_data s s' : moved s s' → same_data s s' ∧ o_sent s' = o_sent s ∧ o_now s' = o_now s.
Proof. intros [n ->]. by split_and!. Qed.

Definition err_of (r : option response) : option unit := match r with Some _ => None | None => Some tt end.

(** A request that may be repeated: no answer, or the server's fault. *)
Definition repeatable (r : option response) : Prop := retryable r (err_of r) = true.

Lemma attempts_sent rq (opts : Options response unit) retries : ∀ attempt v s,
  let s' := (do_attempts (ctx_err o) (post o rq) (wait o) opts retries attempt v s).2 in
  same_data s s' ∧ ∃ rs, o_sent s' = o_sent s ++ map (pair rq) rs.
Proof.
  assert (∀ w s, same_data s (wait o w s).2 ∧ o_sent (wait o w s).2 = o_sent s) as Hwait by (intros w s; unfold wait; by destruct (at_ctx_done o _)).
  assert (∀ s, same_data s (ctx_err o s).2 ∧ o_sent (ctx_err o s).2 = o_sent s) as Hctx by done.
  assert (∀ s, same_data s (post o rq s).2 ∧ o_sent (post o rq s).2 = o_sent s ++ map (pair rq) [(post o rq s).1.1]) as Hpost by done.
  induction retries as [|retries IH]; intros attempt v s; cbn [do_attempts]; destruct (Hctx s) as [Hd0 Hs0].
  all: destruct (ctx_err o s) as [[e|] s0]; cbn [snd] in *; [split; [done|exists []; cbn; by rewrite app_nil_r]|].
  all: destruct (Hpost s0) as [Hd1 Hs1]; destruct (post o rq s0) as [[resp err] s1]; cbn [fst snd] in *; rewrite Hs0 in Hs1.
  all: assert (same_data s s1) as Hd by (by etrans).
  all: destruct (negb _); [by split; [|exists [resp]]|].
  { by split; [|exists [resp]]. }
  destruct (Backoff opts attempt) as [w|]; [|by split; [|exists [resp]]].
  set (w' := match OnRetryWait opts with Some f => _ | None => w end). destruct (Hwait w' s1) as [Hd2 Hs2].
  destruct (wait o w' s1) as [[e|] s2]; cbn [snd] in *; [split; [by etrans|exists [resp]; congruence]|].
  destruct (IH (Datatypes.S attempt) resp s2) as [Hd3 [rs Hs3]]. split; [by do 2 (etrans; [eassumption|])|]. exists (resp :: rs).
  rewrite Hs3, Hs2, Hs1. by rewrite <- app_assoc.
Qed.

(** At most [maxAttempts] requests, all the same, every one but the last
    repeatable; the answer is that to the last, otherwise all are repeatable. *)
Lemma post_with_retry_sent maxAttempts step rq s : (1 ≤ maxAttempts)%Z →
  let '(r, s') := post_with_retry o maxAttempts step rq s in
  same_data s s' ∧ ∃ rs, o_sent s' = o_sent s ++ map (pair rq) rs ∧ (Z.of_nat (length rs) ≤ maxAttempts)%Z ∧
    match r with
    | Ok resp => ∃ l, rs = l ++ [Some resp] ∧ Forall repeatable l
    | Err _ => Forall repeatable rs
    end.
Proof.
  intros Hmax. unfold post_with_retry. set (opts := mkOptions maxAttempts _ _ _).
  set (log := λ s : ostore S, map (λ p : request * option response, (p.2, err_of p.2)) (o_sent s)).
  pose proof (retry_Do_log (ctx_err o) (post o rq) (wait o) log (λ _, eq_refl)
    ltac:(intros s1; unfold log, post; cbn; by rewrite map_app)
    ltac:(intros w s1; unfold log, wait; by destruct (at_ctx_done o (o_n s1))) opts s) as Hlog.
  pose proof (attempts_sent rq opts (Z.to_nat (Z.max 1 (MaxAttempts opts)) - 1) 1 None s) as [Hd [rs Hs]].
  fold (retry_Do (ctx_err o) (post o rq) (wait o) opts s) in Hd, Hs.
  destruct (retry_Do (ctx_err o) (post o rq) (wait o) opts s) as [r s']. cbn [snd] in Hd, Hs.
  destruct Hlog as (outs & Hl & (Hlen & Hall & Hlast) & _). unfold log in Hl. rewrite Hs, map_app in Hl. apply app_inv_head in Hl.
  rewrite map_map in Hl. cbn in Hl. split; [by destruct (r_Err r), (r_Value r)|]. exists rs. split; [done|].
  assert (∀ l, Forall (λ out, retryable out.1 out.2 = true) (map (λ r, (r, err_of r)) l) → Forall repeatable l) as Hrep.
  { intros l. rewrite Forall_map. done. }
  split; [rewrite <- (length_map (λ r, (r, err_of r)) rs), Hl; change (MaxAttempts opts) with maxAttempts in Hlen; lia|].
  assert (∀ l out, outs = l ++ [out] → ∃ l' x, rs = l' ++ [x] ∧ out = (x, err_of x) ∧ Forall repeatable l') as Hend.
  { intros l out Heq. pose proof (Hall l out Heq) as Hf. rewrite Heq in Hl. destruct rs as [|x rs'] using rev_ind; [by destruct l|].
    rewrite map_app in Hl. cbn in Hl. apply app_inj_tail in Hl as [<- <-]. exists rs', x. split_and!; [done|done|]. by apply Hrep. }
  destruct (r_Err r) as [e|] eqn:He, (r_Value r) as [v|] eqn:Hv.
  1, 2: destruct Hlast as [[l Heq]|(e' & _ & Hf)]; [|apply Hrep; by rewrite Hl].
  1, 2: destruct (Hend _ _ Heq) as (l' & [x|] & -> & Hx & Hf); [done|]; apply Forall_app; split; [done|by constructor].
  - destruct Hlast as [[l Heq]|(e' & [=] & _)]. destruct (Hend _ _ Heq) as (l' & x & -> & Hx & Hf). exists l'. by injection Hx as <- _.
  - destruct Hlast as [[l Heq]|(e' & [=] & _)]. destruct (Hend _ _ Heq) as (l' & [x|] & -> & Hx & Hf); done.
Qed.

(** ** Tokens from responses *)

(** One step of a computation that reads. *)
Lemma step_moves {E B B'} (m : om E B) (k : B → om E B') s (P : result E B' * ostore S → Prop) : moves m →
  (∀ e s1, moved s s1 → P (Err e, s1)) → (∀ b s1, m s = (Ok b, s1) → moved s s1 → P (k b s1)) → P ((m ≫= k) s).
Proof.
  intros Hm He Hok. specialize (Hm s). unfold mbind, om_bind. destruct (m s) as [[e|b] s1]; cbn in Hm; [by apply He|by apply Hok].
Qed.

(** [new] is the row that the response gave the connection. *)
Record issued (c : oAuth2Connection) (body : string) (refreshFrom : option OAuth2Token) (s s' : ostore S) (new : OAuth2Token) : Prop := {
  is_access : ∃ resp, parse_token_response body = Some resp ∧ Decrypt (o_caches s) (t_EncryptedAccessToken new) = Ok (tr_AccessToken resp);
  is_from : t_RefreshedFromId new = t_Id <$> refreshFrom;
  is_created : t_CreatedAt new = o_now s;
  is_ok_table : table_ok (o_tokens s');
  is_live c' : get_live c' (o_tokens s') = if decide (c' = oc_Id c) then Some new else get_live c' (o_tokens s)
}.

Definition created_spec (c : oAuth2Connection) (body : string) (refreshFrom : option OAuth2Token) (s : ostore S)
    (x : result string OAuth2Token * ostore S) : Prop :=
  let '(r, s') := x in
  o_sent s' = o_sent s ∧ o_caches s' = o_caches s ∧ o_log s' = o_log s ∧ o_now s' = o_now s ∧
  ((∃ e, r = Err e) ∧ o_tokens s' = o_tokens s ∨ ∃ new, issued c body refreshFrom s s' new ∧ ∀ t, r = Ok t → t = new).

Lemma created c st body refreshFrom persist s : table_ok (o_tokens s) →
  created_spec c body refreshFrom s (createDbTokenFromResponseWithOptions eo o c st body refreshFrom persist s).
Proof.
  intros Hok. unfold createDbTokenFromResponseWithOptions.
  assert (∀ e s1, moved s s1 → created_spec c body refreshFrom s (Err e, s1)) as Herr.
  { intros e s1 [n ->]. split_and!; [done..|]. left. by split; [exists e|]. }
  apply step_moves; [apply moves_from_option|done|]. intros resp s0 Hparse _.
  assert (parse_token_response body = Some resp ∧ s0 = s) as [Hresp ->] by (destruct (parse_token_response body); [by injection Hparse as <- <-|done]).
  case_decide; [by apply Herr|]. apply step_moves; [moving|done|]. intros scopes s1 _ H1. cbn zeta.
  unfold mbind at 1, om_bind at 1. unfold or_fail at 1, encrypt_for_namespace at 1.
  destruct (EncryptForNamespace eo (o_n s1) (o_caches s1) _ _) as [e|access] eqn:Haccess; [apply Herr; etrans; [exact H1|apply moved_next]|].
  assert (moved s (next s1)) as H2 by (etrans; [exact H1|apply moved_next]). apply decrypt_EncryptForNamespace in Haccess; [|apply nonces].
  assert (∀ s1, moved s s1 → ∀ e s2, moved s1 s2 → created_spec c body refreshFrom s (Err e, s2)) as Hstep.
  { intros s2 Hs2 e s3 Hs3. apply Herr. by etrans. }
  apply step_moves; [moving|by apply Hstep|]. intros refreshToken s2 _ H3%(transitivity H2). clear H2.
  apply step_moves; [moving|by apply Hstep|]. intros now s3 [= <- <-] _. cbn zeta.
  apply step_moves; [moving|by apply Hstep|]. intros _ s4 _ H4%(transitivity H3).
  apply step_moves; [moving|by apply Hstep|]. intros newId s5 [= <- <-] _.
  assert (moved s (next s4)) as [n Hs5] by (etrans; [exact H4|apply moved_next]). destruct H3 as [n2 Hs2].
  assert (o_caches s1 = o_caches s) as Hcaches by (by destruct H1 as [? ->]).
  unfold mbind at 1, om_bind at 1. unfold effect, InsertOAuth2Token at 1. rewrite Hs5. cbn [o_now set_n o_tokens].
  match goal with |- context [insert_row _ _ ?new _] => set (row := new) end. destruct (insert_row _ _ row _) as [[e|t] tab'] eqn:Hi.
  { cbn beta iota. apply Herr. by exists n. }
  cbn beta iota. apply insert_row_live in Hi as (-> & Hok' & Hget); [|exact Hok|reflexivity].
  assert (∀ r, (∀ t, r = Ok t → t = row) → created_spec c body refreshFrom s (r, set_tokens tab' (set_n n s))) as Hdone.
  { intros r Hr. split_and!; [done..|]. right. exists row. split; [|done]. split; [|done|done|done|exact Hget].
    exists resp. split; [done|]. by rewrite <- Hcaches. }
  unfold mbind, om_bind. destruct (detectScopeMismatch _ _ _) as [m|]; [|by apply Hdone]. cbn.
  destruct (applyScopeMismatch m); [by apply Hdone|]. apply Hdone. by intros t [= <-].
Qed.

(** ** A refresh *)

(** The request and what follows it. *)
Definition ask_provider (c : oAuth2Connection) (token : OAuth2Token) (rq : request) : om (S := S) tokenRefreshCategory (OAuth2Token * bool) :=
  resp ← or_fail tokenRefreshNetworkError (post_with_retry o tokenRefreshMaxAttempts tokenRefreshBackoffStep rq);
  if decide (rs_StatusCode resp ≠ 200%Z) then fail (classifyTokenRefreshStatus (rs_StatusCode resp) (parse_error (rs_Body resp))).1
  else
    newToken ← or_fail tokenRefreshMalformedResponse
      (createDbTokenFromResponseWithOptions eo o c None (rs_Body resp) (Some token) (SupportsRefreshToken (oc_auth c)));
    mret (newToken, true).

(** Before anything is sent: a failure inside, no refresh token, a token that
    has not expired, or the request for the token in use. *)
Definition refresh_spec (c : oAuth2Connection) (mode : refreshMode) (s : ostore S) (x : result tokenRefreshCategory (OAuth2Token * bool) * ostore S) : Prop :=
  (∃ cat s1, x = (Err cat, s1) ∧ moved s s1 ∧
     (cat = tokenRefreshInternalError ∨
      cat = tokenRefreshNoRefreshToken ∧ SupportsRefreshToken (oc_auth c) = true ∧
        ∃ token, get_live (oc_Id c) (o_tokens s) = Some token ∧ EncryptedField_IsZero (t_EncryptedRefreshToken token) = true)) ∨
  (∃ token s1, x = (Ok (token, false), s1) ∧ moved s s1 ∧ get_live (oc_Id c) (o_tokens s) = Some token ∧
     mode = refreshModeOnlyExpired ∧ IsAccessTokenExpired (o_now s) token = false) ∨
  (∃ token rq s1, x = ask_provider c token rq s1 ∧ moved s s1 ∧ get_live (oc_Id c) (o_tokens s) = Some token ∧
     (mode = refreshModeOnlyExpired → IsAccessTokenExpired (o_now s) token = true)).

Lemma get_token_live {E} (e : store_error → E) unavailable id s token s1 :
  get_token o e unavailable id s = (Ok token, s1) → get_live id (o_tokens s) = Some token ∧ moved s s1.
Proof.
  unfold get_token. unfold mbind, om_bind. pose proof (moves_db_call unavailable s) as Hm. destruct (db_call o unavailable s) as [[|] s0]; [done|].
  cbn in Hm. unfold effect, GetOAuth2Token. destruct (get_live id (o_tokens s0)) as [t|] eqn:Hl; [|done]. intros [= <- <-].
  destruct Hm as [n ->]. split; [exact Hl|by exists n].
Qed.

Lemma moves_get_token {E} (e : store_error → E) unavailable id : moves (get_token o e unavailable id).
Proof. unfold get_token. moving. intros s. unfold effect. by destruct (GetOAuth2Token _ _). Qed.

Lemma moves_lock : moves (lock_tokens (S := S) o).
Proof. unfold lock_tokens. moving. Qed.

#[local] Hint Resolve moves_get_token moves_lock : moves.

Lemma or_fail_err {E E' B} (e : E') (m : om (S := S) E B) s x s1 : or_fail e m s = (Err x, s1) → x = e.
Proof. unfold or_fail. destruct (m s) as [[?|?] ?]; [by intros [= <- _]|done]. Qed.

(** A step whose failures are of one category. *)
Lemma step_category {E B B'} (cat : E) (m : om E B) (k : B → om E B') s (P : result E B' * ostore S → Prop) : moves m →
  (∀ e s1, m s = (Err e, s1) → e = cat) → (∀ s1, moved s s1 → P (Err cat, s1)) → (∀ b s1, m s = (Ok b, s1) → moved s s1 → P (k b s1)) → P ((m ≫= k) s).
Proof.
  intros Hm Hcat He Hok. specialize (Hm s). unfold mbind, om_bind. destruct (m s) as [[e|b] s1] eqn:Hms; cbn in Hm; [|by apply Hok].
  rewrite (Hcat e s1 eq_refl). by apply He.
Qed.

Lemma refresh_cases c mode s : refresh_spec c mode s (refresh_token_at_provider eo o c mode s).
Proof.
  assert (∀ s1, moved s s1 → refresh_spec c mode s (Err tokenRefreshInternalError, s1)) as Hint.
  { intros s1 H1. left. exists tokenRefreshInternalError, s1. auto. }
  assert (∀ s0, moved s s0 → ∀ s1, moved s0 s1 → refresh_spec c mode s (Err tokenRefreshInternalError, s1)) as Hint'.
  { intros s0 H0 s1 H1. apply Hint. by etrans. }
  unfold refresh_token_at_provider.
  apply (step_category tokenRefreshInternalError); [moving| |done|].
  { intros e s1. unfold lock_tokens, ask, mbind, om_bind. destruct (at_lock_fails o (o_n s)); [by intros [= <- _]|done]. }
  intros _ s1 _ H1. apply (step_category tokenRefreshInternalError); [moving| |by apply Hint'|].
  { intros e s2. unfold get_token, db_call, ask, effect, mbind, om_bind. destruct (at_db_fails o (o_n s1)); [by intros [= <- _]|]. cbn.
    destruct (GetOAuth2Token _ _); [by intros [= <- _]|done]. }
  intros token s2 Hget _. apply get_token_live in Hget as [Hlive H2]. assert (moved s s2) as H2' by (by etrans). clear H2.
  assert (get_live (oc_Id c) (o_tokens s) = Some token) as Hlive' by (by destruct H1 as [n ->]).
  apply (step_category tokenRefreshInternalError); [moving|done|by apply Hint'|]. intros now s3 [= <- <-] _.
  assert (o_now s2 = o_now s) as Hnow by (by destruct H2' as [n ->]). rewrite Hnow.
  destruct (bool_decide (mode = refreshModeOnlyExpired) && negb (IsAccessTokenExpired (o_now s) token)) eqn:Hexp.
  { apply andb_true_iff in Hexp as [Hmode%bool_decide_eq_true Hexp%negb_true_iff]. right. left. by exists token, s2. }
  assert (mode = refreshModeOnlyExpired → IsAccessTokenExpired (o_now s) token = true) as Hexp'.
  { intros ->. rewrite bool_decide_true in Hexp by done. by apply negb_false_iff in Hexp. }
  destruct (EncryptedField_IsZero (t_EncryptedRefreshToken token) && SupportsRefreshToken (oc_auth c)) eqn:Hzero.
  { apply andb_true_iff in Hzero as [Hz Hs]. left. exists tokenRefreshNoRefreshToken, s2. split_and!; [done|done|]. right. split_and!; [done|done|by exists token]. }
  apply (step_category tokenRefreshInternalError); [moving|by intros ? ? ?%or_fail_err|by apply Hint'|]. intros client s4 _ H4%(transitivity H2').
  apply (step_category tokenRefreshInternalError); [moving|by intros ? ? ?%or_fail_err|by apply Hint'|]. intros endpoint s5 _ H5%(transitivity H4).
  apply (step_category tokenRefreshInternalError); [moving| |by apply Hint'|].
  { intros e s6. destruct (SupportsRefreshToken (oc_auth c)); unfold mbind, om_bind; destruct (or_fail _ _ s5) as [[x|x] s7] eqn:Hof; try done;
      intros [= <- _]; by apply or_fail_err in Hof. }
  intros values s6 _ H6%(transitivity H5).
  destruct (applyTokenEndpointClientAuth _ _ _ values) as [[vs header]|]; [|by apply Hint].
  right. right. exists token, (mkRequest endpoint [] vs header), s6. split_and!; [reflexivity|done..].
Qed.

(** How the requests of a refresh end: [rs] are the answers, oldest first. *)
Inductive provider_end (c : oAuth2Connection) (token : OAuth2Token) (s s' : ostore S) :
    list (option response) → result tokenRefreshCategory (OAuth2Token * bool) → Prop :=
  | EndNetwork rs : Forall repeatable rs → o_tokens s' = o_tokens s → provider_end c token s s' rs (Err tokenRefreshNetworkError)
  | EndStatus l resp : Forall repeatable l → rs_StatusCode resp ≠ 200%Z → o_tokens s' = o_tokens s →
      provider_end c token s s' (l ++ [Some resp]) (Err (classifyTokenRefreshStatus (rs_StatusCode resp) (parse_error (rs_Body resp))).1)
  | EndRefused l resp : Forall repeatable l → rs_StatusCode resp = 200%Z →
      (o_tokens s' = o_tokens s ∨ ∃ s0 new, issued c (rs_Body resp) (Some token) s0 s' new ∧ same_data s s0) →
      provider_end c token s s' (l ++ [Some resp]) (Err tokenRefreshMalformedResponse)
  | EndIssued l resp s0 new : Forall repeatable l → rs_StatusCode resp = 200%Z →
      issued c (rs_Body resp) (Some token) s0 s' new → same_data s s0 → o_now s' = o_now s0 →
      provider_end c token s s' (l ++ [Some resp]) (Ok (new, true)).

Lemma asked c token rq s : table_ok (o_tokens s) → let '(r, s') := ask_provider c token rq s in
  o_caches s' = o_caches s ∧ o_log s' = o_log s ∧
  ∃ rs, o_sent s' = o_sent s ++ map (pair rq) rs ∧ (length rs ≤ 3)%nat ∧ provider_end c token s s' rs r.
Proof.
  intros Hok. unfold ask_provider. unfold mbind, om_bind. unfold or_fail.
  pose proof (post_with_retry_sent tokenRefreshMaxAttempts tokenRefreshBackoffStep rq s ltac:(done)) as Hpost.
  destruct (post_with_retry o _ _ rq s) as [[e|resp] s0]; destruct Hpost as (Hd & rs & Hs & Hlen & Hend).
  { destruct Hd. split_and!; [done|done|]. exists rs. split_and!; [done|unfold tokenRefreshMaxAttempts in Hlen; lia|by constructor]. }
  assert (length rs ≤ 3)%nat as Hlen' by (unfold tokenRefreshMaxAttempts in Hlen; lia). destruct Hend as (l & -> & Hl). cbn beta iota.
  case_decide as Hst.
  { cbn beta iota. destruct Hd. split_and!; [done|done|]. exists (l ++ [Some resp]). split_and!; [done|done|by constructor]. }
  pose proof (created c None (rs_Body resp) (Some token) (SupportsRefreshToken (oc_auth c)) s0) as Hc. unfold created_spec in Hc.
  destruct (createDbTokenFromResponseWithOptions _ _ _ _ _ _ _ s0) as [[e|t] s1]; destruct Hc as (Hs1 & Hc1 & Hl1 & Hn1 & Hc); [by rewrite (sd_tokens _ _ Hd)| |by rewrite (sd_tokens _ _ Hd)|].
  all: destruct Hd as [Hd1 Hd2 Hd3]; split_and!; [congruence|congruence|]; exists (l ++ [Some resp]); split_and!; [congruence|done|].
  - constructor; [done|done|]. destruct Hc as [[_ Ht]|(new & Hnew & _)]; [left; congruence|right; by exists s0, new].
  - destruct Hc as [[[e [=]] _]|(new & Hnew & Ht)]. rewrite (Ht t eq_refl). by econstructor.
Qed.

(** ** On the connection *)

Context {A : AuthStore (S := S)} {caller : Caller}.
Hypothesis auth_get_put : ∀ s a, auth_get (auth_put s a) = s.

Definition store_of (w : world) : ostore S := auth_get (w_auth w).

(** Marking a healthy or unhealthy connection, when the row can be written. *)
Lemma marked h w : IsValidConnectionHealthState h = true → h ≠ "" → w_faults w = [] → w_db w = Some (w_mem w) →
  ∃ c, w_db (MarkHealthState h w).2 = Some c ∧ GetHealthState c = h.
Proof.
  intros Hv Hne Hf Hdb. unfold MarkHealthState. rewrite Hv. unfold mbind, op_bind, mem. case_decide as Hd; [by exists (w_mem w)|].
  unfold or_else, SetConnectionHealthState. rewrite Hv. unfold db_update, in_memory, call_out, primitive, mbind, op_bind.
  rewrite Hf, Hdb. cbn. eexists. split; [done|]. unfold GetHealthState. cbn. by rewrite decide_False.
Qed.

Lemma logged e w : log_event e w = (Ok tt, with_auth (auth_put (add_event e (store_of w)) (w_auth w)) w).
Proof. done. Qed.

(** What a refresh leaves behind. *)
Record refreshed (w w' : world) (mode : refreshMode) (rs : list (option response)) (r : result op_error OAuth2Token) : Prop := {
  rf_sent : ∃ rq, o_sent (store_of w') = o_sent (store_of w) ++ map (pair rq) rs;
  rf_bound : (length rs ≤ 3)%nat;
  rf_repeat l x : rs = l ++ [x] → Forall repeatable l;
  rf_caches : o_caches (store_of w') = o_caches (store_of w);
  rf_table : table_ok (o_tokens (store_of w'));
  rf_others c' : c' ≠ c_Id (w_mem w) → get_live c' (o_tokens (store_of w')) = get_live c' (o_tokens (store_of w));
  rf_ok token : r = Ok token → get_live (c_Id (w_mem w)) (o_tokens (store_of w')) = Some token ∧
    ((rs = [] ∧ mode = refreshModeOnlyExpired ∧ o_tokens (store_of w') = o_tokens (store_of w) ∧
      IsAccessTokenExpired (o_now (store_of w')) token = false) ∨
     ∃ l resp old body, rs = l ++ [Some resp] ∧ rs_StatusCode resp = 200%Z ∧ parse_token_response (rs_Body resp) = Some body ∧
       get_live (c_Id (w_mem w)) (o_tokens (store_of w)) = Some old ∧ t_RefreshedFromId token = Some (t_Id old) ∧
       t_CreatedAt token = o_now (store_of w') ∧ Decrypt (o_caches (store_of w')) (t_EncryptedAccessToken token) = Ok (tr_AccessToken body));
  rf_err e : r = Err e → ∃ cat, o_log (store_of w') = o_log (store_of w) ++ [RefreshFailed cat] ∧
    (∀ l resp, rs = l ++ [Some resp] → rs_StatusCode resp ≠ 200%Z → (rs_StatusCode resp < 500)%Z →
       cat = (classifyTokenRefreshStatus (rs_StatusCode resp) (parse_error (rs_Body resp))).1) ∧
    (IsPermanent cat = false → w_db w' = w_db w ∧ o_tokens (store_of w') = o_tokens (store_of w)) ∧
    (IsPermanent cat = true → w_faults w = [] → w_db w = Some (w_mem w) →
       ∃ c, w_db w' = Some c ∧ GetHealthState c = ConnectionHealthStateUnhealthy)
}.

(** What is recorded after the provider was asked. *)
Lemma recorded w s1 cat : let w1 := with_auth (auth_put s1 (w_auth w)) w in
  let '(r, w') := classifyAndRecordRefreshFailure (B := OAuth2Token) cat w1 in
  r = Err Failed ∧ store_of w' = add_event (RefreshFailed cat) s1 ∧
  (IsPermanent cat = false → w_db w' = w_db w) ∧
  (IsPermanent cat = true → w_faults w = [] → w_db w = Some (w_mem w) → ∃ c, w_db w' = Some c ∧ GetHealthState c = ConnectionHealthStateUnhealthy).
Proof.
  intros w1. unfold classifyAndRecordRefreshFailure. unfold mbind at 1, op_bind at 1. rewrite logged. cbn beta iota. set (w2 := with_auth _ w1).
  assert (store_of w2 = add_event (RefreshFailed cat) s1) as Hs by (unfold w2, w1, store_of; cbn [w_auth with_auth]; by rewrite !auth_get_put).
  unfold mbind, op_bind. destruct (IsPermanent cat).
  - unfold ignore. pose proof (calm_auth _ _ (calm_MarkHealthState ConnectionHealthStateUnhealthy w2)) as Hc.
    pose proof (marked ConnectionHealthStateUnhealthy w2 eq_refl ltac:(done)) as Hm.
    destruct (MarkHealthState ConnectionHealthStateUnhealthy w2) as [r w3]; cbn [fst snd] in *. unfold throw. split_and!; [done| |done|].
    + unfold store_of. by rewrite Hc.
    + intros _ Hf Hdb. by apply Hm.
  - cbn. by split_and!.
Qed.

Lemma repeatable_status resp : repeatable (Some resp) → (500 ≤ rs_StatusCode resp)%Z.
Proof. unfold repeatable, retryable. cbn. by intros ?%Z.leb_le. Qed.

Lemma last_inj {T} (l l' : list T) x x' : l ++ [x] = l' ++ [x'] → l = l' ∧ x = x'.
Proof. apply app_inj_tail. Qed.

(** Nothing was sent. *)
Lemma recorded_before w s1 mode cat : table_ok (o_tokens (store_of w)) → moved (store_of w) s1 →
  let '(r, w') := classifyAndRecordRefreshFailure (B := OAuth2Token) cat (with_auth (auth_put s1 (w_auth w)) w) in refreshed w w' mode [] r.
Proof.
  intros Hok [n Hn]. pose proof (recorded w s1 cat) as Hr. cbn zeta in Hr. destruct (classifyAndRecordRefreshFailure cat _) as [r w'].
  destruct Hr as (-> & Hs & Hdb & Hm). split; rewrite ?Hs, ?Hn.
  - exists (mkRequest "" [] ∅ ""). cbn. by rewrite app_nil_r.
  - cbn. lia.
  - intros l x Heq. by destruct l.
  - done.
  - done.
  - done.
  - done.
  - intros e _. exists cat. split_and!; [done|intros l resp Heq; by destruct l| |done]. intros Hp. split; [by apply Hdb|done].
Qed.

(** The provider was asked, and the refresh failed. *)
Lemma recorded_after w mode c token rq rs s1 s2 cat : oc_Id c = c_Id (w_mem w) → table_ok (o_tokens (store_of w)) → moved (store_of w) s1 →
  o_caches s2 = o_caches s1 → o_log s2 = o_log s1 → o_sent s2 = o_sent s1 ++ map (pair rq) rs → (length rs ≤ 3)%nat →
  provider_end c token s1 s2 rs (Err cat) →
  let '(r, w') := classifyAndRecordRefreshFailure (B := OAuth2Token) cat (with_auth (auth_put s2 (w_auth w)) w) in refreshed w w' mode rs r.
Proof.
  intros Hid Hok [n Hn] Hc Hl Hs Hlen Hend. pose proof (recorded w s2 cat) as Hr. cbn zeta in Hr. destruct (classifyAndRecordRefreshFailure cat _) as [r w'].
  destruct Hr as (-> & Hst & Hdb & Hm). rewrite Hn in Hc, Hl, Hs. cbn in Hc, Hl, Hs.
  assert (o_tokens s1 = o_tokens (store_of w)) as Ht1 by (by rewrite Hn).
  assert ((table_ok (o_tokens s2) ∧ ∀ c', c' ≠ oc_Id c → get_live c' (o_tokens s2) = get_live c' (o_tokens (store_of w))) ∧
          (IsPermanent cat = false → o_tokens s2 = o_tokens (store_of w)) ∧ (∀ l x, rs = l ++ [x] → Forall repeatable l) ∧
          (∀ l resp, rs = l ++ [Some resp] → rs_StatusCode resp ≠ 200%Z → (rs_StatusCode resp < 500)%Z →
             cat = (classifyTokenRefreshStatus (rs_StatusCode resp) (parse_error (rs_Body resp))).1)) as ([Hok' Hother] & Htrans & Hrep & Hcat).
  { inversion Hend as [rs' Hf Ht|l resp Hf Hne Ht|l resp Hf Heq Ht|]; subst.
    - rewrite Ht, Ht1. split_and!; [done..|by intros l x ->; apply Forall_app in Hf as [? _]|].
      intros l resp -> _ Hlt. apply Forall_app in Hf as [_ Hf%Forall_singleton%repeatable_status]. lia.
    - rewrite Ht, Ht1. split_and!; [done..|by intros l' x [<- _]%last_inj|]. intros l' resp' [_ [= <-]]%last_inj. done.
    - split_and!; [| |done|by intros l' x [<- _]%last_inj|by intros l' resp' [_ [= <-]]%last_inj].
      + destruct Ht as [->|(s0 & new & Hi & _)]; [by rewrite Ht1|apply Hi].
      + intros c' Hne. destruct Ht as [->|(s0 & new & Hi & Hd)]; [by rewrite Ht1|].
        by rewrite (is_live _ _ _ _ _ _ Hi), decide_False, (sd_tokens _ _ Hd), Ht1. }
  split; rewrite ?Hst; cbn [o_sent o_caches o_tokens o_log add_event].
  - by exists rq.
  - done.
  - done.
  - done.
  - done.
  - rewrite <- Hid. done.
  - done.
  - intros e _. exists cat. split_and!; [by rewrite Hl|done| |done]. intros Hp. split; [by apply Hdb|by apply Htrans].
Qed.

(** The token in use is returned, or the provider issued another. *)
Lemma succeeded w mode c token rq rs s1 s2 new : oc_Id c = c_Id (w_mem w) → moved (store_of w) s1 →
  get_live (oc_Id c) (o_tokens (store_of w)) = Some token →
  o_caches s2 = o_caches s1 → o_sent s2 = o_sent s1 ++ map (pair rq) rs → (length rs ≤ 3)%nat →
  provider_end c token s1 s2 rs (Ok (new, true)) → ∀ w', store_of w' = add_event RefreshSucceeded s2 → refreshed w w' mode rs (Ok new).
Proof.
  intros Hid [n Hn] Hlive Hc Hs Hlen Hend w' Hst. rewrite Hn in Hc, Hs. cbn in Hc, Hs.
  inversion Hend as [| | |l resp s0 new' Hf Hok200 Hi Hd Hnow]; subst rs new'.
  assert (o_tokens s0 = o_tokens (store_of w)) as Ht by (rewrite (sd_tokens _ _ Hd), Hn; done).
  assert (o_caches s0 = o_caches (store_of w)) as Hcs by (rewrite (sd_caches _ _ Hd), Hn; done).
  split; rewrite ?Hst; cbn [o_sent o_caches o_tokens o_log o_now add_event].
  - by exists rq.
  - done.
  - by intros l' x [<- _]%last_inj.
  - done.
  - apply Hi.
  - intros c' Hne. rewrite <- Hid in Hne. by rewrite (is_live _ _ _ _ _ _ Hi), decide_False, Ht.
  - intros t [= <-]. rewrite <- Hid. split; [by rewrite (is_live _ _ _ _ _ _ Hi), decide_True|]. right.
    destruct (is_access _ _ _ _ _ _ Hi) as (body & Hb & Hdec). exists l, resp, token, body.
    split_and!; [done|done|done|done|apply Hi|by rewrite Hnow; apply Hi|]. by rewrite Hc, <- Hcs.
  - done.
Qed.

Lemma refresh_step d a mode w : table_ok (o_tokens (store_of w)) →
  let '(r, w') := refreshAccessToken eo o d a mode w in ∃ rs, refreshed w w' mode rs r.
Proof.
  intros Hok. unfold refreshAccessToken. unfold mbind at 1, op_bind at 1. unfold mem. cbn beta iota.
  set (c := newOAuth2 d a (w_mem w)). unfold mbind at 1, op_bind at 1. unfold in_store. fold (store_of w).
  destruct (refresh_cases c mode (store_of w)) as [(cat & s1 & -> & Hm & _)|[(token & s1 & -> & Hm & Hlive & Hmode & Hexp)|(token & rq & s1 & -> & Hm & Hlive & _)]].
  - cbn beta iota. pose proof (recorded_before w s1 mode cat Hok Hm) as Hr. destruct (classifyAndRecordRefreshFailure cat _) as [r w']. by exists [].
  - cbn beta iota. unfold mret, op_ret. exists []. destruct Hm as [n ->].
    split; unfold store_of in *; cbn [w_auth with_auth]; rewrite ?auth_get_put; cbn [o_sent o_caches o_tokens o_now set_n].
    + exists (mkRequest "" [] ∅ ""). cbn. by rewrite app_nil_r.
    + cbn. lia.
    + intros l x Heq. by destruct l.
    + done.
    + done.
    + done.
    + intros t [= <-]. split; [done|]. left. by split_and!.
    + done.
  - pose proof (asked c token rq s1) as Ha. destruct (ask_provider c token rq s1) as [r s2].
    destruct Ha as (Hc & Hl & rs & Hs & Hlen & Hend); [by destruct Hm as [n ->]|]. cbn beta iota. destruct r as [cat|[new b]].
    + pose proof (recorded_after w mode c token rq rs s1 s2 cat eq_refl Hok Hm Hc Hl Hs Hlen Hend) as Hr.
      destruct (classifyAndRecordRefreshFailure cat _) as [r w']. by exists rs.
    + assert (b = true) as -> by (by inversion Hend). unfold mbind, op_bind. unfold ignore. set (w1 := with_auth (auth_put s2 (w_auth w)) w).
      pose proof (calm_auth _ _ (calm_MarkHealthState ConnectionHealthStateHealthy w1)) as Hw2.
      destruct (MarkHealthState ConnectionHealthStateHealthy w1) as [r2 w2]; cbn [fst snd] in *. rewrite logged. exists rs.
      apply (succeeded w mode c token rq rs s1 s2); [reflexivity|exact Hm|exact Hlive|exact Hc|exact Hs|exact Hlen|exact Hend|].
      unfold store_of. cbn [w_auth with_auth]. rewrite auth_get_put, Hw2. unfold w1. cbn [w_auth with_auth]. by rewrite auth_get_put.
Qed.


(** The token that [getValidToken] returns. *)
Lemma valid_token d a w : table_ok (o_tokens (store_of w)) → let '(r, w') := getValidToken eo o d a w in
  ∀ token, r = Ok token → table_ok (o_tokens (store_of w')) ∧ get_live (c_Id (w_mem w)) (o_tokens (store_of w')) = Some token ∧
    (IsAccessTokenExpired (o_now (store_of w')) token = false ∨
     t_CreatedAt token = o_now (store_of w') ∧ ∃ rq resp body, (rq, Some resp) ∈ o_sent (store_of w') ∧ rs_StatusCode resp = 200%Z ∧
       parse_token_response (rs_Body resp) = Some body ∧ Decrypt (o_caches (store_of w')) (t_EncryptedAccessToken token) = Ok (tr_AccessToken body)).
Proof.
  intros Hok. unfold getValidToken. unfold mbind at 1, op_bind at 1. unfold mem. cbn beta iota.
  unfold mbind at 1, op_bind at 1. unfold in_store. fold (store_of w).
  match goal with |- context [get_token o ?e ?u ?id ?s] => pose proof (get_token_live e u id s) as Hg; destruct (get_token o e u id s) as [r s1] end.
  cbn beta iota. set (w1 := with_auth (auth_put s1 (w_auth w)) w). assert (store_of w1 = s1) as Hw1 by (unfold store_of; cbn; by rewrite auth_get_put).
  destruct r as [e|t]; [done|]. destruct (Hg t s1 eq_refl) as [Hlive [n Hn]]. unfold mbind, op_bind. unfold primitive. fold (store_of w1).
  destruct (IsAccessTokenExpired (o_now (store_of w1)) t) eqn:Hexp.
  - assert (table_ok (o_tokens (store_of w1))) as Hok1 by (by rewrite Hw1, Hn).
    pose proof (refresh_step d a refreshModeOnlyExpired w1 Hok1) as Hr. destruct (refreshAccessToken eo o d a refreshModeOnlyExpired w1) as [r w2].
    destruct Hr as [rs Hr]. intros token ->. destruct (rf_ok _ _ _ _ _ Hr token eq_refl) as [Hl Hor]. split; [apply Hr|]. split; [exact Hl|].
    destruct Hor as [(_ & _ & _ & Hne)|(l & resp & old & body & -> & H200 & Hb & _ & _ & Hcr & Hdec)]; [by left|right]. split; [done|].
    destruct (rf_sent _ _ _ _ _ Hr) as [rq Hs]. exists rq, resp, body. split_and!; [|done..]. rewrite Hs, map_app. cbn. set_solver.
  - intros token [= <-]. rewrite Hw1, Hn in *. split_and!; [done|done|by left].
Qed.

Lemma resolve_step d a w app w' : table_ok (o_tokens (store_of w)) → Resolve eo o d a w = (Ok app, w') →
  table_ok (o_tokens (store_of w')) ∧
  ∃ token access, GetOAuth2Token (c_Id (w_mem w)) (o_tokens (store_of w')) = Ok token ∧
    Decrypt (o_caches (store_of w')) (t_EncryptedAccessToken token) = Ok access ∧ app = [("Authorization", "Bearer " +:+ access)] ∧
    (IsAccessTokenExpired (o_now (store_of w')) token = false ∨
     t_CreatedAt token = o_now (store_of w') ∧ ∃ rq resp body, (rq, Some resp) ∈ o_sent (store_of w') ∧ rs_StatusCode resp = 200%Z ∧
       parse_token_response (rs_Body resp) = Some body ∧ tr_AccessToken body = access).
Proof.
  intros Hok. unfold Resolve. unfold mbind at 1, op_bind at 1. pose proof (valid_token d a w Hok) as Hv.
  destruct (getValidToken eo o d a w) as [[e|token] w1]; [done|]. destruct (Hv token eq_refl) as (Hok1 & Hlive & Hcur).
  unfold mbind, op_bind. unfold in_store, decrypt_string. fold (store_of w1).
  destruct (Decrypt (o_caches (store_of w1)) (t_EncryptedAccessToken token)) as [e|access] eqn:Hdec; [done|]. intros [= <- <-].
  assert (store_of (with_auth (auth_put (store_of w1) (w_auth w1)) w1) = store_of w1) as -> by (unfold store_of; cbn; by rewrite auth_get_put).
  split; [done|]. exists token, access. unfold GetOAuth2Token. rewrite Hlive. split_and!; [done..|].
  destruct Hcur as [Hexp|(Hcr & rq & resp & body & Hin & H200 & Hb & Hdec')]; [by left|right]. split; [done|]. exists rq, resp, body.
  split_and!; [done..|]. congruence.
Qed.

(** C9: requests are made with the credentials in use.  When a connection
    resolves its credentials, the header carries the access token of the row
    that is in use at that time, as the provider issued it; the token has not
    expired, with the margin of 30 seconds, unless the provider issued it in
    this very call. *)
Theorem oauth_credentials_current d a w app w' : table_ok (o_tokens (store_of w)) → Resolve eo o d a w = (Ok app, w') →
  table_ok (o_tokens (store_of w')) ∧
  ∃ token access, GetOAuth2Token (c_Id (w_mem w)) (o_tokens (store_of w')) = Ok token ∧
    Decrypt (o_caches (store_of w')) (t_EncryptedAccessToken token) = Ok access ∧ app = [("Authorization", "Bearer " +:+ access)] ∧
    (IsAccessTokenExpired (o_now (store_of w')) token = false ∨
     t_CreatedAt token = o_now (store_of w') ∧ ∃ rq resp body, (rq, Some resp) ∈ o_sent (store_of w') ∧ rs_StatusCode resp = 200%Z ∧
       parse_token_response (rs_Body resp) = Some body ∧ tr_AccessToken body = access).
Proof. apply resolve_step. Qed.
End refresh.
