(* ===== verification/Proxy.v ===== *)
(** * Proxied requests

    Package [proxy] (internal/proxy/proxy.go): a request of a caller goes to the
    upstream with the credentials of the connection, once more after a 401 when
    the credentials can be renewed, as a whole ([ProxyRequest]) or streamed
    ([ProxyRequestRaw]).  What a method of authentication promises to the proxy
    is the class [Authenticator] with its laws; the proxy is proved against the
    class, and the three methods discharge it. *)

From S2P Require Import Prelude GoNumbers GoStrings Namespace RateRules SetupFlow Connection ConnectionFrames Actors Redis KeyMaterial Encryption EncryptService OAuth2Config CredentialStore OAuth2 HttpHeaders ApiKey OAuth2Refresh.
Open Scope string_scope.
Open Scope list_scope.

(** ** The interface of auth methods *)

Inductive recovery : Type := Recovered | CannotRecover | RecoveryFailed.

#[export] Instance recovery_eq_dec : EqDecision recovery.
Proof. solve_decision. Defined.

(** [auth_methods.Authenticator] of a connection; [W] is what it works on. *)
Class Authenticator (W : Type) := {
  au_Resolve : W → option AuthApplication * W;
  au_RecoverFrom401 : W → recovery * W;
  au_Refresh : W → bool * W;
  au_SupportsRevoke : bool;
  au_Revoke : W → bool * W
}.

(** What it promises: [au_in_use w app] says that requests made at [w] are to
    have [app]. *)
Class AuthenticatorLaws (W : Type) {A : Authenticator W} := {
  au_ok : W → Prop;
  au_in_use : W → AuthApplication → Prop;
  au_distinct w app : au_in_use w app → NoDup (map (λ kv, CanonicalHeaderKey kv.1) (app_Headers app)) ∧ NoDup (map fst (app_QueryParams app));
  au_resolves w app w' : au_ok w → au_Resolve w = (Some app, w') → au_in_use w' app;
  au_resolve_ok w : au_ok w → au_ok (au_Resolve w).2;
  au_recover_ok w : au_ok w → au_ok (au_RecoverFrom401 w).2
}.

(** ** Requests and responses *)

Inductive body : Type := BodyJson (json : string) | BodyRaw (bytes : string).

(** [iface.ProxyRequest]; the headers in the order they are visited. *)
Record ProxyRequest := mkPxRequest {
  pq_URL : string;
  pq_Method : string;
  pq_Headers : list (string * list string);
  pq_Body : body
}.

(** A request on the wire: the URL without its query. *)
Record httpRequest := mkHttpRequest {
  hq_Method : string;
  hq_URL : string;
  hq_Query : Values;
  hq_Header : Header;
  hq_Body : body
}.

(** What a [Read] returns: bytes, and an error or the end. *)
Inductive read_end : Type := EOF | ReadFailed.

Record httpResponse := mkHttpResponse {
  hr_StatusCode : Z;
  hr_Header : Header;
  hr_Trailer : list (string * list string);
  hr_Body : list (string * option read_end)
}.

(** URL parsing and what the HTTP client adds for a JSON body. *)
Class HttpLib := {
  parse_url : string → option (string * Values);
  json_headers : Header → Header;
  json_valid : string → bool;
  visit_header : Header → list (string * list string)
}.

Class HttpLibLaws (L : HttpLib) : Prop := {
  visit_header_all h : visit_header h ≡ₚ map_to_list h
}.

(** What the [n]-th call outside does. *)
Record upstream := mkUpstream {
  up_send : nat → httpRequest → option httpResponse;
  up_write : nat → string → nat * bool               (** bytes taken, and an error *)
}.

Section proxy.
Context {W : Type} {A : Authenticator W} {L : HttpLib} (up : upstream).

Record pstate := mkPstate {
  ps_auth : W;
  ps_n : nat;
  ps_sent : list (httpRequest * option httpResponse);   (** oldest first *)
  ps_probes : nat                                       (** calls of [EnqueueProbeNow] *)
}.

Definition with_ps_auth (w : W) (s : pstate) : pstate := mkPstate w (ps_n s) (ps_sent s) (ps_probes s).

(** [ProxyRequest.Apply]. *)
Definition Apply (req : ProxyRequest) : option httpRequest :=
  match parse_url (pq_URL req) with
  | None => None
  | Some (u, q) =>
      let h := foldl (λ h '(k, vv), foldl (λ h v, Header_Add k v h) h vv) ∅ (pq_Headers req) in
      let h := match pq_Body req with BodyJson _ => json_headers h | BodyRaw _ => h end in
      Some (mkHttpRequest (pq_Method req) u q h (pq_Body req))
  end.

(** The credentials are set last and replace what is there. *)
Definition with_credentials (app : AuthApplication) (rq : httpRequest) : httpRequest :=
  mkHttpRequest (hq_Method rq) (hq_URL rq) (Values_Set_all (app_QueryParams app) (hq_Query rq))
    (foldl (λ h kv, Header_Set kv.1 kv.2 h) (hq_Header rq) (app_Headers app)) (hq_Body rq).

(** One exchange of the HTTP client, with the redirects it follows. *)
Definition transmit (rq : httpRequest) (s : pstate) : option httpResponse * pstate :=
  let r := up_send up (ps_n s) rq in
  (r, mkPstate (ps_auth s) (Datatypes.S (ps_n s)) (ps_sent s ++ [(rq, r)]) (ps_probes s)).

Definition send (req : ProxyRequest) (s : pstate) : option httpResponse * pstate :=
  let '(app, w) := au_Resolve (ps_auth s) in
  let s := with_ps_auth w s in
  match app with
  | None => (None, s)
  | Some app =>
      match Apply req with
      | None => (None, s)
      | Some rq => transmit (with_credentials app rq) s
      end
  end.

Definition StatusUnauthorized : Z := 401.
Definition StatusForbidden : Z := 403.

Definition maybeAccelerateProbes (accelerator : bool) (reqType : RequestType) (statusCode : Z) (s : pstate) : pstate :=
  if negb accelerator then s
  else if decide (reqType = RequestTypeProbe) then s
  else if negb (statusCode =? StatusUnauthorized)%Z && negb (statusCode =? StatusForbidden)%Z then s
  else mkPstate (ps_auth s) (ps_n s) (ps_sent s) (Datatypes.S (ps_probes s)).

(** [ProxyResponse], with the body read as JSON or as bytes. *)
Record ProxyResponse := mkProxyResponse {
  px_StatusCode : Z;
  px_Headers : gmap string string;
  px_Body : body
}.

Fixpoint read_all (reads : list (string * option read_end)) : string :=
  match reads with
  | [] => ""
  | (chunk, Some _) :: _ => chunk
  | (chunk, None) :: reads => chunk +:+ read_all reads
  end.

Definition ProxyResponseFromGentlemen (resp : httpResponse) : option ProxyResponse :=
  let headers := omap (λ vv, match vv with [] => None | [v] => Some v | _ => Some (String.concat ", " vv) end) (hr_Header resp) in
  let bytes := read_all (hr_Body resp) in
  if HasPrefix (Header_Get "Content-Type" (hr_Header resp)) "application/json" then
    if json_valid bytes then Some (mkProxyResponse (hr_StatusCode resp) headers (BodyJson bytes)) else None
  else Some (mkProxyResponse (hr_StatusCode resp) headers (BodyRaw bytes)).

(** Once more after a 401, if the credentials could be renewed; the first
    response stays when that fails. *)
Definition retry_after_401 (resend : pstate → option httpResponse * pstate) (resp : httpResponse) (s : pstate) : httpResponse * pstate :=
  if (hr_StatusCode resp =? StatusUnauthorized)%Z then
    let '(r, w) := au_RecoverFrom401 (ps_auth s) in
    let s := with_ps_auth w s in
    match r with
    | Recovered => match resend s with (Some retried, s) => (retried, s) | (None, s) => (resp, s) end
    | CannotRecover | RecoveryFailed => (resp, s)
    end
  else (resp, s).

Definition proxy_ProxyRequest (accelerator : bool) (reqType : RequestType) (req : ProxyRequest) (s : pstate) : option ProxyResponse * pstate :=
  match send req s with
  | (None, s) => (None, s)
  | (Some resp, s) =>
      let '(resp, s) := retry_after_401 (send req) resp s in
      let s := maybeAccelerateProbes accelerator reqType (hr_StatusCode resp) s in
      (ProxyResponseFromGentlemen resp, s)
  end.

(** ** Streaming *)

(** [http.ResponseWriter]: the headers as they are, as they were when the
    status was written, and what went out. *)
Record writer := mkWriter {
  rw_Header : Header;
  rw_Sent : option (Z * Header);
  rw_Chunks : list string;      (** oldest first *)
  rw_Writes : nat;
  rw_Flushes : nat
}.

Definition set_header (h : Header) (w : writer) : writer := mkWriter h (rw_Sent w) (rw_Chunks w) (rw_Writes w) (rw_Flushes w).
Definition WriteHeader (status : Z) (w : writer) : writer := mkWriter (rw_Header w) (Some (status, rw_Header w)) (rw_Chunks w) (rw_Writes w) (rw_Flushes w).
Definition Flush (w : writer) : writer := mkWriter (rw_Header w) (rw_Sent w) (rw_Chunks w) (rw_Writes w) (Datatypes.S (rw_Flushes w)).

(** [Write]: the bytes taken, and whether there was an error. *)
Definition Write (chunk : string) (w : writer) : (nat * bool) * writer :=
  let '(nw, err) := up_write up (rw_Writes w) chunk in
  let nw := Nat.min nw (String.length chunk) in
  ((nw, err), mkWriter (rw_Header w) (rw_Sent w) (rw_Chunks w ++ (if decide (nw = 0)%nat then [] else [str_take nw chunk]))
                (Datatypes.S (rw_Writes w)) (rw_Flushes w)).

Inductive stream_error : Type := WriteFailed | ShortWrite | UpstreamFailed.

(** [flushes] says whether the writer can flush. *)
Fixpoint flushingCopy (flushes : bool) (reads : list (string * option read_end)) (w : writer) : option stream_error * writer :=
  match reads with
  | [] => (None, w)
  | (chunk, er) :: reads =>
      let '(stop, w) :=
        if decide (chunk = "") then (None, w)
        else
          let '((nw, ew), w) := Write chunk w in
          let w := if (0 <? nw)%nat && flushes then Flush w else w in
          if ew : bool then (Some WriteFailed, w)
          else if decide (String.length chunk ≠ nw) then (Some ShortWrite, w)
          else (None, w) in
      match stop, er with
      | Some e, _ => (Some e, w)
      | None, Some EOF => (None, w)
      | None, Some ReadFailed => (Some UpstreamFailed, w)
      | None, None => flushingCopy flushes reads w
      end
  end.

Definition TrailerPrefix : string := "Trailer:".

Definition streamResponse (flushes : bool) (w : writer) (resp : httpResponse) : option stream_error * writer :=
  let h := copyHeaderExceptHopByHop visit_header (rw_Header w) (hr_Header resp) in
  let h := match hr_Trailer resp with [] => h | trailer => <["Trailer" := trailer.*1]> h end in
  let w := WriteHeader (hr_StatusCode resp) (set_header h w) in
  match flushingCopy flushes (hr_Body resp) w with
  | (Some e, w) => (Some e, w)
  | (None, w) =>
      let h := foldl (λ h '(k, vv), foldl (λ h v, Header_Add (TrailerPrefix +:+ k) v h) h vv) (rw_Header w) (hr_Trailer resp) in
      let w := set_header h w in
      (None, if flushes then Flush w else w)
  end.

(** ** Raw requests *)

(** The body of a raw request: none, or a stream. *)
Definition canRetryRawAfter401 (has_body : bool) : bool := negb has_body.

(** The request is changed in place: a second attempt starts from it. *)
Definition sendRaw (outbound : httpRequest) (s : pstate) : option httpResponse * (httpRequest * pstate) :=
  let '(app, w) := au_Resolve (ps_auth s) in
  let s := with_ps_auth w s in
  match app with
  | None => (None, (outbound, s))
  | Some app => let outbound := with_credentials app outbound in let '(r, s) := transmit outbound s in (r, (outbound, s))
  end.

(** [drainAndClose]: reading a closed body fails. *)
Definition drainAndClose (resp : httpResponse) : httpResponse :=
  mkHttpResponse (hr_StatusCode resp) (hr_Header resp) (hr_Trailer resp) [("", Some ReadFailed)].

Inductive raw_error : Type := NoOutbound | SendFailed | StreamFailed (e : stream_error).

Definition retry_raw (has_body : bool) (outbound : httpRequest) (resp : httpResponse) (s : pstate) : httpResponse * pstate :=
  if (hr_StatusCode resp =? StatusUnauthorized)%Z && canRetryRawAfter401 has_body then
    let '(r, w) := au_RecoverFrom401 (ps_auth s) in
    let s := with_ps_auth w s in
    match r with
    | Recovered =>
        let resp := drainAndClose resp in
        match sendRaw outbound s with (Some retried, (_, s)) => (retried, s) | (None, (_, s)) => (resp, s) end
    | CannotRecover | RecoveryFailed => (resp, s)
    end
  else (resp, s).

Definition proxy_ProxyRequestRaw (accelerator flushes has_body : bool) (reqType : RequestType) (outbound : option httpRequest) (w : writer) (s : pstate) :
    option raw_error * (writer * pstate) :=
  match outbound with
  | None => (Some NoOutbound, (w, s))
  | Some outbound =>
      match sendRaw outbound s with
      | (None, (_, s)) => (Some SendFailed, (w, s))
      | (Some resp, (outbound, s)) =>
          let '(resp, s) := retry_raw has_body outbound resp s in
          let s := maybeAccelerateProbes accelerator reqType (hr_StatusCode resp) s in
          let '(e, w) := streamResponse flushes w resp in
          (StreamFailed <$> e, (w, s))
      end
  end.
End proxy.
Arguments pstate : clear implicits.

(** ** What is streamed *)

(** The pieces of a body, and how it ends. *)
Fixpoint pieces (reads : list (string * option read_end)) : list string :=
  match reads with
  | [] => []
  | (chunk, er) :: reads => (if decide (chunk = "") then [] else [chunk]) ++ match er with Some _ => [] | None => pieces reads end
  end.

Fixpoint body_end (reads : list (string * option read_end)) : read_end :=
  match reads with
  | [] => EOF
  | (_, Some er) :: _ => er
  | (_, None) :: reads => body_end reads
  end.

(** A write that failed, or that took too little of what it was given. *)
Definition refused_write (up : upstream) (e : stream_error) (c : string) (n : nat) : Prop :=
  ∃ i m b, up_write up i c = (m, b) ∧ n = Nat.min m (String.length c) ∧
    match e with WriteFailed => b = true | ShortWrite => b = false ∧ (m < String.length c)%nat | UpstreamFailed => False end.

(** What the caller has got when the copy ends with an error or without. *)
Inductive delivered (up : upstream) (reads : list (string * option read_end)) : option stream_error → list string → Prop :=
  | DeliveredAll : body_end reads = EOF → delivered up reads None (pieces reads)
  | DeliveredRead : body_end reads = ReadFailed → delivered up reads (Some UpstreamFailed) (pieces reads)
  | DeliveredPart before c rest n e : pieces reads = before ++ c :: rest → refused_write up e c n →
      delivered up reads (Some e) (before ++ if decide (n = 0)%nat then [] else [str_take n c]).

Section stream.
Context {L : HttpLib} {HL : HttpLibLaws L} (up : upstream).

Lemma str_take_all s : str_take (String.length s) s = s.
Proof. induction s as [|c s IH]; [done|]. cbn. by rewrite IH. Qed.

Lemma delivered_more chunk reads e out : delivered up reads e out →
  delivered up ((chunk, None) :: reads) e ((if decide (chunk = "") then [] else [chunk]) ++ out).
Proof.
  intros [Hend|Hend|before c rest n e' Hp Hr]; [by apply DeliveredAll|by apply DeliveredRead|]. rewrite app_assoc.
  apply (DeliveredPart _ _ _ _ rest); [|done]. cbn [pieces]. by rewrite Hp, app_assoc.
Qed.

(** The first bytes were taken in [n] flushes. *)
Record written (flushes : bool) (w w' : writer) (out : list string) : Prop := {
  wr_chunks : rw_Chunks w' = rw_Chunks w ++ out;
  wr_header : rw_Header w' = rw_Header w;
  wr_sent : rw_Sent w' = rw_Sent w;
  wr_flushes : rw_Flushes w' = (rw_Flushes w + if flushes then length out else 0)%nat
}.

Lemma written_trans flushes w w1 w2 out out' : written flushes w w1 out → written flushes w1 w2 out' → written flushes w w2 (out ++ out').
Proof.
  intros [Hc Hh Hs Hf] [Hc' Hh' Hs' Hf']. split; [by rewrite Hc', Hc, app_assoc|congruence|congruence|].
  rewrite Hf', Hf, length_app. destruct flushes; lia.
Qed.

Lemma written_none flushes w : written flushes w w [].
Proof. split; [by rewrite app_nil_r|done|done|destruct flushes; cbn; lia]. Qed.

(** One [Write] with its flush. *)
Lemma Write_spec flushes chunk w : chunk ≠ "" →
  let '((nw, ew), w1) := Write up chunk w in
  (ew = true ∨ nw ≠ String.length chunk → refused_write up (if ew then WriteFailed else ShortWrite) chunk nw) ∧
  written flushes w (if (0 <? nw)%nat && flushes then Flush w1 else w1) (if decide (nw = 0)%nat then [] else [str_take nw chunk]).
Proof.
  intros Hne. unfold Write. destruct (up_write up (rw_Writes w) chunk) as [m ew] eqn:Hw. cbn zeta. set (nw := Nat.min m (String.length chunk)). split.
  - intros Hor. exists (rw_Writes w), m, ew. split_and!; [done|done|]. destruct ew; [done|]. destruct Hor as [|Hor]; [done|]. split; [done|lia].
  - destruct (Nat.ltb_spec 0 nw); [rewrite decide_False by lia|rewrite decide_True by lia]; destruct flushes; split; cbn; try done; lia.
Qed.

Lemma flushingCopy_spec flushes reads : ∀ w, let '(e, w') := flushingCopy up flushes reads w in
  ∃ out, written flushes w w' out ∧ delivered up reads e out.
Proof.
  induction reads as [|[chunk er] reads IH]; intros w; cbn [flushingCopy].
  { exists []. split; [apply written_none|]. by apply (DeliveredAll up []). }
  assert (∀ w1, written flushes w w1 (if decide (chunk = "") then [] else [chunk]) →
    let '(e, w') := match er with Some EOF => (None, w1) | Some ReadFailed => (Some UpstreamFailed, w1) | None => flushingCopy up flushes reads w1 end in
    ∃ out, written flushes w w' out ∧ delivered up ((chunk, er) :: reads) e out) as Hnext.
  { intros w1 Hw1. destruct er as [[]|].
    - eexists. split; [exact Hw1|]. pose proof (DeliveredAll up ((chunk, Some EOF) :: reads) eq_refl) as H. cbn [pieces] in H. by rewrite app_nil_r in H.
    - eexists. split; [exact Hw1|]. pose proof (DeliveredRead up ((chunk, Some ReadFailed) :: reads) eq_refl) as H. cbn [pieces] in H. by rewrite app_nil_r in H.
    - specialize (IH w1). destruct (flushingCopy up flushes reads w1) as [e w']. destruct IH as (out & Ho & Hd). eexists.
      split; [by eapply written_trans|by apply delivered_more]. }
  destruct (decide (chunk = "")) as [->|Hne]; [exact (Hnext w (written_none flushes w))|].
  pose proof (Write_spec flushes chunk w Hne) as Hw. destruct (Write up chunk w) as [[nw ew] w1]. destruct Hw as [Hr Hw].
  assert (∀ e, refused_write up e chunk nw → ∃ out, written flushes w (if (0 <? nw)%nat && flushes then Flush w1 else w1) out ∧
    delivered up ((chunk, er) :: reads) (Some e) out) as Hstop.
  { intros e He. eexists. split; [exact Hw|]. refine (DeliveredPart up _ [] chunk _ nw e _ He). cbn [pieces]. by rewrite decide_False. }
  destruct ew; [apply Hstop, Hr; by left|]. destruct (decide (String.length chunk ≠ nw)) as [Hlen|Hlen]; [apply Hstop, Hr; by right|]. apply Hnext.
  assert (nw = String.length chunk) as -> by lia. rewrite str_take_all in Hw. destruct chunk; [done|]. exact Hw.
Qed.

(** The names announced, and the headers set after the body. *)
Lemma trailer_key k : CanonicalHeaderKey (TrailerPrefix +:+ k) = TrailerPrefix +:+ k.
Proof. reflexivity. Qed.

Lemma add_values k vv : ∀ h, Header_Values k (foldl (λ h v, Header_Add k v h) h vv) = Header_Values k h ++ vv.
Proof.
  induction vv as [|v vv IH]; intros h; cbn; [by rewrite app_nil_r|]. rewrite IH. unfold Header_Add, Header_Values.
  rewrite lookup_insert_eq. cbn. by rewrite <- app_assoc.
Qed.

Lemma add_values_ne k k' vv : CanonicalHeaderKey k ≠ CanonicalHeaderKey k' → ∀ h, foldl (λ h v, Header_Add k v h) h vv !! CanonicalHeaderKey k' = h !! CanonicalHeaderKey k'.
Proof. intros Hne. induction vv as [|v vv IH]; intros h; cbn; [done|]. rewrite IH. unfold Header_Add. by rewrite lookup_insert_ne. Qed.

Lemma trailers_added l : NoDup l.*1 → ∀ h k,
  Header_Values (TrailerPrefix +:+ k) (foldl (λ h '(k, vv), foldl (λ h v, Header_Add (TrailerPrefix +:+ k) v h) h vv) h l) =
  Header_Values (TrailerPrefix +:+ k) h ++ default [] (list_to_map (M := gmap string (list string)) l !! k).
Proof.
  induction l as [|[x vv] l IH]; intros Hnd h k; cbn [foldl]; [by rewrite app_nil_r|]. apply NoDup_cons in Hnd as [Hx Hnd]. rewrite IH by done.
  change (list_to_map ((x, vv) :: l) : gmap string (list string)) with (<[x := vv]> (list_to_map l : gmap string (list string))).
  destruct (decide (x = k)) as [->|Hne].
  - rewrite lookup_insert_eq, add_values. assert (list_to_map l !! k = None (A := list string)) as -> by (by apply not_elem_of_list_to_map).
    cbn. by rewrite app_nil_r.
  - rewrite lookup_insert_ne by done. unfold Header_Values at 1. rewrite add_values_ne; [done|]. rewrite !trailer_key. intros [=]. done.
Qed.

(** C14: what reaches the caller of a streamed request.  The status and the
    headers of the upstream go out first, without those of the hop and with the
    names of the trailers; then its pieces, in order, each flushed as it was
    written; no error means that all of the body was delivered and ended well,
    and then the trailers follow.  An error of the upstream comes after all that
    it sent; a failure of the caller's connection comes after the pieces before
    it and what that write took. *)
Theorem stream_exact flushes w resp : NoDup (hr_Trailer resp).*1 →
  let '(e, w') := streamResponse up flushes w resp in
  ∃ h out, rw_Sent w' = Some (hr_StatusCode resp, h) ∧ rw_Chunks w' = rw_Chunks w ++ out ∧ delivered up (hr_Body resp) e out ∧
    rw_Flushes w' = (rw_Flushes w + if flushes then length out + (if decide (e = None) then 1 else 0) else 0)%nat ∧
    (∀ k, h !! k = if decide (k = "Trailer" ∧ hr_Trailer resp ≠ []) then Some (hr_Trailer resp).*1
                   else match hr_Header resp !! k with
                        | Some vv => if not_returned (hr_Header resp) k then rw_Header w !! k else Some vv
                        | None => rw_Header w !! k
                        end) ∧
    (e = None → ∀ k, Header_Values (TrailerPrefix +:+ k) (rw_Header w') =
                     Header_Values (TrailerPrefix +:+ k) h ++ default [] (list_to_map (M := gmap string (list string)) (hr_Trailer resp) !! k)).
Proof.
  intros Hnd. unfold streamResponse. set (h0 := copyHeaderExceptHopByHop _ _ _). set (h := match hr_Trailer resp with [] => h0 | _ => _ end).
  pose proof (flushingCopy_spec flushes (hr_Body resp) (WriteHeader (hr_StatusCode resp) (set_header h w))) as Hcopy.
  destruct (flushingCopy up flushes (hr_Body resp) _) as [e w1]. destruct Hcopy as (out & [Hc Hh Hs Hf] & Hd). cbn in Hc, Hh, Hs, Hf.
  assert (∀ k, h !! k = if decide (k = "Trailer" ∧ hr_Trailer resp ≠ []) then Some (hr_Trailer resp).*1
                   else match hr_Header resp !! k with
                        | Some vv => if not_returned (hr_Header resp) k then rw_Header w !! k else Some vv
                        | None => rw_Header w !! k
                        end) as Hh0.
  { intros k. assert (∀ k, h0 !! k = match hr_Header resp !! k with
      | Some vv => if not_returned (hr_Header resp) k then rw_Header w !! k else Some vv | None => rw_Header w !! k end) as H0.
    { intros x. unfold h0. rewrite returned_fold. apply copy_lookup; [apply visit_header_all|done]. }
    unfold h. destruct (hr_Trailer resp) as [|t l]; [rewrite decide_False by (by intros [_ []]); apply H0|].
    destruct (decide (k = "Trailer")) as [->|Hk]; [by rewrite lookup_insert_eq, decide_True|].
    rewrite lookup_insert_ne, decide_False by (done || by intros []). apply H0. }
  destruct e as [e|].
  - exists h, out. split_and!; [done..| |done|done]. rewrite Hf. destruct flushes; [rewrite decide_False by done|]; lia.
  - exists h, out. split_and!; [by destruct flushes|by destruct flushes|done| |done|].
    + destruct flushes; cbn; rewrite Hf; [rewrite decide_True by done|]; lia.
    + intros _ k. assert (∀ w2, rw_Header (if flushes then Flush w2 else w2) = rw_Header w2) as -> by (by destruct flushes).
      cbn [rw_Header set_header]. by rewrite trailers_added, Hh.
Qed.
End stream.

(** ** The credentials on the wire *)

(** A request has the headers and parameters of the credentials, and no other
    values under their names. *)
Definition carries (app : AuthApplication) (rq : httpRequest) : Prop :=
  (∀ h v, (h, v) ∈ app_Headers app → Header_Values h (hq_Header rq) = [v]) ∧
  (∀ k v, (k, v) ∈ app_QueryParams app → hq_Query rq !! k = Some [v]).

(** What the caller asked for is unchanged otherwise. *)
Definition same_otherwise (app : AuthApplication) (rq rq' : httpRequest) : Prop :=
  hq_Method rq' = hq_Method rq ∧ hq_URL rq' = hq_URL rq ∧ hq_Body rq' = hq_Body rq ∧
  (∀ h, CanonicalHeaderKey h ∉ map (λ kv, CanonicalHeaderKey kv.1) (app_Headers app) → Header_Values h (hq_Header rq') = Header_Values h (hq_Header rq)) ∧
  (∀ k, k ∉ map fst (app_QueryParams app) → hq_Query rq' !! k = hq_Query rq !! k).

Lemma set_all_headers l : ∀ h k,
  (CanonicalHeaderKey k ∉ map (λ kv, CanonicalHeaderKey kv.1) l → Header_Values k (foldl (λ h kv, Header_Set kv.1 kv.2 h) h l) = Header_Values k h) ∧
  (NoDup (map (λ kv, CanonicalHeaderKey kv.1) l) → ∀ v, (k, v) ∈ l → Header_Values k (foldl (λ h kv, Header_Set kv.1 kv.2 h) h l) = [v]).
Proof.
  induction l as [|[x y] l IH]; intros h k; [split; [done|set_solver]|]. cbn [map foldl fst snd]. destruct (IH (Header_Set x y h) k) as [IH1 IH2]. split.
  - intros Hk. rewrite IH1 by set_solver. rewrite Header_Set_Values, decide_False; [done|set_solver].
  - intros Hnd v Hin. apply NoDup_cons in Hnd as [Hx Hnd]. apply elem_of_cons in Hin as [[= -> ->]|Hin]; [|by apply IH2].
    rewrite IH1 by done. by rewrite Header_Set_Values, decide_True.
Qed.

Lemma set_all_values l : ∀ (q : Values) k,
  (k ∉ map fst l → Values_Set_all l q !! k = q !! k) ∧ (NoDup (map fst l) → ∀ v, (k, v) ∈ l → Values_Set_all l q !! k = Some [v]).
Proof.
  unfold Values_Set_all, Values_Set. induction l as [|[x y] l IH]; intros q k; [split; [done|set_solver]|]. cbn [map foldl fst snd].
  destruct (IH (<[x := [y]]> q) k) as [IH1 IH2]. split.
  - intros Hk. rewrite IH1 by set_solver. by rewrite lookup_insert_ne by set_solver.
  - intros Hnd v Hin. apply NoDup_cons in Hnd as [Hx Hnd]. apply elem_of_cons in Hin as [[= -> ->]|Hin]; [|by apply IH2].
    rewrite IH1 by done. by rewrite lookup_insert_eq.
Qed.

Lemma with_credentials_carries app rq :
  NoDup (map (λ kv, CanonicalHeaderKey kv.1) (app_Headers app)) → NoDup (map fst (app_QueryParams app)) → carries app (with_credentials app rq).
Proof. intros Hh Hq. split; intros k v Hin; [by apply set_all_headers|by apply set_all_values]. Qed.

Lemma with_credentials_same app rq : same_otherwise app rq (with_credentials app rq).
Proof. split_and!; [done..| |]; intros k Hk; [by apply set_all_headers|by apply set_all_values]. Qed.

(** ** What a proxied request does *)

Section sound.
Context {W : Type} {A : Authenticator W} {AL : AuthenticatorLaws W} {L : HttpLib} (up : upstream).

(** An attempt: the credentials, and the answer. *)
Abbreviation attempt := (AuthApplication * option httpResponse)%type.

(** The last answer there was. *)
Fixpoint last_answer (found : option httpResponse) (l : list attempt) : option httpResponse :=
  match l with
  | [] => found
  | (_, r) :: l => last_answer (match r with Some r => Some r | None => found end) l
  end.

(** One attempt from the state [w] of the auth method: its credentials are
    resolved, which leaves [w'], and the request goes out with them unless there
    are none or the request itself is not [valid]. *)
Inductive single (valid : bool) : W → list attempt → W → Prop :=
  | SingleNone w a w' : au_Resolve w = (a, w') → (valid = true → a = None) → single valid w [] w'
  | SingleSent w app r w' : valid = true → au_Resolve w = (Some app, w') → au_in_use w' app → single valid w [(app, r)] w'.

(** The attempts of a call.  Where a second one is possible ([retry]), a 401 has
    the credentials renewed, and only if that succeeds there is a second
    attempt, from the state the renewal left. *)
Inductive uses (valid retry : bool) : W → list attempt → W → Prop :=
  | UsesOnce w l w' : single valid w l w' →
      (retry = true → ∀ app resp, (app, Some resp) ∈ l → hr_StatusCode resp ≠ StatusUnauthorized) → uses valid retry w l w'
  | UsesNotRenewed w app resp w1 rec w2 : retry = true → single valid w [(app, Some resp)] w1 → hr_StatusCode resp = StatusUnauthorized →
      au_RecoverFrom401 w1 = (rec, w2) → rec ≠ Recovered → uses valid retry w [(app, Some resp)] w2
  | UsesAgain w app resp w1 w2 l w3 : retry = true → single valid w [(app, Some resp)] w1 → hr_StatusCode resp = StatusUnauthorized →
      au_RecoverFrom401 w1 = (Recovered, w2) → single valid w2 l w3 → uses valid retry w ((app, Some resp) :: l) w3.

Lemma single_length valid w l w' : single valid w l w' → (length l ≤ 1)%nat.
Proof. intros []; cbn; lia. Qed.

Lemma uses_length valid retry w l w' : uses valid retry w l w' → (length l ≤ if retry then 2 else 1)%nat.
Proof.
  intros [w0 l0 w1 Hs _|w0 app resp w1 rec w2 -> _ _ _ _|w0 app resp w1 w2 l0 w3 -> _ _ _ Hs]; [apply single_length in Hs; destruct retry; lia|cbn; lia|].
  apply single_length in Hs. cbn. lia.
Qed.

(** The requests of a call, each with its credentials and otherwise as [R]
    says. *)
Record attempted (R : AuthApplication → httpRequest → Prop) (valid retry : bool) (s s' : pstate W) (l : list attempt) : Prop := {
  at_ok : au_ok (ps_auth s');
  at_sent : ∃ reqs, ps_sent s' = ps_sent s ++ reqs ∧ Forall2 (λ a x, x.2 = a.2 ∧ carries a.1 x.1 ∧ R a.1 x.1) l reqs;
  at_uses : uses valid retry (ps_auth s) l (ps_auth s')
}.

(** One attempt, with what it returns. *)
Record sends R valid (s : pstate W) (r : option httpResponse) (s' : pstate W) (l : list attempt) : Prop := {
  sd_probes : ps_probes s' = ps_probes s;
  sd_ok : au_ok (ps_auth s');
  sd_sent : ∃ reqs, ps_sent s' = ps_sent s ++ reqs ∧ Forall2 (λ a x, x.2 = a.2 ∧ carries a.1 x.1 ∧ R a.1 x.1) l reqs;
  sd_single : single valid (ps_auth s) l (ps_auth s');
  sd_answer : match r with Some resp => ∃ app, l = [(app, Some resp)] | None => last_answer None l = None end
}.

Lemma sends_none R valid s s' a : au_ok (ps_auth s') → ps_sent s' = ps_sent s → ps_probes s' = ps_probes s →
  au_Resolve (ps_auth s) = (a, ps_auth s') → (valid = true → a = None) → sends R valid s None s' [].
Proof. intros Hok Hs Hp Ha Hv. split; [done..| |by econstructor|done]. exists []. by rewrite app_nil_r. Qed.

Lemma sends_one R s w app rq : au_ok w → au_in_use w app → R app (with_credentials app rq) → au_Resolve (ps_auth s) = (Some app, w) →
  let '(r, s') := transmit up (with_credentials app rq) (with_ps_auth w s) in sends R true s r s' [(app, r)].
Proof.
  intros Hok Hu HR Hres. destruct (au_distinct _ _ Hu) as [Hh Hq]. unfold transmit. split; [done|done| |by econstructor|].
  - eexists. split; [reflexivity|]. constructor; [|done]. split_and!; [done|by apply with_credentials_carries|done].
  - destruct (up_send up _ _); [by eexists|done].
Qed.

(** A call that is over after its first attempt. *)
Lemma attempted_once R valid retry s r s1 l : sends R valid s r s1 l →
  (retry = true → ∀ resp, r = Some resp → hr_StatusCode resp ≠ StatusUnauthorized) → attempted R valid retry s s1 l.
Proof.
  intros [_ Hok Hsent Hsingle Hans] Hr. split; [done|done|]. apply UsesOnce; [done|]. intros Hretry app resp Hin.
  destruct r as [resp0|]; [|destruct Hsingle as [|w0 app0 [?|] w1]; set_solver].
  destruct Hans as [app0 ->]. apply list_elem_of_singleton in Hin as [= -> ->]. by apply Hr.
Qed.

(** A call whose credentials could not be renewed. *)
Lemma attempted_refused R valid s resp s1 app rec w : sends R valid s (Some resp) s1 [(app, Some resp)] → hr_StatusCode resp = StatusUnauthorized →
  au_RecoverFrom401 (ps_auth s1) = (rec, w) → rec ≠ Recovered → au_ok w → attempted R valid true s (with_ps_auth w s1) [(app, Some resp)].
Proof. intros [_ Hok Hsent Hsingle _] H401 Hrec Hne Hokw. split; [done|done|]. by eapply UsesNotRenewed. Qed.

(** Both attempts together. *)
Lemma attempted_twice R valid s resp s1 app w r2 s2 l2 : sends R valid s (Some resp) s1 [(app, Some resp)] → hr_StatusCode resp = StatusUnauthorized →
  au_RecoverFrom401 (ps_auth s1) = (Recovered, w) → sends R valid (with_ps_auth w s1) r2 s2 l2 →
  attempted R valid true s s2 ((app, Some resp) :: l2) ∧ last_answer (Some resp) l2 = Some (default resp r2).
Proof.
  intros [_ Hok (reqs & Hs & Hf) Hsingle _] H401 Hrec [_ Hok2 (reqs2 & Hs2 & Hf2) Hsingle2 Hans]. split.
  - split; [done| |by eapply UsesAgain]. exists (reqs ++ reqs2). split; [rewrite Hs2; cbn; by rewrite Hs, app_assoc|].
    change ((app, Some resp) :: l2) with ([(app, Some resp)] ++ l2). by apply Forall2_app.
  - destruct r2 as [resp2|]; [by destruct Hans as [? ->]|]. by destruct Hsingle2 as [|? ? [?|]].
Qed.

Lemma attempted_frame R valid retry s s1 s2 l : attempted R valid retry s s1 l → ps_auth s2 = ps_auth s1 → ps_sent s2 = ps_sent s1 → attempted R valid retry s s2 l.
Proof. intros [Hok (reqs & Hs & Hf) Hu] Ha Hs2. split; [by rewrite Ha| |by rewrite Ha]. exists reqs. by rewrite Hs2. Qed.

(** The request of the caller, with nothing changed but the credentials. *)
Definition of_caller (req : ProxyRequest) (app : AuthApplication) (x : httpRequest) : Prop :=
  ∃ rq, Apply req = Some rq ∧ same_otherwise app rq x.

Definition well_formed (req : ProxyRequest) : bool := match Apply req with Some _ => true | None => false end.

Lemma send_spec req s : au_ok (ps_auth s) → let '(r, s') := send up req s in ∃ l, sends (of_caller req) (well_formed req) s r s' l.
Proof.
  intros Hok. unfold send, well_formed. pose proof (au_resolve_ok _ Hok) as Hok'. pose proof (au_resolves (ps_auth s)) as Hr.
  destruct (au_Resolve (ps_auth s)) as [[app|] w] eqn:Hres; cbn [snd] in Hok'; [|exists []; by eapply sends_none].
  specialize (Hr app w Hok eq_refl). destruct (Apply req) as [rq|] eqn:Hrq; [|exists []; by eapply sends_none].
  pose proof (sends_one (of_caller req) s w app rq Hok' Hr) as H1. destruct (transmit up _ _) as [r s']. eexists. apply H1; [|done].
  exists rq. split; [done|apply with_credentials_same].
Qed.

Definition accelerated (accelerator : bool) (reqType : RequestType) (final : option httpResponse) : bool :=
  match final with
  | None => false
  | Some resp => accelerator && negb (bool_decide (reqType = RequestTypeProbe)) &&
                 ((hr_StatusCode resp =? StatusUnauthorized)%Z || (hr_StatusCode resp =? StatusForbidden)%Z)
  end.

Lemma accelerate_spec accelerator reqType resp (s : pstate W) :
  let s' := maybeAccelerateProbes accelerator reqType (hr_StatusCode resp) s in
  ps_auth s' = ps_auth s ∧ ps_sent s' = ps_sent s ∧ ps_probes s' = (ps_probes s + if accelerated accelerator reqType (Some resp) then 1 else 0)%nat.
Proof.
  unfold maybeAccelerateProbes, accelerated. destruct accelerator; cbn; [|split_and!; [done..|lia]].
  case_decide; [rewrite bool_decide_true by done; cbn; split_and!; [done..|lia]|]. rewrite bool_decide_false by done. cbn.
  destruct (_ =? StatusUnauthorized)%Z, (_ =? StatusForbidden)%Z; cbn; split_and!; done || lia.
Qed.

Lemma retry_spec req s s1 app resp : sends (of_caller req) (well_formed req) s (Some resp) s1 [(app, Some resp)] →
  let '(resp', s2) := retry_after_401 (send up req) resp s1 in
  ps_probes s2 = ps_probes s1 ∧ ∃ l2, attempted (of_caller req) (well_formed req) true s s2 ((app, Some resp) :: l2) ∧ last_answer (Some resp) l2 = Some resp'.
Proof.
  intros H1. unfold retry_after_401. destruct (_ =? _)%Z eqn:H401.
  2:{ apply Z.eqb_neq in H401. split; [done|]. exists []. split; [|done]. eapply attempted_once; [exact H1|]. by intros _ ? [= <-]. }
  apply Z.eqb_eq in H401. pose proof (au_recover_ok _ (sd_ok _ _ _ _ _ _ H1)) as Hrok. destruct (au_RecoverFrom401 (ps_auth s1)) as [rec w] eqn:Hrec. cbn [snd] in Hrok.
  destruct rec; [|split; [done|]; exists []; (split; [by eapply attempted_refused|done])..].
  pose proof (send_spec req (with_ps_auth w s1) Hrok) as H2. destruct (send up req (with_ps_auth w s1)) as [r2 s2]. destruct H2 as [l2 H2].
  destruct (attempted_twice _ _ _ _ _ _ _ _ _ _ H1 H401 Hrec H2) as [Hat Hl2]. pose proof (sd_probes _ _ _ _ _ _ H2) as Hp.
  destruct r2; (split; [exact Hp|]; exists l2; done).
Qed.

(** C8: what the proxy does with a request, for every method of
    authentication that keeps the interface.  There are at most two exchanges
    with the upstream, each of which the HTTP client may carry through
    redirects.  Before the first the credentials are resolved, and it has
    exactly those; a 401 has them renewed, and only if that succeeds they are
    resolved anew, from the state the renewal left, and there is a second
    exchange, with what that gave.  Each is the caller's request: the
    credentials replace whatever the caller sent under their names, in any
    spelling, and nothing else is changed.  The caller gets the last answer of
    the upstream, and exactly a final 401 or 403 of a request that is not itself
    a probe has the probes of the connection run. *)
Theorem proxied_request_sound accelerator reqType req s : au_ok (ps_auth s) →
  let '(r, s') := proxy_ProxyRequest up accelerator reqType req s in
  ∃ l, attempted (of_caller req) (well_formed req) true s s' l ∧ (length l ≤ 2)%nat ∧
    r = (last_answer None l ≫= ProxyResponseFromGentlemen) ∧
    ps_probes s' = (ps_probes s + if accelerated accelerator reqType (last_answer None l) then 1 else 0)%nat.
Proof.
  intros Hok. unfold proxy_ProxyRequest. pose proof (send_spec req s Hok) as H1. destruct (send up req s) as [[resp|] s1]; destruct H1 as [l1 H1].
  2:{ exists l1. assert (attempted (of_caller req) (well_formed req) true s s1 l1) as Hat by (by eapply attempted_once).
      rewrite (sd_answer _ _ _ _ _ _ H1). split_and!; [done|by apply (uses_length _ true _ _ _ (at_uses _ _ _ _ _ _ Hat))|done|]. rewrite (sd_probes _ _ _ _ _ _ H1). cbn. lia. }
  destruct (sd_answer _ _ _ _ _ _ H1) as [app ->]. pose proof (retry_spec req s s1 app resp H1) as H2. destruct (retry_after_401 _ resp s1) as [resp' s2].
  destruct H2 as [Hp2 (l2 & H2 & Hl2)]. destruct (accelerate_spec accelerator reqType resp' s2) as (Ha & Hs & Hp).
  exists ((app, Some resp) :: l2). cbn [last_answer]. rewrite Hl2. split_and!; [by eapply attempted_frame| |done|by rewrite Hp, Hp2, (sd_probes _ _ _ _ _ _ H1)].
  apply (uses_length _ true _ _ _ (at_uses _ _ _ _ _ _ H2)).
Qed.

(** ** What a raw request does *)

(** The caller's request with the credentials; the second attempt starts from
    what the first has sent. *)
Definition of_raw (outbound : httpRequest) (app : AuthApplication) (x : httpRequest) : Prop :=
  ∃ rq, (rq = outbound ∨ ∃ before, rq = with_credentials before outbound) ∧ same_otherwise app rq x.

Lemma sendRaw_spec outbound rq s : au_ok (ps_auth s) → (rq = outbound ∨ ∃ before, rq = with_credentials before outbound) →
  let '(r, (rq', s')) := sendRaw up rq s in
  (∃ l, sends (of_raw outbound) true s r s' l) ∧ (rq = outbound → rq' = outbound ∨ ∃ before, rq' = with_credentials before outbound).
Proof.
  intros Hok Hrq. unfold sendRaw. pose proof (au_resolve_ok _ Hok) as Hok'. pose proof (au_resolves (ps_auth s)) as Hr.
  destruct (au_Resolve (ps_auth s)) as [[app|] w] eqn:Hres; cbn [snd] in Hok'.
  2:{ split; [exists []; by eapply sends_none|]. by left. }
  specialize (Hr app w Hok eq_refl). pose proof (sends_one (of_raw outbound) s w app rq Hok' Hr) as H1.
  destruct (transmit up _ _) as [r s']. split; [eexists; apply H1; [exists rq; split; [done|apply with_credentials_same]|done]|].
  intros ->. right. by exists app.
Qed.

(** What is streamed to the caller for the attempts [l] from [w]: the last
    answer, or, when the credentials were renewed after it and there was no
    second answer, that answer without its body. *)
Definition streamed (w : W) (l : list attempt) (last d : httpResponse) : Prop :=
  d = last ∨
  d = drainAndClose last ∧ hr_StatusCode last = StatusUnauthorized ∧
  ∃ app w1 w2, au_Resolve w = (Some app, w1) ∧ au_RecoverFrom401 w1 = (Recovered, w2) ∧
    (l = [(app, Some last)] ∨ ∃ app2, l = [(app, Some last); (app2, None)]).

Lemma retry_raw_spec has_body outbound rq s s1 app resp : sends (of_raw outbound) true s (Some resp) s1 [(app, Some resp)] →
  (rq = outbound ∨ ∃ before, rq = with_credentials before outbound) →
  let '(d, s2) := retry_raw up has_body rq resp s1 in
  ps_probes s2 = ps_probes s1 ∧
  ∃ l2 last, attempted (of_raw outbound) true (negb has_body) s s2 ((app, Some resp) :: l2) ∧ last_answer (Some resp) l2 = Some last ∧
    hr_StatusCode d = hr_StatusCode last ∧ streamed (ps_auth s) ((app, Some resp) :: l2) last d ∧ (has_body = true → d = last).
Proof.
  intros H1 Hrq. unfold retry_raw. destruct (_ =? _)%Z eqn:H401.
  2:{ apply Z.eqb_neq in H401. split; [done|]. exists [], resp. split_and!; [|done|done|by left|done]. eapply attempted_once; [exact H1|]. by intros _ ? [= <-]. }
  apply Z.eqb_eq in H401. destruct has_body; cbn [canRetryRawAfter401 negb andb].
  { split; [done|]. exists [], resp. split_and!; [by eapply attempted_once|done|done|by left|done]. }
  pose proof (au_recover_ok _ (sd_ok _ _ _ _ _ _ H1)) as Hrok. destruct (au_RecoverFrom401 (ps_auth s1)) as [rec w] eqn:Hrec. cbn [snd] in Hrok.
  destruct rec; [|split; [done|]; exists [], resp; split_and!; [by eapply attempted_refused|done|done|by left|done]..].
  pose proof (sendRaw_spec outbound rq (with_ps_auth w s1) Hrok Hrq) as H2. destruct (sendRaw up rq (with_ps_auth w s1)) as [r2 [rq' s2]].
  destruct H2 as [[l2 H2] _]. destruct (attempted_twice _ _ _ _ _ _ _ _ _ _ H1 H401 Hrec H2) as [Hat Hl2]. pose proof (sd_probes _ _ _ _ _ _ H2) as Hp.
  destruct r2 as [resp2|]; (split; [exact Hp|]); exists l2; [exists resp2|exists resp]; split_and!; try done; [by left|].
  right. split_and!; [done|done|]. assert (au_Resolve (ps_auth s) = (Some app, ps_auth s1)) as Hres.
  { pose proof (sd_single _ _ _ _ _ _ H1) as Hs1. by inversion Hs1. }
  exists app, (ps_auth s1), w. split_and!; [done|done|]. pose proof (sd_answer _ _ _ _ _ _ H2) as Hans.
  pose proof (sd_single _ _ _ _ _ _ H2) as Hs2. clear -Hs2 Hans. destruct Hs2 as [|? app2 [?|]]; [by left|done|right; by exists app2].
Qed.

(** C13: what the proxy does with a streamed request.  The exchanges are as for a
    whole one: at most two, each with the credentials that were resolved for it,
    the second from what the renewal left, and otherwise what the caller asked
    for; a request with a body is sent once.  If no request is answered the
    caller's writer is not touched; otherwise the last answer is streamed to
    it, with its status, and exactly a final 401 or 403 of a request that is not
    itself a probe has the probes run.  The body of that answer is missing only
    when it is the 401 after which the credentials were renewed and the second
    attempt was not answered. *)
Theorem raw_request_sound accelerator flushes has_body reqType outbound wr s : au_ok (ps_auth s) →
  let '(e, (wr', s')) := proxy_ProxyRequestRaw up accelerator flushes has_body reqType (Some outbound) wr s in
  ∃ l, attempted (of_raw outbound) true (negb has_body) s s' l ∧ (length l ≤ if has_body then 1 else 2)%nat ∧
    ps_probes s' = (ps_probes s + if accelerated accelerator reqType (last_answer None l) then 1 else 0)%nat ∧
    match last_answer None l with
    | None => e = Some SendFailed ∧ wr' = wr
    | Some resp => ∃ d, streamed (ps_auth s) l resp d ∧ (has_body = true → d = resp) ∧
        (e, wr') = (StreamFailed <$> (streamResponse up flushes wr d).1, (streamResponse up flushes wr d).2)
    end.
Proof.
  intros Hok. unfold proxy_ProxyRequestRaw. pose proof (sendRaw_spec outbound outbound s Hok (or_introl eq_refl)) as H1.
  assert (∀ s' l, attempted (of_raw outbound) true (negb has_body) s s' l → (length l ≤ if has_body then 1 else 2)%nat) as Hlen.
  { intros s' l Hat. pose proof (uses_length _ _ _ _ _ (at_uses _ _ _ _ _ _ Hat)) as H. by destruct has_body. }
  destruct (sendRaw up outbound s) as [[resp|] [rq s1]]; destruct H1 as [[l1 H1] Hrq].
  2:{ exists l1. assert (attempted (of_raw outbound) true (negb has_body) s s1 l1) as Hat by (by eapply attempted_once).
      rewrite (sd_answer _ _ _ _ _ _ H1). split_and!; [done|by eapply Hlen|rewrite (sd_probes _ _ _ _ _ _ H1); cbn; lia|done|done]. }
  destruct (sd_answer _ _ _ _ _ _ H1) as [app ->]. pose proof (retry_raw_spec has_body outbound rq s s1 app resp H1 (Hrq eq_refl)) as H2.
  destruct (retry_raw up has_body rq resp s1) as [d s2]. destruct H2 as (Hp2 & l2 & last & H2 & Hl2 & Hst & Hd & Hb).
  destruct (accelerate_spec accelerator reqType d s2) as (Ha & Hs & Hp). cbn zeta. destruct (streamResponse up flushes wr d) as [e wr'] eqn:Hstream.
  exists ((app, Some resp) :: l2). cbn [last_answer]. rewrite Hl2. split_and!.
  - by eapply attempted_frame.
  - by eapply Hlen.
  - rewrite Hp, Hp2, (sd_probes _ _ _ _ _ _ H1). unfold accelerated. by rewrite Hst.
  - exists d. rewrite Hstream. by split_and!.
Qed.
End sound.
