(* ===== verification/Authenticators.v ===== *)
(** * The auth methods behind the proxy

    The three implementations of [auth_methods.Authenticator]: OAuth2
    (internal/auth_methods/oauth2/authenticator.go), API keys
    (internal/auth_methods/api_key/authenticator.go) and none
    (internal/auth_methods/no_auth).  Each keeps the laws that the proxy was
    proved against, so what holds of the proxy holds with each of them. *)

From S2P Require Import Prelude GoNumbers GoStrings Namespace RateRules SetupFlow Connection ConnectionFrames Actors Redis KeyMaterial Encryption EncryptService OAuth2Config CredentialStore OAuth2 HttpHeaders ApiKey OAuth2Refresh Proxy.
Open Scope string_scope.
Open Scope list_scope.

Lemma none_in_use (app : AuthApplication) : app = noApplication →
  NoDup (map (λ kv, CanonicalHeaderKey kv.1) (app_Headers app)) ∧ NoDup (map fst (app_QueryParams app)).
Proof. intros ->. split; constructor. Qed.

Lemma single_header k v : NoDup (map (λ kv, CanonicalHeaderKey kv.1) (app_Headers (mkApplication [(k, v)] []))) ∧
  NoDup (map fst (app_QueryParams (mkApplication [(k, v)] []))).
Proof. split; cbn; [apply NoDup_singleton|constructor]. Qed.

(** ** No authentication *)

Definition no_auth : Authenticator unit := {|
  au_Resolve w := (Some noApplication, w);
  au_RecoverFrom401 w := (CannotRecover, w);
  au_Refresh w := (true, w);
  au_SupportsRevoke := false;
  au_Revoke w := (true, w)
|}.

Definition no_auth_laws : AuthenticatorLaws unit (A := no_auth).
Proof. by refine {| au_ok _ := True; au_in_use _ app := app = noApplication; au_distinct _ := none_in_use |}; intros; simplify_eq/=. Defined.

(** ** API keys *)

Section api_key_method.
Context {S : Type} {RS : RedisServer S} {C : Cipher} {ext : External} {X : ApiKeyExternal}.
Context (o : surroundings) (connectionId : string).

Definition api_key_auth : Authenticator (ostore S) := {|
  au_Resolve s := let '(r, s') := apikey_Resolve o connectionId s in (match r with Ok app => Some app | Err _ => None end, s');
  au_RecoverFrom401 s := (CannotRecover, s);
  au_Refresh s := (true, s);
  au_SupportsRevoke := false;
  au_Revoke s := (true, s)
|}.

(** The stored credential decides: its placement and its decrypted secrets. *)
Definition api_key_in_effect (s : ostore S) (app : AuthApplication) : Prop :=
  ∃ cred secrets pt a, GetActiveApiKeyCredential connectionId (o_creds s) = Ok cred ∧
    Decrypt (o_caches s) (ak_EncryptedCredentials cred) = Ok secrets ∧ plaintext_Unmarshal secrets = Some pt ∧
    computeAuthApplication (ak_PlacementSnapshot cred) pt = Ok a ∧
    app = mkApplication (option_list (aa_Header a)) (option_list (aa_Query a)).

Lemma resolved_in_effect s app s' : apikey_Resolve o connectionId s = (Ok app, s') → api_key_in_effect s' app.
Proof.
  unfold apikey_Resolve, resolveAuth. unfold mbind, om_bind. destruct (db_call o tt s) as [[e|u] s1] eqn:Hdb; [done|]. unfold effect.
  destruct (GetActiveApiKeyCredential connectionId (o_creds s1)) as [|cred] eqn:Hcred; [done|]. case_decide; [done|]. unfold or_fail, decrypt_string.
  destruct (Decrypt (o_caches s1) (ak_EncryptedCredentials cred)) as [|secrets] eqn:Hdec; [done|]. cbn beta iota.
  destruct (plaintext_Unmarshal secrets) as [pt|] eqn:Hpt; cbn; [|done].
  destruct (computeAuthApplication (ak_PlacementSnapshot cred) pt) as [|a] eqn:Ha; cbn; [done|]. intros [= <- <-].
  by exists cred, secrets, pt, a.
Qed.

Definition api_key_laws : AuthenticatorLaws (ostore S) (A := api_key_auth).
Proof.
  refine {| au_ok _ := True; au_in_use := api_key_in_effect |}; [| |done|done].
  - intros s app (? & ? & ? & a & _ & _ & _ & _ & ->). cbn. split; [destruct (aa_Header a)|destruct (aa_Query a)]; cbn; apply NoDup_singleton || constructor.
  - intros s app s' _. cbn. pose proof (resolved_in_effect s) as H. destruct (apikey_Resolve o connectionId s) as [[|app'] s1]; [done|].
    intros [= -> ->]. by apply H.
Defined.
End api_key_method.

(** ** OAuth2 *)

Section oauth2_method.
Context {S : Type} {RS : RedisServer S} {C : Cipher} {CL : CipherLaws C} {ext : External} {U : UrlLib} {X : OAuthExternal}.
Context (eo : outside) (o : surroundings).
Hypothesis nonces : ∀ n, String.length (nonce_at eo n) = nonceSize.
Context {A : AuthStore (S := S)} {caller : Caller}.
Hypothesis auth_get_put : ∀ s a, auth_get (auth_put s a) = s.
Context (d : conn_def) (a : AuthOAuth2).

Definition oauth2_auth : Authenticator world := {|
  au_Resolve w := let '(r, w') := Resolve eo o d a w in (match r with Ok headers => Some (mkApplication headers []) | Err _ => None end, w');
  au_RecoverFrom401 w := let '(r, w') := RecoverFrom401 eo o d a w in (match r with Ok _ => Recovered | Err _ => RecoveryFailed end, w');
  au_Refresh w := let '(r, w') := OAuth2.Refresh eo o d a w in (match r with Ok _ => true | Err _ => false end, w');
  au_SupportsRevoke := SupportsRevoke a;
  au_Revoke w := match in_store (Revoke o (newOAuth2 d a (w_mem w))) w with (Ok (Ok _), w') => (true, w') | (_, w') => (false, w') end
|}.

(** The row in the database, if there is one, is that of the connection. *)
Definition own_row (w : world) : Prop := ∀ i, c_Id <$> w_db w = Some i → i = c_Id (w_mem w).

(** Operations that leave the connection in its place. *)
Definition stays {B} (m : op B) : Prop := ∀ w, own_row w → own_row (m w).2 ∧ c_Id (w_mem (m w).2) = c_Id (w_mem w).

Lemma stays_bind {B B'} (m : op B) (k : B → op B') : stays m → (∀ b, stays (k b)) → stays (m ≫= k).
Proof.
  intros Hm Hk w Hw. unfold mbind, op_bind. destruct (Hm w Hw) as [Hw1 Hid]. destruct (m w) as [[e|b] w1]; [done|].
  destruct (Hk b w1 Hw1) as [Hw2 Hid2]. split; [done|]. by rewrite Hid2.
Qed.

Lemma stays_calm {B} (m : op B) : (∀ w, calm_world w (m w).2) → stays m.
Proof.
  intros Hm w Hw. destruct (Hm w) as [_ _ Hdb Hmem]. assert (c_Id (w_mem (m w).2) = c_Id (w_mem w)) as Hid.
  { destruct Hmem as [|Hmem]; [done|]. symmetry. by rewrite (Hw _ Hmem). }
  split; [|done]. intros i Hi. rewrite Hid. apply Hw. by rewrite <- Hdb.
Qed.

Lemma stays_in_store {E B} (m : om (S := S) E B) : stays (in_store m).
Proof. intros w Hw. unfold in_store. destruct (m _) as [r s]. done. Qed.

Lemma stays_refresh mode : stays (refreshAccessToken eo o d a mode).
Proof.
  apply stays_bind; [by intros w Hw|]. intros c. apply stays_bind; [apply stays_in_store|]. intros r.
  assert (∀ h, stays (ignore (MarkHealthState h))) as Hmark.
  { intros h. apply stays_calm. intros w. apply calm_MarkHealthState. }
  assert (∀ e, stays (log_event (S := S) e)) as Hlog.
  { intros e. apply stays_bind; [apply stays_in_store|]. by intros ? w Hw. }
  destruct r as [cat|[t []]]; [| |by intros w Hw].
  - apply stays_bind; [done|]. intros _. apply stays_bind; [destruct (IsPermanent cat); [done|by intros w Hw]|]. by intros ? w Hw.
  - apply stays_bind; [done|]. intros _. apply stays_bind; [done|]. by intros ? w Hw.
Qed.

Lemma stays_getValidToken : stays (getValidToken eo o d a).
Proof.
  apply stays_bind; [by intros w Hw|]. intros c. apply stays_bind; [apply stays_in_store|]. intros [e|t]; [by intros w Hw|].
  apply stays_bind; [by intros w Hw|]. intros now. destruct (IsAccessTokenExpired now t); [apply stays_refresh|by intros w Hw].
Qed.

Lemma stays_Resolve : stays (Resolve eo o d a).
Proof.
  apply stays_bind; [apply stays_getValidToken|]. intros t. apply stays_bind; [apply stays_in_store|]. by intros [] w Hw.
Qed.

Lemma stays_Refresh : stays (OAuth2.Refresh eo o d a).
Proof.
  apply stays_bind; [by intros w Hw|]. intros c. apply stays_bind; [apply stays_in_store|]. intros [e|t]; [by intros w Hw|].
  apply stays_bind; [apply stays_refresh|]. by intros ? w Hw.
Qed.

(** Operations that keep the table of tokens in order. *)
Definition orderly {B} (m : op B) : Prop := ∀ w, table_ok (o_tokens (store_of w)) → table_ok (o_tokens (store_of (m w).2)).

Lemma orderly_bind {B B'} (m : op B) (k : B → op B') : orderly m → (∀ b, orderly (k b)) → orderly (m ≫= k).
Proof. intros Hm Hk w Hw. specialize (Hm w Hw). unfold mbind, op_bind. destruct (m w) as [[e|b] w1]; [done|]. by apply Hk. Qed.

Lemma orderly_store {E B} (m : om (S := S) E B) : moves m → orderly (in_store m).
Proof.
  intros Hm w Hw. specialize (Hm (auth_get (w_auth w))). unfold in_store, store_of in *. destruct (m _) as [r s]. cbn in *. rewrite auth_get_put.
  by destruct Hm as [n ->].
Qed.

Lemma orderly_refresh mode : orderly (refreshAccessToken eo o d a mode).
Proof.
  intros w Hw. pose proof (refresh_step eo o nonces auth_get_put d a mode w Hw) as Hr. destruct (refreshAccessToken eo o d a mode w) as [r w'].
  destruct Hr as [rs Hr]. apply (rf_table _ _ _ _ _ Hr).
Qed.

Lemma orderly_getValidToken : orderly (getValidToken eo o d a).
Proof.
  apply orderly_bind; [by intros w Hw|]. intros c. apply orderly_bind; [apply orderly_store, moves_get_token|]. intros [e|t]; [by intros w Hw|].
  apply orderly_bind; [by intros w Hw|]. intros now. destruct (IsAccessTokenExpired now t); [apply orderly_refresh|by intros w Hw].
Qed.

Lemma orderly_Resolve : orderly (Resolve eo o d a).
Proof.
  apply orderly_bind; [apply orderly_getValidToken|]. intros t. apply orderly_bind; [apply orderly_store, moves_decrypt|]. by intros [] w Hw.
Qed.

Lemma orderly_Refresh : orderly (OAuth2.Refresh eo o d a).
Proof.
  apply orderly_bind; [by intros w Hw|]. intros c. apply orderly_bind; [apply orderly_store, moves_get_token|]. intros [e|t]; [by intros w Hw|].
  apply orderly_bind; [apply orderly_refresh|]. by intros ? w Hw.
Qed.

(** The access token of the row in use. *)
Definition access_token_in_use (w : world) (app : AuthApplication) : Prop :=
  ∃ token access, GetOAuth2Token (c_Id (w_mem w)) (o_tokens (store_of w)) = Ok token ∧
    Decrypt (o_caches (store_of w)) (t_EncryptedAccessToken token) = Ok access ∧
    app = mkApplication [("Authorization", "Bearer " +:+ access)] [].

Definition oauth2_laws : AuthenticatorLaws world (A := oauth2_auth).
Proof.
  refine {| au_ok w := table_ok (o_tokens (store_of w)) ∧ own_row w; au_in_use := access_token_in_use |}.
  - intros w app (token & access & _ & _ & ->). apply single_header.
  - intros w app w' [Hok Hown]. cbn. pose proof (resolve_step eo o nonces auth_get_put d a w) as Hr. pose proof (stays_Resolve w Hown) as [_ Hid].
    destruct (Resolve eo o d a w) as [[|headers] w1]; [done|]. cbn in Hid. intros [= <- <-].
    destruct (Hr headers w1 Hok eq_refl) as (_ & token & access & Ht & Hd & -> & _). exists token, access. by rewrite Hid.
  - intros w [Hok Hown]. cbn. pose proof (orderly_Resolve w Hok). pose proof (stays_Resolve w Hown) as [? _]. by destruct (Resolve eo o d a w).
  - intros w [Hok Hown]. cbn. pose proof (orderly_Refresh w Hok). pose proof (stays_Refresh w Hown) as [? _]. unfold RecoverFrom401. by destruct (OAuth2.Refresh eo o d a w).
Defined.
End oauth2_method.
