(* ===== verification/ProxyExamples.v ===== *)
(** * The proxy on concrete requests

    A connection with a token that has expired, an upstream and a caller's
    writer: the witnesses of the properties of files ApiKey, OAuth2Refresh and
    Proxy, and what reaches the wrong side of the proxy. *)

From S2P Require Import Prelude GoNumbers GoStrings Namespace RateRules SetupFlow Connection ConnectionFrames Actors Redis KeyMaterial Encryption EncryptService AuthExamples OAuth2Config CredentialStore OAuth2 OAuth2Safety OAuth2Examples HttpHeaders ApiKey OAuth2Refresh Proxy Authenticators.
Open Scope string_scope.
Open Scope list_scope.

#[local] Existing Instances plain_cipher plain_cipher_laws example_ext example_auth_store example_caller example_urls example_oauth example_oauth_laws.

Lemma example_get_put : ∀ (s : a_store) a, auth_get (auth_put s a) = s.
Proof. done. Qed.

(** ** API keys *)

#[local] Instance example_plaintext : ApiKeyExternal := {
  plaintext_Marshal p := as_digits (pt_ApiKey p, pt_Username p);
  plaintext_Unmarshal s := (λ '(k, u), mkPlaintext k u) <$> of_digits s
}.

#[local] Instance example_plaintext_laws : ApiKeyExternalLaws example_plaintext.
Proof. split. intros p. cbn. rewrite of_digits_as_digits. by destruct p. Qed.

Definition key_in_header : ApiKeyPlacement := mkPlacement ApiKeyPlacementHeader "X-Api-Key" "Token " "" "".
Definition key_data (f : string) : option string := if decide (f = "api_key") then Some "secret" else None.

Definition keyed : result op_error unit * a_store :=
  PersistCredentials example_outside (working "full" "full") "root.team" "cxn_1" (Some key_in_header) key_data "act_1" example_store.

Lemma api_key_witness : AuthApiKey_Validate [] (Some key_in_header) = [] ∧ keyed.1 = Ok tt ∧
  (apikey_Resolve (working "full" "full") "cxn_1" keyed.2).1 = Ok (mkApplication [("X-Api-Key", "Token secret")] []).
Proof.
  assert (AuthApiKey_Validate [] (Some key_in_header) = []) as Hval by reflexivity.
  pose proof (api_key_in_use example_outside (working "full" "full") (λ _, eq_refl) [] "root.team" "cxn_1" key_in_header key_data "act_1"
    example_store Hval (ex_intro _ _ refines_nil)) as H. fold keyed in H. assert (keyed.1 = Ok tt) as Hok by (vm_compute; reflexivity).
  destruct keyed as [r s'] eqn:Hk. cbn [fst snd] in *. destruct H as (_ & _ & H). destruct (H Hok) as (_ & _ & Huse). split_and!; [done|done|].
  rewrite Huse; [reflexivity|reflexivity| |reflexivity]. assert (o_caches keyed.2 = o_caches example_store) as Hc by (vm_compute; reflexivity).
  by rewrite Hk in Hc.
Defined.

(** ** OAuth2 *)

(** A token with its refresh token; it has expired. *)
Definition sealed (plain : string) : EncryptedField :=
  match EncryptForNamespace example_outside 0 example_caches "root.team" plain with Ok ef => ef | Err _ => mkEncryptedField "" "" end.

Definition expired_token : OAuth2Token :=
  mkOAuth2Token "tok_0" "cxn_1" None (sealed "refresh-0") (sealed "access-0") (Some (start_time - 1)%Z) "read write" "read write" None 0 None None.

Definition expired_world : world :=
  mkWorld (Some example_row) example_row (mkOstore ∅ [expired_token] [] example_caches start_time 0 [] []) 0 0 [] [] ∅ 0 start_time [].

Lemma expired_table : table_ok (o_tokens (store_of expired_world)).
Proof. by apply table_ok_single. Qed.

Lemma expired_own : own_row expired_world.
Proof. by intros i [= <-]. Qed.

(** The provider answers with status 400. *)
Definition refusing : surroundings :=
  mkSurroundings (λ _, LinkUp) (λ _, false) (λ _, false) (λ _, false) (λ _ _, Some (mkResponse 400 "invalid_grant")) (λ _, None) pretty.


(** The token has expired and is refreshed before it is used. *)
Lemma oauth_current_witness :
  ∃ w', Resolve example_outside (working "full" "full") (example_def None) (example_oauth2 None) expired_world = (Ok [("Authorization", "Bearer access-1")], w') ∧
    ∃ token, GetOAuth2Token "cxn_1" (o_tokens (store_of w')) = Ok token.
Proof.
  set (x := Resolve example_outside (working "full" "full") (example_def None) (example_oauth2 None) expired_world).
  assert (x.1 = Ok [("Authorization", "Bearer access-1")]) as Hx by (vm_compute; reflexivity). exists x.2.
  assert (x = (Ok [("Authorization", "Bearer access-1")], x.2)) as Heq by (rewrite <- Hx; by destruct x). split; [done|].
  destruct (oauth_credentials_current (S := gmap string entry) example_outside (working "full" "full") (λ _, eq_refl) example_get_put (example_def None) (example_oauth2 None)
    expired_world _ _ expired_table Heq) as (_ & token & _ & Ht & _). by exists token.
Defined.

(** ** Requests *)

#[local] Instance example_http : HttpLib := {
  parse_url u := Some (u, ∅);
  json_headers := Header_Set "Content-Type" "application/json";
  json_valid _ := true;
  visit_header := map_to_list
}.

#[local] Instance example_http_laws : HttpLibLaws example_http.
Proof. by split. Qed.

Definition answer (status : Z) (text : string) : httpResponse :=
  mkHttpResponse status ∅ [("Checksum", ["c1"])] [(text, None); ("", Some EOF)].

(** The upstream accepts only the given value of the Authorization header; the
    caller's connection takes everything. *)
Definition upstream_for (value : string) : upstream :=
  mkUpstream (λ _ rq, Some (if decide (Header_Get "Authorization" (hq_Header rq) = value) then answer 200 "welcome" else answer 401 "denied"))
    (λ _ chunk, (String.length chunk, false)).

(** A request that brings credentials of its own, in another spelling. *)
Definition forged : ProxyRequest := mkPxRequest "https://api.test/items" "GET" [("authorization", ["Bearer mine"]); ("Accept", ["*/*"])] (BodyRaw "").

#[local] Existing Instance oauth2_auth.

Definition live_token : OAuth2Token :=
  mkOAuth2Token "tok_0" "cxn_1" None (sealed "refresh-0") (sealed "access-0") (Some (start_time + 3600000000000)%Z) "read write" "read write" None 0 None None.

Definition live_world : world :=
  mkWorld (Some example_row) example_row (mkOstore ∅ [live_token] [] example_caches start_time 0 [] []) 0 0 [] [] ∅ 0 start_time [].

Definition start_state : pstate world := mkPstate live_world 0 [] 0.

Definition the_auth : Authenticator world := oauth2_auth example_outside (working "full" "full") (example_def None) (example_oauth2 None).

Definition the_laws : AuthenticatorLaws world (A := the_auth) :=
  oauth2_laws example_outside (working "full" "full") (λ _, eq_refl) example_get_put (example_def None) (example_oauth2 None).

Lemma live_ok : au_ok (AuthenticatorLaws := the_laws) (ps_auth start_state).
Proof. split; [by apply table_ok_single|by intros i [= <-]]. Qed.

(** The token was revoked at the provider: the first request is refused, the
    second carries a new one. *)
Lemma proxied_request_witness : let x := proxy_ProxyRequest (A := the_auth) (upstream_for "Bearer access-1") true RequestTypeProxy forged start_state in
  (px_StatusCode <$> x.1) = Some 200%Z ∧ ∃ l, attempted (AL := the_laws) (of_caller forged) true true start_state x.2 l ∧ length l = 2%nat.
Proof.
  pose proof (proxied_request_sound (AL := the_laws) (upstream_for "Bearer access-1") true RequestTypeProxy forged start_state live_ok) as H.
  set (x := proxy_ProxyRequest (A := the_auth) (upstream_for "Bearer access-1") true RequestTypeProxy forged start_state) in *.
  assert ((px_StatusCode <$> x.1) = Some 200%Z ∧ length (ps_sent x.2) = 2%nat) as [H1 H2] by (vm_compute; done).
  destruct x as [r s']. cbn zeta. split; [exact H1|]. destruct H as (l & Hl & _). exists l. split; [done|].
  destruct (at_sent _ _ _ _ _ _ Hl) as (reqs & Hs & Hf). cbn in Hs, H2. rewrite Hs in H2. by rewrite (Forall2_length _ _ _ Hf).
Defined.

Definition raw_get : httpRequest := mkHttpRequest "GET" "https://api.test/items" ∅ ∅ (BodyRaw "").
Definition new_writer : writer := mkWriter ∅ None [] 0 0.

Lemma raw_request_witness :
  let x := proxy_ProxyRequestRaw (A := the_auth) (upstream_for "Bearer access-1") true true false RequestTypeProxy (Some raw_get) new_writer start_state in
  x.1 = None ∧ rw_Chunks x.2.1 = ["welcome"] ∧ ∃ l, attempted (AL := the_laws) (of_raw raw_get) true true start_state x.2.2 l.
Proof.
  pose proof (raw_request_sound (AL := the_laws) (upstream_for "Bearer access-1") true true false RequestTypeProxy raw_get new_writer start_state live_ok) as H.
  set (x := proxy_ProxyRequestRaw (A := the_auth) (upstream_for "Bearer access-1") true true false RequestTypeProxy (Some raw_get) new_writer start_state) in *.
  assert (x.1 = None ∧ rw_Chunks x.2.1 = ["welcome"]) as [H1 H2] by (vm_compute; done).
  destruct x as [e [w' s']]. destruct H as (l & Hl & _). cbn in *. split_and!; [done|done|]. by exists l.
Defined.

Lemma stream_witness : let '(e, w') := streamResponse (upstream_for "") true new_writer (answer 200 "welcome") in
  delivered (upstream_for "") (hr_Body (answer 200 "welcome")) e (rw_Chunks w') ∧ rw_Chunks w' = ["welcome"] ∧
  Header_Values "Trailer:Checksum" (rw_Header w') = ["c1"].
Proof.
  pose proof (stream_exact (upstream_for "") true new_writer (answer 200 "welcome") ltac:(apply NoDup_singleton)) as H.
  set (x := streamResponse (upstream_for "") true new_writer (answer 200 "welcome")) in *.
  assert (rw_Chunks x.2 = ["welcome"] ∧ Header_Values "Trailer:Checksum" (rw_Header x.2) = ["c1"]) as [H1 H2] by (vm_compute; done).
  destruct x as [e w']. cbn in H1, H2. destruct H as (h & out & _ & Hc & Hd & _). cbn in Hc. rewrite Hc. split_and!; [done|by rewrite <- Hc|done].
Defined.

(** ** What goes wrong *)

(** The upstream answers once with 401, and then no more. *)
Definition failing : upstream :=
  mkUpstream (λ n _, if decide (n = 0)%nat then Some (answer 401 "denied") else None) (λ _ chunk, (String.length chunk, false)).

Definition lost_body : option raw_error * option Z * list string :=
  let '(e, (w, _)) := proxy_ProxyRequestRaw (A := the_auth) failing true true false RequestTypeProxy (Some raw_get) new_writer start_state in
  (e, fst <$> rw_Sent w, rw_Chunks w).

Definition kept_body : option (Z * body) :=
  (λ r, (px_StatusCode r, px_Body r)) <$> (proxy_ProxyRequest (A := the_auth) failing true RequestTypeProxy forged start_state).1.

Definition session_request : Header := {["Cookie" := ["SESSION-ID=s1"]; "X-Xsrf-Token" := ["x1"]; "Authorization" := ["Bearer jwt"]]}.

(** What goes wrong, on runs of the model.  When a streamed request is
    answered with 401, the credentials are renewed and the second request
    fails, the caller gets the 401 without its body and an error of the stream,
    while the same request sent as a whole returns the 401 unchanged; and the
    cookie and the token that authenticate a session with the proxy are passed
    on to the upstream, unlike the Authorization header. *)
Theorem proxy_defects :
  lost_body = (Some (StreamFailed UpstreamFailed), Some 401%Z, []) ∧
  kept_body = Some (401%Z, BodyRaw "denied") ∧
  (let out := copyInboundHeadersForRawProxy map_to_list ∅ session_request in
   out !! "Cookie" = Some ["SESSION-ID=s1"] ∧ out !! "X-Xsrf-Token" = Some ["x1"] ∧ out !! "Authorization" = None).
Proof. vm_compute. by split_and!. Qed.
